(* ===== verification/_CoqProject ===== *)
-Q . S2P
Prelude.v
RustStd.v
SchemaTypes.v
ProtoSchema.v
Codec.v
DescriptorCodec.v
DescriptorCodecLaws.v
ProtocModel.v
Blob.v
Compat.v
Effects.v
Operations.v
Mutations.v
MutationTracking.v
MutationFields.v
MutationRefs.v
Reassemble.v
Printer.v
PrinterProps.v
ProtoCodegen.v
ProtoCodegenProps.v
ProtoRead.v
FbsSchema.v
FbsMutations.v
FbsPrinter.v
FbsCompiler.v
FbsProps.v
ChangeModel.v
Prog.v
ObjectDb.v
RecordStore.v
Idempotency.v
ChangeStore.v
AccessStore.v
Repository.v
CoreTypes.v
Integrity.v
Access.v
AccessProps.v
AccessEffects.v
ChangeJsonModel.v
ChangeLedger.v
LedgerProps.v
Flow.v
FlowProps.v
Writes.v
Queries.v
Dependencies.v
History.v
Serving.v
Validation.v
Changes.v
PruneProps.v
FlowRules.v
QueryRules.v
ClosureProps.v
QueryProps.v
ServingProps.v
HistoryProps.v
WriteProps.v
ValidationProps.v
ApplyProps.v
AccessModel.v
FlowModel.v
QueryModel.v
FbsModel.v
OpenApiAst.v
OpenApiParser.v
OpenApiPrinter.v
OpenApiCompiler.v
OpenApiProps.v
OpenApiParserProps.v
OpenApiModel.v
ServerConfig.v
JwtAuth.v
JjStore.v
JjRepo.v
JjGc.v
JjProps.v
JjModel.v
