(* ===== verification/Prelude.v ===== *)
(** * SchemaHub: a verification development

    SchemaHub is a registry of interface schemas: it stores the declarations of
    [.proto], [.fbs] and OpenAPI files one by one in a versioned repository (jj),
    edits them through typed operations, checks every publication for integrity
    and compatibility, reviews changes as records, and serves generated artifacts.
    This library models the core of the program, [src/crates/schemahub-core], its
    types, the protobuf, FlatBuffers and OpenAPI compilers, the jj layer with its
    stores and the in-memory object database, and the configuration and token
    authentication of the server, and proves what makes them correct.

    ** The parts and how they interact

    A request enters [Core] ([schemahub-core]) with a token that the server's
    authentication checks. [Access] authenticates the caller
    and decides, from the project and role stores, what it may do. A read resolves
    a ref to an immutable commit through the jj layer and asks the compiler of the
    schema's format ([Compiler], a record of operations) about the blobs it finds.
    A write loads the schema, lets the compiler apply operations, passes the
    compatibility gate, and publishes through jj with a policy that inspects the
    exact tree about to be published; a receipt in the object database makes it
    idempotent. A change record collects edits, a validation and reviews in the
    ledger, and applying it is such a write. The closure of a schema under its
    imports is handed to a compiler to generate code, and what is generated is
    stored once per request and served from then on. The jj layer keeps schemas as
    trees of files below commits, and every publication as an operation with a
    view, in the object database.

    ** Files

    - [Prelude], [RustStd]: outcomes of Rust code, the error monad and its
      tactics; wrapping integers, strings, ordered and hash maps as the sources
      use them. The order of a hash map is the class [HashOrder].
    - [SchemaTypes]: [crates/schemahub-types]: paths, blobs, mutations, effects,
      rules, errors and the record [Compiler] for its trait.
    - [ProtoSchema], [Codec], [DescriptorCodec], [DescriptorCodecLaws],
      [ProtocModel], [Blob]: the descriptors, the binary codec ([codec.rs]) with
      its laws, and versioned blobs ([blob.rs]) of the protobuf compiler.
      [Compat]: [typecompat.rs], [compat.rs], [diff.rs] and the theorems on them.
      [Operations], [Mutations]: [operations.rs], [mutations.rs], with the theorems
      in [MutationTracking], [MutationFields], [MutationRefs]. [Effects]: an effect
      applied to a snapshot. [Reassemble], [Printer], [ProtoRead]: [parse.rs],
      [reassemble.rs], [printer.rs], [read.rs], [conflict.rs], [lib.rs];
      [PrinterProps] on the printer. [ProtoCodegen], [ProtoCodegenProps]:
      [codegen.rs].
    - [FbsSchema], [FbsMutations], [FbsPrinter], [FbsCompiler]: the files of
      [schemahub-compiler-flatbuffers], blobs and compatibility included;
      [FbsProps] proves, [FbsModel] instantiates.
    - [OpenApiAst], [OpenApiParser], [OpenApiPrinter], [OpenApiCompiler]: the files
      of [schemahub-compiler-openapi]: the tree and its blobs, the parser of YAML
      documents, the printer, and mutations, references, compatibility, diffs and
      descriptors; [OpenApiProps], [OpenApiParserProps] prove, [OpenApiModel]
      instantiates.
    - [Prog]: programs of requests, what it means to run one against a service
      that answers arbitrarily, interleaved with other callers, or stopped in the
      middle. [ObjectDb]: [schemahub-jj/src/object_db.rs] and [memory_db.rs], and
      its record methods as requests; [RecordStore]: the refinement
      of a table of records by a store over the database, proved once.
    - [ChangeModel], [ChangeStore], [ChangeLedger]: [change_record/model.rs],
      [store.rs], [ledger.rs]; [LedgerProps] proves.
      [Validation], [ValidationProps]: [change_record/validation.rs]. [Changes],
      [ApplyProps]: [changes.rs].
    - [AccessStore], [Repository], [Access]: [auth_store.rs], [auth_object_db.rs],
      [repository.rs], [auth_impls.rs], [auth.rs], [projects.rs]; [AccessProps],
      [AccessEffects] prove.
    - [CoreTypes], [Integrity]: the errors and the compiler registry,
      [reference_integrity.rs], import resolution, [mutation/compat.rs].
      [Idempotency], [Flow], [FlowProps], [PruneProps]: [mutation/idempotency.rs].
      [Writes], [FlowRules], [WriteProps]: [mutation/single.rs],
      [mutation/transaction.rs], [refs.rs], [lifecycle.rs], [gc.rs].
    - [Queries], [Dependencies], [History], [Serving]: [exploration.rs],
      [mutation/closure.rs], [codegen.rs], [history.rs], [conflict.rs],
      [serving.rs]; [QueryRules], [QueryProps], [ClosureProps], [HistoryProps],
      [ServingProps] prove.
    - [JjStore], [JjRepo], [JjGc]: [schemahub-jj]: the stores of files, trees,
      commits, views and operations ([jj_backend.rs], [jj_op_store.rs],
      [jj_op_heads.rs]), the operations on repositories ([repo.rs], [lib.rs]: reading
      and writing schemas, bookmarks, tags, merges, the operation log, undo) and
      garbage collection; [JjGc], [JjProps] prove, [JjModel] instantiates.
    - [ServerConfig]: [schemahub-server/src/config.rs]. [JwtAuth]:
      [jwt_auth.rs] with its refresh loop and the readiness flags of [http.rs], on
      concrete inputs at its end.
    - [ChangeJsonModel], [AccessModel], [FlowModel], [QueryModel]: concrete
      instances of the parameters, with which the
      theorems that have hypotheses are applied, and the schedules that show what
      the code does not prevent.

    ** What the theorems show

    - Records: every interleaving of ledger calls moves a change record along its
      lifecycle and keeps its invariant, also when clients guess etags, in which
      case a transition may start from an older record; an interrupted apply can
      be finished; the stores over the database implement their tables.
    - Edits: the effect of a batch of operations is exactly the difference between
      the stored and the final schema, for the protobuf and FlatBuffers compilers,
      and that of the operations one after the other for OpenAPI; no reference to a
      removed declaration is left; field numbers stay unique and removed numbers
      are not reused in a message that stays; FlatBuffers edits without a type
      change are compatible by construction.
    - Compatibility: the three checkers implement declarative specifications, which
      follow the code; where the documented tables differ, the theorem says so.
    - Blobs and sources: what is encoded decodes to itself, what is split is put
      together again, references to OpenAPI components read back, the
      OpenAPI parser returns on every source.
    - Access: every operation on projects, members and repositories meets its
      specification, changes and answers alike; decisions are those of the role
      table; reachable states keep their invariant; reads ask for immutable commits
      of readable repositories, and for little else.
    - Writes: one publication per receipt whatever crashes; every direct write is
      authorized, guarded and carries the policy; the policy implies integrity;
      applying a record publishes its validated and approved plan as long as
      etags are not guessed; receipts stay below the capacity.
    - Queries and artifacts: closures are complete, consistent and found in
      finitely many rounds; diffs are exact; generated files resolve; the first
      materialization of an artifact is what everyone is served, and it is well
      formed.
    - The jj layer: what is stored stays readable; a tree of schemas loads what was
      planned; every publication is a new head that the policy accepted; the end of
      the operation log is what the bounded read gives; undo restores by counting
      content operations; garbage collection removes exactly what no operation
      reaches; the walks return.
    - The server: a configuration loads exactly if it satisfies the rules; a token
      is accepted only if a fresh key verifies it and its claims hold; while
      readiness is withdrawn for stale keys nobody is let in.
    - Where the code does not do what it means to, a theorem exhibits it: an apply
      that skips an approval, two publications for an expired lease, a lease that a
      guessed etag overwrites, a last Owner who demotes themselves, a resolution
      of a conflict that skips every guard, a union member replaced and fields
      reordered under FULL, directions of OpenAPI changes that differ from the
      table, an undo that brings back an undone change.

    ** Bounds and fuel

    Integers are [Z] with the wrap-around of a release build written out
    ([wrap_u32], [wrap_i32], ...); [usize] has 64 bits. Recursion that is not
    structural has fuel: the decoder of nested descriptors as much as it has bytes
    (each level consumes one), a closure more rounds than there are schemas, the
    traversal of dependencies one more than its limit of 10,000, a type
    specification its length, the scopes of a name the number of its parts, the
    parser of a YAML value one more than its height, the walks over commits,
    operations and trees one more than are stored. Running
    out of fuel is the outcome [Stuck], and theorems show that it is not reached
    ([closure_terminates], [dependencies_terminate], [parse_openapi_returns],
    [jj_walks_return], ...).

    ** Assumptions

    Code outside the repository is a parameter: the protobuf and FlatBuffers
    syntax crates (their descriptor types are records of the fields that the
    sources use, the rest of each type is unknown), their parsers and generators,
    [serde_json], [serde_yaml] ([Yaml]), [toml], the parser of URLs,
    [jsonwebtoken] ([JwtLib]), SHA-256, BLAKE2, hexadecimal codes, number
    formatting, [prost] and jj-lib ([JjLib], [JjCodec], [JjRuntime]). What is assumed
    of them is documented behaviour, stated as classes of laws (a value that was
    written reads back, where JSON loses numbers that are not finite and may
    change others; [JjLaws], [JjHeadLaws], [JjTreeLaws], [JjTxLaws], [JjReturns]
    for jj-lib), and every such
    class has an instance. For [Core] the jj layer is a service that answers its
    requests: commits do not change, refs may move between any two requests, a
    publication runs the policy it was given on the tree it publishes. Stores may
    fail at every request. Clock and id generator answer anything (ids are fresh
    where a theorem says so). During one call projects, roles and configurations
    stay as they are, while change records and artifacts are shared with other
    callers. Calls of the jj layer on one repository run one after the other, under
    its publication guard.

    ** Not modelled

    Log records, metrics, lock guards and the wiring of collaborators; the redb and
    PostgreSQL databases of [schemahub-jj], whose behaviour is that of their
    drivers; transport of [schemahub-server] (HTTP, TLS, wire conversions,
    services, start-up, observability);
    [schemahub-cli], which calls the server; [schemahub-api], which is generated;
    the readers of legacy files; the TypeScript front end. *)
From stdpp Require Export base list gmap strings sorting.
From Stdlib Require Export ZArith Lia.

(** ** Outcomes of Rust code

    A fallible Rust function returns [Result<A, E>] or panics; the model adds
    [Stuck], the outcome of a recursion that used up its fuel. Every
    definition with fuel has a theorem that [Stuck] is not reached. *)
Inductive outcome (E A : Type) : Type :=
  | Ok (a : A)
  | Err (e : E)
  | Panic
  | Stuck.
Arguments Ok {E A} a.
Arguments Err {E A} e.
Arguments Panic {E A}.
Arguments Stuck {E A}.

#[export] Instance outcome_ret {E} : MRet (outcome E) := λ A a, Ok a.
#[export] Instance outcome_bind {E} : MBind (outcome E) := λ A B f m,
  match m with
  | Ok a => f a
  | Err e => Err e
  | Panic => Panic
  | Stuck => Stuck
  end.
#[export] Instance outcome_fmap {E} : FMap (outcome E) := λ A B f m,
  match m with
  | Ok a => Ok (f a)
  | Err e => Err e
  | Panic => Panic
  | Stuck => Stuck
  end.

(** [Result::map_err]. *)
Definition map_err {E E' A} (f : E → E') (m : outcome E A) : outcome E' A :=
  match m with
  | Ok a => Ok a
  | Err e => Err (f e)
  | Panic => Panic
  | Stuck => Stuck
  end.

(** [Option::ok_or_else]. *)
Definition ok_or {E A} (o : option A) (e : E) : outcome E A :=
  match o with Some a => Ok a | None => Err e end.

(** An early [return Err(..)] guarded by a condition. *)
Definition fail_if {E} (b : bool) (e : E) : outcome E unit :=
  if b then Err e else Ok tt.

Definition is_ok {E A} (m : outcome E A) : bool :=
  match m with Ok _ => true | _ => false end.

(** The value of a run, or a default. *)
Definition unwrap_or {E A} (m : outcome E A) (d : A) : A :=
  match m with Ok a => a | _ => d end.

Lemma is_ok_unwrap {E A} (m : outcome E A) (d : A) : is_ok m = true → m = Ok (unwrap_or m d).
Proof. by destruct m. Qed.

(** ** Inverting a successful run *)

Lemma bind_Ok {E A B} (m : outcome E A) (f : A → outcome E B) b :
  m ≫= f = Ok b → ∃ a, m = Ok a ∧ f a = Ok b.
Proof. destruct m as [a| | |]; try done. by exists a. Qed.

Lemma fmap_Ok {E A B} (m : outcome E A) (f : A → B) b :
  f <$> m = Ok b → ∃ a, m = Ok a ∧ f a = b.
Proof. destruct m as [a| | |]; try done. intros [= <-]. by exists a. Qed.

Lemma map_err_Ok {E E' A} (f : E → E') (m : outcome E A) a : map_err f m = Ok a → m = Ok a.
Proof. by destruct m as [a'| | |]; try done; intros [= ->]. Qed.

Lemma ok_or_Ok {E A} (o : option A) (e : E) a : ok_or o e = Ok a → o = Some a.
Proof. by destruct o as [a'|]; try done; intros [= ->]. Qed.

Lemma fail_if_Ok {E} (b : bool) (e : E) u : fail_if b e = Ok u → b = false.
Proof. by destruct b. Qed.

(** Take apart a hypothesis that a monadic run returned [Ok]. *)
Ltac ok_inv H :=
  lazymatch type of H with
  | _ ≫= _ = Ok _ =>
    let x := fresh "x" in let Hx := fresh "Hok" in
    apply bind_Ok in H as (x & Hx & H); cbv beta in H; ok_leaf Hx; ok_inv H
  | (let '(_, _) := ?p in _) = Ok _ => let E := fresh "E" in destruct p eqn:E; ok_inv H
  | Ok _ = Ok _ => injection H as H
  | _ => idtac
  end
with ok_leaf H :=
  lazymatch type of H with
  | fail_if _ _ = Ok _ => apply fail_if_Ok in H
  | ok_or _ _ = Ok _ => apply ok_or_Ok in H
  | map_err _ _ = Ok _ => apply map_err_Ok in H
  | _ => idtac
  end.
