(* ===== verification/RustStd.v ===== *)
(** * RustStd: the parts of Rust's language and standard library the code uses

    Fixed-width integers with wrap-around (release semantics: [overflow-checks]
    is not enabled in any profile of [Cargo.toml]), bytes, UTF-8 validation as
    in [std::str::from_utf8], the [str] methods the sources call, decimal
    formatting and parsing of [u64], and in-order iteration of [BTreeMap] and
    [BTreeSet]. A Rust [String] is the Rocq [string] of its UTF-8 bytes. *)
From S2P Require Import Prelude.
From Stdlib Require Import Strings.Byte Ascii DecimalString DecimalN DecimalPos.

Open Scope Z_scope.

(** ** Integers *)

Definition u64_max : Z := 2 ^ 64 - 1.
Definition i32_max : Z := 2 ^ 31 - 1.
Definition i32_min : Z := - 2 ^ 31.
Definition i64_max : Z := 2 ^ 63 - 1.
Definition isize_max : Z := 2 ^ 63 - 1.

Definition wrap_u64 (z : Z) : Z := z mod 2 ^ 64.
Definition wrap_u32 (z : Z) : Z := z mod 2 ^ 32.
Definition wrap_i32 (z : Z) : Z := (z + 2 ^ 31) mod 2 ^ 32 - 2 ^ 31.
Definition wrap_i64 (z : Z) : Z := (z + 2 ^ 63) mod 2 ^ 64 - 2 ^ 63.

Definition in_u64 (z : Z) : Prop := 0 <= z < 2 ^ 64.
Definition in_u32 (z : Z) : Prop := 0 <= z < 2 ^ 32.
Definition in_i32 (z : Z) : Prop := - 2 ^ 31 <= z < 2 ^ 31.
Definition in_i64 (z : Z) : Prop := - 2 ^ 63 <= z < 2 ^ 63.

Lemma wrap_i32_id z : in_i32 z → wrap_i32 z = z.
Proof. unfold in_i32, wrap_i32. intros ?. rewrite Z.mod_small; lia. Qed.

Lemma wrap_i64_id z : in_i64 z → wrap_i64 z = z.
Proof. unfold in_i64, wrap_i64. intros ?. rewrite Z.mod_small; lia. Qed.

Lemma wrap_u64_id z : in_u64 z → wrap_u64 z = z.
Proof. unfold in_u64, wrap_u64. intros ?. by rewrite Z.mod_small. Qed.

Lemma wrap_u64_range z : in_u64 (wrap_u64 z).
Proof. unfold in_u64, wrap_u64. apply Z.mod_pos_bound. lia. Qed.

Lemma wrap_i32_range z : in_i32 (wrap_i32 z).
Proof.
  unfold in_i32, wrap_i32. pose proof (Z.mod_pos_bound (z + 2 ^ 31) (2 ^ 32)). lia.
Qed.

(** ** Bytes *)

Abbreviation byte := Byte.byte.

Definition u8 (b : byte) : Z := Z.of_N (Byte.to_N b).

Definition byte_of_Z (z : Z) : byte :=
  match Byte.of_N (Z.to_N (z mod 256)) with Some b => b | None => x00 end.

#[export] Instance byte_eq_dec : EqDecision byte := Byte.byte_eq_dec.
#[export] Instance byte_countable : Countable byte :=
  inj_countable Byte.to_N Byte.of_N Byte.of_to_N.

Lemma u8_range b : 0 <= u8 b < 256.
Proof. unfold u8. pose proof (Byte.to_N_bounded b). lia. Qed.

Lemma byte_of_u8 b : byte_of_Z (u8 b) = b.
Proof.
  unfold byte_of_Z. rewrite Z.mod_small by apply u8_range.
  unfold u8. rewrite N2Z.id. by rewrite Byte.of_to_N.
Qed.

Lemma u8_of_Z z : u8 (byte_of_Z z) = z mod 256.
Proof.
  unfold byte_of_Z. pose proof (Z.mod_pos_bound z 256 ltac:(lia)) as Hb.
  destruct (Byte.of_N (Z.to_N (z mod 256))) as [b|] eqn:E.
  - apply Byte.to_of_N in E. unfold u8. rewrite E. lia.
  - apply Byte.of_N_None_iff in E. lia.
Qed.

Lemma u8_of_Z_small z : 0 <= z < 256 → u8 (byte_of_Z z) = z.
Proof. intros ?. rewrite u8_of_Z. by apply Z.mod_small. Qed.

(** ** UTF-8 *)

Definition in_range (lo hi : Z) (b : byte) : bool := (lo <=? u8 b) && (u8 b <=? hi).

(** A continuation byte [0x80..=0xBF]. *)
Definition is_cont (b : byte) : bool := in_range 128 191 b.

(** [std::str::from_utf8]'s acceptance test. *)
Fixpoint utf8_valid (bs : list byte) : bool :=
  match bs with
  | [] => true
  | b0 :: t0 =>
    if u8 b0 <? 128 then utf8_valid t0 else
    match t0 with
    | [] => false
    | b1 :: t1 =>
      if in_range 194 223 b0 then is_cont b1 && utf8_valid t1 else
      match t1 with
      | [] => false
      | b2 :: t2 =>
        if in_range 224 239 b0 then
          (if u8 b0 =? 224 then in_range 160 191 b1
           else if u8 b0 =? 237 then in_range 128 159 b1
           else is_cont b1)
          && is_cont b2 && utf8_valid t2
        else
        match t2 with
        | [] => false
        | b3 :: t3 =>
          in_range 240 244 b0
          && (if u8 b0 =? 240 then in_range 144 191 b1
              else if u8 b0 =? 244 then in_range 128 143 b1
              else is_cont b1)
          && is_cont b2 && is_cont b3 && utf8_valid t3
        end
      end
    end
  end.

(** [str::as_bytes] and [std::str::from_utf8]. *)
Definition as_bytes (s : string) : list byte := String.list_byte_of_string s.

Definition from_utf8 (bs : list byte) : option string :=
  if utf8_valid bs then Some (String.string_of_list_byte bs) else None.

(** The type invariant of [String]: its bytes are UTF-8. *)
Definition valid_str (s : string) : Prop := utf8_valid (as_bytes s) = true.

#[export] Instance valid_str_dec s : Decision (valid_str s).
Proof. unfold valid_str. apply _. Defined.

Lemma from_utf8_as_bytes s : valid_str s → from_utf8 (as_bytes s) = Some s.
Proof.
  unfold valid_str, from_utf8. intros ->.
  unfold as_bytes. by rewrite String.string_of_list_byte_of_string.
Qed.

(** [str::len]: the number of bytes. *)
Definition str_len (s : string) : Z := Z.of_nat (String.length s).

Lemma length_as_bytes s : length (as_bytes s) = String.length s.
Proof.
  unfold as_bytes, String.list_byte_of_string. rewrite length_map.
  induction s; simpl; congruence.
Qed.

(** ** Characters, [trim], [is_control] *)

(** The byte slices of the [char]s of a string: a slice starts at each byte
    that is not a continuation byte. *)
Fixpoint char_slices (bs : list byte) : list (list byte) :=
  match bs with
  | [] => []
  | b :: t =>
    let rest := char_slices t in
    match t, rest with
    | c :: _, s :: r => if is_cont c then (b :: s) :: r else [b] :: rest
    | _, _ => [b] :: rest
    end
  end.

Definition chars (s : string) : list (list byte) := char_slices (as_bytes s).

Lemma concat_char_slices bs : concat (char_slices bs) = bs.
Proof.
  induction bs as [|b t IH]; [done|]. simpl.
  destruct t as [|c t']; [done|].
  destruct (char_slices (c :: t')) as [|s r] eqn:E; simpl in *.
  - by rewrite <- IH.
  - destruct (is_cont c); simpl; by rewrite <- IH.
Qed.

(** [char::is_control] (general category Cc) on a character's UTF-8 bytes. *)
Definition is_control (c : list byte) : bool :=
  match c with
  | [b] => (u8 b <? 32) || (u8 b =? 127)
  | [b; b'] => (u8 b =? 194) && in_range 128 159 b'
  | _ => false
  end.

(** [char::is_whitespace] (the White_Space property) on UTF-8 bytes. *)
Definition is_whitespace (c : list byte) : bool :=
  match map u8 c with
  | [b] => ((9 <=? b) && (b <=? 13)) || (b =? 32)
  | [194; b] => (b =? 133) || (b =? 160)
  | [225; 154; 128] => true
  | [226; 128; b] => ((128 <=? b) && (b <=? 138)) || (b =? 168) || (b =? 169) || (b =? 175)
  | [226; 129; 159] => true
  | [227; 128; 128] => true
  | _ => false
  end.

Fixpoint drop_while {A} (f : A → bool) (l : list A) : list A :=
  match l with
  | [] => []
  | x :: t => if f x then drop_while f t else l
  end.

Definition trim_list {A} (f : A → bool) (l : list A) : list A :=
  rev (drop_while f (rev (drop_while f l))).

(** [str::trim]. *)
Definition trim (s : string) : string :=
  String.string_of_list_byte (concat (trim_list is_whitespace (chars s))).

Definition has_control (s : string) : bool := existsb is_control (chars s).

Definition str_is_empty (s : string) : bool :=
  match s with EmptyString => true | _ => false end.

(** ** Substring search and splitting *)

Fixpoint contains_char (c : ascii) (s : string) : bool :=
  match s with
  | EmptyString => false
  | String a t => bool_decide (a = c) || contains_char c t
  end.

(** [str::split(char)]: one more piece than there are separators. *)
Fixpoint split_char (c : ascii) (s : string) : list string :=
  match s with
  | EmptyString => [EmptyString]
  | String a t =>
    if bool_decide (a = c) then EmptyString :: split_char c t
    else match split_char c t with
         | [] => [String a EmptyString]
         | p :: r => String a p :: r
         end
  end.

(** [str::split_once(char)]. *)
Fixpoint split_once (c : ascii) (s : string) : option (string * string) :=
  match s with
  | EmptyString => None
  | String a t =>
    if bool_decide (a = c) then Some (EmptyString, t)
    else '(p, r) ← split_once c t; Some (String a p, r)
  end.

(** [str::rfind(char)] with the two slices [..=i] and [i+1..] it is used for. *)
Fixpoint rfind_split (c : ascii) (s : string) : option (string * string) :=
  match s with
  | EmptyString => None
  | String a t =>
    match rfind_split c t with
    | Some (p, r) => Some (String a p, r)
    | None => if bool_decide (a = c) then Some (String a EmptyString, t) else None
    end
  end.

(** [s.rsplit(c).next()], which is never [None]. *)
Definition rsplit_next (c : ascii) (s : string) : string :=
  match rfind_split c s with Some (_, r) => r | None => s end.

(** [str::rsplit_once]. *)
Fixpoint rsplit_once (c : ascii) (s : string) : option (string * string) :=
  match s with
  | EmptyString => None
  | String a t =>
    match rsplit_once c t with
    | Some (p, r) => Some (String a p, r)
    | None => if bool_decide (a = c) then Some (EmptyString, t) else None
    end
  end.

(** [str::strip_prefix]. *)
Fixpoint strip_prefix (p s : string) : option string :=
  match p, s with
  | EmptyString, _ => Some s
  | String a p', String b s' => if bool_decide (a = b) then strip_prefix p' s' else None
  | String _ _, EmptyString => None
  end.

Definition starts_with (p s : string) : bool := bool_decide (is_Some (strip_prefix p s)).

(** [str::ends_with]. *)
Fixpoint ends_with (suffix s : string) : bool :=
  bool_decide (s = suffix) ||
  match s with EmptyString => false | String _ t => ends_with suffix t end.

(** [str::strip_suffix(char)]. *)
Fixpoint strip_suffix_char (c : ascii) (s : string) : option string :=
  match s with
  | EmptyString => None
  | String a EmptyString => if bool_decide (a = c) then Some EmptyString else None
  | String a t => String a <$> strip_suffix_char c t
  end.

Definition to_ascii_lowercase_char (a : ascii) : ascii :=
  let n := N_of_ascii a in
  if ((65 <=? n) && (n <=? 90))%N then ascii_of_N (n + 32) else a.

Fixpoint to_ascii_lowercase (s : string) : string :=
  match s with
  | EmptyString => EmptyString
  | String a t => String (to_ascii_lowercase_char a) (to_ascii_lowercase t)
  end.

Fixpoint join (sep : string) (l : list string) : string :=
  match l with
  | [] => EmptyString
  | [x] => x
  | x :: t => (x +:+ sep +:+ join sep t)%string
  end.

(** [Option::is_none] and [Option::is_some]. *)
Definition is_none {A} (o : option A) : bool := match o with None => true | Some _ => false end.
Definition is_some {A} (o : option A) : bool := negb (is_none o).

Definition NEWLINE : ascii := "010"%char.
Definition CARRIAGE_RETURN : ascii := "013"%char.
Definition BACKSLASH : ascii := "092"%char.
Definition DOUBLE_QUOTE : ascii := "034"%char.

Lemma contains_char_app c s t : contains_char c (s +:+ t) = contains_char c s || contains_char c t.
Proof.
  induction s as [|a s IH]; [done|]. change (String a s +:+ t)%string with (String a (s +:+ t)). cbn.
  by rewrite IH, orb_assoc.
Qed.

Lemma str_app_assoc (s t u : string) : ((s +:+ t) +:+ u = s +:+ (t +:+ u))%string.
Proof.
  induction s as [|a s IH]; [done|].
  change (String a ((s +:+ t) +:+ u) = String a (s +:+ (t +:+ u)))%string. by rewrite IH.
Qed.

(** A string of one character. *)
Definition of_char (c : ascii) : string := String c EmptyString.

(** A newline, a line, a quoted text, and [i as i32]. *)
Definition nl : string := of_char NEWLINE.
Definition line (s : string) : string := (s +:+ nl)%string.
Definition quoted (s : string) : string := (of_char DOUBLE_QUOTE +:+ s +:+ of_char DOUBLE_QUOTE)%string.
Definition as_i32 (i : nat) : Z := wrap_i32 (Z.of_nat i).

(** [str::replace(char, &str)]. *)
Fixpoint replace_char (c : ascii) (by_ s : string) : string :=
  match s with
  | EmptyString => EmptyString
  | String a t => ((if bool_decide (a = c) then by_ else of_char a) +:+ replace_char c by_ t)%string
  end.

(** [str::replace] of a pattern that is not empty; [skip] characters of the last
    match are left to pass. *)
Fixpoint replace_from (pat by_ : string) (skip : nat) (s : string) : string :=
  match s with
  | EmptyString => EmptyString
  | String a t =>
    match skip with
    | S skip => replace_from pat by_ skip t
    | O =>
      if starts_with pat s then by_ +:+ replace_from pat by_ (pred (String.length pat)) t
      else String a (replace_from pat by_ 0 t)
    end
  end.

Definition str_replace (pat by_ s : string) : string := replace_from pat by_ 0 s.

(** [str::strip_suffix]. *)
Fixpoint strip_suffix (suffix s : string) : option string :=
  if bool_decide (s = suffix) then Some EmptyString
  else match s with
       | EmptyString => None
       | String a t => String a <$> strip_suffix suffix t
       end.

(** [str::repeat]. *)
Fixpoint str_repeat (s : string) (n : nat) : string :=
  match n with O => EmptyString | S n => (s +:+ str_repeat s n)%string end.

(** [str::trim_end_matches(char)]. *)
Fixpoint trim_end_char (c : ascii) (s : string) : string :=
  match s with
  | EmptyString => EmptyString
  | String a t =>
    match trim_end_char c t with
    | EmptyString => if bool_decide (a = c) then EmptyString else of_char a
    | u => String a u
    end
  end.

(** [str::lines]: a line ends with a newline, before which a carriage return is
    dropped; there is no line after a final newline. *)
Fixpoint lines_of (pieces : list string) : list string :=
  match pieces with
  | [] => []
  | [last] => if str_is_empty last then [] else [last]
  | line :: pieces => default line (strip_suffix_char CARRIAGE_RETURN line) :: lines_of pieces
  end.

Definition str_lines (s : string) : list string := lines_of (split_char NEWLINE s).

Fixpoint str_concat (l : list string) : string :=
  match l with [] => EmptyString | x :: l => (x +:+ str_concat l)%string end.

(** [iter().enumerate()] from a number on, mapped. *)
Section Enumerate.
Context {A B : Type} (f : nat → A → B).

Fixpoint enumerate_from (j : nat) (l : list A) : list B :=
  match l with [] => [] | x :: l => f j x :: enumerate_from (S j) l end.

End Enumerate.

Definition fmt_bool (b : bool) : string := if b then "true" else "false".

(** ** Decimal formatting and parsing *)

Definition fmt_N (n : N) : string := NilZero.string_of_uint (N.to_uint n).

Definition fmt_Z (z : Z) : string :=
  if z <? 0 then String "-"%char (fmt_N (Z.to_N (- z))) else fmt_N (Z.to_N z).

(** [str::parse::<u64>]: an optional [+], at least one digit, no overflow. *)
Definition parse_u64 (s : string) : option Z :=
  let digits := match s with String "+"%char t => t | _ => s end in
  match digits with
  | EmptyString => None
  | _ =>
    match NilEmpty.uint_of_string digits with
    | Some d => let n := Z.of_N (N.of_uint d) in if n <? 2 ^ 64 then Some n else None
    | None => None
    end
  end.

Lemma fmt_N_no_plus n : ∃ a t, fmt_N n = String a t ∧ a ≠ "+"%char.
Proof.
  unfold fmt_N. destruct (N.to_uint n) as [|d|d|d|d|d|d|d|d|d|d]; simpl;
    eexists _, _; split; done.
Qed.

(** Formatting then parsing a [u64] is the identity. *)
Lemma parse_u64_fmt z : in_u64 z → parse_u64 (fmt_N (Z.to_N z)) = Some z.
Proof.
  intros [Hlo Hhi]. destruct (fmt_N_no_plus (Z.to_N z)) as (a & t & E & Ha).
  assert (NilEmpty.uint_of_string (String a t) = Some (N.to_uint (Z.to_N z))) as Hp.
  { rewrite <- E. unfold fmt_N.
    rewrite <- NilEmpty.usu. f_equal.
    destruct (Z.to_N z) as [|q]; [done|]. simpl.
    destruct (Pos.to_uint q) eqn:Eq; [|done..].
    by apply DecimalPos.Unsigned.to_uint_nonnil in Eq. }
  assert (parse_u64 (String a t) =
          match NilEmpty.uint_of_string (String a t) with
          | Some d => let n := Z.of_N (N.of_uint d) in if n <? 2 ^ 64 then Some n else None
          | None => None
          end) as Hg.
  { unfold parse_u64. destruct a as [[] [] [] [] [] [] [] []]; try done. }
  rewrite E, Hg, Hp, DecimalN.Unsigned.of_to. simpl.
  rewrite Z2N.id by lia. by rewrite (proj2 (Z.ltb_lt _ _)).
Qed.

(** ** Facts about [rsplit] and [split] *)

Lemma rfind_split_app c p s p' r :
  rfind_split c s = Some (p', r) → rfind_split c (p +:+ s)%string = Some ((p +:+ p')%string, r).
Proof.
  intros Hs. induction p as [|a p IH]; [done|].
  change (String a p +:+ s)%string with (String a (p +:+ s))%string. simpl. by rewrite IH.
Qed.

Lemma rfind_split_concat c s p r :
  rfind_split c s = Some (p, r) → s = (p +:+ r)%string.
Proof.
  revert p r. induction s as [|a s IH]; intros p r; simpl; [done|].
  destruct (rfind_split c s) as [[p' r']|] eqn:E.
  - intros [= <- <-]. rewrite (IH p' r' eq_refl) at 1. done.
  - case_bool_decide; intros [= <- <-]. done.
Qed.

Lemma rfind_split_None c s : contains_char c s = false → rfind_split c s = None.
Proof.
  induction s as [|a s IH]; cbn; [done|]. intros [Ha Hs]%orb_false_iff. by rewrite IH, Ha.
Qed.

Lemma strip_prefix_Some p s t : strip_prefix p s = Some t ↔ s = (p +:+ t)%string.
Proof.
  revert s. induction p as [|a p IH]; intros s; [naive_solver|].
  destruct s as [|b s]; cbn [strip_prefix]; [done|].
  change (String a p +:+ t)%string with (String a (p +:+ t)). rewrite bool_decide_decide.
  destruct (decide (a = b)) as [->|Hne]; [rewrite IH|]; naive_solver.
Qed.

Lemma starts_with_spec p s : starts_with p s = true ↔ ∃ t, s = (p +:+ t)%string.
Proof.
  unfold starts_with. rewrite bool_decide_eq_true. unfold is_Some.
  by setoid_rewrite strip_prefix_Some.
Qed.

Lemma ends_with_spec suffix s : ends_with suffix s = true ↔ ∃ p, s = (p +:+ suffix)%string.
Proof.
  induction s as [|a s IH]; cbn [ends_with]; rewrite orb_true_iff, bool_decide_eq_true.
  - split; [intros [<-|]; [by exists ""%string|done]|]. intros [[|b p] Hp]; [by left|done].
  - rewrite IH. split.
    + intros [<-|[p ->]]; [by exists ""%string|]. by exists (String a p).
    + intros [[|b p] Hp]; [by left|]. right. cbn in Hp. injection Hp as -> ->. by exists p.
Qed.

Lemma strip_suffix_char_Some c s p :
  strip_suffix_char c s = Some p ↔ s = (p +:+ String c "")%string.
Proof.
  revert p. induction s as [|a s IH]; intros p; [by destruct p|].
  destruct s as [|b s].
  - cbn [strip_suffix_char]. rewrite bool_decide_decide. destruct (decide (a = c)) as [->|Hne].
    + destruct p as [|d p]; [done|]. split; [done|]. cbn. intros [= -> Hp]. by destruct p.
    + split; [done|]. destruct p as [|d p]; cbn; [intros [=]; done|]. intros [= -> Hp]. by destruct p.
  - change (strip_suffix_char c (String a (String b s))) with
      (String a <$> strip_suffix_char c (String b s)).
    rewrite fmap_Some. setoid_rewrite IH. split.
    + intros (q & -> & ->). done.
    + destruct p as [|d p]; cbn; [done|]. intros [= -> Hp]. exists p. done.
Qed.

Lemma string_length_app s t :
  String.length (s +:+ t)%string = (String.length s + String.length t)%nat.
Proof. induction s as [|a s IH]; [done|]. cbn. by rewrite <- IH. Qed.

Lemma string_app_inj_r s t u : (s +:+ u = t +:+ u)%string → s = t.
Proof.
  intros H. assert (String.length s = String.length t) as Hl.
  { apply (f_equal String.length) in H. rewrite !string_length_app in H. lia. }
  revert t H Hl. induction s as [|a s IH]; intros [|b t] H Hl; try done.
  cbn in H. injection H as -> H. f_equal. apply IH; [done|]. by injection Hl.
Qed.

(** The part after the last separator contains none. *)
Lemma rfind_split_rest c s p r :
  rfind_split c s = Some (p, r) → rfind_split c r = None.
Proof.
  revert p r. induction s as [|a s IH]; intros p r; simpl; [done|].
  destruct (rfind_split c s) as [[p' r']|] eqn:E.
  - intros [= <- <-]. by apply (IH p' r').
  - case_bool_decide; intros [= <- <-]. done.
Qed.

Lemma rfind_split_after c s p r q :
  rfind_split c s = Some (p, r) → rfind_split c q = None →
  rfind_split c (p +:+ q)%string = Some (p, q).
Proof.
  revert p r. induction s as [|a s IH]; intros p r; simpl; [done|].
  destruct (rfind_split c s) as [[p' r']|] eqn:E.
  - intros [= <- <-] Hq. change (String a p' +:+ q)%string with (String a (p' +:+ q))%string.
    cbn [rfind_split]. by rewrite (IH p' r' eq_refl Hq).
  - case_bool_decide as Ha; intros [= <- <-] Hq. change (String a "" +:+ q)%string with (String a q).
    cbn [rfind_split]. rewrite Hq. by rewrite bool_decide_eq_true_2.
Qed.

(** Replacing the text after the last separator replaces the last segment. *)
Lemma rsplit_next_replace c s p r new :
  rfind_split c s = Some (p, r) →
  rsplit_next c (p +:+ new)%string = rsplit_next c new.
Proof.
  intros Hs. unfold rsplit_next.
  destruct (rfind_split c new) as [[p' r']|] eqn:E.
  - by rewrite (rfind_split_app c p new p' r').
  - by rewrite (rfind_split_after c s p r new Hs E).
Qed.

(** ** In-order iteration of [BTreeMap] and [BTreeSet] *)

Definition key_le {A} (x y : string * A) : Prop := String.le x.1 y.1.

#[export] Instance key_le_dec {A} : RelDecision (@key_le A).
Proof. intros x y. unfold key_le. apply _. Defined.

#[export] Instance key_le_trans {A} : Transitive (@key_le A).
Proof. intros x y z. unfold key_le. apply transitivity. Qed.

#[export] Instance key_le_total {A} : Total (@key_le A).
Proof. intros x y. unfold key_le. apply (total String.le). Qed.

(** [BTreeMap::iter]: the entries in ascending byte order of the keys. *)
Definition btree_iter {A} (m : gmap string A) : list (string * A) :=
  merge_sort key_le (map_to_list m).

(** [BTreeSet::iter]. *)
Definition btree_set_iter (s : gset string) : list string :=
  merge_sort String.le (elements s).

(** Iteration of a [BTreeSet<(String, String)>]. *)
Definition pair_le (x y : string * string) : Prop :=
  (x.1 ≠ y.1 ∧ String.le x.1 y.1) ∨ (x.1 = y.1 ∧ String.le x.2 y.2).

#[export] Instance pair_le_dec : RelDecision pair_le.
Proof. intros x y. unfold pair_le. apply _. Defined.

Definition btree_pair_iter (s : gset (string * string)) : list (string * string) :=
  merge_sort pair_le (elements s).

Lemma elem_of_btree_pair_iter s k : k ∈ btree_pair_iter s ↔ k ∈ s.
Proof. unfold btree_pair_iter. by rewrite merge_sort_Permutation, elem_of_elements. Qed.

Lemma elem_of_btree_iter {A} (m : gmap string A) k v :
  (k, v) ∈ btree_iter m ↔ m !! k = Some v.
Proof. unfold btree_iter. by rewrite merge_sort_Permutation, elem_of_map_to_list. Qed.

Lemma elem_of_btree_set_iter s k : k ∈ btree_set_iter s ↔ k ∈ s.
Proof. unfold btree_set_iter. by rewrite merge_sort_Permutation, elem_of_elements. Qed.

Lemma NoDup_btree_iter_fst {A} (m : gmap string A) : NoDup (btree_iter m).*1.
Proof. unfold btree_iter. rewrite merge_sort_Permutation. apply NoDup_fst_map_to_list. Qed.

Lemma NoDup_btree_set_iter s : NoDup (btree_set_iter s).
Proof. unfold btree_set_iter. rewrite merge_sort_Permutation. apply NoDup_elements. Qed.


(** ** Formatting that depends on Unicode tables

    The text [Display] gives a [Utf8Error] of some bytes and [Debug] gives a
    string: only error messages contain them, so they are parameters. *)
Class RustFmt := {
  fmt_utf8_error : list byte → string;
  debug_str : string → string;
}.

(** ** Floating point

    [f64] with [str::parse], [Display] and [is_finite]. The sources store such
    numbers and print them, but never calculate with them. *)
Class RustF64 := {
  f64 : Type;
  parse_f64 : string → option f64;
  fmt_f64 : f64 → string;
  f64_is_finite : f64 → bool;
}.

(** ** Checked and saturating arithmetic *)

(** [i64::checked_add]. *)
Definition checked_add_i64 (a b : Z) : option Z :=
  let c := a + b in if (- 2 ^ 63 <=? c) && (c <? 2 ^ 63) then Some c else None.

(** [i64::saturating_sub]. *)
Definition saturating_sub_i64 (a b : Z) : Z := Z.max (- 2 ^ 63) (Z.min (2 ^ 63 - 1) (a - b)).

(** [Vec::dedup]. *)
Fixpoint vec_dedup {A} `{EqDecision A} (l : list A) : list A :=
  match l with
  | x :: (y :: _) as t => if bool_decide (x = y) then vec_dedup t else x :: vec_dedup t
  | _ => l
  end.

(** [usize::checked_add]. *)
Definition checked_add_usize (a b : Z) : option Z := if a + b <? 2 ^ 64 then Some (a + b) else None.

(** [str::trim_start_matches] of one character. *)
Fixpoint trim_start_char (c : ascii) (s : string) : string :=
  match s with
  | String a s' => if ascii_dec a c then trim_start_char c s' else s
  | EmptyString => s
  end.

(** [str::contains] of a string. *)
Fixpoint contains_str (needle s : string) : bool :=
  starts_with needle s || match s with String _ s' => contains_str needle s' | EmptyString => false end.

(** The derived [Ord] of a struct of strings, from the list of its fields. *)
Fixpoint lex_leb (l l' : list string) : bool :=
  match l, l' with
  | [], _ => true
  | _, [] => false
  | x :: l, y :: l' => if bool_decide (x = y) then lex_leb l l' else bool_decide (String.le x y)
  end.

(** [Vec::sort] of strings. *)
Definition sort_strings (l : list string) : list string := merge_sort String.le l.

(** ** Iteration of [HashMap]

    The iteration order of a hash map is unspecified; a model of code that
    iterates over one is parametric in the order. *)
Class HashOrder := {
  hash_iter {K V} `{Countable K} : gmap K V → list (K * V);
  hash_iter_perm {K V} `{Countable K} (m : gmap K V) : hash_iter m ≡ₚ map_to_list m;
}.

Lemma elem_of_hash_iter `{HashOrder} {K V} `{Countable K} (m : gmap K V) k v :
  (k, v) ∈ hash_iter m ↔ m !! k = Some v.
Proof. by rewrite hash_iter_perm, elem_of_map_to_list. Qed.

(** [iter.collect::<HashMap<_, _>>()]: later entries replace earlier ones. *)
Definition collect_map {K V} `{Countable K} (l : list (K * V)) : gmap K V :=
  foldl (λ m kv, <[kv.1 := kv.2]> m) ∅ l.

Lemma collect_map_app {K V} `{Countable K} (l : list (K * V)) k v :
  collect_map (l ++ [(k, v)]) = <[k := v]> (collect_map l).
Proof. unfold collect_map. by rewrite foldl_app. Qed.

(** An entry of a collected map is one of the entries collected. *)
Lemma collect_map_elem {K V} `{Countable K} (l : list (K * V)) k v :
  collect_map l !! k = Some v → (k, v) ∈ l.
Proof.
  induction l as [|[k' v'] l IH] using rev_ind; [done|].
  rewrite collect_map_app, lookup_insert. case_decide as Hk; intros Hl.
  - simplify_eq. apply elem_of_app. right. by apply list_elem_of_singleton.
  - apply elem_of_app. left. by apply IH.
Qed.

(** The keys of a collected map are the keys collected. *)
Lemma collect_map_is_Some {K V} `{Countable K} (l : list (K * V)) k :
  is_Some (collect_map l !! k) ↔ k ∈ l.*1.
Proof.
  induction l as [|[k' v'] l IH] using rev_ind.
  - split; [by intros []|]. by intros ?%not_elem_of_nil.
  - rewrite collect_map_app, fmap_app, elem_of_app, <- IH, lookup_insert.
    case_decide as Hk; simpl; rewrite list_elem_of_singleton; naive_solver.
Qed.

(** ** In-place updates of vectors and maps *)

(** [v.iter_mut().find(p)] followed by a write through the reference. *)
Fixpoint update_first {A} (p : A → bool) (f : A → A) (l : list A) : option (list A) :=
  match l with
  | [] => None
  | x :: l => if p x then Some (f x :: l) else cons x <$> update_first p f l
  end.

(** [v.iter().position(p)] followed by [v.remove(idx)]. *)
Fixpoint take_first {A} (p : A → bool) (l : list A) : option (A * list A) :=
  match l with
  | [] => None
  | x :: l => if p x then Some (x, l) else (λ '(y, l'), (y, x :: l')) <$> take_first p l
  end.

(** A loop [for x in v.iter_mut() { changed |= f(x) }]: the updated vector and
    the accumulated flag. *)
Definition map_mut {A} (f : A → A * bool) (l : list A) : list A * bool :=
  (map (λ x, (f x).1) l, existsb (λ x, (f x).2) l).

(** The same loop over the values of a [BTreeMap]: the updated map and the keys
    whose value reported a change. *)
Definition btree_map_mut {A} (f : string → A → A * bool) (m : gmap string A) :
    gmap string A * list string :=
  (map_imap (λ k v, Some (f k v).1) m,
   (filter (λ kv, (f kv.1 kv.2).2 = true) (btree_iter m)).*1).

(** [Vec::retain]. *)
Definition retain {A} (p : A → bool) (l : list A) : list A := List.filter p l.

(** The index [v.iter().position(p)] returns. *)
Fixpoint position {A} (p : A → bool) (l : list A) : option nat :=
  match l with
  | [] => None
  | x :: l => if p x then Some 0%nat else S <$> position p l
  end.

(** [Vec::remove] at an index in range. *)
Definition vec_remove {A} (i : nat) (l : list A) : list A := take i l ++ drop (S i) l.

Lemma update_first_split {A} (p : A → bool) f l l' :
  update_first p f l = Some l' →
  ∃ l1 x l2, l = l1 ++ x :: l2 ∧ p x = true ∧ l' = l1 ++ f x :: l2.
Proof.
  revert l'. induction l as [|y l IH]; intros l'; simpl; [done|].
  destruct (p y) eqn:Hp.
  - intros [= <-]. by exists [], y, l.
  - destruct (update_first p f l) as [l''|] eqn:E; simpl; [|done]. intros [= <-].
    destruct (IH l'' eq_refl) as (l1 & x & l2 & -> & Hx & ->). by exists (y :: l1), x, l2.
Qed.

Lemma take_first_split {A} (p : A → bool) l x l' :
  take_first p l = Some (x, l') →
  ∃ l1 l2, l = l1 ++ x :: l2 ∧ p x = true ∧ l' = l1 ++ l2.
Proof.
  revert l'. induction l as [|y l IH]; intros l'; simpl; [done|].
  destruct (p y) eqn:Hp.
  - intros [= <- <-]. by exists [], l.
  - destruct (take_first p l) as [[z l'']|] eqn:E; simpl; [|done]. intros [= <- <-].
    destruct (IH l'' eq_refl) as (l1 & l2 & -> & Hx & ->). by exists (y :: l1), l2.
Qed.

(** An update that keeps a projection keeps the list of projections. *)
Lemma update_first_fmap {A B} (g : A → B) (p : A → bool) f l l' :
  (∀ x, g (f x) = g x) → update_first p f l = Some l' → g <$> l' = g <$> l.
Proof.
  intros Hg (l1 & x & l2 & -> & _ & ->)%update_first_split.
  by rewrite !fmap_app, !fmap_cons, Hg.
Qed.

Lemma position_lookup {A} (p : A → bool) l i :
  position p l = Some i → ∃ x, l !! i = Some x ∧ p x = true.
Proof.
  revert i. induction l as [|y l IH]; intros i; simpl; [done|].
  destruct (p y) eqn:Hp; [intros [= <-]; by exists y|].
  destruct (position p l) as [j|]; simpl; [|done]. intros [= <-]. by apply IH.
Qed.

Lemma take_first_find {A} (p : A → bool) l x l' :
  take_first p l = Some (x, l') → List.find p l = Some x.
Proof.
  revert l'. induction l as [|y l IH]; intros l'; simpl; [done|].
  destruct (p y); [by intros [= <- _]|].
  destruct (take_first p l) as [[z l'']|]; simpl; [|done]. intros [= <- <-]. by eapply IH.
Qed.

(** Inserting a list of entries one after the other. *)
Lemma lookup_insert_all_out {K V} `{Countable K} (l : list (K * V)) (m : gmap K V) k :
  k ∉ l.*1 → foldl (λ m kv, <[kv.1 := kv.2]> m) m l !! k = m !! k.
Proof.
  revert m. induction l as [|[k' v] l IH]; intros m; simpl; [done|].
  rewrite not_elem_of_cons. intros [Hk Hl]. rewrite IH by done. by rewrite lookup_insert_ne.
Qed.

Lemma lookup_insert_all_in {K V} `{Countable K} (l : list (K * V)) (m : gmap K V) k v :
  NoDup l.*1 → (k, v) ∈ l → foldl (λ m kv, <[kv.1 := kv.2]> m) m l !! k = Some v.
Proof.
  revert m. induction l as [|[k' w] l IH]; intros m; simpl; [by intros _ ?%not_elem_of_nil|].
  intros [Hk Hl]%NoDup_cons [[= <- <-]|Hn]%elem_of_cons; [|by apply IH].
  rewrite lookup_insert_all_out by done. by rewrite lookup_insert_eq.
Qed.

(** ** Filtering and sorting *)

Lemma NoDup_omap_inj {A B} (f : A → option B) (l : list A) :
  NoDup l → (∀ x y b, x ∈ l → y ∈ l → f x = Some b → f y = Some b → x = y) → NoDup (omap f l).
Proof.
  intros Hd. induction Hd as [|x l Hx Hd IH]; cbn; intros Hf; [constructor|].
  assert (NoDup (omap f l)) as Hl.
  { apply IH. intros y z b Hy Hz. apply Hf; by right. }
  destruct (f x) as [b|] eqn:Hb; [|done]. constructor; [|done].
  intros (y & Hy & Hyb)%list_elem_of_omap. rewrite (Hf x y b) in Hx; try done; [left|by right].
Qed.

Lemma bool_filter_Permutation {A} (p : A → bool) (l l' : list A) :
  l ≡ₚ l' → List.filter p l ≡ₚ List.filter p l'.
Proof.
  induction 1 as [|x l l' _ IH|x y l|l1 l2 l3 _ IH1 _ IH2]; cbn; [done|..].
  - by destruct (p x); [constructor|].
  - destruct (p x), (p y); try done. apply perm_swap.
  - by etrans.
Qed.

Lemma elem_of_bool_filter {A} (p : A → bool) (l : list A) x :
  x ∈ List.filter p l ↔ x ∈ l ∧ p x = true.
Proof. by rewrite !list_elem_of_In, filter_In. Qed.

Lemma NoDup_bool_filter {A} (p : A → bool) (l : list A) : NoDup l → NoDup (List.filter p l).
Proof. rewrite !NoDup_ListNoDup. apply List.NoDup_filter. Qed.

(** Sorting distinct elements by an order that is antisymmetric on them does not
    depend on the order in which they come. *)
Lemma merge_sort_unique {A} (R : relation A) `{!RelDecision R, !Transitive R, !Total R} (l l' : list A) :
  (∀ a b, a ∈ l → b ∈ l → R a b → R b a → a = b) → l ≡ₚ l' → merge_sort R l = merge_sort R l'.
Proof.
  intros Hanti Hp. apply (Sorted_unique_strong R); [|apply Sorted_merge_sort, _..|].
  - intros a b Ha Hb. rewrite merge_sort_Permutation in Ha. rewrite merge_sort_Permutation in Hb.
    apply Hanti; [done|by rewrite Hp].
  - by rewrite !merge_sort_Permutation.
Qed.

(** ** Sorting *)

Lemma lex_leb_refl l : lex_leb l l = true.
Proof. induction l as [|x l IH]; [done|]. cbn. by rewrite bool_decide_eq_true_2. Qed.

Lemma lex_leb_trans l1 l2 l3 : lex_leb l1 l2 = true → lex_leb l2 l3 = true → lex_leb l1 l3 = true.
Proof.
  revert l2 l3. induction l1 as [|x l1 IH]; intros [|y l2] [|z l3]; cbn; try done.
  repeat case_bool_decide; subst; try done; eauto; intros _ _; exfalso.
  - by match goal with H : _ ≠ _ |- _ => apply H end; apply (anti_symm String.le).
  - match goal with H : ¬ _ |- _ => by apply H; trans y end.
Qed.

Lemma lex_leb_total l l' : lex_leb l l' = true ∨ lex_leb l' l = true.
Proof.
  revert l'. induction l as [|x l IH]; intros [|y l']; cbn; auto.
  destruct (decide (x = y)) as [<-|Hxy].
  - rewrite !bool_decide_eq_true_2 by done. apply IH.
  - rewrite !(bool_decide_eq_false_2 (_ = _)) by done. rewrite !bool_decide_eq_true. apply (total String.le).
Qed.

Lemma lex_leb_antisymm l l' : lex_leb l l' = true → lex_leb l' l = true → l = l'.
Proof.
  revert l'. induction l as [|x l IH]; intros [|y l']; cbn; try done.
  destruct (decide (x = y)) as [<-|Hxy].
  - rewrite !bool_decide_eq_true_2 by done. intros H1 H2. f_equal. by apply IH.
  - rewrite !(bool_decide_eq_false_2 (_ = _)) by done. rewrite !bool_decide_eq_true. intros H1 H2.
    exfalso. apply Hxy. by apply (anti_symm String.le).
Qed.

(** Sorting forgets the order of its input if the order separates the elements. *)
Lemma merge_sort_perm {A} (R : relation A) `{!RelDecision R, !Total R, !Transitive R} (l l' : list A) :
  (∀ x y, x ∈ l → y ∈ l → R x y → R y x → x = y) → l ≡ₚ l' → merge_sort R l = merge_sort R l'.
Proof.
  intros Hanti Hl. apply (Sorted_unique_strong R); [|by apply (Sorted_merge_sort R)..|].
  - intros x y. rewrite !merge_sort_Permutation, <- Hl. apply Hanti.
  - by rewrite !merge_sort_Permutation.
Qed.

(** ** Loops that stop at the first failure *)

Lemma mapM_Ok {E A B} (f : A → outcome E B) l l' : mapM f l = Ok l' → Forall2 (λ x y, f x = Ok y) l l'.
Proof.
  revert l'. induction l as [|x l IH]; intros l' H; cbn in H; [injection H as <-; constructor|].
  ok_inv H. injection H as <-. constructor; auto.
Qed.

Lemma mapM_Forall {E A B} (f : A → outcome E B) (P : B → Prop) l l' :
  (∀ x y, x ∈ l → f x = Ok y → P y) → mapM f l = Ok l' → Forall P l'.
Proof.
  intros H Hl%mapM_Ok. induction Hl as [|x y l l' Hxy _ IH]; [constructor|].
  constructor; [apply (H x); [by left|done]|]. apply IH. intros z w Hz. apply H. by right.
Qed.

(** Decoding a list that was encoded element by element. *)
Lemma mapM_decodes {E A B} (f : A → outcome E B) (g : B → A) l :
  (∀ b, b ∈ l → f (g b) = Ok b) → mapM f (g <$> l) = Ok l.
Proof.
  induction l as [|b l IH]; intros H; [done|]. cbn. rewrite H by (by left). cbn.
  rewrite IH by (intros b' Hb'; apply H; by right). done.
Qed.

(** Collecting the entries of a map gives the map. *)
Lemma collect_map_entries {K V} `{Countable K} (l : list (K * V)) (m : gmap K V) :
  (∀ k v, (k, v) ∈ l ↔ m !! k = Some v) → collect_map l = m.
Proof.
  intros Hl. apply map_eq. intros k. destruct (m !! k) as [v|] eqn:Hm.
  - pose proof (proj2 (Hl k v) Hm) as Hin.
    destruct (proj2 (collect_map_is_Some l k)) as [v' Hv']; [by apply list_elem_of_fmap; exists (k, v)|].
    rewrite Hv'. apply collect_map_elem, Hl in Hv'. congruence.
  - destruct (collect_map l !! k) as [v|] eqn:Hv; [|done]. apply collect_map_elem, Hl in Hv. congruence.
Qed.

Lemma collect_map_btree_iter {A} (m : gmap string A) : collect_map (btree_iter m) = m.
Proof. apply collect_map_entries. intros k v. apply elem_of_btree_iter. Qed.

(** ASCII text is UTF-8. *)
Lemma ascii_utf8_valid bs : Forall (λ b, u8 b < 128) bs → utf8_valid bs = true.
Proof. induction 1 as [|b bs Hb _ IH]; [done|]. cbn. by rewrite (proj2 (Z.ltb_lt _ _) Hb). Qed.

Lemma as_bytes_app s t : as_bytes (s +:+ t) = as_bytes s ++ as_bytes t.
Proof.
  induction s as [|a s IH]; [done|].
  change (byte_of_ascii a :: as_bytes (s +:+ t) = byte_of_ascii a :: (as_bytes s ++ as_bytes t)). by rewrite IH.
Qed.

Lemma str_empty_false s : str_is_empty s = false ↔ s ≠ ""%string.
Proof. destruct s; split; naive_solver. Qed.

(** A filter that every element passes. *)
Lemma filter_all {A} (p : A → bool) l : (∀ x, x ∈ l → p x = true) → List.filter p l = l.
Proof.
  induction l as [|x l IH]; intros H; [done|]. cbn. rewrite H by (by left). f_equal. apply IH.
  intros y Hy. apply H. by right.
Qed.

(** *** Splitting at a character *)

Lemma split_char_nil c s : contains_char c s = false → split_char c s = [s].
Proof.
  induction s as [|a s IH]; cbn [contains_char split_char]; [done|].
  intros [Ha Hs]%orb_false_iff. by rewrite Ha, IH.
Qed.

Lemma split_char_app c s t :
  contains_char c s = false → split_char c (s +:+ String c t) = s :: split_char c t.
Proof.
  induction s as [|a s IH].
  - intros _. change (split_char c (String c t) = "" :: split_char c t).
    cbn [split_char]. by rewrite bool_decide_eq_true_2.
  - cbn [contains_char]. intros [Ha Hs]%orb_false_iff.
    change (split_char c (String a (s +:+ String c t)) = String a s :: split_char c t).
    cbn [split_char]. by rewrite Ha, IH.
Qed.

(** [for x in items { check(x)?; }]. *)
Fixpoint for_each {E A} (check : A → outcome E unit) (l : list A) : outcome E unit :=
  match l with
  | [] => Ok tt
  | x :: l => check x ≫= λ _, for_each check l
  end.

Lemma for_each_Ok {E A} (chk : A → outcome E unit) l :
  for_each chk l = Ok tt → ∀ x, x ∈ l → chk x = Ok tt.
Proof.
  induction l as [|y l IH]; cbn [for_each]; intros H x Hx; [by apply not_elem_of_nil in Hx|].
  apply bind_Ok in H as ([] & Hy & Hl). apply elem_of_cons in Hx as [->|Hx]; auto.
Qed.

(** [iter().max()]. *)
Definition iter_max (l : list Z) : option Z :=
  foldr (λ x acc, Some (match acc with Some y => Z.max x y | None => x end)) None l.

Lemma iter_max_None l : iter_max l = None ↔ l = [].
Proof. by destruct l. Qed.

Lemma iter_max_le l m x : iter_max l = Some m → x ∈ l → x <= m.
Proof.
  revert m. induction l as [|y l IH]; intros m Hm Hx; [by apply elem_of_nil in Hx|]. cbn in Hm.
  injection Hm as <-. apply elem_of_cons in Hx as [->|Hx].
  - destruct (foldr _ _ _); lia.
  - unfold iter_max in IH. destruct (foldr _ _ _) as [z|] eqn:Ez.
    + specialize (IH z eq_refl Hx). lia.
    + pose proof (proj1 (iter_max_None l) Ez) as ->. by apply elem_of_nil in Hx.
Qed.

Lemma iter_max_elem l m : iter_max l = Some m → m ∈ l.
Proof.
  revert m. induction l as [|y l IH]; intros m Hm; [done|]. unfold iter_max in *. cbn in Hm. injection Hm as <-.
  destruct (foldr _ _ _) as [z|] eqn:Ez; [|by left]. destruct (Z.max_spec y z) as [[_ ->]|[_ ->]].
  - right. by apply IH.
  - by left.
Qed.

(** [str::parse::<i64>]: an optional sign, at least one digit, no overflow. *)
Definition parse_i64 (s : string) : option Z :=
  let '(negative, digits) :=
    match s with
    | String "+"%char t => (false, t)
    | String "-"%char t => (true, t)
    | _ => (false, s)
    end in
  match digits with
  | EmptyString => None
  | _ =>
    d ← NilEmpty.uint_of_string digits;
    let n := Z.of_N (N.of_uint d) in
    let z := if negative : bool then - n else n in
    if (- 2 ^ 63 <=? z) && (z <? 2 ^ 63) then Some z else None
  end.

(** ** [slice::sort_by], which keeps the order of elements that compare equal *)

Fixpoint insert_before {A} (R : relation A) `{!RelDecision R} (x : A) (l : list A) : list A :=
  match l with
  | [] => [x]
  | y :: l' => if decide (R x y) then x :: l else y :: insert_before R x l'
  end.

Definition stable_sort {A} (R : relation A) `{!RelDecision R} (l : list A) : list A := foldr (insert_before R) [] l.

Lemma insert_before_perm {A} (R : relation A) `{!RelDecision R} x (l : list A) : insert_before R x l ≡ₚ x :: l.
Proof.
  induction l as [|y l IH]; [done|]. cbn. destruct (decide (R x y)); [done|]. rewrite IH. apply Permutation_swap.
Qed.

Lemma stable_sort_perm {A} (R : relation A) `{!RelDecision R} (l : list A) : stable_sort R l ≡ₚ l.
Proof. induction l as [|x l IH]; [done|]. cbn. by rewrite insert_before_perm, IH. Qed.

(** ** In-place updates of vectors and maps *)

(** A rewriting pass reports every value it changes. *)
Definition reports_changes {A} (f : string → A → A * bool) : Prop :=
  ∀ k v, (f k v).2 = false → (f k v).1 = v.

Lemma elem_of_btree_map_mut_changed {A} (f : string → A → A * bool) (m : gmap string A) k :
  k ∈ (btree_map_mut f m).2 ↔ ∃ v, m !! k = Some v ∧ (f k v).2 = true.
Proof.
  simpl. rewrite list_elem_of_fmap. split.
  - intros ([k' v] & -> & [Hf Hv]%list_elem_of_filter). exists v. by rewrite <- elem_of_btree_iter.
  - intros (v & Hv & Hf). exists (k, v). split; [done|]. apply list_elem_of_filter.
    by rewrite elem_of_btree_iter.
Qed.

Lemma lookup_btree_map_mut {A} (f : string → A → A * bool) (m : gmap string A) k :
  (btree_map_mut f m).1 !! k = (λ v, (f k v).1) <$> m !! k.
Proof. simpl. rewrite map_lookup_imap. by destruct (m !! k). Qed.

Lemma dom_btree_map_mut {A} (f : string → A → A * bool) (m : gmap string A) :
  dom (btree_map_mut f m).1 = dom m.
Proof.
  apply set_eq. intros k. rewrite !elem_of_dom, lookup_btree_map_mut. by rewrite fmap_is_Some.
Qed.

Lemma btree_map_mut_unchanged {A} (f : string → A → A * bool) (m : gmap string A) k :
  reports_changes f → k ∉ (btree_map_mut f m).2 → (btree_map_mut f m).1 !! k = m !! k.
Proof.
  intros Hf Hk. rewrite lookup_btree_map_mut, elem_of_btree_map_mut_changed in *.
  destruct (m !! k) as [v|]; simpl; [|done]. f_equal. apply Hf.
  destruct ((f k v).2) eqn:E; [|done]. destruct Hk. by exists v.
Qed.

Lemma map_mut_reports {A} (f : A → A * bool) l :
  (∀ x, x ∈ l → (f x).2 = false → (f x).1 = x) → (map_mut f l).2 = false → (map_mut f l).1 = l.
Proof.
  intros Hf. simpl. induction l as [|x l IH]; simpl; [done|].
  intros [Hx Hl]%orb_false_iff. rewrite (Hf x) by (done || left). f_equal.
  apply IH; [|done]. intros y Hy. apply Hf. by right.
Qed.

Lemma existsb_elem {A} (p : A → bool) l : existsb p l = true ↔ ∃ x, x ∈ l ∧ p x = true.
Proof. rewrite existsb_exists. by setoid_rewrite list_elem_of_In. Qed.

Lemma fst_filter_nil {A} (p : string * A → bool) (m : gmap string A) :
  (List.filter p (btree_iter m)).*1 = [] → ∀ k v, m !! k = Some v → p (k, v) = false.
Proof.
  intros Hnil%fmap_nil_inv k v Hk. destruct (p (k, v)) eqn:E; [|done].
  assert ((k, v) ∈ List.filter p (btree_iter m)) as Hin
    by (by apply elem_of_bool_filter; rewrite elem_of_btree_iter).
  rewrite Hnil in Hin. by apply not_elem_of_nil in Hin.
Qed.

