(* ===== verification/SchemaTypes.v ===== *)
(** * SchemaTypes: the shared types of [crates/schemahub-types]

    Blobs, schema paths, schema objects, mutation envelopes and effects,
    compatibility rules, identities, actions and roles. A [DeclBlob] and a
    [MetaBlob] are the bytes they wrap. *)
From S2P Require Import Prelude RustStd.

Open Scope Z_scope.

(** ** Blobs and schemas *)

Definition DeclBlob : Type := list byte.
Definition MetaBlob : Type := list byte.

Record SchemaPath := mkSchemaPath {
  sp_project : string;
  sp_repo : string;
  sp_schema_name : string;
}.

#[export] Instance SchemaPath_eq_dec : EqDecision SchemaPath.
Proof. solve_decision. Defined.

#[export] Instance SchemaPath_countable : Countable SchemaPath.
Proof.
  refine (inj_countable' (λ p, (sp_project p, sp_repo p, sp_schema_name p))
            (λ '(a, b, c), mkSchemaPath a b c) _). by intros [].
Defined.

(** The derived [Ord]. *)
Definition path_le (p q : SchemaPath) : Prop :=
  lex_leb [sp_project p; sp_repo p; sp_schema_name p] [sp_project q; sp_repo q; sp_schema_name q] = true.

#[export] Instance path_le_dec : RelDecision path_le.
Proof. intros p q. unfold path_le. apply _. Defined.

#[export] Instance path_le_total : Total path_le.
Proof. intros p q. apply lex_leb_total. Qed.

#[export] Instance path_le_trans : Transitive path_le.
Proof. intros p q r. apply lex_leb_trans. Qed.

#[export] Instance path_le_antisymm : AntiSymm (=) path_le.
Proof. intros [] [] H1 H2. pose proof (lex_leb_antisymm _ _ H1 H2). by simplify_eq/=. Qed.

Definition sort_paths (l : list SchemaPath) : list SchemaPath := merge_sort path_le l.

(** [Display] of a [SchemaPath]. *)
Definition fmt_schema_path (p : SchemaPath) : string :=
  sp_project p +:+ "/" +:+ sp_repo p +:+ "/" +:+ sp_schema_name p.

Record SchemaObjects := mkSchemaObjects {
  so_meta : MetaBlob;
  so_decls : gmap string DeclBlob;
}.

(** [SchemaObjects::default]. *)
Definition schema_objects_default : SchemaObjects := mkSchemaObjects [] ∅.

(** ** Mutations *)

Record Mutation := mkMutation {
  mu_schema_path : SchemaPath;
  mu_format_id : string;
  mu_operation : list byte;
}.

Record MutationEffect := mkMutationEffect {
  me_meta : option MetaBlob;
  me_upserts : list (string * DeclBlob);
  me_removes : list string;
}.

Inductive MutationError :=
  | MutMalformedBlob (m : string)
  | DeclarationNotFound (name : string)
  | FieldNotFound (declaration field : string)
  | FieldNumberConflict (n : Z)
  | FieldNumberReserved (n : Z)
  | InvalidOperation (m : string)
  | UnsupportedInV1
  | InvalidOperationBytes (m : string).

(** ** Changes *)

Inductive DeclChange :=
  | DeclarationAdded (name : string)
  | DeclarationRemoved (name : string)
  | DeclarationModified (name : string) (detail : list byte).

Definition declaration_name (c : DeclChange) : string :=
  match c with
  | DeclarationAdded name => name
  | DeclarationRemoved name => name
  | DeclarationModified name _ => name
  end.

Inductive DiffError := DiffMalformedBlob (msg : string).

(** ** Compatibility *)

Inductive CompatibilityDirection := Backward | Forward | Full | Disabled.

#[export] Instance CompatibilityDirection_eq_dec : EqDecision CompatibilityDirection.
Proof. solve_decision. Defined.

Definition debug_direction (d : CompatibilityDirection) : string :=
  match d with
  | Backward => "Backward" | Forward => "Forward" | Full => "Full" | Disabled => "Disabled"
  end.

Record CompatibilityRules := mkCompatibilityRules {
  cr_direction : CompatibilityDirection;
  cr_disabled : bool;
}.

(** [CompatibilityRules::full]. *)
Definition rules_full : CompatibilityRules := mkCompatibilityRules Full false.

Record CompatibilityViolation := mkCompatibilityViolation {
  cv_declaration_name : string;
  cv_field_name : option string;
  cv_message : string;
}.

(** ** Identities *)

Inductive IdentityKind := KAnonymous | KHuman | KAgent | KService.

#[export] Instance IdentityKind_eq_dec : EqDecision IdentityKind.
Proof. solve_decision. Defined.

Inductive Identity :=
  | Anonymous
  | User (id : string) (display : option string)
  | Agent (id : string) (display : option string) (delegated_by : option string)
  | Service (id : string) (display : option string).

Definition identity_id (i : Identity) : option string :=
  match i with
  | Anonymous => None
  | User id _ | Agent id _ _ | Service id _ => Some id
  end.

Definition identity_display (i : Identity) : option string :=
  match i with
  | Anonymous => None
  | User _ d | Agent _ d _ | Service _ d => d
  end.

Definition identity_kind (i : Identity) : IdentityKind :=
  match i with
  | Anonymous => KAnonymous
  | User _ _ => KHuman
  | Agent _ _ _ => KAgent
  | Service _ _ => KService
  end.

Definition identity_delegated_by (i : Identity) : option string :=
  match i with
  | Agent _ _ d => d
  | _ => None
  end.

Definition is_anonymous (i : Identity) : bool :=
  match i with Anonymous => true | _ => false end.

(** ** Actions, roles, resources *)

Inductive Action := Read | Write_ | Force | ManageProject | ManageRepo.

#[export] Instance Action_eq_dec : EqDecision Action.
Proof. solve_decision. Defined.

Definition debug_action (a : Action) : string :=
  match a with
  | Read => "Read" | Write_ => "Write" | Force => "Force" | ManageProject => "ManageProject"
  | ManageRepo => "ManageRepo"
  end.

Inductive Role := RoleReader | Writer_ | Maintainer | Owner.

#[export] Instance Role_eq_dec : EqDecision Role.
Proof. solve_decision. Defined.

(** The derived [Ord]: the order of the variants. *)
Definition role_rank (r : Role) : nat :=
  match r with RoleReader => 0 | Writer_ => 1 | Maintainer => 2 | Owner => 3 end.

Definition role_ge (r r' : Role) : bool := Nat.leb (role_rank r') (role_rank r).

Definition debug_role (r : Role) : string :=
  match r with
  | RoleReader => "Reader" | Writer_ => "Writer" | Maintainer => "Maintainer" | Owner => "Owner"
  end.

(** [Role::parse]. *)
Definition role_parse (s : string) : option Role :=
  let s := to_ascii_lowercase s in
  if bool_decide (s = "reader"%string) then Some RoleReader
  else if bool_decide (s = "writer"%string) then Some Writer_
  else if bool_decide (s = "maintainer"%string) then Some Maintainer
  else if bool_decide (s = "owner"%string) then Some Owner
  else None.

Inductive ProjectVisibility := Public | Private.

#[export] Instance ProjectVisibility_eq_dec : EqDecision ProjectVisibility.
Proof. solve_decision. Defined.

Record ResourcePath := mkResourcePath {
  rp_project : string;
  rp_repo : option string;
}.

Inductive AuthnError := MissingCredentials | InvalidToken | AuthnOther (m : string).

Inductive AuthzError := PermissionDenied (m : string) | AuthzBackend (m : string).

(** ** Errors and read-side data of the compilers *)

Inductive Language := LangRust | Go | TypeScript | Python | Java.

Inductive ParseError :=
  | SyntaxError (line : Z) (m : string)
  | UnsupportedVersion (m : string)
  | ParseOther (m : string).

Inductive PrintError := PrintMalformedBlob (m : string) | PrintOther (m : string).

Inductive ReadError :=
  | ReadMalformedBlob (m : string)
  | ReadNotFound (m : string)
  | ReadFieldNotFound (m : string)
  | NotATypeReference (m : string)
  | AmbiguousTypeReference (m : string).

Inductive ConflictError :=
  | ConflictMalformedBlob (m : string)
  | InvalidResolution (m : string)
  | EmptyConflict
  | ConflictOther (m : string).

Inductive DescriptorError := DescriptorMalformedBlob (m : string) | DescriptorOther (m : string).

Inductive CodegenError :=
  | UnsupportedLanguage (l : Language)
  | CodegenMalformedBlob (m : string)
  | CodegenOther (m : string).

Record Import := mkImport {
  im_path : string;
  im_resolved_commit : string;
  im_decl_name : string;
}.

(** [ParsedSchema]: declarations in source order. *)
Record ParsedSchema := mkParsedSchema {
  ps_meta : MetaBlob;
  ps_decls : list (string * DeclBlob);
}.

(** ** Declarations and conflicts *)

Inductive DeclKind :=
  | KindMessage | KindEnum | KindService
  | KindTable | KindStruct | KindFbsEnum | KindUnion
  | KindPathItem | KindComponentSchema | KindComponentParameter | KindComponentResponse
  | KindComponentRequestBody | KindDocumentMetadata.

Record DeclSummary := mkDeclSummary {
  ds_name : string;
  ds_kind : DeclKind;
  ds_doc_comment : string;
}.

(** [DeclDetail]. *)
Definition DeclDetail : Type := list byte.

Record TypeRef := mkTypeRef {
  tr_name : string;
  tr_import : option Import;
}.

Definition type_ref_new (name : string) : TypeRef := mkTypeRef name None.

Record ConflictSides := mkConflictSides {
  cs_base : option DeclBlob;
  cs_sides : list DeclBlob;
}.

(** [Display] of a [PrintError]. *)
Definition fmt_print_error (e : PrintError) : string :=
  match e with
  | PrintMalformedBlob m => "blob is malformed or has an unsupported blob_version: " +:+ m
  | PrintOther m => "print error: " +:+ m
  end.

Definition fmt_parse_error (e : ParseError) : string :=
  match e with
  | SyntaxError line m => "syntax error at line " +:+ fmt_Z line +:+ ": " +:+ m
  | UnsupportedVersion m => "unsupported schema version: " +:+ m
  | ParseOther m => "parse error: " +:+ m
  end.

(** [Display] of a [ReadError]. *)
Definition fmt_read_error (e : ReadError) : string :=
  match e with
  | ReadMalformedBlob m => "blob is malformed: " +:+ m
  | ReadNotFound m => "declaration '" +:+ m +:+ "' not found in blob"
  | ReadFieldNotFound m => "field or property '" +:+ m +:+ "' not found in declaration"
  | NotATypeReference m => "field or property '" +:+ m +:+ "' does not reference a named declaration"
  | AmbiguousTypeReference m =>
    "field or property '" +:+ m +:+ "' has more than one possible type declaration"
  end.

(** ** The trait [Compiler] *)

(** [SchemaClosure]. *)
Record SchemaClosure := mkSchemaClosure {
  scl_root : option SchemaPath;
  scl_entries : gmap SchemaPath SchemaObjects;
}.

(** The entries of a closure in the order of their paths: the hash map's order
    does not matter. *)
Definition entry_le (x y : SchemaPath * SchemaObjects) : Prop := path_le x.1 y.1.

#[export] Instance entry_le_dec : RelDecision entry_le.
Proof. intros x y. unfold entry_le. apply _. Defined.

#[export] Instance entry_le_total : Total entry_le.
Proof. intros x y. apply (total path_le). Qed.

#[export] Instance entry_le_trans : Transitive entry_le.
Proof. intros x y z. apply (transitivity (R := path_le)). Qed.

Definition sorted_entries `{HashOrder} (c : SchemaClosure) : list (SchemaPath * SchemaObjects) :=
  merge_sort entry_le (hash_iter (scl_entries c)).

Lemma sorted_entries_order (HO HO' : HashOrder) c : @sorted_entries HO c = @sorted_entries HO' c.
Proof.
  unfold sorted_entries. apply (merge_sort_perm entry_le).
  - intros [p o] [p' o'] Hx Hy Hxy Hyx. apply elem_of_hash_iter in Hx, Hy.
    assert (p = p') as -> by (by apply (anti_symm path_le)). congruence.
  - by rewrite !hash_iter_perm.
Qed.

Definition closure_with_root (root : SchemaPath) : SchemaClosure := mkSchemaClosure (Some root) ∅.

Record CodegenOptions := mkCodegenOptions { rust_pluggable_buffer : bool }.

Definition codegen_options_default : CodegenOptions := mkCodegenOptions false.

(** A compiler is a record of its methods. *)
Record Compiler := mkCompiler {
  format_id : string;
  cp_parse : string → outcome ParseError ParsedSchema;
  cp_print : SchemaObjects → outcome PrintError string;
  cp_diff_decl : DeclBlob → DeclBlob → outcome DiffError DeclChange;
  cp_apply_mutation : SchemaObjects → Mutation → outcome MutationError MutationEffect;
  cp_apply_mutations : SchemaObjects → list Mutation → outcome MutationError MutationEffect;
  cp_check_compatibility :
    DeclBlob → DeclBlob → CompatibilityRules → outcome (list CompatibilityViolation) unit;
  cp_render_conflict : ConflictSides → outcome ConflictError string;
  cp_validate_resolution : DeclBlob → outcome ConflictError unit;
  cp_summarize_decl : DeclBlob → outcome ReadError DeclSummary;
  cp_decl_detail : DeclBlob → outcome ReadError DeclDetail;
  cp_imports : SchemaObjects → outcome ReadError (list Import);
  cp_type_refs : DeclBlob → outcome ReadError (list TypeRef);
  cp_field_type_ref : DeclBlob → string → outcome ReadError (option TypeRef);
  cp_generate_descriptors : SchemaClosure → outcome DescriptorError (list byte);
  cp_generate_code : SchemaClosure → Language → CodegenOptions → outcome CodegenError string;
}.
