(* ===== verification/ProtoSchema.v ===== *)
(** * ProtoSchema: the [protoc-rs-schema] descriptors the compiler works on

    The crate [protoc_rs_schema] is a git dependency and is not part of the
    repository. What the sources use of it is the interface [ProtocSchema]:
    its enumerations with their [as i32] discriminants and [from_int], the
    type-name functions of [FieldType], and the sizes of the structs that are
    stored in a [Vec]. [ProtocSchemaLaws] states the documented facts the codec
    relies on. The descriptor structs are the records below; their fields are
    those that [codec.rs] names in the struct literals of its [decode]
    functions. *)
From S2P Require Import Prelude RustStd.

Open Scope Z_scope.

(** ** Enumerations whose variants [codec.rs] lists *)

Inductive Visibility := Export_ | Local_.

Inductive OptimizeMode := Speed | CodeSize | LiteRuntime.

Inductive FieldCType := CString | Cord | StringPiece.

Inductive FieldJsType := JsNormal | JsString | JsNumber.

Inductive IdempotencyLevel := IdempotencyUnknown | NoSideEffects | Idempotent.

#[export] Instance Visibility_eq_dec : EqDecision Visibility.
Proof. solve_decision. Defined.
#[export] Instance OptimizeMode_eq_dec : EqDecision OptimizeMode.
Proof. solve_decision. Defined.
#[export] Instance FieldCType_eq_dec : EqDecision FieldCType.
Proof. solve_decision. Defined.
#[export] Instance FieldJsType_eq_dec : EqDecision FieldJsType.
Proof. solve_decision. Defined.
#[export] Instance IdempotencyLevel_eq_dec : EqDecision IdempotencyLevel.
Proof. solve_decision. Defined.

(** ** The interface to [protoc_rs_schema] and [protoc_rs_parser] *)

Class ProtocSchema := {
  FieldType : Type;
  FieldType_eq_dec :: EqDecision FieldType;
  FT_Message : FieldType;
  FT_Enum : FieldType;
  FT_Group : FieldType;
  FT_String : FieldType;
  FT_Bytes : FieldType;
  FieldType_as_i32 : FieldType → Z;
  FieldType_from_int : Z → option FieldType;
  FieldType_from_proto_name : string → option FieldType;
  proto_name : FieldType → string;
  WireType : Type;
  WireType_eq_dec :: EqDecision WireType;
  LengthDelimited : WireType;
  wire_type : FieldType → WireType;
  FieldLabel : Type;
  FieldLabel_eq_dec :: EqDecision FieldLabel;
  FL_Optional : FieldLabel;
  FL_Required : FieldLabel;
  FL_Repeated : FieldLabel;
  FieldLabel_as_i32 : FieldLabel → Z;
  FieldLabel_from_int : Z → option FieldLabel;
  FieldLabel_debug : FieldLabel → string;
  Visibility_as_i32 : Visibility → Z;
  OptimizeMode_as_i32 : OptimizeMode → Z;
  FieldCType_as_i32 : FieldCType → Z;
  FieldJsType_as_i32 : FieldJsType → Z;
  IdempotencyLevel_as_i32 : IdempotencyLevel → Z;
  SourceSpan : Type;
  to_camel_case : string → string;
  size_of_NamePart : Z;
  size_of_UninterpretedOption : Z;
  size_of_ExtensionRange : Z;
  size_of_ReservedRange : Z;
  size_of_EnumReservedRange : Z;
  size_of_OneofDescriptorProto : Z;
  size_of_FieldDescriptorProto : Z;
  size_of_EnumValueDescriptorProto : Z;
  size_of_EnumDescriptorProto : Z;
  size_of_MethodDescriptorProto : Z;
  size_of_DescriptorProto : Z;
  size_of_SourceLocation : Z;
}.

(** Documented behaviour: [from_int] inverts the discriminant of every
    variant, discriminants are [i32] values that are not negative, and the
    discriminants of the closed enumerations are the numbers of
    [descriptor.proto]. *)
Class ProtocSchemaLaws (PS : ProtocSchema) : Prop := {
  FieldType_from_as t : FieldType_from_int (FieldType_as_i32 t) = Some t;
  FieldType_as_range t : 0 <= FieldType_as_i32 t < 2 ^ 31;
  FieldLabel_from_as l : FieldLabel_from_int (FieldLabel_as_i32 l) = Some l;
  FieldLabel_as_range l : 0 <= FieldLabel_as_i32 l < 2 ^ 31;
  Visibility_discriminant v :
    Visibility_as_i32 v = match v with Export_ => 0 | Local_ => 1 end;
  OptimizeMode_discriminant m :
    OptimizeMode_as_i32 m = match m with Speed => 1 | CodeSize => 2 | LiteRuntime => 3 end;
  FieldCType_discriminant c :
    FieldCType_as_i32 c = match c with CString => 0 | Cord => 1 | StringPiece => 2 end;
  FieldJsType_discriminant j :
    FieldJsType_as_i32 j = match j with JsNormal => 0 | JsString => 1 | JsNumber => 2 end;
  IdempotencyLevel_discriminant i :
    IdempotencyLevel_as_i32 i =
      match i with IdempotencyUnknown => 0 | NoSideEffects => 1 | Idempotent => 2 end;
}.

(** ** Option messages *)

Record NamePart := mkNamePart {
  np_name_part : string;
  np_is_extension : bool;
}.

Record UninterpretedOption := mkUninterpretedOption {
  uo_name : list NamePart;
  uo_identifier_value : option string;
  uo_positive_int_value : option Z;
  uo_negative_int_value : option Z;
  uo_double_value : option string;
  uo_string_value : option (list byte);
  uo_aggregate_value : option string;
}.

Record FileOptions := mkFileOptions {
  fo_java_package : option string;
  fo_java_outer_classname : option string;
  fo_java_multiple_files : option bool;
  fo_java_generate_equals_and_hash : option bool;
  fo_java_string_check_utf8 : option bool;
  fo_optimize_for : option OptimizeMode;
  fo_go_package : option string;
  fo_cc_generic_services : option bool;
  fo_java_generic_services : option bool;
  fo_py_generic_services : option bool;
  fo_deprecated : option bool;
  fo_cc_enable_arenas : option bool;
  fo_objc_class_prefix : option string;
  fo_csharp_namespace : option string;
  fo_swift_prefix : option string;
  fo_php_class_prefix : option string;
  fo_php_namespace : option string;
  fo_php_metadata_namespace : option string;
  fo_ruby_package : option string;
  fo_uninterpreted_option : list UninterpretedOption;
}.

Record MessageOptions := mkMessageOptions {
  mo_message_set_wire_format : option bool;
  mo_no_standard_descriptor_accessor : option bool;
  mo_deprecated : option bool;
  mo_map_entry : option bool;
  mo_uninterpreted_option : list UninterpretedOption;
}.

Record FieldOptions := mkFieldOptions {
  fdo_ctype : option FieldCType;
  fdo_packed : option bool;
  fdo_jstype : option FieldJsType;
  fdo_lazy : option bool;
  fdo_deprecated : option bool;
  fdo_weak : option bool;
  fdo_uninterpreted_option : list UninterpretedOption;
}.

Record OneofOptions := mkOneofOptions {
  oo_uninterpreted_option : list UninterpretedOption;
}.

Record EnumOptions := mkEnumOptions {
  eo_allow_alias : option bool;
  eo_deprecated : option bool;
  eo_uninterpreted_option : list UninterpretedOption;
}.

Record EnumValueOptions := mkEnumValueOptions {
  evo_deprecated : option bool;
  evo_uninterpreted_option : list UninterpretedOption;
}.

Record ServiceOptions := mkServiceOptions {
  so_deprecated : option bool;
  so_uninterpreted_option : list UninterpretedOption;
}.

Record MethodOptions := mkMethodOptions {
  mdo_deprecated : option bool;
  mdo_idempotency_level : option IdempotencyLevel;
  mdo_uninterpreted_option : list UninterpretedOption;
}.

Record ExtensionRangeOptions := mkExtensionRangeOptions {
  ero_uninterpreted_option : list UninterpretedOption;
}.

(** ** Structural messages *)

Record ExtensionRange := mkExtensionRange {
  er_start : option Z;
  er_end : option Z;
  er_options : option ExtensionRangeOptions;
}.

Record ReservedRange := mkReservedRange {
  rr_start : option Z;
  rr_end : option Z;
}.

Record EnumReservedRange := mkEnumReservedRange {
  err_start : option Z;
  err_end : option Z;
}.

Record OneofDescriptorProto := mkOneofDescriptorProto {
  od_name : option string;
  od_options : option OneofOptions;
}.

Record MethodDescriptorProto := mkMethodDescriptorProto {
  md_name : option string;
  md_input_type : option string;
  md_output_type : option string;
  md_options : option MethodOptions;
  md_client_streaming : option bool;
  md_server_streaming : option bool;
}.

Record ServiceDescriptorProto := mkServiceDescriptorProto {
  sd_name : option string;
  sd_method : list MethodDescriptorProto;
  sd_options : option ServiceOptions;
}.

Section Descriptors.
Context {PS : ProtocSchema}.

Record FieldDescriptorProto := mkFieldDescriptorProto {
  fd_name : option string;
  fd_number : option Z;
  fd_label : option FieldLabel;
  fd_type : option FieldType;
  fd_type_name : option string;
  fd_extendee : option string;
  fd_default_value : option string;
  fd_oneof_index : option Z;
  fd_json_name : option string;
  fd_options : option FieldOptions;
  fd_proto3_optional : option bool;
  fd_source_span : option SourceSpan;
}.

Record EnumValueDescriptorProto := mkEnumValueDescriptorProto {
  ev_name : option string;
  ev_number : option Z;
  ev_options : option EnumValueOptions;
  ev_source_span : option SourceSpan;
}.

Record EnumDescriptorProto := mkEnumDescriptorProto {
  ed_name : option string;
  ed_value : list EnumValueDescriptorProto;
  ed_options : option EnumOptions;
  ed_reserved_range : list EnumReservedRange;
  ed_reserved_name : list string;
  ed_visibility : option Visibility;
  ed_source_span : option SourceSpan;
}.

Inductive DescriptorProto := mkDescriptorProto {
  dp_name : option string;
  dp_field : list FieldDescriptorProto;
  dp_extension : list FieldDescriptorProto;
  dp_nested_type : list DescriptorProto;
  dp_enum_type : list EnumDescriptorProto;
  dp_extension_range : list ExtensionRange;
  dp_oneof_decl : list OneofDescriptorProto;
  dp_options : option MessageOptions;
  dp_reserved_range : list ReservedRange;
  dp_reserved_name : list string;
  dp_visibility : option Visibility;
  dp_source_span : option SourceSpan;
}.

End Descriptors.

(** ** Source locations and files *)

Record SourceLocation := mkSourceLocation {
  sl_path : list Z;
  sl_span : list Z;
  sl_leading_comments : option string;
  sl_trailing_comments : option string;
  sl_leading_detached_comments : list string;
}.

Record SourceCodeInfo := mkSourceCodeInfo {
  sci_location : list SourceLocation;
}.

Section Files.
Context {PS : ProtocSchema}.

(** The fields are those of the struct literal in [reassemble.rs]. *)
Record FileDescriptorProto := mkFileDescriptorProto {
  fl_name : option string;
  fl_package : option string;
  fl_dependency : list string;
  fl_public_dependency : list Z;
  fl_weak_dependency : list Z;
  fl_option_dependency : list string;
  fl_message_type : list DescriptorProto;
  fl_enum_type : list EnumDescriptorProto;
  fl_service : list ServiceDescriptorProto;
  fl_extension : list FieldDescriptorProto;
  fl_options : option FileOptions;
  fl_source_code_info : option SourceCodeInfo;
  fl_syntax : option string;
  fl_edition : option string;
}.

Inductive Syntax := Proto2 | Proto3 | SyntaxUnknown (s : string).

(** The parser crate and [FileDescriptorProto::syntax_enum]. A parse either
    fails, or collects errors beside the file; an error is a line and a
    message. *)
Class ProtocParser := {
  parse_collecting : string → outcome (Z * string) (FileDescriptorProto * list (Z * string));
  syntax_enum : FileDescriptorProto → Syntax;
}.

(** [protoc_rs_codegen::generate_rust]: the modules of a set of files by key. *)
Class ProtocCodegen := generate_rust : list FileDescriptorProto → outcome string (gmap string string).

End Files.

(** ** Induction over nested messages *)

Section DescriptorInd.
Context {PS : ProtocSchema}.

Fixpoint dp_size (m : DescriptorProto) : nat :=
  S (foldr (λ n acc, dp_size n + acc)%nat 0%nat (dp_nested_type m)).

Lemma dp_size_nested m n : n ∈ dp_nested_type m → (dp_size n < dp_size m)%nat.
Proof.
  destruct m as [? ? ? nested]. simpl. intros Hn.
  assert (dp_size n <= foldr (λ n acc, dp_size n + acc)%nat 0%nat nested)%nat; [|lia].
  induction Hn as [|x y l _ IH]; simpl; lia.
Qed.

(** A property of messages holds if it follows from the nested messages'. *)
Lemma DescriptorProto_nested_ind (P : DescriptorProto → Prop) :
  (∀ m, (∀ n, n ∈ dp_nested_type m → P n) → P m) → ∀ m, P m.
Proof.
  intros HP m. induction m as [m IH] using (induction_ltof1 _ dp_size).
  apply HP. intros n Hn. apply IH. by apply dp_size_nested.
Qed.

End DescriptorInd.
