(* ===== verification/Codec.v ===== *)
(** * Codec: the binary writer and reader of [codec.rs]

    [Writer] and [Reader] of [crates/schemahub-compiler-protobuf/src/codec.rs]:
    LEB128 varints, zig-zag integers, length-prefixed strings and bytes,
    one-byte presence tags, and counted vectors.

    The writer only appends, so a [write_*] function is the list of bytes it
    appends and a sequence of writes is [++]. The reader is a buffer and a
    cursor; a decoder is a function of the reader that returns a value and the
    advanced reader, an error, or a panic. [usize] is 64 bits wide. *)
From S2P Require Import Prelude RustStd.
From Stdlib Require Import Strings.Byte.

Open Scope Z_scope.

(** ** Writer *)

Definition Writer : Type := list byte.

Definition write_u8 (v : Z) : Writer := [byte_of_Z v].

(** The loop of [write_uvarint]; ten rounds cover a [u64]. *)
Fixpoint uvarint_loop (fuel : nat) (v : Z) : Writer :=
  match fuel with
  | O => []
  | S fuel' =>
    let v' := Z.shiftr v 7 in
    let b := if v' =? 0 then Z.land v 127 else Z.lor (Z.land v 127) 128 in
    byte_of_Z b :: (if v' =? 0 then [] else uvarint_loop fuel' v')
  end.

Definition write_uvarint (v : Z) : Writer := uvarint_loop 10 v.

(** [((v << 1) ^ (v >> 63)) as u64] on an [i64]. *)
Definition zigzag (v : Z) : Z :=
  wrap_u64 (Z.lxor (wrap_i64 (Z.shiftl v 1)) (Z.shiftr v 63)).

Definition write_ivarint (v : Z) : Writer := write_uvarint (zigzag v).

Definition write_bool (v : bool) : Writer := write_u8 (if v then 1 else 0).

Definition write_str (s : string) : Writer :=
  write_uvarint (wrap_u64 (str_len s)) ++ as_bytes s.

Definition write_bytes (b : list byte) : Writer :=
  write_uvarint (wrap_u64 (Z.of_nat (length b))) ++ b.

(** The shape shared by the [write_opt_*] methods: a presence byte, then the
    value. *)
Definition write_opt_with {A} (w : A → Writer) (v : option A) : Writer :=
  match v with
  | Some a => write_u8 1 ++ w a
  | None => write_u8 0
  end.

Definition write_opt_str : option string → Writer := write_opt_with write_str.
Definition write_opt_bool : option bool → Writer := write_opt_with write_bool.
Definition write_opt_i32 : option Z → Writer := write_opt_with write_ivarint.
Definition write_opt_u64 : option Z → Writer := write_opt_with write_uvarint.
Definition write_opt_i64 : option Z → Writer := write_opt_with write_ivarint.
Definition write_opt_bytes : option (list byte) → Writer := write_opt_with write_bytes.

(** The shape shared by [write_vec], [write_str_vec] and [write_i32_vec]. *)
Definition write_seq {A} (w : A → Writer) (items : list A) : Writer :=
  write_uvarint (wrap_u64 (Z.of_nat (length items))) ++ concat (map w items).

Definition write_str_vec : list string → Writer := write_seq write_str.
Definition write_i32_vec : list Z → Writer := write_seq write_ivarint.

(** ** Reader *)

(** One constructor per [CodecError(..)] message of the source. *)
Inductive CodecError :=
  | UnexpectedEnd
  | VarintTooLong
  | StringLengthExceedsInput
  | InvalidUtf8 (bs : list byte)
  | BytesLengthExceedsInput
  | UnknownVariant (enum_name : string) (v : Z).

(** [Display] of a [CodecError]. *)
Definition fmt_codec_error `{RustFmt} (e : CodecError) : string :=
  "codec error: " +:+
  match e with
  | UnexpectedEnd => "unexpected end of input"
  | VarintTooLong => "varint too long"
  | StringLengthExceedsInput => "string length exceeds input"
  | InvalidUtf8 bs => "invalid utf-8: " +:+ fmt_utf8_error bs
  | BytesLengthExceedsInput => "bytes length exceeds input"
  | UnknownVariant n v => "unknown " +:+ n +:+ ": " +:+ fmt_Z v
  end.

Record Reader := mkReader {
  r_buf : list byte;
  r_pos : nat;
}.

Definition Decoder (A : Type) : Type := Reader → outcome CodecError (A * Reader).

#[export] Instance decoder_ret : MRet Decoder := λ A a r, Ok (a, r).
#[export] Instance decoder_bind : MBind Decoder := λ A B f d r,
  match d r with
  | Ok (a, r') => f a r'
  | Err e => Err e
  | Panic => Panic
  | Stuck => Stuck
  end.

Definition throw {A} (e : CodecError) : Decoder A := λ _, Err e.
Definition panic {A} : Decoder A := λ _, Panic.
Definition stuck {A} : Decoder A := λ _, Stuck.

Definition reader_new (buf : list byte) : Reader := mkReader buf 0.

Definition is_at_end (r : Reader) : bool := bool_decide (r_pos r = length (r_buf r)).

Definition read_u8 : Decoder Z := λ r,
  match r_buf r !! r_pos r with
  | None => Err UnexpectedEnd
  | Some b => Ok (u8 b, mkReader (r_buf r) (S (r_pos r)))
  end.

(** The loop of [read_uvarint]: the shift reaches 70 in the eleventh round,
    where the code returns "varint too long". *)
Fixpoint read_uvarint_loop (fuel : nat) (result shift : Z) : Decoder Z :=
  match fuel with
  | O => stuck
  | S fuel' =>
    b ← read_u8;
    if 64 <=? shift then throw VarintTooLong else
    let result' := Z.lor result (wrap_u64 (Z.shiftl (Z.land b 127) shift)) in
    if Z.land b 128 =? 0 then mret result'
    else read_uvarint_loop fuel' result' (shift + 7)
  end.

Definition read_uvarint : Decoder Z := read_uvarint_loop 11 0 0.

(** [((zz >> 1) as i64) ^ -((zz & 1) as i64)]. *)
Definition unzigzag (zz : Z) : Z :=
  Z.lxor (wrap_i64 (Z.shiftr zz 1)) (- Z.land zz 1).

Definition read_ivarint : Decoder Z := zz ← read_uvarint; mret (unzigzag zz).

Definition read_bool : Decoder bool := b ← read_u8; mret (negb (b =? 0)).

(** [if self.pos + len > self.buf.len() { return Err(..) }] followed by the
    slice [self.buf[self.pos..self.pos + len]] and [self.pos += len]. The sum
    wraps; a slice whose end lies before its start panics. *)
Definition take_slice (len : Z) (e : CodecError) : Decoder (list byte) := λ r,
  let stop := wrap_u64 (Z.of_nat (r_pos r) + len) in
  if Z.of_nat (length (r_buf r)) <? stop then Err e
  else if stop <? Z.of_nat (r_pos r) then Panic
  else Ok (take (Z.to_nat len) (drop (r_pos r) (r_buf r)),
           mkReader (r_buf r) (r_pos r + Z.to_nat len)).

Definition read_str : Decoder string :=
  len ← read_uvarint;
  bs ← take_slice len StringLengthExceedsInput;
  match from_utf8 bs with
  | Some s => mret s
  | None => throw (InvalidUtf8 bs)
  end.

Definition read_bytes : Decoder (list byte) :=
  len ← read_uvarint;
  take_slice len BytesLengthExceedsInput.

(** The shape shared by the [read_opt_*] methods: any tag but 1 is absence. *)
Definition read_opt_with {A} (d : Decoder A) : Decoder (option A) :=
  b ← read_u8;
  if b =? 1 then a ← d; mret (Some a) else mret None.

Definition read_opt_str : Decoder (option string) := read_opt_with read_str.
Definition read_opt_bool : Decoder (option bool) := read_opt_with read_bool.
Definition read_opt_i32 : Decoder (option Z) :=
  read_opt_with (v ← read_ivarint; mret (wrap_i32 v)).
Definition read_opt_u64 : Decoder (option Z) := read_opt_with read_uvarint.
Definition read_opt_i64 : Decoder (option Z) := read_opt_with read_ivarint.
Definition read_opt_bytes : Decoder (option (list byte)) := read_opt_with read_bytes.

(** [for _ in 0..p { out.push(d(r)?) }], by halving so that a forged length
    still computes: the first error stops it. *)
Fixpoint repeat_decoder {A} (d : Decoder A) (p : positive) : Decoder (list A) :=
  match p with
  | xH => x ← d; mret [x]
  | xO q => l1 ← repeat_decoder d q; l2 ← repeat_decoder d q; mret (l1 ++ l2)
  | xI q => x ← d; l1 ← repeat_decoder d q; l2 ← repeat_decoder d q;
            mret (x :: l1 ++ l2)
  end.

(** [read_vec] and its copies for strings and integers. [Vec::with_capacity]
    panics when the capacity exceeds [isize::MAX] bytes; [size] is the size of
    an element. *)
Definition read_seq {A} (size : Z) (d : Decoder A) : Decoder (list A) :=
  len ← read_uvarint;
  if isize_max <? len * size then panic else
  match len with
  | Zpos p => repeat_decoder d p
  | _ => mret []
  end.

Definition size_of_String : Z := 24.
Definition size_of_i32 : Z := 4.

Definition read_str_vec : Decoder (list string) := read_seq size_of_String read_str.
Definition read_i32_vec : Decoder (list Z) :=
  read_seq size_of_i32 (v ← read_ivarint; mret (wrap_i32 v)).

Arguments write_u8 : simpl never.
Arguments write_uvarint : simpl never.
Arguments read_uvarint : simpl never.

(** ** Test vectors *)

Example uvarint_624485 : write_uvarint 624485 = [xe5; x8e; x26].
Proof. reflexivity. Qed.
Example uvarint_u64_max :
  write_uvarint u64_max = repeat xff 9 ++ [x01].
Proof. reflexivity. Qed.
Example zigzag_small : map zigzag [0; -1; 1; -2; i64_max; - 2 ^ 63] =
  [0; 1; 2; 3; 2 ^ 64 - 2; 2 ^ 64 - 1].
Proof. reflexivity. Qed.

(** ** The decoding relation

    [decodes d bs x]: wherever [bs] stands in a buffer that a [Vec<u8>] can
    hold, [d] started at its first byte returns [x] and stops after its last. *)
Definition decodes {A} (d : Decoder A) (bs : list byte) (x : A) : Prop :=
  ∀ pre rest, Z.of_nat (length (pre ++ bs ++ rest)) <= isize_max →
    d (mkReader (pre ++ bs ++ rest) (length pre)) =
      Ok (x, mkReader (pre ++ bs ++ rest) (length (pre ++ bs))).

Lemma decodes_ret {A} (x : A) : decodes (mret x) [] x.
Proof. intros pre rest _. unfold mret, decoder_ret. by rewrite app_nil_r. Qed.

Lemma decodes_bind {A B} (d : Decoder A) (k : A → Decoder B) bs bs' x y :
  decodes d bs x → decodes (k x) bs' y → decodes (d ≫= k) (bs ++ bs') y.
Proof.
  intros Hd Hk pre rest Hlen.
  unfold mbind, decoder_bind.
  specialize (Hd pre (bs' ++ rest)). specialize (Hk (pre ++ bs) rest).
  rewrite <- !app_assoc in *. rewrite Hd by done. rewrite Hk by done. done.
Qed.

Lemma decodes_last {A B} (d : Decoder A) (f : A → B) bs x :
  decodes d bs x → decodes (d ≫= λ a, mret (f a)) bs (f x).
Proof.
  intros Hd. rewrite <- (app_nil_r bs).
  eapply decodes_bind; [done|]. apply decodes_ret.
Qed.

Lemma decodes_bind_eq {A B} (d : Decoder A) (k : A → Decoder B) bs bs' bs'' x y :
  decodes d bs x → bs'' = bs ++ bs' → decodes (k x) bs' y → decodes (d ≫= k) bs'' y.
Proof. intros ? -> ?. by eapply decodes_bind. Qed.

(** A decoder applied to exactly the bytes of one value. *)
Lemma decodes_top {A} (d : Decoder A) bs x :
  decodes d bs x → Z.of_nat (length bs) <= isize_max →
  ∃ r, d (reader_new bs) = Ok (x, r).
Proof.
  intros Hd Hlen. specialize (Hd [] []). rewrite app_nil_r in Hd.
  eexists. by apply Hd.
Qed.

(** ** Single bytes and varints *)

Lemma decodes_u8 v : 0 <= v < 256 → decodes read_u8 (write_u8 v) v.
Proof.
  intros Hv pre rest _. unfold read_u8, write_u8. simpl.
  rewrite list_lookup_middle by done. rewrite u8_of_Z_small by done.
  by rewrite length_app, Nat.add_1_r.
Qed.

Lemma land_127_range v : 0 <= Z.land v 127 < 128.
Proof. change 127 with (Z.ones 7). rewrite Z.land_ones by lia. apply Z.mod_pos_bound. lia. Qed.

Lemma cont_byte_value v : Z.lor (Z.land v 127) 128 = Z.land v 127 + 128.
Proof.
  rewrite <- Z.lxor_lor, <- Z.add_nocarry_lxor; [done|..];
    by rewrite <- Z.land_assoc, Z.land_0_r.
Qed.

Lemma cont_byte_low v : Z.land (Z.lor (Z.land v 127) 128) 127 = Z.land v 127.
Proof.
  rewrite Z.land_lor_distr_l, <- Z.land_assoc. change (Z.land 128 127) with 0.
  by rewrite Z.lor_0_r.
Qed.

Lemma cont_byte_flag v : Z.land (Z.lor (Z.land v 127) 128) 128 = 128.
Proof.
  rewrite Z.land_lor_distr_l, <- Z.land_assoc. change (Z.land 127 128) with 0.
  by rewrite Z.land_0_r.
Qed.

Lemma last_byte_flag v : Z.land (Z.land v 127) 128 = 0.
Proof. rewrite <- Z.land_assoc. change (Z.land 127 128) with 0. apply Z.land_0_r. Qed.

Lemma last_byte_low v : Z.land (Z.land v 127) 127 = Z.land v 127.
Proof. by rewrite <- Z.land_assoc. Qed.

(** The seven low bits and the rest recombine. *)
Lemma uvarint_recombine v s :
  0 <= v → 0 <= s →
  Z.lor (Z.shiftl (Z.land v 127) s) (Z.shiftl (Z.shiftr v 7) (s + 7)) = Z.shiftl v s.
Proof.
  intros Hv Hs. rewrite (Z.add_comm s 7), <- Z.shiftl_shiftl by lia.
  rewrite <- Z.shiftl_lor. f_equal.
  change 127 with (Z.ones 7). rewrite <- Z.ldiff_ones_r by lia.
  rewrite Z.lor_comm. apply Z.lor_ldiff_and.
Qed.

Lemma shiftl_le_self v s : 0 <= v → 0 <= s → 0 <= Z.shiftl (Z.land v 127) s <= Z.shiftl v s.
Proof.
  intros Hv Hs. rewrite !Z.shiftl_mul_pow2 by done.
  pose proof (Z.pow_pos_nonneg 2 s ltac:(lia) Hs).
  pose proof (land_127_range v).
  assert (Z.land v 127 <= v).
  { change 127 with (Z.ones 7). rewrite Z.land_ones by lia. by apply Z.mod_le. }
  nia.
Qed.

(** Reading back a varint from the middle of its loop. *)
Lemma decodes_uvarint_loop fuel : ∀ v res shift fuel',
  (fuel <= fuel')%nat → (0 < fuel)%nat →
  0 <= v < 2 ^ (7 * Z.of_nat fuel) → 0 <= shift < 64 → Z.shiftl v shift < 2 ^ 64 →
  decodes (read_uvarint_loop fuel' res shift) (uvarint_loop fuel v)
          (Z.lor res (Z.shiftl v shift)).
Proof.
  induction fuel as [|fuel IH]; intros v res shift fuel' Hf H0 Hv Hs Hsh; [lia|].
  destruct fuel' as [|fuel']; [lia|]. cbn [uvarint_loop read_uvarint_loop].
  pose proof (land_127_range v) as Hl.
  pose proof (shiftl_le_self v shift ltac:(lia) ltac:(lia)) as Hle.
  destruct (Z.eqb_spec (Z.shiftr v 7) 0) as [Hz|Hz].
  - rewrite <- (app_nil_r [_]). eapply decodes_bind; [apply decodes_u8; lia|].
    rewrite (proj2 (Z.leb_gt 64 shift)) by lia. rewrite last_byte_flag. cbn [Z.eqb].
    rewrite last_byte_low, wrap_u64_id by (unfold in_u64; lia).
    pose proof (uvarint_recombine v shift ltac:(lia) ltac:(lia)) as Hr.
    rewrite Hz, Z.shiftl_0_l, Z.lor_0_r in Hr. rewrite Hr. apply decodes_ret.
  - assert (0 <= Z.shiftr v 7) as Hge by (apply Z.shiftr_nonneg; lia).
    assert (Z.shiftl (Z.shiftr v 7) (shift + 7) <= Z.shiftl v shift) as Hmono.
    { rewrite Z.shiftr_div_pow2, !Z.shiftl_mul_pow2, Z.pow_add_r by lia.
      pose proof (Z.mul_div_le v (2 ^ 7) ltac:(lia)).
      pose proof (Z.pow_pos_nonneg 2 shift ltac:(lia) ltac:(lia)). nia. }
    assert (shift + 7 < 64) as Hs7.
    { apply (Z.pow_lt_mono_r_iff 2); [lia..|].
      rewrite Z.shiftl_mul_pow2 in Hmono by lia.
      pose proof (Z.pow_pos_nonneg 2 (shift + 7) ltac:(lia) ltac:(lia)). nia. }
    change (byte_of_Z ?b :: ?l) with (write_u8 b ++ l).
    eapply decodes_bind; [apply decodes_u8; rewrite cont_byte_value; lia|].
    rewrite (proj2 (Z.leb_gt 64 shift)) by lia. rewrite cont_byte_flag. cbn [Z.eqb].
    rewrite cont_byte_low, wrap_u64_id by (unfold in_u64; lia).
    rewrite <- (uvarint_recombine v shift), Z.lor_assoc by lia.
    assert (Z.shiftr v 7 < 2 ^ (7 * Z.of_nat fuel)) as Hlt.
    { rewrite Z.shiftr_div_pow2 by lia. apply Z.div_lt_upper_bound; [lia|].
      rewrite <- Z.pow_add_r by lia.
      replace (7 + 7 * Z.of_nat fuel) with (7 * Z.of_nat (S fuel)) by lia. lia. }
    destruct fuel as [|fuel]; [simpl in Hlt; lia|].
    apply IH; try lia.
Qed.

Lemma decodes_uvarint v : in_u64 v → decodes read_uvarint (write_uvarint v) v.
Proof.
  intros Hv. unfold in_u64 in Hv. unfold read_uvarint, write_uvarint.
  pose proof (decodes_uvarint_loop 10 v 0 0 11) as H.
  rewrite Z.shiftl_0_r, Z.lor_0_l in H. apply H; try lia.
Qed.

(** ** Zig-zag *)

Lemma wrap_i64_mod z : (wrap_i64 z) mod 2 ^ 64 = z mod 2 ^ 64.
Proof.
  unfold wrap_i64. rewrite Zminus_mod_idemp_l. f_equal. lia.
Qed.

Lemma zigzag_nonneg v : 0 <= v < 2 ^ 63 → zigzag v = 2 * v.
Proof.
  intros Hv. unfold zigzag.
  assert (Z.shiftr v 63 = 0) as ->.
  { rewrite Z.shiftr_div_pow2 by lia. by apply Z.div_small. }
  rewrite Z.lxor_0_r. unfold wrap_u64. rewrite wrap_i64_mod.
  rewrite Z.shiftl_mul_pow2 by lia. rewrite Z.mod_small; lia.
Qed.

Lemma zigzag_neg v : - 2 ^ 63 <= v < 0 → zigzag v = - 2 * v - 1.
Proof.
  intros Hv. unfold zigzag.
  assert (Z.shiftr v 63 = -1) as ->.
  { rewrite Z.shiftr_div_pow2 by lia. symmetry. apply (Z.div_unique _ _ _ (v + 2 ^ 63)); lia. }
  rewrite Z.lxor_m1_r. unfold Z.lnot, wrap_u64.
  rewrite <- Z.sub_1_r, <- Zminus_mod_idemp_l.
  assert ((- wrap_i64 (Z.shiftl v 1)) mod 2 ^ 64 = (- Z.shiftl v 1) mod 2 ^ 64) as ->.
  { rewrite <- (Z.sub_0_l (wrap_i64 _)), <- (Z.sub_0_l (Z.shiftl _ _)).
    rewrite <- (Zminus_mod_idemp_r 0 (wrap_i64 _)), wrap_i64_mod.
    by rewrite Zminus_mod_idemp_r. }
  rewrite Zminus_mod_idemp_l, Z.shiftl_mul_pow2 by lia. rewrite Z.mod_small; lia.
Qed.

Lemma zigzag_range v : in_u64 (zigzag v).
Proof. apply wrap_u64_range. Qed.

Lemma unzigzag_zigzag v : in_i64 v → unzigzag (zigzag v) = v.
Proof.
  unfold in_i64. intros Hv. unfold unzigzag.
  destruct (Z.ltb_spec v 0) as [Hn|Hn].
  - rewrite zigzag_neg by lia.
    assert (Z.shiftr (-2 * v - 1) 1 = - v - 1) as ->.
    { rewrite Z.shiftr_div_pow2 by lia. symmetry. apply (Z.div_unique _ _ _ 1); lia. }
    assert (Z.land (-2 * v - 1) 1 = 1) as ->.
    { change 1 with (Z.ones 1) at 2. rewrite Z.land_ones by lia.
      symmetry. apply (Z.mod_unique _ _ (- v - 1)); lia. }
    rewrite wrap_i64_id by (unfold in_i64; lia).
    change (- (1)) with (-1). rewrite Z.lxor_m1_r. unfold Z.lnot. lia.
  - rewrite zigzag_nonneg by lia.
    assert (Z.shiftr (2 * v) 1 = v) as ->.
    { rewrite Z.shiftr_div_pow2 by lia. symmetry. apply (Z.div_unique _ _ _ 0); lia. }
    assert (Z.land (2 * v) 1 = 0) as ->.
    { change 1 with (Z.ones 1). rewrite Z.land_ones by lia.
      symmetry. apply (Z.mod_unique _ _ v); lia. }
    rewrite wrap_i64_id by (unfold in_i64; lia). apply Z.lxor_0_r.
Qed.

(** ** Strings, bytes, options *)

Lemma decodes_ivarint v : in_i64 v → decodes read_ivarint (write_ivarint v) v.
Proof.
  intros Hv. unfold read_ivarint, write_ivarint.
  rewrite <- (unzigzag_zigzag v) at 2 by done.
  apply (decodes_last _ unzigzag). apply decodes_uvarint, zigzag_range.
Qed.

Lemma in_i32_i64 v : in_i32 v → in_i64 v.
Proof. unfold in_i32, in_i64. lia. Qed.

Lemma decodes_i32 v : in_i32 v → decodes (v ← read_ivarint; mret (wrap_i32 v)) (write_ivarint v) v.
Proof.
  intros Hv. rewrite <- (wrap_i32_id v) at 2 by done.
  apply (decodes_last _ wrap_i32). by apply decodes_ivarint, in_i32_i64.
Qed.

Lemma decodes_bool v : decodes read_bool (write_bool v) v.
Proof.
  unfold read_bool, write_bool.
  replace v with (negb ((if v then 1 else 0) =? 0)) at 2 by (by destruct v).
  apply (decodes_last _ (λ b, negb (b =? 0))). apply decodes_u8. destruct v; lia.
Qed.

Lemma decodes_slice bs e :
  decodes (take_slice (wrap_u64 (Z.of_nat (length bs))) e) bs bs.
Proof.
  intros pre rest Hlen. rewrite !length_app in Hlen. unfold isize_max in Hlen.
  unfold take_slice. cbn [r_buf r_pos].
  rewrite !(wrap_u64_id (Z.of_nat (length bs))) by (unfold in_u64; lia).
  rewrite wrap_u64_id by (unfold in_u64; lia).
  rewrite !length_app.
  rewrite (proj2 (Z.ltb_ge _ _)) by lia. rewrite (proj2 (Z.ltb_ge _ _)) by lia.
  rewrite Nat2Z.id, drop_app_length, take_app_length. done.
Qed.

Lemma decodes_bytes bs : decodes read_bytes (write_bytes bs) bs.
Proof.
  unfold read_bytes, write_bytes. eapply decodes_bind; [apply decodes_uvarint|].
  - apply wrap_u64_range.
  - apply decodes_slice.
Qed.

Lemma decodes_str s : valid_str s → decodes read_str (write_str s) s.
Proof.
  intros Hs. unfold read_str, write_str. eapply decodes_bind.
  { apply decodes_uvarint, wrap_u64_range. }
  unfold str_len. rewrite <- length_as_bytes.
  rewrite <- (app_nil_r (as_bytes s)) at 2. eapply decodes_bind; [apply decodes_slice|].
  rewrite from_utf8_as_bytes by done. apply decodes_ret.
Qed.

(** A property of the value of an [Option], if present. *)
Definition opt_all {A} (P : A → Prop) (o : option A) : Prop :=
  match o with Some a => P a | None => True end.

Lemma decodes_opt {A} (w : A → Writer) (d : Decoder A) (f : A → A) (o : option A) :
  opt_all (λ a, decodes d (w a) (f a)) o →
  decodes (read_opt_with d) (write_opt_with w o) (f <$> o).
Proof.
  intros Ho. unfold read_opt_with, write_opt_with. destruct o as [a|].
  - cbn [opt_all] in Ho. eapply decodes_bind; [apply decodes_u8; lia|].
    by apply (decodes_last _ Some).
  - rewrite <- (app_nil_r (write_u8 0)). eapply decodes_bind; [apply decodes_u8; lia|].
    apply decodes_ret.
Qed.

Lemma decodes_opt_id {A} (w : A → Writer) (d : Decoder A) (o : option A) :
  opt_all (λ a, decodes d (w a) a) o → decodes (read_opt_with d) (write_opt_with w o) o.
Proof.
  intros Ho. rewrite <- (option_fmap_id o) at 2. by apply decodes_opt.
Qed.

(** ** Vectors *)

(** What holds of every [Vec]: its length fits a [usize] and its contents do
    not exceed [isize::MAX] bytes. *)
Definition vec_fits {A} (size : Z) (l : list A) : Prop :=
  Z.of_nat (length l) < 2 ^ 64 ∧ Z.of_nat (length l) * size <= isize_max.

Lemma decodes_repeat {A} (w : A → Writer) (d : Decoder A) (f : A → A) p : ∀ l,
  length l = Pos.to_nat p → Forall (λ a, decodes d (w a) (f a)) l →
  decodes (repeat_decoder d p) (concat (map w l)) (map f l).
Proof.
  induction p as [q IH|q IH|]; intros l Hl Hall.
  - destruct l as [|x l]; [simpl in Hl; lia|]. apply Forall_cons in Hall as [Hx Hall].
    rewrite <- (take_drop (Pos.to_nat q) l) in Hall |- *.
    apply Forall_app in Hall as [H1 H2]. simpl in Hl. simpl.
    rewrite !map_app, concat_app.
    eapply decodes_bind; [done|]. eapply decodes_bind.
    { apply IH; [|done]. rewrite length_take. lia. }
    apply (decodes_last _ (λ l2, _ :: _ ++ l2)). apply IH; [|done]. rewrite length_drop. lia.
  - rewrite <- (take_drop (Pos.to_nat q) l) in Hall |- *.
    apply Forall_app in Hall as [H1 H2]. rewrite !map_app, concat_app. simpl.
    eapply decodes_bind.
    { apply IH; [|done]. rewrite length_take. lia. }
    apply (decodes_last _ (λ l2, _ ++ l2)). apply IH; [|done]. rewrite length_drop. lia.
  - destruct l as [|x [|y l]]; simpl in Hl; try lia. simpl. rewrite app_nil_r.
    apply Forall_cons in Hall as [Hx _]. by apply (decodes_last _ (λ x, [x])).
Qed.

Lemma decodes_seq {A} (size : Z) (w : A → Writer) (d : Decoder A) (f : A → A) l :
  vec_fits size l → Forall (λ a, decodes d (w a) (f a)) l →
  decodes (read_seq size d) (write_seq w l) (map f l).
Proof.
  intros [Hlen Hsize] Hall. unfold read_seq, write_seq.
  rewrite wrap_u64_id by (unfold in_u64; lia).
  eapply decodes_bind; [apply decodes_uvarint; unfold in_u64; lia|].
  rewrite (proj2 (Z.ltb_ge _ _)) by done.
  destruct l as [|x l]; [apply decodes_ret|]. cbn [length].
  rewrite Nat2Z.inj_succ. destruct (Z.succ (Z.of_nat (length l))) eqn:E; [lia| |lia].
  apply decodes_repeat; [|done]. simpl. lia.
Qed.

Lemma decodes_seq_id {A} (size : Z) (w : A → Writer) (d : Decoder A) l :
  vec_fits size l → Forall (λ a, decodes d (w a) a) l →
  decodes (read_seq size d) (write_seq w l) l.
Proof. intros ??. rewrite <- (map_id l) at 2. by apply decodes_seq. Qed.

(** ** Progress: every decoder terminates without exhausting its fuel

    [steady n d]: on a reader with fewer than [n] bytes left, [d] does not get
    stuck, keeps the buffer and does not move the cursor back or past the end. *)
Definition remaining (r : Reader) : nat := length (r_buf r) - r_pos r.

Definition in_bounds (r : Reader) : Prop := (r_pos r <= length (r_buf r))%nat.

Definition steady_result {A} (r : Reader) (o : outcome CodecError (A * Reader)) : Prop :=
  match o with
  | Ok (_, r') => r_buf r' = r_buf r ∧ (r_pos r <= r_pos r')%nat ∧ in_bounds r'
  | Stuck => False
  | _ => True
  end.

Definition steady {A} (n : nat) (d : Decoder A) : Prop :=
  ∀ r, in_bounds r → (remaining r < n)%nat → steady_result r (d r).

(** [advances d]: a successful run of [d] consumes at least one byte. *)
Definition advances {A} (d : Decoder A) : Prop :=
  ∀ r a r', in_bounds r → d r = Ok (a, r') → (r_pos r < r_pos r')%nat.

Lemma steady_ret {A} n (a : A) : steady n (mret a).
Proof. intros r Hr _. simpl. done. Qed.

Lemma steady_throw {A} n e : steady n (@throw A e).
Proof. by intros r _ _. Qed.

Lemma steady_panic {A} n : steady n (@panic A).
Proof. by intros r _ _. Qed.

Lemma steady_bind {A B} n (d : Decoder A) (k : A → Decoder B) :
  steady n d → (∀ a, steady n (k a)) → steady n (d ≫= k).
Proof.
  intros Hd Hk r Hr Hn. specialize (Hd r Hr Hn). unfold mbind, decoder_bind.
  destruct (d r) as [[a r']|e| |]; simpl in *; try done.
  destruct Hd as (Hb & Hp & Hi).
  assert (remaining r' < n)%nat as Hn'.
  { unfold remaining, in_bounds in *. rewrite Hb in *. lia. }
  specialize (Hk a r' Hi Hn'). destruct (k a r') as [[b r'']|e| |]; simpl in *; try done.
  destruct Hk as (Hb' & Hp' & Hi'). split_and!; [congruence|lia|done].
Qed.

(** After a step that advances, one unit of fuel less is enough. *)
Lemma steady_bind_advance {A B} n (d : Decoder A) (k : A → Decoder B) :
  steady (S n) d → advances d → (∀ a, steady n (k a)) → steady (S n) (d ≫= k).
Proof.
  intros Hd Ha Hk r Hr Hn. specialize (Hd r Hr Hn). specialize (Ha r).
  unfold mbind, decoder_bind.
  destruct (d r) as [[a r']|e| |]; simpl in *; try done.
  specialize (Ha a r' Hr eq_refl). destruct Hd as (Hb & Hp & Hi).
  assert (remaining r' < n)%nat as Hn'.
  { unfold remaining, in_bounds in *. rewrite Hb in *. lia. }
  specialize (Hk a r' Hi Hn'). destruct (k a r') as [[b r'']|e| |]; simpl in *; try done.
  destruct Hk as (Hb' & Hp' & Hi'). split_and!; [congruence|lia|done].
Qed.

Lemma steady_u8 n : steady n read_u8.
Proof.
  intros [buf pos] Hr _. unfold read_u8, in_bounds in *. cbn [r_buf r_pos] in *.
  destruct (buf !! pos) eqn:E; simpl; [|done].
  apply lookup_lt_Some in E. unfold in_bounds. simpl. split_and!; [done|lia|lia].
Qed.

Lemma advances_u8 : advances read_u8.
Proof.
  intros [buf pos] a r' _. unfold read_u8. simpl. destruct (buf !! pos); [|done].
  intros [= _ <-]. simpl. lia.
Qed.

Lemma steady_uvarint_loop n fuel : ∀ res shift,
  77 <= shift + 7 * Z.of_nat fuel → (0 < fuel)%nat → steady n (read_uvarint_loop fuel res shift).
Proof.
  induction fuel as [|fuel IH]; intros res shift Hs H0; [lia|].
  cbn [read_uvarint_loop]. apply steady_bind; [apply steady_u8|]. intros b.
  destruct (Z.leb_spec 64 shift); [apply steady_throw|].
  destruct (Z.land b 128 =? 0); [apply steady_ret|]. apply IH; lia.
Qed.

Lemma steady_uvarint n : steady n read_uvarint.
Proof. apply steady_uvarint_loop; lia. Qed.

Lemma lor_in_u64 a b : in_u64 a → in_u64 b → in_u64 (Z.lor a b).
Proof.
  unfold in_u64. intros Ha Hb.
  assert (0 <= Z.lor a b) as H0 by (apply Z.lor_nonneg; lia).
  split; [done|]. destruct (Z.eq_dec (Z.lor a b) 0) as [->|Hne]; [lia|].
  apply Z.log2_lt_pow2; [lia|]. rewrite Z.log2_lor by lia.
  apply Z.max_lub_lt.
  - destruct (Z.eq_dec a 0) as [->|]; [simpl; lia|]. apply Z.log2_lt_pow2; lia.
  - destruct (Z.eq_dec b 0) as [->|]; [simpl; lia|]. apply Z.log2_lt_pow2; lia.
Qed.

(** [returns d Q]: the values [d] returns satisfy [Q]. *)
Definition returns {A} (d : Decoder A) (Q : A → Prop) : Prop :=
  ∀ r a r', d r = Ok (a, r') → Q a.

Lemma returns_uvarint_loop fuel : ∀ res shift,
  in_u64 res → returns (read_uvarint_loop fuel res shift) in_u64.
Proof.
  induction fuel as [|fuel IH]; intros res shift Hres r a r'; cbn [read_uvarint_loop]; [done|].
  unfold mbind, decoder_bind. destruct (read_u8 r) as [[b r1]|?| |]; try done.
  destruct (64 <=? shift); [done|].
  assert (in_u64 (Z.lor res (wrap_u64 (Z.shiftl (Z.land b 127) shift)))) as Hok
    by (apply lor_in_u64; [done|apply wrap_u64_range]).
  destruct (Z.land b 128 =? 0).
  - by intros [= <- <-].
  - by apply IH.
Qed.

Lemma returns_uvarint : returns read_uvarint in_u64.
Proof. apply returns_uvarint_loop. unfold in_u64. lia. Qed.

Lemma steady_bind_returns {A B} n (d : Decoder A) (Q : A → Prop) (k : A → Decoder B) :
  steady n d → returns d Q → (∀ a, Q a → steady n (k a)) → steady n (d ≫= k).
Proof.
  intros Hd HQ Hk r Hr Hn. specialize (Hd r Hr Hn). specialize (HQ r).
  unfold mbind, decoder_bind.
  destruct (d r) as [[a r']|e| |]; simpl in *; try done.
  specialize (HQ a r' eq_refl). destruct Hd as (Hb & Hp & Hi).
  assert (remaining r' < n)%nat as Hn'.
  { unfold remaining, in_bounds in *. rewrite Hb in *. lia. }
  specialize (Hk a HQ r' Hi Hn'). destruct (k a r') as [[b r'']|e| |]; simpl in *; try done.
  destruct Hk as (Hb' & Hp' & Hi'). split_and!; [congruence|lia|done].
Qed.

Lemma steady_slice n len e : in_u64 len → steady n (take_slice len e).
Proof.
  unfold in_u64. intros Hlen [buf pos] Hr _. unfold take_slice, in_bounds in *.
  cbn [r_buf r_pos] in *.
  destruct (Z.ltb_spec (Z.of_nat (length buf)) (wrap_u64 (Z.of_nat pos + len))) as [|H1]; [done|].
  destruct (Z.ltb_spec (wrap_u64 (Z.of_nat pos + len)) (Z.of_nat pos)) as [|H2]; [done|].
  unfold wrap_u64 in *. simpl. unfold in_bounds. simpl.
  pose proof (Z.div_mod (Z.of_nat pos + len) (2 ^ 64) ltac:(lia)) as Hdm.
  pose proof (Z.mod_pos_bound (Z.of_nat pos + len) (2 ^ 64) ltac:(lia)) as Hmb.
  split_and!; [done|lia|]. nia.
Qed.

Lemma steady_bytes n : steady n read_bytes.
Proof.
  apply (steady_bind_returns _ _ in_u64); [apply steady_uvarint|apply returns_uvarint|].
  intros len Hlen. by apply steady_slice.
Qed.

Lemma steady_str n : steady n read_str.
Proof.
  apply (steady_bind_returns _ _ in_u64); [apply steady_uvarint|apply returns_uvarint|].
  intros len Hlen. apply steady_bind; [by apply steady_slice|].
  intros bs. destruct (from_utf8 bs); [apply steady_ret|apply steady_throw].
Qed.

Lemma steady_ivarint n : steady n read_ivarint.
Proof. apply steady_bind; [apply steady_uvarint|]. intros. apply steady_ret. Qed.

Lemma steady_i32 n : steady n (v ← read_ivarint; mret (wrap_i32 v)).
Proof. apply steady_bind; [apply steady_ivarint|]. intros. apply steady_ret. Qed.

Lemma steady_bool n : steady n read_bool.
Proof. apply steady_bind; [apply steady_u8|]. intros. apply steady_ret. Qed.

Lemma steady_opt {A} n (d : Decoder A) : steady n d → steady n (read_opt_with d).
Proof.
  intros Hd. apply steady_bind; [apply steady_u8|]. intros b.
  destruct (b =? 1); [|apply steady_ret]. apply steady_bind; [done|]. intros. apply steady_ret.
Qed.

Lemma steady_repeat {A} n (d : Decoder A) p : steady n d → steady n (repeat_decoder d p).
Proof.
  intros Hd. induction p as [q IH|q IH|]; simpl.
  - apply steady_bind; [done|]. intros x. apply steady_bind; [done|]. intros l1.
    apply steady_bind; [done|]. intros. apply steady_ret.
  - apply steady_bind; [done|]. intros l1. apply steady_bind; [done|]. intros. apply steady_ret.
  - apply steady_bind; [done|]. intros. apply steady_ret.
Qed.

Lemma steady_seq {A} n size (d : Decoder A) : steady n d → steady n (read_seq size d).
Proof.
  intros Hd. apply steady_bind; [apply steady_uvarint|]. intros len.
  destruct (isize_max <? len * size); [apply steady_panic|].
  destruct len; [apply steady_ret|by apply steady_repeat|apply steady_ret].
Qed.

Lemma steady_le {A} (d : Decoder A) r a r' :
  (∀ n, steady n d) → in_bounds r → d r = Ok (a, r') → (r_pos r <= r_pos r')%nat.
Proof.
  intros Hd Hr E. specialize (Hd (S (remaining r)) r Hr ltac:(lia)).
  rewrite E in Hd. by destruct Hd as (_ & ? & _).
Qed.

Lemma advances_opt {A} (d : Decoder A) : (∀ n, steady n d) → advances (read_opt_with d).
Proof.
  intros Hd r a r' Hr. unfold read_opt_with, mbind, decoder_bind.
  pose proof (steady_u8 (S (remaining r)) r Hr ltac:(lia)) as Hu.
  destruct (read_u8 r) as [[b r1]|?| |] eqn:E; try done.
  destruct Hu as (_ & _ & Hr1). apply advances_u8 in E; [|done].
  destruct (b =? 1).
  - destruct (d r1) as [[x r2]|?| |] eqn:E2; try done.
    apply steady_le in E2; [|done..]. intros [= _ <-]. lia.
  - intros [= _ <-]. lia.
Qed.

(** ** Automation

    [codec] holds the round-trip lemmas, [steady] the progress lemmas. *)
Create HintDb codec.
#[export] Hint Resolve decodes_str decodes_bool decodes_bytes decodes_uvarint
  decodes_ivarint decodes_i32 : codec.
Create HintDb steady.
#[export] Hint Resolve steady_ret steady_throw steady_panic steady_u8 steady_uvarint
  steady_ivarint steady_i32 steady_bool steady_str steady_bytes steady_opt steady_seq : steady.

(** Decode a record: one field after the other, the last one by
    [decodes_last]. *)
Ltac decode_fields := repeat (first [eapply decodes_last | eapply decodes_bind]).

Ltac steady_fields :=
  repeat (first [ apply steady_ret
                | (apply steady_bind; [solve [eauto with steady]|intros ?]) ]).
