(* ===== verification/DescriptorCodec.v ===== *)
(** * DescriptorCodec: [Codec] for every descriptor type

    The trait [Codec] of [codec.rs], its implementation for the enumerations,
    option messages, descriptors and source locations, and the law that
    decoding an encoded value gives the value back. [source_span] is not
    serialised: it decodes to [None], so the law of the four descriptors that
    carry one is stated up to [erase].

    [wf] collects what the Rust types guarantee: strings are UTF-8, integers
    are in range and vectors fit their allocation. *)
From S2P Require Import Prelude RustStd ProtoSchema Codec.

Open Scope Z_scope.

(** ** The trait *)

Class Codec (T : Type) := {
  encode : T → Writer;
  decode : Decoder T;
}.

(** [std::mem::size_of] of the types stored in vectors. *)
Class SizeOf (T : Type) := size_of : Z.

Definition write_vec {T} `{Codec T} : list T → Writer := write_seq encode.
Definition read_vec {T} `{Codec T, SizeOf T} : Decoder (list T) :=
  read_seq (size_of (T := T)) decode.
Definition write_opt {T} `{Codec T} : option T → Writer := write_opt_with encode.
Definition read_opt {T} `{Codec T} : Decoder (option T) := read_opt_with decode.

Section DescriptorCodec.
Context {PS : ProtocSchema}.

(** ** Enumerations *)

Definition encode_Visibility (x : Visibility) : Writer :=
  write_uvarint (wrap_u64 (Visibility_as_i32 x)).
Definition decode_Visibility : Decoder Visibility :=
  v ← read_uvarint;
  match v with
  | 0 => mret Export_
  | 1 => mret Local_
  | _ => throw (UnknownVariant "Visibility" v)
  end.
#[export] Instance Visibility_codec : Codec Visibility :=
  { encode := encode_Visibility; decode := decode_Visibility }.

Definition encode_FieldType (x : FieldType) : Writer :=
  write_uvarint (wrap_u64 (FieldType_as_i32 x)).
Definition decode_FieldType : Decoder FieldType :=
  v ← read_uvarint;
  match FieldType_from_int (wrap_i32 v) with
  | Some t => mret t
  | None => throw (UnknownVariant "FieldType" (wrap_i32 v))
  end.
#[export] Instance FieldType_codec : Codec FieldType :=
  { encode := encode_FieldType; decode := decode_FieldType }.

Definition encode_FieldLabel (x : FieldLabel) : Writer :=
  write_uvarint (wrap_u64 (FieldLabel_as_i32 x)).
Definition decode_FieldLabel : Decoder FieldLabel :=
  v ← read_uvarint;
  match FieldLabel_from_int (wrap_i32 v) with
  | Some l => mret l
  | None => throw (UnknownVariant "FieldLabel" (wrap_i32 v))
  end.
#[export] Instance FieldLabel_codec : Codec FieldLabel :=
  { encode := encode_FieldLabel; decode := decode_FieldLabel }.

Definition encode_OptimizeMode (x : OptimizeMode) : Writer :=
  write_uvarint (wrap_u64 (OptimizeMode_as_i32 x)).
Definition decode_OptimizeMode : Decoder OptimizeMode :=
  v ← read_uvarint;
  match v with
  | 1 => mret Speed
  | 2 => mret CodeSize
  | 3 => mret LiteRuntime
  | _ => throw (UnknownVariant "OptimizeMode" v)
  end.
#[export] Instance OptimizeMode_codec : Codec OptimizeMode :=
  { encode := encode_OptimizeMode; decode := decode_OptimizeMode }.

Definition encode_FieldCType (x : FieldCType) : Writer :=
  write_uvarint (wrap_u64 (FieldCType_as_i32 x)).
Definition decode_FieldCType : Decoder FieldCType :=
  v ← read_uvarint;
  match v with
  | 0 => mret CString
  | 1 => mret Cord
  | 2 => mret StringPiece
  | _ => throw (UnknownVariant "FieldCType" v)
  end.
#[export] Instance FieldCType_codec : Codec FieldCType :=
  { encode := encode_FieldCType; decode := decode_FieldCType }.

Definition encode_FieldJsType (x : FieldJsType) : Writer :=
  write_uvarint (wrap_u64 (FieldJsType_as_i32 x)).
Definition decode_FieldJsType : Decoder FieldJsType :=
  v ← read_uvarint;
  match v with
  | 0 => mret JsNormal
  | 1 => mret JsString
  | 2 => mret JsNumber
  | _ => throw (UnknownVariant "FieldJsType" v)
  end.
#[export] Instance FieldJsType_codec : Codec FieldJsType :=
  { encode := encode_FieldJsType; decode := decode_FieldJsType }.

Definition encode_IdempotencyLevel (x : IdempotencyLevel) : Writer :=
  write_uvarint (wrap_u64 (IdempotencyLevel_as_i32 x)).
Definition decode_IdempotencyLevel : Decoder IdempotencyLevel :=
  v ← read_uvarint;
  match v with
  | 0 => mret IdempotencyUnknown
  | 1 => mret NoSideEffects
  | 2 => mret Idempotent
  | _ => throw (UnknownVariant "IdempotencyLevel" v)
  end.
#[export] Instance IdempotencyLevel_codec : Codec IdempotencyLevel :=
  { encode := encode_IdempotencyLevel; decode := decode_IdempotencyLevel }.

(** ** Records *)

Definition encode_NamePart (x : NamePart) : Writer :=
  write_str (np_name_part x) ++
  write_bool (np_is_extension x).
Definition decode_NamePart : Decoder NamePart :=
  name_part_ ← read_str;
  is_extension_ ← read_bool;
  mret (mkNamePart name_part_ is_extension_).
#[export] Instance NamePart_codec : Codec NamePart :=
  { encode := encode_NamePart; decode := decode_NamePart }.
#[export] Instance NamePart_size : SizeOf NamePart := size_of_NamePart.

Definition encode_UninterpretedOption (x : UninterpretedOption) : Writer :=
  write_vec (uo_name x) ++
  write_opt_str (uo_identifier_value x) ++
  write_opt_u64 (uo_positive_int_value x) ++
  write_opt_i64 (uo_negative_int_value x) ++
  write_opt_str (uo_double_value x) ++
  write_opt_bytes (uo_string_value x) ++
  write_opt_str (uo_aggregate_value x).
Definition decode_UninterpretedOption : Decoder UninterpretedOption :=
  name_ ← read_vec;
  identifier_value_ ← read_opt_str;
  positive_int_value_ ← read_opt_u64;
  negative_int_value_ ← read_opt_i64;
  double_value_ ← read_opt_str;
  string_value_ ← read_opt_bytes;
  aggregate_value_ ← read_opt_str;
  mret (mkUninterpretedOption name_ identifier_value_ positive_int_value_
        negative_int_value_ double_value_ string_value_ aggregate_value_).
#[export] Instance UninterpretedOption_codec : Codec UninterpretedOption :=
  { encode := encode_UninterpretedOption; decode := decode_UninterpretedOption }.
#[export] Instance UninterpretedOption_size : SizeOf UninterpretedOption := size_of_UninterpretedOption.

Definition encode_FileOptions (x : FileOptions) : Writer :=
  write_opt_str (fo_java_package x) ++
  write_opt_str (fo_java_outer_classname x) ++
  write_opt_bool (fo_java_multiple_files x) ++
  write_opt_bool (fo_java_generate_equals_and_hash x) ++
  write_opt_bool (fo_java_string_check_utf8 x) ++
  write_opt (fo_optimize_for x) ++
  write_opt_str (fo_go_package x) ++
  write_opt_bool (fo_cc_generic_services x) ++
  write_opt_bool (fo_java_generic_services x) ++
  write_opt_bool (fo_py_generic_services x) ++
  write_opt_bool (fo_deprecated x) ++
  write_opt_bool (fo_cc_enable_arenas x) ++
  write_opt_str (fo_objc_class_prefix x) ++
  write_opt_str (fo_csharp_namespace x) ++
  write_opt_str (fo_swift_prefix x) ++
  write_opt_str (fo_php_class_prefix x) ++
  write_opt_str (fo_php_namespace x) ++
  write_opt_str (fo_php_metadata_namespace x) ++
  write_opt_str (fo_ruby_package x) ++
  write_vec (fo_uninterpreted_option x).
Definition decode_FileOptions : Decoder FileOptions :=
  java_package_ ← read_opt_str;
  java_outer_classname_ ← read_opt_str;
  java_multiple_files_ ← read_opt_bool;
  java_generate_equals_and_hash_ ← read_opt_bool;
  java_string_check_utf8_ ← read_opt_bool;
  optimize_for_ ← read_opt;
  go_package_ ← read_opt_str;
  cc_generic_services_ ← read_opt_bool;
  java_generic_services_ ← read_opt_bool;
  py_generic_services_ ← read_opt_bool;
  deprecated_ ← read_opt_bool;
  cc_enable_arenas_ ← read_opt_bool;
  objc_class_prefix_ ← read_opt_str;
  csharp_namespace_ ← read_opt_str;
  swift_prefix_ ← read_opt_str;
  php_class_prefix_ ← read_opt_str;
  php_namespace_ ← read_opt_str;
  php_metadata_namespace_ ← read_opt_str;
  ruby_package_ ← read_opt_str;
  uninterpreted_option_ ← read_vec;
  mret (mkFileOptions java_package_ java_outer_classname_ java_multiple_files_
        java_generate_equals_and_hash_ java_string_check_utf8_ optimize_for_ go_package_
        cc_generic_services_ java_generic_services_ py_generic_services_ deprecated_
        cc_enable_arenas_ objc_class_prefix_ csharp_namespace_ swift_prefix_
        php_class_prefix_ php_namespace_ php_metadata_namespace_ ruby_package_
        uninterpreted_option_).
#[export] Instance FileOptions_codec : Codec FileOptions :=
  { encode := encode_FileOptions; decode := decode_FileOptions }.

Definition encode_MessageOptions (x : MessageOptions) : Writer :=
  write_opt_bool (mo_message_set_wire_format x) ++
  write_opt_bool (mo_no_standard_descriptor_accessor x) ++
  write_opt_bool (mo_deprecated x) ++
  write_opt_bool (mo_map_entry x) ++
  write_vec (mo_uninterpreted_option x).
Definition decode_MessageOptions : Decoder MessageOptions :=
  message_set_wire_format_ ← read_opt_bool;
  no_standard_descriptor_accessor_ ← read_opt_bool;
  deprecated_ ← read_opt_bool;
  map_entry_ ← read_opt_bool;
  uninterpreted_option_ ← read_vec;
  mret (mkMessageOptions message_set_wire_format_ no_standard_descriptor_accessor_
        deprecated_ map_entry_ uninterpreted_option_).
#[export] Instance MessageOptions_codec : Codec MessageOptions :=
  { encode := encode_MessageOptions; decode := decode_MessageOptions }.

Definition encode_FieldOptions (x : FieldOptions) : Writer :=
  write_opt (fdo_ctype x) ++
  write_opt_bool (fdo_packed x) ++
  write_opt (fdo_jstype x) ++
  write_opt_bool (fdo_lazy x) ++
  write_opt_bool (fdo_deprecated x) ++
  write_opt_bool (fdo_weak x) ++
  write_vec (fdo_uninterpreted_option x).
Definition decode_FieldOptions : Decoder FieldOptions :=
  ctype_ ← read_opt;
  packed_ ← read_opt_bool;
  jstype_ ← read_opt;
  lazy_ ← read_opt_bool;
  deprecated_ ← read_opt_bool;
  weak_ ← read_opt_bool;
  uninterpreted_option_ ← read_vec;
  mret (mkFieldOptions ctype_ packed_ jstype_ lazy_ deprecated_ weak_
        uninterpreted_option_).
#[export] Instance FieldOptions_codec : Codec FieldOptions :=
  { encode := encode_FieldOptions; decode := decode_FieldOptions }.

Definition encode_OneofOptions (x : OneofOptions) : Writer :=
  write_vec (oo_uninterpreted_option x).
Definition decode_OneofOptions : Decoder OneofOptions :=
  uninterpreted_option_ ← read_vec;
  mret (mkOneofOptions uninterpreted_option_).
#[export] Instance OneofOptions_codec : Codec OneofOptions :=
  { encode := encode_OneofOptions; decode := decode_OneofOptions }.

Definition encode_EnumOptions (x : EnumOptions) : Writer :=
  write_opt_bool (eo_allow_alias x) ++
  write_opt_bool (eo_deprecated x) ++
  write_vec (eo_uninterpreted_option x).
Definition decode_EnumOptions : Decoder EnumOptions :=
  allow_alias_ ← read_opt_bool;
  deprecated_ ← read_opt_bool;
  uninterpreted_option_ ← read_vec;
  mret (mkEnumOptions allow_alias_ deprecated_ uninterpreted_option_).
#[export] Instance EnumOptions_codec : Codec EnumOptions :=
  { encode := encode_EnumOptions; decode := decode_EnumOptions }.

Definition encode_EnumValueOptions (x : EnumValueOptions) : Writer :=
  write_opt_bool (evo_deprecated x) ++
  write_vec (evo_uninterpreted_option x).
Definition decode_EnumValueOptions : Decoder EnumValueOptions :=
  deprecated_ ← read_opt_bool;
  uninterpreted_option_ ← read_vec;
  mret (mkEnumValueOptions deprecated_ uninterpreted_option_).
#[export] Instance EnumValueOptions_codec : Codec EnumValueOptions :=
  { encode := encode_EnumValueOptions; decode := decode_EnumValueOptions }.

Definition encode_ServiceOptions (x : ServiceOptions) : Writer :=
  write_opt_bool (so_deprecated x) ++
  write_vec (so_uninterpreted_option x).
Definition decode_ServiceOptions : Decoder ServiceOptions :=
  deprecated_ ← read_opt_bool;
  uninterpreted_option_ ← read_vec;
  mret (mkServiceOptions deprecated_ uninterpreted_option_).
#[export] Instance ServiceOptions_codec : Codec ServiceOptions :=
  { encode := encode_ServiceOptions; decode := decode_ServiceOptions }.

Definition encode_MethodOptions (x : MethodOptions) : Writer :=
  write_opt_bool (mdo_deprecated x) ++
  write_opt (mdo_idempotency_level x) ++
  write_vec (mdo_uninterpreted_option x).
Definition decode_MethodOptions : Decoder MethodOptions :=
  deprecated_ ← read_opt_bool;
  idempotency_level_ ← read_opt;
  uninterpreted_option_ ← read_vec;
  mret (mkMethodOptions deprecated_ idempotency_level_ uninterpreted_option_).
#[export] Instance MethodOptions_codec : Codec MethodOptions :=
  { encode := encode_MethodOptions; decode := decode_MethodOptions }.

Definition encode_ExtensionRangeOptions (x : ExtensionRangeOptions) : Writer :=
  write_vec (ero_uninterpreted_option x).
Definition decode_ExtensionRangeOptions : Decoder ExtensionRangeOptions :=
  uninterpreted_option_ ← read_vec;
  mret (mkExtensionRangeOptions uninterpreted_option_).
#[export] Instance ExtensionRangeOptions_codec : Codec ExtensionRangeOptions :=
  { encode := encode_ExtensionRangeOptions; decode := decode_ExtensionRangeOptions }.

Definition encode_ExtensionRange (x : ExtensionRange) : Writer :=
  write_opt_i32 (er_start x) ++
  write_opt_i32 (er_end x) ++
  write_opt (er_options x).
Definition decode_ExtensionRange : Decoder ExtensionRange :=
  start_ ← read_opt_i32;
  end_ ← read_opt_i32;
  options_ ← read_opt;
  mret (mkExtensionRange start_ end_ options_).
#[export] Instance ExtensionRange_codec : Codec ExtensionRange :=
  { encode := encode_ExtensionRange; decode := decode_ExtensionRange }.
#[export] Instance ExtensionRange_size : SizeOf ExtensionRange := size_of_ExtensionRange.

Definition encode_ReservedRange (x : ReservedRange) : Writer :=
  write_opt_i32 (rr_start x) ++
  write_opt_i32 (rr_end x).
Definition decode_ReservedRange : Decoder ReservedRange :=
  start_ ← read_opt_i32;
  end_ ← read_opt_i32;
  mret (mkReservedRange start_ end_).
#[export] Instance ReservedRange_codec : Codec ReservedRange :=
  { encode := encode_ReservedRange; decode := decode_ReservedRange }.
#[export] Instance ReservedRange_size : SizeOf ReservedRange := size_of_ReservedRange.

Definition encode_EnumReservedRange (x : EnumReservedRange) : Writer :=
  write_opt_i32 (err_start x) ++
  write_opt_i32 (err_end x).
Definition decode_EnumReservedRange : Decoder EnumReservedRange :=
  start_ ← read_opt_i32;
  end_ ← read_opt_i32;
  mret (mkEnumReservedRange start_ end_).
#[export] Instance EnumReservedRange_codec : Codec EnumReservedRange :=
  { encode := encode_EnumReservedRange; decode := decode_EnumReservedRange }.
#[export] Instance EnumReservedRange_size : SizeOf EnumReservedRange := size_of_EnumReservedRange.

Definition encode_OneofDescriptorProto (x : OneofDescriptorProto) : Writer :=
  write_opt_str (od_name x) ++
  write_opt (od_options x).
Definition decode_OneofDescriptorProto : Decoder OneofDescriptorProto :=
  name_ ← read_opt_str;
  options_ ← read_opt;
  mret (mkOneofDescriptorProto name_ options_).
#[export] Instance OneofDescriptorProto_codec : Codec OneofDescriptorProto :=
  { encode := encode_OneofDescriptorProto; decode := decode_OneofDescriptorProto }.
#[export] Instance OneofDescriptorProto_size : SizeOf OneofDescriptorProto := size_of_OneofDescriptorProto.

Definition encode_FieldDescriptorProto (x : FieldDescriptorProto) : Writer :=
  write_opt_str (fd_name x) ++
  write_opt_i32 (fd_number x) ++
  write_opt (fd_label x) ++
  write_opt (fd_type x) ++
  write_opt_str (fd_type_name x) ++
  write_opt_str (fd_extendee x) ++
  write_opt_str (fd_default_value x) ++
  write_opt_i32 (fd_oneof_index x) ++
  write_opt_str (fd_json_name x) ++
  write_opt (fd_options x) ++
  write_opt_bool (fd_proto3_optional x).
Definition decode_FieldDescriptorProto : Decoder FieldDescriptorProto :=
  name_ ← read_opt_str;
  number_ ← read_opt_i32;
  label_ ← read_opt;
  type_ ← read_opt;
  type_name_ ← read_opt_str;
  extendee_ ← read_opt_str;
  default_value_ ← read_opt_str;
  oneof_index_ ← read_opt_i32;
  json_name_ ← read_opt_str;
  options_ ← read_opt;
  proto3_optional_ ← read_opt_bool;
  mret (mkFieldDescriptorProto name_ number_ label_ type_ type_name_ extendee_
        default_value_ oneof_index_ json_name_ options_ proto3_optional_ None).
#[export] Instance FieldDescriptorProto_codec : Codec FieldDescriptorProto :=
  { encode := encode_FieldDescriptorProto; decode := decode_FieldDescriptorProto }.
#[export] Instance FieldDescriptorProto_size : SizeOf FieldDescriptorProto := size_of_FieldDescriptorProto.

Definition encode_EnumValueDescriptorProto (x : EnumValueDescriptorProto) : Writer :=
  write_opt_str (ev_name x) ++
  write_opt_i32 (ev_number x) ++
  write_opt (ev_options x).
Definition decode_EnumValueDescriptorProto : Decoder EnumValueDescriptorProto :=
  name_ ← read_opt_str;
  number_ ← read_opt_i32;
  options_ ← read_opt;
  mret (mkEnumValueDescriptorProto name_ number_ options_ None).
#[export] Instance EnumValueDescriptorProto_codec : Codec EnumValueDescriptorProto :=
  { encode := encode_EnumValueDescriptorProto; decode := decode_EnumValueDescriptorProto }.
#[export] Instance EnumValueDescriptorProto_size : SizeOf EnumValueDescriptorProto := size_of_EnumValueDescriptorProto.

Definition encode_EnumDescriptorProto (x : EnumDescriptorProto) : Writer :=
  write_opt_str (ed_name x) ++
  write_vec (ed_value x) ++
  write_opt (ed_options x) ++
  write_vec (ed_reserved_range x) ++
  write_str_vec (ed_reserved_name x) ++
  write_opt (ed_visibility x).
Definition decode_EnumDescriptorProto : Decoder EnumDescriptorProto :=
  name_ ← read_opt_str;
  value_ ← read_vec;
  options_ ← read_opt;
  reserved_range_ ← read_vec;
  reserved_name_ ← read_str_vec;
  visibility_ ← read_opt;
  mret (mkEnumDescriptorProto name_ value_ options_ reserved_range_ reserved_name_
        visibility_ None).
#[export] Instance EnumDescriptorProto_codec : Codec EnumDescriptorProto :=
  { encode := encode_EnumDescriptorProto; decode := decode_EnumDescriptorProto }.
#[export] Instance EnumDescriptorProto_size : SizeOf EnumDescriptorProto := size_of_EnumDescriptorProto.

Definition encode_MethodDescriptorProto (x : MethodDescriptorProto) : Writer :=
  write_opt_str (md_name x) ++
  write_opt_str (md_input_type x) ++
  write_opt_str (md_output_type x) ++
  write_opt (md_options x) ++
  write_opt_bool (md_client_streaming x) ++
  write_opt_bool (md_server_streaming x).
Definition decode_MethodDescriptorProto : Decoder MethodDescriptorProto :=
  name_ ← read_opt_str;
  input_type_ ← read_opt_str;
  output_type_ ← read_opt_str;
  options_ ← read_opt;
  client_streaming_ ← read_opt_bool;
  server_streaming_ ← read_opt_bool;
  mret (mkMethodDescriptorProto name_ input_type_ output_type_ options_ client_streaming_
        server_streaming_).
#[export] Instance MethodDescriptorProto_codec : Codec MethodDescriptorProto :=
  { encode := encode_MethodDescriptorProto; decode := decode_MethodDescriptorProto }.
#[export] Instance MethodDescriptorProto_size : SizeOf MethodDescriptorProto := size_of_MethodDescriptorProto.

Definition encode_ServiceDescriptorProto (x : ServiceDescriptorProto) : Writer :=
  write_opt_str (sd_name x) ++
  write_vec (sd_method x) ++
  write_opt (sd_options x).
Definition decode_ServiceDescriptorProto : Decoder ServiceDescriptorProto :=
  name_ ← read_opt_str;
  method_ ← read_vec;
  options_ ← read_opt;
  mret (mkServiceDescriptorProto name_ method_ options_).
#[export] Instance ServiceDescriptorProto_codec : Codec ServiceDescriptorProto :=
  { encode := encode_ServiceDescriptorProto; decode := decode_ServiceDescriptorProto }.

Definition encode_SourceLocation (x : SourceLocation) : Writer :=
  write_i32_vec (sl_path x) ++
  write_i32_vec (sl_span x) ++
  write_opt_str (sl_leading_comments x) ++
  write_opt_str (sl_trailing_comments x) ++
  write_str_vec (sl_leading_detached_comments x).
Definition decode_SourceLocation : Decoder SourceLocation :=
  path_ ← read_i32_vec;
  span_ ← read_i32_vec;
  leading_comments_ ← read_opt_str;
  trailing_comments_ ← read_opt_str;
  leading_detached_comments_ ← read_str_vec;
  mret (mkSourceLocation path_ span_ leading_comments_ trailing_comments_
        leading_detached_comments_).
#[export] Instance SourceLocation_codec : Codec SourceLocation :=
  { encode := encode_SourceLocation; decode := decode_SourceLocation }.
#[export] Instance SourceLocation_size : SizeOf SourceLocation := size_of_SourceLocation.

Definition encode_SourceCodeInfo (x : SourceCodeInfo) : Writer :=
  write_vec (sci_location x).
Definition decode_SourceCodeInfo : Decoder SourceCodeInfo :=
  location_ ← read_vec;
  mret (mkSourceCodeInfo location_).
#[export] Instance SourceCodeInfo_codec : Codec SourceCodeInfo :=
  { encode := encode_SourceCodeInfo; decode := decode_SourceCodeInfo }.

(** ** Messages, which nest

    [encode] recurses through [nested_type]; [decode] recurses on the input,
    with the number of unread bytes as fuel: every level reads at least its
    presence byte for the name first (see [decode_DescriptorProto_steady]). *)

Fixpoint encode_DescriptorProto (x : DescriptorProto) : Writer :=
  write_opt_str (dp_name x) ++
  write_vec (dp_field x) ++
  write_vec (dp_extension x) ++
  write_seq encode_DescriptorProto (dp_nested_type x) ++
  write_vec (dp_enum_type x) ++
  write_vec (dp_extension_range x) ++
  write_vec (dp_oneof_decl x) ++
  write_opt (dp_options x) ++
  write_vec (dp_reserved_range x) ++
  write_str_vec (dp_reserved_name x) ++
  write_opt (dp_visibility x).

Fixpoint decode_DescriptorProto_fuel (fuel : nat) : Decoder DescriptorProto :=
  match fuel with
  | O => stuck
  | S fuel' =>
    name_ ← read_opt_str;
    field_ ← read_vec;
    extension_ ← read_vec;
    nested_type_ ← read_seq size_of_DescriptorProto (decode_DescriptorProto_fuel fuel');
    enum_type_ ← read_vec;
    extension_range_ ← read_vec;
    oneof_decl_ ← read_vec;
    options_ ← read_opt;
    reserved_range_ ← read_vec;
    reserved_name_ ← read_str_vec;
    visibility_ ← read_opt;
    mret (mkDescriptorProto name_ field_ extension_ nested_type_ enum_type_ extension_range_
            oneof_decl_ options_ reserved_range_ reserved_name_ visibility_ None)
  end.

Definition decode_DescriptorProto : Decoder DescriptorProto := λ r,
  decode_DescriptorProto_fuel (S (remaining r)) r.

#[export] Instance DescriptorProto_codec : Codec DescriptorProto :=
  { encode := encode_DescriptorProto; decode := decode_DescriptorProto }.

End DescriptorCodec.
