(* ===== verification/DescriptorCodecLaws.v ===== *)
(** * DescriptorCodecLaws: decoding inverts encoding

    The round-trip and progress laws of every instance of [Codec], proved once
    per type from the laws of its fields. *)
From S2P Require Import Prelude RustStd ProtoSchema Codec DescriptorCodec.

Open Scope Z_scope.

(** ** Laws as classes *)

(** What the Rust type of a value guarantees. *)
Class Wf (T : Type) := wf : T → Prop.

(** The value without the parser-only [source_span]s. *)
Class Erase (T : Type) := erase : T → T.

Class CodecLaw (T : Type) `{Codec T, Wf T} : Prop := {
  decode_encode x : wf x → decodes decode (encode x) x;
  decode_steady n : steady n decode;
}.

Class SpanLaw (T : Type) `{Codec T, Wf T, Erase T} : Prop := {
  decode_encode_erase x : wf x → decodes decode (encode x) (erase x);
  span_steady n : steady n decode;
}.

Definition wf_vec {T} `{SizeOf T, Wf T} (l : list T) : Prop :=
  vec_fits (size_of (T := T)) l ∧ Forall wf l.
Definition wf_str_vec (l : list string) : Prop :=
  vec_fits size_of_String l ∧ Forall valid_str l.
Definition wf_i32_vec (l : list Z) : Prop :=
  vec_fits size_of_i32 l ∧ Forall in_i32 l.

(** ** Fields *)

Lemma opt_all_impl {A} (P Q : A → Prop) o : (∀ a, P a → Q a) → opt_all P o → opt_all Q o.
Proof. destruct o; simpl; auto. Qed.

Lemma decodes_opt_str o : opt_all valid_str o → decodes read_opt_str (write_opt_str o) o.
Proof. intros. eapply decodes_opt_id, opt_all_impl; [|done]. auto with codec. Qed.

Lemma decodes_opt_bool o : decodes read_opt_bool (write_opt_bool o) o.
Proof. apply decodes_opt_id. destruct o; simpl; auto with codec. Qed.

Lemma decodes_opt_i32 o : opt_all in_i32 o → decodes read_opt_i32 (write_opt_i32 o) o.
Proof. intros. eapply decodes_opt_id, opt_all_impl; [|done]. auto with codec. Qed.

Lemma decodes_opt_u64 o : opt_all in_u64 o → decodes read_opt_u64 (write_opt_u64 o) o.
Proof. intros. eapply decodes_opt_id, opt_all_impl; [|done]. auto with codec. Qed.

Lemma decodes_opt_i64 o : opt_all in_i64 o → decodes read_opt_i64 (write_opt_i64 o) o.
Proof. intros. eapply decodes_opt_id, opt_all_impl; [|done]. auto with codec. Qed.

Lemma decodes_opt_bytes o : decodes read_opt_bytes (write_opt_bytes o) o.
Proof. apply decodes_opt_id. destruct o; simpl; auto with codec. Qed.

Lemma decodes_str_vec l : wf_str_vec l → decodes read_str_vec (write_str_vec l) l.
Proof.
  intros [Hf Hl]. apply decodes_seq_id; [done|].
  eapply Forall_impl; [done|]. auto with codec.
Qed.

Lemma decodes_i32_vec l : wf_i32_vec l → decodes read_i32_vec (write_i32_vec l) l.
Proof.
  intros [Hf Hl]. apply decodes_seq_id; [done|].
  eapply Forall_impl; [done|]. auto with codec.
Qed.

Lemma decodes_codec_opt {T} `{CodecLaw T} (o : option T) :
  opt_all wf o → decodes read_opt (write_opt o) o.
Proof. intros. eapply decodes_opt_id, opt_all_impl; [|done]. apply decode_encode. Qed.

Lemma decodes_codec_vec {T} `{CodecLaw T, SizeOf T} (l : list T) :
  wf_vec l → decodes read_vec (write_vec l) l.
Proof.
  intros [Hf Hl]. apply decodes_seq_id; [done|].
  eapply Forall_impl; [done|]. apply decode_encode.
Qed.

Lemma decodes_span_vec {T} `{SpanLaw T, SizeOf T} (l : list T) :
  wf_vec l → decodes read_vec (write_vec l) (erase <$> l).
Proof.
  intros [Hf Hl]. apply (decodes_seq _ _ _ erase); [done|].
  eapply Forall_impl; [done|]. apply decode_encode_erase.
Qed.

#[export] Hint Resolve decode_steady span_steady : steady.

Lemma steady_opt_str n : steady n read_opt_str.
Proof. apply steady_opt. auto with steady. Qed.
Lemma steady_opt_bool n : steady n read_opt_bool.
Proof. apply steady_opt. auto with steady. Qed.
Lemma steady_opt_i32 n : steady n read_opt_i32.
Proof. apply steady_opt. auto with steady. Qed.
Lemma steady_opt_u64 n : steady n read_opt_u64.
Proof. apply steady_opt. auto with steady. Qed.
Lemma steady_opt_i64 n : steady n read_opt_i64.
Proof. apply steady_opt. auto with steady. Qed.
Lemma steady_opt_bytes n : steady n read_opt_bytes.
Proof. apply steady_opt. auto with steady. Qed.
Lemma steady_str_vec n : steady n read_str_vec.
Proof. apply steady_seq. auto with steady. Qed.
Lemma steady_i32_vec n : steady n read_i32_vec.
Proof. apply steady_seq. auto with steady. Qed.
Lemma steady_codec_opt {T} `{CodecLaw T} n : steady n (read_opt (T := T)).
Proof. apply steady_opt, decode_steady. Qed.
Lemma steady_codec_vec {T} `{CodecLaw T, SizeOf T} n : steady n (read_vec (T := T)).
Proof. apply steady_seq, decode_steady. Qed.
Lemma steady_span_vec {T} `{SpanLaw T, SizeOf T} n : steady n (read_vec (T := T)).
Proof. apply steady_seq, span_steady. Qed.

#[export] Hint Resolve steady_opt_str steady_opt_bool steady_opt_i32 steady_opt_u64
  steady_opt_i64 steady_opt_bytes steady_str_vec steady_i32_vec : steady.
#[export] Hint Extern 3 (steady _ read_opt) => apply steady_codec_opt : steady.
#[export] Hint Extern 3 (steady _ read_vec) =>
  first [apply steady_codec_vec | apply steady_span_vec] : steady.

(** Solve the round trip of a record from the laws of its fields: unfold the
    instance, then take one field after the other. *)
Lemma decodes_eq {A} (d : Decoder A) bs x y : decodes d bs y → y = x → decodes d bs x.
Proof. by intros ? <-. Qed.

Ltac codec_field :=
  lazymatch goal with
  | |- decodes read_str _ _ => apply decodes_str
  | |- decodes read_bool _ _ => apply decodes_bool
  | |- decodes read_opt_str _ _ => apply decodes_opt_str
  | |- decodes read_opt_bool _ _ => apply decodes_opt_bool
  | |- decodes read_opt_i32 _ _ => apply decodes_opt_i32
  | |- decodes read_opt_u64 _ _ => apply decodes_opt_u64
  | |- decodes read_opt_i64 _ _ => apply decodes_opt_i64
  | |- decodes read_opt_bytes _ _ => apply decodes_opt_bytes
  | |- decodes read_str_vec _ _ => apply decodes_str_vec
  | |- decodes read_i32_vec _ _ => apply decodes_i32_vec
  | |- decodes read_opt _ _ => apply decodes_codec_opt
  | |- decodes read_vec _ _ => first [apply decodes_codec_vec | apply decodes_span_vec]
  end; assumption.

Ltac codec_fields :=
  repeat match goal with H : _ ∧ _ |- _ => destruct H end;
  repeat first
    [ eapply decodes_last; codec_field
    | eapply decodes_bind; [codec_field|] ].

Tactic Notation "codec_law" reference(wf_def) reference(codec_def) reference(enc)
  reference(dec) :=
  let x := fresh "x" in let Hwf := fresh "Hwf" in
  intros x Hwf; unfold wf, wf_def in Hwf; unfold encode, decode, codec_def, enc, dec;
  eapply decodes_eq; [codec_fields|by destruct x].

Section Laws.
Context {PS : ProtocSchema} {PL : ProtocSchemaLaws PS}.

(** ** Enumerations *)

(** The shape of an enumeration's codec: the discriminant is a varint. *)
Lemma decodes_enum {T} (n : Z) (k : Z → Decoder T) (x : T) :
  0 <= n < 2 ^ 31 → k n = mret x →
  decodes (read_uvarint ≫= k) (write_uvarint (wrap_u64 n)) x.
Proof.
  intros Hn Hk. rewrite wrap_u64_id by (unfold in_u64; lia).
  rewrite <- (app_nil_r (write_uvarint n)).
  eapply decodes_bind; [apply decodes_uvarint; unfold in_u64; lia|].
  rewrite Hk. apply decodes_ret.
Qed.

Lemma steady_enum {T} n (k : Z → Decoder T) :
  (∀ v, steady n (k v)) → steady n (read_uvarint ≫= k).
Proof. intros. apply steady_bind; auto with steady. Qed.

#[export] Instance Visibility_wf : Wf Visibility := λ _, True.
#[export] Instance Visibility_law : CodecLaw Visibility.
Proof.
  constructor.
  - intros x _. apply decodes_enum; rewrite Visibility_discriminant; destruct x; done || lia.
  - intros n. apply steady_enum. intros v. repeat case_match; auto with steady.
Qed.

#[export] Instance OptimizeMode_wf : Wf OptimizeMode := λ _, True.
#[export] Instance OptimizeMode_law : CodecLaw OptimizeMode.
Proof.
  constructor.
  - intros x _. apply decodes_enum; rewrite OptimizeMode_discriminant; destruct x; done || lia.
  - intros n. apply steady_enum. intros v. repeat case_match; auto with steady.
Qed.

#[export] Instance FieldCType_wf : Wf FieldCType := λ _, True.
#[export] Instance FieldCType_law : CodecLaw FieldCType.
Proof.
  constructor.
  - intros x _. apply decodes_enum; rewrite FieldCType_discriminant; destruct x; done || lia.
  - intros n. apply steady_enum. intros v. repeat case_match; auto with steady.
Qed.

#[export] Instance FieldJsType_wf : Wf FieldJsType := λ _, True.
#[export] Instance FieldJsType_law : CodecLaw FieldJsType.
Proof.
  constructor.
  - intros x _. apply decodes_enum; rewrite FieldJsType_discriminant; destruct x; done || lia.
  - intros n. apply steady_enum. intros v. repeat case_match; auto with steady.
Qed.

#[export] Instance IdempotencyLevel_wf : Wf IdempotencyLevel := λ _, True.
#[export] Instance IdempotencyLevel_law : CodecLaw IdempotencyLevel.
Proof.
  constructor.
  - intros x _. apply decodes_enum; rewrite IdempotencyLevel_discriminant; destruct x; done || lia.
  - intros n. apply steady_enum. intros v. repeat case_match; auto with steady.
Qed.

#[export] Instance FieldType_wf : Wf FieldType := λ _, True.
#[export] Instance FieldType_law : CodecLaw FieldType.
Proof.
  constructor.
  - intros x _. pose proof (FieldType_as_range x).
    apply decodes_enum; [done|]. rewrite wrap_i32_id by (unfold in_i32; lia).
    by rewrite FieldType_from_as.
  - intros n. apply steady_enum. intros v. case_match; auto with steady.
Qed.

#[export] Instance FieldLabel_wf : Wf FieldLabel := λ _, True.
#[export] Instance FieldLabel_law : CodecLaw FieldLabel.
Proof.
  constructor.
  - intros x _. pose proof (FieldLabel_as_range x).
    apply decodes_enum; [done|]. rewrite wrap_i32_id by (unfold in_i32; lia).
    by rewrite FieldLabel_from_as.
  - intros n. apply steady_enum. intros v. case_match; auto with steady.
Qed.

(** ** Records *)

#[export] Instance NamePart_wf : Wf NamePart := λ x,
  valid_str (np_name_part x).
#[export] Instance NamePart_law : CodecLaw NamePart.
Proof.
  constructor.
  - codec_law NamePart_wf NamePart_codec encode_NamePart decode_NamePart.
  - intros n; steady_fields.
Qed.

#[export] Instance UninterpretedOption_wf : Wf UninterpretedOption := λ x,
  wf_vec (uo_name x) ∧
  opt_all valid_str (uo_identifier_value x) ∧
  opt_all in_u64 (uo_positive_int_value x) ∧
  opt_all in_i64 (uo_negative_int_value x) ∧
  opt_all valid_str (uo_double_value x) ∧
  opt_all valid_str (uo_aggregate_value x).
#[export] Instance UninterpretedOption_law : CodecLaw UninterpretedOption.
Proof.
  constructor.
  - codec_law UninterpretedOption_wf UninterpretedOption_codec encode_UninterpretedOption decode_UninterpretedOption.
  - intros n; steady_fields.
Qed.

#[export] Instance FileOptions_wf : Wf FileOptions := λ x,
  opt_all valid_str (fo_java_package x) ∧
  opt_all valid_str (fo_java_outer_classname x) ∧
  opt_all wf (fo_optimize_for x) ∧
  opt_all valid_str (fo_go_package x) ∧
  opt_all valid_str (fo_objc_class_prefix x) ∧
  opt_all valid_str (fo_csharp_namespace x) ∧
  opt_all valid_str (fo_swift_prefix x) ∧
  opt_all valid_str (fo_php_class_prefix x) ∧
  opt_all valid_str (fo_php_namespace x) ∧
  opt_all valid_str (fo_php_metadata_namespace x) ∧
  opt_all valid_str (fo_ruby_package x) ∧
  wf_vec (fo_uninterpreted_option x).
#[export] Instance FileOptions_law : CodecLaw FileOptions.
Proof.
  constructor.
  - codec_law FileOptions_wf FileOptions_codec encode_FileOptions decode_FileOptions.
  - intros n; steady_fields.
Qed.

#[export] Instance MessageOptions_wf : Wf MessageOptions := λ x,
  wf_vec (mo_uninterpreted_option x).
#[export] Instance MessageOptions_law : CodecLaw MessageOptions.
Proof.
  constructor.
  - codec_law MessageOptions_wf MessageOptions_codec encode_MessageOptions decode_MessageOptions.
  - intros n; steady_fields.
Qed.

#[export] Instance FieldOptions_wf : Wf FieldOptions := λ x,
  opt_all wf (fdo_ctype x) ∧
  opt_all wf (fdo_jstype x) ∧
  wf_vec (fdo_uninterpreted_option x).
#[export] Instance FieldOptions_law : CodecLaw FieldOptions.
Proof.
  constructor.
  - codec_law FieldOptions_wf FieldOptions_codec encode_FieldOptions decode_FieldOptions.
  - intros n; steady_fields.
Qed.

#[export] Instance OneofOptions_wf : Wf OneofOptions := λ x,
  wf_vec (oo_uninterpreted_option x).
#[export] Instance OneofOptions_law : CodecLaw OneofOptions.
Proof.
  constructor.
  - codec_law OneofOptions_wf OneofOptions_codec encode_OneofOptions decode_OneofOptions.
  - intros n; steady_fields.
Qed.

#[export] Instance EnumOptions_wf : Wf EnumOptions := λ x,
  wf_vec (eo_uninterpreted_option x).
#[export] Instance EnumOptions_law : CodecLaw EnumOptions.
Proof.
  constructor.
  - codec_law EnumOptions_wf EnumOptions_codec encode_EnumOptions decode_EnumOptions.
  - intros n; steady_fields.
Qed.

#[export] Instance EnumValueOptions_wf : Wf EnumValueOptions := λ x,
  wf_vec (evo_uninterpreted_option x).
#[export] Instance EnumValueOptions_law : CodecLaw EnumValueOptions.
Proof.
  constructor.
  - codec_law EnumValueOptions_wf EnumValueOptions_codec encode_EnumValueOptions decode_EnumValueOptions.
  - intros n; steady_fields.
Qed.

#[export] Instance ServiceOptions_wf : Wf ServiceOptions := λ x,
  wf_vec (so_uninterpreted_option x).
#[export] Instance ServiceOptions_law : CodecLaw ServiceOptions.
Proof.
  constructor.
  - codec_law ServiceOptions_wf ServiceOptions_codec encode_ServiceOptions decode_ServiceOptions.
  - intros n; steady_fields.
Qed.

#[export] Instance MethodOptions_wf : Wf MethodOptions := λ x,
  opt_all wf (mdo_idempotency_level x) ∧
  wf_vec (mdo_uninterpreted_option x).
#[export] Instance MethodOptions_law : CodecLaw MethodOptions.
Proof.
  constructor.
  - codec_law MethodOptions_wf MethodOptions_codec encode_MethodOptions decode_MethodOptions.
  - intros n; steady_fields.
Qed.

#[export] Instance ExtensionRangeOptions_wf : Wf ExtensionRangeOptions := λ x,
  wf_vec (ero_uninterpreted_option x).
#[export] Instance ExtensionRangeOptions_law : CodecLaw ExtensionRangeOptions.
Proof.
  constructor.
  - codec_law ExtensionRangeOptions_wf ExtensionRangeOptions_codec encode_ExtensionRangeOptions decode_ExtensionRangeOptions.
  - intros n; steady_fields.
Qed.

#[export] Instance ExtensionRange_wf : Wf ExtensionRange := λ x,
  opt_all in_i32 (er_start x) ∧
  opt_all in_i32 (er_end x) ∧
  opt_all wf (er_options x).
#[export] Instance ExtensionRange_law : CodecLaw ExtensionRange.
Proof.
  constructor.
  - codec_law ExtensionRange_wf ExtensionRange_codec encode_ExtensionRange decode_ExtensionRange.
  - intros n; steady_fields.
Qed.

#[export] Instance ReservedRange_wf : Wf ReservedRange := λ x,
  opt_all in_i32 (rr_start x) ∧
  opt_all in_i32 (rr_end x).
#[export] Instance ReservedRange_law : CodecLaw ReservedRange.
Proof.
  constructor.
  - codec_law ReservedRange_wf ReservedRange_codec encode_ReservedRange decode_ReservedRange.
  - intros n; steady_fields.
Qed.

#[export] Instance EnumReservedRange_wf : Wf EnumReservedRange := λ x,
  opt_all in_i32 (err_start x) ∧
  opt_all in_i32 (err_end x).
#[export] Instance EnumReservedRange_law : CodecLaw EnumReservedRange.
Proof.
  constructor.
  - codec_law EnumReservedRange_wf EnumReservedRange_codec encode_EnumReservedRange decode_EnumReservedRange.
  - intros n; steady_fields.
Qed.

#[export] Instance OneofDescriptorProto_wf : Wf OneofDescriptorProto := λ x,
  opt_all valid_str (od_name x) ∧
  opt_all wf (od_options x).
#[export] Instance OneofDescriptorProto_law : CodecLaw OneofDescriptorProto.
Proof.
  constructor.
  - codec_law OneofDescriptorProto_wf OneofDescriptorProto_codec encode_OneofDescriptorProto decode_OneofDescriptorProto.
  - intros n; steady_fields.
Qed.

#[export] Instance FieldDescriptorProto_wf : Wf FieldDescriptorProto := λ x,
  opt_all valid_str (fd_name x) ∧
  opt_all in_i32 (fd_number x) ∧
  opt_all wf (fd_label x) ∧
  opt_all wf (fd_type x) ∧
  opt_all valid_str (fd_type_name x) ∧
  opt_all valid_str (fd_extendee x) ∧
  opt_all valid_str (fd_default_value x) ∧
  opt_all in_i32 (fd_oneof_index x) ∧
  opt_all valid_str (fd_json_name x) ∧
  opt_all wf (fd_options x).
#[export] Instance FieldDescriptorProto_erase : Erase FieldDescriptorProto := λ x,
  mkFieldDescriptorProto (fd_name x) (fd_number x) (fd_label x) (fd_type x) (fd_type_name x)
    (fd_extendee x) (fd_default_value x) (fd_oneof_index x) (fd_json_name x) (fd_options x)
    (fd_proto3_optional x) None.
#[export] Instance FieldDescriptorProto_span_law : SpanLaw FieldDescriptorProto.
Proof.
  constructor.
  - codec_law FieldDescriptorProto_wf FieldDescriptorProto_codec encode_FieldDescriptorProto decode_FieldDescriptorProto.
  - intros n; steady_fields.
Qed.

#[export] Instance EnumValueDescriptorProto_wf : Wf EnumValueDescriptorProto := λ x,
  opt_all valid_str (ev_name x) ∧
  opt_all in_i32 (ev_number x) ∧
  opt_all wf (ev_options x).
#[export] Instance EnumValueDescriptorProto_erase : Erase EnumValueDescriptorProto := λ x,
  mkEnumValueDescriptorProto (ev_name x) (ev_number x) (ev_options x) None.
#[export] Instance EnumValueDescriptorProto_span_law : SpanLaw EnumValueDescriptorProto.
Proof.
  constructor.
  - codec_law EnumValueDescriptorProto_wf EnumValueDescriptorProto_codec encode_EnumValueDescriptorProto decode_EnumValueDescriptorProto.
  - intros n; steady_fields.
Qed.

#[export] Instance EnumDescriptorProto_wf : Wf EnumDescriptorProto := λ x,
  opt_all valid_str (ed_name x) ∧
  wf_vec (ed_value x) ∧
  opt_all wf (ed_options x) ∧
  wf_vec (ed_reserved_range x) ∧
  wf_str_vec (ed_reserved_name x) ∧
  opt_all wf (ed_visibility x).
#[export] Instance EnumDescriptorProto_erase : Erase EnumDescriptorProto := λ x,
  mkEnumDescriptorProto (ed_name x) (erase <$> ed_value x) (ed_options x) (ed_reserved_range
    x) (ed_reserved_name x) (ed_visibility x) None.
#[export] Instance EnumDescriptorProto_span_law : SpanLaw EnumDescriptorProto.
Proof.
  constructor.
  - codec_law EnumDescriptorProto_wf EnumDescriptorProto_codec encode_EnumDescriptorProto decode_EnumDescriptorProto.
  - intros n; steady_fields.
Qed.

#[export] Instance MethodDescriptorProto_wf : Wf MethodDescriptorProto := λ x,
  opt_all valid_str (md_name x) ∧
  opt_all valid_str (md_input_type x) ∧
  opt_all valid_str (md_output_type x) ∧
  opt_all wf (md_options x).
#[export] Instance MethodDescriptorProto_law : CodecLaw MethodDescriptorProto.
Proof.
  constructor.
  - codec_law MethodDescriptorProto_wf MethodDescriptorProto_codec encode_MethodDescriptorProto decode_MethodDescriptorProto.
  - intros n; steady_fields.
Qed.

#[export] Instance ServiceDescriptorProto_wf : Wf ServiceDescriptorProto := λ x,
  opt_all valid_str (sd_name x) ∧
  wf_vec (sd_method x) ∧
  opt_all wf (sd_options x).
#[export] Instance ServiceDescriptorProto_law : CodecLaw ServiceDescriptorProto.
Proof.
  constructor.
  - codec_law ServiceDescriptorProto_wf ServiceDescriptorProto_codec encode_ServiceDescriptorProto decode_ServiceDescriptorProto.
  - intros n; steady_fields.
Qed.

#[export] Instance SourceLocation_wf : Wf SourceLocation := λ x,
  wf_i32_vec (sl_path x) ∧
  wf_i32_vec (sl_span x) ∧
  opt_all valid_str (sl_leading_comments x) ∧
  opt_all valid_str (sl_trailing_comments x) ∧
  wf_str_vec (sl_leading_detached_comments x).
#[export] Instance SourceLocation_law : CodecLaw SourceLocation.
Proof.
  constructor.
  - codec_law SourceLocation_wf SourceLocation_codec encode_SourceLocation decode_SourceLocation.
  - intros n; steady_fields.
Qed.

#[export] Instance SourceCodeInfo_wf : Wf SourceCodeInfo := λ x,
  wf_vec (sci_location x).
#[export] Instance SourceCodeInfo_law : CodecLaw SourceCodeInfo.
Proof.
  constructor.
  - codec_law SourceCodeInfo_wf SourceCodeInfo_codec encode_SourceCodeInfo decode_SourceCodeInfo.
  - intros n; steady_fields.
Qed.

(** ** Messages *)

#[export] Instance DescriptorProto_size : SizeOf DescriptorProto := size_of_DescriptorProto.

Fixpoint wf_DescriptorProto (x : DescriptorProto) : Prop :=
  opt_all valid_str (dp_name x) ∧
  wf_vec (dp_field x) ∧
  wf_vec (dp_extension x) ∧
  (vec_fits size_of_DescriptorProto (dp_nested_type x) ∧
   foldr (λ n acc, wf_DescriptorProto n ∧ acc) True (dp_nested_type x)) ∧
  wf_vec (dp_enum_type x) ∧
  wf_vec (dp_extension_range x) ∧
  wf_vec (dp_oneof_decl x) ∧
  opt_all wf (dp_options x) ∧
  wf_vec (dp_reserved_range x) ∧
  wf_str_vec (dp_reserved_name x) ∧
  opt_all wf (dp_visibility x).

Fixpoint erase_DescriptorProto (x : DescriptorProto) : DescriptorProto :=
  mkDescriptorProto (dp_name x) (erase <$> dp_field x) (erase <$> dp_extension x)
    (map erase_DescriptorProto (dp_nested_type x)) (erase <$> dp_enum_type x)
    (dp_extension_range x) (dp_oneof_decl x) (dp_options x) (dp_reserved_range x)
    (dp_reserved_name x) (dp_visibility x) None.

#[export] Instance DescriptorProto_wf : Wf DescriptorProto := wf_DescriptorProto.
#[export] Instance DescriptorProto_erase : Erase DescriptorProto := erase_DescriptorProto.

Lemma foldr_and_Forall {A} (P : A → Prop) l : foldr (λ n acc, P n ∧ acc) True l ↔ Forall P l.
Proof. induction l as [|a l IH]; simpl; [done|]. by rewrite Forall_cons, IH. Qed.

Lemma length_concat_map_le {A} (f : A → list byte) (g : A → nat) l :
  (∀ a, a ∈ l → (g a <= length (f a))%nat) →
  (foldr (λ a acc, g a + acc) 0 l <= length (concat (map f l)))%nat.
Proof.
  induction l as [|a l IH]; intros Hl; simpl; [lia|]. rewrite length_app.
  pose proof (Hl a ltac:(left)). specialize (IH ltac:(intros; apply Hl; by right)). lia.
Qed.

(** The encoding of a message has at least one byte per nested message. *)
Lemma dp_size_le_encoding m : (dp_size m <= length (encode_DescriptorProto m))%nat.
Proof.
  induction m as [m IH] using DescriptorProto_nested_ind.
  apply (length_concat_map_le encode_DescriptorProto dp_size) in IH.
  destruct m as [name f e nested]. cbn [dp_size encode_DescriptorProto dp_name dp_field
    dp_extension dp_nested_type] in *.
  assert (∀ a b c d r : list byte, length a + length d <= length (a ++ b ++ c ++ d ++ r))%nat
    as Hlen by (intros; rewrite !length_app; lia).
  etrans; [|apply Hlen]. unfold write_seq. rewrite length_app.
  assert (1 <= length (write_opt_str name))%nat.
  2: { etrans; [exact (le_n_S _ _ IH)|].
       assert (∀ a b c, 1 <= a → S c <= a + (b + c))%nat as Hadd by lia. by apply Hadd. }
  unfold write_opt_str, write_opt_with, write_u8. destruct name; cbn [app length]; lia.
Qed.

Lemma decodes_DescriptorProto_fuel m : ∀ fuel,
  wf_DescriptorProto m → (dp_size m <= fuel)%nat →
  decodes (decode_DescriptorProto_fuel fuel) (encode_DescriptorProto m)
          (erase_DescriptorProto m).
Proof.
  induction m as [m IH] using DescriptorProto_nested_ind. intros fuel Hwf Hfuel.
  pose proof (λ n Hn, dp_size_nested m n Hn) as Hlt.
  destruct fuel as [|fuel]; [destruct m; simpl in Hfuel; lia|].
  assert (decodes (read_seq size_of_DescriptorProto (decode_DescriptorProto_fuel fuel))
            (write_seq encode_DescriptorProto (dp_nested_type m))
            (map erase_DescriptorProto (dp_nested_type m))) as Hnested.
  { destruct m as [? ? ? nested]; simpl in Hwf. cbn [dp_nested_type] in *.
    apply decodes_seq; [by apply Hwf|]. destruct Hwf as (_ & _ & _ & [_ Hn] & _).
    apply foldr_and_Forall in Hn. rewrite Forall_forall in Hn |- *. intros n Hin.
    apply IH; [done|by apply Hn|]. specialize (Hlt n Hin). lia. }
  destruct m as [name field ext nested enums ranges oneofs opts rr rn vis span].
  cbn [wf_DescriptorProto dp_name dp_field dp_extension dp_nested_type dp_enum_type
    dp_extension_range dp_oneof_decl dp_options dp_reserved_range dp_reserved_name
    dp_visibility] in Hwf.
  cbn [encode_DescriptorProto decode_DescriptorProto_fuel dp_name dp_field dp_extension
    dp_nested_type dp_enum_type dp_extension_range dp_oneof_decl dp_options dp_reserved_range
    dp_reserved_name dp_visibility] in *.
  eapply decodes_eq.
  { codec_fields. eapply decodes_bind; [exact Hnested|]. codec_fields. }
  reflexivity.
Qed.

Lemma decode_DescriptorProto_fuel_steady fuel : steady fuel (decode_DescriptorProto_fuel fuel).
Proof.
  induction fuel as [|fuel IH]; [intros r ? ?; lia|]. cbn [decode_DescriptorProto_fuel].
  apply steady_bind_advance; [auto with steady| |].
  { apply advances_opt. auto with steady. }
  intros name. steady_fields.
Qed.

#[export] Instance DescriptorProto_span_law : SpanLaw DescriptorProto.
Proof.
  constructor.
  - intros x Hwf pre rest Hlen. unfold decode, DescriptorProto_codec, decode_DescriptorProto.
    apply decodes_DescriptorProto_fuel; [done| |done].
    unfold remaining. cbn [r_buf r_pos]. rewrite !length_app.
    pose proof (dp_size_le_encoding x). unfold encode in *. simpl. lia.
  - intros n r Hr _. apply decode_DescriptorProto_fuel_steady; [done|lia].
Qed.

End Laws.
