(* ===== verification/ProtocModel.v ===== *)
(** * ProtocModel: a lawful instance of [ProtocSchema]

    The interface of [ProtoSchema] can be implemented: this instance numbers
    the field types and labels as [descriptor.proto] does and gives every
    struct a size. It is used to evaluate the development on concrete schemas;
    no theorem about the code depends on it. *)
From S2P Require Import Prelude RustStd ProtoSchema.

Open Scope Z_scope.

Inductive model_type :=
  | MtDouble | MtFloat | MtInt64 | MtUint64 | MtInt32 | MtFixed64 | MtFixed32 | MtBool | MtString
  | MtGroup | MtMessage | MtBytes | MtUint32 | MtEnum | MtSfixed32 | MtSfixed64 | MtSint32
  | MtSint64.

Inductive model_wire := MwVarint | MwFixed64 | MwLen | MwGroup | MwFixed32.

Inductive model_label := MlOptional | MlRequired | MlRepeated.

#[export] Instance model_type_eq_dec : EqDecision model_type.
Proof. solve_decision. Defined.
#[export] Instance model_wire_eq_dec : EqDecision model_wire.
Proof. solve_decision. Defined.
#[export] Instance model_label_eq_dec : EqDecision model_label.
Proof. solve_decision. Defined.

Definition model_types : list model_type :=
  [MtDouble; MtFloat; MtInt64; MtUint64; MtInt32; MtFixed64; MtFixed32; MtBool; MtString; MtGroup;
   MtMessage; MtBytes; MtUint32; MtEnum; MtSfixed32; MtSfixed64; MtSint32; MtSint64].

Definition model_number (t : model_type) : Z :=
  match t with
  | MtDouble => 1 | MtFloat => 2 | MtInt64 => 3 | MtUint64 => 4 | MtInt32 => 5 | MtFixed64 => 6
  | MtFixed32 => 7 | MtBool => 8 | MtString => 9 | MtGroup => 10 | MtMessage => 11 | MtBytes => 12
  | MtUint32 => 13 | MtEnum => 14 | MtSfixed32 => 15 | MtSfixed64 => 16 | MtSint32 => 17
  | MtSint64 => 18
  end.

Definition model_name (t : model_type) : string :=
  match t with
  | MtDouble => "double" | MtFloat => "float" | MtInt64 => "int64" | MtUint64 => "uint64"
  | MtInt32 => "int32" | MtFixed64 => "fixed64" | MtFixed32 => "fixed32" | MtBool => "bool"
  | MtString => "string" | MtGroup => "group" | MtMessage => "message" | MtBytes => "bytes"
  | MtUint32 => "uint32" | MtEnum => "enum" | MtSfixed32 => "sfixed32" | MtSfixed64 => "sfixed64"
  | MtSint32 => "sint32" | MtSint64 => "sint64"
  end.

Definition model_is_scalar (t : model_type) : bool :=
  match t with MtGroup | MtMessage | MtEnum => false | _ => true end.

Definition model_wire_type (t : model_type) : model_wire :=
  match t with
  | MtDouble | MtFixed64 | MtSfixed64 => MwFixed64
  | MtFloat | MtFixed32 | MtSfixed32 => MwFixed32
  | MtString | MtBytes | MtMessage => MwLen
  | MtGroup => MwGroup
  | _ => MwVarint
  end.

Definition model_label_number (l : model_label) : Z :=
  match l with MlOptional => 1 | MlRequired => 2 | MlRepeated => 3 end.

#[export] Instance protoc_model : ProtocSchema := {
  FieldType := model_type;
  FT_Message := MtMessage;
  FT_Enum := MtEnum;
  FT_Group := MtGroup;
  FT_String := MtString;
  FT_Bytes := MtBytes;
  FieldType_as_i32 := model_number;
  FieldType_from_int n := find (λ t, model_number t =? n) model_types;
  FieldType_from_proto_name s :=
    find (λ t, model_is_scalar t && bool_decide (model_name t = s)) model_types;
  proto_name := model_name;
  WireType := model_wire;
  LengthDelimited := MwLen;
  wire_type := model_wire_type;
  FieldLabel := model_label;
  FL_Optional := MlOptional;
  FL_Required := MlRequired;
  FL_Repeated := MlRepeated;
  FieldLabel_as_i32 := model_label_number;
  FieldLabel_from_int n :=
    find (λ l, model_label_number l =? n) [MlOptional; MlRequired; MlRepeated];
  FieldLabel_debug l :=
    match l with MlOptional => "Optional" | MlRequired => "Required" | MlRepeated => "Repeated" end;
  Visibility_as_i32 v := match v with Export_ => 0 | Local_ => 1 end;
  OptimizeMode_as_i32 m := match m with Speed => 1 | CodeSize => 2 | LiteRuntime => 3 end;
  FieldCType_as_i32 c := match c with CString => 0 | Cord => 1 | StringPiece => 2 end;
  FieldJsType_as_i32 j := match j with JsNormal => 0 | JsString => 1 | JsNumber => 2 end;
  IdempotencyLevel_as_i32 i :=
    match i with IdempotencyUnknown => 0 | NoSideEffects => 1 | Idempotent => 2 end;
  SourceSpan := unit;
  to_camel_case s := s;
  size_of_NamePart := 32;
  size_of_UninterpretedOption := 176;
  size_of_ExtensionRange := 40;
  size_of_ReservedRange := 16;
  size_of_EnumReservedRange := 16;
  size_of_OneofDescriptorProto := 48;
  size_of_FieldDescriptorProto := 224;
  size_of_EnumValueDescriptorProto := 72;
  size_of_EnumDescriptorProto := 144;
  size_of_MethodDescriptorProto := 112;
  size_of_DescriptorProto := 272;
  size_of_SourceLocation := 120;
}.

#[export] Instance protoc_model_laws : ProtocSchemaLaws protoc_model.
Proof. constructor; try (intros []; vm_compute; done); intros []; vm_compute; split; done. Qed.

(** A field of a concrete message. *)
Definition scalar_field (name : string) (number : Z) (t : model_type) : FieldDescriptorProto :=
  mkFieldDescriptorProto (Some name) (Some number) None (Some t) None None None None (Some name)
    None None None.

Definition message (name : string) (fields : list FieldDescriptorProto) : DescriptorProto :=
  mkDescriptorProto (Some name) fields [] [] [] [] [] None [] [] None None.

#[export] Instance model_fmt : RustFmt :=
  { fmt_utf8_error _ := "incomplete utf-8 byte sequence from index 0"; debug_str s := s }.

#[export] Instance model_hash_order : HashOrder :=
  { hash_iter K V _ _ m := map_to_list m; hash_iter_perm K V _ _ m := reflexivity _ }.

(** [syntax_enum] by the name of the syntax; a parser of empty files. *)
#[export] Instance model_parser : ProtocParser := {
  parse_collecting _ :=
    Ok (mkFileDescriptorProto None None [] [] [] [] [] [] [] [] None None (Some "proto3"%string) None, []);
  syntax_enum f :=
    match fl_syntax f with
    | None => Proto2
    | Some s => if bool_decide (s = "proto3"%string) then Proto3
                else if bool_decide (s = "proto2"%string) then Proto2 else SyntaxUnknown s
    end;
}.

(** One empty module per file. *)
#[export] Instance model_codegen : ProtocCodegen :=
  λ files, Ok (list_to_map ((λ f, (default ""%string (fl_name f), ""%string)) <$> files)).
