(* ===== verification/Blob.v ===== *)
(** * Blob: versioned declaration and metadata blobs

    [crates/schemahub-compiler-protobuf/src/blob.rs]: a blob is a version byte,
    for a declaration a kind byte, and the body written by the codec. The
    theorems show that decoding inverts encoding (declarations and file
    metadata), that blobs written before the [dependency_commit] field was
    appended still decode, that the decoder terminates on every input, and that
    a forged length makes it panic. *)
From S2P Require Import Prelude RustStd ProtoSchema Codec DescriptorCodec DescriptorCodecLaws ProtocModel.
From Stdlib Require Import Strings.Byte.

Open Scope Z_scope.

Definition BLOB_VERSION : Z := 1.

Definition TAG_MESSAGE : Z := 1.
Definition TAG_ENUM : Z := 2.
Definition TAG_SERVICE : Z := 3.

(** [Malformed] carries the codec error whose text the source formats. *)
Inductive BlobError :=
  | UnsupportedVersion (v : Z)
  | UnknownTag (t : Z)
  | Malformed (e : CodecError).

(** [Display] of a [BlobError]. *)
Definition fmt_blob_error `{RustFmt} (e : BlobError) : string :=
  match e with
  | UnsupportedVersion v => "unsupported blob_version: " +:+ fmt_Z v
  | UnknownTag t => "unknown decl tag: " +:+ fmt_Z t
  | Malformed m => "malformed blob: " +:+ fmt_codec_error m
  end.

Section Blob.
Context {PS : ProtocSchema}.

(** ** Declarations *)

Inductive DeclPayload :=
  | PMessage (m : DescriptorProto)
  | PEnum (e : EnumDescriptorProto)
  | PService (s : ServiceDescriptorProto).

Definition encode_decl (payload : DeclPayload) : list byte :=
  write_u8 BLOB_VERSION ++
  match payload with
  | PMessage m => write_u8 TAG_MESSAGE ++ encode m
  | PEnum e => write_u8 TAG_ENUM ++ encode e
  | PService s => write_u8 TAG_SERVICE ++ encode s
  end.

Definition decode_decl (bytes : list byte) : outcome BlobError DeclPayload :=
  '(version, r) ← map_err Malformed (read_u8 (reader_new bytes));
  if negb (version =? BLOB_VERSION) then Err (UnsupportedVersion version) else
  '(tag, r) ← map_err Malformed (read_u8 r);
  if tag =? TAG_MESSAGE then
    '(m, _) ← map_err Malformed (decode r); mret (PMessage m)
  else if tag =? TAG_ENUM then
    '(e, _) ← map_err Malformed (decode r); mret (PEnum e)
  else if tag =? TAG_SERVICE then
    '(s, _) ← map_err Malformed (decode r); mret (PService s)
  else Err (UnknownTag tag).

(** ** File metadata *)

Record MetaPayload := mkMetaPayload {
  mp_name : option string;
  mp_package : option string;
  mp_dependency : list string;
  mp_public_dependency : list Z;
  mp_weak_dependency : list Z;
  mp_option_dependency : list string;
  mp_options : option FileOptions;
  mp_syntax : option string;
  mp_edition : option string;
  mp_source_code_info : option SourceCodeInfo;
  mp_message_order : list string;
  mp_enum_order : list string;
  mp_service_order : list string;
  mp_extension : list FieldDescriptorProto;
  mp_dependency_commit : list string;
}.

Definition meta_default : MetaPayload :=
  mkMetaPayload None None [] [] [] [] None None None None [] [] [] [] [].

(** Everything between the version byte and the last field, which a later
    revision of the format appended. *)
Definition encode_meta_fields (meta : MetaPayload) : list byte :=
  write_opt_str (mp_name meta) ++
  write_opt_str (mp_package meta) ++
  write_str_vec (mp_dependency meta) ++
  write_i32_vec (mp_public_dependency meta) ++
  write_i32_vec (mp_weak_dependency meta) ++
  write_str_vec (mp_option_dependency meta) ++
  write_opt (mp_options meta) ++
  write_opt_str (mp_syntax meta) ++
  write_opt_str (mp_edition meta) ++
  write_opt (mp_source_code_info meta) ++
  write_str_vec (mp_message_order meta) ++
  write_str_vec (mp_enum_order meta) ++
  write_str_vec (mp_service_order meta) ++
  write_vec (mp_extension meta).

Definition encode_meta (meta : MetaPayload) : list byte :=
  write_u8 BLOB_VERSION ++ encode_meta_fields meta ++ write_str_vec (mp_dependency_commit meta).

(** A blob of the format before [dependency_commit] was appended. *)
Definition encode_meta_without_pins (meta : MetaPayload) : list byte :=
  write_u8 BLOB_VERSION ++ encode_meta_fields meta.

Definition at_end : Decoder bool := λ r, Ok (is_at_end r, r).

(** The struct literal of [decode_meta] up to its last field. *)
Definition decode_meta_fields : Decoder (list string → MetaPayload) :=
  name ← read_opt_str;
  package ← read_opt_str;
  dependency ← read_str_vec;
  public_dependency ← read_i32_vec;
  weak_dependency ← read_i32_vec;
  option_dependency ← read_str_vec;
  options ← read_opt;
  syntax ← read_opt_str;
  edition ← read_opt_str;
  source_code_info ← read_opt;
  message_order ← read_str_vec;
  enum_order ← read_str_vec;
  service_order ← read_str_vec;
  extension ← read_vec;
  mret (mkMetaPayload name package dependency public_dependency weak_dependency
          option_dependency options syntax edition source_code_info message_order enum_order
          service_order extension).

Definition decode_meta_body : Decoder MetaPayload :=
  meta ← decode_meta_fields;
  finished ← at_end;
  dependency_commit ← (if finished : bool then mret [] else read_str_vec);
  mret (meta dependency_commit).

Definition decode_meta (bytes : list byte) : outcome BlobError MetaPayload :=
  match bytes with
  | [] => Ok meta_default
  | _ =>
    '(version, r) ← map_err Malformed (read_u8 (reader_new bytes));
    if negb (version =? BLOB_VERSION) then Err (UnsupportedVersion version) else
    '(m, _) ← map_err Malformed (decode_meta_body r);
    mret m
  end.

(** ** What the types guarantee, and the part of a value that is stored *)

Definition wf_payload (p : DeclPayload) : Prop :=
  match p with PMessage m => wf m | PEnum e => wf e | PService s => wf s end.

Definition erase_payload (p : DeclPayload) : DeclPayload :=
  match p with PMessage m => PMessage (erase m) | PEnum e => PEnum (erase e) | PService s => p end.

Definition wf_meta (m : MetaPayload) : Prop :=
  opt_all valid_str (mp_name m) ∧ opt_all valid_str (mp_package m) ∧
  wf_str_vec (mp_dependency m) ∧ wf_i32_vec (mp_public_dependency m) ∧
  wf_i32_vec (mp_weak_dependency m) ∧ wf_str_vec (mp_option_dependency m) ∧
  opt_all wf (mp_options m) ∧ opt_all valid_str (mp_syntax m) ∧
  opt_all valid_str (mp_edition m) ∧ opt_all wf (mp_source_code_info m) ∧
  wf_str_vec (mp_message_order m) ∧ wf_str_vec (mp_enum_order m) ∧
  wf_str_vec (mp_service_order m) ∧ wf_vec (mp_extension m) ∧
  wf_str_vec (mp_dependency_commit m).

Definition with_dependency_commit (m : MetaPayload) (pins : list string) : MetaPayload :=
  mkMetaPayload (mp_name m) (mp_package m) (mp_dependency m) (mp_public_dependency m)
    (mp_weak_dependency m) (mp_option_dependency m) (mp_options m) (mp_syntax m) (mp_edition m)
    (mp_source_code_info m) (mp_message_order m) (mp_enum_order m) (mp_service_order m)
    (mp_extension m) pins.

Definition with_extension (m : MetaPayload) (ext : list FieldDescriptorProto) : MetaPayload :=
  mkMetaPayload (mp_name m) (mp_package m) (mp_dependency m) (mp_public_dependency m)
    (mp_weak_dependency m) (mp_option_dependency m) (mp_options m) (mp_syntax m) (mp_edition m)
    (mp_source_code_info m) (mp_message_order m) (mp_enum_order m) (mp_service_order m)
    ext (mp_dependency_commit m).

Definition erase_meta (m : MetaPayload) : MetaPayload :=
  with_extension m (erase <$> mp_extension m).

(** ** Theorems *)

Context {PL : ProtocSchemaLaws PS}.

Lemma read_header v bytes rest :
  0 <= v < 256 → read_u8 (mkReader (bytes ++ write_u8 v ++ rest) (length bytes)) =
    Ok (v, mkReader (bytes ++ write_u8 v ++ rest) (length (bytes ++ write_u8 v))).
Proof.
  intros Hv. unfold read_u8, write_u8. cbn [r_buf r_pos].
  rewrite (list_lookup_middle _ rest (byte_of_Z v)) by done.
  by rewrite u8_of_Z_small, length_app, Nat.add_1_r.
Qed.

(** Decoding a declaration: the two header bytes, then the body. *)
Lemma decode_decl_headers tag body :
  0 <= tag < 256 →
  decode_decl (write_u8 BLOB_VERSION ++ write_u8 tag ++ body) =
    let r := mkReader (write_u8 BLOB_VERSION ++ write_u8 tag ++ body)
               (length (write_u8 BLOB_VERSION ++ write_u8 tag)) in
    if tag =? TAG_MESSAGE then
      '(m, _) ← map_err Malformed (decode r); mret (PMessage m)
    else if tag =? TAG_ENUM then
      '(e, _) ← map_err Malformed (decode r); mret (PEnum e)
    else if tag =? TAG_SERVICE then
      '(s, _) ← map_err Malformed (decode r); mret (PService s)
    else Err (UnknownTag tag).
Proof.
  intros Ht. unfold decode_decl, reader_new.
  pose proof (read_header BLOB_VERSION [] (write_u8 tag ++ body)) as H1.
  cbn [app length] in H1. rewrite H1 by (unfold BLOB_VERSION; lia).
  cbn [map_err mbind outcome_bind]. by rewrite (read_header tag _ body).
Qed.

Lemma decode_decl_encode_decl p rest :
  wf_payload p → Z.of_nat (length (encode_decl p ++ rest)) <= isize_max →
  decode_decl (encode_decl p ++ rest) = Ok (erase_payload p).
Proof.
  intros Hwf. unfold encode_decl.
  destruct p as [m|e|s]; rewrite <- !app_assoc; intros Hlen;
    rewrite decode_decl_headers by (unfold TAG_MESSAGE, TAG_ENUM, TAG_SERVICE; lia);
    cbv zeta; simpl (_ =? _); cbv iota;
    rewrite app_assoc in Hlen |- *.
  - by rewrite (decode_encode_erase m Hwf _ rest Hlen).
  - by rewrite (decode_encode_erase e Hwf _ rest Hlen).
  - by rewrite (decode_encode s Hwf _ rest Hlen).
Qed.

(** Decoding an encoded declaration gives the declaration back, whatever
    bytes follow it, for every message (with any depth of nesting), enum and
    service whose strings, integers and vectors are in the range of their Rust
    types. Only the parser's [source_span]s are lost. *)
Theorem decl_blob_roundtrip (p : DeclPayload) (rest : list byte) :
  wf_payload p → Z.of_nat (length (encode_decl p ++ rest)) <= isize_max →
  decode_decl (encode_decl p ++ rest) = Ok (erase_payload p).
Proof. apply decode_decl_encode_decl. Qed.

Lemma read_u8_steady_top (r : Reader) : in_bounds r → steady_result r (read_u8 r).
Proof. intros Hr. apply (steady_u8 (S (remaining r))); [done|lia]. Qed.

Lemma decode_decl_returns bytes : decode_decl bytes ≠ Stuck.
Proof.
  unfold decode_decl.
  assert (in_bounds (reader_new bytes)) as Hr by (unfold in_bounds; simpl; lia).
  pose proof (read_u8_steady_top _ Hr) as H1.
  destruct (read_u8 (reader_new bytes)) as [[v r]|?| |]; simpl in *; try done.
  destruct H1 as (_ & _ & Hr1). destruct (negb (v =? BLOB_VERSION)); [done|].
  pose proof (read_u8_steady_top _ Hr1) as H2.
  destruct (read_u8 r) as [[t r2]|?| |]; simpl in *; try done.
  destruct H2 as (_ & _ & Hr2).
  assert (remaining r2 < S (remaining r2))%nat as Hrem by lia.
  destruct (t =? TAG_MESSAGE); [|destruct (t =? TAG_ENUM); [|destruct (t =? TAG_SERVICE); [|done]]].
  - pose proof (span_steady (T := DescriptorProto) _ _ Hr2 Hrem) as H3.
    change decode_DescriptorProto with (decode (T := DescriptorProto)).
    by destruct (decode r2) as [[x r3]|?| |].
  - pose proof (span_steady (T := EnumDescriptorProto) _ _ Hr2 Hrem) as H3.
    change decode_EnumDescriptorProto with (decode (T := EnumDescriptorProto)).
    by destruct (decode r2) as [[x r3]|?| |].
  - pose proof (decode_steady (T := ServiceDescriptorProto) _ _ Hr2 Hrem) as H3.
    change decode_ServiceDescriptorProto with (decode (T := ServiceDescriptorProto)).
    by destruct (decode r2) as [[x r3]|?| |].
Qed.

Lemma steady_at_end n : steady n at_end.
Proof. by intros r Hr _. Qed.

Lemma steady_meta_body n : steady n decode_meta_body.
Proof.
  unfold decode_meta_body, decode_meta_fields. apply steady_bind; [steady_fields|]. intros meta.
  apply steady_bind; [apply steady_at_end|]. intros finished.
  apply steady_bind; [destruct finished; eauto with steady|]. intros pins. apply steady_ret.
Qed.

(** The metadata of a file decodes in the same way. *)
Lemma decode_meta_returns bytes : decode_meta bytes ≠ Stuck.
Proof.
  unfold decode_meta. destruct bytes as [|b bytes]; [done|].
  assert (in_bounds (reader_new (b :: bytes))) as Hr by (unfold in_bounds; simpl; lia).
  pose proof (read_u8_steady_top _ Hr) as H1.
  destruct (read_u8 (reader_new (b :: bytes))) as [[v r]|?| |]; simpl in *; try done.
  destruct H1 as (_ & _ & Hr1). destruct (negb (v =? BLOB_VERSION)); [done|].
  pose proof (steady_meta_body (S (remaining r)) r Hr1 ltac:(lia)) as H2.
  by destruct (decode_meta_body r) as [[m r2]|?| |].
Qed.

(** [decode_decl] returns a declaration, an error or a panic on every byte
    string: the recursion through nested messages, bounded in the model by the
    number of unread bytes, never exhausts that bound. *)
Theorem decode_decl_terminates bytes : decode_decl bytes ≠ Stuck.
Proof. apply decode_decl_returns. Qed.

(** ** Metadata *)

Lemma decodes_meta_fields m :
  wf_meta m →
  decodes decode_meta_fields (encode_meta_fields m)
    (λ pins, with_dependency_commit (erase_meta m) pins).
Proof.
  intros Hwf. unfold wf_meta in Hwf. unfold decode_meta_fields, encode_meta_fields.
  eapply decodes_eq; [codec_fields|]. by destruct m.
Qed.

(** Decoding metadata: the version byte, the fields, then the tail if any. *)
Lemma decode_meta_tail m tail :
  wf_meta m → let bytes := write_u8 BLOB_VERSION ++ encode_meta_fields m ++ tail in
  Z.of_nat (length bytes) <= isize_max →
  decode_meta bytes =
    '(m', _) ← map_err Malformed
      ((finished ← at_end;
        pins ← (if finished : bool then mret [] else read_str_vec);
        mret (with_dependency_commit (erase_meta m) pins))
       (mkReader bytes (length (write_u8 BLOB_VERSION ++ encode_meta_fields m))));
    mret m'.
Proof.
  intros Hwf bytes Hlen. unfold decode_meta.
  assert (read_u8 (reader_new bytes) =
          Ok (BLOB_VERSION, mkReader bytes (length (write_u8 BLOB_VERSION)))) as H1.
  { apply (read_header BLOB_VERSION []). unfold BLOB_VERSION. lia. }
  destruct bytes as [|b bs] eqn:Eb; [done|]. rewrite <- Eb in *.
  rewrite H1. cbn [map_err mbind outcome_bind]. simpl (negb _). cbv iota.
  unfold decode_meta_body at 1. unfold mbind at 2, decoder_bind at 1.
  pose proof (decodes_meta_fields m Hwf (write_u8 BLOB_VERSION) tail Hlen) as H2.
  fold bytes in H2. by rewrite H2.
Qed.

Lemma decode_meta_encode_meta m :
  wf_meta m → Z.of_nat (length (encode_meta m)) <= isize_max →
  decode_meta (encode_meta m) = Ok (erase_meta m).
Proof.
  intros Hwf Hlen. unfold encode_meta in *.
  rewrite decode_meta_tail by done. unfold mbind at 2, decoder_bind at 1, at_end, is_at_end.
  cbn [r_buf r_pos]. rewrite bool_decide_eq_false_2.
  - assert (wf_str_vec (mp_dependency_commit m)) as Hpins by (unfold wf_meta in Hwf; tauto).
    pose proof (decodes_last _ (with_dependency_commit (erase_meta m)) _ _
                  (decodes_str_vec _ Hpins)) as Hd.
    specialize (Hd (write_u8 BLOB_VERSION ++ encode_meta_fields m) []).
    rewrite app_nil_r, <- app_assoc in Hd. cbv iota. rewrite Hd by done. by destruct m.
  - rewrite !length_app. unfold write_str_vec, write_seq. rewrite length_app.
    assert (0 < length (write_uvarint (wrap_u64 (Z.of_nat (length (mp_dependency_commit m))))))%nat.
    { unfold write_uvarint. cbn [uvarint_loop length]. lia. }
    lia.
Qed.

Lemma decode_meta_without_pins m :
  wf_meta m → Z.of_nat (length (encode_meta_without_pins m)) <= isize_max →
  decode_meta (encode_meta_without_pins m) = Ok (with_dependency_commit (erase_meta m) []).
Proof.
  intros Hwf Hlen. unfold encode_meta_without_pins in *.
  rewrite <- (app_nil_r (encode_meta_fields m)) in Hlen |- *.
  rewrite decode_meta_tail by done. unfold mbind at 2, decoder_bind at 1, at_end, is_at_end.
  cbn [r_buf r_pos]. rewrite app_nil_r. by rewrite bool_decide_eq_true_2.
Qed.

(** Decoding encoded file metadata gives the metadata back, up to the
    [source_span]s of file-level extensions. *)
Theorem meta_blob_roundtrip (m : MetaPayload) :
  wf_meta m → Z.of_nat (length (encode_meta m)) <= isize_max →
  decode_meta (encode_meta m) = Ok (erase_meta m).
Proof. apply decode_meta_encode_meta. Qed.

(** A metadata blob written before import pins were appended to the format
    decodes to the same metadata with no pins. *)
Theorem old_meta_blob_decodes (m : MetaPayload) :
  wf_meta m → Z.of_nat (length (encode_meta_without_pins m)) <= isize_max →
  decode_meta (encode_meta_without_pins m) = Ok (with_dependency_commit (erase_meta m) []).
Proof. apply decode_meta_without_pins. Qed.

(** A blob of twelve bytes whose first string announces [u64::MAX] bytes
    makes the decoder panic: [self.pos + len] wraps past the length check and
    the slice then starts after its end. *)
Theorem forged_length_panics :
  decode_decl ([x01; x01; x01] ++ repeat xff 9 ++ [x01]) = Panic.
Proof. reflexivity. Qed.

End Blob.

(** ** Witnesses *)

Definition sample_message : DescriptorProto :=
  mkDescriptorProto (Some "Outer") [scalar_field "id" 1 MtInt64; scalar_field "name" (-5) MtString]
    [] [message "Inner" [scalar_field "x" 7 MtBool]] [] [] [] None
    [mkReservedRange (Some 3) (Some 4)] ["old"%string] (Some Local_) None.

Definition sample_meta : MetaPayload :=
  mkMetaPayload None (Some "a.b"%string) ["x.proto"%string] [0] [] [] None
    (Some "proto3"%string) None None ["Outer"%string] [] [] [scalar_field "ext" 100 MtInt32]
    ["abc123"%string].

(** Solve a closed well-formedness goal by evaluation of its leaves. *)
Ltac solve_wf :=
  hnf;
  lazymatch goal with
  | |- _ ∧ _ => split; solve_wf
  | |- Forall _ _ => first [apply Forall_nil_2 | apply Forall_cons_2; solve_wf]
  | |- True => exact I
  | |- _ => vm_compute; first [reflexivity | discriminate]
  end.

Lemma sample_message_wf : wf_payload (PMessage sample_message).
Proof. solve_wf. Qed.

Lemma decl_blob_roundtrip_witness :
  decode_decl (encode_decl (PMessage sample_message) ++ [x07]) =
    Ok (erase_payload (PMessage sample_message)).
Proof. apply decl_blob_roundtrip; [apply sample_message_wf|vm_compute; done]. Defined.

Lemma sample_meta_wf : wf_meta sample_meta.
Proof. solve_wf. Qed.

Lemma meta_blob_roundtrip_witness :
  decode_meta (encode_meta sample_meta) = Ok (erase_meta sample_meta).
Proof. apply meta_blob_roundtrip; [apply sample_meta_wf|vm_compute; done]. Defined.

Lemma old_meta_blob_decodes_witness :
  decode_meta (encode_meta_without_pins sample_meta) =
    Ok (with_dependency_commit (erase_meta sample_meta) []).
Proof. apply old_meta_blob_decodes; [apply sample_meta_wf|vm_compute; done]. Defined.

Lemma decode_decl_terminates_witness : decode_decl (encode_decl (PMessage sample_message)) ≠ Stuck.
Proof. apply decode_decl_terminates. Defined.
