(* ===== verification/Compat.v ===== *)
(** * Compat: the compatibility checker for protobuf declarations

    [crates/schemahub-compiler-protobuf/src/compat.rs] and [diff.rs]. The
    checker collects fields, enum values and RPCs in hash maps and iterates over
    them, so the order of the reported violations is that of [hash_iter]; the
    theorems do not depend on it. *)
From S2P Require Import Prelude RustStd SchemaTypes ProtoSchema Codec DescriptorCodec DescriptorCodecLaws Blob ProtocModel.
From Stdlib Require Import Ascii.

Open Scope Z_scope.

(** ** Which field type changes keep the wire format readable

    [crates/schemahub-compiler-protobuf/src/typecompat.rs]. *)
Inductive TypeChangeCompat := FullyCompat | BackwardOnly | Breaking.

#[export] Instance TypeChangeCompat_eq_dec : EqDecision TypeChangeCompat.
Proof. solve_decision. Defined.

Section TypeCompat.
Context {PS : ProtocSchema}.

Definition scalar_field_type (name : string) : option FieldType := FieldType_from_proto_name name.

Definition wire_of_field (name : string) (field_type : option FieldType) : WireType :=
  match field_type with
  | Some t => wire_type t
  | None =>
    match scalar_field_type name with
    | Some t => wire_type t
    | None => LengthDelimited
    end
  end.

Definition is_cross_wire_type_typed (from : string) (from_ty : option FieldType)
    (to : string) (to_ty : option FieldType) : bool :=
  bool_decide (wire_of_field from from_ty ≠ wire_of_field to to_ty).

Definition allowlist_key (name : string) (field_type : option FieldType) : string :=
  if bool_decide (field_type = Some FT_Enum) then "enum" else name.

Definition FULLY : list (string * string) :=
  [("int32", "int64"); ("uint32", "uint64"); ("sint32", "sint64"); ("string", "bytes");
   ("bytes", "string"); ("int32", "uint32"); ("int32", "bool"); ("uint32", "int32");
   ("enum", "int32"); ("int32", "enum"); ("enum", "uint32"); ("uint32", "enum");
   ("enum", "int64"); ("enum", "uint64")]%string.

Definition BACKWARD_ONLY : list (string * string) :=
  [("int64", "int32"); ("sint64", "sint32"); ("uint64", "uint32")]%string.

Definition classify_type_change_typed (from : string) (from_ty : option FieldType)
    (to : string) (to_ty : option FieldType) : TypeChangeCompat :=
  if bool_decide (from = to) then FullyCompat
  else if is_cross_wire_type_typed from from_ty to to_ty then Breaking
  else
    let from_key := allowlist_key from from_ty in
    let to_key := allowlist_key to to_ty in
    if bool_decide ((from_key, to_key) ∈ FULLY) then FullyCompat
    else if bool_decide ((from_key, to_key) ∈ BACKWARD_ONLY) then BackwardOnly
    else Breaking.

Definition type_change_allowed_typed (from : string) (from_ty : option FieldType)
    (to : string) (to_ty : option FieldType) : outcome string unit :=
  if bool_decide (from = to) then Ok tt
  else if is_cross_wire_type_typed from from_ty to to_ty then
    Err ("type change '" +:+ from +:+ "'→'" +:+ to +:+
         "' crosses the wire-type boundary (always breaking)")
  else
    match classify_type_change_typed from from_ty to to_ty with
    | Breaking => Err ("type change '" +:+ from +:+ "'→'" +:+ to +:+ "' is not in the allowlist")
    | _ => Ok tt
    end.

(** ** Lemmas *)

Lemma type_change_allowed_classify from from_ty to to_ty :
  type_change_allowed_typed from from_ty to to_ty = Ok tt ↔
  classify_type_change_typed from from_ty to to_ty ≠ Breaking.
Proof.
  unfold type_change_allowed_typed, classify_type_change_typed.
  repeat (case_bool_decide || case_match); naive_solver.
Qed.

(** A change that is not breaking does not cross the wire-type boundary unless
    the names agree. *)
Lemma classify_same_wire from from_ty to to_ty :
  from ≠ to → classify_type_change_typed from from_ty to to_ty ≠ Breaking →
  wire_of_field from from_ty = wire_of_field to to_ty.
Proof.
  intros Hne. unfold classify_type_change_typed, is_cross_wire_type_typed.
  rewrite bool_decide_eq_false_2 by done. intros Hc.
  destruct (decide (wire_of_field from from_ty = wire_of_field to to_ty)) as [|Hw]; [done|].
  by rewrite bool_decide_eq_true_2 in Hc.
Qed.

End TypeCompat.


Section Compat.
Context {PS : ProtocSchema} {RF : RustFmt} {HO : HashOrder}.

(** ** Definitions *)

Definition decl_name (p : DeclPayload) : string :=
  match p with
  | PMessage m => default ""%string (dp_name m)
  | PEnum e => default ""%string (ed_name e)
  | PService s => default ""%string (sd_name s)
  end.

Definition kind_str (p : DeclPayload) : string :=
  match p with
  | PMessage _ => "message"
  | PEnum _ => "enum"
  | PService _ => "service"
  end.

(** Whether a [FieldType] is named by [type_name] rather than by its kind. *)
Definition is_named_type (t : FieldType) : bool :=
  bool_decide (t = FT_Message) || bool_decide (t = FT_Enum) || bool_decide (t = FT_Group).

Definition type_name_of (f : FieldDescriptorProto) : string :=
  match fd_type f with
  | Some t =>
    if is_named_type t then rsplit_next "."%char (default ""%string (fd_type_name f))
    else proto_name t
  | None => default ""%string (fd_type_name f)
  end.

Definition debug_label (l : option FieldLabel) : string :=
  match l with Some l => "Some(" +:+ FieldLabel_debug l +:+ ")" | None => "None" end.

(** [matches!(dir, Forward | Full)] and [matches!(dir, Backward | Full)]. *)
Definition enforces_forward (dir : CompatibilityDirection) : bool :=
  match dir with Forward | Full => true | _ => false end.
Definition enforces_backward (dir : CompatibilityDirection) : bool :=
  match dir with Backward | Full => true | _ => false end.

Definition fields_by_num (l : list FieldDescriptorProto) : gmap Z FieldDescriptorProto :=
  collect_map (omap (λ f, (λ n, (n, f)) <$> fd_number f) l).

Definition check_field (decl : string) (dir : CompatibilityDirection) (num : Z)
    (ofd nfd : FieldDescriptorProto) : list CompatibilityViolation :=
  let from := type_name_of ofd in
  let to := type_name_of nfd in
  (if bool_decide (from = to) then []
   else match classify_type_change_typed from (fd_type ofd) to (fd_type nfd) with
        | FullyCompat => []
        | BackwardOnly =>
          if enforces_forward dir then
            [mkCompatibilityViolation decl (fd_name nfd)
               ("field " +:+ fmt_Z num +:+ " type '" +:+ from +:+ "'→'" +:+ to +:+
                "' is BACKWARD-only, not " +:+ debug_direction dir)]
          else []
        | Breaking =>
          [mkCompatibilityViolation decl (fd_name nfd)
             ("field " +:+ fmt_Z num +:+ " type '" +:+ from +:+ "'→'" +:+ to +:+ "' is breaking")]
        end) ++
  (if bool_decide (fd_label ofd ≠ fd_label nfd)
      || bool_decide (fd_proto3_optional ofd ≠ fd_proto3_optional nfd) then
     [mkCompatibilityViolation decl (fd_name nfd)
        ("field " +:+ fmt_Z num +:+ " cardinality changed (" +:+ debug_label (fd_label ofd) +:+
         "→" +:+ debug_label (fd_label nfd) +:+ "): breaking")]
   else []).

Definition check_message (old new : DescriptorProto) (dir : CompatibilityDirection) :
    list CompatibilityViolation :=
  let decl := default ""%string (dp_name old) in
  let old_by_num := fields_by_num (dp_field old) in
  let new_by_num := fields_by_num (dp_field new) in
  flat_map (λ '(num, f),
    if bool_decide (new_by_num !! num = None) && enforces_forward dir then
      [mkCompatibilityViolation decl (fd_name f)
         ("field number " +:+ fmt_Z num +:+ " removed: breaks " +:+ debug_direction dir +:+
          " compatibility")]
    else []) (hash_iter old_by_num) ++
  flat_map (λ '(num, nfd),
    match old_by_num !! num with
    | None => []
    | Some ofd => check_field decl dir num ofd nfd
    end) (hash_iter new_by_num).

Definition values_by_num (l : list EnumValueDescriptorProto) : gmap Z string :=
  collect_map (omap (λ x, (λ n, (n, default ""%string (ev_name x))) <$> ev_number x) l).

Definition check_enum (old new : EnumDescriptorProto) (dir : CompatibilityDirection) :
    list CompatibilityViolation :=
  let decl := default ""%string (ed_name old) in
  let old_nums := values_by_num (ed_value old) in
  let new_nums := values_by_num (ed_value new) in
  flat_map (λ '(num, name),
    if bool_decide (new_nums !! num = None) && enforces_backward dir then
      [mkCompatibilityViolation decl None
         ("enum value '" +:+ name +:+ "' (" +:+ fmt_Z num +:+ ") removed: breaks " +:+
          debug_direction dir)]
    else []) (hash_iter old_nums) ++
  flat_map (λ '(num, name),
    if bool_decide (old_nums !! num = None) && enforces_forward dir then
      [mkCompatibilityViolation decl None
         ("enum value '" +:+ name +:+ "' (" +:+ fmt_Z num +:+ ") added: breaks " +:+
          debug_direction dir)]
    else []) (hash_iter new_nums).

Definition rpcs_by_name (l : list MethodDescriptorProto) : gmap string MethodDescriptorProto :=
  collect_map (omap (λ m, (λ n, (n, m)) <$> md_name m) l).

Definition check_rpc (decl name : string) (om nm : MethodDescriptorProto) :
    list CompatibilityViolation :=
  (if bool_decide (md_input_type om ≠ md_input_type nm)
      || bool_decide (md_output_type om ≠ md_output_type nm) then
     [mkCompatibilityViolation decl None
        ("RPC '" +:+ name +:+ "' request/response type changed: breaking")]
   else []) ++
  (if negb (Bool.eqb (default false (md_client_streaming om)) (default false (md_client_streaming nm)))
      || negb (Bool.eqb (default false (md_server_streaming om))
                        (default false (md_server_streaming nm))) then
     [mkCompatibilityViolation decl None
        ("RPC '" +:+ name +:+ "' streaming mode changed: breaking")]
   else []).

Definition check_service (old new : ServiceDescriptorProto) (dir : CompatibilityDirection) :
    list CompatibilityViolation :=
  let decl := default ""%string (sd_name old) in
  let old_rpcs := rpcs_by_name (sd_method old) in
  let new_rpcs := rpcs_by_name (sd_method new) in
  flat_map (λ '(name, _),
    if bool_decide (new_rpcs !! name = None) && enforces_backward dir then
      [mkCompatibilityViolation decl None
         ("RPC '" +:+ name +:+ "' removed: breaks " +:+ debug_direction dir)]
    else []) (hash_iter old_rpcs) ++
  flat_map (λ '(name, _),
    if bool_decide (old_rpcs !! name = None) && enforces_forward dir then
      [mkCompatibilityViolation decl None
         ("RPC '" +:+ name +:+ "' added: breaks " +:+ debug_direction dir)]
    else []) (hash_iter new_rpcs) ++
  flat_map (λ '(name, nm),
    match old_rpcs !! name with
    | None => []
    | Some om => check_rpc decl name om nm
    end) (hash_iter new_rpcs).

(** The violations between two decoded declarations. *)
Definition check_payloads (old new : DeclPayload) (dir : CompatibilityDirection) :
    list CompatibilityViolation :=
  match old, new with
  | PMessage o, PMessage n => check_message o n dir
  | PEnum o, PEnum n => check_enum o n dir
  | PService o, PService n => check_service o n dir
  | o, n =>
    [mkCompatibilityViolation (decl_name n) None
       ("declaration kind changed from " +:+ kind_str o +:+ " to " +:+ kind_str n +:+
        " (always breaking)")]
  end.

Definition check (old new : DeclBlob) (rules : CompatibilityRules) :
    outcome (list CompatibilityViolation) unit :=
  if cr_disabled rules || bool_decide (cr_direction rules = Disabled) then Ok tt else
  let malformed which e := [mkCompatibilityViolation ""%string None
                              (which +:+ " blob malformed: " +:+ fmt_blob_error e)] in
  old_p ← map_err (malformed "old"%string) (decode_decl old);
  new_p ← map_err (malformed "new"%string) (decode_decl new);
  match check_payloads old_p new_p (cr_direction rules) with
  | [] => Ok tt
  | violations => Err violations
  end.

(** ** Diffs: [diff.rs] *)

Definition payload_name (p : DeclPayload) : string := decl_name p.

(** One side of a diff: the numbered items of [l] whose number is not in
    [other], as lines with prefix [pre]. *)
Definition unmatched_lines (pre : string) (other : gset Z) (l : list (option string * option Z)) :
    list string :=
  omap (λ '(name, number),
    num ← number;
    if bool_decide (num ∈ other) then None
    else Some (pre +:+ default ""%string name +:+ " = " +:+ fmt_Z num)) l.

Definition numbers (l : list (option string * option Z)) : gset Z := list_to_set (omap snd l).

Definition newline : string := String "010"%char EmptyString.

Definition summarize_items (what unchanged : string) (o n : list (option string * option Z)) : string :=
  let lines := unmatched_lines ("+ " +:+ what +:+ " ") (numbers o) n ++
               unmatched_lines ("- " +:+ what +:+ " ") (numbers n) o in
  match lines with
  | [] => unchanged
  | _ => join newline lines
  end.

Definition summarize_change (old new : DeclPayload) : string :=
  match old, new with
  | PMessage o, PMessage n =>
    summarize_items "field" "message modified" ((λ f, (fd_name f, fd_number f)) <$> dp_field o)
      ((λ f, (fd_name f, fd_number f)) <$> dp_field n)
  | PEnum o, PEnum n =>
    summarize_items "value" "enum modified" ((λ v, (ev_name v, ev_number v)) <$> ed_value o)
      ((λ v, (ev_name v, ev_number v)) <$> ed_value n)
  | PService _, PService _ => "service modified"
  | _, _ => "declaration kind changed"
  end.

Definition diff (old new : DeclBlob) : outcome DiffError DeclChange :=
  old_p ← map_err (λ e, DiffMalformedBlob (fmt_blob_error e)) (decode_decl old);
  new_p ← map_err (λ e, DiffMalformedBlob (fmt_blob_error e)) (decode_decl new);
  Ok (DeclarationModified (payload_name new_p) (as_bytes (summarize_change old_p new_p))).

(** ** An abstract specification

    What a change of one field, enum value set or RPC set must satisfy, without
    maps, iteration or messages. *)

Definition type_change_ok (dir : CompatibilityDirection) (ofd nfd : FieldDescriptorProto) : Prop :=
  type_name_of ofd = type_name_of nfd ∨
  match classify_type_change_typed (type_name_of ofd) (fd_type ofd) (type_name_of nfd) (fd_type nfd) with
  | FullyCompat => True
  | BackwardOnly => dir = Backward
  | Breaking => False
  end.

Definition field_compatible (dir : CompatibilityDirection) (ofd nfd : FieldDescriptorProto) : Prop :=
  type_change_ok dir ofd nfd ∧ fd_label ofd = fd_label nfd ∧
  fd_proto3_optional ofd = fd_proto3_optional nfd.

Definition message_compatible (dir : CompatibilityDirection) (old new : DescriptorProto) : Prop :=
  ∀ num ofd, fields_by_num (dp_field old) !! num = Some ofd →
    match fields_by_num (dp_field new) !! num with
    | Some nfd => field_compatible dir ofd nfd
    | None => dir = Backward
    end.

Definition enum_compatible (dir : CompatibilityDirection) (old new : EnumDescriptorProto) : Prop :=
  (dir ≠ Forward → ∀ num, is_Some (values_by_num (ed_value old) !! num) →
                          is_Some (values_by_num (ed_value new) !! num)) ∧
  (dir ≠ Backward → ∀ num, is_Some (values_by_num (ed_value new) !! num) →
                           is_Some (values_by_num (ed_value old) !! num)).

Definition rpc_compatible (om nm : MethodDescriptorProto) : Prop :=
  md_input_type om = md_input_type nm ∧ md_output_type om = md_output_type nm ∧
  default false (md_client_streaming om) = default false (md_client_streaming nm) ∧
  default false (md_server_streaming om) = default false (md_server_streaming nm).

Definition service_compatible (dir : CompatibilityDirection) (old new : ServiceDescriptorProto) :
    Prop :=
  (dir ≠ Forward → ∀ name, is_Some (rpcs_by_name (sd_method old) !! name) →
                           is_Some (rpcs_by_name (sd_method new) !! name)) ∧
  (dir ≠ Backward → ∀ name, is_Some (rpcs_by_name (sd_method new) !! name) →
                            is_Some (rpcs_by_name (sd_method old) !! name)) ∧
  (∀ name om nm, rpcs_by_name (sd_method old) !! name = Some om →
                 rpcs_by_name (sd_method new) !! name = Some nm → rpc_compatible om nm).

Definition payload_compatible (dir : CompatibilityDirection) (old new : DeclPayload) : Prop :=
  match old, new with
  | PMessage o, PMessage n => message_compatible dir o n
  | PEnum o, PEnum n => enum_compatible dir o n
  | PService o, PService n => service_compatible dir o n
  | _, _ => False
  end.

(** ** The checker implements the specification *)

Lemma flat_map_nil {A B} (f : A → list B) l : flat_map f l = [] ↔ ∀ x, x ∈ l → f x = [].
Proof.
  induction l as [|a l IH]; simpl.
  - split; [|done]. intros _ x Hx. by apply not_elem_of_nil in Hx.
  - rewrite app_nil, IH. split.
    + intros [Ha Hl] x [->|Hx]%elem_of_cons; auto.
    + intros H. split; [apply H; left|]. intros x Hx. apply H. by right.
Qed.

Lemma flat_map_hash_nil {K V B} `{Countable K} (f : K * V → list B) (m : gmap K V) :
  flat_map f (hash_iter m) = [] ↔ ∀ k v, m !! k = Some v → f (k, v) = [].
Proof.
  rewrite flat_map_nil. split.
  - intros Hf k v Hk. apply Hf. by apply elem_of_hash_iter.
  - intros Hf [k v] Hk. apply Hf. by apply elem_of_hash_iter.
Qed.

Lemma enforces_forward_spec dir : dir ≠ Disabled → enforces_forward dir = false ↔ dir = Backward.
Proof. by destruct dir. Qed.

Lemma enforces_backward_spec dir : dir ≠ Disabled → enforces_backward dir = false ↔ dir = Forward.
Proof. by destruct dir. Qed.

Lemma check_field_spec decl dir num ofd nfd :
  dir ≠ Disabled → check_field decl dir num ofd nfd = [] ↔ field_compatible dir ofd nfd.
Proof.
  intros Hdir. unfold check_field, field_compatible, type_change_ok. rewrite app_nil.
  repeat (case_bool_decide || case_match); destruct dir; naive_solver.
Qed.

(** A guarded violation is absent iff the guard is false. *)
Lemma guarded_nil {A} (P : Prop) `{Decision P} (b : bool) (x : A) :
  (if bool_decide P && b then [x] else []) = [] ↔ (P → b = false).
Proof. case_bool_decide; destruct b; naive_solver. Qed.

Lemma check_message_spec dir old new :
  dir ≠ Disabled → check_message old new dir = [] ↔ message_compatible dir old new.
Proof.
  intros Hdir. unfold check_message, message_compatible. cbv zeta.
  rewrite app_nil, !flat_map_hash_nil.
  setoid_rewrite guarded_nil. setoid_rewrite enforces_forward_spec; [|done].
  split.
  - intros [Hrem Hchg] num ofd Hof.
    destruct (fields_by_num (dp_field new) !! num) as [nfd|] eqn:Hnf.
    + specialize (Hchg num nfd Hnf). rewrite Hof in Hchg. by apply check_field_spec in Hchg.
    + by apply (Hrem num ofd).
  - intros Hspec. split.
    + intros num ofd Hof Hnone. specialize (Hspec num ofd Hof). by rewrite Hnone in Hspec.
    + intros num nfd Hnf. destruct (fields_by_num (dp_field old) !! num) as [ofd|] eqn:Hof; [|done].
      specialize (Hspec num ofd Hof). rewrite Hnf in Hspec. by apply check_field_spec.
Qed.

(** The shape of an added/removed check over two maps. *)
Lemma presence_spec {K V V'} `{Countable K} (m : gmap K V) (m' : gmap K V') (P : Prop) `{Decision P} :
  (∀ k v, m !! k = Some v → m' !! k = None → P) ↔
  (¬ P → ∀ k, is_Some (m !! k) → is_Some (m' !! k)).
Proof.
  split.
  - intros H1 HP k [v Hv]. destruct (m' !! k) eqn:E; [done|]. by destruct HP; eapply H1.
  - intros H1 k v Hv Hn. destruct (decide P) as [|HP]; [done|].
    destruct (H1 HP k) as [v' Hv']; [by exists v|]. by rewrite Hn in Hv'.
Qed.

Lemma check_enum_spec dir old new :
  dir ≠ Disabled → check_enum old new dir = [] ↔ enum_compatible dir old new.
Proof.
  intros Hdir. unfold check_enum, enum_compatible. cbv zeta.
  rewrite app_nil, !flat_map_hash_nil.
  setoid_rewrite guarded_nil. setoid_rewrite enforces_forward_spec; [|done].
  setoid_rewrite enforces_backward_spec; [|done].
  by rewrite !presence_spec by apply _.
Qed.

Lemma check_rpc_spec decl name om nm : check_rpc decl name om nm = [] ↔ rpc_compatible om nm.
Proof.
  unfold check_rpc, rpc_compatible. rewrite app_nil.
  destruct (Bool.eqb_spec (default false (md_client_streaming om))
              (default false (md_client_streaming nm)));
  destruct (Bool.eqb_spec (default false (md_server_streaming om))
              (default false (md_server_streaming nm)));
  repeat case_bool_decide; simpl; naive_solver.
Qed.

Lemma check_service_spec dir old new :
  dir ≠ Disabled → check_service old new dir = [] ↔ service_compatible dir old new.
Proof.
  intros Hdir. unfold check_service, service_compatible. cbv zeta.
  rewrite !app_nil, !flat_map_hash_nil.
  setoid_rewrite guarded_nil. setoid_rewrite enforces_forward_spec; [|done].
  setoid_rewrite enforces_backward_spec; [|done].
  rewrite !presence_spec by apply _.
  split.
  - intros (Hr & Ha & Hc). split_and!; [done..|]. intros name om nm Ho Hn.
    specialize (Hc name nm Hn). rewrite Ho in Hc. by eapply check_rpc_spec.
  - intros (Hr & Ha & Hc). split_and!; [done..|]. intros name nm Hn.
    destruct (rpcs_by_name (sd_method old) !! name) as [om|] eqn:Ho; [|done].
    apply check_rpc_spec. by apply (Hc name).
Qed.

Lemma check_payloads_spec dir old new :
  dir ≠ Disabled → check_payloads old new dir = [] ↔ payload_compatible dir old new.
Proof.
  intros Hdir. destruct old, new; simpl; try (split; done);
    [by apply check_message_spec|by apply check_enum_spec|by apply check_service_spec].
Qed.

(** Unfolding [check] on blobs that decode. *)
Lemma check_decoded old new p p' rules :
  decode_decl old = Ok p → decode_decl new = Ok p' →
  check old new rules = Ok tt ↔
  cr_disabled rules = true ∨ cr_direction rules = Disabled ∨
  check_payloads p p' (cr_direction rules) = [].
Proof.
  intros Ho Hn. unfold check. rewrite Ho, Hn. cbn [map_err mbind outcome_bind].
  destruct (cr_disabled rules); simpl; [naive_solver|].
  case_bool_decide; [naive_solver|].
  destruct (check_payloads p p' (cr_direction rules)); naive_solver.
Qed.


(** ** Consequences *)

Lemma classify_refl name t t' : classify_type_change_typed name t name t' = FullyCompat.
Proof. unfold classify_type_change_typed. by rewrite bool_decide_eq_true_2. Qed.

Lemma payload_compatible_refl dir p : payload_compatible dir p p.
Proof.
  destruct p as [m|e|s]; simpl.
  - intros num ofd Hofd. rewrite Hofd. split; [by left|done].
  - split; auto.
  - split_and!; auto. intros name om nm H1 H2. simplify_eq. done.
Qed.

(** A declaration is compatible with itself under every rule set. *)
Theorem check_reflexive (b : DeclBlob) (p : DeclPayload) (rules : CompatibilityRules) :
  decode_decl b = Ok p → check b b rules = Ok tt.
Proof.
  intros Hp. apply (check_decoded b b p p); [done..|].
  destruct (decide (cr_direction rules = Disabled)) as [|Hd]; [by right; left|].
  right; right. apply check_payloads_spec; [done|]. apply payload_compatible_refl.
Qed.

Lemma field_compatible_full ofd nfd :
  field_compatible Full ofd nfd ↔ field_compatible Backward ofd nfd ∧ field_compatible Forward ofd nfd.
Proof.
  unfold field_compatible, type_change_ok.
  destruct (classify_type_change_typed _ _ _ _); naive_solver.
Qed.

Lemma payload_compatible_full p p' :
  payload_compatible Full p p' ↔ payload_compatible Backward p p' ∧ payload_compatible Forward p p'.
Proof.
  destruct p as [m|e|s], p' as [m'|e'|s']; simpl; try tauto.
  - unfold message_compatible. split.
    + intros H. split; intros num ofd Hofd; specialize (H num ofd Hofd);
        destruct (fields_by_num (dp_field m') !! num); try done;
        by apply field_compatible_full in H as [? ?].
    + intros [Hb Hf] num ofd Hofd. specialize (Hb num ofd Hofd). specialize (Hf num ofd Hofd).
      destruct (fields_by_num (dp_field m') !! num); [by apply field_compatible_full|done].
  - unfold enum_compatible. split; [intros [H1 H2]|intros [[H1 H2] [H3 H4]]]; auto 10.
  - unfold service_compatible.
    split; [intros (H1 & H2 & H3)|intros [(H1 & H2 & H3) (H4 & H5 & H6)]]; auto 10.
Qed.

(** FULL compatibility is exactly BACKWARD and FORWARD together. *)
Theorem full_is_backward_and_forward (old new : DeclBlob) (p p' : DeclPayload) :
  decode_decl old = Ok p → decode_decl new = Ok p' →
  (check old new (mkCompatibilityRules Full false) = Ok tt ↔
   check old new (mkCompatibilityRules Backward false) = Ok tt ∧
   check old new (mkCompatibilityRules Forward false) = Ok tt).
Proof.
  intros Ho Hn. rewrite !(check_decoded old new p p') by done. simpl.
  rewrite !check_payloads_spec, payload_compatible_full by done. naive_solver.
Qed.

End Compat.

(** ** Witnesses *)

Definition compat_old : DescriptorProto :=
  message "M" [scalar_field "id" 1 MtInt32; scalar_field "name" 2 MtString].
Definition compat_new : DescriptorProto :=
  message "M" [scalar_field "id" 1 MtInt64; scalar_field "extra" 3 MtBool].

Definition compat_blob (m : DescriptorProto) : DeclBlob := encode_decl (PMessage m).

Lemma compat_blob_decodes m :
  wf_payload (PMessage m) → Z.of_nat (length (compat_blob m)) <= isize_max →
  erase_payload (PMessage m) = PMessage m →
  decode_decl (compat_blob m) = Ok (PMessage m).
Proof.
  intros Hwf Hlen He. rewrite <- He. rewrite <- (app_nil_r (compat_blob m)).
  by apply decode_decl_encode_decl; [|rewrite app_nil_r].
Qed.

Lemma compat_old_decodes : decode_decl (compat_blob compat_old) = Ok (PMessage compat_old).
Proof. apply compat_blob_decodes; [solve_wf|vm_compute; done|reflexivity]. Qed.

Lemma compat_new_decodes : decode_decl (compat_blob compat_new) = Ok (PMessage compat_new).
Proof. apply compat_blob_decodes; [solve_wf|vm_compute; done|reflexivity]. Qed.


Lemma check_reflexive_witness :
  check (compat_blob compat_old) (compat_blob compat_old) (mkCompatibilityRules Full false) = Ok tt.
Proof. apply (check_reflexive _ (PMessage compat_old)). apply compat_old_decodes. Defined.

Lemma full_is_backward_and_forward_witness :
  check (compat_blob compat_old) (compat_blob compat_new) (mkCompatibilityRules Full false) = Ok tt ↔
  check (compat_blob compat_old) (compat_blob compat_new) (mkCompatibilityRules Backward false) = Ok tt ∧
  check (compat_blob compat_old) (compat_blob compat_new) (mkCompatibilityRules Forward false) = Ok tt.
Proof.
  apply (full_is_backward_and_forward _ _ (PMessage compat_old) (PMessage compat_new)).
  - apply compat_old_decodes.
  - apply compat_new_decodes.
Defined.

(** The sample change is backward compatible and not forward compatible. *)
Example check_sample_backward :
  check (compat_blob compat_old) (compat_blob compat_new) (mkCompatibilityRules Backward false) = Ok tt.
Proof. vm_compute. reflexivity. Qed.

Example check_sample_forward :
  is_ok (check (compat_blob compat_old) (compat_blob compat_new) (mkCompatibilityRules Forward false)) = false.
Proof. vm_compute. reflexivity. Qed.
