(* ===== verification/Effects.v ===== *)
(** * Effects: what a mutation does to a stored schema

    [apply_effect], [diff_effect] and [effect_is_empty] of
    [crates/schemahub-core/src/change_record/validation.rs]: the effect of a
    mutation on a snapshot, and the effect that leads from one snapshot to
    another. *)
From S2P Require Import Prelude RustStd SchemaTypes.

Definition apply_effect (schema : SchemaObjects) (effect : MutationEffect) : SchemaObjects :=
  let meta := match me_meta effect with Some m => m | None => so_meta schema end in
  let decls := foldl (λ d kv, <[kv.1 := kv.2]> d) (so_decls schema) (me_upserts effect) in
  mkSchemaObjects meta (foldl (λ d n, delete n d) decls (me_removes effect)).

Definition diff_effect (original current : SchemaObjects) : MutationEffect :=
  mkMutationEffect
    (if bool_decide (so_meta original ≠ so_meta current) then Some (so_meta current) else None)
    (List.filter (λ kv, bool_decide (so_decls original !! kv.1 ≠ Some kv.2))
       (btree_iter (so_decls current)))
    (List.filter (λ n, negb (bool_decide (is_Some (so_decls current !! n))))
       (btree_iter (so_decls original)).*1).

Definition effect_is_empty (effect : MutationEffect) : bool :=
  match me_meta effect, me_upserts effect, me_removes effect with
  | None, [], [] => true
  | _, _, _ => false
  end.

(** ** Lookups in the schema an effect gives *)

Lemma lookup_foldl_delete {A} (l : list string) (d : gmap string A) n :
  foldl (λ d n, delete n d) d l !! n = if bool_decide (n ∈ l) then None else d !! n.
Proof.
  revert d. induction l as [|k l IH]; intros d; cbn [foldl].
  - by rewrite bool_decide_eq_false_2 by apply not_elem_of_nil.
  - rewrite IH. repeat case_bool_decide; try done; try set_solver.
    + apply lookup_delete_None. left. set_solver.
    + apply lookup_delete_ne. set_solver.
Qed.

Lemma lookup_apply_effect_removed schema e n :
  n ∈ me_removes e → so_decls (apply_effect schema e) !! n = None.
Proof. intros Hn. simpl. by rewrite lookup_foldl_delete, bool_decide_eq_true_2. Qed.

Lemma lookup_apply_effect_upsert schema e n b :
  NoDup (me_upserts e).*1 → n ∉ me_removes e → (n, b) ∈ me_upserts e →
  so_decls (apply_effect schema e) !! n = Some b.
Proof.
  intros Hd Hn Hb. simpl. rewrite lookup_foldl_delete, bool_decide_eq_false_2 by done.
  by apply lookup_insert_all_in.
Qed.

Lemma lookup_apply_effect_other schema e n :
  n ∉ me_removes e → n ∉ (me_upserts e).*1 →
  so_decls (apply_effect schema e) !! n = so_decls schema !! n.
Proof.
  intros Hr Hu. simpl. rewrite lookup_foldl_delete, bool_decide_eq_false_2 by done.
  by apply lookup_insert_all_out.
Qed.

(** ** Diffs *)

Lemma NoDup_filter_fst {A} (p : string * A → bool) l :
  NoDup l.*1 → NoDup (List.filter p l).*1.
Proof.
  induction l as [|[k v] l IH]; simpl; [done|]. intros [Hk Hl]%NoDup_cons.
  destruct (p (k, v)); simpl; [|by apply IH]. constructor; [|by apply IH].
  intros ([k' v'] & -> & Hin)%list_elem_of_fmap. apply Hk.
  apply list_elem_of_In, filter_In in Hin as [Hin _].
  apply list_elem_of_fmap. exists (k', v'). split; [done|]. by apply list_elem_of_In.
Qed.

Lemma elem_of_btree_keys {A} (m : gmap string A) k : k ∈ (btree_iter m).*1 ↔ is_Some (m !! k).
Proof.
  rewrite list_elem_of_fmap. split.
  - intros ([k' v] & -> & Hv). exists v. by apply elem_of_btree_iter.
  - intros [v Hv]. exists (k, v). split; [done|]. by apply elem_of_btree_iter.
Qed.

Lemma elem_of_diff_removes original current n :
  n ∈ me_removes (diff_effect original current) ↔
  is_Some (so_decls original !! n) ∧ so_decls current !! n = None.
Proof.
  simpl. rewrite elem_of_bool_filter, elem_of_btree_keys, negb_true_iff, bool_decide_eq_false.
  by rewrite eq_None_not_Some.
Qed.

Lemma elem_of_diff_upserts original current n b :
  (n, b) ∈ me_upserts (diff_effect original current) ↔
  so_decls current !! n = Some b ∧ so_decls original !! n ≠ Some b.
Proof.
  simpl. by rewrite elem_of_bool_filter, elem_of_btree_iter, bool_decide_eq_true.
Qed.

Lemma diff_not_upserted original current n :
  n ∉ (me_upserts (diff_effect original current)).*1 →
  so_decls current !! n = None ∨ so_decls current !! n = so_decls original !! n.
Proof.
  intros Hn. destruct (so_decls current !! n) as [b|] eqn:Hc; [right|by left].
  destruct (decide (so_decls original !! n = Some b)) as [->|Hne]; [done|].
  destruct Hn. apply list_elem_of_fmap. exists (n, b). split; [done|].
  by apply elem_of_diff_upserts.
Qed.

Lemma apply_diff_decls original current :
  so_decls (apply_effect original (diff_effect original current)) = so_decls current.
Proof.
  apply map_eq. intros n. set (e := diff_effect original current).
  destruct (decide (n ∈ me_removes e)) as [Hr|Hr].
  { rewrite lookup_apply_effect_removed by done.
    by apply elem_of_diff_removes in Hr as [_ ->]. }
  destruct (decide (n ∈ (me_upserts e).*1)) as [Hu|Hu].
  - apply list_elem_of_fmap in Hu as ([n' b] & -> & Hb). cbn [fst] in *.
    rewrite (lookup_apply_effect_upsert _ _ _ b); [|apply NoDup_filter_fst, NoDup_btree_iter_fst|done..].
    by apply elem_of_diff_upserts in Hb as [-> _].
  - rewrite lookup_apply_effect_other by done.
    destruct (diff_not_upserted original current n Hu) as [Hnone|<-]; [|done].
    rewrite Hnone. unfold e in Hr; rewrite elem_of_diff_removes in Hr.
    destruct (so_decls original !! n) eqn:E; [|done]. naive_solver.
Qed.

Lemma apply_diff original current :
  apply_effect original (diff_effect original current) = current.
Proof.
  assert (so_meta (apply_effect original (diff_effect original current)) = so_meta current) as Hm.
  { simpl. case_bool_decide as Hd; [done|].
    by destruct (decide (so_meta original = so_meta current)). }
  pose proof (apply_diff_decls original current) as Hd.
  destruct (apply_effect original (diff_effect original current)), current; simpl in *. by subst.
Qed.

(** The effect computed between two snapshots of a schema leads from the
    first exactly to the second: metadata, added, changed and removed
    declarations. *)
Theorem diff_effect_sound (original current : SchemaObjects) :
  apply_effect original (diff_effect original current) = current.
Proof. apply apply_diff. Qed.

(** A diff is the empty effect exactly when the snapshots are equal, so an
    unchanged schema is never written. *)
Theorem diff_effect_empty (original current : SchemaObjects) :
  effect_is_empty (diff_effect original current) = true ↔ original = current.
Proof.
  split.
  - intros He. pose proof (apply_diff original current) as Ha.
    destruct (diff_effect original current) as [[] [] []]; try done. by destruct original.
  - intros <-. unfold effect_is_empty.
    destruct (me_meta (diff_effect original original)) eqn:Hm.
    { simpl in Hm. by rewrite bool_decide_eq_false_2 in Hm by naive_solver. }
    destruct (me_upserts (diff_effect original original)) as [|[n b] l] eqn:Hu.
    2:{ assert ((n, b) ∈ me_upserts (diff_effect original original)) as Hin by (rewrite Hu; left).
        apply elem_of_diff_upserts in Hin. naive_solver. }
    destruct (me_removes (diff_effect original original)) as [|n l] eqn:Hr; [done|].
    assert (n ∈ me_removes (diff_effect original original)) as Hin by (rewrite Hr; left).
    apply elem_of_diff_removes in Hin as [[b Hb] Hn]. by rewrite Hb in Hn.
Qed.
