(* ===== verification/Operations.v ===== *)
(** * Operations: the mutation envelope of the protobuf compiler

    [crates/schemahub-compiler-protobuf/src/operations.rs]. Each payload struct
    is a record; its [#[derive(prost::Message)]] attributes are an instance of
    [ProstMessage], which lists the tag and the kind of every field. The [prost]
    library itself is a parameter, [Prost]: an encoder and a decoder driven by
    such a description. *)
From S2P Require Import Prelude RustStd SchemaTypes Codec DescriptorCodecLaws.
From Stdlib Require Import Strings.Byte.

Open Scope Z_scope.

(** ** The [prost] library *)

Inductive prost_kind := KString | KUint32 | KInt32 | KBool | KBytes | KStrings.

Definition prost_value (k : prost_kind) : Type :=
  match k with
  | KString => string
  | KUint32 | KInt32 => Z
  | KBool => bool
  | KBytes => list byte
  | KStrings => list string
  end.

Definition prost_shape : Type := list (Z * prost_kind).

Fixpoint prost_fields (sh : prost_shape) : Type :=
  match sh with
  | [] => unit
  | (_, k) :: sh => prost_value k * prost_fields sh
  end.

(** The values a Rust field of a kind can hold. *)
Definition prost_value_wf (k : prost_kind) : prost_value k → Prop :=
  match k with
  | KString => valid_str
  | KUint32 => in_u32
  | KInt32 => in_i32
  | KBool | KBytes => λ _, True
  | KStrings => wf_str_vec
  end.

Fixpoint prost_fields_wf (sh : prost_shape) : prost_fields sh → Prop :=
  match sh with
  | [] => λ _, True
  | (_, k) :: sh => λ v, prost_value_wf k v.1 ∧ prost_fields_wf sh v.2
  end.

(** The library: encoding, and decoding to the fields or to the text of a
    [DecodeError]. *)
Class Prost := {
  prost_encode : ∀ sh, prost_fields sh → list byte;
  prost_decode : ∀ sh, list byte → outcome string (prost_fields sh);
}.

(** A byte vector that can be allocated. *)
Definition fits_vec (bs : list byte) : Prop := Z.of_nat (length bs) <= isize_max.

(** Documented behaviour: decoding inverts encoding. *)
Class ProstLaws (P : Prost) : Prop :=
  prost_decode_encode sh v :
    prost_fields_wf sh v → fits_vec (prost_encode sh v) →
    prost_decode sh (prost_encode sh v) = Ok v.

(** What [#[derive(prost::Message)]] generates for a struct. *)
Class ProstMessage (T : Type) := {
  shape_of : prost_shape;
  to_fields : T → prost_fields shape_of;
  from_fields : prost_fields shape_of → T;
}.
Arguments shape_of T {_}.

Definition message_wf {T} `{ProstMessage T} (x : T) : Prop :=
  prost_fields_wf (shape_of T) (to_fields x).

Definition encode_to_vec {T} `{Prost, ProstMessage T} (x : T) : list byte :=
  prost_encode (shape_of T) (to_fields x).

Definition decode_message {T} `{Prost, ProstMessage T} (bs : list byte) : outcome string T :=
  from_fields <$> prost_decode (shape_of T) bs.

(** ** Payload structs *)

Record OpAddField := mkOpAddField {
  af_message_name : string;
  af_field_name : string;
  af_field_type : string;
  af_field_number : Z;
  af_cardinality : string;
}.
#[export] Instance OpAddField_prost : ProstMessage OpAddField := {
  shape_of := [(1, KString); (2, KString); (3, KString); (4, KUint32); (5, KString)];
  to_fields o := (af_message_name o, (af_field_name o, (af_field_type o, (af_field_number o, (af_cardinality o, tt)))));
  from_fields '(x1, (x2, (x3, (x4, (x5, _))))) := mkOpAddField x1 x2 x3 x4 x5;
}.

Record OpRemoveField := mkOpRemoveField {
  rf_message_name : string;
  rf_field_name : string;
}.
#[export] Instance OpRemoveField_prost : ProstMessage OpRemoveField := {
  shape_of := [(1, KString); (2, KString)];
  to_fields o := (rf_message_name o, (rf_field_name o, tt));
  from_fields '(x1, (x2, _)) := mkOpRemoveField x1 x2;
}.

Record OpRenameField := mkOpRenameField {
  rnf_message_name : string;
  rnf_old_field_name : string;
  rnf_new_field_name : string;
}.
#[export] Instance OpRenameField_prost : ProstMessage OpRenameField := {
  shape_of := [(1, KString); (2, KString); (3, KString)];
  to_fields o := (rnf_message_name o, (rnf_old_field_name o, (rnf_new_field_name o, tt)));
  from_fields '(x1, (x2, (x3, _))) := mkOpRenameField x1 x2 x3;
}.

Record OpChangeFieldType := mkOpChangeFieldType {
  cft_message_name : string;
  cft_field_name : string;
  cft_new_type : string;
}.
#[export] Instance OpChangeFieldType_prost : ProstMessage OpChangeFieldType := {
  shape_of := [(1, KString); (2, KString); (3, KString)];
  to_fields o := (cft_message_name o, (cft_field_name o, (cft_new_type o, tt)));
  from_fields '(x1, (x2, (x3, _))) := mkOpChangeFieldType x1 x2 x3;
}.

Record OpChangeCardinality := mkOpChangeCardinality {
  cc_message_name : string;
  cc_field_name : string;
  cc_new_cardinality : string;
}.
#[export] Instance OpChangeCardinality_prost : ProstMessage OpChangeCardinality := {
  shape_of := [(1, KString); (2, KString); (3, KString)];
  to_fields o := (cc_message_name o, (cc_field_name o, (cc_new_cardinality o, tt)));
  from_fields '(x1, (x2, (x3, _))) := mkOpChangeCardinality x1 x2 x3;
}.

Record OpReorderFields := mkOpReorderFields {
  ro_message_name : string;
  ro_field_order : list string;
}.
#[export] Instance OpReorderFields_prost : ProstMessage OpReorderFields := {
  shape_of := [(1, KString); (2, KStrings)];
  to_fields o := (ro_message_name o, (ro_field_order o, tt));
  from_fields '(x1, (x2, _)) := mkOpReorderFields x1 x2;
}.

Record OpChangeFieldNumber := mkOpChangeFieldNumber {
  cfn_message_name : string;
  cfn_field_name : string;
  cfn_new_number : Z;
}.
#[export] Instance OpChangeFieldNumber_prost : ProstMessage OpChangeFieldNumber := {
  shape_of := [(1, KString); (2, KString); (3, KInt32)];
  to_fields o := (cfn_message_name o, (cfn_field_name o, (cfn_new_number o, tt)));
  from_fields '(x1, (x2, (x3, _))) := mkOpChangeFieldNumber x1 x2 x3;
}.

Record OpCreateMessage := mkOpCreateMessage {
  cm_message_name : string;
}.
#[export] Instance OpCreateMessage_prost : ProstMessage OpCreateMessage := {
  shape_of := [(1, KString)];
  to_fields o := (cm_message_name o, tt);
  from_fields '(x1, _) := mkOpCreateMessage x1;
}.

Record OpRenameMessage := mkOpRenameMessage {
  rm_old_name : string;
  rm_new_name : string;
}.
#[export] Instance OpRenameMessage_prost : ProstMessage OpRenameMessage := {
  shape_of := [(1, KString); (2, KString)];
  to_fields o := (rm_old_name o, (rm_new_name o, tt));
  from_fields '(x1, (x2, _)) := mkOpRenameMessage x1 x2;
}.

Record OpDeleteMessage := mkOpDeleteMessage {
  dm_message_name : string;
}.
#[export] Instance OpDeleteMessage_prost : ProstMessage OpDeleteMessage := {
  shape_of := [(1, KString)];
  to_fields o := (dm_message_name o, tt);
  from_fields '(x1, _) := mkOpDeleteMessage x1;
}.

Record OpCreateEnum := mkOpCreateEnum {
  ce_enum_name : string;
}.
#[export] Instance OpCreateEnum_prost : ProstMessage OpCreateEnum := {
  shape_of := [(1, KString)];
  to_fields o := (ce_enum_name o, tt);
  from_fields '(x1, _) := mkOpCreateEnum x1;
}.

Record OpDeleteEnum := mkOpDeleteEnum {
  de_enum_name : string;
}.
#[export] Instance OpDeleteEnum_prost : ProstMessage OpDeleteEnum := {
  shape_of := [(1, KString)];
  to_fields o := (de_enum_name o, tt);
  from_fields '(x1, _) := mkOpDeleteEnum x1;
}.

Record OpAddEnumValue := mkOpAddEnumValue {
  aev_enum_name : string;
  aev_value_name : string;
  aev_number : Z;
}.
#[export] Instance OpAddEnumValue_prost : ProstMessage OpAddEnumValue := {
  shape_of := [(1, KString); (2, KString); (3, KInt32)];
  to_fields o := (aev_enum_name o, (aev_value_name o, (aev_number o, tt)));
  from_fields '(x1, (x2, (x3, _))) := mkOpAddEnumValue x1 x2 x3;
}.

Record OpRemoveEnumValue := mkOpRemoveEnumValue {
  rev_enum_name : string;
  rev_value_name : string;
}.
#[export] Instance OpRemoveEnumValue_prost : ProstMessage OpRemoveEnumValue := {
  shape_of := [(1, KString); (2, KString)];
  to_fields o := (rev_enum_name o, (rev_value_name o, tt));
  from_fields '(x1, (x2, _)) := mkOpRemoveEnumValue x1 x2;
}.

Record OpRenameEnumValue := mkOpRenameEnumValue {
  rnev_enum_name : string;
  rnev_old_value_name : string;
  rnev_new_value_name : string;
}.
#[export] Instance OpRenameEnumValue_prost : ProstMessage OpRenameEnumValue := {
  shape_of := [(1, KString); (2, KString); (3, KString)];
  to_fields o := (rnev_enum_name o, (rnev_old_value_name o, (rnev_new_value_name o, tt)));
  from_fields '(x1, (x2, (x3, _))) := mkOpRenameEnumValue x1 x2 x3;
}.

Record OpAddService := mkOpAddService {
  asv_service_name : string;
}.
#[export] Instance OpAddService_prost : ProstMessage OpAddService := {
  shape_of := [(1, KString)];
  to_fields o := (asv_service_name o, tt);
  from_fields '(x1, _) := mkOpAddService x1;
}.

Record OpRemoveService := mkOpRemoveService {
  rs_service_name : string;
}.
#[export] Instance OpRemoveService_prost : ProstMessage OpRemoveService := {
  shape_of := [(1, KString)];
  to_fields o := (rs_service_name o, tt);
  from_fields '(x1, _) := mkOpRemoveService x1;
}.

Record OpRenameService := mkOpRenameService {
  rns_old_name : string;
  rns_new_name : string;
}.
#[export] Instance OpRenameService_prost : ProstMessage OpRenameService := {
  shape_of := [(1, KString); (2, KString)];
  to_fields o := (rns_old_name o, (rns_new_name o, tt));
  from_fields '(x1, (x2, _)) := mkOpRenameService x1 x2;
}.

Record OpAddRpc := mkOpAddRpc {
  ar_service_name : string;
  ar_rpc_name : string;
  ar_request_type : string;
  ar_response_type : string;
  ar_client_streaming : bool;
  ar_server_streaming : bool;
}.
#[export] Instance OpAddRpc_prost : ProstMessage OpAddRpc := {
  shape_of := [(1, KString); (2, KString); (3, KString); (4, KString); (5, KBool); (6, KBool)];
  to_fields o := (ar_service_name o, (ar_rpc_name o, (ar_request_type o, (ar_response_type o, (ar_client_streaming o, (ar_server_streaming o, tt))))));
  from_fields '(x1, (x2, (x3, (x4, (x5, (x6, _)))))) := mkOpAddRpc x1 x2 x3 x4 x5 x6;
}.

Record OpRemoveRpc := mkOpRemoveRpc {
  rrp_service_name : string;
  rrp_rpc_name : string;
}.
#[export] Instance OpRemoveRpc_prost : ProstMessage OpRemoveRpc := {
  shape_of := [(1, KString); (2, KString)];
  to_fields o := (rrp_service_name o, (rrp_rpc_name o, tt));
  from_fields '(x1, (x2, _)) := mkOpRemoveRpc x1 x2;
}.

Record OpRenameRpc := mkOpRenameRpc {
  rnr_service_name : string;
  rnr_old_rpc_name : string;
  rnr_new_rpc_name : string;
}.
#[export] Instance OpRenameRpc_prost : ProstMessage OpRenameRpc := {
  shape_of := [(1, KString); (2, KString); (3, KString)];
  to_fields o := (rnr_service_name o, (rnr_old_rpc_name o, (rnr_new_rpc_name o, tt)));
  from_fields '(x1, (x2, (x3, _))) := mkOpRenameRpc x1 x2 x3;
}.

Record OpChangeRpcType := mkOpChangeRpcType {
  crt_service_name : string;
  crt_rpc_name : string;
  crt_new_request_type : string;
  crt_new_response_type : string;
}.
#[export] Instance OpChangeRpcType_prost : ProstMessage OpChangeRpcType := {
  shape_of := [(1, KString); (2, KString); (3, KString); (4, KString)];
  to_fields o := (crt_service_name o, (crt_rpc_name o, (crt_new_request_type o, (crt_new_response_type o, tt))));
  from_fields '(x1, (x2, (x3, (x4, _)))) := mkOpChangeRpcType x1 x2 x3 x4;
}.

Record OpUpdateImport := mkOpUpdateImport {
  ui_import_path : string;
  ui_resolved_commit : string;
  ui_remove : bool;
}.
#[export] Instance OpUpdateImport_prost : ProstMessage OpUpdateImport := {
  shape_of := [(1, KString); (2, KString); (3, KBool)];
  to_fields o := (ui_import_path o, (ui_resolved_commit o, (ui_remove o, tt)));
  from_fields '(x1, (x2, (x3, _))) := mkOpUpdateImport x1 x2 x3;
}.

(** The wire envelope. *)
Record ProtoOperation := mkProtoOperation {
  po_tag : Z;
  po_payload : list byte;
}.
#[export] Instance ProtoOperation_prost : ProstMessage ProtoOperation := {
  shape_of := [(1, KUint32); (2, KBytes)];
  to_fields o := (po_tag o, (po_payload o, tt));
  from_fields '(x1, (x2, _)) := mkProtoOperation x1 x2;
}.

(** ** Tags *)

Definition ADD_FIELD : Z := 1.
Definition REMOVE_FIELD : Z := 2.
Definition RENAME_FIELD : Z := 3.
Definition CHANGE_FIELD_TYPE : Z := 4.
Definition CHANGE_CARDINALITY : Z := 5.
Definition REORDER_FIELDS : Z := 6.
Definition CHANGE_FIELD_NUMBER : Z := 7.
Definition CREATE_MESSAGE : Z := 10.
Definition RENAME_MESSAGE : Z := 11.
Definition DELETE_MESSAGE : Z := 12.
Definition CREATE_ENUM : Z := 20.
Definition DELETE_ENUM : Z := 21.
Definition ADD_ENUM_VALUE : Z := 22.
Definition REMOVE_ENUM_VALUE : Z := 23.
Definition RENAME_ENUM_VALUE : Z := 24.
Definition ADD_SERVICE : Z := 30.
Definition REMOVE_SERVICE : Z := 31.
Definition RENAME_SERVICE : Z := 32.
Definition ADD_RPC : Z := 33.
Definition REMOVE_RPC : Z := 34.
Definition RENAME_RPC : Z := 35.
Definition CHANGE_RPC_TYPE : Z := 36.
Definition UPDATE_IMPORT : Z := 40.

(** ** Operations *)

Inductive ProtoOp :=
  | AddField (o : OpAddField)
  | RemoveField (o : OpRemoveField)
  | RenameField (o : OpRenameField)
  | ChangeFieldType (o : OpChangeFieldType)
  | ChangeCardinality (o : OpChangeCardinality)
  | ReorderFields (o : OpReorderFields)
  | ChangeFieldNumber (o : OpChangeFieldNumber)
  | CreateMessage (o : OpCreateMessage)
  | RenameMessage (o : OpRenameMessage)
  | DeleteMessage (o : OpDeleteMessage)
  | CreateEnum (o : OpCreateEnum)
  | DeleteEnum (o : OpDeleteEnum)
  | AddEnumValue (o : OpAddEnumValue)
  | RemoveEnumValue (o : OpRemoveEnumValue)
  | RenameEnumValue (o : OpRenameEnumValue)
  | AddService (o : OpAddService)
  | RemoveService (o : OpRemoveService)
  | RenameService (o : OpRenameService)
  | AddRpc (o : OpAddRpc)
  | RemoveRpc (o : OpRemoveRpc)
  | RenameRpc (o : OpRenameRpc)
  | ChangeRpcType (o : OpChangeRpcType)
  | UpdateImport (o : OpUpdateImport).

Section Operations.
Context {P : Prost}.

Definition tag_and_payload (op : ProtoOp) : Z * list byte :=
  match op with
  | AddField o => (ADD_FIELD, encode_to_vec o)
  | RemoveField o => (REMOVE_FIELD, encode_to_vec o)
  | RenameField o => (RENAME_FIELD, encode_to_vec o)
  | ChangeFieldType o => (CHANGE_FIELD_TYPE, encode_to_vec o)
  | ChangeCardinality o => (CHANGE_CARDINALITY, encode_to_vec o)
  | ReorderFields o => (REORDER_FIELDS, encode_to_vec o)
  | ChangeFieldNumber o => (CHANGE_FIELD_NUMBER, encode_to_vec o)
  | CreateMessage o => (CREATE_MESSAGE, encode_to_vec o)
  | RenameMessage o => (RENAME_MESSAGE, encode_to_vec o)
  | DeleteMessage o => (DELETE_MESSAGE, encode_to_vec o)
  | CreateEnum o => (CREATE_ENUM, encode_to_vec o)
  | DeleteEnum o => (DELETE_ENUM, encode_to_vec o)
  | AddEnumValue o => (ADD_ENUM_VALUE, encode_to_vec o)
  | RemoveEnumValue o => (REMOVE_ENUM_VALUE, encode_to_vec o)
  | RenameEnumValue o => (RENAME_ENUM_VALUE, encode_to_vec o)
  | AddService o => (ADD_SERVICE, encode_to_vec o)
  | RemoveService o => (REMOVE_SERVICE, encode_to_vec o)
  | RenameService o => (RENAME_SERVICE, encode_to_vec o)
  | AddRpc o => (ADD_RPC, encode_to_vec o)
  | RemoveRpc o => (REMOVE_RPC, encode_to_vec o)
  | RenameRpc o => (RENAME_RPC, encode_to_vec o)
  | ChangeRpcType o => (CHANGE_RPC_TYPE, encode_to_vec o)
  | UpdateImport o => (UPDATE_IMPORT, encode_to_vec o)
  end.

Definition encode (op : ProtoOp) : list byte :=
  let '(tag, payload) := tag_and_payload op in encode_to_vec (mkProtoOperation tag payload).

Definition bad {A} : outcome string A → outcome MutationError A := map_err InvalidOperationBytes.

Definition decode (bytes : list byte) : outcome MutationError ProtoOp :=
  env ← bad (decode_message bytes);
  let p := po_payload env in
  let tag := po_tag env in
  if tag =? ADD_FIELD then AddField <$> bad (decode_message p)
  else if tag =? REMOVE_FIELD then RemoveField <$> bad (decode_message p)
  else if tag =? RENAME_FIELD then RenameField <$> bad (decode_message p)
  else if tag =? CHANGE_FIELD_TYPE then ChangeFieldType <$> bad (decode_message p)
  else if tag =? CHANGE_CARDINALITY then ChangeCardinality <$> bad (decode_message p)
  else if tag =? REORDER_FIELDS then ReorderFields <$> bad (decode_message p)
  else if tag =? CHANGE_FIELD_NUMBER then ChangeFieldNumber <$> bad (decode_message p)
  else if tag =? CREATE_MESSAGE then CreateMessage <$> bad (decode_message p)
  else if tag =? RENAME_MESSAGE then RenameMessage <$> bad (decode_message p)
  else if tag =? DELETE_MESSAGE then DeleteMessage <$> bad (decode_message p)
  else if tag =? CREATE_ENUM then CreateEnum <$> bad (decode_message p)
  else if tag =? DELETE_ENUM then DeleteEnum <$> bad (decode_message p)
  else if tag =? ADD_ENUM_VALUE then AddEnumValue <$> bad (decode_message p)
  else if tag =? REMOVE_ENUM_VALUE then RemoveEnumValue <$> bad (decode_message p)
  else if tag =? RENAME_ENUM_VALUE then RenameEnumValue <$> bad (decode_message p)
  else if tag =? ADD_SERVICE then AddService <$> bad (decode_message p)
  else if tag =? REMOVE_SERVICE then RemoveService <$> bad (decode_message p)
  else if tag =? RENAME_SERVICE then RenameService <$> bad (decode_message p)
  else if tag =? ADD_RPC then AddRpc <$> bad (decode_message p)
  else if tag =? REMOVE_RPC then RemoveRpc <$> bad (decode_message p)
  else if tag =? RENAME_RPC then RenameRpc <$> bad (decode_message p)
  else if tag =? CHANGE_RPC_TYPE then ChangeRpcType <$> bad (decode_message p)
  else if tag =? UPDATE_IMPORT then UpdateImport <$> bad (decode_message p)
  else Err (InvalidOperationBytes ("unknown op tag: " +:+ fmt_Z tag)).

(** ** Round trip *)

(** The strings are UTF-8, the integers fit their types, and the payload can be
    allocated. *)
Definition op_wf (op : ProtoOp) : Prop :=
  match op with
  | AddField o => message_wf o
  | RemoveField o => message_wf o
  | RenameField o => message_wf o
  | ChangeFieldType o => message_wf o
  | ChangeCardinality o => message_wf o
  | ReorderFields o => message_wf o
  | ChangeFieldNumber o => message_wf o
  | CreateMessage o => message_wf o
  | RenameMessage o => message_wf o
  | DeleteMessage o => message_wf o
  | CreateEnum o => message_wf o
  | DeleteEnum o => message_wf o
  | AddEnumValue o => message_wf o
  | RemoveEnumValue o => message_wf o
  | RenameEnumValue o => message_wf o
  | AddService o => message_wf o
  | RemoveService o => message_wf o
  | RenameService o => message_wf o
  | AddRpc o => message_wf o
  | RemoveRpc o => message_wf o
  | RenameRpc o => message_wf o
  | ChangeRpcType o => message_wf o
  | UpdateImport o => message_wf o
  end ∧ fits_vec (tag_and_payload op).2 ∧ fits_vec (encode op).

Lemma decode_message_encode_to_vec {T} `{!ProstLaws P, ProstMessage T} (x : T) :
  from_fields (to_fields x) = x → message_wf x → fits_vec (encode_to_vec x) →
  decode_message (encode_to_vec x) = Ok x.
Proof.
  intros Hx Hwf Hlen. unfold decode_message, encode_to_vec.
  rewrite prost_decode_encode by done. simpl. by rewrite Hx.
Qed.

Lemma decode_envelope `{!ProstLaws P} tag payload :
  in_u32 tag → fits_vec (encode_to_vec (mkProtoOperation tag payload)) →
  decode_message (encode_to_vec (mkProtoOperation tag payload)) =
    Ok (mkProtoOperation tag payload).
Proof. intros Htag Hlen. by apply decode_message_encode_to_vec. Qed.

Lemma decode_encode `{!ProstLaws P} op : op_wf op → decode (encode op) = Ok op.
Proof.
  intros (Hwf & Hp & He). unfold encode in *. unfold decode.
  destruct op as [o|o|o|o|o|o|o|o|o|o|o|o|o|o|o|o|o|o|o|o|o|o|o]; cbn [tag_and_payload fst snd] in *;
    (rewrite decode_envelope; [|vm_compute; split; congruence|done]); cbn;
    by rewrite decode_message_encode_to_vec by (done || by destruct o).
Qed.

(** Every mutation operation whose strings are UTF-8 and whose integers
    fit their Rust types is recovered from its envelope bytes. *)
Theorem op_envelope_roundtrip (L : ProstLaws P) (op : ProtoOp) :
  op_wf op → decode (encode op) = Ok op.
Proof. apply decode_encode. Qed.

(** An envelope whose tag is not one of the 23 operation tags is rejected
    with the tag in the error. *)
Theorem unknown_tag_rejected (L : ProstLaws P) (tag : Z) (payload : list byte) :
  in_u32 tag → fits_vec (encode_to_vec (mkProtoOperation tag payload)) →
  tag ∉ [ADD_FIELD; REMOVE_FIELD; RENAME_FIELD; CHANGE_FIELD_TYPE; CHANGE_CARDINALITY; REORDER_FIELDS; CHANGE_FIELD_NUMBER; CREATE_MESSAGE; RENAME_MESSAGE; DELETE_MESSAGE; CREATE_ENUM; DELETE_ENUM; ADD_ENUM_VALUE; REMOVE_ENUM_VALUE; RENAME_ENUM_VALUE; ADD_SERVICE; REMOVE_SERVICE; RENAME_SERVICE; ADD_RPC; REMOVE_RPC; RENAME_RPC; CHANGE_RPC_TYPE; UPDATE_IMPORT] →
  decode (encode_to_vec (mkProtoOperation tag payload)) =
    Err (InvalidOperationBytes ("unknown op tag: " +:+ fmt_Z tag)).
Proof.
  intros Htag Hlen Hnot. unfold decode. rewrite decode_envelope by done. cbn.
  rewrite !not_elem_of_cons in Hnot.
  repeat (rewrite (proj2 (Z.eqb_neq _ _)) by tauto). done.
Qed.

End Operations.

(** ** A concrete [Prost] *)

(** A field-by-field encoding with the primitives of [Codec], which satisfies
    the law. *)
Definition model_write (k : prost_kind) : prost_value k → Writer :=
  match k with
  | KString => write_str
  | KUint32 => write_uvarint
  | KInt32 => write_ivarint
  | KBool => write_bool
  | KBytes => write_bytes
  | KStrings => write_str_vec
  end.

Definition model_read (k : prost_kind) : Decoder (prost_value k) :=
  match k with
  | KString => read_str
  | KUint32 => read_uvarint
  | KInt32 => v ← read_ivarint; mret (wrap_i32 v)
  | KBool => read_bool
  | KBytes => read_bytes
  | KStrings => read_str_vec
  end.

Fixpoint model_encode (sh : prost_shape) : prost_fields sh → Writer :=
  match sh with
  | [] => λ _, []
  | (_, k) :: sh => λ v, model_write k v.1 ++ model_encode sh v.2
  end.

Fixpoint model_decode (sh : prost_shape) : Decoder (prost_fields sh) :=
  match sh with
  | [] => mret tt
  | (_, k) :: sh => v ← model_read k; vs ← model_decode sh; mret (v, vs)
  end.

#[export] Instance model_prost : Prost := {
  prost_encode := model_encode;
  prost_decode sh bs :=
    fst <$> map_err (λ _, "failed to decode Protobuf message"%string) (model_decode sh (reader_new bs));
}.

Lemma decodes_model_value k v : prost_value_wf k v → decodes (model_read k) (model_write k v) v.
Proof.
  destruct k; simpl; intros Hv; auto using decodes_str, decodes_i32, decodes_bool, decodes_bytes, decodes_str_vec.
  apply decodes_uvarint. unfold in_u64, in_u32 in *. lia.
Qed.

Lemma decodes_model_fields sh v : prost_fields_wf sh v → decodes (model_decode sh) (model_encode sh v) v.
Proof.
  induction sh as [|[t k] sh IH]; simpl.
  - intros _. destruct v. apply decodes_ret.
  - destruct v as [v vs]. intros [Hv Hvs]. eapply decodes_bind; [by apply decodes_model_value|].
    eapply decodes_last. by apply IH.
Qed.

#[export] Instance model_prost_laws : ProstLaws model_prost.
Proof.
  intros sh v Hwf Hlen. simpl.
  by destruct (decodes_top _ _ v (decodes_model_fields sh v Hwf) Hlen) as [r ->].
Qed.

(** ** Witnesses *)

Definition sample_op : ProtoOp := AddField (mkOpAddField "User" "email" "string" 7 "optional").

Lemma sample_op_wf : op_wf sample_op.
Proof. repeat split; vm_compute; congruence. Qed.

Lemma op_envelope_roundtrip_witness : decode (encode sample_op) = Ok sample_op.
Proof. apply (op_envelope_roundtrip model_prost_laws). apply sample_op_wf. Defined.

Lemma unknown_tag_rejected_witness :
  decode (encode_to_vec (mkProtoOperation 9 [])) =
    Err (InvalidOperationBytes ("unknown op tag: " +:+ fmt_Z 9)).
Proof.
  apply (unknown_tag_rejected model_prost_laws).
  - vm_compute; split; congruence.
  - vm_compute; congruence.
  - apply (bool_decide_eq_true_1 (9 ∉ _)). vm_compute. reflexivity.
Defined.
