(* ===== verification/Mutations.v ===== *)
(** * Mutations: granular edits of a protobuf schema

    [crates/schemahub-compiler-protobuf/src/mutations.rs]: the working state a
    schema is loaded into, one definition per operation, and [apply_one] and
    [apply_many], which turn a batch of operations into a [MutationEffect].

    A method that takes [&mut self] and returns [Result<(), MutationError>] is a
    function from the state to [outcome MutationError WorkingState]: the callers
    drop the state when an operation fails, so a partial update is never
    observed. Arithmetic wraps as in a release build. *)
From S2P Require Import Prelude RustStd SchemaTypes ProtoSchema Codec DescriptorCodec DescriptorCodecLaws Blob Compat Operations.
From Stdlib Require Import Ascii.

Open Scope Z_scope.

Section Mutations.
Context {PS : ProtocSchema} {RF : RustFmt} {P : Prost}.

(** ** Record updates *)

Definition dp_with_name (m : DescriptorProto) (n : option string) : DescriptorProto :=
  mkDescriptorProto n (dp_field m) (dp_extension m) (dp_nested_type m) (dp_enum_type m)
    (dp_extension_range m) (dp_oneof_decl m) (dp_options m) (dp_reserved_range m)
    (dp_reserved_name m) (dp_visibility m) (dp_source_span m).

Definition dp_with_field (m : DescriptorProto) (l : list FieldDescriptorProto) : DescriptorProto :=
  mkDescriptorProto (dp_name m) l (dp_extension m) (dp_nested_type m) (dp_enum_type m)
    (dp_extension_range m) (dp_oneof_decl m) (dp_options m) (dp_reserved_range m)
    (dp_reserved_name m) (dp_visibility m) (dp_source_span m).

Definition dp_with_oneof_decl (m : DescriptorProto) (l : list OneofDescriptorProto) :
    DescriptorProto :=
  mkDescriptorProto (dp_name m) (dp_field m) (dp_extension m) (dp_nested_type m) (dp_enum_type m)
    (dp_extension_range m) l (dp_options m) (dp_reserved_range m)
    (dp_reserved_name m) (dp_visibility m) (dp_source_span m).

Definition dp_with_reserved (m : DescriptorProto) (r : list ReservedRange) (n : list string) :
    DescriptorProto :=
  mkDescriptorProto (dp_name m) (dp_field m) (dp_extension m) (dp_nested_type m) (dp_enum_type m)
    (dp_extension_range m) (dp_oneof_decl m) (dp_options m) r n (dp_visibility m)
    (dp_source_span m).

(** The three lists of fields and messages a renamed reference can be in. *)
Definition dp_with_members (m : DescriptorProto) (f e : list FieldDescriptorProto)
    (n : list DescriptorProto) : DescriptorProto :=
  mkDescriptorProto (dp_name m) f e n (dp_enum_type m)
    (dp_extension_range m) (dp_oneof_decl m) (dp_options m) (dp_reserved_range m)
    (dp_reserved_name m) (dp_visibility m) (dp_source_span m).

Definition fd_with_name (f : FieldDescriptorProto) (name json : option string) :
    FieldDescriptorProto :=
  mkFieldDescriptorProto name (fd_number f) (fd_label f) (fd_type f) (fd_type_name f)
    (fd_extendee f) (fd_default_value f) (fd_oneof_index f) json (fd_options f)
    (fd_proto3_optional f) (fd_source_span f).

Definition fd_with_type (f : FieldDescriptorProto) (t : option FieldType) (tn : option string) :
    FieldDescriptorProto :=
  mkFieldDescriptorProto (fd_name f) (fd_number f) (fd_label f) t tn
    (fd_extendee f) (fd_default_value f) (fd_oneof_index f) (fd_json_name f) (fd_options f)
    (fd_proto3_optional f) (fd_source_span f).

Definition fd_with_label (f : FieldDescriptorProto) (l : option FieldLabel) (p3 : option bool) :
    FieldDescriptorProto :=
  mkFieldDescriptorProto (fd_name f) (fd_number f) l (fd_type f) (fd_type_name f)
    (fd_extendee f) (fd_default_value f) (fd_oneof_index f) (fd_json_name f) (fd_options f)
    p3 (fd_source_span f).

Definition fd_with_refs (f : FieldDescriptorProto) (tn ext : option string) :
    FieldDescriptorProto :=
  mkFieldDescriptorProto (fd_name f) (fd_number f) (fd_label f) (fd_type f) tn
    ext (fd_default_value f) (fd_oneof_index f) (fd_json_name f) (fd_options f)
    (fd_proto3_optional f) (fd_source_span f).

Definition fd_with_default_value (f : FieldDescriptorProto) (d : option string) :
    FieldDescriptorProto :=
  mkFieldDescriptorProto (fd_name f) (fd_number f) (fd_label f) (fd_type f) (fd_type_name f)
    (fd_extendee f) d (fd_oneof_index f) (fd_json_name f) (fd_options f)
    (fd_proto3_optional f) (fd_source_span f).

Definition ed_with_value (e : EnumDescriptorProto) (v : list EnumValueDescriptorProto) :
    EnumDescriptorProto :=
  mkEnumDescriptorProto (ed_name e) v (ed_options e) (ed_reserved_range e) (ed_reserved_name e)
    (ed_visibility e) (ed_source_span e).

Definition ed_with_reserved (e : EnumDescriptorProto) (r : list EnumReservedRange)
    (n : list string) : EnumDescriptorProto :=
  mkEnumDescriptorProto (ed_name e) (ed_value e) (ed_options e) r n (ed_visibility e)
    (ed_source_span e).

Definition ev_with_name (v : EnumValueDescriptorProto) (n : option string) :
    EnumValueDescriptorProto :=
  mkEnumValueDescriptorProto n (ev_number v) (ev_options v) (ev_source_span v).

Definition sd_with_name (s : ServiceDescriptorProto) (n : option string) :
    ServiceDescriptorProto :=
  mkServiceDescriptorProto n (sd_method s) (sd_options s).

Definition sd_with_method (s : ServiceDescriptorProto) (l : list MethodDescriptorProto) :
    ServiceDescriptorProto :=
  mkServiceDescriptorProto (sd_name s) l (sd_options s).

Definition md_with_name (m : MethodDescriptorProto) (n : option string) : MethodDescriptorProto :=
  mkMethodDescriptorProto n (md_input_type m) (md_output_type m) (md_options m)
    (md_client_streaming m) (md_server_streaming m).

Definition md_with_types (m : MethodDescriptorProto) (i o : option string) :
    MethodDescriptorProto :=
  mkMethodDescriptorProto (md_name m) i o (md_options m)
    (md_client_streaming m) (md_server_streaming m).

Definition mp_with_orders (m : MetaPayload) (mo eo so : list string) : MetaPayload :=
  mkMetaPayload (mp_name m) (mp_package m) (mp_dependency m) (mp_public_dependency m)
    (mp_weak_dependency m) (mp_option_dependency m) (mp_options m) (mp_syntax m) (mp_edition m)
    (mp_source_code_info m) mo eo so (mp_extension m) (mp_dependency_commit m).

Definition mp_with_imports (m : MetaPayload) (d : list string) (pub weak : list Z)
    (pins : list string) : MetaPayload :=
  mkMetaPayload (mp_name m) (mp_package m) d pub weak (mp_option_dependency m) (mp_options m)
    (mp_syntax m) (mp_edition m) (mp_source_code_info m) (mp_message_order m) (mp_enum_order m)
    (mp_service_order m) (mp_extension m) pins.

(** [..Default::default()] with only the name set. *)
Definition message_named (name : string) : DescriptorProto :=
  mkDescriptorProto (Some name) [] [] [] [] [] [] None [] [] None None.
Definition enum_named (name : string) : EnumDescriptorProto :=
  mkEnumDescriptorProto (Some name) [] None [] [] None None.
Definition service_named (name : string) : ServiceDescriptorProto :=
  mkServiceDescriptorProto (Some name) [] None.

(** ** The working state *)

Record WorkingState := mkWorkingState {
  messages : gmap string DescriptorProto;
  enums : gmap string EnumDescriptorProto;
  services : gmap string ServiceDescriptorProto;
  meta : MetaPayload;
  meta_dirty : bool;
  touched : gset string;
  removed : gset string;
  removed_enum_values : gset (string * string);
  defer_reference_integrity : bool;
}.

Definition with_messages (s : WorkingState) (m : gmap string DescriptorProto) : WorkingState :=
  mkWorkingState m (enums s) (services s) (meta s) (meta_dirty s) (touched s) (removed s)
    (removed_enum_values s) (defer_reference_integrity s).
Definition with_enums (s : WorkingState) (e : gmap string EnumDescriptorProto) : WorkingState :=
  mkWorkingState (messages s) e (services s) (meta s) (meta_dirty s) (touched s) (removed s)
    (removed_enum_values s) (defer_reference_integrity s).
Definition with_services (s : WorkingState) (v : gmap string ServiceDescriptorProto) :
    WorkingState :=
  mkWorkingState (messages s) (enums s) v (meta s) (meta_dirty s) (touched s) (removed s)
    (removed_enum_values s) (defer_reference_integrity s).
(** A write to [meta]; the flag is the new value of [meta_dirty]. *)
Definition with_meta (s : WorkingState) (m : MetaPayload) (dirty : bool) : WorkingState :=
  mkWorkingState (messages s) (enums s) (services s) m dirty (touched s) (removed s)
    (removed_enum_values s) (defer_reference_integrity s).
Definition with_tracking (s : WorkingState) (t r : gset string) : WorkingState :=
  mkWorkingState (messages s) (enums s) (services s) (meta s) (meta_dirty s) t r
    (removed_enum_values s) (defer_reference_integrity s).
Definition with_removed_enum_values (s : WorkingState) (v : gset (string * string)) :
    WorkingState :=
  mkWorkingState (messages s) (enums s) (services s) (meta s) (meta_dirty s) (touched s)
    (removed s) v (defer_reference_integrity s).

(** One declaration read into the working state. *)
Definition load_decl (s : WorkingState) (name : string) (p : DeclPayload) : WorkingState :=
  match p with
  | PMessage m => with_messages s (<[name := m]> (messages s))
  | PEnum e => with_enums s (<[name := e]> (enums s))
  | PService v => with_services s (<[name := v]> (services s))
  end.

Fixpoint load_decls (s : WorkingState) (l : list (string * DeclBlob)) :
    outcome MutationError WorkingState :=
  match l with
  | [] => Ok s
  | (name, blob) :: l =>
    p ← map_err (λ e, MutMalformedBlob (fmt_blob_error e)) (decode_decl blob);
    load_decls (load_decl s name p) l
  end.

Definition empty_state (defer : bool) : WorkingState :=
  mkWorkingState ∅ ∅ ∅ meta_default false ∅ ∅ ∅ defer.

Definition load (schema : SchemaObjects) (defer : bool) : outcome MutationError WorkingState :=
  s ← load_decls (empty_state defer) (btree_iter (so_decls schema));
  m ← map_err (λ e, MutMalformedBlob (fmt_blob_error e)) (decode_meta (so_meta schema));
  Ok (with_meta s m false).

(** The declaration a name has, looked up in the order of [into_effect]. *)
Definition current_decl (s : WorkingState) (name : string) : option DeclPayload :=
  match messages s !! name with
  | Some m => Some (PMessage m)
  | None =>
    match enums s !! name with
    | Some e => Some (PEnum e)
    | None => PService <$> services s !! name
    end
  end.

Definition into_effect (s : WorkingState) (original : SchemaObjects) : MutationEffect :=
  mkMutationEffect
    (if meta_dirty s then Some (encode_meta (meta s)) else None)
    (omap (λ name,
       if bool_decide (name ∈ removed s) then None
       else (λ p, (name, encode_decl p)) <$> current_decl s name)
       (btree_set_iter (touched s)))
    (List.filter (λ n, bool_decide (is_Some (so_decls original !! n)))
       (btree_set_iter (removed s))).

Definition touch (s : WorkingState) (name : string) : WorkingState :=
  with_tracking s ({[ name ]} ∪ touched s) (removed s ∖ {[ name ]}).

(** [for name in touched { self.touch(&name) }]. *)
Definition touch_all (s : WorkingState) (names : list string) : WorkingState :=
  foldl touch s names.

(** [self.removed.insert(name); self.touched.remove(name)]. *)
Definition mark_removed (s : WorkingState) (name : string) : WorkingState :=
  with_tracking s (touched s ∖ {[ name ]}) ({[ name ]} ∪ removed s).

Definition message_mut (s : WorkingState) (name : string) : outcome MutationError DescriptorProto :=
  ok_or (messages s !! name) (DeclarationNotFound name).
Definition enum_mut (s : WorkingState) (name : string) : outcome MutationError EnumDescriptorProto :=
  ok_or (enums s !! name) (DeclarationNotFound name).
Definition service_mut (s : WorkingState) (name : string) :
    outcome MutationError ServiceDescriptorProto :=
  ok_or (services s !! name) (DeclarationNotFound name).

Definition declaration_exists (s : WorkingState) (name : string) : bool :=
  bool_decide (is_Some (messages s !! name)) || bool_decide (is_Some (enums s !! name))
  || bool_decide (is_Some (services s !! name)).

(** The write back of a declaration borrowed with [message_mut], [enum_mut] or
    [service_mut], followed by [touch]. *)
Definition store_message (s : WorkingState) (name : string) (m : DescriptorProto) : WorkingState :=
  touch (with_messages s (<[name := m]> (messages s))) name.
Definition store_enum (s : WorkingState) (name : string) (e : EnumDescriptorProto) : WorkingState :=
  touch (with_enums s (<[name := e]> (enums s))) name.
Definition store_service (s : WorkingState) (name : string) (v : ServiceDescriptorProto) :
    WorkingState :=
  touch (with_services s (<[name := v]> (services s))) name.

(** ** Helpers *)

Definition i32_MAX : Z := 2147483647.
Definition i32_MIN : Z := -2147483648.

Definition range_contains (r : ReservedRange) (number : Z) : bool :=
  (default i32_MAX (rr_start r) <=? number) && (number <? default i32_MIN (rr_end r)).

Definition is_number_reserved (msg : DescriptorProto) (number : Z) : bool :=
  existsb (λ r, range_contains r number) (dp_reserved_range msg).

Definition is_enum_number_reserved (e : EnumDescriptorProto) (number : Z) : bool :=
  existsb (λ r, (default i32_MAX (err_start r) <=? number) &&
                (number <=? default i32_MIN (err_end r))) (ed_reserved_range e).

Definition cardinality_to_label (card : string) :
    outcome MutationError (option FieldLabel * bool) :=
  if bool_decide (card = ""%string) || bool_decide (card = "singular"%string) then Ok (None, false)
  else if bool_decide (card = "optional"%string) then Ok (Some FL_Optional, true)
  else if bool_decide (card = "required"%string) then Ok (Some FL_Required, false)
  else if bool_decide (card = "repeated"%string) then Ok (Some FL_Repeated, false)
  else Err (InvalidOperation ("unknown cardinality '" +:+ card +:+ "'")).

Definition resolve_type (name : string) : option FieldType * option string :=
  match scalar_field_type name with
  | Some t => (Some t, None)
  | None => (Some FT_Message, Some name)
  end.

Definition rename_type_ref (type_ref old new : string) : option string :=
  let '(prefix, simple) :=
    match rfind_split "."%char type_ref with
    | Some (p, r) => (p, r)
    | None => (""%string, type_ref)
    end in
  if bool_decide (simple = old) then Some (prefix +:+ new)%string else None.

Definition type_ref_matches (type_ref target : string) : bool :=
  bool_decide (rsplit_next "."%char type_ref = target).

Definition opt_ref_matches (o : option string) (target : string) : bool :=
  match o with Some n => type_ref_matches n target | None => false end.

Definition field_references_type (f : FieldDescriptorProto) (target : string) : bool :=
  opt_ref_matches (fd_type_name f) target || opt_ref_matches (fd_extendee f) target.

Fixpoint message_references_type (m : DescriptorProto) (target : string) : bool :=
  existsb (λ f, field_references_type f target) (dp_field m ++ dp_extension m)
  || existsb (λ n, message_references_type n target) (dp_nested_type m).

Definition field_references_enum_value (f : FieldDescriptorProto) (enum_name value_name : string) :
    bool :=
  opt_ref_matches (fd_type_name f) enum_name
  && bool_decide (fd_default_value f = Some value_name).

Fixpoint message_references_enum_value (m : DescriptorProto) (enum_name value_name : string) :
    bool :=
  existsb (λ f, field_references_enum_value f enum_name value_name) (dp_field m ++ dp_extension m)
  || existsb (λ n, message_references_enum_value n enum_name value_name) (dp_nested_type m).

Definition service_references_type (v : ServiceDescriptorProto) (target : string) : bool :=
  existsb (λ m, opt_ref_matches (md_input_type m) target
                || opt_ref_matches (md_output_type m) target) (sd_method v).

Definition referenced_declaration_error (kind target : string) (references : list string) :
    MutationError :=
  InvalidOperation ("cannot delete " +:+ kind +:+ " '" +:+ target +:+ "': referenced by " +:+
                    join ", " references).

Definition referenced_enum_value_error (enum_name value_name : string)
    (references : list string) : MutationError :=
  InvalidOperation ("cannot remove enum value '" +:+ enum_name +:+ "." +:+ value_name +:+
                    "': referenced as a default by " +:+ join ", " references).

(** One reference rewritten in place, with the flag that it changed. *)
Definition rename_opt_ref (o : option string) (old new : string) : option string * bool :=
  match o with
  | Some r =>
    match rename_type_ref r old new with
    | Some renamed => (Some renamed, true)
    | None => (Some r, false)
    end
  | None => (None, false)
  end.

Definition rename_refs_in_field (old new : string) (f : FieldDescriptorProto) :
    FieldDescriptorProto * bool :=
  let '(tn, c1) := rename_opt_ref (fd_type_name f) old new in
  let '(ext, c2) := rename_opt_ref (fd_extendee f) old new in
  (fd_with_refs f tn ext, c1 || c2).

Fixpoint rename_refs_in_message (old new : string) (m : DescriptorProto) :
    DescriptorProto * bool :=
  let '(f, c1) := map_mut (rename_refs_in_field old new) (dp_field m) in
  let '(e, c2) := map_mut (rename_refs_in_field old new) (dp_extension m) in
  let '(n, c3) := map_mut (rename_refs_in_message old new) (dp_nested_type m) in
  (dp_with_members m f e n, c1 || c2 || c3).

Definition rename_enum_value_ref_in_field (enum_name old new : string)
    (f : FieldDescriptorProto) : FieldDescriptorProto * bool :=
  if field_references_enum_value f enum_name old then (fd_with_default_value f (Some new), true)
  else (f, false).

Fixpoint rename_enum_value_refs_in_message (enum_name old new : string) (m : DescriptorProto) :
    DescriptorProto * bool :=
  let '(f, c1) := map_mut (rename_enum_value_ref_in_field enum_name old new) (dp_field m) in
  let '(e, c2) := map_mut (rename_enum_value_ref_in_field enum_name old new) (dp_extension m) in
  let '(n, c3) := map_mut (rename_enum_value_refs_in_message enum_name old new) (dp_nested_type m) in
  (dp_with_members m f e n, c1 || c2 || c3).

Definition rename_refs_in_method (old new : string) (m : MethodDescriptorProto) :
    MethodDescriptorProto * bool :=
  let '(i, c1) := rename_opt_ref (md_input_type m) old new in
  let '(o, c2) := rename_opt_ref (md_output_type m) old new in
  (md_with_types m i o, c1 || c2).

Definition rename_refs_in_service (old new : string) (v : ServiceDescriptorProto) :
    ServiceDescriptorProto * bool :=
  let '(l, c) := map_mut (rename_refs_in_method old new) (sd_method v) in
  (sd_with_method v l, c).

Definition current_type_name (f : FieldDescriptorProto) : string :=
  match fd_type f with
  | Some t =>
    if bool_decide (t = FT_Message) || bool_decide (t = FT_Enum) || bool_decide (t = FT_Group)
    then rsplit_next "."%char (default ""%string (fd_type_name f))
    else proto_name t
  | None => default ""%string (fd_type_name f)
  end.

(** ** Reference queries *)

Definition references_to (s : WorkingState) (target : string) (skip_message : option string) :
    list string :=
  (List.filter (λ kv, negb (bool_decide (skip_message = Some kv.1))
                      && message_references_type kv.2 target) (btree_iter (messages s))).*1
  ++ (List.filter (λ kv, service_references_type kv.2 target) (btree_iter (services s))).*1
  ++ (if existsb (λ f, field_references_type f target) (mp_extension (meta s))
      then ["file extension"%string] else []).

Definition enum_value_references (s : WorkingState) (enum_name value_name : string) :
    list string :=
  (List.filter (λ kv, message_references_enum_value kv.2 enum_name value_name)
     (btree_iter (messages s))).*1
  ++ (if existsb (λ f, field_references_enum_value f enum_name value_name) (mp_extension (meta s))
      then ["file extension"%string] else []).

Definition validate_removed_references (s : WorkingState) : outcome MutationError unit :=
  for_each (λ name,
    let references := references_to s name (Some name) in
    fail_if (negb (bool_decide (references = [])))
      (referenced_declaration_error "declaration" name references))
    (btree_set_iter (removed s)) ≫= λ _,
  for_each (λ '(enum_name, value_name),
    let references := enum_value_references s enum_name value_name in
    fail_if (negb (bool_decide (references = [])))
      (referenced_enum_value_error enum_name value_name references))
    (btree_pair_iter (removed_enum_values s)).

(** ** Field operations *)

Definition field_named (name : string) (f : FieldDescriptorProto) : bool :=
  bool_decide (fd_name f = Some name).

Definition has_number (l : list FieldDescriptorProto) (number : Z) : bool :=
  existsb (λ f, bool_decide (fd_number f = Some number)) l.

Definition add_field (s : WorkingState) (o : OpAddField) : outcome MutationError WorkingState :=
  let number := wrap_i32 (af_field_number o) in
  msg ← message_mut s (af_message_name o);
  _ ← fail_if (has_number (dp_field msg) number) (FieldNumberConflict (af_field_number o));
  _ ← fail_if (is_number_reserved msg number) (FieldNumberReserved (af_field_number o));
  '(label, proto3_optional) ← cardinality_to_label (af_cardinality o);
  let '(ty, type_name) := resolve_type (af_field_type o) in
  let oneof_index :=
    if proto3_optional : bool then Some (wrap_i32 (Z.of_nat (length (dp_oneof_decl msg)))) else None in
  let msg' :=
    if proto3_optional then
      dp_with_oneof_decl msg
        (dp_oneof_decl msg ++ [mkOneofDescriptorProto (Some ("_" +:+ af_field_name o)) None])
    else msg in
  let field :=
    mkFieldDescriptorProto (Some (af_field_name o)) (Some number) label ty type_name None None
      oneof_index (Some (to_camel_case (af_field_name o))) None
      (if proto3_optional then Some true else None) None in
  Ok (store_message s (af_message_name o) (dp_with_field msg' (dp_field msg' ++ [field]))).

Definition remove_field (s : WorkingState) (o : OpRemoveField) :
    outcome MutationError WorkingState :=
  msg ← message_mut s (rf_message_name o);
  '(gone, rest) ← ok_or (take_first (field_named (rf_field_name o)) (dp_field msg))
                    (FieldNotFound (rf_message_name o) (rf_field_name o));
  let msg := dp_with_field msg rest in
  let ranges :=
    match fd_number gone with
    | Some num => dp_reserved_range msg ++ [mkReservedRange (Some num) (Some (wrap_i32 (num + 1)))]
    | None => dp_reserved_range msg
    end in
  let names :=
    match fd_name gone with
    | Some name => dp_reserved_name msg ++ [name]
    | None => dp_reserved_name msg
    end in
  Ok (store_message s (rf_message_name o) (dp_with_reserved msg ranges names)).

Definition rename_field (s : WorkingState) (o : OpRenameField) :
    outcome MutationError WorkingState :=
  msg ← message_mut s (rnf_message_name o);
  fields ← ok_or
    (update_first (field_named (rnf_old_field_name o))
       (λ f, fd_with_name f (Some (rnf_new_field_name o))
               (Some (to_camel_case (rnf_new_field_name o)))) (dp_field msg))
    (FieldNotFound (rnf_message_name o) (rnf_old_field_name o));
  Ok (store_message s (rnf_message_name o) (dp_with_field msg fields)).

Definition change_field_type (s : WorkingState) (o : OpChangeFieldType) :
    outcome MutationError WorkingState :=
  msg ← message_mut s (cft_message_name o);
  field ← ok_or (List.find (field_named (cft_field_name o)) (dp_field msg))
            (FieldNotFound (cft_message_name o) (cft_field_name o));
  let from := current_type_name field in
  let '(ty, type_name) := resolve_type (cft_new_type o) in
  _ ← map_err InvalidOperation
        (type_change_allowed_typed from (fd_type field) (cft_new_type o) ty);
  match update_first (field_named (cft_field_name o)) (λ f, fd_with_type f ty type_name)
          (dp_field msg) with
  | Some fields => Ok (store_message s (cft_message_name o) (dp_with_field msg fields))
  | None => Panic
  end.

Definition change_cardinality (s : WorkingState) (o : OpChangeCardinality) :
    outcome MutationError WorkingState :=
  '(label, proto3_optional) ← cardinality_to_label (cc_new_cardinality o);
  msg ← message_mut s (cc_message_name o);
  fields ← ok_or
    (update_first (field_named (cc_field_name o))
       (λ f, fd_with_label f label (if proto3_optional : bool then Some true else None))
       (dp_field msg))
    (FieldNotFound (cc_message_name o) (cc_field_name o));
  Ok (store_message s (cc_message_name o) (dp_with_field msg fields)).

(** The loop of [reorder_fields]: each listed name takes its field out of the
    map. *)
Fixpoint take_in_order (by_name : gmap string FieldDescriptorProto) (order : list string) :
    list FieldDescriptorProto :=
  match order with
  | [] => []
  | name :: order =>
    match by_name !! name with
    | Some f => f :: take_in_order (delete name by_name) order
    | None => take_in_order by_name order
    end
  end.

Definition reorder_fields (s : WorkingState) (o : OpReorderFields) :
    outcome MutationError WorkingState :=
  msg ← message_mut s (ro_message_name o);
  let existing : gset string := list_to_set (omap fd_name (dp_field msg)) in
  let wanted : gset string := list_to_set (ro_field_order o) in
  _ ← fail_if (negb (bool_decide (existing = wanted)))
        (InvalidOperation "ReorderFields: new order must list exactly the existing fields");
  let by_name := collect_map ((λ f, (default ""%string (fd_name f), f)) <$> dp_field msg) in
  Ok (store_message s (ro_message_name o)
        (dp_with_field msg (take_in_order by_name (ro_field_order o)))).

(** ** Message operations *)

Definition create_message (s : WorkingState) (o : OpCreateMessage) :
    outcome MutationError WorkingState :=
  let name := cm_message_name o in
  _ ← fail_if (declaration_exists s name)
        (InvalidOperation ("message '" +:+ name +:+ "' already exists"));
  let s := with_messages s (<[name := message_named name]> (messages s)) in
  let m := meta s in
  let s := with_meta s (mp_with_orders m (mp_message_order m ++ [name]) (mp_enum_order m)
                          (mp_service_order m)) true in
  Ok (touch s name).

(** [for name in &mut order { if name == old { *name = new; .. } }]. *)
Definition rename_in_order (old new : string) (order : list string) : list string * bool :=
  map_mut (λ n, if bool_decide (n = old) then (new, true) else (n, false)) order.

Definition rename_message (s : WorkingState) (o : OpRenameMessage) :
    outcome MutationError WorkingState :=
  let old := rm_old_name o in
  let new := rm_new_name o in
  _ ← fail_if (negb (bool_decide (old = new)) && declaration_exists s new)
        (InvalidOperation ("cannot rename message '" +:+ old +:+ "' to '" +:+ new +:+
                           "': target already exists"));
  m ← ok_or (messages s !! old) (DeclarationNotFound old);
  let m := (rename_refs_in_message old new (dp_with_name m (Some new))).1 in
  let s := with_messages s (<[new := m]> (delete old (messages s))) in
  let s := touch (mark_removed s old) new in
  let '(msgs, changed) :=
    btree_map_mut (λ name msg, if bool_decide (name = new) then (msg, false)
                               else rename_refs_in_message old new msg) (messages s) in
  let s := touch_all (with_messages s msgs) changed in
  let '(svcs, changed) :=
    btree_map_mut (λ _ svc, rename_refs_in_service old new svc) (services s) in
  let s := touch_all (with_services s svcs) changed in
  let '(ext, c1) := map_mut (rename_refs_in_field old new) (mp_extension (meta s)) in
  let '(order, c2) := rename_in_order old new (mp_message_order (meta s)) in
  let m := with_extension (meta s) ext in
  Ok (with_meta s (mp_with_orders m order (mp_enum_order m) (mp_service_order m))
        (if c1 || c2 then true else meta_dirty s)).

Definition delete_message (s : WorkingState) (o : OpDeleteMessage) :
    outcome MutationError WorkingState :=
  let name := dm_message_name o in
  _ ← message_mut s name;
  let references := references_to s name (Some name) in
  _ ← fail_if (negb (defer_reference_integrity s) && negb (bool_decide (references = [])))
        (referenced_declaration_error "message" name references);
  let s := with_messages s (delete name (messages s)) in
  let m := meta s in
  let s := with_meta s
    (mp_with_orders m (retain (λ n, negb (bool_decide (n = name))) (mp_message_order m))
       (mp_enum_order m) (mp_service_order m)) true in
  Ok (mark_removed s name).

(** ** Enum operations *)

Definition create_enum (s : WorkingState) (o : OpCreateEnum) :
    outcome MutationError WorkingState :=
  let name := ce_enum_name o in
  _ ← fail_if (declaration_exists s name)
        (InvalidOperation ("enum '" +:+ name +:+ "' already exists"));
  let s := with_enums s (<[name := enum_named name]> (enums s)) in
  let m := meta s in
  let s := with_meta s (mp_with_orders m (mp_message_order m) (mp_enum_order m ++ [name])
                          (mp_service_order m)) true in
  Ok (touch s name).

Definition delete_enum (s : WorkingState) (o : OpDeleteEnum) :
    outcome MutationError WorkingState :=
  let name := de_enum_name o in
  _ ← enum_mut s name;
  let references := references_to s name None in
  _ ← fail_if (negb (defer_reference_integrity s) && negb (bool_decide (references = [])))
        (referenced_declaration_error "enum" name references);
  let s := with_enums s (delete name (enums s)) in
  let m := meta s in
  let s := with_meta s
    (mp_with_orders m (mp_message_order m)
       (retain (λ n, negb (bool_decide (n = name))) (mp_enum_order m)) (mp_service_order m)) true in
  Ok (mark_removed s name).

Definition value_named (name : string) (v : EnumValueDescriptorProto) : bool :=
  bool_decide (ev_name v = Some name).

Definition allow_alias (e : EnumDescriptorProto) : bool :=
  default false (ed_options e ≫= eo_allow_alias).

Definition add_enum_value (s : WorkingState) (o : OpAddEnumValue) :
    outcome MutationError WorkingState :=
  let proto3 := bool_decide (mp_syntax (meta s) = Some "proto3"%string) in
  e ← enum_mut s (aev_enum_name o);
  _ ← fail_if (existsb (value_named (aev_value_name o)) (ed_value e))
        (InvalidOperation ("enum value '" +:+ aev_value_name o +:+ "' already exists"));
  _ ← fail_if (existsb (λ n, bool_decide (n = aev_value_name o)) (ed_reserved_name e))
        (InvalidOperation ("enum value name '" +:+ aev_value_name o +:+ "' is reserved"));
  _ ← fail_if (is_enum_number_reserved e (aev_number o))
        (InvalidOperation ("enum value number " +:+ fmt_Z (aev_number o) +:+ " is reserved"));
  _ ← fail_if (existsb (λ v, bool_decide (ev_number v = Some (aev_number o))) (ed_value e)
               && negb (allow_alias e))
        (InvalidOperation ("enum value number " +:+ fmt_Z (aev_number o) +:+
                           " already in use (allow_alias not set)"));
  _ ← fail_if (proto3 && bool_decide (ed_value e = []) && negb (aev_number o =? 0))
        (InvalidOperation ("the first value in proto3 enum '" +:+ aev_enum_name o +:+
                           "' must use number 0"));
  Ok (store_enum s (aev_enum_name o)
        (ed_with_value e (ed_value e ++ [mkEnumValueDescriptorProto (Some (aev_value_name o))
                                           (Some (aev_number o)) None None]))).

Definition remove_enum_value (s : WorkingState) (o : OpRemoveEnumValue) :
    outcome MutationError WorkingState :=
  let references := enum_value_references s (rev_enum_name o) (rev_value_name o) in
  _ ← fail_if (negb (defer_reference_integrity s) && negb (bool_decide (references = [])))
        (referenced_enum_value_error (rev_enum_name o) (rev_value_name o) references);
  e ← enum_mut s (rev_enum_name o);
  '(gone, rest) ← ok_or (take_first (value_named (rev_value_name o)) (ed_value e))
                    (FieldNotFound (rev_enum_name o) (rev_value_name o));
  let e := ed_with_value e rest in
  let ranges :=
    match ev_number gone with
    | Some num => ed_reserved_range e ++ [mkEnumReservedRange (Some num) (Some num)]
    | None => ed_reserved_range e
    end in
  let names :=
    match ev_name gone with
    | Some name => ed_reserved_name e ++ [name]
    | None => ed_reserved_name e
    end in
  let s := with_removed_enum_values s
             ({[ (rev_enum_name o, rev_value_name o) ]} ∪ removed_enum_values s) in
  Ok (store_enum s (rev_enum_name o) (ed_with_reserved e ranges names)).

Definition rename_enum_value (s : WorkingState) (o : OpRenameEnumValue) :
    outcome MutationError WorkingState :=
  let old := rnev_old_value_name o in
  let new := rnev_new_value_name o in
  e ← enum_mut s (rnev_enum_name o);
  _ ← fail_if (existsb (value_named new) (ed_value e))
        (InvalidOperation ("enum value '" +:+ new +:+ "' already exists"));
  values ← ok_or (update_first (value_named old) (λ v, ev_with_name v (Some new)) (ed_value e))
             (FieldNotFound (rnev_enum_name o) old);
  let s := with_enums s (<[rnev_enum_name o := ed_with_value e values]> (enums s)) in
  let '(msgs, changed) :=
    btree_map_mut (λ _ msg, rename_enum_value_refs_in_message (rnev_enum_name o) old new msg)
      (messages s) in
  let s := touch_all (with_messages s msgs) changed in
  let '(ext, c) := map_mut (rename_enum_value_ref_in_field (rnev_enum_name o) old new)
                     (mp_extension (meta s)) in
  let s := with_meta s (with_extension (meta s) ext) (if c then true else meta_dirty s) in
  Ok (touch s (rnev_enum_name o)).

(** ** Service and RPC operations *)

Definition add_service (s : WorkingState) (o : OpAddService) :
    outcome MutationError WorkingState :=
  let name := asv_service_name o in
  _ ← fail_if (declaration_exists s name)
        (InvalidOperation ("service '" +:+ name +:+ "' already exists"));
  let s := with_services s (<[name := service_named name]> (services s)) in
  let m := meta s in
  let s := with_meta s (mp_with_orders m (mp_message_order m) (mp_enum_order m)
                          (mp_service_order m ++ [name])) true in
  Ok (touch s name).

Definition remove_service (s : WorkingState) (o : OpRemoveService) :
    outcome MutationError WorkingState :=
  let name := rs_service_name o in
  _ ← service_mut s name;
  let s := with_services s (delete name (services s)) in
  let m := meta s in
  let s := with_meta s
    (mp_with_orders m (mp_message_order m) (mp_enum_order m)
       (retain (λ n, negb (bool_decide (n = name))) (mp_service_order m))) true in
  Ok (mark_removed s name).

Definition rename_service (s : WorkingState) (o : OpRenameService) :
    outcome MutationError WorkingState :=
  let old := rns_old_name o in
  let new := rns_new_name o in
  _ ← fail_if (negb (bool_decide (old = new)) && declaration_exists s new)
        (InvalidOperation ("cannot rename service '" +:+ old +:+ "' to '" +:+ new +:+
                           "': target already exists"));
  v ← ok_or (services s !! old) (DeclarationNotFound old);
  let s := with_services s (<[new := sd_with_name v (Some new)]> (delete old (services s))) in
  let m := meta s in
  let s := with_meta s (mp_with_orders m (mp_message_order m) (mp_enum_order m)
                          (rename_in_order old new (mp_service_order m)).1) true in
  Ok (touch (mark_removed s old) new).

Definition method_named (name : string) (m : MethodDescriptorProto) : bool :=
  bool_decide (md_name m = Some name).

Definition add_rpc (s : WorkingState) (o : OpAddRpc) : outcome MutationError WorkingState :=
  v ← service_mut s (ar_service_name o);
  _ ← fail_if (existsb (method_named (ar_rpc_name o)) (sd_method v))
        (InvalidOperation ("rpc '" +:+ ar_rpc_name o +:+ "' already exists"));
  Ok (store_service s (ar_service_name o)
        (sd_with_method v
           (sd_method v ++ [mkMethodDescriptorProto (Some (ar_rpc_name o))
                              (Some (ar_request_type o)) (Some (ar_response_type o)) None
                              (Some (ar_client_streaming o)) (Some (ar_server_streaming o))]))).

Definition remove_rpc (s : WorkingState) (o : OpRemoveRpc) : outcome MutationError WorkingState :=
  v ← service_mut s (rrp_service_name o);
  '(_, rest) ← ok_or (take_first (method_named (rrp_rpc_name o)) (sd_method v))
                 (FieldNotFound (rrp_service_name o) (rrp_rpc_name o));
  Ok (store_service s (rrp_service_name o) (sd_with_method v rest)).

Definition rename_rpc (s : WorkingState) (o : OpRenameRpc) : outcome MutationError WorkingState :=
  v ← service_mut s (rnr_service_name o);
  _ ← fail_if (existsb (method_named (rnr_new_rpc_name o)) (sd_method v))
        (InvalidOperation ("rpc '" +:+ rnr_new_rpc_name o +:+ "' already exists"));
  l ← ok_or (update_first (method_named (rnr_old_rpc_name o))
               (λ m, md_with_name m (Some (rnr_new_rpc_name o))) (sd_method v))
        (FieldNotFound (rnr_service_name o) (rnr_old_rpc_name o));
  Ok (store_service s (rnr_service_name o) (sd_with_method v l)).

Definition change_rpc_type (s : WorkingState) (o : OpChangeRpcType) :
    outcome MutationError WorkingState :=
  v ← service_mut s (crt_service_name o);
  l ← ok_or (update_first (method_named (crt_rpc_name o))
               (λ m, md_with_types m
                  (if str_is_empty (crt_new_request_type o) then md_input_type m
                   else Some (crt_new_request_type o))
                  (if str_is_empty (crt_new_response_type o) then md_output_type m
                   else Some (crt_new_response_type o))) (sd_method v))
        (FieldNotFound (crt_service_name o) (crt_rpc_name o));
  Ok (store_service s (crt_service_name o) (sd_with_method v l)).

(** ** Imports *)

(** The re-indexing of [public_dependency] and [weak_dependency] after the
    import at [pos] is removed. *)
Definition reindex (pos : nat) (l : list Z) : list Z :=
  let pos := wrap_i32 (Z.of_nat pos) in
  map (λ i, if pos <? i then wrap_i32 (i - 1) else i) (retain (λ i, negb (i =? pos)) l).

Definition update_import_meta (m : MetaPayload) (o : OpUpdateImport) : MetaPayload :=
  let deps := mp_dependency m in
  let pins := resize (length deps) ""%string (mp_dependency_commit m) in
  let found := position (λ d, bool_decide (d = ui_import_path o)) deps in
  if ui_remove o then
    match found with
    | Some pos =>
      mp_with_imports m (vec_remove pos deps) (reindex pos (mp_public_dependency m))
        (reindex pos (mp_weak_dependency m)) (vec_remove pos pins)
    | None => mp_with_imports m deps (mp_public_dependency m) (mp_weak_dependency m) pins
    end
  else
    match found with
    | Some pos =>
      mp_with_imports m deps (mp_public_dependency m) (mp_weak_dependency m)
        (<[pos := ui_resolved_commit o]> pins)
    | None =>
      mp_with_imports m (deps ++ [ui_import_path o]) (mp_public_dependency m)
        (mp_weak_dependency m) (pins ++ [ui_resolved_commit o])
    end.

Definition update_import (s : WorkingState) (o : OpUpdateImport) :
    outcome MutationError WorkingState :=
  Ok (with_meta s (update_import_meta (meta s) o) true).

(** ** Dispatch *)

Definition apply (s : WorkingState) (op : ProtoOp) : outcome MutationError WorkingState :=
  match op with
  | AddField o => add_field s o
  | RemoveField o => remove_field s o
  | RenameField o => rename_field s o
  | ChangeFieldType o => change_field_type s o
  | ChangeCardinality o => change_cardinality s o
  | ReorderFields o => reorder_fields s o
  | ChangeFieldNumber _ =>
    Err (InvalidOperation "ChangeFieldNumber is always breaking and is rejected")
  | CreateMessage o => create_message s o
  | RenameMessage o => rename_message s o
  | DeleteMessage o => delete_message s o
  | CreateEnum o => create_enum s o
  | DeleteEnum o => delete_enum s o
  | AddEnumValue o => add_enum_value s o
  | RemoveEnumValue o => remove_enum_value s o
  | RenameEnumValue o => rename_enum_value s o
  | AddService o => add_service s o
  | RemoveService o => remove_service s o
  | RenameService o => rename_service s o
  | AddRpc o => add_rpc s o
  | RemoveRpc o => remove_rpc s o
  | RenameRpc o => rename_rpc s o
  | ChangeRpcType o => change_rpc_type s o
  | UpdateImport o => update_import s o
  end.

Definition apply_one (schema : SchemaObjects) (op : Mutation) :
    outcome MutationError MutationEffect :=
  parsed ← decode (mu_operation op);
  state ← load schema false;
  state ← apply state parsed;
  Ok (into_effect state schema).

Fixpoint apply_all (s : WorkingState) (ops : list Mutation) : outcome MutationError WorkingState :=
  match ops with
  | [] => Ok s
  | op :: ops =>
    parsed ← decode (mu_operation op);
    s ← apply s parsed;
    apply_all s ops
  end.

Definition apply_many (schema : SchemaObjects) (ops : list Mutation) :
    outcome MutationError MutationEffect :=
  state ← load schema true;
  state ← apply_all state ops;
  _ ← validate_removed_references state;
  Ok (into_effect state schema).

End Mutations.
