(* ===== verification/MutationTracking.v ===== *)
(** * MutationTracking: a mutation effect describes the final working state

    The working state of [Mutations] records which declarations it touched and
    removed. The invariant [Tracked] says that this record is complete relative
    to the schema the state was loaded from; every operation preserves it, and
    from it follow the theorems on [apply_one] and [apply_many]: applying their
    effect to the stored schema gives exactly the final state, and a batch
    leaves no reference to a declaration that it removed. *)
From S2P Require Import Prelude RustStd SchemaTypes ProtoSchema Codec DescriptorCodec DescriptorCodecLaws Blob Compat Effects Operations Mutations ProtocModel.

Open Scope Z_scope.

Section Tracking.
Context {PS : ProtocSchema} {RF : RustFmt} {P : Prost}.

(** ** The invariant *)

(** A name is declared as at most one of message, enum and service. *)
Definition kinds_disjoint (s : WorkingState) : Prop :=
  dom (messages s) ## dom (enums s) ∧ dom (messages s) ## dom (services s) ∧
  dom (enums s) ## dom (services s).

Record Tracked (orig : string → option DeclPayload) (orig_meta : MetaPayload)
    (s : WorkingState) : Prop := mkTracked {
  tr_kinds : kinds_disjoint s;
  tr_clean n : n ∉ touched s → n ∉ removed s → current_decl s n = orig n;
  tr_removed n : n ∈ removed s → current_decl s n = None;
  tr_touched n : n ∈ touched s → is_Some (current_decl s n);
  tr_meta : meta_dirty s = false → meta s = orig_meta;
}.

(** A state that differs in nothing the invariant looks at. *)
Lemma Tracked_ext orig om s s' :
  messages s' = messages s → enums s' = enums s → services s' = services s →
  touched s' = touched s → removed s' = removed s →
  (meta_dirty s' = false → meta_dirty s = false ∧ meta s' = meta s) →
  Tracked orig om s → Tracked orig om s'.
Proof.
  intros Hm He Hv Ht Hr Hmeta [T1 T2 T3 T4 T5].
  assert (∀ n, current_decl s' n = current_decl s n) as Hc
    by (intros n; unfold current_decl; by rewrite Hm, He, Hv).
  split.
  - unfold kinds_disjoint. by rewrite Hm, He, Hv.
  - intros n. rewrite Ht, Hr, Hc. apply T2.
  - intros n. rewrite Hr, Hc. apply T3.
  - intros n. rewrite Ht, Hc. apply T4.
  - intros [Hd ->]%Hmeta. by apply T5.
Qed.

(** Declaring or replacing the declaration [n]. *)
Lemma Tracked_put orig om s s' n p :
  Tracked orig om s → kinds_disjoint s' →
  (∀ k, current_decl s' k = if decide (k = n) then Some p else current_decl s k) →
  touched s' = {[ n ]} ∪ touched s → removed s' = removed s ∖ {[ n ]} →
  meta_dirty s' = meta_dirty s → meta s' = meta s →
  Tracked orig om s'.
Proof.
  intros [T1 T2 T3 T4 T5] Hk Hc Ht Hr Hd Hm. split; [done|..].
  - intros k. rewrite Ht, Hr, Hc. intros Hnt Hnr. rewrite decide_False by set_solver.
    apply T2; set_solver.
  - intros k. rewrite Hr, Hc. intros Hkr. rewrite decide_False by set_solver. apply T3. set_solver.
  - intros k. rewrite Ht, Hc. intros Hkt. case_decide; [by eexists|]. apply T4. set_solver.
  - by rewrite Hd, Hm.
Qed.

(** Removing the declaration [n]. *)
Lemma Tracked_drop orig om s s' n :
  Tracked orig om s → kinds_disjoint s' →
  (∀ k, current_decl s' k = if decide (k = n) then None else current_decl s k) →
  touched s' = touched s ∖ {[ n ]} → removed s' = {[ n ]} ∪ removed s →
  meta_dirty s' = meta_dirty s → meta s' = meta s →
  Tracked orig om s'.
Proof.
  intros [T1 T2 T3 T4 T5] Hk Hc Ht Hr Hd Hm. split; [done|..].
  - intros k. rewrite Ht, Hr, Hc. intros Hnt Hnr. rewrite decide_False by set_solver.
    apply T2; set_solver.
  - intros k. rewrite Hr, Hc. intros Hkr. case_decide; [done|]. apply T3. set_solver.
  - intros k. rewrite Ht, Hc. intros Hkt. rewrite decide_False by set_solver. apply T4. set_solver.
  - by rewrite Hd, Hm.
Qed.

(** ** Steps on one declaration *)

(** [n] can be stored as a message: it is one, or it is not declared. *)
Definition free_for_message (s : WorkingState) (n : string) : Prop :=
  n ∉ dom (enums s) ∧ n ∉ dom (services s).
Definition free_for_enum (s : WorkingState) (n : string) : Prop :=
  n ∉ dom (messages s) ∧ n ∉ dom (services s).
Definition free_for_service (s : WorkingState) (n : string) : Prop :=
  n ∉ dom (messages s) ∧ n ∉ dom (enums s).

Lemma declaration_exists_false s n :
  declaration_exists s n = false ↔
  n ∉ dom (messages s) ∧ n ∉ dom (enums s) ∧ n ∉ dom (services s).
Proof.
  unfold declaration_exists. rewrite !orb_false_iff, !bool_decide_eq_false, !not_elem_of_dom,
    !eq_None_not_Some. tauto.
Qed.

Lemma store_message_tracked orig om s n m :
  Tracked orig om s → free_for_message s n → Tracked orig om (store_message s n m).
Proof.
  intros T [He Hv]. apply (Tracked_put orig om s _ n (PMessage m)); try done.
  - destruct (tr_kinds _ _ _ T) as (K1 & K2 & K3). unfold kinds_disjoint. simpl.
    rewrite dom_insert. set_solver.
  - intros k. unfold current_decl. simpl. case_decide as Hk.
    + subst. by rewrite lookup_insert_eq.
    + by rewrite lookup_insert_ne.
Qed.

Lemma store_enum_tracked orig om s n e :
  Tracked orig om s → free_for_enum s n → Tracked orig om (store_enum s n e).
Proof.
  intros T [Hm Hv]. apply (Tracked_put orig om s _ n (PEnum e)); try done.
  - destruct (tr_kinds _ _ _ T) as (K1 & K2 & K3). unfold kinds_disjoint. simpl.
    rewrite dom_insert. set_solver.
  - intros k. unfold current_decl. simpl. apply not_elem_of_dom in Hm. case_decide as Hk.
    + subst. by rewrite Hm, lookup_insert_eq.
    + by rewrite lookup_insert_ne.
Qed.

Lemma store_service_tracked orig om s n v :
  Tracked orig om s → free_for_service s n → Tracked orig om (store_service s n v).
Proof.
  intros T [Hm He]. apply (Tracked_put orig om s _ n (PService v)); try done.
  - destruct (tr_kinds _ _ _ T) as (K1 & K2 & K3). unfold kinds_disjoint. simpl.
    rewrite dom_insert. set_solver.
  - intros k. unfold current_decl. simpl. apply not_elem_of_dom in Hm, He. case_decide as Hk.
    + subst. by rewrite Hm, He, lookup_insert_eq.
    + by rewrite lookup_insert_ne.
Qed.

Lemma drop_message_tracked orig om s n :
  Tracked orig om s → n ∈ dom (messages s) →
  Tracked orig om (mark_removed (with_messages s (delete n (messages s))) n).
Proof.
  intros T Hn. destruct (tr_kinds _ _ _ T) as (K1 & K2 & K3).
  apply (Tracked_drop orig om s _ n); try done.
  - unfold kinds_disjoint. simpl. rewrite dom_delete. set_solver.
  - intros k. unfold current_decl. simpl. case_decide as Hk.
    + subst. rewrite lookup_delete_eq.
      by rewrite (not_elem_of_dom_1 (enums s) n), (not_elem_of_dom_1 (services s) n) by set_solver.
    + by rewrite lookup_delete_ne.
Qed.

Lemma drop_enum_tracked orig om s n :
  Tracked orig om s → n ∈ dom (enums s) →
  Tracked orig om (mark_removed (with_enums s (delete n (enums s))) n).
Proof.
  intros T Hn. destruct (tr_kinds _ _ _ T) as (K1 & K2 & K3).
  apply (Tracked_drop orig om s _ n); try done.
  - unfold kinds_disjoint. simpl. rewrite dom_delete. set_solver.
  - intros k. unfold current_decl. simpl. case_decide as Hk.
    + subst. rewrite lookup_delete_eq.
      by rewrite (not_elem_of_dom_1 (messages s) n), (not_elem_of_dom_1 (services s) n) by set_solver.
    + by rewrite lookup_delete_ne.
Qed.

Lemma drop_service_tracked orig om s n :
  Tracked orig om s → n ∈ dom (services s) →
  Tracked orig om (mark_removed (with_services s (delete n (services s))) n).
Proof.
  intros T Hn. destruct (tr_kinds _ _ _ T) as (K1 & K2 & K3).
  apply (Tracked_drop orig om s _ n); try done.
  - unfold kinds_disjoint. simpl. rewrite dom_delete. set_solver.
  - intros k. unfold current_decl. simpl. case_decide as Hk.
    + subst. rewrite lookup_delete_eq.
      by rewrite (not_elem_of_dom_1 (messages s) n), (not_elem_of_dom_1 (enums s) n) by set_solver.
    + by rewrite lookup_delete_ne.
Qed.

(** ** Steps on many declarations *)

Lemma touch_all_spec s l :
  touch_all s l = with_tracking s (list_to_set l ∪ touched s) (removed s ∖ list_to_set l).
Proof.
  unfold touch_all. revert s. induction l as [|n l IH]; intros s; simpl.
  - destruct s. unfold with_tracking. simpl. f_equal; set_solver.
  - rewrite IH. unfold touch, with_tracking. simpl. f_equal; set_solver.
Qed.

(** Rewriting some of the declarations of one kind and touching them. *)
Lemma Tracked_rewrite orig om s s' (l : list string) :
  Tracked orig om s → kinds_disjoint s' →
  (∀ k, is_Some (current_decl s k) ↔ is_Some (current_decl s' k)) →
  (∀ k, k ∈ l → is_Some (current_decl s k)) →
  (∀ k, k ∉ l → current_decl s' k = current_decl s k) →
  touched s' = list_to_set l ∪ touched s → removed s' = removed s ∖ list_to_set l →
  meta_dirty s' = meta_dirty s → meta s' = meta s →
  Tracked orig om s'.
Proof.
  intros [T1 T2 T3 T4 T5] Hk Hsome Hl Hsame Ht Hr Hd Hm. split; [done|..].
  - intros k. rewrite Ht, Hr. intros Hnt Hnr. rewrite Hsame by set_solver. apply T2; set_solver.
  - intros k. rewrite Hr. intros Hkr. rewrite Hsame by set_solver. apply T3. set_solver.
  - intros k. rewrite Ht, elem_of_union, elem_of_list_to_set. intros [Hkl|Hkt]; apply Hsome; auto.
  - by rewrite Hd, Hm.
Qed.

Lemma rewrite_messages_tracked orig om s f msgs changed :
  Tracked orig om s → reports_changes f → btree_map_mut f (messages s) = (msgs, changed) →
  Tracked orig om (touch_all (with_messages s msgs) changed).
Proof.
  intros T Hf E.
  assert (msgs = (btree_map_mut f (messages s)).1) as Hmsgs by (by rewrite E).
  assert (changed = (btree_map_mut f (messages s)).2) as Hch by (by rewrite E).
  rewrite touch_all_spec. apply (Tracked_rewrite orig om s _ changed); try done; simpl.
  - destruct (tr_kinds _ _ _ T) as (K1 & K2 & K3). unfold kinds_disjoint. simpl.
    by rewrite Hmsgs, dom_btree_map_mut.
  - intros k. unfold current_decl. simpl. rewrite Hmsgs, lookup_btree_map_mut.
    destruct (messages s !! k); simpl; [|done]. split; by eexists.
  - intros k. rewrite Hch. intros (v & Hv & _)%elem_of_btree_map_mut_changed.
    unfold current_decl. rewrite Hv. by eexists.
  - intros k Hk. unfold current_decl. simpl. by rewrite Hmsgs, btree_map_mut_unchanged by (by subst).
Qed.

Lemma rewrite_services_tracked orig om s f svcs changed :
  Tracked orig om s → reports_changes f → btree_map_mut f (services s) = (svcs, changed) →
  Tracked orig om (touch_all (with_services s svcs) changed).
Proof.
  intros T Hf E.
  assert (svcs = (btree_map_mut f (services s)).1) as Hsvcs by (by rewrite E).
  assert (changed = (btree_map_mut f (services s)).2) as Hch by (by rewrite E).
  destruct (tr_kinds _ _ _ T) as (K1 & K2 & K3).
  rewrite touch_all_spec. apply (Tracked_rewrite orig om s _ changed); try done; simpl.
  - unfold kinds_disjoint. simpl. by rewrite Hsvcs, dom_btree_map_mut.
  - intros k. unfold current_decl. simpl. rewrite Hsvcs, lookup_btree_map_mut.
    destruct (messages s !! k), (enums s !! k), (services s !! k); simpl; split; done || by eexists.
  - intros k. rewrite Hch. intros (v & Hv & _)%elem_of_btree_map_mut_changed.
    unfold current_decl. rewrite Hv.
    destruct (messages s !! k), (enums s !! k); by eexists.
  - intros k Hk. unfold current_decl. simpl. by rewrite Hsvcs, btree_map_mut_unchanged by (by subst).
Qed.

Lemma with_meta_tracked orig om s m :
  Tracked orig om s → Tracked orig om (with_meta s m true).
Proof. by apply Tracked_ext. Qed.

(** A metadata pass that sets the dirty flag when it changed something. *)
Lemma with_meta_flag_tracked orig om s m (d : bool) :
  Tracked orig om s → (d = false → meta_dirty s = false ∧ m = meta s) →
  Tracked orig om (with_meta s m d).
Proof. intros T Hm. revert T. by apply Tracked_ext. Qed.

(** ** Rewriting passes report their changes *)

Lemma rename_opt_ref_reports o old new :
  (rename_opt_ref o old new).2 = false → (rename_opt_ref o old new).1 = o.
Proof. unfold rename_opt_ref. destruct o as [r|]; [|done]. by destruct (rename_type_ref r old new). Qed.

Lemma rename_refs_in_field_reports old new f :
  (rename_refs_in_field old new f).2 = false → (rename_refs_in_field old new f).1 = f.
Proof.
  unfold rename_refs_in_field.
  destruct (rename_opt_ref (fd_type_name f) old new) as [tn c1] eqn:E1.
  destruct (rename_opt_ref (fd_extendee f) old new) as [ext c2] eqn:E2. simpl.
  intros [-> ->]%orb_false_iff.
  pose proof (rename_opt_ref_reports (fd_type_name f) old new) as H1.
  pose proof (rename_opt_ref_reports (fd_extendee f) old new) as H2.
  rewrite E1 in H1. rewrite E2 in H2. simpl in *.
  rewrite H1, H2 by done. by destruct f.
Qed.

Lemma rename_enum_value_ref_in_field_reports en old new f :
  (rename_enum_value_ref_in_field en old new f).2 = false →
  (rename_enum_value_ref_in_field en old new f).1 = f.
Proof. unfold rename_enum_value_ref_in_field. by destruct field_references_enum_value. Qed.

(** The three passes over the members of a message. *)
Lemma members_report (g : FieldDescriptorProto → FieldDescriptorProto * bool)
    (h : DescriptorProto → DescriptorProto * bool) m :
  (∀ f, (g f).2 = false → (g f).1 = f) →
  (∀ n, n ∈ dp_nested_type m → (h n).2 = false → (h n).1 = n) →
  (map_mut g (dp_field m)).2 || (map_mut g (dp_extension m)).2
    || (map_mut h (dp_nested_type m)).2 = false →
  dp_with_members m (map_mut g (dp_field m)).1 (map_mut g (dp_extension m)).1
    (map_mut h (dp_nested_type m)).1 = m.
Proof.
  intros Hg Hh [[Hf He]%orb_false_iff Hn]%orb_false_iff.
  rewrite !map_mut_reports by auto. by destruct m.
Qed.

Lemma rename_refs_in_message_eq old new m :
  rename_refs_in_message old new m =
    (dp_with_members m (map_mut (rename_refs_in_field old new) (dp_field m)).1
       (map_mut (rename_refs_in_field old new) (dp_extension m)).1
       (map_mut (rename_refs_in_message old new) (dp_nested_type m)).1,
     (map_mut (rename_refs_in_field old new) (dp_field m)).2
       || (map_mut (rename_refs_in_field old new) (dp_extension m)).2
       || (map_mut (rename_refs_in_message old new) (dp_nested_type m)).2).
Proof. by destruct m. Qed.

Lemma rename_refs_in_message_reports old new m :
  (rename_refs_in_message old new m).2 = false → (rename_refs_in_message old new m).1 = m.
Proof.
  induction m as [m IH] using DescriptorProto_nested_ind. rewrite rename_refs_in_message_eq.
  apply members_report; auto using rename_refs_in_field_reports.
Qed.

Lemma rename_enum_value_refs_in_message_eq en old new m :
  rename_enum_value_refs_in_message en old new m =
    (dp_with_members m (map_mut (rename_enum_value_ref_in_field en old new) (dp_field m)).1
       (map_mut (rename_enum_value_ref_in_field en old new) (dp_extension m)).1
       (map_mut (rename_enum_value_refs_in_message en old new) (dp_nested_type m)).1,
     (map_mut (rename_enum_value_ref_in_field en old new) (dp_field m)).2
       || (map_mut (rename_enum_value_ref_in_field en old new) (dp_extension m)).2
       || (map_mut (rename_enum_value_refs_in_message en old new) (dp_nested_type m)).2).
Proof. by destruct m. Qed.

Lemma rename_enum_value_refs_in_message_reports en old new m :
  (rename_enum_value_refs_in_message en old new m).2 = false → (rename_enum_value_refs_in_message en old new m).1 = m.
Proof.
  induction m as [m IH] using DescriptorProto_nested_ind. rewrite rename_enum_value_refs_in_message_eq.
  apply members_report; auto using rename_enum_value_ref_in_field_reports.
Qed.

Lemma rename_refs_in_method_reports old new m :
  (rename_refs_in_method old new m).2 = false → (rename_refs_in_method old new m).1 = m.
Proof.
  unfold rename_refs_in_method.
  destruct (rename_opt_ref (md_input_type m) old new) as [i c1] eqn:E1.
  destruct (rename_opt_ref (md_output_type m) old new) as [o c2] eqn:E2. simpl.
  intros [-> ->]%orb_false_iff.
  pose proof (rename_opt_ref_reports (md_input_type m) old new) as H1.
  pose proof (rename_opt_ref_reports (md_output_type m) old new) as H2.
  rewrite E1 in H1. rewrite E2 in H2. simpl in *.
  rewrite H1, H2 by done. by destruct m.
Qed.

Lemma rename_refs_in_service_reports old new v :
  (rename_refs_in_service old new v).2 = false → (rename_refs_in_service old new v).1 = v.
Proof.
  unfold rename_refs_in_service. intros Hc.
  change (sd_with_method v (map_mut (rename_refs_in_method old new) (sd_method v)).1 = v).
  rewrite map_mut_reports; [by destruct v| |done].
  intros m _. apply rename_refs_in_method_reports.
Qed.

(** ** Every operation preserves the invariant *)

Lemma message_free orig om s n m :
  Tracked orig om s → messages s !! n = Some m → free_for_message s n.
Proof. intros [(K1 & K2 & K3)] Hm%elem_of_dom_2. split; set_solver. Qed.

Lemma enum_free orig om s n e : Tracked orig om s → enums s !! n = Some e → free_for_enum s n.
Proof. intros [(K1 & K2 & K3)] He%elem_of_dom_2. split; set_solver. Qed.

Lemma service_free orig om s n v :
  Tracked orig om s → services s !! n = Some v → free_for_service s n.
Proof. intros [(K1 & K2 & K3)] Hv%elem_of_dom_2. split; set_solver. Qed.

(** An operation that writes one existing declaration back. *)
Ltac stored T :=
  first
    [ apply store_message_tracked; [exact T|by eapply message_free]
    | apply store_enum_tracked; [exact T|by eapply enum_free]
    | apply store_service_tracked; [exact T|by eapply service_free] ].

Lemma create_message_tracked orig om s o s' :
  Tracked orig om s → create_message s o = Ok s' → Tracked orig om s'.
Proof.
  intros T H. unfold create_message in H. cbv zeta in H. ok_inv H. subst s'.
  apply declaration_exists_false in Hok as (Hm & He & Hv).
  apply (with_meta_tracked orig om (store_message s _ _)), store_message_tracked; [done|by split].
Qed.

Lemma create_enum_tracked orig om s o s' :
  Tracked orig om s → create_enum s o = Ok s' → Tracked orig om s'.
Proof.
  intros T H. unfold create_enum in H. cbv zeta in H. ok_inv H. subst s'.
  apply declaration_exists_false in Hok as (Hm & He & Hv).
  apply (with_meta_tracked orig om (store_enum s _ _)), store_enum_tracked; [done|by split].
Qed.

Lemma add_service_tracked orig om s o s' :
  Tracked orig om s → add_service s o = Ok s' → Tracked orig om s'.
Proof.
  intros T H. unfold add_service in H. cbv zeta in H. ok_inv H. subst s'.
  apply declaration_exists_false in Hok as (Hm & He & Hv).
  apply (with_meta_tracked orig om (store_service s _ _)), store_service_tracked; [done|by split].
Qed.

Lemma delete_message_tracked orig om s o s' :
  Tracked orig om s → delete_message s o = Ok s' → Tracked orig om s'.
Proof.
  intros T H. unfold delete_message, message_mut in H. cbv zeta in H. ok_inv H. subst s'.
  apply (with_meta_tracked orig om (mark_removed (with_messages s _) _)), drop_message_tracked;
    [done|by apply elem_of_dom_2 in Hok].
Qed.

Lemma delete_enum_tracked orig om s o s' :
  Tracked orig om s → delete_enum s o = Ok s' → Tracked orig om s'.
Proof.
  intros T H. unfold delete_enum, enum_mut in H. cbv zeta in H. ok_inv H. subst s'.
  apply (with_meta_tracked orig om (mark_removed (with_enums s _) _)), drop_enum_tracked;
    [done|by apply elem_of_dom_2 in Hok].
Qed.

Lemma remove_service_tracked orig om s o s' :
  Tracked orig om s → remove_service s o = Ok s' → Tracked orig om s'.
Proof.
  intros T H. unfold remove_service, service_mut in H. cbv zeta in H. ok_inv H. subst s'.
  apply (with_meta_tracked orig om (mark_removed (with_services s _) _)), drop_service_tracked;
    [done|by apply elem_of_dom_2 in Hok].
Qed.

(** The target of a rename is undeclared once the source is removed. *)
Lemma rename_target_free s old new :
  negb (bool_decide (old = new)) && declaration_exists s new = false →
  kinds_disjoint s → old ∈ dom (messages s) ∪ dom (services s) →
  new ∉ dom (enums s) ∧ (old ∈ dom (messages s) → new ∉ dom (services s)) ∧
  (old ∈ dom (services s) → new ∉ dom (messages s)).
Proof.
  intros Hf (K1 & K2 & K3) Hold. case_bool_decide as Heq; simpl in Hf; [subst; set_solver|].
  apply declaration_exists_false in Hf. set_solver.
Qed.

Lemma rename_service_tracked orig om s o s' :
  Tracked orig om s → rename_service s o = Ok s' → Tracked orig om s'.
Proof.
  intros T H. unfold rename_service in H. cbv zeta in H. ok_inv H. subst s'.
  apply elem_of_dom_2 in Hok0.
  destruct (rename_target_free s _ _ Hok (tr_kinds _ _ _ T)) as (He & _ & Hm); [set_solver|].
  apply (Tracked_ext orig om (store_service
    (mark_removed (with_services s (delete (rns_old_name o) (services s))) (rns_old_name o))
    (rns_new_name o) (sd_with_name x0 (Some (rns_new_name o))))); try done.
  apply store_service_tracked; [by apply drop_service_tracked|]. split; simpl; auto.
Qed.

Lemma rename_in_order_reports old new l :
  (rename_in_order old new l).2 = false → (rename_in_order old new l).1 = l.
Proof. apply map_mut_reports. intros n _. by case_bool_decide. Qed.

(** The metadata part of [rename_message]. *)
Lemma rename_meta_reports (m : MetaPayload) old new :
  (map_mut (rename_refs_in_field old new) (mp_extension m)).2
    || (rename_in_order old new (mp_message_order m)).2 = false →
  mp_with_orders (with_extension m (map_mut (rename_refs_in_field old new) (mp_extension m)).1)
    (rename_in_order old new (mp_message_order m)).1 (mp_enum_order m) (mp_service_order m) = m.
Proof.
  intros [H1 H2]%orb_false_iff. rewrite rename_in_order_reports by done.
  rewrite map_mut_reports; [by destruct m| |done]. intros f _. apply rename_refs_in_field_reports.
Qed.

Lemma rename_message_tracked orig om s o s' :
  Tracked orig om s → rename_message s o = Ok s' → Tracked orig om s'.
Proof.
  intros T H. unfold rename_message in H. cbv zeta in H. ok_inv H. subst s'.
  apply elem_of_dom_2 in Hok0.
  destruct (rename_target_free s _ _ Hok (tr_kinds _ _ _ T)) as (He & Hv & _); [set_solver|].
  assert (Tracked orig om (store_message
    (mark_removed (with_messages s (delete (rm_old_name o) (messages s))) (rm_old_name o))
    (rm_new_name o)
    (rename_refs_in_message (rm_old_name o) (rm_new_name o) (dp_with_name x0 (Some (rm_new_name o)))).1))
    as T1.
  { apply store_message_tracked; [by apply drop_message_tracked|]. split; simpl; auto. }
  apply with_meta_flag_tracked.
  - eapply rewrite_services_tracked; [eapply rewrite_messages_tracked; [exact T1| |exact E]| |exact E0].
    + intros k m. destruct (bool_decide (k = rm_new_name o)); [done|].
      apply rename_refs_in_message_reports.
    + intros k v. apply rename_refs_in_service_reports.
  - intros Hd. destruct (b || b0) eqn:Hc; [done|].
    pose proof (rename_meta_reports (meta s) (rm_old_name o) (rm_new_name o)) as Hrep.
    rewrite !touch_all_spec in *. split; [done|]. cbn in E1, E2. rewrite E1, E2 in Hrep. by apply Hrep.
Qed.

Lemma rename_enum_value_tracked orig om s o s' :
  Tracked orig om s → rename_enum_value s o = Ok s' → Tracked orig om s'.
Proof.
  intros T H. unfold rename_enum_value, enum_mut in H. cbv zeta in H. ok_inv H. subst s'.
  pose proof (enum_free _ _ _ _ _ T Hok) as Hfree.
  pose proof (store_enum_tracked _ _ _ _ (ed_with_value x x1) T Hfree) as T1.
  apply (Tracked_ext orig om (with_meta (touch_all (with_messages (store_enum s (rnev_enum_name o)
    (ed_with_value x x1)) g) l) (with_extension (meta s) l0) (if b then true else meta_dirty s)));
    [(rewrite ?touch_all_spec in *; simpl; done || set_solver)..|].
  apply with_meta_flag_tracked.
  - eapply rewrite_messages_tracked; [exact T1| |exact E].
    intros k m. apply rename_enum_value_refs_in_message_reports.
  - intros Hd. destruct b; [done|]. rewrite touch_all_spec in *. split; [done|]. simpl.
    pose proof (map_mut_reports (rename_enum_value_ref_in_field (rnev_enum_name o)
       (rnev_old_value_name o) (rnev_new_value_name o)) (mp_extension (meta s))) as Hrep.
    cbn in E0, Hrep. injection E0 as <- Hb. rewrite Hrep; [by destruct (meta s)| |done].
    intros f _. apply rename_enum_value_ref_in_field_reports.
Qed.

Lemma update_import_tracked orig om s o s' :
  Tracked orig om s → update_import s o = Ok s' → Tracked orig om s'.
Proof. intros T [= <-]. by apply with_meta_tracked. Qed.

Lemma remove_enum_value_tracked orig om s o s' :
  Tracked orig om s → remove_enum_value s o = Ok s' → Tracked orig om s'.
Proof.
  intros T H. unfold remove_enum_value, enum_mut in H. cbv zeta in H. ok_inv H. subst s'.
  apply store_enum_tracked; [by revert T; apply Tracked_ext|].
  by apply (enum_free _ _ _ _ _ T Hok0).
Qed.

(** The operations that write back one borrowed declaration. *)
Lemma field_op_tracked orig om s op s' :
  Tracked orig om s →
  match op with
  | AddField o => add_field s o
  | RemoveField o => remove_field s o
  | RenameField o => rename_field s o
  | ChangeFieldType o => change_field_type s o
  | ChangeCardinality o => change_cardinality s o
  | ReorderFields o => reorder_fields s o
  | AddEnumValue o => add_enum_value s o
  | AddRpc o => add_rpc s o
  | RemoveRpc o => remove_rpc s o
  | RenameRpc o => rename_rpc s o
  | ChangeRpcType o => change_rpc_type s o
  | _ => Stuck
  end = Ok s' → Tracked orig om s'.
Proof.
  intros T. destruct op; intros H; try discriminate H;
    unfold add_field, remove_field, rename_field, change_field_type, change_cardinality,
      reorder_fields, add_enum_value, add_rpc, remove_rpc, rename_rpc, change_rpc_type,
      message_mut, enum_mut, service_mut in H; cbv zeta in H; ok_inv H; subst; try stored T.
  destruct update_first in H; [|done]. injection H as <-. stored T.
Qed.

Lemma apply_tracked orig om s op s' :
  Tracked orig om s → apply s op = Ok s' → Tracked orig om s'.
Proof.
  intros T. destruct op; cbn [apply]; intros H; try discriminate H;
    lazymatch type of H with
    | create_message _ _ = _ => exact (create_message_tracked _ _ _ _ _ T H)
    | rename_message _ _ = _ => exact (rename_message_tracked _ _ _ _ _ T H)
    | delete_message _ _ = _ => exact (delete_message_tracked _ _ _ _ _ T H)
    | create_enum _ _ = _ => exact (create_enum_tracked _ _ _ _ _ T H)
    | delete_enum _ _ = _ => exact (delete_enum_tracked _ _ _ _ _ T H)
    | remove_enum_value _ _ = _ => exact (remove_enum_value_tracked _ _ _ _ _ T H)
    | rename_enum_value _ _ = _ => exact (rename_enum_value_tracked _ _ _ _ _ T H)
    | add_service _ _ = _ => exact (add_service_tracked _ _ _ _ _ T H)
    | remove_service _ _ = _ => exact (remove_service_tracked _ _ _ _ _ T H)
    | rename_service _ _ = _ => exact (rename_service_tracked _ _ _ _ _ T H)
    | update_import _ _ = _ => exact (update_import_tracked _ _ _ _ _ T H)
    | add_field _ ?o = _ => exact (field_op_tracked _ _ _ (AddField o) _ T H)
    | remove_field _ ?o = _ => exact (field_op_tracked _ _ _ (RemoveField o) _ T H)
    | rename_field _ ?o = _ => exact (field_op_tracked _ _ _ (RenameField o) _ T H)
    | change_field_type _ ?o = _ => exact (field_op_tracked _ _ _ (ChangeFieldType o) _ T H)
    | change_cardinality _ ?o = _ => exact (field_op_tracked _ _ _ (ChangeCardinality o) _ T H)
    | reorder_fields _ ?o = _ => exact (field_op_tracked _ _ _ (ReorderFields o) _ T H)
    | add_enum_value _ ?o = _ => exact (field_op_tracked _ _ _ (AddEnumValue o) _ T H)
    | add_rpc _ ?o = _ => exact (field_op_tracked _ _ _ (AddRpc o) _ T H)
    | remove_rpc _ ?o = _ => exact (field_op_tracked _ _ _ (RemoveRpc o) _ T H)
    | rename_rpc _ ?o = _ => exact (field_op_tracked _ _ _ (RenameRpc o) _ T H)
    | change_rpc_type _ ?o = _ => exact (field_op_tracked _ _ _ (ChangeRpcType o) _ T H)
    end.
Qed.

Lemma apply_all_tracked orig om s ops s' :
  Tracked orig om s → apply_all s ops = Ok s' → Tracked orig om s'.
Proof.
  revert s. induction ops as [|op ops IH]; intros s T H; cbn [apply_all] in H.
  - by injection H as <-.
  - ok_inv H. eapply IH; [|done]. by eapply apply_tracked.
Qed.

(** ** Loading establishes the invariant *)

(** The declaration stored under a name. *)
Definition stored_decl (schema : SchemaObjects) (n : string) : option DeclPayload :=
  b ← so_decls schema !! n;
  match decode_decl b with Ok p => Some p | _ => None end.

Lemma load_decl_current s k p n :
  current_decl s k = None →
  current_decl (load_decl s k p) n = if decide (n = k) then Some p else current_decl s n.
Proof.
  unfold current_decl at 1. intros Hk.
  destruct (messages s !! k) eqn:Em, (enums s !! k) eqn:Ee, (services s !! k) eqn:Ev; try done.
  unfold current_decl. destruct p; simpl; case_decide; subst;
    by rewrite ?lookup_insert_eq, ?lookup_insert_ne, ?Em, ?Ee, ?Ev.
Qed.

Lemma load_decl_kinds s k p :
  current_decl s k = None → kinds_disjoint s → kinds_disjoint (load_decl s k p).
Proof.
  unfold current_decl. intros Hk (K1 & K2 & K3).
  destruct (messages s !! k) eqn:Em, (enums s !! k) eqn:Ee, (services s !! k) eqn:Ev; try done.
  apply not_elem_of_dom in Em, Ee, Ev.
  unfold kinds_disjoint. destruct p; simpl; rewrite ?dom_insert; set_solver.
Qed.

Lemma load_decls_spec l : ∀ s s',
  load_decls s l = Ok s' → NoDup l.*1 → (∀ k, k ∈ l.*1 → current_decl s k = None) →
  kinds_disjoint s →
  kinds_disjoint s' ∧ touched s' = touched s ∧ removed s' = removed s ∧
  (∀ n, n ∉ l.*1 → current_decl s' n = current_decl s n) ∧
  (∀ n b, (n, b) ∈ l → ∃ p, decode_decl b = Ok p ∧ current_decl s' n = Some p).
Proof.
  induction l as [|[k b] l IH]; intros s s' H Hd Hn K; cbn [load_decls] in H.
  - injection H as <-. split_and!; try done. by intros n b ?%not_elem_of_nil.
  - cbn in Hd. apply NoDup_cons in Hd as [Hk Hd]. ok_inv H.
    assert (current_decl s k = None) as Hnone by (apply Hn; left).
    destruct (IH _ _ H Hd) as (K' & Ht & Hr & Hother & Hin).
    + intros k' Hk'. rewrite load_decl_current by done.
      rewrite decide_False by (intros ->; done). apply Hn. by right.
    + by apply load_decl_kinds.
    + split_and!; [done|by rewrite Ht; destruct x|by rewrite Hr; destruct x|..].
      * intros n [Hnk Hnl]%not_elem_of_cons. rewrite Hother by done.
        by rewrite load_decl_current, decide_False.
      * intros n b' [[= -> ->]|Hb]%elem_of_cons; [|by apply Hin].
        exists x. split; [done|]. rewrite Hother by done.
        by rewrite load_decl_current, decide_True.
Qed.

Lemma load_tracked schema d s :
  load schema d = Ok s →
  ∃ m, decode_meta (so_meta schema) = Ok m ∧ Tracked (stored_decl schema) m s ∧
       (∀ n, is_Some (stored_decl schema n) ↔ is_Some (so_decls schema !! n)).
Proof.
  intros H. unfold load in H. ok_inv H. subst s. exists x0. split; [done|].
  destruct (load_decls_spec _ _ _ Hok) as (K & Ht & Hr & Hother & Hin);
    [apply NoDup_btree_iter_fst|done|by split_and!; simpl; set_solver|].
  assert (∀ n, current_decl x n = stored_decl schema n ∧
               (is_Some (stored_decl schema n) ↔ is_Some (so_decls schema !! n))) as Hcur.
  { intros n. unfold stored_decl. destruct (so_decls schema !! n) as [b|] eqn:Hb; simpl.
    - destruct (Hin n b) as (p & Hp & Hc); [by apply elem_of_btree_iter|].
      rewrite Hp, Hc. split; [done|]. split; by eexists.
    - rewrite Hother; [done|]. rewrite elem_of_btree_keys. by apply eq_None_not_Some. }
  split; [|by apply Hcur].
  split; try done; simpl.
  - intros n _ _. by apply Hcur.
  - intros n. rewrite Hr. simpl. set_solver.
  - intros n. rewrite Ht. simpl. set_solver.
Qed.

(** ** The effect *)

Lemma elem_of_upserts s schema n b :
  (n, b) ∈ me_upserts (into_effect s schema) ↔
  n ∈ touched s ∧ n ∉ removed s ∧ ∃ p, current_decl s n = Some p ∧ b = encode_decl p.
Proof.
  cbn [me_upserts into_effect]. rewrite list_elem_of_omap. split.
  - intros (k & Hk & H). rewrite elem_of_btree_set_iter in Hk.
    case_bool_decide as Hr; [done|]. destruct (current_decl s k) eqn:E; simplify_eq/=. naive_solver.
  - intros (Ht & Hr & p & Hp & ->). exists n. rewrite elem_of_btree_set_iter.
    split; [done|]. rewrite bool_decide_eq_false_2 by done. by rewrite Hp.
Qed.

Lemma NoDup_upserts s schema : NoDup (me_upserts (into_effect s schema)).*1.
Proof.
  cbn [me_upserts into_effect].
  pose proof (NoDup_btree_set_iter (touched s)) as Hd.
  induction (btree_set_iter (touched s)) as [|k l IH]; simpl; [constructor|].
  apply NoDup_cons in Hd as [Hk Hl].
  destruct (bool_decide (k ∈ removed s)); [by apply IH|].
  destruct (current_decl s k); simpl; [|by apply IH].
  constructor; [|by apply IH]. intros ([k' b] & -> & (j & Hj & H)%list_elem_of_omap)%list_elem_of_fmap.
  destruct (bool_decide (j ∈ removed s)); [done|]. destruct (current_decl s j); simplify_eq/=. done.
Qed.

Lemma elem_of_removes s schema n :
  n ∈ me_removes (into_effect s schema) ↔ n ∈ removed s ∧ is_Some (so_decls schema !! n).
Proof.
  cbn [me_removes into_effect].
  by rewrite elem_of_bool_filter, elem_of_btree_set_iter, bool_decide_eq_true.
Qed.

(** [blob] stands for the declaration [p]: it is the stored blob that decodes to
    it, or its encoding. *)
Definition blob_of (p : DeclPayload) (blob : DeclBlob) : Prop :=
  decode_decl blob = Ok p ∨ blob = encode_decl p.

(** The stored schema [st] holds exactly the declarations and the metadata of
    the working state [s]. *)
Definition stores (st : SchemaObjects) (s : WorkingState) : Prop :=
  (∀ n, match current_decl s n with
        | Some p => ∃ blob, so_decls st !! n = Some blob ∧ blob_of p blob
        | None => so_decls st !! n = None
        end) ∧
  (decode_meta (so_meta st) = Ok (meta s) ∨ so_meta st = encode_meta (meta s)).

Lemma into_effect_stores schema om s :
  decode_meta (so_meta schema) = Ok om →
  (∀ n, is_Some (stored_decl schema n) ↔ is_Some (so_decls schema !! n)) →
  Tracked (stored_decl schema) om s → stores (apply_effect schema (into_effect s schema)) s.
Proof.
  intros Hom Hst [K T2 T3 T4 T5]. split.
  - intros n. destruct (decide (n ∈ removed s)) as [Hr|Hr].
    { rewrite (T3 n Hr). destruct (so_decls schema !! n) eqn:Hn.
      - apply lookup_apply_effect_removed, elem_of_removes. split; [done|by eexists].
      - rewrite lookup_apply_effect_other; [done| |].
        + rewrite elem_of_removes, Hn. by intros [_ []].
        + intros ([n' b] & -> & (_ & ? & _)%elem_of_upserts)%list_elem_of_fmap. done. }
    destruct (decide (n ∈ touched s)) as [Ht|Ht].
    + destruct (T4 n Ht) as [p Hp]. rewrite Hp. exists (encode_decl p). split; [|by right].
      apply lookup_apply_effect_upsert; [apply NoDup_upserts| |].
      * rewrite elem_of_removes. naive_solver.
      * apply elem_of_upserts. eauto.
    + rewrite (T2 n Ht Hr), lookup_apply_effect_other.
      * unfold stored_decl. specialize (Hst n). unfold stored_decl in Hst.
        destruct (so_decls schema !! n) as [b|] eqn:Hb; [|done]. simpl in *.
        destruct (decode_decl b) eqn:Hd; [exists b; split; [done|by left]|..];
          destruct Hst as [_ [? ?]]; by try eexists.
      * rewrite elem_of_removes. naive_solver.
      * intros ([n' b] & -> & (? & _ & _)%elem_of_upserts)%list_elem_of_fmap. done.
  - cbn. destruct (meta_dirty s); [by right|left]. by rewrite T5.
Qed.

(** C6. When [apply_many] succeeds, applying the effect it returns to the
    stored schema gives a schema that holds exactly the declarations and the
    metadata of the final working state: touched declarations are upserted,
    removed ones removed, everything else left as stored, and nothing that an
    operation changed is missed. *)
Theorem apply_many_effect_complete (schema : SchemaObjects) (ops : list Mutation)
    (eff : MutationEffect) :
  apply_many schema ops = Ok eff →
  ∃ s0 s, load schema true = Ok s0 ∧ apply_all s0 ops = Ok s ∧ stores (apply_effect schema eff) s.
Proof.
  intros H. unfold apply_many in H. ok_inv H. subst eff.
  exists x, x0. split; [done|]. split; [done|].
  destruct (load_tracked _ _ _ Hok) as (om & Hom & T & Hst).
  eapply into_effect_stores; [done|done|]. by eapply apply_all_tracked.
Qed.

(** The same for a single operation through [apply_one]. *)
Theorem apply_one_effect_complete (schema : SchemaObjects) (op : Mutation) (eff : MutationEffect) :
  apply_one schema op = Ok eff →
  ∃ s0 parsed s, load schema false = Ok s0 ∧ decode (mu_operation op) = Ok parsed ∧
    apply s0 parsed = Ok s ∧ stores (apply_effect schema eff) s.
Proof.
  intros H. unfold apply_one in H. ok_inv H. subst eff.
  exists x0, x, x1. split_and!; [done..|].
  destruct (load_tracked _ _ _ Hok0) as (om & Hom & T & Hst).
  eapply into_effect_stores; [done|done|]. by eapply apply_tracked.
Qed.

(** ** No dangling references *)

(** Some declaration or extension of the state names [target] as the last
    segment of a type reference. *)
Definition mentions (s : WorkingState) (target : string) : Prop :=
  (∃ n m, messages s !! n = Some m ∧ message_references_type m target = true) ∨
  (∃ n v, services s !! n = Some v ∧ service_references_type v target = true) ∨
  (∃ f, f ∈ mp_extension (meta s) ∧ field_references_type f target = true).

Lemma references_to_nil s target skip :
  references_to s target skip = [] → (∀ k, skip = Some k → messages s !! k = None) →
  ¬ mentions s target.
Proof.
  unfold references_to. rewrite !app_nil. intros (Hm & Hv & Hx) Hskip.
  intros [(n & m & Hn & Href)|[(n & v & Hn & Href)|(f & Hf & Href)]].
  - eapply fst_filter_nil in Hm; [|done]. simpl in Hm. rewrite Href, andb_true_r in Hm.
    apply negb_false_iff, bool_decide_eq_true, Hskip in Hm. congruence.
  - eapply fst_filter_nil in Hv; [|done]. simpl in Hv. congruence.
  - assert (existsb (λ f, field_references_type f target) (mp_extension (meta s)) = true) as Hex
      by (apply existsb_elem; eauto). by rewrite Hex in Hx.
Qed.

Lemma validate_removed s n :
  validate_removed_references s = Ok tt → n ∈ removed s → references_to s n (Some n) = [].
Proof.
  intros H Hn. unfold validate_removed_references in H. apply bind_Ok in H as ([] & H & _).
  eapply for_each_Ok in H; [|by apply elem_of_btree_set_iter]. cbv zeta in H.
  apply fail_if_Ok, negb_false_iff, bool_decide_eq_true in H. done.
Qed.

Lemma missing_is_removed orig om s n :
  Tracked orig om s → is_Some (orig n) → current_decl s n = None → n ∈ removed s.
Proof.
  intros [K T2 T3 T4 T5] Hn Hnone. destruct (decide (n ∈ removed s)) as [|Hr]; [done|].
  destruct (decide (n ∈ touched s)) as [Ht|Ht].
  - apply T4 in Ht. rewrite Hnone in Ht. by destruct Ht.
  - rewrite <- (T2 n Ht Hr), Hnone in Hn. by destruct Hn.
Qed.

(** C7. A batch never leaves a dangling reference: if [apply_many] succeeds, no
    message, service or file extension of the result refers to a declaration
    that the stored schema had and the result does not have, however the batch
    deleted, renamed or recreated it. *)
Theorem apply_many_no_dangling (schema : SchemaObjects) (ops : list Mutation)
    (eff : MutationEffect) :
  apply_many schema ops = Ok eff →
  ∃ s, stores (apply_effect schema eff) s ∧
    ∀ n, is_Some (so_decls schema !! n) → so_decls (apply_effect schema eff) !! n = None →
         ¬ mentions s n.
Proof.
  intros H. unfold apply_many in H. ok_inv H. subst eff.
  destruct (load_tracked _ _ _ Hok) as (om & Hom & T & Hst).
  pose proof (apply_all_tracked _ _ _ _ _ T Hok0) as T'.
  pose proof (into_effect_stores _ _ _ Hom Hst T') as Hstores.
  exists x0. split; [done|]. intros n Hn Hgone.
  assert (current_decl x0 n = None) as Hnone.
  { destruct Hstores as [Hs _]. specialize (Hs n).
    destruct (current_decl x0 n); [|done]. destruct Hs as (b & Hb & _). congruence. }
  destruct x1. eapply references_to_nil.
  - apply validate_removed; [done|]. eapply missing_is_removed; [done|by apply Hst|done].
  - intros k [= <-]. unfold current_decl in Hnone. by destruct (messages x0 !! n).
Qed.

End Tracking.

(** ** Witnesses *)

Definition track_schema : SchemaObjects :=
  mkSchemaObjects (encode_meta meta_default)
    (<[ "A" := encode_decl (PMessage (message "A" [scalar_field "id" 1 MtInt32])) ]>
     (<[ "B" := encode_decl (PMessage (message "B" [])) ]> ∅)).

Definition mutation (op : ProtoOp) : Mutation :=
  mkMutation (mkSchemaPath "p" "r" "s.proto") "protobuf" (encode op).

Definition track_ops : list Mutation :=
  [mutation (AddField (mkOpAddField "A" "b" "B" 2 "")); mutation (RenameMessage (mkOpRenameMessage "B" "C"))].

Definition run_many (schema : SchemaObjects) (ops : list Mutation) : MutationEffect :=
  unwrap_or (apply_many schema ops) (mkMutationEffect None [] []).

Lemma track_ops_ok : apply_many track_schema track_ops = Ok (run_many track_schema track_ops).
Proof. apply is_ok_unwrap. vm_compute. reflexivity. Qed.

Lemma apply_many_effect_complete_witness :
  ∃ s0 s, load track_schema true = Ok s0 ∧ apply_all s0 track_ops = Ok s ∧
    stores (apply_effect track_schema (run_many track_schema track_ops)) s.
Proof. apply apply_many_effect_complete. apply track_ops_ok. Defined.

Lemma apply_many_no_dangling_witness :
  ∃ s, stores (apply_effect track_schema (run_many track_schema track_ops)) s ∧
    ∀ n, is_Some (so_decls track_schema !! n) →
         so_decls (apply_effect track_schema (run_many track_schema track_ops)) !! n = None →
         ¬ mentions s n.
Proof. apply (apply_many_no_dangling track_schema track_ops). apply track_ops_ok. Defined.

Definition run_one (schema : SchemaObjects) (op : Mutation) : MutationEffect :=
  unwrap_or (apply_one schema op) (mkMutationEffect None [] []).

Definition track_op : Mutation := mutation (DeleteMessage (mkOpDeleteMessage "B")).

Lemma track_op_ok : apply_one track_schema track_op = Ok (run_one track_schema track_op).
Proof. apply is_ok_unwrap. vm_compute. reflexivity. Qed.

Lemma apply_one_effect_complete_witness :
  ∃ s0 parsed s, load track_schema false = Ok s0 ∧ decode (mu_operation track_op) = Ok parsed ∧
    apply s0 parsed = Ok s ∧ stores (apply_effect track_schema (run_one track_schema track_op)) s.
Proof. apply apply_one_effect_complete. apply track_op_ok. Defined.

(** The batch removes [B] and upserts [A] and [C]. *)
Example track_effect_shape :
  let e := run_many track_schema track_ops in
  ((me_upserts e).*1, me_removes e, bool_decide (me_meta e = None)) =
  (["A"; "C"], ["B"], true)%string.
Proof. vm_compute. reflexivity. Qed.
