(* ===== verification/MutationFields.v ===== *)
(** * MutationFields: field numbers are unique, and retired numbers stay retired

    How each operation of [Mutations] changes the fields of a message is
    summarised by a small relation, [evolves]; a lemma shows that [apply]
    realises it on every message, and the theorems about field numbers follow by
    induction on it. *)
From S2P Require Import Prelude RustStd SchemaTypes ProtoSchema Codec DescriptorCodec DescriptorCodecLaws Blob Compat Effects Operations Mutations MutationTracking ProtocModel.

Open Scope Z_scope.

Section Fields.
Context {PS : ProtocSchema} {RF : RustFmt} {P : Prost}.

(** ** How a message can change *)

Definition numbers_of (m : DescriptorProto) : list Z := omap fd_number (dp_field m).

Inductive evolves (m m' : DescriptorProto) : Prop :=
  | ev_same :
    numbers_of m' = numbers_of m → dp_reserved_range m' = dp_reserved_range m → evolves m m'
  | ev_add (num : Z) :
    has_number (dp_field m) num = false → is_number_reserved m num = false →
    numbers_of m' = numbers_of m ++ [num] →
    dp_reserved_range m' = dp_reserved_range m → evolves m m'
  | ev_remove (l1 l2 : list FieldDescriptorProto) (f : FieldDescriptorProto) :
    dp_field m = l1 ++ f :: l2 → dp_field m' = l1 ++ l2 →
    dp_reserved_range m' = dp_reserved_range m ++
      match fd_number f with
      | Some num => [mkReservedRange (Some num) (Some (wrap_i32 (num + 1)))]
      | None => []
      end → evolves m m'
  | ev_reorder :
    numbers_of m' ⊆+ numbers_of m → dp_reserved_range m' = dp_reserved_range m → evolves m m'.

Lemma evolves_refl m : evolves m m.
Proof. by apply ev_same. Qed.

Lemma evolves_named m name m' : evolves (dp_with_name m name) m' → evolves m m'.
Proof.
  intros []; [by apply ev_same|by eapply ev_add|by eapply ev_remove|by apply ev_reorder].
Qed.

(** Where the message named [n] after [op] comes from. *)
Definition source_name (op : ProtoOp) (n : string) : string :=
  match op with
  | RenameMessage o => if bool_decide (n = rm_new_name o) then rm_old_name o else n
  | _ => n
  end.

(** [m'] is a change of the message that [n] was before [op], or a new message. *)
Definition comes_from (s : WorkingState) (op : ProtoOp) (n : string) (m' : DescriptorProto) : Prop :=
  (∃ m, messages s !! source_name op n = Some m ∧ evolves m m') ∨
  (messages s !! n = None ∧ m' = message_named n).

(** ** Numbers under list updates *)

Lemma omap_fmap_eq {A B} (f : A → option B) (l l' : list A) : f <$> l = f <$> l' → omap f l = omap f l'.
Proof.
  revert l'. induction l as [|x l IH]; intros [|x' l'] H; simplify_eq/=; [done|].
  rewrite (IH l') by done. by destruct (f x), (f x'); simplify_eq.
Qed.

Lemma numbers_update p f l l' :
  (∀ x, fd_number (f x) = fd_number x) → update_first p f l = Some l' →
  omap fd_number l' = omap fd_number l.
Proof. intros Hf Hu. apply omap_fmap_eq. by eapply update_first_fmap. Qed.

Lemma numbers_map_mut (f : FieldDescriptorProto → FieldDescriptorProto * bool) l :
  (∀ x, fd_number (f x).1 = fd_number x) → omap fd_number (map_mut f l).1 = omap fd_number l.
Proof.
  intros Hf. apply omap_fmap_eq. simpl. change (map ?g l) with (g <$> l).
  rewrite <- list_fmap_compose. apply list_fmap_ext. intros i x _. apply Hf.
Qed.

Lemma rename_refs_in_field_number old new f :
  fd_number (rename_refs_in_field old new f).1 = fd_number f.
Proof. unfold rename_refs_in_field. by repeat case_match. Qed.

Lemma rename_enum_value_ref_in_field_number en old new f :
  fd_number (rename_enum_value_ref_in_field en old new f).1 = fd_number f.
Proof. unfold rename_enum_value_ref_in_field. by case_match. Qed.

Lemma evolves_rename_refs old new m : evolves m (rename_refs_in_message old new m).1.
Proof.
  rewrite rename_refs_in_message_eq. apply ev_same; [|done].
  apply numbers_map_mut. intros f. apply rename_refs_in_field_number.
Qed.

Lemma evolves_rename_enum_refs en old new m :
  evolves m (rename_enum_value_refs_in_message en old new m).1.
Proof.
  rewrite rename_enum_value_refs_in_message_eq. apply ev_same; [|done].
  apply numbers_map_mut. intros f. apply rename_enum_value_ref_in_field_number.
Qed.

(** Taking fields out of a map in some order takes each at most once. *)
Lemma take_in_order_submseteq order : ∀ by_name,
  take_in_order by_name order ⊆+ (map_to_list by_name).*2.
Proof.
  induction order as [|n order IH]; intros by_name; simpl; [apply submseteq_nil_l|].
  destruct (by_name !! n) as [f|] eqn:E; [|apply IH].
  assert ((map_to_list by_name).*2 ≡ₚ f :: (map_to_list (delete n by_name)).*2) as ->.
  { rewrite <- (insert_delete_id by_name n f) at 1 by done.
    by rewrite map_to_list_insert by apply lookup_delete_eq. }
  by apply submseteq_skip.
Qed.

Lemma collect_map_values (l : list (string * FieldDescriptorProto)) :
  (map_to_list (collect_map l)).*2 ⊆+ l.*2.
Proof.
  induction l as [|[k f] l IH] using rev_ind; [done|].
  rewrite collect_map_app, fmap_app. simpl.
  rewrite <- insert_delete_eq, map_to_list_insert by apply lookup_delete_eq. simpl.
  rewrite Permutation_app_comm. simpl. apply submseteq_skip.
  etrans; [|exact IH]. apply fmap_submseteq, map_to_list_submseteq, delete_subseteq.
Qed.

Lemma omap_submseteq {A B} (f : A → option B) (l l' : list A) : l ⊆+ l' → omap f l ⊆+ omap f l'.
Proof.
  induction 1 as [|x l l' _ IH|x y l|x l l' _ IH|l1 l2 l3 _ IH1 _ IH2]; simpl; [done|..].
  - destruct (f x); [by apply submseteq_skip|done].
  - destruct (f x), (f y); try done. apply submseteq_swap.
  - destruct (f x); [by apply submseteq_cons|done].
  - by etrans.
Qed.

Lemma numbers_reorder (l : list FieldDescriptorProto) order :
  omap fd_number
    (take_in_order (collect_map ((λ f, (default ""%string (fd_name f), f)) <$> l)) order) ⊆+
  omap fd_number l.
Proof.
  apply omap_submseteq. etrans; [apply take_in_order_submseteq|].
  etrans; [apply collect_map_values|]. rewrite <- list_fmap_compose. simpl. by rewrite list_fmap_id.
Qed.

(** ** Every operation realises the relation *)

(** [s'] has the messages of [s], each changed as [evolves] allows. *)
Definition messages_evolve (s s' : WorkingState) : Prop :=
  dom (messages s') = dom (messages s) ∧
  ∀ n m', messages s' !! n = Some m' → ∃ m, messages s !! n = Some m ∧ evolves m m'.

Lemma messages_evolve_same s s' : messages s' = messages s → messages_evolve s s'.
Proof.
  intros Hm. split; [by rewrite Hm|]. intros n m'. rewrite Hm. intros H.
  exists m'. split; [done|apply evolves_refl].
Qed.

Lemma store_message_evolves s k m m' :
  messages s !! k = Some m → evolves m m' → messages_evolve s (store_message s k m').
Proof.
  intros Hk He. split; [by simpl; rewrite dom_insert_lookup_L|].
  intros n x. simpl. rewrite lookup_insert. case_decide as Hn; intros Hx; simplify_eq.
  - by exists m.
  - exists x. split; [done|apply evolves_refl].
Qed.

Lemma has_number_spec l num : has_number l num = true ↔ num ∈ omap fd_number l.
Proof.
  unfold has_number. rewrite existsb_elem, list_elem_of_omap.
  by setoid_rewrite bool_decide_eq_true.
Qed.

Lemma add_field_evolves s o s' : add_field s o = Ok s' → messages_evolve s s'.
Proof.
  intros H. unfold add_field, message_mut in H. cbv zeta in H. ok_inv H. subst s'.
  eapply store_message_evolves; [done|].
  apply (ev_add _ _ (wrap_i32 (af_field_number o))); [done..| |].
  - unfold numbers_of. simpl. rewrite omap_app. by destruct b.
  - by destruct b.
Qed.

Lemma remove_field_evolves s o s' : remove_field s o = Ok s' → messages_evolve s s'.
Proof.
  intros H. unfold remove_field, message_mut in H. cbv zeta in H. ok_inv H. subst s'.
  eapply store_message_evolves; [done|].
  apply take_first_split in Hok0 as (l1 & l2 & Hl & _ & ->).
  eapply ev_remove; [done|done|]. simpl. destruct (fd_number f); [done|]. by rewrite app_nil_r.
Qed.

(** An update of one field that keeps its number. *)
Lemma update_evolves s k m p f fields :
  messages s !! k = Some m → (∀ x, fd_number (f x) = fd_number x) →
  update_first p f (dp_field m) = Some fields →
  messages_evolve s (store_message s k (dp_with_field m fields)).
Proof.
  intros Hk Hf Hu. eapply store_message_evolves; [done|]. apply ev_same; [|done].
  by eapply numbers_update.
Qed.

Lemma rename_field_evolves s o s' : rename_field s o = Ok s' → messages_evolve s s'.
Proof.
  intros H. unfold rename_field, message_mut in H. ok_inv H. subst s'. eapply update_evolves; [done| |done]. done.
Qed.

Lemma change_field_type_evolves s o s' : change_field_type s o = Ok s' → messages_evolve s s'.
Proof.
  intros H. unfold change_field_type, message_mut in H. cbv zeta in H. ok_inv H.
  destruct (update_first _ _ _) eqn:Hu in H; [|done]. injection H as <-.
  eapply update_evolves; [done| |done]. done.
Qed.

Lemma change_cardinality_evolves s o s' : change_cardinality s o = Ok s' → messages_evolve s s'.
Proof.
  intros H. unfold change_cardinality, message_mut in H. ok_inv H. subst s'.
  eapply update_evolves; [done| |done]. done.
Qed.

Lemma reorder_fields_evolves s o s' : reorder_fields s o = Ok s' → messages_evolve s s'.
Proof.
  intros H. unfold reorder_fields, message_mut in H. cbv zeta in H. ok_inv H. subst s'.
  eapply store_message_evolves; [done|]. apply ev_reorder; [|done]. apply numbers_reorder.
Qed.

Lemma rename_enum_value_evolves s o s' : rename_enum_value s o = Ok s' → messages_evolve s s'.
Proof.
  intros H. unfold rename_enum_value, enum_mut in H. cbv zeta in H. ok_inv H. subst s'.
  unfold messages_evolve. rewrite touch_all_spec. simpl.
  assert (g = (btree_map_mut (λ _ msg, rename_enum_value_refs_in_message (rnev_enum_name o)
    (rnev_old_value_name o) (rnev_new_value_name o) msg) (messages s)).1) as -> by exact (eq_sym (f_equal fst E)).
  split; [apply dom_btree_map_mut|]. intros n m' Hm'.
  rewrite lookup_btree_map_mut in Hm'. apply fmap_Some in Hm' as (m & Hm & ->).
  exists m. split; [done|apply evolves_rename_enum_refs].
Qed.

Lemma delete_message_messages s o s' :
  delete_message s o = Ok s' → messages s' = delete (dm_message_name o) (messages s).
Proof. intros H. unfold delete_message in H. cbv zeta in H. ok_inv H. by subst s'. Qed.

(** The messages after a rename. *)
Lemma rename_message_messages s o s' :
  rename_message s o = Ok s' →
  ∃ m, messages s !! rm_old_name o = Some m ∧ ∀ n,
    messages s' !! n =
      if decide (n = rm_new_name o) then
        Some (rename_refs_in_message (rm_old_name o) (rm_new_name o)
                (dp_with_name m (Some (rm_new_name o)))).1
      else (λ m, (rename_refs_in_message (rm_old_name o) (rm_new_name o) m).1) <$>
           delete (rm_old_name o) (messages s) !! n.
Proof.
  intros H. unfold rename_message in H. cbv zeta in H. ok_inv H. subst s'.
  exists x0. split; [done|]. intros n. rewrite !touch_all_spec.
  cbn [messages with_meta with_tracking with_services with_messages].
  apply (f_equal fst) in E. cbn [fst] in E. subst g. rewrite lookup_btree_map_mut.
  cbn [messages touch mark_removed with_tracking with_messages].
  destruct (decide (n = rm_new_name o)) as [Hn|Hn].
  - subst n. rewrite lookup_insert_eq. cbn [fmap option_fmap option_map].
    by rewrite bool_decide_eq_true_2.
  - rewrite lookup_insert_ne by done. destruct (delete (rm_old_name o) (messages s) !! n); [|done].
    cbn [fmap option_fmap option_map]. by rewrite bool_decide_eq_false_2.
Qed.

Lemma rename_message_evolves s o s' n m' :
  rename_message s o = Ok s' → messages s' !! n = Some m' →
  ∃ m, messages s !! source_name (RenameMessage o) n = Some m ∧ evolves m m'.
Proof.
  intros H Hm'. destruct (rename_message_messages _ _ _ H) as (m & Hm & Hs').
  rewrite Hs' in Hm'. cbn [source_name]. case_decide as Hn.
  - rewrite bool_decide_eq_true_2 by done. apply (inj Some) in Hm' as <-. exists m. split; [done|].
    eapply evolves_named, evolves_rename_refs.
  - rewrite bool_decide_eq_false_2 by done. apply fmap_Some in Hm' as (m0 & Hm0 & ->).
    apply lookup_delete_Some in Hm0 as [_ Hm0]. exists m0. split; [done|apply evolves_rename_refs].
Qed.

Lemma create_message_comes s o s' n m' :
  create_message s o = Ok s' → messages s' !! n = Some m' → comes_from s (CreateMessage o) n m'.
Proof.
  intros H Hm'. unfold create_message in H. cbv zeta in H. ok_inv H. subst s'.
  apply declaration_exists_false in Hok as (Hnew & _ & _). apply not_elem_of_dom in Hnew.
  simpl in Hm'. rewrite lookup_insert in Hm'. case_decide as Hn; simplify_eq.
  - by right.
  - left. exists m'. split; [done|apply evolves_refl].
Qed.

(** The operations that leave every message alone. *)
Lemma other_op_same s op s' :
  match op with
  | CreateEnum o => create_enum s o
  | DeleteEnum o => delete_enum s o
  | AddEnumValue o => add_enum_value s o
  | RemoveEnumValue o => remove_enum_value s o
  | AddService o => add_service s o
  | RemoveService o => remove_service s o
  | RenameService o => rename_service s o
  | AddRpc o => add_rpc s o
  | RemoveRpc o => remove_rpc s o
  | RenameRpc o => rename_rpc s o
  | ChangeRpcType o => change_rpc_type s o
  | UpdateImport o => update_import s o
  | _ => Stuck
  end = Ok s' → messages s' = messages s.
Proof.
  destruct op; intros H; try discriminate H;
    unfold create_enum, delete_enum, add_enum_value, remove_enum_value, add_service, remove_service,
      rename_service, add_rpc, remove_rpc, rename_rpc, change_rpc_type, update_import in H;
    cbv zeta in H; ok_inv H; by subst.
Qed.

(** The operation neither creates, renames nor deletes a message. *)
Definition keeps_all_messages (op : ProtoOp) : bool :=
  match op with CreateMessage _ | RenameMessage _ | DeleteMessage _ => false | _ => true end.

Lemma apply_messages_evolve s op s' :
  keeps_all_messages op = true → apply s op = Ok s' → messages_evolve s s'.
Proof.
  destruct op as [o|o|o|o|o|o|o|o|o|o|o|o|o|o|o|o|o|o|o|o|o|o|o]; intros Hk H; try discriminate Hk;
    cbn [apply] in H; try discriminate H;
    lazymatch type of H with
    | add_field _ _ = _ => exact (add_field_evolves _ _ _ H)
    | remove_field _ _ = _ => exact (remove_field_evolves _ _ _ H)
    | rename_field _ _ = _ => exact (rename_field_evolves _ _ _ H)
    | change_field_type _ _ = _ => exact (change_field_type_evolves _ _ _ H)
    | change_cardinality _ _ = _ => exact (change_cardinality_evolves _ _ _ H)
    | reorder_fields _ _ = _ => exact (reorder_fields_evolves _ _ _ H)
    | rename_enum_value _ _ = _ => exact (rename_enum_value_evolves _ _ _ H)
    | create_enum _ ?o = _ => exact (messages_evolve_same _ _ (other_op_same s (CreateEnum o) _ H))
    | delete_enum _ ?o = _ => exact (messages_evolve_same _ _ (other_op_same s (DeleteEnum o) _ H))
    | add_enum_value _ ?o = _ => exact (messages_evolve_same _ _ (other_op_same s (AddEnumValue o) _ H))
    | remove_enum_value _ ?o = _ => exact (messages_evolve_same _ _ (other_op_same s (RemoveEnumValue o) _ H))
    | add_service _ ?o = _ => exact (messages_evolve_same _ _ (other_op_same s (AddService o) _ H))
    | remove_service _ ?o = _ => exact (messages_evolve_same _ _ (other_op_same s (RemoveService o) _ H))
    | rename_service _ ?o = _ => exact (messages_evolve_same _ _ (other_op_same s (RenameService o) _ H))
    | add_rpc _ ?o = _ => exact (messages_evolve_same _ _ (other_op_same s (AddRpc o) _ H))
    | remove_rpc _ ?o = _ => exact (messages_evolve_same _ _ (other_op_same s (RemoveRpc o) _ H))
    | rename_rpc _ ?o = _ => exact (messages_evolve_same _ _ (other_op_same s (RenameRpc o) _ H))
    | change_rpc_type _ ?o = _ => exact (messages_evolve_same _ _ (other_op_same s (ChangeRpcType o) _ H))
    | update_import _ ?o = _ => exact (messages_evolve_same _ _ (other_op_same s (UpdateImport o) _ H))
    end.
Qed.

Lemma apply_evolves s op s' n m' :
  apply s op = Ok s' → messages s' !! n = Some m' → comes_from s op n m'.
Proof.
  intros H Hm'. destruct (keeps_all_messages op) eqn:Hk.
  - left. destruct (apply_messages_evolve _ _ _ Hk H) as [_ He].
    destruct op; try discriminate Hk; by apply He.
  - destruct op; try discriminate Hk; cbn [apply] in H.
    + by eapply create_message_comes.
    + left. by eapply rename_message_evolves.
    + left. rewrite (delete_message_messages _ _ _ H) in Hm'.
      apply lookup_delete_Some in Hm' as [_ Hm']. exists m'. split; [done|apply evolves_refl].
Qed.

(** ** Field numbers are unique *)

Definition numbers_unique (s : WorkingState) : Prop :=
  ∀ n m, messages s !! n = Some m → NoDup (numbers_of m).

Lemma evolves_unique m m' : evolves m m' → NoDup (numbers_of m) → NoDup (numbers_of m').
Proof.
  intros [Hn _|num Hh _ Hn _|l1 l2 f Hl Hl' _|Hn _] Hd.
  - by rewrite Hn.
  - rewrite Hn. apply NoDup_app. split_and!; [done| |apply NoDup_singleton].
    intros x Hx ->%list_elem_of_singleton. apply has_number_spec in Hx. congruence.
  - unfold numbers_of in *. rewrite Hl in Hd. rewrite Hl'. rewrite omap_app in *. simpl in Hd.
    apply NoDup_app in Hd as (H1 & H2 & H3). destruct (fd_number f).
    + apply NoDup_cons in H3 as [_ H3]. apply NoDup_app. split_and!; [done| |done].
      intros x Hx Hx'. apply (H2 x Hx). by right.
    + by apply NoDup_app.
  - apply submseteq_Permutation in Hn as [k Hk]. rewrite Hk in Hd. by apply NoDup_app in Hd as [? _].
Qed.

Lemma apply_unique s op s' : numbers_unique s → apply s op = Ok s' → numbers_unique s'.
Proof.
  intros Hu H n m' Hm'. destruct (apply_evolves _ _ _ _ _ H Hm') as [(m & Hm & He)|[_ ->]].
  - eapply evolves_unique; [done|]. by eapply Hu.
  - constructor.
Qed.

Lemma apply_all_unique ops : ∀ s s', numbers_unique s → apply_all s ops = Ok s' → numbers_unique s'.
Proof.
  induction ops as [|op ops IH]; intros s s' Hu H; cbn [apply_all] in H.
  - by injection H as <-.
  - ok_inv H. eapply IH; [|done]. by eapply apply_unique.
Qed.

(** No batch of operations gives two fields of a message the same number:
    if the numbers of every stored message are distinct, so are those of every
    message in the schema after [apply_many]. *)
Theorem field_numbers_stay_unique (schema : SchemaObjects) (ops : list Mutation)
    (s0 s : WorkingState) :
  load schema true = Ok s0 → numbers_unique s0 → apply_all s0 ops = Ok s →
  ∀ n m, messages s !! n = Some m → NoDup (numbers_of m).
Proof. intros _ Hu H. by apply (apply_all_unique ops s0). Qed.

(** ** Retired numbers *)

(** [num] is reserved in [m] and not in use. *)
Definition retired (m : DescriptorProto) (num : Z) : Prop :=
  is_number_reserved m num = true ∧ num ∉ numbers_of m.

Lemma is_number_reserved_app m m' r num :
  dp_reserved_range m' = dp_reserved_range m ++ r →
  is_number_reserved m num = true → is_number_reserved m' num = true.
Proof. unfold is_number_reserved. intros ->. rewrite existsb_app. by intros ->. Qed.

Lemma evolves_retired m m' num : evolves m m' → retired m num → retired m' num.
Proof.
  intros [Hn Hr|num' Hh Hres Hn Hr|l1 l2 f Hl Hl' Hr|Hn Hr] [Hret Hnum].
  - split; [|by rewrite Hn]. unfold is_number_reserved. by rewrite Hr.
  - split; [unfold is_number_reserved; by rewrite Hr|].
    rewrite Hn, not_elem_of_app. split; [done|]. intros ->%list_elem_of_singleton. congruence.
  - split; [by eapply is_number_reserved_app|]. unfold numbers_of in *.
    rewrite Hl in Hnum. rewrite Hl'. rewrite omap_app in *. simpl in Hnum.
    destruct (fd_number f); set_solver.
  - split; [unfold is_number_reserved; by rewrite Hr|].
    intros Hin. apply Hnum. by eapply elem_of_submseteq.
Qed.

(** The operation neither deletes nor renames the message [n]. *)
Definition keeps_message (n : string) (op : ProtoOp) : Prop :=
  match op with
  | DeleteMessage o => dm_message_name o ≠ n
  | RenameMessage o => rm_old_name o ≠ n
  | _ => True
  end.

Lemma kept_message_exists s op s' n :
  keeps_message n op → apply s op = Ok s' → is_Some (messages s !! n) → is_Some (messages s' !! n).
Proof.
  intros Hk H. rewrite <- !elem_of_dom. destruct (keeps_all_messages op) eqn:Ha.
  { by destruct (apply_messages_evolve _ _ _ Ha H) as [-> _]. }
  destruct op; try discriminate Ha; cbn [apply keeps_message] in *.
  - unfold create_message in H. cbv zeta in H. ok_inv H. subst s'. simpl. set_solver.
  - destruct (rename_message_messages _ _ _ H) as (m & _ & Hs'). rewrite !elem_of_dom, Hs'.
    case_decide; [by eexists|]. rewrite lookup_delete_ne by done. by rewrite fmap_is_Some.
  - rewrite (delete_message_messages _ _ _ H). set_solver.
Qed.

Lemma apply_retired s op s' n m num :
  keeps_message n op → apply s op = Ok s' → messages s !! n = Some m → retired m num →
  ∃ m', messages s' !! n = Some m' ∧ retired m' num.
Proof.
  intros Hk H Hm Hret. destruct (kept_message_exists _ _ _ _ Hk H) as [m' Hm']; [by eexists|].
  exists m'. split; [done|].
  destruct (apply_evolves _ _ _ _ _ H Hm') as [(m0 & Hm0 & He)|[Hnone _]]; [|congruence].
  assert (m0 = m) as ->; [|by eapply evolves_retired].
  destruct op; cbn [source_name keeps_message apply] in *; try congruence.
  destruct (decide (n = rm_new_name o)) as [Hn|Hn].
  - unfold rename_message in H. cbv zeta in H. ok_inv H.
    rewrite bool_decide_eq_false_2 in Hok by congruence. simpl in Hok.
    apply declaration_exists_false in Hok as (Hnot & _). apply not_elem_of_dom in Hnot. congruence.
  - rewrite bool_decide_eq_false_2 in Hm0 by done. congruence.
Qed.

(** No operation of the batch deletes or renames the message [n]. *)
Definition batch_keeps (n : string) (ops : list Mutation) : Prop :=
  ∀ op parsed, op ∈ ops → decode (mu_operation op) = Ok parsed → keeps_message n parsed.

Lemma apply_all_retired ops n num : ∀ s s' m,
  batch_keeps n ops → apply_all s ops = Ok s' → messages s !! n = Some m → retired m num →
  ∃ m', messages s' !! n = Some m' ∧ retired m' num.
Proof.
  induction ops as [|op ops IH]; intros s s' m Hk H Hm Hret; cbn [apply_all] in H.
  - injection H as <-. by exists m.
  - ok_inv H. assert (keeps_message n x) as Hkx by (eapply Hk; [left|done]).
    destruct (apply_retired _ _ _ _ _ _ Hkx Hok0 Hm Hret) as (m1 & Hm1 & Hret1).
    eapply IH; [|done..]. intros op' parsed Hop'. apply Hk. by right.
Qed.

Lemma add_field_retired s o m :
  messages s !! af_message_name o = Some m → retired m (wrap_i32 (af_field_number o)) →
  add_field s o = Err (FieldNumberReserved (af_field_number o)).
Proof.
  intros Hm [Hres Hnum]. unfold add_field, message_mut. rewrite Hm. cbn [ok_or mbind outcome_bind].
  destruct (has_number (dp_field m) (wrap_i32 (af_field_number o))) eqn:Hh.
  { apply has_number_spec in Hh. done. }
  cbn [fail_if]. by rewrite Hres.
Qed.

(** Removing a field retires its number. *)
Lemma remove_field_retires s o s' m f num :
  remove_field s o = Ok s' → messages s !! rf_message_name o = Some m →
  NoDup (numbers_of m) → List.find (field_named (rf_field_name o)) (dp_field m) = Some f →
  fd_number f = Some num → in_i32 num → num ≠ i32_MAX →
  ∃ m', messages s' !! rf_message_name o = Some m' ∧ retired m' num.
Proof.
  intros H Hm Hd Hfind Hnum Hin Hmax. unfold remove_field, message_mut in H. rewrite Hm in H.
  cbn [ok_or mbind outcome_bind] in H.
  destruct (take_first _ _) as [[f' rest]|] eqn:Ht; [|done]. cbn [ok_or mbind outcome_bind] in H.
  injection H as <-.
  pose proof (take_first_find _ _ _ _ Ht) as Hf'. rewrite Hfind in Hf'. injection Hf' as <-.
  apply take_first_split in Ht as (l1 & l2 & Hl & _ & ->).
  eexists. split; [by cbn; rewrite lookup_insert_eq|]. rewrite Hnum. split.
  - unfold is_number_reserved. cbn. rewrite existsb_app. apply orb_true_iff. right. cbn.
    unfold range_contains. cbn. rewrite wrap_i32_id by (unfold in_i32, i32_MAX in *; lia). lia.
  - unfold numbers_of in *. cbn. rewrite Hl, omap_app in Hd. rewrite omap_app. cbn in Hd.
    rewrite Hnum in Hd. apply NoDup_app in Hd as (_ & H2 & [H3 _]%NoDup_cons).
    rewrite not_elem_of_app. split; [|done]. intros Hin'. apply (H2 num Hin'). left.
Qed.

(** C15. A message whose field numbers are distinct loses a field with a number
    below [i32::MAX]. Then, after any batch of further operations that neither
    deletes nor renames the message, adding a field with that number to it fails with
    [FieldNumberReserved]. (The number [i32::MAX] is not reserved, see
    [max_number_not_reserved], and a message that is created again starts without
    reservations.) *)
Theorem removed_number_never_reused (s s1 s2 : WorkingState) (o : OpRemoveField)
    (m : DescriptorProto) (f : FieldDescriptorProto) (num : Z) (ops : list Mutation)
    (add : OpAddField) :
  messages s !! rf_message_name o = Some m → NoDup (numbers_of m) →
  List.find (field_named (rf_field_name o)) (dp_field m) = Some f →
  fd_number f = Some num → in_i32 num → num ≠ i32_MAX →
  remove_field s o = Ok s1 →
  batch_keeps (rf_message_name o) ops → apply_all s1 ops = Ok s2 →
  af_message_name add = rf_message_name o → wrap_i32 (af_field_number add) = num →
  add_field s2 add = Err (FieldNumberReserved (af_field_number add)).
Proof.
  intros Hm Hd Hfind Hnum Hin Hmax Hrem Hk Hall Hname Hadd.
  destruct (remove_field_retires _ _ _ _ _ _ Hrem Hm Hd Hfind Hnum Hin Hmax) as (m1 & Hm1 & Hret1).
  destruct (apply_all_retired ops _ num _ _ _ Hk Hall Hm1 Hret1) as (m2 & Hm2 & Hret2).
  apply (add_field_retired _ _ m2); [by rewrite Hname|by rewrite Hadd].
Qed.

End Fields.

(** ** Witnesses *)

Definition state_of (ms : gmap string DescriptorProto) : WorkingState :=
  with_messages (empty_state true) ms.

Definition field_state : WorkingState :=
  state_of {[ "A"%string := message "A" [scalar_field "id" 1 MtInt32; scalar_field "x" 2 MtString] ]}.

Definition run_all (s : WorkingState) (ops : list Mutation) : WorkingState :=
  unwrap_or (apply_all s ops) s.

Definition loaded (schema : SchemaObjects) : WorkingState :=
  unwrap_or (load schema true) (empty_state true).

Lemma track_schema_loads : load track_schema true = Ok (loaded track_schema).
Proof. apply is_ok_unwrap. vm_compute. reflexivity. Qed.

Lemma track_ops_apply :
  apply_all (loaded track_schema) track_ops = Ok (run_all (loaded track_schema) track_ops).
Proof. apply is_ok_unwrap. vm_compute. reflexivity. Qed.

Lemma loaded_unique : numbers_unique (loaded track_schema).
Proof.
  change (map_Forall (λ _ m, NoDup (numbers_of m)) (messages (loaded track_schema))).
  apply (bool_decide_eq_true_1 (map_Forall (λ _ m, NoDup (numbers_of m)) _)).
  vm_compute. reflexivity.
Qed.

Definition tracked_a : DescriptorProto :=
  default (message_named "A") (messages (run_all (loaded track_schema) track_ops) !! "A"%string).

Lemma field_numbers_stay_unique_witness : NoDup (numbers_of tracked_a).
Proof.
  apply (field_numbers_stay_unique track_schema track_ops (loaded track_schema)
           (run_all (loaded track_schema) track_ops)) with "A"%string.
  - apply track_schema_loads.
  - apply loaded_unique.
  - apply track_ops_apply.
  - vm_compute. reflexivity.
Defined.

Definition remove_x : OpRemoveField := mkOpRemoveField "A" "x".

Definition removed_state : WorkingState :=
  unwrap_or (remove_field field_state remove_x) field_state.

Definition later_ops : list Mutation :=
  [mutation (AddField (mkOpAddField "A" "y" "int32" 3 "")); mutation (RemoveField (mkOpRemoveField "A" "id"))].

Lemma later_ops_apply : apply_all removed_state later_ops = Ok (run_all removed_state later_ops).
Proof. apply is_ok_unwrap. vm_compute. reflexivity. Qed.

Lemma later_ops_keep : batch_keeps "A" later_ops.
Proof.
  intros op parsed Hop Hdec. unfold later_ops in Hop.
  apply elem_of_cons in Hop as [->|Hop]; [|apply list_elem_of_singleton in Hop as ->];
    vm_compute in Hdec; by injection Hdec as <-.
Qed.

Lemma removed_number_never_reused_witness :
  add_field (run_all removed_state later_ops) (mkOpAddField "A" "z" "string" 2 "") =
    Err (FieldNumberReserved 2).
Proof.
  apply (removed_number_never_reused field_state removed_state _ remove_x
           (message "A" [scalar_field "id" 1 MtInt32; scalar_field "x" 2 MtString])
           (scalar_field "x" 2 MtString) 2 later_ops).
  - reflexivity.
  - apply (bool_decide_eq_true_1 (NoDup _)). vm_compute. reflexivity.
  - reflexivity.
  - reflexivity.
  - vm_compute. split; congruence.
  - vm_compute. congruence.
  - reflexivity.
  - apply later_ops_keep.
  - apply later_ops_apply.
  - reflexivity.
  - reflexivity.
Defined.

(** ** Corner cases of the field operations *)

(** The names and numbers of the fields of [A] after a sequence of operations. *)
Definition fields_after (ops : list ProtoOp) : option (list (option string * option Z)) :=
  match foldl (λ s op, s ≫= λ s, apply s op) (Ok field_state) ops with
  | Ok s => (λ m, (λ f, (fd_name f, fd_number f)) <$> dp_field m) <$> messages s !! "A"%string
  | _ => None
  end.

(** The number [i32::MAX] is accepted by [add_field]; removing that field pushes
    the range [i32::MAX .. i32::MIN), which is empty, and the number can be used
    again. *)
Example max_number_not_reserved :
  fields_after [AddField (mkOpAddField "A" "m" "int32" 2147483647 "");
                RemoveField (mkOpRemoveField "A" "m");
                AddField (mkOpAddField "A" "m2" "string" 2147483647 "")] =
  Some [(Some "id", Some 1); (Some "x", Some 2); (Some "m2", Some 2147483647)]%string.
Proof. vm_compute. reflexivity. Qed.

(** [rename_field] does not compare the new name with the other fields, and
    [reorder_fields] then keeps one field per name: a field disappears and its
    number is not reserved. *)
Example reorder_drops_field :
  fields_after [RenameField (mkOpRenameField "A" "x" "id");
                ReorderFields (mkOpReorderFields "A" ["id"%string]);
                AddField (mkOpAddField "A" "again" "bytes" 1 "")] =
  Some [(Some "id", Some 2); (Some "again", Some 1)]%string.
Proof. vm_compute. reflexivity. Qed.

(** [add_field] does not consult [reserved_name], nor does it reject the number
    zero. *)
Example add_field_reserved_name :
  fields_after [RemoveField (mkOpRemoveField "A" "x");
                AddField (mkOpAddField "A" "x" "string" 0 "")] =
  Some [(Some "id", Some 1); (Some "x", Some 0)]%string.
Proof. vm_compute. reflexivity. Qed.
