(* ===== verification/MutationRefs.v ===== *)
(** * MutationRefs: renames retarget references, imports keep their indices

    The effect of [rename_message] on every type reference of a schema, and the
    alignment that [update_import] maintains between the import list, the pinned
    commits and the public and weak index lists. *)
From S2P Require Import Prelude RustStd SchemaTypes ProtoSchema Codec DescriptorCodec DescriptorCodecLaws Blob Compat Effects Operations Mutations MutationTracking MutationFields ProtocModel.
From Stdlib Require Import Ascii.

Open Scope Z_scope.

Section Refs.
Context {PS : ProtocSchema} {RF : RustFmt} {P : Prost}.

(** ** References after a rename *)

(** Whether a reference that named [x] names [t] after [old] became [new]. *)
Definition retarget (old new t : string) (refs : string → bool) : bool :=
  (negb (bool_decide (t = old)) && refs t) || (bool_decide (t = rsplit_next "."%char new) && refs old).

Lemma retarget_orb old new t f g :
  retarget old new t (λ x, f x || g x) = retarget old new t f || retarget old new t g.
Proof.
  unfold retarget. destruct (bool_decide (t = old)), (bool_decide (t = rsplit_next "."%char new)),
    (f t), (g t), (f old), (g old); done.
Qed.

Lemma retarget_existsb {A} old new t (f : A → string → bool) l :
  retarget old new t (λ x, existsb (λ a, f a x) l) = existsb (λ a, retarget old new t (f a)) l.
Proof.
  induction l as [|a l IH]; cbn [existsb].
  - unfold retarget. by rewrite !andb_false_r.
  - by rewrite <- IH, <- retarget_orb.
Qed.

Lemma type_ref_matches_renamed old new t r r' :
  rename_type_ref r old new = Some r' →
  type_ref_matches r' t = retarget old new t (type_ref_matches r).
Proof.
  unfold rename_type_ref, type_ref_matches, retarget.
  destruct (rfind_split "."%char r) as [[p q]|] eqn:Hr.
  - assert (rsplit_next "."%char r = q) as -> by (unfold rsplit_next; by rewrite Hr).
    case_bool_decide as Hq; [|done]. intros [= <-]. subst q.
    rewrite (rsplit_next_replace _ r p old) by done. repeat case_bool_decide; naive_solver.
  - assert (rsplit_next "."%char r = r) as -> by (unfold rsplit_next; by rewrite Hr).
    case_bool_decide as Hq; [|done]. intros [= <-]. subst r. cbn.
    repeat case_bool_decide; naive_solver.
Qed.

Lemma type_ref_matches_kept old new t r :
  rename_type_ref r old new = None →
  type_ref_matches r t = retarget old new t (type_ref_matches r).
Proof.
  unfold rename_type_ref, type_ref_matches, retarget.
  assert (∀ q, rsplit_next "."%char r = q → q ≠ old →
    bool_decide (rsplit_next "."%char r = t) =
      (negb (bool_decide (t = old)) && bool_decide (rsplit_next "."%char r = t))
      || (bool_decide (t = rsplit_next "."%char new) && bool_decide (rsplit_next "."%char r = old)))
    as Hkept by (intros q -> Hq; repeat case_bool_decide; naive_solver).
  destruct (rfind_split "."%char r) as [[p q]|] eqn:Hr;
    [destruct (decide (q = old)) as [->|Hq]|destruct (decide (r = old)) as [->|Hq]];
    try (by rewrite bool_decide_eq_true_2); intros _.
  - apply (Hkept q); [|done]. unfold rsplit_next. by rewrite Hr.
  - apply (Hkept r); [|done]. unfold rsplit_next. by rewrite Hr.
Qed.

Lemma opt_ref_matches_renamed old new t o :
  opt_ref_matches (rename_opt_ref o old new).1 t = retarget old new t (opt_ref_matches o).
Proof.
  unfold rename_opt_ref. destruct o as [r|]; cbn.
  - destruct (rename_type_ref r old new) as [r'|] eqn:Hr; cbn.
    + by apply type_ref_matches_renamed.
    + by apply type_ref_matches_kept.
  - unfold retarget. by rewrite !andb_false_r.
Qed.

Lemma field_references_renamed old new t f :
  field_references_type (rename_refs_in_field old new f).1 t =
    retarget old new t (field_references_type f).
Proof.
  unfold field_references_type at 2. rewrite retarget_orb, <- !opt_ref_matches_renamed.
  unfold rename_refs_in_field.
  destruct (rename_opt_ref (fd_type_name f) old new), (rename_opt_ref (fd_extendee f) old new). done.
Qed.

Lemma existsb_map_mut {A} (p q : A → bool) (f : A → A * bool) l :
  (∀ x, x ∈ l → p (f x).1 = q x) → existsb p (map_mut f l).1 = existsb q l.
Proof.
  intros Hp. cbn. induction l as [|x l IH]; cbn; [done|].
  rewrite Hp by left. f_equal. apply IH. intros y Hy. apply Hp. by right.
Qed.

Lemma message_references_eq m t :
  message_references_type m t =
    (existsb (λ f, field_references_type f t) (dp_field m) ||
     existsb (λ f, field_references_type f t) (dp_extension m)) ||
    existsb (λ n, message_references_type n t) (dp_nested_type m).
Proof. rewrite <- existsb_app. by destruct m. Qed.

Lemma message_references_renamed old new t m :
  message_references_type (rename_refs_in_message old new m).1 t =
    retarget old new t (message_references_type m).
Proof.
  induction m as [m IH] using DescriptorProto_nested_ind.
  rewrite rename_refs_in_message_eq. cbn [fst]. rewrite message_references_eq.
  assert (retarget old new t (message_references_type m) =
          retarget old new t (λ t, (existsb (λ f, field_references_type f t) (dp_field m) ||
     existsb (λ f, field_references_type f t) (dp_extension m)) ||
    existsb (λ n, message_references_type n t) (dp_nested_type m))) as ->
    by (unfold retarget; by rewrite !message_references_eq).
  rewrite !retarget_orb, !retarget_existsb.
  f_equal; [f_equal|]; apply existsb_map_mut; intros x Hx;
    auto using field_references_renamed.
Qed.

Lemma service_references_renamed old new t v :
  service_references_type (rename_refs_in_service old new v).1 t =
    retarget old new t (service_references_type v).
Proof.
  unfold service_references_type at 2. rewrite retarget_existsb.
  change (existsb (λ m, opt_ref_matches (md_input_type m) t || opt_ref_matches (md_output_type m) t)
    (map_mut (rename_refs_in_method old new) (sd_method v)).1 =
    existsb (λ m, retarget old new t (λ x, opt_ref_matches (md_input_type m) x
                                          || opt_ref_matches (md_output_type m) x)) (sd_method v)).
  apply existsb_map_mut. intros m _. rewrite retarget_orb, <- !opt_ref_matches_renamed.
  unfold rename_refs_in_method.
  destruct (rename_opt_ref (md_input_type m) old new), (rename_opt_ref (md_output_type m) old new).
  done.
Qed.

(** ** [mentions] after a rename *)

Lemma retarget_true old new t refs :
  retarget old new t refs = true ↔
  (t ≠ old ∧ refs t = true) ∨ (t = rsplit_next "."%char new ∧ refs old = true).
Proof.
  unfold retarget. rewrite orb_true_iff, !andb_true_iff, negb_true_iff, bool_decide_eq_false,
    bool_decide_eq_true. done.
Qed.

Lemma rename_message_services s o s' :
  rename_message s o = Ok s' → ∀ n,
  services s' !! n =
    (λ v, (rename_refs_in_service (rm_old_name o) (rm_new_name o) v).1) <$> services s !! n.
Proof.
  intros H n. unfold rename_message in H. cbv zeta in H. ok_inv H. subst s'.
  rewrite !touch_all_spec in *. cbn [services with_meta with_tracking with_services with_messages] in *.
  apply (f_equal fst) in E0. cbn [fst] in E0. subst. by rewrite lookup_btree_map_mut.
Qed.

Lemma rename_message_extension s o s' :
  rename_message s o = Ok s' →
  mp_extension (meta s') =
    (map_mut (rename_refs_in_field (rm_old_name o) (rm_new_name o)) (mp_extension (meta s))).1.
Proof.
  intros H. unfold rename_message in H. cbv zeta in H. ok_inv H. subst s'.
  rewrite !touch_all_spec in *. apply (f_equal fst) in E1. by subst.
Qed.

(** A message other than the renamed one, or the renamed one itself. *)
Lemma rename_message_mentions_message s o s' t :
  rename_message s o = Ok s' →
  (∃ n m, messages s' !! n = Some m ∧ message_references_type m t = true) ↔
  (∃ n m, messages s !! n = Some m ∧
     retarget (rm_old_name o) (rm_new_name o) t (message_references_type m) = true).
Proof.
  intros H. destruct (rename_message_messages _ _ _ H) as (m0 & Hm0 & Hs').
  assert (∀ m t, message_references_type (dp_with_name m (Some (rm_new_name o))) t =
                 message_references_type m t) as Hname by (intros m t'; by destruct m).
  split.
  - intros (n & m' & Hm' & Href). rewrite Hs' in Hm'.
    destruct (decide (n = rm_new_name o)) as [Hn|Hn].
    + apply (inj Some) in Hm' as <-. exists (rm_old_name o), m0. split; [done|].
      rewrite message_references_renamed in Href. unfold retarget in *. by rewrite !Hname in Href.
    + apply fmap_Some in Hm' as (m & [_ Hm]%lookup_delete_Some & ->). exists n, m. split; [done|].
      by rewrite <- message_references_renamed.
  - intros (n & m & Hm & Href). destruct (decide (n = rm_old_name o)) as [->|Hn].
    + eexists (rm_new_name o), _. split; [rewrite Hs'; by rewrite decide_True|].
      rewrite message_references_renamed. unfold retarget in *. rewrite !Hname. by simplify_eq.
    + eexists n, _. split; [|by rewrite message_references_renamed].
      rewrite Hs', decide_False; [by rewrite lookup_delete_ne, Hm|].
      intros ->. unfold rename_message in H. cbv zeta in H. ok_inv H.
      rewrite bool_decide_eq_false_2 in Hok by done. cbn in Hok.
      apply declaration_exists_false in Hok as [Hnot _]. apply not_elem_of_dom in Hnot. congruence.
Qed.

Lemma rename_message_mentions_service s o s' t :
  rename_message s o = Ok s' →
  (∃ n v, services s' !! n = Some v ∧ service_references_type v t = true) ↔
  (∃ n v, services s !! n = Some v ∧
     retarget (rm_old_name o) (rm_new_name o) t (service_references_type v) = true).
Proof.
  intros H. setoid_rewrite (rename_message_services _ _ _ H). split.
  - intros (n & v' & (v & Hv & ->)%fmap_Some & Href). exists n, v. split; [done|].
    by rewrite <- service_references_renamed.
  - intros (n & v & Hv & Href). eexists n, _. rewrite Hv. split; [done|].
    by rewrite service_references_renamed.
Qed.

Lemma rename_message_mentions_extension s o s' t :
  rename_message s o = Ok s' →
  (∃ f, f ∈ mp_extension (meta s') ∧ field_references_type f t = true) ↔
  (∃ f, f ∈ mp_extension (meta s) ∧
     retarget (rm_old_name o) (rm_new_name o) t (field_references_type f) = true).
Proof.
  intros H. rewrite (rename_message_extension _ _ _ H), <- !existsb_elem.
  rewrite (existsb_map_mut _ (λ f, retarget (rm_old_name o) (rm_new_name o) t
    (field_references_type f))); [done|]. intros f _. apply field_references_renamed.
Qed.

(** Distributing [retarget] over a mention of one kind. *)
Lemma exists_retarget {X Y} (A : X → Y → Prop) (refs : Y → string → bool) old new t :
  (∃ x y, A x y ∧ retarget old new t (refs y) = true) ↔
  (t ≠ old ∧ ∃ x y, A x y ∧ refs y t = true) ∨
  (t = rsplit_next "."%char new ∧ ∃ x y, A x y ∧ refs y old = true).
Proof.
  setoid_rewrite retarget_true. split.
  - intros (x & y & HA & [[? ?]|[? ?]]); [left|right]; eauto 10.
  - intros [(? & x & y & ? & ?)|(? & x & y & ? & ?)]; eauto 10.
Qed.

Lemma exists_retarget1 {Y} (A : Y → Prop) (refs : Y → string → bool) old new t :
  (∃ y, A y ∧ retarget old new t (refs y) = true) ↔
  (t ≠ old ∧ ∃ y, A y ∧ refs y t = true) ∨
  (t = rsplit_next "."%char new ∧ ∃ y, A y ∧ refs y old = true).
Proof. setoid_rewrite retarget_true. split; [intros (y & HA & [[? ?]|[? ?]])|]; naive_solver. Qed.

(** The last segment of a dotted name. *)
Definition last_segment (name : string) : string := rsplit_next "."%char name.

(** [rename_message] retargets every reference and no other: afterwards a
    schema refers to [t] exactly if it referred to [t] before and [t] is not the
    old name, or [t] is the simple part of the new name and the schema referred
    to the old one. References in fields, nested messages, message and file
    extensions and RPC types are all covered. *)
Theorem rename_message_retargets (s s' : WorkingState) (o : OpRenameMessage) (t : string) :
  rename_message s o = Ok s' →
  mentions s' t ↔
  (t ≠ rm_old_name o ∧ mentions s t) ∨
  (t = last_segment (rm_new_name o) ∧ mentions s (rm_old_name o)).
Proof.
  intros H. unfold last_segment, mentions at 1.
  rewrite (rename_message_mentions_message _ _ _ t H), (rename_message_mentions_service _ _ _ t H),
    (rename_message_mentions_extension _ _ _ t H).
  rewrite (exists_retarget (λ n m, messages s !! n = Some m)),
    (exists_retarget (λ n v, services s !! n = Some v)).
  rewrite (exists_retarget1 (λ f, f ∈ mp_extension (meta s))). unfold mentions. tauto.
Qed.

(** ** Imports *)

(** The import an index list points at, position by position. *)
Definition import_at (deps : list string) (i : Z) : option string :=
  if bool_decide (0 <= i) then deps !! Z.to_nat i else None.

(** Every index is a position of the import list, which fits [i32]. *)
Definition indices_ok (deps : list string) (l : list Z) : Prop :=
  Z.of_nat (length deps) <= i32_MAX ∧ Forall (λ i, 0 <= i < Z.of_nat (length deps)) l.

Lemma lookup_vec_remove {A} (l : list A) pos i :
  (pos < length l)%nat →
  vec_remove pos l !! i = if decide (i < pos)%nat then l !! i else l !! S i.
Proof.
  intros Hpos. unfold vec_remove. case_decide.
  - rewrite lookup_app_l by (rewrite length_take; lia). by apply lookup_take_lt.
  - rewrite lookup_app_r by (rewrite length_take; lia). rewrite length_take, lookup_drop.
    f_equal. lia.
Qed.

Lemma length_vec_remove {A} (l : list A) pos :
  (pos < length l)%nat → length (vec_remove pos l) = (length l - 1)%nat.
Proof. intros Hpos. unfold vec_remove. rewrite length_app, length_take, length_drop. lia. Qed.

Lemma import_at_reindexed deps pos i :
  (pos < length deps)%nat → 0 <= i < Z.of_nat (length deps) → i ≠ Z.of_nat pos →
  import_at (vec_remove pos deps) (if Z.of_nat pos <? i then i - 1 else i) = import_at deps i.
Proof.
  intros Hpos Hi Hne. unfold import_at.
  destruct (Z.ltb_spec (Z.of_nat pos) i);
    rewrite !bool_decide_eq_true_2, lookup_vec_remove by lia.
  - rewrite decide_False by lia. f_equal. lia.
  - by rewrite decide_True by lia.
Qed.

Lemma reindex_eq deps pos l :
  (pos < length deps)%nat → indices_ok deps l →
  reindex pos l = (λ i, if Z.of_nat pos <? i then i - 1 else i) <$>
                  List.filter (λ i, negb (i =? Z.of_nat pos)) l.
Proof.
  unfold indices_ok, i32_MAX, reindex, retain. intros Hpos [Hlen Hl].
  rewrite (wrap_i32_id (Z.of_nat pos)) by (unfold in_i32; lia).
  induction Hl as [|i l Hi Hl IH]; [done|]. cbn.
  destruct (i =? Z.of_nat pos); cbn; [done|]. rewrite IH. f_equal.
  destruct (Z.of_nat pos <? i); [|done]. apply wrap_i32_id. unfold in_i32. lia.
Qed.

(** Removing the import at [pos] drops the indices that point at it and keeps
    what every other index points at. *)
Lemma reindex_spec deps pos l :
  (pos < length deps)%nat → indices_ok deps l →
  indices_ok (vec_remove pos deps) (reindex pos l) ∧
  import_at (vec_remove pos deps) <$> reindex pos l =
    import_at deps <$> List.filter (λ i, negb (i =? Z.of_nat pos)) l.
Proof.
  intros Hpos Hok. rewrite (reindex_eq deps) by done. destruct Hok as [Hlen Hl].
  split; [split|].
  - rewrite length_vec_remove by done. lia.
  - rewrite length_vec_remove by done.
    induction Hl as [|i l Hi Hl IH]; cbn; [constructor|].
    destruct (Z.eqb_spec i (Z.of_nat pos)); cbn; [done|]. constructor; [|done].
    destruct (Z.ltb_spec (Z.of_nat pos) i); lia.
  - rewrite <- list_fmap_compose. induction Hl as [|i l Hi Hl IH]; cbn; [done|].
    destruct (Z.eqb_spec i (Z.of_nat pos)); cbn; [done|]. rewrite IH. f_equal.
    by apply import_at_reindexed.
Qed.

(** The pins are aligned with the imports and every index is in range. *)
Definition imports_ok (m : MetaPayload) : Prop :=
  length (mp_dependency_commit m) = length (mp_dependency m) ∧
  indices_ok (mp_dependency m) (mp_public_dependency m) ∧
  indices_ok (mp_dependency m) (mp_weak_dependency m).

Lemma position_lt {A} (p : A → bool) l i : position p l = Some i → (i < length l)%nat.
Proof. intros (x & Hx & _)%position_lookup. by apply lookup_lt_Some in Hx. Qed.

(** [update_import] keeps the file's import tables consistent. Whatever the
    number of pins before, afterwards there is one pin per import. Removing an
    import that is listed drops exactly its own public and weak indices, and
    every other index still points at the import it pointed at. *)
Theorem update_import_consistent (s s' : WorkingState) (o : OpUpdateImport) (pos : nat) :
  update_import s o = Ok s' →
  indices_ok (mp_dependency (meta s)) (mp_public_dependency (meta s)) →
  indices_ok (mp_dependency (meta s)) (mp_weak_dependency (meta s)) →
  ui_remove o = true →
  position (λ d, bool_decide (d = ui_import_path o)) (mp_dependency (meta s)) = Some pos →
  imports_ok (meta s') ∧
  mp_dependency (meta s') = vec_remove pos (mp_dependency (meta s)) ∧
  import_at (mp_dependency (meta s')) <$> mp_public_dependency (meta s') =
    import_at (mp_dependency (meta s)) <$>
      List.filter (λ i, negb (i =? Z.of_nat pos)) (mp_public_dependency (meta s)) ∧
  import_at (mp_dependency (meta s')) <$> mp_weak_dependency (meta s') =
    import_at (mp_dependency (meta s)) <$>
      List.filter (λ i, negb (i =? Z.of_nat pos)) (mp_weak_dependency (meta s)).
Proof.
  intros [= <-] Hpub Hweak Hrem Hpos. cbn [meta with_meta].
  unfold update_import_meta. cbv zeta. rewrite Hrem, Hpos. unfold imports_ok.
  cbn [mp_dependency mp_public_dependency mp_weak_dependency mp_dependency_commit mp_with_imports].
  apply position_lt in Hpos.
  destruct (reindex_spec _ _ _ Hpos Hpub), (reindex_spec _ _ _ Hpos Hweak).
  rewrite !length_vec_remove by (rewrite ?length_resize; done). by rewrite length_resize.
Qed.

(** The pin of an import path. *)
Definition pin_of (m : MetaPayload) (path : string) : option string :=
  pos ← position (λ d, bool_decide (d = path)) (mp_dependency m); mp_dependency_commit m !! pos.

Lemma position_app_None {A} (p : A → bool) l x :
  position p l = None → p x = true → position p (l ++ [x]) = Some (length l).
Proof.
  intros Hl Hx. induction l as [|y l IH]; cbn in *; [by rewrite Hx|].
  destruct (p y); [done|]. destruct (position p l); [done|]. by rewrite IH.
Qed.

(** Adding or updating an import records its resolved commit: afterwards the
    import is listed and its pin is the given commit, and there is still one pin
    per import. *)
Theorem update_import_pins (s s' : WorkingState) (o : OpUpdateImport) :
  update_import s o = Ok s' → ui_remove o = false →
  pin_of (meta s') (ui_import_path o) = Some (ui_resolved_commit o) ∧
  length (mp_dependency_commit (meta s')) = length (mp_dependency (meta s')).
Proof.
  intros [= <-] Hrem. cbn [meta with_meta]. unfold update_import_meta, pin_of. cbv zeta.
  rewrite Hrem.
  destruct (position (λ d, bool_decide (d = ui_import_path o)) (mp_dependency (meta s)))
    as [pos|] eqn:Hpos; cbn [mp_dependency mp_dependency_commit mp_with_imports].
  - rewrite Hpos. cbn. rewrite length_insert, length_resize. split; [|done].
    rewrite list_lookup_insert_eq; [done|]. rewrite length_resize. by apply position_lt in Hpos.
  - rewrite (position_app_None _ _ _ Hpos) by (by apply bool_decide_eq_true_2). cbn.
    rewrite !length_app, length_resize. split; [|done].
    rewrite lookup_app_r by (by rewrite length_resize). by rewrite length_resize, Nat.sub_diag.
Qed.

End Refs.

(** ** Witnesses *)

Definition ref_field (name : string) (number : Z) (type_name : string) : FieldDescriptorProto :=
  mkFieldDescriptorProto (Some name) (Some number) None (Some MtMessage) (Some type_name) None None
    None (Some name) None None None.

Definition rename_state : WorkingState :=
  state_of (<["A"%string := message "A" [ref_field "b" 1 ".pkg.B"]]>
           {[ "B"%string := message "B" [ref_field "self" 1 "B"] ]}).

Definition rename_b : OpRenameMessage := mkOpRenameMessage "B" "C".

Lemma rename_message_retargets_witness :
  let s' := unwrap_or (rename_message rename_state rename_b) rename_state in
  mentions s' "C" ↔
  ("C" ≠ "B" ∧ mentions rename_state "C") ∨ ("C" = rsplit_next "." "C" ∧ mentions rename_state "B").
Proof.
  apply (rename_message_retargets rename_state _ rename_b). apply is_ok_unwrap.
  vm_compute. reflexivity.
Defined.

Definition import_state : WorkingState :=
  with_meta (empty_state true)
    (mp_with_imports meta_default ["a"; "b"; "c"]%string [0; 2] [1; 2] ["p"%string]) false.

Lemma update_import_consistent_witness :
  let s' := unwrap_or (update_import import_state (mkOpUpdateImport "b" "" true)) import_state in
  imports_ok (meta s') ∧ mp_dependency (meta s') = ["a"; "c"]%string ∧
  import_at (mp_dependency (meta s')) <$> mp_public_dependency (meta s') = [Some "a"; Some "c"]%string ∧
  import_at (mp_dependency (meta s')) <$> mp_weak_dependency (meta s') = [Some "c"]%string.
Proof.
  apply (update_import_consistent import_state _ (mkOpUpdateImport "b" "" true) 1).
  - reflexivity.
  - split; [vm_compute; congruence|]. repeat constructor; vm_compute; congruence.
  - split; [vm_compute; congruence|]. repeat constructor; vm_compute; congruence.
  - reflexivity.
  - reflexivity.
Defined.

Lemma update_import_pins_witness :
  let s' := unwrap_or (update_import import_state (mkOpUpdateImport "d" "sha" false)) import_state in
  pin_of (meta s') "d" = Some "sha"%string ∧
  length (mp_dependency_commit (meta s')) = length (mp_dependency (meta s')).
Proof.
  apply (update_import_pins import_state _ (mkOpUpdateImport "d" "sha" false)); reflexivity.
Defined.
