(* ===== verification/Reassemble.v ===== *)
(** * Reassemble: splitting a file into declarations and putting it together

    [crates/schemahub-compiler-protobuf/src/parse.rs] turns a parsed file into
    one blob per top-level declaration and a metadata blob; [reassemble.rs]
    restores the file from the stored objects. The theorems show that the two
    are inverse on files whose declarations have distinct names, and what order
    reassembled declarations have after edits. *)
From S2P Require Import Prelude RustStd SchemaTypes ProtoSchema Codec DescriptorCodec DescriptorCodecLaws ProtocModel Blob Mutations.
From Stdlib Require Import Strings.Byte Ascii.

Open Scope Z_scope.

(** ** Splitting a file *)

Definition FILE_MESSAGE_TYPE : Z := 4.
Definition FILE_ENUM_TYPE : Z := 5.
Definition FILE_SERVICE : Z := 6.

Section Split.
Context {PS : ProtocSchema}.

Definition fd_with_type (f : FieldDescriptorProto) (t : option FieldType) : FieldDescriptorProto :=
  mkFieldDescriptorProto (fd_name f) (fd_number f) (fd_label f) t (fd_type_name f) (fd_extendee f)
    (fd_default_value f) (fd_oneof_index f) (fd_json_name f) (fd_options f) (fd_proto3_optional f)
    (fd_source_span f).

Definition insert_name (name : option string) (names : gset string) : gset string :=
  match name with Some n => {[ n ]} ∪ names | None => names end.

(** The names of enums and of messages. *)
Fixpoint collect_decl_names (msg : DescriptorProto) (names : gset string * gset string) :
    gset string * gset string :=
  let message_names := insert_name (dp_name msg) names.2 in
  let enum_names := foldl (λ names e, insert_name (ed_name e) names) names.1 (dp_enum_type msg) in
  foldl (λ names nested, collect_decl_names nested names) (enum_names, message_names)
    (dp_nested_type msg).

Definition resolve_field (enum_names message_names : gset string) (f : FieldDescriptorProto) :
    FieldDescriptorProto :=
  match fd_type f, fd_type_name f with
  | None, Some type_name =>
    let simple := rsplit_next "."%char type_name in
    if bool_decide (simple ∈ enum_names) then fd_with_type f (Some FT_Enum)
    else if bool_decide (simple ∈ message_names) then fd_with_type f (Some FT_Message)
    else f
  | _, _ => f
  end.

Fixpoint resolve_message_fields (enum_names message_names : gset string) (msg : DescriptorProto) :
    DescriptorProto :=
  mkDescriptorProto (dp_name msg) (resolve_field enum_names message_names <$> dp_field msg)
    (dp_extension msg) (map (resolve_message_fields enum_names message_names) (dp_nested_type msg))
    (dp_enum_type msg) (dp_extension_range msg) (dp_oneof_decl msg) (dp_options msg)
    (dp_reserved_range msg) (dp_reserved_name msg) (dp_visibility msg) (dp_source_span msg).

Definition fl_with_messages (f : FileDescriptorProto) (l : list DescriptorProto) : FileDescriptorProto :=
  mkFileDescriptorProto (fl_name f) (fl_package f) (fl_dependency f) (fl_public_dependency f)
    (fl_weak_dependency f) (fl_option_dependency f) l (fl_enum_type f) (fl_service f) (fl_extension f)
    (fl_options f) (fl_source_code_info f) (fl_syntax f) (fl_edition f).

Definition resolve_local_field_types (file : FileDescriptorProto) : FileDescriptorProto :=
  let enum_names := foldl (λ names e, insert_name (ed_name e) names) ∅ (fl_enum_type file) in
  let '(enum_names, message_names) :=
    foldl (λ names m, collect_decl_names m names) (enum_names, ∅) (fl_message_type file) in
  fl_with_messages file (resolve_message_fields enum_names message_names <$> fl_message_type file).

Definition message_name (m : DescriptorProto) : string := default ""%string (dp_name m).
Definition enum_name (e : EnumDescriptorProto) : string := default ""%string (ed_name e).
Definition service_name (s : ServiceDescriptorProto) : string := default ""%string (sd_name s).

(** The declarations with their names, in the order they are pushed. *)
Definition file_decls (file : FileDescriptorProto) : list (string * DeclPayload) :=
  ((λ m, (message_name m, PMessage m)) <$> fl_message_type file) ++
  ((λ e, (enum_name e, PEnum e)) <$> fl_enum_type file) ++
  ((λ s, (service_name s, PService s)) <$> fl_service file).

Definition file_meta (file : FileDescriptorProto) : MetaPayload :=
  mkMetaPayload (fl_name file) (fl_package file) (fl_dependency file) (fl_public_dependency file)
    (fl_weak_dependency file) (fl_option_dependency file) (fl_options file) (fl_syntax file)
    (fl_edition file) (fl_source_code_info file)
    (message_name <$> fl_message_type file) (enum_name <$> fl_enum_type file)
    (service_name <$> fl_service file) (fl_extension file)
    (replicate (length (fl_dependency file)) ""%string).

Definition split_file (file : FileDescriptorProto) : ParsedSchema :=
  let file := resolve_local_field_types file in
  mkParsedSchema (encode_meta (file_meta file)) ((λ d, (d.1, encode_decl d.2)) <$> file_decls file).

Definition map_parse_error (e : Z * string) : ParseError := SyntaxError e.1 e.2.

Definition parse_source `{!ProtocParser} (source : string) : outcome ParseError ParsedSchema :=
  '(file, errors) ← map_err map_parse_error (parse_collecting source);
  match errors with
  | err :: _ => Err (map_parse_error err)
  | [] => Ok (split_file file)
  end.

End Split.

(** ** Putting a file together *)

Section Reassemble.
Context {PS : ProtocSchema} {RF : RustFmt} {HO : HashOrder}.

(** Names in the order take their items out of the map. *)
Fixpoint remove_in_order {T} (by_name : gmap string T) (order : list string) : list T * gmap string T :=
  match order with
  | [] => ([], by_name)
  | name :: order =>
    match by_name !! name with
    | Some it => let '(out, rest) := remove_in_order (delete name by_name) order in (it :: out, rest)
    | None => remove_in_order by_name order
    end
  end.

Definition reorder_by_name {T} (items : list T) (order : list string) (name_of : T → string) : list T :=
  match order with
  | [] => items
  | _ =>
    let by_name := collect_map ((λ it, (name_of it, it)) <$> items) in
    let '(out, rest) := remove_in_order by_name order in
    out ++ (merge_sort key_le (hash_iter rest)).*2
  end.

(** The loop that decodes the declarations, in the order of the map. *)
Fixpoint decode_decls (decls : list (string * DeclBlob)) :
    outcome PrintError (list DescriptorProto * list EnumDescriptorProto * list ServiceDescriptorProto) :=
  match decls with
  | [] => Ok ([], [], [])
  | (_, blob) :: decls =>
    payload ← map_err (λ e, PrintMalformedBlob (fmt_blob_error e)) (decode_decl blob);
    '(messages, enums, services) ← decode_decls decls;
    Ok match payload with
       | PMessage m => (m :: messages, enums, services)
       | PEnum e => (messages, e :: enums, services)
       | PService s => (messages, enums, s :: services)
       end
  end.

(** [new_index]: the first position of each name, up to the first item without
    one. *)
Fixpoint index_names (i : nat) (names : list (option string)) (acc : gmap string Z) : gmap string Z :=
  match names with
  | Some name :: names =>
    index_names (S i) names
      (if acc !! name is Some _ then acc else <[name := wrap_i32 (Z.of_nat i)]> acc)
  | _ => acc
  end.

Fixpoint index_order (i : nat) (order : list string) (new_index : gmap string Z) (map : gmap Z Z) :
    gmap Z Z :=
  match order with
  | [] => map
  | name :: order =>
    index_order (S i) order new_index
      (if new_index !! name is Some new_i then <[wrap_i32 (Z.of_nat i) := new_i]> map else map)
  end.

Definition build_index_map (order : list string) (names : list (option string)) : gmap Z Z :=
  index_order 0 order (index_names 0 names ∅) ∅.

Definition remap_path (msg_map enum_map svc_map : gmap Z Z) (path : list Z) : list Z :=
  match path with
  | kind :: old_idx :: rest =>
    let remapped (map : gmap Z Z) := kind :: default old_idx (map !! old_idx) :: rest in
    if kind =? FILE_MESSAGE_TYPE then remapped msg_map
    else if kind =? FILE_ENUM_TYPE then remapped enum_map
    else if kind =? FILE_SERVICE then remapped svc_map
    else path
  | _ => path
  end.

Definition sl_with_path (l : SourceLocation) (path : list Z) : SourceLocation :=
  mkSourceLocation path (sl_span l) (sl_leading_comments l) (sl_trailing_comments l)
    (sl_leading_detached_comments l).

Definition remap_source_info (info : SourceCodeInfo) (meta : MetaPayload)
    (messages : list DescriptorProto) (enums : list EnumDescriptorProto)
    (services : list ServiceDescriptorProto) : SourceCodeInfo :=
  let msg_map := build_index_map (mp_message_order meta) (dp_name <$> messages) in
  let enum_map := build_index_map (mp_enum_order meta) (ed_name <$> enums) in
  let svc_map := build_index_map (mp_service_order meta) (sd_name <$> services) in
  mkSourceCodeInfo
    ((λ loc, sl_with_path loc (remap_path msg_map enum_map svc_map (sl_path loc))) <$> sci_location info).

Definition assemble_file (meta : MetaPayload) (messages : list DescriptorProto)
    (enums : list EnumDescriptorProto) (services : list ServiceDescriptorProto) : FileDescriptorProto :=
  mkFileDescriptorProto (mp_name meta) (mp_package meta) (mp_dependency meta)
    (mp_public_dependency meta) (mp_weak_dependency meta) (mp_option_dependency meta)
    messages enums services (mp_extension meta) (mp_options meta)
    ((λ info, remap_source_info info meta messages enums services) <$> mp_source_code_info meta)
    (mp_syntax meta) (mp_edition meta).

Definition reassemble (schema : SchemaObjects) : outcome PrintError FileDescriptorProto :=
  meta ← map_err (λ e, PrintMalformedBlob (fmt_blob_error e)) (decode_meta (so_meta schema));
  '(messages, enums, services) ← decode_decls (btree_iter (so_decls schema));
  Ok (assemble_file meta
        (reorder_by_name messages (mp_message_order meta) message_name)
        (reorder_by_name enums (mp_enum_order meta) enum_name)
        (reorder_by_name services (mp_service_order meta) service_name)).

End Reassemble.

(** ** The order of reassembled declarations *)

Section Reorder.
Context {HO : HashOrder} {T : Type} (name_of : T → string).

Lemma collect_map_lookup {K V} `{Countable K} (l : list (K * V)) k v :
  NoDup l.*1 → (k, v) ∈ l → collect_map l !! k = Some v.
Proof.
  intros Hd Hin. destruct (proj2 (collect_map_is_Some l k)) as [v' Hv'].
  { apply list_elem_of_fmap. by exists (k, v). }
  rewrite Hv'. f_equal. apply collect_map_elem in Hv'.
  apply list_elem_of_lookup in Hin as [i Hi], Hv' as [j Hj].
  assert (i = j) as -> by (eapply NoDup_lookup; [exact Hd|by rewrite list_lookup_fmap, ?Hi, ?Hj..]).
  congruence.
Qed.

Definition by_name (items : list T) : gmap string T := collect_map ((λ it, (name_of it, it)) <$> items).

Lemma by_name_lookup items name it :
  NoDup (name_of <$> items) → by_name items !! name = Some it ↔ it ∈ items ∧ name_of it = name.
Proof.
  intros Hd. unfold by_name. split.
  - intros H. apply collect_map_elem, list_elem_of_fmap in H as (it' & [= -> ->] & Hin). done.
  - intros [Hin <-]. apply collect_map_lookup.
    + rewrite <- list_fmap_compose. done.
    + apply list_elem_of_fmap. by exists it.
Qed.

(** What the loop takes out and what it leaves. *)
Lemma remove_in_order_perm (m : gmap string T) order :
  let '(out, rest) := remove_in_order m order in
  out ++ (map_to_list rest).*2 ≡ₚ (map_to_list m).*2.
Proof.
  revert m. induction order as [|name order IH]; intros m; cbn [remove_in_order]; [done|].
  destruct (m !! name) as [it|] eqn:Hm; [|apply IH]. specialize (IH (delete name m)).
  destruct (remove_in_order (delete name m) order) as [out rest]. cbn. rewrite IH.
  by rewrite <- (map_to_list_delete m name it Hm).
Qed.

Lemma remove_in_order_rest (m : gmap string T) order name :
  (remove_in_order m order).2 !! name = if bool_decide (name ∈ order) then None else m !! name.
Proof.
  revert m. induction order as [|n order IH]; intros m; cbn [remove_in_order]; [done|].
  destruct (m !! n) as [it|] eqn:Hm.
  - specialize (IH (delete n m)). destruct (remove_in_order (delete n m) order) as [out rest].
    cbn in *. rewrite IH. destruct (decide (name = n)) as [->|Hn].
    + rewrite lookup_delete_eq, (bool_decide_eq_true_2 (n ∈ n :: order)) by apply list_elem_of_here.
      by case_bool_decide.
    + rewrite lookup_delete_ne by done. repeat case_bool_decide; set_solver.
  - rewrite IH. destruct (decide (name = n)) as [->|Hn]; [by repeat case_bool_decide|].
    repeat case_bool_decide; set_solver.
Qed.

Lemma remove_in_order_out (m : gmap string T) order :
  (∀ n it, m !! n = Some it → name_of it = n) →
  (name_of <$> (remove_in_order m order).1) `sublist_of` order.
Proof.
  revert m. induction order as [|n order IH]; intros m Hm; cbn [remove_in_order]; [constructor|].
  destruct (m !! n) as [it|] eqn:Hn; [|apply sublist_cons; by apply IH].
  specialize (IH (delete n m)). destruct (remove_in_order (delete n m) order) as [out rest].
  cbn in *. rewrite (Hm n it Hn). constructor. apply IH.
  intros n' it' [_ H]%lookup_delete_Some. by apply Hm.
Qed.

Lemma by_name_items items :
  NoDup (name_of <$> items) → (map_to_list (by_name items)).*2 ≡ₚ items.
Proof.
  intros Hd. apply NoDup_Permutation.
  - apply (NoDup_fmap_1 name_of).
    rewrite <- list_fmap_compose. apply NoDup_fmap_2_strong; [|apply NoDup_map_to_list].
    intros [k1 v1] [k2 v2]. rewrite !elem_of_map_to_list. intros H1 H2 Heq.
    assert (k1 = k2) as -> by (apply by_name_lookup in H1, H2; [|done..]; cbn in Heq; naive_solver).
    congruence.
  - by apply NoDup_fmap_1 in Hd.
  - intros it. rewrite list_elem_of_fmap. split.
    + intros ([k v] & -> & H). apply elem_of_map_to_list, by_name_lookup in H; [|done]. naive_solver.
    + intros Hin. exists (name_of it, it). split; [done|]. by apply elem_of_map_to_list, by_name_lookup.
Qed.

Lemma hash_iter_items (m : gmap string T) : (merge_sort key_le (hash_iter m)).*2 ≡ₚ (map_to_list m).*2.
Proof. apply fmap_Permutation. by rewrite merge_sort_Permutation, hash_iter_perm. Qed.

Lemma sorted_keys (l : list (string * T)) : Sorted key_le l → Sorted String.le l.*1.
Proof.
  induction 1 as [|x l Hl IH Hx]; cbn; constructor; [done|]. destruct Hx as [|y l Hxy]; by constructor.
Qed.

(** Reassembled declarations, for items with distinct names: none is lost or
    duplicated; those whose name is recorded come first, in the recorded order;
    the others follow, sorted by name. *)
Theorem reorder_by_name_spec (items : list T) (order : list string) :
  NoDup (name_of <$> items) →
  reorder_by_name items order name_of ≡ₚ items ∧
  (order ≠ [] → ∃ known rest, reorder_by_name items order name_of = known ++ rest ∧
     (name_of <$> known) `sublist_of` order ∧
     (∀ it, it ∈ rest → name_of it ∉ order) ∧ Sorted String.le (name_of <$> rest)).
Proof.
  intros Hd. destruct order as [|n order]; [done|]. unfold reorder_by_name.
  set (l := n :: order). change (collect_map _) with (by_name items).
  pose proof (remove_in_order_perm (by_name items) l) as Hp.
  pose proof (remove_in_order_rest (by_name items) l) as Hr.
  pose proof (remove_in_order_out (by_name items) l) as Ho.
  destruct (remove_in_order (by_name items) l) as [out rest]. cbn [fst snd] in *.
  assert (∀ k it, rest !! k = Some it → name_of it = k ∧ k ∉ l) as Hrest.
  { intros k it Hk. rewrite Hr in Hk. case_bool_decide; [done|].
    apply by_name_lookup in Hk; [|done]. naive_solver. }
  split; [by rewrite hash_iter_items, Hp, by_name_items|]. intros _.
  exists out, (merge_sort key_le (hash_iter rest)).*2. split_and!; [done|..].
  - apply Ho. intros k it Hk. apply by_name_lookup in Hk; naive_solver.
  - intros it. rewrite hash_iter_items. intros ([k v] & -> & H%elem_of_map_to_list)%list_elem_of_fmap.
    cbn. apply Hrest in H as [-> ?]. done.
  - assert (∀ kv, kv ∈ merge_sort key_le (hash_iter rest) → name_of kv.2 = kv.1) as Hnames.
    { intros [k v]. rewrite merge_sort_Permutation, elem_of_hash_iter. intros H. by apply Hrest in H as [? _]. }
    pose proof (Sorted_merge_sort key_le (hash_iter rest)) as Hs. revert Hnames Hs.
    generalize (merge_sort key_le (hash_iter rest)) as l0. clear. intros l0 Hnames Hs.
    rewrite <- list_fmap_compose.
    replace ((name_of ∘ snd) <$> l0) with l0.*1; [by apply sorted_keys|].
    apply list_fmap_ext. intros i kv Hi. symmetry. apply Hnames. by eapply list_elem_of_lookup_2.
Qed.

(** Recording the own order of the items restores it. *)
Lemma remove_in_order_own (m : gmap string T) l :
  NoDup (name_of <$> l) → (∀ it, it ∈ l → m !! name_of it = Some it) →
  (remove_in_order m (name_of <$> l)).1 = l.
Proof.
  revert m. induction l as [|it l IH]; intros m Hd Hm; [done|]. cbn in *.
  apply NoDup_cons in Hd as [Hn Hd]. rewrite (Hm it) by apply list_elem_of_here.
  specialize (IH (delete (name_of it) m) Hd). destruct (remove_in_order _ _) as [out rest]. cbn in *.
  f_equal. apply IH. intros it' Hin. rewrite lookup_delete_ne; [apply Hm; by right|].
  intros Heq. apply Hn. rewrite Heq. by apply list_elem_of_fmap_2.
Qed.

Lemma reorder_own (items l : list T) :
  items ≡ₚ l → NoDup (name_of <$> l) → reorder_by_name items (name_of <$> l) name_of = l.
Proof.
  intros Hp Hd. destruct l as [|it l].
  { apply Permutation_nil_r in Hp as ->. done. }
  assert (NoDup (name_of <$> items)) as Hdi by (by rewrite Hp).
  unfold reorder_by_name. cbn [fmap list_fmap]. change (name_of it :: _) with (name_of <$> (it :: l)).
  change (collect_map _) with (by_name items).
  pose proof (remove_in_order_own (by_name items) (it :: l) Hd) as Ho.
  pose proof (remove_in_order_rest (by_name items) (name_of <$> it :: l)) as Hr.
  destruct (remove_in_order _ _) as [out rest]. cbn [fst snd] in *. rewrite Ho.
  - assert (rest = ∅) as ->.
    { apply map_empty. intros k. rewrite Hr. case_bool_decide as Hk; [done|].
      destruct (by_name items !! k) as [it'|] eqn:E; [|done]. apply by_name_lookup in E as [Hin <-]; [|done].
      exfalso. apply Hk, list_elem_of_fmap_2. by rewrite <- Hp. }
    rewrite <- (app_nil_r (it :: l)) at 2. f_equal. apply Permutation_nil_r. by rewrite hash_iter_items.
  - intros it' Hin. apply by_name_lookup; [done|]. split; [by rewrite Hp|done].
Qed.

End Reorder.

(** ** Splitting and reassembling *)

(** The objects that a parsed schema is stored as. *)
Definition parsed_objects (p : ParsedSchema) : SchemaObjects :=
  mkSchemaObjects (ps_meta p) (collect_map (ps_decls p)).

Section RoundTrip.
Context {PS : ProtocSchema} {PL : ProtocSchemaLaws PS} {RF : RustFmt} {HO : HashOrder}.

Definition fits_isize (bs : list byte) : Prop := Z.of_nat (length bs) <= isize_max.

Definition storable (d : string * DeclPayload) : Prop := wf_payload d.2 ∧ fits_isize (encode_decl d.2).

Definition encoded (d : string * DeclPayload) : string * DeclBlob := (d.1, encode_decl d.2).

Definition messages_of (l : list (string * DeclPayload)) : list DescriptorProto :=
  omap (λ d, match d.2 with PMessage m => Some (erase m) | _ => None end) l.
Definition enums_of (l : list (string * DeclPayload)) : list EnumDescriptorProto :=
  omap (λ d, match d.2 with PEnum e => Some (erase e) | _ => None end) l.
Definition services_of (l : list (string * DeclPayload)) : list ServiceDescriptorProto :=
  omap (λ d, match d.2 with PService s => Some s | _ => None end) l.

Lemma decode_decls_encoded l :
  Forall storable l → decode_decls (encoded <$> l) = Ok (messages_of l, enums_of l, services_of l).
Proof.
  induction 1 as [|[n p] l [Hwf Hfits] _ IH]; [done|]. cbn [fmap list_fmap encoded decode_decls fst snd].
  cbn [snd] in Hwf, Hfits. unfold fits_isize in Hfits.
  rewrite <- (app_nil_r (encode_decl p)) in Hfits |- *.
  rewrite decode_decl_encode_decl by done. cbn [map_err mbind outcome_bind].
  change (list_fmap _ _ encoded l) with (encoded <$> l). rewrite IH. by destruct p.
Qed.

Lemma omap_fmap_all {A B C} (f : B → option C) (g : A → B) (h : A → C) (l : list A) :
  (∀ a, f (g a) = Some (h a)) → omap f (g <$> l) = h <$> l.
Proof. intros H. induction l as [|a l IH]; [done|]. cbn. by rewrite H, IH. Qed.

Lemma omap_fmap_none {A B C} (f : B → option C) (g : A → B) (l : list A) :
  (∀ a, f (g a) = None) → omap f (g <$> l) = [].
Proof. intros H. induction l as [|a l IH]; [done|]. cbn. by rewrite H, IH. Qed.

Lemma file_decls_parts file :
  messages_of (file_decls file) = erase <$> fl_message_type file ∧
  enums_of (file_decls file) = erase <$> fl_enum_type file ∧
  services_of (file_decls file) = fl_service file.
Proof.
  unfold messages_of, enums_of, services_of, file_decls. rewrite !omap_app. split_and!.
  - rewrite (omap_fmap_all _ _ erase) by done. rewrite !omap_fmap_none by done. by rewrite !app_nil_r.
  - rewrite (omap_fmap_all _ _ erase) by done. rewrite !omap_fmap_none by done. by rewrite app_nil_r.
  - rewrite (omap_fmap_all _ _ id) by done. rewrite !omap_fmap_none by done. by rewrite list_fmap_id.
Qed.

Lemma erase_message_name m : message_name (erase m) = message_name m.
Proof. by destruct m. Qed.
Lemma erase_enum_name e : enum_name (erase e) = enum_name e.
Proof. by destruct e. Qed.

(** The stored declarations, in the order of their names. *)
Lemma btree_iter_collect {A} (l : list (string * A)) : NoDup l.*1 → btree_iter (collect_map l) ≡ₚ l.
Proof.
  intros Hd. unfold btree_iter. rewrite merge_sort_Permutation. apply NoDup_Permutation.
  - apply NoDup_map_to_list.
  - by apply NoDup_fmap_1 in Hd.
  - intros [k v]. rewrite elem_of_map_to_list. split; [apply collect_map_elem|by apply collect_map_lookup].
Qed.

(** Positions are mapped to themselves. *)
Lemma index_names_lookup i names acc name j :
  index_names i names acc !! name = Some j →
  acc !! name = Some j ∨ ∃ p, names !! p = Some (Some name) ∧ j = wrap_i32 (Z.of_nat (i + p)).
Proof.
  revert i acc. induction names as [|[n|] names IH]; intros i acc; cbn [index_names]; [by left| |by left].
  intros H. apply IH in H as [H|(p & Hp & ->)].
  - destruct (acc !! n) eqn:Hn; [by left|]. rewrite lookup_insert in H. case_decide as Hk; [|by left].
    simplify_eq. right. exists 0%nat. by rewrite Nat.add_0_r.
  - right. exists (S p). split; [done|]. by rewrite Nat.add_succ_r.
Qed.

Lemma index_order_lookup i order new_index map k j :
  index_order i order new_index map !! k = Some j →
  map !! k = Some j ∨
  ∃ p name, order !! p = Some name ∧ new_index !! name = Some j ∧ k = wrap_i32 (Z.of_nat (i + p)).
Proof.
  revert i map. induction order as [|n order IH]; intros i map; cbn [index_order]; [by left|].
  intros H. apply IH in H as [H|(p & name & Hp & Hn & ->)].
  - destruct (new_index !! n) as [new_i|] eqn:Hn; [|by left]. rewrite lookup_insert in H.
    case_decide as Hk; [|by left]. simplify_eq. right. exists 0%nat, n. by rewrite Nat.add_0_r.
  - right. exists (S p), name. split_and!; [done..|]. by rewrite Nat.add_succ_r.
Qed.

Lemma build_index_map_own {T} (l : list T) (name : T → option string) i j :
  NoDup ((λ x, default ""%string (name x)) <$> l) →
  build_index_map ((λ x, default ""%string (name x)) <$> l) (name <$> l) !! i = Some j → j = i.
Proof.
  intros Hd H. apply index_order_lookup in H as [H|(p & n & Hp & Hn & ->)]; [by rewrite lookup_empty in H|].
  apply index_names_lookup in Hn as [H|(q & Hq & ->)]; [by rewrite lookup_empty in H|].
  f_equal. f_equal. cbn. eapply NoDup_lookup; [exact Hd| |exact Hp].
  apply list_lookup_fmap_Some in Hq as (x & Hx & Hq). apply list_lookup_fmap_Some.
  exists x. by rewrite <- Hx.
Qed.

Lemma remap_path_own (ma mb mc : gmap Z Z) path :
  (∀ i j, ma !! i = Some j → j = i) → (∀ i j, mb !! i = Some j → j = i) →
  (∀ i j, mc !! i = Some j → j = i) → remap_path ma mb mc path = path.
Proof.
  intros Ha Hb Hc. destruct path as [|kind [|i rest]]; [done..|]. cbn [remap_path].
  repeat case_match; try done; do 2 f_equal;
    match goal with |- default i (?m !! i) = i => destruct (m !! i) eqn:E; cbn; eauto end.
Qed.

Lemma remap_source_info_own info file :
  NoDup (message_name <$> fl_message_type file) → NoDup (enum_name <$> fl_enum_type file) →
  NoDup (service_name <$> fl_service file) →
  remap_source_info info (file_meta file) (fl_message_type file) (fl_enum_type file) (fl_service file) = info.
Proof.
  intros Hm He Hs. unfold remap_source_info. destruct info as [locations]. f_equal. cbn [sci_location].
  rewrite <- (list_fmap_id locations) at 2. apply list_fmap_ext. intros _ loc _.
  rewrite remap_path_own; [by destruct loc|..]; intros i j; by apply build_index_map_own.
Qed.

(** The file without the parser's spans. *)
Definition erase_file (f : FileDescriptorProto) : FileDescriptorProto :=
  mkFileDescriptorProto (fl_name f) (fl_package f) (fl_dependency f) (fl_public_dependency f)
    (fl_weak_dependency f) (fl_option_dependency f) (erase <$> fl_message_type f)
    (erase <$> fl_enum_type f) (fl_service f) (erase <$> fl_extension f) (fl_options f)
    (fl_source_code_info f) (fl_syntax f) (fl_edition f).

Lemma file_meta_erase f : file_meta (erase_file f) = erase_meta (file_meta f).
Proof.
  unfold file_meta, erase_meta, erase_file, with_extension. cbn. rewrite <- !list_fmap_compose.
  f_equal; apply list_fmap_ext; intros; first [apply erase_message_name|apply erase_enum_name].
Qed.

Lemma file_decls_names file :
  (file_decls file).*1 =
  (message_name <$> fl_message_type file) ++ (enum_name <$> fl_enum_type file) ++
  (service_name <$> fl_service file).
Proof. unfold file_decls. by rewrite !fmap_app, <- !list_fmap_compose. Qed.

Lemma file_decls_nodup file :
  NoDup (file_decls file).*1 →
  NoDup (message_name <$> fl_message_type (erase_file file)) ∧
  NoDup (enum_name <$> fl_enum_type (erase_file file)) ∧
  NoDup (service_name <$> fl_service (erase_file file)).
Proof.
  rewrite file_decls_names. intros (Hm & _ & (He & _ & Hs)%NoDup_app)%NoDup_app. cbn.
  rewrite <- !list_fmap_compose. split_and!; [..|done].
  - erewrite list_fmap_ext; [exact Hm|]. intros. apply erase_message_name.
  - erewrite list_fmap_ext; [exact He|]. intros. apply erase_enum_name.
Qed.

(** The messages, enums and services of the stored declarations, in whatever
    order they are decoded. *)
Lemma decode_stored file :
  NoDup (file_decls file).*1 → Forall storable (file_decls file) →
  ∃ messages enums services,
    decode_decls (btree_iter (collect_map (encoded <$> file_decls file))) = Ok (messages, enums, services) ∧
    messages ≡ₚ fl_message_type (erase_file file) ∧ enums ≡ₚ fl_enum_type (erase_file file) ∧
    services ≡ₚ fl_service (erase_file file).
Proof.
  intros Hd Hst. destruct (file_decls_parts file) as (Hm & He & Hs).
  assert (btree_iter (collect_map (encoded <$> file_decls file)) ≡ₚ encoded <$> file_decls file) as Hp.
  { apply btree_iter_collect. by rewrite <- list_fmap_compose. }
  apply Permutation_map_inv in Hp as (l & -> & Hp).
  exists (messages_of l), (enums_of l), (services_of l).
  change (List.map encoded l) with (encoded <$> l).
  rewrite decode_decls_encoded by (by rewrite <- Hp). cbn [erase_file fl_message_type fl_enum_type fl_service].
  rewrite <- Hm, <- He, <- Hs. unfold messages_of, enums_of, services_of.
  split_and!; [done|by apply omap_Permutation..].
Qed.

(** C31. Splitting a file and reassembling it gives the file back, with the kinds
    of its local type references resolved, for every file whose declarations
    have distinct names and whose values are in the range of their Rust types.
    The source order of declarations and the positions of comments survive,
    although the objects are stored by name; only the parser's spans are
    lost. *)
Theorem split_reassemble (file : FileDescriptorProto) :
  let resolved := resolve_local_field_types file in
  NoDup (file_decls resolved).*1 → Forall storable (file_decls resolved) →
  wf_meta (file_meta resolved) → fits_isize (encode_meta (file_meta resolved)) →
  reassemble (parsed_objects (split_file file)) = Ok (erase_file resolved).
Proof.
  intros resolved Hd Hst Hwf Hfits. unfold reassemble, split_file, parsed_objects. fold resolved.
  cbn [so_meta so_decls ps_meta ps_decls]. rewrite decode_meta_encode_meta by done.
  cbn [map_err mbind outcome_bind]. change (λ d, (d.1, encode_decl d.2)) with encoded.
  destruct (decode_stored resolved Hd Hst) as (messages & enums & services & Hdec & Hpm & Hpe & Hps).
  unfold DeclBlob in *. rewrite Hdec. cbn [mbind outcome_bind]. f_equal. rewrite <- file_meta_erase.
  destruct (file_decls_nodup resolved Hd) as (Hm & He & Hs).
  cbn [file_meta mp_message_order mp_enum_order mp_service_order].
  rewrite !reorder_own by done.
  unfold assemble_file. cbn [file_meta mp_name mp_package mp_dependency mp_public_dependency
    mp_weak_dependency mp_option_dependency mp_extension mp_options mp_source_code_info mp_syntax mp_edition].
  destruct (fl_source_code_info (erase_file resolved)) as [info|] eqn:Ei; cbn [fmap option_fmap option_map].
  - rewrite remap_source_info_own by done. rewrite <- Ei. done.
  - rewrite <- Ei. done.
Qed.

End RoundTrip.

(** ** Witnesses *)

(** A file whose messages are not in the order of their names, with an enum
    field whose kind the parser left open and a comment on the first message. *)
Definition sample_file : FileDescriptorProto :=
  mkFileDescriptorProto None (Some "pkg"%string) ["x.proto"%string] [] [] []
    [message "Shape" [mkFieldDescriptorProto (Some "color"%string) (Some 1) None None (Some "pkg.Color"%string)
                        None None None (Some "color"%string) None None None];
     message "Area" [scalar_field "size" 1 MtInt64]]
    [mkEnumDescriptorProto (Some "Color"%string)
       [mkEnumValueDescriptorProto (Some "RED"%string) (Some 0) None None] None [] [] None None]
    [] [] None
    (Some (mkSourceCodeInfo [mkSourceLocation [4; 0] [3; 0; 5] (Some " a shape"%string) None []]))
    (Some "proto3"%string) None.

Lemma split_reassemble_witness :
  reassemble (parsed_objects (split_file sample_file)) = Ok (erase_file (resolve_local_field_types sample_file)).
Proof.
  apply (split_reassemble sample_file).
  - apply (bool_decide_eq_true_1 (NoDup _)). by vm_compute.
  - let l := eval vm_compute in (file_decls (resolve_local_field_types sample_file)) in
    change (Forall storable l).
    repeat apply Forall_cons_2; try apply Forall_nil_2; split; [solve_wf|by vm_compute|..]; solve_wf.
  - let m := eval vm_compute in (file_meta (resolve_local_field_types sample_file)) in change (wf_meta m).
    solve_wf.
  - by vm_compute.
Defined.

Lemma reorder_by_name_spec_witness :
  reorder_by_name ["a"; "b"; "c"]%string ["c"; "x"; "a"]%string id ≡ₚ ["a"; "b"; "c"]%string ∧
  ∃ known rest, reorder_by_name ["a"; "b"; "c"]%string ["c"; "x"; "a"]%string id = known ++ rest ∧
    (id <$> known) `sublist_of` ["c"; "x"; "a"]%string ∧
    (∀ it, it ∈ rest → id it ∉ ["c"; "x"; "a"]%string) ∧ Sorted String.le (id <$> rest).
Proof.
  destruct (reorder_by_name_spec id ["a"; "b"; "c"]%string ["c"; "x"; "a"]%string) as [Hp Ho].
  - apply (bool_decide_eq_true_1 (NoDup _)). by vm_compute.
  - split; [exact Hp|]. by apply Ho.
Defined.
