(* ===== verification/Printer.v ===== *)
(** * Printer: the canonical text of a schema

    [crates/schemahub-compiler-protobuf/src/printer.rs]. Every function of the
    source appends to a buffer; here it returns what it appends. *)
From S2P Require Import Prelude RustStd SchemaTypes ProtoSchema ProtocModel Blob Reassemble.
From Stdlib Require Import Ascii.

Open Scope Z_scope.
Open Scope string_scope.

(** ** Constants and small helpers *)

Definition MSG_FIELD : Z := 2.
Definition MSG_NESTED_TYPE : Z := 3.
Definition MSG_ENUM_TYPE : Z := 4.
Definition MSG_ONEOF_DECL : Z := 8.
Definition ENUM_VALUE : Z := 2.
Definition SERVICE_METHOD : Z := 2.

Definition spaces (depth : nat) : string := str_repeat "  " depth.

Definition quote (s : string) : string :=
  quoted (replace_char DOUBLE_QUOTE (of_char BACKSLASH +:+ of_char DOUBLE_QUOTE)
            (replace_char BACKSLASH (of_char BACKSLASH +:+ of_char BACKSLASH) s)).

Abbreviation comment_map := (gmap (list Z) SourceLocation).

(** The first location of a path wins. *)
Definition comment_index (info : SourceCodeInfo) : comment_map :=
  foldl (λ m loc, match m !! sl_path loc with Some _ => m | None => <[sl_path loc := loc]> m end)
    ∅ (sci_location info).

(** ** Comments *)

Definition emit_comment_block (indent text : string) : string :=
  str_concat
    ((λ l, indent +:+ "//" +:+
           (if negb (str_is_empty l) && negb (starts_with " " l) then " " else "") +:+ line l)
     <$> str_lines (trim_end_char NEWLINE text)).

Definition emit_comment (indent : string) (path : list Z) (comments : comment_map) : string :=
  match comments !! path with
  | None => ""
  | Some loc =>
    str_concat ((λ detached, emit_comment_block indent detached +:+ nl) <$> sl_leading_detached_comments loc)
    +:+ from_option (emit_comment_block indent) "" (sl_leading_comments loc)
  end.

Definition trailing_comment_suffix (path : list Z) (comments : comment_map) : string :=
  match comments !! path with
  | None => ""
  | Some loc =>
    match sl_trailing_comments loc with
    | None => ""
    | Some text =>
      let collapsed := join " " (trim <$> str_lines (trim_end_char NEWLINE text)) in
      if str_is_empty collapsed then ""
      else " //" +:+ (if starts_with " " collapsed then "" else " ") +:+ collapsed
    end
  end.

(** ** Type names *)

Definition rel_type_name (name : string) (pkg : option string) : string :=
  let trimmed := default name (strip_prefix "." name) in
  default trimmed
    (p ← pkg;
     rest ← (if str_is_empty p then None else strip_prefix p trimmed);
     strip_prefix "." rest).

Definition short_type_name (name : string) : string := rsplit_next "."%char name.

Section Printer.
Context {PS : ProtocSchema} {PP : ProtocParser}.

Definition has_type (f : FieldDescriptorProto) (t : FieldType) : bool := bool_decide (fd_type f = Some t).
Definition has_label (f : FieldDescriptorProto) (l : FieldLabel) : bool := bool_decide (fd_label f = Some l).

Definition type_str (field : FieldDescriptorProto) (pkg : option string) : string :=
  let named := from_option (λ n, rel_type_name n pkg) "" (fd_type_name field) in
  match fd_type field with
  | Some t =>
    if bool_decide (t = FT_Message) || bool_decide (t = FT_Enum) || bool_decide (t = FT_Group)
    then named else proto_name t
  | None => named
  end.

(** ** Fields *)

Abbreviation map_entry_map := (gmap string (FieldDescriptorProto * FieldDescriptorProto)).

Definition field_options_str (field : FieldDescriptorProto) : string :=
  let default_part :=
    match fd_default_value field with
    | Some d => ["default = " +:+ (if has_type field FT_String || has_type field FT_Bytes then quote d else d)]
    | None => []
    end in
  let option_parts :=
    match fd_options field with
    | Some opts =>
      ((if bool_decide (fdo_deprecated opts = Some true) then ["deprecated = true"] else []) ++
       (match fdo_packed opts with Some packed => ["packed = " +:+ fmt_bool packed] | None => [] end) ++
       (if bool_decide (fdo_lazy opts = Some true) then ["lazy = true"] else []))%list
    | None => []
    end in
  let json_part :=
    match fd_json_name field, fd_name field with
    | Some json_name, Some name =>
      if bool_decide (json_name = to_camel_case name) then [] else ["json_name = " +:+ quote json_name]
    | _, _ => []
    end in
  match (default_part ++ option_parts ++ json_part)%list with
  | [] => ""
  | parts => " [" +:+ join ", " parts +:+ "]"
  end.

(** The key and value of a map field. *)
Definition map_field (field : FieldDescriptorProto) (map_entries : map_entry_map) :
    option (FieldDescriptorProto * FieldDescriptorProto) :=
  if has_label field FL_Repeated && has_type field FT_Message then
    type_name ← fd_type_name field;
    map_entries !! short_type_name type_name
  else None.

Definition render_field_body (field : FieldDescriptorProto) (map_entries : map_entry_map)
    (pkg : option string) (is_proto2 : bool) : string :=
  let name := default "" (fd_name field) in
  let number := fmt_Z (default 0 (fd_number field)) in
  match map_field field map_entries with
  | Some (key, val) =>
    "map<" +:+ type_str key pkg +:+ ", " +:+ type_str val pkg +:+ "> " +:+ name +:+ " = " +:+ number +:+
    field_options_str field +:+ ";"
  | None =>
    let prefix :=
      if default false (fd_proto3_optional field) then "optional "
      else if has_label field FL_Repeated then "repeated "
      else if has_label field FL_Required then "required "
      else if has_label field FL_Optional && is_proto2 && negb (is_some (fd_oneof_index field)) then "optional "
      else "" in
    prefix +:+ type_str field pkg +:+ " " +:+ name +:+ " = " +:+ number +:+ field_options_str field +:+ ";"
  end.

Definition render_field := render_field_body.

(** ** Enums and services *)

Definition reserved_names (inner : string) (names : list string) : string :=
  match names with
  | [] => ""
  | _ => line (inner +:+ "reserved " +:+ join ", " (quote <$> names) +:+ ";")
  end.

Definition print_enum (en : EnumDescriptorProto) (depth : nat) (path : list Z) (comments : comment_map) :
    string :=
  let indent := spaces depth in
  let inner := spaces (S depth) in
  emit_comment indent path comments +:+
  line (indent +:+ "enum " +:+ default "" (ed_name en) +:+ " {") +:+
  match ed_options en with
  | None => ""
  | Some opts =>
    (if default false (eo_allow_alias opts) then line (inner +:+ "option allow_alias = true;") else "") +:+
    from_option (λ v, line (inner +:+ "option deprecated = " +:+ fmt_bool v +:+ ";")) "" (eo_deprecated opts)
  end +:+
  str_concat (imap (λ i val,
    emit_comment inner (path ++ [ENUM_VALUE; as_i32 i])%list comments +:+
    line (inner +:+ default "" (ev_name val) +:+ " = " +:+ fmt_Z (default 0 (ev_number val)) +:+ ";"))
    (ed_value en)) +:+
  str_concat ((λ r,
    let start := default 0 (err_start r) in
    let end_ := default 0 (err_end r) in
    if (start =? end_)%Z then line (inner +:+ "reserved " +:+ fmt_Z start +:+ ";")
    else line (inner +:+ "reserved " +:+ fmt_Z start +:+ " to " +:+ fmt_Z end_ +:+ ";"))
    <$> ed_reserved_range en) +:+
  reserved_names inner (ed_reserved_name en) +:+
  line (indent +:+ "}").

Definition print_service (svc : ServiceDescriptorProto) (path : list Z) (comments : comment_map)
    (pkg : option string) : string :=
  emit_comment "" path comments +:+
  line ("service " +:+ default "" (sd_name svc) +:+ " {") +:+
  str_concat (imap (λ i m,
    let stream (b : option bool) := if default false b then "stream " else "" in
    emit_comment "  " (path ++ [SERVICE_METHOD; as_i32 i])%list comments +:+
    line ("  rpc " +:+ default "" (md_name m) +:+ "(" +:+ stream (md_client_streaming m) +:+
          rel_type_name (default "" (md_input_type m)) pkg +:+ ") returns (" +:+
          stream (md_server_streaming m) +:+ rel_type_name (default "" (md_output_type m)) pkg +:+ ");"))
    (sd_method svc)) +:+
  line "}".

(** ** Messages *)

Definition is_map_entry (m : DescriptorProto) : bool :=
  default false (opts ← dp_options m; mo_map_entry opts).

(** The key and value fields of the map-entry types, by name. *)
Definition map_entries_of (msg : DescriptorProto) : map_entry_map :=
  collect_map (omap (λ n : DescriptorProto,
    key ← List.find (λ f, bool_decide (fd_number f = Some 1)) (dp_field n);
    val ← List.find (λ f, bool_decide (fd_number f = Some 2)) (dp_field n);
    name ← dp_name n;
    Some (name, (key, val))) (List.filter is_map_entry (dp_nested_type msg))).

Definition group_msgs (msg : DescriptorProto) : gset string :=
  list_to_set (omap (λ f, short_type_name <$> fd_type_name f)
                 (List.filter (λ f, has_type f FT_Group) (dp_field msg))).

Definition print_message_options (msg : DescriptorProto) (inner : string) : string :=
  match dp_options msg with
  | None => ""
  | Some opts =>
    let opt (name : string) (v : option bool) :=
      from_option (λ v, line (inner +:+ "option " +:+ name +:+ " = " +:+ fmt_bool v +:+ ";")) "" v in
    opt "message_set_wire_format" (mo_message_set_wire_format opts) +:+
    opt "no_standard_descriptor_accessor" (mo_no_standard_descriptor_accessor opts) +:+
    opt "deprecated" (mo_deprecated opts)
  end.

Definition print_group_field (parent : DescriptorProto) (field : FieldDescriptorProto) (depth : nat)
    (pkg : option string) (is_proto2 : bool) : string :=
  let indent := spaces (S depth) in
  let group_name := from_option short_type_name "" (fd_type_name field) in
  let label :=
    if has_label field FL_Repeated then "repeated "
    else if has_label field FL_Required then "required "
    else if has_label field FL_Optional && is_proto2 then "optional "
    else "" in
  line (indent +:+ label +:+ "group " +:+ group_name +:+ " = " +:+
        fmt_Z (default 0 (fd_number field)) +:+ " {") +:+
  match List.find (λ n : DescriptorProto, bool_decide (dp_name n = Some group_name)) (dp_nested_type parent) with
  | Some body =>
    str_concat ((λ f, spaces (S (S depth)) +:+ line (render_field_body f ∅ pkg is_proto2)) <$> dp_field body)
  | None => ""
  end +:+
  line (indent +:+ "}").

(** [vec.get(index as usize)]. *)
Definition get_i32 {A} (l : list A) (index : Z) : option A :=
  if ((0 <=? index) && (index <? Z.of_nat (length l)))%Z then l !! Z.to_nat index else None.

(** The field belongs to the block of this oneof. *)
Definition in_oneof (oneof_index : Z) (f : FieldDescriptorProto) : bool :=
  bool_decide (fd_oneof_index f = Some oneof_index) && negb (default false (fd_proto3_optional f)).

Section Fields.
Context (msg : DescriptorProto) (depth : nat) (path : list Z) (comments : comment_map)
  (pkg : option string) (is_proto2 : bool).

Definition field_path (i : nat) : list Z := (path ++ [MSG_FIELD; as_i32 i])%list.

Definition print_field_line (indent : string) (i : nat) (f : FieldDescriptorProto) : string :=
  emit_comment indent (field_path i) comments +:+ indent +:+
  render_field_body f (map_entries_of msg) pkg is_proto2 +:+
  line (trailing_comment_suffix (field_path i) comments).

Definition oneof_name (oneof_index : Z) : string :=
  default "" (o ← get_i32 (dp_oneof_decl msg) oneof_index; od_name o).

(** The loop over the fields; the inner loop prints the consecutive members of
    a oneof. *)
Fixpoint print_fields (i : nat) (l : list FieldDescriptorProto) : string :=
  let inner := spaces (S depth) in
  match l with
  | [] => ""
  | field :: rest =>
    if has_type field FT_Group then
      emit_comment inner (field_path i) comments +:+ print_group_field msg field depth pkg is_proto2 +:+
      print_fields (S i) rest
    else
      match fd_oneof_index field with
      | Some oneof_index =>
        if default false (fd_proto3_optional field) then
          print_field_line inner i field +:+ print_fields (S i) rest
        else
          emit_comment inner (path ++ [MSG_ONEOF_DECL; oneof_index])%list comments +:+
          line (inner +:+ "oneof " +:+ oneof_name oneof_index +:+ " {") +:+
          print_field_line (spaces (S (S depth))) i field +:+
          (fix members (i : nat) (l : list FieldDescriptorProto) : string :=
             match l with
             | [] => line (inner +:+ "}")
             | f :: l' =>
               if in_oneof oneof_index f
               then print_field_line (spaces (S (S depth))) i f +:+ members (S i) l'
               else line (inner +:+ "}") +:+ print_fields i l
             end) (S i) rest
      | None => print_field_line inner i field +:+ print_fields (S i) rest
      end
  end.

End Fields.

Definition print_extension_range (inner : string) (r : ExtensionRange) : string :=
  let start := default 0 (er_start r) in
  let last := wrap_i32 (default 0 (er_end r) - 1) in
  if (last <=? start)%Z then line (inner +:+ "extensions " +:+ fmt_Z start +:+ ";")
  else line (inner +:+ "extensions " +:+ fmt_Z start +:+ " to " +:+ fmt_Z last +:+ ";").

Definition print_reserved_range (inner : string) (r : ReservedRange) : string :=
  let start := default 0 (rr_start r) in
  let end_ := default 0 (rr_end r) in
  if (wrap_i32 (end_ - start) <=? 1)%Z then inner +:+ line ("reserved " +:+ fmt_Z start +:+ ";")
  else inner +:+ line ("reserved " +:+ fmt_Z start +:+ " to " +:+ fmt_Z (wrap_i32 (end_ - 1)) +:+ ";").

Fixpoint print_message (msg : DescriptorProto) (depth : nat) (path : list Z) (comments : comment_map)
    (pkg : option string) (is_proto2 : bool) : string :=
  let indent := spaces depth in
  let inner := spaces (S depth) in
  emit_comment indent path comments +:+
  line (indent +:+ "message " +:+ default "" (dp_name msg) +:+ " {") +:+
  print_message_options msg inner +:+
  print_fields msg depth path comments pkg is_proto2 0 (dp_field msg) +:+
  str_concat (imap (λ j en, print_enum en (S depth) (path ++ [MSG_ENUM_TYPE; as_i32 j])%list comments)
                (dp_enum_type msg)) +:+
  str_concat (enumerate_from (λ j nested,
    if is_map_entry nested || from_option (λ n, bool_decide (n ∈ group_msgs msg)) false (dp_name nested) then ""
    else print_message nested (S depth) (path ++ [MSG_NESTED_TYPE; as_i32 j])%list comments pkg is_proto2)
    0 (dp_nested_type msg)) +:+
  str_concat (print_extension_range inner <$> dp_extension_range msg) +:+
  str_concat (print_reserved_range inner <$> dp_reserved_range msg) +:+
  reserved_names inner (dp_reserved_name msg) +:+
  line (indent +:+ "}").

(** ** Files *)

Definition print_file_options (file : FileDescriptorProto) : string :=
  match fl_options file with
  | None => ""
  | Some opts =>
    let str (k : string) (v : option string) := (λ v, (k, quote v)) <$> v in
    let flag (k : string) (v : option bool) := (λ v, (k, fmt_bool v)) <$> v in
    let set := omap id
      [str "java_package" (fo_java_package opts);
       str "java_outer_classname" (fo_java_outer_classname opts);
       flag "java_multiple_files" (fo_java_multiple_files opts);
       str "go_package" (fo_go_package opts);
       str "objc_class_prefix" (fo_objc_class_prefix opts);
       str "csharp_namespace" (fo_csharp_namespace opts);
       str "php_namespace" (fo_php_namespace opts);
       str "ruby_package" (fo_ruby_package opts);
       flag "deprecated" (fo_deprecated opts);
       flag "cc_enable_arenas" (fo_cc_enable_arenas opts)] in
    match set with
    | [] => ""
    | _ => str_concat ((λ kv, line ("option " +:+ kv.1 +:+ " = " +:+ kv.2 +:+ ";")) <$> set) +:+ nl
    end
  end.

(** The extended types in the order they are first seen. *)
Definition extendees (extensions : list FieldDescriptorProto) : list string :=
  foldl (λ order ext,
    let extendee := default "" (fd_extendee ext) in
    if bool_decide (extendee ∈ order) then order else (order ++ [extendee])%list) [] extensions.

Definition print_extend_blocks (extensions : list FieldDescriptorProto) (pkg : option string)
    (is_proto2 : bool) : string :=
  str_concat ((λ extendee,
    line ("extend " +:+ rel_type_name extendee pkg +:+ " {") +:+
    str_concat ((λ ext, "  " +:+ line (render_field_body ext ∅ pkg is_proto2))
      <$> List.filter (λ e, bool_decide (default "" (fd_extendee e) = extendee)) extensions) +:+
    line "}" +:+ nl) <$> extendees extensions).

Inductive Top :=
  | TopMsg (i : nat)
  | TopEnum (i : nat)
  | TopSvc (i : nat).

Definition start_line (comments : comment_map) (path : list Z) : Z :=
  default i64_max (loc ← comments !! path; head (sl_span loc)).

(** The entries of [tops]: line, kind, index. *)
Definition top_entries (comments : comment_map) (kind : Z) (top : nat → Top) (n : nat) :
    list (Z * Z * nat * Top) :=
  (λ i, (start_line comments [kind; as_i32 i], kind, i, top i)) <$> seq 0 n.

(** [sort_by_key(|t| (t.0, t.1, t.2))]. *)
Definition top_le (a b : Z * Z * nat * Top) : Prop :=
  let '(l, k, i, _) := a in
  let '(l', k', i', _) := b in
  (l < l' ∨ (l = l' ∧ (k < k' ∨ (k = k' ∧ (i <= i')%nat))))%Z.

#[export] Instance top_le_dec : RelDecision top_le.
Proof. intros [[[l k] i] t] [[[l' k'] i'] t']. unfold top_le. apply _. Defined.

Definition tops (file : FileDescriptorProto) (comments : comment_map) : list (Z * Z * nat * Top) :=
  merge_sort top_le
    (top_entries comments FILE_MESSAGE_TYPE TopMsg (length (fl_message_type file)) ++
     top_entries comments FILE_ENUM_TYPE TopEnum (length (fl_enum_type file)) ++
     top_entries comments FILE_SERVICE TopSvc (length (fl_service file)))%list.

Definition is_proto2_file (file : FileDescriptorProto) : bool :=
  negb (is_some (fl_edition file)) &&
  match syntax_enum file with Proto2 => true | _ => false end.

Definition print_top (file : FileDescriptorProto) (comments : comment_map) (top : Top) : string :=
  let pkg := fl_package file in
  match top with
  | TopMsg i =>
    from_option (λ m, print_message m 0 [FILE_MESSAGE_TYPE; as_i32 i] comments pkg (is_proto2_file file)) ""
      (fl_message_type file !! i)
  | TopEnum i =>
    from_option (λ e, print_enum e 0 [FILE_ENUM_TYPE; as_i32 i] comments) "" (fl_enum_type file !! i)
  | TopSvc i =>
    from_option (λ s, print_service s [FILE_SERVICE; as_i32 i] comments pkg) "" (fl_service file !! i)
  end.

Definition print_preamble (file : FileDescriptorProto) : string :=
  match fl_edition file with
  | Some edition => line ("edition = " +:+ quoted edition +:+ ";") +:+ nl
  | None =>
    line ("syntax = " +:+ quoted (match syntax_enum file with Proto3 => "proto3" | _ => "proto2" end) +:+ ";")
    +:+ nl
  end +:+
  match fl_package file with
  | Some pkg => if str_is_empty pkg then "" else line ("package " +:+ pkg +:+ ";") +:+ nl
  | None => ""
  end +:+
  match fl_dependency file with
  | [] => ""
  | deps =>
    str_concat (imap (λ i dep,
      let modifier :=
        if bool_decide (as_i32 i ∈ fl_public_dependency file) then "public "
        else if bool_decide (as_i32 i ∈ fl_weak_dependency file) then "weak " else "" in
      line ("import " +:+ modifier +:+ quoted dep +:+ ";")) deps) +:+ nl
  end +:+
  print_file_options file.

(** [while out.ends_with("\n\n") { out.pop(); }], on the reversed text. *)
Fixpoint pop_blank_lines (reversed : list ascii) : list ascii :=
  match reversed with
  | a :: ((b :: _) as rest) =>
    if bool_decide (a = NEWLINE) && bool_decide (b = NEWLINE) then pop_blank_lines rest else reversed
  | _ => reversed
  end.

Definition trim_blank_lines (s : string) : string :=
  String.string_of_list_ascii (reverse (pop_blank_lines (reverse (String.list_ascii_of_string s)))).

Definition print_file (file : FileDescriptorProto) : string :=
  let comments := comment_index (default (mkSourceCodeInfo []) (fl_source_code_info file)) in
  trim_blank_lines
    (print_preamble file +:+
     str_concat ((λ t, print_top file comments t.2 +:+ nl) <$> tops file comments) +:+
     print_extend_blocks (fl_extension file) (fl_package file) (is_proto2_file file)).

End Printer.
