(* ===== verification/PrinterProps.v ===== *)
(** * PrinterProps: what the printed text keeps

    String literals read back; the text ends with one newline; and two ways in
    which the text does not describe the stored schema: options that are never
    printed, and a oneof that is printed as two blocks after its fields were
    reordered. *)
From S2P Require Import Prelude RustStd SchemaTypes ProtoSchema ProtocModel Blob Operations Mutations Reassemble Printer.
From Stdlib Require Import Ascii.

Open Scope Z_scope.
Open Scope string_scope.

(** ** String literals *)

(** The characters of a literal up to its closing quote, and what follows: a
    backslash stands for the character after it. *)
Fixpoint read_literal (s : string) : option (string * string) :=
  match s with
  | EmptyString => None
  | String a t =>
    if bool_decide (a = DOUBLE_QUOTE) then Some ("", t)
    else if bool_decide (a = BACKSLASH) then
      match t with
      | EmptyString => None
      | String b t => '(v, rest) ← read_literal t; Some (String b v, rest)
      end
    else '(v, rest) ← read_literal t; Some (String a v, rest)
  end.

Definition escape (s : string) : string :=
  replace_char DOUBLE_QUOTE (of_char BACKSLASH +:+ of_char DOUBLE_QUOTE)
    (replace_char BACKSLASH (of_char BACKSLASH +:+ of_char BACKSLASH) s).

Lemma escape_cons a s :
  escape (String a s) =
  if bool_decide (a = BACKSLASH) then String BACKSLASH (String BACKSLASH (escape s))
  else if bool_decide (a = DOUBLE_QUOTE) then String BACKSLASH (String DOUBLE_QUOTE (escape s))
  else String a (escape s).
Proof.
  unfold escape. cbn [replace_char]. destruct (bool_decide_reflect (a = BACKSLASH)) as [->|Hb]; [done|].
  change (of_char a +:+ ?s) with (String a s). cbn [replace_char].
  by destruct (bool_decide (a = DOUBLE_QUOTE)).
Qed.

(** A quoted string reads back: the literal that [quote] writes ends exactly
    at its closing quote, whatever follows, and stands for the string. *)
Theorem quote_reads_back (s rest : string) :
  ∃ body, quote s +:+ rest = String DOUBLE_QUOTE body ∧ read_literal body = Some (s, rest).
Proof.
  exists (escape s +:+ String DOUBLE_QUOTE rest). split.
  { unfold quote, quoted. fold (escape s).
    change (String DOUBLE_QUOTE ((escape s +:+ of_char DOUBLE_QUOTE) +:+ rest) =
            String DOUBLE_QUOTE (escape s +:+ (of_char DOUBLE_QUOTE +:+ rest))).
    by rewrite str_app_assoc. }
  induction s as [|a s IH]; [done|]. rewrite escape_cons.
  destruct (bool_decide_reflect (a = BACKSLASH)) as [->|Hb]; [|destruct (bool_decide_reflect (a = DOUBLE_QUOTE)) as [->|Hq]];
    change (String ?x ?t +:+ ?u) with (String x (t +:+ u)); cbn [read_literal].
  - change (String ?x ?t +:+ ?u) with (String x (t +:+ u)). cbn [read_literal]. by rewrite IH.
  - change (String ?x ?t +:+ ?u) with (String x (t +:+ u)). cbn [read_literal]. by rewrite IH.
  - by rewrite !bool_decide_eq_false_2, IH by done.
Qed.

(** ** The end of the text *)

Lemma ascii_list_app s t :
  String.list_ascii_of_string (s +:+ t) =
  (String.list_ascii_of_string s ++ String.list_ascii_of_string t)%list.
Proof.
  induction s as [|a s IH]; [done|]. change (String a s +:+ t) with (String a (s +:+ t)). cbn. by rewrite IH.
Qed.

Lemma string_of_list_app l k :
  String.string_of_list_ascii (l ++ k)%list = String.string_of_list_ascii l +:+ String.string_of_list_ascii k.
Proof. induction l as [|a l IH]; [done|]. cbn [app String.string_of_list_ascii]. by rewrite IH. Qed.

Lemma pop_blank_lines_spec l :
  (∃ a, a ∈ l ∧ a ≠ NEWLINE) → head l = Some NEWLINE →
  ∃ b rest, pop_blank_lines l = NEWLINE :: b :: rest ∧ b ≠ NEWLINE.
Proof.
  induction l as [|a l IH]; [done|]. intros (x & Hx & Hne) [= ->]. destruct l as [|b l].
  { by apply list_elem_of_singleton in Hx. }
  cbn [pop_blank_lines]. rewrite (bool_decide_eq_true_2 (NEWLINE = NEWLINE)) by done.
  destruct (bool_decide_reflect (b = NEWLINE)) as [->|Hb]; cbn [andb]; [|by eauto].
  apply IH; [|done]. exists x. split; [|done]. by apply elem_of_cons in Hx as [->|Hx].
Qed.

(** The text is empty or ends with a newline. *)
Definition closed (s : string) : Prop := s = "" ∨ ∃ t, s = t +:+ nl.

Lemma str_app_nil s : s +:+ "" = s.
Proof. induction s as [|a s IH]; [done|]. change (String a (s +:+ "") = String a s). by rewrite IH. Qed.

Lemma closed_app s t : closed s → closed t → closed (s +:+ t).
Proof.
  intros Hs [->|[u ->]]; [by rewrite str_app_nil|]. right. exists (s +:+ u). by rewrite str_app_assoc.
Qed.

Lemma closed_nil : closed "".
Proof. by left. Qed.

Lemma closed_line s : closed (line s).
Proof. right. by exists s. Qed.

Lemma closed_nl : closed nl.
Proof. right. by exists "". Qed.

Lemma closed_concat {A} (f : A → string) l : (∀ a, closed (f a)) → closed (str_concat (f <$> l)).
Proof. intros H. induction l as [|a l IH]; [apply closed_nil|]. by apply closed_app. Qed.

Lemma closed_concat_imap {A} (f : nat → A → string) l : (∀ i a, closed (f i a)) → closed (str_concat (imap f l)).
Proof.
  revert f. induction l as [|a l IH]; intros f H; [apply closed_nil|]. apply closed_app; [apply H|].
  apply IH. intros. apply H.
Qed.

Create HintDb closed.
#[export] Hint Resolve closed_nil closed_line closed_nl closed_app closed_concat closed_concat_imap : closed.

Section Text.
Context {PS : ProtocSchema} {PP : ProtocParser}.

Lemma closed_options file : closed (print_file_options file).
Proof.
  unfold print_file_options. destruct (fl_options file); [|auto with closed].
  cbv zeta. destruct (omap id _); [auto with closed|]. apply closed_app; [|auto with closed].
  apply closed_concat. auto with closed.
Qed.

Lemma closed_preamble file :
  ∃ a t, print_preamble file = String a t ∧ a ≠ NEWLINE ∧ ∃ u, print_preamble file = u +:+ nl.
Proof.
  assert (closed (print_preamble file)) as Hc.
  { unfold print_preamble. repeat apply closed_app; [..|apply closed_options].
    - destruct (fl_edition file); auto with closed.
    - destruct (fl_package file) as [p|]; [|auto with closed]. destruct (str_is_empty p); auto with closed.
    - destruct (fl_dependency file); [auto with closed|]. apply closed_app; [|auto with closed].
      apply closed_concat_imap. intros. apply closed_line. }
  assert (∃ a t, print_preamble file = String a t ∧ a ≠ NEWLINE) as (a & t & Heq & Ha).
  { unfold print_preamble. destruct (fl_edition file); eexists _, _; (split; [reflexivity|done]). }
  exists a, t. split_and!; [done..|]. destruct Hc as [Hc|Hc]; [|done]. congruence.
Qed.

(** The printed text of every file ends with exactly one newline. *)
Theorem print_file_ends_with_one_newline (file : FileDescriptorProto) :
  ∃ text last, print_file file = text +:+ String last nl ∧ last ≠ NEWLINE.
Proof.
  unfold print_file. set (comments := comment_index _). set (rest := str_concat _ +:+ _).
  assert (closed rest) as Hrest.
  { apply closed_app.
    - apply closed_concat. intros t. right. by eexists.
    - apply closed_concat. intros e. right.
      exists (line ("extend " +:+ rel_type_name e (fl_package file) +:+ " {") +:+
              str_concat ((λ ext, "  " +:+ line (render_field_body ext ∅ (fl_package file) (is_proto2_file file)))
                <$> List.filter (λ x, bool_decide (default "" (fd_extendee x) = e)) (fl_extension file)) +:+ line "}").
      by rewrite !str_app_assoc. }
  destruct (closed_preamble file) as (a & t & Hp & Ha & u & Hu).
  assert (∃ v, print_preamble file +:+ rest = v +:+ nl) as [v Hv].
  { destruct Hrest as [->|[w ->]]; [exists u; by rewrite str_app_nil|].
    exists (print_preamble file +:+ w). by rewrite str_app_assoc. }
  destruct (pop_blank_lines_spec (reverse (String.list_ascii_of_string (print_preamble file +:+ rest))))
    as (b & l & Hl & Hb).
  - exists a. split; [|done]. rewrite elem_of_reverse, Hp. apply list_elem_of_here.
  - rewrite Hv, ascii_list_app, reverse_app. done.
  - unfold trim_blank_lines. rewrite Hl. exists (String.string_of_list_ascii (reverse l)), b.
    split; [|done]. by rewrite !reverse_cons, <- app_assoc, string_of_list_app.
Qed.

End Text.

(** ** Options that are not printed *)

Section Forgets.
Context {PS : ProtocSchema} {PP : ProtocParser}.

Definition strip_value (v : EnumValueDescriptorProto) : EnumValueDescriptorProto :=
  mkEnumValueDescriptorProto (ev_name v) (ev_number v) None (ev_source_span v).

Definition strip_enum (e : EnumDescriptorProto) : EnumDescriptorProto :=
  mkEnumDescriptorProto (ed_name e) (strip_value <$> ed_value e) (ed_options e) (ed_reserved_range e)
    (ed_reserved_name e) (ed_visibility e) (ed_source_span e).

Definition strip_method (m : MethodDescriptorProto) : MethodDescriptorProto :=
  mkMethodDescriptorProto (md_name m) (md_input_type m) (md_output_type m) None (md_client_streaming m)
    (md_server_streaming m).

Definition strip_service (s : ServiceDescriptorProto) : ServiceDescriptorProto :=
  mkServiceDescriptorProto (sd_name s) (strip_method <$> sd_method s) None.

(** Drops the extensions declared in a message, the options of its oneofs and of
    its enum values, and its visibility. *)
Fixpoint strip_message (m : DescriptorProto) : DescriptorProto :=
  mkDescriptorProto (dp_name m) (dp_field m) [] (map strip_message (dp_nested_type m))
    (strip_enum <$> dp_enum_type m) (dp_extension_range m)
    ((λ o, mkOneofDescriptorProto (od_name o) None) <$> dp_oneof_decl m)
    (dp_options m) (dp_reserved_range m) (dp_reserved_name m) None (dp_source_span m).

Definition strip_file (f : FileDescriptorProto) : FileDescriptorProto :=
  mkFileDescriptorProto (fl_name f) (fl_package f) (fl_dependency f) (fl_public_dependency f)
    (fl_weak_dependency f) (fl_option_dependency f) (strip_message <$> fl_message_type f)
    (strip_enum <$> fl_enum_type f) (strip_service <$> fl_service f) (fl_extension f) (fl_options f)
    (fl_source_code_info f) (fl_syntax f) (fl_edition f).

Lemma imap_fmap_ext {A B C} (f : nat → B → C) (f' : nat → A → C) (g : A → B) (l : list A) :
  (∀ i a, f i (g a) = f' i a) → imap f (g <$> l) = imap f' l.
Proof. intros H. rewrite imap_fmap. apply imap_ext. intros i a _. apply H. Qed.

Lemma print_enum_strip e depth path comments :
  print_enum (strip_enum e) depth path comments = print_enum e depth path comments.
Proof.
  unfold print_enum. destruct e as [name values options ranges names vis span].
  cbn [strip_enum ed_name ed_value ed_options ed_reserved_range ed_reserved_name].
  do 4 f_equal. by erewrite imap_fmap_ext.
Qed.

Lemma print_service_strip s path comments pkg :
  print_service (strip_service s) path comments pkg = print_service s path comments pkg.
Proof.
  unfold print_service. destruct s as [name methods options]. cbn [strip_service sd_name sd_method].
  by erewrite imap_fmap_ext.
Qed.

Lemma find_fmap {A} (p : A → bool) (g : A → A) (l : list A) :
  (∀ a, p (g a) = p a) → List.find p (g <$> l) = g <$> List.find p l.
Proof. intros Hp. induction l as [|a l IH]; [done|]. cbn. rewrite Hp. by destruct (p a). Qed.

Lemma omap_filter_fmap {A C} (p : A → bool) (f : A → option C) (g : A → A) (l : list A) :
  (∀ a, p (g a) = p a) → (∀ a, f (g a) = f a) → omap f (List.filter p (g <$> l)) = omap f (List.filter p l).
Proof.
  intros Hp Hf. induction l as [|a l IH]; [done|]. cbn. rewrite Hp. destruct (p a); [|done].
  cbn. by rewrite Hf, IH.
Qed.

Lemma strip_nested m : dp_nested_type (strip_message m) = strip_message <$> dp_nested_type m.
Proof. by destruct m. Qed.

Lemma map_entries_strip m : map_entries_of (strip_message m) = map_entries_of m.
Proof.
  unfold map_entries_of. rewrite strip_nested. f_equal. apply omap_filter_fmap; by intros [].
Qed.

Lemma group_strip parent field depth pkg is_proto2 :
  print_group_field (strip_message parent) field depth pkg is_proto2 =
  print_group_field parent field depth pkg is_proto2.
Proof.
  unfold print_group_field. cbv zeta. rewrite strip_nested, find_fmap by (by intros []).
  by destruct (List.find _ _) as [[]|].
Qed.

Lemma oneof_name_strip m i : oneof_name (strip_message m) i = oneof_name m i.
Proof.
  unfold oneof_name, get_i32. destruct m as [? ? ? ? ? ? oneofs]. cbn [strip_message dp_oneof_decl].
  rewrite length_fmap. destruct (_ && _); [|done]. rewrite list_lookup_fmap. by destruct (oneofs !! _).
Qed.

Lemma print_fields_strip m depth path comments pkg is_proto2 i l :
  print_fields (strip_message m) depth path comments pkg is_proto2 i l =
  print_fields m depth path comments pkg is_proto2 i l.
Proof.
  assert (∀ indent i f,
    print_field_line (strip_message m) path comments pkg is_proto2 indent i f =
    print_field_line m path comments pkg is_proto2 indent i f) as Hl.
  { intros. unfold print_field_line. by rewrite map_entries_strip. }
  remember (length l) as n eqn:Hn. revert i l Hn. induction n as [n IH] using lt_wf_ind. intros i l ->.
  destruct l as [|f l]; [done|]. cbn [print_fields]. rewrite group_strip, !Hl.
  assert (∀ i, print_fields (strip_message m) depth path comments pkg is_proto2 i l =
               print_fields m depth path comments pkg is_proto2 i l) as Hrest.
  { intros. apply (IH (length l)); [cbn; lia|done]. }
  rewrite !Hrest. destruct (has_type f FT_Group); [done|].
  destruct (fd_oneof_index f) as [oneof|]; [|done]. destruct (default false _); [done|].
  rewrite oneof_name_strip. do 3 f_equal.
  match goal with
  | |- ?F _ l = ?G _ l =>
    assert (∀ l' j, (length l' <= length l)%nat → F j l' = G j l') as Hm; [|by apply Hm]
  end.
  induction l' as [|f' l' IHl]; intros j Hlen; [done|].
  destruct (in_oneof oneof f'); [rewrite Hl; f_equal; apply IHl; cbn in Hlen; lia|].
  f_equal. apply (IH (length (f' :: l'))); [cbn in *; lia|done].
Qed.

Lemma enumerate_from_strip (f f' : nat → DescriptorProto → string) j l :
  (∀ i m, m ∈ l → f i (strip_message m) = f' i m) →
  enumerate_from f j (strip_message <$> l) = enumerate_from f' j l.
Proof.
  revert j. induction l as [|m l IH]; intros j H; [done|]. cbn [fmap list_fmap enumerate_from].
  rewrite H by apply list_elem_of_here. f_equal. apply IH. intros i m' Hm. apply H. by right.
Qed.

Lemma print_message_strip m : ∀ depth path comments pkg is_proto2,
  print_message (strip_message m) depth path comments pkg is_proto2 =
  print_message m depth path comments pkg is_proto2.
Proof.
  induction m as [m IH] using DescriptorProto_nested_ind. intros depth path comments pkg is_proto2.
  pose proof (print_fields_strip m depth path comments pkg is_proto2 0 (dp_field m)) as Hf.
  assert (group_msgs (strip_message m) = group_msgs m) as Hg by (by destruct m).
  assert (∀ inner, print_message_options (strip_message m) inner = print_message_options m inner) as Ho
    by (by destruct m).
  destruct m as [name fields ext nested enums ranges oneofs options reserved names vis span].
  cbn [strip_message] in *. cbn [print_message]. rewrite Hg, Ho.
  cbn [dp_name dp_field dp_nested_type dp_enum_type dp_extension_range dp_reserved_range
       dp_reserved_name] in *.
  rewrite Hf. change (map strip_message nested) with (strip_message <$> nested). erewrite (imap_fmap_ext _ _ strip_enum); [|intros; apply print_enum_strip].
  erewrite (enumerate_from_strip _ _ 0 nested); [reflexivity|]. intros i n Hn.
  assert (is_map_entry (strip_message n) = is_map_entry n ∧ dp_name (strip_message n) = dp_name n) as [-> ->]
    by (by destruct n).
  by rewrite IH.
Qed.

(** The printer forgets: dropping the options of services, methods, enum
    values and oneofs, the extensions declared inside messages and the
    visibility of messages from a file does not change its text. Two files that
    differ only there are stored as different blobs and printed alike. *)
Theorem print_file_forgets_options (file : FileDescriptorProto) :
  (∀ f g, fl_syntax f = fl_syntax g → syntax_enum f = syntax_enum g) →
  print_file (strip_file file) = print_file file.
Proof.
  intros Hsyn. unfold print_file.
  assert (is_proto2_file (strip_file file) = is_proto2_file file) as Hp2.
  { unfold is_proto2_file. by rewrite (Hsyn (strip_file file) file). }
  assert (print_preamble (strip_file file) = print_preamble file) as Hpre.
  { unfold print_preamble, print_file_options. by rewrite (Hsyn (strip_file file) file). }
  rewrite Hp2, Hpre. cbn [strip_file fl_extension fl_package fl_source_code_info].
  set (comments := comment_index _).
  assert (tops (strip_file file) comments = tops file comments) as Ht.
  { unfold tops. cbn [strip_file fl_message_type fl_enum_type fl_service]. by rewrite !length_fmap. }
  rewrite Ht. do 4 f_equal. apply list_fmap_ext. intros _ [k top] _. f_equal. cbn [snd].
  unfold print_top. rewrite Hp2. cbn [strip_file fl_message_type fl_enum_type fl_service fl_package].
  destruct top as [i|i|i]; rewrite list_lookup_fmap.
  - destruct (fl_message_type file !! i); [apply print_message_strip|done].
  - destruct (fl_enum_type file !! i); [apply print_enum_strip|done].
  - destruct (fl_service file !! i); [apply print_service_strip|done].
Qed.

End Forgets.

(** ** Reordered oneof members *)

Definition oneof_member (name : string) (number : Z) : FieldDescriptorProto :=
  mkFieldDescriptorProto (Some name) (Some number) None (Some MtInt32) None None None (Some 0) (Some name)
    None None None.

(** [message M { oneof choice { int32 a = 1; int32 b = 2; } int32 c = 3; }]. *)
Definition oneof_message : DescriptorProto :=
  mkDescriptorProto (Some "M") [oneof_member "a" 1; oneof_member "b" 2; scalar_field "c" 3 MtInt32]
    [] [] [] [] [mkOneofDescriptorProto (Some "choice") None] None [] [] None None.

Lemma print_file_forgets_options_witness :
  print_file (strip_file sample_file) = print_file sample_file.
Proof. apply print_file_forgets_options. intros f g H. cbn. by rewrite H. Defined.

Definition oneof_state : WorkingState :=
  mkWorkingState {[ "M" := oneof_message ]} ∅ ∅ meta_default false ∅ ∅ ∅ false.

Definition text_of (lines : list string) : string := str_concat (line <$> lines).

(** [ReorderFields] may move a field between the members of a oneof, and the
    printer opens a block for every run of members: the message is then printed
    with two oneofs of the same name. *)
Theorem reordered_oneof_printed_twice :
  ∃ s' m',
    apply oneof_state (ReorderFields (mkOpReorderFields "M" ["a"; "c"; "b"])) = Ok s' ∧
    messages s' !! "M" = Some m' ∧
    print_message oneof_message 0 [] ∅ None false =
      text_of ["message M {"; "  oneof choice {"; "    int32 a = 1;"; "    int32 b = 2;"; "  }";
               "  int32 c = 3;"; "}"] ∧
    print_message m' 0 [] ∅ None false =
      text_of ["message M {"; "  oneof choice {"; "    int32 a = 1;"; "  }"; "  int32 c = 3;";
               "  oneof choice {"; "    int32 b = 2;"; "  }"; "}"].
Proof.
  set (r := apply oneof_state (ReorderFields (mkOpReorderFields "M" ["a"; "c"; "b"]))).
  exists (unwrap_or r oneof_state), (default oneof_message (messages (unwrap_or r oneof_state) !! "M")).
  assert (is_some (messages (unwrap_or r oneof_state) !! "M") = true) as Hm by (by vm_compute).
  split_and!; [apply is_ok_unwrap| |..]; [by vm_compute| |by vm_compute..].
  by destruct (messages (unwrap_or r oneof_state) !! "M").
Qed.
