(* ===== verification/ProtoCodegen.v ===== *)
(** * ProtoCodegen: descriptors and generated code of a Protobuf closure

    [crates/schemahub-compiler-protobuf/src/codegen.rs]: the files of a closure
    in the order of their paths, the resolution of named references across the
    closure, and the two artifacts. The crate [protoc_rs_codegen], which prints
    the Rust modules, is a parameter. *)
From S2P Require Import Prelude RustStd SchemaTypes ProtoSchema Codec DescriptorCodec DescriptorCodecLaws ProtocModel Blob Mutations Reassemble.
From Stdlib Require Import Strings.Byte Ascii.

Open Scope Z_scope.

Inductive SymbolKind := SymMessage | SymEnum.

#[export] Instance SymbolKind_eq_dec : EqDecision SymbolKind.
Proof. solve_decision. Defined.

(** ** Names *)

Definition join_name (prefix name : string) : string :=
  if str_is_empty prefix then name
  else if str_is_empty name then prefix
  else prefix +:+ "." +:+ name.

Abbreviation symbol_table := (gmap string SymbolKind).

(** The loop of [resolve_symbol]: the enclosing scopes, innermost first. *)
Fixpoint search_scopes (fuel : nat) (candidate_scope name : string) (symbols : symbol_table) :
    outcome string (option (string * SymbolKind)) :=
  match fuel with
  | O => Stuck
  | S fuel =>
    let candidate := join_name candidate_scope name in
    match symbols !! candidate with
    | Some kind => Ok (Some (candidate, kind))
    | None =>
      match rsplit_once "." candidate_scope with
      | Some (parent, _) => search_scopes fuel parent name symbols
      | None => Ok ((λ kind, (name, kind)) <$> symbols !! name)
      end
    end
  end.

Definition resolve_symbol (name scope : string) (symbols : symbol_table) :
    outcome string (option (string * SymbolKind)) :=
  match strip_prefix "." name with
  | Some absolute => Ok ((λ kind, (absolute, kind)) <$> symbols !! absolute)
  | None => search_scopes (S (String.length scope)) scope name symbols
  end.

Definition register_symbol (symbols : symbol_table) (name : string) (kind : SymbolKind) :
    outcome string symbol_table :=
  _ ← fail_if (str_is_empty name) "protobuf declaration is missing a name"%string;
  _ ← fail_if (is_some (symbols !! name)) ("duplicate protobuf symbol: ." +:+ name);
  Ok (<[name := kind]> symbols).

(** A loop over a table that stops at the first error. *)
Fixpoint foldM {S A E} (f : A → S → outcome E S) (l : list A) (s : S) : outcome E S :=
  match l with
  | [] => Ok s
  | x :: l => s ← f x s; foldM f l s
  end.

Section Codegen.
Context {PS : ProtocSchema} {RF : RustFmt} {HO : HashOrder}.

(** ** The symbols of the closure *)

Definition register_enum (parent : string) (e : EnumDescriptorProto) (symbols : symbol_table) :
    outcome string symbol_table :=
  register_symbol symbols (join_name parent (enum_name e)) SymEnum.

Fixpoint register_message_symbols (parent : string) (message : DescriptorProto) (symbols : symbol_table) :
    outcome string symbol_table :=
  let name := join_name parent (message_name message) in
  symbols ← register_symbol symbols name SymMessage;
  symbols ← foldM (register_message_symbols name) (dp_nested_type message) symbols;
  foldM (register_enum name) (dp_enum_type message) symbols.

Definition file_package (file : FileDescriptorProto) : string := default ""%string (fl_package file).

Definition register_file_symbols (file : FileDescriptorProto) (symbols : symbol_table) :
    outcome string symbol_table :=
  let package := file_package file in
  symbols ← foldM (register_message_symbols package) (fl_message_type file) symbols;
  foldM (register_enum package) (fl_enum_type file) symbols.

(** ** Resolving references *)

Definition fd_with_resolved (f : FieldDescriptorProto) (t : FieldType) (name : string) :
    FieldDescriptorProto :=
  mkFieldDescriptorProto (fd_name f) (fd_number f) (fd_label f) (Some t) (Some name) (fd_extendee f)
    (fd_default_value f) (fd_oneof_index f) (fd_json_name f) (fd_options f) (fd_proto3_optional f)
    (fd_source_span f).

Definition fd_with_extendee (f : FieldDescriptorProto) (extendee : option string) : FieldDescriptorProto :=
  mkFieldDescriptorProto (fd_name f) (fd_number f) (fd_label f) (fd_type f) (fd_type_name f) extendee
    (fd_default_value f) (fd_oneof_index f) (fd_json_name f) (fd_options f) (fd_proto3_optional f)
    (fd_source_span f).

Definition resolved_type (t : option FieldType) (kind : SymbolKind) : FieldType :=
  match kind with
  | SymMessage => if bool_decide (t = Some FT_Group) then FT_Group else FT_Message
  | SymEnum => FT_Enum
  end.

Definition resolve_field_type (scope : string) (symbols : symbol_table) (field : FieldDescriptorProto) :
    outcome string FieldDescriptorProto :=
  match fd_type_name field with
  | None => Ok field
  | Some type_name =>
    found ← resolve_symbol type_name scope symbols;
    '(resolved, kind) ← ok_or found ("unresolved protobuf type `" +:+ type_name +:+ "` from scope `." +:+
                                     scope +:+ "`");
    Ok (fd_with_resolved field (resolved_type (fd_type field) kind) ("." +:+ resolved))
  end.

Definition resolve_message_reference (scope : string) (symbols : symbol_table) (role : string)
    (reference : option string) : outcome string (option string) :=
  match reference with
  | None => Ok None
  | Some name =>
    found ← resolve_symbol name scope symbols;
    '(resolved, kind) ← ok_or found ("unresolved protobuf " +:+ role +:+ " type `" +:+ name +:+
                                     "` from scope `." +:+ scope +:+ "`");
    _ ← fail_if (negb (bool_decide (kind = SymMessage)))
          ("protobuf " +:+ role +:+ " type `" +:+ name +:+ "` resolves to an enum, not a message");
    Ok (Some ("." +:+ resolved))
  end.

Definition resolve_extension (scope : string) (symbols : symbol_table) (extension : FieldDescriptorProto) :
    outcome string FieldDescriptorProto :=
  extension ← resolve_field_type scope symbols extension;
  extendee ← resolve_message_reference scope symbols "extendee" (fd_extendee extension);
  Ok (fd_with_extendee extension extendee).

Fixpoint resolve_message_types (symbols : symbol_table) (scope : string) (message : DescriptorProto) :
    outcome string DescriptorProto :=
  field ← mapM (resolve_field_type scope symbols) (dp_field message);
  extension ← mapM (resolve_extension scope symbols) (dp_extension message);
  nested ← mapM (λ nested, resolve_message_types symbols (join_name scope (message_name nested)) nested)
             (dp_nested_type message);
  Ok (dp_with_members message field extension nested).

Definition resolve_method (scope : string) (symbols : symbol_table) (method : MethodDescriptorProto) :
    outcome string MethodDescriptorProto :=
  input_type ← resolve_message_reference scope symbols "RPC input" (md_input_type method);
  output_type ← resolve_message_reference scope symbols "RPC output" (md_output_type method);
  Ok (mkMethodDescriptorProto (md_name method) input_type output_type (md_options method)
        (md_client_streaming method) (md_server_streaming method)).

Definition resolve_service (scope : string) (symbols : symbol_table) (service : ServiceDescriptorProto) :
    outcome string ServiceDescriptorProto :=
  method ← mapM (resolve_method scope symbols) (sd_method service);
  Ok (mkServiceDescriptorProto (sd_name service) method (sd_options service)).

Definition resolve_file_types (symbols : symbol_table) (file : FileDescriptorProto) :
    outcome string FileDescriptorProto :=
  let package := file_package file in
  message_type ← mapM (λ m, resolve_message_types symbols (join_name package (message_name m)) m)
                   (fl_message_type file);
  extension ← mapM (resolve_extension package symbols) (fl_extension file);
  service ← mapM (resolve_service package symbols) (fl_service file);
  Ok (mkFileDescriptorProto (fl_name file) (fl_package file) (fl_dependency file)
        (fl_public_dependency file) (fl_weak_dependency file) (fl_option_dependency file) message_type
        (fl_enum_type file) service extension (fl_options file) (fl_source_code_info file)
        (fl_syntax file) (fl_edition file)).

Definition resolve_named_types (set : list FileDescriptorProto) : outcome string (list FileDescriptorProto) :=
  symbols ← foldM register_file_symbols set ∅;
  mapM (resolve_file_types symbols) set.

(** ** Artifacts *)

Definition fl_with_name (file : FileDescriptorProto) (name : string) : FileDescriptorProto :=
  mkFileDescriptorProto (Some name) (fl_package file) (fl_dependency file) (fl_public_dependency file)
    (fl_weak_dependency file) (fl_option_dependency file) (fl_message_type file) (fl_enum_type file)
    (fl_service file) (fl_extension file) (fl_options file) (fl_source_code_info file) (fl_syntax file)
    (fl_edition file).

Definition entry_file (entry : SchemaPath * SchemaObjects) : outcome string FileDescriptorProto :=
  file ← map_err fmt_print_error (reassemble entry.2);
  Ok (match fl_name file with
      | Some _ => file
      | None => fl_with_name file (fmt_schema_path entry.1)
      end).

Definition build_set (closure : SchemaClosure) : outcome string (list FileDescriptorProto) :=
  mapM entry_file (sorted_entries closure).

Definition write_file (file : FileDescriptorProto) : list byte :=
  let parsed := split_file file in
  write_bytes (ps_meta parsed) ++
  write_uvarint (wrap_u64 (Z.of_nat (length (ps_decls parsed)))) ++
  concat ((λ d, write_str d.1 ++ write_bytes d.2) <$> ps_decls parsed).

Definition generate_descriptors (closure : SchemaClosure) : outcome DescriptorError (list byte) :=
  set ← map_err DescriptorOther (build_set closure);
  Ok (write_u8 BLOB_VERSION ++ write_uvarint (wrap_u64 (Z.of_nat (length set))) ++
      concat (write_file <$> set)).

Definition print_module (m : string * string) : string :=
  "// ===== module " +:+ m.1 +:+ " =====" +:+ of_char NEWLINE +:+ m.2 +:+ of_char NEWLINE.

Definition generate_code `{!ProtocCodegen} (closure : SchemaClosure) (lang : Language) :
    outcome CodegenError string :=
  match lang with
  | LangRust =>
    set ← map_err CodegenOther (build_set closure);
    set ← map_err CodegenOther (resolve_named_types set);
    modules ← map_err CodegenOther (generate_rust set);
    Ok (str_concat (print_module <$> btree_iter modules))
  | other => Err (UnsupportedLanguage other)
  end.

End Codegen.
