(* ===== verification/ProtoCodegenProps.v ===== *)
(** * ProtoCodegenProps: what the artifacts of a closure contain

    The artifacts of [ProtoCodegen] do not depend on the iteration order of hash
    maps, references are resolved from the innermost scope outwards, and every
    reference of the files that are handed to the code generator names a
    declaration of the closure. *)
From S2P Require Import Prelude RustStd SchemaTypes ProtoSchema Codec DescriptorCodec DescriptorCodecLaws ProtocModel Blob Mutations Reassemble ProtoCodegen.
From Stdlib Require Import Strings.Byte Ascii.

Open Scope Z_scope.

(** ** Determinism *)

Section Order.
Context {PS : ProtocSchema} {RF : RustFmt}.

Lemma reorder_by_name_order (HO HO' : HashOrder) {T} (items : list T) order (name_of : T → string) :
  @reorder_by_name HO T items order name_of = @reorder_by_name HO' T items order name_of.
Proof.
  unfold reorder_by_name. destruct order as [|n order]; [done|]. cbv zeta.
  destruct (remove_in_order _ _) as [out rest]. do 2 f_equal. apply (merge_sort_perm key_le).
  - intros [k v] [k' v'] Hx Hy Hxy Hyx. apply elem_of_hash_iter in Hx, Hy.
    assert (k = k') as -> by (by apply (anti_symm String.le)). congruence.
  - by rewrite !hash_iter_perm.
Qed.

Lemma reassemble_order (HO HO' : HashOrder) schema :
  @reassemble PS RF HO schema = @reassemble PS RF HO' schema.
Proof.
  unfold reassemble. destruct (map_err _ _); [|done..]. cbn [mbind outcome_bind].
  destruct (decode_decls _) as [[[? ?] ?]| | |]; [|done..]. cbn [mbind outcome_bind].
  by rewrite !(reorder_by_name_order HO HO').
Qed.

Lemma build_set_order (HO HO' : HashOrder) closure :
  @build_set PS RF HO closure = @build_set PS RF HO' closure.
Proof.
  unfold build_set. rewrite (sorted_entries_order HO HO').
  induction (@sorted_entries HO' closure) as [|e l IH]; [done|]. cbn [mapM]. rewrite IH.
  unfold entry_file. by rewrite (reassemble_order HO HO').
Qed.

(** Both artifacts of a closure are functions of the closure alone: the
    iteration order of hash maps, which differs between processes, changes
    neither the descriptor bytes nor the generated code. *)
Theorem artifacts_deterministic `{!ProtocCodegen} (HO HO' : HashOrder) (closure : SchemaClosure)
    (lang : Language) :
  @generate_descriptors PS RF HO closure = @generate_descriptors PS RF HO' closure ∧
  @generate_code PS RF HO _ closure lang = @generate_code PS RF HO' _ closure lang.
Proof.
  unfold generate_descriptors, generate_code. rewrite (build_set_order HO HO'). by destruct lang.
Qed.

End Order.

(** ** Scopes *)

Lemma rsplit_once_length c s p r :
  rsplit_once c s = Some (p, r) → (String.length p < String.length s)%nat.
Proof.
  revert p. induction s as [|a s IH]; [done|]; intros p. cbn.
  destruct (rsplit_once c s) as [[p' r']|].
  - intros [= <- ->]. cbn. specialize (IH p' eq_refl). lia.
  - case_bool_decide; [|done]. intros [= <- <-]. cbn. lia.
Qed.

(** The scopes around a name, innermost first. *)
Fixpoint enclosing (fuel : nat) (scope : string) : list string :=
  match fuel with
  | O => []
  | S fuel =>
    scope :: match rsplit_once "." scope with Some (parent, _) => enclosing fuel parent | None => [] end
  end.

Definition scopes_of (scope : string) : list string := enclosing (S (String.length scope)) scope.

(** The first of the names that is a symbol. *)
Definition first_symbol (symbols : symbol_table) (names : list string) : option (string * SymbolKind) :=
  head (omap (λ n, pair n <$> symbols !! n) names).

Lemma search_scopes_spec fuel scope name symbols :
  (String.length scope < fuel)%nat →
  search_scopes fuel scope name symbols =
  Ok (first_symbol symbols (((λ s, join_name s name) <$> enclosing fuel scope) ++ [name])).
Proof.
  revert scope. induction fuel as [|fuel IH]; intros scope Hf; [lia|].
  cbn [search_scopes enclosing]. cbv zeta. unfold first_symbol in *. cbn [fmap list_fmap app omap list_omap].
  destruct (symbols !! join_name scope name) as [kind|] eqn:E; [done|]. cbn [fmap option_fmap option_map].
  destruct (rsplit_once "." scope) as [[parent r]|] eqn:Er.
  - apply rsplit_once_length in Er. rewrite IH by lia. done.
  - cbn [fmap list_fmap app omap list_omap]. by destruct (symbols !! name).
Qed.

(** ** The symbols of a set of files *)

Section Symbols.
Context {PS : ProtocSchema}.

Definition enum_symbol (parent : string) (e : EnumDescriptorProto) : string * SymbolKind :=
  (join_name parent (enum_name e), SymEnum).

Fixpoint message_symbols (parent : string) (m : DescriptorProto) : list (string * SymbolKind) :=
  let name := join_name parent (message_name m) in
  (name, SymMessage) :: mjoin (map (message_symbols name) (dp_nested_type m)) ++
  (enum_symbol name <$> dp_enum_type m).

Definition file_symbols (f : FileDescriptorProto) : list (string * SymbolKind) :=
  mjoin (message_symbols (file_package f) <$> fl_message_type f) ++
  (enum_symbol (file_package f) <$> fl_enum_type f).

Definition set_symbols (set : list FileDescriptorProto) : list (string * SymbolKind) :=
  mjoin (file_symbols <$> set).

Definition register_all (l : list (string * SymbolKind)) (t : symbol_table) : outcome string symbol_table :=
  foldM (λ s t, register_symbol t s.1 s.2) l t.

Lemma foldM_app {S A E} (f : A → S → outcome E S) l l' s :
  foldM f (l ++ l') s = foldM f l s ≫= foldM f l'.
Proof.
  revert s. induction l as [|x l IH]; intros s; [done|]. cbn [foldM app].
  destruct (f x s); cbn [mbind outcome_bind]; [apply IH|done..].
Qed.

Lemma foldM_register {A} (f : A → symbol_table → outcome string symbol_table)
    (symbols : A → list (string * SymbolKind)) (l : list A) t :
  (∀ x t, x ∈ l → f x t = register_all (symbols x) t) →
  foldM f l t = register_all (mjoin (map symbols l)) t.
Proof.
  revert t. induction l as [|x l IH]; intros t H; [done|]. cbn [foldM map].
  change (mjoin (symbols x :: map symbols l)) with (symbols x ++ mjoin (map symbols l)).
  unfold register_all. rewrite foldM_app. rewrite (H x t) by left. fold (register_all (symbols x) t).
  destruct (register_all (symbols x) t) as [t'| | |]; [|done..]. cbn [mbind outcome_bind].
  apply IH. intros y s Hy. apply H. by right.
Qed.

Lemma foldM_register_enums parent (l : list EnumDescriptorProto) t :
  foldM (register_enum parent) l t = register_all (enum_symbol parent <$> l) t.
Proof.
  revert t. induction l as [|e l IH]; intros t; [done|].
  change (register_all (enum_symbol parent <$> e :: l) t) with
    (register_enum parent e t ≫= register_all (enum_symbol parent <$> l)).
  cbn [foldM]. destruct (register_enum parent e t); [apply IH|done..].
Qed.

Lemma register_message_all m parent t :
  register_message_symbols parent m t = register_all (message_symbols parent m) t.
Proof.
  revert parent t. induction m as [m IH] using DescriptorProto_nested_ind. intros parent t.
  destruct m as [name f e nested enums er oo op rr rn v sp].
  cbn [register_message_symbols message_symbols dp_nested_type dp_enum_type message_name] in *. cbv zeta.
  set (n := join_name parent _). unfold register_all. cbn [foldM fst snd].
  destruct (register_symbol t n SymMessage) as [t1| | |]; [|done..]. cbn [mbind outcome_bind].
  rewrite foldM_app.
  rewrite (foldM_register (register_message_symbols n) (message_symbols n) nested t1) by (intros; by apply IH).
  fold (register_all (mjoin (map (message_symbols n) nested)) t1).
  destruct (register_all _ t1) as [t2| | |]; [|done..]. cbn [mbind outcome_bind]. apply foldM_register_enums.
Qed.

Lemma register_set_all set t : foldM register_file_symbols set t = register_all (set_symbols set) t.
Proof.
  unfold set_symbols. apply foldM_register. intros f t' _. unfold register_file_symbols, file_symbols. cbv zeta.
  unfold register_all at 1. rewrite foldM_app.
  rewrite (foldM_register _ (message_symbols (file_package f))) by (intros; apply register_message_all).
  unfold register_all. change (map ?g ?l) with (g <$> l).
  destruct (foldM _ _ t') as [t2| | |]; [|done..]. cbn [mbind outcome_bind]. apply foldM_register_enums.
Qed.

(** Registration succeeds on distinct names only, and then stores each. *)
Lemma register_all_Ok l t t' :
  register_all l t = Ok t' →
  NoDup l.*1 ∧ (∀ n k, (n, k) ∈ l → n ≠ "" ∧ t !! n = None) ∧
  ∀ n, t' !! n = match t !! n with Some k => Some k | None => list_to_map (M := symbol_table) l !! n end.
Proof.
  revert t. induction l as [|[n k] l IH]; intros t H.
  { injection H as <-. split_and!; [constructor|by intros ? ? ?%not_elem_of_nil|].
    intros n. by destruct (t !! n). }
  unfold register_all in H. cbn [foldM fst snd] in H. ok_inv H. unfold register_symbol in Hok. ok_inv Hok.
  subst x. destruct (IH _ H) as (Hnd & Hin & Hl). clear H IH.
  assert (t !! n = None) as Hn by (by destruct (t !! n)).
  split_and!.
  - cbn. constructor; [|done]. intros ([n' k'] & Hn' & Hk)%list_elem_of_fmap. cbn in Hn'. subst n'.
    destruct (Hin n k' Hk) as [_ Hc]. by rewrite lookup_insert_eq in Hc.
  - intros n' k' [[= -> ->]|H]%elem_of_cons; [split; [by destruct n|done]|].
    destruct (Hin n' k' H) as [Hne Hc]. split; [done|]. by apply lookup_insert_None in Hc as [? _].
  - intros m. rewrite Hl. cbn. destruct (decide (n = m)) as [->|Hnm].
    + by rewrite Hn, !lookup_insert_eq.
    + rewrite !lookup_insert_ne by done. done.
Qed.

Lemma register_set_Ok set t :
  foldM register_file_symbols set ∅ = Ok t →
  NoDup (set_symbols set).*1 ∧ ∀ n k, t !! n = Some k ↔ (n, k) ∈ set_symbols set.
Proof.
  rewrite register_set_all. intros (Hnd & _ & Hl)%register_all_Ok. split; [done|].
  intros n k. rewrite Hl, lookup_empty. split.
  - apply elem_of_list_to_map_2.
  - by apply elem_of_list_to_map_1.
Qed.

End Symbols.

(** ** Resolved references *)

Section Resolved.
Context {PS : ProtocSchema}.
(** The declarations that references may name. *)
Context (declared : string → SymbolKind → Prop).

Definition field_resolved (f : FieldDescriptorProto) : Prop :=
  ∀ name, fd_type_name f = Some name →
    ∃ n k, name = "." +:+ n ∧ declared n k ∧ fd_type f = Some (resolved_type (fd_type f) k).

Definition reference_resolved (reference : option string) : Prop :=
  ∀ name, reference = Some name → ∃ n, name = "." +:+ n ∧ declared n SymMessage.

Definition extension_resolved (f : FieldDescriptorProto) : Prop :=
  field_resolved f ∧ reference_resolved (fd_extendee f).

Inductive message_resolved : DescriptorProto → Prop :=
  | message_resolved_intro m :
    Forall field_resolved (dp_field m) → Forall extension_resolved (dp_extension m) →
    Forall message_resolved (dp_nested_type m) → message_resolved m.

Definition method_resolved (m : MethodDescriptorProto) : Prop :=
  reference_resolved (md_input_type m) ∧ reference_resolved (md_output_type m).

Definition file_resolved (f : FileDescriptorProto) : Prop :=
  Forall message_resolved (fl_message_type f) ∧ Forall extension_resolved (fl_extension f) ∧
  Forall (λ s, Forall method_resolved (sd_method s)) (fl_service f).

Context (symbols : symbol_table).
Hypothesis Hsymbols : ∀ n k, symbols !! n = Some k → declared n k.

Lemma first_symbol_in names n k : first_symbol symbols names = Some (n, k) → symbols !! n = Some k.
Proof.
  unfold first_symbol. induction names as [|x names IH]; [done|]. cbn.
  destruct (symbols !! x) as [k'|] eqn:E; cbn; [|by apply IH]. by intros [= <- <-].
Qed.

Lemma resolve_symbol_in name scope found :
  resolve_symbol name scope symbols = Ok found → ∀ n k, found = Some (n, k) → symbols !! n = Some k.
Proof.
  unfold resolve_symbol. destruct (strip_prefix "." name) as [absolute|].
  - intros [= <-] n k. destruct (symbols !! absolute) eqn:E; cbn; [|done]. by intros [= <- <-].
  - rewrite search_scopes_spec by lia. intros [= <-] n k. apply first_symbol_in.
Qed.

Lemma resolved_type_again t k : resolved_type (Some (resolved_type t k)) k = resolved_type t k.
Proof.
  destruct k; [|done]. unfold resolved_type. destruct (bool_decide (t = Some FT_Group)).
  - by rewrite bool_decide_eq_true_2.
  - case_bool_decide as H; [|done]. by injection H.
Qed.

Lemma resolve_field_resolved scope f f' : resolve_field_type scope symbols f = Ok f' → field_resolved f'.
Proof.
  unfold resolve_field_type. destruct (fd_type_name f) as [name|] eqn:Hname.
  - intros H. ok_inv H. subst f'. intros name' [= <-]. exists s, s0. split_and!; [done| |].
    + by eapply Hsymbols, resolve_symbol_in.
    + cbn [fd_type fd_with_resolved]. by rewrite resolved_type_again.
  - intros [= <-] name' H. congruence.
Qed.

Lemma resolve_reference_resolved scope role reference reference' :
  resolve_message_reference scope symbols role reference = Ok reference' → reference_resolved reference'.
Proof.
  unfold resolve_message_reference. destruct reference as [name|]; [|by intros [= <-] ?].
  intros H. ok_inv H. subst reference'. apply negb_false_iff, bool_decide_eq_true in Hok1 as ->.
  intros name' [= <-]. exists s. split; [done|]. by eapply Hsymbols, resolve_symbol_in.
Qed.

Lemma resolve_extension_resolved scope f f' : resolve_extension scope symbols f = Ok f' → extension_resolved f'.
Proof.
  unfold resolve_extension. intros H. ok_inv H. subst f'.
  apply resolve_field_resolved in Hok. apply resolve_reference_resolved in Hok0. split; [|done].
  exact Hok.
Qed.

Lemma resolve_message_resolved m scope m' : resolve_message_types symbols scope m = Ok m' → message_resolved m'.
Proof.
  revert scope m'. induction m as [m IH] using DescriptorProto_nested_ind. intros scope m' H.
  destruct m as [name f e nested enums er oo op rr rn v sp]. cbn [resolve_message_types] in H. ok_inv H. subst m'.
  cbn [dp_nested_type dp_field dp_extension] in *. constructor; cbn.
  - eapply mapM_Forall; [|exact Hok]. intros y y' _. apply resolve_field_resolved.
  - eapply mapM_Forall; [|exact Hok0]. intros y y' _. apply resolve_extension_resolved.
  - eapply mapM_Forall; [|exact Hok1]. intros y y' Hy. by apply IH.
Qed.

Lemma resolve_file_resolved f f' : resolve_file_types symbols f = Ok f' → file_resolved f'.
Proof.
  unfold resolve_file_types. cbv zeta. intros H. ok_inv H. subst f'. split_and!; cbn.
  - eapply mapM_Forall; [|exact Hok]. intros y y' _. apply resolve_message_resolved.
  - eapply mapM_Forall; [|exact Hok0]. intros y y' _. apply resolve_extension_resolved.
  - eapply mapM_Forall; [|exact Hok1]. intros s s' _. unfold resolve_service. intros Hs. ok_inv Hs. subst s'. cbn.
    eapply mapM_Forall; [|exact Hok2]. intros y y' _. unfold resolve_method. intros Hy. ok_inv Hy. subst y'.
    split; by eapply resolve_reference_resolved.
Qed.

End Resolved.

Section References.
Context {PS : ProtocSchema}.

(** The files that are handed to the code generator declare every name once,
    and every reference in them (field types at any depth, extensions with their
    extendees, inputs and outputs of methods) is absolute and names a declaration
    of the closure: a field's type is the one of what it names, and extendees,
    inputs and outputs are messages. *)
Theorem generated_references_resolve (set set' : list FileDescriptorProto) :
  resolve_named_types set = Ok set' →
  NoDup (set_symbols set).*1 ∧ Forall (file_resolved (λ n k, (n, k) ∈ set_symbols set)) set'.
Proof.
  unfold resolve_named_types. intros H. ok_inv H. apply register_set_Ok in Hok as [Hnd Hin].
  split; [done|]. eapply mapM_Forall; [|exact H]. intros f f' _. apply resolve_file_resolved.
  intros n k. apply Hin.
Qed.

End References.

(** A message in a package that names, from an inner scope, a message of another
    file and its own nested enum. *)
Definition named_field (name : string) (number : Z) (type_name : string) : FieldDescriptorProto :=
  mkFieldDescriptorProto (Some name) (Some number) (Some MlOptional) None (Some type_name) None None None None
    None None None.

Definition plain_message (name : string) (fields : list FieldDescriptorProto)
    (enums : list EnumDescriptorProto) : DescriptorProto :=
  mkDescriptorProto (Some name) fields [] [] enums [] [] None [] [] None None.

Definition package_file (package : string) (messages : list DescriptorProto) : FileDescriptorProto :=
  mkFileDescriptorProto None (Some package) [] [] [] [] messages [] [] [] None None None None.

Definition two_files : list FileDescriptorProto :=
  [package_file "acme.api"
     [plain_message "Order" [named_field "user" 1 "users.User"; named_field "state" 2 "State"]
        [mkEnumDescriptorProto (Some "State"%string) [] None [] [] None None]];
   package_file "acme.users" [plain_message "User" [] []]].

Lemma generated_references_resolve_witness :
  ∃ set', resolve_named_types two_files = Ok set' ∧
    NoDup (set_symbols two_files).*1 ∧
    Forall (file_resolved (λ n k, (n, k) ∈ set_symbols two_files)) set'.
Proof.
  assert (is_ok (resolve_named_types two_files) = true) as H by (by vm_compute).
  pose proof (is_ok_unwrap _ [] H) as E. eexists. split; [exact E|].
  by apply generated_references_resolve.
Defined.

(** The references above, resolved from the inner scope outwards. *)
Example two_files_resolved :
  (λ f, (fd_type_name <$> (dp_field <$> fl_message_type f) ≫= id)) <$> unwrap_or (resolve_named_types two_files) [] =
  [[Some ".acme.users.User"; Some ".acme.api.Order.State"]%string; []].
Proof. by vm_compute. Qed.
