(* ===== verification/ProtoRead.v ===== *)
(** * ProtoRead: reading declarations, conflicts, and the Protobuf compiler

    [crates/schemahub-compiler-protobuf/src/read.rs], [conflict.rs] and the
    implementation of the trait [Compiler] in [lib.rs], which puts the parts of
    the compiler together. *)
From S2P Require Import Prelude RustStd SchemaTypes ProtoSchema Codec DescriptorCodec DescriptorCodecLaws ProtocModel Blob Compat Operations Mutations Reassemble Printer ProtoCodegen.
From Stdlib Require Import Ascii.

Open Scope Z_scope.

(** [str::split_once] with a separator of several characters. *)
Fixpoint split_once_str (sep s : string) : option (string * string) :=
  match strip_prefix sep s with
  | Some rest => Some (""%string, rest)
  | None =>
    match s with
    | EmptyString => None
    | String a t => '(p, r) ← split_once_str sep t; Some (String a p, r)
    end
  end.

Section Read.
Context {PS : ProtocSchema} {PP : ProtocParser} {PC : ProtocCodegen} {RF : RustFmt} {HO : HashOrder}.

Definition read_decl (blob : DeclBlob) : outcome ReadError DeclPayload :=
  map_err (λ e, ReadMalformedBlob (fmt_blob_error e)) (decode_decl blob).

Definition summarize (blob : DeclBlob) : outcome ReadError DeclSummary :=
  p ← read_decl blob;
  Ok match p with
     | PMessage m => mkDeclSummary (default ""%string (dp_name m)) KindMessage ""
     | PEnum e => mkDeclSummary (default ""%string (ed_name e)) KindEnum ""
     | PService s => mkDeclSummary (default ""%string (sd_name s)) KindService ""
     end.

(** The text of one declaration: a file that holds nothing else, without its
    preamble. *)
Definition render_decl (p : DeclPayload) : string :=
  let file messages enums services :=
    mkFileDescriptorProto None None [] [] [] [] messages enums services [] None
      (Some (mkSourceCodeInfo [])) (Some "proto3"%string) None in
  let full := print_file match p with
                         | PMessage m => file [m] [] []
                         | PEnum e => file [] [e] []
                         | PService s => file [] [] [s]
                         end in
  match split_once_str (nl +:+ nl) full with
  | Some (_, body) => body
  | None => full
  end.

Definition detail_text (blob : DeclBlob) : outcome ReadError string :=
  p ← read_decl blob;
  Ok (render_decl p).

Definition detail (blob : DeclBlob) : outcome ReadError DeclDetail :=
  text ← detail_text blob;
  Ok (as_bytes text).

(** Each dependency with its pin, if it has one. *)
Definition imports (meta : MetaBlob) : outcome ReadError (list Import) :=
  m ← map_err (λ e, ReadMalformedBlob (fmt_blob_error e)) (decode_meta meta);
  Ok (imap (λ i path, mkImport path (default ""%string (mp_dependency_commit m !! i)) "") (mp_dependency m)).

Definition short (name : string) : string := rsplit_next "."%char name.

(** A field that names a type, rather than a scalar one. *)
Definition names_type (f : FieldDescriptorProto) : bool :=
  match fd_type f with
  | None => true
  | Some t => bool_decide (t = FT_Message) || bool_decide (t = FT_Enum) || bool_decide (t = FT_Group)
  end.

Definition map_entry_names (m : DescriptorProto) : gset string :=
  list_to_set (omap dp_name (List.filter is_map_entry (dp_nested_type m))).

(** What the fields of a message refer to, and then those of its nested
    messages. *)
Fixpoint collect_message_refs (m : DescriptorProto) : list string :=
  omap (λ f,
    if names_type f then
      t ← fd_type_name f;
      let s := short t in
      if negb (str_is_empty s) && negb (bool_decide (s ∈ map_entry_names m)) then Some s else None
    else None) (dp_field m) ++
  concat (map collect_message_refs (dp_nested_type m)).

Definition type_refs (blob : DeclBlob) : outcome ReadError (list TypeRef) :=
  p ← read_decl blob;
  let refs :=
    match p with
    | PMessage m => collect_message_refs m
    | PEnum _ => []
    | PService s =>
      concat ((λ m, omap (λ t, short <$> t) [md_input_type m; md_output_type m]) <$> sd_method s)
    end in
  Ok (type_ref_new <$> vec_dedup (sort_strings refs)).

(** [filter(|name| !name.is_empty())]. *)
Definition non_empty (o : option string) : option string :=
  s ← o; if str_is_empty s then None else Some s.

Definition field_type_ref (blob : DeclBlob) (field_name : string) : outcome ReadError (option TypeRef) :=
  payload ← read_decl blob;
  message ← match payload with
            | PMessage m => Ok m
            | _ => Err (ReadFieldNotFound field_name)
            end;
  field ← ok_or (List.find (λ f, bool_decide (fd_name f = Some field_name)) (dp_field message))
            (ReadFieldNotFound field_name);
  Ok match non_empty (fd_type_name field) with
     | None => None
     | Some type_name =>
       let short_name := short type_name in
       match List.find (λ n, bool_decide (dp_name n = Some short_name) && is_map_entry n)
               (dp_nested_type message) with
       | Some map_entry =>
         value ← List.find (λ f, bool_decide (fd_name f = Some "value"%string)) (dp_field map_entry);
         t ← non_empty (fd_type_name value);
         Some (type_ref_new (short t))
       | None => Some (type_ref_new short_name)
       end
     end.

(** ** Conflicts *)

(** The bytes of a detail are those of a string, so decoding them gives it back. *)
Definition render_one (blob : DeclBlob) : outcome ConflictError string :=
  map_err (λ e, ConflictMalformedBlob (fmt_read_error e)) (detail_text blob).

Fixpoint render_sides (i : nat) (sides : list DeclBlob) : outcome ConflictError string :=
  match sides with
  | [] => Ok ""%string
  | side :: sides =>
    text ← render_one side;
    rest ← render_sides (S i) sides;
    Ok (line ("======= side " +:+ fmt_Z (Z.of_nat (S i))) +:+ line text +:+ rest)
  end.

Definition render (sides : ConflictSides) : outcome ConflictError string :=
  _ ← fail_if (bool_decide (cs_sides sides = [])) EmptyConflict;
  base ← match cs_base sides with
         | None => Ok ""%string
         | Some base => text ← render_one base; Ok (line "======= base" +:+ line text)
         end;
  rest ← render_sides 0 (cs_sides sides);
  Ok (line "<<<<<<< conflict" +:+ base +:+ rest +:+ line ">>>>>>> end").

Definition validate_resolution (resolved : DeclBlob) : outcome ConflictError unit :=
  p ← map_err (λ e, InvalidResolution (fmt_blob_error e)) (decode_decl resolved);
  let named := match p with
               | PMessage m => is_some (dp_name m)
               | PEnum e => is_some (ed_name e)
               | PService s => is_some (sd_name s)
               end in
  fail_if (negb named) (InvalidResolution "resolved declaration has no name").

(** ** The compiler *)

Definition print_schema (schema : SchemaObjects) : outcome PrintError string :=
  file ← reassemble schema;
  Ok (print_file file).

Definition protobuf_compiler : Compiler := {|
  format_id := "protobuf";
  cp_parse := parse_source;
  cp_print := print_schema;
  cp_diff_decl := diff;
  cp_apply_mutation := apply_one;
  cp_apply_mutations := apply_many;
  cp_check_compatibility := check;
  cp_render_conflict := render;
  cp_validate_resolution := validate_resolution;
  cp_summarize_decl := summarize;
  cp_decl_detail := detail;
  cp_imports schema := imports (so_meta schema);
  cp_type_refs := type_refs;
  cp_field_type_ref := field_type_ref;
  cp_generate_descriptors := generate_descriptors;
  cp_generate_code closure lang _ := generate_code closure lang;
|}.

End Read.
