(* ===== verification/FbsSchema.v ===== *)
(** * FbsSchema: the [flatc-rs-schema] tree the FlatBuffers compiler works on

    The crate [flatc_rs_schema] is a git dependency and is not part of the
    repository. A record below has the fields that the sources of
    [schemahub-compiler-flatbuffers] read or write; the other fields of a struct,
    which they only copy or fill with [..Default::default()], are one field of an
    unknown type (the class [FlatcTypes]). The variants of [BaseType] are those
    of the exhaustive match in [printer.rs]. Methods of the crate and of the
    parser and code generator beside it are the classes [FlatcMethods],
    [FlatcParser] and [FlatcCodegen]. *)
From S2P Require Import Prelude RustStd SchemaTypes.
From Stdlib Require Import Strings.Byte Ascii.

Open Scope Z_scope.

(** ** Types *)

Inductive BaseType :=
  | BtNone | BtUType | BtBool | BtByte | BtUByte | BtShort | BtUShort | BtInt | BtUInt
  | BtLong | BtULong | BtFloat | BtDouble | BtString | BtVector | BtTable | BtStruct | BtUnion
  | BtArray | BtVector64.

#[export] Instance BaseType_eq_dec : EqDecision BaseType.
Proof. solve_decision. Defined.

Class FlatcTypes := {
  TypeRest : Type; type_rest_default : TypeRest;
  FieldRest : Type; field_rest_default : FieldRest;
  ObjectRest : Type; object_rest_default : ObjectRest;
  EnumRest : Type; enum_rest_default : EnumRest;
  EnumValRest : Type; enum_val_rest_default : EnumValRest;
  ServiceRest : Type;
  RpcCallRest : Type;
  AttributesRest : Type; attributes_rest_default : AttributesRest;
  SchemaRest : Type; schema_rest_default : SchemaRest;
}.

Record Documentation := mkDocumentation { doc_lines : list string }.

Record KeyValue := mkKeyValue { kv_key : option string; kv_value : option string }.

Section Tree.
Context {F64 : RustF64} {FT : FlatcTypes}.

Record Attributes := mkAttributes {
  at_entries : list KeyValue;
  at_rest : AttributesRest;
}.

Record FbsType := mkFbsType {
  ty_base_type : option BaseType;
  ty_base_size : option Z;
  ty_element_type : option BaseType;
  ty_element_size : option Z;
  ty_index : option Z;
  ty_fixed_length : option Z;
  ty_unresolved_name : option string;
  ty_rest : TypeRest;
}.

Record FbsField := mkFbsField {
  fi_name : option string;
  fi_type : option FbsType;
  fi_id : option Z;
  fi_default_integer : option Z;
  fi_default_real : option f64;
  fi_default_string : option string;
  fi_is_deprecated : bool;
  fi_attributes : option Attributes;
  fi_documentation : option Documentation;
  fi_rest : FieldRest;
}.

Record FbsObject := mkFbsObject {
  ob_name : option string;
  ob_fields : list FbsField;
  ob_is_struct : bool;
  ob_attributes : option Attributes;
  ob_documentation : option Documentation;
  ob_namespace : option (option string);
  ob_span_line : option Z;
  ob_rest : ObjectRest;
}.

Record FbsEnumVal := mkFbsEnumVal {
  vl_name : option string;
  vl_value : option Z;
  vl_union_type : option FbsType;
  vl_documentation : option Documentation;
  vl_rest : EnumValRest;
}.

Record FbsEnum := mkFbsEnum {
  en_name : option string;
  en_values : list FbsEnumVal;
  en_is_union : bool;
  en_underlying_type : option FbsType;
  en_attributes : option Attributes;
  en_documentation : option Documentation;
  en_namespace : option (option string);
  en_span_line : option Z;
  en_rest : EnumRest;
}.

Record RpcCall := mkRpcCall {
  rc_name : option string;
  rc_request : option FbsObject;
  rc_response : option FbsObject;
  rc_request_index : option Z;
  rc_response_index : option Z;
  rc_attributes : option Attributes;
  rc_documentation : option Documentation;
  rc_rest : RpcCallRest;
}.

Record FbsService := mkFbsService {
  sv_name : option string;
  sv_calls : list RpcCall;
  sv_documentation : option Documentation;
  sv_span_line : option Z;
  sv_rest : ServiceRest;
}.

(** [Schema]: what a file parses to, and what the code generator is given. *)
Record FbsSchemaTree := mkFbsSchemaTree {
  sc_objects : list FbsObject;
  sc_enums : list FbsEnum;
  sc_services : list FbsService;
  sc_fbs_files : list (option string);
  sc_file_ident : option string;
  sc_file_ext : option string;
  sc_root_table_index : option Z;
  sc_root_table : option FbsObject;
  sc_rest : SchemaRest;
}.

(** The side channel of the parser. *)
Record ParserState := mkParserState {
  pa_root_type_name : option string;
  pa_root_type_namespace : option string;
  pa_declared_attributes : list string;
}.

(** ** [Default] *)

Definition type_default : FbsType := mkFbsType None None None None None None None type_rest_default.

Definition attributes_default : Attributes := mkAttributes [] attributes_rest_default.

Definition schema_tree_default : FbsSchemaTree :=
  mkFbsSchemaTree [] [] [] [] None None None None schema_rest_default.

(** ** Updates of one or two fields *)

Definition ty_with_name (t : FbsType) (name : option string) : FbsType :=
  mkFbsType (ty_base_type t) (ty_base_size t) (ty_element_type t) (ty_element_size t) (ty_index t)
    (ty_fixed_length t) name (ty_rest t).

Definition ty_with_index (t : FbsType) (index : option Z) : FbsType :=
  mkFbsType (ty_base_type t) (ty_base_size t) (ty_element_type t) (ty_element_size t) index
    (ty_fixed_length t) (ty_unresolved_name t) (ty_rest t).

Definition fi_with_name (f : FbsField) (name : option string) : FbsField :=
  mkFbsField name (fi_type f) (fi_id f) (fi_default_integer f) (fi_default_real f) (fi_default_string f)
    (fi_is_deprecated f) (fi_attributes f) (fi_documentation f) (fi_rest f).

Definition fi_with_type (f : FbsField) (t : option FbsType) : FbsField :=
  mkFbsField (fi_name f) t (fi_id f) (fi_default_integer f) (fi_default_real f) (fi_default_string f)
    (fi_is_deprecated f) (fi_attributes f) (fi_documentation f) (fi_rest f).

Definition fi_with_id (f : FbsField) (id : option Z) : FbsField :=
  mkFbsField (fi_name f) (fi_type f) id (fi_default_integer f) (fi_default_real f) (fi_default_string f)
    (fi_is_deprecated f) (fi_attributes f) (fi_documentation f) (fi_rest f).

Definition fi_with_default_string (f : FbsField) (s : option string) : FbsField :=
  mkFbsField (fi_name f) (fi_type f) (fi_id f) (fi_default_integer f) (fi_default_real f) s
    (fi_is_deprecated f) (fi_attributes f) (fi_documentation f) (fi_rest f).

Definition fi_with_default_real (f : FbsField) (r : option f64) : FbsField :=
  mkFbsField (fi_name f) (fi_type f) (fi_id f) (fi_default_integer f) r (fi_default_string f)
    (fi_is_deprecated f) (fi_attributes f) (fi_documentation f) (fi_rest f).

Definition fi_deprecated (f : FbsField) (attributes : option Attributes) : FbsField :=
  mkFbsField (fi_name f) (fi_type f) (fi_id f) (fi_default_integer f) (fi_default_real f) (fi_default_string f)
    true attributes (fi_documentation f) (fi_rest f).

Definition ob_with_name (o : FbsObject) (name : option string) : FbsObject :=
  mkFbsObject name (ob_fields o) (ob_is_struct o) (ob_attributes o) (ob_documentation o) (ob_namespace o)
    (ob_span_line o) (ob_rest o).

Definition ob_with_fields (o : FbsObject) (fields : list FbsField) : FbsObject :=
  mkFbsObject (ob_name o) fields (ob_is_struct o) (ob_attributes o) (ob_documentation o) (ob_namespace o)
    (ob_span_line o) (ob_rest o).

Definition vl_with_name (v : FbsEnumVal) (name : option string) : FbsEnumVal :=
  mkFbsEnumVal name (vl_value v) (vl_union_type v) (vl_documentation v) (vl_rest v).

Definition vl_with_union_type (v : FbsEnumVal) (t : option FbsType) : FbsEnumVal :=
  mkFbsEnumVal (vl_name v) (vl_value v) t (vl_documentation v) (vl_rest v).

Definition en_with_name (e : FbsEnum) (name : option string) : FbsEnum :=
  mkFbsEnum name (en_values e) (en_is_union e) (en_underlying_type e) (en_attributes e) (en_documentation e)
    (en_namespace e) (en_span_line e) (en_rest e).

Definition en_with_values (e : FbsEnum) (values : list FbsEnumVal) : FbsEnum :=
  mkFbsEnum (en_name e) values (en_is_union e) (en_underlying_type e) (en_attributes e) (en_documentation e)
    (en_namespace e) (en_span_line e) (en_rest e).

Definition rc_with_types (c : RpcCall) (request response : option FbsObject) : RpcCall :=
  mkRpcCall (rc_name c) request response (rc_request_index c) (rc_response_index c) (rc_attributes c)
    (rc_documentation c) (rc_rest c).

Definition rc_with_indices (c : RpcCall) (request response : option Z) : RpcCall :=
  mkRpcCall (rc_name c) (rc_request c) (rc_response c) request response (rc_attributes c)
    (rc_documentation c) (rc_rest c).

Definition sv_with_name (s : FbsService) (name : option string) : FbsService :=
  mkFbsService name (sv_calls s) (sv_documentation s) (sv_span_line s) (sv_rest s).

Definition sv_with_calls (s : FbsService) (calls : list RpcCall) : FbsService :=
  mkFbsService (sv_name s) calls (sv_documentation s) (sv_span_line s) (sv_rest s).

(** ** Methods of the crates *)

(** [BaseType::byte_size], [Attributes::has] and the derived [PartialEq] of a
    field. *)
Class FlatcMethods := {
  byte_size : BaseType → option Z;
  attributes_has : Attributes → string → bool;
  field_eq : FbsField → FbsField → bool;
}.

(** [FbsParser::new(source).parse()]. *)
Class FlatcParser := flatc_parse : string → outcome string (FbsSchemaTree * ParserState).

(** [ResolvedSchema::try_from_parsed] followed by one of the generators; the
    errors of both are texts. *)
Class FlatcCodegen := {
  ResolvedSchema : Type;
  try_from_parsed : FbsSchemaTree → outcome string ResolvedSchema;
  flatc_generate_rust : ResolvedSchema → bool → outcome string string;
  flatc_generate_typescript : ResolvedSchema → outcome string string;
}.

End Tree.

Arguments FlatcCodegen {F64 FT}.
Arguments FlatcParser {F64 FT}.
Arguments FlatcMethods {F64 FT}.

(** * FlatBuffers declarations and metadata as JSON blobs

    [crates/schemahub-compiler-flatbuffers/src/blob.rs]. A blob is the JSON of a
    versioned envelope; before an envelope is read the arrays that the AST types
    skip when they are empty are put back. [serde_json] is the class [FbsJson]:
    its [Value], on which the sources work, is the type [json]. *)
(** ** [serde_json::Value] *)

Section Json.
Context {F64 : RustF64}.

Inductive json_number := PosInt (n : Z) | NegInt (n : Z) | JsonFloat (x : f64).

Inductive json :=
  | JNull
  | JBool (b : bool)
  | JNumber (n : json_number)
  | JString (s : string)
  | JArray (items : list json)
  | JObject (entries : list (string * json)).

(** [map.get(key)]. *)
Fixpoint entry_get (key : string) (entries : list (string * json)) : option json :=
  match entries with
  | [] => None
  | (k, v) :: entries => if bool_decide (k = key) then Some v else entry_get key entries
  end.

(** [Value::get] with a string. *)
Definition json_get (key : string) (v : json) : option json :=
  match v with JObject entries => entry_get key entries | _ => None end.

(** [Value::as_u64]. *)
Definition as_u64 (v : json) : option Z :=
  match v with JNumber (PosInt n) => Some n | _ => None end.

(** [map.entry(key).json_or_insert(value)]. *)
Definition json_or_insert (entries : list (string * json)) (key : string) (v : json) : list (string * json) :=
  if is_some (entry_get key entries) then entries else entries ++ [(key, v)].

Definition SKIPPED_ARRAY_KEYS : list string :=
  ["objects"; "enums"; "services"; "fbs_files"; "fields"; "calls"; "values"; "entries";
   "included_filenames"]%string.

Fixpoint normalize_skipped_arrays (value : json) : json :=
  match value with
  | JObject entries =>
    JObject (foldl (λ entries key, json_or_insert entries key (JArray []))
               (map (λ kv, (kv.1, normalize_skipped_arrays kv.2)) entries) SKIPPED_ARRAY_KEYS)
  | JArray items => JArray (map normalize_skipped_arrays items)
  | _ => value
  end.

End Json.

(** ** Payloads, envelopes and metadata *)

Section Blobs.
Context {F64 : RustF64} {FT : FlatcTypes}.

Inductive FbsDeclPayload :=
  | FbsPObject (o : FbsObject)
  | FbsPEnum (e : FbsEnum)
  | FbsPService (s : FbsService).

Definition fbs_payload_name (p : FbsDeclPayload) : option string :=
  match p with
  | FbsPObject o => ob_name o
  | FbsPEnum e => en_name e
  | FbsPService s => sv_name s
  end.

Inductive DeclKindTag := TagObject | TagEnum | TagService.

Record DeclEnvelope := mkDeclEnvelope {
  de_blob_version : Z;
  de_kind : DeclKindTag;
  de_object : option FbsObject;
  de_enum : option FbsEnum;
  de_service : option FbsService;
}.

Record FbsMeta := mkFbsMeta {
  fm_blob_version : Z;
  fm_namespace : option string;
  fm_includes : list string;
  fm_include_commits : list string;
  fm_root_type : option string;
  fm_file_ident : option string;
  fm_file_ext : option string;
  fm_decl_order : list string;
  fm_declared_attributes : list string;
}.

Inductive FbsBlobError :=
  | FbsDecode (m : string)
  | FbsUnsupportedVersion (v : Z).

Definition FBS_BLOB_VERSION : Z := 1.

Definition from_payload (payload : FbsDeclPayload) : DeclEnvelope :=
  match payload with
  | FbsPObject o => mkDeclEnvelope FBS_BLOB_VERSION TagObject (Some o) None None
  | FbsPEnum e => mkDeclEnvelope FBS_BLOB_VERSION TagEnum None (Some e) None
  | FbsPService s => mkDeclEnvelope FBS_BLOB_VERSION TagService None None (Some s)
  end.

Definition into_payload (env : DeclEnvelope) : outcome FbsBlobError FbsDeclPayload :=
  match de_kind env with
  | TagObject => ok_or (FbsPObject <$> de_object env) (FbsDecode "envelope missing 'object' node")
  | TagEnum => ok_or (FbsPEnum <$> de_enum env) (FbsDecode "envelope missing 'enum_' node")
  | TagService => ok_or (FbsPService <$> de_service env) (FbsDecode "envelope missing 'service' node")
  end.

Definition fbs_meta_new : FbsMeta := mkFbsMeta FBS_BLOB_VERSION None [] [] None None None [] [].

Definition fmt_fbs_blob_error (e : FbsBlobError) : string :=
  match e with
  | FbsDecode m => "decode error: " +:+ m
  | FbsUnsupportedVersion v => "unsupported blob_version: " +:+ fmt_Z v
  end.

(** [serde_json] at the types of this file. Writing one of them into a [Vec]
    does not fail. *)
Class FbsJson := {
  json_from_slice : list byte → outcome string json;
  envelope_to_vec : DeclEnvelope → list byte;
  envelope_from_value : json → outcome string DeclEnvelope;
  meta_to_vec : FbsMeta → list byte;
  meta_from_slice : list byte → outcome string FbsMeta;
  (** What a finite number reads back as once it was written. *)
  json_f64 : f64 → f64;
}.

Context {FJ : FbsJson}.

Definition fbs_encode_decl (payload : FbsDeclPayload) : DeclBlob := envelope_to_vec (from_payload payload).

Definition fbs_decode_decl (blob : DeclBlob) : outcome FbsBlobError FbsDeclPayload :=
  value ← map_err FbsDecode (json_from_slice blob);
  _ ← match json_get "blob_version" value ≫= as_u64 with
      | Some v => fail_if (negb (v =? FBS_BLOB_VERSION)) (FbsUnsupportedVersion (wrap_u32 v))
      | None => Ok tt
      end;
  env ← map_err FbsDecode (envelope_from_value (normalize_skipped_arrays value));
  into_payload env.

Definition fm_with_version (m : FbsMeta) (v : Z) : FbsMeta :=
  mkFbsMeta v (fm_namespace m) (fm_includes m) (fm_include_commits m) (fm_root_type m) (fm_file_ident m)
    (fm_file_ext m) (fm_decl_order m) (fm_declared_attributes m).

Definition fbs_encode_meta (meta : FbsMeta) : MetaBlob :=
  meta_to_vec (fm_with_version meta FBS_BLOB_VERSION).

Definition fbs_decode_meta (blob : MetaBlob) : outcome FbsBlobError FbsMeta :=
  match blob with
  | [] => Ok fbs_meta_new
  | _ =>
    meta ← map_err FbsDecode (meta_from_slice blob);
    _ ← fail_if (negb (fm_blob_version meta =? FBS_BLOB_VERSION)) (FbsUnsupportedVersion (fm_blob_version meta));
    Ok meta
  end.

(** ** What [serde_json] promises

    JSON has no infinities and no NaN: [serde_json] writes them as [null], which
    reads back as an absent value. Without its feature [float_roundtrip] the number
    that a finite one reads back as may be another ([json_f64]). Everything else
    reads back as it was written, once the skipped arrays are there again. *)

Definition reread_field (number : f64 → f64) (f : FbsField) : FbsField :=
  fi_with_default_real f (x ← fi_default_real f; if f64_is_finite x then Some (number x) else None).

Definition reread_object (number : f64 → f64) (o : FbsObject) : FbsObject :=
  ob_with_fields o (reread_field number <$> ob_fields o).

Definition reread_call (number : f64 → f64) (c : RpcCall) : RpcCall :=
  rc_with_types c (reread_object number <$> rc_request c) (reread_object number <$> rc_response c).

Definition reread_service (number : f64 → f64) (s : FbsService) : FbsService :=
  sv_with_calls s (reread_call number <$> sv_calls s).

Definition reread_payload (number : f64 → f64) (p : FbsDeclPayload) : FbsDeclPayload :=
  match p with
  | FbsPObject o => FbsPObject (reread_object number o)
  | FbsPEnum e => FbsPEnum e
  | FbsPService s => FbsPService (reread_service number s)
  end.

Class FbsJsonLaws : Prop := {
  envelope_reads_back (p : FbsDeclPayload) :
    ∃ value, json_from_slice (envelope_to_vec (from_payload p)) = Ok value ∧
      json_get "blob_version" value = Some (JNumber (PosInt FBS_BLOB_VERSION)) ∧
      envelope_from_value (normalize_skipped_arrays value) = Ok (from_payload (reread_payload json_f64 p));
  meta_reads_back (m : FbsMeta) : meta_from_slice (meta_to_vec m) = Ok m;
  meta_not_empty (m : FbsMeta) : meta_to_vec m ≠ [];
}.

Context {FL : FbsJsonLaws}.

Lemma into_from_payload p : into_payload (from_payload p) = Ok p.
Proof. by destruct p. Qed.

(** A declaration reads back as it was stored, but for defaults that are
    floating-point numbers. *)
Lemma fbs_decode_encode_decl p : fbs_decode_decl (fbs_encode_decl p) = Ok (reread_payload json_f64 p).
Proof.
  unfold fbs_decode_decl, fbs_encode_decl. destruct (envelope_reads_back p) as (value & -> & Hv & He). cbn.
  rewrite Hv. cbn. rewrite He. cbn. apply into_from_payload.
Qed.

Lemma fbs_decode_encode_meta m : fbs_decode_meta (fbs_encode_meta m) = Ok (fm_with_version m FBS_BLOB_VERSION).
Proof.
  unfold fbs_decode_meta, fbs_encode_meta. pose proof (meta_not_empty (fm_with_version m FBS_BLOB_VERSION)) as H.
  destruct (meta_to_vec _) as [|b bs] eqn:E; [done|]. rewrite <- E, meta_reads_back. done.
Qed.

End Blobs.

Arguments FbsJson {F64 FT}.
Arguments FbsJsonLaws {F64 FT FJ}.
