(* ===== verification/FbsMutations.v ===== *)
(** * FbsMutations: granular edits of a FlatBuffers schema

    [crates/schemahub-compiler-flatbuffers/src/mutations.rs]: the operations, the
    working state that a schema is loaded into, one definition per operation, and
    [apply_mutation] and [apply_mutations], which turn operations into a
    [MutationEffect]. As in [Mutations], a method that takes [&mut self] is a
    function of the state; the callers drop the state when an operation fails.
    Arithmetic wraps as in a release build. *)
From S2P Require Import Prelude RustStd SchemaTypes FbsSchema.
From Stdlib Require Import Strings.Byte Ascii.

Open Scope Z_scope.

Inductive FbsOp :=
  | FbsAddField (table field_name field_type : string) (default_value doc_comment : option string)
  | FbsDeprecateField (table field_name : string)
  | FbsRenameField (table old_name new_name : string)
  | FbsChangeFieldType (table field_name new_type : string)
  | FbsRemoveField (table field_name : string)
  | FbsCreateTable (name : string) (doc_comment : option string)
  | FbsRenameTable (old_name new_name : string)
  | FbsDeleteTable (name : string)
  | FbsCreateEnum (name underlying_type : string) (doc_comment : option string)
  | FbsRenameEnum (old_name new_name : string)
  | FbsDeleteEnum (name : string)
  | FbsAddEnumValue (enum_name value_name : string) (value : Z)
  | FbsRemoveEnumValue (enum_name value_name : string)
  | FbsRenameEnumValue (enum_name old_name new_name : string)
  | FbsCreateUnion (name : string) (doc_comment : option string)
  | FbsCreateUnionWithMembers (name : string) (member_types : list string) (doc_comment : option string)
  | FbsAddUnionMember (union_name member_type : string)
  | FbsRemoveUnionMember (union_name member_type : string)
  | FbsRenameUnion (old_name new_name : string)
  | FbsDeleteUnion (name : string)
  | FbsUpdateImport (import_path resolved_commit : string) (remove : bool).

(** [serde_json] at the type of operations. *)
Class FbsOpJson := {
  op_to_vec : FbsOp → list byte;
  op_from_slice : list byte → outcome string FbsOp;
}.

Definition fbs_op_encode `{FbsOpJson} (op : FbsOp) : list byte := op_to_vec op.

Definition fbs_op_decode `{FbsOpJson} (bytes : list byte) : outcome MutationError FbsOp :=
  map_err InvalidOperationBytes (op_from_slice bytes).

Inductive ExpectedDeclKind := ExpTable | ExpEnum | ExpUnion.

Definition kind_label (k : ExpectedDeclKind) : string :=
  match k with ExpTable => "table" | ExpEnum => "enum" | ExpUnion => "union" end.

Section Mutations.
Context {F64 : RustF64} {FT : FlatcTypes} {FM : FlatcMethods} {FJ : FbsJson} {OJ : FbsOpJson}.

(** ** Type specifications *)

Definition lookup_scalar (name : string) : option BaseType :=
  let spelled l := existsb (λ s, bool_decide (s = name)) l in
  if spelled ["bool"%string] then Some BtBool
  else if spelled ["byte"; "int8"]%string then Some BtByte
  else if spelled ["ubyte"; "uint8"]%string then Some BtUByte
  else if spelled ["short"; "int16"]%string then Some BtShort
  else if spelled ["ushort"; "uint16"]%string then Some BtUShort
  else if spelled ["int"; "int32"]%string then Some BtInt
  else if spelled ["uint"; "uint32"]%string then Some BtUInt
  else if spelled ["long"; "int64"]%string then Some BtLong
  else if spelled ["ulong"; "uint64"]%string then Some BtULong
  else if spelled ["float"; "float32"]%string then Some BtFloat
  else if spelled ["double"; "float64"]%string then Some BtDouble
  else if spelled ["string"%string] then Some BtString
  else None.

(** [spec.strip_prefix('[').and_then(|s| s.strip_suffix(']'))]. *)
Definition vector_inner (spec : string) : option string :=
  strip_prefix "[" spec ≫= strip_suffix_char "]"%char.

Definition named_type (spec : string) : FbsType :=
  match lookup_scalar spec with
  | Some bt => mkFbsType (Some bt) (byte_size bt) None None None None None type_rest_default
  | None => mkFbsType (Some BtTable) (Some 4) None None None None (Some spec) type_rest_default
  end.

Definition vector_type (elem : FbsType) : FbsType :=
  mkFbsType (Some BtVector) (Some 4) (ty_base_type elem) (ty_base_size elem) None None
    (ty_unresolved_name elem) type_rest_default.

(** The recursion peels one pair of brackets per step, so the length of the
    specification bounds it. *)
Fixpoint parse_type_spec_fuel (fuel : nat) (spec : string) : FbsType :=
  let spec := trim spec in
  match fuel, vector_inner spec with
  | S fuel, Some inner => vector_type (parse_type_spec_fuel fuel inner)
  | _, _ => named_type spec
  end.

Definition parse_type_spec (spec : string) : FbsType := parse_type_spec_fuel (String.length spec) spec.

(** ** References by name *)

Definition type_name_matches (type_name target : string) : bool :=
  bool_decide (type_name = target) || bool_decide (rsplit_next "."%char type_name = target).

Definition rename_type_name (type_name old_name new_name : string) : option string :=
  if negb (type_name_matches type_name old_name) then None
  else match rfind_split "."%char type_name with
       | Some (upto, _) => Some (upto +:+ new_name)
       | None => Some new_name
       end.

(** The name that a type refers to. *)
Definition type_ref_of (t : option FbsType) : option string := t ≫= ty_unresolved_name.

Definition opt_matches (name : option string) (target : string) : bool :=
  match name with Some n => type_name_matches n target | None => false end.

Definition payload_references (payload : FbsDeclPayload) (target : string) : bool :=
  match payload with
  | FbsPObject o => existsb (λ f, opt_matches (type_ref_of (fi_type f)) target) (ob_fields o)
  | FbsPEnum e =>
    if en_is_union e then existsb (λ v, opt_matches (type_ref_of (vl_union_type v)) target) (en_values e)
    else false
  | FbsPService s =>
    existsb (λ c, opt_matches (rc_request c ≫= ob_name) target || opt_matches (rc_response c ≫= ob_name) target)
      (sv_calls s)
  end.

(** One type, renamed in place, with the flag that it changed. *)
Definition rename_in_type (old_name new_name : string) (t : option FbsType) : option FbsType * bool :=
  match t with
  | Some ty =>
    match ty_unresolved_name ty ≫= λ n, rename_type_name n old_name new_name with
    | Some renamed => (Some (ty_with_name ty (Some renamed)), true)
    | None => (t, false)
    end
  | None => (None, false)
  end.

Definition rename_in_field (old_name new_name : string) (f : FbsField) : FbsField * bool :=
  let '(t, changed) := rename_in_type old_name new_name (fi_type f) in (fi_with_type f t, changed).

Definition rename_in_member (old_name new_name : string) (v : FbsEnumVal) : FbsEnumVal * bool :=
  let '(t, changed) := rename_in_type old_name new_name (vl_union_type v) in
  let v := vl_with_union_type v t in
  (if changed && bool_decide (vl_name v = Some old_name) then vl_with_name v (Some new_name) else v, changed).

Definition rename_in_message (old_name new_name : string) (o : option FbsObject) : option FbsObject * bool :=
  match o with
  | Some ob =>
    match ob_name ob ≫= λ n, rename_type_name n old_name new_name with
    | Some renamed => (Some (ob_with_name ob (Some renamed)), true)
    | None => (o, false)
    end
  | None => (None, false)
  end.

Definition rename_in_call (old_name new_name : string) (c : RpcCall) : RpcCall * bool :=
  let '(request, b) := rename_in_message old_name new_name (rc_request c) in
  let '(response, b') := rename_in_message old_name new_name (rc_response c) in
  (rc_with_types c request response, b || b').

Definition rewrite_payload_references (old_name new_name : string) (payload : FbsDeclPayload) :
    FbsDeclPayload * bool :=
  match payload with
  | FbsPObject o =>
    let '(fields, changed) := map_mut (rename_in_field old_name new_name) (ob_fields o) in
    (FbsPObject (ob_with_fields o fields), changed)
  | FbsPEnum e =>
    if en_is_union e then
      let '(values, changed) := map_mut (rename_in_member old_name new_name) (en_values e) in
      (FbsPEnum (en_with_values e values), changed)
    else (payload, false)
  | FbsPService s =>
    let '(calls, changed) := map_mut (rename_in_call old_name new_name) (sv_calls s) in
    (FbsPService (sv_with_calls s calls), changed)
  end.

Definition payload_matches_kind (payload : FbsDeclPayload) (expected : ExpectedDeclKind) : bool :=
  match payload, expected with
  | FbsPObject o, ExpTable => negb (ob_is_struct o)
  | FbsPEnum e, ExpEnum => negb (en_is_union e)
  | FbsPEnum e, ExpUnion => en_is_union e
  | _, _ => false
  end.

(** Set a flag attribute on a field if it is absent. *)
Definition set_flag_attribute (attributes : option Attributes) (key : string) : option Attributes :=
  let attrs := default attributes_default attributes in
  Some (if attributes_has attrs key then attrs
        else mkAttributes (at_entries attrs ++ [mkKeyValue (Some key) None]) (at_rest attrs)).

(** ** The working state *)

Record FbsWorkingState := mkFbsWorkingState {
  fw_decls : gmap string FbsDeclPayload;
  fw_meta : FbsMeta;
  fw_meta_changed : bool;
  fw_touched : gset string;
  fw_removed : gset string;
  fw_removed_enum_values : gset (string * string);
  fw_defer_reference_integrity : bool;
}.

Definition fw_with_decls (s : FbsWorkingState) (d : gmap string FbsDeclPayload) : FbsWorkingState :=
  mkFbsWorkingState d (fw_meta s) (fw_meta_changed s) (fw_touched s) (fw_removed s) (fw_removed_enum_values s)
    (fw_defer_reference_integrity s).

Definition fw_with_meta (s : FbsWorkingState) (m : FbsMeta) (changed : bool) : FbsWorkingState :=
  mkFbsWorkingState (fw_decls s) m changed (fw_touched s) (fw_removed s) (fw_removed_enum_values s)
    (fw_defer_reference_integrity s).

Definition fw_with_tracking (s : FbsWorkingState) (touched removed : gset string) : FbsWorkingState :=
  mkFbsWorkingState (fw_decls s) (fw_meta s) (fw_meta_changed s) touched removed (fw_removed_enum_values s)
    (fw_defer_reference_integrity s).

Definition fw_with_removed_values (s : FbsWorkingState) (v : gset (string * string)) : FbsWorkingState :=
  mkFbsWorkingState (fw_decls s) (fw_meta s) (fw_meta_changed s) (fw_touched s) (fw_removed s) v
    (fw_defer_reference_integrity s).

Definition fm_with_order (m : FbsMeta) (order : list string) : FbsMeta :=
  mkFbsMeta (fm_blob_version m) (fm_namespace m) (fm_includes m) (fm_include_commits m) (fm_root_type m)
    (fm_file_ident m) (fm_file_ext m) order (fm_declared_attributes m).

Definition fm_with_root (m : FbsMeta) (root : option string) : FbsMeta :=
  mkFbsMeta (fm_blob_version m) (fm_namespace m) (fm_includes m) (fm_include_commits m) root
    (fm_file_ident m) (fm_file_ext m) (fm_decl_order m) (fm_declared_attributes m).

Definition fm_with_includes (m : FbsMeta) (includes commits : list string) : FbsMeta :=
  mkFbsMeta (fm_blob_version m) (fm_namespace m) includes commits (fm_root_type m)
    (fm_file_ident m) (fm_file_ext m) (fm_decl_order m) (fm_declared_attributes m).

(** The payloads of a schema, read in the order of their names. *)
Fixpoint fbs_load_decls (l : list (string * DeclBlob)) : outcome MutationError (gmap string FbsDeclPayload) :=
  match l with
  | [] => Ok ∅
  | (name, blob) :: l =>
    payload ← map_err (λ e, MutMalformedBlob (fmt_fbs_blob_error e)) (fbs_decode_decl blob);
    decls ← fbs_load_decls l;
    Ok (<[name := payload]> decls)
  end.

Definition fbs_load (schema : SchemaObjects) (defer : bool) : outcome MutationError FbsWorkingState :=
  decls ← fbs_load_decls (btree_iter (so_decls schema));
  meta ← map_err (λ e, MutMalformedBlob (fmt_fbs_blob_error e)) (fbs_decode_meta (so_meta schema));
  Ok (mkFbsWorkingState decls meta false ∅ ∅ ∅ defer).

Definition fbs_into_effect (s : FbsWorkingState) : MutationEffect :=
  mkMutationEffect
    (if fw_meta_changed s then Some (fbs_encode_meta (fw_meta s)) else None)
    (omap (λ name, (λ p, (name, fbs_encode_decl p)) <$> fw_decls s !! name) (btree_set_iter (fw_touched s)))
    (List.filter (λ name, negb (bool_decide (is_Some (fw_decls s !! name)))) (btree_set_iter (fw_removed s))).

(** [self.touched.insert(name)]. *)
Definition fw_touch (s : FbsWorkingState) (name : string) : FbsWorkingState :=
  fw_with_tracking s ({[ name ]} ∪ fw_touched s) (fw_removed s).

(** The write back of a borrowed declaration, followed by the insertion into
    [touched]. *)
Definition fw_store (s : FbsWorkingState) (name : string) (p : FbsDeclPayload) : FbsWorkingState :=
  fw_touch (fw_with_decls s (<[name := p]> (fw_decls s))) name.

Definition object_mut (s : FbsWorkingState) (name : string) : outcome MutationError FbsObject :=
  match fw_decls s !! name with
  | Some (FbsPObject o) => Ok o
  | Some _ => Err (InvalidOperation ("declaration '" +:+ name +:+ "' is not a table/struct"))
  | None => Err (DeclarationNotFound name)
  end.

Definition fbs_enum_mut (s : FbsWorkingState) (name : string) : outcome MutationError FbsEnum :=
  match fw_decls s !! name with
  | Some (FbsPEnum e) => Ok e
  | Some _ => Err (InvalidOperation ("declaration '" +:+ name +:+ "' is not an enum/union"))
  | None => Err (DeclarationNotFound name)
  end.

Definition regular_enum_mut (s : FbsWorkingState) (name : string) : outcome MutationError FbsEnum :=
  e ← fbs_enum_mut s name;
  _ ← fail_if (en_is_union e) (InvalidOperation ("declaration '" +:+ name +:+ "' is a union, not an enum"));
  Ok e.

Definition union_mut (s : FbsWorkingState) (name : string) : outcome MutationError FbsEnum :=
  e ← fbs_enum_mut s name;
  _ ← fail_if (negb (en_is_union e)) (InvalidOperation ("declaration '" +:+ name +:+ "' is an enum, not a union"));
  Ok e.

(** ** Fields of tables *)

Definition fbs_field_named (name : string) (f : FbsField) : bool := bool_decide (fi_name f = Some name).

(** The slots of the fields: the explicit id, else the position. *)
Definition field_slots (fields : list FbsField) : list Z :=
  imap (λ i f, default (wrap_u32 (Z.of_nat i)) (fi_id f)) fields.

Definition next_slot (fields : list FbsField) : Z :=
  match iter_max (field_slots fields) with Some m => wrap_u32 (m + 1) | None => 0 end.

Definition doc_of (doc_comment : option string) : option Documentation :=
  (λ d, mkDocumentation [d]) <$> doc_comment.

(** The default value, kept as an integer, a real or a string. *)
Definition field_defaults (default_value : option string) : option Z * option f64 * option string :=
  match default_value with
  | None => (None, None, None)
  | Some dv =>
    match parse_i64 dv with
    | Some i => (Some i, None, None)
    | None => match parse_f64 dv with
              | Some r => (None, Some r, None)
              | None => (None, None, Some dv)
              end
    end
  end.

Definition new_field (fields : list FbsField) (field_name field_type : string)
    (default_value doc_comment : option string) : FbsField :=
  let '(integer, real, text) := field_defaults default_value in
  mkFbsField (Some field_name) (Some (parse_type_spec field_type)) (Some (next_slot fields)) integer real text
    false None (doc_of doc_comment) field_rest_default.

Definition fbs_add_field (s : FbsWorkingState) (table field_name field_type : string)
    (default_value doc_comment : option string) : outcome MutationError FbsWorkingState :=
  obj ← object_mut s table;
  _ ← fail_if (ob_is_struct obj)
        (InvalidOperation ("cannot add a field to struct '" +:+ table +:+ "': struct layout is fixed"));
  _ ← fail_if (existsb (fbs_field_named field_name) (ob_fields obj))
        (InvalidOperation ("field '" +:+ field_name +:+ "' already exists in '" +:+ table +:+ "'"));
  let field := new_field (ob_fields obj) field_name field_type default_value doc_comment in
  Ok (fw_store s table (FbsPObject (ob_with_fields obj (ob_fields obj ++ [field])))).

(** [iter_mut().find(..).ok_or_else(FieldNotFound)?] and the write through it. *)
Definition update_field (s : FbsWorkingState) (table field_name : string) (obj : FbsObject)
    (f : FbsField → FbsField) : outcome MutationError FbsWorkingState :=
  fields ← ok_or (update_first (fbs_field_named field_name) f (ob_fields obj)) (FieldNotFound table field_name);
  Ok (fw_store s table (FbsPObject (ob_with_fields obj fields))).

Definition deprecate_field (s : FbsWorkingState) (table field_name : string) :
    outcome MutationError FbsWorkingState :=
  obj ← object_mut s table;
  _ ← fail_if (ob_is_struct obj) (InvalidOperation ("cannot deprecate a field on struct '" +:+ table +:+ "'"));
  update_field s table field_name obj
    (λ f, fi_deprecated f (set_flag_attribute (fi_attributes f) "deprecated")).

Definition fbs_rename_field (s : FbsWorkingState) (table old_name new_name : string) :
    outcome MutationError FbsWorkingState :=
  obj ← object_mut s table;
  _ ← fail_if (ob_is_struct obj)
        (InvalidOperation ("cannot rename a field on struct '" +:+ table +:+ "': struct layout is fixed"));
  _ ← fail_if (existsb (fbs_field_named new_name) (ob_fields obj))
        (InvalidOperation ("field '" +:+ new_name +:+ "' already exists in '" +:+ table +:+ "'"));
  update_field s table old_name obj (λ f, fi_with_name f (Some new_name)).

Definition fbs_change_field_type (s : FbsWorkingState) (table field_name new_type : string) :
    outcome MutationError FbsWorkingState :=
  obj ← object_mut s table;
  _ ← fail_if (ob_is_struct obj) (InvalidOperation ("cannot change a field type on struct '" +:+ table +:+ "'"));
  update_field s table field_name obj (λ f, fi_with_type f (Some (parse_type_spec new_type))).

(** ** Declarations *)

Definition not_declared (s : FbsWorkingState) (name : string) : outcome MutationError unit :=
  fail_if (bool_decide (is_Some (fw_decls s !! name)))
    (InvalidOperation ("declaration '" +:+ name +:+ "' already exists")).

(** [decls.insert], [decl_order.push], [meta_changed = true], [touched.insert]. *)
Definition fw_create (s : FbsWorkingState) (name : string) (p : FbsDeclPayload) : FbsWorkingState :=
  fw_store (fw_with_meta s (fm_with_order (fw_meta s) (fm_decl_order (fw_meta s) ++ [name])) true) name p.

Definition create_table (s : FbsWorkingState) (name : string) (doc_comment : option string) :
    outcome MutationError FbsWorkingState :=
  _ ← not_declared s name;
  Ok (fw_create s name
        (FbsPObject (mkFbsObject (Some name) [] false None (doc_of doc_comment) None None object_rest_default))).

Definition fbs_create_enum (s : FbsWorkingState) (name underlying_type : string) (doc_comment : option string)
    (is_union : bool) : outcome MutationError FbsWorkingState :=
  _ ← not_declared s name;
  Ok (fw_create s name
        (FbsPEnum (mkFbsEnum (Some name) [] is_union (Some (parse_type_spec underlying_type)) None
                     (doc_of doc_comment) None None enum_rest_default))).

Definition none_member : FbsEnumVal :=
  mkFbsEnumVal (Some "NONE"%string) (Some 0) None None enum_val_rest_default.

Definition create_union (s : FbsWorkingState) (name : string) (doc_comment : option string) :
    outcome MutationError FbsWorkingState :=
  _ ← not_declared s name;
  let utype := mkFbsType (Some BtUType) None None None None None None type_rest_default in
  Ok (fw_create s name
        (FbsPEnum (mkFbsEnum (Some name) [none_member] true (Some utype) None (doc_of doc_comment) None None
                     enum_rest_default))).

(** A member of a union that stands for a type. *)
Definition is_member (member_type : string) (v : FbsEnumVal) : bool :=
  bool_decide (vl_name v = Some member_type) || opt_matches (type_ref_of (vl_union_type v)) member_type.

Definition member_base_type (s : FbsWorkingState) (member_type : string) : outcome MutationError BaseType :=
  match fw_decls s !! member_type with
  | Some (FbsPObject o) =>
    if negb (ob_is_struct o) then Ok BtTable
    else Err (InvalidOperation ("union member '" +:+ member_type +:+ "' must be a table, not a struct"))
  | Some _ => Err (InvalidOperation ("union member '" +:+ member_type +:+ "' is not a table"))
  | None => Err (DeclarationNotFound member_type)
  end.

Definition add_union_member (s : FbsWorkingState) (union_name member_type : string) :
    outcome MutationError FbsWorkingState :=
  base_type ← member_base_type s member_type;
  union ← union_mut s union_name;
  _ ← fail_if (existsb (is_member member_type) (en_values union))
        (InvalidOperation ("union member '" +:+ member_type +:+ "' already exists in '" +:+ union_name +:+ "'"));
  next_value ← ok_or (checked_add_i64 (default 0 (iter_max (omap vl_value (en_values union)))) 1)
                 (InvalidOperation ("union '" +:+ union_name +:+ "' has no remaining discriminator values"));
  let member_ty := mkFbsType (Some base_type) (Some 4) None None None None (Some member_type) type_rest_default in
  let value := mkFbsEnumVal (Some member_type) (Some next_value) (Some member_ty) None enum_val_rest_default in
  Ok (fw_store s union_name (FbsPEnum (en_with_values union (en_values union ++ [value])))).

Fixpoint add_union_members (s : FbsWorkingState) (name : string) (member_types : list string) :
    outcome MutationError FbsWorkingState :=
  match member_types with
  | [] => Ok s
  | member_type :: member_types =>
    s ← add_union_member s name member_type;
    add_union_members s name member_types
  end.

Definition create_union_with_members (s : FbsWorkingState) (name : string) (member_types : list string)
    (doc_comment : option string) : outcome MutationError FbsWorkingState :=
  s ← create_union s name doc_comment;
  add_union_members s name member_types.

Definition remove_union_member (s : FbsWorkingState) (union_name member_type : string) :
    outcome MutationError FbsWorkingState :=
  _ ← fail_if (bool_decide (member_type = "NONE"%string))
        (InvalidOperation "the synthetic NONE union member cannot be removed");
  union ← union_mut s union_name;
  index ← ok_or (position (is_member member_type) (en_values union)) (FieldNotFound union_name member_type);
  Ok (fw_store s union_name (FbsPEnum (en_with_values union (vec_remove index (en_values union))))).

Definition payload_with_name (p : FbsDeclPayload) (name : string) : FbsDeclPayload :=
  match p with
  | FbsPObject o => FbsPObject (ob_with_name o (Some name))
  | FbsPEnum e => FbsPEnum (en_with_name e (Some name))
  | FbsPService s => FbsPService (sv_with_name s (Some name))
  end.

(** The declaration that an operation on a table, enum or union names. *)
Definition expect_kind (s : FbsWorkingState) (name : string) (expected : ExpectedDeclKind) :
    outcome MutationError FbsDeclPayload :=
  payload ← ok_or (fw_decls s !! name) (DeclarationNotFound name);
  _ ← fail_if (negb (payload_matches_kind payload expected))
        (InvalidOperation ("declaration '" +:+ name +:+ "' is not a " +:+ kind_label expected));
  Ok payload.

(** The metadata after a rename: the root type and the order of declarations. *)
Definition rename_in_meta (s : FbsWorkingState) (old_name new_name : string) : FbsWorkingState :=
  let m := fw_meta s in
  let renamed_root := fm_root_type m ≫= λ root, rename_type_name root old_name new_name in
  let m := match renamed_root with Some r => fm_with_root m (Some r) | None => m end in
  let in_order := existsb (λ n, bool_decide (n = old_name)) (fm_decl_order m) in
  let order := (λ n, if bool_decide (n = old_name) then new_name else n) <$> fm_decl_order m in
  fw_with_meta s (fm_with_order m order) (fw_meta_changed s || is_some renamed_root || in_order).

Definition rename_decl (s : FbsWorkingState) (old_name new_name : string) (expected : ExpectedDeclKind) :
    outcome MutationError FbsWorkingState :=
  payload ← expect_kind s old_name expected;
  if bool_decide (old_name = new_name) then Ok s else
  _ ← fail_if (bool_decide (is_Some (fw_decls s !! new_name)))
        (InvalidOperation ("cannot rename '" +:+ old_name +:+ "' to '" +:+ new_name +:+
                           "': target already exists"));
  let decls := <[new_name := payload_with_name payload new_name]> (delete old_name (fw_decls s)) in
  let '(decls, changed) := btree_map_mut (λ _, rewrite_payload_references old_name new_name) decls in
  let s := fw_with_decls s decls in
  let s := fw_with_tracking s (list_to_set changed ∪ fw_touched s) (fw_removed s) in
  let s := rename_in_meta s old_name new_name in
  Ok (fw_with_tracking s ({[ new_name ]} ∪ fw_touched s ∖ {[ old_name ]}) ({[ old_name ]} ∪ fw_removed s)).

(** The root type, as a reference. *)
Definition root_reference (s : FbsWorkingState) (name : string) : list string :=
  if opt_matches (fm_root_type (fw_meta s)) name then ["root_type"%string] else [].

Definition delete_decl (s : FbsWorkingState) (name : string) (expected : ExpectedDeclKind) :
    outcome MutationError FbsWorkingState :=
  _ ← expect_kind s name expected;
  let references :=
    (List.filter (λ kv, negb (bool_decide (kv.1 = name)) && payload_references kv.2 name)
       (btree_iter (fw_decls s))).*1 ++ root_reference s name in
  _ ← fail_if (negb (fw_defer_reference_integrity s) && negb (bool_decide (references = [])))
        (InvalidOperation ("cannot delete " +:+ kind_label expected +:+ " '" +:+ name +:+
                           "': referenced by " +:+ join ", " references));
  let s := fw_with_decls s (delete name (fw_decls s)) in
  let order := retain (λ d, negb (bool_decide (d = name))) (fm_decl_order (fw_meta s)) in
  let s := fw_with_meta s (fm_with_order (fw_meta s) order) true in
  Ok (fw_with_tracking s (fw_touched s ∖ {[ name ]}) ({[ name ]} ∪ fw_removed s)).

(** ** Values of enums *)

Definition fbs_value_named (name : string) (v : FbsEnumVal) : bool := bool_decide (vl_name v = Some name).

Definition fbs_add_enum_value (s : FbsWorkingState) (enum_name value_name : string) (value : Z) :
    outcome MutationError FbsWorkingState :=
  en ← regular_enum_mut s enum_name;
  _ ← fail_if (existsb (fbs_value_named value_name) (en_values en))
        (InvalidOperation ("enum value '" +:+ value_name +:+ "' already exists in '" +:+ enum_name +:+ "'"));
  _ ← fail_if (existsb (λ v, bool_decide (vl_value v = Some value)) (en_values en))
        (InvalidOperation ("enum value number '" +:+ fmt_Z value +:+ "' already exists in '" +:+ enum_name +:+ "'"));
  let val := mkFbsEnumVal (Some value_name) (Some value) None None enum_val_rest_default in
  let s := fw_with_removed_values s (fw_removed_enum_values s ∖ {[ (enum_name, value_name) ]}) in
  Ok (fw_store s enum_name (FbsPEnum (en_with_values en (en_values en ++ [val])))).

(** A field of the enum whose default is the value. *)
Definition defaults_to (enum_name value_name : string) (f : FbsField) : bool :=
  opt_matches (type_ref_of (fi_type f)) enum_name && bool_decide (fi_default_string f = Some value_name).

Definition fbs_enum_value_references (s : FbsWorkingState) (enum_name value_name : string) : list string :=
  (List.filter (λ kv, match kv.2 with
                      | FbsPObject o => existsb (defaults_to enum_name value_name) (ob_fields o)
                      | _ => false
                      end) (btree_iter (fw_decls s))).*1.

Definition fbs_value_error (enum_name value_name : string) (references : list string) : MutationError :=
  InvalidOperation ("cannot remove enum value '" +:+ enum_name +:+ "." +:+ value_name +:+
                    "': referenced as a default by " +:+ join ", " references).

Definition fbs_remove_enum_value (s : FbsWorkingState) (enum_name value_name : string) :
    outcome MutationError FbsWorkingState :=
  let references := fbs_enum_value_references s enum_name value_name in
  _ ← fail_if (negb (fw_defer_reference_integrity s) && negb (bool_decide (references = [])))
        (fbs_value_error enum_name value_name references);
  en ← regular_enum_mut s enum_name;
  let values := retain (λ v, negb (fbs_value_named value_name v)) (en_values en) in
  _ ← fail_if (bool_decide (length values = length (en_values en))) (FieldNotFound enum_name value_name);
  let s := fw_with_removed_values s ({[ (enum_name, value_name) ]} ∪ fw_removed_enum_values s) in
  Ok (fw_store s enum_name (FbsPEnum (en_with_values en values))).

(** Defaults of fields that name the renamed value. *)
Definition rename_default (enum_name old_name new_name : string) (f : FbsField) : FbsField * bool :=
  if defaults_to enum_name old_name f then (fi_with_default_string f (Some new_name), true) else (f, false).

Definition rename_defaults (enum_name old_name new_name : string) (p : FbsDeclPayload) : FbsDeclPayload * bool :=
  match p with
  | FbsPObject o =>
    let '(fields, changed) := map_mut (rename_default enum_name old_name new_name) (ob_fields o) in
    (FbsPObject (ob_with_fields o fields), changed)
  | _ => (p, false)
  end.

Definition fbs_rename_enum_value (s : FbsWorkingState) (enum_name old_name new_name : string) :
    outcome MutationError FbsWorkingState :=
  en ← regular_enum_mut s enum_name;
  _ ← fail_if (existsb (fbs_value_named new_name) (en_values en))
        (InvalidOperation ("enum value '" +:+ new_name +:+ "' already exists in '" +:+ enum_name +:+ "'"));
  values ← ok_or (update_first (fbs_value_named old_name) (λ v, vl_with_name v (Some new_name)) (en_values en))
             (FieldNotFound enum_name old_name);
  let decls := <[enum_name := FbsPEnum (en_with_values en values)]> (fw_decls s) in
  let '(decls, changed) := btree_map_mut (λ _, rename_defaults enum_name old_name new_name) decls in
  Ok (fw_with_tracking (fw_with_decls s decls)
        ({[ enum_name ]} ∪ (list_to_set changed ∪ fw_touched s)) (fw_removed s)).

(** ** The check at the end of a batch *)

Definition fbs_references_to (s : FbsWorkingState) (name : string) : list string :=
  (List.filter (λ kv, payload_references kv.2 name) (btree_iter (fw_decls s))).*1 ++ root_reference s name.

Definition fbs_validate_removed_references (s : FbsWorkingState) : outcome MutationError unit :=
  for_each (λ name,
    let references := fbs_references_to s name in
    fail_if (negb (bool_decide (references = [])))
      (InvalidOperation ("cannot remove declaration '" +:+ name +:+ "': referenced by " +:+ join ", " references)))
    (btree_set_iter (fw_removed s)) ≫= λ _,
  for_each (λ '(enum_name, value_name),
    let references := fbs_enum_value_references s enum_name value_name in
    fail_if (negb (bool_decide (references = []))) (fbs_value_error enum_name value_name references))
    (btree_pair_iter (fw_removed_enum_values s)).

(** ** Includes *)

Definition fbs_update_import (s : FbsWorkingState) (import_path resolved_commit : string) (remove : bool) :
    outcome MutationError FbsWorkingState :=
  let m := fw_meta s in
  let includes := fm_includes m in
  let commits := resize (length includes) ""%string (fm_include_commits m) in
  let found := position (λ i, bool_decide (i = import_path)) includes in
  let m :=
    if remove then
      match found with
      | Some index => fm_with_includes m (vec_remove index includes) (vec_remove index commits)
      | None => fm_with_includes m includes commits
      end
    else
      match found with
      | Some index => fm_with_includes m includes (<[index := resolved_commit]> commits)
      | None => fm_with_includes m (includes ++ [import_path]) (commits ++ [resolved_commit])
      end in
  Ok (fw_with_meta s m true).

(** ** Dispatch *)

Definition fbs_apply (s : FbsWorkingState) (op : FbsOp) : outcome MutationError FbsWorkingState :=
  match op with
  | FbsAddField table field_name field_type default_value doc_comment =>
    fbs_add_field s table field_name field_type default_value doc_comment
  | FbsDeprecateField table field_name => deprecate_field s table field_name
  | FbsRenameField table old_name new_name => fbs_rename_field s table old_name new_name
  | FbsChangeFieldType table field_name new_type => fbs_change_field_type s table field_name new_type
  | FbsRemoveField table _ =>
    Err (InvalidOperation ("RemoveField on '" +:+ table +:+
           "' is rejected in FlatBuffers; use DeprecateField (slot is wire identity)"))
  | FbsCreateTable name doc_comment => create_table s name doc_comment
  | FbsRenameTable old_name new_name => rename_decl s old_name new_name ExpTable
  | FbsDeleteTable name => delete_decl s name ExpTable
  | FbsCreateEnum name underlying_type doc_comment => fbs_create_enum s name underlying_type doc_comment false
  | FbsRenameEnum old_name new_name => rename_decl s old_name new_name ExpEnum
  | FbsDeleteEnum name => delete_decl s name ExpEnum
  | FbsAddEnumValue enum_name value_name value => fbs_add_enum_value s enum_name value_name value
  | FbsRemoveEnumValue enum_name value_name => fbs_remove_enum_value s enum_name value_name
  | FbsRenameEnumValue enum_name old_name new_name => fbs_rename_enum_value s enum_name old_name new_name
  | FbsCreateUnion name doc_comment => create_union s name doc_comment
  | FbsCreateUnionWithMembers name member_types doc_comment =>
    create_union_with_members s name member_types doc_comment
  | FbsAddUnionMember union_name member_type => add_union_member s union_name member_type
  | FbsRemoveUnionMember union_name member_type => remove_union_member s union_name member_type
  | FbsRenameUnion old_name new_name => rename_decl s old_name new_name ExpUnion
  | FbsDeleteUnion name => delete_decl s name ExpUnion
  | FbsUpdateImport import_path resolved_commit remove => fbs_update_import s import_path resolved_commit remove
  end.

Definition fbs_apply_mutation (schema : SchemaObjects) (op : Mutation) : outcome MutationError MutationEffect :=
  parsed ← fbs_op_decode (mu_operation op);
  state ← fbs_load schema false;
  state ← fbs_apply state parsed;
  Ok (fbs_into_effect state).

Fixpoint fbs_apply_all (s : FbsWorkingState) (ops : list Mutation) : outcome MutationError FbsWorkingState :=
  match ops with
  | [] => Ok s
  | op :: ops =>
    parsed ← fbs_op_decode (mu_operation op);
    s ← fbs_apply s parsed;
    fbs_apply_all s ops
  end.

Definition fbs_apply_mutations (schema : SchemaObjects) (ops : list Mutation) :
    outcome MutationError MutationEffect :=
  state ← fbs_load schema true;
  state ← fbs_apply_all state ops;
  _ ← fbs_validate_removed_references state;
  Ok (fbs_into_effect state).

(** ** What loading gives *)

Lemma fbs_load_decls_Ok l d :
  fbs_load_decls l = Ok d → NoDup l.*1 →
  ∀ k p, d !! k = Some p ↔ ∃ b, (k, b) ∈ l ∧ fbs_decode_decl b = Ok p.
Proof.
  revert d. induction l as [|[name blob] l IH]; intros d H Hnd k p; cbn in H.
  - injection H as <-. rewrite lookup_empty. split; [done|]. intros (b & Hb & _). by apply elem_of_nil in Hb.
  - ok_inv H. subst d. apply NoDup_cons in Hnd as [Hname Hnd]. cbn in Hname. specialize (IH _ Hok0 Hnd k p).
    destruct (decide (k = name)) as [->|Hne].
    + rewrite lookup_insert_eq. split.
      * intros [= <-]. exists blob. split; [by left|done].
      * intros (b & Hb & Hd). apply elem_of_cons in Hb as [[= ->]|Hb]; [congruence|].
        exfalso. apply Hname. apply list_elem_of_fmap. by exists (name, b).
    + rewrite lookup_insert_ne, IH by done. split; intros (b & Hb & Hd); exists b; (split; [|done]).
      * by right.
      * apply elem_of_cons in Hb as [[= ? _]|Hb]; [done|exact Hb].
Qed.

Lemma fbs_load_Ok schema defer s :
  fbs_load schema defer = Ok s →
  (∀ k p, fw_decls s !! k = Some p ↔ ∃ b, so_decls schema !! k = Some b ∧ fbs_decode_decl b = Ok p) ∧
  (∀ k b, so_decls schema !! k = Some b → is_Some (fw_decls s !! k)) ∧
  fbs_decode_meta (so_meta schema) = Ok (fw_meta s) ∧ fw_meta_changed s = false ∧
  fw_touched s = ∅ ∧ fw_removed s = ∅ ∧ fw_removed_enum_values s = ∅.
Proof.
  unfold fbs_load. intros H. ok_inv H. subst s. cbn.
  pose proof (fbs_load_decls_Ok _ _ Hok (NoDup_btree_iter_fst _)) as Hd.
  assert (∀ k p, x !! k = Some p ↔ ∃ b, so_decls schema !! k = Some b ∧ fbs_decode_decl b = Ok p) as Hspec.
  { intros k p. rewrite Hd. by setoid_rewrite elem_of_btree_iter. }
  split_and!; try done. intros k b Hb. destruct (fbs_decode_decl b) as [p| | |] eqn:E; [exists p; apply Hspec; by exists b|..].
  all: exfalso; clear -Hok Hb E; apply elem_of_btree_iter in Hb; revert x Hok;
    induction (btree_iter (so_decls schema)) as [|[n b'] l IH]; [by apply elem_of_nil in Hb|];
    intros d Hok; cbn in Hok; ok_inv Hok; apply elem_of_cons in Hb as [[= <- <-]|Hb];
    [congruence|by eapply IH].
Qed.

End Mutations.
