(* ===== verification/FbsPrinter.v ===== *)
(** * FbsPrinter: the [.fbs] printer and what is built on it

    [crates/schemahub-compiler-flatbuffers/src]: [printer.rs], [parse.rs],
    [diff.rs], [conflict.rs], [read.rs], and the method [print] of [lib.rs]. *)
From S2P Require Import Prelude RustStd SchemaTypes FbsSchema.
From Stdlib Require Import Strings.Byte Ascii.

Open Scope Z_scope.

Section Printer.
Context {F64 : RustF64} {FT : FlatcTypes}.

(** ** Types *)

Definition base_type_name (bt : BaseType) : string :=
  match bt with
  | BtBool => "bool" | BtByte => "byte" | BtUByte => "ubyte" | BtShort => "short" | BtUShort => "ushort"
  | BtInt => "int" | BtUInt => "uint" | BtLong => "long" | BtULong => "ulong" | BtFloat => "float"
  | BtDouble => "double" | BtString => "string" | BtUType => "uint8"
  | BtNone | BtVector | BtVector64 | BtTable | BtStruct | BtUnion | BtArray => ""
  end.

Definition print_element (ty : FbsType) : string :=
  match ty_unresolved_name ty with
  | Some name => name
  | None => base_type_name (default BtNone (ty_element_type ty))
  end.

Definition print_type (ty : FbsType) : string :=
  match default BtNone (ty_base_type ty) with
  | BtVector | BtVector64 => "[" +:+ print_element ty +:+ "]"
  | BtArray => "[" +:+ print_element ty +:+ ":" +:+ fmt_Z (default 0 (ty_fixed_length ty)) +:+ "]"
  | BtTable | BtStruct | BtUnion => default "void"%string (ty_unresolved_name ty)
  | scalar =>
    match ty_unresolved_name ty with
    | Some name => name
    | None => base_type_name scalar
    end
  end.

(** ** Parts of a declaration *)

Definition print_doc (doc : option Documentation) (indent : string) : string :=
  match doc with
  | None => ""
  | Some doc =>
    str_concat ((λ l, line (indent +:+ "///" +:+ (if str_is_empty l then "" else " " +:+ l))) <$> doc_lines doc)
  end.

Definition print_attributes (attrs : option Attributes) : string :=
  match attrs with
  | None => ""
  | Some attrs =>
    match at_entries attrs with
    | [] => ""
    | entries =>
      let part kv :=
        let key := default ""%string (kv_key kv) in
        match kv_value kv with Some v => key +:+ ": " +:+ v | None => key end in
      " (" +:+ join ", " (part <$> entries) +:+ ")"
    end
  end.

Definition print_default (field : FbsField) : string :=
  match fi_default_integer field with
  | Some i => " = " +:+ fmt_Z i
  | None =>
    match fi_default_real field with
    | Some r => " = " +:+ fmt_f64 r
    | None =>
      match fi_default_string field with
      | Some s => if str_is_empty s then " = []" else " = " +:+ s
      | None => ""
      end
    end
  end.

Definition print_field (field : FbsField) (indent : string) : string :=
  print_doc (fi_documentation field) indent +:+ indent +:+ default "_"%string (fi_name field) +:+ ": " +:+
  (match fi_type field with Some ty => print_type ty | None => "void" end) +:+
  print_default field +:+ print_attributes (fi_attributes field) +:+ line ";".

(** ** Declarations *)

Definition print_object (obj : FbsObject) : string :=
  print_doc (ob_documentation obj) "" +:+ (if ob_is_struct obj then "struct " else "table ") +:+
  default "_"%string (ob_name obj) +:+ print_attributes (ob_attributes obj) +:+ line " {" +:+
  str_concat ((λ f, print_field f "  ") <$> ob_fields obj) +:+ line "}".

(** The lines of a list whose items are separated by commas. *)
Fixpoint comma_lines (items : list string) : string :=
  match items with
  | [] => ""
  | [item] => line item
  | item :: items => line (item +:+ ",") +:+ comma_lines items
  end.

Definition print_enum_value (val : FbsEnumVal) : string :=
  print_doc (vl_documentation val) "  " +:+ "  " +:+ default "_"%string (vl_name val) +:+
  match vl_value val with Some v => " = " +:+ fmt_Z v | None => "" end.

Definition print_enum_values (values : list FbsEnumVal) : string := comma_lines (print_enum_value <$> values).

Definition print_union_member (val : FbsEnumVal) : string :=
  print_doc (vl_documentation val) "  " +:+ "  " +:+
  match vl_name val, vl_union_type val ≫= ty_unresolved_name with
  | Some alias, Some type_name =>
    if bool_decide (alias = type_name) then type_name else alias +:+ ": " +:+ type_name
  | None, Some type_name => type_name
  | Some alias, None => alias
  | None, None => "_"
  end.

(** The members of a union without the synthetic [NONE]. *)
Definition print_union_members (values : list FbsEnumVal) : string :=
  comma_lines (print_union_member <$>
                 List.filter (λ v, negb (bool_decide (vl_name v = Some "NONE"%string))) values).

Definition fbs_print_enum (e : FbsEnum) : string :=
  print_doc (en_documentation e) "" +:+
  (if en_is_union e then
     "union " +:+ default "_"%string (en_name e) +:+ print_attributes (en_attributes e) +:+ line " {" +:+
     print_union_members (en_values e)
   else
     "enum " +:+ default "_"%string (en_name e) +:+ " : " +:+
     match en_underlying_type e ≫= ty_base_type with Some bt => base_type_name bt | None => "int" end +:+
     print_attributes (en_attributes e) +:+ line " {" +:+ print_enum_values (en_values e)) +:+
  line "}".

Definition print_rpc (call : RpcCall) : string :=
  print_doc (rc_documentation call) "  " +:+ "  " +:+ default "_"%string (rc_name call) +:+ "(" +:+
  default "void"%string (rc_request call ≫= ob_name) +:+ "): " +:+
  default "void"%string (rc_response call ≫= ob_name) +:+ print_attributes (rc_attributes call) +:+ line ";".

Definition fbs_print_service (svc : FbsService) : string :=
  print_doc (sv_documentation svc) "" +:+ "rpc_service " +:+ default "_"%string (sv_name svc) +:+ line " {" +:+
  str_concat (print_rpc <$> sv_calls svc) +:+ line "}".

Definition print_decl (payload : FbsDeclPayload) : string :=
  match payload with
  | FbsPObject o => print_object o
  | FbsPEnum e => fbs_print_enum e
  | FbsPService s => fbs_print_service s
  end.

(** ** The file *)

Definition print_meta_header (meta : FbsMeta) : string :=
  let after (l : list string) := match l with [] => ""%string | _ => nl end in
  str_concat ((λ inc, line ("include " +:+ quoted inc +:+ ";")) <$> fm_includes meta) +:+ after (fm_includes meta) +:+
  match fm_namespace meta with Some ns => line (line ("namespace " +:+ ns +:+ ";")) | None => "" end +:+
  str_concat ((λ a, line ("attribute " +:+ quoted a +:+ ";")) <$> fm_declared_attributes meta) +:+
  after (fm_declared_attributes meta) +:+
  match fm_file_ident meta with Some id => line ("file_identifier " +:+ quoted id +:+ ";") | None => "" end +:+
  match fm_file_ext meta with Some ext => line ("file_extension " +:+ quoted ext +:+ ";") | None => "" end.

Definition print_root_type (meta : FbsMeta) : string :=
  match fm_root_type meta with Some rt => line ("root_type " +:+ rt +:+ ";") | None => "" end.

Context {FJ : FbsJson}.

(** [print_one] over a list of names, with the set of printed ones. *)
Fixpoint print_names (schema : SchemaObjects) (names : list string) (printed : gset string) :
    outcome PrintError (string * gset string) :=
  match names with
  | [] => Ok (""%string, printed)
  | name :: names =>
    match so_decls schema !! name with
    | Some blob =>
      if bool_decide (name ∈ printed) then print_names schema names printed
      else
        payload ← map_err (λ e, PrintMalformedBlob (fmt_fbs_blob_error e)) (fbs_decode_decl blob);
        '(rest, printed) ← print_names schema names ({[ name ]} ∪ printed);
        Ok (line (print_decl payload) +:+ rest, printed)
    | None => print_names schema names printed
    end
  end.

(** Declarations in source order first, then the others by name. *)
Definition fbs_print (schema : SchemaObjects) : outcome PrintError string :=
  meta ← map_err (λ e, PrintMalformedBlob (fmt_fbs_blob_error e)) (fbs_decode_meta (so_meta schema));
  '(ordered, printed) ← print_names schema (fm_decl_order meta) ∅;
  '(others, _) ← print_names schema (btree_iter (so_decls schema)).*1 printed;
  Ok (print_meta_header meta +:+ ordered +:+ others +:+ print_root_type meta).

(** ** Parsing *)

Context {FP : FlatcParser}.

(** [find_map(|x| x.namespace.as_ref().and_then(..))]. *)
Definition first_namespace (l : list (option (option string))) : option string :=
  head (omap (λ n, mjoin n) l).

Definition order_entry (kind : Z) (name : option string) (span_line : option Z) : list (Z * Z * string) :=
  match name with Some n => [(default (2 ^ 32 - 1) span_line, kind, n)] | None => [] end.

(** The order of [sort_by_key(|e| (e.0, e.1))]. *)
Definition entry_key_le (x y : Z * Z * string) : Prop :=
  x.1.1 < y.1.1 ∨ (x.1.1 = y.1.1 ∧ x.1.2 <= y.1.2).

#[export] Instance entry_key_le_dec : RelDecision entry_key_le.
Proof. intros x y. unfold entry_key_le. apply _. Defined.

Definition decl_order_of (schema : FbsSchemaTree) : list string :=
  (stable_sort entry_key_le
     (concat ((λ o, order_entry 0 (ob_name o) (ob_span_line o)) <$> sc_objects schema) ++
      concat ((λ e, order_entry 1 (en_name e) (en_span_line e)) <$> sc_enums schema) ++
      concat ((λ s, order_entry 2 (sv_name s) (sv_span_line s)) <$> sc_services schema))).*2.

Definition fbs_meta_of (schema : FbsSchemaTree) (state : ParserState) : FbsMeta :=
  let namespace :=
    match first_namespace (ob_namespace <$> sc_objects schema) with
    | Some ns => Some ns
    | None => match first_namespace (en_namespace <$> sc_enums schema) with
              | Some ns => Some ns
              | None => pa_root_type_namespace state
              end
    end in
  let includes := omap id (sc_fbs_files schema) in
  mkFbsMeta FBS_BLOB_VERSION namespace includes (replicate (length includes) ""%string)
    (pa_root_type_name state) (sc_file_ident schema) (sc_file_ext schema) (decl_order_of schema)
    (pa_declared_attributes state).

(** A declaration under its name; one without a name is dropped. *)
Definition named_blob (p : FbsDeclPayload) : option (string * DeclBlob) :=
  (λ n, (n, fbs_encode_decl p)) <$> fbs_payload_name p.

Definition fbs_split (schema : FbsSchemaTree) (state : ParserState) : ParsedSchema :=
  mkParsedSchema (fbs_encode_meta (fbs_meta_of schema state))
    (omap named_blob ((FbsPObject <$> sc_objects schema) ++ (FbsPEnum <$> sc_enums schema) ++
                      (FbsPService <$> sc_services schema))).

Definition fbs_parse (source : string) : outcome ParseError ParsedSchema :=
  '(schema, state) ← map_err ParseOther (flatc_parse source);
  Ok (fbs_split schema state).

(** ** Diffs and conflicts *)

Definition fbs_diff_decl (old new : DeclBlob) : outcome DiffError DeclChange :=
  old_payload ← map_err (λ e, DiffMalformedBlob (fmt_fbs_blob_error e)) (fbs_decode_decl old);
  new_payload ← map_err (λ e, DiffMalformedBlob (fmt_fbs_blob_error e)) (fbs_decode_decl new);
  let name := match fbs_payload_name new_payload with
              | Some n => n
              | None => default "<anonymous>"%string (fbs_payload_name old_payload)
              end in
  Ok (DeclarationModified name
        (as_bytes (line "--- old" +:+ print_decl old_payload +:+ line "+++ new" +:+ print_decl new_payload))).

Definition conflict_decl (blob : DeclBlob) : outcome ConflictError FbsDeclPayload :=
  map_err (λ e, ConflictMalformedBlob (fmt_fbs_blob_error e)) (fbs_decode_decl blob).

Fixpoint fbs_render_sides (i : Z) (sides : list DeclBlob) : outcome ConflictError string :=
  match sides with
  | [] => Ok ""%string
  | side :: sides =>
    payload ← conflict_decl side;
    rest ← fbs_render_sides (i + 1) sides;
    Ok (line ("======= side " +:+ fmt_Z (i + 1)) +:+ print_decl payload +:+ rest)
  end.

Definition fbs_render_conflict (sides : ConflictSides) : outcome ConflictError string :=
  _ ← fail_if (bool_decide (cs_sides sides = [])) EmptyConflict;
  base ← match cs_base sides with
         | Some base => payload ← conflict_decl base; Ok (line "<<<<<<< base" +:+ print_decl payload)
         | None => Ok ""%string
         end;
  rest ← fbs_render_sides 0 (cs_sides sides);
  Ok (base +:+ rest +:+ line ">>>>>>>").

Definition fbs_validate_resolution (resolved : DeclBlob) : outcome ConflictError unit :=
  payload ← conflict_decl resolved;
  _ ← fail_if (is_none (fbs_payload_name payload)) (InvalidResolution "resolved declaration has no name");
  _ ← map_err InvalidResolution (flatc_parse (print_decl payload));
  Ok tt.

(** ** Reading *)

Definition fbs_read_decl (blob : DeclBlob) : outcome ReadError FbsDeclPayload :=
  map_err (λ e, ReadMalformedBlob (fmt_fbs_blob_error e)) (fbs_decode_decl blob).

Definition first_doc_line (doc : option Documentation) : string :=
  match doc ≫= λ d, head (doc_lines d) with Some l => trim l | None => "" end.

Definition fbs_summarize_decl (blob : DeclBlob) : outcome ReadError DeclSummary :=
  payload ← fbs_read_decl blob;
  Ok match payload with
     | FbsPObject o =>
       mkDeclSummary (default ""%string (ob_name o)) (if ob_is_struct o then KindStruct else KindTable)
         (first_doc_line (ob_documentation o))
     | FbsPEnum e =>
       mkDeclSummary (default ""%string (en_name e)) (if en_is_union e then KindUnion else KindFbsEnum)
         (first_doc_line (en_documentation e))
     | FbsPService s =>
       mkDeclSummary (default ""%string (sv_name s)) KindService (first_doc_line (sv_documentation s))
     end.

Definition fbs_decl_detail (blob : DeclBlob) : outcome ReadError DeclDetail :=
  payload ← fbs_read_decl blob;
  Ok (as_bytes (print_decl payload)).

Definition fbs_imports (meta : MetaBlob) : outcome ReadError (list Import) :=
  m ← map_err (λ e, ReadMalformedBlob (fmt_fbs_blob_error e)) (fbs_decode_meta meta);
  Ok (imap (λ i path, mkImport path (default ""%string (fm_include_commits m !! i)) "") (fm_includes m)).

(** [type_ref_name]: all its branches give the unresolved name. *)
Definition type_ref_name (ty : FbsType) : option string := ty_unresolved_name ty.

Definition collect_object_refs (o : FbsObject) : list (option string) :=
  omap (λ f, type_ref_name <$> fi_type f) (ob_fields o).

Definition collect_enum_refs (e : FbsEnum) : list (option string) :=
  if en_is_union e then
    (λ v, match vl_union_type v ≫= ty_unresolved_name with Some n => Some n | None => vl_name v end) <$>
      List.filter (λ v, negb (bool_decide (vl_name v = Some "NONE"%string))) (en_values e)
  else [].

Definition collect_service_refs (s : FbsService) : list (option string) :=
  concat ((λ c, [rc_request c ≫= ob_name; rc_response c ≫= ob_name]) <$> sv_calls s).

(** The closure [push]: a name once, in order of its first occurrence. *)
Definition push_ref (refs : list TypeRef) (name : option string) : list TypeRef :=
  match name with
  | Some n => if existsb (λ r, bool_decide (tr_name r = n)) refs then refs else refs ++ [type_ref_new n]
  | None => refs
  end.

Definition fbs_type_refs (blob : DeclBlob) : outcome ReadError (list TypeRef) :=
  payload ← fbs_read_decl blob;
  Ok (foldl push_ref []
        match payload with
        | FbsPObject o => collect_object_refs o
        | FbsPEnum e => collect_enum_refs e
        | FbsPService s => collect_service_refs s
        end).

Definition fbs_field_type_ref (blob : DeclBlob) (field_name : string) : outcome ReadError (option TypeRef) :=
  payload ← fbs_read_decl blob;
  object ← match payload with FbsPObject o => Ok o | _ => Err (ReadFieldNotFound field_name) end;
  field ← ok_or (List.find (λ f, bool_decide (fi_name f = Some field_name)) (ob_fields object))
            (ReadFieldNotFound field_name);
  Ok (type_ref_new <$> (fi_type field ≫= type_ref_name)).

End Printer.
