(* ===== verification/FbsCompiler.v ===== *)
(** * FbsCompiler: the compatibility checker and the FlatBuffers compiler

    [crates/schemahub-compiler-flatbuffers/src/compat.rs] and [codegen.rs], and the
    implementation of the trait [Compiler] in [lib.rs]. The specification of the
    checker is in [FbsProps]. *)
From S2P Require Import Prelude RustStd SchemaTypes FbsSchema FbsMutations FbsPrinter.
From Stdlib Require Import Strings.Byte Ascii.

Open Scope Z_scope.

(** * Compatibility of declarations *)

Section Compat.
Context {F64 : RustF64} {FT : FlatcTypes} {FM : FlatcMethods} {FJ : FbsJson} {HO : HashOrder}.

Definition slot_of (field : FbsField) (positional : nat) : Z :=
  default (wrap_u32 (Z.of_nat positional)) (fi_id field).

(** Later fields replace earlier ones of the same slot. *)
Definition fields_by_slot (obj : FbsObject) : gmap Z FbsField :=
  collect_map (imap (λ i f, (slot_of f i, f)) (ob_fields obj)).

(** The derived equality of two vectors of fields. *)
Fixpoint fields_eq (l l' : list FbsField) : bool :=
  match l, l' with
  | [], [] => true
  | f :: l, f' :: l' => field_eq f f' && fields_eq l l'
  | _, _ => false
  end.

Definition name_or_question (f : FbsField) : string := default "?"%string (fi_name f).

Definition removed_slots (decl : string) (old_by_slot new_by_slot : gmap Z FbsField) : list CompatibilityViolation :=
  omap (λ '(slot, f),
    if is_some (new_by_slot !! slot) then None
    else Some (mkCompatibilityViolation decl (fi_name f)
      ("field '" +:+ name_or_question f +:+ "' (slot " +:+ fmt_Z slot +:+
       ") removed: always breaking (slot is wire identity); deprecate instead")))
    (hash_iter old_by_slot).

Definition inserted_slots (decl : string) (old_by_slot new_by_slot : gmap Z FbsField) : list CompatibilityViolation :=
  let max_old_slot := iter_max (hash_iter old_by_slot).*1 in
  omap (λ '(slot, f),
    if is_some (old_by_slot !! slot) then None
    else match max_old_slot with
         | Some max_old =>
           if slot <=? max_old
           then Some (mkCompatibilityViolation decl (fi_name f)
                  ("field '" +:+ name_or_question f +:+ "' added at slot " +:+ fmt_Z slot +:+
                   " which is not after max existing slot " +:+ fmt_Z max_old +:+ ": fields must be appended"))
           else None
         | None => None
         end)
    (hash_iter new_by_slot).

(** The printed type of a field. *)
Definition field_type_text (f : FbsField) : string :=
  match fi_type f with Some ty => print_type ty | None => "" end.

Definition changed_types (decl : string) (old_by_slot new_by_slot : gmap Z FbsField) : list CompatibilityViolation :=
  omap (λ '(slot, new_f),
    match old_by_slot !! slot with
    | Some old_f =>
      let old_ty := field_type_text old_f in
      let new_ty := field_type_text new_f in
      if bool_decide (old_ty = new_ty) then None
      else Some (mkCompatibilityViolation decl (fi_name new_f)
             ("field '" +:+ name_or_question new_f +:+ "' (slot " +:+ fmt_Z slot +:+ ") type changed '" +:+
              old_ty +:+ "' -> '" +:+ new_ty +:+ "': always breaking in FlatBuffers"))
    | None => None
    end)
    (hash_iter new_by_slot).

Definition check_object_compat (old new : FbsObject) : list CompatibilityViolation :=
  let decl := default ""%string (ob_name old) in
  if ob_is_struct old || ob_is_struct new then
    if negb (fields_eq (ob_fields old) (ob_fields new)) || negb (bool_decide (ob_is_struct old = ob_is_struct new))
    then [mkCompatibilityViolation decl None
            "struct layout changed: any struct mutation is breaking in FlatBuffers"]
    else []
  else
    let old_by_slot := fields_by_slot old in
    let new_by_slot := fields_by_slot new in
    removed_slots decl old_by_slot new_by_slot ++ inserted_slots decl old_by_slot new_by_slot ++
    changed_types decl old_by_slot new_by_slot.

(** The values that have a number, by number. *)
Definition values_by_number (e : FbsEnum) : gmap Z string :=
  collect_map (omap (λ v, n ← vl_value v; Some (n, default ""%string (vl_name v))) (en_values e)).

Definition removal_breaks (direction : CompatibilityDirection) : bool :=
  match direction with Backward | Full => true | _ => false end.

Definition addition_breaks (direction : CompatibilityDirection) : bool :=
  match direction with Forward | Full => true | _ => false end.

Definition enum_value_violation (decl name : string) (num : Z) (what : string) (direction : CompatibilityDirection) :
    CompatibilityViolation :=
  mkCompatibilityViolation decl None
    ("enum value '" +:+ name +:+ "' (" +:+ fmt_Z num +:+ ") " +:+ what +:+ ": breaks " +:+
     debug_direction direction +:+ " compatibility").

Definition check_enum_compat (old new : FbsEnum) (direction : CompatibilityDirection) :
    list CompatibilityViolation :=
  let decl := default ""%string (en_name old) in
  let old_values := values_by_number old in
  let new_values := values_by_number new in
  omap (λ '(num, name),
    if removal_breaks direction && is_none (new_values !! num)
    then Some (enum_value_violation decl name num "removed" direction) else None) (hash_iter old_values) ++
  omap (λ '(num, name),
    if addition_breaks direction && is_none (old_values !! num)
    then Some (enum_value_violation decl name num "added" direction) else None) (hash_iter new_values).

Definition fbs_check_compatibility (old new : DeclBlob) (rules : CompatibilityRules) :
    outcome (list CompatibilityViolation) unit :=
  if cr_disabled rules || bool_decide (cr_direction rules = Disabled) then Ok tt
  else
    old_payload ← map_err (λ e, [mkCompatibilityViolation "" None
                                   ("old blob malformed: " +:+ fmt_fbs_blob_error e)]) (fbs_decode_decl old);
    new_payload ← map_err (λ e, [mkCompatibilityViolation "" None
                                   ("new blob malformed: " +:+ fmt_fbs_blob_error e)]) (fbs_decode_decl new);
    let violations :=
      match old_payload, new_payload with
      | FbsPObject o, FbsPObject n => check_object_compat o n
      | FbsPEnum o, FbsPEnum n => check_enum_compat o n (cr_direction rules)
      | _, _ => []
      end in
    match violations with [] => Ok tt | _ => Err violations end.

End Compat.

(** * Code generation and the trait [Compiler] *)

Section Compiler.
Context {F64 : RustF64} {FT : FlatcTypes} {FM : FlatcMethods} {FJ : FbsJson} {OJ : FbsOpJson} {HO : HashOrder}
  {FP : FlatcParser} {FC : FlatcCodegen}.

(** ** Descriptors: the source bundle *)

Definition closure_paths (closure : SchemaClosure) : list SchemaPath :=
  sort_paths (hash_iter (scl_entries closure)).*1.

Fixpoint render_decls (blobs : list DeclBlob) : outcome FbsBlobError string :=
  match blobs with
  | [] => Ok ""%string
  | blob :: blobs =>
    payload ← fbs_decode_decl blob;
    rest ← render_decls blobs;
    Ok (line (print_decl payload) +:+ rest)
  end.

Definition render_source (schema : SchemaObjects) : outcome FbsBlobError string :=
  meta ← fbs_decode_meta (so_meta schema);
  decls ← render_decls (btree_iter (so_decls schema)).*2;
  Ok (print_meta_header meta +:+ decls +:+ print_root_type meta).

Fixpoint render_bundle (closure : SchemaClosure) (paths : list SchemaPath) : outcome DescriptorError string :=
  match paths with
  | [] => Ok ""%string
  | path :: paths =>
    match scl_entries closure !! path with
    | None => Panic
    | Some schema =>
      source ← map_err (λ e, DescriptorMalformedBlob (fmt_fbs_blob_error e)) (render_source schema);
      rest ← render_bundle closure paths;
      Ok (line ("// ── " +:+ fmt_schema_path path +:+ " ──") +:+ line source +:+ rest)
    end
  end.

Definition fbs_generate_descriptors (closure : SchemaClosure) : outcome DescriptorError (list byte) :=
  bundle ← render_bundle closure (closure_paths closure);
  Ok (as_bytes bundle).

(** ** Code: one tree from the closure *)

Record combined := mkCombined {
  cb_objects : list FbsObject;
  cb_enums : list FbsEnum;
  cb_services : list FbsService;
}.

Definition cb_push (c : combined) (p : FbsDeclPayload) : combined :=
  match p with
  | FbsPObject o => mkCombined (cb_objects c ++ [o]) (cb_enums c) (cb_services c)
  | FbsPEnum e => mkCombined (cb_objects c) (cb_enums c ++ [e]) (cb_services c)
  | FbsPService s => mkCombined (cb_objects c) (cb_enums c) (cb_services c ++ [s])
  end.

Fixpoint reassemble_decls (c : combined) (blobs : list DeclBlob) : outcome FbsBlobError combined :=
  match blobs with
  | [] => Ok c
  | blob :: blobs => p ← fbs_decode_decl blob; reassemble_decls (cb_push c p) blobs
  end.

(** [reassemble] of one schema, appended to what was read before. *)
Definition fbs_reassemble (c : combined) (schema : SchemaObjects) : outcome FbsBlobError (combined * FbsMeta) :=
  meta ← fbs_decode_meta (so_meta schema);
  c ← reassemble_decls c (btree_iter (so_decls schema)).*2;
  Ok (c, meta).

(** The root type of the root schema, with its identifier and extension. *)
Definition root_info : Type := option (string * option string * option string).

Fixpoint combine (closure : SchemaClosure) (root_path : SchemaPath) (paths : list SchemaPath) (c : combined)
    (root_type : root_info) : outcome CodegenError (combined * root_info) :=
  match paths with
  | [] => Ok (c, root_type)
  | path :: paths =>
    match scl_entries closure !! path with
    | None => Panic
    | Some schema =>
      '(c, meta) ← map_err (λ e, CodegenMalformedBlob (fmt_fbs_blob_error e)) (fbs_reassemble c schema);
      let root_type := match fm_root_type meta with
                       | Some name => if bool_decide (path = root_path)
                                      then Some (name, fm_file_ident meta, fm_file_ext meta) else root_type
                       | None => root_type
                       end in
      combine closure root_path paths c root_type
    end
  end.

(** ** Resolving names to indices *)

Definition index_of {A} (name_of : A → option string) (l : list A) : gmap string Z :=
  collect_map (omap id (imap (λ i x, (λ n, (n, as_i32 i)) <$> name_of x) l)).

(** Enums before objects, the full name before the short one. *)
Definition resolve_name (obj_index enum_index : gmap string Z) (name : string) : option Z :=
  let short := rsplit_next "."%char name in
  match enum_index !! name with
  | Some i => Some i
  | None =>
    match obj_index !! name with
    | Some i => Some i
    | None => match enum_index !! short with Some i => Some i | None => obj_index !! short end
    end
  end.

Definition resolve_type_index (resolve : string → option Z) (t : option FbsType) : option FbsType :=
  (λ ty, match ty_unresolved_name ty ≫= resolve with
         | Some i => ty_with_index ty (Some i)
         | None => ty
         end) <$> t.

(** Fields of tables without an id get their position. *)
Definition fill_ids (o : FbsObject) : FbsObject :=
  if ob_is_struct o then o
  else ob_with_fields o (imap (λ i f, if is_none (fi_id f) then fi_with_id f (Some (wrap_u32 (Z.of_nat i))) else f)
                           (ob_fields o)).

Definition resolve_object (resolve : string → option Z) (o : FbsObject) : FbsObject :=
  let o := fill_ids o in
  ob_with_fields o ((λ f, fi_with_type f (resolve_type_index resolve (fi_type f))) <$> ob_fields o).

Definition resolve_enum (resolve : string → option Z) (e : FbsEnum) : FbsEnum :=
  en_with_values e
    ((λ v, vl_with_union_type v (resolve_type_index resolve (vl_union_type v))) <$> en_values e).

(** An index that is not found keeps the old value. *)
Definition call_index (resolve : string → option Z) (o : option FbsObject) (old : option Z) : option Z :=
  match (o ≫= ob_name) ≫= resolve with Some i => Some i | None => old end.

Definition fbs_resolve_service (resolve : string → option Z) (s : FbsService) : FbsService :=
  sv_with_calls s
    ((λ c, rc_with_indices c (call_index resolve (rc_request c) (rc_request_index c))
             (call_index resolve (rc_response c) (rc_response_index c))) <$> sv_calls s).

Definition resolve_indices (c : combined) : combined :=
  let resolve := resolve_name (index_of ob_name (cb_objects c)) (index_of en_name (cb_enums c)) in
  mkCombined (resolve_object resolve <$> cb_objects c) (resolve_enum resolve <$> cb_enums c)
    (fbs_resolve_service resolve <$> cb_services c).

(** The first object with the name of the root type, or with its last part. *)
Definition find_root (objects : list FbsObject) (root_name : string) : option (nat * FbsObject) :=
  let root_short := rsplit_next "."%char root_name in
  let is_root o := match ob_name o with
                   | Some n => bool_decide (n = root_name) || bool_decide (n = root_short)
                   | None => false
                   end in
  i ← position is_root objects;
  o ← objects !! i;
  Some (i, o).

(** The tree that is handed to the code generator. *)
Definition codegen_tree (c : combined) (root_type : root_info) : FbsSchemaTree :=
  let plain := mkFbsSchemaTree (cb_objects c) (cb_enums c) (cb_services c) [] None None None None schema_rest_default in
  match root_type with
  | Some (root_name, file_ident, file_ext) =>
    match find_root (cb_objects c) root_name with
    | Some (i, root) =>
      mkFbsSchemaTree (cb_objects c) (cb_enums c) (cb_services c) [] file_ident file_ext
        (Some (Z.of_nat i)) (Some root) schema_rest_default
    | None => plain
    end
  | None => plain
  end.

(** The schema whose root type is the root of the generated code. *)
Definition codegen_root (closure : SchemaClosure) (paths : list SchemaPath) : outcome CodegenError SchemaPath :=
  match scl_root closure, paths with
  | Some root, _ => Ok root
  | None, [path] => Ok path
  | None, _ => Err (CodegenOther "multi-file FlatBuffers codegen requires an explicit root schema")
  end.

Definition fbs_generate_code (closure : SchemaClosure) (lang : Language) (options : CodegenOptions) :
    outcome CodegenError string :=
  _ ← match lang with
      | LangRust | TypeScript => Ok tt
      | Go | Python | Java => Err (UnsupportedLanguage lang)
      end;
  let paths := closure_paths closure in
  root_path ← codegen_root closure paths;
  '(c, root_type) ← combine closure root_path paths (mkCombined [] [] []) None;
  resolved ← map_err (λ e, CodegenOther
      ("schema could not be resolved for codegen: " +:+ e +:+ "; full layout resolution (struct " +:+
       "byte_size/min_align, root-type binding) is performed by the flatc-rs-compiler analyzer, which is not " +:+
       "wired into this crate"))
    (try_from_parsed (codegen_tree (resolve_indices c) root_type));
  map_err CodegenOther
    match lang with
    | LangRust => flatc_generate_rust resolved (rust_pluggable_buffer options)
    | _ => flatc_generate_typescript resolved
    end.

(** ** The compiler *)

Definition flatbuffers_compiler : Compiler := {|
  format_id := "flatbuffers";
  cp_parse := fbs_parse;
  cp_print := fbs_print;
  cp_diff_decl := fbs_diff_decl;
  cp_apply_mutation := fbs_apply_mutation;
  cp_apply_mutations := fbs_apply_mutations;
  cp_check_compatibility := fbs_check_compatibility;
  cp_render_conflict := fbs_render_conflict;
  cp_validate_resolution := fbs_validate_resolution;
  cp_summarize_decl := fbs_summarize_decl;
  cp_decl_detail := fbs_decl_detail;
  cp_imports schema := fbs_imports (so_meta schema);
  cp_type_refs := fbs_type_refs;
  cp_field_type_ref := fbs_field_type_ref;
  cp_generate_descriptors := fbs_generate_descriptors;
  cp_generate_code := fbs_generate_code;
|}.

End Compiler.
