(* ===== verification/FbsProps.v ===== *)
(** * FbsProps: the compatibility rules of FlatBuffers

    The checker of [FbsCompiler] implements a declarative specification, whatever
    order hash maps are iterated in; and edits that only add, deprecate or rename
    fields are compatible by construction. *)
From S2P Require Import Prelude RustStd SchemaTypes Effects FbsSchema FbsMutations FbsPrinter FbsCompiler.
From Stdlib Require Import Strings.Byte Ascii.

Open Scope Z_scope.

Section Spec.
Context {F64 : RustF64} {FT : FlatcTypes} {FM : FlatcMethods} {FJ : FbsJson} {OJ : FbsOpJson}.

(** ** The specification *)

(** Tables evolve by appending: every slot stays with its type, and a new slot
    is greater than all old ones. *)
Definition table_compatible (old new : gmap Z FbsField) : Prop :=
  (∀ slot f, old !! slot = Some f → ∃ f', new !! slot = Some f' ∧ field_type_text f' = field_type_text f) ∧
  (∀ slot, is_Some (new !! slot) → is_Some (old !! slot) ∨ ∀ slot', is_Some (old !! slot') → slot' < slot).

(** Structs do not change. *)
Definition object_compatible (old new : FbsObject) : Prop :=
  if ob_is_struct old || ob_is_struct new
  then ob_is_struct old = ob_is_struct new ∧ fields_eq (ob_fields old) (ob_fields new) = true
  else table_compatible (fields_by_slot old) (fields_by_slot new).

(** The numbers of an enum or union do not shrink for readers of old data, and
    do not grow for old readers. *)
Definition enum_compatible (old new : FbsEnum) (direction : CompatibilityDirection) : Prop :=
  (removal_breaks direction = true → dom (values_by_number old) ⊆ dom (values_by_number new)) ∧
  (addition_breaks direction = true → dom (values_by_number new) ⊆ dom (values_by_number old)).

Definition payload_compatible (old new : FbsDeclPayload) (direction : CompatibilityDirection) : Prop :=
  match old, new with
  | FbsPObject o, FbsPObject n => object_compatible o n
  | FbsPEnum o, FbsPEnum n => enum_compatible o n direction
  | _, _ => True
  end.

(** ** The checker implements it *)

Context {HO : HashOrder}.

Lemma omap_nil {A B} (f : A → option B) l : omap f l = [] ↔ ∀ x, x ∈ l → f x = None.
Proof.
  induction l as [|x l IH].
  - split; [|done]. intros _ x Hx. by apply elem_of_nil in Hx.
  - cbn. destruct (f x) as [y|] eqn:E.
    + split; [done|]. intros H. specialize (H x). rewrite E in H. by discriminate H; left.
    + rewrite IH. split.
      * intros H y [->|Hy]%elem_of_cons; [done|by apply H].
      * intros H y Hy. apply H. by right.
Qed.

Lemma omap_hash_nil {B} (m : gmap Z FbsField) (f : Z * FbsField → option B) :
  omap f (hash_iter m) = [] ↔ ∀ slot x, m !! slot = Some x → f (slot, x) = None.
Proof.
  rewrite omap_nil. split.
  - intros H slot x Hx. apply H. by apply elem_of_hash_iter.
  - intros H [slot x] Hx. apply H. by apply elem_of_hash_iter.
Qed.

Lemma removed_slots_nil decl old new : removed_slots decl old new = [] ↔ ∀ slot, is_Some (old !! slot) → is_Some (new !! slot).
Proof.
  unfold removed_slots. rewrite omap_hash_nil. split.
  - intros H slot [x Hx]. specialize (H slot x Hx). cbn in H. destruct (new !! slot) eqn:E; [by eexists|done].
  - intros H slot x Hx. destruct (H slot) as [y Hy]; [by eexists|]. cbn. by rewrite Hy.
Qed.

Lemma inserted_slots_nil decl old new :
  inserted_slots decl old new = [] ↔
  ∀ slot, is_Some (new !! slot) → is_Some (old !! slot) ∨ ∀ slot', is_Some (old !! slot') → slot' < slot.
Proof.
  unfold inserted_slots. rewrite omap_hash_nil. split.
  - intros H slot [x Hx]. specialize (H slot x Hx). cbn in H. destruct (old !! slot) eqn:E; [left; by eexists|right].
    cbn in H. intros slot' [y Hy]. assert (slot' ∈ (hash_iter old).*1) as Hin.
    { apply list_elem_of_fmap. exists (slot', y). split; [done|]. by apply elem_of_hash_iter. }
    destruct (iter_max _) as [m|] eqn:Em.
    + pose proof (iter_max_le _ _ _ Em Hin). destruct (slot <=? m) eqn:El; [done|]. apply Z.leb_gt in El. lia.
    + apply iter_max_None in Em. rewrite Em in Hin. by apply elem_of_nil in Hin.
  - intros H slot x Hx. cbn. destruct (H slot) as [Hs|Hs]; [by eexists| |].
    + destruct Hs as [y Hy]. by rewrite Hy.
    + destruct (old !! slot) as [y|] eqn:E; [done|]. cbn.
      destruct (iter_max _) as [m|] eqn:Em; [|done]. assert (m < slot) as Hlt.
      { apply iter_max_elem in Em. apply list_elem_of_fmap in Em as ([s y] & -> & Hy).
        apply Hs. apply elem_of_hash_iter in Hy. by eexists. }
      by rewrite (proj2 (Z.leb_gt _ _) Hlt).
Qed.

Lemma changed_types_nil decl old new :
  changed_types decl old new = [] ↔
  ∀ slot f f', old !! slot = Some f → new !! slot = Some f' → field_type_text f' = field_type_text f.
Proof.
  unfold changed_types. rewrite omap_hash_nil. split.
  - intros H slot f f' Hf Hf'. specialize (H slot f' Hf'). cbn in H. rewrite Hf in H. by case_bool_decide.
  - intros H slot f' Hf'. cbn. destruct (old !! slot) as [f|] eqn:Hf; [|done].
    by rewrite bool_decide_eq_true_2 by (symmetry; by eapply H).
Qed.

Lemma check_object_spec old new : check_object_compat old new = [] ↔ object_compatible old new.
Proof.
  unfold check_object_compat, object_compatible. destruct (ob_is_struct old || ob_is_struct new).
  - destruct (fields_eq _ _); cbn; [|naive_solver]. case_bool_decide; naive_solver.
  - cbn zeta. unfold table_compatible. rewrite !app_nil, removed_slots_nil, inserted_slots_nil, changed_types_nil.
    split.
    + intros (H1 & H2 & H3). split; [|done]. intros slot f Hf. destruct (H1 slot) as [f' Hf']; [by eexists|].
      exists f'. split; [done|]. by eapply H3.
    + intros [H1 H2]. split_and!; [|done|].
      * intros slot [f Hf]. destruct (H1 slot f Hf) as (f' & ? & _). by eexists.
      * intros slot f f' Hf Hf'. destruct (H1 slot f Hf) as (f'' & Hf'' & E). congruence.
Qed.

Lemma missing_nil (flag : bool) (m m' : gmap Z string) (v : Z → string → CompatibilityViolation) :
  omap (λ '(num, name), if flag && is_none (m' !! num) then Some (v num name) else None) (hash_iter m) = [] ↔
  (flag = true → dom m ⊆ dom m').
Proof.
  rewrite omap_nil. destruct flag; cbn; [|split; [done|by intros _ [] _]]. split.
  - intros H _ k Hk. apply elem_of_dom in Hk as [x Hx]. specialize (H (k, x)). cbn in H. apply elem_of_dom.
    destruct (m' !! k) eqn:E; [by eexists|]. cbn in H. discriminate H. by apply elem_of_hash_iter.
  - intros H [k x] Hx%elem_of_hash_iter. cbn. specialize (H eq_refl k). rewrite !elem_of_dom in H.
    destruct H as [y ->]; [by eexists|done].
Qed.

Lemma fbs_check_enum_spec old new direction : check_enum_compat old new direction = [] ↔ enum_compatible old new direction.
Proof. unfold check_enum_compat, enum_compatible. by rewrite app_nil, !missing_nil. Qed.

Lemma fbs_check_spec (old new : DeclBlob) (old_payload new_payload : FbsDeclPayload)
    (rules : CompatibilityRules) :
  fbs_decode_decl old = Ok old_payload → fbs_decode_decl new = Ok new_payload →
  fbs_check_compatibility old new rules = Ok tt ↔
  cr_disabled rules = true ∨ cr_direction rules = Disabled ∨
  payload_compatible old_payload new_payload (cr_direction rules).
Proof.
  intros Hold Hnew. unfold fbs_check_compatibility. rewrite Hold, Hnew. cbn.
  destruct (cr_disabled rules); [by split; [left|]|]. cbn. case_bool_decide as Hd; [by split; [right; left|]|].
  transitivity (payload_compatible old_payload new_payload (cr_direction rules)); [|naive_solver].
  unfold payload_compatible. destruct old_payload as [o|o|o], new_payload as [n|n|n]; try done.
  - rewrite <- check_object_spec. by destruct (check_object_compat o n).
  - rewrite <- fbs_check_enum_spec. by destruct (check_enum_compat o n _).
Qed.


End Spec.

(** ** Edits that are compatible by construction *)

Section Edits.
Context {F64 : RustF64} {FT : FlatcTypes} {FM : FlatcMethods} {FJ : FbsJson} {OJ : FbsOpJson} {HO : HashOrder}.

(** The operations that neither change the type of a field nor rename or delete
    declarations. *)
Definition keeps_types (op : FbsOp) : bool :=
  match op with
  | FbsChangeFieldType _ _ _ | FbsRenameTable _ _ | FbsDeleteTable _ | FbsRenameEnum _ _ | FbsDeleteEnum _
  | FbsRenameUnion _ _ | FbsDeleteUnion _ => false
  | _ => true
  end.

(** The slots with the types that are stored in them. *)
Definition slot_types (fields : list FbsField) : list (Z * string) :=
  imap (λ i f, (slot_of f i, field_type_text f)) fields.

Lemma slot_types_slots fields : (slot_types fields).*1 = field_slots fields.
Proof. unfold slot_types, field_slots. by rewrite fmap_imap. Qed.

(** Slots are kept, and new ones are behind them. *)
Definition appends (fields fields' : list FbsField) : Prop :=
  ∃ added, slot_types fields' = slot_types fields ++ added ∧
    ∀ a b, a ∈ field_slots fields → b ∈ added.*1 → a < b.

Lemma appends_same fields fields' : slot_types fields' = slot_types fields → appends fields fields'.
Proof. intros H. exists []. rewrite H, app_nil_r. split; [done|]. intros a b _ Hb. by apply elem_of_nil in Hb. Qed.

Lemma appends_trans f1 f2 f3 : appends f1 f2 → appends f2 f3 → appends f1 f3.
Proof.
  intros (a1 & E1 & H1) (a2 & E2 & H2). exists (a1 ++ a2). rewrite E2, E1, app_assoc. split; [done|].
  intros a b Ha. rewrite fmap_app, elem_of_app. intros [Hb|Hb]; [by apply H1|]. apply H2; [|done].
  rewrite <- slot_types_slots, E1, fmap_app, elem_of_app, slot_types_slots. by left.
Qed.

Lemma fmap_collect_map {A B} (g : A → B) (l : list (Z * A)) :
  g <$> collect_map l = collect_map ((λ kv, (kv.1, g kv.2)) <$> l).
Proof.
  induction l as [|[k v] l IH] using rev_ind; [apply fmap_empty|].
  rewrite fmap_app. cbn [fmap list_fmap]. by rewrite !collect_map_app, fmap_insert, IH.
Qed.

Lemma slot_texts o : field_type_text <$> fields_by_slot o = collect_map (slot_types (ob_fields o)).
Proof. unfold fields_by_slot, slot_types. by rewrite fmap_collect_map, fmap_imap. Qed.

Lemma collect_map_app_other {A} (l l' : list (Z * A)) k :
  k ∉ l'.*1 → collect_map (l ++ l') !! k = collect_map l !! k.
Proof.
  induction l' as [|[k' v] l' IH] using rev_ind; [by rewrite app_nil_r|].
  rewrite fmap_app, not_elem_of_app. cbn. rewrite not_elem_of_cons. intros [Hk [Hk' _]].
  rewrite app_assoc, collect_map_app, lookup_insert_ne by done. by apply IH.
Qed.

Lemma appends_compatible o o' :
  ob_is_struct o = false → ob_is_struct o' = false → appends (ob_fields o) (ob_fields o') → object_compatible o o'.
Proof.
  intros Hs Hs' (added & E & Hbehind). unfold object_compatible. rewrite Hs, Hs'. cbn.
  pose proof (slot_texts o) as T. pose proof (slot_texts o') as T'. rewrite E in T'.
  assert (∀ slot, is_Some (fields_by_slot o !! slot) ↔ slot ∈ field_slots (ob_fields o)) as Hold.
  { intros slot. rewrite <- slot_types_slots, <- collect_map_is_Some, <- T, lookup_fmap, fmap_is_Some. done. }
  split.
  - intros slot f Hf. assert (slot ∉ added.*1) as Hnot.
    { intros Hin. assert (slot < slot); [|lia]. apply Hbehind; [|done]. apply Hold. by eexists. }
    assert (field_type_text <$> fields_by_slot o' !! slot = Some (field_type_text f)) as Hn.
    { rewrite <- lookup_fmap, T', collect_map_app_other, <- T, lookup_fmap, Hf by done. done. }
    destruct (fields_by_slot o' !! slot) as [f'|]; [|done]. exists f'. split; [done|]. by injection Hn.
  - intros slot Hslot. destruct (decide (slot ∈ added.*1)) as [Hin|Hnot].
    + right. intros slot' Hslot'%Hold. by apply Hbehind.
    + left. rewrite <- (fmap_is_Some field_type_text), <- lookup_fmap, T.
      rewrite <- (fmap_is_Some field_type_text), <- lookup_fmap, T', collect_map_app_other in Hslot by done. done.
Qed.

(** ** One operation *)

Definition slots_at_most (B : Z) (fields : list FbsField) : Prop := ∀ x, x ∈ field_slots fields → 0 <= x <= B.

(** What an operation does to the tables. *)
Definition tables_append (d d' : gmap string FbsDeclPayload) : Prop :=
  ∀ table o, d !! table = Some (FbsPObject o) → ob_is_struct o = false →
    ∃ o', d' !! table = Some (FbsPObject o') ∧ ob_is_struct o' = false ∧
      ∀ B, slots_at_most B (ob_fields o) → 0 <= B → B + 1 < 2 ^ 32 →
        appends (ob_fields o) (ob_fields o') ∧ slots_at_most (B + 1) (ob_fields o').

Lemma at_most_succ B fields : slots_at_most B fields → slots_at_most (B + 1) fields.
Proof. intros H x Hx. specialize (H x Hx). lia. Qed.

Lemma tables_append_refl d : tables_append d d.
Proof. intros table o Ho Hs. exists o. split_and!; [done..|]. intros B HB _ _. split; [by apply appends_same|by apply at_most_succ]. Qed.

(** Storing anything that is not a table leaves the tables as they are. *)
Lemma tables_append_other d name p :
  (∀ o, d !! name = Some (FbsPObject o) → ob_is_struct o = false → False) → tables_append d (<[name := p]> d).
Proof.
  intros Hname table o Ho Hs. exists o. split_and!; [|done|].
  - rewrite lookup_insert_ne; [done|]. intros <-. by eapply Hname.
  - intros B HB _ _. split; [by apply appends_same|by apply at_most_succ].
Qed.

Lemma same_slots fields fields' B :
  slot_types fields' = slot_types fields → slots_at_most B fields →
  appends fields fields' ∧ slots_at_most (B + 1) fields'.
Proof.
  intros H HB. split; [by apply appends_same|]. intros x. rewrite <- slot_types_slots, H, slot_types_slots.
  intros Hx. specialize (HB x Hx). lia.
Qed.

Lemma slot_types_app l l' :
  slot_types (l ++ l') = slot_types l ++ imap (λ i f, (slot_of f (length l + i), field_type_text f)) l'.
Proof. unfold slot_types. by rewrite imap_app. Qed.

Lemma slot_types_update p g fields fields' :
  (∀ f, fi_id (g f) = fi_id f ∧ fi_type (g f) = fi_type f) →
  update_first p g fields = Some fields' → slot_types fields' = slot_types fields.
Proof.
  intros Hg (l1 & x & l2 & -> & _ & ->)%update_first_split. rewrite !slot_types_app. f_equal.
  rewrite !imap_cons. f_equal. unfold slot_of, field_type_text. by destruct (Hg x) as [-> ->].
Qed.

Lemma slot_types_map g fields :
  (∀ f, fi_id (g f) = fi_id f ∧ fi_type (g f) = fi_type f) → slot_types (map g fields) = slot_types fields.
Proof.
  intros Hg. unfold slot_types. rewrite (imap_fmap _ g). apply imap_ext. intros i f _. cbn.
  unfold slot_of, field_type_text. by destruct (Hg f) as [-> ->].
Qed.

Lemma next_slot_behind B fields :
  slots_at_most B fields → 0 <= B → B + 1 < 2 ^ 32 →
  (∀ x, x ∈ field_slots fields → x < next_slot fields) ∧ 0 <= next_slot fields <= B + 1.
Proof.
  intros HB H0 H32. unfold next_slot. destruct (iter_max _) as [m|] eqn:Em.
  - pose proof (HB _ (iter_max_elem _ _ Em)). unfold wrap_u32. rewrite Z.mod_small by lia. split; [|lia].
    intros x Hx. pose proof (iter_max_le _ _ _ Em Hx). lia.
  - apply iter_max_None in Em. rewrite Em. split; [|lia]. intros x Hx. by apply elem_of_nil in Hx.
Qed.

Lemma slot_types_push B fields name ty dv doc :
  slots_at_most B fields → 0 <= B → B + 1 < 2 ^ 32 →
  appends fields (fields ++ [new_field fields name ty dv doc]) ∧
  slots_at_most (B + 1) (fields ++ [new_field fields name ty dv doc]).
Proof.
  intros HB H0 H32. destruct (next_slot_behind B fields HB H0 H32) as [Hbehind Hnext].
  assert (slot_of (new_field fields name ty dv doc) (length fields + 0) = next_slot fields) as Hslot.
  { unfold slot_of, new_field. by destruct (field_defaults dv) as [[? ?] ?]. }
  split.
  - eexists. rewrite slot_types_app. split; [done|]. intros a b Ha. cbn. rewrite list_elem_of_singleton.
    intros ->. rewrite Hslot. by apply Hbehind.
  - intros x. rewrite <- slot_types_slots, slot_types_app, fmap_app, elem_of_app, slot_types_slots. cbn.
    rewrite list_elem_of_singleton. intros [Hx| ->]; [specialize (HB x Hx); lia|]. rewrite Hslot. lia.
Qed.

Lemma object_mut_Ok s name o : object_mut s name = Ok o → fw_decls s !! name = Some (FbsPObject o).
Proof. unfold object_mut. destruct (fw_decls s !! name) as [[]|]; by intros [= <-]. Qed.

Lemma enum_mut_Ok s name e : fbs_enum_mut s name = Ok e → fw_decls s !! name = Some (FbsPEnum e).
Proof. unfold fbs_enum_mut. destruct (fw_decls s !! name) as [[]|]; by intros [= <-]. Qed.

Lemma regular_enum_mut_Ok s name e :
  regular_enum_mut s name = Ok e → fw_decls s !! name = Some (FbsPEnum e) ∧ en_is_union e = false.
Proof. unfold regular_enum_mut. intros H. ok_inv H. subst. split; [by apply enum_mut_Ok|done]. Qed.

Lemma union_mut_Ok s name e :
  union_mut s name = Ok e → fw_decls s !! name = Some (FbsPEnum e) ∧ en_is_union e = true.
Proof.
  unfold union_mut. intros H. ok_inv H. subst. split; [by apply enum_mut_Ok|].
  by apply negb_false_iff.
Qed.

Lemma not_declared_Ok s name x : not_declared s name = Ok x → fw_decls s !! name = None.
Proof. unfold not_declared. intros H%fail_if_Ok. apply bool_decide_eq_false in H. by apply eq_None_not_Some. Qed.

(** A table whose fields are replaced. *)
Lemma tables_append_fields d name o fields :
  d !! name = Some (FbsPObject o) →
  (∀ B, slots_at_most B (ob_fields o) → 0 <= B → B + 1 < 2 ^ 32 →
     appends (ob_fields o) fields ∧ slots_at_most (B + 1) fields) →
  tables_append d (<[name := FbsPObject (ob_with_fields o fields)]> d).
Proof.
  intros Ho Hf table o1 Ho1 Hs. destruct (decide (table = name)) as [->|Hne].
  - assert (o1 = o) as -> by congruence. exists (ob_with_fields o fields). rewrite lookup_insert_eq. by split_and!.
  - rewrite lookup_insert_ne by done. by apply tables_append_refl.
Qed.

Lemma tables_append_enum d name e p :
  d !! name = Some (FbsPEnum e) → tables_append d (<[name := p]> d).
Proof. intros He. apply tables_append_other. congruence. Qed.

Lemma tables_append_trans_none d name p d' :
  d !! name = None → d' = <[name := p]> d → tables_append d d'.
Proof. intros Hn ->. apply tables_append_other. congruence. Qed.

Lemma add_union_member_decls s u m s' :
  add_union_member s u m = Ok s' →
  ∃ e e', fw_decls s !! u = Some (FbsPEnum e) ∧ fw_decls s' = <[u := FbsPEnum e']> (fw_decls s).
Proof.
  unfold add_union_member. intros H. ok_inv H. subst.
  match goal with H : union_mut _ _ = Ok _ |- _ => apply union_mut_Ok in H as [H _] end. by eexists _, _.
Qed.

(** Members are added to a union that is no table of [d]. *)
Lemma add_union_members_append d s name members s' :
  add_union_members s name members = Ok s' → tables_append d (fw_decls s) → (∀ o, d !! name ≠ Some (FbsPObject o)) →
  tables_append d (fw_decls s').
Proof.
  revert s. induction members as [|m members IH]; intros s H Hd Hn; cbn in H; [by injection H as <-|].
  ok_inv H. apply (IH _ H); [|done]. apply add_union_member_decls in Hok as (e & e' & _ & ->).
  intros table o Ho Hs. destruct (Hd table o Ho Hs) as (o' & Ho' & ?). exists o'. split; [|done].
  rewrite lookup_insert_ne; [done|]. intros ->. by eapply Hn.
Qed.

Lemma rename_defaults_slots en old new o :
  ∃ fields, (rename_defaults en old new (FbsPObject o)).1 = FbsPObject (ob_with_fields o fields) ∧
            slot_types fields = slot_types (ob_fields o).
Proof.
  eexists. split; [done|]. apply slot_types_map. intros f. unfold rename_default. by destruct (defaults_to en old f).
Qed.

Lemma fbs_apply_appends op s s' :
  keeps_types op = true → fbs_apply s op = Ok s' → tables_append (fw_decls s) (fw_decls s').
Proof.
  destruct op; try done; intros _; cbn [fbs_apply]; intros H.
  - unfold fbs_add_field in H. ok_inv H. subst. apply object_mut_Ok in Hok.
    apply tables_append_fields; [done|]. intros B HB H0 H32. by apply slot_types_push.
  - unfold deprecate_field, update_field in H. ok_inv H. subst. apply object_mut_Ok in Hok.
    apply tables_append_fields; [done|]. intros B HB _ _. apply same_slots; [|done].
    by eapply slot_types_update; [|eassumption].
  - unfold fbs_rename_field, update_field in H. ok_inv H. subst. apply object_mut_Ok in Hok.
    apply tables_append_fields; [done|]. intros B HB _ _. apply same_slots; [|done].
    by eapply slot_types_update; [|eassumption].
  - unfold create_table in H. ok_inv H. subst. apply not_declared_Ok in Hok.
    by eapply tables_append_trans_none.
  - unfold fbs_create_enum in H. ok_inv H. subst. apply not_declared_Ok in Hok.
    by eapply tables_append_trans_none.
  - unfold fbs_add_enum_value in H. ok_inv H. subst. apply regular_enum_mut_Ok in Hok as [Hok _].
    by eapply tables_append_enum.
  - unfold fbs_remove_enum_value in H. ok_inv H. subst.
    match goal with H : regular_enum_mut _ _ = Ok _ |- _ => apply regular_enum_mut_Ok in H as [H _] end.
    by eapply tables_append_enum.
  - unfold fbs_rename_enum_value in H. ok_inv H. subst. apply regular_enum_mut_Ok in Hok as [Hok _].
    injection E as <- <-. intros table o Ho Hs. destruct (rename_defaults_slots enum_name old_name new_name o) as (fields & Er & Hf).
    exists (ob_with_fields o fields). split_and!; [|done|intros B HB _ _; by apply same_slots].
    cbn. rewrite map_lookup_imap, lookup_insert_ne by congruence. rewrite Ho. cbn. by rewrite <- Er.
  - unfold create_union in H. ok_inv H. subst. apply not_declared_Ok in Hok.
    by eapply tables_append_trans_none.
  - unfold create_union_with_members in H. ok_inv H. unfold create_union in Hok. ok_inv Hok. subst.
    apply not_declared_Ok in Hok0. eapply add_union_members_append; [exact H| |congruence].
    by eapply tables_append_trans_none.
  - apply add_union_member_decls in H as (e & e' & He & ->). by eapply tables_append_enum.
  - unfold remove_union_member in H. ok_inv H. subst.
    match goal with H : union_mut _ _ = Ok _ |- _ => apply union_mut_Ok in H as [H _] end.
    by eapply tables_append_enum.
  - unfold fbs_update_import in H. injection H as <-. apply tables_append_refl.
Qed.

(** ** A batch *)

(** All operations of a batch keep the types. *)
Definition all_keep_types (ops : list Mutation) : Prop :=
  ∀ op parsed, op ∈ ops → fbs_op_decode (mu_operation op) = Ok parsed → keeps_types parsed = true.

Lemma fbs_apply_all_appends ops s s' table o B :
  fbs_apply_all s ops = Ok s' → all_keep_types ops →
  fw_decls s !! table = Some (FbsPObject o) → ob_is_struct o = false →
  slots_at_most B (ob_fields o) → 0 <= B → B + Z.of_nat (length ops) < 2 ^ 32 →
  ∃ o', fw_decls s' !! table = Some (FbsPObject o') ∧ ob_is_struct o' = false ∧
    appends (ob_fields o) (ob_fields o').
Proof.
  revert s o B. induction ops as [|op ops IH]; intros s o B H Hkeep Ho Hs HB H0 H32; cbn in H.
  - injection H as <-. exists o. split_and!; [done..|by apply appends_same].
  - ok_inv H. cbn [length] in H32.
    assert (keeps_types x = true) as Hk by (eapply Hkeep; [by left|done]).
    destruct (fbs_apply_appends _ _ _ Hk Hok0 table o Ho Hs) as (o1 & Ho1 & Hs1 & Happ).
    destruct (Happ B HB H0 ltac:(lia)) as [Ha1 HB1].
    destruct (IH x0 o1 (B + 1) H) as (o2 & Ho2 & Hs2 & Ha2); try done; try lia.
    { intros op' p' Hin. apply Hkeep. by right. }
    exists o2. split_and!; [done..|by eapply appends_trans].
Qed.

Lemma reread_slot_types fields : slot_types (reread_field json_f64 <$> fields) = slot_types fields.
Proof. by apply slot_types_map. Qed.

Context {FL : FbsJsonLaws}.

(** Edits that add, deprecate or rename fields are compatible by
    construction: whatever batch of operations without a type change, a rename or
    a deletion of declarations succeeds, the table blobs that it writes pass the
    compatibility check against the stored ones under every rule, and no table is
    removed; every slot keeps its type and new slots are behind the old ones.
    Slots must leave room for the batch below [u32::MAX]. *)
Theorem safe_edits_are_compatible (schema : SchemaObjects) (ops : list Mutation) (effect : MutationEffect)
    (table : string) (old new : DeclBlob) (o : FbsObject) (rules : CompatibilityRules) :
  fbs_apply_mutations schema ops = Ok effect → all_keep_types ops →
  so_decls schema !! table = Some old → fbs_decode_decl old = Ok (FbsPObject o) → ob_is_struct o = false →
  slots_at_most (2 ^ 32 - 1 - Z.of_nat (length ops)) (ob_fields o) → Z.of_nat (length ops) < 2 ^ 32 →
  ((table, new) ∈ me_upserts effect → fbs_check_compatibility old new rules = Ok tt) ∧
  table ∉ me_removes effect.
Proof.
  unfold fbs_apply_mutations. intros H Hkeep Hstored Hold Hs HB H32. ok_inv H. subst effect.
  apply fbs_load_Ok in Hok as (Hload & _).
  assert (fw_decls x !! table = Some (FbsPObject o)) as Ho by (apply Hload; by exists old).
  destruct (fbs_apply_all_appends _ _ _ _ _ _ Hok0 Hkeep Ho Hs HB ltac:(lia) ltac:(lia)) as (o' & Ho' & Hs' & Happ).
  split.
  - intros Hin. cbn in Hin. apply list_elem_of_omap in Hin as (name & _ & Hn).
    destruct (fw_decls x0 !! name) as [p|] eqn:Hp; [|done]. injection Hn as -> <-.
    assert (p = FbsPObject o') as -> by congruence.
    apply (fbs_check_spec old _ (FbsPObject o) (reread_payload json_f64 (FbsPObject o')) rules Hold).
    { apply fbs_decode_encode_decl. }
    right; right. apply appends_compatible; [done..|]. destruct Happ as (added & E & Hb).
    exists added. cbn. by rewrite reread_slot_types.
  - cbn. intros Hin. apply list_elem_of_In, filter_In in Hin as [_ Hin]. rewrite Ho' in Hin. by cbn in Hin.
Qed.

End Edits.

(** * What a batch of FlatBuffers edits writes

    Every operation keeps track of what it changes: applying the effect of a
    batch to the stored schema gives the final working state, and no declaration
    that is left refers to one that is gone. *)

Section Tracking.
Context {F64 : RustF64} {FT : FlatcTypes} {FM : FlatcMethods} {FJ : FbsJson} {OJ : FbsOpJson}.

(** ** The invariant *)

(** What is not touched is as it was loaded, what is gone is among the removed
    names, and metadata that is not marked as changed is as it was loaded. *)
Record fbs_tracked (d0 : gmap string FbsDeclPayload) (m0 : FbsMeta) (s : FbsWorkingState) : Prop := {
  tk_kept k p : fw_decls s !! k = Some p → k ∉ fw_touched s → d0 !! k = Some p;
  tk_gone k : is_Some (d0 !! k) → fw_decls s !! k = None → k ∈ fw_removed s;
  tk_meta : fw_meta_changed s = false → fw_meta s = m0;
  tk_version : fm_blob_version (fw_meta s) = FBS_BLOB_VERSION;
}.

Section Ops.
Context (d0 : gmap string FbsDeclPayload) (m0 : FbsMeta).

Abbreviation tracked := (fbs_tracked d0 m0).

Lemma tracked_store s name p : tracked s → tracked (fw_store s name p).
Proof.
  intros [T1 T2 T3 T4]. split; cbn; try done.
  - intros k q Hk. rewrite not_elem_of_union, not_elem_of_singleton. intros [Hne Ht].
    rewrite lookup_insert_ne in Hk by done. by apply T1.
  - intros k Hk. destruct (decide (k = name)) as [->|Hne]; [by rewrite lookup_insert_eq|].
    rewrite lookup_insert_ne by done. by apply T2.
Qed.

Lemma tracked_meta s m : tracked s → fm_blob_version m = FBS_BLOB_VERSION → tracked (fw_with_meta s m true).
Proof. intros [T1 T2 T3 T4] Hm. by split. Qed.

Lemma tracked_values s v : tracked s → tracked (fw_with_removed_values s v).
Proof. intros [T1 T2 T3 T4]. by split. Qed.

Lemma tracked_create s name p : tracked s → tracked (fw_create s name p).
Proof. intros T. apply tracked_store, tracked_meta; [done|]. apply T. Qed.

(** A pass over all declarations that reports what it changes. *)
Lemma tracked_pass f decls' changed s :
  reports_changes f → btree_map_mut f (fw_decls s) = (decls', changed) → tracked s →
  tracked (fw_with_tracking (fw_with_decls s decls') (list_to_set changed ∪ fw_touched s) (fw_removed s)).
Proof.
  intros Hf E [T1 T2 T3 T4].
  assert (decls' = (btree_map_mut f (fw_decls s)).1) as -> by (by rewrite E).
  assert (changed = (btree_map_mut f (fw_decls s)).2) as -> by (by rewrite E).
  split; cbn -[btree_map_mut]; try done.
  - intros k p Hp. rewrite not_elem_of_union, elem_of_list_to_set. intros [Hc Ht].
    rewrite btree_map_mut_unchanged in Hp by done. by apply T1.
  - intros k Hk. rewrite lookup_btree_map_mut, fmap_None. by apply T2.
Qed.

Lemma tracked_touch s name : tracked s → tracked (fw_touch s name).
Proof. intros [T1 T2 T3 T4]. split; cbn; try done. intros k p Hk. rewrite not_elem_of_union. intros [_ Ht]. by apply T1. Qed.

(** A declaration that is gone. *)
Lemma tracked_remove s name :
  tracked s → fw_decls s !! name = None →
  tracked (fw_with_tracking s (fw_touched s ∖ {[ name ]}) ({[ name ]} ∪ fw_removed s)).
Proof.
  intros [T1 T2 T3 T4] Hn. split; cbn; try done.
  - intros k p Hk Ht. apply T1; [done|]. intros Hin. apply Ht. apply elem_of_difference. split; [done|].
    apply not_elem_of_singleton. congruence.
  - intros k Hk Hnone. apply elem_of_union_r. by apply T2.
Qed.

(** ** Passes report their changes *)

Lemma rename_in_type_reports old new t : (rename_in_type old new t).2 = false → (rename_in_type old new t).1 = t.
Proof. unfold rename_in_type. destruct t as [ty|]; [|done]. by destruct (_ ≫= _). Qed.

Lemma rename_in_field_reports old new f : (rename_in_field old new f).2 = false → (rename_in_field old new f).1 = f.
Proof.
  unfold rename_in_field. pose proof (rename_in_type_reports old new (fi_type f)) as H.
  destruct (rename_in_type old new (fi_type f)) as [t b]. cbn in *. intros ->. rewrite H by done. by destruct f.
Qed.

Lemma rename_in_member_reports old new v : (rename_in_member old new v).2 = false → (rename_in_member old new v).1 = v.
Proof.
  unfold rename_in_member. pose proof (rename_in_type_reports old new (vl_union_type v)) as H.
  destruct (rename_in_type old new (vl_union_type v)) as [t b]. cbn in *. intros ->. rewrite H by done.
  cbn. by destruct v.
Qed.

Lemma rename_in_message_reports old new o : (rename_in_message old new o).2 = false → (rename_in_message old new o).1 = o.
Proof. unfold rename_in_message. destruct o as [ob|]; [|done]. by destruct (_ ≫= _). Qed.

Lemma rename_in_call_reports old new c : (rename_in_call old new c).2 = false → (rename_in_call old new c).1 = c.
Proof.
  unfold rename_in_call. pose proof (rename_in_message_reports old new (rc_request c)) as H.
  pose proof (rename_in_message_reports old new (rc_response c)) as H'.
  destruct (rename_in_message old new (rc_request c)), (rename_in_message old new (rc_response c)). cbn in *.
  intros [-> ->]%orb_false_iff. rewrite H, H' by done. by destruct c.
Qed.

Lemma rewrite_reports old new : reports_changes (λ _, rewrite_payload_references old new).
Proof.
  intros _ [o|e|s]; cbn -[map_mut].
  - pose proof (map_mut_reports (rename_in_field old new) (ob_fields o)) as H.
    destruct (map_mut _ _) as [fields b]. cbn in *. intros ->.
    rewrite H; [by destruct o|intros f _; apply rename_in_field_reports|done].
  - destruct (en_is_union e); [|done]. pose proof (map_mut_reports (rename_in_member old new) (en_values e)) as H.
    destruct (map_mut _ _) as [values b]. cbn in *. intros ->.
    rewrite H; [by destruct e|intros f _; apply rename_in_member_reports|done].
  - pose proof (map_mut_reports (rename_in_call old new) (sv_calls s)) as H.
    destruct (map_mut _ _) as [calls b]. cbn in *. intros ->.
    rewrite H; [by destruct s|intros f _; apply rename_in_call_reports|done].
Qed.

Lemma rename_defaults_reports en old new : reports_changes (λ _, rename_defaults en old new).
Proof.
  intros _ [o|e|s]; cbn -[map_mut]; [|done..].
  pose proof (map_mut_reports (rename_default en old new) (ob_fields o)) as H.
  destruct (map_mut _ _) as [fields b]. cbn in *. intros ->.
  rewrite H; [by destruct o| |done]. intros f _. unfold rename_default. by destruct (defaults_to _ _ _).
Qed.

(** ** The operations *)

Lemma tracked_rename_meta s old new : tracked s → tracked (rename_in_meta s old new).
Proof.
  intros [T1 T2 T3 T4]. split; cbn; try done.
  - intros [[H1 Hr]%orb_false_iff Ho]%orb_false_iff. rewrite <- (T3 H1).
    destruct (fm_root_type (fw_meta s) ≫= _) as [r|] eqn:Er; [done|]. cbn in Ho.
    destruct (fw_meta s) as [v ns inc pins root id ext order attrs]. cbn in *. unfold fm_with_order. cbn. f_equal.
    clear T3. induction order as [|n order IH]; [done|]. cbn in Ho. apply orb_false_iff in Ho as [Hn Ho]. cbn.
    rewrite Hn. f_equal. by apply IH.
  - destruct (fm_root_type (fw_meta s) ≫= _); apply T4.
Qed.

Lemma expect_kind_Ok s name k p : expect_kind s name k = Ok p → fw_decls s !! name = Some p.
Proof. unfold expect_kind. intros H. ok_inv H. by subst. Qed.

Lemma tracked_rename s old new k s' : tracked s → rename_decl s old new k = Ok s' → tracked s'.
Proof.
  intros T H. unfold rename_decl in H. ok_inv H. apply expect_kind_Ok in Hok.
  case_bool_decide as Hne; [by injection H as <-|]. ok_inv H. subst s'.
  set (s1 := fw_with_decls s (delete old (fw_decls s))).
  assert (tracked (fw_with_tracking s1 (fw_touched s1 ∖ {[ old ]}) ({[ old ]} ∪ fw_removed s1))) as T1.
  { destruct T as [T1 T2 T3 T4]. split; cbn; try done.
    - intros j p Hj Ht. apply lookup_delete_Some in Hj as [Hjo Hj]. apply T1; [done|]. set_solver.
    - intros j Hj. rewrite lookup_delete_None. intros [<-|Hn]; [set_solver|]. apply elem_of_union_r. by apply T2. }
  apply (tracked_store _ new (payload_with_name x new)) in T1.
  eapply (tracked_pass _ _ _ _ (rewrite_reports old new)) in T1; [|exact E].
  apply (tracked_rename_meta _ old new) in T1. apply (tracked_touch _ new) in T1.
  destruct T1 as [T1 T2 T3 T4]. split; cbn in *; try done.
  intros j p Hj Ht. apply T1; [done|].
  assert (j ≠ old) as Hjo.
  { intros ->. assert (g = (btree_map_mut (λ _, rewrite_payload_references old new)
      (<[new:=payload_with_name x new]> (delete old (fw_decls s)))).1) as -> by (by rewrite E).
    rewrite lookup_btree_map_mut, lookup_insert_ne, lookup_delete_eq in Hj by done. done. }
  set_solver.
Qed.

Lemma tracked_delete s name k s' : tracked s → delete_decl s name k = Ok s' → tracked s'.
Proof.
  intros T H. unfold delete_decl in H. ok_inv H. subst s'. destruct T as [T1 T2 T3 T4]. split; cbn; try done.
  - intros j p Hj Ht. apply lookup_delete_Some in Hj as [Hjo Hj]. apply T1; [done|]. set_solver.
  - intros j Hj. rewrite lookup_delete_None. intros [<-|Hn]; [set_solver|]. apply elem_of_union_r. by apply T2.
Qed.

Lemma tracked_union_member s u m s' : tracked s → add_union_member s u m = Ok s' → tracked s'.
Proof. intros T H. unfold add_union_member in H. ok_inv H. subst s'. by apply tracked_store. Qed.

Lemma tracked_union_members s u members s' : tracked s → add_union_members s u members = Ok s' → tracked s'.
Proof.
  revert s. induction members as [|m members IH]; intros s T H; cbn in H; [by injection H as <-|].
  ok_inv H. eapply IH; [|exact H]. by eapply tracked_union_member.
Qed.

Lemma tracked_apply s op s' : tracked s → fbs_apply s op = Ok s' → tracked s'.
Proof.
  intros T. destruct op; cbn [fbs_apply]; intros H; try done; try by eapply tracked_rename; try by eapply tracked_delete.
  - unfold fbs_add_field in H. ok_inv H. subst s'. by apply tracked_store.
  - unfold deprecate_field, update_field in H. ok_inv H. subst s'. by apply tracked_store.
  - unfold fbs_rename_field, update_field in H. ok_inv H. subst s'. by apply tracked_store.
  - unfold fbs_change_field_type, update_field in H. ok_inv H. subst s'. by apply tracked_store.
  - unfold create_table in H. ok_inv H. subst s'. by apply tracked_create.
  - by eapply tracked_delete.
  - unfold fbs_create_enum in H. ok_inv H. subst s'. by apply tracked_create.
  - by eapply tracked_delete.
  - unfold fbs_add_enum_value in H. ok_inv H. subst s'. by apply tracked_store, tracked_values.
  - unfold fbs_remove_enum_value in H. ok_inv H. subst s'. by apply tracked_store, tracked_values.
  - unfold fbs_rename_enum_value in H. ok_inv H. subst s'.
    eapply (tracked_store _ enum_name (FbsPEnum (en_with_values x x1))) in T.
    eapply (tracked_pass _ _ _ _ (rename_defaults_reports enum_name old_name new_name)) in T; [|exact E].
    destruct T as [T1 T2 T3 T4]. split; cbn in *; try done. intros j p Hj Ht. apply T1; [done|]. set_solver.
  - unfold create_union in H. ok_inv H. subst s'. by apply tracked_create.
  - unfold create_union_with_members, create_union in H. ok_inv H. subst.
    eapply tracked_union_members; [|exact H]. ok_inv Hok. subst x. by apply tracked_create.
  - by eapply tracked_union_member.
  - unfold remove_union_member in H. ok_inv H. subst s'. by apply tracked_store.
  - by eapply tracked_delete.
  - unfold fbs_update_import in H. injection H as <-. apply tracked_meta; [done|]. destruct T as [_ _ _ T4].
    destruct remove, (position _ _); exact T4.
Qed.

Lemma tracked_apply_all s ops s' : tracked s → fbs_apply_all s ops = Ok s' → tracked s'.
Proof.
  revert s. induction ops as [|op ops IH]; intros s T H; cbn in H; [by injection H as <-|].
  ok_inv H. eapply IH; [|exact H]. by eapply tracked_apply.
Qed.

End Ops.
(** ** Loading starts the tracking *)

Lemma fbs_decode_meta_version b m : fbs_decode_meta b = Ok m → fm_blob_version m = FBS_BLOB_VERSION.
Proof.
  unfold fbs_decode_meta. destruct b; [by intros [= <-]|]. intros H. ok_inv H. subst.
  by apply Z.eqb_eq, negb_false_iff.
Qed.

Lemma fbs_load_tracked schema defer s :
  fbs_load schema defer = Ok s → fbs_tracked (fw_decls s) (fw_meta s) s.
Proof.
  intros (_ & _ & Hm & _)%fbs_load_Ok. split; try done.
  - intros k [p Hp]. by rewrite Hp.
  - by eapply fbs_decode_meta_version.
Qed.

(** ** The effect *)

Lemma elem_of_fbs_upserts s name b :
  (name, b) ∈ me_upserts (fbs_into_effect s) ↔
  name ∈ fw_touched s ∧ ∃ p, fw_decls s !! name = Some p ∧ b = fbs_encode_decl p.
Proof.
  cbn. rewrite list_elem_of_omap. split.
  - intros (n & Hn%elem_of_btree_set_iter & E). destruct (fw_decls s !! n) as [p|] eqn:Hp; [|done].
    injection E as -> <-. split; [done|]. by exists p.
  - intros [Hn (p & Hp & ->)]. exists name. rewrite elem_of_btree_set_iter, Hp. done.
Qed.

Lemma NoDup_fbs_upserts s : NoDup (me_upserts (fbs_into_effect s)).*1.
Proof.
  cbn. induction (NoDup_btree_set_iter (fw_touched s)) as [|n l Hn _ IH]; [constructor|]. cbn.
  destruct (fw_decls s !! n) as [p|]; [|exact IH]. cbn. constructor; [|exact IH].
  intros ([n' b] & -> & (n2 & Hn2 & E)%list_elem_of_omap)%list_elem_of_fmap. cbn in Hn.
  destruct (fw_decls s !! n2); [|done]. injection E as -> _. done.
Qed.

Lemma elem_of_fbs_removes s name :
  name ∈ me_removes (fbs_into_effect s) ↔ name ∈ fw_removed s ∧ fw_decls s !! name = None.
Proof.
  cbn. rewrite elem_of_bool_filter, elem_of_btree_set_iter, negb_true_iff, bool_decide_eq_false.
  by rewrite <- eq_None_not_Some.
Qed.

Context {FL : FbsJsonLaws}.

(** The schema holds the working state: the same names, each blob decoding to
    the payload of the state up to what JSON makes of floating-point defaults, and
    the same metadata. *)
Definition fbs_stores (schema : SchemaObjects) (s : FbsWorkingState) : Prop :=
  (∀ name, match fw_decls s !! name with
           | Some p => ∃ b p', so_decls schema !! name = Some b ∧ fbs_decode_decl b = Ok p' ∧
                               (p' = p ∨ p' = reread_payload json_f64 p)
           | None => so_decls schema !! name = None
           end) ∧
  fbs_decode_meta (so_meta schema) = Ok (fw_meta s).

Lemma fbs_effect_stores schema defer s0 s :
  fbs_load schema defer = Ok s0 → fbs_tracked (fw_decls s0) (fw_meta s0) s →
  fbs_stores (apply_effect schema (fbs_into_effect s)) s.
Proof.
  intros (Hload & Hall & Hmeta & _)%fbs_load_Ok [T1 T2 T3 T4]. split.
  - intros name. destruct (fw_decls s !! name) as [p|] eqn:Hp.
    + assert (name ∉ me_removes (fbs_into_effect s)) as Hnr.
      { rewrite elem_of_fbs_removes. intros [_ Hn]. congruence. }
      destruct (decide (name ∈ fw_touched s)) as [Ht|Ht].
      * exists (fbs_encode_decl p), (reread_payload json_f64 p). split_and!; [|apply fbs_decode_encode_decl|by right].
        apply lookup_apply_effect_upsert; [apply NoDup_fbs_upserts|done|]. apply elem_of_fbs_upserts. eauto.
      * destruct (proj1 (Hload name p) (T1 name p Hp Ht)) as (b & Hb & Hd).
        exists b, p. split_and!; [|done|by left]. rewrite lookup_apply_effect_other; [done|done|].
        intros ([n' b'] & -> & [? _]%elem_of_fbs_upserts)%list_elem_of_fmap. done.
    + destruct (so_decls schema !! name) as [b|] eqn:Hb.
      * apply lookup_apply_effect_removed, elem_of_fbs_removes. split; [|done]. apply T2; [by eapply Hall|done].
      * destruct (decide (name ∈ me_removes (fbs_into_effect s))) as [Hr|Hr]; [by apply lookup_apply_effect_removed|].
        rewrite lookup_apply_effect_other; [done|done|].
        intros ([n' b'] & -> & [_ (p & Hp' & _)]%elem_of_fbs_upserts)%list_elem_of_fmap. cbn in *. congruence.
  - cbn. destruct (fw_meta_changed s); [|by rewrite T3].
    rewrite fbs_decode_encode_meta. f_equal. destruct (fw_meta s). cbn in *. by subst.
Qed.

(** C17. When a batch of FlatBuffers operations succeeds, applying the effect that
    is returned to the stored schema gives a schema that holds the final working
    state: the same declarations and metadata, and nothing that an operation
    changed, created, renamed or removed is missed. A declaration that was written
    again reads back with its floating-point defaults passed through JSON: those
    that are not finite are lost, and the others are what [serde_json] reads for
    what it wrote ([json_f64]), which may be another number. *)
Theorem fbs_effect_complete (schema : SchemaObjects) (ops : list Mutation) (effect : MutationEffect) :
  fbs_apply_mutations schema ops = Ok effect →
  ∃ s0 s, fbs_load schema true = Ok s0 ∧ fbs_apply_all s0 ops = Ok s ∧ fbs_stores (apply_effect schema effect) s.
Proof.
  unfold fbs_apply_mutations. intros H. ok_inv H. subst effect. exists x, x0. split_and!; [done..|].
  eapply fbs_effect_stores; [done|]. eapply tracked_apply_all; [|done]. by eapply fbs_load_tracked.
Qed.

(** ** No dangling references *)

Lemma reread_references p target : payload_references (reread_payload json_f64 p) target = payload_references p target.
Proof.
  destruct p as [o|e|s]; cbn; [|done|].
  - induction (ob_fields o) as [|f l IH]; [done|]. cbn. by rewrite IH.
  - induction (sv_calls s) as [|c l IH]; [done|]. cbn. rewrite IH. f_equal. by destruct (rc_request c), (rc_response c).
Qed.

(** The names that a declaration mentions: the types of its fields, the types of
    its members, the messages of its calls. *)
Inductive mentions : FbsDeclPayload → string → Prop :=
  | mentions_field o f t n :
      f ∈ ob_fields o → fi_type f = Some t → ty_unresolved_name t = Some n → mentions (FbsPObject o) n
  | mentions_member e v t n :
      en_is_union e = true → v ∈ en_values e → vl_union_type v = Some t → ty_unresolved_name t = Some n →
      mentions (FbsPEnum e) n
  | mentions_request s c o n :
      c ∈ sv_calls s → rc_request c = Some o → ob_name o = Some n → mentions (FbsPService s) n
  | mentions_response s c o n :
      c ∈ sv_calls s → rc_response c = Some o → ob_name o = Some n → mentions (FbsPService s) n.

(** A name stands for a declaration if it or its last part is the declaration's name. *)
Definition stands_for (n name : string) : Prop := n = name ∨ rsplit_next "."%char n = name.

Lemma not_matches n name : type_name_matches n name = false → ¬ stands_for n name.
Proof. unfold type_name_matches, stands_for. rewrite orb_false_iff, !bool_decide_eq_false. tauto. Qed.

Lemma existsb_none {A} (f : A → bool) l x : existsb f l = false → x ∈ l → f x = false.
Proof. intros H Hx. apply not_true_is_false. intros E. assert (existsb f l = true) by (apply existsb_elem; eauto). congruence. Qed.

Lemma not_mentioned p name n : payload_references p name = false → mentions p n → ¬ stands_for n name.
Proof.
  intros H Hm. apply not_matches. destruct Hm as [o f t n Hin Hf Hn|e v t n Hu Hin Hv Hn|s c o n Hin Hc Hn|s c o n Hin Hc Hn];
    cbn in H; try rewrite Hu in H; apply (existsb_none _ _ _ H) in Hin; unfold type_ref_of in Hin.
  - by rewrite Hf in Hin; cbn in Hin; rewrite Hn in Hin.
  - by rewrite Hv in Hin; cbn in Hin; rewrite Hn in Hin.
  - apply orb_false_iff in Hin as [Hin _]. by rewrite Hc in Hin; cbn in Hin; rewrite Hn in Hin.
  - apply orb_false_iff in Hin as [_ Hin]. by rewrite Hc in Hin; cbn in Hin; rewrite Hn in Hin.
Qed.

Lemma removed_not_referenced s name :
  fbs_validate_removed_references s = Ok tt → name ∈ fw_removed s →
  (∀ k p, fw_decls s !! k = Some p → payload_references p name = false) ∧
  opt_matches (fm_root_type (fw_meta s)) name = false.
Proof.
  unfold fbs_validate_removed_references. intros H Hname. ok_inv H. destruct x.
  eapply for_each_Ok in Hok; [|by apply elem_of_btree_set_iter]. cbv zeta in Hok.
  apply fail_if_Ok, negb_false_iff, bool_decide_eq_true in Hok. unfold fbs_references_to, root_reference in Hok.
  apply app_nil in Hok as [Hd Hr]. split; [|by destruct (opt_matches _ _)].
  intros k p Hk. by apply (fst_filter_nil _ _ Hd k p).
Qed.

(** C18. A batch of FlatBuffers operations that succeeds leaves no reference to a
    declaration that it removed, whether it deleted or renamed it: no field, no
    union member, no call and no root type of the stored result names it, neither
    by its name nor by a qualified one. *)
Theorem fbs_no_dangling (schema : SchemaObjects) (ops : list Mutation) (effect : MutationEffect) (name : string) :
  fbs_apply_mutations schema ops = Ok effect →
  is_Some (so_decls schema !! name) → so_decls (apply_effect schema effect) !! name = None →
  (∀ k b p, so_decls (apply_effect schema effect) !! k = Some b → fbs_decode_decl b = Ok p →
     ∀ n, mentions p n → ¬ stands_for n name) ∧
  (∀ m n, fbs_decode_meta (so_meta (apply_effect schema effect)) = Ok m → fm_root_type m = Some n →
     ¬ stands_for n name).
Proof.
  unfold fbs_apply_mutations. intros H [b0 Hname] Hgone. ok_inv H. subst effect.
  assert (fbs_tracked (fw_decls x) (fw_meta x) x0) as T.
  { eapply tracked_apply_all; [|done]. by eapply fbs_load_tracked. }
  destruct (fbs_effect_stores schema true x x0 Hok T) as [Hst Hm].
  destruct (fbs_load_Ok _ _ _ Hok) as (_ & Hall & _).
  assert (name ∈ fw_removed x0) as Hr.
  { destruct T as [_ T2 _ _]. apply T2; [by eapply Hall|]. specialize (Hst name).
    destruct (fw_decls x0 !! name); [|done]. destruct Hst as (b & p' & Hb & _). congruence. }
  destruct x1. destruct (removed_not_referenced _ _ Hok1 Hr) as [Hrefs Hroot]. split.
  - intros k b p Hb Hp n. apply not_mentioned. specialize (Hst k). destruct (fw_decls x0 !! k) as [q|] eqn:Hq; [|congruence].
    destruct Hst as (b' & p' & Hb' & Hp' & Hor). assert (p = p') as -> by congruence.
    destruct Hor as [-> | ->]; [|rewrite reread_references]; by eapply Hrefs.
  - intros m n Hm' Hn. rewrite Hm in Hm'. injection Hm' as <-. rewrite Hn in Hroot. by apply not_matches.
Qed.

End Tracking.
