(* ===== verification/ChangeModel.v ===== *)
(** * ChangeModel: the change record and its parts

    [crates/schemahub-core/src/change_record/model.rs], the error types of
    [store.rs], [runtime.rs] and [ledger.rs]. *)
From S2P Require Import Prelude RustStd SchemaTypes.

Open Scope Z_scope.

Record ChangeActor := mkChangeActor {
  ca_identity : string;
  ca_kind : IdentityKind;
  ca_display_name : option string;
  ca_delegated_by : option string;
}.

(** [ChangeActor::from(&Identity)]. *)
Definition actor_of (i : Identity) : ChangeActor :=
  mkChangeActor (default ""%string (identity_id i)) (identity_kind i) (identity_display i)
    (identity_delegated_by i).

Inductive ChangeEdit :=
  | EditMutation (schema : SchemaPath) (format_id : string) (operation : list byte)
  | ReplaceSource (schema : SchemaPath) (format_id : string) (source : string)
  | DeleteSchema (schema : SchemaPath) (format_id : string).

Inductive ChangeRecordStatus := Draft | Ready | Applying | Applied | Rejected | Abandoned.

#[export] Instance ChangeRecordStatus_eq_dec : EqDecision ChangeRecordStatus.
Proof. solve_decision. Defined.

Definition is_terminal (s : ChangeRecordStatus) : bool :=
  match s with Applied | Rejected | Abandoned => true | _ => false end.

Definition debug_status (s : ChangeRecordStatus) : string :=
  match s with
  | Draft => "Draft" | Ready => "Ready" | Applying => "Applying" | Applied => "Applied"
  | Rejected => "Rejected" | Abandoned => "Abandoned"
  end.

Record ValidationIssue := mkValidationIssue {
  vi_code : string;
  vi_message : string;
  vi_schema_name : option string;
  vi_declaration_name : option string;
}.

Record ValidationResult := mkValidationResult {
  vr_valid : bool;
  vr_resolved_base_commit : string;
  vr_edit_digest : string;
  vr_issues : list ValidationIssue;
  vr_validated_at_unix_ms : Z;
  vr_validator_version : string;
}.

Inductive ChangeReviewDecision := Approved | DecisionRejected.

#[export] Instance ChangeReviewDecision_eq_dec : EqDecision ChangeReviewDecision.
Proof. solve_decision. Defined.

Record ChangeReview := mkChangeReview {
  rv_reviewer : ChangeActor;
  rv_decision : ChangeReviewDecision;
  rv_reason : string;
  rv_create_time_unix_ms : Z;
}.

Record ApplyResult := mkApplyResult {
  res_commit_id : string;
  res_change_id : string;
  res_operation_id : string;
  res_conflicted_declarations : list string;
  res_artifact_digest : option string;
}.

Record ApplyAttempt := mkApplyAttempt {
  at_request_id : string;
  at_attempt_id : string;
  at_actor : ChangeActor;
  at_lease_owner : string;
  at_lease_expires_at_unix_ms : Z;
  at_start_time_unix_ms : Z;
  at_update_time_unix_ms : Z;
}.

Record ChangeRecord := mkChangeRecord {
  cr_name : string;
  cr_project : string;
  cr_repo : string;
  cr_target_bookmark : string;
  cr_base_revision : option string;
  cr_title : string;
  cr_description : string;
  cr_external_references : list string;
  cr_edits : list ChangeEdit;
  cr_created_by : ChangeActor;
  cr_status : ChangeRecordStatus;
  cr_validation : option ValidationResult;
  cr_reviews : list ChangeReview;
  cr_apply_attempt : option ApplyAttempt;
  cr_apply_result : option ApplyResult;
  cr_etag : string;
  cr_create_time_unix_ms : Z;
  cr_update_time_unix_ms : Z;
}.

Record CreateChange := mkCreateChange {
  cc_project : string;
  cc_repo : string;
  cc_change_id : option string;
  cc_target_bookmark : string;
  cc_base_revision : option string;
  cc_title : string;
  cc_description : string;
  cc_external_references : list string;
  cc_edits : list ChangeEdit;
}.

Record ChangeUpdate := mkChangeUpdate {
  cu_target_bookmark : option string;
  cu_base_revision : option string;
  cu_title : option string;
  cu_description : option string;
  cu_external_references : option (list string);
  cu_edits : option (list ChangeEdit);
}.


(** [ChangeUpdate::is_empty]. *)
Definition update_is_empty (u : ChangeUpdate) : bool :=
  is_none (cu_target_bookmark u) && is_none (cu_base_revision u) && is_none (cu_title u)
  && is_none (cu_description u) && is_none (cu_external_references u) && is_none (cu_edits u).

(** ** Field assignments *)

(** The fields [update] can assign. *)
Definition with_content (r : ChangeRecord) (target : string) (base : option string)
    (title description : string) (refs : list string) (edits : list ChangeEdit) : ChangeRecord :=
  mkChangeRecord (cr_name r) (cr_project r) (cr_repo r) target base title description refs edits
    (cr_created_by r) (cr_status r) (cr_validation r) (cr_reviews r) (cr_apply_attempt r)
    (cr_apply_result r) (cr_etag r) (cr_create_time_unix_ms r) (cr_update_time_unix_ms r).

Definition with_status (r : ChangeRecord) (s : ChangeRecordStatus) : ChangeRecord :=
  mkChangeRecord (cr_name r) (cr_project r) (cr_repo r) (cr_target_bookmark r)
    (cr_base_revision r) (cr_title r) (cr_description r) (cr_external_references r) (cr_edits r)
    (cr_created_by r) s (cr_validation r) (cr_reviews r) (cr_apply_attempt r)
    (cr_apply_result r) (cr_etag r) (cr_create_time_unix_ms r) (cr_update_time_unix_ms r).

Definition with_validation (r : ChangeRecord) (v : option ValidationResult) : ChangeRecord :=
  mkChangeRecord (cr_name r) (cr_project r) (cr_repo r) (cr_target_bookmark r)
    (cr_base_revision r) (cr_title r) (cr_description r) (cr_external_references r) (cr_edits r)
    (cr_created_by r) (cr_status r) v (cr_reviews r) (cr_apply_attempt r)
    (cr_apply_result r) (cr_etag r) (cr_create_time_unix_ms r) (cr_update_time_unix_ms r).

Definition with_reviews (r : ChangeRecord) (l : list ChangeReview) : ChangeRecord :=
  mkChangeRecord (cr_name r) (cr_project r) (cr_repo r) (cr_target_bookmark r)
    (cr_base_revision r) (cr_title r) (cr_description r) (cr_external_references r) (cr_edits r)
    (cr_created_by r) (cr_status r) (cr_validation r) l (cr_apply_attempt r)
    (cr_apply_result r) (cr_etag r) (cr_create_time_unix_ms r) (cr_update_time_unix_ms r).

Definition with_apply_attempt (r : ChangeRecord) (a : option ApplyAttempt) : ChangeRecord :=
  mkChangeRecord (cr_name r) (cr_project r) (cr_repo r) (cr_target_bookmark r)
    (cr_base_revision r) (cr_title r) (cr_description r) (cr_external_references r) (cr_edits r)
    (cr_created_by r) (cr_status r) (cr_validation r) (cr_reviews r) a
    (cr_apply_result r) (cr_etag r) (cr_create_time_unix_ms r) (cr_update_time_unix_ms r).

Definition with_apply_result (r : ChangeRecord) (a : option ApplyResult) : ChangeRecord :=
  mkChangeRecord (cr_name r) (cr_project r) (cr_repo r) (cr_target_bookmark r)
    (cr_base_revision r) (cr_title r) (cr_description r) (cr_external_references r) (cr_edits r)
    (cr_created_by r) (cr_status r) (cr_validation r) (cr_reviews r) (cr_apply_attempt r)
    a (cr_etag r) (cr_create_time_unix_ms r) (cr_update_time_unix_ms r).

Definition with_etag (r : ChangeRecord) (e : string) : ChangeRecord :=
  mkChangeRecord (cr_name r) (cr_project r) (cr_repo r) (cr_target_bookmark r)
    (cr_base_revision r) (cr_title r) (cr_description r) (cr_external_references r) (cr_edits r)
    (cr_created_by r) (cr_status r) (cr_validation r) (cr_reviews r) (cr_apply_attempt r)
    (cr_apply_result r) e (cr_create_time_unix_ms r) (cr_update_time_unix_ms r).

Definition with_update_time (r : ChangeRecord) (t : Z) : ChangeRecord :=
  mkChangeRecord (cr_name r) (cr_project r) (cr_repo r) (cr_target_bookmark r)
    (cr_base_revision r) (cr_title r) (cr_description r) (cr_external_references r) (cr_edits r)
    (cr_created_by r) (cr_status r) (cr_validation r) (cr_reviews r) (cr_apply_attempt r)
    (cr_apply_result r) (cr_etag r) (cr_create_time_unix_ms r) t.

Definition vr_with_time (v : ValidationResult) (t : Z) : ValidationResult :=
  mkValidationResult (vr_valid v) (vr_resolved_base_commit v) (vr_edit_digest v) (vr_issues v) t
    (vr_validator_version v).

Definition at_with_lease (a : ApplyAttempt) (owner : string) (expires now : Z) : ApplyAttempt :=
  mkApplyAttempt (at_request_id a) (at_attempt_id a) (at_actor a) owner expires
    (at_start_time_unix_ms a) now.

Definition at_with_update_time (a : ApplyAttempt) (now : Z) : ApplyAttempt :=
  mkApplyAttempt (at_request_id a) (at_attempt_id a) (at_actor a) (at_lease_owner a)
    (at_lease_expires_at_unix_ms a) (at_start_time_unix_ms a) now.

(** ** Errors *)

Inductive ChangeStoreError :=
  | AlreadyExists (name : string)
  | StoreNotFound (name : string)
  | EtagMismatch (name expected current : string)
  | StoreBackend (m : string).

Inductive ChangeRuntimeError := ClockError (m : string) | TimestampOverflow.

Inductive ChangeLedgerError :=
  | InvalidArgument (m : string)
  | FailedPrecondition (m : string)
  | LedgerStore (e : ChangeStoreError)
  | LedgerRuntime (e : ChangeRuntimeError).

Inductive ApplyAcquisition :=
  | Acquired (r : ChangeRecord)
  | Observed (r : ChangeRecord)
  | AlreadyApplied (r : ChangeRecord).
