(* ===== verification/Prog.v ===== *)
(** * Prog: programs that call a service, run alone or interleaved

    Code that talks to a shared service (a database, a clock) is a tree of
    requests and continuations. [interp] runs such a program alone against an
    implementation of the service; [thread_step] is one request of a program
    that runs beside others, and [safe] is the proof rule for such programs: it
    holds at every step whatever the others did in between, as long as they
    stayed within the guarantee. *)
From S2P Require Import Prelude.

Section Prog.
Context {R : Type → Type}.

Inductive prog (A : Type) : Type :=
  | Ret (a : A)
  | Call {X : Type} (q : R X) (k : X → prog A).
Arguments Ret {A} a.
Arguments Call {A X} q k.

Fixpoint prog_bind {A B} (m : prog A) (f : A → prog B) : prog B :=
  match m with
  | Ret a => f a
  | Call q k => Call q (λ x, prog_bind (k x) f)
  end.

(** A program that returns a [Result]; [?] propagates the error. *)
Definition action (E A : Type) : Type := prog (outcome E A).

#[export] Instance action_ret {E} : MRet (action E) := λ A a, Ret (Ok a).
#[export] Instance action_bind {E} : MBind (action E) := λ A B f m,
  prog_bind m (λ r,
    match r with
    | Ok a => f a
    | Err e => Ret (Err e)
    | Panic => Ret Panic
    | Stuck => Ret Stuck
    end).

(** A pure fallible step. *)
Definition pure_step {E A} (r : outcome E A) : action E A := Ret r.

(** A request whose answer is a [Result] with an error that converts to [E]. *)
Definition try_call {E E' A} (inject : E' → E) (q : R (outcome E' A)) : action E A :=
  Call q (λ r, Ret (map_err inject r)).

(** ** Running alone *)

Fixpoint interp {S A} (h : ∀ X, R X → S → X * S) (m : prog A) (s : S) : A * S :=
  match m with
  | Ret a => (a, s)
  | Call q k => let '(x, s') := h _ q s in interp h (k x) s'
  end.

(** ** Running beside others *)

Context {S : Type}.
(** How the service can answer a request, and what it does to the shared state. *)
Context (serve : ∀ X, R X → S → X → S → Prop).
(** The changes of the shared state that every program is allowed to make. *)
Context (guar : S → S → Prop).

Fixpoint safe {A} (s : S) (m : prog A) : Prop :=
  match m with
  | Ret _ => True
  | Call q k =>
    ∀ s1, rtc guar s s1 → ∀ x s2, serve _ q s1 x s2 → rtc guar s1 s2 ∧ safe s2 (k x)
  end.

Lemma safe_later {A} s s' (m : prog A) : rtc guar s s' → safe s m → safe s' m.
Proof.
  intros Hs. destruct m as [|X q k]; [done|]. intros Hm s1 Hs1. apply Hm. by trans s'.
Qed.

Lemma safe_bind {A B} s (m : prog A) (f : A → prog B) :
  safe s m → (∀ a s', rtc guar s s' → safe s' (f a)) → safe s (prog_bind m f).
Proof.
  revert s. induction m as [a|X q k IH]; intros s Hm Hf; cbn in *; [by apply Hf|].
  intros s1 Hs1 x s2 Hx. destruct (Hm s1 Hs1 x s2 Hx) as [Hg Hk]. split; [done|].
  apply IH; [done|]. intros a s' Hs'. apply Hf. trans s1; [done|]. by trans s2.
Qed.

(** A run of a program alone, whatever the service answers. *)
Fixpoint runs {A} (m : prog A) (s : S) (a : A) (s' : S) : Prop :=
  match m with
  | Ret b => a = b ∧ s' = s
  | Call q k => ∃ x s1, serve _ q s x s1 ∧ runs (k x) s1 a s'
  end.

Lemma runs_bind {A B} (m : prog A) (f : A → prog B) s b s' :
  runs (prog_bind m f) s b s' ↔ ∃ a s1, runs m s a s1 ∧ runs (f a) s1 b s'.
Proof.
  revert s. induction m as [a|X q k IH]; intros s; cbn [prog_bind runs].
  - split; [|intros (a' & s1 & [-> ->] & H); done]. intros H. by exists a, s.
  - split.
    + intros (x & s1 & Hq & H). apply IH in H as (a & s2 & Hk & H). by exists a, s2; eauto.
    + intros (a & s2 & (x & s1 & Hq & Hk) & H). exists x, s1. split; [done|]. apply IH. eauto.
Qed.

(** A deterministic service that the relation allows gives a run. *)
Lemma interp_runs {A} (h : ∀ X, R X → S → X * S) (m : prog A) s :
  (∀ X q s, serve X q s (h X q s).1 (h X q s).2) → runs m s (interp h m s).1 (interp h m s).2.
Proof.
  intros Hh. revert s. induction m as [a|X q k IH]; intros s; [done|]. cbn [interp runs].
  specialize (Hh X q s). destruct (h X q s) as [x s1]. exists x, s1. split; [done|]. apply IH.
Qed.

(** A request that leaves the state alone, and a program of such requests. *)
Definition reads {X} (q : R X) : Prop := ∀ s x s', serve X q s x s' → s' = s.

Fixpoint read_only {A} (m : prog A) : Prop :=
  match m with
  | Ret _ => True
  | Call q k => reads q ∧ ∀ x, read_only (k x)
  end.

Lemma read_only_runs {A} (m : prog A) s a s' : read_only m → runs m s a s' → s' = s.
Proof.
  revert s. induction m as [b|X q k IH]; intros s; cbn; [naive_solver|].
  intros [Hq Hk] (x & s1 & Hx & H). apply Hq in Hx as ->. by eapply IH.
Qed.

Lemma read_only_bind {A B} (m : prog A) (f : A → prog B) :
  read_only m → (∀ a, read_only (f a)) → read_only (prog_bind m f).
Proof. intros Hm Hf. induction m as [a|X q k IH]; cbn in *; naive_solver. Qed.

(** A step that only reads: it fails and the program with it, or the program
    goes on from the same state. *)
Lemma runs_read_step {E A B} (m : action E A) (f : A → action E B) s r s' :
  read_only m → runs (m ≫= f) s r s' →
  (s' = s ∧ is_ok r = false) ∨ ∃ a, runs m s (Ok a) s ∧ runs (f a) s r s'.
Proof.
  intros Hm H. apply runs_bind in H as (a & s1 & Ha & H).
  pose proof (read_only_runs m s a s1 Hm Ha) as ->.
  destruct a as [a| | |]; cbn in H; [by right; eauto|..]; destruct H as [-> ->]; by left.
Qed.

Lemma read_only_then {E A B} (m : action E A) (f : A → action E B) :
  read_only m → (∀ a, read_only (f a)) → read_only (m ≫= f).
Proof. intros Hm Hf. apply read_only_bind; [done|]. by intros [a| | |]; cbn; auto. Qed.

Lemma runs_pure {E A} (o : outcome E A) s r s' : runs (pure_step o) s r s' → r = o ∧ s' = s.
Proof. done. Qed.

Lemma runs_try {E E' A} (inject : E' → E) (q : R (outcome E' A)) s r s' :
  runs (try_call inject q) s r s' → ∃ x, serve _ q s x s' ∧ r = map_err inject x.
Proof. intros (x & s1 & Hq & -> & ->). eauto. Qed.

Inductive thread_step {A} : S * prog A → S * prog A → Prop :=
  | thread_call X (q : R X) k s x s' :
    serve X q s x s' → thread_step (s, Call q k) (s', k x).

(** A program that runs alone and may stop after any request, as when its process
    crashes: [I] holds after every request, [Q] if it returns. *)
Fixpoint keeps (I : S → Prop) {B} (m : prog B) (Q : B → S → Prop) (s : S) : Prop :=
  match m with
  | Ret b => Q b s
  | Call q k => ∀ x s', serve _ q s x s' → I s' ∧ keeps I (k x) Q s'
  end.

Lemma keeps_bind I {B C} (m : prog B) (f : B → prog C) Q s :
  keeps I m (λ b s', keeps I (f b) Q s') s → keeps I (prog_bind m f) Q s.
Proof.
  revert s. induction m as [b|X q k IH]; intros s; cbn [prog_bind keeps]; [done|].
  intros H x s' Hx. destruct (H x s' Hx) as [HI Hk]. eauto.
Qed.

(** The postcondition may use the invariant. *)
Lemma keeps_mono I {B} (m : prog B) (Q Q' : B → S → Prop) s :
  I s → (∀ b s', I s' → Q b s' → Q' b s') → keeps I m Q s → keeps I m Q' s.
Proof.
  intros Hs HQ. revert s Hs. induction m as [b|X q k IH]; intros s Hs; cbn [keeps]; [by apply HQ|].
  intros H x s' Hx. destruct (H x s' Hx) as [HI Hk]. split; [done|]. by apply IH.
Qed.

Lemma keeps_step I {E B C} (m : action E B) (f : B → action E C) Q s :
  keeps I m (λ r s', match r with
                     | Ok b => keeps I (f b) Q s'
                     | Err e => Q (Err e) s'
                     | Panic => Q Panic s'
                     | Stuck => Q Stuck s'
                     end) s →
  keeps I (m ≫= f) Q s.
Proof.
  intros H. apply keeps_bind. revert s H. induction m as [[b|e| |]|X q k IH]; intros s; cbn [keeps]; try done.
  intros H x s' Hx. destruct (H x s' Hx) as [HI Hk]. eauto.
Qed.

Lemma keeps_pure I {E B C} (o : outcome E B) (f : B → action E C) Q s :
  (∀ b, o = Ok b → keeps I (f b) Q s) → (∀ e, o = Err e → Q (Err e) s) → (o = Panic → Q Panic s) →
  (o = Stuck → Q Stuck s) → keeps I (pure_step o ≫= f) Q s.
Proof. intros H1 H2 H3 H4. destruct o as [b|e| |]; [by apply H1|by apply H2|by apply H3|by apply H4]. Qed.

Lemma keeps_runs I {B} (m : prog B) Q s b s' : keeps I m Q s → runs m s b s' → Q b s'.
Proof.
  revert s. induction m as [c|X q k IH]; intros s; cbn [keeps runs]; [by intros H [-> ->]|].
  intros H (x & s1 & Hx & Hk). destruct (H x s1 Hx) as [_ H1]. by eapply IH.
Qed.

(** Wherever the program stops, the invariant holds. *)
Lemma keeps_crash I {B} (m m' : prog B) Q s s' :
  I s → keeps I m Q s → rtc thread_step (s, m) (s', m') → I s' ∧ keeps I m' Q s'.
Proof.
  intros HI Hm H. remember (s, m) as c eqn:Hc. remember (s', m') as c' eqn:Hc'.
  revert s m HI Hm Hc. induction H as [c|c c1 c2 Hstep _ IH]; intros s m HI Hm ->.
  - by simplify_eq.
  - inversion Hstep as [X q k s1 x s2 Hx]; subst. destruct (Hm x s2 Hx) as [HI2 Hk].
    by eapply IH.
Qed.

(** A program that runs beside others, which may change the state before every
    request as [rely] says: every request it makes satisfies [ask], and [Q] holds
    if it returns. *)
Fixpoint asks (rely : S → S → Prop) (ask : ∀ X, R X → S → Prop) {B} (m : prog B) (Q : B → S → Prop)
    (s : S) : Prop :=
  match m with
  | Ret b => Q b s
  | Call q k =>
    ∀ s1, rely s s1 → ask _ q s1 ∧ ∀ x s2, serve _ q s1 x s2 → asks rely ask (k x) Q s2
  end.

Lemma asks_bind rely ask {B C} (m : prog B) (f : B → prog C) Q s :
  asks rely ask m (λ b s', asks rely ask (f b) Q s') s → asks rely ask (prog_bind m f) Q s.
Proof.
  revert s. induction m as [b|X q k IH]; intros s; cbn [prog_bind asks]; [done|].
  intros H s1 Hs1. destruct (H s1 Hs1) as [Hq Hk]. split; [done|]. eauto.
Qed.

Lemma asks_mono rely ask {B} (m : prog B) (Q Q' : B → S → Prop) s :
  (∀ b s', Q b s' → Q' b s') → asks rely ask m Q s → asks rely ask m Q' s.
Proof.
  intros HQ. revert s. induction m as [b|X q k IH]; intros s; cbn [asks]; [by apply HQ|].
  intros H s1 Hs1. destruct (H s1 Hs1) as [Hq Hk]. split; [done|]. eauto.
Qed.

(** What neither the others nor the program's own requests destroy still holds at
    the end. *)
Lemma asks_frame rely ask (F : S → Prop) {B} (m : prog B) (Q : B → S → Prop) s :
  (∀ s1 s2, rely s1 s2 → F s1 → F s2) →
  (∀ X (q : R X) s1 x s2, ask X q s1 → serve X q s1 x s2 → F s1 → F s2) →
  F s → asks rely ask m Q s → asks rely ask m (λ b s', Q b s' ∧ F s') s.
Proof.
  intros Hrely Hserve. revert s. induction m as [b|X q k IH]; intros s HF; cbn [asks]; [done|].
  intros H s1 Hs1. destruct (H s1 Hs1) as [Hq Hk]. split; [done|]. intros x s2 Hx.
  apply IH; [by eauto|by apply Hk].
Qed.

(** A pool of programs over one shared state; [may_spawn] says which programs
    can be started in a state. *)
Context {A : Type} (may_spawn : S → prog A → Prop).

Inductive pool_step : S * list (prog A) → S * list (prog A) → Prop :=
  | pool_spawn s ts m : may_spawn s m → pool_step (s, ts) (s, ts ++ [m])
  | pool_run s s' ts i m m' :
    ts !! i = Some m → thread_step (s, m) (s', m') → pool_step (s, ts) (s', <[i := m']> ts).

(** A schedule: which program makes its next request, against a deterministic
    service. *)
Definition run_pool (h : ∀ X, R X → S → X * S) (schedule : list nat) (c : S * list (prog A)) :
    S * list (prog A) :=
  foldl (λ c i,
    match c.2 !! i with
    | Some (Call q k) => let '(x, s) := h _ q c.1 in (s, <[i := k x]> c.2)
    | _ => c
    end) c schedule.

Lemma run_pool_steps (h : ∀ X, R X → S → X * S) schedule c :
  (∀ X q s, serve X q s (h X q s).1 (h X q s).2) → rtc pool_step c (run_pool h schedule c).
Proof.
  intros Hh. revert c. induction schedule as [|i schedule IH]; intros c; [done|]. cbn [run_pool foldl].
  etrans; [|apply IH]. destruct (c.2 !! i) as [[a|X q k]|] eqn:Hi; [done| |done].
  apply rtc_once. specialize (Hh X q c.1). destruct (h X q c.1) as [x s]. destruct c as [s0 ts].
  eapply pool_run; [exact Hi|]. by constructor.
Qed.

(** If every program is safe when it is started, then every reachable state is
    reached within the guarantee. [I] is an invariant of the guarantee. *)
Lemma pool_safe (I : S → Prop) :
  (∀ s s', I s → guar s s' → I s') → (∀ s m, I s → may_spawn s m → safe s m) →
  ∀ c c', rtc pool_step c c' → I c.1 → Forall (safe c.1) c.2 →
  rtc guar c.1 c'.1 ∧ Forall (safe c'.1) c'.2.
Proof.
  intros HI Hspawn c c'. induction 1 as [c|c1 c2 c3 Hstep _ IH]; [done|]. intros Hc Hall.
  assert (rtc guar c1.1 c2.1 ∧ Forall (safe c2.1) c2.2) as [Hg Hall2].
  { destruct Hstep as [s1 ts1 m Hm|s1 s2 ts1 i m m' Hi Hstep]; cbn in *.
    - split; [done|]. apply Forall_app. auto.
    - inversion Hstep as [X q k s3 x s4 Hserve]; subst.
      pose proof (Forall_lookup_1 _ _ _ _ Hall Hi) as Hsafe. cbn in Hsafe.
      destruct (Hsafe s1 (rtc_refl _ _) x s2 Hserve) as [Hg Hk]. split; [done|].
      apply Forall_insert; [|done]. eapply Forall_impl; [done|].
      intros p. by apply safe_later. }
  assert (I c2.1) as Hc2.
  { clear -HI Hc Hg. induction Hg as [|x y z Hxy _ IH]; [done|]. apply IH. by eapply HI. }
  destruct (IH Hc2 Hall2) as [Hg' Hall']. split; [by trans c2.1|done].
Qed.

End Prog.
Arguments prog R A : clear implicits.
Arguments action R E A : clear implicits.
Arguments Ret {R A} a.
Arguments Call {R A X} q k.
