(* ===== verification/ObjectDb.v ===== *)
(** * ObjectDb: the in-memory object database

    [crates/schemahub-jj/src/object_db.rs] and [memory_db.rs]: content-addressed
    objects, per-repository operations and refs, and mutable resource records
    with compare-and-swap. SHA-256 is a parameter. The lock around the tables is
    never poisoned, because no critical section panics, so every operation is a
    function of the tables. *)
From S2P Require Import Prelude RustStd Prog.
From Stdlib Require Import Strings.Byte Ascii.

Open Scope Z_scope.

Inductive ObjectKind := File | Tree | Commit | Conflict | Symlink | View.

Definition kind_tag (k : ObjectKind) : Z :=
  match k with File => 0 | Tree => 1 | Commit => 2 | Conflict => 3 | Symlink => 4 | View => 5 end.

Lemma kind_tag_inj k k' : kind_tag k = kind_tag k' → k = k'.
Proof. by destruct k, k'. Qed.

Inductive ObjectDbError := DbNotFound | DbBackend (m : string).

Definition fmt_db_error (e : ObjectDbError) : string :=
  match e with
  | DbNotFound => "object not found"
  | DbBackend m => "database error: " +:+ m
  end.

(** The SHA-256 digest of a byte string. *)
Class Sha256 := sha256 : list byte → list byte.

(** [hex::encode]. *)
Class Hex := hex_encode : list byte → string.

(** Documented: two lowercase hexadecimal digits per byte. *)
Class HexLaws (H : Hex) : Prop := {
  hex_inj bs bs' : hex_encode bs = hex_encode bs' → bs = bs';
  hex_no_slash bs : contains_char "/" (hex_encode bs) = false;
}.

(** The tables; an object id is the list of its bytes. *)
Record Inner := mkInner {
  objects : gmap (Z * list byte) (list byte);
  ops : gmap string (gmap (list byte) (list byte));
  refs : gmap (string * string) (list byte);
  records : gmap (string * string) (list byte);
}.

Definition inner_default : Inner := mkInner ∅ ∅ ∅ ∅.

Definition with_objects (d : Inner) (o : gmap (Z * list byte) (list byte)) : Inner :=
  mkInner o (ops d) (refs d) (records d).
Definition with_ops (d : Inner) (o : gmap string (gmap (list byte) (list byte))) : Inner :=
  mkInner (objects d) o (refs d) (records d).
Definition with_refs (d : Inner) (r : gmap (string * string) (list byte)) : Inner :=
  mkInner (objects d) (ops d) r (records d).
Definition with_records (d : Inner) (r : gmap (string * string) (list byte)) : Inner :=
  mkInner (objects d) (ops d) (refs d) r.

(** [entry(key).or_insert(value)]. *)
Definition or_insert {K V} `{Countable K} (k : K) (v : V) (m : gmap K V) : gmap K V :=
  match m !! k with Some _ => m | None => <[k := v]> m end.

Section MemoryDb.
Context {SHA : Sha256} {HO : HashOrder}.

(** ** Objects *)

Definition hash (kind : ObjectKind) (bytes : list byte) : list byte :=
  sha256 (byte_of_Z (kind_tag kind) :: bytes).

Definition put_object (kind : ObjectKind) (bytes : list byte) (d : Inner) : list byte * Inner :=
  let id := hash kind bytes in
  (id, with_objects d (or_insert (kind_tag kind, id) bytes (objects d))).

Definition put_object_at (kind : ObjectKind) (id bytes : list byte) (d : Inner) : Inner :=
  with_objects d (or_insert (kind_tag kind, id) bytes (objects d)).

Definition get_object (kind : ObjectKind) (id : list byte) (d : Inner) :
    outcome ObjectDbError (list byte) :=
  ok_or (objects d !! (kind_tag kind, id)) DbNotFound.

Definition has_object (kind : ObjectKind) (id : list byte) (d : Inner) : bool :=
  bool_decide (is_Some (objects d !! (kind_tag kind, id))).

Definition list_objects (kind : ObjectKind) (d : Inner) : list (list byte) :=
  omap (λ '((tag, id), _), if tag =? kind_tag kind then Some id else None) (hash_iter (objects d)).

Definition delete_object (kind : ObjectKind) (id : list byte) (d : Inner) : Inner :=
  with_objects d (delete (kind_tag kind, id) (objects d)).

(** ** Operations *)

Definition repo_ops (repo : string) (d : Inner) : gmap (list byte) (list byte) :=
  default ∅ (ops d !! repo).

Definition put_op_at (repo : string) (id op_bytes : list byte) (d : Inner) : Inner :=
  with_ops d (<[repo := or_insert id op_bytes (repo_ops repo d)]> (ops d)).

Definition put_op (repo : string) (op_bytes : list byte) (d : Inner) : list byte * Inner :=
  let id := sha256 (as_bytes "op" ++ op_bytes) in (id, put_op_at repo id op_bytes d).

Definition get_op (repo : string) (id : list byte) (d : Inner) :
    outcome ObjectDbError (list byte) :=
  ok_or (m ← ops d !! repo; m !! id) DbNotFound.

Definition list_ops (repo : string) (d : Inner) : list (list byte) :=
  match ops d !! repo with Some m => (hash_iter m).*1 | None => [] end.

Definition list_repo_keys (d : Inner) : list string :=
  btree_set_iter (dom (ops d) ∪ set_map fst (dom (refs d))).

(** ** Refs *)

Definition set_ref (repo name : string) (value : list byte) (d : Inner) : Inner :=
  with_refs d (<[(repo, name) := value]> (refs d)).

Definition create_ref (repo name : string) (value : list byte) (d : Inner) : bool * Inner :=
  match refs d !! (repo, name) with
  | Some _ => (false, d)
  | None => (true, set_ref repo name value d)
  end.

Definition get_ref (repo name : string) (d : Inner) : option (list byte) := refs d !! (repo, name).

(** ** Records *)

Definition create_record (collection key : string) (value : list byte) (d : Inner) : bool * Inner :=
  match records d !! (collection, key) with
  | Some _ => (false, d)
  | None => (true, with_records d (<[(collection, key) := value]> (records d)))
  end.

(** The first loop of [create_records]: every key is new and absent. *)
Fixpoint keys_free (keys : gset (string * string)) (d : Inner)
    (l : list (string * string * list byte)) : bool :=
  match l with
  | [] => true
  | ((collection, key), _) :: l =>
    if bool_decide ((collection, key) ∈ keys)
       || bool_decide (is_Some (records d !! (collection, key))) then false
    else keys_free ({[ (collection, key) ]} ∪ keys) d l
  end.

Definition create_records (l : list (string * string * list byte)) (d : Inner) : bool * Inner :=
  if keys_free ∅ d l then
    (true, with_records d (foldl (λ m kv, <[kv.1 := kv.2]> m) (records d) l))
  else (false, d).

Definition get_record (collection key : string) (d : Inner) : option (list byte) :=
  records d !! (collection, key).

Definition list_records (collection : string) (d : Inner) : list (string * list byte) :=
  omap (λ '((c, key), value), if bool_decide (c = collection) then Some (key, value) else None)
    (hash_iter (records d)).

Definition compare_and_swap_record (collection key : string) (expected replacement : list byte)
    (d : Inner) : bool * Inner :=
  match records d !! (collection, key) with
  | None => (false, d)
  | Some current =>
    if bool_decide (current = expected)
    then (true, with_records d (<[(collection, key) := replacement]> (records d)))
    else (false, d)
  end.

Definition compare_and_delete_record (collection key : string) (expected : list byte)
    (d : Inner) : bool * Inner :=
  if bool_decide (records d !! (collection, key) = Some expected)
  then (true, with_records d (delete (collection, key) (records d)))
  else (false, d).

(** ** Content addressing *)

(** Every object stored under an id that [hash] gave has those bytes. *)
Definition content_addressed (d : Inner) : Prop :=
  ∀ kind id bytes, objects d !! (kind_tag kind, id) = Some bytes → id = hash kind bytes.

Lemma lookup_or_insert {K V} `{Countable K} (k : K) (v : V) (m : gmap K V) k' :
  or_insert k v m !! k' = if decide (k' = k) then Some (default v (m !! k)) else m !! k'.
Proof.
  unfold or_insert. destruct (m !! k) as [w|] eqn:E; case_decide; subst; simpl; try done.
  - by rewrite lookup_insert_eq.
  - by rewrite lookup_insert_ne.
Qed.

Lemma put_object_content_addressed kind bytes d :
  content_addressed d → content_addressed (put_object kind bytes d).2.
Proof.
  intros Hd kind' id bytes'. cbn [put_object snd objects with_objects]. rewrite lookup_or_insert.
  case_decide as Hk; [|apply Hd]. injection Hk as Hk ->. apply kind_tag_inj in Hk as ->.
  intros [= <-]. destruct (objects d !! (kind_tag kind, hash kind bytes)) as [w|] eqn:E; [|done].
  by apply Hd in E.
Qed.

(** In a content-addressed store whose hash has no collision on the bytes
    at hand, storing an object and reading it back under the returned id gives
    the bytes, every other object is untouched, and storing the same bytes again
    changes nothing. *)
Theorem put_get_object (kind : ObjectKind) (bytes : list byte) (d : Inner) :
  content_addressed d →
  (∀ bytes', hash kind bytes' = hash kind bytes → bytes' = bytes) →
  let '(id, d') := put_object kind bytes d in
  get_object kind id d' = Ok bytes ∧ has_object kind id d' = true ∧ content_addressed d' ∧
  (∀ kind' id', (kind', id') ≠ (kind, id) → get_object kind' id' d' = get_object kind' id' d) ∧
  put_object kind bytes d' = (id, d').
Proof.
  intros Hd Hinj. destruct (put_object kind bytes d) as [id d'] eqn:Hput.
  injection Hput as <- <-.
  assert (or_insert (kind_tag kind, hash kind bytes) bytes (objects d) !!
            (kind_tag kind, hash kind bytes) = Some bytes) as Hget.
  { rewrite lookup_or_insert, decide_True by done.
    destruct (objects d !! (kind_tag kind, hash kind bytes)) as [w|] eqn:E; [|done].
    apply Hd in E. cbn. f_equal. by apply Hinj. }
  split_and!.
  - unfold get_object. cbn [objects with_objects]. by rewrite Hget.
  - unfold has_object. cbn [objects with_objects]. rewrite Hget. by apply bool_decide_eq_true_2.
  - by apply (put_object_content_addressed kind bytes d).
  - intros kind' id' Hne. unfold get_object. cbn [objects with_objects].
    rewrite lookup_or_insert, decide_False; [done|]. intros [= Hk ->]. apply Hne.
    by apply kind_tag_inj in Hk as ->.
  - unfold put_object. cbn [objects with_objects]. f_equal. unfold with_objects. cbn.
    f_equal. unfold or_insert at 1. by rewrite Hget.
Qed.

(** ** Records as a compare-and-swap register *)

Lemma keys_free_true d l : ∀ keys,
  keys_free keys d l = true →
  NoDup l.*1 ∧ (∀ k, k ∈ l.*1 → k ∉ keys) ∧ (∀ k, k ∈ l.*1 → records d !! k = None).
Proof.
  induction l as [|[[c k] v] l IH]; intros keys; cbn [keys_free].
  - intros _. split_and!; [constructor|..]; by intros k ?%not_elem_of_nil.
  - destruct (bool_decide _ || bool_decide _) eqn:Hb; [done|]. intros Hl.
    apply orb_false_iff in Hb as [Hk%bool_decide_eq_false Hr%bool_decide_eq_false].
    destruct (IH _ Hl) as (Hd & Hnew & Habs). cbn. split_and!.
    + constructor; [|done]. intros Hin. apply (Hnew _ Hin). set_solver.
    + intros k' [->|Hin]%elem_of_cons; [done|]. pose proof (Hnew _ Hin). set_solver.
    + intros k' [->|Hin]%elem_of_cons; [by apply eq_None_not_Some|by apply Habs].
Qed.

Lemma keys_free_false d l : ∀ keys,
  keys_free keys d l = false →
  ¬ NoDup l.*1 ∨ (∃ k, k ∈ l.*1 ∧ k ∈ keys) ∨ (∃ k, k ∈ l.*1 ∧ is_Some (records d !! k)).
Proof.
  induction l as [|[[c k] v] l IH]; intros keys; cbn [keys_free]; [done|].
  destruct (bool_decide _ || bool_decide _) eqn:Hb; intros Hl.
  - right. apply orb_true_iff in Hb as [Hk%bool_decide_eq_true|Hr%bool_decide_eq_true];
      [left|right]; exists (c, k); split; try done; left.
  - destruct (IH _ Hl) as [Hd|[(k' & Hin & Hk')|(k' & Hin & Hk')]].
    + left. by intros [_ ?]%NoDup_cons.
    + apply elem_of_union in Hk' as [->%elem_of_singleton|Hk'].
      * left. by intros [? _]%NoDup_cons.
      * right; left. exists k'. split; [by right|done].
    + right; right. exists k'. split; [by right|done].
Qed.

Lemma keys_free_spec d l :
  keys_free ∅ d l = true ↔ NoDup l.*1 ∧ ∀ k, k ∈ l.*1 → records d !! k = None.
Proof.
  split; [intros (? & _ & ?)%keys_free_true; done|]. intros [Hd Hn].
  destruct (keys_free ∅ d l) eqn:Hf; [done|].
  apply keys_free_false in Hf as [?|[(k & _ & Hk)|(k & Hk & Hs)]]; [done|..].
  - by apply not_elem_of_empty in Hk.
  - rewrite (Hn k Hk) in Hs. by destruct Hs.
Qed.

(** [create_records] is all or nothing: it either finds every key new and
    distinct and stores every record, or it answers [false] and changes
    nothing. *)
Theorem create_records_atomic (l : list (string * string * list byte)) (d : Inner) :
  let '(created, d') := create_records l d in
  if created then
    NoDup l.*1 ∧ (∀ k, k ∈ l.*1 → records d !! k = None) ∧
    (∀ k v, (k, v) ∈ l → records d' !! k = Some v) ∧
    (∀ k, k ∉ l.*1 → records d' !! k = records d !! k)
  else d' = d ∧ (¬ NoDup l.*1 ∨ ∃ k, k ∈ l.*1 ∧ is_Some (records d !! k)).
Proof.
  unfold create_records. destruct (keys_free ∅ d l) eqn:Hfree.
  - apply keys_free_true in Hfree as (Hd & _ & Habs). split_and!; [done|done|..].
    + intros k v Hkv. by apply lookup_insert_all_in.
    + intros k Hk. by apply lookup_insert_all_out.
  - split; [done|]. apply keys_free_false in Hfree as [Hd|[(k & _ & Hk)|Hex]]; auto.
    by apply not_elem_of_empty in Hk.
Qed.

End MemoryDb.

(** ** Witness *)

(** A hash without collisions, to instantiate the parameter. *)
#[export] Instance identity_hash : Sha256 := λ bs, bs.

Lemma put_get_object_witness :
  let '(id, d') := put_object File [Byte.x01] inner_default in
  get_object File id d' = Ok [Byte.x01] ∧ has_object File id d' = true ∧ content_addressed d' ∧
  (∀ kind' id', (kind', id') ≠ (File, id) →
     get_object kind' id' d' = get_object kind' id' inner_default) ∧
  put_object File [Byte.x01] d' = (id, d').
Proof.
  apply (put_get_object File [Byte.x01] inner_default).
  - intros kind id bytes. cbn. by rewrite lookup_empty.
  - intros bytes' Hb. by injection Hb as ->.
Defined.

(** * The record requests of the object database

    The record methods of the trait [ObjectDb] that the durable stores call, as
    requests of [Prog], and the in-memory database of [ObjectDb] serving them. *)

Inductive db_req : Type → Type :=
  | DbCreateRecord (collection key : string) (value : list byte) : db_req (outcome ObjectDbError bool)
  | DbCreateRecords (l : list (string * string * list byte)) : db_req (outcome ObjectDbError bool)
  | DbGetRecord (collection key : string) : db_req (outcome ObjectDbError (option (list byte)))
  | DbListRecords (collection : string) :
    db_req (outcome ObjectDbError (list (string * list byte)))
  | DbCompareAndSwap (collection key : string) (expected replacement : list byte) :
    db_req (outcome ObjectDbError bool)
  | DbCompareAndDelete (collection key : string) (expected : list byte) :
    db_req (outcome ObjectDbError bool).

(** The database of [ObjectDb] serving one request. *)
Definition db_serve `{HashOrder} (X : Type) (q : db_req X) (d : Inner) : X * Inner :=
  match q in db_req X return X * Inner with
  | DbCreateRecord c k v => let '(b, d') := create_record c k v d in (Ok b, d')
  | DbCreateRecords l => let '(b, d') := create_records l d in (Ok b, d')
  | DbGetRecord c k => (Ok (get_record c k d), d)
  | DbListRecords c => (Ok (list_records c d), d)
  | DbCompareAndSwap c k e r => let '(b, d') := compare_and_swap_record c k e r d in (Ok b, d')
  | DbCompareAndDelete c k e => let '(b, d') := compare_and_delete_record c k e d in (Ok b, d')
  end.

(** Unfold a program over the database and run its pure steps. *)
Ltac run_db :=
  cbn [mbind action_bind prog_bind pure_step try_call interp db_serve map_err mret action_ret
       outcome_bind ok_or fail_if negb fst snd].

(** ** Lists of records *)

Section Records.
Context {HO : HashOrder}.

Lemma elem_of_list_records c d key bytes :
  (key, bytes) ∈ list_records c d ↔ get_record c key d = Some bytes.
Proof.
  unfold list_records, get_record. rewrite list_elem_of_omap. split.
  - intros ([[c' k] v] & Hin & Hkv). apply elem_of_hash_iter in Hin.
    destruct (bool_decide (c' = c)) eqn:E; [|done].
    apply bool_decide_eq_true in E. by simplify_eq.
  - intros Hb. exists ((c, key), bytes).
    split; [by apply elem_of_hash_iter|]. by rewrite bool_decide_eq_true_2.
Qed.

Lemma NoDup_list_records c d : NoDup (list_records c d).
Proof.
  apply NoDup_omap_inj.
  - rewrite hash_iter_perm. apply NoDup_map_to_list.
  - intros [[c' k] v] [[c'' k'] v'] b _ _. repeat case_bool_decide; intros; by simplify_eq.
Qed.

(** ** Programs that write to one collection *)

Definition writes_to (c : string) {X} (q : db_req X) : Prop :=
  match q with
  | DbCreateRecord c' _ _ => c' = c
  | DbCreateRecords l => Forall (λ kv, kv.1.1 = c) l
  | DbCompareAndSwap c' _ _ _ => c' = c
  | DbCompareAndDelete c' _ _ => c' = c
  | DbGetRecord _ _ | DbListRecords _ => True
  end.

Fixpoint confined (c : string) {A} (m : prog db_req A) : Prop :=
  match m with
  | Ret _ => True
  | Call q k => writes_to c q ∧ ∀ x, confined c (k x)
  end.

Lemma confined_bind c {A B} (m : prog db_req A) (f : A → prog db_req B) :
  confined c m → (∀ a, confined c (f a)) → confined c (prog_bind m f).
Proof. intros Hm Hf. induction m as [a|X q k IH]; cbn in *; naive_solver. Qed.

Lemma db_serve_frame c c' X (q : db_req X) d key :
  writes_to c q → c' ≠ c → get_record c' key (db_serve X q d).2 = get_record c' key d.
Proof.
  intros Hq Hc. unfold get_record.
  destruct q as [c0 k v|l|c0 k|c0|c0 k e r|c0 k e]; cbn [db_serve snd writes_to] in *; try done.
  - subst c0. unfold create_record. destruct (records d !! (c, k)); cbn; [done|].
    by rewrite lookup_insert_ne by congruence.
  - unfold create_records. destruct (keys_free ∅ d l); cbn; [|done].
    apply lookup_insert_all_out. intros (e & He & Hin)%list_elem_of_fmap.
    rewrite Forall_forall in Hq. apply Hq in Hin. rewrite <- He in Hin. done.
  - subst c0. unfold compare_and_swap_record. destruct (records d !! (c, k)) as [b|]; cbn; [|done].
    destruct (bool_decide (b = e)); cbn; [|done]. by rewrite lookup_insert_ne by congruence.
  - subst c0. unfold compare_and_delete_record. case_bool_decide; cbn; [|done].
    by rewrite lookup_delete_ne by congruence.
Qed.

Lemma confined_frame c c' {A} (m : prog db_req A) d key :
  confined c m → c' ≠ c → get_record c' key (interp db_serve m d).2 = get_record c' key d.
Proof.
  intros Hm Hc. revert d. induction m as [a|X q k IH]; intros d; [done|].
  destruct Hm as [Hq Hk]. cbn [interp]. pose proof (db_serve_frame c c' X q d key Hq Hc) as Hf.
  destruct (db_serve X q d) as [x d']. cbn [snd] in Hf. rewrite <- Hf. by apply IH.
Qed.

End Records.

(** Unfold [confined] along a program. *)
Ltac confine :=
  cbn [confined writes_to mbind action_bind prog_bind pure_step try_call map_err mret action_ret
       outcome_bind ok_or fail_if negb].
