(* ===== verification/RecordStore.v ===== *)
(** * RecordStore: resources with etags, in memory and over the database

    The change-record, repository and project stores of [crates/schemahub-core]
    keep one kind of resource each, under a key, with an etag [v1], [v2], ...
    that [replace] compares and bumps. This file has the operations they share,
    in memory and as programs over the database, and proves once that the second
    implement the first. Each store states its own operations and instantiates
    these results. *)
From S2P Require Import Prelude RustStd Prog ObjectDb.
From Stdlib Require Import Strings.Byte.

Open Scope Z_scope.

(** The version number of a stored etag and the etag of a version. *)
Definition etag_version (etag : string) : option Z := strip_prefix "v" etag ≫= parse_u64.
Definition version_etag (v : Z) : string := "v" +:+ fmt_Z v.

(** A kind of resource: where it is stored, how it is written (the derived
    [serde_json] functions), and the errors of its store. *)
Class Resource (T E : Type) := {
  res_collection : string;
  res_key : T → string;
  res_etag : T → string;
  res_with_etag : T → string → T;
  res_to_vec : T → outcome string (list byte);
  res_from_slice : list byte → outcome string T;
  (** The words of the error messages: [encode <noun>], [invalid stored <etag>]. *)
  res_noun : string;
  res_etag_noun : string;
  (** The order of [list]. *)
  res_le : relation T;
  res_le_dec : RelDecision res_le;
  (** What the store assumes of its resources. *)
  res_wf : T → Prop;
  err_exists : string → E;
  err_missing : string → E;
  err_mismatch : string → string → string → E;
  err_backend : string → E;
}.
#[export] Existing Instance res_le_dec.

Class ResourceLaws {T E} (R : Resource T E) : Prop := {
  (** Documented behaviour of [serde_json]: what it writes it reads back. *)
  res_roundtrip r : ∃ bs, res_to_vec r = Ok bs ∧ res_from_slice bs = Ok r;
  res_key_with_etag r e : res_key (res_with_etag r e) = res_key r;
  res_wf_with_etag r e : res_wf r → res_wf (res_with_etag r e);
  res_le_trans : Transitive res_le;
  res_le_total : Total res_le;
}.

Section RecordStore.
Context {T E : Type} {R : Resource T E} {RF : RustFmt}.

Abbreviation table := (gmap string T).

(** ** In memory *)

Definition mem_create (r : T) (s : table) : outcome E T * table :=
  match s !! res_key r with
  | Some _ => (Err (err_exists (res_key r)), s)
  | None => let r := res_with_etag r "v1" in (Ok r, <[res_key r := r]> s)
  end.

Definition mem_list (sel : T → bool) (s : table) : list T :=
  merge_sort res_le (List.filter sel (btree_iter s).*2).

Definition mem_replace (expected_etag : string) (r : T) (s : table) : outcome E T * table :=
  match s !! res_key r with
  | None => (Err (err_missing (res_key r)), s)
  | Some current =>
    if negb (bool_decide (res_etag current = expected_etag)) then
      (Err (err_mismatch (res_key r) expected_etag (res_etag current)), s)
    else
      match etag_version (res_etag current) with
      | None => (Err (err_backend ("invalid stored " +:+ res_etag_noun +:+ ": " +:+ res_etag current)), s)
      | Some version =>
        let r := res_with_etag r (version_etag (wrap_u64 (version + 1))) in
        (Ok r, <[res_key r := r]> s)
      end
  end.

(** ** Over the database *)

Abbreviation db_action := (action db_req E).

Definition db_encode (r : T) : outcome E (list byte) :=
  map_err (λ e, err_backend ("encode " +:+ res_noun +:+ ": " +:+ e)) (res_to_vec r).

Definition db_decode (bs : list byte) : outcome E T :=
  map_err (λ e, err_backend ("decode " +:+ res_noun +:+ ": " +:+ e)) (res_from_slice bs).

Definition db_error (e : ObjectDbError) : E := err_backend (fmt_db_error e).

Definition db_create (r : T) : db_action T :=
  let r := res_with_etag r "v1" in
  bytes ← pure_step (db_encode r);
  inserted ← try_call db_error (DbCreateRecord res_collection (res_key r) bytes);
  if inserted : bool then mret r else pure_step (Err (err_exists (res_key r))).

Definition db_get (key : string) : db_action (option T) :=
  found ← try_call db_error (DbGetRecord res_collection key);
  match found with
  | None => mret None
  | Some bytes => r ← pure_step (db_decode bytes); mret (Some r)
  end.

(** The loop of [list]. *)
Definition db_decode_all (sel : T → bool) : list (string * list byte) → outcome E (list T) :=
  fix go l := match l with
  | [] => Ok []
  | (key, bytes) :: l =>
    r ← db_decode bytes;
    _ ← fail_if (negb (bool_decide (res_key r = key)))
          (err_backend (res_noun +:+ " key/name mismatch: key=" +:+ debug_str key +:+ ", name=" +:+
                        debug_str (res_key r)));
    found ← go l;
    Ok (if sel r then r :: found else found)
  end.

Definition db_list (sel : T → bool) : db_action (list T) :=
  entries ← try_call db_error (DbListRecords res_collection);
  found ← pure_step (db_decode_all sel entries);
  mret (merge_sort res_le found).

(** What a store does when another writer came first. *)
Definition db_lost (expected_etag : string) (r : T) : db_action T :=
  found ← try_call db_error (DbGetRecord res_collection (res_key r));
  bytes ← pure_step (ok_or found (err_missing (res_key r)));
  latest ← pure_step (db_decode bytes);
  pure_step (Err (err_mismatch (res_key r) expected_etag (res_etag latest))).

(** [lost] is what the store does when another writer came first. *)
Definition db_replace (lost : T → db_action T) (expected_etag : string) (r : T) : db_action T :=
  found ← try_call db_error (DbGetRecord res_collection (res_key r));
  current_bytes ← pure_step (ok_or found (err_missing (res_key r)));
  current ← pure_step (db_decode current_bytes);
  _ ← pure_step (fail_if (negb (bool_decide (res_etag current = expected_etag)))
                   (err_mismatch (res_key r) expected_etag (res_etag current)));
  version ← pure_step (ok_or (etag_version (res_etag current))
              (err_backend ("invalid stored " +:+ res_etag_noun +:+ ": " +:+ res_etag current)));
  let r := res_with_etag r (version_etag (wrap_u64 (version + 1))) in
  replacement ← pure_step (db_encode r);
  replaced ← try_call db_error (DbCompareAndSwap res_collection (res_key r) current_bytes replacement);
  if replaced : bool then mret r else lost r.

(** ** The database stands for a table *)

(** Every resource is stored under its own key. *)
Definition keys_agree (s : table) : Prop := ∀ k r, s !! k = Some r → res_key r = k ∧ res_wf r.

Definition db_represents (d : Inner) (s : table) : Prop :=
  keys_agree s ∧
  ∀ key, match get_record res_collection key d with
         | Some bytes => ∃ r, res_from_slice bytes = Ok r ∧ s !! key = Some r
         | None => s !! key = None
         end.

Lemma db_represents_Some d s key r :
  db_represents d s → s !! key = Some r →
  ∃ bytes, get_record res_collection key d = Some bytes ∧ res_from_slice bytes = Ok r.
Proof.
  intros [_ Hrep] Hr. specialize (Hrep key).
  destruct (get_record res_collection key d) as [bytes|]; [|congruence].
  destruct Hrep as (r' & Hb & Hr'). exists bytes. split; [done|]. congruence.
Qed.

Lemma db_represents_None d s key :
  db_represents d s → s !! key = None → get_record res_collection key d = None.
Proof.
  intros [_ Hrep] Hr. specialize (Hrep key).
  destruct (get_record res_collection key d) as [bytes|]; [|done].
  destruct Hrep as (r' & _ & Hr'). congruence.
Qed.

Lemma db_represents_insert d s r bytes :
  db_represents d s → res_from_slice bytes = Ok r → res_wf r →
  db_represents (with_records d (<[(res_collection, res_key r) := bytes]> (records d)))
    (<[res_key r := r]> s).
Proof.
  intros [Hn Hrep] Hb Hwf. split.
  - intros n r'. rewrite lookup_insert. case_decide; [intros [= <-]; by subst|apply Hn].
  - intros key. unfold get_record. cbn [records with_records]. rewrite lookup_insert.
    case_decide as Hk.
    + injection Hk as <-. exists r. by rewrite lookup_insert_eq.
    + rewrite lookup_insert_ne by congruence. apply Hrep.
Qed.

(** Writes to other collections are not seen. *)
Lemma db_represents_frame d s d' :
  (∀ key, get_record res_collection key d' = get_record res_collection key d) →
  db_represents d s → db_represents d' s.
Proof. intros Hd [Hn Hrep]. split; [done|]. intros key. rewrite Hd. apply Hrep. Qed.

Lemma db_represents_empty : db_represents inner_default ∅.
Proof. split; [by intros k r|]. intros key. unfold get_record. cbn. by rewrite lookup_empty. Qed.

(** ** Listing *)

Context {HO : HashOrder}.

(** The entries of the collection, decoded. *)
Definition decode_entry (kb : string * list byte) : option (string * T) :=
  match res_from_slice kb.2 with Ok r => Some (kb.1, r) | _ => None end.

Lemma decoded_entries d s :
  db_represents d s → omap decode_entry (list_records res_collection d) ≡ₚ map_to_list s.
Proof.
  intros Hrep. apply NoDup_Permutation; [|apply NoDup_map_to_list|].
  - apply NoDup_omap_inj; [apply NoDup_list_records|].
    intros [k b] [k' b'] [n r] Hk%elem_of_list_records Hk'%elem_of_list_records.
    unfold decode_entry. cbn [fst snd]. intros H1 H2.
    destruct (res_from_slice b), (res_from_slice b'); by simplify_eq.
  - intros [k r]. rewrite elem_of_map_to_list, list_elem_of_omap. split.
    + intros ([k' b] & Hb%elem_of_list_records & Hdec). unfold decode_entry in Hdec. cbn in Hdec.
      destruct (res_from_slice b) eqn:He; simplify_eq.
      destruct Hrep as [_ Hrep]. specialize (Hrep k). rewrite Hb in Hrep.
      destruct Hrep as (r' & Hr' & Hs). congruence.
    + intros Hr. destruct (db_represents_Some _ _ _ _ Hrep Hr) as (b & Hb & Hdec).
      exists (k, b). rewrite elem_of_list_records. unfold decode_entry. cbn. by rewrite Hdec.
Qed.

Lemma db_decode_all_entries sel l :
  (∀ k b, (k, b) ∈ l → ∃ r, res_from_slice b = Ok r ∧ res_key r = k) →
  db_decode_all sel l = Ok (List.filter sel (omap decode_entry l).*2).
Proof.
  induction l as [|[k b] l IH]; intros Hl; [done|]. simpl db_decode_all.
  destruct (Hl k b) as (r & Hb & Hr); [left|]. unfold db_decode. rewrite Hb.
  cbn [map_err mbind outcome_bind]. rewrite bool_decide_eq_true_2 by done.
  cbn [negb fail_if mbind outcome_bind].
  fold (db_decode_all sel). rewrite IH by (intros k' b' Hin; apply Hl; by right). cbn [mbind outcome_bind].
  assert (decode_entry (k, b) = Some (k, r)) as He by (unfold decode_entry; cbn; by rewrite Hb).
  simpl. rewrite He. simpl. by destruct (sel r).
Qed.

(** A filter that selects resources on which the order of [list] is
    antisymmetric up to their keys. *)
Definition list_order_ok (sel : T → bool) : Prop :=
  ∀ a b, res_wf a → res_wf b → sel a = true → sel b = true →
         res_le a b → res_le b a → res_key a = res_key b.

Context {RL : ResourceLaws R}.

Lemma db_list_entries sel d s :
  list_order_ok sel → db_represents d s →
  merge_sort res_le (List.filter sel (omap decode_entry (list_records res_collection d)).*2) =
  mem_list sel s.
Proof.
  intros Hsel Hrep.
  assert ((omap decode_entry (list_records res_collection d)).*2 ≡ₚ (btree_iter s).*2) as Hp.
  { rewrite (decoded_entries d s Hrep). unfold btree_iter. by rewrite merge_sort_Permutation. }
  apply (@merge_sort_unique _ _ _ res_le_trans res_le_total); [|by apply bool_filter_Permutation].
  assert (∀ a, a ∈ List.filter sel (omap decode_entry (list_records res_collection d)).*2 →
            s !! res_key a = Some a ∧ res_wf a ∧ sel a = true) as Hin.
  { intros a [Ha Hs]%elem_of_bool_filter. rewrite Hp in Ha.
    apply list_elem_of_fmap in Ha as ([k r] & -> & Hr%elem_of_btree_iter).
    destruct Hrep as [Hn _]. destruct (Hn _ _ Hr) as [<- ?]. done. }
  intros a b (Ha & Hwa & Hsa)%Hin (Hb & Hwb & Hsb)%Hin Hab Hba.
  rewrite (Hsel a b) in Ha by done. congruence.
Qed.

(** ** The durable operations implement the ones in memory *)

Lemma db_create_refines r d s :
  res_wf r → db_represents d s →
  let '(x, d') := interp db_serve (db_create r) d in
  ∃ s', mem_create r s = (x, s') ∧ db_represents d' s'.
Proof.
  intros Hwf Hrep. unfold db_create, mem_create. cbv zeta.
  destruct (res_roundtrip (res_with_etag r "v1")) as (bs & Henc & Hdec).
  unfold db_encode. rewrite Henc. run_db. unfold create_record. rewrite res_key_with_etag.
  destruct (s !! res_key r) as [r0|] eqn:Hr.
  - destruct (db_represents_Some _ _ _ _ Hrep Hr) as (b & Hb & _).
    unfold get_record in Hb. rewrite Hb. run_db. eauto.
  - pose proof (db_represents_None _ _ _ Hrep Hr) as Hb. unfold get_record in Hb. rewrite Hb. run_db.
    eexists. split; [done|]. rewrite <- (res_key_with_etag r "v1").
    apply db_represents_insert; [done..|by apply res_wf_with_etag].
Qed.

Lemma db_get_refines key d s :
  db_represents d s → interp db_serve (db_get key) d = (Ok (s !! key), d).
Proof.
  intros Hrep. unfold db_get. run_db.
  destruct (s !! key) as [r|] eqn:Hr.
  - destruct (db_represents_Some _ _ _ _ Hrep Hr) as (b & Hb & Hdec). rewrite Hb. run_db.
    unfold db_decode. rewrite Hdec. done.
  - rewrite (db_represents_None _ _ _ Hrep Hr). done.
Qed.

Lemma db_list_refines sel d s :
  list_order_ok sel → db_represents d s →
  interp db_serve (db_list sel) d = (Ok (mem_list sel s), d).
Proof.
  intros Hsel Hrep. unfold db_list. run_db.
  rewrite db_decode_all_entries; [run_db; by rewrite (db_list_entries sel d s)|].
  intros k b Hb%elem_of_list_records. pose proof Hrep as [Hn Hr]. specialize (Hr k).
  rewrite Hb in Hr. destruct Hr as (r & Hdec & Hr). exists r. split; [done|]. by apply Hn.
Qed.

Lemma db_replace_refines lost e r d s :
  res_wf r → db_represents d s →
  let '(x, d') := interp db_serve (db_replace lost e r) d in
  ∃ s', mem_replace e r s = (x, s') ∧ db_represents d' s'.
Proof.
  intros Hwf Hrep. unfold db_replace, mem_replace. run_db.
  destruct (s !! res_key r) as [cur|] eqn:Hr.
  2:{ rewrite (db_represents_None _ _ _ Hrep Hr). run_db. eauto. }
  destruct (db_represents_Some _ _ _ _ Hrep Hr) as (b & Hb & Hdec). rewrite Hb. run_db.
  unfold db_decode at 1. rewrite Hdec. run_db.
  destruct (bool_decide (res_etag cur = e)); run_db; [|eauto].
  destruct (etag_version (res_etag cur)) as [version|]; run_db; [|eauto]. cbv zeta.
  set (r' := res_with_etag r (version_etag (wrap_u64 (version + 1)))).
  assert (res_key r' = res_key r) as Hk by apply res_key_with_etag.
  destruct (res_roundtrip r') as (bs & Henc & Hdec').
  unfold db_encode. rewrite Henc. run_db. unfold compare_and_swap_record.
  unfold get_record in Hb. rewrite Hk, Hb. rewrite bool_decide_eq_true_2 by done. run_db.
  eexists. split; [done|]. rewrite <- Hk.
  apply db_represents_insert; [done..|by apply res_wf_with_etag].
Qed.

(** A [replace] writes to its own collection only. *)
Lemma db_replace_confined lost e r :
  (∀ r, confined res_collection (lost r)) → confined res_collection (db_replace lost e r).
Proof.
  intros Hlost. unfold db_replace. confine. split; [done|].
  intros [[bytes|]| | |]; confine; try done. destruct (db_decode bytes) as [cur| | |]; confine; try done.
  destruct (bool_decide (res_etag cur = e)); confine; [|done].
  destruct (etag_version (res_etag cur)) as [v|]; confine; [|done].
  destruct (db_encode _); confine; try done. split; [done|]. by intros [[]| | |]; confine; auto.
Qed.

End RecordStore.
