(* ===== verification/Idempotency.v ===== *)
(** * Idempotency: durable receipts of write requests

    The store of [crates/schemahub-core/src/mutation/idempotency.rs]: a request
    claims a receipt before its write, the receipt is completed with the
    response, and a retry with the same key finds it. Every method is a program
    of requests to the object database, the clock and the id generator. The
    flow around the jj write is in [Flow]. *)
From S2P Require Import Prelude RustStd SchemaTypes ChangeModel Prog ObjectDb.
From Stdlib Require Import Strings.Byte Ascii.

Open Scope Z_scope.

(** ** Constants *)

Definition IDEMPOTENCY_COLLECTION : string := "schemahub.idempotency.v1".
Definition LOCK_COLLECTION : string := "schemahub.idempotency.locks.v1".
Definition CAPACITY_LOCK_KEY : string := "capacity".
Definition RECORD_ATTRIBUTE : string := "schemahub.idempotency_record".
Definition ATTEMPT_ATTRIBUTE : string := "schemahub.idempotency_attempt".
Definition IDEM_CAS_RETRIES : nat := 8.

Definition DEFAULT_MAX_ENTRIES : nat := 1024.
Definition DEFAULT_TTL_HOURS : Z := 24.
Definition DEFAULT_TTL_MS : Z := DEFAULT_TTL_HOURS * 60 * 60 * 1000.
Definition DEFAULT_LEASE_MS : Z := 30000.
Definition PENDING_RETENTION_MS : Z := 7 * 24 * 60 * 60 * 1000.

(** ** Data *)

(** [MutationResponse] of [request.rs]. *)
Record MutationResponse := mkMutationResponse {
  mr_commit_id : string;
  mr_change_id : string;
  mr_conflicted_decls : list string;
}.

#[export] Instance MutationResponse_eq_dec : EqDecision MutationResponse.
Proof. solve_decision. Defined.

Inductive IdempotencyError :=
  | IdemInvalidArgument (m : string)
  | InProgress (m : string)
  | KeyReuse (m : string)
  | Capacity
  | IdemBackend (m : string).

Record IdempotencyAttempt := mkAttempt {
  ia_record_key : string;
  ia_attempt_id : string;
  ia_fingerprint : string;
}.

Definition attempt_attributes (a : IdempotencyAttempt) : gmap string string :=
  {[ RECORD_ATTRIBUTE := ia_record_key a; ATTEMPT_ATTRIBUTE := ia_attempt_id a ]}.

Inductive IdempotencyAcquisition :=
  | AcqDisabled
  | AcqComplete (response : MutationResponse)
  | AcqAcquired (attempt : IdempotencyAttempt)
  | AcqObserved (attempt : IdempotencyAttempt).

Inductive IdempotencyObservation :=
  | ObsDisabled
  | ObsMissing
  | ObsComplete (response : MutationResponse)
  | ObsPending (attempt : IdempotencyAttempt) (lease_live : bool).

Record IdempotencyRecord := mkIdempotencyRecord {
  ir_version : Z;
  ir_record_key : string;
  ir_scope : string;
  ir_fingerprint : string;
  ir_attempt_id : string;
  ir_lease_expires_at_unix_ms : Z;
  ir_create_time_unix_ms : Z;
  ir_update_time_unix_ms : Z;
  ir_completion_time_unix_ms : option Z;
  ir_response : option MutationResponse;
}.

Record CapacityLock := mkCapacityLock {
  cl_owner : string;
  cl_expires_at_unix_ms : Z;
}.

(** [IdempotencyStore], without the database it talks to. *)
Record IdempotencyStore := mkIdempotencyStore {
  max_entries : nat;
  ttl_ms : Z;
  lease_ms : Z;
}.

Definition idempotency_store_default : IdempotencyStore :=
  mkIdempotencyStore DEFAULT_MAX_ENTRIES DEFAULT_TTL_MS DEFAULT_LEASE_MS.

(** The record with a new lease, and the record with its response. *)
Definition ir_with_lease (r : IdempotencyRecord) (expires now : Z) : IdempotencyRecord :=
  mkIdempotencyRecord (ir_version r) (ir_record_key r) (ir_scope r) (ir_fingerprint r) (ir_attempt_id r)
    expires (ir_create_time_unix_ms r) now (ir_completion_time_unix_ms r) (ir_response r).

Definition ir_with_response (r : IdempotencyRecord) (response : MutationResponse) (now : Z) :
    IdempotencyRecord :=
  mkIdempotencyRecord (ir_version r) (ir_record_key r) (ir_scope r) (ir_fingerprint r) (ir_attempt_id r)
    0 (ir_create_time_unix_ms r) now (Some now) (Some response).

Definition attempt_of (r : IdempotencyRecord) : IdempotencyAttempt :=
  mkAttempt (ir_record_key r) (ir_attempt_id r) (ir_fingerprint r).

(** The derived [serde_json] functions. *)
Class IdempotencyJson := {
  receipt_to_vec : IdempotencyRecord → outcome string (list byte);
  receipt_from_slice : list byte → outcome string IdempotencyRecord;
  lock_to_vec : CapacityLock → outcome string (list byte);
  lock_from_slice : list byte → outcome string CapacityLock;
}.

Class IdempotencyJsonLaws (J : IdempotencyJson) : Prop := {
  receipt_json_roundtrip r : ∃ bs, receipt_to_vec r = Ok bs ∧ receipt_from_slice bs = Ok r;
  lock_json_roundtrip l : ∃ bs, lock_to_vec l = Ok bs ∧ lock_from_slice bs = Ok l;
}.

(** ** Requests *)

Inductive idem_req : Type → Type :=
  | IdemDb {X : Type} (q : db_req X) : idem_req X
  | IdemNow : idem_req (outcome IdempotencyError Z)
  | IdemUuid : idem_req string.

Abbreviation idem := (action idem_req IdempotencyError).

Definition idem_map_db (e : ObjectDbError) : IdempotencyError := IdemBackend (fmt_db_error e).
Definition on_db {A} (q : db_req (outcome ObjectDbError A)) : idem A := try_call idem_map_db (IdemDb q).
Definition idem_now : idem Z := Call IdemNow Ret.
Definition new_uuid : idem string := Call IdemUuid (λ id, Ret (Ok id)).

(** ** Keys, fingerprints and validation *)

Section Keys.
Context {SH : Sha256} {HX : Hex}.

Definition record_key (scope client_key : string) : string :=
  hex_encode (sha256 (as_bytes "schemahub-idempotency-key-v1" ++ [x00] ++ as_bytes scope ++ [x00] ++
                      as_bytes client_key)).

(** [u64::to_be_bytes]. *)
Definition to_be_bytes (n : Z) : list byte :=
  (λ i, byte_of_Z (Z.shiftr n (8 * Z.of_nat i) mod 256)) <$> [7; 6; 5; 4; 3; 2; 1; 0]%nat.

(** A [FingerprintBuilder] is the input of its hasher. *)
Definition fingerprint_update (hasher bytes : list byte) : list byte :=
  hasher ++ to_be_bytes (wrap_u64 (Z.of_nat (length bytes))) ++ bytes.

Definition fingerprint_new (kind : string) : list byte :=
  fingerprint_update (as_bytes "schemahub-idempotency-fingerprint-v1") (as_bytes kind).

Definition fingerprint_finish (hasher : list byte) : string :=
  "sha256:" +:+ hex_encode (sha256 hasher).

End Keys.

Definition validate_input (scope key fingerprint : string) : outcome IdempotencyError unit :=
  _ ← fail_if (str_is_empty scope || (512 <? str_len scope) || has_control scope)
        (IdemInvalidArgument "scope must be 1-512 characters without control characters");
  _ ← fail_if (str_is_empty key || (512 <? str_len key) || has_control key)
        (IdemInvalidArgument "key must be 1-512 characters without control characters");
  fail_if (negb (starts_with "sha256:" fingerprint) || negb (str_len fingerprint =? 71))
    (IdemInvalidArgument "fingerprint must be a sha256 digest").

Definition validate_existing (record : IdempotencyRecord) (record_key scope fingerprint : string) :
    outcome IdempotencyError unit :=
  _ ← fail_if (negb (ir_version record =? 1) || negb (bool_decide (ir_record_key record = record_key))
               || negb (bool_decide (ir_scope record = scope)))
        (IdemBackend ("idempotency record " +:+ record_key +:+ " has inconsistent identity"));
  fail_if (negb (bool_decide (ir_fingerprint record = fingerprint))) (KeyReuse record_key).

Definition is_expired (record : IdempotencyRecord) (now completed_ttl_ms : Z) :
    outcome IdempotencyError bool :=
  match ir_response record, ir_completion_time_unix_ms record with
  | Some _, Some completed => Ok (completed_ttl_ms <=? saturating_sub_i64 now completed)
  | None, None =>
    Ok (PENDING_RETENTION_MS <=? saturating_sub_i64 now (ir_create_time_unix_ms record))
  | _, _ => Err (IdemBackend ("idempotency record " +:+ ir_record_key record +:+
                              " has inconsistent completion state"))
  end.

(** ** The store *)

Section Store.
Context {J : IdempotencyJson} {SH : Sha256} {HX : Hex} {RF : RustFmt}.

Definition idem_encode (r : IdempotencyRecord) : outcome IdempotencyError (list byte) :=
  map_err (λ e, IdemBackend ("encode record: " +:+ e)) (receipt_to_vec r).
Definition idem_decode (bs : list byte) : outcome IdempotencyError IdempotencyRecord :=
  map_err (λ e, IdemBackend ("decode record: " +:+ e)) (receipt_from_slice bs).

Definition lease_overflow (message : string) (now duration : Z) : outcome IdempotencyError Z :=
  ok_or (checked_add_i64 now duration) (IdemBackend message).

(** [acquire_capacity_guard]; the guard is the bytes of the lock it wrote. *)
Fixpoint acquire_guard_loop (rounds : nat) : idem (list byte) :=
  match rounds with
  | O => pure_step (Err (InProgress "capacity reservation"))
  | S rounds =>
    now ← idem_now;
    owner ← new_uuid;
    expires ← pure_step (lease_overflow "lock timestamp overflow" now DEFAULT_LEASE_MS);
    replacement ← pure_step (map_err (λ e, IdemBackend ("encode capacity lock: " +:+ e))
                               (lock_to_vec (mkCapacityLock owner expires)));
    current ← on_db (DbGetRecord LOCK_COLLECTION CAPACITY_LOCK_KEY);
    match current with
    | None =>
      created ← on_db (DbCreateRecord LOCK_COLLECTION CAPACITY_LOCK_KEY replacement);
      if created : bool then mret replacement else acquire_guard_loop rounds
    | Some current =>
      existing ← pure_step (map_err (λ e, IdemBackend ("decode capacity lock: " +:+ e))
                              (lock_from_slice current));
      if cl_expires_at_unix_ms existing <=? now then
        swapped ← on_db (DbCompareAndSwap LOCK_COLLECTION CAPACITY_LOCK_KEY current replacement);
        if swapped : bool then mret replacement else acquire_guard_loop rounds
      else acquire_guard_loop rounds
    end
  end.

Definition acquire_capacity_guard : idem (list byte) := acquire_guard_loop IDEM_CAS_RETRIES.

(** A block that holds the guard: however it is left, the guard is dropped, and
    a failure to delete the lock is ignored. *)
Definition with_guard {A} (bytes : list byte) (block : idem A) : idem A :=
  prog_bind block (λ r, Call (IdemDb (DbCompareAndDelete LOCK_COLLECTION CAPACITY_LOCK_KEY bytes))
                          (λ _, Ret r)).

(** The first loop of [prune_with_reserve]: the number of deleted receipts and
    the receipts that are not expired. *)
Fixpoint prune_expired (st : IdempotencyStore) (now : Z) (l : list (string * list byte)) :
    idem (nat * list (string * list byte * IdempotencyRecord)) :=
  match l with
  | [] => mret (0%nat, [])
  | (key, bytes) :: l =>
    record ← pure_step (idem_decode bytes);
    expired ← pure_step (is_expired record now (ttl_ms st));
    if expired : bool then
      deleted ← on_db (DbCompareAndDelete IDEMPOTENCY_COLLECTION key bytes);
      rest ← prune_expired st now l;
      mret (((if deleted : bool then 1 else 0) + rest.1)%nat, rest.2)
    else
      rest ← prune_expired st now l;
      mret (rest.1, (key, bytes, record) :: rest.2)
  end.

(** The order in which completed receipts are evicted. *)
Definition receipt_le (a b : string * list byte * IdempotencyRecord) : Prop :=
  let ta := ir_completion_time_unix_ms a.2 in
  let tb := ir_completion_time_unix_ms b.2 in
  match ta, tb with
  | None, Some _ => True
  | Some _, None => False
  | None, None => String.le a.1.1 b.1.1
  | Some x, Some y => x < y ∨ (x = y ∧ String.le a.1.1 b.1.1)
  end.

#[export] Instance receipt_le_dec : RelDecision receipt_le.
Proof. intros a b. unfold receipt_le. repeat case_match; apply _. Defined.

(** The second loop of [prune_with_reserve]: how many were deleted, and what is
    left of the excess. *)
Fixpoint evict (excess : nat) (l : list (string * list byte * IdempotencyRecord)) : idem (nat * nat) :=
  match l with
  | [] => mret (0%nat, excess)
  | (key, bytes, _) :: l =>
    match excess with
    | O => mret (0%nat, O)
    | S fewer =>
      deleted ← on_db (DbCompareAndDelete IDEMPOTENCY_COLLECTION key bytes);
      if deleted : bool then
        rest ← evict fewer l;
        mret (S rest.1, rest.2)
      else evict excess l
    end
  end.

Definition prune_with_reserve (st : IdempotencyStore) (reserve : nat) : idem nat :=
  now ← idem_now;
  entries ← on_db (DbListRecords IDEMPOTENCY_COLLECTION);
  pruned ← prune_expired st now entries;
  let '(deleted, records) := (pruned : nat * list (string * list byte * IdempotencyRecord)) in
  let target := (max_entries st - reserve)%nat in
  if (target <? length records)%nat then
    let completed :=
      merge_sort receipt_le (List.filter (λ r, is_some (ir_response r.2)) records) in
    evicted ← evict (length records - target) completed;
    let '(more, excess) := (evicted : nat * nat) in
    _ ← pure_step (fail_if (0 <? excess)%nat Capacity);
    mret (deleted + more)%nat
  else mret deleted.

Definition prune (st : IdempotencyStore) : idem nat := prune_with_reserve st 0.

Fixpoint acquire_idem_loop (rounds : nat) (st : IdempotencyStore) (scope key fingerprint : string) :
    idem IdempotencyAcquisition :=
  match rounds with
  | O => pure_step (Err (InProgress key))
  | S rounds =>
    now ← idem_now;
    found ← on_db (DbGetRecord IDEMPOTENCY_COLLECTION key);
    match found with
    | None =>
      guard ← acquire_capacity_guard;
      claimed ← with_guard guard (
        again ← on_db (DbGetRecord IDEMPOTENCY_COLLECTION key);
        if is_some again then mret None else
        _ ← prune_with_reserve st 1;
        id ← new_uuid;
        expires ← pure_step (lease_overflow "lease timestamp overflow" now (lease_ms st));
        let record := mkIdempotencyRecord 1 key scope fingerprint id expires now now None None in
        bytes ← pure_step (idem_encode record);
        created ← on_db (DbCreateRecord IDEMPOTENCY_COLLECTION key bytes);
        mret (if created : bool then Some (AcqAcquired (attempt_of record)) else None));
      match (claimed : option IdempotencyAcquisition) with
      | Some acquisition => mret acquisition
      | None => acquire_idem_loop rounds st scope key fingerprint
      end
    | Some current_bytes =>
      record ← pure_step (idem_decode current_bytes);
      _ ← pure_step (validate_existing record key scope fingerprint);
      match ir_response record with
      | Some response =>
        expired ← pure_step (is_expired record now (ttl_ms st));
        if expired : bool then
          _ ← on_db (DbCompareAndDelete IDEMPOTENCY_COLLECTION key current_bytes);
          acquire_idem_loop rounds st scope key fingerprint
        else mret (AcqComplete response)
      | None =>
        if now <? ir_lease_expires_at_unix_ms record then mret (AcqObserved (attempt_of record)) else
        expires ← pure_step (lease_overflow "lease timestamp overflow" now (lease_ms st));
        let record := ir_with_lease record expires now in
        replacement ← pure_step (idem_encode record);
        swapped ← on_db (DbCompareAndSwap IDEMPOTENCY_COLLECTION key current_bytes replacement);
        if swapped : bool then mret (AcqAcquired (attempt_of record))
        else acquire_idem_loop rounds st scope key fingerprint
      end
    end
  end.

Definition acquire (st : IdempotencyStore) (scope client_key fingerprint : string) :
    idem IdempotencyAcquisition :=
  _ ← pure_step (validate_input scope client_key fingerprint);
  if (max_entries st =? 0)%nat then mret AcqDisabled
  else acquire_idem_loop IDEM_CAS_RETRIES st scope (record_key scope client_key) fingerprint.

Fixpoint observe_loop (rounds : nat) (st : IdempotencyStore) (scope key fingerprint : string) :
    idem IdempotencyObservation :=
  match rounds with
  | O => pure_step (Err (InProgress key))
  | S rounds =>
    found ← on_db (DbGetRecord IDEMPOTENCY_COLLECTION key);
    match found with
    | None => mret ObsMissing
    | Some bytes =>
      record ← pure_step (idem_decode bytes);
      _ ← pure_step (validate_existing record key scope fingerprint);
      now ← idem_now;
      match ir_response record with
      | Some response =>
        expired ← pure_step (is_expired record now (ttl_ms st));
        if expired : bool then
          deleted ← on_db (DbCompareAndDelete IDEMPOTENCY_COLLECTION key bytes);
          if deleted : bool then mret ObsMissing else observe_loop rounds st scope key fingerprint
        else mret (ObsComplete response)
      | None =>
        mret (ObsPending (attempt_of record) (now <? ir_lease_expires_at_unix_ms record))
      end
    end
  end.

Definition observe (st : IdempotencyStore) (scope client_key fingerprint : string) :
    idem IdempotencyObservation :=
  _ ← pure_step (validate_input scope client_key fingerprint);
  if (max_entries st =? 0)%nat then mret ObsDisabled
  else observe_loop IDEM_CAS_RETRIES st scope (record_key scope client_key) fingerprint.

(** The stored record belongs to the attempt. *)
Definition same_attempt (record : IdempotencyRecord) (attempt : IdempotencyAttempt) :
    outcome IdempotencyError unit :=
  fail_if (negb (bool_decide (ir_attempt_id record = ia_attempt_id attempt))
           || negb (bool_decide (ir_fingerprint record = ia_fingerprint attempt)))
    (KeyReuse (ia_record_key attempt)).

Fixpoint complete_receipt_loop (rounds : nat) (st : IdempotencyStore) (attempt : IdempotencyAttempt)
    (response : MutationResponse) : idem MutationResponse :=
  match rounds with
  | O => pure_step (Err (InProgress (ia_record_key attempt)))
  | S rounds =>
    found ← on_db (DbGetRecord IDEMPOTENCY_COLLECTION (ia_record_key attempt));
    current_bytes ← pure_step (ok_or found (IdemBackend
      ("idempotency record " +:+ ia_record_key attempt +:+ " disappeared before completion")));
    record ← pure_step (idem_decode current_bytes);
    _ ← pure_step (same_attempt record attempt);
    match ir_response record with
    | Some stored =>
      if bool_decide (stored = response) then mret stored
      else pure_step (Err (IdemBackend ("idempotency record " +:+ ia_record_key attempt +:+
                                        " has a different completion receipt")))
    | None =>
      now ← idem_now;
      replacement ← pure_step (idem_encode (ir_with_response record response now));
      swapped ← on_db (DbCompareAndSwap IDEMPOTENCY_COLLECTION (ia_record_key attempt) current_bytes
                         replacement);
      if swapped : bool then
        _ ← prune st;
        mret response
      else complete_receipt_loop rounds st attempt response
    end
  end.

Definition complete (st : IdempotencyStore) (attempt : IdempotencyAttempt)
    (response : MutationResponse) : idem MutationResponse :=
  complete_receipt_loop IDEM_CAS_RETRIES st attempt response.

Fixpoint abort_loop (rounds : nat) (attempt : IdempotencyAttempt) : idem unit :=
  match rounds with
  | O => pure_step (Err (InProgress (ia_record_key attempt)))
  | S rounds =>
    found ← on_db (DbGetRecord IDEMPOTENCY_COLLECTION (ia_record_key attempt));
    match found with
    | None => mret tt
    | Some current_bytes =>
      record ← pure_step (idem_decode current_bytes);
      _ ← pure_step (same_attempt record attempt);
      _ ← pure_step (fail_if (is_some (ir_response record)) (IdemBackend
            ("cannot abort completed idempotency record " +:+ ia_record_key attempt)));
      deleted ← on_db (DbCompareAndDelete IDEMPOTENCY_COLLECTION (ia_record_key attempt) current_bytes);
      if deleted : bool then mret tt else abort_loop rounds attempt
    end
  end.

Definition abort (attempt : IdempotencyAttempt) : idem unit := abort_loop IDEM_CAS_RETRIES attempt.

End Store.
