(* ===== verification/ChangeStore.v ===== *)
(** * ChangeStore: transactional persistence of change records

    [crates/schemahub-core/src/change_record/store.rs]: the store interface, the
    in-memory store, and the durable store over [ObjectDb], whose operations are
    programs of database requests. The last section shows that the durable store
    run against the database of [ObjectDb] implements the in-memory store, as an
    instance of [RecordStore]. [serde_json] is a parameter. *)
From S2P Require Import Prelude RustStd SchemaTypes ChangeModel Prog ObjectDb RecordStore.
From Stdlib Require Import Strings.Byte.

Open Scope Z_scope.

(** ** The interface *)

(** The methods of the trait [ChangeRecordStore]. *)
Inductive store_req : Type → Type :=
  | StoreCreate (r : ChangeRecord) : store_req (outcome ChangeStoreError ChangeRecord)
  | StoreGet (name : string) : store_req (outcome ChangeStoreError (option ChangeRecord))
  | StoreList (project repo : string) : store_req (outcome ChangeStoreError (list ChangeRecord))
  | StoreReplace (expected_etag : string) (r : ChangeRecord) :
    store_req (outcome ChangeStoreError ChangeRecord).

(** The order of [list]: creation time, then name. *)
Definition record_le (r r' : ChangeRecord) : Prop :=
  cr_create_time_unix_ms r < cr_create_time_unix_ms r' ∨
  (cr_create_time_unix_ms r = cr_create_time_unix_ms r' ∧ String.le (cr_name r) (cr_name r')).

#[export] Instance record_le_dec : RelDecision record_le.
Proof. intros r r'. unfold record_le. apply _. Defined.

Definition in_scope (project repo : string) (r : ChangeRecord) : bool :=
  bool_decide (cr_project r = project) && bool_decide (cr_repo r = repo).

(** ** The in-memory store *)

Abbreviation store := (gmap string ChangeRecord).

Definition memory_create (record : ChangeRecord) (s : store) :
    outcome ChangeStoreError ChangeRecord * store :=
  match s !! cr_name record with
  | Some _ => (Err (AlreadyExists (cr_name record)), s)
  | None =>
    let record := with_etag record "v1" in
    (Ok record, <[cr_name record := record]> s)
  end.

Definition memory_list (project repo : string) (s : store) : list ChangeRecord :=
  merge_sort record_le (List.filter (in_scope project repo) (btree_iter s).*2).

Definition memory_replace (expected_etag : string) (record : ChangeRecord) (s : store) :
    outcome ChangeStoreError ChangeRecord * store :=
  match s !! cr_name record with
  | None => (Err (StoreNotFound (cr_name record)), s)
  | Some current =>
    if negb (bool_decide (cr_etag current = expected_etag)) then
      (Err (EtagMismatch (cr_name record) expected_etag (cr_etag current)), s)
    else
      match etag_version (cr_etag current) with
      | None => (Err (StoreBackend ("invalid stored etag: " +:+ cr_etag current)), s)
      | Some version =>
        let record := with_etag record (version_etag (wrap_u64 (version + 1))) in
        (Ok record, <[cr_name record := record]> s)
      end
  end.

Definition memory_serve (X : Type) (q : store_req X) (s : store) : X * store :=
  match q in store_req X return X * store with
  | StoreCreate r => memory_create r s
  | StoreGet name => (Ok (s !! name), s)
  | StoreList project repo => (Ok (memory_list project repo s), s)
  | StoreReplace e r => memory_replace e r s
  end.

(** Every record is stored under its own name. *)
Definition names_agree (s : store) : Prop := ∀ n r, s !! n = Some r → cr_name r = n.

Lemma memory_serve_names X (q : store_req X) s : names_agree s → names_agree (memory_serve X q s).2.
Proof.
  intros Hs n r. destruct q as [r0|name|project repo|e r0]; cbn [memory_serve snd]; try apply Hs.
  - unfold memory_create. destruct (s !! cr_name r0); cbv zeta; cbn [snd]; [apply Hs|].
    rewrite lookup_insert. case_decide; [intros [= <-]; by subst|apply Hs].
  - unfold memory_replace. destruct (s !! cr_name r0); [|apply Hs].
    destruct (negb _); [apply Hs|]. destruct (etag_version _); [|apply Hs]. cbn [snd].
    rewrite lookup_insert. case_decide; [intros [= <-]; by subst|apply Hs].
Qed.

(** ** The durable store *)

Definition CHANGE_RECORD_COLLECTION : string := "schemahub.change_records.v1".

(** [serde_json] on change records: [to_vec] and [from_slice], with the text of
    the error. *)
Class ChangeJson := {
  change_to_vec : ChangeRecord → outcome string (list byte);
  change_from_slice : list byte → outcome string ChangeRecord;
}.

(** Documented behaviour of the derived implementations: serialization of a
    change record succeeds and deserialization inverts it. *)
Class ChangeJsonLaws (J : ChangeJson) : Prop :=
  change_json_roundtrip r : ∃ bs, change_to_vec r = Ok bs ∧ change_from_slice bs = Ok r.

Section Durable.
Context {J : ChangeJson} {RF : RustFmt}.

Definition encode_record (r : ChangeRecord) : outcome ChangeStoreError (list byte) :=
  map_err (λ e, StoreBackend ("encode change record: " +:+ e)) (change_to_vec r).

Definition decode_record (bs : list byte) : outcome ChangeStoreError ChangeRecord :=
  map_err (λ e, StoreBackend ("decode change record: " +:+ e)) (change_from_slice bs).

Definition map_db (e : ObjectDbError) : ChangeStoreError := StoreBackend (fmt_db_error e).

Abbreviation store_action := (action db_req ChangeStoreError).

Definition durable_create (record : ChangeRecord) : store_action ChangeRecord :=
  let record := with_etag record "v1" in
  bytes ← pure_step (encode_record record);
  inserted ← try_call map_db (DbCreateRecord CHANGE_RECORD_COLLECTION (cr_name record) bytes);
  if inserted : bool then mret record else pure_step (Err (AlreadyExists (cr_name record))).

Definition durable_get (name : string) : store_action (option ChangeRecord) :=
  found ← try_call map_db (DbGetRecord CHANGE_RECORD_COLLECTION name);
  match found with
  | None => mret None
  | Some bytes => record ← pure_step (decode_record bytes); mret (Some record)
  end.

(** The loop of [list]. *)
Definition decode_all (project repo : string) :
    list (string * list byte) → outcome ChangeStoreError (list ChangeRecord) :=
  fix go l := match l with
  | [] => Ok []
  | (key, bytes) :: l =>
    record ← decode_record bytes;
    _ ← fail_if (negb (bool_decide (cr_name record = key)))
          (StoreBackend ("change record key/name mismatch: key=" +:+ debug_str key +:+ ", name=" +:+
                         debug_str (cr_name record)));
    found ← go l;
    Ok (if in_scope project repo record then record :: found else found)
  end.

Definition durable_list (project repo : string) : store_action (list ChangeRecord) :=
  entries ← try_call map_db (DbListRecords CHANGE_RECORD_COLLECTION);
  found ← pure_step (decode_all project repo entries);
  mret (merge_sort record_le found).

Definition durable_replace (expected_etag : string) (record : ChangeRecord) :
    store_action ChangeRecord :=
  found ← try_call map_db (DbGetRecord CHANGE_RECORD_COLLECTION (cr_name record));
  current_bytes ← pure_step (ok_or found (StoreNotFound (cr_name record)));
  current ← pure_step (decode_record current_bytes);
  _ ← pure_step (fail_if (negb (bool_decide (cr_etag current = expected_etag)))
                   (EtagMismatch (cr_name record) expected_etag (cr_etag current)));
  version ← pure_step (ok_or (etag_version (cr_etag current))
                         (StoreBackend ("invalid stored etag: " +:+ cr_etag current)));
  let record := with_etag record (version_etag (wrap_u64 (version + 1))) in
  replacement ← pure_step (encode_record record);
  replaced ← try_call map_db (DbCompareAndSwap CHANGE_RECORD_COLLECTION (cr_name record)
                                current_bytes replacement);
  if replaced : bool then mret record
  else
    found ← try_call map_db (DbGetRecord CHANGE_RECORD_COLLECTION (cr_name record));
    bytes ← pure_step (ok_or found (StoreNotFound (cr_name record)));
    latest ← pure_step (decode_record bytes);
    pure_step (Err (EtagMismatch (cr_name record) expected_etag (cr_etag latest))).

Definition durable_serve (X : Type) (q : store_req X) : prog db_req X :=
  match q in store_req X return prog db_req X with
  | StoreCreate r => durable_create r
  | StoreGet name => durable_get name
  | StoreList project repo => durable_list project repo
  | StoreReplace e r => durable_replace e r
  end.

(** ** The durable store implements the in-memory store *)

#[export] Instance change_resource : Resource ChangeRecord ChangeStoreError := {
  res_collection := CHANGE_RECORD_COLLECTION;
  res_key := cr_name;
  res_etag := cr_etag;
  res_with_etag := with_etag;
  res_to_vec := change_to_vec;
  res_from_slice := change_from_slice;
  res_noun := "change record";
  res_etag_noun := "etag";
  res_le := record_le;
  res_le_dec := record_le_dec;
  res_wf r := True;
  err_exists := AlreadyExists;
  err_missing := StoreNotFound;
  err_mismatch := EtagMismatch;
  err_backend := StoreBackend;
}.

#[export] Instance change_resource_laws `{!ChangeJsonLaws J} : ResourceLaws change_resource.
Proof.
  split; [apply change_json_roundtrip|done|done|..].
  - intros a b c [Hab|[Hab Hab']] [Hbc|[Hbc Hbc']]; cbn; unfold record_le; try (left; lia).
    right. split; [lia|]. by trans (cr_name b).
  - intros a b. cbn. unfold record_le.
    destruct (Z.lt_trichotomy (cr_create_time_unix_ms a) (cr_create_time_unix_ms b)) as [H|[H|H]];
      auto.
    destruct (total String.le (cr_name a) (cr_name b)); auto.
Qed.

(** The record table of the database stands for the store [s]. *)
Definition represents (d : Inner) (s : store) : Prop := db_represents d s.

Lemma scope_order_ok project repo : list_order_ok (in_scope project repo).
Proof.
  intros a b _ _ _ _ [?|[? ?]] [?|[? ?]]; try lia. by apply (anti_symm String.le).
Qed.

Context {HO : HashOrder} {JL : ChangeJsonLaws J}.

(** C35. The durable change-record store refines the in-memory store: from a
    database that represents a store, every operation of the trait gives the
    answer the in-memory store gives, including every error, and leaves a
    database that represents the store it leaves. *)
Theorem durable_store_refines (X : Type) (q : store_req X) (d : Inner) (s : store) :
  represents d s →
  let '(x, d') := interp db_serve (durable_serve X q) d in
  ∃ s', memory_serve X q s = (x, s') ∧ represents d' s'.
Proof.
  intros Hrep. destruct q as [r|name|project repo|e r]; cbn [durable_serve memory_serve].
  - exact (db_create_refines r d s I Hrep).
  - pose proof (db_get_refines name d s Hrep) as H. change (durable_get name) with (db_get name).
    rewrite H. eauto.
  - pose proof (db_list_refines _ d s (scope_order_ok project repo) Hrep) as H.
    change (durable_list project repo) with (db_list (in_scope project repo)). rewrite H. eauto.
  - exact (db_replace_refines (db_lost e) e r d s I Hrep).
Qed.

(** An empty database represents the empty store. *)
Lemma represents_empty : represents inner_default ∅.
Proof. apply db_represents_empty. Qed.

End Durable.
