(* ===== verification/AccessStore.v ===== *)
(** * AccessStore: projects and their members

    [crates/schemahub-core/src/auth_store.rs] (the traits and their data) and
    [auth_object_db.rs] (the stores over the object database). The traits'
    contract is a table of projects and a table of memberships; the last section
    shows that the database stores implement it. [serde_json] and the crate
    [hex] are parameters. *)
From S2P Require Import Prelude RustStd SchemaTypes Prog ObjectDb RecordStore.
From Stdlib Require Import Strings.Byte Ascii.

Open Scope Z_scope.

(** ** Data *)

Inductive AccessStoreError :=
  | AccessAlreadyExists (what : string)
  | AccessNotFound (what : string)
  | AccessEtagMismatch (name expected current : string)
  | AccessBackend (m : string).

(** [Display]. *)
Definition fmt_access_error (e : AccessStoreError) : string :=
  match e with
  | AccessAlreadyExists x => "resource already exists: " +:+ x
  | AccessNotFound x => "resource not found: " +:+ x
  | AccessEtagMismatch name expected current =>
    "resource etag mismatch for " +:+ name +:+ ": expected " +:+ expected +:+ ", current " +:+ current
  | AccessBackend m => "access store error: " +:+ m
  end.

Record ProjectMeta := mkProjectMeta {
  pm_name : string;
  pm_visibility : ProjectVisibility;
  pm_creator : string;
  pm_etag : string;
  pm_create_time_unix_ms : Z;
  pm_update_time_unix_ms : Z;
  pm_archived : bool;
  pm_archive_time_unix_ms : option Z;
}.

(** [ProjectMeta::new]. *)
Definition project_meta_new (name : string) (visibility : ProjectVisibility) (creator : string)
    (now_unix_ms : Z) : ProjectMeta :=
  mkProjectMeta name visibility creator "" now_unix_ms now_unix_ms false None.

Definition pm_with_etag (m : ProjectMeta) (e : string) : ProjectMeta :=
  mkProjectMeta (pm_name m) (pm_visibility m) (pm_creator m) e (pm_create_time_unix_ms m)
    (pm_update_time_unix_ms m) (pm_archived m) (pm_archive_time_unix_ms m).

Record RoleRecord := mkRoleRecord {
  rr_project : string;
  rr_identity_id : string;
  rr_role : Role;
  rr_active : bool;
}.

(** The methods of the traits [RoleStore] and [ProjectStore]. *)
Inductive access_req : Type → Type :=
  | RoleGet (project : string) (identity : Identity) :
    access_req (outcome AccessStoreError (option Role))
  | RoleSet (project identity_id : string) (role : Role) : access_req (outcome AccessStoreError unit)
  | RoleRemove (project identity_id : string) : access_req (outcome AccessStoreError unit)
  | RoleListProject (project : string) :
    access_req (outcome AccessStoreError (list (string * Role)))
  | ProjectGet (project : string) : access_req (outcome AccessStoreError (option ProjectMeta))
  | ProjectCreateWithOwner (meta : ProjectMeta) (owner_id : string) :
    access_req (outcome AccessStoreError ProjectMeta)
  | ProjectSet (meta : ProjectMeta) : access_req (outcome AccessStoreError unit)
  | ProjectReplace (expected_etag : string) (meta : ProjectMeta) :
    access_req (outcome AccessStoreError ProjectMeta)
  | ProjectList : access_req (outcome AccessStoreError (list ProjectMeta)).

(** ** External code *)

(** The derived [serde_json] functions of the two record types. *)
Class AccessJson := {
  project_to_vec : ProjectMeta → outcome string (list byte);
  project_from_slice : list byte → outcome string ProjectMeta;
  role_to_vec : RoleRecord → outcome string (list byte);
  role_from_slice : list byte → outcome string RoleRecord;
}.

Class AccessJsonLaws (J : AccessJson) : Prop := {
  project_json_roundtrip m : ∃ bs, project_to_vec m = Ok bs ∧ project_from_slice bs = Ok m;
  role_json_roundtrip r : ∃ bs, role_to_vec r = Ok bs ∧ role_from_slice bs = Ok r;
}.

Definition PROJECT_COLLECTION : string := "schemahub.projects.v1".
Definition ROLE_COLLECTION : string := "schemahub.project_roles.v1".
Definition MAX_CAS_RETRIES : nat := 8.

Section Stores.
Context {J : AccessJson} {HX : Hex} {RF : RustFmt}.

Abbreviation access_action := (action db_req AccessStoreError).

Definition access_map_db (e : ObjectDbError) : AccessStoreError := AccessBackend (fmt_db_error e).

Definition next_etag (current : string) : outcome AccessStoreError string :=
  version ← ok_or (etag_version current)
              (AccessBackend ("invalid stored project etag: " +:+ current));
  Ok (version_etag (wrap_u64 (version + 1))).

Definition role_key (project identity_id : string) : string :=
  "projects/" +:+ project +:+ "/members/" +:+ hex_encode (as_bytes identity_id).

Definition encode_role (r : RoleRecord) : outcome AccessStoreError (list byte) :=
  map_err (λ e, AccessBackend ("encode role: " +:+ e)) (role_to_vec r).

Definition decode_role (bs : list byte) : outcome AccessStoreError RoleRecord :=
  map_err (λ e, AccessBackend ("decode role: " +:+ e)) (role_from_slice bs).

Definition encode_project (m : ProjectMeta) : outcome AccessStoreError (list byte) :=
  map_err (λ e, AccessBackend ("encode project: " +:+ e)) (project_to_vec m).

Definition decode_project (bs : list byte) : outcome AccessStoreError ProjectMeta :=
  map_err (λ e, AccessBackend ("decode project: " +:+ e)) (project_from_slice bs).

(** ** [ObjectDbProjectStore] *)

Fixpoint upsert_loop (rounds : nat) (meta : ProjectMeta) : access_action ProjectMeta :=
  match rounds with
  | O => pure_step (Err (AccessBackend
           "project changed repeatedly while writing bootstrap metadata"))
  | S rounds =>
    found ← try_call access_map_db (DbGetRecord PROJECT_COLLECTION (pm_name meta));
    match found with
    | None =>
      let meta := if str_is_empty (pm_etag meta) then pm_with_etag meta "v1" else meta in
      replacement ← pure_step (encode_project meta);
      created ← try_call access_map_db
                  (DbCreateRecord PROJECT_COLLECTION (pm_name meta) replacement);
      if created : bool then mret meta else upsert_loop rounds meta
    | Some current =>
      current_meta ← pure_step (decode_project current);
      meta ← pure_step
               (if str_is_empty (pm_etag meta) then pm_with_etag meta <$> next_etag (pm_etag current_meta)
                else Ok meta);
      replacement ← pure_step (encode_project meta);
      swapped ← try_call access_map_db
                  (DbCompareAndSwap PROJECT_COLLECTION (pm_name meta) current replacement);
      if swapped : bool then mret meta else upsert_loop rounds meta
    end
  end.

Definition upsert (meta : ProjectMeta) : access_action ProjectMeta := upsert_loop MAX_CAS_RETRIES meta.

(** The role records of [create_with_members]. *)
Fixpoint encode_members (project : string) (members : list (string * Role)) :
    outcome AccessStoreError (list (string * string * list byte)) :=
  match members with
  | [] => Ok []
  | (identity_id, role) :: members =>
    bytes ← encode_role (mkRoleRecord project identity_id role true);
    rest ← encode_members project members;
    Ok ((ROLE_COLLECTION, role_key project identity_id, bytes) :: rest)
  end.

Definition has_owner_entry (members : list (string * Role)) : bool :=
  existsb (λ m, bool_decide (m.2 = Owner)) members.

Definition create_with_members (meta : ProjectMeta) (members : list (string * Role)) :
    access_action ProjectMeta :=
  _ ← pure_step (fail_if (negb (has_owner_entry members))
        (AccessBackend ("project '" +:+ pm_name meta +:+ "' cannot be created without an Owner")));
  let meta := pm_with_etag meta "v1" in
  project_bytes ← pure_step (encode_project meta);
  role_records ← pure_step (encode_members (pm_name meta) members);
  created ← try_call access_map_db
    (DbCreateRecords ((PROJECT_COLLECTION, pm_name meta, project_bytes) :: role_records));
  _ ← pure_step (fail_if (negb created)
        (AccessAlreadyExists ("project '" +:+ pm_name meta +:+
                              "' or one of its memberships already exists")));
  mret meta.

Definition project_get (project : string) : access_action (option ProjectMeta) :=
  found ← try_call access_map_db (DbGetRecord PROJECT_COLLECTION project);
  match found with
  | None => mret None
  | Some bytes => meta ← pure_step (decode_project bytes); mret (Some meta)
  end.

Definition project_create_with_owner (meta : ProjectMeta) (owner_id : string) :
    access_action ProjectMeta :=
  create_with_members meta [(owner_id, Owner)].

Definition project_set (meta : ProjectMeta) : access_action unit :=
  _ ← upsert meta; mret tt.

Definition project_replace (expected_etag : string) (meta : ProjectMeta) : access_action ProjectMeta :=
  found ← try_call access_map_db (DbGetRecord PROJECT_COLLECTION (pm_name meta));
  current ← pure_step (ok_or found (AccessNotFound (pm_name meta)));
  current_meta ← pure_step (decode_project current);
  _ ← pure_step (fail_if (negb (bool_decide (pm_etag current_meta = expected_etag)))
                   (AccessEtagMismatch (pm_name meta) expected_etag (pm_etag current_meta)));
  etag ← pure_step (next_etag (pm_etag current_meta));
  let meta := pm_with_etag meta etag in
  replacement ← pure_step (encode_project meta);
  swapped ← try_call access_map_db
              (DbCompareAndSwap PROJECT_COLLECTION (pm_name meta) current replacement);
  if swapped : bool then mret meta
  else
    found ← project_get (pm_name meta);
    latest ← pure_step (ok_or found (AccessNotFound (pm_name meta)));
    pure_step (Err (AccessEtagMismatch (pm_name meta) expected_etag (pm_etag latest))).

(** The loop of [list]. *)
Definition decode_projects : list (string * list byte) → outcome AccessStoreError (list ProjectMeta) :=
  fix go l := match l with
  | [] => Ok []
  | (key, bytes) :: l =>
    meta ← decode_project bytes;
    _ ← fail_if (negb (bool_decide (pm_name meta = key)))
          (AccessBackend ("project key/name mismatch: key=" +:+ debug_str key +:+ ", name=" +:+
                          debug_str (pm_name meta)));
    projects ← go l;
    Ok (meta :: projects)
  end.

Definition project_le (a b : ProjectMeta) : Prop := String.le (pm_name a) (pm_name b).

#[export] Instance project_le_dec : RelDecision project_le.
Proof. intros a b. unfold project_le. apply _. Defined.

Definition project_list : access_action (list ProjectMeta) :=
  entries ← try_call access_map_db (DbListRecords PROJECT_COLLECTION);
  projects ← pure_step (decode_projects entries);
  mret (merge_sort project_le projects).

(** ** [ObjectDbRoleStore] *)

Fixpoint role_replace_loop (rounds : nat) (key : string) (replacement : list byte) :
    access_action unit :=
  match rounds with
  | O => pure_step (Err (AccessBackend ("membership " +:+ debug_str key +:+ " changed repeatedly")))
  | S rounds =>
    found ← try_call access_map_db (DbGetRecord ROLE_COLLECTION key);
    done ← match found with
           | None => try_call access_map_db (DbCreateRecord ROLE_COLLECTION key replacement)
           | Some current =>
             try_call access_map_db (DbCompareAndSwap ROLE_COLLECTION key current replacement)
           end;
    if done : bool then mret tt else role_replace_loop rounds key replacement
  end.

Definition role_replace (record : RoleRecord) : access_action unit :=
  let key := role_key (rr_project record) (rr_identity_id record) in
  replacement ← pure_step (encode_role record);
  role_replace_loop MAX_CAS_RETRIES key replacement.

Definition role_get (project : string) (identity : Identity) : access_action (option Role) :=
  match identity_id identity with
  | None => mret None
  | Some identity_id =>
    found ← try_call access_map_db (DbGetRecord ROLE_COLLECTION (role_key project identity_id));
    match found with
    | None => mret None
    | Some bytes =>
      record ← pure_step (decode_role bytes);
      mret (if rr_active record then Some (rr_role record) else None)
    end
  end.

Definition role_set (project identity_id : string) (role : Role) : access_action unit :=
  role_replace (mkRoleRecord project identity_id role true).

Definition role_remove (project identity_id : string) : access_action unit :=
  found ← try_call access_map_db (DbGetRecord ROLE_COLLECTION (role_key project identity_id));
  match found with
  | None => mret tt
  | Some bytes =>
    record ← pure_step (decode_role bytes);
    if negb (rr_active record) then mret tt
    else role_replace (mkRoleRecord (rr_project record) (rr_identity_id record) (rr_role record) false)
  end.

(** The loop of [list_project]. *)
Fixpoint decode_roles (project : string) (l : list (string * list byte)) :
    outcome AccessStoreError (list (string * Role)) :=
  match l with
  | [] => Ok []
  | (key, bytes) :: l =>
    record ← decode_role bytes;
    _ ← fail_if (negb (bool_decide (role_key (rr_project record) (rr_identity_id record) = key)))
          (AccessBackend ("role key/content mismatch for " +:+ debug_str key));
    roles ← decode_roles project l;
    Ok (if bool_decide (rr_project record = project) && rr_active record
        then (rr_identity_id record, rr_role record) :: roles else roles)
  end.

Definition role_list_project (project : string) : access_action (list (string * Role)) :=
  entries ← try_call access_map_db (DbListRecords ROLE_COLLECTION);
  roles ← pure_step (decode_roles project entries);
  mret (merge_sort key_le roles).

Definition durable_access (X : Type) (q : access_req X) : prog db_req X :=
  match q in access_req X return prog db_req X with
  | RoleGet p i => role_get p i
  | RoleSet p i r => role_set p i r
  | RoleRemove p i => role_remove p i
  | RoleListProject p => role_list_project p
  | ProjectGet p => project_get p
  | ProjectCreateWithOwner m o => project_create_with_owner m o
  | ProjectSet m => project_set m
  | ProjectReplace e m => project_replace e m
  | ProjectList => project_list
  end.

(** ** The contract: two tables *)

(** A membership that was removed stays in the table as inactive. *)
Record access_state := mkAccess {
  st_projects : gmap string ProjectMeta;
  st_roles : gmap (string * string) (Role * bool);
}.

Definition active_role (s : access_state) (project identity_id : string) : option Role :=
  match st_roles s !! (project, identity_id) with
  | Some (role, true) => Some role
  | _ => None
  end.

Definition set_projects (s : access_state) (m : gmap string ProjectMeta) : access_state :=
  mkAccess m (st_roles s).
Definition set_role (s : access_state) (project identity_id : string) (role : Role) (active : bool) :
    access_state :=
  mkAccess (st_projects s) (<[(project, identity_id) := (role, active)]> (st_roles s)).

(** The entry of an active member of [project]. *)
Definition member_of (project : string) (e : string * string * (Role * bool)) :
    option (string * Role) :=
  if bool_decide (e.1.1 = project) && e.2.2 then Some (e.1.2, e.2.1) else None.

Definition active_members (project : string) (s : access_state) : list (string * Role) :=
  omap (member_of project) (map_to_list (st_roles s)).

Definition mem_project_set (meta : ProjectMeta) (s : access_state) :
    outcome AccessStoreError unit * access_state :=
  let stored :=
    if str_is_empty (pm_etag meta) then
      match st_projects s !! pm_name meta with
      | None => Ok "v1"%string
      | Some current => next_etag (pm_etag current)
      end
    else Ok (pm_etag meta) in
  match stored with
  | Ok etag => (Ok tt, set_projects s (<[pm_name meta := pm_with_etag meta etag]> (st_projects s)))
  | Err e => (Err e, s)
  | Panic => (Panic, s)
  | Stuck => (Stuck, s)
  end.

Definition mem_create_with_members (meta : ProjectMeta) (members : list (string * Role))
    (s : access_state) : outcome AccessStoreError ProjectMeta * access_state :=
  if negb (has_owner_entry members) then
    (Err (AccessBackend ("project '" +:+ pm_name meta +:+ "' cannot be created without an Owner")), s)
  else if bool_decide (st_projects s !! pm_name meta = None) && bool_decide (NoDup members.*1)
          && forallb (λ m, bool_decide (st_roles s !! (pm_name meta, m.1) = None)) members
  then
    let meta := pm_with_etag meta "v1" in
    (Ok meta,
     foldl (λ s m, set_role s (pm_name meta) m.1 m.2 true)
       (set_projects s (<[pm_name meta := meta]> (st_projects s))) members)
  else
    (Err (AccessAlreadyExists ("project '" +:+ pm_name meta +:+
                               "' or one of its memberships already exists")), s).

#[export] Instance project_resource : Resource ProjectMeta AccessStoreError := {
  res_collection := PROJECT_COLLECTION;
  res_key := pm_name;
  res_etag := pm_etag;
  res_with_etag := pm_with_etag;
  res_to_vec := project_to_vec;
  res_from_slice := project_from_slice;
  res_noun := "project";
  res_etag_noun := "project etag";
  res_le := project_le;
  res_le_dec := project_le_dec;
  res_wf r := True;
  err_exists := AccessAlreadyExists;
  err_missing := AccessNotFound;
  err_mismatch := AccessEtagMismatch;
  err_backend := AccessBackend;
}.

Definition access_serve (X : Type) (q : access_req X) (s : access_state) : X * access_state :=
  match q in access_req X return X * access_state with
  | RoleGet p i => (Ok (identity_id i ≫= active_role s p), s)
  | RoleSet p i r => (Ok tt, set_role s p i r true)
  | RoleRemove p i =>
    (Ok tt, match active_role s p i with Some r => set_role s p i r false | None => s end)
  | RoleListProject p => (Ok (merge_sort key_le (active_members p s)), s)
  | ProjectGet p => (Ok (st_projects s !! p), s)
  | ProjectCreateWithOwner m o => mem_create_with_members m [(o, Owner)] s
  | ProjectSet m => mem_project_set m s
  | ProjectReplace e m =>
    let '(x, projects) := mem_replace e m (st_projects s) in (x, set_projects s projects)
  | ProjectList => (Ok (mem_list (λ _, true) (st_projects s)), s)
  end.

(** ** The database stands for the tables *)

Record represents_access (d : Inner) (s : access_state) : Prop := {
  rep_projects : db_represents d (st_projects s);
  rep_role_records key bytes :
    get_record ROLE_COLLECTION key d = Some bytes →
    ∃ r, role_from_slice bytes = Ok r ∧ role_key (rr_project r) (rr_identity_id r) = key ∧
         st_roles s !! (rr_project r, rr_identity_id r) = Some (rr_role r, rr_active r);
  rep_roles p i r a :
    st_roles s !! (p, i) = Some (r, a) →
    ∃ bytes, get_record ROLE_COLLECTION (role_key p i) d = Some bytes ∧
             role_from_slice bytes = Ok (mkRoleRecord p i r a);
}.

Context {HL : HexLaws HX}.

Lemma role_key_split p i :
  rfind_split "/" (role_key p i) =
  Some ("projects/" +:+ p +:+ "/members/", hex_encode (as_bytes i)).
Proof.
  unfold role_key. do 2 apply rfind_split_app.
  apply (rfind_split_after "/" "/members/" "/members/" ""); [done|].
  apply rfind_split_None, hex_no_slash.
Qed.

Lemma as_bytes_inj s s' : as_bytes s = as_bytes s' → s = s'.
Proof.
  intros H. rewrite <- (String.string_of_list_byte_of_string s). unfold as_bytes in H.
  rewrite H. apply String.string_of_list_byte_of_string.
Qed.

Lemma role_key_inj p i p' i' : role_key p i = role_key p' i' → p = p' ∧ i = i'.
Proof.
  intros H. apply (f_equal (rfind_split "/")) in H. rewrite !role_key_split in H.
  injection H as Hp Hi%hex_inj%as_bytes_inj. split; [|done]. exact (string_app_inj_r p p' _ Hp).
Qed.

(** ** Reads and writes of single memberships *)

Context {HO : HashOrder} {JL : AccessJsonLaws J}.

#[export] Instance project_resource_laws : ResourceLaws project_resource.
Proof.
  split; [apply project_json_roundtrip|done|done|..].
  - intros a b c. cbn. unfold project_le. apply transitivity.
  - intros a b. cbn. unfold project_le. apply (total String.le).
Qed.

Lemma rep_role_None d s p i :
  represents_access d s → st_roles s !! (p, i) = None →
  get_record ROLE_COLLECTION (role_key p i) d = None.
Proof.
  intros Hrep Hn. destruct (get_record ROLE_COLLECTION (role_key p i) d) as [b|] eqn:Hb; [|done].
  apply (rep_role_records _ _ Hrep) in Hb as (r & _ & Hk & Hr).
  apply role_key_inj in Hk as [Hp Hi]. congruence.
Qed.

(** The database after a membership was written. *)
Lemma represents_set_role d s p i r a bytes :
  represents_access d s → role_from_slice bytes = Ok (mkRoleRecord p i r a) →
  represents_access (with_records d (<[(ROLE_COLLECTION, role_key p i) := bytes]> (records d)))
    (set_role s p i r a).
Proof.
  intros Hrep Hb. split; cbn [st_projects st_roles set_role].
  - eapply db_represents_frame; [|by apply rep_projects].
    intros key. unfold get_record. cbn [records with_records]. by rewrite lookup_insert_ne.
  - intros key bytes'. unfold get_record. cbn [records with_records]. rewrite lookup_insert.
    case_decide as Hk.
    + intros [= <-]. injection Hk as Hk. exists (mkRoleRecord p i r a). cbn.
      by rewrite lookup_insert_eq.
    + intros Hb'. destruct (rep_role_records _ _ Hrep _ _ Hb') as (r' & Hr' & Hk' & Hs).
      exists r'. split_and!; [done..|]. rewrite lookup_insert_ne; [done|].
      intros [= -> ->]. by rewrite Hk' in Hk.
  - intros p' i' r' a'. unfold get_record. cbn [records with_records]. rewrite lookup_insert.
    case_decide as Hk.
    + injection Hk as <- <-. intros [= <- <-]. exists bytes. by rewrite lookup_insert_eq.
    + intros Hr'. destruct (rep_roles _ _ Hrep _ _ _ _ Hr') as (bytes' & Hb' & Hdec).
      exists bytes'. split; [|done]. rewrite lookup_insert_ne; [done|].
      intros Hk'%(f_equal snd). apply role_key_inj in Hk' as [-> ->]. done.
Qed.

Lemma role_replace_refines p i r a d s :
  represents_access d s →
  let '(x, d') := interp db_serve (role_replace (mkRoleRecord p i r a)) d in
  x = Ok tt ∧ represents_access d' (set_role s p i r a).
Proof.
  intros Hrep. unfold role_replace. cbn [rr_project rr_identity_id].
  destruct (role_json_roundtrip (mkRoleRecord p i r a)) as (bs & Henc & Hdec).
  unfold encode_role. rewrite Henc.
  change MAX_CAS_RETRIES with 8%nat. generalize 7%nat as n. intros n. cbn [role_replace_loop]. run_db.
  destruct (st_roles s !! (p, i)) as [[r0 a0]|] eqn:Hr.
  - destruct (rep_roles _ _ Hrep _ _ _ _ Hr) as (b & Hb & _). rewrite Hb. run_db.
    unfold compare_and_swap_record. unfold get_record in Hb. rewrite Hb.
    rewrite bool_decide_eq_true_2 by done. run_db. split; [done|]. by apply represents_set_role.
  - pose proof (rep_role_None _ _ _ _ Hrep Hr) as Hb. rewrite Hb. run_db.
    unfold create_record. unfold get_record in Hb. rewrite Hb. run_db. split; [done|].
    by apply represents_set_role.
Qed.

Lemma role_get_refines p i d s :
  represents_access d s →
  interp db_serve (role_get p i) d = (Ok (identity_id i ≫= active_role s p), d).
Proof.
  intros Hrep. unfold role_get, active_role. destruct (identity_id i) as [id|]; [|done]. run_db.
  cbn [mbind option_bind].
  destruct (st_roles s !! (p, id)) as [[r a]|] eqn:Hr.
  - destruct (rep_roles _ _ Hrep _ _ _ _ Hr) as (b & Hb & Hdec). rewrite Hb. run_db.
    unfold decode_role. rewrite Hdec. run_db. by destruct a.
  - by rewrite (rep_role_None _ _ _ _ Hrep Hr).
Qed.

Lemma role_remove_refines p i d s :
  represents_access d s →
  let '(x, d') := interp db_serve (role_remove p i) d in
  x = Ok tt ∧
  represents_access d' match active_role s p i with Some r => set_role s p i r false | None => s end.
Proof.
  intros Hrep. unfold role_remove, active_role. run_db.
  destruct (st_roles s !! (p, i)) as [[r a]|] eqn:Hr.
  - destruct (rep_roles _ _ Hrep _ _ _ _ Hr) as (b & Hb & Hdec). rewrite Hb. run_db.
    unfold decode_role. rewrite Hdec. run_db. cbn [rr_active rr_project rr_identity_id rr_role].
    destruct a; [|run_db; done]. cbn [negb]. by apply role_replace_refines.
  - rewrite (rep_role_None _ _ _ _ Hrep Hr). run_db. done.
Qed.

(** ** Listing members *)

Definition decode_role_entry (kb : string * list byte) : option (string * string * (Role * bool)) :=
  match role_from_slice kb.2 with
  | Ok r => Some (rr_project r, rr_identity_id r, (rr_role r, rr_active r))
  | _ => None
  end.

Lemma decode_roles_entries project l :
  (∀ k b, (k, b) ∈ l → ∃ r, role_from_slice b = Ok r ∧ role_key (rr_project r) (rr_identity_id r) = k) →
  decode_roles project l = Ok (omap (member_of project) (omap decode_role_entry l)).
Proof.
  induction l as [|[k b] l IH]; intros Hl; [done|]. cbn [decode_roles].
  destruct (Hl k b) as (r & Hb & Hr); [left|]. unfold decode_role. rewrite Hb.
  cbn [map_err mbind outcome_bind]. rewrite (bool_decide_eq_true_2 _ Hr).
  cbn [negb fail_if mbind outcome_bind].
  rewrite IH by (intros k' b' Hin; apply Hl; by right). cbn [mbind outcome_bind].
  assert (decode_role_entry (k, b) =
            Some (rr_project r, rr_identity_id r, (rr_role r, rr_active r))) as He.
  { unfold decode_role_entry. cbn. by rewrite Hb. }
  simpl. rewrite He. simpl. unfold member_of. cbn [fst snd].
  by destruct (bool_decide (rr_project r = project) && rr_active r).
Qed.

Lemma decoded_roles d s :
  represents_access d s →
  omap decode_role_entry (list_records ROLE_COLLECTION d) ≡ₚ map_to_list (st_roles s).
Proof.
  intros Hrep. apply NoDup_Permutation; [|apply NoDup_map_to_list|].
  - apply NoDup_omap_inj; [apply NoDup_list_records|].
    intros [k b] [k' b'] e Hk%elem_of_list_records Hk'%elem_of_list_records He He'.
    destruct (rep_role_records _ _ Hrep _ _ Hk) as (r & Hr & Hkey & _).
    destruct (rep_role_records _ _ Hrep _ _ Hk') as (r' & Hr' & Hkey' & _).
    unfold decode_role_entry in He, He'. cbn [snd] in He, He'. rewrite Hr in He. rewrite Hr' in He'.
    assert (k = k') as -> by (rewrite <- Hkey, <- Hkey'; congruence). congruence.
  - intros [[p i] [r a]]. rewrite elem_of_map_to_list, list_elem_of_omap. split.
    + intros ([k b] & Hb%elem_of_list_records & He).
      destruct (rep_role_records _ _ Hrep _ _ Hb) as (r' & Hr & _ & Hs).
      unfold decode_role_entry in He. cbn in He. rewrite Hr in He. by simplify_eq.
    + intros Hr. destruct (rep_roles _ _ Hrep _ _ _ _ Hr) as (b & Hb & Hdec).
      exists (role_key p i, b). rewrite elem_of_list_records. split; [done|].
      unfold decode_role_entry. cbn. by rewrite Hdec.
Qed.

Lemma elem_of_active_members project s i r :
  (i, r) ∈ active_members project s ↔ active_role s project i = Some r.
Proof.
  unfold active_members, active_role. rewrite list_elem_of_omap. split.
  - intros ([[p i'] [r' a]] & Hin%elem_of_map_to_list & He). unfold member_of in He. cbn in He.
    destruct (bool_decide (p = project)) eqn:Hp; [|done]. apply bool_decide_eq_true in Hp.
    destruct a; [|done]. cbn in He. simplify_eq. by rewrite Hin.
  - destruct (st_roles s !! (project, i)) as [[r' []]|] eqn:Hr; try done. intros [= <-].
    exists (project, i, (r', true)). split; [by apply elem_of_map_to_list|].
    unfold member_of. cbn. by rewrite bool_decide_eq_true_2.
Qed.

Lemma role_list_refines project d s :
  represents_access d s →
  interp db_serve (role_list_project project) d =
  (Ok (merge_sort key_le (active_members project s)), d).
Proof.
  intros Hrep. unfold role_list_project. run_db. rewrite decode_roles_entries.
  2:{ intros k b Hb%elem_of_list_records.
      destruct (rep_role_records _ _ Hrep _ _ Hb) as (r & Hr & Hk & _). eauto. }
  run_db. do 2 f_equal. symmetry. apply (merge_sort_unique key_le).
  - intros [i r] [i' r'] H1 H2 Hle Hle'.
    assert (i = i') as <- by (by apply (anti_symm String.le)).
    apply elem_of_active_members in H1, H2. congruence.
  - unfold active_members. by rewrite (decoded_roles d s Hrep).
Qed.

(** ** Projects *)

Lemma represents_projects d s projects d' :
  represents_access d s → db_represents d' projects →
  (∀ key, get_record ROLE_COLLECTION key d' = get_record ROLE_COLLECTION key d) →
  represents_access d' (set_projects s projects).
Proof.
  intros Hrep Hd Hk. split; cbn [st_projects st_roles set_projects]; [done|..].
  - intros key bytes. rewrite Hk. apply (rep_role_records _ _ Hrep).
  - intros p i r a Hr. rewrite Hk. by apply (rep_roles _ _ Hrep).
Qed.

Lemma represents_set_project d s m bytes :
  represents_access d s → project_from_slice bytes = Ok m →
  represents_access (with_records d (<[(PROJECT_COLLECTION, pm_name m) := bytes]> (records d)))
    (set_projects s (<[pm_name m := m]> (st_projects s))).
Proof.
  intros Hrep Hb. eapply represents_projects; [done|..].
  - exact (db_represents_insert d (st_projects s) m bytes (rep_projects _ _ Hrep) Hb I).
  - intros key. unfold get_record. cbn [records with_records]. by rewrite lookup_insert_ne.
Qed.

Lemma project_get_refines p d s :
  represents_access d s → interp db_serve (project_get p) d = (Ok (st_projects s !! p), d).
Proof. intros Hrep. exact (db_get_refines p d (st_projects s) (rep_projects _ _ Hrep)). Qed.

Lemma project_list_refines d s :
  represents_access d s →
  interp db_serve project_list d = (Ok (mem_list (λ _, true) (st_projects s)), d).
Proof.
  intros Hrep. refine (db_list_refines (λ _, true) d (st_projects s) _ (rep_projects _ _ Hrep)).
  intros a b _ _ _ _. apply (anti_symm String.le).
Qed.

(** What [project_replace] does when another writer came first. *)
Definition project_lost (expected_etag : string) (meta : ProjectMeta) : access_action ProjectMeta :=
  found ← project_get (pm_name meta);
  latest ← pure_step (ok_or found (AccessNotFound (pm_name meta)));
  pure_step (Err (AccessEtagMismatch (pm_name meta) expected_etag (pm_etag latest))).

Lemma project_replace_generic e m d :
  interp db_serve (project_replace e m) d = interp db_serve (db_replace (project_lost e) e m) d.
Proof.
  unfold project_replace, db_replace. run_db. cbn [res_collection res_key project_resource].
  destruct (get_record PROJECT_COLLECTION (pm_name m) d) as [b|]; run_db; [|done].
  change (db_decode b) with (decode_project b).
  destruct (decode_project b) as [cur| | |]; run_db; try done.
  cbn [res_etag project_resource]. destruct (bool_decide (pm_etag cur = e)); run_db; [|done].
  unfold next_etag. by destruct (etag_version (pm_etag cur)).
Qed.

Lemma project_lost_confined e m : confined PROJECT_COLLECTION (project_lost e m).
Proof.
  unfold project_lost, project_get. confine. split; [done|].
  intros [[b|]| | |]; confine; try done. by destruct (decode_project b).
Qed.

Lemma project_replace_refines e m d s :
  represents_access d s →
  let '(x, d') := interp db_serve (project_replace e m) d in
  ∃ s', access_serve _ (ProjectReplace e m) s = (x, s') ∧ represents_access d' s'.
Proof.
  intros Hrep. rewrite project_replace_generic.
  pose proof (db_replace_refines (project_lost e) e m d _ I (rep_projects _ _ Hrep)) as Href.
  pose proof (λ key, confined_frame PROJECT_COLLECTION ROLE_COLLECTION _ d key
    (db_replace_confined (project_lost e) e m (project_lost_confined e)) (ltac:(done))) as Hframe.
  cbn [access_serve]. destruct (interp db_serve _ d) as [x d'].
  destruct Href as (projects & -> & Hp). eexists. split; [done|].
  by eapply represents_projects.
Qed.

Lemma pm_with_own_etag m : pm_with_etag m (pm_etag m) = m.
Proof. by destruct m. Qed.

Lemma project_set_refines m d s :
  represents_access d s →
  let '(x, d') := interp db_serve (project_set m) d in
  ∃ s', mem_project_set m s = (x, s') ∧ represents_access d' s'.
Proof.
  intros Hrep. unfold project_set, upsert, mem_project_set.
  change MAX_CAS_RETRIES with 8%nat. generalize 7%nat as n. intros n. cbn [upsert_loop]. run_db.
  pose proof (rep_projects _ _ Hrep) as Hp.
  destruct (st_projects s !! pm_name m) as [cur|] eqn:Hm.
  - destruct (db_represents_Some _ _ _ _ Hp Hm) as (b & Hb & Hdec).
    cbn [res_collection project_resource res_from_slice] in Hb, Hdec. rewrite Hb. run_db.
    unfold decode_project at 1. rewrite Hdec. run_db.
    set (stored := if str_is_empty (pm_etag m) then next_etag (pm_etag cur) else Ok (pm_etag m)).
    assert ((if str_is_empty (pm_etag m) then pm_with_etag m <$> next_etag (pm_etag cur) else Ok m)
            = pm_with_etag m <$> stored) as ->.
    { subst stored. destruct (str_is_empty (pm_etag m)); [done|]. cbn. by rewrite pm_with_own_etag. }
    destruct stored as [etag| | |]; cbn [fmap outcome_fmap]; run_db; eauto.
    destruct (project_json_roundtrip (pm_with_etag m etag)) as (bs & Henc & Hdec').
    unfold encode_project. rewrite Henc. run_db. unfold compare_and_swap_record.
    unfold get_record in Hb. cbn [pm_name pm_with_etag]. rewrite Hb, bool_decide_eq_true_2 by done.
    run_db. eexists. split; [done|]. exact (represents_set_project d s _ bs Hrep Hdec').
  - pose proof (db_represents_None _ _ _ Hp Hm) as Hb.
    cbn [res_collection project_resource] in Hb. rewrite Hb. run_db. cbv zeta.
    set (etag := if str_is_empty (pm_etag m) then "v1"%string else pm_etag m).
    assert ((if str_is_empty (pm_etag m) then pm_with_etag m "v1" else m) = pm_with_etag m etag) as ->.
    { subst etag. destruct (str_is_empty (pm_etag m)); [done|]. by rewrite pm_with_own_etag. }
    assert ((if str_is_empty (pm_etag m) then Ok "v1"%string else Ok (pm_etag m)) =
            (Ok etag : outcome AccessStoreError string)) as ->.
    { subst etag. by destruct (str_is_empty (pm_etag m)). }
    destruct (project_json_roundtrip (pm_with_etag m etag)) as (bs & Henc & Hdec').
    unfold encode_project. rewrite Henc. run_db. unfold create_record.
    unfold get_record in Hb. cbn [pm_name pm_with_etag]. rewrite Hb. run_db.
    eexists. split; [done|]. exact (represents_set_project d s _ bs Hrep Hdec').
Qed.

(** ** Creating a project with its members *)

Lemma encode_members_ok project members :
  ∃ l, encode_members project members = Ok l ∧
       Forall2 (λ m kv, kv.1 = (ROLE_COLLECTION, role_key project m.1) ∧
                        role_from_slice kv.2 = Ok (mkRoleRecord project m.1 m.2 true)) members l.
Proof.
  induction members as [|[i r] members (l & Hl & Hall)]; [by exists []|]. cbn [encode_members].
  destruct (role_json_roundtrip (mkRoleRecord project i r true)) as (bs & Henc & Hdec).
  unfold encode_role. rewrite Henc, Hl. cbn. eexists. split; [done|]. by constructor.
Qed.

Lemma represents_members project members l d s :
  Forall2 (λ m kv, kv.1 = (ROLE_COLLECTION, role_key project m.1) ∧
                   role_from_slice kv.2 = Ok (mkRoleRecord project m.1 m.2 true)) members l →
  represents_access d s →
  represents_access (with_records d (foldl (λ m kv, <[kv.1 := kv.2]> m) (records d) l))
    (foldl (λ s m, set_role s project m.1 m.2 true) s members).
Proof.
  intros Hall. revert d s. induction Hall as [|m [k b] members l [Hk Hb] _ IH]; intros d s Hrep.
  - by destruct d.
  - cbn [fst snd] in Hk, Hb. subst k. cbn [foldl fst snd].
    apply (IH (with_records d _)). by apply represents_set_role.
Qed.

(** The database finds the keys free exactly when the tables have no such
    project or membership. *)
Lemma members_keys_free meta members project_bytes l d s :
  Forall2 (λ m kv, kv.1 = (ROLE_COLLECTION, role_key (pm_name meta) m.1) ∧
                   role_from_slice kv.2 = Ok (mkRoleRecord (pm_name meta) m.1 m.2 true)) members l →
  represents_access d s →
  keys_free ∅ d ((PROJECT_COLLECTION, pm_name meta, project_bytes) :: l) =
  bool_decide (st_projects s !! pm_name meta = None) && bool_decide (NoDup members.*1)
  && forallb (λ m, bool_decide (st_roles s !! (pm_name meta, m.1) = None)) members.
Proof.
  intros Hall Hrep. set (key := λ i, (ROLE_COLLECTION, role_key (pm_name meta) i)).
  assert (l.*1 = key <$> members.*1) as Hkeys.
  { clear -Hall. induction Hall as [|m kv members l [Hk _] _ IH]; [done|]. cbn. by rewrite Hk, IH. }
  assert (Inj (=) (=) key) as Hinj.
  { intros i i' H%(f_equal snd). by apply role_key_inj in H as [_ ->]. }
  assert (∀ i, records d !! key i = None ↔ st_roles s !! (pm_name meta, i) = None) as Hrole.
  { intros i. split; [|by apply rep_role_None].
    intros Hn. destruct (st_roles s !! (pm_name meta, i)) as [[r a]|] eqn:Hr; [|done].
    destruct (rep_roles _ _ Hrep _ _ _ _ Hr) as (b & Hb & _).
    change (records d !! key i = Some b) in Hb. by rewrite Hn in Hb. }
  assert (records d !! (PROJECT_COLLECTION, pm_name meta) = None ↔
          st_projects s !! pm_name meta = None) as Hproj.
  { split; [|exact (db_represents_None d _ _ (rep_projects _ _ Hrep))].
    intros Hn. destruct (st_projects s !! pm_name meta) as [m|] eqn:Hm; [|done].
    destruct (db_represents_Some _ _ _ _ (rep_projects _ _ Hrep) Hm) as (b & Hb & _).
    change (records d !! (PROJECT_COLLECTION, pm_name meta) = Some b) in Hb. by rewrite Hn in Hb. }
  apply eq_true_iff_eq. rewrite keys_free_spec, !andb_true_iff, !bool_decide_eq_true.
  rewrite fmap_cons, Hkeys, NoDup_cons, NoDup_fmap by done. cbn [fst].
  rewrite forallb_forall, <- Hproj. setoid_rewrite bool_decide_eq_true. split.
  - intros [[_ Hd] Hfree]. split_and!; [apply Hfree; left|done|].
    intros m Hm%list_elem_of_In. apply Hrole, Hfree. right.
    apply list_elem_of_fmap. exists m.1. split; [done|]. by apply list_elem_of_fmap_2.
  - intros [[Hp Hd] Hfree]. split_and!; [|done|].
    + intros (i & Hi & _)%list_elem_of_fmap. by apply (f_equal fst) in Hi.
    + intros k [->|(i & -> & Hi)%list_elem_of_fmap]%elem_of_cons; [done|].
      apply list_elem_of_fmap in Hi as (m & -> & Hm). apply Hrole, Hfree. by apply list_elem_of_In.
Qed.

Lemma create_with_members_refines meta members d s :
  represents_access d s →
  let '(x, d') := interp db_serve (create_with_members meta members) d in
  ∃ s', mem_create_with_members meta members s = (x, s') ∧ represents_access d' s'.
Proof.
  intros Hrep. unfold create_with_members, mem_create_with_members. run_db.
  destruct (has_owner_entry members); run_db; [|eauto]. cbv zeta. cbn [pm_name pm_with_etag].
  destruct (project_json_roundtrip (pm_with_etag meta "v1")) as (bs & Henc & Hdec).
  unfold encode_project. rewrite Henc. run_db.
  destruct (encode_members_ok (pm_name meta) members) as (l & Hl & Hall). rewrite Hl. run_db.
  unfold create_records. rewrite (members_keys_free meta members bs l d s Hall Hrep).
  destruct (_ && _ && _); run_db; [|eauto]. eexists. split; [done|]. cbn [foldl fst snd].
  exact (represents_members _ _ _ (with_records d _) _ Hall
           (represents_set_project d s (pm_with_etag meta "v1") bs Hrep Hdec)).
Qed.

(** The project and membership stores over the object database implement the
    contract of the traits: from a database that stands for a table of projects
    and a table of memberships, every method gives the answer the tables give,
    every error included, and leaves a database that stands for the tables it
    leaves. *)
Theorem access_store_refines (X : Type) (q : access_req X) (d : Inner) (s : access_state) :
  represents_access d s →
  let '(x, d') := interp db_serve (durable_access X q) d in
  ∃ s', access_serve X q s = (x, s') ∧ represents_access d' s'.
Proof.
  intros Hrep. destruct q as [p i|p i r|p i|p|p|m o|m|e m|]; cbn [durable_access access_serve].
  - rewrite (role_get_refines p i d s Hrep). eauto.
  - pose proof (role_replace_refines p i r true d s Hrep) as H. unfold role_set.
    destruct (interp db_serve _ d). destruct H as [-> H]. eauto.
  - pose proof (role_remove_refines p i d s Hrep) as H.
    destruct (interp db_serve _ d). destruct H as [-> H]. eauto.
  - rewrite (role_list_refines p d s Hrep). eauto.
  - rewrite (project_get_refines p d s Hrep). eauto.
  - by apply create_with_members_refines.
  - by apply project_set_refines.
  - exact (project_replace_refines e m d s Hrep).
  - rewrite (project_list_refines d s Hrep). eauto.
Qed.

Lemma represents_access_empty : represents_access inner_default (mkAccess ∅ ∅).
Proof.
  split; cbn [st_projects st_roles].
  - apply db_represents_empty.
  - intros key bytes. unfold get_record. cbn. by rewrite lookup_empty.
  - intros p i r a. by rewrite lookup_empty.
Qed.

End Stores.
