(* ===== verification/Repository.v ===== *)
(** * Repository: repository resources and their policy

    [crates/schemahub-core/src/config.rs] (policies and their defaults),
    [crates/schemahub-jj/src/bookmark.rs] (protected bookmarks) and the resource,
    the validation and the stores of [crates/schemahub-core/src/repository.rs].
    The authorized operations on repositories are in [Access]. *)
From S2P Require Import Prelude RustStd SchemaTypes Prog ObjectDb RecordStore.
From Stdlib Require Import Strings.Byte Ascii.

Open Scope Z_scope.

(** ** [config.rs] *)

Record ReviewPolicy := mkReviewPolicy {
  required_approvals : Z;
  require_change_record : bool;
}.

Definition review_policy_default : ReviewPolicy := mkReviewPolicy 0 false.

Record ServingPolicy := mkServingPolicy {
  serve_source : bool;
  serve_descriptors : bool;
  serve_generated_code : bool;
}.

Definition serving_policy_default : ServingPolicy := mkServingPolicy true true true.

Record RepoConfig := mkRepoConfig {
  default_bookmark : string;
  compatibility_direction : CompatibilityDirection;
  protected_bookmarks : list string;
  review_policy : ReviewPolicy;
  serving_policy : ServingPolicy;
}.

Definition repo_config_default : RepoConfig :=
  mkRepoConfig "main" Full ["main"%string] review_policy_default serving_policy_default.

Definition compat_rules (c : RepoConfig) : CompatibilityRules :=
  mkCompatibilityRules (compatibility_direction c)
    (match compatibility_direction c with Disabled => true | _ => false end).

(** [RepoConfigStore]. *)
Abbreviation RepoConfigStore := (gmap (string * string) RepoConfig).

Definition config_set (project repo : string) (config : RepoConfig) (s : RepoConfigStore) :
    RepoConfigStore :=
  <[(project, repo) := config]> s.

Definition config_get (project repo : string) (s : RepoConfigStore) : RepoConfig :=
  default repo_config_default (s !! (project, repo)).

(** ** [bookmark.rs] *)

Definition matches_pattern (name pattern : string) : bool :=
  if bool_decide (pattern = "*"%string) then true
  else match strip_suffix_char "*" pattern with
       | Some prefix => starts_with prefix name
       | None => bool_decide (name = pattern)
       end.

Definition is_protected (name : string) (patterns : list string) : bool :=
  existsb (matches_pattern name) patterns.

(** ** The resource *)

Record Repository := mkRepository {
  rp_resource_name : string;
  rp_project_name : string;
  rp_name : string;
  rp_config : RepoConfig;
  rp_created_by : string;
  rp_etag : string;
  rp_create_time_unix_ms : Z;
  rp_update_time_unix_ms : Z;
  rp_archived : bool;
  rp_archive_time_unix_ms : option Z;
}.

Definition repo_resource_name (project repo : string) : string :=
  "projects/" +:+ project +:+ "/repos/" +:+ repo.

(** [Repository::new]. *)
Definition repository_new (project name : string) (config : RepoConfig) (created_by : string)
    (now_unix_ms : Z) : Repository :=
  mkRepository (repo_resource_name project name) project name config created_by "" now_unix_ms
    now_unix_ms false None.

Definition rp_with_etag (r : Repository) (e : string) : Repository :=
  mkRepository (rp_resource_name r) (rp_project_name r) (rp_name r) (rp_config r) (rp_created_by r) e
    (rp_create_time_unix_ms r) (rp_update_time_unix_ms r) (rp_archived r) (rp_archive_time_unix_ms r).

Definition rp_with_config (r : Repository) (c : RepoConfig) (now : Z) : Repository :=
  mkRepository (rp_resource_name r) (rp_project_name r) (rp_name r) c (rp_created_by r) (rp_etag r)
    (rp_create_time_unix_ms r) now (rp_archived r) (rp_archive_time_unix_ms r).

Definition rp_with_archive (r : Repository) (now : Z) : Repository :=
  mkRepository (rp_resource_name r) (rp_project_name r) (rp_name r) (rp_config r) (rp_created_by r)
    (rp_etag r) (rp_create_time_unix_ms r) now true (Some now).

Record CreateRepository := mkCreateRepository {
  crp_project : string;
  crp_name : string;
  crp_config : RepoConfig;
}.

Record RepositoryUpdate := mkRepositoryUpdate {
  ru_default_bookmark : option string;
  ru_compatibility_direction : option CompatibilityDirection;
  ru_protected_bookmarks : option (list string);
  ru_review_policy : option ReviewPolicy;
  ru_serving_policy : option ServingPolicy;
}.

Definition repository_update_is_empty (u : RepositoryUpdate) : bool :=
  match u with mkRepositoryUpdate None None None None None => true | _ => false end.

Inductive RepositoryStoreError :=
  | RepoAlreadyExists (name : string)
  | RepoNotFound (name : string)
  | RepoEtagMismatch (name expected current : string)
  | RepoBackend (m : string).

Inductive RepositoryError :=
  | RepoInvalidArgument (m : string)
  | RepoFailedPrecondition (m : string)
  | RepoStore (e : RepositoryStoreError).

(** ** Validation *)

Section Validation.
Context {RF : RustFmt}.

Definition MAX_REQUIRED_APPROVALS : Z := 20.

Definition repo_validate_segment (label value : string) : outcome RepositoryError unit :=
  fail_if (str_is_empty value || contains_char "/" value || has_control value || (128 <? str_len value))
    (RepoInvalidArgument
       (label +:+ " must be a 1-128 character resource path segment without control characters")).

Definition validate_ref_name (label value : string) : outcome RepositoryError unit :=
  fail_if (str_is_empty (trim value) || has_control value || (255 <? str_len value))
    (RepoInvalidArgument
       (label +:+ " must be a non-empty value of at most 255 characters without control characters")).

(** The loop of [validate_config]. *)
Fixpoint validate_patterns (seen : gset string) (patterns : list string) :
    outcome RepositoryError unit :=
  match patterns with
  | [] => Ok tt
  | pattern :: patterns =>
    _ ← validate_ref_name "protected branch pattern" pattern;
    _ ← fail_if (contains_char "*" pattern && negb (ends_with "/*" pattern))
          (RepoInvalidArgument ("protected branch pattern " +:+ debug_str pattern +:+
                                " may use '*' only as a trailing '/*'"));
    _ ← fail_if (bool_decide (pattern ∈ seen))
          (RepoInvalidArgument ("duplicate protected branch pattern " +:+ debug_str pattern));
    validate_patterns ({[ pattern ]} ∪ seen) patterns
  end.

Definition validate_config (config : RepoConfig) : outcome RepositoryError unit :=
  _ ← validate_ref_name "default_branch" (default_bookmark config);
  _ ← fail_if (100 <? Z.of_nat (length (protected_bookmarks config)))
        (RepoInvalidArgument "protected_branches must contain at most 100 entries");
  _ ← validate_patterns ∅ (protected_bookmarks config);
  fail_if (MAX_REQUIRED_APPROVALS <? required_approvals (review_policy config))
    (RepoInvalidArgument ("required_approvals must be at most " +:+ fmt_Z MAX_REQUIRED_APPROVALS)).

Definition validate_expected_etag (value : string) : outcome RepositoryError unit :=
  fail_if (str_is_empty value) (RepoInvalidArgument "etag must not be empty").

(** ** Protected bookmarks of a valid configuration *)

Lemma validate_patterns_star patterns : ∀ seen,
  validate_patterns seen patterns = Ok tt →
  ∀ p, p ∈ patterns → contains_char "*" p = true → ∃ dir, p = dir +:+ "/*".
Proof.
  induction patterns as [|q patterns IH]; intros seen H p Hp Hstar; [by apply not_elem_of_nil in Hp|].
  cbn [validate_patterns] in H. ok_inv H. apply elem_of_cons in Hp as [->|Hp]; [|by eapply IH].
  rewrite Hstar in Hok0. apply negb_false_iff, ends_with_spec in Hok0. done.
Qed.

Lemma matches_exact name p :
  contains_char "*" p = false → matches_pattern name p = true ↔ name = p.
Proof.
  intros Hp. unfold matches_pattern.
  rewrite bool_decide_eq_false_2 by (intros ->; done).
  destruct (strip_suffix_char "*" p) as [q|] eqn:Hq; [|apply bool_decide_eq_true].
  apply strip_suffix_char_Some in Hq as ->. by rewrite contains_char_app, orb_true_r in Hp.
Qed.

Lemma matches_dir name dir :
  matches_pattern name (dir +:+ "/*") = true ↔ ∃ rest, name = dir +:+ "/" +:+ rest.
Proof.
  unfold matches_pattern. rewrite bool_decide_eq_false_2.
  2:{ intros H%(f_equal String.length). rewrite string_length_app in H. cbn in H. lia. }
  assert (strip_suffix_char "*" (dir +:+ "/*") = Some (dir +:+ "/")) as ->.
  { apply strip_suffix_char_Some. by rewrite str_app_assoc. }
  rewrite starts_with_spec. by setoid_rewrite str_app_assoc.
Qed.

(** Under a configuration that passes validation, a bookmark is protected
    exactly if its name is listed, or it lies in a directory [dir] for which
    [dir/*] is listed. *)
Theorem is_protected_spec (config : RepoConfig) (name : string) :
  validate_config config = Ok tt →
  is_protected name (protected_bookmarks config) = true ↔
  (name ∈ protected_bookmarks config ∧ contains_char "*" name = false) ∨
  ∃ dir rest, dir +:+ "/*" ∈ protected_bookmarks config ∧ name = dir +:+ "/" +:+ rest.
Proof.
  intros H. unfold validate_config in H. ok_inv H. destruct x1.
  pose proof (validate_patterns_star _ _ Hok1) as Hstar.
  unfold is_protected. rewrite existsb_exists. setoid_rewrite <- list_elem_of_In. split.
  - intros (p & Hp & Hm). destruct (contains_char "*" p) eqn:Hs.
    + destruct (Hstar p Hp Hs) as [dir ->]. apply matches_dir in Hm as [rest ->]. eauto.
    + apply matches_exact in Hm as ->; auto.
  - intros [[Hp Hs]|(dir & rest & Hp & ->)].
    + exists name. split; [done|]. by apply matches_exact.
    + exists (dir +:+ "/*"). split; [done|]. apply matches_dir. eauto.
Qed.

End Validation.

(** ** Stores *)

(** The methods of the trait [RepositoryStore]. *)
Inductive repo_req : Type → Type :=
  | RepoCreate (r : Repository) : repo_req (outcome RepositoryStoreError Repository)
  | RepoGet (project repo : string) : repo_req (outcome RepositoryStoreError (option Repository))
  | RepoList (project : string) : repo_req (outcome RepositoryStoreError (list Repository))
  | RepoReplace (expected_etag : string) (r : Repository) :
    repo_req (outcome RepositoryStoreError Repository).

Definition require_etag (current : Repository) (expected_etag : string) :
    outcome RepositoryStoreError unit :=
  fail_if (negb (bool_decide (rp_etag current = expected_etag)))
    (RepoEtagMismatch (rp_resource_name current) expected_etag (rp_etag current)).

Definition repo_next_etag (current : string) : outcome RepositoryStoreError string :=
  version ← ok_or (etag_version current)
              (RepoBackend ("invalid stored repository etag: " +:+ current));
  Ok (version_etag (wrap_u64 (version + 1))).

Definition repo_le (a b : Repository) : Prop := String.le (rp_name a) (rp_name b).

#[export] Instance repo_le_dec : RelDecision repo_le.
Proof. intros a b. unfold repo_le. apply _. Defined.

Definition in_project (project : string) (r : Repository) : bool :=
  bool_decide (rp_project_name r = project).

(** *** [MemoryRepositoryStore] *)

Abbreviation repo_table := (gmap string Repository).

Definition memory_repo_create (r : Repository) (s : repo_table) :
    outcome RepositoryStoreError Repository * repo_table :=
  match s !! rp_resource_name r with
  | Some _ => (Err (RepoAlreadyExists (rp_resource_name r)), s)
  | None => let r := rp_with_etag r "v1" in (Ok r, <[rp_resource_name r := r]> s)
  end.

Definition memory_repo_list (project : string) (s : repo_table) : list Repository :=
  merge_sort repo_le (List.filter (in_project project) (btree_iter s).*2).

Definition memory_repo_replace (expected_etag : string) (r : Repository) (s : repo_table) :
    outcome RepositoryStoreError Repository * repo_table :=
  let result :=
    current ← ok_or (s !! rp_resource_name r) (RepoNotFound (rp_resource_name r));
    _ ← require_etag current expected_etag;
    etag ← repo_next_etag (rp_etag current);
    Ok (rp_with_etag r etag) in
  match result with
  | Ok r => (Ok r, <[rp_resource_name r := r]> s)
  | failure => (failure, s)
  end.

Definition memory_repo_serve (X : Type) (q : repo_req X) (s : repo_table) : X * repo_table :=
  match q in repo_req X return X * repo_table with
  | RepoCreate r => memory_repo_create r s
  | RepoGet p n => (Ok (s !! repo_resource_name p n), s)
  | RepoList p => (Ok (memory_repo_list p s), s)
  | RepoReplace e r => memory_repo_replace e r s
  end.

(** *** [ObjectDbRepositoryStore] *)

Definition REPOSITORY_COLLECTION : string := "schemahub.repositories.v1".

(** The derived [serde_json] functions. *)
Class RepositoryJson := {
  repository_to_vec : Repository → outcome string (list byte);
  repository_from_slice : list byte → outcome string Repository;
}.

Class RepositoryJsonLaws (J : RepositoryJson) : Prop :=
  repository_json_roundtrip r :
    ∃ bs, repository_to_vec r = Ok bs ∧ repository_from_slice bs = Ok r.

Section DurableRepositories.
Context {J : RepositoryJson} {RF : RustFmt}.

Abbreviation repo_action := (action db_req RepositoryStoreError).

Definition encode_repository (r : Repository) : outcome RepositoryStoreError (list byte) :=
  map_err (λ e, RepoBackend ("encode repository: " +:+ e)) (repository_to_vec r).

Definition decode_repository (bs : list byte) : outcome RepositoryStoreError Repository :=
  map_err (λ e, RepoBackend ("decode repository: " +:+ e)) (repository_from_slice bs).

Definition repo_map_db (e : ObjectDbError) : RepositoryStoreError := RepoBackend (fmt_db_error e).

Definition durable_repo_create (r : Repository) : repo_action Repository :=
  let r := rp_with_etag r "v1" in
  bytes ← pure_step (encode_repository r);
  inserted ← try_call repo_map_db (DbCreateRecord REPOSITORY_COLLECTION (rp_resource_name r) bytes);
  if inserted : bool then mret r else pure_step (Err (RepoAlreadyExists (rp_resource_name r))).

Definition durable_repo_get (project repo : string) : repo_action (option Repository) :=
  found ← try_call repo_map_db (DbGetRecord REPOSITORY_COLLECTION (repo_resource_name project repo));
  match found with
  | None => mret None
  | Some bytes => r ← pure_step (decode_repository bytes); mret (Some r)
  end.

(** The loop of [list]. *)
Definition decode_repositories (project : string) :
    list (string * list byte) → outcome RepositoryStoreError (list Repository) :=
  fix go l := match l with
  | [] => Ok []
  | (key, bytes) :: l =>
    r ← decode_repository bytes;
    _ ← fail_if (negb (bool_decide (rp_resource_name r = key)))
          (RepoBackend ("repository key/name mismatch: key=" +:+ debug_str key +:+ ", name=" +:+
                        debug_str (rp_resource_name r)));
    found ← go l;
    Ok (if in_project project r then r :: found else found)
  end.

Definition durable_repo_list (project : string) : repo_action (list Repository) :=
  entries ← try_call repo_map_db (DbListRecords REPOSITORY_COLLECTION);
  found ← pure_step (decode_repositories project entries);
  mret (merge_sort repo_le found).

Definition durable_repo_replace (expected_etag : string) (r : Repository) : repo_action Repository :=
  found ← try_call repo_map_db (DbGetRecord REPOSITORY_COLLECTION (rp_resource_name r));
  current_bytes ← pure_step (ok_or found (RepoNotFound (rp_resource_name r)));
  current ← pure_step (decode_repository current_bytes);
  _ ← pure_step (require_etag current expected_etag);
  etag ← pure_step (repo_next_etag (rp_etag current));
  let r := rp_with_etag r etag in
  replacement ← pure_step (encode_repository r);
  replaced ← try_call repo_map_db
               (DbCompareAndSwap REPOSITORY_COLLECTION (rp_resource_name r) current_bytes replacement);
  if replaced : bool then mret r
  else
    found ← try_call repo_map_db (DbGetRecord REPOSITORY_COLLECTION (rp_resource_name r));
    bytes ← pure_step (ok_or found (RepoNotFound (rp_resource_name r)));
    latest ← pure_step (decode_repository bytes);
    pure_step (Err (RepoEtagMismatch (rp_resource_name r) expected_etag (rp_etag latest))).

Definition durable_repo_serve (X : Type) (q : repo_req X) : prog db_req X :=
  match q in repo_req X return prog db_req X with
  | RepoCreate r => durable_repo_create r
  | RepoGet p n => durable_repo_get p n
  | RepoList p => durable_repo_list p
  | RepoReplace e r => durable_repo_replace e r
  end.

(** ** The durable store implements the in-memory store *)

(** [Repository::new] and every update keep the name of the resource. *)
Definition name_consistent (r : Repository) : Prop :=
  rp_resource_name r = repo_resource_name (rp_project_name r) (rp_name r).

#[export] Instance repository_resource : Resource Repository RepositoryStoreError := {
  res_collection := REPOSITORY_COLLECTION;
  res_key := rp_resource_name;
  res_etag := rp_etag;
  res_with_etag := rp_with_etag;
  res_to_vec := repository_to_vec;
  res_from_slice := repository_from_slice;
  res_noun := "repository";
  res_etag_noun := "repository etag";
  res_le := repo_le;
  res_le_dec := repo_le_dec;
  res_wf := name_consistent;
  err_exists := RepoAlreadyExists;
  err_missing := RepoNotFound;
  err_mismatch := RepoEtagMismatch;
  err_backend := RepoBackend;
}.

#[export] Instance repository_resource_laws `{!RepositoryJsonLaws J} : ResourceLaws repository_resource.
Proof.
  split; [apply repository_json_roundtrip|done|done|..].
  - intros a b c. cbn. unfold repo_le. apply transitivity.
  - intros a b. cbn. unfold repo_le. apply (total String.le).
Qed.

Lemma in_project_order_ok project : list_order_ok (in_project project).
Proof.
  intros a b Ha Hb Hpa%bool_decide_eq_true Hpb%bool_decide_eq_true Hab Hba. cbn in *.
  rewrite Ha, Hb, Hpa, Hpb. f_equal. by apply (anti_symm String.le).
Qed.

Lemma memory_repo_replace_generic e r s :
  keys_agree s → memory_repo_replace e r s = mem_replace e r s.
Proof.
  intros Hk. unfold memory_repo_replace, mem_replace. cbn [res_key repository_resource].
  destruct (s !! rp_resource_name r) as [cur|] eqn:Hr; [|done].
  destruct (Hk _ _ Hr) as [Hn _]. cbn [res_key repository_resource] in Hn.
  cbn [ok_or mbind outcome_bind]. unfold require_etag. rewrite Hn. cbn [res_etag repository_resource].
  destruct (bool_decide (rp_etag cur = e)); [|done]. cbn [negb fail_if mbind outcome_bind].
  unfold repo_next_etag. by destruct (etag_version (rp_etag cur)).
Qed.

Lemma durable_repo_replace_generic `{HashOrder} e r d s :
  db_represents d s →
  interp db_serve (durable_repo_replace e r) d = interp db_serve (db_replace (db_lost e) e r) d.
Proof.
  intros [Hk Hrep]. unfold durable_repo_replace, db_replace. run_db.
  cbn [res_collection res_key repository_resource].
  specialize (Hrep (rp_resource_name r)). cbn [res_collection repository_resource] in Hrep.
  destruct (get_record REPOSITORY_COLLECTION (rp_resource_name r) d) as [b|]; run_db; [|done].
  destruct Hrep as (cur & Hb & Hs). destruct (Hk _ _ Hs) as [Hn _].
  cbn [res_key repository_resource res_from_slice] in Hn, Hb.
  unfold decode_repository at 1, db_decode at 1. cbn [res_from_slice repository_resource].
  rewrite Hb. run_db. cbn [res_etag repository_resource]. unfold require_etag. rewrite Hn.
  destruct (bool_decide (rp_etag cur = e)); run_db; [|done].
  unfold repo_next_etag. by destruct (etag_version (rp_etag cur)).
Qed.

(** The records that a request stores are named consistently. *)
Definition request_consistent {X} (q : repo_req X) : Prop :=
  match q with RepoCreate r | RepoReplace _ r => name_consistent r | _ => True end.

Context {HO : HashOrder} {JL : RepositoryJsonLaws J}.

(** The durable repository store refines the in-memory store: from a database
    that stands for a table of repositories, every operation on consistently
    named repositories gives the answer the in-memory store gives, every error
    included, and leaves a database that stands for the table it leaves. *)
Theorem repository_store_refines (X : Type) (q : repo_req X) (d : Inner) (s : repo_table) :
  request_consistent q → db_represents d s →
  let '(x, d') := interp db_serve (durable_repo_serve X q) d in
  ∃ s', memory_repo_serve X q s = (x, s') ∧ db_represents d' s'.
Proof.
  intros Hq Hrep.
  destruct q as [r|p n|p|e r]; cbn [durable_repo_serve memory_repo_serve request_consistent] in *.
  - exact (db_create_refines r d s Hq Hrep).
  - pose proof (db_get_refines (repo_resource_name p n) d s Hrep) as H.
    change (durable_repo_get p n) with (db_get (repo_resource_name p n)). rewrite H. eauto.
  - pose proof (db_list_refines _ d s (in_project_order_ok p) Hrep) as H.
    change (durable_repo_list p) with (db_list (in_project p)). rewrite H. eauto.
  - rewrite (durable_repo_replace_generic e r d s Hrep), memory_repo_replace_generic by apply Hrep.
    exact (db_replace_refines (db_lost e) e r d s Hq Hrep).
Qed.

End DurableRepositories.
