(* ===== verification/CoreTypes.v ===== *)
(** * CoreTypes: the interfaces of the core

    The error of [crates/schemahub-core/src/error.rs], the data that the jj layer
    ([crates/schemahub-jj/src/lib.rs]) exchanges with the core, and the registry
    of compilers, which maps a format id to a compiler. *)
From S2P Require Import Prelude RustStd SchemaTypes ChangeModel ObjectDb AccessStore Repository Idempotency.

Open Scope Z_scope.

(** ** Errors *)

(** [JjError]. *)
Inductive JjError :=
  | JjObjectDb (e : ObjectDbError)
  | JjObjectNotFound
  | JjDeclNotFound (m : string)
  | JjSchemaNotFound (m : string)
  | JjBookmarkNotFound (m : string)
  | JjBookmarkExists (m : string)
  | JjTagNotFound (m : string)
  | JjTagExists (m : string)
  | JjBadRef (m : string)
  | JjNothingToUndo
  | JjNotConflicted (decl : string)
  | JjCorrupt (m : string)
  | JjOther (m : string).

Inductive CoreError :=
  | CoreInvalidArgument (m : string)
  | CoreAlreadyExists (m : string)
  | CoreFailedPrecondition (m : string)
  | CoreResourceExhausted (m : string)
  | UnknownFormat (m : string)
  | UndetectableFormat (m : string)
  | CoreJj (e : JjError)
  | CoreAuthn (e : AuthnError)
  | CoreAuthz (e : AuthzError)
  | CoreMutation (e : MutationError)
  | CoreParse (e : ParseError)
  | CorePrint (e : PrintError)
  | CoreDiff (e : DiffError)
  | CoreRead (e : ReadError)
  | CoreConflict (e : ConflictError)
  | CoreDescriptor (e : DescriptorError)
  | CoreCodegen (e : CodegenError)
  | CoreChangeLedger (e : ChangeLedgerError)
  | CoreRepository (e : RepositoryError)
  | CoreAccessStore (e : AccessStoreError)
  | CoreIdempotency (e : IdempotencyError)
  | Incompatible (violations : list CompatibilityViolation)
  | LimitExceeded (m : string)
  | EmptyTransaction
  | MixedTransaction (m : string)
  | TransactionDeadlineExceeded
  | CoreOther (m : string).

(** ** The jj layer *)

Inductive RefSpec :=
  | RefBookmark (name : string)
  | RefTag (name : string)
  | RefCommit (id : string).

Record WriteResult := mkWriteResult {
  wr_commit_id : string;
  wr_change_id : string;
  wr_operation_id : string;
  wr_conflicted_decls : list string;
}.

Inductive SchemaWrite :=
  | WritePatch (schema_path : string) (effect : MutationEffect)
  | WriteDelete (schema_path : string).

Inductive PublicationError (E : Type) :=
  | PubJj (e : JjError)
  | PubRejected (e : E).
Arguments PubJj {E} e.
Arguments PubRejected {E} e.

(** [PublicationSnapshot]: what its methods return for the tree that is about to
    be published. *)
Record PublicationSnapshot := mkPublicationSnapshot {
  snap_conflicted_declarations : outcome JjError (list string);
  snap_list_schemas : outcome JjError (list string);
  snap_load_schema : string → outcome JjError SchemaObjects;
  snap_known_schema_names : gset string;
  snap_bookmark_target_conflicted : bool;
}.

(** ** Compilers *)

(** [CompilerRegistry]. *)
Abbreviation CompilerRegistry := (gmap string Compiler).

Definition register (compiler : Compiler) (registry : CompilerRegistry) : CompilerRegistry :=
  <[format_id compiler := compiler]> registry.

(** [detect_format_from_name] of [lib.rs]. *)
Definition detect_format_from_name (schema_name : string) : option string :=
  if ends_with ".proto" schema_name then Some "protobuf"%string
  else if ends_with ".fbs" schema_name then Some "flatbuffers"%string
  else if ends_with ".yaml" schema_name || ends_with ".yml" schema_name || ends_with ".json" schema_name
  then Some "openapi"%string
  else None.

Definition compiler_for (registry : CompilerRegistry) (schema_name : string) :
    outcome CoreError Compiler :=
  format_id ← ok_or (detect_format_from_name schema_name) (UndetectableFormat schema_name);
  ok_or (registry !! format_id) (UnknownFormat format_id).
