(* ===== verification/Integrity.v ===== *)
(** * Integrity: imports, publication policy and the compatibility gate

    [crates/schemahub-core/src/reference_integrity.rs] (the policy that runs on
    the exact tree about to be published), the resolution of import paths of
    [exploration.rs], and [mutation/compat.rs] (the gate of protected
    bookmarks). The snapshot and the compilers answer for themselves, so these
    are functions of their answers. *)
From S2P Require Import Prelude RustStd SchemaTypes CoreTypes.
From Stdlib Require Import Ascii.

Open Scope Z_scope.

(** ** Import paths *)

Section Imports.
Context {RF : RustFmt}.

Definition precondition {A} (m : string) : outcome CoreError A := Err (CoreFailedPrecondition m).

(** [path.splitn(3, '/')] with three non-empty parts. *)
Definition parse_logical_import_path (path : string) : option SchemaPath :=
  '(project, rest) ← split_once "/" path;
  '(repo, schema) ← split_once "/" rest;
  if str_is_empty project || str_is_empty repo || str_is_empty schema then None
  else Some (mkSchemaPath project repo schema).

Definition is_dot_segment (segment : string) : bool :=
  bool_decide (segment = ".") || bool_decide (segment = "..").

(** The loop of [normalize_openapi_dot_relative_import]; [segments] is the stack
    of path components, the last pushed one first. *)
Fixpoint follow_segments (import_path : string) (segments : list string) (path : list string) :
    outcome CoreError (list string) :=
  match path with
  | [] => Ok segments
  | segment :: path =>
    if bool_decide (segment = ".") then follow_segments import_path segments path
    else if bool_decide (segment = "..") then
      match segments with
      | [] => precondition ("relative import path " +:+ debug_str import_path +:+
                            " escapes the repository root")
      | _ :: segments => follow_segments import_path segments path
      end
    else if str_is_empty segment then
      precondition ("relative import path " +:+ debug_str import_path +:+ " contains an empty segment")
    else follow_segments import_path (segment :: segments) path
  end.

Definition normalize_openapi_dot_relative_import (importing_schema_name import_path : string) :
    outcome CoreError string :=
  let segments := split_char "/" importing_schema_name in
  _ ← fail_if (existsb (λ s, str_is_empty s || is_dot_segment s) segments)
        (CoreFailedPrecondition ("importing schema path " +:+ debug_str importing_schema_name +:+
                                 " cannot anchor a relative import"));
  final ← follow_segments import_path (tail (reverse segments)) (split_char "/" import_path);
  match final with
  | [] => precondition ("relative import path " +:+ debug_str import_path +:+ " has no schema component")
  | _ => Ok (join "/" (reverse final))
  end.

Definition normalize_import_path (importing_schema : SchemaPath) (import_path : string)
    (same_repo_schemas : gset string) : outcome CoreError SchemaPath :=
  let own := mkSchemaPath (sp_project importing_schema) (sp_repo importing_schema) in
  if str_is_empty import_path then precondition "schema contains an empty import path" else
  match strip_prefix (sp_project importing_schema +:+ "/" +:+ sp_repo importing_schema +:+ "/") import_path with
  | Some schema_name =>
    if str_is_empty schema_name
    then precondition ("import path " +:+ debug_str import_path +:+ " has no schema component")
    else Ok (own schema_name)
  | None =>
    if bool_decide (detect_format_from_name (sp_schema_name importing_schema) = Some "openapi"%string)
       && existsb is_dot_segment (split_char "/" import_path)
    then
      schema_name ← normalize_openapi_dot_relative_import (sp_schema_name importing_schema) import_path;
      Ok (own schema_name)
    else if bool_decide (import_path ∈ same_repo_schemas) then Ok (own import_path)
    else Ok (default (own import_path) (parse_logical_import_path import_path))
  end.

(** ** The policy of a publication *)

Context (registry : CompilerRegistry).

(** The imports of one schema that point at a schema that disappears. *)
Fixpoint dangling_of (project repo schema_name : string) (disappeared resolution : gset string)
    (imports : list Import) : outcome CoreError (list string) :=
  match imports with
  | [] => Ok []
  | import :: imports =>
    if negb (str_is_empty (im_resolved_commit import))
    then dangling_of project repo schema_name disappeared resolution imports
    else
      target ← normalize_import_path (mkSchemaPath project repo schema_name) (im_path import) resolution;
      rest ← dangling_of project repo schema_name disappeared resolution imports;
      Ok (if bool_decide (sp_project target = project) && bool_decide (sp_repo target = repo)
             && bool_decide (sp_schema_name target ∈ disappeared)
          then (schema_name +:+ " -> " +:+ sp_schema_name target) :: rest else rest)
  end.

(** The loop over the schemas of the final tree. *)
Fixpoint dangling_in (project repo : string) (snapshot : PublicationSnapshot)
    (disappeared resolution : gset string) (schemas : list string) : outcome CoreError (list string) :=
  match schemas with
  | [] => Ok []
  | schema_name :: schemas =>
    schema ← map_err CoreJj (snap_load_schema snapshot schema_name);
    compiler ← compiler_for registry schema_name;
    imports ← map_err CoreRead (cp_imports compiler schema);
    here ← dangling_of project repo schema_name disappeared resolution imports;
    rest ← dangling_in project repo snapshot disappeared resolution schemas;
    Ok (here ++ rest)
  end.

Definition validate_publication_snapshot (project repo bookmark : string) (protected : bool)
    (snapshot : PublicationSnapshot) : outcome CoreError unit :=
  _ ← fail_if (protected && snap_bookmark_target_conflicted snapshot)
        (CoreFailedPrecondition ("protected bookmark " +:+ debug_str bookmark +:+
                                 " cannot publish a conflicted bookmark target"));
  conflicts ← map_err CoreJj (snap_conflicted_declarations snapshot);
  _ ← fail_if (protected && negb (bool_decide (conflicts = [])))
        (CoreFailedPrecondition ("protected bookmark " +:+ debug_str bookmark +:+
                                 " cannot publish unresolved conflicts: " +:+ join ", " conflicts));
  listed ← map_err CoreJj (snap_list_schemas snapshot);
  let final_schemas : gset string := list_to_set listed in
  let disappeared := snap_known_schema_names snapshot ∖ final_schemas in
  if bool_decide (disappeared = ∅) then Ok tt else
  _ ← match List.find (ends_with "/__meta__") conflicts with
      | Some conflict => precondition ("cannot prove reference integrity while " +:+ conflict +:+
                                       " is conflicted")
      | None => Ok tt
      end;
  dangling ← dangling_in project repo snapshot disappeared (snap_known_schema_names snapshot)
               (btree_set_iter final_schemas);
  let dangling := vec_dedup (sort_strings dangling) in
  fail_if (negb (bool_decide (dangling = [])))
    (CoreFailedPrecondition
       ("final repository state contains live unpinned imports to deleted schemas: " +:+
        join ", " dangling)).

End Imports.

(** ** The compatibility gate *)

(** The first loop of [gate]. *)
Fixpoint upsert_violations (compiler : Compiler) (rules : CompatibilityRules) (old : SchemaObjects)
    (upserts : list (string * DeclBlob)) : outcome CoreError (list CompatibilityViolation) :=
  match upserts with
  | [] => Ok []
  | (name, new_blob) :: upserts =>
    here ← match so_decls old !! name with
           | None => Ok []
           | Some old_blob =>
             match cp_check_compatibility compiler old_blob new_blob rules with
             | Ok _ => Ok []
             | Err violations => Ok violations
             | Panic => Panic
             | Stuck => Stuck
             end
           end;
    rest ← upsert_violations compiler rules old upserts;
    Ok (here ++ rest)
  end.

Definition gate (compiler : Compiler) (rules : CompatibilityRules) (old : SchemaObjects)
    (effect : MutationEffect) : outcome CoreError unit :=
  if cr_disabled rules then Ok tt else
  changed ← upsert_violations compiler rules old (me_upserts effect);
  let violations :=
    changed ++ ((λ name, mkCompatibilityViolation name None "top-level declaration removed")
                <$> me_removes effect) in
  match violations with
  | [] => Ok tt
  | _ => Err (Incompatible violations)
  end.

(** ** What the policy guarantees *)

Section Policy.
Context {RF : RustFmt} (registry : CompilerRegistry).

Lemma vec_dedup_nil (l : list string) : vec_dedup l = [] → l = [].
Proof.
  induction l as [|x [|y l] IH]; [done..|]. cbn [vec_dedup].
  destruct (bool_decide (x = y)); [|done]. intros H. by apply IH in H.
Qed.

Lemma sort_strings_nil l : sort_strings l = [] → l = [].
Proof.
  intros H. pose proof (merge_sort_Permutation String.le l) as Hp. unfold sort_strings in H.
  rewrite H in Hp. by apply Permutation_nil_l in Hp.
Qed.

Lemma dangling_of_nil project repo schema_name disappeared resolution imports import target :
  dangling_of project repo schema_name disappeared resolution imports = Ok [] →
  import ∈ imports → im_resolved_commit import = ""%string →
  normalize_import_path (mkSchemaPath project repo schema_name) (im_path import) resolution = Ok target →
  sp_project target = project → sp_repo target = repo → sp_schema_name target ∉ disappeared.
Proof.
  induction imports as [|i imports IH]; intros H Hin Hpin Hnorm Hp Hr;
    [by apply not_elem_of_nil in Hin|]. cbn [dangling_of] in H.
  apply elem_of_cons in Hin as [->|Hin].
  - rewrite Hpin in H. cbn [negb str_is_empty] in H. rewrite Hnorm in H.
    cbn [mbind outcome_bind] in H. ok_inv H. intros Hd.
    rewrite !bool_decide_eq_true_2 in H by done. done.
  - destruct (negb _); [by apply IH|]. ok_inv H. case_match; simplify_eq. by apply IH.
Qed.

Lemma dangling_in_nil project repo snapshot disappeared resolution schemas schema_name objects compiler imports :
  dangling_in registry project repo snapshot disappeared resolution schemas = Ok [] →
  schema_name ∈ schemas → snap_load_schema snapshot schema_name = Ok objects →
  compiler_for registry schema_name = Ok compiler → cp_imports compiler objects = Ok imports →
  dangling_of project repo schema_name disappeared resolution imports = Ok [].
Proof.
  induction schemas as [|s schemas IH]; intros H Hin Hload Hc Hi; [by apply not_elem_of_nil in Hin|].
  cbn [dangling_in] in H. ok_inv H. apply app_nil in H as [-> ->].
  apply elem_of_cons in Hin as [->|Hin]; [|by eapply IH]. congruence.
Qed.

(** C30. A publication that the policy accepts: a protected bookmark gets neither
    a conflicted target nor a conflicted declaration; and no schema of the final
    tree keeps a live import, without a pinned commit, of a schema of its own
    repository that was there before and is gone. *)
Theorem accepted_publication_has_integrity (project repo bookmark : string) (protected : bool)
    (snapshot : PublicationSnapshot) :
  validate_publication_snapshot registry project repo bookmark protected snapshot = Ok tt →
  (protected = true →
     snap_bookmark_target_conflicted snapshot = false ∧ snap_conflicted_declarations snapshot = Ok []) ∧
  ∀ final schema_name objects compiler imports import target,
    snap_list_schemas snapshot = Ok final → schema_name ∈ final →
    snap_load_schema snapshot schema_name = Ok objects →
    compiler_for registry schema_name = Ok compiler → cp_imports compiler objects = Ok imports →
    import ∈ imports → im_resolved_commit import = ""%string →
    normalize_import_path (mkSchemaPath project repo schema_name) (im_path import)
      (snap_known_schema_names snapshot) = Ok target →
    sp_project target = project → sp_repo target = repo →
    sp_schema_name target ∈ snap_known_schema_names snapshot → sp_schema_name target ∈ final.
Proof.
  intros H. unfold validate_publication_snapshot in H. ok_inv H. rename x0 into conflicts, x2 into listed.
  split.
  { intros ->. cbn in Hok, Hok1. apply negb_false_iff, bool_decide_eq_true in Hok1 as ->. done. }
  intros final schema_name objects compiler imports import target Hfinal Hin Hload Hc Hi Himp Hpin Hnorm Hp Hr Hk.
  rewrite Hfinal in Hok2. injection Hok2 as <-. cbv zeta in H.
  destruct (decide (sp_schema_name target ∈ final)) as [|Hgone]; [done|exfalso].
  assert (sp_schema_name target ∈ snap_known_schema_names snapshot ∖ list_to_set final) as Hd by set_solver.
  rewrite bool_decide_eq_false_2 in H by set_solver. ok_inv H.
  apply fail_if_Ok, negb_false_iff, bool_decide_eq_true in H.
  apply vec_dedup_nil, sort_strings_nil in H as ->.
  assert (schema_name ∈ btree_set_iter (list_to_set final)) as Hin'.
  { apply elem_of_btree_set_iter. by apply elem_of_list_to_set. }
  pose proof (dangling_in_nil _ _ _ _ _ _ _ _ _ _ Hok3 Hin' Hload Hc Hi) as Hnil.
  by eapply dangling_of_nil in Hnil.
Qed.

(** ** What the gate guarantees *)

(** The compiler reports an incompatible change with at least one violation. *)
Definition reports_violations (compiler : Compiler) : Prop :=
  ∀ old new rules, cp_check_compatibility compiler old new rules ≠ Err [].

Lemma upsert_violations_nil compiler rules old upserts :
  reports_violations compiler →
  upsert_violations compiler rules old upserts = Ok [] ↔
  ∀ name new_blob old_blob, (name, new_blob) ∈ upserts → so_decls old !! name = Some old_blob →
    is_ok (cp_check_compatibility compiler old_blob new_blob rules) = true.
Proof.
  intros Hrep. induction upserts as [|[name new_blob] upserts IH]; cbn [upsert_violations].
  { split; [|done]. intros _ n b o H. by apply not_elem_of_nil in H. }
  split.
  - intros H. ok_inv H. apply app_nil in H as [-> ->].
    intros n b o [[= -> ->]|Hin]%elem_of_cons Ho; [|by eapply IH].
    rewrite Ho in Hok. specialize (Hrep o new_blob rules).
    destruct (cp_check_compatibility _ _ _ _); simplify_eq; done.
  - intros H. assert (upsert_violations compiler rules old upserts = Ok []) as ->.
    { apply IH. intros n b o Hin. apply H. by right. }
    destruct (so_decls old !! name) as [o|] eqn:Ho; [|done].
    specialize (H name new_blob o (list_elem_of_here _ _) Ho). by destruct (cp_check_compatibility _ _ _ _).
Qed.

(** The gate of a protected bookmark passes an effect exactly if checking is
    disabled, or the effect removes no declaration and every declaration it
    changes is compatible with its stored version under the compiler's check;
    added declarations are not checked. *)
Theorem gate_spec (compiler : Compiler) (rules : CompatibilityRules) (old : SchemaObjects)
    (effect : MutationEffect) :
  reports_violations compiler →
  gate compiler rules old effect = Ok tt ↔
  cr_disabled rules = true ∨
  (me_removes effect = [] ∧
   ∀ name new_blob old_blob, (name, new_blob) ∈ me_upserts effect → so_decls old !! name = Some old_blob →
     is_ok (cp_check_compatibility compiler old_blob new_blob rules) = true).
Proof.
  intros Hrep. unfold gate. destruct (cr_disabled rules); [naive_solver|].
  rewrite <- (upsert_violations_nil compiler rules old (me_upserts effect) Hrep). split.
  - intros H. right. ok_inv H. cbv zeta in H. destruct (_ ++ _) eqn:Happ; [|done].
    apply app_nil in Happ as [-> Hr]. by apply fmap_nil_inv in Hr.
  - intros [|[-> ->]]; done.
Qed.

End Policy.
