(* ===== verification/Access.v ===== *)
(** * Access: authentication, authorization, projects and repositories

    [crates/schemahub-core/src/auth_impls.rs], [auth.rs], [projects.rs] and the
    authorized operations of [repository.rs], with the interfaces and the no-op
    implementations of [crates/schemahub-types/src/auth.rs]. Every operation of
    [Core] is a program of requests to the project, role and repository stores,
    the clock and the jj repository. *)
From S2P Require Import Prelude RustStd SchemaTypes ChangeModel Prog ObjectDb RecordStore AccessStore Repository CoreTypes.
From Stdlib Require Import Ascii.

Open Scope Z_scope.

(** ** Requests and errors *)

Inductive core_req : Type → Type :=
  | OnAccess {X} (q : access_req X) : core_req X
  | OnRepository {X} (q : repo_req X) : core_req X
  | SystemTimeMillis : core_req (outcome RepositoryError Z)
  | JjListBookmarks (project repo : string) :
    core_req (outcome JjError (list (string * list string)))
  | JjListTags (project repo : string) : core_req (outcome JjError (list (string * string))).

Abbreviation core := (action core_req CoreError).

Definition on_access {A} (q : access_req (outcome AccessStoreError A)) : core A :=
  try_call CoreAccessStore (OnAccess q).
Definition on_repository {A} (q : repo_req (outcome RepositoryStoreError A)) : core A :=
  try_call (λ e, CoreRepository (RepoStore e)) (OnRepository q).
Definition system_time_millis : core Z := try_call CoreRepository SystemTimeMillis.

(** ** Authentication *)

Class AuthnProvider := identify : option string → outcome AuthnError Identity.

Definition noop_authn : AuthnProvider := λ _, Ok Anonymous.

Definition bearer_authn (tokens : gmap string Identity) : AuthnProvider := λ token,
  match token with
  | None => Ok Anonymous
  | Some t => if str_is_empty t then Ok Anonymous else Ok (default Anonymous (tokens !! t))
  end.

(** ** Authorization *)

Class AuthzPolicy :=
  authz_check : Identity → Action → ResourcePath → action core_req AuthzError unit.

Definition noop_authz : AuthzPolicy := λ _ _ _, mret tt.

(** [RoleBasedAuthz::min_role]. *)
Definition min_role (action : Action) : Role :=
  match action with
  | Read => RoleReader
  | Write_ => Writer_
  | Force => Maintainer
  | ManageRepo => Maintainer
  | ManageProject => Owner
  end.

Definition role_based_check (caller : Identity) (act : Action) (resource : ResourcePath) :
    action core_req AuthzError unit :=
  let backend e := AuthzBackend (fmt_access_error e) in
  project ← try_call backend (OnAccess (ProjectGet (rp_project resource)));
  _ ← pure_step (fail_if (match project with Some p => pm_archived p | None => false end)
        (PermissionDenied ("project '" +:+ rp_project resource +:+ "' is archived")));
  let visibility := match project with Some p => pm_visibility p | None => Private end in
  if bool_decide (act = Read) && bool_decide (visibility = Public) then mret tt else
  _ ← pure_step (fail_if (is_anonymous caller)
        (PermissionDenied ("anonymous access denied for " +:+ debug_action act +:+ " on project '"
                           +:+ rp_project resource +:+ "'")));
  let needed := min_role act in
  found ← try_call backend (OnAccess (RoleGet (rp_project resource) caller));
  match found with
  | Some role =>
    if role_ge role needed then mret tt
    else pure_step (Err (PermissionDenied
           ("role " +:+ debug_role role +:+ " cannot " +:+ debug_action act +:+ " on project '" +:+
            rp_project resource +:+ "' (need " +:+ debug_role needed +:+ "+)")))
  | None => pure_step (Err (PermissionDenied
              ("caller has no role on project '" +:+ rp_project resource +:+ "'")))
  end.

Definition role_based_authz : AuthzPolicy := role_based_check.

(** [?] on the result of a policy. *)
Definition lift_authz {A} (m : action core_req AuthzError A) : core A :=
  prog_bind m (λ r, Ret (map_err CoreAuthz r)).

Definition resource_project (project : string) : ResourcePath := mkResourcePath project None.
Definition resource_repo (project repo : string) : ResourcePath := mkResourcePath project (Some repo).

(** [ProjectUpdate] has one field. *)
Record ProjectUpdate := mkProjectUpdate { pu_visibility : option ProjectVisibility }.

Definition project_update_is_empty (u : ProjectUpdate) : bool := is_none (pu_visibility u).

Definition pm_with_visibility (m : ProjectMeta) (v : ProjectVisibility) (now : Z) : ProjectMeta :=
  mkProjectMeta (pm_name m) v (pm_creator m) (pm_etag m) (pm_create_time_unix_ms m) now
    (pm_archived m) (pm_archive_time_unix_ms m).

Definition pm_with_archive (m : ProjectMeta) (now : Z) : ProjectMeta :=
  mkProjectMeta (pm_name m) (pm_visibility m) (pm_creator m) (pm_etag m) (pm_create_time_unix_ms m) now
    true (Some now).

Section Core.
Context {AN : AuthnProvider} {AZ : AuthzPolicy}.

Definition core_identify (token : option string) : core Identity :=
  pure_step (map_err CoreAuthn (identify token)).

Definition check_access (identity : Identity) (act : Action) (resource : ResourcePath) : core unit :=
  lift_authz (authz_check identity act resource).

Definition authorize (token : option string) (act : Action) (project repo : string) : core Identity :=
  identity ← core_identify token;
  _ ← check_access identity act (resource_repo project repo);
  mret identity.

Definition authorize_repo_action (token : option string) (act : Action) (project repo : string) :
    core Identity :=
  authorize token act project repo.

Definition resolve_identity (token : option string) : core Identity := core_identify token.

(** ** [projects.rs] *)

Definition validate_project_name (name : string) : outcome CoreError unit :=
  fail_if (str_is_empty (trim name) || contains_char "/" name || has_control name
           || (128 <? str_len name))
    (CoreInvalidArgument
       "project name must be a 1-128 character resource path segment without control characters").

Definition validate_project_etag (etag : string) : outcome CoreError unit :=
  fail_if (str_is_empty etag) (CoreInvalidArgument "project etag must not be empty").

Definition ensure_project_exists (project : string) : core unit :=
  found ← on_access (ProjectGet project);
  meta ← pure_step (ok_or found (CoreAccessStore (AccessNotFound project)));
  pure_step (fail_if (pm_archived meta)
               (CoreFailedPrecondition ("project '" +:+ project +:+ "' is archived"))).

Definition authorize_project_owner (project : string) (identity : Identity) : core unit :=
  match identity_id identity with
  | None => pure_step (Err (CoreAuthz (PermissionDenied
              ("anonymous access denied for archived project '" +:+ project +:+ "'"))))
  | Some identity_id =>
    found ← on_access (RoleGet project identity);
    match found with
    | Some Owner => mret tt
    | Some role => pure_step (Err (CoreAuthz (PermissionDenied
                     ("role " +:+ debug_role role +:+ " cannot manage project '" +:+ project +:+
                      "' (need Owner)"))))
    | None => pure_step (Err (CoreAuthz (PermissionDenied
                ("caller '" +:+ identity_id +:+ "' is not an Owner of project '" +:+ project +:+ "'"))))
    end
  end.

Definition authorize_project_read (meta : ProjectMeta) (identity : Identity) : core unit :=
  if pm_archived meta then authorize_project_owner (pm_name meta) identity
  else check_access identity Read (resource_project (pm_name meta)).

Definition create_project (name : string) (visibility : ProjectVisibility) (token : option string) :
    core ProjectMeta :=
  _ ← pure_step (validate_project_name name);
  caller ← core_identify token;
  _ ← pure_step (fail_if (is_anonymous caller)
        (CoreAuthz (PermissionDenied "anonymous identities cannot create projects")));
  let creator := default ""%string (identity_id caller) in
  now ← system_time_millis;
  on_access (ProjectCreateWithOwner (project_meta_new name visibility creator now) creator).

Definition get_project_with_archived (name : string) (include_archived : bool) (token : option string) :
    core (option ProjectMeta) :=
  _ ← pure_step (validate_project_name name);
  found ← on_access (ProjectGet name);
  match found with
  | None => mret None
  | Some meta =>
    if pm_archived meta && negb include_archived then mret None else
    identity ← core_identify token;
    _ ← authorize_project_read meta identity;
    mret (Some meta)
  end.

Definition get_project (name : string) (token : option string) : core (option ProjectMeta) :=
  get_project_with_archived name false token.

(** The loop of [list_projects_with_archived]: a project the caller may not read
    is skipped, any other failure ends the call. *)
Fixpoint visible_projects (include_archived : bool) (identity : Identity) (all : list ProjectMeta) :
    core (list ProjectMeta) :=
  match all with
  | [] => mret []
  | meta :: all =>
    if pm_archived meta && negb include_archived then visible_projects include_archived identity all
    else
      prog_bind (authorize_project_read meta identity) (λ r,
        match r with
        | Ok _ => visible ← visible_projects include_archived identity all; mret (meta :: visible)
        | Err (CoreAuthz (PermissionDenied _)) => visible_projects include_archived identity all
        | Err e => Ret (Err e)
        | Panic => Ret Panic
        | Stuck => Ret Stuck
        end)
  end.

Definition list_projects_with_archived (include_archived : bool) (token : option string) :
    core (list ProjectMeta) :=
  identity ← core_identify token;
  all ← on_access ProjectList;
  visible_projects include_archived identity all.

Definition list_projects (token : option string) : core (list ProjectMeta) :=
  list_projects_with_archived false token.

Definition update_project (name expected_etag : string) (patch : ProjectUpdate) (token : option string) :
    core ProjectMeta :=
  _ ← pure_step (validate_project_name name);
  _ ← pure_step (validate_project_etag expected_etag);
  _ ← pure_step (fail_if (project_update_is_empty patch)
                   (CoreInvalidArgument "update mask selects no project fields"));
  identity ← core_identify token;
  _ ← check_access identity ManageProject (resource_project name);
  found ← on_access (ProjectGet name);
  meta ← pure_step (ok_or found (CoreAccessStore (AccessNotFound name)));
  _ ← pure_step (fail_if (pm_archived meta)
                   (CoreFailedPrecondition "an archived project cannot be updated"));
  now ← system_time_millis;
  on_access (ProjectReplace expected_etag
    (pm_with_visibility meta (default (pm_visibility meta) (pu_visibility patch)) now)).

Definition archive_project (name expected_etag : string) (force : bool) (token : option string) :
    core ProjectMeta :=
  _ ← pure_step (validate_project_name name);
  _ ← pure_step (validate_project_etag expected_etag);
  found ← on_access (ProjectGet name);
  meta ← pure_step (ok_or found (CoreAccessStore (AccessNotFound name)));
  identity ← core_identify token;
  _ ← authorize_project_owner name identity;
  if pm_archived meta then
    _ ← pure_step (fail_if (negb (bool_decide (pm_etag meta = expected_etag)))
          (CoreAccessStore (AccessEtagMismatch name expected_etag (pm_etag meta))));
    mret meta
  else
    _ ← (if force then mret tt
         else repos ← on_repository (RepoList name);
              pure_step (fail_if (match repos with [] => false | _ => true end)
                (CoreFailedPrecondition
                   "project has repository records; set force=true to archive while retaining them")));
    now ← system_time_millis;
    on_access (ProjectReplace expected_etag (pm_with_archive meta now)).

(** *** Members *)

Definition owners_of (members : list (string * Role)) : list string :=
  (List.filter (λ m, bool_decide (m.2 = Owner)) members).*1.

Definition guard_last_owner (project candidate_id : string) (removing : bool) (new_role : option Role) :
    core unit :=
  members ← on_access (RoleListProject project);
  let owners := owners_of members in
  if negb (bool_decide (candidate_id ∈ owners)) then mret tt else
  let losing_owner :=
    removing || match new_role with Some r => bool_decide (r ≠ Owner) | None => false end in
  pure_step (fail_if (losing_owner && (Z.of_nat (length owners) <=? 1))
    (CoreAuthz (PermissionDenied
       ("refusing to leave project '" +:+ project +:+ "' with zero Owners")))).

Definition add_member (project identity_id : string) (role : Role) (token : option string) : core unit :=
  _ ← ensure_project_exists project;
  _ ← authorize token ManageProject project "";
  on_access (RoleSet project identity_id role).

Definition remove_member (project identity_id : string) (token : option string) : core unit :=
  _ ← ensure_project_exists project;
  _ ← authorize token ManageProject project "";
  _ ← guard_last_owner project identity_id true None;
  on_access (RoleRemove project identity_id).

Definition update_member_role (project identity_id : string) (new_role : Role) (token : option string) :
    core unit :=
  _ ← ensure_project_exists project;
  _ ← authorize token ManageProject project "";
  _ ← guard_last_owner project identity_id false (Some new_role);
  on_access (RoleSet project identity_id new_role).

Definition list_members (project : string) (token : option string) : core (list (string * Role)) :=
  _ ← ensure_project_exists project;
  identity ← core_identify token;
  _ ← check_access identity Read (resource_project project);
  on_access (RoleListProject project).

(** ** The operations of [repository.rs] *)

Context {RF : RustFmt}.

(** [?] on a [RepositoryError]. *)
Definition repo_step {A} (r : outcome RepositoryError A) : core A :=
  pure_step (map_err CoreRepository r).

Definition create_repository (input : CreateRepository) (token : option string) : core Repository :=
  _ ← repo_step (repo_validate_segment "project" (crp_project input));
  _ ← repo_step (repo_validate_segment "repo" (crp_name input));
  _ ← repo_step (validate_config (crp_config input));
  _ ← ensure_project_exists (crp_project input);
  identity ← authorize_repo_action token ManageRepo (crp_project input) (crp_name input);
  now ← system_time_millis;
  on_repository (RepoCreate (repository_new (crp_project input) (crp_name input) (crp_config input)
                               (default "anonymous"%string (identity_id identity)) now)).

Definition get_repository (project repo : string) (include_archived : bool) (token : option string) :
    core (option Repository) :=
  _ ← repo_step (repo_validate_segment "project" project);
  _ ← repo_step (repo_validate_segment "repo" repo);
  _ ← authorize_repo_action token Read project repo;
  found ← on_repository (RepoGet project repo);
  mret (match found with
        | Some r => if include_archived || negb (rp_archived r) then Some r else None
        | None => None
        end).

Definition list_repositories (project : string) (include_archived : bool) (token : option string) :
    core (list Repository) :=
  _ ← repo_step (repo_validate_segment "project" project);
  _ ← ensure_project_exists project;
  _ ← authorize_repo_action token Read project "";
  found ← on_repository (RepoList project);
  mret (List.filter (λ r, include_archived || negb (rp_archived r)) found).

Definition patch_config (c : RepoConfig) (u : RepositoryUpdate) : RepoConfig :=
  mkRepoConfig (default (default_bookmark c) (ru_default_bookmark u))
    (default (compatibility_direction c) (ru_compatibility_direction u))
    (default (protected_bookmarks c) (ru_protected_bookmarks u))
    (default (review_policy c) (ru_review_policy u))
    (default (serving_policy c) (ru_serving_policy u)).

Definition update_repository (project repo expected_etag : string) (patch : RepositoryUpdate)
    (token : option string) : core Repository :=
  _ ← repo_step (repo_validate_segment "project" project);
  _ ← repo_step (repo_validate_segment "repo" repo);
  _ ← repo_step (validate_expected_etag expected_etag);
  _ ← repo_step (fail_if (repository_update_is_empty patch)
                   (RepoInvalidArgument "update mask selects no repository fields"));
  _ ← authorize_repo_action token ManageRepo project repo;
  found ← on_repository (RepoGet project repo);
  repository ← repo_step (ok_or found (RepoStore (RepoNotFound (repo_resource_name project repo))));
  _ ← repo_step (fail_if (rp_archived repository)
                   (RepoFailedPrecondition "an archived repository cannot be updated"));
  let config := patch_config (rp_config repository) patch in
  _ ← repo_step (validate_config config);
  now ← system_time_millis;
  on_repository (RepoReplace expected_etag (rp_with_config repository config now)).

Definition repository_has_refs (project repo : string) : core bool :=
  bookmarks ← try_call CoreJj (JjListBookmarks project repo);
  if existsb (λ b, match b.2 with [] => false | _ => true end) bookmarks then mret true else
  tags ← try_call CoreJj (JjListTags project repo);
  mret (match tags with [] => false | _ => true end).

Definition archive_repository (project repo expected_etag : string) (force : bool)
    (token : option string) : core Repository :=
  _ ← repo_step (repo_validate_segment "project" project);
  _ ← repo_step (repo_validate_segment "repo" repo);
  _ ← repo_step (validate_expected_etag expected_etag);
  _ ← authorize_repo_action token ManageRepo project repo;
  found ← on_repository (RepoGet project repo);
  repository ← repo_step (ok_or found (RepoStore (RepoNotFound (repo_resource_name project repo))));
  if rp_archived repository then
    _ ← repo_step (fail_if (negb (bool_decide (rp_etag repository = expected_etag)))
          (RepoStore (RepoEtagMismatch (rp_resource_name repository) expected_etag (rp_etag repository))));
    mret repository
  else
    _ ← (if force then mret tt
         else has_refs ← repository_has_refs project repo;
              repo_step (fail_if has_refs (RepoFailedPrecondition
                "repository has schema refs; set force=true to archive while retaining history")));
    now ← system_time_millis;
    on_repository (RepoReplace expected_etag (rp_with_archive repository now)).

(** The start-up configuration is the fallback of unregistered repositories. *)
Definition effective_repo_config (repo_configs : RepoConfigStore) (project repo : string) :
    core RepoConfig :=
  found ← on_repository (RepoGet project repo);
  match found with
  | Some repository =>
    if rp_archived repository
    then repo_step (Err (RepoFailedPrecondition
           ("repository " +:+ project +:+ "/" +:+ repo +:+ " is archived")))
    else mret (rp_config repository)
  | None => mret (config_get project repo repo_configs)
  end.

Definition repository_default_bookmark (repo_configs : RepoConfigStore) (project repo : string)
    (act : Action) (token : option string) : core string :=
  _ ← repo_step (repo_validate_segment "project" project);
  _ ← repo_step (repo_validate_segment "repo" repo);
  _ ← authorize_repo_action token act project repo;
  config ← effective_repo_config repo_configs project repo;
  mret (default_bookmark config).

Definition ensure_direct_write_allowed (repo_configs : RepoConfigStore) (project repo : string) :
    core unit :=
  config ← effective_repo_config repo_configs project repo;
  repo_step (fail_if (require_change_record (review_policy config)) (RepoFailedPrecondition
    "repository policy requires publication through a ChangeRecord")).

End Core.
