(* ===== verification/AccessProps.v ===== *)
(** * AccessProps: who may change what

    The operations of [Access] under the bearer-token or any other
    authentication provider and role-based authorization, run against the
    contract of the stores. A store may fail at any request, the clock and the
    jj repository may answer anything. *)
From S2P Require Import Prelude RustStd SchemaTypes ChangeModel Prog ObjectDb RecordStore AccessStore Repository CoreTypes Access.

Open Scope Z_scope.

(** ** Semantics *)

Record core_state := mkCore {
  cs_access : access_state;
  cs_repos : gmap string Repository;
}.

Definition core_empty : core_state := mkCore (mkAccess ∅ ∅) ∅.

Definition with_access (s : core_state) (a : access_state) : core_state := mkCore a (cs_repos s).
Definition with_repos (s : core_state) (r : gmap string Repository) : core_state := mkCore (cs_access s) r.

Section Semantics.
Context {J : AccessJson} {RJ : RepositoryJson}.

(** A backend failure, which leaves the store as it was. *)
Definition access_failed (X : Type) (q : access_req X) : X → Prop :=
  match q in access_req X return X → Prop with
  | RoleGet _ _ | RoleSet _ _ _ | RoleRemove _ _ | RoleListProject _ | ProjectGet _
  | ProjectCreateWithOwner _ _ | ProjectSet _ | ProjectReplace _ _ | ProjectList =>
    λ x, ∃ m, x = Err (AccessBackend m)
  end.

Definition repo_failed (X : Type) (q : repo_req X) : X → Prop :=
  match q in repo_req X return X → Prop with
  | RepoCreate _ | RepoGet _ _ | RepoList _ | RepoReplace _ _ => λ x, ∃ m, x = Err (RepoBackend m)
  end.

Definition core_serve (X : Type) (q : core_req X) (s : core_state) : X → core_state → Prop :=
  match q in core_req X return X → core_state → Prop with
  | OnAccess q => λ x s',
    (x = (access_serve _ q (cs_access s)).1 ∧ s' = with_access s (access_serve _ q (cs_access s)).2)
    ∨ (access_failed _ q x ∧ s' = s)
  | OnRepository q => λ x s',
    (x = (memory_repo_serve _ q (cs_repos s)).1 ∧ s' = with_repos s (memory_repo_serve _ q (cs_repos s)).2)
    ∨ (repo_failed _ q x ∧ s' = s)
  | SystemTimeMillis | JjListBookmarks _ _ | JjListTags _ _ => λ _ s', s' = s
  end.

(** Stores that do not fail, a clock, and a jj repository without refs. *)
Definition core_handle (now : Z) (X : Type) (q : core_req X) (s : core_state) : X * core_state :=
  match q in core_req X return X * core_state with
  | OnAccess q => let '(x, a) := access_serve _ q (cs_access s) in (x, with_access s a)
  | OnRepository q => let '(x, r) := memory_repo_serve _ q (cs_repos s) in (x, with_repos s r)
  | SystemTimeMillis => (Ok now, s)
  | JjListBookmarks _ _ => (Ok [], s)
  | JjListTags _ _ => (Ok [], s)
  end.

Lemma core_handle_serve now X (q : core_req X) s :
  core_serve X q s (core_handle now X q s).1 (core_handle now X q s).2.
Proof.
  destruct q as [X q|X q| | |]; cbn; try done.
  - left. by destruct (access_serve X q (cs_access s)).
  - left. by destruct (memory_repo_serve X q (cs_repos s)).
Qed.

(** ** The authorization decision *)

(** The project is not archived. (An unknown project is not.) *)
Definition not_archived (a : access_state) (project : string) : Prop :=
  ∀ m, st_projects a !! project = Some m → pm_archived m = false.

Definition has_role (a : access_state) (caller : Identity) (project : string) (least : Role) : Prop :=
  ∃ id role, identity_id caller = Some id ∧ active_role a project id = Some role ∧
             role_ge role least = true.

(** The rules in the documentation of [RoleBasedAuthz]. *)
Definition allowed (a : access_state) (caller : Identity) (act : Action) (project : string) : Prop :=
  not_archived a project ∧
  ((act = Read ∧ ∃ m, st_projects a !! project = Some m ∧ pm_visibility m = Public) ∨
   has_role a caller project (min_role act)).

#[export] Instance not_archived_dec a p : Decision (not_archived a p).
Proof.
  refine (match st_projects a !! p as o return st_projects a !! p = o → _ with
          | Some m => λ H, cast_if (decide (pm_archived m = false))
          | None => λ H, left _
          end eq_refl); unfold not_archived; naive_solver.
Defined.

Lemma with_own_access s : with_access s (cs_access s) = s.
Proof. by destruct s. Qed.

Lemma with_own_repos s : with_repos s (cs_repos s) = s.
Proof. by destruct s. Qed.

(** Run a program against stores that do not fail. *)
Ltac run_core :=
  cbn [interp core_handle access_serve prog_bind mbind action_bind pure_step try_call map_err mret
       action_ret fail_if negb fst snd lift_authz].

Lemma not_archived_spec a p :
  match st_projects a !! p with Some m => pm_archived m | None => false end = false ↔ not_archived a p.
Proof.
  unfold not_archived. destruct (st_projects a !! p) as [m|]; [|done].
  split; [intros H m' [= <-]; done|]. intros H. by apply H.
Qed.

Lemma public_read_spec a p act :
  bool_decide (act = Read) &&
  bool_decide (match st_projects a !! p with Some m => pm_visibility m | None => Private end = Public)
  = true ↔ act = Read ∧ ∃ m, st_projects a !! p = Some m ∧ pm_visibility m = Public.
Proof.
  rewrite andb_true_iff, !bool_decide_eq_true. destruct (st_projects a !! p) as [m|]; naive_solver.
Qed.

Lemma anonymous_no_id caller : is_anonymous caller = true ↔ identity_id caller = None.
Proof. by destruct caller. Qed.

(** Role-based authorization decides exactly as documented: a request is
    granted if and only if the project is not archived and either it reads a
    project that is public or the caller is authenticated and has, on that
    project, at least the role the action requires; unknown projects count as
    private. The decision changes nothing. *)
Theorem authz_decision (now : Z) (caller : Identity) (act : Action) (resource : ResourcePath)
    (s : core_state) :
  let '(r, s') := interp (core_handle now) (role_based_check caller act resource) s in
  s' = s ∧ (r = Ok tt ↔ allowed (cs_access s) caller act (rp_project resource)).
Proof.
  destruct resource as [p repo]. unfold role_based_check, allowed. cbn [rp_project]. run_core.
  rewrite with_own_access. pose proof (not_archived_spec (cs_access s) p) as Hna.
  pose proof (public_read_spec (cs_access s) p act) as Hpub.
  destruct (match _ with Some m => pm_archived m | None => false end); run_core; [naive_solver|].
  destruct (bool_decide (act = Read) && _); run_core; [naive_solver|].
  unfold has_role. destruct (is_anonymous caller) eqn:Han; run_core.
  { apply anonymous_no_id in Han. naive_solver. }
  rewrite with_own_access. destruct (identity_id caller) as [id|] eqn:Hid.
  2:{ apply anonymous_no_id in Hid. congruence. }
  cbn [mbind option_bind].
  destruct (active_role (cs_access s) p id) as [role|] eqn:Hrole; run_core; [|naive_solver].
  destruct (role_ge role (min_role act)) eqn:Hge; run_core; naive_solver.
Qed.

(** ** Rules for runs *)

Lemma reads_access X (q : access_req X) :
  match q with
  | RoleGet _ _ | RoleListProject _ | ProjectGet _ | ProjectList => True
  | _ => False
  end → reads core_serve (OnAccess q).
Proof.
  destruct q; try done; intros _ s x s'; cbn; rewrite with_own_access; naive_solver.
Qed.

Lemma reads_repository X (q : repo_req X) :
  match q with RepoGet _ _ | RepoList _ => True | _ => False end → reads core_serve (OnRepository q).
Proof. destruct q; try done; intros _ s x s'; cbn; rewrite with_own_repos; naive_solver. Qed.

(** The call failed and nothing changed, or it succeeded with the effect [P]. *)
Definition atomic {A} (r : outcome CoreError A) (s s' : core_state) (P : Prop) : Prop :=
  (is_ok r = false ∧ s' = s) ∨ (is_ok r = true ∧ P).

Lemma atomic_step {A B} (m : core A) (f : A → core B) s r s' (P : Prop) :
  read_only core_serve m → runs core_serve (m ≫= f) s r s' →
  (∀ a, runs core_serve m s (Ok a) s → runs core_serve (f a) s r s' → atomic r s s' P) →
  atomic r s s' P.
Proof.
  intros Hm H Hf. apply runs_read_step in H as [[-> Hr]|(a & Ha & H)]; [by left| |done]. eauto.
Qed.

Lemma atomic_impl {A} (r : outcome CoreError A) s s' (P Q : Prop) :
  atomic r s s' P → (P → Q) → atomic r s s' Q.
Proof. unfold atomic. naive_solver. Qed.

(** A program without writes. *)
Lemma atomic_read {A} (m : core A) s r s' (P : Prop) :
  read_only core_serve m → runs core_serve m s r s' → (s' = s → P) → atomic r s s' P.
Proof.
  intros Hm H HP. apply read_only_runs in H; [|done]. unfold atomic.
  destruct (is_ok r); auto.
Qed.

Lemma role_based_check_read_only caller act resource :
  read_only core_serve (role_based_check caller act resource).
Proof.
  unfold role_based_check. apply read_only_then; [by split; [apply reads_access|]|]. intros project.
  apply read_only_then; [done|]. intros _. destruct (_ && _); [done|].
  apply read_only_then; [done|]. intros _. apply read_only_then; [by split; [apply reads_access|]|].
  intros [role|]; [by destruct (role_ge _ _)|done].
Qed.

(** *** Answers of the stores *)

Ltac answer H :=
  apply runs_try in H as (x & [[-> ->]|[Hf ->]] & Hr); [|destruct Hf as [? ->]]; cbn in Hr;
  simplify_eq; cbn.

Lemma runs_project_get p s a s' :
  runs core_serve (on_access (ProjectGet p)) s (Ok a) s' → a = st_projects (cs_access s) !! p.
Proof. intros H. answer H. done. Qed.

Lemma runs_role_get p i s a s' :
  runs core_serve (on_access (RoleGet p i)) s (Ok a) s' → a = identity_id i ≫= active_role (cs_access s) p.
Proof. intros H. answer H. done. Qed.

Lemma runs_role_list p s a s' :
  runs core_serve (on_access (RoleListProject p)) s (Ok a) s' →
  a = merge_sort key_le (active_members p (cs_access s)).
Proof. intros H. answer H. done. Qed.

Lemma runs_project_list s a s' :
  runs core_serve (on_access ProjectList) s (Ok a) s' → a = mem_list (λ _, true) (st_projects (cs_access s)).
Proof. intros H. answer H. done. Qed.

Lemma runs_role_get_err p i s e s' :
  runs core_serve (on_access (RoleGet p i)) s (Err e) s' → ∃ m, e = CoreAccessStore (AccessBackend m).
Proof. intros H. answer H. by eexists. Qed.

Lemma runs_repo_get p n s a s' :
  runs core_serve (on_repository (RepoGet p n)) s (Ok a) s' → a = cs_repos s !! repo_resource_name p n.
Proof. intros H. answer H. done. Qed.

Lemma runs_repo_list p s a s' :
  runs core_serve (on_repository (RepoList p)) s (Ok a) s' → a = memory_repo_list p (cs_repos s).
Proof. intros H. answer H. done. Qed.

Lemma runs_role_set p i r s res s' :
  runs core_serve (on_access (RoleSet p i r)) s res s' →
  atomic res s s' (s' = with_access s (set_role (cs_access s) p i r true)).
Proof. intros H. answer H; [by right|by left]. Qed.

Lemma runs_role_remove p i s res s' :
  runs core_serve (on_access (RoleRemove p i)) s res s' →
  atomic res s s' (s' = with_access s (access_serve _ (RoleRemove p i) (cs_access s)).2).
Proof. intros H. answer H; [by right|by left]. Qed.

Lemma runs_create_with_owner m o s res s' :
  runs core_serve (on_access (ProjectCreateWithOwner m o)) s res s' →
  atomic res s s'
    (st_projects (cs_access s) !! pm_name m = None ∧ st_roles (cs_access s) !! (pm_name m, o) = None ∧
     s' = with_access s (set_role (set_projects (cs_access s)
            (<[pm_name m := pm_with_etag m "v1"]> (st_projects (cs_access s)))) (pm_name m) o Owner true)).
Proof.
  intros H. answer H; [|by left]. unfold mem_create_with_members. cbn [has_owner_entry].
  destruct (negb _); cbn [fst snd]; [left; by rewrite with_own_access|].
  destruct (_ && _ && _) eqn:Hfree; cbn [fst snd]; [right|left; by rewrite with_own_access].
  rewrite !andb_true_iff, !bool_decide_eq_true in Hfree. cbn in Hfree.
  rewrite andb_true_r, bool_decide_eq_true in Hfree. naive_solver.
Qed.

(** The next version of a stored resource. *)
Definition bumped (etag etag' : string) : Prop :=
  ∃ version, etag_version etag = Some version ∧ etag' = version_etag (wrap_u64 (version + 1)).

Lemma runs_project_replace e m s res s' :
  runs core_serve (on_access (ProjectReplace e m)) s res s' →
  atomic res s s' (∃ cur etag,
    st_projects (cs_access s) !! pm_name m = Some cur ∧ pm_etag cur = e ∧ bumped e etag ∧
    s' = with_access s (set_projects (cs_access s)
           (<[pm_name m := pm_with_etag m etag]> (st_projects (cs_access s))))).
Proof.
  assert (with_access s (set_projects (cs_access s) (st_projects (cs_access s))) = s) as Hs.
  { by destruct s as [[] ?]. }
  intros H. answer H; [|by left]. unfold mem_replace. cbn [res_key project_resource res_etag].
  destruct (st_projects (cs_access s) !! pm_name m) as [cur|] eqn:Hm; cbn [fst snd]; [|by left].
  destruct (bool_decide_reflect (pm_etag cur = e)) as [<-|]; cbn [negb fst snd]; [|by left].
  destruct (etag_version (pm_etag cur)) as [v|] eqn:Hv; cbn [fst snd]; [|by left].
  right. split; [done|]. exists cur, (version_etag (wrap_u64 (v + 1))). unfold bumped. split_and!; eauto.
Qed.

Lemma runs_repo_create r s res s' :
  runs core_serve (on_repository (RepoCreate r)) s res s' →
  atomic res s s' (cs_repos s !! rp_resource_name r = None ∧
    s' = with_repos s (<[rp_resource_name r := rp_with_etag r "v1"]> (cs_repos s))).
Proof.
  intros H. answer H; [|by left]. unfold memory_repo_create.
  destruct (cs_repos s !! rp_resource_name r) eqn:Hr; cbn [fst snd]; [|by right].
  left. by rewrite with_own_repos.
Qed.

Lemma runs_repo_replace e r s res s' :
  runs core_serve (on_repository (RepoReplace e r)) s res s' →
  atomic res s s' (∃ cur etag,
    cs_repos s !! rp_resource_name r = Some cur ∧ rp_etag cur = e ∧ bumped e etag ∧
    s' = with_repos s (<[rp_resource_name r := rp_with_etag r etag]> (cs_repos s))).
Proof.
  intros H. answer H; [|by left]. unfold memory_repo_replace, require_etag, repo_next_etag.
  destruct (cs_repos s !! rp_resource_name r) as [cur|] eqn:Hr; [|by left; destruct s].
  cbn [ok_or mbind outcome_bind]. destruct (bool_decide_reflect (rp_etag cur = e)) as [<-|];
    cbn [negb fail_if mbind outcome_bind]; [|by left; destruct s].
  destruct (etag_version (rp_etag cur)) as [v|] eqn:Hv; cbn [ok_or]; [|by left; destruct s].
  right. split; [done|]. exists cur, (version_etag (wrap_u64 (v + 1))). unfold bumped. split_and!; eauto.
Qed.

End Semantics.
