(* ===== verification/AccessEffects.v ===== *)
(** * AccessEffects: what every operation on projects, members and repositories does

    One specification for the operations of [projects.rs] and [repository.rs]:
    who may perform each, under which conditions it succeeds, the state it
    leaves and what it answers; and the theorem that the code meets it. *)
From S2P Require Import Prelude RustStd SchemaTypes ChangeModel Prog ObjectDb RecordStore AccessStore Repository CoreTypes Access AccessProps.
From Stdlib Require Import Ascii.

Open Scope Z_scope.

(** ** The operations *)

Inductive core_op :=
  | OpCreateProject (name : string) (visibility : ProjectVisibility)
  | OpGetProject (name : string) (include_archived : bool)
  | OpListProjects (include_archived : bool)
  | OpUpdateProject (name expected_etag : string) (patch : ProjectUpdate)
  | OpArchiveProject (name expected_etag : string) (force : bool)
  | OpAddMember (project identity_id : string) (role : Role)
  | OpRemoveMember (project identity_id : string)
  | OpUpdateMemberRole (project identity_id : string) (new_role : Role)
  | OpListMembers (project : string)
  | OpCreateRepository (input : CreateRepository)
  | OpGetRepository (project repo : string) (include_archived : bool)
  | OpListRepositories (project : string) (include_archived : bool)
  | OpUpdateRepository (project repo expected_etag : string) (patch : RepositoryUpdate)
  | OpArchiveRepository (project repo expected_etag : string) (force : bool).

(** What a call answers; the records that changes return are left out. *)
Inductive core_answer :=
  | AnswerProject (found : option ProjectMeta)
  | AnswerProjects (found : list ProjectMeta)
  | AnswerMembers (found : list (string * Role))
  | AnswerRepository (found : option Repository)
  | AnswerRepositories (found : list Repository)
  | AnswerDone.

Definition answer {A} (f : A → core_answer) (m : core A) : core core_answer := a ← m; mret (f a).
Definition discard {A} (m : core A) : core core_answer := answer (λ _, AnswerDone) m.

Section Operations.
Context {AN : AuthnProvider} {RF : RustFmt}.
#[local] Existing Instance role_based_authz.

Definition op_prog (op : core_op) (token : option string) : core core_answer :=
  match op with
  | OpCreateProject name v => discard (create_project name v token)
  | OpGetProject name archived => answer AnswerProject (get_project_with_archived name archived token)
  | OpListProjects archived => answer AnswerProjects (list_projects_with_archived archived token)
  | OpUpdateProject name e patch => discard (update_project name e patch token)
  | OpArchiveProject name e force => discard (archive_project name e force token)
  | OpAddMember p i r => discard (add_member p i r token)
  | OpRemoveMember p i => discard (remove_member p i token)
  | OpUpdateMemberRole p i r => discard (update_member_role p i r token)
  | OpListMembers p => answer AnswerMembers (list_members p token)
  | OpCreateRepository input => discard (create_repository input token)
  | OpGetRepository p n archived => answer AnswerRepository (get_repository p n archived token)
  | OpListRepositories p archived => answer AnswerRepositories (list_repositories p archived token)
  | OpUpdateRepository p n e patch => discard (update_repository p n e patch token)
  | OpArchiveRepository p n e force => discard (archive_repository p n e force token)
  end.

(** ** The specification *)

Definition active_project (s : core_state) (p : string) : Prop :=
  ∃ m, st_projects (cs_access s) !! p = Some m ∧ pm_archived m = false.

Definition put_project (s : core_state) (m : ProjectMeta) : core_state :=
  with_access s (set_projects (cs_access s) (<[pm_name m := m]> (st_projects (cs_access s)))).

Definition put_repository (s : core_state) (r : Repository) : core_state :=
  with_repos s (<[rp_resource_name r := r]> (cs_repos s)).

(** Somebody other than [i] owns the project, if [i] does. *)
Definition not_last_owner (s : core_state) (p i : string) : Prop :=
  active_role (cs_access s) p i = Some Owner →
  ∃ j, j ≠ i ∧ active_role (cs_access s) p j = Some Owner.

(** What it takes to manage the members of a project. *)
Definition manages_members (s : core_state) (who : Identity) (p : string) : Prop :=
  active_project s p ∧ has_role (cs_access s) who p Owner.

Definition valid_repository (p n : string) (c : RepoConfig) : Prop :=
  repo_validate_segment "project" p = Ok tt ∧ repo_validate_segment "repo" n = Ok tt ∧
  validate_config c = Ok tt.

(** The effect of a call that succeeds, made by [who]. *)
Definition effect (op : core_op) (who : Identity) (s s' : core_state) : Prop :=
  let a := cs_access s in
  match op with
  | OpCreateProject name v =>
    ∃ id now, identity_id who = Some id ∧ validate_project_name name = Ok tt ∧
      st_projects a !! name = None ∧ st_roles a !! (name, id) = None ∧
      s' = with_access s (set_role (set_projects a
             (<[name := pm_with_etag (project_meta_new name v id now) "v1"]> (st_projects a))) name id Owner true)
  | OpUpdateProject name e patch =>
    ∃ m now etag, st_projects a !! name = Some m ∧ pm_archived m = false ∧ has_role a who name Owner ∧
      pm_etag m = e ∧ bumped e etag ∧
      s' = put_project s (pm_with_etag
             (pm_with_visibility m (default (pm_visibility m) (pu_visibility patch)) now) etag)
  | OpArchiveProject name e force =>
    ∃ m, st_projects a !! name = Some m ∧ has_role a who name Owner ∧ pm_etag m = e ∧
      if pm_archived m then s' = s
      else (force = true ∨ memory_repo_list name (cs_repos s) = []) ∧
           ∃ now etag, bumped e etag ∧ s' = put_project s (pm_with_etag (pm_with_archive m now) etag)
  | OpAddMember p i r => manages_members s who p ∧ s' = with_access s (set_role a p i r true)
  | OpRemoveMember p i =>
    manages_members s who p ∧ not_last_owner s p i ∧
    s' = with_access s (match active_role a p i with Some r => set_role a p i r false | None => a end)
  | OpUpdateMemberRole p i r =>
    manages_members s who p ∧ (r ≠ Owner → not_last_owner s p i) ∧
    s' = with_access s (set_role a p i r true)
  | OpCreateRepository (mkCreateRepository p n c) =>
    active_project s p ∧ has_role a who p Maintainer ∧ valid_repository p n c ∧
    cs_repos s !! repo_resource_name p n = None ∧
    ∃ now, s' = put_repository s (rp_with_etag
                  (repository_new p n c (default "anonymous"%string (identity_id who)) now) "v1")
  | OpUpdateRepository p n e patch =>
    not_archived a p ∧ has_role a who p Maintainer ∧
    ∃ r now etag, cs_repos s !! repo_resource_name p n = Some r ∧ rp_archived r = false ∧
      valid_repository p n (patch_config (rp_config r) patch) ∧ rp_etag r = e ∧ bumped e etag ∧
      s' = put_repository s (rp_with_etag (rp_with_config r (patch_config (rp_config r) patch) now) etag)
  | OpArchiveRepository p n e force =>
    not_archived a p ∧ has_role a who p Maintainer ∧
    ∃ r, cs_repos s !! repo_resource_name p n = Some r ∧ rp_etag r = e ∧
      repo_validate_segment "project" p = Ok tt ∧
      if rp_archived r then s' = s
      else ∃ now etag, bumped e etag ∧ s' = put_repository s (rp_with_etag (rp_with_archive r now) etag)
  | OpGetProject _ _ | OpListProjects _ | OpListMembers _ | OpGetRepository _ _ _
  | OpListRepositories _ _ => s' = s
  end.

(** Who may see a project: the rules of [Read], and for an archived one its
    Owners. *)
Definition sees_project (a : access_state) (who : Identity) (m : ProjectMeta) : Prop :=
  if pm_archived m then has_role a who (pm_name m) Owner else allowed a who Read (pm_name m).

#[export] Instance has_role_dec a who p least : Decision (has_role a who p least).
Proof.
  unfold has_role. destruct (identity_id who) as [id|]; [|right; by intros (? & ? & [=] & _)].
  destruct (active_role a p id) as [role|] eqn:Hr; [|right; intros (? & ? & [= <-] & ? & _); congruence].
  destruct (role_ge role least) eqn:Hge; [left; by exists id, role|].
  right. intros (? & ? & [= <-] & ? & ?). congruence.
Defined.

#[export] Instance allowed_dec a who act p : Decision (allowed a who act p).
Proof.
  assert (Decision (∃ m, st_projects a !! p = Some m ∧ pm_visibility m = Public)).
  { destruct (st_projects a !! p) as [m|] eqn:Hm; [|right; by intros (? & [=] & _)].
    destruct (decide (pm_visibility m = Public)); [left; by exists m|]. right. intros (? & [= <-] & ?). done. }
  unfold allowed. apply _.
Defined.

#[export] Instance sees_project_dec a who m : Decision (sees_project a who m).
Proof. unfold sees_project. destruct (pm_archived m); apply _. Defined.

(** Archived resources are shown only when they are asked for. *)
Definition shown (include_archived archived : bool) : Prop := archived = true → include_archived = true.

#[export] Instance shown_dec i b : Decision (shown i b).
Proof. unfold shown. apply _. Defined.

Context {J : AccessJson} {RJ : RepositoryJson}.

(** What a call that succeeds, made by [who], answers: reads give exactly the
    stored resources that [who] may see. *)
Definition answers (op : core_op) (who : Identity) (s : core_state) (x : core_answer) : Prop :=
  let a := cs_access s in
  match op, x with
  | OpGetProject name archived, AnswerProject found =>
    match found with
    | Some m => st_projects a !! name = Some m ∧ shown archived (pm_archived m) ∧ sees_project a who m
    | None => ∀ m, st_projects a !! name = Some m → ¬ shown archived (pm_archived m)
    end
  | OpListProjects archived, AnswerProjects found =>
    found = filter (λ m, shown archived (pm_archived m) ∧ sees_project a who m) (mem_list (λ _, true) (st_projects a))
  | OpListMembers p, AnswerMembers found =>
    active_project s p ∧ allowed a who Read p ∧ found = merge_sort key_le (active_members p a)
  | OpGetRepository p n archived, AnswerRepository found =>
    allowed a who Read p ∧
    match found with
    | Some r => cs_repos s !! repo_resource_name p n = Some r ∧ shown archived (rp_archived r)
    | None => ∀ r, cs_repos s !! repo_resource_name p n = Some r → ¬ shown archived (rp_archived r)
    end
  | OpListRepositories p archived, AnswerRepositories found =>
    active_project s p ∧ allowed a who Read p ∧
    found = filter (λ r, shown archived (rp_archived r)) (memory_repo_list p (cs_repos s))
  | OpGetProject _ _, _ | OpListProjects _, _ | OpListMembers _, _ | OpGetRepository _ _ _, _
  | OpListRepositories _ _, _ => False
  | _, x => x = AnswerDone
  end.

(** Resources are stored under their names, and repositories have valid
    configurations. *)
Record core_wf (s : core_state) : Prop := {
  wf_projects k m : st_projects (cs_access s) !! k = Some m → pm_name m = k;
  wf_repos k r : cs_repos s !! k = Some r →
    rp_resource_name r = k ∧ name_consistent r ∧
    valid_repository (rp_project_name r) (rp_name r) (rp_config r);
}.

(** ** The code meets the specification *)

Lemma check_access_read_only who act resource :
  read_only core_serve (check_access who act resource).
Proof. apply read_only_bind; [apply role_based_check_read_only|done]. Qed.

Lemma ensure_project_read_only p : read_only core_serve (ensure_project_exists p).
Proof. apply read_only_then; [by split; [apply reads_access|]|]. intros a. by apply read_only_then. Qed.

Lemma authorize_read_only token act p n : read_only core_serve (authorize token act p n).
Proof. apply read_only_then; [done|]. intros who. by apply read_only_then; [apply check_access_read_only|]. Qed.

Lemma authorize_owner_read_only p who : read_only core_serve (authorize_project_owner p who).
Proof.
  unfold authorize_project_owner. destruct (identity_id who); [|done].
  apply read_only_then; [by split; [apply reads_access|]|]. by intros [[]|].
Qed.

Lemma authorize_project_read_only m who : read_only core_serve (authorize_project_read m who).
Proof.
  unfold authorize_project_read.
  destruct (pm_archived m); [apply authorize_owner_read_only|apply check_access_read_only].
Qed.

Lemma guard_read_only p i removing role : read_only core_serve (guard_last_owner p i removing role).
Proof.
  apply read_only_then; [by split; [apply reads_access|]|]. intros ms.
  cbv beta zeta. by destruct (negb _).
Qed.

Lemma visible_projects_read_only archived who l :
  read_only core_serve (visible_projects archived who l).
Proof.
  induction l as [|m l IH]; [done|]. cbn [visible_projects]. destruct (_ && _); [done|].
  apply read_only_bind; [apply authorize_project_read_only|].
  intros [x|e| |]; try done; [by apply read_only_then|]. by repeat case_match.
Qed.

(** Goals [read_only core_serve m]. *)
Ltac read_only :=
  first
    [ exact I
    | split; [first [by apply reads_access | by apply reads_repository | by intros ?]|done]
    | apply check_access_read_only | apply ensure_project_read_only | apply authorize_read_only
    | apply authorize_owner_read_only | apply authorize_project_read_only | apply guard_read_only
    | apply visible_projects_read_only ].

(** Skip a step of a handler that only reads; [Ha] is its successful run. *)
Tactic Notation "step" ident(H) simple_intropattern(a) simple_intropattern(Ha) :=
  eapply atomic_step; [|exact H|]; [read_only|clear H; intros a Ha H; cbv beta zeta in H].

(** A step of a read-only program that succeeded. *)
Lemma runs_ok_step {A B} (m : core A) (f : A → core B) s b s' :
  read_only core_serve m → runs core_serve (m ≫= f) s (Ok b) s' →
  ∃ a, runs core_serve m s (Ok a) s ∧ runs core_serve (f a) s (Ok b) s'.
Proof. intros Hm H. by apply runs_read_step in H as [[_ ?]|H]. Qed.

Lemma runs_fail_if (b : bool) (e : CoreError) s (x : unit) s' :
  runs core_serve (pure_step (fail_if b e)) s (Ok x) s' → b = false.
Proof. intros [H _]%runs_pure. by destruct b. Qed.

Lemma runs_ok_or {A} (o : option A) (e : CoreError) s a s' :
  runs core_serve (pure_step (ok_or o e)) s (Ok a) s' → o = Some a.
Proof. intros [H _]%runs_pure. by destruct o; simplify_eq/=. Qed.

Lemma runs_identify token s who s' :
  runs core_serve (core_identify token) s (Ok who) s' → identify token = Ok who.
Proof. intros [H _]%runs_pure. by destruct (identify token); simplify_eq/=. Qed.

Lemma runs_check_access who act resource s x s' :
  runs core_serve (check_access who act resource) s (Ok x) s' →
  allowed (cs_access s) who act (rp_project resource).
Proof.
  intros (r & s1 & H & [Hx ->])%runs_bind.
  assert (r = Ok tt) as -> by (by destruct r as [[]| | |]; simplify_eq/=). clear Hx x.
  unfold authz_check, role_based_authz, role_based_check in H. destruct resource as [p n]. cbn in *.
  destruct H as (x & s2 & [[-> ->]|[[e ->] ->]] & H); [|by destruct H].
  rewrite with_own_access in H. cbn in H.
  pose proof (not_archived_spec (cs_access s) p) as Hna.
  pose proof (public_read_spec (cs_access s) p act) as Hpub.
  destruct (match _ with Some m => pm_archived m | None => false end); cbn in H; [by destruct H|].
  split; [by apply Hna|].
  destruct (bool_decide (act = Read) && _); [left; by apply Hpub|right]. cbn in H.
  destruct (is_anonymous who) eqn:Han; cbn in H; [by destruct H|].
  destruct H as (x & s2 & [[-> ->]|[[e ->] ->]] & H); [|by destruct H]. cbn in H.
  unfold has_role. destruct (identity_id who) as [id|]; cbn in H; [|by destruct H].
  destruct (active_role (cs_access s) p id) as [role|] eqn:Hrole; cbn in H; [|by destruct H].
  destruct (role_ge role (min_role act)) eqn:Hge; cbn in H; [|by destruct H]. by exists id, role.
Qed.

Lemma allowed_role a who act p :
  act ≠ Read → allowed a who act p → not_archived a p ∧ has_role a who p (min_role act).
Proof. unfold allowed. naive_solver. Qed.

Lemma runs_authorize token act p n s who s' :
  runs core_serve (authorize token act p n) s (Ok who) s' →
  identify token = Ok who ∧ allowed (cs_access s) who act p.
Proof.
  intros (i & Hi & H)%runs_ok_step; [|done]. apply runs_identify in Hi.
  apply runs_ok_step in H as (x & H & Hr); [|read_only]. apply runs_check_access in H.
  destruct Hr as [[= ->] _]. done.
Qed.

Lemma runs_ensure_project p s x s' :
  runs core_serve (ensure_project_exists p) s (Ok x) s' → active_project s p.
Proof.
  intros (o & Ho & H)%runs_ok_step; [|read_only]. apply runs_project_get in Ho as ->.
  apply runs_ok_step in H as (m & Hm & H); [|read_only]. apply runs_ok_or in Hm.
  apply runs_fail_if in H. by exists m.
Qed.

Lemma runs_authorize_owner p who s x s' :
  runs core_serve (authorize_project_owner p who) s (Ok x) s' → has_role (cs_access s) who p Owner.
Proof.
  unfold authorize_project_owner, has_role. destruct (identity_id who) as [id|] eqn:Hid.
  2:{ by intros [? _]. }
  intros (o & Ho & H)%runs_ok_step; [|read_only]. apply runs_role_get in Ho as ->.
  rewrite Hid in H. cbn in H.
  destruct (active_role (cs_access s) p id) as [[]|] eqn:Hr; try by destruct H. by exists id, Owner.
Qed.

(** *** The owners of a project *)

Lemma elem_of_owners p a j :
  j ∈ owners_of (merge_sort key_le (active_members p a)) ↔ active_role a p j = Some Owner.
Proof.
  unfold owners_of. rewrite list_elem_of_fmap. split.
  - intros ([j' r] & -> & [Hj Hr]%elem_of_bool_filter). apply bool_decide_eq_true in Hr. cbn in *. subst r.
    rewrite merge_sort_Permutation in Hj. by apply elem_of_active_members.
  - intros H. exists (j, Owner). split; [done|]. apply elem_of_bool_filter. split; [|done].
    rewrite merge_sort_Permutation. by apply elem_of_active_members.
Qed.

Lemma NoDup_owners p a : NoDup (owners_of (merge_sort key_le (active_members p a))).
Proof.
  unfold owners_of. apply NoDup_fmap_fst.
  - intros j r1 r2 [_ H1]%elem_of_bool_filter [_ H2]%elem_of_bool_filter.
    apply bool_decide_eq_true in H1, H2. cbn in *. congruence.
  - apply NoDup_bool_filter. rewrite merge_sort_Permutation. apply NoDup_omap_inj; [apply NoDup_map_to_list|].
    intros [[p1 i1] [r1 a1]] [[p2 i2] [r2 a2]] m Hm1 Hm2 H1 H2.
    apply elem_of_map_to_list in Hm1, Hm2. unfold member_of in H1, H2. cbn in *.
    destruct (bool_decide_reflect (p1 = p)); [|done]. destruct (bool_decide_reflect (p2 = p)); [|done].
    destruct a1, a2; cbn in *; try done. congruence.
Qed.

Lemma NoDup_other (l : list string) i :
  NoDup l → i ∈ l → (2 ≤ length l)%nat → ∃ j, j ∈ l ∧ j ≠ i.
Proof.
  intros Hd Hi Hl. destruct l as [|x [|y l]]; cbn in Hl; [lia..|].
  destruct (decide (x = i)) as [->|]; [|exists x; split; [left|done]].
  exists y. split; [right; left|]. intros ->. apply NoDup_cons in Hd as [Hd _]. apply Hd. left.
Qed.

Lemma runs_guard p i removing role s x s' :
  runs core_serve (guard_last_owner p i removing role) s (Ok x) s' →
  removing || match role with Some r => bool_decide (r ≠ Owner) | None => false end = true →
  not_last_owner s p i.
Proof.
  intros (ms & Hms & H)%runs_ok_step Hlose Hi; [|read_only]. apply runs_role_list in Hms as ->.
  cbv beta zeta in H. apply elem_of_owners in Hi. rewrite (bool_decide_eq_true_2 _ Hi) in H.
  cbn [negb] in H. apply runs_fail_if in H. rewrite Hlose in H. cbn in H.
  destruct (NoDup_other _ i (NoDup_owners p (cs_access s)) Hi) as (j & Hj & Hne); [lia|].
  exists j. split; [done|]. by apply elem_of_owners.
Qed.

(** *** Operation by operation *)

Lemma create_project_effect name v token s r s' :
  runs core_serve (create_project name v token) s r s' →
  atomic r s s' (∃ who, identify token = Ok who ∧ effect (OpCreateProject name v) who s s').
Proof.
  intros H. step H x Hname. step H who Hwho. step H y Hanon. step H now Hnow.
  apply runs_identify in Hwho. apply runs_fail_if in Hanon. destruct Hname as [Hname _], x.
  apply runs_create_with_owner in H. eapply atomic_impl; [exact H|]. cbn.
  intros (Hp & Hr & ->). exists who. split; [done|].
  destruct (identity_id who) as [id|] eqn:Hid; [|apply anonymous_no_id in Hid; congruence].
  exists id, now. by symmetry in Hname.
Qed.

Lemma update_project_effect name e patch token s r s' :
  core_wf s → runs core_serve (update_project name e patch token) s r s' →
  atomic r s s' (∃ who, identify token = Ok who ∧ effect (OpUpdateProject name e patch) who s s').
Proof.
  intros Hwf H. step H x _. step H x1 _. step H x2 _. step H who Hwho. step H x3 Hauth.
  step H o Hget. step H m Hm. step H x4 Harch. step H now Hnow.
  apply runs_identify in Hwho. apply runs_project_get in Hget as ->. apply runs_ok_or in Hm.
  apply runs_fail_if in Harch. apply runs_check_access, allowed_role in Hauth as [_ Hrole]; [|done].
  apply runs_project_replace in H. eapply atomic_impl; [exact H|]. cbn [pm_name pm_with_visibility].
  rewrite (wf_projects _ Hwf _ _ Hm), Hm. intros (cur & etag & [= <-] & He & Hb & ->).
  exists who. split; [done|]. exists m, now, etag. split_and!; try done.
  unfold put_project. cbn [pm_name pm_with_etag pm_with_visibility]. by rewrite (wf_projects _ Hwf _ _ Hm).
Qed.

Lemma archive_project_effect name e force token s r s' :
  core_wf s → runs core_serve (archive_project name e force token) s r s' →
  atomic r s s' (∃ who, identify token = Ok who ∧ effect (OpArchiveProject name e force) who s s').
Proof.
  intros Hwf H. step H x _. step H x1 _. step H o Hget. step H m Hm. step H who Hwho. step H x2 Hauth.
  apply runs_identify in Hwho. apply runs_project_get in Hget as ->. apply runs_ok_or in Hm.
  apply runs_authorize_owner in Hauth. destruct (pm_archived m) eqn:Harch.
  - step H x3 He. apply runs_fail_if, negb_false_iff, bool_decide_eq_true in He.
    destruct H as [-> ->]. right. split; [done|]. exists who. split; [done|]. exists m. by rewrite Harch.
  - eapply atomic_step; [|exact H|].
    { destruct force; [done|]. by apply read_only_then; [read_only|]. }
    clear H. intros x3 Hforce H. step H now Hnow. apply runs_project_replace in H.
    eapply atomic_impl; [exact H|]. cbn [pm_name pm_with_archive].
    rewrite (wf_projects _ Hwf _ _ Hm), Hm. intros (cur & etag & [= <-] & He & Hb & ->).
    exists who. split; [done|]. exists m. split_and!; try done. rewrite Harch. split.
    + destruct force; [by left|right]. apply runs_ok_step in Hforce as (rs & Hrs & Hf); [|read_only].
      apply runs_repo_list in Hrs as ->. apply runs_fail_if in Hf. by destruct (memory_repo_list _ _).
    + exists now, etag. split; [done|]. unfold put_project.
      cbn [pm_name pm_with_etag pm_with_archive]. by rewrite (wf_projects _ Hwf _ _ Hm).
Qed.

(** The guards every change of the members passes first. *)
Lemma members_guard {A} p token (f : Identity → core A) s r s' (P : Prop) :
  runs core_serve (_ ← ensure_project_exists p; who ← authorize token ManageProject p ""; f who) s r s' →
  (∀ who, identify token = Ok who → manages_members s who p → runs core_serve (f who) s r s' →
          atomic r s s' P) →
  atomic r s s' P.
Proof.
  intros H Hf. step H x Hp. step H who Hwho. apply runs_ensure_project in Hp.
  apply runs_authorize in Hwho as [Hwho [_ Hrole]%allowed_role]; [|done]. by apply (Hf who).
Qed.

Lemma add_member_effect p i role token s r s' :
  runs core_serve (add_member p i role token) s r s' →
  atomic r s s' (∃ who, identify token = Ok who ∧ effect (OpAddMember p i role) who s s').
Proof.
  intros H. eapply members_guard; [exact H|]. clear H. intros who Hwho Hm H%runs_role_set.
  eapply atomic_impl; [exact H|]. intros ->. exists who. done.
Qed.

Lemma remove_member_effect p i token s r s' :
  runs core_serve (remove_member p i token) s r s' →
  atomic r s s' (∃ who, identify token = Ok who ∧ effect (OpRemoveMember p i) who s s').
Proof.
  intros H. eapply members_guard; [exact H|]. clear H. intros who Hwho Hm H. step H x Hguard.
  apply runs_guard in Hguard; [|done]. apply runs_role_remove in H.
  eapply atomic_impl; [exact H|]. intros ->. exists who. done.
Qed.

Lemma update_member_role_effect p i role token s r s' :
  runs core_serve (update_member_role p i role token) s r s' →
  atomic r s s' (∃ who, identify token = Ok who ∧ effect (OpUpdateMemberRole p i role) who s s').
Proof.
  intros H. eapply members_guard; [exact H|]. clear H. intros who Hwho Hm H. step H x Hguard.
  apply runs_role_set in H. eapply atomic_impl; [exact H|]. intros ->. exists who. split; [done|].
  split_and!; [done| |done]. intros Hr. eapply runs_guard; [exact Hguard|].
  cbn. by apply bool_decide_eq_true.
Qed.

Lemma runs_repo_step {A} (o : outcome RepositoryError A) s a s' :
  runs core_serve (repo_step o) s (Ok a) s' → o = Ok a.
Proof. intros [H _]%runs_pure. by destruct o; simplify_eq/=. Qed.

Lemma runs_repo_ok_or {A} (o : option A) e s a s' :
  runs core_serve (repo_step (ok_or o e)) s (Ok a) s' → o = Some a.
Proof. intros H%runs_repo_step. by destruct o; simplify_eq/=. Qed.

Lemma runs_repo_fail_if (b : bool) e s (x : unit) s' :
  runs core_serve (repo_step (fail_if b e)) s (Ok x) s' → b = false.
Proof. intros H%runs_repo_step. by destruct b. Qed.

Lemma create_repository_effect input token s r s' :
  runs core_serve (create_repository input token) s r s' →
  atomic r s s' (∃ who, identify token = Ok who ∧ effect (OpCreateRepository input) who s s').
Proof.
  destruct input as [p n c]. intros H. step H [] Hp. step H [] Hn. step H [] Hc. step H x Hproj.
  step H who Hwho. step H now Hnow. cbn [crp_project crp_name crp_config] in *.
  apply runs_repo_step in Hp, Hn, Hc. apply runs_ensure_project in Hproj.
  apply runs_authorize in Hwho as [Hwho [_ Hrole]%allowed_role]; [|done].
  apply runs_repo_create in H. eapply atomic_impl; [exact H|]. intros [Hfree ->].
  exists who. split; [done|]. unfold effect, valid_repository. split_and!; try done. by exists now.
Qed.

Lemma update_repository_effect p n e patch token s r s' :
  core_wf s → runs core_serve (update_repository p n e patch token) s r s' →
  atomic r s s' (∃ who, identify token = Ok who ∧ effect (OpUpdateRepository p n e patch) who s s').
Proof.
  intros Hwf H. step H [] Hp. step H [] Hn. step H ? _. step H ? _. step H who Hwho. step H o Hget.
  step H repo Hrepo. step H x Harch. step H [] Hconf. step H now Hnow.
  apply runs_authorize in Hwho as [Hwho [Hna Hrole]%allowed_role]; [|done].
  apply runs_repo_get in Hget as ->. apply runs_repo_ok_or in Hrepo.
  apply runs_repo_fail_if in Harch. apply runs_repo_step in Hp, Hn, Hconf.
  apply runs_repo_replace in H. eapply atomic_impl; [exact H|]. cbn [rp_resource_name rp_with_config].
  destruct (wf_repos _ Hwf _ _ Hrepo) as (Hname & _). rewrite Hname, Hrepo.
  intros (cur & etag & [= <-] & He & Hb & ->). exists who. split; [done|]. split_and!; [done..|].
  exists repo, now, etag. split_and!; try done. unfold put_repository. cbn. by rewrite Hname.
Qed.

Lemma repository_has_refs_read_only p n : read_only core_serve (repository_has_refs p n).
Proof.
  apply read_only_then; [read_only|]. intros bs. destruct (existsb _ _); [done|].
  by apply read_only_then; [read_only|].
Qed.

Lemma archive_repository_effect p n e force token s r s' :
  core_wf s → runs core_serve (archive_repository p n e force token) s r s' →
  atomic r s s' (∃ who, identify token = Ok who ∧ effect (OpArchiveRepository p n e force) who s s').
Proof.
  intros Hwf H. step H [] Hp. step H ? _. step H ? _. step H who Hwho. step H o Hget. step H repo Hrepo.
  apply runs_repo_step in Hp.
  apply runs_authorize in Hwho as [Hwho [Hna Hrole]%allowed_role]; [|done].
  apply runs_repo_get in Hget as ->. apply runs_repo_ok_or in Hrepo.
  destruct (rp_archived repo) eqn:Harch.
  - step H x He. apply runs_repo_fail_if, negb_false_iff, bool_decide_eq_true in He.
    destruct H as [-> ->]. right. split; [done|]. exists who. split; [done|]. split_and!; [done..|].
    exists repo. by rewrite Harch.
  - eapply atomic_step; [|exact H|].
    { destruct force; [done|]. by apply read_only_then; [apply repository_has_refs_read_only|]. }
    clear H. intros ? _ H. step H now Hnow. apply runs_repo_replace in H.
    eapply atomic_impl; [exact H|]. cbn [rp_resource_name rp_with_archive].
    destruct (wf_repos _ Hwf _ _ Hrepo) as (Hname & _). rewrite Hname, Hrepo.
    intros (cur & etag & [= <-] & He & Hb & ->). exists who. split; [done|]. split_and!; [done..|].
    exists repo. rewrite Harch. split_and!; [done..|]. exists now, etag. split; [done|].
    unfold put_repository. cbn. by rewrite Hname.
Qed.

(** *** Reads *)

Lemma atomic_discard {A} f (m : core A) s r s' (P : Prop) :
  (∀ r0, runs core_serve m s r0 s' → atomic r0 s s' P) → runs core_serve (answer f m) s r s' →
  atomic r s s' P.
Proof.
  intros Hm (r0 & s1 & H0 & H)%runs_bind.
  destruct r0 as [a| | |]; destruct H as [-> ->]; apply Hm in H0 as [[? ->]|[? HP]];
    try done; first [by left|by right].
Qed.

Definition is_read (op : core_op) : bool :=
  match op with
  | OpGetProject _ _ | OpListProjects _ | OpListMembers _ | OpGetRepository _ _ _
  | OpListRepositories _ _ => true
  | _ => false
  end.

Lemma reads_read_only op token : is_read op = true → read_only core_serve (op_prog op token).
Proof.
  destruct op as [ |name arch|arch| | | | | |p| |p n arch|p arch| | ]; try done; intros _; cbn [op_prog];
    apply read_only_then; try done.
  - apply read_only_then; [done|]. intros _. apply read_only_then; [read_only|]. intros [m|]; [|done].
    destruct (_ && _); [done|]. apply read_only_then; [done|]. intros who.
    by apply read_only_then; [read_only|].
  - apply read_only_then; [done|]. intros who. apply read_only_then; [read_only|]. intros l. read_only.
  - apply read_only_then; [read_only|]. intros _. apply read_only_then; [done|]. intros who.
    apply read_only_then; [read_only|]. intros _. read_only.
  - do 2 (apply read_only_then; [done|]; intros _). apply read_only_then; [read_only|]. intros _.
    by apply read_only_then; [read_only|].
  - apply read_only_then; [done|]. intros _. apply read_only_then; [read_only|]. intros _.
    apply read_only_then; [read_only|]. intros _. by apply read_only_then; [read_only|].
Qed.

Lemma op_effect (op : core_op) (token : option string) (s : core_state)
    (r : outcome CoreError core_answer) (s' : core_state) :
  core_wf s → runs core_serve (op_prog op token) s r s' →
  atomic r s s' (∃ who, (is_read op = false → identify token = Ok who) ∧ effect op who s s').
Proof.
  intros Hwf H. destruct (is_read op) eqn:Hread.
  { eapply atomic_read; [|exact H|]; [by apply reads_read_only|]. intros ->. exists Anonymous.
    by destruct op. }
  apply (atomic_impl _ _ _ (∃ who, identify token = Ok who ∧ effect op who s s')); [|naive_solver].
  destruct op; try done; cbn [op_prog] in H;
    (eapply atomic_discard; [|exact H]; clear H; intros r0 H).
  - by eapply create_project_effect.
  - by eapply update_project_effect.
  - by eapply archive_project_effect.
  - by eapply add_member_effect.
  - by eapply remove_member_effect.
  - by eapply update_member_role_effect.
  - by eapply create_repository_effect.
  - by eapply update_repository_effect.
  - by eapply archive_repository_effect.
Qed.

(** *** Answers *)

Lemma runs_answer {A} f (m : core A) s x s' :
  runs core_serve (answer f m) s (Ok x) s' → ∃ a, x = f a ∧ runs core_serve m s (Ok a) s'.
Proof.
  intros (r0 & s1 & H0 & H)%runs_bind. destruct r0 as [a| | |]; destruct H as [H ->]; try done.
  injection H as ->. by exists a.
Qed.

Lemma check_access_denied who act resource s m s' :
  runs core_serve (check_access who act resource) s (Err (CoreAuthz (PermissionDenied m))) s' →
  ¬ allowed (cs_access s) who act (rp_project resource).
Proof.
  intros (r & s1 & H & [Hx ->])%runs_bind.
  assert (r = Err (PermissionDenied m)) as -> by (by destruct r as [[]| | |]; simplify_eq/=). clear Hx.
  unfold authz_check, role_based_authz, role_based_check in H. destruct resource as [p n]. cbn in *.
  destruct H as (x & s2 & [[-> ->]|[[e ->] ->]] & H); [|by destruct H].
  rewrite with_own_access in H. cbn in H.
  pose proof (not_archived_spec (cs_access s) p) as Hna.
  pose proof (public_read_spec (cs_access s) p act) as Hpub.
  destruct (match _ with Some m => pm_archived m | None => false end); cbn in H;
    [intros [Hn _]; by apply Hna in Hn|].
  destruct (bool_decide (act = Read) && _); [by destruct H|]. cbn in H.
  intros [_ [Hp|(id & role & Hid & Hrole & Hge)]]; [by apply Hpub in Hp|].
  destruct (is_anonymous who) eqn:Han; [apply anonymous_no_id in Han; congruence|]. cbn in H.
  destruct H as (x & s2 & [[-> ->]|[[e ->] ->]] & H); [|by destruct H]. cbn in H.
  rewrite Hid in H. cbn in H. rewrite Hrole in H. cbn in H. rewrite Hge in H. by destruct H.
Qed.

Lemma authorize_owner_denied p who s m s' :
  runs core_serve (authorize_project_owner p who) s (Err (CoreAuthz (PermissionDenied m))) s' →
  ¬ has_role (cs_access s) who p Owner.
Proof.
  unfold authorize_project_owner. intros H (id & role & Hid & Hrole & Hge). rewrite Hid in H.
  apply runs_bind in H as ([o|e| |] & s1 & H0 & H); [|destruct H as [[= <-] _]|by destruct H..].
  - apply runs_role_get in H0 as ->. rewrite Hid in H. cbn in H. rewrite Hrole in H. cbn in H.
    destruct role; try done. by destruct H.
  - by apply runs_role_get_err in H0 as [? [=]].
Qed.

Lemma runs_project_read m who s r s' :
  runs core_serve (authorize_project_read m who) s r s' → s' = s ∧
  match r with
  | Ok _ => sees_project (cs_access s) who m
  | Err (CoreAuthz (PermissionDenied _)) => ¬ sees_project (cs_access s) who m
  | _ => True
  end.
Proof.
  intros H. split; [by eapply read_only_runs; [apply authorize_project_read_only|exact H]|].
  revert H. unfold authorize_project_read, sees_project.
  destruct (pm_archived m); intros H; (destruct r as [?|e| |]; [|destruct e; try done; case_match; try done|done..]).
  - by eapply runs_authorize_owner.
  - by eapply authorize_owner_denied.
  - by apply runs_check_access in H.
  - by apply check_access_denied in H.
Qed.

Lemma runs_visible_projects archived who l s x s' :
  runs core_serve (visible_projects archived who l) s (Ok x) s' →
  x = filter (λ m, shown archived (pm_archived m) ∧ sees_project (cs_access s) who m) l.
Proof.
  revert x s'. induction l as [|m l IH]; intros x s'; cbn [visible_projects]; [by intros [[= ->] _]|].
  rewrite filter_cons. destruct (pm_archived m && negb archived) eqn:Harch.
  { rewrite decide_False; [by apply IH|]. intros [Hs _]. apply andb_true_iff in Harch as [Ha Hn].
    rewrite (Hs Ha) in Hn. done. }
  assert (shown archived (pm_archived m)) as Hshown by (intros Ha; rewrite Ha in Harch; by destruct archived).
  intros (r & s1 & Hr & H)%runs_bind. apply runs_project_read in Hr as [-> Hr].
  destruct r as [y|e| |]; [|..].
  - rewrite decide_True by done. apply runs_ok_step in H as (v & Hv & H); [|read_only].
    apply IH in Hv as ->. by destruct H as [[= ->] _].
  - destruct e; try by destruct H. case_match; [|by destruct H].
    rewrite decide_False; [by eapply IH|tauto].
  - by destruct H.
  - by destruct H.
Qed.

Lemma bool_filter_decide {A} (f : A → bool) (P : A → Prop) `{!∀ x, Decision (P x)} (l : list A) :
  (∀ x, f x = true ↔ P x) → List.filter f l = filter P l.
Proof.
  intros Hf. induction l as [|x l IH]; [done|]. rewrite filter_cons. cbn. rewrite IH.
  destruct (f x) eqn:Hx; [by rewrite decide_True by (by apply Hf)|].
  rewrite decide_False; [done|]. intros Hp%Hf. congruence.
Qed.

Lemma op_answers op token s x s' :
  runs core_serve (op_prog op token) s (Ok x) s' →
  ∃ who, (is_read op = true → x ≠ AnswerProject None → identify token = Ok who) ∧ answers op who s x.
Proof.
  destruct op as [ |name arch|arch| | | | | |p| |p n arch|p arch| | ]; cbn [op_prog];
    intros (a & -> & H)%runs_answer; try (by exists Anonymous).
  - apply runs_ok_step in H as (? & _ & H); [|read_only].
    apply runs_ok_step in H as (o & Ho & H); [|read_only]. apply runs_project_get in Ho as ->.
    destruct (st_projects (cs_access s) !! name) as [m|] eqn:Hm.
    2:{ destruct H as [[= ->] _]. exists Anonymous. split; [done|]. cbn. intros m'. by rewrite Hm. }
    destruct (pm_archived m && negb arch) eqn:Harch.
    { destruct H as [[= ->] _]. exists Anonymous. split; [done|]. cbn. intros m'. rewrite Hm. intros [= <-] Hs.
      apply andb_true_iff in Harch as [Ha Hn]. by rewrite (Hs Ha) in Hn. }
    apply runs_ok_step in H as (who & Hwho & H); [|read_only]. apply runs_identify in Hwho.
    apply runs_ok_step in H as (y & Hy & H); [|read_only]. apply runs_project_read in Hy as [_ Hy].
    destruct H as [[= ->] _]. exists who. split; [done|]. cbn. split_and!; [done| |done].
    intros Ha. rewrite Ha in Harch. by destruct arch.
  - apply runs_ok_step in H as (who & Hwho & H); [|read_only]. apply runs_identify in Hwho.
    apply runs_ok_step in H as (l & Hl & H); [|read_only]. apply runs_project_list in Hl as ->.
    apply runs_visible_projects in H. by exists who.
  - apply runs_ok_step in H as (y & Hp & H); [|read_only]. apply runs_ensure_project in Hp.
    apply runs_ok_step in H as (who & Hwho & H); [|read_only]. apply runs_identify in Hwho.
    apply runs_ok_step in H as (z & Hz & H); [|read_only]. apply runs_check_access in Hz.
    apply runs_role_list in H. by exists who.
  - do 2 (apply runs_ok_step in H as (? & _ & H); [|read_only]).
    apply runs_ok_step in H as (who & Hwho & H); [|read_only]. apply runs_authorize in Hwho as [Hwho Hall].
    apply runs_ok_step in H as (o & Ho & H); [|read_only]. apply runs_repo_get in Ho as ->.
    destruct H as [[= ->] _]. exists who. split; [done|]. split; [done|].
    destruct (cs_repos s !! _) as [r|]; [|done]. unfold shown.
    destruct arch, (rp_archived r) eqn:Hr; cbn; try (by split; [|rewrite Hr]).
    intros ? [= <-] Hs. by specialize (Hs Hr).
  - apply runs_ok_step in H as (? & _ & H); [|read_only].
    apply runs_ok_step in H as (y & Hp & H); [|read_only]. apply runs_ensure_project in Hp.
    apply runs_ok_step in H as (who & Hwho & H); [|read_only]. apply runs_authorize in Hwho as [Hwho Hall].
    apply runs_ok_step in H as (o & Ho & H); [|read_only]. apply runs_repo_list in Ho as ->.
    destruct H as [[= ->] _]. exists who. split; [done|]. split_and!; [done..|].
    apply bool_filter_decide. intros r. unfold shown. destruct arch, (rp_archived r); cbn; split; auto.
Qed.

(** C8. Every operation on projects, members and repositories, called alone with any
    token on stores of which any request may fail (and then leaves the store as it
    was), either fails and changes nothing, or succeeds with exactly its specified
    effect and answer. A change is made by the identity that the token stands for,
    which has the role it requires: Owner for projects and members, Maintainer for
    repositories (creating a project needs any identity that is not anonymous). A
    read changes nothing and answers exactly the stored resources that the identity
    may read: with the role Reader or in a public project, archived projects for
    their Owners only. Removing a member or changing a role keeps an Owner; adding
    a member again replaces their role without that guard, also the last Owner's. *)
Theorem operations_meet_spec (op : core_op) (token : option string) (s : core_state)
    (r : outcome CoreError core_answer) (s' : core_state) :
  core_wf s → runs core_serve (op_prog op token) s r s' →
  (is_ok r = false ∧ s' = s) ∨
  ∃ x who, r = Ok x ∧ (x ≠ AnswerProject None → identify token = Ok who) ∧
    effect op who s s' ∧ answers op who s x.
Proof.
  intros Hwf H. pose proof (op_effect op token s r s' Hwf H) as [?|(Hok & who & Hwho & He)]; [by left|right].
  destruct r as [x| | |]; try done. apply op_answers in H as (who' & Hwho' & Hx).
  destruct (is_read op) eqn:Hread.
  - exists x, who'. split_and!; [done|by apply Hwho'| |done]. by destruct op.
  - exists x, who. split_and!; [done|auto|done|]. by destruct op.
Qed.

(** ** Invariants of the effects *)

Lemma wf_put_project s m :
  core_wf s → core_wf (put_project s m).
Proof.
  intros [Hp Hr]. split; [|done]. intros k m'. cbn. rewrite lookup_insert.
  case_decide; [naive_solver|apply Hp].
Qed.

Lemma wf_put_repository s r :
  core_wf s → name_consistent r → valid_repository (rp_project_name r) (rp_name r) (rp_config r) →
  core_wf (put_repository s r).
Proof.
  intros [Hp Hr] Hn Hc. split; [done|]. intros k r'. cbn. rewrite lookup_insert.
  case_decide; [naive_solver|apply Hr].
Qed.

Lemma effect_wf op who s s' : core_wf s → effect op who s s' → core_wf s'.
Proof.
  intros Hwf. destruct op as [name v| | |name e patch|name e force|p i r|p i|p i r| |[p n c]| | |p n e patch|p n e force];
    cbn [effect]; try (intros ->; done).
  - intros (id & now & _ & _ & _ & _ & ->).
    by destruct (wf_put_project s (pm_with_etag (project_meta_new name v id now) "v1") Hwf).
  - intros (m & now & etag & _ & _ & _ & _ & _ & ->). by apply wf_put_project.
  - intros (m & _ & _ & _ & H). destruct (pm_archived m); [by subst|].
    destruct H as (_ & now & etag & _ & ->). by apply wf_put_project.
  - intros [_ ->]. by destruct Hwf.
  - intros (_ & _ & ->). destruct (active_role _ _ _); by destruct Hwf.
  - intros (_ & _ & ->). by destruct Hwf.
  - intros (_ & _ & Hv & _ & now & ->). by apply wf_put_repository.
  - intros (_ & _ & repo & now & etag & Hr & _ & (_ & _ & Hc) & _ & _ & ->).
    destruct (wf_repos _ Hwf _ _ Hr) as (_ & Hn & Hv1 & Hv2 & _). by apply wf_put_repository.
  - intros (_ & _ & repo & Hr & _ & _ & H). destruct (wf_repos _ Hwf _ _ Hr) as (_ & Hn & Hc).
    destruct (rp_archived repo); [by subst|]. destruct H as (now & etag & _ & ->).
    by apply wf_put_repository.
Qed.

(** Every project has an owner. *)
Definition owned (s : core_state) : Prop :=
  ∀ p m, st_projects (cs_access s) !! p = Some m →
         ∃ i, active_role (cs_access s) p i = Some Owner.

(** Every repository belongs to a project. *)
Definition repos_in_projects (s : core_state) : Prop :=
  ∀ k r, cs_repos s !! k = Some r → is_Some (st_projects (cs_access s) !! rp_project_name r).

Record core_invariant (s : core_state) : Prop := {
  inv_wf : core_wf s;
  inv_owned : owned s;
  inv_projects : repos_in_projects s;
}.

(** The guard of the last owner, for the one change of the members that does not
    check it: [add_member] on an owner, with a lesser role. *)
Definition keeps_owner (op : core_op) (s : core_state) : Prop :=
  match op with
  | OpAddMember p i r => r ≠ Owner → not_last_owner s p i
  | _ => True
  end.

Lemma active_role_set a p i r b p' i' :
  active_role (set_role a p i r b) p' i' =
  if decide (p = p' ∧ i = i') then (if b then Some r else None) else active_role a p' i'.
Proof.
  unfold active_role, set_role. cbn. rewrite lookup_insert. repeat case_decide; naive_solver.
Qed.

(** Changing one member keeps an owner, if that member was not the last one. *)
Lemma owned_set_role s p i r b :
  owned s → (b = true ∧ r = Owner ∨ not_last_owner s p i) →
  owned (with_access s (set_role (cs_access s) p i r b)).
Proof.
  intros Ho Hlast p' m Hm. destruct (Ho p' m Hm) as [i' Hi']. cbn [cs_access with_access].
  setoid_rewrite active_role_set.
  destruct (decide (p = p' ∧ i = i')) as [[-> ->]|Hne]; [|exists i'; by case_decide].
  destruct Hlast as [[-> ->]|Hlast]; [exists i'; by case_decide|].
  destruct (Hlast Hi') as (j & Hj & Hr). exists j. by case_decide; [naive_solver|].
Qed.

Lemma owned_put_project s m m' :
  owned s → st_projects (cs_access s) !! pm_name m' = Some m → owned (put_project s m').
Proof.
  intros Ho Hm p m1. cbn. rewrite lookup_insert. case_decide as Hp; [|apply Ho].
  intros _. subst p. by eapply Ho.
Qed.

Lemma effect_owned op who s s' :
  core_wf s → owned s → keeps_owner op s → effect op who s s' → owned s'.
Proof.
  intros Hwf Ho Hd. destruct op as [name v| | |name e patch|name e force|p i r|p i|p i r| |[p n c]| | |p n e patch|p n e force];
    cbn [effect]; try (intros ->; done).
  - intros (id & now & _ & _ & Hp & _ & ->) p m. cbn. setoid_rewrite active_role_set.
    rewrite lookup_insert. case_decide as Hname; [intros _; exists id; by case_decide; [|naive_solver]|].
    intros Hm. destruct (Ho p m Hm) as [i Hi]. exists i. case_decide; [naive_solver|done].
  - intros (m & now & etag & Hm & _ & _ & _ & _ & ->). eapply owned_put_project; [done|].
    cbn. by rewrite (wf_projects _ Hwf _ _ Hm).
  - intros (m & Hm & _ & _ & H). destruct (pm_archived m); [by subst|].
    destruct H as (_ & now & etag & _ & ->). eapply owned_put_project; [done|].
    cbn. by rewrite (wf_projects _ Hwf _ _ Hm).
  - intros [_ ->]. apply owned_set_role; [done|]. cbn in Hd. destruct (decide (r = Owner)); auto.
  - intros (_ & Hlast & ->). destruct (active_role _ _ _); [|by destruct s].
    apply owned_set_role; auto.
  - intros (_ & Hlast & ->). apply owned_set_role; [done|]. destruct (decide (r = Owner)); auto.
  - by intros (_ & _ & _ & _ & now & ->).
  - by intros (_ & _ & repo & now & etag & _ & _ & _ & _ & _ & ->).
  - intros (_ & _ & repo & _ & _ & _ & H). destruct (rp_archived repo); [by subst|].
    by destruct H as (now & etag & _ & ->).
Qed.

(** No effect removes a project. *)
Lemma effect_projects op who s s' p :
  effect op who s s' → is_Some (st_projects (cs_access s) !! p) → is_Some (st_projects (cs_access s') !! p).
Proof.
  destruct op as [name v| | |name e patch|name e force|q i r|q i|q i r| |[q n c]| | |q n e patch|q n e force];
    cbn [effect]; try (intros ->; done).
  - intros (id & now & _ & _ & _ & _ & ->) Hp. cbn. rewrite lookup_insert. by case_decide.
  - intros (m & now & etag & _ & _ & _ & _ & _ & ->) Hp. cbn. rewrite lookup_insert. by case_decide.
  - intros (m & _ & _ & _ & H). destruct (pm_archived m); [by subst|].
    destruct H as (_ & now & etag & _ & ->). cbn. rewrite lookup_insert. by case_decide.
  - by intros [_ ->].
  - intros (_ & _ & ->). by destruct (active_role _ _ _).
  - by intros (_ & _ & ->).
  - by intros (_ & _ & _ & _ & now & ->).
  - by intros (_ & _ & repo & now & etag & _ & _ & _ & _ & _ & ->).
  - intros (_ & _ & repo & _ & _ & _ & H). destruct (rp_archived repo); [by subst|].
    by destruct H as (now & etag & _ & ->).
Qed.

(** A repository after an effect: as before, created now, or replaced. *)
Lemma effect_repos op who s s' k r' :
  effect op who s s' → cs_repos s' !! k = Some r' →
  is_Some (st_projects (cs_access s) !! rp_project_name r') ∨
  ∃ k0 r, cs_repos s !! k0 = Some r ∧ rp_project_name r' = rp_project_name r.
Proof.
  destruct op as [name v| | |name e patch|name e force|q i r|q i|q i r| |[q n c]| | |q n e patch|q n e force];
    cbn [effect]; try (intros ->; eauto).
  - intros (id & now & _ & _ & _ & _ & ->). eauto.
  - intros (m & now & etag & _ & _ & _ & _ & _ & ->). eauto.
  - intros (m & _ & _ & _ & H). destruct (pm_archived m); [subst; eauto|].
    destruct H as (_ & now & etag & _ & ->). eauto.
  - intros [_ ->]. eauto.
  - intros (_ & _ & ->). eauto.
  - intros (_ & _ & ->). eauto.
  - intros ((m & Hm & _) & _ & _ & _ & now & ->). cbn. rewrite lookup_insert. case_decide; [|eauto].
    intros [= <-]. cbn. eauto.
  - intros (_ & _ & repo & now & etag & Hr & _ & _ & _ & _ & ->). cbn. rewrite lookup_insert.
    case_decide; [|eauto]. intros [= <-]. eauto.
  - intros (_ & _ & repo & Hr & _ & _ & H). destruct (rp_archived repo); [subst; eauto|].
    destruct H as (now & etag & _ & ->). cbn. rewrite lookup_insert.
    case_decide; [|eauto]. intros [= <-]. eauto.
Qed.

Lemma effect_invariant op who s s' :
  core_invariant s → keeps_owner op s → effect op who s s' → core_invariant s'.
Proof.
  intros [Hwf Ho Hp] Hk H. split; [by eapply effect_wf|by eapply effect_owned|].
  intros k r' Hr'. eapply effect_projects; [done|].
  destruct (effect_repos _ _ _ _ _ _ H Hr') as [?|(k0 & r & Hr & ->)]; [done|]. by eapply Hp.
Qed.

(** ** Sequences of calls *)

(** One call after the other, each of any operation with any token. *)
Definition call (s s' : core_state) : Prop :=
  ∃ op token r, runs core_serve (op_prog op token) s r s'.

Definition guarded_call (s s' : core_state) : Prop :=
  ∃ op token r, keeps_owner op s ∧ runs core_serve (op_prog op token) s r s'.

Lemma core_invariant_empty : core_invariant core_empty.
Proof.
  split; [split|..]; intros ? ?; cbn; by rewrite lookup_empty.
Qed.

(** From an empty server, after any sequence of calls, of any outcome, in
    which [add_member] is not used to demote a last owner: every project has an
    owner, resources are stored under their names, every repository belongs to
    a project and its configuration is valid. *)
Theorem reachable_invariant (s : core_state) : rtc guarded_call core_empty s → core_invariant s.
Proof.
  intros H. pose proof core_invariant_empty as Hi. revert Hi.
  induction H as [|s1 s2 s3 (op & token & r & Hk & H) _ IH]; [done|]. intros Hi. apply IH.
  apply op_effect in H as [[_ ->]|(_ & who & _ & He)]; [done| |by apply inv_wf].
  by eapply effect_invariant.
Qed.

(** *** An archived project is frozen *)

Definition frozen (p : string) (s s' : core_state) : Prop :=
  st_projects (cs_access s') !! p = st_projects (cs_access s) !! p ∧
  (∀ i, st_roles (cs_access s') !! (p, i) = st_roles (cs_access s) !! (p, i)) ∧
  (∀ k r, rp_project_name r = p → cs_repos s' !! k = Some r ↔ cs_repos s !! k = Some r).

#[local] Instance frozen_refl p : Reflexive (frozen p).
Proof. done. Qed.

#[local] Instance frozen_trans p : Transitive (frozen p).
Proof.
  intros s1 s2 s3 (Hp & Hr & Hk) (Hp' & Hr' & Hk'). split_and!.
  - by rewrite Hp'.
  - intros i. by rewrite Hr'.
  - intros k r Hn. by rewrite Hk', Hk.
Qed.

Lemma frozen_set_role p s q i r b :
  q ≠ p → frozen p s (with_access s (set_role (cs_access s) q i r b)).
Proof. intros Hq. split_and!; [done| |done]. intros j. cbn. apply lookup_insert_ne. congruence. Qed.

Lemma frozen_put_project p s m : pm_name m ≠ p → frozen p s (put_project s m).
Proof. intros Hq. split_and!; [|done..]. cbn. by apply lookup_insert_ne. Qed.

Lemma frozen_put_repository p s r :
  rp_project_name r ≠ p →
  (∀ r0, cs_repos s !! rp_resource_name r = Some r0 → rp_project_name r0 ≠ p) →
  frozen p s (put_repository s r).
Proof.
  intros Hr Hr0. split_and!; [done..|]. intros k r' Hp. cbn. rewrite lookup_insert.
  case_decide as Hk; [|done]. subst k. naive_solver.
Qed.

Lemma split_at_char_inj c s s' t t' :
  contains_char c s = false → contains_char c s' = false →
  s +:+ String c t = s' +:+ String c t' → s = s' ∧ t = t'.
Proof.
  revert s'. induction s as [|a s IH]; intros [|a' s']; cbn; rewrite ?orb_false_iff, ?bool_decide_eq_false.
  - intros _ _ H. by injection H.
  - intros _ [Ha _] H. injection H as H _. congruence.
  - intros [Ha _] _ H. injection H as H _. congruence.
  - intros [_ Hs] [_ Hs'] H. injection H as <- H. by destruct (IH s' Hs Hs' H) as [-> ->].
Qed.

Lemma repo_segment_no_slash label p : repo_validate_segment label p = Ok tt → contains_char "/" p = false.
Proof.
  unfold repo_validate_segment. destruct (contains_char "/" p); [|done]. by destruct (str_is_empty p).
Qed.

Lemma repo_resource_name_project p n p' n' :
  repo_validate_segment "project" p = Ok tt → repo_validate_segment "project" p' = Ok tt →
  repo_resource_name p n = repo_resource_name p' n' → p = p'.
Proof.
  intros Hp%repo_segment_no_slash Hp'%repo_segment_no_slash H. unfold repo_resource_name in H.
  injection H as H. by apply split_at_char_inj in H as [-> _].
Qed.

(** A stored repository belongs to the project its name was looked up with. *)
Lemma stored_repo_project s p n r :
  core_wf s → repo_validate_segment "project" p = Ok tt →
  cs_repos s !! repo_resource_name p n = Some r → rp_project_name r = p.
Proof.
  intros Hwf Hp Hr. destruct (wf_repos _ Hwf _ _ Hr) as (Hk & Hn & Hv & _).
  eapply repo_resource_name_project; [done..|]. by rewrite <- Hn.
Qed.

Lemma effect_frozen op who s s' p m :
  core_wf s → st_projects (cs_access s) !! p = Some m → pm_archived m = true →
  effect op who s s' → frozen p s s'.
Proof.
  intros Hwf Hm Harch.
  assert (∀ q, active_project s q → q ≠ p) as Hact by (intros q (m' & ? & ?) ->; congruence).
  assert (∀ q, not_archived (cs_access s) q → q ≠ p) as Hna.
  { intros q Hq ->. apply Hq in Hm. congruence. }
  destruct op as [name v| | |name e patch|name e force|q i r|q i|q i r| |[q n c]| | |q n e patch|q n e force];
    cbn [effect]; try (intros ->; done).
  - intros (id & now & _ & _ & Hp & _ & ->). assert (name ≠ p) by congruence.
    set (m' := pm_with_etag _ _). trans (put_project s m'); [by apply frozen_put_project|].
    by apply (frozen_set_role p (put_project s m')).
  - intros (m' & now & etag & Hp & Hna' & _ & _ & _ & ->). apply frozen_put_project. cbn.
    rewrite (wf_projects _ Hwf _ _ Hp). congruence.
  - intros (m' & Hp & _ & _ & H). destruct (pm_archived m') eqn:Ha; [by subst|].
    destruct H as (_ & now & etag & _ & ->). apply frozen_put_project. cbn.
    rewrite (wf_projects _ Hwf _ _ Hp). congruence.
  - intros [[Hq _] ->]. apply frozen_set_role. auto.
  - intros ([Hq _] & _ & ->). destruct (active_role _ _ _); [|by destruct s]. apply frozen_set_role. auto.
  - intros ([Hq _] & _ & ->). apply frozen_set_role. auto.
  - intros (Hq & _ & _ & Hfree & now & ->). apply frozen_put_repository; [by apply Hact|].
    cbn. rewrite Hfree. done.
  - intros (Hq & _ & repo & now & etag & Hr & _ & (Hv & _) & _ & _ & ->).
    pose proof (stored_repo_project _ _ _ _ Hwf Hv Hr) as Hp.
    apply frozen_put_repository; cbn; [rewrite Hp; auto|].
    destruct (wf_repos _ Hwf _ _ Hr) as (-> & _). rewrite Hr. intros r0 [= <-]. rewrite Hp. auto.
  - intros (Hq & _ & repo & Hr & _ & Hv & H). destruct (rp_archived repo); [by subst|].
    destruct H as (now & etag & _ & ->). pose proof (stored_repo_project _ _ _ _ Hwf Hv Hr) as Hp.
    apply frozen_put_repository; cbn; [rewrite Hp; auto|].
    destruct (wf_repos _ Hwf _ _ Hr) as (-> & _). rewrite Hr. intros r0 [= <-]. rewrite Hp. auto.
Qed.

(** Archiving a project is final and freezes what it holds: from a state
    where the project is archived, no sequence of calls by anyone changes the
    project, its members or its repositories. *)
Theorem archived_project_frozen (s s' : core_state) (p : string) (m : ProjectMeta) :
  core_wf s → st_projects (cs_access s) !! p = Some m → pm_archived m = true → rtc call s s' →
  frozen p s s'.
Proof.
  intros Hwf Hm Harch H. revert Hwf Hm.
  induction H as [|s1 s2 s3 (op & token & r & H) _ IH]; [done|]. intros Hwf Hm.
  apply op_effect in H as [[_ ->]|(_ & who & _ & He)]; [auto| |done].
  pose proof (effect_frozen _ _ _ _ _ _ Hwf Hm Harch He) as Hf. trans s2; [done|].
  apply IH; [by eapply effect_wf|]. destruct Hf as (-> & _). done.
Qed.

End Operations.

(** ** Where the guard of the last owner ends *)

Section LastOwner.
Context {J : AccessJson} {RJ : RepositoryJson}.
#[local] Existing Instance role_based_authz.

Definition two_tokens : AuthnProvider :=
  bearer_authn {[ "a"%string := User "alice" None; "b"%string := User "bob" None ]}.
#[local] Existing Instance two_tokens.

Definition owned_by (owners : list string) : core_state :=
  mkCore (mkAccess {[ "p"%string := pm_with_etag (project_meta_new "p" Private "alice" 1) "v1" ]}
            (list_to_map ((λ i, ("p"%string, i, (Owner, true))) <$> owners))) ∅.

Lemma owned_by_owned i owners : owned (owned_by (i :: owners)).
Proof.
  intros p m. cbn. rewrite lookup_singleton_Some. intros [<- _]. exists i.
  unfold active_role. cbn. by rewrite lookup_insert_eq.
Qed.

Definition owners (p : string) (s : core_state) : list string :=
  owners_of (merge_sort key_le (active_members p (cs_access s))).

Lemma no_owners p s : owners p s = [] → ¬ ∃ i, active_role (cs_access s) p i = Some Owner.
Proof. intros H [i Hi%elem_of_owners]. unfold owners in H. rewrite H in Hi. by apply not_elem_of_nil in Hi. Qed.

(** [add_member] does not look for the last owner: called by the only owner
    with a lesser role for themselves, it succeeds and leaves the project
    without owners. *)
Theorem add_member_drops_last_owner :
  let '(r, s') := interp (core_handle 7) (add_member "p" "alice" Writer_ (Some "a"%string))
                    (owned_by ["alice"%string]) in
  owned (owned_by ["alice"%string]) ∧ r = Ok tt ∧
  ¬ ∃ i, active_role (cs_access s') "p" i = Some Owner.
Proof.
  assert (let '(r, s') := interp (core_handle 7) (add_member "p" "alice" Writer_ (Some "a"%string))
            (owned_by ["alice"%string]) in r = Ok tt ∧ owners "p" s' = []) as H by (by vm_compute).
  destruct (interp _ _ _) as [r s']. destruct H as [-> H].
  split_and!; [apply owned_by_owned|done|by apply no_owners].
Qed.

(** The guard of the last owner and the write it guards are two requests: two
    owners that remove themselves at the same time can both succeed and leave
    the project without owners. *)
Theorem concurrent_removals_drop_owners :
  ∃ s', rtc (pool_step core_serve (λ _ _, False))
          (owned_by ["alice"; "bob"]%string,
           [remove_member "p" "alice" (Some "a"%string); remove_member "p" "bob" (Some "b"%string)])
          (s', [Ret (Ok tt); Ret (Ok tt)]) ∧
        owned (owned_by ["alice"; "bob"]%string) ∧ ¬ ∃ i, active_role (cs_access s') "p" i = Some Owner.
Proof.
  set (c := (owned_by ["alice"; "bob"]%string, _)).
  set (c' := run_pool (core_handle 7) ([0; 0; 0; 0; 1; 1; 1; 1; 0; 1]%nat) c).
  assert (c'.2 = [Ret (Ok tt); Ret (Ok tt)] ∧ owners "p" c'.1 = []) as [Hts Ho] by (by vm_compute).
  exists c'.1. split_and!; [|apply owned_by_owned|by apply no_owners].
  rewrite <- Hts, <- surjective_pairing. apply run_pool_steps, core_handle_serve.
Qed.

End LastOwner.
