(* ===== verification/ChangeJsonModel.v ===== *)
(** * ChangeJsonModel: a lawful serializer of change records

    A concrete instance of [ChangeJson] that satisfies [ChangeJsonLaws], used to
    instantiate the theorems of [ChangeStore] at concrete inputs. It is not the
    JSON that [serde_json] writes, only an injective encoding with its inverse. *)
From S2P Require Import Prelude RustStd SchemaTypes ChangeModel Prog ObjectDb RecordStore ChangeStore ProtocModel.
From Stdlib Require Import Strings.Byte.
From stdpp Require Import countable.

(** ** Decidable equality and countability of the model *)

#[export] Instance IdentityKind_countable : Countable IdentityKind.
Proof.
  refine (inj_countable' (λ k, match k with KAnonymous => 0 | KHuman => 1 | KAgent => 2 | KService => 3 end)
            (λ n : nat, match n with 0 => KAnonymous | 1 => KHuman | 2 => KAgent | _ => KService end) _).
  by intros [].
Defined.

#[export] Instance ChangeActor_eq_dec : EqDecision ChangeActor.
Proof. solve_decision. Defined.
#[export] Instance ChangeActor_countable : Countable ChangeActor.
Proof.
  refine (inj_countable' (λ a, (ca_identity a, ca_kind a, ca_display_name a, ca_delegated_by a))
            (λ '(a, b, c, d), mkChangeActor a b c d) _). by intros [].
Defined.

#[export] Instance ChangeEdit_eq_dec : EqDecision ChangeEdit.
Proof. solve_decision. Defined.
#[export] Instance ChangeEdit_countable : Countable ChangeEdit.
Proof.
  refine (inj_countable'
            (λ e, match e with
                  | EditMutation s f o => inl (s, f, o)
                  | ReplaceSource s f c => inr (inl (s, f, c))
                  | DeleteSchema s f => inr (inr (s, f))
                  end)
            (λ x, match x with
                  | inl (s, f, o) => EditMutation s f o
                  | inr (inl (s, f, c)) => ReplaceSource s f c
                  | inr (inr (s, f)) => DeleteSchema s f
                  end) _). by intros [].
Defined.

#[export] Instance ChangeRecordStatus_countable : Countable ChangeRecordStatus.
Proof.
  refine (inj_countable'
            (λ k, match k with Draft => 0 | Ready => 1 | Applying => 2 | Applied => 3 | Rejected => 4
                  | Abandoned => 5 end)
            (λ n : nat, match n with 0 => Draft | 1 => Ready | 2 => Applying | 3 => Applied
                        | 4 => Rejected | _ => Abandoned end) _).
  by intros [].
Defined.

#[export] Instance ValidationIssue_eq_dec : EqDecision ValidationIssue.
Proof. solve_decision. Defined.
#[export] Instance ValidationIssue_countable : Countable ValidationIssue.
Proof.
  refine (inj_countable' (λ i, (vi_code i, vi_message i, vi_schema_name i, vi_declaration_name i))
            (λ '(a, b, c, d), mkValidationIssue a b c d) _). by intros [].
Defined.

#[export] Instance ValidationResult_eq_dec : EqDecision ValidationResult.
Proof. solve_decision. Defined.
#[export] Instance ValidationResult_countable : Countable ValidationResult.
Proof.
  refine (inj_countable'
            (λ v, (vr_valid v, vr_resolved_base_commit v, vr_edit_digest v, vr_issues v,
                   vr_validated_at_unix_ms v, vr_validator_version v))
            (λ '(a, b, c, d, e, f), mkValidationResult a b c d e f) _). by intros [].
Defined.

#[export] Instance ChangeReviewDecision_countable : Countable ChangeReviewDecision.
Proof.
  refine (inj_countable' (λ k, match k with Approved => true | DecisionRejected => false end)
            (λ b : bool, if b then Approved else DecisionRejected) _). by intros [].
Defined.

#[export] Instance ChangeReview_eq_dec : EqDecision ChangeReview.
Proof. solve_decision. Defined.
#[export] Instance ChangeReview_countable : Countable ChangeReview.
Proof.
  refine (inj_countable'
            (λ r, (rv_reviewer r, rv_decision r, rv_reason r, rv_create_time_unix_ms r))
            (λ '(a, b, c, d), mkChangeReview a b c d) _). by intros [].
Defined.

#[export] Instance ApplyResult_eq_dec : EqDecision ApplyResult.
Proof. solve_decision. Defined.
#[export] Instance ApplyResult_countable : Countable ApplyResult.
Proof.
  refine (inj_countable'
            (λ r, (res_commit_id r, res_change_id r, res_operation_id r,
                   res_conflicted_declarations r, res_artifact_digest r))
            (λ '(a, b, c, d, e), mkApplyResult a b c d e) _). by intros [].
Defined.

#[export] Instance ApplyAttempt_eq_dec : EqDecision ApplyAttempt.
Proof. solve_decision. Defined.
#[export] Instance ApplyAttempt_countable : Countable ApplyAttempt.
Proof.
  refine (inj_countable'
            (λ r, (at_request_id r, at_attempt_id r, at_actor r, at_lease_owner r,
                   at_lease_expires_at_unix_ms r, at_start_time_unix_ms r, at_update_time_unix_ms r))
            (λ '(a, b, c, d, e, f, g), mkApplyAttempt a b c d e f g) _). by intros [].
Defined.

#[export] Instance ChangeRecord_eq_dec : EqDecision ChangeRecord.
Proof. solve_decision. Defined.
#[export] Instance ChangeRecord_countable : Countable ChangeRecord.
Proof.
  refine (inj_countable'
            (λ r, ((cr_name r, cr_project r, cr_repo r, cr_target_bookmark r, cr_base_revision r,
                    cr_title r, cr_description r, cr_external_references r, cr_edits r),
                   (cr_created_by r, cr_status r, cr_validation r, cr_reviews r, cr_apply_attempt r,
                    cr_apply_result r, cr_etag r, cr_create_time_unix_ms r, cr_update_time_unix_ms r)))
            (λ '((a, b, c, d, e, f, g, h, i), (j, k, l, m, n, o, p, q, r)),
               mkChangeRecord a b c d e f g h i j k l m n o p q r) _). by intros [].
Defined.

(** ** The instance *)

Fixpoint positive_bytes (p : positive) : list byte :=
  match p with
  | xI p => x01 :: positive_bytes p
  | xO p => x00 :: positive_bytes p
  | xH => []
  end.

Fixpoint bytes_positive (bs : list byte) : positive :=
  match bs with
  | [] => xH
  | x01 :: bs => xI (bytes_positive bs)
  | _ :: bs => xO (bytes_positive bs)
  end.

Lemma bytes_positive_bytes p : bytes_positive (positive_bytes p) = p.
Proof. induction p; simpl; congruence. Qed.

#[export] Instance model_json : ChangeJson := {
  change_to_vec r := Ok (positive_bytes (encode r));
  change_from_slice bs :=
    match decode (bytes_positive bs) with
    | Some r => Ok r
    | None => Err "expected value at line 1 column 1"%string
    end;
}.

#[export] Instance model_json_laws : ChangeJsonLaws model_json.
Proof.
  intros r. exists (positive_bytes (encode r)). split; [done|]. simpl.
  by rewrite bytes_positive_bytes, decode_encode.
Qed.

(** ** Witness *)

Definition sample_actor : ChangeActor := mkChangeActor "alice" KHuman None None.

Definition sample_record : ChangeRecord :=
  mkChangeRecord "projects/p/repos/r/changes/c" "p" "r" "main" None "t" "d" [] [] sample_actor Draft
    None [] None None "" 5 5.

Lemma durable_store_refines_witness :
  let '(x, d') := interp db_serve (durable_serve _ (StoreCreate sample_record)) inner_default in
  ∃ s', memory_serve _ (StoreCreate sample_record) ∅ = (x, s') ∧ represents d' s'.
Proof. apply (durable_store_refines _ (StoreCreate sample_record)). apply represents_empty. Defined.
