(* ===== verification/ChangeLedger.v ===== *)
(** * ChangeLedger: the lifecycle service over the change-record store

    [crates/schemahub-core/src/change_record/ledger.rs]. Every method is a
    program of requests to the store, the clock and the id generator, in the
    order in which the code makes them, so that the same definitions can be run
    alone and interleaved with other callers. *)
From S2P Require Import Prelude RustStd SchemaTypes ChangeModel Prog ObjectDb RecordStore ChangeStore.
From Stdlib Require Import Ascii Strings.Byte.

Open Scope Z_scope.

(** What a ledger method can ask of its collaborators. *)
Inductive ledger_req : Type → Type :=
  | OnStore {X : Type} (q : store_req X) : ledger_req X
  | NowUnixMillis : ledger_req (outcome ChangeRuntimeError Z)
  | GenerateChangeId : ledger_req string
  | GenerateApplyAttemptId : ledger_req string
  | GenerateApplyLeaseOwner : ledger_req string.

Abbreviation ledger := (action ledger_req ChangeLedgerError).

Definition on_store {A} (q : store_req (outcome ChangeStoreError A)) : ledger A :=
  try_call LedgerStore (OnStore q).
Definition now_unix_millis : ledger Z := try_call LedgerRuntime NowUnixMillis.
Definition generate (q : ledger_req string) : ledger string := Call q (λ id, Ret (Ok id)).

Section Ledger.
Context {RF : RustFmt}.

(** ** Validators *)

Definition invalid (m : string) : ChangeLedgerError := InvalidArgument m.

Definition require_status (record : ChangeRecord) (expected : ChangeRecordStatus)
    (operation : string) : outcome ChangeLedgerError unit :=
  fail_if (negb (bool_decide (cr_status record = expected)))
    (FailedPrecondition ("cannot " +:+ operation +:+ " a " +:+ debug_status (cr_status record) +:+
                         " change record; expected " +:+ debug_status expected)).

Definition validate_segment (label value : string) : outcome ChangeLedgerError unit :=
  fail_if (str_is_empty value || contains_char "/"%char value || has_control value)
    (invalid (label +:+ " must be a non-empty resource path segment without control characters")).

Definition validate_nonempty (label value : string) : outcome ChangeLedgerError unit :=
  fail_if (str_is_empty (trim value)) (invalid (label +:+ " must not be empty")).

Definition validate_title (title : string) : outcome ChangeLedgerError unit :=
  _ ← validate_nonempty "title" title;
  fail_if (200 <? Z.of_nat (length (chars title))) (invalid "title must be at most 200 characters").

(** The loop of [normalize_external_references]. *)
Fixpoint normalize_loop (unique : gset string) (references : list string) :
    outcome ChangeLedgerError (list string) :=
  match references with
  | [] => Ok []
  | reference :: references =>
    let reference := trim reference in
    _ ← fail_if (str_is_empty reference || (2048 <? str_len reference) || has_control reference)
          (invalid "each external reference must be 1-2048 bytes without control characters");
    _ ← fail_if (bool_decide (reference ∈ unique))
          (invalid ("external_references contains duplicate entry " +:+ debug_str reference));
    normalized ← normalize_loop ({[ reference ]} ∪ unique) references;
    Ok (reference :: normalized)
  end.

Definition normalize_external_references (references : list string) :
    outcome ChangeLedgerError (list string) :=
  _ ← fail_if (32 <? Z.of_nat (length references))
        (invalid "external_references must contain at most 32 entries");
  normalize_loop ∅ references.

Definition is_ascii_lowercase (b : byte) : bool := in_range 97 122 b.
Definition is_ascii_digit (b : byte) : bool := in_range 48 57 b.

Definition change_id_valid (id : string) : bool :=
  let bs := as_bytes id in
  (1 <=? str_len id) && (str_len id <=? 63)
  && match bs with b :: _ => is_ascii_lowercase b | [] => false end
  && forallb (λ b, is_ascii_lowercase b || is_ascii_digit b || (u8 b =? 45)) bs.

Definition validate_change_id (id : string) : outcome ChangeLedgerError unit :=
  fail_if (negb (change_id_valid id)) (invalid "change_id must match [a-z][a-z0-9-]{0,62}").

Definition validate_request_id (id : string) : outcome ChangeLedgerError unit :=
  fail_if (str_is_empty (trim id) || (128 <? str_len id) || has_control id)
    (invalid "request_id must be 1-128 characters without control characters").

Definition parse_resource_name (name : string) : outcome ChangeLedgerError (list string) :=
  match split_char "/"%char name with
  | [p0; project; p2; repo; p4; change] as parts =>
    if bool_decide (p0 = "projects"%string) && bool_decide (p2 = "repos"%string)
       && bool_decide (p4 = "changes"%string) then
      _ ← validate_segment "project" project;
      _ ← validate_segment "repo" repo;
      _ ← validate_change_id change;
      Ok parts
    else Err (invalid "change name must be projects/{project}/repos/{repo}/changes/{change}")
  | _ => Err (invalid "change name must be projects/{project}/repos/{repo}/changes/{change}")
  end.

Definition validate_resource_name (name : string) : outcome ChangeLedgerError unit :=
  _ ← parse_resource_name name; Ok tt.

(** [ChangeLedger::scope]. *)
Definition scope (name : string) : outcome ChangeLedgerError (string * string) :=
  parts ← parse_resource_name name;
  match parts with
  | [_; project; _; repo; _; _] => Ok (project, repo)
  | _ => Panic
  end.

Definition validate_scope (project repo : string) : outcome ChangeLedgerError unit :=
  _ ← validate_segment "project" project; validate_segment "repo" repo.

Definition resource_name (project repo change_id : string) : string :=
  "projects/" +:+ project +:+ "/repos/" +:+ repo +:+ "/changes/" +:+ change_id.

(** ** Create, read, list *)

Definition create (input : CreateChange) (identity : Identity) : ledger ChangeRecord :=
  _ ← pure_step (validate_segment "project" (cc_project input));
  _ ← pure_step (validate_segment "repo" (cc_repo input));
  _ ← pure_step (validate_nonempty "target_bookmark" (cc_target_bookmark input));
  _ ← pure_step (validate_title (cc_title input));
  references ← pure_step (normalize_external_references (cc_external_references input));
  change_id ← match cc_change_id input with
              | Some id => mret id
              | None => generate GenerateChangeId
              end;
  _ ← pure_step (validate_change_id change_id);
  now ← now_unix_millis;
  on_store (StoreCreate
    (mkChangeRecord (resource_name (cc_project input) (cc_repo input) change_id)
       (cc_project input) (cc_repo input) (cc_target_bookmark input) (cc_base_revision input)
       (trim (cc_title input)) (cc_description input) references (cc_edits input)
       (actor_of identity) Draft None [] None None "" now now)).

Definition get (name : string) : ledger ChangeRecord :=
  _ ← pure_step (validate_resource_name name);
  found ← on_store (StoreGet name);
  pure_step (ok_or found (LedgerStore (StoreNotFound name))).

Definition get_at_etag (name expected_etag : string) : ledger ChangeRecord :=
  _ ← pure_step (fail_if (str_is_empty expected_etag) (invalid "etag must not be empty"));
  record ← get name;
  _ ← pure_step (fail_if (negb (bool_decide (cr_etag record = expected_etag)))
                   (LedgerStore (EtagMismatch name expected_etag (cr_etag record))));
  mret record.

Definition ledger_list (project repo : string) : ledger (list ChangeRecord) :=
  _ ← pure_step (validate_segment "project" project);
  _ ← pure_step (validate_segment "repo" repo);
  on_store (StoreList project repo).

(** ** Drafts *)

(** The assignments of [update], in its order. *)
Definition apply_patch (record : ChangeRecord) (patch : ChangeUpdate) :
    outcome ChangeLedgerError ChangeRecord :=
  target ← match cu_target_bookmark patch with
           | Some target => _ ← validate_nonempty "target_bookmark" target; Ok target
           | None => Ok (cr_target_bookmark record)
           end;
  let base :=
    match cu_base_revision patch with
    | Some base => if str_is_empty base then None else Some base
    | None => cr_base_revision record
    end in
  title ← match cu_title patch with
          | Some title => _ ← validate_title title; Ok (trim title)
          | None => Ok (cr_title record)
          end;
  let description := default (cr_description record) (cu_description patch) in
  references ← match cu_external_references patch with
               | Some references => normalize_external_references references
               | None => Ok (cr_external_references record)
               end;
  let edits := default (cr_edits record) (cu_edits patch) in
  let invalidates_validation :=
    is_some (cu_target_bookmark patch) || is_some (cu_base_revision patch)
    || is_some (cu_edits patch) in
  let record := with_content record target base title description references edits in
  Ok (if invalidates_validation then with_validation record None else record).

Definition update (name expected_etag : string) (patch : ChangeUpdate) : ledger ChangeRecord :=
  _ ← pure_step (fail_if (str_is_empty expected_etag) (invalid "etag must not be empty"));
  _ ← pure_step (fail_if (update_is_empty patch) (invalid "update mask selects no fields"));
  record ← get name;
  _ ← pure_step (require_status record Draft "update");
  record ← pure_step (apply_patch record patch);
  now ← now_unix_millis;
  on_store (StoreReplace expected_etag (with_update_time record now)).

Definition record_validation (name expected_etag : string) (validation : ValidationResult) :
    ledger ChangeRecord :=
  record ← get name;
  _ ← pure_step (require_status record Draft "validate");
  now ← now_unix_millis;
  let record := with_validation record (Some (vr_with_time validation now)) in
  on_store (StoreReplace expected_etag (with_update_time record now)).

Definition mark_ready (name expected_etag : string) : ledger ChangeRecord :=
  record ← get name;
  _ ← pure_step (require_status record Draft "mark ready");
  _ ← pure_step (fail_if (match cr_edits record with [] => true | _ => false end)
                   (FailedPrecondition "a note-only draft cannot be marked ready"));
  validation ← pure_step (ok_or (cr_validation record)
                   (FailedPrecondition "the current edits have not been validated"));
  _ ← pure_step (fail_if (negb (vr_valid validation))
                   (FailedPrecondition "the current validation contains blocking issues"));
  now ← now_unix_millis;
  on_store (StoreReplace expected_etag (with_update_time (with_status record Ready) now)).

(** ** Apply *)

(** [i64::checked_add]. *)
Definition checked_add (a b : Z) : outcome ChangeLedgerError Z :=
  if (- 2 ^ 63 <=? a + b) && (a + b <? 2 ^ 63) then Ok (a + b)
  else Err (LedgerRuntime TimestampOverflow).

Definition is_etag_mismatch (e : ChangeStoreError) : bool :=
  match e with EtagMismatch _ _ _ => true | _ => false end.

(** A compare-and-set inside one of the four-round loops: the record on
    success, the next round on an etag mismatch, the error otherwise. *)
Definition replace_or_continue {A} (etag : string) (record : ChangeRecord)
    (done : ChangeRecord → A) (continue : ledger A) : ledger A :=
  Call (OnStore (StoreReplace etag record)) (λ r,
    match r with
    | Ok acquired => Ret (Ok (done acquired))
    | Err e => if is_etag_mismatch e then continue else Ret (Err (LedgerStore e))
    | Panic => Ret Panic
    | Stuck => Ret Stuck
    end).

(** The branch of [acquire_apply] for a [Ready] record. *)
Definition acquire_ready (name expected_etag request_id : string) (actor : Identity)
    (lease_duration_ms : Z) (record : ChangeRecord) (continue : ledger ApplyAcquisition) :
    ledger ApplyAcquisition :=
  _ ← pure_step (fail_if (negb (bool_decide (cr_etag record = expected_etag)))
                   (LedgerStore (EtagMismatch name expected_etag (cr_etag record))));
  _ ← pure_step (fail_if (negb (match cr_validation record with
                                | Some v => vr_valid v | None => false end))
                   (FailedPrecondition "change does not have a passing validation snapshot"));
  now ← now_unix_millis;
  expires ← pure_step (checked_add now lease_duration_ms);
  attempt_id ← generate GenerateApplyAttemptId;
  lease_owner ← generate GenerateApplyLeaseOwner;
  let record := with_status record Applying in
  let record := with_apply_attempt record
    (Some (mkApplyAttempt request_id attempt_id (actor_of actor) lease_owner expires now now)) in
  replace_or_continue expected_etag (with_update_time record now) Acquired continue.

(** The branch for an [Applying] record. *)
Definition acquire_applying (request_id : string) (lease_duration_ms : Z)
    (record : ChangeRecord) (continue : ledger ApplyAcquisition) : ledger ApplyAcquisition :=
  now ← now_unix_millis;
  attempt ← pure_step (ok_or (cr_apply_attempt record)
              (FailedPrecondition "applying change is missing its apply attempt"));
  _ ← pure_step (fail_if (negb (bool_decide (at_request_id attempt = request_id)))
                   (FailedPrecondition "another request id is already applying this change"));
  if now <? at_lease_expires_at_unix_ms attempt then mret (Observed record)
  else
    lease_owner ← generate GenerateApplyLeaseOwner;
    expires ← pure_step (checked_add now lease_duration_ms);
    let record' := with_apply_attempt record (Some (at_with_lease attempt lease_owner expires now)) in
    replace_or_continue (cr_etag record) (with_update_time record' now) Acquired continue.

Definition acquire_applied (request_id : string) (record : ChangeRecord) : ledger ApplyAcquisition :=
  attempt ← pure_step (ok_or (cr_apply_attempt record)
              (FailedPrecondition "applied change is missing its apply attempt"));
  if bool_decide (at_request_id attempt = request_id) then mret (AlreadyApplied record)
  else pure_step (Err (FailedPrecondition "change was already applied by a different request id")).

Fixpoint acquire_loop (rounds : nat) (name expected_etag request_id : string) (actor : Identity)
    (lease_duration_ms : Z) : ledger ApplyAcquisition :=
  match rounds with
  | O => pure_step (Err (FailedPrecondition "apply lease changed repeatedly; retry the request"))
  | S rounds =>
    let continue := acquire_loop rounds name expected_etag request_id actor lease_duration_ms in
    record ← get name;
    match cr_status record with
    | Applied => acquire_applied request_id record
    | Ready => acquire_ready name expected_etag request_id actor lease_duration_ms record continue
    | Applying => acquire_applying request_id lease_duration_ms record continue
    | status =>
      pure_step (Err (FailedPrecondition ("cannot apply a " +:+ debug_status status +:+
                                          " change record")))
    end
  end.

Definition acquire_apply (name expected_etag request_id : string) (actor : Identity)
    (lease_duration_ms : Z) : ledger ApplyAcquisition :=
  _ ← pure_step (validate_request_id request_id);
  _ ← pure_step (fail_if (str_is_empty expected_etag) (invalid "etag must not be empty"));
  _ ← pure_step (fail_if (lease_duration_ms <=? 0) (invalid "apply lease duration must be positive"));
  acquire_loop 4 name expected_etag request_id actor lease_duration_ms.

Fixpoint complete_loop (rounds : nat) (name request_id attempt_id : string) (result : ApplyResult) :
    ledger ChangeRecord :=
  match rounds with
  | O => pure_step (Err (FailedPrecondition "apply completion changed repeatedly; retry the request"))
  | S rounds =>
    let continue := complete_loop rounds name request_id attempt_id result in
    record ← get name;
    if bool_decide (cr_status record = Applied) then
      if match cr_apply_attempt record with
         | Some attempt => bool_decide (at_request_id attempt = request_id)
         | None => false
         end
      then mret record
      else pure_step (Err (FailedPrecondition "change was already applied by a different request id"))
    else
      _ ← pure_step (require_status record Applying "complete apply");
      attempt ← pure_step (ok_or (cr_apply_attempt record)
                  (FailedPrecondition "applying change is missing its apply attempt"));
      _ ← pure_step (fail_if (negb (bool_decide (at_request_id attempt = request_id))
                              || negb (bool_decide (at_attempt_id attempt = attempt_id)))
                       (FailedPrecondition "apply correlation does not match the active attempt"));
      _ ← pure_step (fail_if (str_is_empty (res_commit_id result) || str_is_empty (res_change_id result)
                              || str_is_empty (res_operation_id result))
                       (invalid "apply result must include commit, change, and operation ids"));
      now ← now_unix_millis;
      let record' := with_apply_attempt record (Some (at_with_update_time attempt now)) in
      let record' := with_apply_result (with_status record' Applied) (Some result) in
      replace_or_continue (cr_etag record) (with_update_time record' now) id continue
  end.

Definition complete_apply (name request_id attempt_id : string) (result : ApplyResult) :
    ledger ChangeRecord :=
  complete_loop 4 name request_id attempt_id result.

Fixpoint release_loop (rounds : nat) (name request_id attempt_id lease_owner : string) :
    ledger ChangeRecord :=
  match rounds with
  | O => pure_step (Err (FailedPrecondition "apply release changed repeatedly; retry the request"))
  | S rounds =>
    let continue := release_loop rounds name request_id attempt_id lease_owner in
    record ← get name;
    _ ← pure_step (require_status record Applying "release apply");
    attempt ← pure_step (ok_or (cr_apply_attempt record)
                (FailedPrecondition "applying change is missing its apply attempt"));
    _ ← pure_step (fail_if (negb (bool_decide (at_request_id attempt = request_id))
                            || negb (bool_decide (at_attempt_id attempt = attempt_id))
                            || negb (bool_decide (at_lease_owner attempt = lease_owner)))
                     (FailedPrecondition "apply release does not match the active lease"));
    now ← now_unix_millis;
    let record' := with_apply_attempt (with_status record Ready) None in
    replace_or_continue (cr_etag record) (with_update_time record' now) id continue
  end.

Definition release_apply (name request_id attempt_id lease_owner : string) : ledger ChangeRecord :=
  release_loop 4 name request_id attempt_id lease_owner.

(** ** Reviews and abandonment *)

Definition review (name expected_etag : string) (reviewer : Identity)
    (decision : ChangeReviewDecision) (reason : string) : ledger ChangeRecord :=
  record ← get name;
  _ ← pure_step (require_status record Ready "review");
  let actor := actor_of reviewer in
  _ ← pure_step (fail_if (bool_decide (ca_identity (cr_created_by record) = ca_identity actor))
                   (FailedPrecondition "the change author cannot review their own change"));
  _ ← pure_step (fail_if (existsb (λ r, bool_decide (ca_identity (rv_reviewer r) = ca_identity actor))
                            (cr_reviews record))
                   (FailedPrecondition ("identity " +:+ debug_str (ca_identity actor) +:+
                                        " has already reviewed this change")));
  now ← now_unix_millis;
  let record := with_reviews record (cr_reviews record ++ [mkChangeReview actor decision reason now]) in
  let record := if bool_decide (decision = DecisionRejected) then with_status record Rejected
                else record in
  on_store (StoreReplace expected_etag (with_update_time record now)).

Definition approve (name expected_etag : string) (reviewer : Identity) (reason : string) :
    ledger ChangeRecord :=
  review name expected_etag reviewer Approved reason.

Definition reject (name expected_etag : string) (reviewer : Identity) (reason : string) :
    ledger ChangeRecord :=
  _ ← pure_step (fail_if (str_is_empty (trim reason)) (invalid "rejection reason must not be empty"));
  review name expected_etag reviewer DecisionRejected reason.

Definition abandon (name expected_etag : string) : ledger ChangeRecord :=
  record ← get name;
  _ ← pure_step (fail_if (negb (bool_decide (cr_status record = Draft)
                                || bool_decide (cr_status record = Ready)))
                   (FailedPrecondition ("cannot abandon a " +:+ debug_status (cr_status record) +:+
                                        " change record")));
  now ← now_unix_millis;
  on_store (StoreReplace expected_etag (with_update_time (with_status record Abandoned) now)).

End Ledger.
