(* ===== verification/LedgerProps.v ===== *)
(** * LedgerProps: the change-record lifecycle under concurrency

    The lifecycle as a transition relation on records, the guarantee it gives on
    the shared store, and the proof that every ledger method stays within it
    when any number of callers are interleaved. The invariants of a record and
    the immutability of terminal records follow by induction on the relation.

    The methods that take a client's etag compare it with the store at the
    write, not at the read, so they need the etag to be one that the store has
    already issued; the last section shows what happens otherwise. *)
From S2P Require Import Prelude RustStd SchemaTypes ProtocModel ChangeModel Prog ObjectDb RecordStore ChangeStore ChangeJsonModel ChangeLedger.
From Stdlib Require Import Ascii.

Open Scope Z_scope.

(** ** Resource names *)

Section Names.
Context {RF : RustFmt}.

Definition segment_valid (s : string) : bool :=
  negb (str_is_empty s || contains_char "/"%char s || has_control s).

Lemma validate_segment_ok label s : validate_segment label s = Ok tt ↔ segment_valid s = true.
Proof.
  unfold validate_segment, segment_valid, fail_if.
  by destruct (str_is_empty s || contains_char "/"%char s || has_control s).
Qed.

Lemma segment_no_slash s : segment_valid s = true → contains_char "/"%char s = false.
Proof.
  unfold segment_valid. destruct (contains_char "/"%char s); [|done].
  by rewrite orb_true_r.
Qed.

Lemma change_id_no_slash id : change_id_valid id = true → contains_char "/"%char id = false.
Proof.
  unfold change_id_valid. rewrite !andb_true_iff. intros [_ Hall]. revert Hall.
  induction id as [|a id IH]; [done|]. cbn. rewrite andb_true_iff. intros [Ha Hid].
  rewrite IH by done. rewrite bool_decide_eq_false_2; [done|]. intros ->. by vm_compute in Ha.
Qed.

Lemma parse_resource_name_print project repo id :
  segment_valid project = true → segment_valid repo = true → change_id_valid id = true →
  parse_resource_name (resource_name project repo id) =
    Ok ["projects"; project; "repos"; repo; "changes"; id]%string.
Proof.
  intros Hp Hr Hid. unfold parse_resource_name, resource_name.
  assert (split_char "/"%char ("projects/" +:+ project +:+ "/repos/" +:+ repo +:+ "/changes/" +:+ id)
          = ["projects"; project; "repos"; repo; "changes"; id]%string) as ->.
  { change ("projects/" +:+ project +:+ "/repos/" +:+ repo +:+ "/changes/" +:+ id)
      with ("projects" +:+ String "/" (project +:+ String "/" ("repos" +:+ String "/"
              (repo +:+ String "/" ("changes" +:+ String "/" id))))).
    rewrite !split_char_app by auto using segment_no_slash.
    by rewrite split_char_nil by auto using change_id_no_slash. }
  cbn [mbind outcome_bind]. unfold validate_segment.
  apply negb_true_iff in Hp, Hr. rewrite Hp, Hr. unfold validate_change_id. by rewrite Hid.
Qed.

Lemma scope_resource_name project repo id :
  segment_valid project = true → segment_valid repo = true → change_id_valid id = true →
  scope (resource_name project repo id) = Ok (project, repo).
Proof. intros. unfold scope. by rewrite parse_resource_name_print. Qed.

End Names.

(** ** The lifecycle as a transition relation *)

Section Lifecycle.
Context {RF : RustFmt}.

Definition passing (r : ChangeRecord) : Prop :=
  ∃ v, cr_validation r = Some v ∧ vr_valid v = true.

Definition result_ok (res : ApplyResult) : Prop :=
  res_commit_id res ≠ ""%string ∧ res_change_id res ≠ ""%string ∧ res_operation_id res ≠ ""%string.

Definition reviewers (r : ChangeRecord) : list string :=
  (λ v, ca_identity (rv_reviewer v)) <$> cr_reviews r.

(** The changes of a record's content that the lifecycle allows; the etag is
    assigned by the store. *)
Inductive transition (r : ChangeRecord) : ChangeRecord → Prop :=
  | T_update patch r1 now :
    cr_status r = Draft → apply_patch r patch = Ok r1 → transition r (with_update_time r1 now)
  | T_validate v now :
    cr_status r = Draft → transition r (with_update_time (with_validation r (Some v)) now)
  | T_ready now :
    cr_status r = Draft → cr_edits r ≠ [] → passing r →
    transition r (with_update_time (with_status r Ready) now)
  | T_acquire a now :
    cr_status r = Ready → passing r → now < at_lease_expires_at_unix_ms a →
    transition r (with_update_time (with_apply_attempt (with_status r Applying) (Some a)) now)
  | T_renew a owner expires now :
    cr_status r = Applying → cr_apply_attempt r = Some a →
    at_lease_expires_at_unix_ms a <= now → now < expires →
    transition r
      (with_update_time (with_apply_attempt r (Some (at_with_lease a owner expires now))) now)
  | T_complete a res now :
    cr_status r = Applying → cr_apply_attempt r = Some a → result_ok res →
    transition r (with_update_time (with_apply_result
      (with_status (with_apply_attempt r (Some (at_with_update_time a now))) Applied) (Some res)) now)
  | T_release now :
    cr_status r = Applying →
    transition r (with_update_time (with_apply_attempt (with_status r Ready) None) now)
  | T_approve review now :
    cr_status r = Ready → rv_decision review = Approved →
    ca_identity (cr_created_by r) ≠ ca_identity (rv_reviewer review) →
    ca_identity (rv_reviewer review) ∉ reviewers r →
    transition r (with_update_time (with_reviews r (cr_reviews r ++ [review])) now)
  | T_reject review now :
    cr_status r = Ready → rv_decision review = DecisionRejected →
    ca_identity (cr_created_by r) ≠ ca_identity (rv_reviewer review) →
    ca_identity (rv_reviewer review) ∉ reviewers r →
    transition r
      (with_update_time (with_status (with_reviews r (cr_reviews r ++ [review])) Rejected) now)
  | T_abandon now :
    cr_status r = Draft ∨ cr_status r = Ready →
    transition r (with_update_time (with_status r Abandoned) now).

(** ** The invariant of a record *)

(** The statuses after [Draft] that an abandoned draft does not reach. *)
Definition past_draft (s : ChangeRecordStatus) : bool :=
  match s with Ready | Applying | Applied | Rejected => true | Draft | Abandoned => false end.

Definition in_apply (s : ChangeRecordStatus) : bool :=
  match s with Applying | Applied => true | _ => false end.

Record record_inv (r : ChangeRecord) : Prop := mkRecordInv {
  ri_scope : scope (cr_name r) = Ok (cr_project r, cr_repo r);
  ri_ready : past_draft (cr_status r) = true → cr_edits r ≠ [] ∧ passing r;
  ri_attempt : is_Some (cr_apply_attempt r) ↔ in_apply (cr_status r) = true;
  ri_result : is_Some (cr_apply_result r) ↔ cr_status r = Applied;
  ri_result_ok res : cr_apply_result r = Some res → result_ok res;
  ri_draft : cr_status r = Draft → cr_reviews r = [];
  ri_reviewers : NoDup (reviewers r);
  ri_author : ca_identity (cr_created_by r) ∉ reviewers r;
  ri_rejected :
    cr_status r = Rejected ↔ Exists (λ v, rv_decision v = DecisionRejected) (cr_reviews r);
}.

(** The fields no transition changes. *)
Definition same_identity (r r' : ChangeRecord) : Prop :=
  cr_name r' = cr_name r ∧ cr_project r' = cr_project r ∧ cr_repo r' = cr_repo r ∧
  cr_created_by r' = cr_created_by r ∧ cr_create_time_unix_ms r' = cr_create_time_unix_ms r.

(** What a patch leaves alone. *)
Lemma apply_patch_frame r patch r1 :
  apply_patch r patch = Ok r1 →
  same_identity r r1 ∧ cr_status r1 = cr_status r ∧ cr_reviews r1 = cr_reviews r ∧
  cr_apply_attempt r1 = cr_apply_attempt r ∧ cr_apply_result r1 = cr_apply_result r ∧
  cr_etag r1 = cr_etag r.
Proof.
  intros H. unfold apply_patch in H. ok_inv H. subst r1. by destruct (_ || _).
Qed.

Lemma transition_identity r r' : transition r r' → same_identity r r' ∧ cr_etag r' = cr_etag r.
Proof.
  intros []; try done. by apply apply_patch_frame in H0 as (H1 & _ & _ & _ & _ & H2).
Qed.

Lemma transition_not_terminal r r' : transition r r' → is_terminal (cr_status r) = false.
Proof. intros []; by (rewrite H || destruct H as [->| ->]). Qed.

(** An invariant depends on the fields it names only. *)
Lemma record_inv_ext r r' :
  same_identity r r' → cr_edits r' = cr_edits r → cr_status r' = cr_status r →
  cr_validation r' = cr_validation r → cr_reviews r' = cr_reviews r →
  (is_Some (cr_apply_attempt r') ↔ is_Some (cr_apply_attempt r)) →
  cr_apply_result r' = cr_apply_result r → record_inv r → record_inv r'.
Proof.
  intros (Hn & Hp & Hr & Hc & _) He Hs Hv Hrv Ha Hres [I1 I2 I3 I4 I5 I6 I7 I8 I9].
  split; unfold passing, reviewers in *; rewrite ?Hn, ?Hp, ?Hr, ?Hc, ?He, ?Hs, ?Hv, ?Hrv, ?Ha, ?Hres;
    done.
Qed.

(** Status changes that keep the reviews. *)
Lemma record_inv_status r r' :
  same_identity r r' → cr_edits r' = cr_edits r → cr_validation r' = cr_validation r →
  cr_reviews r' = cr_reviews r →
  cr_status r ≠ Rejected → cr_status r' ≠ Rejected → cr_status r' ≠ Draft →
  (past_draft (cr_status r') = true → cr_edits r ≠ [] ∧ passing r) →
  (is_Some (cr_apply_attempt r') ↔ in_apply (cr_status r') = true) →
  (is_Some (cr_apply_result r') ↔ cr_status r' = Applied) →
  (∀ res, cr_apply_result r' = Some res → result_ok res) →
  record_inv r → record_inv r'.
Proof.
  intros (Hn & Hp & Hr & Hc & _) He Hv Hrv Hs Hs' Hd Hready Ha Hres Hresok
    [I1 I2 I3 I4 I5 I6 I7 I8 I9].
  split; unfold passing, reviewers in *; rewrite ?Hn, ?Hp, ?Hr, ?Hc, ?He, ?Hv, ?Hrv; try done.
  split; [done|]. intros Hex. by apply I9 in Hex.
Qed.

(** A review appended to a [Ready] record. *)
Lemma record_inv_review r r' review :
  same_identity r r' → cr_edits r' = cr_edits r → cr_validation r' = cr_validation r →
  cr_reviews r' = cr_reviews r ++ [review] →
  cr_apply_attempt r' = cr_apply_attempt r → cr_apply_result r' = cr_apply_result r →
  cr_status r = Ready →
  cr_status r' = (if bool_decide (rv_decision review = DecisionRejected) then Rejected else Ready) →
  ca_identity (cr_created_by r) ≠ ca_identity (rv_reviewer review) →
  ca_identity (rv_reviewer review) ∉ reviewers r →
  record_inv r → record_inv r'.
Proof.
  intros (Hn & Hp & Hr & Hc & _) He Hv Hrv Ha Hres Hs Hs' Hau Hnew [I1 I2 I3 I4 I5 I6 I7 I8 I9].
  assert (in_apply (cr_status r') = false ∧ cr_status r' ≠ Applied ∧ cr_status r' ≠ Draft)
    as (Hs1 & Hs2 & Hs3) by (rewrite Hs'; by case_bool_decide).
  rewrite Hs in *.
  split; unfold passing, reviewers in *; rewrite ?Hn, ?Hp, ?Hr, ?Hc, ?He, ?Hv, ?Hrv, ?Ha, ?Hres, ?Hs1;
    try done.
  - intros _. by apply I2.
  - split; [|done]. by intros H%I4.
  - rewrite fmap_app. apply NoDup_app. split_and!; [done| |apply NoDup_singleton].
    intros x Hx ->%list_elem_of_singleton. done.
  - rewrite fmap_app, not_elem_of_app. split; [done|]. by intros ?%list_elem_of_singleton.
  - rewrite Exists_app, Exists_cons, Exists_nil, Hs'. case_bool_decide as Hd.
    + split; [auto|done].
    + split; [done|]. intros [Hex%I9|[?|[]]]; done.
Qed.

Lemma transition_inv r r' : record_inv r → transition r r' → record_inv r'.
Proof.
  intros I T. pose proof (transition_identity _ _ T) as [Hid _].
  destruct T as [patch r1 now Hs Hpatch|v now Hs|now Hs He Hv|a now Hs Hv Ha|a o e now Hs Ha H1 H2
    |a res now Hs Ha Hres|now Hs|rv now Hs Hd Hau Hrv|rv now Hs Hd Hau Hrv|now Hs].
  - apply apply_patch_frame in Hpatch as (_ & Hst & Hrev & Hat & Hre & _).
    destruct Hid as (Hn & Hp & Hr & Hc & _). destruct I. unfold reviewers in *. cbn in *.
    split; unfold reviewers; cbn; rewrite ?Hst, ?Hrev, ?Hat, ?Hre, ?Hn, ?Hp, ?Hr, ?Hc, ?Hs in *; done.
  - destruct I. split; unfold reviewers in *; cbn; rewrite ?Hs in *; done.
  - apply (record_inv_status r); cbn; rewrite ?Hs; try done; destruct I as [_ _ I3 I4 I5 _ _ _ _];
      rewrite ?Hs in *; cbn in *; try done.
    split; [by intros ?%I4|done].
  - apply (record_inv_status r); cbn; rewrite ?Hs; try done; destruct I as [_ I2 I3 I4 I5 _ _ _ _];
      rewrite ?Hs in *; cbn in *; try done.
    + split; [by intros ?%I4|done].
  - apply (record_inv_ext r); cbn; rewrite ?Ha; done.
  - apply (record_inv_status r); cbn; rewrite ?Hs; try done; destruct I as [_ I2 I3 I4 I5 _ _ _ _];
      rewrite ?Hs in *; cbn in *; try done.
    + by intros res' [= <-].
  - apply (record_inv_status r); cbn; rewrite ?Hs; try done; destruct I as [_ I2 I3 I4 I5 _ _ _ _];
      rewrite ?Hs in *; cbn in *; try done.
    + split; [by intros ?%I4|done].
  - apply (record_inv_review r _ rv); try done. cbn. by rewrite Hd, Hs.
  - apply (record_inv_review r _ rv); try done. cbn. by rewrite Hd.
  - apply (record_inv_status r); cbn; try done; destruct I as [_ I2 I3 I4 I5 _ _ _ _]; try done.
    + by destruct Hs as [->| ->].
    + split; [|done]. intros H%I3. by destruct Hs as [Hs|Hs]; rewrite Hs in H.
    + split; [|done]. intros H%I4. by destruct Hs as [Hs|Hs]; rewrite Hs in H.
Qed.

(** ** Etags *)

Definition has_version (r : ChangeRecord) (v : Z) : Prop :=
  cr_etag r = version_etag v ∧ 1 <= v < 2 ^ 64.

Lemma etag_version_etag v : 0 <= v < 2 ^ 64 → etag_version (version_etag v) = Some v.
Proof.
  intros Hv. unfold etag_version, version_etag, fmt_Z.
  destruct (Z.ltb_spec v 0); [lia|]. cbn. by apply parse_u64_fmt.
Qed.

Lemma version_etag_inj v v' :
  0 <= v < 2 ^ 64 → 0 <= v' < 2 ^ 64 → version_etag v = version_etag v' → v = v'.
Proof.
  intros Hv Hv' H. apply (f_equal etag_version) in H. rewrite !etag_version_etag in H by done.
  by injection H.
Qed.

Lemma has_version_unique r v v' : has_version r v → has_version r v' → v = v'.
Proof. intros [H1 ?] [H2 ?]. apply version_etag_inj; [lia..|congruence]. Qed.

(** ** The shared store *)

Definition store_inv (s : store) : Prop :=
  names_agree s ∧ ∀ n r, s !! n = Some r → record_inv r ∧ ∃ v, has_version r v.

(** What a caller may do to the store: add a fresh draft, or replace a record by
    one that a transition allows, with the next version. When clients pass etags
    that the store has not issued yet ([guessing]), the transition starts from a
    record that was read before, which need not be the one that is replaced. *)
Inductive guar_with (guessing : bool) (s : store) : store → Prop :=
  | G_create r :
    s !! cr_name r = None → record_inv r → cr_status r = Draft →
    guar_with guessing s (<[cr_name r := with_etag r (version_etag 1)]> s)
  | G_replace current r r1 v :
    s !! cr_name r = Some current → record_inv r → (guessing = false → current = r) →
    transition r r1 → has_version current v → v + 1 < 2 ^ 64 →
    guar_with guessing s (<[cr_name r := with_etag r1 (version_etag (v + 1))]> s).

Section Callers.
Context {guessing : bool}.
Abbreviation guar := (guar_with guessing).

Lemma record_inv_etag r e : record_inv r → record_inv (with_etag r e).
Proof. by apply record_inv_ext. Qed.

Lemma guar_inv s s' : store_inv s → guar s s' → store_inv s'.
Proof.
  intros [Hn Hi] [r Hr Hinv _|cur r r1 v Hr Hrec _ Ht Hv Hlt].
  - split; intros n r'; rewrite lookup_insert; case_decide as Hk; [|apply Hn| |apply Hi].
    + intros [= <-]. by subst.
    + intros [= <-]. split; [by apply record_inv_etag|]. exists 1. by split.
  - destruct (transition_identity _ _ Ht) as [(Hname & _) _]. destruct Hv as [Hv ?].
    split; intros n r'; rewrite lookup_insert; case_decide as Hk; [|apply Hn| |apply Hi].
    + intros [= <-]. cbn. congruence.
    + intros [= <-]. split; [|exists (v + 1); split; [done|lia]].
      apply record_inv_etag. by eapply transition_inv.
Qed.

Lemma guar_rtc_inv s s' : store_inv s → rtc guar s s' → store_inv s'.
Proof. intros Hs H. induction H as [|a b c Hab _ IH]; [done|]. apply IH. by eapply guar_inv. Qed.

(** [s'] holds the record [r] read earlier, or a later version of it. *)
Definition seen (s : store) (r : ChangeRecord) (v : Z) : Prop :=
  has_version r v ∧
  ∃ r' v', s !! cr_name r = Some r' ∧ has_version r' v' ∧ v <= v' ∧ (v = v' → r' = r).

Lemma seen_read s r v : store_inv s → s !! cr_name r = Some r → has_version r v → seen s r v.
Proof. intros Hs Hr Hv. split; [done|]. exists r, v. split_and!; [done|done|lia|done]. Qed.

Lemma seen_step s s' r v : seen s r v → guar s s' → seen s' r v.
Proof.
  intros (Hv & r' & v' & Hr' & Hv' & Hle & Heq) [q Hq _ _|cur q q1 w Hq _ _ Ht Hw Hlt]; split; try done.
  - exists r', v'. rewrite lookup_insert_ne; [done|]. congruence.
  - destruct (decide (cr_name q = cr_name r)) as [Hk|Hk].
    + assert (cur = r') as -> by congruence. rewrite Hk in *.
      assert (w = v') as -> by (by eapply has_version_unique).
      eexists _, (v' + 1). rewrite lookup_insert_eq. split_and!; [done| |lia|lia].
      destruct Hv'. split; [done|lia].
    + exists r', v'. rewrite lookup_insert_ne by done. done.
Qed.

Lemma seen_rtc s s' r v : seen s r v → rtc guar s s' → seen s' r v.
Proof. intros Hs H. induction H as [|a b c Hab _ IH]; [done|]. apply IH. by eapply seen_step. Qed.

(** ** The collaborators of a ledger method *)

(** No version is about to overflow [u64]. *)
Definition store_fits (s : store) : Prop :=
  ∀ n r v, s !! n = Some r → has_version r v → v + 1 < 2 ^ 64.

(** An answer of a store that failed. *)
Definition store_failed (X : Type) (q : store_req X) : X → Prop :=
  match q in store_req X return X → Prop with
  | StoreCreate _ => λ x, ∃ m, x = Err (StoreBackend m)
  | StoreGet _ => λ x, ∃ m, x = Err (StoreBackend m)
  | StoreList _ _ => λ x, ∃ m, x = Err (StoreBackend m)
  | StoreReplace _ _ => λ x, ∃ m, x = Err (StoreBackend m)
  end.

(** The store answers atomically or fails, before or after it has done what it was
    asked; the clock and the id generator answer anything. *)
Definition serve (X : Type) (q : ledger_req X) (s : store) : X → store → Prop :=
  match q in ledger_req X return X → store → Prop with
  | OnStore q => λ x s',
    (store_fits s ∧ ∃ y, memory_serve _ q s = (y, s') ∧ (x = y ∨ store_failed _ q x)) ∨
    (store_failed _ q x ∧ s' = s)
  | NowUnixMillis => λ _ s', s' = s
  | GenerateChangeId => λ _ s', s' = s
  | GenerateApplyAttemptId => λ _ s', s' = s
  | GenerateApplyLeaseOwner => λ _ s', s' = s
  end.

Abbreviation safe_ledger := (safe serve guar).

(** ** Proof rules *)

Lemma safe_pure {A B} s (o : outcome ChangeLedgerError A) (f : A → ledger B) :
  (∀ a, o = Ok a → safe_ledger s (f a)) → safe_ledger s (pure_step o ≫= f).
Proof. intros Hf. unfold pure_step. destruct o; cbn; auto. Qed.

Lemma safe_answer {B E A} s q (inj : E → ChangeLedgerError) (f : A → ledger B) :
  (∀ s1 x s2, rtc guar s s1 → serve _ q s1 x s2 → rtc guar s1 s2 ∧
     ∀ a, x = Ok a → safe_ledger s2 (f a)) →
  safe_ledger s (try_call inj q ≫= f).
Proof.
  intros Hq s1 Hs1 x s2 Hx. destruct (Hq s1 x s2 Hs1 Hx) as [Hg Hf]. split; [done|].
  destruct x; cbn; auto.
Qed.

Lemma safe_now {B} s (f : Z → ledger B) :
  (∀ t s1, rtc guar s s1 → safe_ledger s1 (f t)) → safe_ledger s (now_unix_millis ≫= f).
Proof. intros Hf. apply safe_answer. intros s1 x s2 Hs1 Hx. cbn in Hx. subst s2. split; [done|auto]. Qed.

Lemma safe_generate {B} s q (f : string → ledger B) :
  (∀ s1 x s2, serve _ q s1 x s2 → s2 = s1) →
  (∀ t s1, rtc guar s s1 → safe_ledger s1 (f t)) → safe_ledger s (generate q ≫= f).
Proof. intros Hq Hf s1 Hs1 x s2 Hx. apply Hq in Hx as ->. cbn. split; [done|auto]. Qed.

Lemma safe_get {B} s name (f : ChangeRecord → ledger B) :
  store_inv s →
  (∀ s1 r v, rtc guar s s1 → store_inv s1 → cr_name r = name → seen s1 r v →
     s1 !! name = Some r → safe_ledger s1 (f r)) →
  safe_ledger s (get name ≫= f).
Proof.
  intros Hinv Hf. unfold get.
  assert (∀ o : outcome ChangeLedgerError unit, safe_ledger s
    ((pure_step o ≫= λ _, on_store (StoreGet name) ≫= λ found,
        pure_step (ok_or found (LedgerStore (StoreNotFound name)))) ≫= f)) as Hgen; [|apply Hgen].
  intros o. destruct o; cbn; try done. intros s1 Hs1 x s2 [(_ & y & Hx & [->|[m ->]])|[[m ->] ->]]; [|by injection Hx as <- <-|done].
  injection Hx as <- <-. split; [done|]. cbn. destruct (s1 !! name) as [r|] eqn:Hr; [|done]. cbn.
  pose proof (guar_rtc_inv _ _ Hinv Hs1) as Hinv1.
  destruct Hinv1 as [Hn Hi]. destruct (Hi _ _ Hr) as [_ [v Hv]].
  pose proof (Hn _ _ Hr) as Hname.
  apply (Hf s1 r v); [done|by split|done| |done]. apply seen_read; [by split|by rewrite Hname|done].
Qed.

Lemma stored_inv s n r : store_inv s → s !! n = Some r → record_inv r.
Proof. intros [_ Hi] Hr. by destruct (Hi _ _ Hr). Qed.

(** The etag the client passed is not newer than the version that was read. *)
Definition not_newer (e : string) (v : Z) : Prop :=
  ∀ w, 1 <= w < 2 ^ 64 → e = version_etag w → w <= v.

Lemma memory_replace_guar s e r r1 v x s' :
  store_inv s → store_fits s → record_inv r → seen s r v → (guessing = false → not_newer e v) → transition r r1 →
  memory_replace e r1 s = (x, s') → rtc guar s s'.
Proof.
  intros [Hn Hi] Hfit Hrec (Hv & cur & v' & Hcur & Hv' & Hle & Heq) Hnew Ht. unfold memory_replace.
  destruct (transition_identity _ _ Ht) as [(Hname & _) _]. rewrite Hname, Hcur.
  destruct (bool_decide (cr_etag cur = e)) eqn:He; cbn [negb]; [|by intros [= _ <-]].
  apply bool_decide_eq_true in He. assert (v' + 1 < 2 ^ 64) as Hlt by (by eapply Hfit).
  assert (guessing = false → cur = r) as Hsame.
  { intros Hg. apply Heq. assert (v' <= v); [|lia]. destruct Hv'. apply Hnew; [done..|congruence]. }
  destruct Hv' as [Hetag Hrange]. rewrite Hetag, etag_version_etag by lia. intros [= _ <-].
  rewrite wrap_u64_id by (unfold in_u64; lia). rewrite Hname.
  apply rtc_once. by eapply G_replace.
Qed.

Lemma safe_replace_call {B} s e r r1 v (k : outcome ChangeStoreError ChangeRecord → prog ledger_req B) :
  store_inv s → record_inv r → seen s r v → (guessing = false → not_newer e v) → transition r r1 →
  (∀ x s1, rtc guar s s1 → safe_ledger s1 (k x)) →
  safe_ledger s (Call (OnStore (StoreReplace e r1)) k).
Proof.
  intros Hinv Hrec Hseen Hnew Ht Hk s1 Hs1 x s2 [(Hfit & y & Hx & _)|[[m ->] ->]]; [|split; [done|by apply Hk]].
  assert (rtc guar s1 s2) as Hg.
  { eapply memory_replace_guar; [by eapply guar_rtc_inv|done|done|by eapply seen_rtc|done|done|exact Hx]. }
  split; [done|]. apply Hk. by trans s1.
Qed.

Lemma safe_replace s e r r1 v :
  store_inv s → record_inv r → seen s r v → (guessing = false → not_newer e v) → transition r r1 →
  safe_ledger s (on_store (StoreReplace e r1)).
Proof. intros. by eapply safe_replace_call. Qed.

(** ** Every method is safe *)

(** The store has issued the etag [e] for [name], or [e] is no etag at all. *)
Definition issued (s : store) (name e : string) : Prop :=
  ∀ w, 1 <= w < 2 ^ 64 → e = version_etag w →
       ∃ r v, s !! name = Some r ∧ has_version r v ∧ w <= v.

Lemma issued_read s s1 name e r v :
  store_inv s → issued s name e → rtc guar s s1 → s1 !! name = Some r → seen s1 r v →
  not_newer e v.
Proof.
  intros Hinv Hiss Hs1 Hr [Hv _] w Hw He. destruct (Hiss w Hw He) as (r0 & v0 & Hr0 & Hv0 & Hle).
  destruct Hinv as [Hn Hi].
  assert (seen s r0 v0) as Hseen.
  { apply seen_read; [by split|by rewrite (Hn _ _ Hr0)|done]. }
  destruct (seen_rtc _ _ _ _ Hseen Hs1) as (_ & r' & v' & Hr' & Hv' & Hle' & _).
  rewrite (Hn _ _ Hr0), Hr in Hr'. injection Hr' as <-.
  assert (v = v') as -> by (by eapply has_version_unique). lia.
Qed.

Lemma own_etag_not_newer r v : has_version r v → not_newer (cr_etag r) v.
Proof. intros [He ?] w Hw Hw'. assert (w = v); [|lia]. apply version_etag_inj; [lia..|congruence]. Qed.

Lemma require_status_ok r st op a : require_status r st op = Ok a → cr_status r = st.
Proof. intros H%fail_if_Ok. by apply negb_false_iff, bool_decide_eq_true in H. Qed.

(** A replacement with the client's etag of the record read before. *)
Ltac client_replace Hinv Hiss Hs1 Hr Hseen :=
  eapply safe_replace;
    [by eapply guar_rtc_inv
    |eapply stored_inv; [|exact Hr]; eapply guar_rtc_inv; [exact Hinv|exact Hs1]
    |eapply seen_rtc; [exact Hseen|done]
    |intros Hg; eapply issued_read; [exact Hinv|exact (Hiss Hg)|exact Hs1|exact Hr|exact Hseen]
    |].

Lemma update_safe s name e patch :
  store_inv s → (guessing = false → issued s name e) → safe_ledger s (update name e patch).
Proof.
  intros Hinv Hiss. unfold update. do 2 (apply safe_pure; intros _ _).
  apply safe_get; [done|]. intros s1 r v Hs1 Hinv1 Hname Hseen Hr.
  apply safe_pure. intros [] Hst%require_status_ok. apply safe_pure. intros r1 Hr1.
  apply safe_now. intros now s2 Hs2.
  client_replace Hinv Hiss Hs1 Hr Hseen.
  by eapply T_update.
Qed.

Lemma record_validation_safe s name e v :
  store_inv s → (guessing = false → issued s name e) → safe_ledger s (record_validation name e v).
Proof.
  intros Hinv Hiss. apply safe_get; [done|]. intros s1 r w Hs1 Hinv1 Hname Hseen Hr.
  apply safe_pure. intros [] Hst%require_status_ok. apply safe_now. intros now s2 Hs2.
  client_replace Hinv Hiss Hs1 Hr Hseen.
  by apply T_validate.
Qed.

Lemma mark_ready_safe s name e :
  store_inv s → (guessing = false → issued s name e) → safe_ledger s (mark_ready name e).
Proof.
  intros Hinv Hiss. apply safe_get; [done|]. intros s1 r w Hs1 Hinv1 Hname Hseen Hr.
  apply safe_pure. intros [] Hst%require_status_ok.
  apply safe_pure. intros [] He%fail_if_Ok. apply safe_pure. intros v Hv%ok_or_Ok.
  apply safe_pure. intros [] Hvalid%fail_if_Ok. apply safe_now. intros now s2 Hs2.
  client_replace Hinv Hiss Hs1 Hr Hseen.
  apply T_ready; [done|by destruct (cr_edits r)|]. exists v. by apply negb_false_iff in Hvalid.
Qed.

Lemma review_safe s name e reviewer decision reason :
  store_inv s → (guessing = false → issued s name e) → safe_ledger s (review name e reviewer decision reason).
Proof.
  intros Hinv Hiss. apply safe_get; [done|]. intros s1 r w Hs1 Hinv1 Hname Hseen Hr.
  apply safe_pure. intros [] Hst%require_status_ok. cbv zeta.
  apply safe_pure. intros [] Hau%fail_if_Ok. apply bool_decide_eq_false in Hau.
  apply safe_pure. intros [] Hnew%fail_if_Ok. apply safe_now. intros now s2 Hs2.
  assert (ca_identity (actor_of reviewer) ∉ reviewers r) as Hnot.
  { intros (rv & Hrv & Hin)%list_elem_of_fmap. rewrite <- not_true_iff_false in Hnew. apply Hnew.
    apply existsb_exists. exists rv. split; [by apply list_elem_of_In|].
    by apply bool_decide_eq_true_2. }
  client_replace Hinv Hiss Hs1 Hr Hseen.
  destruct decision; cbn [bool_decide].
  - by apply (T_approve r (mkChangeReview (actor_of reviewer) Approved reason now)).
  - by apply (T_reject r (mkChangeReview (actor_of reviewer) DecisionRejected reason now)).
Qed.

Lemma abandon_safe s name e :
  store_inv s → (guessing = false → issued s name e) → safe_ledger s (abandon name e).
Proof.
  intros Hinv Hiss. apply safe_get; [done|]. intros s1 r w Hs1 Hinv1 Hname Hseen Hr.
  apply safe_pure. intros [] Hst%fail_if_Ok. apply safe_now. intros now s2 Hs2.
  client_replace Hinv Hiss Hs1 Hr Hseen.
  apply T_abandon. apply negb_false_iff, orb_true_iff in Hst.
  by rewrite !bool_decide_eq_true in Hst.
Qed.

Lemma safe_replace_or_continue {A} s e r r1 v (done : ChangeRecord → A) (continue : ledger A) :
  store_inv s → record_inv r → seen s r v → (guessing = false → not_newer e v) → transition r r1 →
  (∀ s1, rtc guar s s1 → safe_ledger s1 continue) →
  safe_ledger s (replace_or_continue e r1 done continue).
Proof.
  intros Hinv Hrec Hseen Hnew Ht Hk. unfold replace_or_continue.
  eapply safe_replace_call; [done|done|exact Hseen|done|done|]. intros x s1 Hs1.
  destruct x as [r'|err| |]; try done. destruct (is_etag_mismatch err); [by apply Hk|done].
Qed.

Lemma checked_add_ok a b c : checked_add a b = Ok c → c = a + b.
Proof. unfold checked_add. case_match; [by intros [= <-]|done]. Qed.

Lemma acquire_loop_safe name e request actor lease rounds : ∀ s,
  0 < lease → store_inv s → safe_ledger s (acquire_loop rounds name e request actor lease).
Proof.
  intros s Hlease. revert s.
  induction rounds as [|rounds IH]; intros s Hinv; cbn [acquire_loop]; [done|].
  apply safe_get; [done|]. intros s1 r v Hs1 Hinv1 Hname Hseen Hr.
  assert (has_version r v) as Hv by apply Hseen.
  destruct (cr_status r) eqn:Hst; try done.
  - (* Ready *)
    unfold acquire_ready. apply safe_pure. intros [] He%fail_if_Ok.
    apply negb_false_iff, bool_decide_eq_true in He as <-.
    apply safe_pure. intros [] Hval%fail_if_Ok. apply safe_now. intros now s2 Hs2.
    apply safe_pure. intros expires ->%checked_add_ok.
    apply safe_generate; [done|]. intros attempt_id s3 Hs3.
    apply safe_generate; [done|]. intros owner s4 Hs4. cbv zeta.
    assert (rtc guar s1 s4) as Hs14 by (trans s2; [done|by trans s3]).
    eapply safe_replace_or_continue;
      [by eapply guar_rtc_inv|by eapply stored_inv|by eapply seen_rtc|intros _; by apply own_etag_not_newer| |].
    + apply T_acquire; [done| |cbn; lia]. destruct (cr_validation r) as [w|] eqn:Hw; [|done].
      exists w. by apply negb_false_iff in Hval.
    + intros s5 Hs5. apply IH. eapply guar_rtc_inv; [exact Hinv1|by trans s4].
  - (* Applying *)
    unfold acquire_applying. apply safe_now. intros now s2 Hs2.
    apply safe_pure. intros a Ha%ok_or_Ok. apply safe_pure. intros [] _.
    destruct (Z.ltb_spec now (at_lease_expires_at_unix_ms a)); [done|].
    apply safe_generate; [done|]. intros owner s3 Hs3.
    apply safe_pure. intros expires ->%checked_add_ok. cbv zeta.
    assert (rtc guar s1 s3) as Hs13 by (by trans s2).
    eapply safe_replace_or_continue;
      [by eapply guar_rtc_inv|by eapply stored_inv|by eapply seen_rtc|intros _; by apply own_etag_not_newer| |].
    + apply T_renew; [done|done|lia|lia].
    + intros s5 Hs5. apply IH. eapply guar_rtc_inv; [exact Hinv1|by trans s3].
  - (* Applied *)
    unfold acquire_applied. apply safe_pure. intros a _. by case_bool_decide.
Qed.

Lemma acquire_apply_safe s name e request actor lease :
  store_inv s → safe_ledger s (acquire_apply name e request actor lease).
Proof.
  intros Hinv. unfold acquire_apply. do 2 (apply safe_pure; intros _ _).
  apply safe_pure. intros [] Hl%fail_if_Ok. apply acquire_loop_safe; [lia|done].
Qed.

Lemma complete_loop_safe name request attempt_id result rounds : ∀ s,
  store_inv s → safe_ledger s (complete_loop rounds name request attempt_id result).
Proof.
  induction rounds as [|rounds IH]; intros s Hinv; cbn [complete_loop]; [done|].
  apply safe_get; [done|]. intros s1 r v Hs1 Hinv1 Hname Hseen Hr.
  assert (has_version r v) as Hv by apply Hseen.
  case_bool_decide; [by case_match|].
  apply safe_pure. intros [] Hst%require_status_ok. apply safe_pure. intros a Ha%ok_or_Ok.
  apply safe_pure. intros [] _. apply safe_pure. intros [] Hres%fail_if_Ok.
  apply safe_now. intros now s2 Hs2. cbv zeta.
  eapply safe_replace_or_continue;
    [by eapply guar_rtc_inv|by eapply stored_inv|by eapply seen_rtc|intros _; by apply own_etag_not_newer| |].
  - apply T_complete; [done|done|].
    apply orb_false_iff in Hres as [[H1 H2]%orb_false_iff H3].
    split_and!; intros E; by rewrite E in *.
  - intros s3 Hs3. apply IH. eapply guar_rtc_inv; [exact Hinv1|by trans s2].
Qed.

Lemma release_loop_safe name request attempt_id owner rounds : ∀ s,
  store_inv s → safe_ledger s (release_loop rounds name request attempt_id owner).
Proof.
  induction rounds as [|rounds IH]; intros s Hinv; cbn [release_loop]; [done|].
  apply safe_get; [done|]. intros s1 r v Hs1 Hinv1 Hname Hseen Hr.
  assert (has_version r v) as Hv by apply Hseen.
  apply safe_pure. intros [] Hst%require_status_ok. apply safe_pure. intros a Ha%ok_or_Ok.
  apply safe_pure. intros [] _. apply safe_now. intros now s2 Hs2. cbv zeta.
  eapply safe_replace_or_continue;
    [by eapply guar_rtc_inv|by eapply stored_inv|by eapply seen_rtc|intros _; by apply own_etag_not_newer| |].
  - by apply T_release.
  - intros s3 Hs3. apply IH. eapply guar_rtc_inv; [exact Hinv1|by trans s2].
Qed.

(** A record as [create] builds it. *)
Lemma created_inv input identity references change_id now :
  segment_valid (cc_project input) = true → segment_valid (cc_repo input) = true →
  change_id_valid change_id = true →
  record_inv (mkChangeRecord (resource_name (cc_project input) (cc_repo input) change_id)
       (cc_project input) (cc_repo input) (cc_target_bookmark input) (cc_base_revision input)
       (trim (cc_title input)) (cc_description input) references (cc_edits input)
       (actor_of identity) Draft None [] None None "" now now).
Proof.
  intros Hp Hr Hid. split; cbn [cr_name cr_project cr_repo cr_status cr_reviews cr_apply_attempt
    cr_apply_result cr_created_by past_draft in_apply].
  - by apply scope_resource_name.
  - done.
  - split; [by intros []|done].
  - split; [by intros []|done].
  - done.
  - done.
  - constructor.
  - by apply not_elem_of_nil.
  - split; [done|]. by intros ?%Exists_nil.
Qed.

Lemma safe_create_call s r :
  store_inv s → record_inv r → cr_status r = Draft → safe_ledger s (on_store (StoreCreate r)).
Proof.
  intros Hinv Hr Hd s1 Hs1 x s2 [(_ & y & Hx & _)|[[m ->] ->]]; [|done]. split; [|done].
  cbn [memory_serve] in Hx. unfold memory_create in Hx.
  destruct (s1 !! cr_name r) eqn:Hn; injection Hx as <- <-; [done|].
  apply rtc_once. by apply (G_create _ s1 r).
Qed.

Lemma create_safe s input identity : store_inv s → safe_ledger s (create input identity).
Proof.
  intros Hinv. unfold create.
  apply safe_pure. intros [] Hp%validate_segment_ok. apply safe_pure. intros [] Hr%validate_segment_ok.
  do 2 (apply safe_pure; intros _ _). apply safe_pure. intros references _.
  assert (∀ s1 change_id, rtc guar s s1 → safe_ledger s1 (pure_step (validate_change_id change_id) ≫= λ _,
    now_unix_millis ≫= λ now, on_store (StoreCreate
      (mkChangeRecord (resource_name (cc_project input) (cc_repo input) change_id)
       (cc_project input) (cc_repo input) (cc_target_bookmark input) (cc_base_revision input)
       (trim (cc_title input)) (cc_description input) references (cc_edits input)
       (actor_of identity) Draft None [] None None "" now now)))) as Hrest.
  { intros s1 change_id Hs1. apply safe_pure. intros [] Hid%fail_if_Ok. apply negb_false_iff in Hid.
    apply safe_now. intros now s2 Hs2. apply safe_create_call; [|by apply created_inv|done].
    eapply guar_rtc_inv; [exact Hinv|by trans s1]. }
  destruct (cc_change_id input) as [id|]; [by apply (Hrest s id)|].
  apply safe_generate; [done|]. intros id s1 Hs1. by apply Hrest.
Qed.

(** ** Calls *)

(** The methods of the ledger as one type of calls. *)
Inductive ledger_call :=
  | CallCreate (input : CreateChange) (identity : Identity)
  | CallGet (name : string)
  | CallGetAtEtag (name etag : string)
  | CallList (project repo : string)
  | CallUpdate (name etag : string) (patch : ChangeUpdate)
  | CallRecordValidation (name etag : string) (v : ValidationResult)
  | CallMarkReady (name etag : string)
  | CallAcquireApply (name etag request_id : string) (actor : Identity) (lease_duration_ms : Z)
  | CallCompleteApply (name request_id attempt_id : string) (result : ApplyResult)
  | CallReleaseApply (name request_id attempt_id lease_owner : string)
  | CallApprove (name etag : string) (reviewer : Identity) (reason : string)
  | CallReject (name etag : string) (reviewer : Identity) (reason : string)
  | CallAbandon (name etag : string).

Inductive ledger_value :=
  | VRecord (r : ChangeRecord)
  | VRecords (l : list ChangeRecord)
  | VAcquisition (a : ApplyAcquisition).

Definition as_value {A} (f : A → ledger_value) (m : ledger A) : ledger ledger_value :=
  prog_bind m (λ r, Ret (f <$> r)).

Definition run_call (c : ledger_call) : ledger ledger_value :=
  match c with
  | CallCreate input identity => as_value VRecord (create input identity)
  | CallGet name => as_value VRecord (get name)
  | CallGetAtEtag name etag => as_value VRecord (get_at_etag name etag)
  | CallList project repo => as_value VRecords (ledger_list project repo)
  | CallUpdate name etag patch => as_value VRecord (update name etag patch)
  | CallRecordValidation name etag v => as_value VRecord (record_validation name etag v)
  | CallMarkReady name etag => as_value VRecord (mark_ready name etag)
  | CallAcquireApply name etag request_id actor lease =>
    as_value VAcquisition (acquire_apply name etag request_id actor lease)
  | CallCompleteApply name request_id attempt_id result =>
    as_value VRecord (complete_apply name request_id attempt_id result)
  | CallReleaseApply name request_id attempt_id owner =>
    as_value VRecord (release_apply name request_id attempt_id owner)
  | CallApprove name etag reviewer reason => as_value VRecord (approve name etag reviewer reason)
  | CallReject name etag reviewer reason => as_value VRecord (reject name etag reviewer reason)
  | CallAbandon name etag => as_value VRecord (abandon name etag)
  end.

(** The etag a client passes is one that the store has issued. *)
Definition honest (s : store) (c : ledger_call) : Prop :=
  match c with
  | CallUpdate name etag _ | CallRecordValidation name etag _ | CallMarkReady name etag
  | CallApprove name etag _ _ | CallReject name etag _ _ | CallAbandon name etag =>
    issued s name etag
  | _ => True
  end.

Lemma as_value_safe {A} s (f : A → ledger_value) (m : ledger A) :
  safe_ledger s m → safe_ledger s (as_value f m).
Proof. intros Hm. by apply safe_bind. Qed.

Lemma get_safe s name : safe_ledger s (get name).
Proof.
  unfold get. apply safe_pure. intros _ _. apply safe_answer.
  intros s1 x s2 Hs1 [(_ & y & Hx & _)|[_ ->]]; [injection Hx as _ <-|]; done.
Qed.

Lemma run_call_safe s c : store_inv s → (guessing = false → honest s c) → safe_ledger s (run_call c).
Proof.
  intros Hinv Hc. destruct c; cbn [run_call]; apply as_value_safe; cbn [honest] in Hc.
  - by apply create_safe.
  - apply get_safe.
  - apply safe_pure. intros _ _. apply safe_get; [done|]. intros.
    apply safe_pure. done.
  - do 2 (apply safe_pure; intros _ _). intros s1 Hs1 x s2 [(_ & y & Hx & _)|[[m ->] ->]]; [|done].
    by injection Hx as <- <-.
  - by apply update_safe.
  - by apply record_validation_safe.
  - by apply mark_ready_safe.
  - by apply acquire_apply_safe.
  - by apply complete_loop_safe.
  - by apply release_loop_safe.
  - by apply review_safe.
  - apply safe_pure. intros _ _. by apply review_safe.
  - by apply abandon_safe.
Qed.

(** ** Any number of callers *)

End Callers.

(** A caller can start any call at any time; without [guessing] it passes etags
    that the store has issued. *)
Definition may_call (guessing : bool) (s : store) (m : ledger ledger_value) : Prop :=
  ∃ c, (guessing = false → honest s c) ∧ m = run_call c.

(** The stores that interleaved callers can reach. *)
Definition ledger_step (guessing : bool) : relation (store * list (ledger ledger_value)) :=
  pool_step serve (may_call guessing).

Definition reachable (guessing : bool) (s : store) : Prop := ∃ ts, rtc (ledger_step guessing) (∅, []) (s, ts).

Abbreviation guar := (guar_with false).

Lemma store_inv_empty : store_inv ∅.
Proof. split; intros n r; by rewrite lookup_empty. Qed.

Lemma ledger_pool_safe guessing c c' :
  rtc (ledger_step guessing) c c' → store_inv c.1 → Forall (safe serve (guar_with guessing) c.1) c.2 →
  rtc (guar_with guessing) c.1 c'.1 ∧ Forall (safe serve (guar_with guessing) c'.1) c'.2.
Proof.
  apply (pool_safe serve (guar_with guessing) (may_call guessing) store_inv).
  - apply guar_inv.
  - intros s m Hs (call & Hcall & ->). by apply run_call_safe.
Qed.

(** C1. However many callers are interleaved, and however the clock, the id
    generator and the store behave (a request to the store may fail before or after
    it was carried out; version counters stay below 2^64 - 1), the shared store
    only ever changes by adding a fresh draft or by replacing a record with the
    result of a lifecycle transition and the next version. If no client passes an
    etag that the store has not issued yet, the transition starts from the very
    record that is replaced: there are no lost updates and no transitions outside
    the lifecycle. If clients guess etags it starts from some valid record of that
    name, which need not be the one that is replaced. *)
Theorem ledger_lifecycle (guessing : bool) (s s' : store) (ts ts' : list (ledger ledger_value)) :
  rtc (ledger_step guessing) (∅, []) (s, ts) → rtc (ledger_step guessing) (s, ts) (s', ts') →
  rtc (guar_with guessing) s s'.
Proof.
  intros H1 H2. destruct (ledger_pool_safe _ _ _ H1) as [Hg Hall]; [apply store_inv_empty|done|].
  by destruct (ledger_pool_safe _ _ _ H2 (guar_rtc_inv _ _ store_inv_empty Hg) Hall).
Qed.

Lemma reachable_inv guessing s : reachable guessing s → store_inv s.
Proof.
  intros [ts H]. destruct (ledger_pool_safe _ _ _ H) as [Hg _]; [apply store_inv_empty|done|].
  eapply guar_rtc_inv; [apply store_inv_empty|done].
Qed.

(** C2. Every record of every store that interleaved callers reach, whatever etags
    they pass and whichever requests fail, satisfies the record invariant:
    its name parses to its own project and repository; a record that is ready,
    being applied, applied or rejected has edits and a passing validation; an
    apply attempt is present exactly while applying or applied, and an apply
    result with commit, change and operation ids exactly when applied; reviewers
    are distinct and never the author; and the record is rejected exactly when
    some review rejects it. *)
Theorem ledger_record_invariant (guessing : bool) (s : store) (n : string) (r : ChangeRecord) :
  reachable guessing s → s !! n = Some r → cr_name r = n ∧ record_inv r.
Proof. intros [Hn Hi]%reachable_inv Hr. split; [by apply Hn|]. by apply (Hi n). Qed.

Lemma guar_terminal s s' n r :
  names_agree s → guar s s' → s !! n = Some r → is_terminal (cr_status r) = true → s' !! n = Some r.
Proof.
  intros Hn [q Hq _ _|cur q q1 w Hq _ Hsame Ht Hw Hlt] Hr Hterm.
  - rewrite lookup_insert_ne; [done|]. congruence.
  - rewrite lookup_insert_ne; [done|]. intros Hk.
    rewrite (Hsame eq_refl) in Hq. assert (q = r) as -> by congruence. apply transition_not_terminal in Ht. congruence.
Qed.

Lemma guar_rtc_terminal s s' n r :
  store_inv s → rtc guar s s' → s !! n = Some r → is_terminal (cr_status r) = true →
  s' !! n = Some r.
Proof.
  intros Hinv H. revert Hinv. induction H as [|a b c Hab _ IH]; [done|]. intros Hinv Hr Hterm.
  apply IH; [by eapply guar_inv| |done]. eapply guar_terminal; [apply Hinv|done..].
Qed.

(** Terminal records are immutable: once a record is applied, rejected or
    abandoned, no continuation of any interleaving changes any field of it, its
    etag included. *)
Theorem terminal_records_immutable (s s' : store) (ts ts' : list (ledger ledger_value))
    (n : string) (r : ChangeRecord) :
  rtc (ledger_step false) (∅, []) (s, ts) → rtc (ledger_step false) (s, ts) (s', ts') →
  s !! n = Some r → is_terminal (cr_status r) = true → s' !! n = Some r.
Proof.
  intros H1 H2. destruct (ledger_pool_safe _ _ _ H1) as [Hg Hall]; [apply store_inv_empty|done|].
  pose proof (guar_rtc_inv _ _ store_inv_empty Hg) as Hinv.
  destruct (ledger_pool_safe _ _ _ H2 Hinv Hall) as [Hg' _]. by apply guar_rtc_terminal.
Qed.

(** Etags are versions: while a record exists its version never decreases,
    and two stores of the same run that show the same etag for a name show the
    same record. *)
Theorem etags_identify_versions (s s' : store) (ts ts' : list (ledger ledger_value))
    (n : string) (r r' : ChangeRecord) :
  rtc (ledger_step false) (∅, []) (s, ts) → rtc (ledger_step false) (s, ts) (s', ts') →
  s !! n = Some r → s' !! n = Some r' →
  ∃ v v', has_version r v ∧ has_version r' v' ∧ v <= v' ∧ (cr_etag r = cr_etag r' → r = r').
Proof.
  intros H1 H2 Hr Hr'. destruct (ledger_pool_safe _ _ _ H1) as [Hg Hall]; [apply store_inv_empty|done|].
  pose proof (guar_rtc_inv _ _ store_inv_empty Hg) as Hinv.
  destruct (ledger_pool_safe _ _ _ H2 Hinv Hall) as [Hg' _].
  cbn [fst] in Hg, Hg', Hinv. pose proof Hinv as [Hn Hi]. destruct (Hi _ _ Hr) as [_ [v Hv]].
  assert (seen s r v) as Hseen by (apply seen_read; [done|by rewrite (Hn _ _ Hr)|done]).
  destruct (seen_rtc _ _ _ _ Hseen Hg') as (_ & q & w & Hq & Hw & Hle & Heq).
  assert (q = r') as -> by (rewrite (Hn _ _ Hr) in Hq; congruence).
  exists v, w. split_and!; [done..|]. intros Het. symmetry. apply Heq.
  destruct Hv as [Hv ?], Hw as [Hw ?]. apply version_etag_inj; [lia..|congruence].
Qed.

End Lifecycle.

Abbreviation guar := (guar_with false).

(** ** Executing a schedule

    A deterministic clock and id generator, and a scheduler that runs one
    request of the thread it is told to. *)

Section Schedule.
Context {RF : RustFmt}.

Definition seq_serve (now : Z) (id : string) (X : Type) (q : ledger_req X) (s : store) : X * store :=
  match q in ledger_req X return X * store with
  | OnStore q => memory_serve _ q s
  | NowUnixMillis => (Ok now, s)
  | GenerateChangeId => (id, s)
  | GenerateApplyAttemptId => (id, s)
  | GenerateApplyLeaseOwner => (id, s)
  end.

Definition fits (s : store) : bool :=
  forallb (λ '(_, r), match etag_version (cr_etag r) with
                      | Some v => v + 1 <? 2 ^ 64
                      | None => false
                      end) (map_to_list s).

Lemma fits_sound s : fits s = true → store_fits s.
Proof.
  unfold fits. rewrite forallb_forall. intros H n r v Hr [He Hv].
  specialize (H (n, r)). cbv beta match in H. rewrite He, etag_version_etag in H by lia.
  apply Z.ltb_lt, H, list_elem_of_In, elem_of_map_to_list. done.
Qed.

Abbreviation config := (store * list (ledger ledger_value))%type.

Definition run_one_request (now : Z) (i : nat) (c : config) : option config :=
  match c.2 !! i with
  | Some (Call q k) =>
    if fits c.1 then
      let '(x, s') := seq_serve now "id" _ q c.1 in Some (s', <[i := k x]> c.2)
    else None
  | _ => None
  end.

Fixpoint run_schedule (now : Z) (sched : list nat) (c : config) : option config :=
  match sched with
  | [] => Some c
  | i :: sched => run_one_request now i c ≫= run_schedule now sched
  end.

Lemma seq_serve_serve now id X (q : ledger_req X) s :
  fits s = true → let '(x, s') := seq_serve now id X q s in serve X q s x s'.
Proof.
  intros Hf%fits_sound. destruct q; cbn; try done.
  destruct (memory_serve X q s) as [x s'] eqn:E. left. split; [done|]. exists x. by split; [|left].
Qed.

Lemma run_schedule_sound may now sched : ∀ c c',
  run_schedule now sched c = Some c' → rtc (pool_step serve may) c c'.
Proof.
  induction sched as [|i sched IH]; intros [s ts] c'; cbn [run_schedule]; [by intros [= <-]|].
  unfold run_one_request. cbn [fst snd].
  destruct (ts !! i) as [[a|X q k]|] eqn:Hi; cbn [mbind option_bind]; try done.
  destruct (fits s) eqn:Hf; [|done].
  pose proof (seq_serve_serve now "id" X q s Hf) as Hserve.
  destruct (seq_serve now "id" X q s) as [x s'] eqn:E. cbn [mbind option_bind]. intros H.
  eapply rtc_l; [|by apply IH]. eapply pool_run; [done|]. by constructor.
Qed.

(** Start a call and run it for [n] requests, as thread number [i]. *)
Definition call_alone (now : Z) (i n : nat) (call : ledger_call) (c : config) : option config :=
  run_schedule now (repeat i n) (c.1, c.2 ++ [run_call call]).

Lemma call_alone_sound now i n call c c' :
  honest c.1 call → call_alone now i n call c = Some c' → rtc (ledger_step false) c c'.
Proof.
  intros Hh Hc. destruct c as [s ts]. eapply rtc_l.
  - apply pool_spawn. by exists call.
  - by eapply run_schedule_sound.
Qed.

End Schedule.

(** ** A run, for the witnesses *)

Definition a_input : CreateChange :=
  mkCreateChange "p" "r" (Some "c"%string) "main" None "title" "" []
    [DeleteSchema (mkSchemaPath "p" "r" "s.proto") "protobuf"].

Definition a_name : string := "projects/p/repos/r/changes/c".

Definition alice : Identity := User "alice" None.
Definition bob : Identity := User "bob" None.

Definition config0 : store * list (ledger ledger_value) := (∅, []).
Definition config1 := default config0 (call_alone 10 0 2 (CallCreate a_input alice) config0).
Definition config2 := default config1 (call_alone 20 1 3 (CallAbandon a_name "v1") config1).
Definition config3 := default config2 (call_alone 30 2 1 (CallMarkReady a_name "v2") config2).

Definition status_at (c : store * list (ledger ledger_value)) : option (ChangeRecordStatus * string) :=
  (λ r, (cr_status r, cr_etag r)) <$> c.1 !! a_name.

Example run_statuses :
  (status_at config1, status_at config2, status_at config3) =
  (Some (Draft, "v1"), Some (Abandoned, "v2"), Some (Abandoned, "v2"))%string.
Proof. vm_compute. reflexivity. Qed.

(** A call that runs to its end leaves a configuration; [default] above is not
    used. *)
Lemma default_is_Some {A} (o : option A) (d : A) : is_some o = true → o = Some (default d o).
Proof. by destruct o. Qed.

Lemma issued_by s r v :
  s !! a_name = Some r → cr_etag r = version_etag v → 1 <= v < 2 ^ 64 → issued s a_name (version_etag v).
Proof.
  intros Hr He Hv w Hw Hw'. exists r, v. split_and!; [done|by split|].
  apply version_etag_inj in Hw'; lia.
Qed.

Definition record_at (c : store * list (ledger ledger_value)) : ChangeRecord :=
  default sample_record (c.1 !! a_name).

Lemma record_at_1 : config1.1 !! a_name = Some (record_at config1).
Proof. apply default_is_Some. vm_compute. reflexivity. Qed.

Lemma record_at_2 : config2.1 !! a_name = Some (record_at config2).
Proof. apply default_is_Some. vm_compute. reflexivity. Qed.

Lemma config1_reached : rtc (ledger_step false) config0 config1.
Proof.
  eapply (call_alone_sound 10 0 2 (CallCreate a_input alice)); [done|].
  apply default_is_Some. vm_compute. reflexivity.
Qed.

Lemma config2_reached : rtc (ledger_step false) config1 config2.
Proof.
  eapply (call_alone_sound 20 1 3 (CallAbandon a_name "v1")).
  - apply (issued_by _ (record_at config1) 1); [apply record_at_1|vm_compute; reflexivity|lia].
  - apply default_is_Some. vm_compute. reflexivity.
Qed.

Lemma config3_reached : rtc (ledger_step false) config2 config3.
Proof.
  eapply (call_alone_sound 30 2 1 (CallMarkReady a_name "v2")).
  - apply (issued_by _ (record_at config2) 2); [apply record_at_2|vm_compute; reflexivity|lia].
  - apply default_is_Some. vm_compute. reflexivity.
Qed.

Lemma config_pair (c : store * list (ledger ledger_value)) : c = (c.1, c.2).
Proof. by destruct c. Qed.

Lemma ledger_lifecycle_witness : rtc guar config1.1 config2.1.
Proof.
  apply (ledger_lifecycle false config1.1 config2.1 config1.2 config2.2).
  - rewrite <- (config_pair config1). apply config1_reached.
  - rewrite <- !config_pair. apply config2_reached.
Defined.

Lemma config2_reachable : reachable false config2.1.
Proof.
  exists config2.2. rewrite <- config_pair. trans config1; [apply config1_reached|apply config2_reached].
Qed.

Lemma ledger_record_invariant_witness :
  cr_name (record_at config2) = a_name ∧ record_inv (record_at config2).
Proof.
  apply (ledger_record_invariant false config2.1).
  - apply config2_reachable.
  - apply record_at_2.
Defined.

Lemma terminal_records_immutable_witness : config3.1 !! a_name = Some (record_at config2).
Proof.
  apply (terminal_records_immutable config2.1 config3.1 config2.2 config3.2).
  - rewrite <- config_pair. trans config1; [apply config1_reached|apply config2_reached].
  - rewrite <- !config_pair. apply config3_reached.
  - apply record_at_2.
  - vm_compute. reflexivity.
Defined.

Lemma etags_identify_versions_witness :
  ∃ v v', has_version (record_at config1) v ∧ has_version (record_at config2) v' ∧ v <= v' ∧
    (cr_etag (record_at config1) = cr_etag (record_at config2) → record_at config1 = record_at config2).
Proof.
  apply (etags_identify_versions config1.1 config2.1 config1.2 config2.2 a_name).
  - rewrite <- config_pair. apply config1_reached.
  - rewrite <- !config_pair. apply config2_reached.
  - apply record_at_1.
  - apply record_at_2.
Defined.

(** ** A predicted etag *)

(** A ready record at version 3, a client that abandons it with the etag [v4]
    the store has not issued yet, and a client that applies it with [v3]. *)
Definition ready_record : ChangeRecord :=
  mkChangeRecord a_name "p" "r" "main" None "t" "" []
    [DeleteSchema (mkSchemaPath "p" "r" "s.proto") "protobuf"] (actor_of alice) Ready
    (Some (mkValidationResult true "c0" "d" [] 5 "1")) [] None None "v3" 1 5.

Definition race0 : store * list (ledger ledger_value) :=
  ({[ a_name := ready_record ]},
   [run_call (CallAbandon a_name "v4"); run_call (CallAcquireApply a_name "v3" "req" bob 1000)]).

(** The first client reads; the second acquires the lease; the first writes. *)
Definition race1 := default race0 (run_schedule 100 [0; 0; 1; 1; 1; 1; 1]%nat race0).
Definition race2 := default race1 (run_schedule 100 [0]%nat race1).

(** The lifecycle does not survive an etag from the future: [abandon] checks the
    status of the record it reads and compares the client's etag only when it
    writes, so a caller that guesses the next etag ([v4] after [v3]) overwrites a
    record that another caller has meanwhile moved to [Applying], dropping that
    caller's lease. *)
Theorem predicted_etag_overwrites_lease :
  (∃ may, rtc (pool_step serve may) race0 race1 ∧ rtc (pool_step serve may) race1 race2) ∧
  status_at race0 = Some (Ready, "v3"%string) ∧
  status_at race1 = Some (Applying, "v4"%string) ∧
  status_at race2 = Some (Abandoned, "v5"%string) ∧
  is_some (cr_apply_attempt (record_at race1)) = true ∧
  is_none (cr_apply_attempt (record_at race2)) = true.
Proof.
  split; [exists (may_call true); split|].
  - eapply (run_schedule_sound _ 100 [0; 0; 1; 1; 1; 1; 1]%nat). apply default_is_Some.
    vm_compute. reflexivity.
  - eapply (run_schedule_sound _ 100 [0]%nat). apply default_is_Some. vm_compute. reflexivity.
  - vm_compute. done.
Qed.

(** * An interrupted apply can be finished

    A record that its applier left behind, because the process died or lost the
    store, is not stuck: once the lease has run out, the same request takes it
    over and completes it. *)

Section Liveness.
Context {RF : RustFmt} (now : Z) (id : string).

Abbreviation run := (interp (seq_serve now id)).

Lemma run_pure {A B} (o : outcome ChangeLedgerError A) (f : A → ledger B) a s :
  o = Ok a → run (pure_step o ≫= f) s = run (f a) s.
Proof. by intros ->. Qed.

Lemma run_now {B} (f : Z → ledger B) s : run (now_unix_millis ≫= f) s = run (f now) s.
Proof. done. Qed.

Lemma run_get {B} (f : ChangeRecord → ledger B) s n r :
  store_inv s → s !! n = Some r → run (get n ≫= f) s = run (f r) s.
Proof.
  intros [Hn Hi] Hr. unfold get. pose proof (ri_scope _ (proj1 (Hi _ _ Hr))) as Hs.
  rewrite (Hn _ _ Hr) in Hs. unfold scope in Hs. apply bind_Ok in Hs as (parts & Hp & _).
  unfold validate_resource_name. rewrite Hp. cbn. by rewrite Hr.
Qed.

(** A compare-and-set with the current etag succeeds. *)
Lemma run_replace {A} (finish : ChangeRecord → A) continue s r r1 v :
  s !! cr_name r = Some r → cr_name r1 = cr_name r → has_version r v → v + 1 < 2 ^ 64 →
  let r' := with_etag r1 (version_etag (v + 1)) in
  run (replace_or_continue (cr_etag r) r1 finish continue) s = (Ok (finish r'), <[cr_name r := r']> s).
Proof.
  intros Hr Hname [He Hv] Hlt. cbv zeta. unfold replace_or_continue. cbn [interp seq_serve memory_serve].
  unfold memory_replace. rewrite Hname, Hr, bool_decide_eq_true_2 by done. cbn [negb].
  rewrite He, etag_version_etag by lia. rewrite wrap_u64_id by (unfold in_u64; lia). cbn. by rewrite Hname.
Qed.

(** Taking over. *)
Lemma run_take_over s n r a v etag actor lease :
  store_inv s → s !! n = Some r → has_version r v → v + 1 < 2 ^ 64 →
  cr_status r = Applying → cr_apply_attempt r = Some a →
  at_lease_expires_at_unix_ms a <= now → 0 < lease → - 2 ^ 63 <= now → now + lease < 2 ^ 63 → etag ≠ ""%string →
  validate_request_id (at_request_id a) = Ok tt →
  let r' := with_etag (with_update_time (with_apply_attempt r (Some (at_with_lease a id (now + lease) now))) now)
              (version_etag (v + 1)) in
  run (acquire_apply n etag (at_request_id a) actor lease) s = (Ok (Acquired r'), <[n := r']> s).
Proof.
  intros Hinv Hr Hv Hlt Hst Ha Hexp Hlease Hlo Hhi Hetag Hreq. cbv zeta. unfold acquire_apply.
  rewrite (run_pure _ _ tt) by done.
  rewrite (run_pure _ _ tt) by (by destruct etag).
  rewrite (run_pure _ _ tt) by (unfold fail_if; by destruct (Z.leb_spec lease 0); [lia|]).
  cbn [acquire_loop]. rewrite (run_get _ _ _ r) by done. rewrite Hst. unfold acquire_applying.
  rewrite run_now, (run_pure _ _ a) by (by rewrite Ha).
  rewrite (run_pure _ _ tt) by (by rewrite bool_decide_eq_true_2).
  destruct (Z.ltb_spec now (at_lease_expires_at_unix_ms a)) as [|_]; [lia|].
  change (run (generate GenerateApplyLeaseOwner ≫= ?f) s) with (run (f id) s). cbv beta.
  rewrite (run_pure _ _ (now + lease)).
  2:{ unfold checked_add. rewrite (proj2 (Z.leb_le _ _)), (proj2 (Z.ltb_lt _ _)); [done|lia|lia]. }
  cbv zeta. pose proof (proj1 Hinv _ _ Hr) as Hname. subst n. by apply run_replace.
Qed.

(** Completing. *)
Lemma run_complete s n r a v res :
  store_inv s → s !! n = Some r → has_version r v → v + 1 < 2 ^ 64 →
  cr_status r = Applying → cr_apply_attempt r = Some a → result_ok res →
  let r' := with_etag (with_update_time (with_apply_result
              (with_status (with_apply_attempt r (Some (at_with_update_time a now))) Applied) (Some res)) now)
              (version_etag (v + 1)) in
  run (complete_apply n (at_request_id a) (at_attempt_id a) res) s = (Ok r', <[n := r']> s).
Proof.
  intros Hinv Hr Hv Hlt Hst Ha (H1 & H2 & H3). cbv zeta. unfold complete_apply. cbn [complete_loop].
  rewrite (run_get _ _ _ r) by done. rewrite Hst. cbn [bool_decide decide_rel decide].
  rewrite bool_decide_eq_false_2 by done.
  rewrite (run_pure _ _ tt) by (unfold require_status; by rewrite Hst).
  rewrite (run_pure _ _ a) by (by rewrite Ha).
  rewrite (run_pure _ _ tt) by (by rewrite !bool_decide_eq_true_2).
  rewrite (run_pure _ _ tt) by (by destruct (res_commit_id res), (res_change_id res), (res_operation_id res)).
  rewrite run_now. cbv zeta. pose proof (proj1 Hinv _ _ Hr) as Hname. subst n. refine (run_replace Datatypes.id _ s r _ v Hr _ Hv Hlt). done.
Qed.

(** C39. An interrupted apply can be finished: when the lease of a record that is
    being applied has run out and store and clock answer, the same request
    acquires the record again under the attempt it had, whatever etag the client
    passes, and completing that attempt leaves the record applied with the
    result. *)
Theorem interrupted_apply_resumes (s : store) (n : string) (r : ChangeRecord) (a : ApplyAttempt) (v : Z)
    (etag : string) (actor : Identity) (lease : Z) (res : ApplyResult) :
  store_inv s → s !! n = Some r → has_version r v → v + 2 < 2 ^ 64 →
  cr_status r = Applying → cr_apply_attempt r = Some a →
  at_lease_expires_at_unix_ms a <= now → 0 < lease → - 2 ^ 63 <= now → now + lease < 2 ^ 63 → etag ≠ ""%string →
  validate_request_id (at_request_id a) = Ok tt → result_ok res →
  ∃ r1 s1 r2 s2,
    run (acquire_apply n etag (at_request_id a) actor lease) s = (Ok (Acquired r1), s1) ∧
    (at_attempt_id <$> cr_apply_attempt r1) = Some (at_attempt_id a) ∧
    run (complete_apply n (at_request_id a) (at_attempt_id a) res) s1 = (Ok r2, s2) ∧
    s2 !! n = Some r2 ∧ cr_status r2 = Applied ∧ cr_apply_result r2 = Some res ∧ cr_edits r2 = cr_edits r.
Proof.
  intros Hinv Hr Hv Hlt Hst Ha Hexp Hlease Hlo Hhi Hetag Hreq Hres.
  pose proof (run_take_over s n r a v etag actor lease Hinv Hr Hv ltac:(lia) Hst Ha Hexp Hlease Hlo Hhi Hetag Hreq)
    as Hrun. cbv zeta in Hrun. eexists _, _. rewrite Hrun.
  set (r1 := with_etag _ _) in *. set (a1 := at_with_lease a id (now + lease) now) in *.
  assert (store_inv (<[n := r1]> s)) as Hinv1.
  { eapply guar_inv; [exact Hinv|]. pose proof (proj1 Hinv _ _ Hr) as Hname. rewrite <- Hname in Hr |- *.
    apply (G_replace false _ r r _ v); [done|by eapply stored_inv|done| |done|lia]. apply T_renew; [done|done|lia|lia]. }
  assert (has_version r1 (v + 1)) as Hv1 by (split; [done|destruct Hv; lia]).
  pose proof (run_complete (<[n := r1]> s) n r1 a1 (v + 1) res Hinv1 (lookup_insert_eq _ _ _) Hv1 ltac:(lia)
    Hst eq_refl Hres) as Hcomp. cbv zeta in Hcomp.
  eexists _, _. split; [done|]. split; [done|]. split; [exact Hcomp|]. split; [apply lookup_insert_eq|done].
Qed.

End Liveness.
