(* ===== verification/Flow.v ===== *)
(** * Flow: the idempotent write

    The requests of the write flows of the core and the part of
    [crates/schemahub-core/src/mutation/idempotency.rs] that wraps one jj
    publication in a durable receipt: replay, begin, publish, complete. The jj
    layer is a service; a publication takes the policy that has to accept the
    final tree as an argument, as the code does. *)
From S2P Require Import Prelude RustStd SchemaTypes ChangeModel Prog ObjectDb AccessStore Repository Idempotency CoreTypes Integrity Access ChangeStore ChangeLedger.
From Stdlib Require Import Strings.Byte Ascii.

Open Scope Z_scope.

(** ** Requests *)

(** The policy of a publication: it sees the final tree, and whether the
    deadline of the request has passed when it runs. *)
Definition publication_policy : Type := PublicationSnapshot → bool → outcome CoreError unit.

Inductive jj_req : Type → Type :=
  | JjResolveRefOrRoot (project repo : string) (at_ref : RefSpec) : jj_req (outcome JjError string)
  | JjValidateRevision (project repo commit : string) : jj_req (outcome JjError unit)
  | JjLoadSchema (project repo schema : string) (at_ref : RefSpec) : jj_req (outcome JjError SchemaObjects)
  | JjListSchemas (project repo : string) (at_ref : RefSpec) : jj_req (outcome JjError (list string))
  | JjListConflictedDeclarations (project repo : string) (at_ref : RefSpec) :
    jj_req (outcome JjError (list string))
  | JjFindCorrelatedWrite (project repo bookmark : string) (required : gmap string string) :
    jj_req (outcome JjError (option WriteResult))
  | JjCommitSchemaChanges (project repo bookmark : string) (base_ref : RefSpec)
      (writes : list SchemaWrite) (author message : string) (attributes : gmap string string)
      (validate : publication_policy) : jj_req (outcome (PublicationError CoreError) WriteResult)
  | JjMerge (project repo src dst author message : string) (attributes : gmap string string)
      (validate : publication_policy) : jj_req (outcome (PublicationError CoreError) WriteResult)
  | JjCreateBookmark (project repo name : string) (from : RefSpec) (author : string)
      (validate : publication_policy) : jj_req (outcome (PublicationError CoreError) string)
  | JjMoveBookmark (project repo name : string) (to : RefSpec) (author : string)
      (validate : publication_policy) : jj_req (outcome (PublicationError CoreError) string)
  | JjDeleteBookmark (project repo name author : string) : jj_req (outcome JjError unit)
  | JjCreateTag (project repo name : string) (at_ref : RefSpec) (author : string) :
    jj_req (outcome JjError string)
  | JjDeleteTag (project repo name author : string) : jj_req (outcome JjError unit)
  | JjGc (repos : list (string * string)) : jj_req (outcome JjError nat).

Inductive flow_req : Type → Type :=
  | OnCore {X : Type} (q : core_req X) : flow_req X
  | OnIdem {X : Type} (q : idem_req X) : flow_req X
  | OnLedger {X : Type} (q : ledger_req X) : flow_req X
  | OnJj {X : Type} (q : jj_req X) : flow_req X
  | DeadlineExceeded : flow_req bool.

Abbreviation flow := (action flow_req CoreError).

(** A program of one part of the core, run by a flow. *)
Fixpoint prog_lift {R R' : Type → Type} (f : ∀ X, R X → R' X) {A} (m : prog R A) : prog R' A :=
  match m with
  | Ret a => Ret a
  | Call q k => Call (f _ q) (λ x, prog_lift f (k x))
  end.

Definition in_core {A} (m : core A) : flow A := prog_lift (@OnCore) m.
Definition in_idem {A} (m : idem A) : flow A :=
  prog_bind (prog_lift (@OnIdem) m) (λ r, Ret (map_err CoreIdempotency r)).
Definition in_ledger {A} (m : ledger A) : flow A :=
  prog_bind (prog_lift (@OnLedger) m) (λ r, Ret (map_err CoreChangeLedger r)).
Definition on_jj {A} (q : jj_req (outcome JjError A)) : flow A := try_call CoreJj (OnJj q).
Definition flow_step {A} (r : outcome CoreError A) : flow A := pure_step r.

(** ** Configuration of the core *)

(** The fields of [Core] that the write flows read. *)
Record Core := mkCoreConfig {
  c_registry : CompilerRegistry;
  c_repo_configs : RepoConfigStore;
  c_idempotency : IdempotencyStore;
}.

(** ** Idempotent writes *)

Inductive IdempotentWrite :=
  | Replay (response : MutationResponse)
  | Proceed (attempt : option IdempotencyAttempt).

Definition response_from_write (w : WriteResult) : MutationResponse :=
  mkMutationResponse (wr_commit_id w) (wr_change_id w) (wr_conflicted_decls w).

Definition force_audit_attributes (force : bool) : gmap string string :=
  if force then {[ "schemahub.force"%string := "true"%string ]} else ∅.

(** [deadline.is_some_and(is_exceeded)]: the clock is read only if there is a
    deadline. *)
Definition deadline_exceeded (deadline : bool) : flow bool :=
  if deadline then Call DeadlineExceeded (λ b, Ret (Ok b)) else mret false.

Section Flow.
Context {AN : AuthnProvider} {AZ : AuthzPolicy} {J : IdempotencyJson} {SH : Sha256} {HX : Hex} {RF : RustFmt}.
Context (co : Core).

Definition find_correlated (project repo bookmark : string) (attempt : IdempotencyAttempt) :
    flow (option WriteResult) :=
  on_jj (JjFindCorrelatedWrite project repo bookmark (attempt_attributes attempt)).

Definition replay_idempotent_write (scope : string) (client_key : option string)
    (fingerprint project repo bookmark : string) : flow (option MutationResponse) :=
  match client_key with
  | None => mret None
  | Some client_key =>
    observed ← in_idem (observe (c_idempotency co) scope client_key fingerprint);
    match observed with
    | ObsDisabled | ObsMissing => mret None
    | ObsComplete response => mret (Some response)
    | ObsPending attempt lease_live =>
      found ← find_correlated project repo bookmark attempt;
      match found with
      | Some write =>
        response ← in_idem (complete (c_idempotency co) attempt (response_from_write write));
        mret (Some response)
      | None =>
        if lease_live then flow_step (Err (CoreIdempotency (InProgress (ia_record_key attempt))))
        else mret None
      end
    end
  end.

Definition begin_idempotent_write (scope : string) (client_key : option string)
    (fingerprint project repo bookmark : string) : flow IdempotentWrite :=
  match client_key with
  | None => mret (Proceed None)
  | Some client_key =>
    acquired ← in_idem (acquire (c_idempotency co) scope client_key fingerprint);
    match acquired with
    | AcqDisabled => mret (Proceed None)
    | AcqComplete response => mret (Replay response)
    | AcqAcquired attempt =>
      found ← find_correlated project repo bookmark attempt;
      match found with
      | Some write =>
        response ← in_idem (complete (c_idempotency co) attempt (response_from_write write));
        mret (Replay response)
      | None => mret (Proceed (Some attempt))
      end
    | AcqObserved attempt =>
      found ← find_correlated project repo bookmark attempt;
      match found with
      | Some write =>
        response ← in_idem (complete (c_idempotency co) attempt (response_from_write write));
        mret (Replay response)
      | None => flow_step (Err (CoreIdempotency (InProgress (ia_record_key attempt))))
      end
    end
  end.

Definition complete_idempotent_write (attempt : option IdempotencyAttempt)
    (response : MutationResponse) : flow MutationResponse :=
  match attempt with
  | Some attempt => in_idem (complete (c_idempotency co) attempt response)
  | None => mret response
  end.

Definition abort_idempotent_write (attempt : option IdempotencyAttempt) : flow unit :=
  match attempt with
  | Some attempt => in_idem (abort attempt)
  | None => mret tt
  end.

Definition prune_idempotency : flow nat := in_idem (prune (c_idempotency co)).

(** [attributes.extend(..)]: the receipt's keys replace equal keys. *)
Definition with_attempt (attributes : gmap string string) (attempt : option IdempotencyAttempt) :
    gmap string string :=
  match attempt with
  | Some attempt => attempt_attributes attempt ∪ attributes
  | None => attributes
  end.

Definition publication_check (project repo bookmark : string) (protected deadline : bool) :
    publication_policy := λ snapshot exceeded,
  _ ← fail_if (deadline && exceeded) TransactionDeadlineExceeded;
  validate_publication_snapshot (c_registry co) project repo bookmark protected snapshot.

Definition commit_idempotent_schema_changes_with_attributes_and_deadline (scope : string)
    (client_key : option string) (fingerprint project repo bookmark : string) (base_ref : RefSpec)
    (writes : list SchemaWrite) (author message : string) (attributes : gmap string string)
    (deadline : bool) : flow MutationResponse :=
  config ← in_core (effective_repo_config (c_repo_configs co) project repo);
  let protected := is_protected bookmark (protected_bookmarks config) in
  begun ← begin_idempotent_write scope client_key fingerprint project repo bookmark;
  match begun with
  | Replay response => mret response
  | Proceed attempt =>
    exceeded ← deadline_exceeded deadline;
    if exceeded : bool then
      _ ← abort_idempotent_write attempt;
      flow_step (Err TransactionDeadlineExceeded)
    else
      Call (OnJj (JjCommitSchemaChanges project repo bookmark base_ref writes author message
                    (with_attempt attributes attempt)
                    (publication_check project repo bookmark protected deadline)))
        (λ published,
           match published with
           | Ok write => complete_idempotent_write attempt (response_from_write write)
           | Err (PubJj error) => flow_step (Err (CoreJj error))
           | Err (PubRejected error) =>
             _ ← abort_idempotent_write attempt;
             flow_step (Err error)
           | Panic => Ret Panic
           | Stuck => Ret Stuck
           end)
  end.

Definition commit_idempotent_schema_changes_with_attributes (scope : string)
    (client_key : option string) (fingerprint project repo bookmark : string) (base_ref : RefSpec)
    (writes : list SchemaWrite) (author message : string) (attributes : gmap string string) :
    flow MutationResponse :=
  commit_idempotent_schema_changes_with_attributes_and_deadline scope client_key fingerprint project
    repo bookmark base_ref writes author message attributes false.

Definition commit_idempotent_schema_changes (scope : string) (client_key : option string)
    (fingerprint project repo bookmark : string) (base_ref : RefSpec) (writes : list SchemaWrite)
    (author message : string) : flow MutationResponse :=
  commit_idempotent_schema_changes_with_attributes scope client_key fingerprint project repo bookmark
    base_ref writes author message ∅.

End Flow.
