(* ===== verification/FlowProps.v ===== *)
(** * FlowProps: one publication per receipt

    Idempotent writes run one after the other, and each may stop after any of
    its requests, as when its process crashes: the database and the jj
    repository may then have done what was asked or not, and may also have
    reported a failure for something they did. Ids are fresh, the clock answers
    anything. *)
From S2P Require Import Prelude RustStd SchemaTypes ChangeModel Prog ObjectDb AccessStore Repository Idempotency CoreTypes Integrity Access ChangeStore ChangeLedger Flow.
From Stdlib Require Import Strings.Byte.

Open Scope Z_scope.

(** ** The database, the ids and the jj log *)

Record idem_state := mkIdemState {
  is_db : Inner;
  is_issued : gset string;
}.

(** An operation of the jj log that published a commit. *)
Record publication := mkPublication {
  pub_project : string;
  pub_repo : string;
  pub_bookmark : string;
  pub_attributes : gmap string string;
  pub_write : WriteResult;
}.

Record flow_state := mkFlowState {
  fs_idem : idem_state;
  fs_log : list publication;
}.

Definition with_db (s : idem_state) (d : Inner) : idem_state := mkIdemState d (is_issued s).
Definition with_idem (s : flow_state) (i : idem_state) : flow_state := mkFlowState i (fs_log s).
Definition publish (s : flow_state) (p : publication) : flow_state :=
  mkFlowState (fs_idem s) (fs_log s ++ [p]).

Section Semantics.
Context {HO : HashOrder}.

Definition db_failed (X : Type) (q : db_req X) : X → Prop :=
  match q in db_req X return X → Prop with
  | DbCreateRecord _ _ _ | DbCreateRecords _ | DbGetRecord _ _ | DbListRecords _
  | DbCompareAndSwap _ _ _ _ | DbCompareAndDelete _ _ _ => λ x, ∃ e, x = Err e
  end.

(** A request that fails may have been done. *)
Definition idem_serve (X : Type) (q : idem_req X) (s : idem_state) : X → idem_state → Prop :=
  match q in idem_req X return X → idem_state → Prop with
  | IdemDb q => λ x s',
    let '(y, d) := db_serve _ q (is_db s) in
    (x = y ∧ s' = with_db s d) ∨ (db_failed _ q x ∧ (s' = s ∨ s' = with_db s d))
  | IdemNow => λ _ s', s' = s
  | IdemUuid => λ id s', id ∉ is_issued s ∧ s' = mkIdemState (is_db s) ({[ id ]} ∪ is_issued s)
  end.

(** The operation carries every required attribute. *)
Definition carries (project repo : string) (required : gmap string string) (p : publication) : Prop :=
  pub_project p = project ∧ pub_repo p = repo ∧ required ⊆ pub_attributes p.

(** What a publication with the attributes may do: nothing, if its policy rejects
    the final tree or jj fails before; one operation, if the policy accepts. *)
Definition may_publish (project repo bookmark : string) (attributes : gmap string string)
    (validate : publication_policy) (s : flow_state)
    (x : outcome (PublicationError CoreError) WriteResult) (s' : flow_state) : Prop :=
  (∃ snapshot exceeded e, validate snapshot exceeded = Err e ∧ x = Err (PubRejected e) ∧ s' = s) ∨
  (∃ e, x = Err (PubJj e) ∧ s' = s) ∨
  (∃ snapshot exceeded w, validate snapshot exceeded = Ok tt ∧
     s' = publish s (mkPublication project repo bookmark attributes w) ∧
     (x = Ok w ∨ ∃ e, x = Err (PubJj e))).

(** [find_correlated_write] searches the whole log of the repository; the commit
    it returns is the target of the bookmark at that operation. *)
Definition correlated (project repo bookmark : string) (required : gmap string string)
    (s : flow_state) (x : outcome JjError (option WriteResult)) : Prop :=
  (∃ e, x = Err e) ∨
  (x = Ok None ∧ ∀ p, p ∈ fs_log s → ¬ carries project repo required p) ∨
  (∃ w p, x = Ok (Some w) ∧ p ∈ fs_log s ∧ carries project repo required p ∧
          (pub_bookmark p = bookmark → w = pub_write p)).

(** The requests that do not concern receipts or publications leave this part of
    the state alone and answer anything. *)
Definition flow_serve (X : Type) (q : flow_req X) (s : flow_state) : X → flow_state → Prop :=
  match q in flow_req X return X → flow_state → Prop with
  | OnIdem q => λ x s', ∃ i, idem_serve _ q (fs_idem s) x i ∧ s' = with_idem s i
  | OnJj q =>
    match q in jj_req X return X → flow_state → Prop with
    | JjFindCorrelatedWrite p r b required => λ x s', correlated p r b required s x ∧ s' = s
    | JjCommitSchemaChanges p r b _ _ _ _ attributes validate => may_publish p r b attributes validate s
    | JjMerge p r _ dst _ _ attributes validate => may_publish p r dst attributes validate s
    | _ => λ _ s', s' = s
    end
  | OnCore _ | OnLedger _ | DeadlineExceeded => λ _ s', s' = s
  end.

(** ** The invariant *)

Context {J : IdempotencyJson}.
(** The fingerprint of a request determines what it writes to. *)
Context (target : string → string * string * string).

Definition stored (d : Inner) (k : string) (r : IdempotencyRecord) : Prop :=
  ∃ bytes, get_record IDEMPOTENCY_COLLECTION k d = Some bytes ∧ receipt_from_slice bytes = Ok r.

Definition attempt_attr (p : publication) : option string := pub_attributes p !! ATTEMPT_ATTRIBUTE.

Definition pub_target (p : publication) : string * string * string :=
  (pub_project p, pub_repo p, pub_bookmark p).

Record receipts_inv (log : list publication) (s : idem_state) : Prop := {
  ri_decodes k bytes :
    get_record IDEMPOTENCY_COLLECTION k (is_db s) = Some bytes →
    ∃ r, receipt_from_slice bytes = Ok r ∧ ir_record_key r = k ∧ ir_attempt_id r ∈ is_issued s;
  ri_unique k k' r r' :
    stored (is_db s) k r → stored (is_db s) k' r' → ir_attempt_id r = ir_attempt_id r' → k = k';
  ri_issued p a : p ∈ log → attempt_attr p = Some a → a ∈ is_issued s;
  ri_target p k r :
    p ∈ log → stored (is_db s) k r → attempt_attr p = Some (ir_attempt_id r) →
    pub_attributes p !! RECORD_ATTRIBUTE = Some k ∧ pub_target p = target (ir_fingerprint r);
  ri_response k r response :
    stored (is_db s) k r → ir_response r = Some response →
    ∃ p, p ∈ log ∧ attempt_attr p = Some (ir_attempt_id r) ∧ response_from_write (pub_write p) = response;
  ri_once : NoDup (omap attempt_attr log);
}.

(** *** How writes keep it *)

Lemma receipts_inv_frame log s s' :
  receipts_inv log s →
  (∀ k, get_record IDEMPOTENCY_COLLECTION k (is_db s') = get_record IDEMPOTENCY_COLLECTION k (is_db s)) →
  is_issued s ⊆ is_issued s' → receipts_inv log s'.
Proof.
  intros [Hd Hu Hi Ht Hr Ho] Hk Hs.
  assert (∀ k r, stored (is_db s') k r → stored (is_db s) k r) as Hst.
  { intros k r (b & Hb & Hr'). exists b. by rewrite <- Hk. }
  split; [|by eauto..|done].
  intros k bytes. rewrite Hk. intros Hb. destruct (Hd k bytes Hb) as (r & ? & ? & ?). eauto.
Qed.

Lemma stored_fun d k r r' : stored d k r → stored d k r' → r = r'.
Proof. intros (b & Hb & Hr) (b' & Hb' & Hr'). congruence. Qed.

Lemma stored_insert d c k k' bytes r r' :
  receipt_from_slice bytes = Ok r →
  stored (with_records d (<[(c, k) := bytes]> (records d))) k' r' →
  (c = IDEMPOTENCY_COLLECTION ∧ k' = k ∧ r' = r) ∨
  (stored d k' r' ∧ ¬ (c = IDEMPOTENCY_COLLECTION ∧ k' = k)).
Proof.
  intros Hb (b & Hget & Hr'). unfold get_record in Hget. cbn in Hget. rewrite lookup_insert in Hget.
  destruct (decide _) as [Hc|Hc].
  - injection Hc as <- <-. injection Hget as <-. left. split_and!; [done..|congruence].
  - right. split; [by exists b|]. intros [-> ->]. done.
Qed.

Lemma stored_delete d k k' r :
  stored (with_records d (delete (IDEMPOTENCY_COLLECTION, k) (records d))) k' r → stored d k' r.
Proof.
  intros (b & Hget & Hr). exists b. split; [|done]. unfold get_record in *. cbn in Hget.
  by apply lookup_delete_Some in Hget as [_ ?].
Qed.

Lemma receipts_inv_delete log s k :
  receipts_inv log s →
  receipts_inv log (with_db s (with_records (is_db s) (delete (IDEMPOTENCY_COLLECTION, k) (records (is_db s))))).
Proof.
  intros [Hd Hu Hi Ht Hr Ho]. split; cbn [is_db is_issued with_db]; [|by eauto using stored_delete..|done].
  intros k' bytes. unfold get_record. cbn. intros [_ Hb]%lookup_delete_Some. by apply Hd.
Qed.

Lemma stored_in log s k r :
  receipts_inv log s → stored (is_db s) k r → ir_record_key r = k ∧ ir_attempt_id r ∈ is_issued s.
Proof.
  intros Hinv (b & Hb & Hr). destruct (ri_decodes _ _ Hinv _ _ Hb) as (r' & Hr' & ? & ?).
  assert (r' = r) as -> by congruence. done.
Qed.

(** Storing a receipt: a new one with an id that no receipt and no publication
    has, or one that continues the receipt under its key. *)
Lemma receipts_inv_insert log s k bytes r :
  receipts_inv log s → receipt_from_slice bytes = Ok r → ir_record_key r = k →
  (ir_attempt_id r ∉ is_issued s ∧ ir_response r = None ∨
   ∃ r0, stored (is_db s) k r0 ∧ ir_attempt_id r = ir_attempt_id r0 ∧ ir_fingerprint r = ir_fingerprint r0 ∧
     ∀ response, ir_response r = Some response →
       ∃ p, p ∈ log ∧ attempt_attr p = Some (ir_attempt_id r) ∧ response_from_write (pub_write p) = response) →
  receipts_inv log (mkIdemState (with_records (is_db s) (<[(IDEMPOTENCY_COLLECTION, k) := bytes]> (records (is_db s))))
                      ({[ ir_attempt_id r ]} ∪ is_issued s)).
Proof.
  intros Hinv Hb Hkey Hr. pose proof Hinv as [Hd Hu Hi Ht Hresp Ho].
  assert (∀ k' r', stored (is_db s) k' r' → k' ≠ k → ir_attempt_id r' = ir_attempt_id r → False) as Hother.
  { intros k' r' Hs Hne Ha. destruct Hr as [[Hfresh _]|(r0 & Hs0 & Ha0 & _)].
    - destruct (stored_in _ _ _ _ Hinv Hs) as [_ Hin]. congruence.
    - apply Hne. eapply Hu; [done..|]. congruence. }
  assert (∀ k' r', stored (with_records (is_db s) (<[(IDEMPOTENCY_COLLECTION, k) := bytes]> (records (is_db s)))) k' r' →
            (k' = k ∧ r' = r) ∨ (stored (is_db s) k' r' ∧ k' ≠ k)) as Hst.
  { intros k' r' H. destruct (stored_insert _ _ _ _ _ _ _ Hb H) as [(_ & ? & ?)|[? ?]]; naive_solver. }
  split; cbn [is_db is_issued].
  - intros k' bytes'. unfold get_record. cbn. rewrite lookup_insert. case_decide as Hk.
    + injection Hk as <-. intros [= <-]. exists r. split_and!; [done..|set_solver].
    + intros Hb'. destruct (Hd k' bytes' Hb') as (r' & ? & ? & ?). exists r'. split_and!; [done..|set_solver].
  - intros k1 k2 r1 r2 [[-> ->]|[H1 N1]]%Hst [[-> ->]|[H2 N2]]%Hst Ha; [done|..].
    + exfalso. by eapply Hother.
    + exfalso. by eapply Hother.
    + by eapply Hu.
  - intros p a Hp Ha. apply elem_of_union. right. eauto.
  - intros p k' r' Hp [[-> ->]|[H' _]]%Hst Ha; [|by eauto].
    destruct Hr as [[Hfresh _]|(r0 & Hs0 & Ha0 & Hf & _)].
    + exfalso. apply Hfresh. eauto.
    + rewrite Hf. eapply Ht; [done..|]. congruence.
  - intros k' r' response [[-> ->]|[H' _]]%Hst Hresp'; [|by eauto].
    destruct Hr as [[_ Hnone]|(r0 & _ & _ & _ & Hp)]; [congruence|]. by apply Hp.
  - done.
Qed.

(** Storing a continuation of the receipt under its key. *)
Lemma receipts_inv_continue log s k bytes r r0 :
  receipts_inv log s → stored (is_db s) k r0 → receipt_from_slice bytes = Ok r → ir_record_key r = k →
  ir_attempt_id r = ir_attempt_id r0 → ir_fingerprint r = ir_fingerprint r0 →
  (∀ response, ir_response r = Some response →
     ∃ p, p ∈ log ∧ attempt_attr p = Some (ir_attempt_id r) ∧ response_from_write (pub_write p) = response) →
  receipts_inv log (with_db s (with_records (is_db s) (<[(IDEMPOTENCY_COLLECTION, k) := bytes]> (records (is_db s))))).
Proof.
  intros Hinv Hs Hb Hk Ha Hf Hresp.
  assert ({[ ir_attempt_id r ]} ∪ is_issued s = is_issued s) as Hissued.
  { destruct (stored_in _ _ _ _ Hinv Hs) as [_ Hin]. rewrite <- Ha in Hin. set_solver. }
  pose proof (receipts_inv_insert log s k bytes r Hinv Hb Hk) as H. rewrite Hissued in H. apply H.
  right. by exists r0.
Qed.

Lemma omap_attempt p :
  omap attempt_attr [p] = match attempt_attr p with Some a => [a] | None => [] end.
Proof. done. Qed.

(** Appending a publication of the receipt's attempt, of which there was none. *)
Lemma receipts_inv_publish log s p k r :
  receipts_inv log s → stored (is_db s) k r → attempt_attr p = Some (ir_attempt_id r) →
  pub_attributes p !! RECORD_ATTRIBUTE = Some k → pub_target p = target (ir_fingerprint r) →
  (∀ p', p' ∈ log → attempt_attr p' ≠ Some (ir_attempt_id r)) → receipts_inv (log ++ [p]) s.
Proof.
  intros Hinv Hs Ha Hk Ht Hnone. pose proof Hinv as [Hd Hu Hi Htt Hresp Ho]. split; [done|done|..].
  - intros p' a [Hp|Hp]%elem_of_app Ha'; [by eauto|]. apply list_elem_of_singleton in Hp as ->.
    destruct (stored_in _ _ _ _ Hinv Hs). congruence.
  - intros p' k' r' [Hp|Hp]%elem_of_app Hs' Ha'; [by eauto|]. apply list_elem_of_singleton in Hp as ->.
    assert (k' = k) as -> by (eapply Hu; [done..|congruence]).
    by rewrite (stored_fun _ _ _ _ Hs' Hs).
  - intros k' r' response Hs' Hr'. destruct (Hresp _ _ _ Hs' Hr') as (p' & ? & ? & ?).
    exists p'. split_and!; [|done..]. apply elem_of_app. by left.
  - rewrite omap_app, omap_attempt, Ha. apply NoDup_app. split_and!; [done| |apply NoDup_singleton].
    intros a Hin ->%list_elem_of_singleton. apply list_elem_of_omap in Hin as (p' & Hp' & Ha').
    by apply (Hnone p').
Qed.

(** A publication without an attempt concerns no receipt. *)
Lemma receipts_inv_publish_plain log s p :
  receipts_inv log s → attempt_attr p = None → receipts_inv (log ++ [p]) s.
Proof.
  intros [Hd Hu Hi Htt Hresp Ho] Ha. split; [done|done|..].
  - intros p' a [Hp|Hp]%elem_of_app Ha'; [by eauto|]. apply list_elem_of_singleton in Hp as ->. congruence.
  - intros p' k' r' [Hp|Hp]%elem_of_app Hs' Ha'; [by eauto|]. apply list_elem_of_singleton in Hp as ->. congruence.
  - intros k' r' response Hs' Hr'. destruct (Hresp _ _ _ Hs' Hr') as (p' & ? & ? & ?).
    exists p'. split_and!; [|done..]. apply elem_of_app. by left.
  - by rewrite omap_app, omap_attempt, Ha, app_nil_r.
Qed.

(** ** Rules for the programs of the receipt store *)

Section Rules.
Context {RF : RustFmt} {SH : Sha256} {HX : Hex} (log : list publication).

Abbreviation I := (receipts_inv log).

(** The postcondition of a call that succeeds. *)
Definition if_ok {E A S} (P : A → S → Prop) (r : outcome E A) (s : S) : Prop :=
  match r with Ok a => P a s | _ => True end.

Lemma rule_pure {A B} (o : outcome IdempotencyError A) (f : A → idem B) P s :
  (∀ a, o = Ok a → keeps idem_serve I (f a) (if_ok P) s) →
  keeps idem_serve I (pure_step o ≫= f) (if_ok P) s.
Proof. intros H. destruct o; cbn; auto. Qed.

Lemma rule_now {B} (f : Z → idem B) P s :
  I s → (∀ now, keeps idem_serve I (f now) (if_ok P) s) → keeps idem_serve I (idem_now ≫= f) (if_ok P) s.
Proof. intros HI H x s' ->. split; [done|]. destruct x; cbn; auto. Qed.

Lemma rule_uuid {B} (f : string → idem B) P s :
  I s →
  (∀ id, id ∉ is_issued s → keeps idem_serve I (f id) (if_ok P) (mkIdemState (is_db s) ({[ id ]} ∪ is_issued s))) →
  keeps idem_serve I (new_uuid ≫= f) (if_ok P) s.
Proof.
  intros HI H x s' [Hx ->]. split; [|by apply H].
  eapply receipts_inv_frame; [done|done|]. cbn. set_solver.
Qed.

Lemma with_own_db s : with_db s (is_db s) = s.
Proof. by destruct s. Qed.

Lemma rule_get {B} c k (f : option (list byte) → idem B) P s :
  I s → keeps idem_serve I (f (get_record c k (is_db s))) (if_ok P) s →
  keeps idem_serve I (on_db (DbGetRecord c k) ≫= f) (if_ok P) s.
Proof.
  intros HI H x s'. cbn. rewrite with_own_db.
  intros [[-> ->]|[[e ->] [-> | ->]]]; (split; [done|]); by cbn.
Qed.

Lemma rule_list {B} c (f : list (string * list byte) → idem B) P s :
  I s → keeps idem_serve I (f (list_records c (is_db s))) (if_ok P) s →
  keeps idem_serve I (on_db (DbListRecords c) ≫= f) (if_ok P) s.
Proof.
  intros HI H x s'. cbn. rewrite with_own_db.
  intros [[-> ->]|[[e ->] [-> | ->]]]; (split; [done|]); by cbn.
Qed.

(** A write: the invariant has to survive it, and the program goes on after it. *)
Lemma rule_create {B} c k v (f : bool → idem B) P s :
  I s → I (with_db s (create_record c k v (is_db s)).2) →
  keeps idem_serve I (f (create_record c k v (is_db s)).1) (if_ok P) (with_db s (create_record c k v (is_db s)).2) →
  keeps idem_serve I (on_db (DbCreateRecord c k v) ≫= f) (if_ok P) s.
Proof.
  intros HI HI' H x s'. cbn. destruct (create_record c k v (is_db s)) as [b d]. cbn in *.
  intros [[-> ->]|[[e ->] [-> | ->]]]; (split; [done|]); by cbn.
Qed.

Lemma rule_swap {B} c k e r (f : bool → idem B) P s :
  I s → I (with_db s (compare_and_swap_record c k e r (is_db s)).2) →
  keeps idem_serve I (f (compare_and_swap_record c k e r (is_db s)).1) (if_ok P)
    (with_db s (compare_and_swap_record c k e r (is_db s)).2) →
  keeps idem_serve I (on_db (DbCompareAndSwap c k e r) ≫= f) (if_ok P) s.
Proof.
  intros HI HI' H x s'. cbn. destruct (compare_and_swap_record c k e r (is_db s)) as [b d]. cbn in *.
  intros [[-> ->]|[[e' ->] [-> | ->]]]; (split; [done|]); by cbn.
Qed.

Lemma compare_and_delete_inv k e s :
  I s → I (with_db s (compare_and_delete_record IDEMPOTENCY_COLLECTION k e (is_db s)).2).
Proof.
  intros HI. unfold compare_and_delete_record. case_bool_decide; cbn [snd]; [by apply receipts_inv_delete|].
  by rewrite with_own_db.
Qed.

Lemma rule_delete {B} k e (f : bool → idem B) P s :
  I s → (∀ b, I (with_db s (compare_and_delete_record IDEMPOTENCY_COLLECTION k e (is_db s)).2) →
    keeps idem_serve I (f b) (if_ok P)
      (with_db s (compare_and_delete_record IDEMPOTENCY_COLLECTION k e (is_db s)).2)) →
  keeps idem_serve I (on_db (DbCompareAndDelete IDEMPOTENCY_COLLECTION k e) ≫= f) (if_ok P) s.
Proof.
  intros HI H x s'. cbn. pose proof (compare_and_delete_inv k e s HI) as HI'.
  destruct (compare_and_delete_record _ k e (is_db s)) as [b d]. cbn in *.
  intros [[-> ->]|[[e' ->] [-> | ->]]]; (split; [done|]); cbn; auto.
Qed.

(** The lock is in another collection. *)
Lemma lock_frame s d :
  I s → (∀ k, get_record IDEMPOTENCY_COLLECTION k d = get_record IDEMPOTENCY_COLLECTION k (is_db s)) →
  I (with_db s d).
Proof. intros HI Hk. by eapply receipts_inv_frame. Qed.

Lemma lock_write_frame X (q : db_req X) d k :
  writes_to LOCK_COLLECTION q →
  get_record IDEMPOTENCY_COLLECTION k (db_serve X q d).2 = get_record IDEMPOTENCY_COLLECTION k d.
Proof. intros Hq. by apply (db_serve_frame LOCK_COLLECTION). Qed.

(** One program after another. *)
Lemma rule_seq {A B} (m : idem A) (f : A → idem B) P P' s :
  I s → keeps idem_serve I m (if_ok P) s →
  (∀ a s', I s' → P a s' → keeps idem_serve I (f a) (if_ok P') s') →
  keeps idem_serve I (m ≫= f) (if_ok P') s.
Proof.
  intros HI Hm Hf. apply keeps_step. eapply keeps_mono; [done| |exact Hm].
  intros [a|e| |] s' HI' HP; cbn in *; auto.
Qed.

(** Nothing is known of the result. *)
Definition any {A} : A → idem_state → Prop := λ _ _, True.

Lemma guard_keeps n : ∀ s, I s → keeps idem_serve I (acquire_guard_loop n) (if_ok any) s.
Proof.
  induction n as [|n IH]; intros s HI; cbn [acquire_guard_loop]; [done|].
  apply rule_now; [done|]. intros now. apply rule_uuid; [done|]. intros id Hid.
  set (s1 := mkIdemState _ _).
  assert (I s1) as HI1. { eapply receipts_inv_frame; [exact HI|done|]. cbn. set_solver. }
  apply rule_pure. intros expires _. apply rule_pure. intros replacement _.
  apply rule_get; [done|]. destruct (get_record _ _ _) as [current|].
  - apply rule_pure. intros existing _. destruct (_ <=? now); [|by apply IH].
    assert (∀ d, d = (compare_and_swap_record LOCK_COLLECTION CAPACITY_LOCK_KEY current replacement (is_db s1)).2 →
            I (with_db s1 d)) as Hw.
    { intros d ->. apply lock_frame; [done|]. intros k.
      pose proof (lock_write_frame _ (DbCompareAndSwap LOCK_COLLECTION CAPACITY_LOCK_KEY current replacement)
        (is_db s1) k eq_refl) as Hf. cbn in Hf. by destruct (compare_and_swap_record _ _ _ _ _). }
    apply rule_swap; [done|by apply Hw|]. destruct (_.1); [done|]. apply IH. by apply Hw.
  - assert (I (with_db s1 (create_record LOCK_COLLECTION CAPACITY_LOCK_KEY replacement (is_db s1)).2)) as Hw.
    { apply lock_frame; [done|]. intros k.
      pose proof (lock_write_frame _ (DbCreateRecord LOCK_COLLECTION CAPACITY_LOCK_KEY replacement)
        (is_db s1) k eq_refl) as Hf. cbn in Hf. by destruct (create_record _ _ _ _). }
    apply rule_create; [done..|]. destruct (_.1); [done|]. by apply IH.
Qed.

Lemma prune_expired_keeps st now l : ∀ s, I s → keeps idem_serve I (prune_expired st now l) (if_ok any) s.
Proof.
  induction l as [|[key bytes] l IH]; intros s HI; cbn [prune_expired]; [done|].
  apply rule_pure. intros record _. apply rule_pure. intros [] _.
  - apply rule_delete; [done|]. intros b HI'. eapply rule_seq; [done|by apply IH|done].
  - eapply rule_seq; [done|by apply IH|done].
Qed.

Lemma evict_keeps l : ∀ excess s, I s → keeps idem_serve I (evict excess l) (if_ok any) s.
Proof.
  induction l as [|[[key bytes] r] l IH]; intros excess s HI; cbn [evict]; [done|].
  destruct excess as [|fewer]; [done|]. apply rule_delete; [done|]. intros [] HI'; [|by apply IH].
  eapply rule_seq; [done|by apply IH|done].
Qed.

Lemma prune_keeps st reserve s : I s → keeps idem_serve I (prune_with_reserve st reserve) (if_ok any) s.
Proof.
  intros HI. unfold prune_with_reserve. apply rule_now; [done|]. intros now.
  apply rule_list; [done|]. eapply rule_seq; [done|by apply prune_expired_keeps|].
  intros [deleted records] s' HI' _. cbv zeta beta iota. destruct (_ <? _)%nat; [|done].
  eapply rule_seq; [done|by apply evict_keeps|]. intros [more excess] s'' HI'' _. cbv zeta beta iota.
  apply rule_pure. by intros _ _.
Qed.

(** *** Acquiring *)

(** The receipt of the attempt is stored. *)
Definition holds (a : IdempotencyAttempt) (s : idem_state) : Prop :=
  ∃ r, stored (is_db s) (ia_record_key a) r ∧ attempt_of r = a.

Definition responded (response : MutationResponse) : Prop :=
  ∃ p, p ∈ log ∧ response_from_write (pub_write p) = response.

Definition acquired (fingerprint : string) (q : IdempotencyAcquisition) (s : idem_state) : Prop :=
  match q with
  | AcqDisabled => True
  | AcqComplete response => responded response
  | AcqAcquired a | AcqObserved a => holds a s ∧ ia_fingerprint a = fingerprint
  end.

Context {JL : IdempotencyJsonLaws J}.

Lemma encode_decodes r bs : idem_encode r = Ok bs → receipt_from_slice bs = Ok r.
Proof.
  unfold idem_encode. destruct (receipt_json_roundtrip r) as (bs' & -> & Hdec). cbn. congruence.
Qed.

Lemma validate_existing_ok r key scope fingerprint x :
  validate_existing r key scope fingerprint = Ok x → ir_record_key r = key ∧ ir_fingerprint r = fingerprint.
Proof.
  unfold validate_existing. intros H. ok_inv H. apply fail_if_Ok in H.
  rewrite !orb_false_iff, !negb_false_iff, !bool_decide_eq_true in *. naive_solver.
Qed.

Lemma completed_responded s k r response :
  I s → stored (is_db s) k r → ir_response r = Some response → responded response.
Proof. intros HI Hs Hr. destruct (ri_response _ _ HI _ _ _ Hs Hr) as (p & ? & _ & ?). by exists p. Qed.

(** Dropping the guard touches no receipt. *)
Lemma with_guard_keeps {A} guard (block : idem A) P s :
  I s → keeps idem_serve I block (if_ok P) s →
  (∀ a s' d, P a s' →
     (∀ k, get_record IDEMPOTENCY_COLLECTION k d = get_record IDEMPOTENCY_COLLECTION k (is_db s')) →
     P a (with_db s' d)) →
  keeps idem_serve I (with_guard guard block) (if_ok P) s.
Proof.
  intros HI Hb HP. apply keeps_bind. eapply keeps_mono; [done| |exact Hb].
  intros r s' HI' HPr x s1 Hx. set (q := DbCompareAndDelete LOCK_COLLECTION CAPACITY_LOCK_KEY guard) in Hx.
  assert (s1 = s' ∨ s1 = with_db s' (db_serve _ q (is_db s')).2) as Hs1.
  { unfold idem_serve in Hx. destruct (db_serve _ q (is_db s')). naive_solver. }
  assert (∀ k, get_record IDEMPOTENCY_COLLECTION k (db_serve _ q (is_db s')).2 =
               get_record IDEMPOTENCY_COLLECTION k (is_db s')) as Hf.
  { intros k. by apply lock_write_frame. }
  destruct Hs1 as [-> | ->]; [done|]. split; [by apply lock_frame|]. cbn.
  destruct r; cbn in *; auto.
Qed.

Lemma acquired_frame fingerprint q s d :
  acquired fingerprint q s →
  (∀ k, get_record IDEMPOTENCY_COLLECTION k d = get_record IDEMPOTENCY_COLLECTION k (is_db s)) →
  acquired fingerprint q (with_db s d).
Proof.
  intros H Hk. destruct q as [|response|a|a]; cbn in *; [done|done|..];
    destruct H as [(r & (b & Hb & Hr) & Ha) Hf]; (split; [|done]); exists r; (split; [|done]); exists b;
    by rewrite Hk.
Qed.

(** Creating the receipt of a new attempt. *)
Lemma claim_keeps st key scope fingerprint now s :
  I s →
  keeps idem_serve I
    (id ← new_uuid;
     expires ← pure_step (lease_overflow "lease timestamp overflow" now (lease_ms st));
     let record := mkIdempotencyRecord 1 key scope fingerprint id expires now now None None in
     bytes ← pure_step (idem_encode record);
     created ← on_db (DbCreateRecord IDEMPOTENCY_COLLECTION key bytes);
     mret (if created : bool then Some (AcqAcquired (attempt_of record)) else None))
    (if_ok (λ claimed s', match claimed with Some q => acquired fingerprint q s' | None => True end)) s.
Proof.
  intros HI. apply rule_uuid; [done|]. intros id Hid. apply rule_pure. intros expires _. cbv zeta.
  set (record := mkIdempotencyRecord _ _ _ _ _ _ _ _ _ _). apply rule_pure. intros bytes Hb%encode_decodes.
  set (s3 := mkIdemState _ _).
  assert (I s3) as HI3. { eapply receipts_inv_frame; [exact HI|done|]. cbn. set_solver. }
  unfold create_record.
  apply rule_create; [done|..]; unfold create_record;
    destruct (records (is_db s3) !! (IDEMPOTENCY_COLLECTION, key)); cbn [fst snd].
  - by rewrite with_own_db.
  - apply (receipts_inv_insert log s key bytes record HI Hb); [done|]. by left.
  - done.
  - cbn. split; [|done]. exists record. split; [|done]. exists bytes. split; [|done].
    unfold get_record. cbn. by rewrite lookup_insert_eq.
Qed.

Lemma acquire_loop_keeps n st scope key fingerprint : ∀ s,
  I s → keeps idem_serve I (acquire_idem_loop n st scope key fingerprint) (if_ok (acquired fingerprint)) s.
Proof.
  induction n as [|n IH]; intros s HI; cbn [acquire_idem_loop]; [done|].
  apply rule_now; [done|]. intros now. apply rule_get; [done|].
  destruct (get_record _ key (is_db s)) as [current|] eqn:Hcur.
  - apply rule_pure. intros record Hrec. apply map_err_Ok in Hrec.
    assert (stored (is_db s) key record) as Hst by (by exists current).
    apply rule_pure. intros _ [Hkey Hf]%validate_existing_ok.
    destruct (ir_response record) as [response|] eqn:Hresp.
    + apply rule_pure. intros [] _; [|by eapply completed_responded].
      apply rule_delete; [done|]. intros b HI'. by apply IH.
    + destruct (now <? _).
      { split; [|done]. exists record. split; [|done]. cbn [ia_record_key attempt_of]. by rewrite Hkey. }
      apply rule_pure. intros expires _. cbv zeta. apply rule_pure. intros bytes Hb%encode_decodes.
      set (record' := ir_with_lease record expires now) in *.
      unfold compare_and_swap_record. pose proof Hcur as Hcur'. unfold get_record in Hcur'.
      assert (I (with_db s (compare_and_swap_record IDEMPOTENCY_COLLECTION key current bytes (is_db s)).2) ∧
              acquired fingerprint (AcqAcquired (attempt_of record'))
                (with_db s (compare_and_swap_record IDEMPOTENCY_COLLECTION key current bytes (is_db s)).2)) as [HI' Hacq].
      { unfold compare_and_swap_record. rewrite Hcur', bool_decide_eq_true_2 by done. cbn [snd]. split.
        - apply (receipts_inv_continue log s key bytes record' record HI); [done..|]. cbn. congruence.
        - split; [|done]. exists record'. split; [|done]. exists bytes. split; [|done]. cbn.
          rewrite Hkey. unfold get_record. cbn. by rewrite lookup_insert_eq. }
      apply rule_swap; [done..|]. destruct (_.1); [done|]. by apply IH.
  - eapply rule_seq; [done|by apply guard_keeps|]. intros guard s1 HI1 _.
    eapply (rule_seq _ _ (λ claimed s', match claimed with Some q => acquired fingerprint q s' | None => True end));
      [done|..].
    + apply with_guard_keeps; [done| |].
      * apply rule_get; [done|]. destruct (is_some _); [done|].
        eapply rule_seq; [done|by apply prune_keeps|]. intros _ s2 HI2 _. by apply claim_keeps.
      * intros [q|] s' d Hq Hk; [|done]. by apply acquired_frame.
    + intros [q|] s2 HI2 Hq; [done|]. by apply IH.
Qed.

Lemma acquire_keeps st scope client_key fingerprint s :
  I s → keeps idem_serve I (acquire st scope client_key fingerprint) (if_ok (acquired fingerprint)) s.
Proof.
  intros HI. unfold acquire. apply rule_pure. intros _ _. destruct (_ =? 0)%nat; [done|].
  by apply acquire_loop_keeps.
Qed.

Definition observed (fingerprint : string) (o : IdempotencyObservation) (s : idem_state) : Prop :=
  match o with
  | ObsComplete response => responded response
  | ObsPending a _ => holds a s ∧ ia_fingerprint a = fingerprint
  | ObsDisabled | ObsMissing => True
  end.

Lemma observe_loop_keeps n st scope key fingerprint : ∀ s,
  I s → keeps idem_serve I (observe_loop n st scope key fingerprint) (if_ok (observed fingerprint)) s.
Proof.
  induction n as [|n IH]; intros s HI; cbn [observe_loop]; [done|].
  apply rule_get; [done|]. destruct (get_record _ key (is_db s)) as [current|] eqn:Hcur; [|done].
  apply rule_pure. intros record Hrec. apply map_err_Ok in Hrec.
  assert (stored (is_db s) key record) as Hst by (by exists current).
  apply rule_pure. intros _ [Hkey Hf]%validate_existing_ok. apply rule_now; [done|]. intros now.
  destruct (ir_response record) as [response|] eqn:Hresp.
  - apply rule_pure. intros [] _; [|by eapply completed_responded].
    apply rule_delete; [done|]. intros [] HI'; [done|]. by apply IH.
  - split; [|done]. exists record. split; [|done]. cbn [ia_record_key attempt_of]. by rewrite Hkey.
Qed.

Lemma observe_keeps st scope client_key fingerprint s :
  I s → keeps idem_serve I (observe st scope client_key fingerprint) (if_ok (observed fingerprint)) s.
Proof.
  intros HI. unfold observe. apply rule_pure. intros _ _. destruct (_ =? 0)%nat; [done|].
  by apply observe_loop_keeps.
Qed.

(** The response is that of a publication of the attempt. *)
Definition published_response (a : IdempotencyAttempt) (response : MutationResponse) : Prop :=
  ∃ p, p ∈ log ∧ attempt_attr p = Some (ia_attempt_id a) ∧ response_from_write (pub_write p) = response.

Lemma complete_loop_keeps n st a response : ∀ s,
  I s → published_response a response →
  keeps idem_serve I (complete_receipt_loop n st a response) (if_ok (λ r _, r = response)) s.
Proof.
  induction n as [|n IH]; intros s HI Hpub; cbn [complete_receipt_loop]; [done|].
  apply rule_get; [done|]. apply rule_pure. intros current Hcur%ok_or_Ok.
  apply rule_pure. intros record Hrec. apply map_err_Ok in Hrec.
  assert (stored (is_db s) (ia_record_key a) record) as Hst by (by exists current).
  apply rule_pure. intros _ Hsame%fail_if_Ok.
  rewrite orb_false_iff, !negb_false_iff, !bool_decide_eq_true in Hsame. destruct Hsame as [Ha Hf].
  destruct (ir_response record) as [stored_response|] eqn:Hresp.
  { case_bool_decide; [by cbn|done]. }
  apply rule_now; [done|]. intros now. apply rule_pure. intros bytes Hb%encode_decodes.
  set (record' := ir_with_response record response now) in *.
  assert (I (with_db s (compare_and_swap_record IDEMPOTENCY_COLLECTION (ia_record_key a) current bytes (is_db s)).2)) as HI'.
  { unfold compare_and_swap_record. unfold get_record in Hcur.
    rewrite Hcur, bool_decide_eq_true_2 by done. cbn [snd].
    apply (receipts_inv_continue log s _ bytes record' record HI); [done..| |done|done|].
    - by destruct (stored_in _ _ _ _ HI Hst).
    - intros r [= <-]. cbn. by rewrite Ha. }
  apply rule_swap; [done..|]. destruct (_.1); [|by apply IH].
  eapply rule_seq; [done|by apply prune_keeps|]. by intros.
Qed.

Lemma abort_loop_keeps n a : ∀ s, I s → keeps idem_serve I (abort_loop n a) (if_ok any) s.
Proof.
  induction n as [|n IH]; intros s HI; cbn [abort_loop]; [done|].
  apply rule_get; [done|]. destruct (get_record _ _ _); [|done].
  apply rule_pure. intros record _. apply rule_pure. intros _ _. apply rule_pure. intros _ _.
  apply rule_delete; [done|]. intros [] HI'; [done|]. by apply IH.
Qed.

End Rules.

(** ** The write *)

Section Write.
Context {RF : RustFmt} {SH : Sha256} {HX : Hex} {JL : IdempotencyJsonLaws J}.
Context {AN : AuthnProvider} {AZ : AuthzPolicy} (co : Core).

Definition flow_inv (s : flow_state) : Prop := receipts_inv (fs_log s) (fs_idem s).

Lemma with_own_idem s : with_idem s (fs_idem s) = s.
Proof. by destruct s. Qed.

(** A program of the receipt store, run by a flow. *)
Lemma keeps_lift {A} (m : idem A) Q Q' s :
  keeps idem_serve (receipts_inv (fs_log s)) m Q (fs_idem s) →
  (∀ r i, Q r i → Q' r (with_idem s i)) →
  keeps flow_serve flow_inv (prog_lift (@OnIdem) m) Q' s.
Proof.
  revert s. induction m as [a|X q k IH]; intros s; cbn [prog_lift keeps].
  - intros H HQ. rewrite <- (with_own_idem s). by apply HQ.
  - intros H HQ x s' (i & Hx & ->). destruct (H x i Hx) as [HI Hk]. split; [exact HI|].
    by apply (IH x (with_idem s i)).
Qed.

Lemma rule_idem {A B} (m : idem A) (f : A → flow B) P P' s :
  flow_inv s → keeps idem_serve (receipts_inv (fs_log s)) m (if_ok P) (fs_idem s) →
  (∀ a i, receipts_inv (fs_log s) i → P a i → keeps flow_serve flow_inv (f a) (if_ok P') (with_idem s i)) →
  keeps flow_serve flow_inv (in_idem m ≫= f) (if_ok P') s.
Proof.
  intros HI Hm Hf. apply keeps_bind. unfold in_idem. apply keeps_bind.
  apply (keeps_lift m (λ r i, receipts_inv (fs_log s) i ∧ if_ok P r i)).
  - eapply keeps_mono; [exact HI| |exact Hm]. auto.
  - intros [a|e| |] i [HI' HP]; cbn; auto.
Qed.

(** The requests of the rest of the core. *)
Lemma rule_core {A B} (m : core A) (f : A → flow B) P s :
  flow_inv s → (∀ a, keeps flow_serve flow_inv (f a) (if_ok P) s) →
  keeps flow_serve flow_inv (in_core m ≫= f) (if_ok P) s.
Proof.
  intros HI Hf. apply keeps_bind. unfold in_core. induction m as [[a|e| |]|X q k IH]; cbn; auto.
  intros x s' ->. auto.
Qed.

Lemma rule_find {B} project repo bookmark a (f : option WriteResult → flow B) P s :
  flow_inv s →
  ((∀ p, p ∈ fs_log s → ¬ carries project repo (attempt_attributes a) p) →
     keeps flow_serve flow_inv (f None) (if_ok P) s) →
  (∀ w p, p ∈ fs_log s → carries project repo (attempt_attributes a) p →
     (pub_bookmark p = bookmark → w = pub_write p) → keeps flow_serve flow_inv (f (Some w)) (if_ok P) s) →
  keeps flow_serve flow_inv (find_correlated project repo bookmark a ≫= f) (if_ok P) s.
Proof.
  intros HI HN HS x s' [Hx ->]. split; [done|].
  destruct Hx as [(e & ->)|[[-> H]|(w & p & -> & Hp & Hc & Hw)]]; cbn; eauto.
Qed.

Lemma attempt_attributes_sub a (attributes : gmap string string) :
  attempt_attributes a ⊆ attributes ↔
  attributes !! RECORD_ATTRIBUTE = Some (ia_record_key a) ∧
  attributes !! ATTEMPT_ATTRIBUTE = Some (ia_attempt_id a).
Proof.
  rewrite map_subseteq_spec. split.
  - intros H. split; by apply H.
  - intros [Hr Ha] k v. unfold attempt_attributes. rewrite lookup_insert_Some.
    intros [[<- <-]|[_ [<- <-]%lookup_singleton_Some]]; done.
Qed.

(** The attempt was not published: an operation that carried it would have been
    found where the request looks for it. *)
Lemma not_published s a project repo bookmark :
  flow_inv s → holds a (fs_idem s) → target (ia_fingerprint a) = (project, repo, bookmark) →
  (∀ p, p ∈ fs_log s → ¬ carries project repo (attempt_attributes a) p) →
  ∀ p, p ∈ fs_log s → attempt_attr p ≠ Some (ia_attempt_id a).
Proof.
  intros HI (r & Hs & <-) Ht Hnone p Hp Ha. cbn [ia_fingerprint ia_attempt_id attempt_of ia_record_key] in *.
  destruct (ri_target _ _ HI _ _ _ Hp Hs Ha) as [Hk Hpt]. rewrite Ht in Hpt. injection Hpt as Hpp Hpr _.
  apply (Hnone p Hp). split_and!; [done..|]. by apply attempt_attributes_sub.
Qed.

(** The write that was found is the publication of the attempt. *)
Lemma found_published s a project repo bookmark w p :
  flow_inv s → holds a (fs_idem s) → target (ia_fingerprint a) = (project, repo, bookmark) →
  p ∈ fs_log s → carries project repo (attempt_attributes a) p → (pub_bookmark p = bookmark → w = pub_write p) →
  published_response (fs_log s) a (response_from_write w).
Proof.
  intros HI (r & Hs & <-) Ht Hp (_ & _ & Hsub) Hw. apply attempt_attributes_sub in Hsub as [_ Ha].
  cbn [ia_fingerprint ia_attempt_id attempt_of] in *. exists p. split_and!; [done..|].
  destruct (ri_target _ _ HI _ _ _ Hp Hs Ha) as [_ Hpt]. rewrite Ht in Hpt. injection Hpt as _ _ Hb.
  by rewrite Hw.
Qed.

(** A successful response is that of a publication. *)
Definition succeeded (response : MutationResponse) (s : flow_state) : Prop := responded (fs_log s) response.

Lemma published_responded log a response : published_response log a response → responded log response.
Proof. intros (p & Hp & _ & Hr). by exists p. Qed.

Lemma complete_then {B} a response (f : MutationResponse → flow B) P s :
  flow_inv s → published_response (fs_log s) a response →
  (∀ i, receipts_inv (fs_log s) i → keeps flow_serve flow_inv (f response) (if_ok P) (with_idem s i)) →
  keeps flow_serve flow_inv (in_idem (complete (c_idempotency co) a response) ≫= f) (if_ok P) s.
Proof.
  intros HI Hp Hf. eapply rule_idem; [done|by apply complete_loop_keeps|]. intros r i Hi ->. by apply Hf.
Qed.

Lemma replay_keeps scope client_key fingerprint project repo bookmark s :
  flow_inv s → target fingerprint = (project, repo, bookmark) →
  keeps flow_serve flow_inv (replay_idempotent_write co scope client_key fingerprint project repo bookmark)
    (if_ok (λ o s', match o with Some response => succeeded response s' | None => True end)) s.
Proof.
  intros HI Ht. destruct client_key as [client_key|]; [|done]. cbn [replay_idempotent_write].
  eapply rule_idem; [done|by apply observe_keeps|]. intros [| |response|a live] i Hi Ho; try done.
  destruct Ho as [Hh <-].
  apply rule_find; [done|by destruct live|]. intros w p Hp Hc Hw.
  assert (published_response (fs_log s) a (response_from_write w)) as Hpub
    by (by eapply (found_published (with_idem s i))).
  apply complete_then; [done..|]. intros i' Hi'. by eapply published_responded.
Qed.

(** What is known when a write proceeds: without an attempt nothing, with one that
    its receipt is stored and no operation carries it. *)
Definition begun (fingerprint : string) (w : IdempotentWrite) (s : flow_state) : Prop :=
  match w with
  | Replay response => succeeded response s
  | Proceed None => True
  | Proceed (Some a) =>
    holds a (fs_idem s) ∧ ia_fingerprint a = fingerprint ∧
    ∀ p, p ∈ fs_log s → attempt_attr p ≠ Some (ia_attempt_id a)
  end.

Lemma begin_keeps scope client_key fingerprint project repo bookmark s :
  flow_inv s → target fingerprint = (project, repo, bookmark) →
  keeps flow_serve flow_inv (begin_idempotent_write co scope client_key fingerprint project repo bookmark)
    (if_ok (begun fingerprint)) s.
Proof.
  intros HI Ht. destruct client_key as [client_key|]; [|done]. cbn [begin_idempotent_write].
  eapply rule_idem; [done|by apply acquire_keeps|].
  intros [|response|a|a] i Hi Ho; [done|done|destruct Ho as [Hh <-]..];
    (apply rule_find; [done| |intros w p Hp Hc Hw;
       assert (published_response (fs_log s) a (response_from_write w)) as Hpub
         by (by eapply (found_published (with_idem s i)));
       apply complete_then; [done..|]; intros i' Hi'; by eapply published_responded]); [|done].
  intros Hnone. cbn. split_and!; [done..|]. by eapply (not_published (with_idem s i)).
Qed.

Lemma abort_then {B} attempt (f : unit → flow B) P s :
  flow_inv s → (∀ i, receipts_inv (fs_log s) i → keeps flow_serve flow_inv (f tt) (if_ok P) (with_idem s i)) →
  keeps flow_serve flow_inv (abort_idempotent_write attempt ≫= f) (if_ok P) s.
Proof.
  intros HI Hf. destruct attempt as [a|]; cbn [abort_idempotent_write].
  - eapply rule_idem; [done|by apply abort_loop_keeps|]. intros [] i Hi _. by apply Hf.
  - cbn. rewrite <- (with_own_idem s). by apply Hf.
Qed.

Lemma rule_idem_end {A} (m : idem A) P P' s :
  flow_inv s → keeps idem_serve (receipts_inv (fs_log s)) m (if_ok P) (fs_idem s) →
  (∀ a i, P a i → P' a (with_idem s i)) → keeps flow_serve flow_inv (in_idem m) (if_ok P') s.
Proof.
  intros HI Hm HP. unfold in_idem. apply keeps_bind. eapply keeps_lift; [exact Hm|].
  intros [a|e| |] i Ha; cbn in *; auto.
Qed.

(** One idempotent write. *)
Record write_call := mkWriteCall {
  wc_scope : string;
  wc_client_key : option string;
  wc_fingerprint : string;
  wc_project : string;
  wc_repo : string;
  wc_bookmark : string;
  wc_base_ref : RefSpec;
  wc_writes : list SchemaWrite;
  wc_author : string;
  wc_message : string;
  wc_attributes : gmap string string;
  wc_deadline : bool;
}.

Definition run_write (c : write_call) : flow MutationResponse :=
  commit_idempotent_schema_changes_with_attributes_and_deadline co (wc_scope c) (wc_client_key c)
    (wc_fingerprint c) (wc_project c) (wc_repo c) (wc_bookmark c) (wc_base_ref c) (wc_writes c)
    (wc_author c) (wc_message c) (wc_attributes c) (wc_deadline c).

(** The request goes where its fingerprint says, and does not forge the
    attributes of receipts. *)
Definition well_targeted (c : write_call) : Prop :=
  target (wc_fingerprint c) = (wc_project c, wc_repo c, wc_bookmark c) ∧
  wc_attributes c !! ATTEMPT_ATTRIBUTE = None.

Definition publication_of (c : write_call) (attempt : option IdempotencyAttempt) (w : WriteResult) : publication :=
  mkPublication (wc_project c) (wc_repo c) (wc_bookmark c) (with_attempt (wc_attributes c) attempt) w.

Lemma publication_attempt c a w :
  attempt_attr (publication_of c (Some a) w) = Some (ia_attempt_id a) ∧
  pub_attributes (publication_of c (Some a) w) !! RECORD_ATTRIBUTE = Some (ia_record_key a).
Proof.
  unfold attempt_attr. cbn [publication_of pub_attributes with_attempt].
  split; apply lookup_union_Some_l; by vm_compute.
Qed.

Lemma publish_keeps c attempt w s :
  flow_inv s → well_targeted c → begun (wc_fingerprint c) (Proceed attempt) s →
  flow_inv (publish s (publication_of c attempt w)) ∧
  ∀ a, attempt = Some a →
    published_response (fs_log s ++ [publication_of c attempt w]) a (response_from_write w).
Proof.
  intros HI [Ht Hattr] Hb. destruct attempt as [a|]; (split; [|intros a' Ha; simplify_eq]).
  - destruct Hb as ((r & Hs & <-) & Hf & Hnone). destruct (publication_attempt c (attempt_of r) w) as [Ha Hk].
    cbn [ia_fingerprint ia_attempt_id attempt_of ia_record_key] in *.
    eapply receipts_inv_publish; [exact HI|exact Hs|done..| |done]. by rewrite Hf, Ht.
  - destruct (publication_attempt c a' w) as [Ha _].
    exists (publication_of c (Some a') w). split_and!; [|done..].
    apply elem_of_app. right. by apply list_elem_of_singleton.
  - by apply receipts_inv_publish_plain.
Qed.

Lemma deadline_keeps {B} deadline (f : bool → flow B) P s :
  flow_inv s → (∀ b, keeps flow_serve flow_inv (f b) (if_ok P) s) →
  keeps flow_serve flow_inv (deadline_exceeded deadline ≫= f) (if_ok P) s.
Proof.
  intros HI Hf. destruct deadline; cbn; [|by apply Hf]. intros x s' ->. auto.
Qed.

Lemma run_write_keeps c s :
  flow_inv s → well_targeted c → keeps flow_serve flow_inv (run_write c) (if_ok succeeded) s.
Proof.
  intros HI Hc. unfold run_write, commit_idempotent_schema_changes_with_attributes_and_deadline.
  apply rule_core; [done|]. intros config. cbv zeta. apply keeps_step. eapply keeps_mono; [done| |].
  2:{ apply begin_keeps; [done|]. apply Hc. }
  intros [[response|attempt]|e| |] s1 HI1 Hb; try done. cbn [if_ok] in Hb.
  apply deadline_keeps; [done|]. intros [].
  { by apply abort_then. }
  intros x s2 Hx. cbn in Hx.
  destruct Hx as [(snapshot & ex & e & _ & -> & ->)|[(e & -> & ->)|(snapshot & ex & w & _ & -> & Hx)]].
  - split; [done|]. by apply abort_then.
  - done.
  - destruct (publish_keeps c attempt w s1 HI1 Hc Hb) as [HI2 Hpub]. split; [exact HI2|].
    destruct Hx as [-> |[e ->]]; [|done]. destruct attempt as [a|]; cbn [complete_idempotent_write].
    + eapply rule_idem_end; [exact HI2|apply complete_loop_keeps; [apply _|exact HI2|by apply Hpub]|].
      intros r i ->. eapply published_responded. by apply Hpub.
    + cbn. exists (publication_of c None w). split; [|done]. cbn.
      apply elem_of_app. right. by apply list_elem_of_singleton.
Qed.

(** A call of a write, a replay or a prune that ends, or stops anywhere. *)
Inductive idem_call :=
  | WriteCall (c : write_call)
  | ReplayCall (scope : string) (client_key : option string) (fingerprint project repo bookmark : string)
  | PruneCall.

Definition call_prog (c : idem_call) : flow unit :=
  match c with
  | WriteCall c => _ ← run_write c; mret tt
  | ReplayCall scope key f p r b => _ ← replay_idempotent_write co scope key f p r b; mret tt
  | PruneCall => _ ← prune_idempotency co; mret tt
  end.

Definition call_targeted (c : idem_call) : Prop :=
  match c with
  | WriteCall c => well_targeted c
  | ReplayCall _ _ f p r b => target f = (p, r, b)
  | PruneCall => True
  end.

Definition stopped_call (s s' : flow_state) : Prop :=
  ∃ c m, call_targeted c ∧ rtc (thread_step flow_serve) (s, call_prog c) (s', m).

Definition flow_empty : flow_state := mkFlowState (mkIdemState inner_default ∅) [].

Lemma flow_inv_empty : flow_inv flow_empty.
Proof.
  assert (∀ k r, ¬ stored inner_default k r) as Hn.
  { intros k r (b & Hb & _). unfold get_record in Hb. cbn in Hb. by rewrite lookup_empty in Hb. }
  split; cbn.
  - intros k bytes Hb. unfold get_record in Hb. cbn in Hb. by rewrite lookup_empty in Hb.
  - intros k k' r r' H. by apply Hn in H.
  - intros p a Hp. by apply not_elem_of_nil in Hp.
  - intros p k r Hp. by apply not_elem_of_nil in Hp.
  - intros k r response H. by apply Hn in H.
  - constructor.
Qed.

Lemma call_keeps c s : flow_inv s → call_targeted c → keeps flow_serve flow_inv (call_prog c) (if_ok (λ _ _, True)) s.
Proof.
  intros HI Hc. destruct c as [c|scope key f p r b|]; cbn [call_prog]; apply keeps_step.
  - eapply keeps_mono; [done| |by apply run_write_keeps]. by intros [].
  - eapply keeps_mono; [done| |by apply replay_keeps]. by intros [].
  - eapply keeps_mono; [done| |].
    2:{ eapply (rule_idem_end _ any (λ _ _, True)); [done|by apply prune_keeps|done]. }
    by intros [].
Qed.

Lemma stopped_calls_keep s : rtc stopped_call flow_empty s → flow_inv s.
Proof.
  intros H. pose proof flow_inv_empty as HI. revert HI.
  induction H as [|s1 s2 s3 (c & m & Hc & H) _ IH]; [done|]. intros HI. apply IH.
  by destruct (keeps_crash _ _ _ _ _ _ _ HI (call_keeps c s1 HI Hc) H).
Qed.

(** C9. Idempotent writes that run one after the other, each possibly stopped by
    a crash after any request, and retried or not: the jj log never has two
    operations of one attempt, and a write that succeeds returns the response
    of an operation of the log. A retry of a write that published and then
    crashed therefore finds its operation instead of publishing again. *)
Theorem writes_published_once (s s' : flow_state) (c : write_call) (response : MutationResponse) :
  rtc stopped_call flow_empty s →
  NoDup (omap attempt_attr (fs_log s)) ∧
  (well_targeted c → runs flow_serve (run_write c) s (Ok response) s' →
   ∃ p, p ∈ fs_log s' ∧ response_from_write (pub_write p) = response).
Proof.
  intros H%stopped_calls_keep. split; [by eapply ri_once|]. intros Hc Hrun.
  exact (keeps_runs _ _ _ _ _ _ _ (run_write_keeps c s H Hc) Hrun).
Qed.

End Write.

End Semantics.
