(* ===== verification/Writes.v ===== *)
(** * Writes: the write flows of the core

    [crates/schemahub-core/src/mutation/mod.rs], [single.rs], [transaction.rs],
    [lifecycle.rs], [refs.rs] and [gc.rs], with the requests of [request.rs] and
    the dependents query of [reference_integrity.rs]. Every flow authorizes the
    caller, looks for a receipt of the request, plans the write against one
    immutable base, checks policy and publishes through [Flow]. *)
From S2P Require Import Prelude RustStd SchemaTypes ChangeModel Prog ObjectDb AccessStore Repository Idempotency CoreTypes Integrity Access ChangeStore ChangeLedger Flow.
From Stdlib Require Import Strings.Byte.

Open Scope Z_scope.

(** ** Requests *)

Record CreateSchemaRequest := mkCreateSchemaRequest {
  cs_schema : SchemaPath;
  cs_bookmark : string;
  cs_format_id : string;
  cs_source : string;
  cs_author : string;
  cs_message : string;
  cs_idempotency_key : option string;
  cs_base_revision : option string;
  cs_token : option string;
}.

Record UpdateSchemaRequest := mkUpdateSchemaRequest {
  us_schema : SchemaPath;
  us_bookmark : string;
  us_source : string;
  us_author : string;
  us_message : string;
  us_force : bool;
  us_idempotency_key : option string;
  us_base_revision : option string;
  us_token : option string;
}.

Record DeleteSchemaRequest := mkDeleteSchemaRequest {
  dls_schema : SchemaPath;
  dls_bookmark : string;
  dls_author : string;
  dls_message : string;
  dls_force : bool;
  dls_idempotency_key : option string;
  dls_base_revision : option string;
  dls_token : option string;
}.

Record MutationRequest := mkMutationRequest {
  mq_bookmark : string;
  mq_mutation : Mutation;
  mq_author : string;
  mq_message : string;
  mq_force : bool;
  mq_idempotency_key : option string;
  mq_base_revision : option string;
  mq_token : option string;
}.

Record TransactionRequest := mkTransactionRequest {
  tq_bookmark : string;
  tq_mutations : list Mutation;
  tq_author : string;
  tq_message : string;
  tq_force : bool;
  tq_idempotency_key : option string;
  tq_base_revision : option string;
  tq_token : option string;
}.

Record TransactionLimits := mkTransactionLimits {
  max_ops : nat;
  max_schemas : nat;
}.

Definition transaction_limits_default : TransactionLimits := mkTransactionLimits 100 20.

(** ** Plans of transactions *)

Record TransactionPlan := mkTransactionPlan {
  tp_project : string;
  tp_repo : string;
  tp_format_id : string;
  tp_by_file : list (string * list Mutation);
}.

(** One step of the grouping loop. *)
Definition push_op (by_file : list (string * list Mutation)) (m : Mutation) : list (string * list Mutation) :=
  let name := sp_schema_name (mu_schema_path m) in
  match update_first (λ f, bool_decide (f.1 = name)) (λ f, (f.1, f.2 ++ [m])) by_file with
  | Some by_file => by_file
  | None => by_file ++ [(name, [m])]
  end.

(** [ops[0]] panics on an empty list. *)
Definition plan_build (ops : list Mutation) (limits : TransactionLimits) : outcome CoreError TransactionPlan :=
  match ops with
  | [] => Panic
  | first :: _ =>
    let project := sp_project (mu_schema_path first) in
    let repo := sp_repo (mu_schema_path first) in
    let format_id := mu_format_id first in
    _ ← fail_if (existsb (λ m, negb (bool_decide (mu_format_id m = format_id))) ops)
          (MixedTransaction "all transaction ops must share one format_id");
    _ ← fail_if (existsb (λ m, negb (bool_decide (sp_project (mu_schema_path m) = project))
                               || negb (bool_decide (sp_repo (mu_schema_path m) = repo))) ops)
          (MixedTransaction "all transaction ops must target one project/repo");
    let by_file := foldl push_op [] ops in
    _ ← fail_if (max_schemas limits <? length by_file)%nat
          (LimitExceeded ("transaction touches " +:+ fmt_Z (Z.of_nat (length by_file)) +:+
                          " schema files > max " +:+ fmt_Z (Z.of_nat (max_schemas limits))));
    Ok (mkTransactionPlan project repo format_id by_file)
  end.

(** ** Shared steps *)

(** [u8::from(bool)]. *)
Definition flag_byte (b : bool) : list byte := [if b then x01 else x00].

(** [base_revision.unwrap_or_default()]. *)
Definition opt_bytes (o : option string) : list byte := as_bytes (default ""%string o).

Section Writes.
Context {AN : AuthnProvider} {AZ : AuthzPolicy} {J : IdempotencyJson} {SH : Sha256} {HX : Hex} {RF : RustFmt}.
Context (co : Core).

(** A fingerprint over a list of fields. *)
Definition fingerprint_of (kind : string) (fields : list (list byte)) : string :=
  fingerprint_finish (foldl fingerprint_update (fingerprint_new kind) fields).

Definition write_action (force : bool) : Action := if force then Force else Write_.

Definition validate_base_revision (project repo : string) (base_revision : option string) : flow unit :=
  match base_revision with
  | Some commit => on_jj (JjValidateRevision project repo commit)
  | None => mret tt
  end.

Definition load_base (project repo schema_path : string) (base_ref : RefSpec) : flow SchemaObjects :=
  Call (OnJj (JjLoadSchema project repo schema_path base_ref)) (λ r,
    match r with
    | Ok objs => Ret (Ok objs)
    | Err (JjBookmarkNotFound _) | Err (JjSchemaNotFound _) | Err (JjTagNotFound _) =>
      Ret (Ok schema_objects_default)
    | Err e => Ret (Err (CoreJj e))
    | Panic => Ret Panic
    | Stuck => Ret Stuck
    end).

Definition immutable_bookmark_base (project repo bookmark : string) : flow RefSpec :=
  commit ← on_jj (JjResolveRefOrRoot project repo (RefBookmark bookmark));
  mret (RefCommit commit).

Definition registered (format_id : string) : outcome CoreError Compiler :=
  ok_or (c_registry co !! format_id) (UnknownFormat format_id).

(** ** Single mutations *)

Definition mutation_fingerprint (req : MutationRequest) : string :=
  let m := mq_mutation req in
  let path := mu_schema_path m in
  fingerprint_of "apply-mutation"
    [as_bytes (sp_project path); as_bytes (sp_repo path); as_bytes (mq_bookmark req);
     as_bytes (sp_schema_name path); as_bytes (mu_format_id m); mu_operation m;
     as_bytes (mq_author req); as_bytes (mq_message req); opt_bytes (mq_base_revision req);
     flag_byte (mq_force req)].

Definition apply_mutation (req : MutationRequest) : flow MutationResponse :=
  let path := mu_schema_path (mq_mutation req) in
  let project := sp_project path in
  let repo := sp_repo path in
  let schema_name := sp_schema_name path in
  _ ← in_core (authorize (mq_token req) (write_action (mq_force req)) project repo);
  let fingerprint := mutation_fingerprint req in
  let scope := "apply-mutation/" +:+ project +:+ "/" +:+ repo in
  replay ← replay_idempotent_write co scope (mq_idempotency_key req) fingerprint project repo (mq_bookmark req);
  match replay : option MutationResponse with
  | Some response => mret response
  | None =>
    _ ← validate_base_revision project repo (mq_base_revision req);
    compiler ← flow_step (registered (mu_format_id (mq_mutation req)));
    base_ref ← immutable_bookmark_base project repo (mq_bookmark req);
    base ← load_base project repo schema_name base_ref;
    effect ← flow_step (map_err CoreMutation (cp_apply_mutation compiler base (mq_mutation req)));
    _ ← in_core (ensure_direct_write_allowed (c_repo_configs co) project repo);
    config ← in_core (effective_repo_config (c_repo_configs co) project repo);
    _ ← flow_step (if negb (mq_force req) && is_protected (mq_bookmark req) (protected_bookmarks config)
                   then gate compiler (compat_rules config) base effect else Ok tt);
    commit_idempotent_schema_changes_with_attributes co scope (mq_idempotency_key req) fingerprint project
      repo (mq_bookmark req) base_ref [WritePatch schema_name effect] (mq_author req) (mq_message req)
      (force_audit_attributes (mq_force req))
  end.

(** ** Transactions *)

Definition ensure_before_deadline (deadline : bool) : flow unit :=
  exceeded ← deadline_exceeded deadline;
  flow_step (fail_if exceeded TransactionDeadlineExceeded).

Definition transaction_fingerprint (plan : TransactionPlan) (req : TransactionRequest) : string :=
  fingerprint_of "apply-transaction"
    ([as_bytes (tp_project plan); as_bytes (tp_repo plan); as_bytes (tq_bookmark req);
      as_bytes (tq_author req); as_bytes (tq_message req); opt_bytes (tq_base_revision req);
      flag_byte (tq_force req)] ++
     concat ((λ m, [as_bytes (sp_schema_name (mu_schema_path m)); as_bytes (mu_format_id m); mu_operation m])
             <$> tq_mutations req)).

(** The loop over the touched files. *)
Fixpoint plan_effects (plan : TransactionPlan) (compiler : Compiler) (config : RepoConfig) (base_ref : RefSpec)
    (protected deadline : bool) (files : list (string * list Mutation)) : flow (list SchemaWrite) :=
  match files with
  | [] => mret []
  | (schema_name, ops) :: files =>
    _ ← ensure_before_deadline deadline;
    base ← load_base (tp_project plan) (tp_repo plan) schema_name base_ref;
    effect ← flow_step (map_err CoreMutation (cp_apply_mutations compiler base ops));
    _ ← ensure_before_deadline deadline;
    _ ← flow_step (if protected then gate compiler (compat_rules config) base effect else Ok tt);
    rest ← plan_effects plan compiler config base_ref protected deadline files;
    mret (WritePatch schema_name effect :: rest)
  end.

Definition apply_mutations_with_limits_and_deadline (req : TransactionRequest) (limits : TransactionLimits)
    (deadline : bool) : flow MutationResponse :=
  _ ← flow_step (fail_if (bool_decide (tq_mutations req = [])) EmptyTransaction);
  _ ← flow_step (fail_if (max_ops limits <? length (tq_mutations req))%nat
        (LimitExceeded (fmt_Z (Z.of_nat (length (tq_mutations req))) +:+ " ops > max " +:+
                        fmt_Z (Z.of_nat (max_ops limits)))));
  plan ← flow_step (plan_build (tq_mutations req) limits);
  _ ← ensure_before_deadline deadline;
  let project := tp_project plan in
  let repo := tp_repo plan in
  _ ← in_core (authorize (tq_token req) (write_action (tq_force req)) project repo);
  _ ← ensure_before_deadline deadline;
  let fingerprint := transaction_fingerprint plan req in
  let scope := "apply-transaction/" +:+ project +:+ "/" +:+ repo in
  replay ← replay_idempotent_write co scope (tq_idempotency_key req) fingerprint project repo (tq_bookmark req);
  match replay : option MutationResponse with
  | Some response => mret response
  | None =>
    _ ← validate_base_revision project repo (tq_base_revision req);
    _ ← ensure_before_deadline deadline;
    compiler ← flow_step (registered (tp_format_id plan));
    base_ref ← immutable_bookmark_base project repo (tq_bookmark req);
    _ ← in_core (ensure_direct_write_allowed (c_repo_configs co) project repo);
    config ← in_core (effective_repo_config (c_repo_configs co) project repo);
    let protected := negb (tq_force req) && is_protected (tq_bookmark req) (protected_bookmarks config) in
    _ ← ensure_before_deadline deadline;
    writes ← plan_effects plan compiler config base_ref protected deadline (tp_by_file plan);
    _ ← ensure_before_deadline deadline;
    commit_idempotent_schema_changes_with_attributes_and_deadline co scope (tq_idempotency_key req)
      fingerprint project repo (tq_bookmark req) base_ref writes (tq_author req) (tq_message req)
      (force_audit_attributes (tq_force req)) deadline
  end.

Definition apply_mutations (req : TransactionRequest) : flow MutationResponse :=
  apply_mutations_with_limits_and_deadline req transaction_limits_default false.
Definition apply_mutations_with_deadline (req : TransactionRequest) : flow MutationResponse :=
  apply_mutations_with_limits_and_deadline req transaction_limits_default true.
Definition apply_mutations_with_limits (req : TransactionRequest) (limits : TransactionLimits) :
    flow MutationResponse :=
  apply_mutations_with_limits_and_deadline req limits false.

(** ** Whole schemas *)

Definition compiler_for_explicit_format (schema_name format_id : string) : outcome CoreError Compiler :=
  detected ← ok_or (detect_format_from_name schema_name) (UndetectableFormat schema_name);
  _ ← fail_if (str_is_empty format_id) (CoreInvalidArgument "schema format must be specified");
  _ ← fail_if (negb (bool_decide (detected = format_id)))
        (CoreInvalidArgument ("schema extension selects format " +:+ debug_str detected +:+ ", not " +:+
                              debug_str format_id));
  registered format_id.

(** The first declaration name that occurs again. *)
Fixpoint first_duplicate (seen : gset string) (decls : list (string * DeclBlob)) : option string :=
  match decls with
  | [] => None
  | (name, _) :: decls =>
    if bool_decide (name ∈ seen) then Some name else first_duplicate ({[ name ]} ∪ seen) decls
  end.

Definition replacement_effect (compiler : Compiler) (source : string) (base : SchemaObjects) :
    outcome CoreError MutationEffect :=
  parsed ← map_err CoreParse (cp_parse compiler source);
  match first_duplicate ∅ (ps_decls parsed) with
  | Some name => Err (CoreInvalidArgument ("parsed source contains duplicate declaration " +:+ debug_str name))
  | None =>
    let names : gset string := list_to_set (ps_decls parsed).*1 in
    let removes := List.filter (λ name, negb (bool_decide (name ∈ names))) (btree_iter (so_decls base)).*1 in
    Ok (mkMutationEffect (Some (ps_meta parsed)) (ps_decls parsed) removes)
  end.

Definition lifecycle_contract (kind : string) (schema : SchemaPath) (bookmark : string)
    (base_revision format_id source : option string) (force : bool) (author message : string) :
    string * string :=
  (kind +:+ "/" +:+ sp_project schema +:+ "/" +:+ sp_repo schema,
   fingerprint_of kind
     [as_bytes (sp_project schema); as_bytes (sp_repo schema); as_bytes bookmark;
      as_bytes (sp_schema_name schema); opt_bytes base_revision; opt_bytes format_id; opt_bytes source;
      as_bytes author; as_bytes message; flag_byte force]).

Definition create_schema (req : CreateSchemaRequest) : flow MutationResponse :=
  let path := cs_schema req in
  let project := sp_project path in
  let repo := sp_repo path in
  _ ← in_core (authorize (cs_token req) Write_ project repo);
  let '(scope, fingerprint) :=
    lifecycle_contract "create-schema" path (cs_bookmark req) (cs_base_revision req)
      (Some (cs_format_id req)) (Some (cs_source req)) false (cs_author req) (cs_message req) in
  replay ← replay_idempotent_write co scope (cs_idempotency_key req) fingerprint project repo (cs_bookmark req);
  match replay : option MutationResponse with
  | Some response => mret response
  | None =>
    _ ← validate_base_revision project repo (cs_base_revision req);
    _ ← in_core (ensure_direct_write_allowed (c_repo_configs co) project repo);
    compiler ← flow_step (compiler_for_explicit_format (sp_schema_name path) (cs_format_id req));
    base_ref ← immutable_bookmark_base project repo (cs_bookmark req);
    _ ← Call (OnJj (JjLoadSchema project repo (sp_schema_name path) base_ref)) (λ r,
          match r with
          | Ok _ => Ret (Err (CoreAlreadyExists ("schema " +:+ fmt_schema_path path +:+
                      " already exists on bookmark " +:+ debug_str (cs_bookmark req))))
          | Err (JjSchemaNotFound _) => Ret (Ok tt)
          | Err error => Ret (Err (CoreJj error))
          | Panic => Ret Panic
          | Stuck => Ret Stuck
          end);
    effect ← flow_step (replacement_effect compiler (cs_source req) schema_objects_default);
    commit_idempotent_schema_changes_with_attributes co scope (cs_idempotency_key req) fingerprint project
      repo (cs_bookmark req) base_ref [WritePatch (sp_schema_name path) effect] (cs_author req)
      (cs_message req) (force_audit_attributes false)
  end.

Definition update_schema (req : UpdateSchemaRequest) : flow MutationResponse :=
  let path := us_schema req in
  let project := sp_project path in
  let repo := sp_repo path in
  _ ← in_core (authorize (us_token req) (write_action (us_force req)) project repo);
  let '(scope, fingerprint) :=
    lifecycle_contract "update-schema" path (us_bookmark req) (us_base_revision req) None
      (Some (us_source req)) (us_force req) (us_author req) (us_message req) in
  replay ← replay_idempotent_write co scope (us_idempotency_key req) fingerprint project repo (us_bookmark req);
  match replay : option MutationResponse with
  | Some response => mret response
  | None =>
    _ ← validate_base_revision project repo (us_base_revision req);
    _ ← in_core (ensure_direct_write_allowed (c_repo_configs co) project repo);
    compiler ← flow_step (compiler_for (c_registry co) (sp_schema_name path));
    base_ref ← immutable_bookmark_base project repo (us_bookmark req);
    base ← on_jj (JjLoadSchema project repo (sp_schema_name path) base_ref);
    effect ← flow_step (replacement_effect compiler (us_source req) base);
    config ← in_core (effective_repo_config (c_repo_configs co) project repo);
    _ ← flow_step (if negb (us_force req) && is_protected (us_bookmark req) (protected_bookmarks config)
                   then gate compiler (compat_rules config) base effect else Ok tt);
    commit_idempotent_schema_changes_with_attributes co scope (us_idempotency_key req) fingerprint project
      repo (us_bookmark req) base_ref [WritePatch (sp_schema_name path) effect] (us_author req)
      (us_message req) (force_audit_attributes (us_force req))
  end.

(** The inner loop of [live_unpinned_dependents]. *)
Fixpoint imports_schema (importing target : SchemaPath) (resolution : gset string) (imports : list Import) :
    outcome CoreError bool :=
  match imports with
  | [] => Ok false
  | import :: imports =>
    if str_is_empty (im_resolved_commit import) then
      dependency ← normalize_import_path importing (im_path import) resolution;
      if bool_decide (dependency = target) then Ok true
      else imports_schema importing target resolution imports
    else imports_schema importing target resolution imports
  end.

(** The outer loop. *)
Fixpoint dependents_among (target : SchemaPath) (at_ref : RefSpec) (overrides : gmap string (option SchemaObjects))
    (conflicts : list string) (resolution : gset string) (schema_names : list string) : flow (list string) :=
  match schema_names with
  | [] => mret []
  | schema_name :: schema_names =>
    let rest := dependents_among target at_ref overrides conflicts resolution schema_names in
    let project := sp_project target in
    let repo := sp_repo target in
    let with_schema (schema : SchemaObjects) :=
      compiler ← flow_step (compiler_for (c_registry co) schema_name);
      imports ← flow_step (map_err CoreRead (cp_imports compiler schema));
      found ← flow_step (imports_schema (mkSchemaPath project repo schema_name) target resolution imports);
      dependents ← rest;
      mret (if found : bool then schema_name :: dependents else dependents) in
    if bool_decide (schema_name = sp_schema_name target) then rest else
    match overrides !! schema_name with
    | Some (Some schema) => with_schema schema
    | Some None => rest
    | None =>
      _ ← flow_step (fail_if (bool_decide ((schema_name +:+ "/__meta__") ∈ conflicts))
            (CoreFailedPrecondition ("cannot prove reference integrity while " +:+ schema_name +:+
                                     " has conflicted metadata")));
      schema ← on_jj (JjLoadSchema project repo schema_name at_ref);
      with_schema schema
    end
  end.

Definition live_unpinned_dependents (target : SchemaPath) (at_ref : RefSpec)
    (overrides : gmap string (option SchemaObjects)) : flow (list string) :=
  conflicts ← on_jj (JjListConflictedDeclarations (sp_project target) (sp_repo target) at_ref);
  listed ← on_jj (JjListSchemas (sp_project target) (sp_repo target) at_ref);
  let schema_names : gset string := list_to_set listed ∪ dom overrides in
  dependents_among target at_ref overrides conflicts schema_names (btree_set_iter schema_names).

Definition ensure_no_live_dependents (target : SchemaPath) (at_ref : RefSpec) : flow unit :=
  dependents ← live_unpinned_dependents target at_ref ∅;
  flow_step (fail_if (negb (bool_decide (dependents = [])))
    (CoreFailedPrecondition ("schema " +:+ fmt_schema_path target +:+ " has live unpinned dependents: " +:+
       join ", " (sort_strings dependents) +:+ "; update or remove those imports before deleting it"))).

Definition delete_schema (req : DeleteSchemaRequest) : flow MutationResponse :=
  let path := dls_schema req in
  let project := sp_project path in
  let repo := sp_repo path in
  _ ← in_core (authorize (dls_token req) (write_action (dls_force req)) project repo);
  let '(scope, fingerprint) :=
    lifecycle_contract "delete-schema" path (dls_bookmark req) (dls_base_revision req) None None
      (dls_force req) (dls_author req) (dls_message req) in
  replay ← replay_idempotent_write co scope (dls_idempotency_key req) fingerprint project repo (dls_bookmark req);
  match replay : option MutationResponse with
  | Some response => mret response
  | None =>
    _ ← validate_base_revision project repo (dls_base_revision req);
    _ ← in_core (ensure_direct_write_allowed (c_repo_configs co) project repo);
    base_ref ← immutable_bookmark_base project repo (dls_bookmark req);
    _ ← on_jj (JjLoadSchema project repo (sp_schema_name path) base_ref);
    _ ← flow_step (compiler_for (c_registry co) (sp_schema_name path));
    _ ← ensure_no_live_dependents path base_ref;
    config ← in_core (effective_repo_config (c_repo_configs co) project repo);
    _ ← flow_step (fail_if (negb (dls_force req) && negb (cr_disabled (compat_rules config))
                            && is_protected (dls_bookmark req) (protected_bookmarks config))
          (Incompatible [mkCompatibilityViolation (sp_schema_name path) None
             "deleting an entire schema is blocked on a protected bookmark"]));
    commit_idempotent_schema_changes_with_attributes co scope (dls_idempotency_key req) fingerprint project
      repo (dls_bookmark req) base_ref [WriteDelete (sp_schema_name path)] (dls_author req)
      (dls_message req) (force_audit_attributes (dls_force req))
  end.

(** ** Bookmarks, tags and merges *)

Definition published {A} (r : outcome (PublicationError CoreError) A) : outcome CoreError A :=
  match r with
  | Ok a => Ok a
  | Err (PubJj error) => Err (CoreJj error)
  | Err (PubRejected error) => Err error
  | Panic => Panic
  | Stuck => Stuck
  end.

Definition create_bookmark (project repo name : string) (from : RefSpec) (author : string)
    (token : option string) : flow string :=
  _ ← in_core (authorize token Write_ project repo);
  config ← in_core (effective_repo_config (c_repo_configs co) project repo);
  let protected := is_protected name (protected_bookmarks config) in
  Call (OnJj (JjCreateBookmark project repo name from author
                (publication_check co project repo name protected false)))
    (λ r, Ret (published r)).

Definition move_bookmark (project repo name : string) (to : RefSpec) (author : string)
    (token : option string) : flow string :=
  _ ← in_core (authorize token Write_ project repo);
  config ← in_core (effective_repo_config (c_repo_configs co) project repo);
  let protected := is_protected name (protected_bookmarks config) in
  Call (OnJj (JjMoveBookmark project repo name to author
                (publication_check co project repo name protected false)))
    (λ r, Ret (published r)).

Definition delete_bookmark (project repo name author : string) (token : option string) : flow unit :=
  _ ← in_core (authorize token ManageRepo project repo);
  _ ← in_core (effective_repo_config (c_repo_configs co) project repo);
  on_jj (JjDeleteBookmark project repo name author).

Definition list_bookmarks (project repo : string) (token : option string) :
    flow (list (string * list string)) :=
  _ ← in_core (authorize token Read project repo);
  try_call CoreJj (OnCore (JjListBookmarks project repo)).

Definition create_tag (project repo name : string) (at_ref : RefSpec) (author : string)
    (token : option string) : flow string :=
  _ ← in_core (authorize token Write_ project repo);
  _ ← in_core (effective_repo_config (c_repo_configs co) project repo);
  on_jj (JjCreateTag project repo name at_ref author).

Definition delete_tag (project repo name author : string) (token : option string) : flow unit :=
  _ ← in_core (authorize token Force project repo);
  _ ← in_core (effective_repo_config (c_repo_configs co) project repo);
  on_jj (JjDeleteTag project repo name author).

Definition list_tags (project repo : string) (token : option string) : flow (list (string * string)) :=
  _ ← in_core (authorize token Read project repo);
  try_call CoreJj (OnCore (JjListTags project repo)).

Definition merge_message (src dst : string) (message : option string) : string :=
  match message with
  | Some m => if str_is_empty m then "merge " +:+ src +:+ " into " +:+ dst else m
  | None => "merge " +:+ src +:+ " into " +:+ dst
  end.

Definition merge_fingerprint (project repo src dst : string) (base_revision : option string)
    (message author : string) : string :=
  fingerprint_of "merge"
    [as_bytes project; as_bytes repo; as_bytes src; as_bytes dst; opt_bytes base_revision;
     as_bytes message; as_bytes author].

Definition merge_idempotent (project repo src dst : string) (base_revision idempotency_key message : option string)
    (author : string) (token : option string) : flow MutationResponse :=
  _ ← in_core (authorize token Write_ project repo);
  let message := merge_message src dst message in
  let fingerprint := merge_fingerprint project repo src dst base_revision message author in
  let scope := "merge/" +:+ project +:+ "/" +:+ repo in
  replay ← replay_idempotent_write co scope idempotency_key fingerprint project repo dst;
  match replay : option MutationResponse with
  | Some response => mret response
  | None =>
    _ ← validate_base_revision project repo base_revision;
    _ ← in_core (ensure_direct_write_allowed (c_repo_configs co) project repo);
    config ← in_core (effective_repo_config (c_repo_configs co) project repo);
    let protected := is_protected dst (protected_bookmarks config) in
    begun ← begin_idempotent_write co scope idempotency_key fingerprint project repo dst;
    match begun with
    | Replay response => mret response
    | Proceed attempt =>
      Call (OnJj (JjMerge project repo src dst author message (with_attempt ∅ attempt)
                    (publication_check co project repo dst protected false)))
        (λ r,
           match r with
           | Ok write => complete_idempotent_write co attempt (response_from_write write)
           | Err (PubJj error) => flow_step (Err (CoreJj error))
           | Err (PubRejected error) =>
             _ ← abort_idempotent_write attempt;
             flow_step (Err error)
           | Panic => Ret Panic
           | Stuck => Ret Stuck
           end)
    end
  end.

Definition merge (project repo src dst : string) (base_revision : option string) (author : string)
    (token : option string) : flow MutationResponse :=
  merge_idempotent project repo src dst base_revision None None author token.

(** ** Administration *)

Fixpoint authorize_each (repos : list (string * string)) (token : option string) : flow unit :=
  match repos with
  | [] => mret tt
  | (project, repo) :: repos =>
    _ ← in_core (authorize token ManageRepo project repo);
    authorize_each repos token
  end.

Definition gc (repos : list (string * string)) (token : option string) : flow nat :=
  _ ← flow_step (fail_if (bool_decide (repos = []))
        (CoreInvalidArgument "GC requires at least one authorized repository scope"));
  _ ← authorize_each repos token;
  on_jj (JjGc repos).

Definition rebuild_index (project repo : string) (token : option string) : flow unit :=
  _ ← in_core (authorize token ManageRepo project repo);
  mret tt.

End Writes.
