(* ===== verification/Queries.v ===== *)
(** * Queries: reading schemas

    The read operations of the core: [resolve_read_commit] of
    [crates/schemahub-core/src/serving.rs], [exploration.rs] and the transitive
    closure of [mutation/closure.rs] with its callers in [codegen.rs]. Every
    operation is a program of requests to the stores of the core and to the jj
    layer; a read resolves its ref once and then reads at the commit. *)
From S2P Require Import Prelude RustStd SchemaTypes Prog ObjectDb AccessStore Repository Idempotency CoreTypes Integrity Access Flow.
From Stdlib Require Import Strings.Byte Ascii.

Open Scope Z_scope.

(** ** Requests *)

(** [OpRecord]. *)
Record OpRecord := mkOpRecord {
  op_id : string;
  op_parents : list string;
  op_description : string;
  op_author : string;
  op_timestamp : string;
  op_attributes : gmap string string;
}.

(** [CommitRecord] of the jj layer and [LogEntry] of the core have the same
    fields. *)
Record LogEntry := mkLogEntry {
  le_commit_id : string;
  le_change_id : string;
  le_parents : list string;
  le_author : string;
  le_message : string;
  le_timestamp : string;
}.

(** Requests to the jj layer that the write flows do not make. *)
Inductive jj_query : Type → Type :=
  | JjResolveRefId (project repo : string) (at_ref : RefSpec) : jj_query (outcome JjError string)
  | JjListDeclarations (project repo schema : string) (at_ref : RefSpec) :
    jj_query (outcome JjError (list string))
  | JjGetDeclaration (project repo schema decl : string) (at_ref : RefSpec) :
    jj_query (outcome JjError DeclBlob)
  | JjReadConflict (project repo schema decl : string) (at_ref : RefSpec) :
    jj_query (outcome JjError ConflictSides)
  | JjListOperations (project repo : string) : jj_query (outcome JjError (list OpRecord))
  | JjListOperationsTail (project repo : string) (limit : Z) : jj_query (outcome JjError (list OpRecord))
  | JjCommitLog (project repo : string) (at_ref : RefSpec) (limit : Z) :
    jj_query (outcome JjError (list LogEntry))
  | JjCommitTouchesSchema (project repo commit schema : string) : jj_query (outcome JjError bool)
  | JjListRepositoryKeys : jj_query (outcome JjError (list (string * string)))
  | JjResolveConflict (project repo bookmark schema decl : string) (resolved : DeclBlob)
      (author message : string) : jj_query (outcome JjError WriteResult)
  | JjUndo (project repo author : string)
      (validate : string → PublicationSnapshot → outcome CoreError unit) :
    jj_query (outcome (PublicationError CoreError) string).

(** What a query may ask: the stores of the core, the two kinds of jj requests,
    and the records of the artifact store. *)
Inductive query_req : Type → Type :=
  | QCore {X : Type} (q : core_req X) : query_req X
  | QJj {X : Type} (q : jj_req X) : query_req X
  | QQuery {X : Type} (q : jj_query X) : query_req X
  | QRecords {X : Type} (q : db_req X) : query_req X.

Abbreviation query := (action query_req CoreError).

Definition by_core {A} (m : core A) : query A := prog_lift (@QCore) m.
Definition by_jj {A} (q : jj_req (outcome JjError A)) : query A := try_call CoreJj (QJj q).
Definition by_query {A} (q : jj_query (outcome JjError A)) : query A := try_call CoreJj (QQuery q).
Definition query_step {A} (r : outcome CoreError A) : query A := pure_step r.
Definition query_read {A} (r : outcome ReadError A) : query A := pure_step (map_err CoreRead r).

(** The result of a step as a value: [match step { Ok(..) => .., Err(..) => .. }]. *)
Definition observing {A} (m : query A) : query (outcome CoreError A) :=
  prog_bind m (λ r,
    match r with
    | Ok a => Ret (Ok (Ok a))
    | Err e => Ret (Ok (Err e))
    | Panic => Ret Panic
    | Stuck => Ret Stuck
    end).

(** A loop that collects results and stops at the first failure. *)
Fixpoint collect {A B} (f : A → query B) (l : list A) : query (list B) :=
  match l with
  | [] => mret []
  | x :: l => y ← f x; rest ← collect f l; mret (y :: rest)
  end.

(** [load_schema] where "not found" is an answer. *)
Definition find_schema (project repo schema : string) (at_ref : RefSpec) : query (option SchemaObjects) :=
  Call (QJj (JjLoadSchema project repo schema at_ref)) (λ r,
    match r with
    | Ok objects => Ret (Ok (Some objects))
    | Err (JjSchemaNotFound _) => Ret (Ok None)
    | Err e => Ret (Err (CoreJj e))
    | Panic => Ret Panic
    | Stuck => Ret Stuck
    end).

(** [validate_segment] of [serving.rs]. *)
Definition serving_validate_segment (label value : string) : outcome CoreError unit :=
  fail_if (str_is_empty value || contains_char "/" value || has_control value)
    (CoreInvalidArgument
       (label +:+ " must be a non-empty resource path segment without control characters")).

(** [str::to_lowercase], which depends on Unicode tables. *)
Class Lowercase := to_lowercase : string → string.

(** ** Results *)

Record SearchHit := mkSearchHit {
  sh_schema_name : string;
  sh_decl_name : string;
}.

Record DeclLocation := mkDeclLocation {
  dl_schema_name : string;
  dl_summary : DeclSummary;
}.

Record FollowedType := mkFollowedType {
  ft_source_commit : string;
  ft_target_schema : SchemaPath;
  ft_target_commit : string;
  ft_summary : DeclSummary;
  ft_detail : DeclDetail;
  ft_pinned : bool;
  ft_import_path : string;
}.

Record SchemaDependency := mkSchemaDependency {
  sdp_importing_schema : SchemaPath;
  sdp_importing_commit : string;
  sdp_imported_schema : SchemaPath;
  sdp_target_commit : string;
  sdp_resolved : bool;
  sdp_import : Import;
}.

Record DependencyScanSnapshot := mkScanSnapshot {
  dss_project : string;
  dss_repo : string;
  dss_bookmark : string;
  dss_commit_id : string;
}.

Record SchemaDependent := mkSchemaDependent {
  sdt_importing_schema : SchemaPath;
  sdt_importing_bookmark : string;
  sdt_importing_commit : string;
  sdt_import : Import;
}.

Record DependentsScan := mkDependentsScan {
  dsc_dependents : list SchemaDependent;
  dsc_snapshots : list DependencyScanSnapshot;
  dsc_schemas_scanned : Z;
}.

#[export] Instance Import_eq_dec : EqDecision Import.
Proof. solve_decision. Defined.
#[export] Instance SchemaDependent_eq_dec : EqDecision SchemaDependent.
Proof. solve_decision. Defined.

Definition MAX_DEPENDENCY_SCAN_REPOSITORIES : Z := 1000.
Definition MAX_DEPENDENCY_SCAN_SCHEMAS : Z := 10000.

(** ** Names of declarations *)

Section Names.
Context {RF : RustFmt}.

(** The names that a requested type name may stand for. *)
Definition names_candidate (requested short openapi_schema name : string) : bool :=
  bool_decide (name = requested) || bool_decide (name = short) || bool_decide (name = openapi_schema)
  || bool_decide (rsplit_next "." name = short).

Definition select_declaration_name (names : list string) (requested : string) :
    outcome CoreError (option string) :=
  if existsb (λ name, bool_decide (name = requested)) names then Ok (Some requested) else
  let requested := trim_start_char "." requested in
  let short := rsplit_next "." requested in
  let candidates :=
    vec_dedup (sort_strings (List.filter (names_candidate requested short ("schema:" +:+ requested)) names)) in
  match candidates with
  | [] => Ok None
  | [name] => Ok (Some name)
  | _ => precondition ("type name " +:+ debug_str requested +:+ " matches multiple declarations: " +:+
                       join ", " candidates)
  end.

Definition declaration_names_equivalent (left right : string) : bool :=
  bool_decide (left = right) ||
  (let left := trim_start_char "." left in
   let right := trim_start_char "." right in
   bool_decide (rsplit_next "." left = rsplit_next "." right)
   || bool_decide (strip_prefix "schema:" left = Some right)
   || bool_decide (strip_prefix "schema:" right = Some left)).

(** The failures that leave a dependency unresolved instead of failing the call. *)
Definition dependency_target_is_unavailable (error : CoreError) : bool :=
  match error with
  | CoreAuthz (PermissionDenied _)
  | CoreJj (JjBookmarkNotFound _) | CoreJj (JjTagNotFound _) | CoreJj (JjSchemaNotFound _)
  | CoreJj JjObjectNotFound
  | CoreRepository (RepoFailedPrecondition _) => true
  | _ => false
  end.

End Names.

Section Queries.
Context {AN : AuthnProvider} {AZ : AuthzPolicy} {RF : RustFmt} {LC : Lowercase}.
Context (co : Core).

(** ** Resolving refs *)

Definition resolve_read_commit (project repo : string) (at_ref : RefSpec) (token : option string) :
    query string :=
  _ ← query_step (serving_validate_segment "project" project);
  _ ← query_step (serving_validate_segment "repo" repo);
  _ ← by_core (authorize token Read project repo);
  _ ← by_core (effective_repo_config (c_repo_configs co) project repo);
  by_query (JjResolveRefId project repo at_ref).

(** The commits at which live imports of other repositories are read; a
    repository is resolved once. *)
Abbreviation live_snapshots := (gmap (string * string) string).

Definition resolve_import_commit (importing_schema : SchemaPath) (importing_commit : string)
    (imported_schema : SchemaPath) (import : Import) (token : option string) (live : live_snapshots) :
    query (string * live_snapshots) :=
  let project := sp_project imported_schema in
  let repo := sp_repo imported_schema in
  if negb (str_is_empty (im_resolved_commit import)) then
    commit ← resolve_read_commit project repo (RefCommit (im_resolved_commit import)) token;
    mret (commit, live)
  else if bool_decide (sp_project importing_schema = project) && bool_decide (sp_repo importing_schema = repo)
  then mret (importing_commit, live)
  else
    match live !! (project, repo) with
    | Some commit => mret (commit, live)
    | None =>
      config ← by_core (effective_repo_config (c_repo_configs co) project repo);
      commit ← resolve_read_commit project repo (RefBookmark (default_bookmark config)) token;
      mret (commit, <[(project, repo) := commit]> live)
    end.

Definition query_compiler (schema_name : string) : query Compiler :=
  query_step (compiler_for (c_registry co) schema_name).

(** ** Schemas and declarations *)

Definition list_schemas_resolved (project repo : string) (at_ref : RefSpec) (token : option string) :
    query (list string * string) :=
  commit_id ← resolve_read_commit project repo at_ref token;
  schemas ← by_jj (JjListSchemas project repo (RefCommit commit_id));
  mret (schemas, commit_id).

Definition list_schemas (project repo : string) (at_ref : RefSpec) (token : option string) :
    query (list string) :=
  r ← list_schemas_resolved project repo at_ref token;
  mret r.1.

Definition get_blob (schema : SchemaPath) (at_ref : RefSpec) (name : string) : query DeclBlob :=
  by_query (JjGetDeclaration (sp_project schema) (sp_repo schema) (sp_schema_name schema) name at_ref).

Definition load_objects (schema : SchemaPath) (at_ref : RefSpec) : query SchemaObjects :=
  by_jj (JjLoadSchema (sp_project schema) (sp_repo schema) (sp_schema_name schema) at_ref).

Definition list_declarations_resolved (schema : SchemaPath) (at_ref : RefSpec) (token : option string) :
    query (list DeclSummary * string) :=
  commit_id ← resolve_read_commit (sp_project schema) (sp_repo schema) at_ref token;
  compiler ← query_compiler (sp_schema_name schema);
  names ← by_query (JjListDeclarations (sp_project schema) (sp_repo schema) (sp_schema_name schema)
                      (RefCommit commit_id));
  out ← collect (λ name,
          blob ← get_blob schema (RefCommit commit_id) name;
          query_read (cp_summarize_decl compiler blob)) names;
  mret (out, commit_id).

Definition list_declarations (schema : SchemaPath) (at_ref : RefSpec) (token : option string) :
    query (list DeclSummary) :=
  r ← list_declarations_resolved schema at_ref token;
  mret r.1.

Definition get_declaration_resolved (schema : SchemaPath) (at_ref : RefSpec) (name : string)
    (token : option string) : query (DeclSummary * DeclDetail * string) :=
  commit_id ← resolve_read_commit (sp_project schema) (sp_repo schema) at_ref token;
  compiler ← query_compiler (sp_schema_name schema);
  blob ← get_blob schema (RefCommit commit_id) name;
  summary ← query_read (cp_summarize_decl compiler blob);
  detail ← query_read (cp_decl_detail compiler blob);
  mret (summary, detail, commit_id).

Definition get_declaration (schema : SchemaPath) (at_ref : RefSpec) (name : string) (token : option string) :
    query DeclDetail :=
  r ← get_declaration_resolved schema at_ref name token;
  mret r.1.2.

Definition follow_type (schema : SchemaPath) (at_ref : RefSpec) (name : string) (token : option string) :
    query (list TypeRef * list Import) :=
  commit_id ← resolve_read_commit (sp_project schema) (sp_repo schema) at_ref token;
  compiler ← query_compiler (sp_schema_name schema);
  blob ← get_blob schema (RefCommit commit_id) name;
  refs ← query_read (cp_type_refs compiler blob);
  objects ← load_objects schema (RefCommit commit_id);
  imports ← query_read (cp_imports compiler objects);
  mret (refs, imports).

Definition get_schema_source_resolved (schema : SchemaPath) (at_ref : RefSpec) (token : option string) :
    query (string * string) :=
  commit_id ← resolve_read_commit (sp_project schema) (sp_repo schema) at_ref token;
  compiler ← query_compiler (sp_schema_name schema);
  objs ← load_objects schema (RefCommit commit_id);
  text ← query_step (map_err CorePrint (cp_print compiler objs));
  mret (commit_id, text).

Definition get_schema_source (schema : SchemaPath) (at_ref : RefSpec) (token : option string) : query string :=
  r ← get_schema_source_resolved schema at_ref token;
  mret r.2.

(** ** Search *)

Definition matching (needle : string) (names : list string) : list string :=
  List.filter (λ name, contains_str needle (to_lowercase name)) names.

Definition search (project repo : string) (at_ref : RefSpec) (text : string) (token : option string) :
    query (list SearchHit) :=
  commit_id ← resolve_read_commit project repo at_ref token;
  schemas ← by_jj (JjListSchemas project repo (RefCommit commit_id));
  hits ← collect (λ schema_name,
           names ← by_query (JjListDeclarations project repo schema_name (RefCommit commit_id));
           mret (mkSearchHit schema_name <$> matching (to_lowercase text) names)) schemas;
  mret (mjoin hits).

Definition search_detailed_resolved (project repo : string) (at_ref : RefSpec) (text : string)
    (token : option string) : query (list DeclLocation * string) :=
  commit_id ← resolve_read_commit project repo at_ref token;
  schemas ← by_jj (JjListSchemas project repo (RefCommit commit_id));
  hits ← collect (λ schema_name,
           compiler ← query_compiler schema_name;
           names ← by_query (JjListDeclarations project repo schema_name (RefCommit commit_id));
           collect (λ decl_name,
             blob ← get_blob (mkSchemaPath project repo schema_name) (RefCommit commit_id) decl_name;
             summary ← query_read (cp_summarize_decl compiler blob);
             mret (mkDeclLocation schema_name summary)) (matching (to_lowercase text) names)) schemas;
  mret (mjoin hits, commit_id).

Definition search_detailed (project repo : string) (at_ref : RefSpec) (text : string) (token : option string) :
    query (list DeclLocation) :=
  r ← search_detailed_resolved project repo at_ref text token;
  mret r.1.

End Queries.
