(* ===== verification/Dependencies.v ===== *)
(** * Dependencies: following imports

    The queries of [crates/schemahub-core/src/exploration.rs] that cross schemas
    ([follow_field_type], [list_dependencies_detailed], [list_dependents]), the
    transitive closure of [mutation/closure.rs] and the artifacts that
    [codegen.rs] makes of it. *)
From S2P Require Import Prelude RustStd SchemaTypes Prog ObjectDb AccessStore Repository Idempotency CoreTypes Integrity Access Flow Queries.
From Stdlib Require Import Strings.Byte Ascii.

Open Scope Z_scope.

Section Dependencies.
Context {AN : AuthnProvider} {AZ : AuthzPolicy} {RF : RustFmt}.
Context (co : Core).

(** The schemas of the importing snapshot, as a set. *)
Definition same_repo_schemas (schema : SchemaPath) (at_ref : RefSpec) : query (gset string) :=
  names ← by_jj (JjListSchemas (sp_project schema) (sp_repo schema) at_ref);
  mret (list_to_set names).

(** [objects.decls.keys()]. *)
Definition decl_names (objects : SchemaObjects) : list string := (btree_iter (so_decls objects)).*1.

(** [.expect(..)] on a declaration that was just selected. *)
Definition selected_blob (objects : SchemaObjects) (name : string) : query DeclBlob :=
  match so_decls objects !! name with Some blob => mret blob | None => Ret Panic end.

(** ** Following the type of a field *)

Record follow_state := mkFollowState {
  fo_matches : list FollowedType;
  fo_seen : gset (SchemaPath * string * string);
  fo_live : gmap (string * string) string;
}.

(** One round of the loop over the imports. *)
Definition follow_import (schema : SchemaPath) (source_commit : string) (type_name : string)
    (same_repo : gset string) (token : option string) (import : Import) (st : follow_state) :
    query follow_state :=
  if negb (str_is_empty (im_decl_name import))
     && negb (declaration_names_equivalent (im_decl_name import) type_name)
  then mret st
  else
    target_schema ← query_step (normalize_import_path schema (im_path import) same_repo);
    resolved ← resolve_import_commit co schema source_commit target_schema import token (fo_live st);
    let '(target_commit, live) := resolved in
    let st := mkFollowState (fo_matches st) (fo_seen st) live in
    found ← find_schema (sp_project target_schema) (sp_repo target_schema) (sp_schema_name target_schema)
              (RefCommit target_commit);
    match found with
    | None => mret st
    | Some target_objects =>
      let desired_name := if str_is_empty (im_decl_name import) then type_name else im_decl_name import in
      selected ← query_step (select_declaration_name (decl_names target_objects) desired_name);
      match selected with
      | None => mret st
      | Some target_name =>
        let key := (target_schema, target_commit, target_name) in
        if bool_decide (key ∈ fo_seen st) then mret st else
        target_blob ← selected_blob target_objects target_name;
        target_compiler ← query_compiler co (sp_schema_name target_schema);
        summary ← query_read (cp_summarize_decl target_compiler target_blob);
        detail ← query_read (cp_decl_detail target_compiler target_blob);
        mret (mkFollowState
                (fo_matches st ++
                 [mkFollowedType source_commit target_schema target_commit summary detail
                    (negb (str_is_empty (im_resolved_commit import))) (im_path import)])
                ({[ key ]} ∪ fo_seen st) live)
      end
    end.

Fixpoint follow_imports (schema : SchemaPath) (source_commit : string) (type_name : string)
    (same_repo : gset string) (token : option string) (imports : list Import) (st : follow_state) :
    query follow_state :=
  match imports with
  | [] => mret st
  | import :: imports =>
    st ← follow_import schema source_commit type_name same_repo token import st;
    follow_imports schema source_commit type_name same_repo token imports st
  end.

Definition follow_field_type (schema : SchemaPath) (at_ref : RefSpec) (declaration_name field_name : string)
    (token : option string) : query FollowedType :=
  _ ← query_step (fail_if (str_is_empty declaration_name || str_is_empty field_name)
        (CoreInvalidArgument "follow type requires declaration_name and field_name"));
  source_commit ← resolve_read_commit co (sp_project schema) (sp_repo schema) at_ref token;
  source_compiler ← query_compiler co (sp_schema_name schema);
  source_objects ← load_objects schema (RefCommit source_commit);
  source_blob ← query_step (ok_or (so_decls source_objects !! declaration_name)
                              (CoreJj (JjDeclNotFound declaration_name)));
  field ← query_read (cp_field_type_ref source_compiler source_blob field_name);
  type_ref ← query_step (ok_or field (CoreRead (NotATypeReference field_name)));
  let type_name := tr_name type_ref in
  local ← match tr_import type_ref with
          | Some _ => mret None
          | None => query_step (select_declaration_name (decl_names source_objects) type_name)
          end;
  match local with
  | Some target_name =>
    target_blob ← selected_blob source_objects target_name;
    summary ← query_read (cp_summarize_decl source_compiler target_blob);
    detail ← query_read (cp_decl_detail source_compiler target_blob);
    mret (mkFollowedType source_commit schema source_commit summary detail false "")
  | None =>
    imports ← match tr_import type_ref with
              | Some import => mret [import]
              | None => query_read (cp_imports source_compiler source_objects)
              end;
    same_repo ← same_repo_schemas schema (RefCommit source_commit);
    st ← follow_imports schema source_commit type_name same_repo token imports (mkFollowState [] ∅ ∅);
    let referenced := "type '" +:+ type_name +:+ "' referenced by '" +:+ declaration_name +:+ "." +:+
                      field_name +:+ "'" in
    match fo_matches st with
    | [] => query_step (Err (CoreRead (ReadNotFound referenced)))
    | [followed] => mret followed
    | many => query_step (precondition (referenced +:+ " is ambiguous across " +:+
                fmt_Z (Z.of_nat (length many)) +:+ " imported schemas"))
    end
  end.

(** ** Forward dependencies *)

Abbreviation edge_key :=
  (SchemaPath * string * (SchemaPath * string) * (string * string * string))%type.

Record deps_state := mkDepsState {
  dp_queue : list (SchemaPath * string);
  dp_seen : gset edge_key;
  dp_edges : list SchemaDependency;
  dp_live : gmap (string * string) string;
}.

(** [queue.pop_front()] with the [continue] on a snapshot that was visited. *)
Fixpoint next_unvisited (visited : gset (SchemaPath * string)) (queue : list (SchemaPath * string)) :
    option (SchemaPath * string * list (SchemaPath * string)) :=
  match queue with
  | [] => None
  | item :: queue => if bool_decide (item ∈ visited) then next_unvisited visited queue else Some (item, queue)
  end.

(** The target of one import: its commit and whether it has the schema. *)
Definition resolve_target (importing_schema : SchemaPath) (importing_commit : string)
    (imported_schema : SchemaPath) (import : Import) (token : option string)
    (live : gmap (string * string) string) : query (string * bool * gmap (string * string) string) :=
  resolution ← observing (resolve_import_commit co importing_schema importing_commit imported_schema import
                            token live);
  match resolution with
  | Ok (commit, live) =>
    found ← find_schema (sp_project imported_schema) (sp_repo imported_schema)
              (sp_schema_name imported_schema) (RefCommit commit);
    mret (commit, is_some found, live)
  | Err error =>
    if dependency_target_is_unavailable error then mret (""%string, false, live)
    else query_step (Err error)
  | Panic => Ret Panic
  | Stuck => Ret Stuck
  end.

(** One round of the loop over the imports of one schema. *)
Definition dependency_edge (importing_schema : SchemaPath) (importing_commit : string)
    (same_repo : gset string) (transitive : bool) (token : option string) (import : Import)
    (st : deps_state) : query deps_state :=
  imported_schema ← query_step (normalize_import_path importing_schema (im_path import) same_repo);
  target ← resolve_target importing_schema importing_commit imported_schema import token (dp_live st);
  let '(target_commit, resolved, live) := target in
  let key := (importing_schema, importing_commit, (imported_schema, target_commit),
              (im_path import, im_decl_name import, im_resolved_commit import)) in
  let queue := if transitive && resolved then dp_queue st ++ [(imported_schema, target_commit)]
               else dp_queue st in
  mret (if bool_decide (key ∈ dp_seen st) then mkDepsState queue (dp_seen st) (dp_edges st) live
        else mkDepsState queue ({[ key ]} ∪ dp_seen st)
               (dp_edges st ++ [mkSchemaDependency importing_schema importing_commit imported_schema
                                  target_commit resolved import]) live).

Fixpoint dependency_edges (importing_schema : SchemaPath) (importing_commit : string)
    (same_repo : gset string) (transitive : bool) (token : option string) (imports : list Import)
    (st : deps_state) : query deps_state :=
  match imports with
  | [] => mret st
  | import :: imports =>
    st ← dependency_edge importing_schema importing_commit same_repo transitive token import st;
    dependency_edges importing_schema importing_commit same_repo transitive token imports st
  end.

(** The loop; the fuel bounds the number of snapshots that are visited. *)
Fixpoint traverse (fuel : nat) (transitive : bool) (token : option string)
    (visited : gset (SchemaPath * string)) (st : deps_state) : query (list SchemaDependency) :=
  match next_unvisited visited (dp_queue st) with
  | None => mret (dp_edges st)
  | Some (importing_schema, importing_commit, queue) =>
    match fuel with
    | O => Ret Stuck
    | S fuel =>
      let visited := {[ (importing_schema, importing_commit) ]} ∪ visited in
      _ ← query_step (fail_if (MAX_DEPENDENCY_SCAN_SCHEMAS <? Z.of_nat (size visited))
            (CoreResourceExhausted ("forward-dependency traversal exceeds " +:+
               fmt_Z MAX_DEPENDENCY_SCAN_SCHEMAS +:+ " schema snapshots")));
      compiler ← query_compiler co (sp_schema_name importing_schema);
      objects ← load_objects importing_schema (RefCommit importing_commit);
      same_repo ← same_repo_schemas importing_schema (RefCommit importing_commit);
      imports ← query_read (cp_imports compiler objects);
      st ← dependency_edges importing_schema importing_commit same_repo transitive token imports
             (mkDepsState queue (dp_seen st) (dp_edges st) (dp_live st));
      if transitive then traverse fuel transitive token visited st else mret (dp_edges st)
    end
  end.

Definition list_dependencies_detailed (schema : SchemaPath) (at_ref : RefSpec) (transitive : bool)
    (token : option string) : query (list SchemaDependency * string) :=
  root_commit ← resolve_read_commit co (sp_project schema) (sp_repo schema) at_ref token;
  edges ← traverse (S (Z.to_nat MAX_DEPENDENCY_SCAN_SCHEMAS)) transitive token ∅
            (mkDepsState [(schema, root_commit)] ∅ [] ∅);
  mret (edges, root_commit).

Definition list_dependencies_resolved (schema : SchemaPath) (at_ref : RefSpec) (transitive : bool)
    (token : option string) : query (list Import * string) :=
  r ← list_dependencies_detailed schema at_ref transitive token;
  mret (sdp_import <$> r.1, r.2).

Definition list_dependencies (schema : SchemaPath) (at_ref : RefSpec) (transitive : bool)
    (token : option string) : query (list Import) :=
  r ← list_dependencies_detailed schema at_ref transitive token;
  mret (sdp_import <$> r.1).

(** ** Reverse dependencies *)

Record scan_state := mkScanState {
  sc_visible : Z;
  sc_scanned : Z;
  sc_snapshots : list DependencyScanSnapshot;
  sc_dependents : list SchemaDependent;
}.

(** The imports of one schema that point at the target. *)
Fixpoint dependents_of (target importing : SchemaPath) (bookmark commit : string) (same_repo : gset string)
    (imports : list Import) : outcome CoreError (list SchemaDependent) :=
  match imports with
  | [] => Ok []
  | import :: imports =>
    imported ← normalize_import_path importing (im_path import) same_repo;
    rest ← dependents_of target importing bookmark commit same_repo imports;
    Ok (if bool_decide (imported = target)
        then mkSchemaDependent importing bookmark commit import :: rest else rest)
  end.

(** The schemas of one repository. *)
Definition scan_schema (target : SchemaPath) (project repo bookmark commit : string) (same_repo : gset string)
    (schema_name : string) : query (list SchemaDependent) :=
  let importing := mkSchemaPath project repo schema_name in
  if bool_decide (importing = target) then mret [] else
  compiler ← query_compiler co schema_name;
  schema ← load_objects importing (RefCommit commit);
  imports ← query_read (cp_imports compiler schema);
  query_step (dependents_of target importing bookmark commit same_repo imports).

(** [authz.check] of which a denial only hides the repository. *)
Definition is_visible (identity : Identity) (project repo : string) : query bool :=
  checked ← observing (by_core (check_access identity Read (resource_repo project repo)));
  match checked with
  | Ok _ => mret true
  | Err (CoreAuthz (PermissionDenied _)) => mret false
  | Err e => query_step (Err e)
  | Panic => Ret Panic
  | Stuck => Ret Stuck
  end.

(** [resolve_ref_id] where a missing bookmark is an answer. *)
Definition resolve_bookmark (project repo bookmark : string) : query (option string) :=
  Call (QQuery (JjResolveRefId project repo (RefBookmark bookmark))) (λ r,
    match r with
    | Ok commit => Ret (Ok (Some commit))
    | Err (JjBookmarkNotFound _) => Ret (Ok None)
    | Err e => Ret (Err (CoreJj e))
    | Panic => Ret Panic
    | Stuck => Ret Stuck
    end).

(** One round of the loop over the repositories. *)
Definition scan_repository (target : SchemaPath) (identity : Identity) (project repo : string)
    (st : scan_state) : query scan_state :=
  visible ← is_visible identity project repo;
  if negb visible then mret st else
  record ← by_core (on_repository (RepoGet project repo));
  if match record with Some repository => rp_archived repository | None => false end then mret st else
  let visible := sc_visible st + 1 in
  let st := mkScanState visible (sc_scanned st) (sc_snapshots st) (sc_dependents st) in
  _ ← query_step (fail_if (MAX_DEPENDENCY_SCAN_REPOSITORIES <? visible)
        (CoreResourceExhausted ("reverse-dependency scan exceeds " +:+
           fmt_Z MAX_DEPENDENCY_SCAN_REPOSITORIES +:+ " visible repositories")));
  config ← by_core (effective_repo_config (c_repo_configs co) project repo);
  let bookmark := default_bookmark config in
  resolved ← resolve_bookmark project repo bookmark;
  match resolved with
  | None => mret st
  | Some commit_id =>
    schema_names ← by_jj (JjListSchemas project repo (RefCommit commit_id));
    scanned ← query_step (ok_or (checked_add_usize (sc_scanned st) (Z.of_nat (length schema_names)))
                (CoreResourceExhausted "reverse-dependency schema count overflowed"));
    _ ← query_step (fail_if (MAX_DEPENDENCY_SCAN_SCHEMAS <? scanned)
          (CoreResourceExhausted ("reverse-dependency scan exceeds " +:+
             fmt_Z MAX_DEPENDENCY_SCAN_SCHEMAS +:+ " schemas")));
    found ← collect (scan_schema target project repo bookmark commit_id (list_to_set schema_names))
              schema_names;
    mret (mkScanState visible scanned
            (sc_snapshots st ++ [mkScanSnapshot project repo bookmark commit_id])
            (sc_dependents st ++ mjoin found))
  end.

Fixpoint scan_repositories (target : SchemaPath) (identity : Identity) (repositories : list (string * string))
    (st : scan_state) : query scan_state :=
  match repositories with
  | [] => mret st
  | (project, repo) :: repositories =>
    st ← scan_repository target identity project repo st;
    scan_repositories target identity repositories st
  end.

(** The orders of the two results. *)
Definition dependent_le (x y : SchemaDependent) : Prop :=
  let key d := [sp_project (sdt_importing_schema d); sp_repo (sdt_importing_schema d);
                sp_schema_name (sdt_importing_schema d); im_decl_name (sdt_import d);
                im_resolved_commit (sdt_import d)] in
  lex_leb (key x) (key y) = true.

#[export] Instance dependent_le_dec : RelDecision dependent_le.
Proof. intros x y. unfold dependent_le. apply _. Defined.

Definition snapshot_le (x y : DependencyScanSnapshot) : Prop :=
  lex_leb [dss_project x; dss_repo x] [dss_project y; dss_repo y] = true.

#[export] Instance snapshot_le_dec : RelDecision snapshot_le.
Proof. intros x y. unfold snapshot_le. apply _. Defined.

Definition list_dependents (target : SchemaPath) (token : option string) : query DependentsScan :=
  _ ← query_step (fail_if (str_is_empty (sp_project target) || str_is_empty (sp_repo target)
                           || str_is_empty (sp_schema_name target))
        (CoreInvalidArgument "dependent discovery requires project, repo, and schema_path"));
  identity ← by_core (core_identify token);
  _ ← by_core (check_access identity Read (resource_repo (sp_project target) (sp_repo target)));
  repositories ← by_query JjListRepositoryKeys;
  st ← scan_repositories target identity repositories (mkScanState 0 0 [] []);
  mret (mkDependentsScan (vec_dedup (stable_sort dependent_le (sc_dependents st)))
          (stable_sort snapshot_le (sc_snapshots st)) (sc_scanned st)).

(** ** The closure of a schema *)

(** [queue.pop()] with the [continue] on a schema that the closure has at the
    same revision; another revision of it is an error. The head of the list is
    the top of the stack. *)
Fixpoint next_path (revisions : gmap SchemaPath string) (queue : list (SchemaPath * string)) :
    outcome CoreError (option (SchemaPath * string * list (SchemaPath * string))) :=
  match queue with
  | [] => Ok None
  | (path, requested_commit) :: queue =>
    match revisions !! path with
    | Some existing =>
      if bool_decide (existing = requested_commit) then next_path revisions queue
      else precondition ("schema closure requires two revisions of " +:+ fmt_schema_path path +:+ ": " +:+
                         existing +:+ " and " +:+ requested_commit)
    | None => Ok (Some (path, requested_commit, queue))
    end
  end.

(** The loop over the imports of one schema, which pushes their targets. *)
Fixpoint import_targets (path : SchemaPath) (commit : string) (same_repo : gset string)
    (token : option string) (imports : list Import) (live : gmap (string * string) string)
    (queue : list (SchemaPath * string)) :
    query (list (SchemaPath * string) * gmap (string * string) string) :=
  match imports with
  | [] => mret (queue, live)
  | import :: imports =>
    dependency ← query_step (normalize_import_path path (im_path import) same_repo);
    resolved ← resolve_import_commit co path commit dependency import token live;
    let '(dependency_commit, live) := resolved in
    import_targets path commit same_repo token imports live ((dependency, dependency_commit) :: queue)
  end.

Record closure_state := mkClosureState {
  cl_entries : gmap SchemaPath SchemaObjects;
  cl_revisions : gmap SchemaPath string;
  cl_live : gmap (string * string) string;
  cl_queue : list (SchemaPath * string);
}.

(** The body of the loop for a schema that the closure does not have. *)
Definition closure_visit (root : SchemaPath) (root_format : string) (token : option string)
    (path : SchemaPath) (requested_commit : string) (st : closure_state) : query closure_state :=
  commit ← resolve_read_commit co (sp_project path) (sp_repo path) (RefCommit requested_commit) token;
  compiler ← query_compiler co (sp_schema_name path);
  _ ← query_step (fail_if (negb (bool_decide (format_id compiler = root_format)))
        (CoreFailedPrecondition ("schema closure rooted at " +:+ sp_schema_name root +:+
           " cannot include different format " +:+ sp_schema_name path)));
  objects ← load_objects path (RefCommit commit);
  imports ← query_read (cp_imports compiler objects);
  same_repo ← same_repo_schemas path (RefCommit commit);
  pushed ← import_targets path commit same_repo token imports (cl_live st) (cl_queue st);
  let '(queue, live) := pushed in
  mret (mkClosureState (<[path := objects]> (cl_entries st)) (<[path := commit]> (cl_revisions st)) live
          queue).

(** The loop; the fuel bounds the number of schemas of the closure. *)
Fixpoint closure_loop (fuel : nat) (root : SchemaPath) (root_format : string) (token : option string)
    (st : closure_state) : query SchemaClosure :=
  next ← query_step (next_path (cl_revisions st) (cl_queue st));
  match next with
  | None => mret (mkSchemaClosure (Some root) (cl_entries st))
  | Some (path, requested_commit, queue) =>
    match fuel with
    | O => Ret Stuck
    | S fuel =>
      st ← closure_visit root root_format token path requested_commit
             (mkClosureState (cl_entries st) (cl_revisions st) (cl_live st) queue);
      closure_loop fuel root root_format token st
    end
  end.

Definition closure_build (fuel : nat) (root : SchemaPath) (root_commit : string) (token : option string) :
    query SchemaClosure :=
  compiler ← query_compiler co (sp_schema_name root);
  closure_loop fuel root (format_id compiler) token (mkClosureState ∅ ∅ ∅ [(root, root_commit)]).

(** ** Code generation *)

Context (fuel : nat).

Definition generate_descriptors_resolved (schema : SchemaPath) (at_ref : RefSpec) (token : option string) :
    query (list byte * string) :=
  commit_id ← resolve_read_commit co (sp_project schema) (sp_repo schema) at_ref token;
  compiler ← query_compiler co (sp_schema_name schema);
  closure ← closure_build fuel schema commit_id token;
  bytes ← query_step (map_err CoreDescriptor (cp_generate_descriptors compiler closure));
  mret (bytes, commit_id).

Definition generate_descriptors_at (schema : SchemaPath) (at_ref : RefSpec) (token : option string) :
    query (list byte) :=
  r ← generate_descriptors_resolved schema at_ref token;
  mret r.1.

Definition preview_codegen_resolved (schema : SchemaPath) (at_ref : RefSpec) (lang : Language)
    (options : CodegenOptions) (token : option string) : query (string * string) :=
  commit_id ← resolve_read_commit co (sp_project schema) (sp_repo schema) at_ref token;
  compiler ← query_compiler co (sp_schema_name schema);
  closure ← closure_build fuel schema commit_id token;
  content ← query_step (map_err CoreCodegen (cp_generate_code compiler closure lang options));
  mret (content, commit_id).

Definition preview_codegen_at (schema : SchemaPath) (at_ref : RefSpec) (lang : Language)
    (options : CodegenOptions) (token : option string) : query string :=
  r ← preview_codegen_resolved schema at_ref lang options token;
  mret r.1.

(** The convenience forms of [codegen.rs] on a bookmark. *)
Definition core_generate_descriptors (schema : SchemaPath) (bookmark : string) (token : option string) :
    query (list byte) :=
  generate_descriptors_at schema (RefBookmark bookmark) token.

Definition core_generate_code (schema : SchemaPath) (bookmark : string) (lang : Language)
    (options : CodegenOptions) (token : option string) : query string :=
  preview_codegen_at schema (RefBookmark bookmark) lang options token.

Definition preview_codegen (schema : SchemaPath) (bookmark : string) (lang : Language)
    (token : option string) : query string :=
  preview_codegen_at schema (RefBookmark bookmark) lang codegen_options_default token.

End Dependencies.
