(* ===== verification/History.v ===== *)
(** * History: logs, diffs, undo and conflicts

    [crates/schemahub-core/src/history.rs] (the operation log, undo, the commit
    log, diffs between two refs) and [conflict.rs] (listing, rendering and
    resolving conflicted declarations). *)
From S2P Require Import Prelude RustStd SchemaTypes Prog ObjectDb AccessStore Repository Idempotency CoreTypes Integrity Access Flow Queries.
From Stdlib Require Import Strings.Byte Ascii.

Open Scope Z_scope.

Definition DEFAULT_LOG_LIMIT : Z := 100.

(** [RepositoryDiff]. *)
Record RepositoryDiff := mkRepositoryDiff {
  rd_schema_diffs : list (string * list DeclChange);
  rd_base_commit : string;
  rd_head_commit : string;
}.

Definition opt_non_empty (o : option string) : option string :=
  match o with Some s => if str_is_empty s then None else Some s | None => None end.

(** The diff of one declaration that is in [old], in [new] or in both. *)
Definition diff_declaration (compiler : Compiler) (old new : gmap string DeclBlob) (name : string) :
    outcome CoreError (list DeclChange) :=
  match old !! name, new !! name with
  | Some o, Some n =>
    if bool_decide (o = n) then Ok []
    else change ← map_err CoreDiff (cp_diff_decl compiler o n); Ok [change]
  | None, Some _ => Ok [DeclarationAdded name]
  | Some _, None => Ok [DeclarationRemoved name]
  | None, None => Panic
  end.

Definition decls_of (objects : option SchemaObjects) : gmap string DeclBlob :=
  match objects with Some o => so_decls o | None => ∅ end.

(** The diff of one schema: the declarations of both sides in order of their
    names. *)
Definition diff_schema (compiler : Compiler) (old new : option SchemaObjects) :
    outcome CoreError (list DeclChange) :=
  changes ← mapM (diff_declaration compiler (decls_of old) (decls_of new))
              (btree_set_iter (dom (decls_of old) ∪ dom (decls_of new)));
  Ok (mjoin changes).

Section History.
Context {AN : AuthnProvider} {AZ : AuthzPolicy} {RF : RustFmt}.
Context (co : Core).

(** ** Logs *)

Definition op_log (project repo : string) (limit : option Z) (token : option string) : query (list OpRecord) :=
  _ ← by_core (authorize token Read project repo);
  match limit with
  | Some limit => by_query (JjListOperationsTail project repo limit)
  | None => by_query (JjListOperations project repo)
  end.

Definition log_resolved (project repo : string) (at_ref : option RefSpec) (limit : option Z)
    (token : option string) : query (list LogEntry * string) :=
  at_commit ← match at_ref with
              | Some at_ref => resolve_read_commit co project repo at_ref token
              | None =>
                bookmark ← by_core (repository_default_bookmark (c_repo_configs co) project repo Read token);
                resolve_read_commit co project repo (RefBookmark bookmark) token
              end;
  entries ← by_query (JjCommitLog project repo (RefCommit at_commit) (default DEFAULT_LOG_LIMIT limit));
  mret (entries, at_commit).

Definition log (project repo : string) (at_ref : option RefSpec) (limit : option Z) (token : option string) :
    query (list LogEntry) :=
  r ← log_resolved project repo at_ref limit token;
  mret r.1.

(** [entries.truncate(position)] at the stop commit. *)
Definition cut_at_stop (entries : list LogEntry) (overflow : bool) (max_scanned : Z) (at_commit stop : string) :
    outcome CoreError (list LogEntry) :=
  match position (λ entry, bool_decide (le_commit_id entry = stop)) entries with
  | Some i => Ok (take i entries)
  | None =>
    if overflow then Err (CoreResourceExhausted ("commit history range exceeds the " +:+ fmt_Z max_scanned +:+
                            "-commit scan bound before stop " +:+ stop))
    else precondition ("stop commit " +:+ stop +:+ " is not reachable from " +:+ at_commit +:+
                       " within the requested history range")
  end.

Fixpoint touching (project repo schema_name : string) (entries : list LogEntry) : query (list LogEntry) :=
  match entries with
  | [] => mret []
  | entry :: entries =>
    touches ← by_query (JjCommitTouchesSchema project repo (le_commit_id entry) schema_name);
    rest ← touching project repo schema_name entries;
    mret (if touches : bool then entry :: rest else rest)
  end.

Definition list_commits_resolved (project repo : string) (at_ref : option RefSpec)
    (stop_at_commit schema_name : option string) (max_scanned : Z) (token : option string) :
    query (list LogEntry * string) :=
  fetch_limit ← query_step (ok_or (checked_add_usize max_scanned 1)
                  (CoreInvalidArgument "commit history scan limit is too large"));
  logged ← log_resolved project repo at_ref (Some fetch_limit) token;
  let '(entries, at_commit) := logged in
  let overflow := max_scanned <? Z.of_nat (length entries) in
  entries ← match opt_non_empty stop_at_commit with
            | Some stop =>
              stop ← resolve_read_commit co project repo (RefCommit stop) token;
              query_step (cut_at_stop entries overflow max_scanned at_commit stop)
            | None =>
              _ ← query_step (fail_if overflow (CoreResourceExhausted
                    ("commit history exceeds the " +:+ fmt_Z max_scanned +:+ "-commit scan bound")));
              mret entries
            end;
  entries ← match opt_non_empty schema_name with
            | Some schema_name => touching project repo schema_name entries
            | None => mret entries
            end;
  mret (entries, at_commit).

(** ** Undo *)

Definition undo_check (config : RepoConfig) (project repo bookmark : string) (snapshot : PublicationSnapshot) :
    outcome CoreError unit :=
  validate_publication_snapshot (c_registry co) project repo bookmark
    (is_protected bookmark (protected_bookmarks config)) snapshot.

Definition undo (project repo author : string) (token : option string) : query string :=
  _ ← by_core (authorize token Write_ project repo);
  config ← by_core (effective_repo_config (c_repo_configs co) project repo);
  Call (QQuery (JjUndo project repo author (undo_check config project repo))) (λ r,
    match r with
    | Ok operation => Ret (Ok operation)
    | Err (PubJj error) => Ret (Err (CoreJj error))
    | Err (PubRejected error) => Ret (Err error)
    | Panic => Ret Panic
    | Stuck => Ret Stuck
    end).

(** ** Diffs *)

Definition diff_one (project repo : string) (from_ref to_ref : RefSpec) (schema_name : string) :
    query (list (string * list DeclChange)) :=
  old ← find_schema project repo schema_name from_ref;
  new ← find_schema project repo schema_name to_ref;
  _ ← query_step (fail_if (is_none old && is_none new) (CoreJj (JjSchemaNotFound schema_name)));
  compiler ← query_compiler co schema_name;
  changes ← query_step (diff_schema compiler old new);
  mret (match changes with [] => [] | _ => [(schema_name, changes)] end).

Definition diff_repository_resolved (project repo : string) (schema_name : option string)
    (from to : RefSpec) (token : option string) : query RepositoryDiff :=
  from_commit ← resolve_read_commit co project repo from token;
  to_commit ← resolve_read_commit co project repo to token;
  schema_names ← match schema_name with
                 | Some name => mret {[ name ]}
                 | None =>
                   left ← by_jj (JjListSchemas project repo (RefCommit from_commit));
                   right ← by_jj (JjListSchemas project repo (RefCommit to_commit));
                   mret (list_to_set (left ++ right) : gset string)
                 end;
  diffs ← collect (diff_one project repo (RefCommit from_commit) (RefCommit to_commit))
            (btree_set_iter schema_names);
  mret (mkRepositoryDiff (mjoin diffs) from_commit to_commit).

Definition core_diff (schema : SchemaPath) (from to : RefSpec) (token : option string) :
    query (list DeclChange) :=
  diff ← diff_repository_resolved (sp_project schema) (sp_repo schema) (Some (sp_schema_name schema)) from to
           token;
  mret (match rd_schema_diffs diff with (_, changes) :: _ => changes | [] => [] end).

Definition diff_bookmarks (schema : SchemaPath) (from to : string) (token : option string) :
    query (list DeclChange) :=
  core_diff schema (RefBookmark from) (RefBookmark to) token.

(** ** Conflicts *)

Definition list_conflicts (project repo bookmark : string) (token : option string) : query (list string) :=
  _ ← by_core (authorize token Read project repo);
  by_jj (JjListConflictedDeclarations project repo (RefBookmark bookmark)).

Definition render_conflict (schema : SchemaPath) (bookmark decl : string) (token : option string) :
    query string :=
  _ ← by_core (authorize token Read (sp_project schema) (sp_repo schema));
  compiler ← query_compiler co (sp_schema_name schema);
  sides ← by_query (JjReadConflict (sp_project schema) (sp_repo schema) (sp_schema_name schema) decl
                      (RefBookmark bookmark));
  query_step (map_err CoreConflict (cp_render_conflict compiler sides)).

Definition resolve_conflict (schema : SchemaPath) (bookmark decl : string) (resolved : DeclBlob)
    (author message : string) (token : option string) : query MutationResponse :=
  _ ← by_core (authorize token Write_ (sp_project schema) (sp_repo schema));
  compiler ← query_compiler co (sp_schema_name schema);
  _ ← query_step (map_err CoreConflict (cp_validate_resolution compiler resolved));
  write ← by_query (JjResolveConflict (sp_project schema) (sp_repo schema) bookmark (sp_schema_name schema)
                      decl resolved author message);
  mret (response_from_write write).

End History.
