(* ===== verification/Serving.v ===== *)
(** * Serving: immutable artifacts

    [crates/schemahub-core/src/serving.rs]: revision names, the request of an
    artifact and its storage key, the record under which the first
    materialization of an artifact is stored, its validation, and
    [get_schema_artifact]. [serde_json] of the record's metadata is the class
    [ArtifactJson]. *)
From S2P Require Import Prelude RustStd SchemaTypes Prog ObjectDb AccessStore Repository Idempotency CoreTypes Integrity Access Flow Queries Dependencies.
From Stdlib Require Import Strings.Byte Ascii.

Open Scope Z_scope.

(** ** Constants *)

Definition ARTIFACT_COLLECTION : string := "schemahub.artifacts.v1".
Definition ARTIFACT_RECORD_MAGIC : list byte := as_bytes "schemahub-artifact-record-v1" ++ [x00].
Definition ARTIFACT_RECORD_VERSION : Z := 1.
Definition MAX_ARTIFACT_METADATA_BYTES : Z := 16 * 1024 * 1024.

(** ** Data *)

Inductive SchemaArtifactKind := ArtifactSource | ArtifactDescriptors | ArtifactGeneratedCode.

#[export] Instance SchemaArtifactKind_eq_dec : EqDecision SchemaArtifactKind.
Proof. solve_decision. Defined.

Definition resource_component (kind : SchemaArtifactKind) : string :=
  match kind with
  | ArtifactSource => "source"
  | ArtifactDescriptors => "descriptors"
  | ArtifactGeneratedCode => "generated-code"
  end.

Record SchemaRevision := mkSchemaRevision {
  sr_name : string;
  sr_project : string;
  sr_repo : string;
  sr_commit_id : string;
  sr_resolved_from : string;
}.

Record SchemaArtifact := mkSchemaArtifact {
  sa_name : string;
  sa_revision : string;
  sa_schema_path : string;
  sa_kind : SchemaArtifactKind;
  sa_format_id : string;
  sa_media_type : string;
  sa_content : list byte;
  sa_artifact_digest : string;
  sa_closure_digest : string;
  sa_dependency_schemas : list string;
  sa_is_archive : bool;
}.

Record ArtifactRequestRecord := mkArtifactRequestRecord {
  arr_version : Z;
  arr_revision : string;
  arr_schema_path : string;
  arr_kind : string;
  arr_language : option string;
  arr_rust_pluggable_buffer : bool;
}.

#[export] Instance ArtifactRequestRecord_eq_dec : EqDecision ArtifactRequestRecord.
Proof. solve_decision. Defined.

Record ArtifactRequest := mkArtifactRequest {
  areq_record : ArtifactRequestRecord;
  areq_storage_key : string;
  areq_kind : SchemaArtifactKind;
  areq_language : option Language;
  areq_options : CodegenOptions;
}.

Record StoredArtifact := mkStoredArtifact {
  sta_artifact : SchemaArtifact;
  sta_dependency_paths : list SchemaPath;
}.

Record ArtifactRecordMetadata := mkArtifactRecordMetadata {
  arm_version : Z;
  arm_request : ArtifactRequestRecord;
  arm_format_id : string;
  arm_media_type : string;
  arm_artifact_digest : string;
  arm_closure_digest : string;
  arm_dependency_paths : list SchemaPath;
  arm_is_archive : bool;
}.

Class ArtifactJson := {
  metadata_to_vec : ArtifactRecordMetadata → outcome string (list byte);
  metadata_from_slice : list byte → outcome string ArtifactRecordMetadata;
}.

(** Reading inverts writing, and the JSON of strings, booleans and small numbers
    can always be written. *)
Class ArtifactJsonLaws (J : ArtifactJson) : Prop := {
  metadata_json_roundtrip m : ∃ bs, metadata_to_vec m = Ok bs ∧ metadata_from_slice bs = Ok m;
}.

(** ** Names *)

Definition language_name (language : Language) : string :=
  match language with
  | LangRust => "rust"
  | Go => "go"
  | TypeScript => "typescript"
  | Python => "python"
  | Java => "java"
  end.

Definition parse_revision_name (name : string) : outcome CoreError (string * string * string) :=
  match split_char "/" name with
  | [p; project; r; repo; v; commit] =>
    _ ← fail_if (negb (bool_decide (p = "projects") && bool_decide (r = "repos")
                       && bool_decide (v = "revisions")))
          (CoreInvalidArgument "revision must be projects/{project}/repos/{repo}/revisions/{commit}");
    _ ← serving_validate_segment "project" project;
    _ ← serving_validate_segment "repo" repo;
    _ ← serving_validate_segment "commit" commit;
    Ok (project, repo, commit)
  | _ => Err (CoreInvalidArgument "revision must be projects/{project}/repos/{repo}/revisions/{commit}")
  end.

Definition validate_schema_name (label value : string) : outcome CoreError unit :=
  fail_if (str_is_empty (trim value) || has_control value)
    (CoreInvalidArgument (label +:+ " must not be empty or contain control characters")).

Definition artifact_media_type (format_id : string) (kind : SchemaArtifactKind) : string :=
  match kind with
  | ArtifactSource =>
    if bool_decide (format_id = "protobuf"%string) then "text/x-protobuf; charset=utf-8"
    else if bool_decide (format_id = "flatbuffers"%string) then "text/x-flatbuffers; charset=utf-8"
    else if bool_decide (format_id = "openapi"%string) then "application/yaml; charset=utf-8"
    else "application/octet-stream"
  | ArtifactDescriptors =>
    if bool_decide (format_id = "protobuf"%string) then "application/x-protobuf"
    else if bool_decide (format_id = "flatbuffers"%string)
    then "application/vnd.schemahub.flatbuffers-bundle"
    else if bool_decide (format_id = "openapi"%string) then "application/yaml; charset=utf-8"
    else "application/octet-stream"
  | ArtifactGeneratedCode => "text/plain; charset=utf-8"
  end.

Definition corrupt_artifact (detail : string) : CoreError :=
  CoreOther ("corrupt first-materialized artifact: " +:+ detail).

Definition artifact_store_error (error : ObjectDbError) : CoreError :=
  CoreOther ("artifact materialization store: " +:+ fmt_db_error error).

(** ** Encodings *)

Definition push_part (encoded part : list byte) : list byte :=
  encoded ++ to_be_bytes (wrap_u64 (Z.of_nat (length part))) ++ part.

Definition push_path (encoded : list byte) (path : SchemaPath) : list byte :=
  push_part (push_part (push_part encoded (as_bytes (sp_project path))) (as_bytes (sp_repo path)))
    (as_bytes (sp_schema_name path)).

(** [u64::from_be_bytes]. *)
Definition from_be_bytes (bs : list byte) : Z := foldl (λ acc b, acc * 256 + u8 b) 0 bs.

Section Encoding.
Context {SH : Sha256} {HX : Hex} {HO : HashOrder}.

(** The digest without the prefix that [strip_prefix("sha256:")] removes. *)
Definition sha256_hex (bs : list byte) : string := hex_encode (sha256 bs).

Definition sha256_digest (bs : list byte) : string := "sha256:" +:+ sha256_hex bs.

(** One entry of the closure digest. *)
Definition push_entry (encoded : list byte) (entry : SchemaPath * SchemaObjects) : list byte :=
  let '(path, schema) := entry in
  let encoded := push_part (push_path encoded path) (so_meta schema) in
  foldl (λ encoded d, push_part (push_part encoded (as_bytes d.1)) d.2)
    (encoded ++ to_be_bytes (wrap_u64 (Z.of_nat (size (so_decls schema))))) (btree_iter (so_decls schema)).

Definition closure_bytes (closure : SchemaClosure) : list byte :=
  let encoded := push_part [] (as_bytes "schemahub-closure-v1") in
  let encoded := match scl_root closure with
                 | Some root => push_path encoded root
                 | None => push_part encoded []
                 end in
  let entries := sorted_entries closure in
  foldl push_entry (encoded ++ to_be_bytes (wrap_u64 (Z.of_nat (length entries)))) entries.

Definition closure_digest (closure : SchemaClosure) : string := sha256_digest (closure_bytes closure).

(** [ArtifactRequest::new]. *)
Definition request_bytes (record : ArtifactRequestRecord) : list byte :=
  let encoded := push_part [] (as_bytes "schemahub-artifact-request-v1") in
  let encoded := push_part encoded (as_bytes (arr_revision record)) in
  let encoded := push_part encoded (as_bytes (arr_schema_path record)) in
  let encoded := push_part encoded (as_bytes (arr_kind record)) in
  let encoded := push_part encoded (as_bytes (default "none"%string (arr_language record))) in
  push_part encoded [if arr_rust_pluggable_buffer record then x01 else x00].

Definition artifact_request_new (revision schema_path : string) (kind : SchemaArtifactKind)
    (language : option Language) (options : CodegenOptions) : outcome CoreError ArtifactRequest :=
  '(language, options) ←
    match kind with
    | ArtifactGeneratedCode =>
      language ← ok_or language (CoreInvalidArgument "generated-code artifacts require a language");
      Ok (Some language, options)
    | ArtifactSource | ArtifactDescriptors => Ok (None, codegen_options_default)
    end;
  let record := mkArtifactRequestRecord ARTIFACT_RECORD_VERSION revision schema_path
                  (resource_component kind) (language_name <$> language) (rust_pluggable_buffer options) in
  Ok (mkArtifactRequest record (sha256_hex (request_bytes record)) kind language options).

Definition artifact_resource_name (request : ArtifactRequest) (artifact_digest : string) : string :=
  let r := areq_record request in
  let zero := of_char "000"%char in
  let resource_id := sha256_hex (as_bytes
    ("schemahub-artifact-resource-v1" +:+ zero +:+ arr_schema_path r +:+ zero +:+ arr_kind r +:+ zero +:+
     default "none"%string (arr_language r) +:+ zero +:+ fmt_bool (arr_rust_pluggable_buffer r) +:+ zero +:+
     artifact_digest)) in
  arr_revision r +:+ "/artifacts/" +:+ resource_component (areq_kind request) +:+ "-" +:+ resource_id.

(** ** Validation of a stored artifact *)

Definition is_lower_hex (b : byte) : bool := in_range 48 57 b || in_range 97 102 b.

Definition validate_sha256_digest (label digest : string) : outcome CoreError unit :=
  value ← ok_or (strip_prefix "sha256:" digest) (corrupt_artifact (label +:+ " digest has no sha256 prefix"));
  fail_if (negb (str_len value =? 64) || negb (forallb is_lower_hex (as_bytes value)))
    (corrupt_artifact (label +:+ " digest is not lowercase SHA-256")).

(** [Display] of the only error that the validators of segments and names give. *)
Definition fmt_invalid_argument (e : CoreError) : string :=
  match e with CoreInvalidArgument m => "invalid argument: " +:+ m | _ => "" end.

Definition validate_dependency_path (path : SchemaPath) : outcome CoreError unit :=
  map_err (λ e, corrupt_artifact ("invalid dependency path: " +:+ fmt_invalid_argument e))
    (_ ← serving_validate_segment "dependency project" (sp_project path);
     _ ← serving_validate_segment "dependency repo" (sp_repo path);
     validate_schema_name "dependency schema" (sp_schema_name path)).

Fixpoint validate_dependency_paths (paths : list SchemaPath) : outcome CoreError unit :=
  match paths with
  | [] => Ok tt
  | path :: paths => _ ← validate_dependency_path path; validate_dependency_paths paths
  end.

Definition validate_stored_artifact (request : ArtifactRequest) (stored : StoredArtifact) :
    outcome CoreError unit :=
  let artifact := sta_artifact stored in
  let r := areq_record request in
  _ ← fail_if (negb (bool_decide (sa_revision artifact = arr_revision r))
               || negb (bool_decide (sa_schema_path artifact = arr_schema_path r))
               || negb (bool_decide (sa_kind artifact = areq_kind request)))
        (corrupt_artifact "artifact scope does not match its request identity");
  _ ← fail_if (str_is_empty (sa_format_id artifact) || (64 <? str_len (sa_format_id artifact))
               || has_control (sa_format_id artifact)) (corrupt_artifact "invalid format identifier");
  _ ← fail_if (str_is_empty (sa_media_type artifact) || (256 <? str_len (sa_media_type artifact))
               || has_control (sa_media_type artifact)) (corrupt_artifact "invalid media type");
  _ ← fail_if (negb (bool_decide (sa_artifact_digest artifact = sha256_digest (sa_content artifact))))
        (corrupt_artifact "content digest mismatch");
  _ ← validate_sha256_digest "closure" (sa_closure_digest artifact);
  _ ← fail_if (negb (bool_decide (sa_name artifact =
                                  artifact_resource_name request (sa_artifact_digest artifact))))
        (corrupt_artifact "artifact resource name mismatch");
  let paths := sta_dependency_paths stored in
  _ ← fail_if (negb (bool_decide (vec_dedup (sort_paths paths) = paths)))
        (corrupt_artifact "dependency paths are not uniquely sorted");
  _ ← validate_dependency_paths paths;
  fail_if (negb (bool_decide (sa_dependency_schemas artifact = fmt_schema_path <$> paths)))
    (corrupt_artifact "dependency metadata mismatch").

(** ** The stored record *)

Context {AJ : ArtifactJson}.

Definition record_metadata (request : ArtifactRequest) (stored : StoredArtifact) : ArtifactRecordMetadata :=
  let artifact := sta_artifact stored in
  mkArtifactRecordMetadata ARTIFACT_RECORD_VERSION (areq_record request) (sa_format_id artifact)
    (sa_media_type artifact) (sa_artifact_digest artifact) (sa_closure_digest artifact)
    (sta_dependency_paths stored) (sa_is_archive artifact).

(** [checked_add] over the parts of the record. *)
Definition record_capacity (metadata content : list byte) : option Z :=
  a ← checked_add_usize (Z.of_nat (length ARTIFACT_RECORD_MAGIC)) 8;
  b ← checked_add_usize a (Z.of_nat (length metadata));
  checked_add_usize b (Z.of_nat (length content)).

Definition encode_artifact_record (request : ArtifactRequest) (stored : StoredArtifact) :
    outcome CoreError (list byte) :=
  _ ← validate_stored_artifact request stored;
  metadata ← map_err (λ e, CoreOther ("encoding artifact metadata: " +:+ e))
               (metadata_to_vec (record_metadata request stored));
  let len := Z.of_nat (length metadata) in
  _ ← fail_if (MAX_ARTIFACT_METADATA_BYTES <? len)
        (CoreOther ("artifact metadata exceeds " +:+ fmt_Z MAX_ARTIFACT_METADATA_BYTES +:+ " bytes"));
  _ ← fail_if (u64_max <? len) (CoreOther "artifact metadata length overflow");
  let content := sa_content (sta_artifact stored) in
  _ ← ok_or (record_capacity metadata content) (CoreOther "artifact record length overflow");
  Ok (ARTIFACT_RECORD_MAGIC ++ to_be_bytes len ++ metadata ++ content).

(** [slice.starts_with]. *)
Definition bytes_start_with (prefix bs : list byte) : bool := bool_decide (take (length prefix) bs = prefix).

Definition stored_from_metadata (request : ArtifactRequest) (m : ArtifactRecordMetadata)
    (content : list byte) : StoredArtifact :=
  mkStoredArtifact
    (mkSchemaArtifact (artifact_resource_name request (arm_artifact_digest m))
       (arr_revision (areq_record request)) (arr_schema_path (areq_record request)) (areq_kind request)
       (arm_format_id m) (arm_media_type m) content (arm_artifact_digest m) (arm_closure_digest m)
       (fmt_schema_path <$> arm_dependency_paths m) (arm_is_archive m))
    (arm_dependency_paths m).

Definition decode_artifact_record (request : ArtifactRequest) (encoded : list byte) :
    outcome CoreError StoredArtifact :=
  let length_start := length ARTIFACT_RECORD_MAGIC in
  let length_end := (length_start + 8)%nat in
  _ ← fail_if (negb (bytes_start_with ARTIFACT_RECORD_MAGIC encoded)
               || (length encoded <? length_end)%nat) (corrupt_artifact "invalid record header");
  let metadata_len := from_be_bytes (take 8 (drop length_start encoded)) in
  _ ← fail_if (MAX_ARTIFACT_METADATA_BYTES <? metadata_len)
        (corrupt_artifact "metadata length exceeds the safety bound");
  content_start ← ok_or (end_ ← checked_add_usize (Z.of_nat length_end) metadata_len;
                         if end_ <=? Z.of_nat (length encoded) then Some (Z.to_nat end_) else None)
                    (corrupt_artifact "truncated metadata");
  metadata ← map_err (λ e, corrupt_artifact ("invalid metadata JSON: " +:+ e))
               (metadata_from_slice (take (content_start - length_end) (drop length_end encoded)));
  _ ← fail_if (negb (arm_version metadata =? ARTIFACT_RECORD_VERSION))
        (corrupt_artifact ("unsupported record version " +:+ fmt_Z (arm_version metadata)));
  _ ← fail_if (negb (bool_decide (arm_request metadata = areq_record request)))
        (corrupt_artifact "stored request identity does not match its collection key");
  let stored := stored_from_metadata request metadata (drop content_start encoded) in
  _ ← validate_stored_artifact request stored;
  Ok stored.

(** ** The store of first materializations *)

Definition artifact_load (request : ArtifactRequest) : query (option StoredArtifact) :=
  found ← try_call artifact_store_error (QRecords (DbGetRecord ARTIFACT_COLLECTION (areq_storage_key request)));
  match found with
  | Some bytes => stored ← query_step (decode_artifact_record request bytes); mret (Some stored)
  | None => mret None
  end.

Definition insert_first `{RustFmt} (request : ArtifactRequest) (candidate : StoredArtifact) :
    query StoredArtifact :=
  encoded ← query_step (encode_artifact_record request candidate);
  created ← try_call artifact_store_error
              (QRecords (DbCreateRecord ARTIFACT_COLLECTION (areq_storage_key request) encoded));
  if created : bool then mret candidate else
  winner ← artifact_load request;
  query_step (ok_or winner (CoreOther ("artifact materialization " +:+ debug_str (areq_storage_key request) +:+
                                       " won by another writer but is unreadable"))).

End Encoding.

(** ** Operations of the core *)

Section Serving.
Context {AN : AuthnProvider} {AZ : AuthzPolicy} {SH : Sha256} {HX : Hex} {RF : RustFmt} {HO : HashOrder}
  {AJ : ArtifactJson}.
Context (co : Core) (fuel : nat).

Definition resolve_schema_revision (project repo : string) (at_ref : RefSpec) (resolved_from : string)
    (token : option string) : query SchemaRevision :=
  commit_id ← resolve_read_commit co project repo at_ref token;
  mret (mkSchemaRevision ("projects/" +:+ project +:+ "/repos/" +:+ repo +:+ "/revisions/" +:+ commit_id)
          project repo commit_id resolved_from).

Fixpoint authorize_artifact_dependencies (dependencies : list SchemaPath) (token : option string) : query unit :=
  match dependencies with
  | [] => mret tt
  | path :: dependencies =>
    _ ← by_core (authorize token Read (sp_project path) (sp_repo path));
    authorize_artifact_dependencies dependencies token
  end.

Definition artifact_allowed (policy : ServingPolicy) (kind : SchemaArtifactKind) : bool :=
  match kind with
  | ArtifactSource => serve_source policy
  | ArtifactDescriptors => serve_descriptors policy
  | ArtifactGeneratedCode => serve_generated_code policy
  end.

(** The content of an artifact. *)
Definition artifact_content (compiler : Compiler) (closure : SchemaClosure) (schema : SchemaPath)
    (request : ArtifactRequest) : outcome CoreError (list byte) :=
  match areq_kind request with
  | ArtifactSource =>
    root ← ok_or (scl_entries closure !! schema)
             (CoreOther "resolved closure is missing its root schema");
    text ← map_err CorePrint (cp_print compiler root);
    Ok (as_bytes text)
  | ArtifactDescriptors => map_err CoreDescriptor (cp_generate_descriptors compiler closure)
  | ArtifactGeneratedCode =>
    match areq_language request with
    | None => Panic
    | Some language =>
      text ← map_err CoreCodegen (cp_generate_code compiler closure language (areq_options request));
      Ok (as_bytes text)
    end
  end.

Definition dependency_paths (closure : SchemaClosure) (schema : SchemaPath) : list SchemaPath :=
  sort_paths (List.filter (λ path, negb (bool_decide (path = schema))) (hash_iter (scl_entries closure)).*1).

Definition candidate_artifact (request : ArtifactRequest) (revision_name schema_name : string)
    (compiler : Compiler) (closure : SchemaClosure) (schema : SchemaPath) (content : list byte) :
    StoredArtifact :=
  let artifact_digest := sha256_digest content in
  let paths := dependency_paths closure schema in
  mkStoredArtifact
    (mkSchemaArtifact (artifact_resource_name request artifact_digest) revision_name schema_name
       (areq_kind request) (format_id compiler)
       (artifact_media_type (format_id compiler) (areq_kind request)) content artifact_digest
       (closure_digest closure) (fmt_schema_path <$> paths) false)
    paths.

Definition get_schema_artifact (revision_name schema_name : string) (kind : SchemaArtifactKind)
    (language : option Language) (options : CodegenOptions) (token : option string) : query SchemaArtifact :=
  parsed ← query_step (parse_revision_name revision_name);
  let '(project, repo, commit_id) := parsed in
  _ ← query_step (validate_schema_name "schema_path" schema_name);
  _ ← by_core (authorize token Read project repo);
  config ← by_core (effective_repo_config (c_repo_configs co) project repo);
  _ ← query_step (fail_if (negb (artifact_allowed (serving_policy config) kind))
        (CoreRepository (RepoFailedPrecondition
           ("repository serving policy disables " +:+ resource_component kind +:+ " artifacts"))));
  _ ← by_jj (JjValidateRevision project repo commit_id);
  request ← query_step (artifact_request_new revision_name schema_name kind language options);
  found ← artifact_load request;
  match found with
  | Some stored =>
    _ ← authorize_artifact_dependencies (sta_dependency_paths stored) token;
    mret (sta_artifact stored)
  | None =>
    let schema := mkSchemaPath project repo schema_name in
    compiler ← query_compiler co schema_name;
    closure ← closure_build co fuel schema commit_id token;
    content ← query_step (artifact_content compiler closure schema request);
    winner ← insert_first request
               (candidate_artifact request revision_name schema_name compiler closure schema content);
    _ ← authorize_artifact_dependencies (sta_dependency_paths winner) token;
    mret (sta_artifact winner)
  end.

End Serving.
