(* ===== verification/Validation.v ===== *)
(** * Validation: planning a change record

    [crates/schemahub-core/src/change_record/validation.rs]: the edits of a
    record are replayed in memory on one immutable base, the result is checked
    against the policy of the repository, and the report comes with the writes
    that lead from the base to the result. *)
From S2P Require Import Prelude RustStd SchemaTypes ChangeModel Effects Prog ObjectDb AccessStore Repository Idempotency CoreTypes Integrity Access ChangeStore ChangeLedger Flow Writes.
From Stdlib Require Import Strings.Byte.

Open Scope Z_scope.

(** ** Messages *)

Definition fmt_jj_error (e : JjError) : string :=
  match e with
  | JjObjectDb e => "object store error: " +:+ fmt_db_error e
  | JjObjectNotFound => "object not found"
  | JjDeclNotFound m => "declaration not found: " +:+ m
  | JjSchemaNotFound m => "schema file not found: " +:+ m
  | JjBookmarkNotFound m => "bookmark not found: " +:+ m
  | JjBookmarkExists m => "bookmark already exists: " +:+ m
  | JjTagNotFound m => "tag not found: " +:+ m
  | JjTagExists m => "tag already exists: " +:+ m
  | JjBadRef m => "ref does not resolve to a commit: " +:+ m
  | JjNothingToUndo => "nothing to undo"
  | JjNotConflicted decl => "declaration " +:+ decl +:+ " is not conflicted"
  | JjCorrupt m => "corrupt repository data: " +:+ m
  | JjOther m => "jj error: " +:+ m
  end.

Definition fmt_mutation_error (e : MutationError) : string :=
  match e with
  | MutMalformedBlob m => "blob is malformed: " +:+ m
  | DeclarationNotFound name => "declaration '" +:+ name +:+ "' not found"
  | FieldNotFound declaration field => "field '" +:+ field +:+ "' not found in '" +:+ declaration +:+ "'"
  | FieldNumberConflict n => "field number " +:+ fmt_Z n +:+ " is already in use or reserved"
  | FieldNumberReserved n => "field number " +:+ fmt_Z n +:+ " is reserved and cannot be reused"
  | InvalidOperation m => m
  | UnsupportedInV1 => "this mutation is not supported in v1"
  | InvalidOperationBytes m => "mutation operation bytes could not be decoded: " +:+ m
  end.

Definition issue (code message : string) (schema_name declaration_name : option string) : ValidationIssue :=
  mkValidationIssue code message schema_name declaration_name.

(** ** Plans *)

Definition VALIDATOR_VERSION : string := "schemahub-change-validator/v1".

Inductive PreparedSchemaChange :=
  | PreparedPatch (schema_name : string) (effect : MutationEffect)
  | PreparedDelete (schema_name : string).

Record PreparedChange := mkPreparedChange {
  pc_resolved_base_commit : string;
  pc_edit_digest : string;
  pc_writes : list PreparedSchemaChange;
}.

Record ValidationOutcome := mkValidationOutcome {
  vo_result : ValidationResult;
  vo_prepared : option PreparedChange;
}.

(** [PreparedChange::matches]. *)
Definition prepared_matches (p : PreparedChange) (result : ValidationResult) : bool :=
  bool_decide (pc_resolved_base_commit p = vr_resolved_base_commit result)
  && bool_decide (pc_edit_digest p = vr_edit_digest result)
  && match pc_writes p with [] => false | _ => true end
  && forallb (λ w,
       match w with
       | PreparedPatch schema_name effect => negb (str_is_empty schema_name) && negb (effect_is_empty effect)
       | PreparedDelete schema_name => negb (str_is_empty schema_name)
       end) (pc_writes p).

(** [outcome]. *)
Definition validation_outcome (resolved_base_commit edit_digest : string) (issues : list ValidationIssue)
    (prepared : option PreparedChange) : ValidationOutcome :=
  mkValidationOutcome
    (mkValidationResult (match issues with [] => true | _ => false end) resolved_base_commit edit_digest
       issues 0 VALIDATOR_VERSION) prepared.

(** ** Edits *)

Definition edit_target (edit : ChangeEdit) : SchemaPath * string :=
  match edit with
  | EditMutation schema format_id _ | ReplaceSource schema format_id _ | DeleteSchema schema format_id =>
    (schema, format_id)
  end.

Definition edit_format (edits : list ChangeEdit) : option string :=
  match edits with
  | [] => None
  | edit :: _ => Some (edit_target edit).2
  end.

Definition edit_schema_name (edit : ChangeEdit) : string := sp_schema_name (edit_target edit).1.

Definition expected_ref_error (e : JjError) : bool :=
  match e with
  | JjBadRef _ | JjObjectNotFound | JjBookmarkNotFound _ | JjTagNotFound _ => true
  | _ => false
  end.

(** [serde_json::to_vec] of a list of edits, with the message of its error. *)
Class EditsJson := edits_to_vec : list ChangeEdit → outcome string (list byte).

Section Validation.
Context {AN : AuthnProvider} {AZ : AuthzPolicy} {SH : Sha256} {HX : Hex} {RF : RustFmt} {EJ : EditsJson}.
Context (co : Core).

Definition edit_digest (edits : list ChangeEdit) : outcome CoreError string :=
  canonical ← map_err (λ m, CoreOther ("encode change edits for digest: " +:+ m)) (edits_to_vec edits);
  Ok ("sha256:" +:+ hex_encode (sha256 canonical)).

(** The issues of one edit, in the order of the loop body. *)
Definition edit_issues (record : ChangeRecord) (edit : ChangeEdit) : list ValidationIssue :=
  let '(schema, format_id) := edit_target edit in
  let name := sp_schema_name schema in
  let here code message := issue code message (Some name) None in
  (if negb (bool_decide (sp_project schema = cr_project record))
      || negb (bool_decide (sp_repo schema = cr_repo record))
   then [here "edit_outside_scope" "edit target is outside the change record repository"]%string else []) ++
  (if str_is_empty (trim name) || has_control name
   then [here "invalid_schema_path" "schema path must not be empty or contain control characters"]%string
   else []) ++
  match detect_format_from_name name with
  | Some detected =>
    if negb (bool_decide (detected = format_id))
    then [here "format_mismatch"%string ("schema extension selects format " +:+ debug_str detected +:+
                                  ", not " +:+ debug_str format_id)]
    else []
  | None => [here "unknown_schema_extension" "schema path does not have a supported format extension"]%string
  end ++
  (if str_is_empty (trim format_id)
   then [here "missing_format" "edit format_id must not be empty"]%string
   else if is_none (c_registry co !! format_id)
   then [here "unknown_format"%string ("no compiler is registered for format " +:+ debug_str format_id)]
   else []) ++
  match edit with
  | EditMutation _ _ [] => [here "empty_mutation" "mutation operation bytes must not be empty"]%string
  | _ => []
  end.

Definition structural_issues (record : ChangeRecord) : list ValidationIssue :=
  let limits := transaction_limits_default in
  let edits := cr_edits record in
  match edits with
  | [] => [issue "no_edits" "change record has no executable edits" None None]
  | _ =>
    let formats : gset string := list_to_set ((λ e, (edit_target e).2) <$> edits) in
    let schemas : gset string := list_to_set (edit_schema_name <$> edits) in
    (if (max_ops limits <? length edits)%nat
     then [issue "too_many_edits"
             ("change has " +:+ fmt_Z (Z.of_nat (length edits)) +:+ " edits; the maximum is " +:+
              fmt_Z (Z.of_nat (max_ops limits))) None None] else []) ++
    concat (edit_issues record <$> edits) ++
    (if (1 <? size formats)%nat
     then [issue "mixed_formats" "all edits in one change must use the same format" None None] else []) ++
    (if (max_schemas limits <? size schemas)%nat
     then [issue "too_many_schemas"
             ("change touches " +:+ fmt_Z (Z.of_nat (size schemas)) +:+ " schemas; the maximum is " +:+
              fmt_Z (Z.of_nat (max_schemas limits))) None None] else [])
  end.

(** ** Replaying the edits *)

Record SchemaState := mkSchemaState {
  ss_schema_name : string;
  ss_original : option SchemaObjects;
  ss_current : option SchemaObjects;
  ss_failed : bool;
}.

(** The names of the touched schemas, in the order of their first edit. *)
Definition touched_names (edits : list ChangeEdit) : list string :=
  foldl (λ names edit,
    let name := edit_schema_name edit in
    if existsb (λ existing, bool_decide (existing = name)) names then names else names ++ [name]) [] edits.

(** The loop that loads the touched schemas. *)
Fixpoint load_states (project repo : string) (base : RefSpec) (existing_conflicts names : list string) :
    flow (list SchemaState * list ValidationIssue) :=
  match names with
  | [] => mret ([], [])
  | schema_name :: names =>
    original ← Call (OnJj (JjLoadSchema project repo schema_name base)) (λ r,
      match r with
      | Ok schema => Ret (Ok (Some schema))
      | Err (JjSchemaNotFound _) => Ret (Ok None)
      | Err error => Ret (Err (CoreJj error))
      | Panic => Ret Panic
      | Stuck => Ret Stuck
      end);
    let conflicts := omap (strip_prefix (schema_name +:+ "/")) existing_conflicts in
    let issues := (λ declaration,
      issue "base_conflict" "the validation base contains an unresolved declaration conflict"
        (Some schema_name) (Some declaration)) <$> conflicts in
    rest ← load_states project repo base existing_conflicts names;
    mret (mkSchemaState schema_name original original
            (match conflicts with [] => false | _ => true end) :: rest.1, issues ++ rest.2)
  end.

(** [decls.insert(..).is_some()]: the first declaration that occurs again. *)
Fixpoint collect_decls (decls : gmap string DeclBlob) (parsed : list (string * DeclBlob)) :
    outcome (string * string) (gmap string DeclBlob) :=
  match parsed with
  | [] => Ok decls
  | (name, blob) :: parsed =>
    if is_some (decls !! name)
    then Err ("duplicate_declaration"%string,
              "parsed source contains duplicate declaration " +:+ debug_str name)
    else collect_decls (<[name := blob]> decls) parsed
  end.

(** What one edit makes of the state of its schema, or the code and message of
    the issue. *)
Definition edit_result (compiler : Compiler) (current : option SchemaObjects) (edit : ChangeEdit) :
    outcome (string * string) (option SchemaObjects) :=
  match edit with
  | EditMutation schema format_id operation =>
    let base := default schema_objects_default current in
    effect ← map_err (λ e, ("mutation_invalid"%string, fmt_mutation_error e))
               (cp_apply_mutation compiler base (mkMutation schema format_id operation));
    Ok (Some (apply_effect base effect))
  | ReplaceSource _ _ source =>
    parsed ← map_err (λ e, ("source_invalid"%string, fmt_parse_error e)) (cp_parse compiler source);
    decls ← collect_decls ∅ (ps_decls parsed);
    Ok (Some (mkSchemaObjects (ps_meta parsed) decls))
  | DeleteSchema _ _ =>
    match current with
    | None => Err ("schema_not_found"%string,
                   "cannot delete a schema that does not exist at this point in the edit sequence"%string)
    | Some _ => Ok None
    end
  end.

(** One round of the replay loop. *)
Definition replay_edit (compiler : Compiler) (edit : ChangeEdit) (states : list SchemaState) :
    outcome CoreError (list SchemaState * list ValidationIssue) :=
  let schema_name := edit_schema_name edit in
  let mine state := bool_decide (ss_schema_name state = schema_name) in
  match List.find mine states with
  | None => Panic
  | Some state =>
    if ss_failed state then Ok (states, []) else
    let set state' := default states (update_first mine (λ _, state') states) in
    match edit_result compiler (ss_current state) edit with
    | Ok next => Ok (set (mkSchemaState (ss_schema_name state) (ss_original state) next false), [])
    | Err (code, message) =>
      Ok (set (mkSchemaState (ss_schema_name state) (ss_original state) (ss_current state) true),
          [issue code message (Some schema_name) None])
    | Panic => Panic
    | Stuck => Stuck
    end
  end.

Fixpoint replay_edits (compiler : Compiler) (edits : list ChangeEdit) (states : list SchemaState) :
    outcome CoreError (list SchemaState * list ValidationIssue) :=
  match edits with
  | [] => Ok (states, [])
  | edit :: edits =>
    '(states, here) ← replay_edit compiler edit states;
    '(states, rest) ← replay_edits compiler edits states;
    Ok (states, here ++ rest)
  end.

(** ** Checks on the result *)

(** The loop over the deleted schemas. *)
Fixpoint deletion_issues (project repo : string) (base : RefSpec)
    (overrides : gmap string (option SchemaObjects)) (states : list SchemaState) :
    flow (list ValidationIssue) :=
  match states with
  | [] => mret []
  | state :: states =>
    if is_some (ss_original state) && is_none (ss_current state) then
      here ← prog_bind (live_unpinned_dependents co (mkSchemaPath project repo (ss_schema_name state)) base
                          overrides) (λ r,
        match r with
        | Ok dependents => Ret (Ok ((λ dependent,
            issue "live_schema_dependency"
              ("schema " +:+ dependent +:+ " retains an unpinned import to the deleted schema")
              (Some (ss_schema_name state)) None) <$> dependents))
        | Err (CoreFailedPrecondition message) =>
          Ret (Ok [issue "reference_integrity_unverifiable" message (Some (ss_schema_name state)) None])
        | Err error => Ret (Err error)
        | Panic => Ret Panic
        | Stuck => Ret Stuck
        end);
      rest ← deletion_issues project repo base overrides states;
      mret (here ++ rest)
    else deletion_issues project repo base overrides states
  end.

Definition collect_compatibility_issues (compiler : Compiler) (rules : CompatibilityRules)
    (original : SchemaObjects) (effect : MutationEffect) (schema_name : string) :
    outcome CoreError (list ValidationIssue) :=
  match gate compiler rules original effect with
  | Ok _ => Ok []
  | Err (Incompatible violations) =>
    Ok ((λ violation,
      let field_suffix := match cv_field_name violation with
                          | Some field => " (field " +:+ field +:+ ")"
                          | None => ""
                          end in
      issue "compatibility_violation" (cv_message violation +:+ field_suffix) (Some schema_name)
        (Some (cv_declaration_name violation))) <$> violations)
  | Err error => Err error
  | Panic => Panic
  | Stuck => Stuck
  end.

(** One round of the loop that plans the writes: the write, if there is one, and
    the issues. *)
Definition plan_write (compiler : Compiler) (rules : CompatibilityRules) (protected : bool)
    (state : SchemaState) : outcome CoreError (list PreparedSchemaChange * list ValidationIssue) :=
  let name := ss_schema_name state in
  match ss_original state, ss_current state with
  | Some original, Some current =>
    let effect := diff_effect original current in
    if effect_is_empty effect
    then Ok ([], [issue "no_effect" "ordered edits leave the schema unchanged" (Some name) None])
    else
      issues ← (if protected then collect_compatibility_issues compiler rules original effect name else Ok []);
      Ok ([PreparedPatch name effect], issues)
  | None, Some current =>
    let effect := diff_effect schema_objects_default current in
    if effect_is_empty effect
    then Ok ([], [issue "no_effect" "ordered edits do not create any schema content" (Some name) None])
    else Ok ([PreparedPatch name effect], [])
  | Some _, None =>
    Ok ([PreparedDelete name],
        if protected && negb (cr_disabled rules)
        then [issue "compatibility_violation" "deleting an entire schema is blocked on a protected bookmark"
                (Some name) None]
        else [])
  | None, None => Ok ([], [])
  end.

Fixpoint plan_writes (compiler : Compiler) (rules : CompatibilityRules) (protected : bool)
    (states : list SchemaState) : outcome CoreError (list PreparedSchemaChange * list ValidationIssue) :=
  match states with
  | [] => Ok ([], [])
  | state :: states =>
    if ss_failed state then plan_writes compiler rules protected states else
    '(write, here) ← plan_write compiler rules protected state;
    '(writes, rest) ← plan_writes compiler rules protected states;
    Ok (write ++ writes, here ++ rest)
  end.

(** ** The validator *)

(** The part of [validate] that follows the structural checks. *)
Definition validate_at (record : ChangeRecord) (resolved_base_commit digest : string) :
    flow ValidationOutcome :=
  format_id ← flow_step (match edit_format (cr_edits record) with Some f => Ok f | None => Panic end);
  compiler ← flow_step (match c_registry co !! format_id with Some c => Ok c | None => Panic end);
  let project := cr_project record in
  let repo := cr_repo record in
  let immutable_base := RefCommit resolved_base_commit in
  existing_conflicts ← on_jj (JjListConflictedDeclarations project repo immutable_base);
  loaded ← load_states project repo immutable_base existing_conflicts (touched_names (cr_edits record));
  let '(states, load_issues) := loaded : list SchemaState * list ValidationIssue in
  replayed ← flow_step (replay_edits compiler (cr_edits record) states);
  let '(states, edit_issues) := replayed : list SchemaState * list ValidationIssue in
  dependency_issues ←
    (if forallb (λ state, negb (ss_failed state)) states then
       let overrides := foldl (λ m state, <[ss_schema_name state := ss_current state]> m) ∅ states in
       deletion_issues project repo immutable_base overrides states
     else mret []);
  config ← in_core (effective_repo_config (c_repo_configs co) project repo);
  let protected := is_protected (cr_target_bookmark record) (protected_bookmarks config) in
  planned ← flow_step (plan_writes compiler (compat_rules config) protected states);
  let '(writes, write_issues) := planned : list PreparedSchemaChange * list ValidationIssue in
  let issues := load_issues ++ edit_issues ++ dependency_issues ++ write_issues in
  mret (validation_outcome resolved_base_commit digest issues
          (match issues with
           | [] => Some (mkPreparedChange resolved_base_commit digest writes)
           | _ => None
           end)).

Definition validate (record : ChangeRecord) : flow ValidationOutcome :=
  digest ← flow_step (edit_digest (cr_edits record));
  let structural := structural_issues record in
  let base_ref := match cr_base_revision record with
                  | Some commit => RefCommit commit
                  | None => RefBookmark (cr_target_bookmark record)
                  end in
  resolved ← Call (OnJj (JjResolveRefOrRoot (cr_project record) (cr_repo record) base_ref)) (λ r,
    match r with
    | Ok commit => Ret (Ok (commit, structural))
    | Err error =>
      if expected_ref_error error
      then Ret (Ok (""%string, structural ++
                      [issue "base_revision_unresolvable" (fmt_jj_error error) None None]))
      else Ret (Err (CoreJj error))
    | Panic => Ret Panic
    | Stuck => Ret Stuck
    end);
  let '(commit, issues) := resolved : string * list ValidationIssue in
  if negb (bool_decide (issues = [])) || str_is_empty commit
  then mret (validation_outcome commit digest issues None)
  else validate_at record commit digest.

End Validation.
