(* ===== verification/Changes.v ===== *)
(** * Changes: the authorized entry points of change records

    [crates/schemahub-core/src/changes.rs]: every call parses the resource name,
    authorizes the caller, requires a live repository and runs a method of the
    ledger; applying a record also validates its plan and publishes it. Log
    records are left out. *)
From S2P Require Import Prelude RustStd SchemaTypes ChangeModel Effects Prog ObjectDb AccessStore Repository Idempotency CoreTypes Integrity Access ChangeStore ChangeLedger Flow Writes Validation.

Open Scope Z_scope.

Definition APPLY_LEASE_DURATION_MS : Z := 5 * 60 * 1000.
Definition CHANGE_RECORD_ATTRIBUTE : string := "schemahub.change_record".
Definition APPLY_ATTEMPT_ATTRIBUTE : string := "schemahub.apply_attempt".
Definition APPLY_REQUEST_ATTRIBUTE : string := "schemahub.apply_request".

Definition apply_attributes (name request_id attempt_id : string) : gmap string string :=
  <[CHANGE_RECORD_ATTRIBUTE := name]> (<[APPLY_ATTEMPT_ATTRIBUTE := attempt_id]>
    (<[APPLY_REQUEST_ATTRIBUTE := request_id]> ∅)).

Definition apply_result (write : WriteResult) : ApplyResult :=
  mkApplyResult (wr_commit_id write) (wr_change_id write) (wr_operation_id write)
    (wr_conflicted_decls write) None.

(** The identities that approved a record. *)
Definition approvals (record : ChangeRecord) : gset string :=
  list_to_set ((λ review, ca_identity (rv_reviewer review)) <$>
    List.filter (λ review, bool_decide (rv_decision review = Approved)) (cr_reviews record)).

Definition ledger_precondition (m : string) : CoreError := CoreChangeLedger (FailedPrecondition m).

Definition require_current_plan (record : ChangeRecord) (outcome : ValidationOutcome) :
    Prelude.outcome CoreError PreparedChange :=
  stored ← ok_or (cr_validation record)
    (ledger_precondition "change does not have a stored validation snapshot");
  prepared ← ok_or (vo_prepared outcome)
    (ledger_precondition "change no longer passes current compiler and repository policy");
  _ ← fail_if
        (negb (vr_valid stored)
         || negb (bool_decide (vr_resolved_base_commit stored = vr_resolved_base_commit (vo_result outcome)))
         || negb (bool_decide (vr_edit_digest stored = vr_edit_digest (vo_result outcome)))
         || negb (bool_decide (vr_validator_version stored = vr_validator_version (vo_result outcome)))
         || negb (prepared_matches prepared (vo_result outcome)))
        (ledger_precondition "stored validation snapshot is stale; validate the draft again");
  Ok prepared.

Definition schema_write (write : PreparedSchemaChange) : SchemaWrite :=
  match write with
  | PreparedPatch schema_name effect => WritePatch schema_name effect
  | PreparedDelete schema_name => WriteDelete schema_name
  end.

Section Changes.
Context {AN : AuthnProvider} {AZ : AuthzPolicy} {SH : Sha256} {HX : Hex} {RF : RustFmt} {EJ : EditsJson}.
Context (co : Core).

Definition ledger_step_ok {A} (r : Prelude.outcome ChangeLedgerError A) : flow A :=
  flow_step (map_err CoreChangeLedger r).

Definition repo_config (project repo : string) : flow RepoConfig :=
  in_core (effective_repo_config (c_repo_configs co) project repo).

Definition create_change_record (input : CreateChange) (token : option string) : flow ChangeRecord :=
  _ ← ledger_step_ok (validate_scope (cc_project input) (cc_repo input));
  identity ← in_core (authorize_repo_action token Write_ (cc_project input) (cc_repo input));
  _ ← repo_config (cc_project input) (cc_repo input);
  in_ledger (create input identity).

Definition get_change_record (name : string) (token : option string) : flow ChangeRecord :=
  '(project, repo) ← ledger_step_ok (scope name);
  _ ← in_core (authorize_repo_action token Read project repo);
  in_ledger (get name).

Definition list_change_records (project repo : string) (token : option string) : flow (list ChangeRecord) :=
  _ ← ledger_step_ok (validate_scope project repo);
  _ ← in_core (authorize_repo_action token Read project repo);
  in_ledger (ledger_list project repo).

Definition update_change_record (name expected_etag : string) (patch : ChangeUpdate)
    (token : option string) : flow ChangeRecord :=
  '(project, repo) ← ledger_step_ok (scope name);
  _ ← in_core (authorize_repo_action token Write_ project repo);
  _ ← repo_config project repo;
  in_ledger (update name expected_etag patch).

Definition validate_change_record (name expected_etag : string) (token : option string) : flow ChangeRecord :=
  '(project, repo) ← ledger_step_ok (scope name);
  _ ← in_core (authorize_repo_action token Write_ project repo);
  _ ← repo_config project repo;
  record ← in_ledger (get_at_etag name expected_etag);
  outcome ← validate co record;
  in_ledger (record_validation name expected_etag (vo_result outcome)).

Definition mark_change_ready (name expected_etag : string) (token : option string) : flow ChangeRecord :=
  '(project, repo) ← ledger_step_ok (scope name);
  _ ← in_core (authorize_repo_action token Write_ project repo);
  _ ← repo_config project repo;
  in_ledger (mark_ready name expected_etag).

Definition approve_change_record (name expected_etag reason : string) (token : option string) :
    flow ChangeRecord :=
  '(project, repo) ← ledger_step_ok (scope name);
  reviewer ← in_core (authorize_repo_action token ManageRepo project repo);
  _ ← repo_config project repo;
  in_ledger (approve name expected_etag reviewer reason).

Definition reject_change_record (name expected_etag reason : string) (token : option string) :
    flow ChangeRecord :=
  '(project, repo) ← ledger_step_ok (scope name);
  reviewer ← in_core (authorize_repo_action token ManageRepo project repo);
  _ ← repo_config project repo;
  in_ledger (reject name expected_etag reviewer reason).

(** The check of a record that is still [Ready], before the lease. *)
Definition check_ready (config : RepoConfig) (before : ChangeRecord) : flow unit :=
  if bool_decide (cr_status before = Ready) then
    let required := required_approvals (review_policy config) in
    _ ← flow_step (fail_if (Z.of_nat (size (approvals before)) <? required)
          (ledger_precondition ("repository policy requires " +:+ fmt_Z required +:+
             " approval(s); change has " +:+ fmt_Z (Z.of_nat (size (approvals before))))));
    outcome ← validate co before;
    _ ← flow_step (require_current_plan before outcome);
    mret tt
  else mret tt.

(** Publication by the owner of the lease. *)
Definition publish_plan (name request_id : string) (identity : Identity) (config : RepoConfig)
    (record : ChangeRecord) (attempt : ApplyAttempt) : flow ChangeRecord :=
  outcome ← validate co record;
  prepared ← flow_step (require_current_plan record outcome);
  let protected := is_protected (cr_target_bookmark record) (protected_bookmarks config) in
  Call (OnJj (JjCommitSchemaChanges (cr_project record) (cr_repo record) (cr_target_bookmark record)
                (RefCommit (pc_resolved_base_commit prepared)) (schema_write <$> pc_writes prepared)
                (default "anonymous"%string (identity_id identity)) (cr_title record)
                (apply_attributes name request_id (at_attempt_id attempt))
                (publication_check co (cr_project record) (cr_repo record) (cr_target_bookmark record)
                   protected false)))
    (λ r,
       match r with
       | Ok write => in_ledger (complete_apply name request_id (at_attempt_id attempt) (apply_result write))
       | Err (PubJj error) => flow_step (Err (CoreJj error))
       | Err (PubRejected error) =>
         _ ← in_ledger (release_apply name request_id (at_attempt_id attempt) (at_lease_owner attempt));
         flow_step (Err error)
       | Panic => Ret Panic
       | Stuck => Ret Stuck
       end).

Definition apply_change_record (name expected_etag request_id : string) (token : option string) :
    flow ChangeRecord :=
  '(project, repo) ← ledger_step_ok (scope name);
  identity ← in_core (authorize_repo_action token Write_ project repo);
  config ← repo_config project repo;
  before ← in_ledger (get name);
  _ ← check_ready config before;
  acquisition ← in_ledger (acquire_apply name expected_etag request_id identity APPLY_LEASE_DURATION_MS);
  match acquisition with
  | AlreadyApplied record => mret record
  | Observed record | Acquired record =>
    let owns_lease := match acquisition with Acquired _ => true | _ => false end in
    attempt ← flow_step (ok_or (cr_apply_attempt record)
                (ledger_precondition "applying change is missing correlation metadata"));
    let attributes := apply_attributes name request_id (at_attempt_id attempt) in
    found ← on_jj (JjFindCorrelatedWrite (cr_project record) (cr_repo record) (cr_target_bookmark record)
                     attributes);
    match found : option WriteResult with
    | Some write => in_ledger (complete_apply name request_id (at_attempt_id attempt) (apply_result write))
    | None =>
      if owns_lease : bool then publish_plan name request_id identity config record attempt
      else mret record
    end
  end.

Definition abandon_change_record (name expected_etag : string) (token : option string) : flow ChangeRecord :=
  '(project, repo) ← ledger_step_ok (scope name);
  identity ← in_core (authorize_repo_action token Write_ project repo);
  _ ← repo_config project repo;
  existing ← in_ledger (get name);
  _ ← (if negb (bool_decide (ca_identity (cr_created_by existing) = default ""%string (identity_id identity)))
       then in_core (authorize_repo_action token ManageRepo project repo) else mret identity);
  in_ledger (abandon name expected_etag).

End Changes.
