(* ===== verification/PruneProps.v ===== *)
(** * PruneProps: how many receipts there are

    What [prune_with_reserve] of [mutation/idempotency.rs] leaves of the receipts
    when it succeeds: at most the configured number, every receipt that is still
    needed, and of the completed ones the youngest. *)
From S2P Require Import Prelude RustStd SchemaTypes Prog ObjectDb RecordStore Idempotency CoreTypes Flow FlowProps.

Open Scope Z_scope.

Section Prune.
Context {J : IdempotencyJson} {SH : Sha256} {HX : Hex} {RF : RustFmt} {HO : HashOrder}.

Abbreviation entry := (string * list byte * IdempotencyRecord)%type.

Definition receipt (s : idem_state) (key : string) : option (list byte) :=
  get_record IDEMPOTENCY_COLLECTION key (is_db s).

Definition entries (s : idem_state) : list (string * list byte) :=
  list_records IDEMPOTENCY_COLLECTION (is_db s).

(** How many receipts are stored. *)
Definition receipt_count (s : idem_state) : nat := length (entries s).

(** The receipts of [s'] are those of [s] without the keys of [gone]. *)
Definition without (gone : list string) (s s' : idem_state) : Prop :=
  NoDup gone ∧ (∀ k, k ∈ gone → is_Some (receipt s k)) ∧
  ∀ k, receipt s' k = if bool_decide (k ∈ gone) then None else receipt s k.

Lemma elem_of_entries s k b : (k, b) ∈ entries s ↔ receipt s k = Some b.
Proof. apply elem_of_list_records. Qed.

Lemma NoDup_entry_keys s : NoDup (entries s).*1.
Proof.
  apply NoDup_fmap_fst; [|apply NoDup_list_records].
  intros k b b' H%elem_of_entries H'%elem_of_entries. congruence.
Qed.

Lemma without_nil s : without [] s s.
Proof. split; [constructor|]. split; [set_solver|]. done. Qed.

Lemma without_trans g1 g2 s s1 s2 : without g1 s s1 → without g2 s1 s2 → without (g1 ++ g2) s s2.
Proof.
  intros (D1 & S1 & H1) (D2 & S2 & H2).
  assert (∀ k, k ∈ g2 → k ∉ g1) as Hdis.
  { intros k Hk2 Hk1. destruct (S2 k Hk2) as [b Hb]. rewrite H1, bool_decide_eq_true_2 in Hb; done. }
  split; [apply NoDup_app; naive_solver|]. split.
  - intros k [Hk|Hk]%elem_of_app; [by apply S1|]. destruct (S2 k Hk) as [b Hb]. rewrite H1 in Hb.
    rewrite bool_decide_eq_false_2 in Hb by auto. by exists b.
  - intros k. rewrite H2, H1. repeat case_bool_decide; set_solver.
Qed.

Lemma without_count gone s s' : without gone s s' → receipt_count s = (length gone + receipt_count s')%nat.
Proof.
  intros (Hd & Hs & H). unfold receipt_count. rewrite <- (length_fmap fst (entries s)), <- (length_fmap fst (entries s')).
  rewrite <- length_app. apply Permutation_length, NoDup_Permutation; [apply NoDup_entry_keys| |].
  - apply NoDup_app. split_and!; [done| |apply NoDup_entry_keys].
    intros k Hk ([k' b] & -> & Hin%elem_of_entries)%list_elem_of_fmap. cbn in *.
    by rewrite H, bool_decide_eq_true_2 in Hin.
  - intros k. rewrite elem_of_app, !list_elem_of_fmap. split.
    + intros ([k' b] & -> & Hin%elem_of_entries). cbn. destruct (decide (k' ∈ gone)); [by left|].
      right. exists (k', b). split; [done|]. apply elem_of_entries. by rewrite H, bool_decide_eq_false_2.
    + intros [Hk|([k' b] & -> & Hin%elem_of_entries)].
      * destruct (Hs k Hk) as [b Hb]. exists (k, b). split; [done|]. by apply elem_of_entries.
      * rewrite H in Hin. case_bool_decide; [done|]. exists (k', b). split; [done|]. by apply elem_of_entries.
Qed.

(** ** Requests that succeed *)

Lemma runs_bind_ok {A B} (m : idem A) (f : A → idem B) s b s' :
  runs idem_serve (m ≫= f) s (Ok b) s' →
  ∃ a s1, runs idem_serve m s (Ok a) s1 ∧ runs idem_serve (f a) s1 (Ok b) s'.
Proof.
  intros (r & s1 & Hm & H)%runs_bind. destruct r as [a| | |]; [by exists a, s1|by destruct H..].
Qed.

Lemma runs_pure_ok {A} (o : outcome IdempotencyError A) s a s' :
  runs idem_serve (pure_step o) s (Ok a) s' → o = Ok a ∧ s' = s.
Proof. by intros [-> ->]. Qed.

Lemma runs_list s l s' :
  runs idem_serve (on_db (DbListRecords IDEMPOTENCY_COLLECTION)) s (Ok l) s' → l = entries s ∧ s' = s.
Proof.
  intros (x & Hx & E)%runs_try. cbn in Hx. rewrite with_own_db in Hx.
  destruct Hx as [[-> ->]|[[e ->] _]]; [|done]. by injection E as ->.
Qed.

(** Deleting a receipt that is stored. *)
Lemma runs_delete k b s d s' :
  runs idem_serve (on_db (DbCompareAndDelete IDEMPOTENCY_COLLECTION k b)) s (Ok d) s' →
  receipt s k = Some b → d = true ∧ without [k] s s'.
Proof.
  intros (x & Hx & E)%runs_try Hk. cbn in Hx. unfold compare_and_delete_record in Hx.
  rewrite bool_decide_eq_true_2 in Hx by done.
  destruct Hx as [[-> ->]|[[e ->] _]]; [|done]. injection E as ->. split; [done|].
  split; [apply NoDup_singleton|]. split; [by intros k' ->%list_elem_of_singleton; exists b|].
  intros k'. unfold receipt, get_record. cbn. case_bool_decide as Hin.
  - apply list_elem_of_singleton in Hin as ->. apply lookup_delete_eq.
  - rewrite lookup_delete_ne; [done|]. intros [= <-]. apply Hin. by left.
Qed.

(** ** The two loops *)

(** The entries of a list are stored, each key once. *)
Definition stored_once (s : idem_state) (l : list (string * list byte)) : Prop :=
  NoDup l.*1 ∧ ∀ k b, (k, b) ∈ l → receipt s k = Some b.

Lemma stored_once_tail s s' gone k b l :
  stored_once s ((k, b) :: l) → without gone s s' → (∀ k', k' ∈ gone → k' = k) → stored_once s' l.
Proof.
  intros [Hd Hs] (_ & _ & H) Hg. cbn in Hd. apply NoDup_cons in Hd as [Hn Hd]. split; [done|].
  intros k' b' Hin. rewrite H, bool_decide_eq_false_2; [by apply Hs; right|].
  intros ->%Hg. apply Hn, list_elem_of_fmap. by exists (k, b').
Qed.

Definition expired_entry (st : IdempotencyStore) (now : Z) (b : list byte) (expired : bool) : Prop :=
  ∃ r, idem_decode b = Ok r ∧ is_expired r now (ttl_ms st) = Ok expired.

Lemma prune_expired_spec st now l : ∀ s n recs s',
  stored_once s l → runs idem_serve (prune_expired st now l) s (Ok (n, recs)) s' →
  ∃ gone, without gone s s' ∧ n = length gone ∧ l.*1 ≡ₚ gone ++ recs.*1.*1 ∧
    (∀ k, k ∈ gone → ∃ b, (k, b) ∈ l ∧ expired_entry st now b true) ∧
    (∀ k b r, (k, b, r) ∈ recs → (k, b) ∈ l ∧ idem_decode b = Ok r ∧ is_expired r now (ttl_ms st) = Ok false).
Proof.
  induction l as [|[k b] l IH]; intros s n recs s' Hl; cbn [prune_expired].
  { intros [[= -> ->] ->]. exists []. split_and!; [apply without_nil|done|done|set_solver|set_solver]. }
  intros (r & s1 & [Hr ->]%runs_pure_ok & H)%runs_bind_ok.
  apply runs_bind_ok in H as (expired & s2 & [He ->]%runs_pure_ok & H). destruct expired.
  - apply runs_bind_ok in H as (d & s3 & Hdel & H). apply runs_delete in Hdel as [-> Hw1]; [|by apply Hl; left].
    apply runs_bind_ok in H as ([n' recs'] & s4 & Hrest & H). destruct H as [[= -> ->] ->].
    destruct (IH _ _ _ _ ltac:(eapply stored_once_tail; [done|done|set_solver]) Hrest)
      as (gone & Hw2 & -> & Hp & Hg & Hrecs).
    exists (k :: gone). split_and!; [by eapply (without_trans [k])|done|cbn; by rewrite Hp| |].
    + intros k' [->|Hk']%elem_of_cons; [exists b; split; [by left|by exists r]|].
      destruct (Hg _ Hk') as (b' & ? & ?). exists b'. split; [by right|done].
    + intros k' b' r' Hin. destruct (Hrecs _ _ _ Hin) as [? ?]. split; [by right|done].
  - apply runs_bind_ok in H as ([n' recs'] & s4 & Hrest & H). destruct H as [[= -> ->] ->].
    destruct (IH _ _ _ _ ltac:(eapply stored_once_tail; [done|apply without_nil|set_solver]) Hrest)
      as (gone & Hw2 & -> & Hp & Hg & Hrecs).
    exists gone. split_and!; [done|done|cbn; by rewrite Hp, Permutation_middle| |].
    + intros k' Hk'. destruct (Hg _ Hk') as (b' & ? & ?). exists b'. split; [by right|done].
    + intros k' b' r' [[= -> -> ->]|Hin]%elem_of_cons; [split; [by left|done]|].
      destruct (Hrecs _ _ _ Hin) as [? ?]. split; [by right|done].
Qed.

Lemma evict_spec (l : list entry) : ∀ excess s n left s',
  stored_once s l.*1 → runs idem_serve (evict excess l) s (Ok (n, left)) s' →
  let gone := take excess l in
  without gone.*1.*1 s s' ∧ n = length gone ∧ left = (excess - length l)%nat.
Proof.
  induction l as [|[[k b] r] l IH]; intros excess s n left s' Hl; cbn [evict].
  { intros [[= -> ->] ->]. destruct excess; (split_and!; [apply without_nil|done|cbn; lia]). }
  destruct excess as [|fewer].
  { intros [[= -> ->] ->]. split_and!; [apply without_nil|done|done]. }
  intros (d & s1 & Hdel & H)%runs_bind_ok. apply runs_delete in Hdel as [-> Hw1]; [|by apply Hl; left].
  apply runs_bind_ok in H as ([n' left'] & s2 & Hrest & H). destruct H as [[= -> ->] ->].
  destruct (IH _ _ _ _ _ ltac:(eapply stored_once_tail; [done|done|set_solver]) Hrest) as (Hw2 & -> & ->).
  cbn. split_and!; [by eapply (without_trans [k])|done|lia].
Qed.

(** ** The order of eviction *)

#[local] Instance receipt_le_trans : Transitive receipt_le.
Proof.
  intros [[k1 b1] r1] [[k2 b2] r2] [[k3 b3] r3]. unfold receipt_le. cbn.
  destruct (ir_completion_time_unix_ms r1), (ir_completion_time_unix_ms r2), (ir_completion_time_unix_ms r3);
    try done.
  - intros [H1|[-> H1]] [H2|[-> H2]]; [left; lia|by left|by left|right; split; [done|by trans k2]].
  - intros. by trans k2.
Qed.

#[local] Instance receipt_le_total : Total receipt_le.
Proof.
  intros [[k1 b1] r1] [[k2 b2] r2]. unfold receipt_le. cbn.
  destruct (ir_completion_time_unix_ms r1) as [x|], (ir_completion_time_unix_ms r2) as [y|];
    [|by right|by left|apply (total String.le)].
  destruct (Z.lt_trichotomy x y) as [|[->|]]; [by left; left| |by right; left].
  destruct (total String.le k1 k2); [left|right]; by right.
Qed.

Lemma sorted_prefix (l : list entry) n a b : a ∈ take n l → b ∈ drop n l → StronglySorted receipt_le l → receipt_le a b.
Proof.
  intros Ha Hb Hs. rewrite <- (take_drop n l) in Hs. exact (StronglySorted_app_1_elem_of receipt_le _ _ _ _ Hs Ha Hb).
Qed.

(** The survivors of the first loop whose receipts are complete, oldest first. *)
Definition completed_of (recs : list entry) : list entry :=
  merge_sort receipt_le (List.filter (λ r, is_some (ir_response r.2)) recs).

Lemma elem_of_completed recs e : e ∈ completed_of recs ↔ e ∈ recs ∧ is_some (ir_response e.2) = true.
Proof. unfold completed_of. by rewrite merge_sort_Permutation, elem_of_bool_filter. Qed.

Lemma NoDup_filtered_keys (p : entry → bool) recs :
  NoDup recs.*1.*1 → NoDup (List.filter p recs).*1.*1.
Proof.
  induction recs as [|[[k b] r] recs IH]; [done|]. cbn. intros [Hn Hd]%NoDup_cons.
  destruct (p (k, b, r)); [|by apply IH]. cbn. constructor; [|by apply IH].
  rewrite list_elem_of_fmap. intros (e & -> & (e' & -> & Hin)%list_elem_of_fmap). apply Hn.
  apply list_elem_of_fmap. exists e'.1. split; [done|]. apply list_elem_of_fmap. exists e'.
  split; [done|]. by apply elem_of_bool_filter in Hin as [? _].
Qed.

(** The first loop leaves the completed receipts in the store. *)
Lemma completed_stored s s1 gone recs :
  without gone s s1 → (entries s).*1 ≡ₚ gone ++ recs.*1.*1 →
  (∀ k b r, (k, b, r) ∈ recs → (k, b) ∈ entries s) → stored_once s1 (completed_of recs).*1.
Proof.
  intros (_ & _ & Hw) Hp Hrecs. pose proof (NoDup_entry_keys s) as Hd. rewrite Hp in Hd.
  apply NoDup_app in Hd as (_ & Hdis & Hd). split.
  - unfold completed_of. rewrite merge_sort_Permutation. by apply NoDup_filtered_keys.
  - intros k b ([[k' b'] r] & [= -> ->] & [Hin _]%elem_of_completed)%list_elem_of_fmap.
    rewrite Hw, bool_decide_eq_false_2; [by eapply elem_of_entries, Hrecs|].
    intros Hgone. apply (Hdis _ Hgone), list_elem_of_fmap. exists (k', b'). split; [done|].
    apply list_elem_of_fmap. by exists (k', b', r).
Qed.

(** What a successful prune does to the receipts, in terms of its two loops. *)
Lemma prune_runs st reserve s n s' :
  runs idem_serve (prune_with_reserve st reserve) s (Ok n) s' →
  ∃ now gone recs evicted,
    without (gone ++ evicted.*1.*1) s s' ∧ n = (length gone + length evicted)%nat ∧
    (entries s).*1 ≡ₚ gone ++ recs.*1.*1 ∧
    (∀ k, k ∈ gone → ∃ b, (k, b) ∈ entries s ∧ expired_entry st now b true) ∧
    (∀ k b r, (k, b, r) ∈ recs → (k, b) ∈ entries s ∧ idem_decode b = Ok r ∧ is_expired r now (ttl_ms st) = Ok false) ∧
    (∃ m, evicted = take m (completed_of recs)) ∧
    (length recs - length evicted <= max_entries st - reserve)%nat.
Proof.
  unfold prune_with_reserve. intros (now & s1 & Hnow & H)%runs_bind_ok.
  destruct Hnow as (x & s2 & -> & _ & ->). apply runs_bind_ok in H as (l & s2 & [-> ->]%runs_list & H).
  apply runs_bind_ok in H as ([deleted recs] & s2 & Hexp & H).
  assert (stored_once s (entries s)) as Hstored.
  { split; [apply NoDup_entry_keys|]. intros k b. apply elem_of_entries. }
  apply prune_expired_spec in Hexp as (gone & Hw & -> & Hp & Hg & Hrecs); [|done].
  exists now, gone, recs. destruct (Nat.ltb_spec (max_entries st - reserve) (length recs)) as [Hlt|Hle].
  - apply runs_bind_ok in H as ([more excess] & s3 & Hev & H). fold (completed_of recs) in Hev.
    apply runs_bind_ok in H as (? & s4 & [Hx%fail_if_Ok ->]%runs_pure_ok & H). destruct H as [[= ->] ->].
    apply evict_spec in Hev as (Hw2 & -> & Hleft).
    2:{ eapply completed_stored; [exact Hw|exact Hp|]. intros k b r Hin. by apply Hrecs in Hin as [? _]. }
    eexists. split_and!; [by eapply without_trans|done|done|done|done|by eexists|].
    rewrite length_take. apply Nat.ltb_ge in Hx. subst excess. lia.
  - destruct H as [[= ->] ->]. exists []. split_and!; [by rewrite app_nil_r|by rewrite Nat.add_0_r|done..| |cbn; lia].
    by exists 0%nat.
Qed.

Lemma entry_key (l : list entry) k b r : (k, b, r) ∈ l → k ∈ l.*1.*1.
Proof.
  intros Hin. apply list_elem_of_fmap. exists (k, b). split; [done|].
  apply list_elem_of_fmap. by exists (k, b, r).
Qed.

Lemma elem_of_take_in {A} (x : A) n l : x ∈ take n l → x ∈ l.
Proof. intros Hx. rewrite <- (take_drop n l). apply elem_of_app. by left. Qed.

(** A stored receipt is expired or survives the first loop. *)
Lemma entry_cases s gone (recs : list entry) :
  (entries s).*1 ≡ₚ gone ++ recs.*1.*1 → (∀ k b r, (k, b, r) ∈ recs → (k, b) ∈ entries s) →
  ∀ k b, receipt s k = Some b → k ∈ gone ∨ ∃ r, (k, b, r) ∈ recs.
Proof.
  intros Hp Hrecs k b Hk. assert (k ∈ (entries s).*1) as Hin.
  { apply list_elem_of_fmap. exists (k, b). split; [done|]. by apply elem_of_entries. }
  rewrite Hp in Hin. apply elem_of_app in Hin as [?|Hin]; [by left|]. right.
  apply list_elem_of_fmap in Hin as (e & -> & ([[k' b'] r] & -> & Hin)%list_elem_of_fmap). cbn in *.
  pose proof (Hrecs _ _ _ Hin) as Hb%elem_of_entries. exists r. by simplify_eq.
Qed.

Lemma evicted_entry st now s (recs : list entry) m k b r :
  (∀ k b r, (k, b, r) ∈ recs → (k, b) ∈ entries s ∧ idem_decode b = Ok r ∧ is_expired r now (ttl_ms st) = Ok false) →
  receipt s k = Some b → idem_decode b = Ok r →
  k ∈ (take m (completed_of recs)).*1.*1 → (k, b, r) ∈ take m (completed_of recs).
Proof.
  intros Hrecs Hk Hr Hev.
  apply list_elem_of_fmap in Hev as (e & -> & ([[k' b'] r'] & -> & Hin)%list_elem_of_fmap). cbn in *.
  pose proof (elem_of_take_in _ _ _ Hin) as [Hin' _]%elem_of_completed.
  destruct (Hrecs _ _ _ Hin') as (Hb'%elem_of_entries & Hr' & _).
  assert (b' = b) as -> by congruence. by assert (r' = r) as -> by congruence.
Qed.

(** C38. A prune that succeeds, alone against a database that may fail: at most
    the configured number of receipts is left, less the reserve, and the number
    it reports is the number that is gone; nothing is added or changed; with the
    clock it read, exactly the expired receipts go in the first place, no pending
    receipt that has not expired is dropped, and a completed one only goes after
    all older completed ones. *)
Theorem prune_bounds (st : IdempotencyStore) (reserve : nat) (s : idem_state) (n : nat) (s' : idem_state) :
  runs idem_serve (prune_with_reserve st reserve) s (Ok n) s' →
  (receipt_count s' <= max_entries st - reserve)%nat ∧ receipt_count s = (n + receipt_count s')%nat ∧
  (∀ k b, receipt s' k = Some b → receipt s k = Some b) ∧
  ∃ now, ∀ k b, receipt s k = Some b →
    ∃ r expired, idem_decode b = Ok r ∧ is_expired r now (ttl_ms st) = Ok expired ∧
      (expired = true → receipt s' k = None) ∧
      (expired = false → ir_response r = None → receipt s' k = Some b) ∧
      (expired = false → receipt s' k = None →
       ∀ k' b' r', receipt s' k' = Some b' → idem_decode b' = Ok r' → is_some (ir_response r') = true →
         receipt_le (k, b, r) (k', b', r')).
Proof.
  intros (now & gone & recs & evicted & Hw & -> & Hp & Hg & Hrecs & [m ->] & Hlen)%prune_runs.
  pose proof (without_count _ _ _ Hw) as Hcount. rewrite length_app, !length_fmap in Hcount.
  pose proof (Permutation_length Hp) as Hl. rewrite length_app, !length_fmap in Hl.
  destruct Hw as (_ & _ & Hw). unfold receipt_count in *.
  pose proof (NoDup_entry_keys s) as Hd. rewrite Hp in Hd. apply NoDup_app in Hd as (_ & Hdis & _).
  split; [lia|]. split; [lia|]. split; [intros k b; rewrite Hw; by case_bool_decide|].
  exists now. intros k b Hk. destruct (entry_cases s gone recs Hp (λ k b r H, proj1 (Hrecs k b r H)) k b Hk)
    as [Hgone|[r Hin]].
  - destruct (Hg k Hgone) as (b' & Hb'%elem_of_entries & r & Hr & He). simplify_eq. exists r, true.
    split_and!; [done|done| |done|done]. intros _. rewrite Hw, bool_decide_eq_true_2; [done|set_solver].
  - destruct (Hrecs _ _ _ Hin) as (_ & Hr & He). exists r, false.
    assert (k ∉ gone) as Hng by (intros Hx; by eapply (Hdis _ Hx), entry_key).
    assert (k ∈ (take m (completed_of recs)).*1.*1 → (k, b, r) ∈ take m (completed_of recs)) as Hev
      by (by apply (evicted_entry st now s)).
    split_and!; [done|done|done| |].
    + intros _ Hpend. rewrite Hw, bool_decide_eq_false_2; [done|]. intros [?|Hx%Hev]%elem_of_app; [done|].
      apply elem_of_take_in, elem_of_completed in Hx as [_ Hx]. cbn in Hx. by rewrite Hpend in Hx.
    + intros _ Hgone k' b' r' Hk' Hr' Hc'. rewrite Hw in Hgone. case_bool_decide as Hx; [|congruence]. rewrite Hw in Hk'.
      apply elem_of_app in Hx as [?|Hx%Hev]; [done|]. case_bool_decide as Hy; [done|].
      apply (sorted_prefix (completed_of recs) m); [done| |apply StronglySorted_merge_sort; apply _].
      destruct (entry_cases s gone recs Hp (λ k b r H, proj1 (Hrecs k b r H)) k' b' Hk') as [?|[r'' Hin']];
        [set_solver|].
      destruct (Hrecs _ _ _ Hin') as (_ & Hr'' & _). assert (r'' = r') as -> by congruence.
      assert ((k', b', r') ∈ completed_of recs) as Hall by (by apply elem_of_completed).
      rewrite <- (take_drop m), elem_of_app in Hall. destruct Hall as [Hall|]; [|done].
      exfalso. apply Hy, elem_of_app. right. by eapply entry_key.
Qed.

End Prune.
