(* ===== verification/FlowRules.v ===== *)
(** * FlowRules: reasoning about the requests of a flow

    What the collaborators of a flow may answer when other callers run beside it,
    and the rules by which a flow is shown to make only admissible requests. The
    change records are shared: other callers change them as the ledger allows.
    Projects, roles and configurations stay as they are during one call. *)
From S2P Require Import Prelude RustStd SchemaTypes ChangeModel Prog ObjectDb RecordStore AccessStore Repository Idempotency CoreTypes Integrity Access AccessProps AccessEffects ChangeStore ChangeLedger LedgerProps Flow FlowProps Writes.

Open Scope Z_scope.

Record shared := mkShared {
  sh_core : core_state;
  sh_changes : store;
}.

(** The schemas of the trees that refs resolve to: project, repository, schema
    name, ref. *)
Definition trees : Type := string → string → string → RefSpec → option SchemaObjects.

(** A schema is loaded as it is in the tree, or the load fails; "not found" is
    only answered for what the tree does not have. *)
Definition loads_from (stored : option SchemaObjects) (x : outcome JjError SchemaObjects) : Prop :=
  match x with
  | Ok schema => stored = Some schema
  | Err (JjSchemaNotFound _) | Err (JjBookmarkNotFound _) | Err (JjTagNotFound _) => stored = None
  | _ => True
  end.

Definition jj_answer (tree : trees) (X : Type) (q : jj_req X) : X → Prop :=
  match q in jj_req X return X → Prop with
  | JjLoadSchema project repo schema at_ref => loads_from (tree project repo schema at_ref)
  | _ => λ _, True
  end.

(** Stores answer as in [AccessProps] and [LedgerProps]; receipts, clock and the
    other jj requests in any way. *)
Definition flow_answer `{AccessJson, RepositoryJson} (tree : trees) (X : Type) (q : flow_req X) (s : shared) :
    X → shared → Prop :=
  match q in flow_req X return X → shared → Prop with
  | OnCore q => λ x s', ∃ c, core_serve _ q (sh_core s) x c ∧ s' = mkShared c (sh_changes s)
  | OnLedger q => λ x s', ∃ l, serve _ q (sh_changes s) x l ∧ s' = mkShared (sh_core s) l
  | OnJj q => λ x s', s' = s ∧ jj_answer tree _ q x
  | _ => λ _ s', s' = s
  end.

(** What other callers do between two requests. *)
Definition others `{RustFmt} (s s' : shared) : Prop :=
  sh_core s' = sh_core s ∧ rtc guar (sh_changes s) (sh_changes s').

(** ** Requests that change nothing and publish nothing *)

Definition harmless (X : Type) (q : flow_req X) : Prop :=
  match q with
  | OnIdem _ | DeadlineExceeded => True
  | OnJj (JjResolveRefOrRoot _ _ _) | OnJj (JjValidateRevision _ _ _) | OnJj (JjLoadSchema _ _ _ _)
  | OnJj (JjListSchemas _ _ _) | OnJj (JjListConflictedDeclarations _ _ _)
  | OnJj (JjFindCorrelatedWrite _ _ _ _) => True
  | _ => False
  end.

Fixpoint quiet {A} (m : prog flow_req A) : Prop :=
  match m with
  | Ret _ => True
  | Call q k => harmless _ q ∧ ∀ x, quiet (k x)
  end.

Lemma quiet_bind {A B} (m : prog flow_req A) (f : A → prog flow_req B) :
  quiet m → (∀ a, quiet (f a)) → quiet (prog_bind m f).
Proof. intros Hm Hf. induction m as [a|X q k IH]; cbn in *; naive_solver. Qed.

Lemma quiet_then {A B} (m : flow A) (f : A → flow B) : quiet m → (∀ a, quiet (f a)) → quiet (m ≫= f).
Proof. intros Hm Hf. apply quiet_bind; [done|]. by intros [a| | |]; cbn; auto. Qed.

Lemma quiet_idem {A} (m : idem A) : quiet (in_idem m).
Proof.
  unfold in_idem. apply quiet_bind; [|done]. induction m as [a|X q k IH]; [done|]. by split.
Qed.

Create HintDb quiet.

Section Quiet.
Context {IJ : IdempotencyJson} {SH : Sha256} {HX : Hex} {RF : RustFmt} (co : Core).

Lemma quiet_find project repo bookmark attempt : quiet (find_correlated project repo bookmark attempt).
Proof. done. Qed.

#[local] Hint Resolve quiet_idem quiet_find : quiet.

Lemma quiet_replay scope key fingerprint project repo bookmark :
  quiet (replay_idempotent_write co scope key fingerprint project repo bookmark).
Proof.
  destruct key as [key|]; [|done]. cbn [replay_idempotent_write]. apply quiet_then; [auto with quiet|].
  intros [| |response|a live]; try done. apply quiet_then; [auto with quiet|].
  intros [w|]; [|by destruct live]. apply quiet_then; [auto with quiet|done].
Qed.

Lemma quiet_begin scope key fingerprint project repo bookmark :
  quiet (begin_idempotent_write co scope key fingerprint project repo bookmark).
Proof.
  destruct key as [key|]; [|done]. cbn [begin_idempotent_write]. apply quiet_then; [auto with quiet|].
  intros [|response|a|a]; try done; (apply quiet_then; [auto with quiet|]; intros [w|]; [|done];
    apply quiet_then; [auto with quiet|done]).
Qed.

Lemma quiet_complete attempt response : quiet (complete_idempotent_write co attempt response).
Proof. destruct attempt; [apply quiet_idem|done]. Qed.

Lemma quiet_abort attempt : quiet (abort_idempotent_write attempt).
Proof. destruct attempt; [apply quiet_idem|done]. Qed.

Lemma quiet_base_revision project repo revision : quiet (validate_base_revision project repo revision).
Proof. by destruct revision. Qed.

Lemma quiet_immutable_base project repo bookmark : quiet (immutable_bookmark_base project repo bookmark).
Proof. by apply quiet_then. Qed.

Lemma quiet_deadline deadline : quiet (ensure_before_deadline deadline).
Proof. by destruct deadline. Qed.

Lemma quiet_dependents target at_ref overrides conflicts resolution names :
  quiet (dependents_among co target at_ref overrides conflicts resolution names).
Proof.
  induction names as [|n names IH]; [done|]. cbn [dependents_among]. cbv zeta.
  assert (∀ schema : SchemaObjects,
    quiet (compiler ← flow_step (compiler_for (c_registry co) n);
           imports ← flow_step (map_err CoreRead (cp_imports compiler schema));
           found ← flow_step (imports_schema (mkSchemaPath (sp_project target) (sp_repo target) n) target
                                resolution imports);
           dependents ← dependents_among co target at_ref overrides conflicts resolution names;
           mret (if found : bool then n :: dependents else dependents) : flow (list string))) as Hs.
  { intros schema. do 3 (apply quiet_then; [done|]; intros ?). apply quiet_then; [exact IH|done]. }
  destruct (bool_decide _); [exact IH|]. destruct (overrides !! n) as [[schema|]|]; [apply Hs|exact IH|].
  apply quiet_then; [done|]. intros ?. apply quiet_then; [done|]. apply Hs.
Qed.

Lemma quiet_live_dependents target at_ref overrides :
  quiet (live_unpinned_dependents co target at_ref overrides).
Proof. do 2 (apply quiet_then; [done|]; intros ?). apply quiet_dependents. Qed.

Lemma quiet_no_dependents target at_ref : quiet (ensure_no_live_dependents co target at_ref).
Proof. apply quiet_then; [apply quiet_live_dependents|done]. Qed.

End Quiet.

#[export] Hint Resolve quiet_idem quiet_find quiet_replay quiet_begin quiet_complete quiet_abort
  quiet_base_revision quiet_immutable_base quiet_deadline quiet_live_dependents quiet_no_dependents : quiet.

(** ** Rules *)

Section Rules.
Context {J : AccessJson} {RJ : RepositoryJson} {RF : RustFmt} (tree : trees).
Context (ask : ∀ X, flow_req X → shared → Prop).
Hypothesis Hharmless : ∀ X (q : flow_req X) s, harmless X q → ask X q s.
Hypothesis Hcore : ∀ X (q : core_req X) s, ask X (OnCore q) s.

Definition asking {A} (s : shared) (m : flow A) (P : A → shared → Prop) : Prop :=
  asks (flow_answer tree) others ask m (if_ok P) s.

#[export] Instance others_preorder : PreOrder others.
Proof.
  split; [by intros s|]. intros s1 s2 s3 [H1 H2] [H3 H4]. split; [congruence|]. by trans (sh_changes s2).
Qed.

Lemma asking_mono {A} s (m : flow A) (P P' : A → shared → Prop) :
  (∀ a s', P a s' → P' a s') → asking s m P → asking s m P'.
Proof. intros HP. apply asks_mono. intros [a| | |] s'; cbn; auto. Qed.

Lemma ask_step {A B} s (m : flow A) (f : A → flow B) P P' :
  asking s m P → (∀ a s', P a s' → asking s' (f a) P') → asking s (m ≫= f) P'.
Proof.
  intros Hm Hf. apply asks_bind. eapply asks_mono; [|exact Hm].
  intros [a| | |] s'; cbn; try done. apply Hf.
Qed.

Lemma ask_quiet {A} s (m : flow A) : quiet m → asking s m (λ _, others s).
Proof.
  revert s. induction m as [r|X q k IH]; intros s Hm; [by destruct r|]. destruct Hm as [Hq Hk].
  intros s1 Hs1. split; [by apply Hharmless|]. intros x s2 Hx.
  assert (s2 = s1) as -> by (destruct q; try done; by destruct Hx).
  eapply asking_mono; [|apply IH, Hk]. intros a s2 Hs2. by trans s1.
Qed.

Lemma ask_quiet_step {A B} s (m : flow A) (f : A → flow B) P' :
  quiet m → (∀ a s', others s s' → asking s' (f a) P') → asking s (m ≫= f) P'.
Proof. intros Hm. apply ask_step. by apply ask_quiet. Qed.

Lemma ask_pure {A B} s (o : outcome CoreError A) (f : A → flow B) P' :
  (∀ a, o = Ok a → asking s (f a) P') → asking s (flow_step o ≫= f) P'.
Proof. intros H. destruct o; [by apply H|done..]. Qed.

Lemma ask_core {A B} s (m : core A) (f : A → flow B) P' :
  read_only core_serve m →
  (∀ a s', others s s' → runs core_serve m (sh_core s) (Ok a) (sh_core s) → asking s' (f a) P') →
  asking s (in_core m ≫= f) P'.
Proof.
  intros Hm Hf.
  apply (ask_step s _ _ (λ a s', others s s' ∧ runs core_serve m (sh_core s) (Ok a) (sh_core s)));
    [|naive_solver]. clear Hf f P'.
  revert s. unfold in_core. induction m as [r|X q k IH]; intros s; [by destruct r|]. destruct Hm as [Hq Hk].
  intros s1 Hs1. split; [apply Hcore|]. intros x s2 (c & Hx & ->). pose proof (Hq _ _ _ Hx) as ->.
  eapply asking_mono; [|apply (IH x (Hk x))]. intros a s2 [Hs2 Ha]. cbn [sh_core] in *.
  assert (mkShared (sh_core s1) (sh_changes s1) = s1) as E by (by destruct s1). rewrite E in *.
  split; [by trans s1|]. destruct Hs1 as [Hc _]. rewrite Hc in *. exists x, (sh_core s). done.
Qed.

(** Loading a schema. *)
Lemma ask_load {A B} s project repo name at_ref (k : outcome JjError SchemaObjects → flow A) (f : A → flow B) P' :
  (∀ x, loads_from (tree project repo name at_ref) x → ∃ o, k x = Ret o) →
  (∀ x a s', others s s' → loads_from (tree project repo name at_ref) x → k x = Ret (Ok a) →
     asking s' (f a) P') →
  asking s (Call (OnJj (JjLoadSchema project repo name at_ref)) k ≫= f) P'.
Proof.
  intros Hk Hf s1 Hs1. split; [by apply Hharmless|]. intros x s2 [-> Hx]. cbn [jj_answer] in Hx.
  destruct (Hk x Hx) as [o Ho]. specialize (Hf x). rewrite Ho in *. destruct o as [a| | |]; try done.
  by apply Hf.
Qed.

Lemma ask_load_base {B} s project repo name at_ref (f : SchemaObjects → flow B) P' :
  (∀ s', others s s' →
     asking s' (f (default schema_objects_default (tree project repo name at_ref))) P') →
  asking s (load_base project repo name at_ref ≫= f) P'.
Proof.
  intros Hf. apply ask_load.
  - intros x _. destruct x as [o|[]| |]; by eexists.
  - intros x a s' Hs' Hx Ha. specialize (Hf s' Hs').
    destruct x as [o|[]| |]; try done; injection Ha as <-; cbn in Hx; by rewrite Hx in Hf.
Qed.

Lemma ask_load_schema {B} s project repo name at_ref (f : SchemaObjects → flow B) P' :
  (∀ schema s', others s s' → tree project repo name at_ref = Some schema → asking s' (f schema) P') →
  asking s (on_jj (JjLoadSchema project repo name at_ref) ≫= f) P'.
Proof.
  intros Hf. apply ask_load; [by eexists|]. intros x a s' Hs' Hx Ha.
  destruct x as [o| | |]; try done. injection Ha as <-. by apply Hf.
Qed.

Lemma ask_immutable_base {B} s project repo bookmark (f : RefSpec → flow B) P' :
  (∀ commit s', others s s' → asking s' (f (RefCommit commit)) P') →
  asking s (immutable_bookmark_base project repo bookmark ≫= f) P'.
Proof.
  intros Hf s1 Hs1. split; [by apply Hharmless|]. intros x s2 [-> _]. destruct x; [by apply Hf|done..].
Qed.

(** *** Configuration *)

Context (co : Core).

(** The configuration in force for a repository that is not archived. *)
Definition config_in_force (s : core_state) (project repo : string) (config : RepoConfig) : Prop :=
  match cs_repos s !! repo_resource_name project repo with
  | Some repository => rp_archived repository = false ∧ config = rp_config repository
  | None => config = config_get project repo (c_repo_configs co)
  end.

Lemma effective_config_read_only project repo :
  read_only core_serve (effective_repo_config (c_repo_configs co) project repo).
Proof.
  apply read_only_then; [by split; [apply reads_repository|]|]. intros [r|]; [|done]. by destruct (rp_archived r).
Qed.

Lemma direct_write_read_only project repo :
  read_only core_serve (ensure_direct_write_allowed (c_repo_configs co) project repo).
Proof. apply read_only_then; [apply effective_config_read_only|done]. Qed.

Lemma runs_effective_config s project repo config :
  runs core_serve (effective_repo_config (c_repo_configs co) project repo) s (Ok config) s →
  config_in_force s project repo config.
Proof.
  intros (o & Ho & H)%runs_ok_step; [|by split; [apply reads_repository|]].
  apply runs_repo_get in Ho as ->. unfold config_in_force.
  destruct (cs_repos s !! repo_resource_name project repo) as [r|].
  - destruct (rp_archived r); [by destruct H|]. by destruct H as [[= ->] _].
  - by destruct H as [[= ->] _].
Qed.

Lemma config_in_force_fun s project repo c c' :
  config_in_force s project repo c → config_in_force s project repo c' → c = c'.
Proof. unfold config_in_force. case_match; naive_solver congruence. Qed.

Lemma runs_direct_write s project repo x :
  runs core_serve (ensure_direct_write_allowed (c_repo_configs co) project repo) s (Ok x) s →
  ∃ config, config_in_force s project repo config ∧ require_change_record (review_policy config) = false.
Proof.
  intros (config & Hc & H)%runs_ok_step; [|apply effective_config_read_only].
  exists config. split; [by apply runs_effective_config|]. by apply runs_repo_fail_if in H.
Qed.

Lemma ask_config {B} s project repo (f : RepoConfig → flow B) P' :
  (∀ config s', others s s' → config_in_force (sh_core s) project repo config → asking s' (f config) P') →
  asking s (in_core (effective_repo_config (c_repo_configs co) project repo) ≫= f) P'.
Proof.
  intros Hf. apply ask_core; [apply effective_config_read_only|].
  intros config s' Hs' Hc%runs_effective_config. by apply Hf.
Qed.

End Rules.

(** Facts about the core are facts about the state a call started in. *)
Ltac settle_core :=
  repeat match goal with
  | H : others _ _ |- _ => destruct H as [H _]
  end;
  repeat match goal with
  | H : sh_core _ = sh_core _ |- _ => rewrite H in *; clear H
  end.
