(* ===== verification/QueryRules.v ===== *)
(** * QueryRules: reasoning about the requests of a query

    What the collaborators of a query may answer, which requests a query is
    allowed to make, and the rules by which the operations of [Queries],
    [Dependencies], [History] and [Serving] are shown to stay within them. A
    commit is immutable: what is stored at it does not change, while refs may
    move between any two requests. Projects, roles and configurations stay as
    they are during one call. *)
From S2P Require Import Prelude RustStd SchemaTypes Prog ObjectDb RecordStore AccessStore Repository Idempotency CoreTypes Integrity Access AccessProps AccessEffects Flow FlowProps FlowRules Queries Dependencies History Serving.
From Stdlib Require Import Strings.Byte.

Open Scope Z_scope.

(** ** What is stored at a commit *)

Record snapshot := mkSnapshot {
  sn_schemas : gmap string SchemaObjects;
  sn_listed : list string;
}.

(** The commits of the repositories (project, repository, commit), and the form
    in which jj prints the id of a commit. *)
Record commits := mkCommits {
  at_commit : string → string → string → option snapshot;
  canonical : string → string;
}.

Definition schema_at (h : commits) (path : SchemaPath) (commit : string) : option SchemaObjects :=
  sn ← at_commit h (sp_project path) (sp_repo path) commit;
  sn_schemas sn !! sp_schema_name path.

(** The names of the schemas of a commit. *)
Definition names_at (h : commits) (path : SchemaPath) (commit : string) : gset string :=
  match at_commit h (sp_project path) (sp_repo path) commit with
  | Some sn => list_to_set (sn_listed sn)
  | None => ∅
  end.

(** ** Answers *)

(** Artifact records are created and never changed. *)
Definition grow (d d' : Inner) : Prop :=
  ∀ key v, get_record ARTIFACT_COLLECTION key d = Some v → get_record ARTIFACT_COLLECTION key d' = Some v.

#[export] Instance grow_preorder : PreOrder grow.
Proof. split; [by intros d key v|]. intros d1 d2 d3 H1 H2 key v H. by apply H2, H1. Qed.

Section Rules.
Context {AN : AuthnProvider} {J : AccessJson} {RJ : RepositoryJson} {HO : HashOrder} {RF : RustFmt}.
Context (co : Core) (c : core_state) (h : commits) (token : option string).

Definition jj_at_commit (X : Type) (q : jj_req X) : X → Prop :=
  match q in jj_req X return X → Prop with
  | JjLoadSchema project repo name (RefCommit commit) =>
    loads_from (schema_at h (mkSchemaPath project repo name) commit)
  | JjListSchemas project repo (RefCommit commit) => λ x,
    ∀ l, x = Ok l → ∃ sn, at_commit h project repo commit = Some sn ∧ l = sn_listed sn
  | _ => λ _, True
  end.

(** The jj layer always answers; refs resolve to ids in canonical form. *)
Definition jj_answers (X : Type) (q : jj_req X) : X → Prop :=
  match q in jj_req X return X → Prop with
  | JjResolveRefOrRoot _ _ _ | JjValidateRevision _ _ _ | JjLoadSchema _ _ _ _ | JjListSchemas _ _ _
  | JjListConflictedDeclarations _ _ _ | JjFindCorrelatedWrite _ _ _ _
  | JjCommitSchemaChanges _ _ _ _ _ _ _ _ _ | JjMerge _ _ _ _ _ _ _ _ | JjCreateBookmark _ _ _ _ _ _
  | JjMoveBookmark _ _ _ _ _ _ | JjDeleteBookmark _ _ _ _ | JjCreateTag _ _ _ _ _ | JjDeleteTag _ _ _ _
  | JjGc _ => λ x, x ≠ Stuck
  end.

Definition query_answers (X : Type) (q : jj_query X) : X → Prop :=
  match q in jj_query X return X → Prop with
  | JjResolveRefId _ _ _ => λ x, x ≠ Stuck ∧ ∀ id, x = Ok id → canonical h id = id
  | JjListDeclarations _ _ _ _ | JjGetDeclaration _ _ _ _ _ | JjReadConflict _ _ _ _ _
  | JjListOperations _ _ | JjListOperationsTail _ _ _ | JjCommitLog _ _ _ _
  | JjCommitTouchesSchema _ _ _ _ | JjListRepositoryKeys | JjResolveConflict _ _ _ _ _ _ _ _
  | JjUndo _ _ _ _ => λ x, x ≠ Stuck
  end.

Definition query_at_commit (X : Type) (q : jj_query X) : X → Prop :=
  match q in jj_query X return X → Prop with
  | JjResolveRefId project repo (RefCommit commit) => λ x, ∀ id, x = Ok id → id = canonical h commit
  | _ => λ _, True
  end.

Definition query_serve (X : Type) (q : query_req X) (d : Inner) : X → Inner → Prop :=
  match q in query_req X return X → Inner → Prop with
  | QCore q => λ x d', d' = d ∧ ∃ c', core_serve _ q c x c'
  | QJj q => λ x d', d' = d ∧ jj_answers _ q x ∧ jj_at_commit _ q x
  | QQuery q => λ x d', d' = d ∧ query_answers _ q x ∧ query_at_commit _ q x
  | QRecords q => λ x d',
    let '(y, d1) := db_serve _ q d in
    (x = y ∧ d' = d1) ∨ (db_failed _ q x ∧ (d' = d ∨ d' = d1))
  end.

(** ** Admissible requests *)

(** The caller may read the project. *)
Definition may_see (project : string) : Prop :=
  ∃ who, identify token = Ok who ∧ allowed (cs_access c) who Read project.

(** And the repository is not archived. *)
Definition may_read (project repo : string) : Prop :=
  may_see project ∧ ∃ config, config_in_force co c project repo config.

(** A query reads the stores of the core, reads immutable commits of repositories
    that the caller may read, resolves their refs, and creates artifact records;
    the operation log and conflicts need the permission only. *)
Definition admissible (X : Type) (q : query_req X) (_ : Inner) : Prop :=
  match q with
  | QCore q => reads core_serve q
  | QJj (JjLoadSchema project repo _ (RefCommit _)) | QJj (JjListSchemas project repo (RefCommit _))
  | QJj (JjValidateRevision project repo _) => may_read project repo
  | QJj (JjListConflictedDeclarations project _ _) => may_see project
  | QQuery (JjResolveRefId project repo _)
  | QQuery (JjListDeclarations project repo _ (RefCommit _))
  | QQuery (JjGetDeclaration project repo _ _ (RefCommit _))
  | QQuery (JjCommitLog project repo (RefCommit _) _)
  | QQuery (JjCommitTouchesSchema project repo _ _) => may_read project repo
  | QQuery (JjReadConflict project _ _ _ _) | QQuery (JjListOperations project _)
  | QQuery (JjListOperationsTail project _ _) => may_see project
  | QQuery JjListRepositoryKeys => True
  | QRecords (DbGetRecord collection _) | QRecords (DbCreateRecord collection _ _) =>
    collection = ARTIFACT_COLLECTION
  | _ => False
  end.

(** ** Rules *)

(** All requests are admissible and every result satisfies the predicate. *)
Definition meets {A} (m : query A) (Q : outcome CoreError A → Prop) : Prop :=
  ∀ d, asks query_serve grow admissible m (λ r _, Q r) d.

(** A property of successful results; [lenient] says whether a loop may run out
    of fuel. *)
Context (lenient : Prop).

Definition on_ok {A} (P : A → Prop) (r : outcome CoreError A) : Prop :=
  match r with Ok a => P a | Stuck => lenient | _ => True end.

Abbreviation holds m P := (meets m (on_ok P)).

Lemma meets_mono {A} (m : query A) (Q Q' : outcome CoreError A → Prop) :
  (∀ r, Q r → Q' r) → meets m Q → meets m Q'.
Proof. intros HQ H d. eapply asks_mono; [|apply H]. auto. Qed.

Lemma meets_step {A B} (m : query A) (f : A → query B) (P : A → Prop) (Q : outcome CoreError B → Prop) :
  meets m (λ r, match r with Ok a => P a | Err e => Q (Err e) | Panic => Q Panic | Stuck => Q Stuck end) →
  (∀ a, P a → meets (f a) Q) → meets (m ≫= f) Q.
Proof.
  intros Hm Hf d. apply asks_bind. eapply asks_mono; [|apply Hm].
  intros [a|e| |] d' H; [by apply Hf|exact H..].
Qed.

Lemma hold_step {A B} (m : query A) (f : A → query B) (P : A → Prop) (P' : B → Prop) :
  holds m P → (∀ a, P a → holds (f a) P') → holds (m ≫= f) P'.
Proof.
  intros Hm Hf. eapply meets_step; [|exact Hf]. eapply meets_mono; [|exact Hm]. by intros [a|e| |].
Qed.

Lemma hold_mono {A} (m : query A) (P P' : A → Prop) : (∀ a, P a → P' a) → holds m P → holds m P'.
Proof. intros HP. apply meets_mono. intros [a|e| |]; cbn; auto. Qed.

Lemma hold_ret {A} (a : A) (P : A → Prop) : P a → holds (mret a) P.
Proof. by intros H d. Qed.

Lemma hold_end {A} (r : outcome CoreError A) (P : A → Prop) : on_ok P r → holds (Ret r) P.
Proof. by intros H d. Qed.

Lemma hold_pure {A} (o : outcome CoreError A) :
  (o = Stuck → lenient) → holds (query_step o) (λ a, o = Ok a).
Proof. intros H d. by destruct o; cbn; auto. Qed.

Lemma hold_core {A} (m : core A) :
  read_only core_serve m → (runs core_serve m c Stuck c → lenient) →
  holds (by_core m) (λ a, runs core_serve m c (Ok a) c).
Proof.
  induction m as [r|X q k IH]; cbn [read_only].
  - intros _ Hs d. destruct r; cbn in *; auto.
  - intros [Hq Hk] Hs d d1 _. split; [exact Hq|]. intros x d2 [-> (c' & Hx)].
    pose proof (Hq _ _ _ Hx) as ->. assert (runs core_serve (k x) c Stuck c → lenient) as Hs'.
    { intros H. apply Hs. by exists x, c. }
    specialize (IH x (Hk x) Hs' d1). eapply asks_mono; [|exact IH].
    intros [a|e| |] d2 Hr; cbn in *; auto. by exists x, c.
Qed.

Lemma hold_call {X A} (q : query_req X) (k : X → query A) (P : A → Prop) :
  (∀ d, admissible _ q d) →
  (∀ x d d', query_serve _ q d x d' → holds (k x) P) → holds (Call q k) P.
Proof. intros Hq Hk d d1 _. split; [apply Hq|]. intros x d2 Hx. by eapply Hk. Qed.

Lemma hold_jj {A} (q : jj_req (outcome JjError A)) (P : A → Prop) :
  (∀ d, admissible _ (QJj q) d) → ¬ jj_answers _ q Stuck → (∀ a, jj_at_commit _ q (Ok a) → P a) → holds (by_jj q) P.
Proof.
  intros Hq Hs HP. apply hold_call; [done|]. intros x d d' (-> & Ha & Hx). apply hold_end.
  destruct x as [a| | |]; cbn; [by apply HP|done..].
Qed.

Lemma hold_query {A} (q : jj_query (outcome JjError A)) (P : A → Prop) :
  (∀ d, admissible _ (QQuery q) d) → ¬ query_answers _ q Stuck → (∀ a, query_answers _ q (Ok a) → query_at_commit _ q (Ok a) → P a) →
  holds (by_query q) P.
Proof.
  intros Hq Hs HP. apply hold_call; [done|]. intros x d d' (-> & Ha & Hx). apply hold_end.
  destruct x as [a| | |]; cbn; [by apply HP|done..].
Qed.

Lemma hold_collect {A B} (f : A → query B) (P : A → B → Prop) (l : list A) :
  (∀ x, x ∈ l → holds (f x) (P x)) → holds (collect f l) (Forall2 P l).
Proof.
  induction l as [|x l IH]; intros H; cbn [collect]; [by apply hold_ret|].
  eapply hold_step; [apply H; by left|]. intros y Hy.
  eapply hold_step; [apply IH; intros z Hz; apply H; by right|]. intros ys Hys.
  apply hold_ret. by constructor.
Qed.

Lemma hold_observing {A} (m : query A) (P : A → Prop) :
  holds m P → holds (observing m) (λ r, r ≠ Stuck ∧ ∀ a, r = Ok a → P a).
Proof.
  intros Hm d. apply asks_bind. eapply asks_mono; [|apply Hm].
  intros [a|e| |] d' H; cbn in *; try done. split; [done|]. by intros b [= <-].
Qed.

(** ** Permissions *)

#[local] Existing Instance role_based_authz.

(** The compilers and the authentication provider return. *)
Definition compiler_returns (compiler : Compiler) : Prop :=
  (∀ o, cp_imports compiler o ≠ Stuck) ∧ (∀ b, cp_summarize_decl compiler b ≠ Stuck) ∧
  (∀ b, cp_decl_detail compiler b ≠ Stuck) ∧ (∀ b f, cp_field_type_ref compiler b f ≠ Stuck).

Context (Hreturns : lenient ∨
  (identify token ≠ Stuck ∧ ∀ name compiler, compiler_for (c_registry co) name = Ok compiler → compiler_returns compiler)).

Lemma authorize_returns project repo :
  runs core_serve (authorize token Read project repo) c Stuck c → lenient.
Proof.
  destruct Hreturns as [?|[Hid _]]; [done|]. intros H. exfalso.
  apply runs_bind in H as (r & c1 & [-> ->] & H).
  destruct (identify token) as [who| | |]; cbn [map_err] in H; try done; try (by destruct H).
  apply runs_bind in H as (r & c1 & H & H').
  destruct r as [[]| | |]; try (by destruct H'). clear H'.
  apply runs_bind in H as (r & c2 & H & [Hr _]). destruct r as [[]| | |]; try done. clear Hr c1.
  unfold authz_check, role_based_authz, role_based_check in H. cbn in H.
  destruct H as (x & s2 & [[-> ->]|[[e ->] ->]] & H); [|by destruct H]. cbn in H.
  destruct (match _ with Some m => pm_archived m | None => false end); cbn in H; [by destruct H|].
  destruct (_ && _); cbn in H; [by destruct H|].
  destruct (is_anonymous who); cbn in H; [by destruct H|].
  destruct H as (x & s3 & [[-> ->]|[[e ->] ->]] & H); [|by destruct H]. cbn in H.
  destruct (identity_id who) as [id|]; cbn in H; [|by destruct H].
  destruct (active_role _ _ _) as [role|]; cbn in H; [|by destruct H].
  by destruct H.
Qed.

Lemma config_returns project repo :
  runs core_serve (effective_repo_config (c_repo_configs co) project repo) c Stuck c → lenient.
Proof.
  intros (r & c1 & H & H')%runs_bind. exfalso.
  destruct H as (x & s2 & [[-> ->]|[[e ->] ->]] & H); destruct H as [-> ->]; cbn in H'; [|by destruct H'].
  destruct (cs_repos c !! _) as [rp|]; cbn in H'; [|by destruct H']. destruct (rp_archived rp); by destruct H'.
Qed.

Lemma hold_authorize project repo :
  holds (by_core (authorize token Read project repo)) (λ _, may_see project).
Proof.
  eapply hold_mono; [|apply hold_core; [apply authorize_read_only|apply authorize_returns]].
  intros who Hwho%runs_authorize. by exists who.
Qed.

Lemma hold_config project repo :
  holds (by_core (effective_repo_config (c_repo_configs co) project repo))
    (λ config, config_in_force co c project repo config).
Proof.
  eapply hold_mono; [|apply hold_core; [apply effective_config_read_only|apply config_returns]].
  intros config. apply runs_effective_config.
Qed.

Lemma fail_if_returns {E} (b : bool) (e : E) : fail_if b e ≠ Stuck.
Proof. by destruct b. Qed.

Lemma ok_or_returns {E A} (o : option A) (e : E) : ok_or o e ≠ Stuck.
Proof. by destruct o. Qed.

Lemma compiler_for_returns name : compiler_for (c_registry co) name ≠ Stuck.
Proof. unfold compiler_for. destruct (detect_format_from_name name) as [f|]; [|done]. cbn. by destruct (_ !! f). Qed.

Lemma hold_resolve project repo at_ref :
  holds (resolve_read_commit co project repo at_ref token)
    (λ commit, may_read project repo ∧ canonical h commit = commit ∧
       ∀ requested, at_ref = RefCommit requested → commit = canonical h requested).
Proof.
  unfold resolve_read_commit.
  do 2 (eapply hold_step; [apply hold_pure; intros []%fail_if_returns|]; intros ? _).
  eapply hold_step; [apply hold_authorize|]. intros ? Hsee.
  eapply hold_step; [apply hold_config|]. intros config Hconfig.
  assert (may_read project repo) as Hread by (split; [done|by exists config]).
  apply hold_query; [by intros d|by intros []|]. intros commit [_ Hcanon] Hcommit. split; [done|]. split; [by apply Hcanon|].
  intros requested ->. by apply Hcommit.
Qed.

Lemma hold_compiler name :
  holds (query_compiler co name) (λ compiler, compiler_for (c_registry co) name = Ok compiler).
Proof. apply hold_pure. intros []%compiler_for_returns. Qed.

Lemma hold_read {A} (r : outcome ReadError A) : (r = Stuck → lenient) → holds (query_read r) (λ a, r = Ok a).
Proof. intros Hr d. destruct r; cbn; auto. Qed.

Lemma returns_of name compiler (P : Prop) :
  compiler_for (c_registry co) name = Ok compiler → (compiler_returns compiler → ¬ P) → P → lenient.
Proof. intros Hc HP H. destruct Hreturns as [?|[_ Hr]]; [done|]. by apply HP in H; [|eapply Hr]. Qed.

Lemma hold_imports name compiler objects :
  compiler_for (c_registry co) name = Ok compiler →
  holds (query_read (cp_imports compiler objects)) (λ imports, cp_imports compiler objects = Ok imports).
Proof. intros Hc. apply hold_read. eapply returns_of; [exact Hc|]. intros (H & _). apply H. Qed.

Lemma hold_summary name compiler blob :
  compiler_for (c_registry co) name = Ok compiler →
  holds (query_read (cp_summarize_decl compiler blob)) (λ x, cp_summarize_decl compiler blob = Ok x).
Proof. intros Hc. apply hold_read. eapply returns_of; [exact Hc|]. intros (_ & H & _). apply H. Qed.

Lemma hold_detail name compiler blob :
  compiler_for (c_registry co) name = Ok compiler →
  holds (query_read (cp_decl_detail compiler blob)) (λ x, cp_decl_detail compiler blob = Ok x).
Proof. intros Hc. apply hold_read. eapply returns_of; [exact Hc|]. intros (_ & _ & H & _). apply H. Qed.

Lemma hold_load path commit :
  may_read (sp_project path) (sp_repo path) →
  holds (load_objects path (RefCommit commit)) (λ objects, schema_at h path commit = Some objects).
Proof.
  intros Hread. apply hold_jj; [by intros d|by intros Hs|]. intros objects Hx. cbn in Hx. by destruct path.
Qed.

Lemma hold_same_repo path commit :
  may_read (sp_project path) (sp_repo path) →
  holds (same_repo_schemas path (RefCommit commit)) (λ names, names = names_at h path commit).
Proof.
  intros Hread. eapply hold_step.
  - apply (hold_jj _ (λ l, names_at h path commit = list_to_set l)); [by intros d|by intros Hs|]. intros l Hl.
    destruct (Hl l eq_refl) as (sn & Hsn & ->). unfold names_at. by rewrite Hsn.
  - intros l Hl. by apply hold_ret.
Qed.

Lemma hold_find project repo name commit :
  may_read project repo →
  holds (find_schema project repo name (RefCommit commit))
    (λ found, found = schema_at h (mkSchemaPath project repo name) commit).
Proof.
  intros Hread. apply hold_call; [by intros d|]. intros x d d' (-> & Ha & Hx). cbn in Hx, Ha.
  destruct x as [o|[]| |]; apply hold_end; cbn; try done.
Qed.

End Rules.
