(* ===== verification/ClosureProps.v ===== *)
(** * ClosureProps: the transitive closure of a schema

    What [closure_build] returns, and that it returns. *)
From S2P Require Import Prelude RustStd SchemaTypes Prog ObjectDb RecordStore AccessStore Repository Idempotency CoreTypes Integrity Access AccessProps AccessEffects Flow FlowProps FlowRules Queries Dependencies History Serving QueryRules.
From Stdlib Require Import Strings.Byte.

Open Scope Z_scope.

Section Closure.
Context {AN : AuthnProvider} {J : AccessJson} {RJ : RepositoryJson} {HO : HashOrder} {RF : RustFmt}.
Context (co : Core) (c : core_state) (h : commits) (token : option string).
#[local] Existing Instance role_based_authz.

Abbreviation live_map := (gmap (string * string) string).

(** The commit at which an import of a schema is read: the pinned one, the one of
    the importing schema in its own repository, and one commit per other
    repository. *)
Definition import_commit (path : SchemaPath) (commit : string) (dependency : SchemaPath) (import : Import)
    (live : live_map) (target : string) : Prop :=
  if negb (str_is_empty (im_resolved_commit import)) then target = canonical h (im_resolved_commit import)
  else if bool_decide (sp_project path = sp_project dependency) && bool_decide (sp_repo path = sp_repo dependency)
  then target = commit
  else live !! (sp_project dependency, sp_repo dependency) = Some target.

(** One schema of the closure: it is read at its commit from a repository that the
    caller may read, it has the format of the root, and each of its imports is
    known to [has]. *)
Definition entry_closed (root_format : string) (live : live_map) (has : SchemaPath → string → Prop)
    (path : SchemaPath) (commit : string) (objects : SchemaObjects) : Prop :=
  may_read co c token (sp_project path) (sp_repo path) ∧ schema_at h path commit = Some objects ∧
  ∃ compiler imports, compiler_for (c_registry co) (sp_schema_name path) = Ok compiler ∧
    format_id compiler = root_format ∧ cp_imports compiler objects = Ok imports ∧
    ∀ import, import ∈ imports → ∃ dependency target,
      normalize_import_path path (im_path import) (names_at h path commit) = Ok dependency ∧
      import_commit path commit dependency import live target ∧ has dependency target.

(** A closure with the revisions of its schemas: one per schema, and every import
    of every schema is in it at the revision that the import asks for. *)
Definition closed_under_imports (root_format : string) (revisions : gmap SchemaPath string) (live : live_map)
    (entries : gmap SchemaPath SchemaObjects) : Prop :=
  dom revisions = dom entries ∧
  ∀ path objects, entries !! path = Some objects →
    ∃ commit, revisions !! path = Some commit ∧
      entry_closed root_format live (λ dependency target, revisions !! dependency = Some target) path commit
        objects.

Definition closure_spec (root : SchemaPath) (root_commit : string) (closure : SchemaClosure) : Prop :=
  scl_root closure = Some root ∧
  ∃ compiler revisions live, compiler_for (c_registry co) (sp_schema_name root) = Ok compiler ∧
    revisions !! root = Some (canonical h root_commit) ∧
    closed_under_imports (format_id compiler) revisions live (scl_entries closure).

(** ** The loop *)

Context (lenient : Prop).
Context (Hreturns : lenient ∨
  (identify token ≠ Stuck ∧
   ∀ name compiler, compiler_for (c_registry co) name = Ok compiler → compiler_returns compiler)).

Abbreviation holds m P := (meets co c h token m (on_ok lenient P)).

(** Live repositories are readable, and their commits are in canonical form. *)
Definition live_ok (live : live_map) : Prop :=
  ∀ p r commit, live !! (p, r) = Some commit → may_read co c token p r ∧ canonical h commit = commit.

Lemma follow_segments_returns import_path path segments : follow_segments import_path segments path ≠ Stuck.
Proof.
  revert segments. induction path as [|s path IH]; intros segments; [done|]. cbn [follow_segments].
  destruct (bool_decide (s = ".")); [apply IH|]. destruct (bool_decide (s = "..")).
  - destruct segments; [done|apply IH].
  - destruct (str_is_empty s); [done|apply IH].
Qed.

Lemma normalize_returns path import_path names : normalize_import_path path import_path names ≠ Stuck.
Proof.
  unfold normalize_import_path. cbv zeta. destruct (str_is_empty import_path); [done|].
  destruct (strip_prefix _ _) as [n|]; [by destruct (str_is_empty n)|].
  destruct (_ && _); [|by destruct (bool_decide _)]. unfold normalize_openapi_dot_relative_import. cbv zeta.
  destruct (existsb _ _); [done|]. cbn [fail_if mbind outcome_bind].
  destruct (follow_segments _ _ _) as [[|]| | |] eqn:E; try done. by apply follow_segments_returns in E.
Qed.

Lemma hold_import path commit dependency import live :
  may_read co c token (sp_project path) (sp_repo path) → canonical h commit = commit → live_ok live →
  holds (resolve_import_commit co path commit dependency import token live)
    (λ r, may_read co c token (sp_project dependency) (sp_repo dependency) ∧ canonical h r.1 = r.1 ∧
          live_ok r.2 ∧ live ⊆ r.2 ∧ import_commit path commit dependency import r.2 r.1).
Proof.
  intros Hread Hcommit Hlive. unfold resolve_import_commit, import_commit. cbv zeta.
  destruct (negb (str_is_empty (im_resolved_commit import))).
  { eapply hold_step; [by apply hold_resolve|]. intros target (Hr & Hc & Ht). apply hold_ret.
    split_and!; try done. by apply Ht. }
  destruct (bool_decide (sp_project path = sp_project dependency) && _) eqn:Hsame.
  { apply andb_true_iff in Hsame as [H1%bool_decide_eq_true H2%bool_decide_eq_true].
    apply hold_ret. cbn. rewrite <- H1, <- H2. done. }
  destruct (live !! (sp_project dependency, sp_repo dependency)) as [target|] eqn:Hl.
  { destruct (Hlive _ _ _ Hl) as [Hr Hc]. by apply hold_ret. }
  eapply hold_step; [by apply hold_config|]. intros config Hconfig.
  eapply hold_step; [by apply hold_resolve|]. intros target (Hr & Hc & _). apply hold_ret. cbn.
  split_and!; [done|done| |by apply insert_subseteq|by rewrite lookup_insert_eq].
  intros p r k. rewrite lookup_insert. clear Hsame. case_decide as Heq; [|intros Hk; by apply (Hlive p r)]. injection Heq as <- <-. by intros [= <-].
Qed.

Lemma import_commit_mono path commit dependency import live live' target :
  live ⊆ live' → import_commit path commit dependency import live target →
  import_commit path commit dependency import live' target.
Proof.
  intros Hsub. unfold import_commit. destruct (negb _); [done|]. destruct (_ && _); [done|].
  intros Hl. by eapply lookup_weaken.
Qed.

Lemma hold_targets path commit imports live queue :
  may_read co c token (sp_project path) (sp_repo path) → canonical h commit = commit → live_ok live →
  holds (import_targets co path commit (names_at h path commit) token imports live queue)
    (λ r, live_ok r.2 ∧ live ⊆ r.2 ∧ (∀ item, item ∈ queue → item ∈ r.1) ∧
          (∀ item, item ∈ r.1 → item ∈ queue ∨ canonical h item.2 = item.2) ∧
          ∀ import, import ∈ imports → ∃ dependency target,
            normalize_import_path path (im_path import) (names_at h path commit) = Ok dependency ∧
            import_commit path commit dependency import r.2 target ∧ (dependency, target) ∈ r.1).
Proof.
  intros Hread Hcommit. revert live queue. induction imports as [|import imports IH]; intros live queue Hlive;
    cbn [import_targets].
  { apply hold_ret. cbn. split_and!; [done..|auto|]. by intros i Hi%not_elem_of_nil. }
  eapply hold_step; [apply hold_pure; intros []%normalize_returns|]. intros dependency Hdep.
  eapply hold_step; [by apply hold_import|]. intros [target live1] (Hr & Hc & Hl1 & Hsub & Hic). cbn [fst snd] in *.
  eapply hold_mono; [|by apply IH]. intros [queue' live'] (Hl' & Hsub' & Hq & Hq' & Hi). cbn [fst snd] in *.
  split_and!; [done|by trans live1| | |].
  - intros item Hin. apply Hq. by right.
  - intros item Hin. destruct (Hq' item Hin) as [[->|H]%elem_of_cons|H]; auto.
  - intros i [->|Hin]%elem_of_cons; [|by apply Hi]. exists dependency, target. split_and!; [done| |].
    + by eapply import_commit_mono.
    + apply Hq. by left.
Qed.

(** *** The invariant *)

Definition known (st : closure_state) (path : SchemaPath) (commit : string) : Prop :=
  cl_revisions st !! path = Some commit ∨ (path, commit) ∈ cl_queue st.

Record closure_inv (root_format : string) (st : closure_state) : Prop := {
  ci_dom : dom (cl_revisions st) = dom (cl_entries st);
  ci_live : live_ok (cl_live st);
  ci_queue item : item ∈ cl_queue st → canonical h item.2 = item.2;
  ci_closed path objects : cl_entries st !! path = Some objects →
    ∃ commit, cl_revisions st !! path = Some commit ∧ canonical h commit = commit ∧
      entry_closed root_format (cl_live st) (known st) path commit objects;
}.

Lemma next_path_spec revisions queue r :
  next_path revisions queue = Ok r →
  match r with
  | None => ∀ path commit, (path, commit) ∈ queue → revisions !! path = Some commit
  | Some (path, commit, rest) =>
    revisions !! path = None ∧ (∀ item, item ∈ rest → item ∈ queue) ∧ (path, commit) ∈ queue ∧
    ∀ path' commit', (path', commit') ∈ queue →
      (path', commit') = (path, commit) ∨ revisions !! path' = Some commit' ∨ (path', commit') ∈ rest
  end.
Proof.
  induction queue as [|[p k] queue IH]; cbn [next_path].
  { intros [= <-] path commit []%not_elem_of_nil. }
  destruct (revisions !! p) as [existing|] eqn:Hp.
  - case_bool_decide as Heq; [|done]. subst existing. intros H. specialize (IH H).
    destruct r as [[[path commit] rest]|].
    + destruct IH as (Hn & Hsub & Hin & Hall). split_and!; [done| | |].
      * intros item Hitem. right. by apply Hsub.
      * by right.
      * intros path' commit' [[= -> ->]|Hin']%elem_of_cons; [by right; left|by apply Hall].
    + intros path commit [[= -> ->]|Hin]%elem_of_cons; [done|by apply IH].
  - intros [= <-]. split_and!; [done|by right|by left|].
    intros path' commit' [?|?]%elem_of_cons; auto.
Qed.

Lemma next_path_returns revisions queue : next_path revisions queue ≠ Stuck.
Proof.
  induction queue as [|[p k] queue IH]; cbn [next_path]; [done|].
  destruct (revisions !! p); [|done]. by case_bool_decide.
Qed.

(** Forgetting the queue entries that were skipped. *)
Lemma closure_inv_pop root_format st path commit rest :
  closure_inv root_format st → next_path (cl_revisions st) (cl_queue st) = Ok (Some (path, commit, rest)) →
  cl_revisions st !! path = None ∧ canonical h commit = commit ∧
  (∀ item, item ∈ rest → canonical h item.2 = item.2) ∧
  ∀ p k, known st p k → (p, k) = (path, commit) ∨ cl_revisions st !! p = Some k ∨ (p, k) ∈ rest.
Proof.
  intros Hinv (Hnew & Hsub & Hin & Hall)%next_path_spec. split_and!; [done| | |].
  - by apply (ci_queue _ _ Hinv (path, commit)).
  - intros item Hitem. by apply (ci_queue _ _ Hinv), Hsub.
  - intros p k [H|H]; [auto|]. by destruct (Hall p k H) as [?|[?|?]]; auto.
Qed.

Lemma entry_closed_mono root_format live live' has has' path commit objects :
  live ⊆ live' → (∀ p k, has p k → has' p k) →
  entry_closed root_format live has path commit objects →
  entry_closed root_format live' has' path commit objects.
Proof.
  intros Hsub Hhas (Hread & Hat & compiler & imports & Hc & Hf & Hi & Hall). split_and!; [done..|].
  exists compiler, imports. split_and!; [done..|]. intros import Hin.
  destruct (Hall import Hin) as (dependency & target & Hn & Ht & Hk). exists dependency, target.
  split_and!; [done|by eapply import_commit_mono|by apply Hhas].
Qed.

(** One visit. *)
Lemma hold_visit root root_format path requested st :
  live_ok (cl_live st) → (∀ item, item ∈ cl_queue st → canonical h item.2 = item.2) →
  holds (closure_visit co root root_format token path requested st)
    (λ st', ∃ objects,
       cl_entries st' = <[path := objects]> (cl_entries st) ∧
       cl_revisions st' = <[path := canonical h requested]> (cl_revisions st) ∧
       canonical h (canonical h requested) = canonical h requested ∧
       live_ok (cl_live st') ∧ cl_live st ⊆ cl_live st' ∧
       (∀ item, item ∈ cl_queue st → item ∈ cl_queue st') ∧
       (∀ item, item ∈ cl_queue st' → canonical h item.2 = item.2) ∧
       entry_closed root_format (cl_live st') (λ p k, (p, k) ∈ cl_queue st') path (canonical h requested)
         objects).
Proof.
  intros Hlive Hqueue. unfold closure_visit.
  eapply hold_step; [by apply hold_resolve|]. intros commit (Hread & Hcanon & Hcommit).
  specialize (Hcommit requested eq_refl). subst commit.
  eapply hold_step; [by apply hold_compiler|]. intros compiler Hcompiler.
  eapply hold_step; [apply hold_pure; intros []%fail_if_returns|]. intros ? Hformat%fail_if_Ok.
  apply negb_false_iff, bool_decide_eq_true in Hformat.
  eapply hold_step; [by apply hold_load|]. intros objects Hobjects.
  eapply hold_step; [eapply hold_imports; [done|exact Hcompiler]|]. intros imports Himports.
  eapply hold_step; [by apply hold_same_repo|]. intros names ->.
  eapply hold_step; [by apply hold_targets|]. intros [queue live] (Hl & Hsub & Hq & Hq' & Hi). cbn [fst snd] in *.
  apply hold_ret. exists objects. cbn. split_and!; try done.
  - intros item Hin. destruct (Hq' item Hin); auto.
  - split; [done|]. split; [done|]. by exists compiler, imports.
Qed.

Lemma closure_inv_visit root_format st path requested (rest : list (SchemaPath * string)) st' objects :
  closure_inv root_format st → cl_revisions st !! path = None → canonical h requested = requested →
  (∀ p k, known st p k → (p, k) = (path, requested) ∨ cl_revisions st !! p = Some k ∨ (p, k) ∈ rest) →
  cl_entries st' = <[path := objects]> (cl_entries st) →
  cl_revisions st' = <[path := requested]> (cl_revisions st) →
  live_ok (cl_live st') → cl_live st ⊆ cl_live st' →
  (∀ item, item ∈ rest → item ∈ cl_queue st') → (∀ item, item ∈ cl_queue st' → canonical h item.2 = item.2) →
  entry_closed root_format (cl_live st') (λ p k, (p, k) ∈ cl_queue st') path requested objects →
  closure_inv root_format st'.
Proof.
  intros Hinv Hnew Hcanon Hknown He Hr Hl Hsub Hq Hq' Hentry. split; [|done|done|].
  { rewrite He, Hr, !dom_insert_L. f_equal. apply Hinv. }
  assert (∀ p k, known st p k → known st' p k) as Hmono.
  { intros p k [[= -> ->]|[H|H]]%Hknown; unfold known; rewrite Hr.
    - left. by rewrite lookup_insert_eq.
    - left. rewrite lookup_insert_ne; [done|]. congruence.
    - right. by apply Hq. }
  intros p o. rewrite He, Hr, !lookup_insert. case_decide as Hp.
  - intros [= <-]. subst p. exists requested. split_and!; [done..|].
    eapply (entry_closed_mono _ (cl_live st')); [done| |exact Hentry]. intros p k H. by right.
  - intros Ho. destruct (ci_closed _ _ Hinv p o Ho) as (commit & Hc & Hcc & Hcl).
    exists commit. split_and!; [done..|]. by eapply (entry_closed_mono _ (cl_live st)).
Qed.

Definition loop_post (root : SchemaPath) (root_format : string) (root_revision : string)
    (closure : SchemaClosure) : Prop :=
  scl_root closure = Some root ∧ ∃ revisions live,
    revisions !! root = Some root_revision ∧
    closed_under_imports root_format revisions live (scl_entries closure).

(** How many schemas the closure can still grow by. *)
Definition enough_fuel (fuel : nat) (st : closure_state) : Prop :=
  lenient ∨ ∃ universe : gset SchemaPath,
    (∀ path commit, is_Some (schema_at h path commit) → path ∈ universe) ∧
    dom (cl_revisions st) ⊆ universe ∧ (size universe < fuel + size (dom (cl_revisions st)))%nat.

Lemma enough_fuel_visit fuel st st' path commit objects :
  enough_fuel (S fuel) st → cl_revisions st !! path = None →
  cl_revisions st' = <[path := commit]> (cl_revisions st) → schema_at h path commit = Some objects →
  enough_fuel fuel st'.
Proof.
  intros [?|(u & Hu & Hsub & Hsize)] Hnew Hr Hat; [by left|]. right. exists u. split; [done|].
  rewrite Hr, dom_insert_L. assert (path ∈ u) as Hin by (by eapply Hu).
  apply not_elem_of_dom in Hnew. split; [set_solver|].
  rewrite size_union by set_solver. rewrite size_singleton. lia.
Qed.

Lemma enough_fuel_stuck st : enough_fuel 0 st → lenient.
Proof. intros [?|(u & _ & Hsub & Hsize)]; [done|]. apply subseteq_size in Hsub. lia. Qed.

Lemma loop_done root root_format revision st :
  closure_inv root_format st → cl_revisions st !! root = Some revision →
  next_path (cl_revisions st) (cl_queue st) = Ok None →
  loop_post root root_format revision (mkSchemaClosure (Some root) (cl_entries st)).
Proof.
  intros Hinv Hroot Hnext%next_path_spec. split; [done|]. exists (cl_revisions st), (cl_live st).
  split; [done|]. split; [apply Hinv|]. intros p o Ho.
  destruct (ci_closed _ _ Hinv p o Ho) as (commit & Hc & _ & Hcl). exists commit. split; [done|].
  eapply entry_closed_mono; [done| |exact Hcl]. intros q k [H|H]; [done|]. by apply Hnext.
Qed.

Lemma hold_loop fuel root root_format revision st :
  closure_inv root_format st → cl_revisions st !! root = Some revision → enough_fuel fuel st →
  holds (closure_loop co fuel root root_format token st) (loop_post root root_format revision).
Proof.
  revert st. induction fuel as [|fuel IH]; intros st Hinv Hroot Hfuel; cbn [closure_loop];
    (eapply hold_step; [apply hold_pure; intros []%next_path_returns|]); intros next Hnext;
    (destruct next as [[[path requested] rest]|]; [|apply hold_ret; by apply loop_done]).
  { apply hold_end. by eapply enough_fuel_stuck. }
  destruct (closure_inv_pop _ _ _ _ _ Hinv Hnext) as (Hnew & Hcanon & Hrest & Hknown).
  eapply hold_step; [apply hold_visit; [apply Hinv|exact Hrest]|].
  intros st' (objects & He & Hr & _ & Hl & Hsub & Hq & Hq' & Hentry). cbn [cl_entries cl_revisions cl_live cl_queue] in *.
  rewrite Hcanon in *. apply IH.
  - by eapply (closure_inv_visit root_format st path requested rest st' objects).
  - rewrite Hr, lookup_insert_ne; [done|]. intros ->. congruence.
  - eapply enough_fuel_visit; [exact Hfuel|done|exact Hr|]. apply Hentry.
Qed.

Lemma hold_build fuel root root_commit :
  lenient ∨ (∃ universe : gset SchemaPath,
    (∀ path commit, is_Some (schema_at h path commit) → path ∈ universe) ∧ (size universe < fuel)%nat) →
  holds (closure_build co fuel root root_commit token) (closure_spec root root_commit).
Proof.
  intros Hfuel. unfold closure_build. eapply hold_step; [by apply hold_compiler|]. intros compiler Hc.
  set (st := mkClosureState ∅ ∅ ∅ [(root, root_commit)]).
  assert (enough_fuel fuel st) as Hst.
  { destruct Hfuel as [?|(u & Hu & Hsize)]; [by left|]. right. exists u. split; [done|].
    cbn [st cl_revisions]. rewrite dom_empty_L, size_empty. split; [set_solver|lia]. }
  assert (next_path (cl_revisions st) (cl_queue st) = Ok (Some (root, root_commit, []))) as Hnext.
  { cbn. by rewrite lookup_empty. }
  destruct fuel as [|fuel]; cbn [closure_loop]; rewrite Hnext;
    (eapply hold_step; [by apply hold_pure|]); intros next [= <-].
  { apply hold_end. by eapply enough_fuel_stuck. }
  eapply hold_step; [apply hold_visit; [by intros p r k|by intros item []%not_elem_of_nil]|].
  intros st' (objects & He & Hr & Hcanon & Hl & Hsub & Hq & Hq' & Hentry).
  cbn [st cl_entries cl_revisions cl_live cl_queue] in *.
  eapply hold_mono; [|apply (hold_loop fuel root (format_id compiler) (canonical h root_commit))].
  - intros closure (Hroot & revisions & live & Hrev & Hclosed). split; [done|]. by exists compiler, revisions, live.
  - split; [by rewrite He, Hr, !dom_insert_L, !dom_empty_L|done|done|]. intros p o.
    rewrite He, Hr. intros [[<- <-]|[_ H]]%lookup_insert_Some; [|by rewrite lookup_empty in H].
    exists (canonical h root_commit). split_and!; [by rewrite lookup_insert_eq|done|].
    eapply (entry_closed_mono _ (cl_live st')); [done| |exact Hentry]. intros p k H. by right.
  - by rewrite Hr, lookup_insert_eq.
  - eapply enough_fuel_visit; [exact Hst|apply lookup_empty|exact Hr|]. apply Hentry.
Qed.

End Closure.

(** ** Theorems *)

Section Theorems.
Context {AN : AuthnProvider} {J : AccessJson} {RJ : RepositoryJson} {HO : HashOrder} {RF : RustFmt}.
Context (co : Core) (c : core_state) (h : commits) (token : option string).
#[local] Existing Instance role_based_authz.

(** C13. A closure that is handed to a compiler is complete and consistent: it has
    the root at the requested commit; every schema in it is read at one revision,
    from a repository that the caller may read and that is not archived, and has
    the format of the root; and every import of every schema is in the closure,
    at the pinned commit, at the commit of the importing schema within one
    repository, and at one commit per repository otherwise. While it is built,
    refs may move, and only admissible requests are made. *)
Theorem closure_closed (fuel : nat) (root : SchemaPath) (root_commit : string) (d : Inner) :
  asks (query_serve c h) grow (admissible co c token) (closure_build co fuel root root_commit token)
    (λ r _, ∀ closure, r = Ok closure → closure_spec co c h token root root_commit closure) d.
Proof.
  eapply asks_mono; [|apply (hold_build co c h token True); by left].
  intros r d' H closure ->. exact H.
Qed.

(** Building a closure terminates: as many rounds as there are schemas in the
    repositories are enough, whatever the import graph looks like (cycles
    included) and whatever refs do meanwhile. *)
Theorem closure_terminates (universe : gset SchemaPath) (fuel : nat) (root : SchemaPath) (root_commit : string)
    (d : Inner) :
  (∀ path commit, is_Some (schema_at h path commit) → path ∈ universe) → (size universe < fuel)%nat →
  identify token ≠ Stuck →
  (∀ name compiler, compiler_for (c_registry co) name = Ok compiler → compiler_returns compiler) →
  asks (query_serve c h) grow (admissible co c token) (closure_build co fuel root root_commit token)
    (λ r _, r ≠ Stuck) d.
Proof.
  intros Huniverse Hfuel Hid Hcompilers.
  eapply asks_mono; [|apply (hold_build co c h token False); [by right|right; by exists universe]].
  by intros [] d' H.
Qed.

End Theorems.
