(* ===== verification/QueryProps.v ===== *)
(** * QueryProps: what the read operations ask for

    Every read operation of the core makes admissible requests only, and the
    traversals of [exploration.rs] stay within their bounds. *)
From S2P Require Import Prelude RustStd SchemaTypes Prog ObjectDb RecordStore AccessStore Repository Idempotency CoreTypes Integrity Access AccessProps AccessEffects Flow FlowProps FlowRules Queries Dependencies History Serving QueryRules ClosureProps.
From Stdlib Require Import Strings.Byte.

Open Scope Z_scope.

Create HintDb asked.

Section Reads.
Context {AN : AuthnProvider} {J : AccessJson} {RJ : RepositoryJson} {HO : HashOrder} {RF : RustFmt}
  {LC : Lowercase} {SH : Sha256} {HX : Hex} {AJ : ArtifactJson}.
Context (co : Core) (c : core_state) (h : commits) (token : option string).
#[local] Existing Instance role_based_authz.

(** ** The traversal of forward dependencies *)

Section Traversal.
Context (lenient : Prop).
Context (Hreturns : lenient ∨
  (identify token ≠ Stuck ∧
   ∀ name compiler, compiler_for (c_registry co) name = Ok compiler → compiler_returns compiler)).

Abbreviation holds m P := (meets co c h token m (on_ok lenient P)).
Abbreviation readable path := (may_read co c token (sp_project path) (sp_repo path)).

Lemma hold_target path commit dependency import live :
  readable path → canonical h commit = commit → live_ok co c h token live →
  holds (resolve_target co path commit dependency import token live)
    (λ r, live_ok co c h token r.2 ∧
          (r.1.2 = true → readable dependency ∧ canonical h r.1.1 = r.1.1 ∧
                          is_Some (schema_at h dependency r.1.1))).
Proof.
  intros Hread Hcommit Hlive. unfold resolve_target.
  eapply hold_step; [by apply hold_observing, hold_import|].
  intros [[target live']|e| |] [Hns Hr]; [|by destruct (dependency_target_is_unavailable e); [apply hold_ret|apply hold_end]|by apply hold_end|done].
  destruct (Hr _ eq_refl) as (Hdep & Hcanon & Hlive' & _). cbn [fst snd] in *.
  eapply hold_step; [by apply hold_find|]. intros found ->. apply hold_ret. cbn. split; [done|].
  intros Hsome. split_and!; [done..|]. destruct dependency. by destruct (schema_at _ _ _).
Qed.

(** Everything that is queued can be read, and is there. *)
Definition queue_ok (queue : list (SchemaPath * string)) : Prop :=
  ∀ item, item ∈ queue → readable item.1 ∧ canonical h item.2 = item.2.

Lemma hold_edges path commit transitive imports st :
  readable path → canonical h commit = commit → live_ok co c h token (dp_live st) → queue_ok (dp_queue st) →
  holds (dependency_edges co path commit (names_at h path commit) transitive token imports st)
    (λ st', live_ok co c h token (dp_live st') ∧ queue_ok (dp_queue st')).
Proof.
  intros Hread Hcommit. revert st. induction imports as [|import imports IH]; intros st Hlive Hqueue;
    cbn [dependency_edges]; [by apply hold_ret|].
  eapply hold_step with (P := λ st', live_ok co c h token (dp_live st') ∧ queue_ok (dp_queue st'));
    [|intros st' [? ?]; by apply IH].
  unfold dependency_edge. eapply hold_step; [apply hold_pure; intros []%normalize_returns|]. intros dependency Hdep.
  eapply hold_step; [by apply hold_target|]. intros [[target resolved] live] [Hl Hres]. cbn [fst snd] in *.
  apply hold_ret. assert (queue_ok (if transitive && resolved then dp_queue st ++ [(dependency, target)]
                                    else dp_queue st)) as Hq.
  { destruct transitive, resolved; cbn; try done. intros item [H|H]%elem_of_app; [by apply Hqueue|].
    apply list_elem_of_singleton in H as ->. by destruct (Hres eq_refl) as (? & ? & _). }
  by case_bool_decide.
Qed.

Lemma next_unvisited_spec visited queue item rest :
  next_unvisited visited queue = Some (item, rest) →
  item ∉ visited ∧ item ∈ queue ∧ ∀ x, x ∈ rest → x ∈ queue.
Proof.
  induction queue as [|x queue IH]; [done|]. cbn [next_unvisited]. case_bool_decide as Hx.
  - intros H. destruct (IH H) as (? & ? & ?). split_and!; [done|by right|]. intros y Hy. right. auto.
  - intros [= <- <-]. split_and!; [done|by left|by right].
Qed.

Lemma hold_traverse fuel transitive visited st :
  live_ok co c h token (dp_live st) → queue_ok (dp_queue st) →
  lenient ∨ MAX_DEPENDENCY_SCAN_SCHEMAS + 1 <= Z.of_nat fuel + Z.of_nat (size visited) →
  Z.of_nat (size visited) <= MAX_DEPENDENCY_SCAN_SCHEMAS →
  holds (traverse co fuel transitive token visited st) (λ _, True).
Proof.
  revert visited st. induction fuel as [|fuel IH]; intros visited st Hlive Hqueue Hfuel Hsize;
    cbn [traverse]; destruct (next_unvisited visited (dp_queue st)) as [[[path commit] rest]|] eqn:Hnext;
    try by apply hold_ret.
  { apply hold_end. cbn. destruct Hfuel as [?|Hfuel]; [done|]. lia. }
  apply next_unvisited_spec in Hnext as (Hnew & Hin & Hrest). destruct (Hqueue _ Hin) as [Hread Hcanon].
  cbn [fst snd] in *. cbv zeta.
  assert (size ({[(path, commit)]} ∪ visited) = S (size visited)) as Hs.
  { rewrite size_union by set_solver. by rewrite size_singleton. }
  eapply hold_step; [apply hold_pure; intros []%fail_if_returns|]. intros ? Hmax%fail_if_Ok.
  apply Z.ltb_ge in Hmax.
  eapply hold_step; [by apply hold_compiler|]. intros compiler Hcompiler.
  eapply hold_step; [by apply hold_load|]. intros objects _.
  eapply hold_step; [by apply hold_same_repo|]. intros names ->.
  eapply hold_step; [eapply hold_imports; [done|exact Hcompiler]|]. intros imports _.
  eapply hold_step; [apply hold_edges; [done..|]|].
  { intros item Hitem. by apply Hqueue, Hrest. }
  intros st' [Hl Hq]. destruct transitive; [|by apply hold_ret]. apply IH; [done..| |by rewrite Hs in *; lia].
  destruct Hfuel as [?|Hfuel]; [by left|right]. rewrite Hs. lia.
Qed.

Lemma hold_dependencies schema at_ref transitive :
  holds (list_dependencies_detailed co schema at_ref transitive token) (λ _, True).
Proof.
  unfold list_dependencies_detailed. eapply hold_step; [by apply hold_resolve|].
  intros commit (Hread & Hcanon & _). eapply hold_step; [|intros edges _; by apply hold_ret].
  apply hold_traverse.
  - by intros p r k.
  - intros item ->%list_elem_of_singleton. done.
  - right. rewrite size_empty. unfold MAX_DEPENDENCY_SCAN_SCHEMAS. lia.
  - rewrite size_empty. done.
Qed.

End Traversal.

(** ** All read operations *)

Abbreviation asked m := (meets co c h token m (on_ok True (λ _, True))).

Lemma returns_anyway :
  True ∨ (identify token ≠ Stuck ∧
          ∀ name compiler, compiler_for (c_registry co) name = Ok compiler → compiler_returns compiler).
Proof. by left. Qed.

(** One request of a query, in a context that has the permission it needs. *)
Ltac ask_one :=
  first
  [ apply hold_resolve, returns_anyway | apply hold_authorize, returns_anyway | by apply hold_config
  | by apply hold_compiler | by apply hold_load | by apply hold_same_repo | by apply hold_find
  | apply hold_read; done | apply hold_pure; done
  | apply (hold_query _ _ _ _ _ _ (λ _, True)); [by intros ?|by intros ?|done]
  | apply (hold_jj _ _ _ _ _ _ (λ _, True)); [by intros ?|by intros ?|done] ].

Ltac ask_all :=
  repeat (eapply hold_step; [ask_one|]; intros ? ?; cbv beta in *; destruct_and?);
  try by apply hold_ret.

(** The last request. *)
Ltac ask_last := eapply hold_mono; [|ask_one]; done.

Lemma hold_collect_True {A B} (f : A → query B) l :
  (∀ x, asked (f x)) → meets co c h token (collect f l) (on_ok True (λ _, True)).
Proof.
  intros Hf. eapply hold_mono; [|apply (hold_collect co c h token True f (λ _ _, True))]; [done|].
  intros x _. apply Hf.
Qed.

Lemma asked_list_schemas project repo at_ref : asked (list_schemas_resolved co project repo at_ref token).
Proof. unfold list_schemas_resolved. ask_all. Qed.

Lemma asked_list_declarations schema at_ref : asked (list_declarations_resolved co schema at_ref token).
Proof.
  unfold list_declarations_resolved. ask_all. eapply hold_step; [apply hold_collect_True|intros; by apply hold_ret].
  intros name. unfold get_blob. ask_all. ask_last.
Qed.

Lemma asked_get_declaration schema at_ref name : asked (get_declaration_resolved co schema at_ref name token).
Proof. unfold get_declaration_resolved, get_blob. ask_all. Qed.

Lemma asked_follow_type schema at_ref name : asked (follow_type co schema at_ref name token).
Proof. unfold follow_type, get_blob. ask_all. Qed.

Lemma asked_source schema at_ref : asked (get_schema_source_resolved co schema at_ref token).
Proof. unfold get_schema_source_resolved. ask_all. Qed.

Lemma asked_search project repo at_ref text : asked (search co project repo at_ref text token).
Proof.
  unfold search. ask_all. eapply hold_step; [apply hold_collect_True|intros; by apply hold_ret].
  intros name. ask_all.
Qed.

Lemma asked_search_detailed project repo at_ref text :
  asked (search_detailed_resolved co project repo at_ref text token).
Proof.
  unfold search_detailed_resolved. ask_all. eapply hold_step; [apply hold_collect_True|intros; by apply hold_ret].
  intros name. ask_all. apply hold_collect_True. intros decl. unfold get_blob. ask_all.
Qed.

Lemma asked_follow_import schema commit type_name import st :
  may_read co c token (sp_project schema) (sp_repo schema) → canonical h commit = commit →
  live_ok co c h token (fo_live st) →
  meets co c h token (follow_import co schema commit type_name (names_at h schema commit) token import st)
    (on_ok True (λ st', live_ok co c h token (fo_live st'))).
Proof.
  intros Hread Hcommit Hlive. unfold follow_import. destruct (_ && _); [by apply hold_ret|].
  eapply hold_step; [ask_one|]. intros target _.
  eapply hold_step; [apply hold_import; [apply returns_anyway|done..]|].
  intros [target_commit live] (Hdep & _ & Hlive' & _). cbn [fst snd] in *.
  eapply hold_step; [by apply hold_find|]. intros found _.
  destruct found as [objects|]; [|by apply hold_ret].
  eapply hold_step; [ask_one|]. intros [name|] _; [|by apply hold_ret].
  destruct (bool_decide _); [by apply hold_ret|].
  eapply (hold_step _ _ _ _ _ _ _ (λ _, True)).
  { unfold selected_blob. destruct (_ !! _); [by apply hold_ret|by apply hold_end]. }
  intros blob _. ask_all.
Qed.

Lemma asked_follow_imports schema commit type_name imports st :
  may_read co c token (sp_project schema) (sp_repo schema) → canonical h commit = commit →
  live_ok co c h token (fo_live st) →
  asked (follow_imports co schema commit type_name (names_at h schema commit) token imports st).
Proof.
  intros Hread Hcommit. revert st. induction imports as [|import imports IH]; intros st Hlive;
    cbn [follow_imports]; [by apply hold_ret|].
  eapply hold_step; [by apply asked_follow_import|]. intros st' Hst'. by apply IH.
Qed.

Lemma asked_selected objects name : asked (selected_blob objects name).
Proof. unfold selected_blob. destruct (_ !! _); [by apply hold_ret|by apply hold_end]. Qed.

Lemma asked_follow_field schema at_ref declaration_name field_name :
  asked (follow_field_type co schema at_ref declaration_name field_name token).
Proof.
  unfold follow_field_type. eapply hold_step; [ask_one|]. intros ? _.
  eapply hold_step; [apply hold_resolve, returns_anyway|]. intros commit (Hread & Hcanon & _).
  do 5 (eapply hold_step; [ask_one|]; intros ? _). cbv zeta.
  eapply (hold_step _ _ _ _ _ _ _ (λ _, True)).
  { destruct (tr_import _); [by apply hold_ret|ask_last]. }
  intros [name|] _.
  { eapply hold_step; [apply asked_selected|]. intros blob _. ask_all. }
  eapply (hold_step _ _ _ _ _ _ _ (λ _, True)).
  { destruct (tr_import _); [by apply hold_ret|ask_last]. }
  intros imports _. eapply hold_step; [by apply hold_same_repo|]. intros names ->.
  eapply hold_step; [apply asked_follow_imports; [done..|by intros p r k]|]. intros st _.
  destruct (fo_matches st) as [|m [|m' l]]; [ask_last|by apply hold_ret|ask_last].
Qed.

(** *** The scan for dependents *)

Lemma hold_visible who project repo :
  identify token = Ok who →
  meets co c h token (is_visible who project repo)
    (on_ok True (λ visible : bool, visible = true → may_see c token project)).
Proof.
  intros Hwho. unfold is_visible. eapply hold_step.
  - eapply (hold_observing co c h token True); apply hold_core; [apply check_access_read_only|done].
  - intros r [_ Hr]. cbv beta in Hr. repeat case_match; try (by apply hold_ret); try (by apply hold_end).
    apply hold_ret. intros _. exists who. split; [done|].
    specialize (Hr _ eq_refl). by apply runs_check_access in Hr.
Qed.

Lemma asked_scan_schema target project repo bookmark commit names name :
  may_read co c token project repo → asked (scan_schema co target project repo bookmark commit names name).
Proof.
  intros Hread. unfold scan_schema. cbv zeta. destruct (bool_decide _); [by apply hold_ret|].
  eapply hold_step; [ask_one|]. intros ? _. eapply hold_step; [by apply hold_load|]. intros ? _. ask_all. ask_last.
Qed.

Lemma asked_scan_repository target who project repo st :
  identify token = Ok who → asked (scan_repository co target who project repo st).
Proof.
  intros Hwho. unfold scan_repository. eapply hold_step; [by apply hold_visible|].
  intros [] Hsee; [|by apply hold_ret]. cbn [negb]. specialize (Hsee eq_refl).
  eapply hold_step; [apply hold_core; [by split; [apply reads_repository|]|done]|]. intros record _.
  destruct (match record with Some _ => _ | None => _ end); [by apply hold_ret|]. cbv zeta.
  eapply hold_step; [ask_one|]. intros ? _. eapply hold_step; [by apply hold_config|]. intros config Hconfig.
  assert (may_read co c token project repo) as Hread by (split; [done|by exists config]).
  eapply (hold_step _ _ _ _ _ _ _ (λ _, True)).
  { apply hold_call; [by intros d|]. intros x d d' (-> & Ha & _). destruct x as [k|[]| |]; by apply hold_end. }
  intros [commit|] _; [|by apply hold_ret]. do 3 (eapply hold_step; [ask_one|]; intros ? _).
  eapply hold_step; [apply hold_collect_True; intros name; by apply asked_scan_schema|]. intros ? _. by apply hold_ret.
Qed.

Lemma asked_scan target who repositories st :
  identify token = Ok who → asked (scan_repositories co target who repositories st).
Proof.
  intros Hwho. revert st. induction repositories as [|[project repo] repositories IH]; intros st;
    cbn [scan_repositories]; [by apply hold_ret|].
  eapply hold_step; [by apply asked_scan_repository|]. intros st' _. apply IH.
Qed.

Lemma asked_dependents target : asked (list_dependents co target token).
Proof.
  unfold list_dependents. eapply hold_step; [ask_one|]. intros ? _.
  eapply hold_step; [apply hold_core; done|]. intros who Hwho%runs_identify.
  eapply hold_step; [apply hold_core; [apply check_access_read_only|done]|]. intros ? _.
  eapply hold_step; [ask_one|]. intros repositories _.
  eapply hold_step; [by apply asked_scan|]. intros st _. by apply hold_ret.
Qed.

(** *** History and conflicts *)

Lemma asked_op_log project repo limit : asked (op_log project repo limit token).
Proof. unfold op_log. eapply hold_step; [ask_one|]. intros ? Hsee. destruct limit; ask_last. Qed.

Lemma default_bookmark_read_only project repo :
  read_only core_serve (repository_default_bookmark (c_repo_configs co) project repo Read token).
Proof.
  unfold repository_default_bookmark. do 2 (apply read_only_then; [done|]; intros ?).
  apply read_only_then; [apply authorize_read_only|]. intros ?.
  apply read_only_then; [apply effective_config_read_only|done].
Qed.

Lemma hold_log project repo at_ref limit :
  meets co c h token (log_resolved co project repo at_ref limit token)
    (on_ok True (λ _, may_read co c token project repo)).
Proof.
  unfold log_resolved. eapply (hold_step _ _ _ _ _ _ _ (λ _, may_read co c token project repo)).
  { destruct at_ref as [at_ref|].
    - eapply hold_mono; [|apply hold_resolve, returns_anyway]. by intros ? [? _].
    - eapply hold_step; [apply hold_core; [apply default_bookmark_read_only|done]|]. intros ? _.
      eapply hold_mono; [|apply hold_resolve, returns_anyway]. by intros ? [? _]. }
  intros commit Hread. eapply hold_step; [ask_one|]. intros ? _. by apply hold_ret.
Qed.

Lemma asked_touching project repo schema entries :
  may_read co c token project repo → asked (touching project repo schema entries).
Proof.
  intros Hread. induction entries as [|e entries IH]; cbn [touching]; [by apply hold_ret|].
  eapply hold_step; [ask_one|]. intros ? _. eapply hold_step; [exact IH|]. intros ? _. by apply hold_ret.
Qed.

Lemma asked_list_commits project repo at_ref stop schema max :
  asked (list_commits_resolved co project repo at_ref stop schema max token).
Proof.
  unfold list_commits_resolved. eapply hold_step; [ask_one|]. intros ? _.
  eapply hold_step; [apply hold_log|]. intros [entries commit] Hread. cbv zeta.
  eapply (hold_step _ _ _ _ _ _ _ (λ _, True)).
  { destruct (opt_non_empty stop); [|ask_all].
    eapply hold_step; [apply hold_resolve, returns_anyway|]. intros ? _. ask_last. }
  intros entries' _. eapply (hold_step _ _ _ _ _ _ _ (λ _, True)); [|intros; by apply hold_ret].
  destruct (opt_non_empty schema); [by apply asked_touching|by apply hold_ret].
Qed.

Lemma asked_diff project repo schema from to :
  asked (diff_repository_resolved co project repo schema from to token).
Proof.
  unfold diff_repository_resolved. eapply hold_step; [apply hold_resolve, returns_anyway|].
  intros commit (Hread & _). eapply hold_step; [apply hold_resolve, returns_anyway|]. intros commit' _.
  eapply (hold_step _ _ _ _ _ _ _ (λ _, True)).
  { destruct schema; [by apply hold_ret|]. ask_all. }
  intros names _. eapply hold_step; [apply hold_collect_True|intros; by apply hold_ret].
  intros name. unfold diff_one. do 5 (eapply hold_step; [ask_one|]; intros ? _). by apply hold_ret.
Qed.

Lemma asked_list_conflicts project repo bookmark : asked (list_conflicts project repo bookmark token).
Proof. unfold list_conflicts. eapply hold_step; [ask_one|]. intros ? Hsee. ask_last. Qed.

Lemma asked_render_conflict schema bookmark decl : asked (render_conflict co schema bookmark decl token).
Proof. unfold render_conflict. eapply hold_step; [ask_one|]. intros ? Hsee. ask_all. ask_last. Qed.

(** *** Artifacts *)

Lemma asked_build fuel root commit : asked (closure_build co fuel root commit token).
Proof.
  eapply hold_mono; [|apply (hold_build co c h token True); [apply returns_anyway|by left]]. done.
Qed.

Lemma asked_descriptors fuel schema at_ref : asked (generate_descriptors_resolved co fuel schema at_ref token).
Proof.
  unfold generate_descriptors_resolved. ask_all. eapply hold_step; [apply asked_build|]. intros ? _. ask_all.
Qed.

Lemma asked_preview fuel schema at_ref lang options :
  asked (preview_codegen_resolved co fuel schema at_ref lang options token).
Proof.
  unfold preview_codegen_resolved. ask_all. eapply hold_step; [apply asked_build|]. intros ? _. ask_all.
Qed.

Lemma asked_revision project repo at_ref from : asked (resolve_schema_revision co project repo at_ref from token).
Proof. unfold resolve_schema_revision. ask_all. Qed.

Lemma asked_authorize_dependencies paths : asked (authorize_artifact_dependencies paths token).
Proof.
  induction paths as [|path paths IH]; cbn [authorize_artifact_dependencies]; [by apply hold_ret|].
  eapply hold_step; [ask_one|]. intros ? _. exact IH.
Qed.

Lemma asked_records {A} (q : db_req (outcome ObjectDbError A)) :
  (∀ d, admissible co c token _ (QRecords q) d) → asked (try_call artifact_store_error (QRecords q)).
Proof. intros Hq. apply hold_call; [done|]. intros x d d' _. by destruct x; apply hold_end. Qed.

Lemma asked_load request : asked (artifact_load request).
Proof.
  unfold artifact_load. eapply hold_step; [by apply asked_records|]. intros [bytes|] _; [|by apply hold_ret]. ask_all.
Qed.

Lemma asked_insert request candidate : asked (insert_first request candidate).
Proof.
  unfold insert_first. eapply hold_step; [ask_one|]. intros ? _. eapply hold_step; [by apply asked_records|].
  intros [] _; [by apply hold_ret|]. eapply hold_step; [apply asked_load|]. intros ? _. ask_last.
Qed.

Lemma asked_artifact fuel revision schema kind language options :
  asked (get_schema_artifact co fuel revision schema kind language options token).
Proof.
  unfold get_schema_artifact. eapply hold_step; [ask_one|]. intros [[project repo] commit] _.
  eapply hold_step; [ask_one|]. intros ? _. eapply hold_step; [ask_one|]. intros ? Hsee.
  eapply hold_step; [by apply hold_config|]. intros config Hconfig.
  assert (may_read co c token project repo) as Hread by (split; [done|by exists config]).
  do 3 (eapply hold_step; [ask_one|]; intros ? _).
  eapply hold_step; [apply asked_load|]. intros [stored|] _.
  { eapply hold_step; [apply asked_authorize_dependencies|]. intros ? _. by apply hold_ret. }
  cbv zeta. eapply hold_step; [ask_one|]. intros ? _. eapply hold_step; [apply asked_build|]. intros ? _.
  eapply hold_step; [ask_one|]. intros ? _. eapply hold_step; [apply asked_insert|]. intros ? _.
  eapply hold_step; [apply asked_authorize_dependencies|]. intros ? _. by apply hold_ret.
Qed.

(** ** The operations *)

Inductive read_op :=
  | ReadSchemas (project repo : string) (at_ref : RefSpec)
  | ReadDeclarations (schema : SchemaPath) (at_ref : RefSpec)
  | ReadDeclaration (schema : SchemaPath) (at_ref : RefSpec) (name : string)
  | ReadType (schema : SchemaPath) (at_ref : RefSpec) (name : string)
  | ReadFieldType (schema : SchemaPath) (at_ref : RefSpec) (declaration_name field_name : string)
  | ReadDependencies (schema : SchemaPath) (at_ref : RefSpec) (transitive : bool)
  | ReadDependents (target : SchemaPath)
  | ReadSource (schema : SchemaPath) (at_ref : RefSpec)
  | ReadSearch (project repo : string) (at_ref : RefSpec) (text : string)
  | ReadSearchDetailed (project repo : string) (at_ref : RefSpec) (text : string)
  | ReadDescriptors (fuel : nat) (schema : SchemaPath) (at_ref : RefSpec)
  | ReadCode (fuel : nat) (schema : SchemaPath) (at_ref : RefSpec) (lang : Language) (options : CodegenOptions)
  | ReadOpLog (project repo : string) (limit : option Z)
  | ReadLog (project repo : string) (at_ref : option RefSpec) (limit : option Z)
  | ReadCommits (project repo : string) (at_ref : option RefSpec) (stop schema : option string) (max : Z)
  | ReadDiff (project repo : string) (schema : option string) (from to : RefSpec)
  | ReadConflicts (project repo bookmark : string)
  | ReadConflict (schema : SchemaPath) (bookmark decl : string)
  | ReadRevision (project repo : string) (at_ref : RefSpec) (from : string)
  | ReadArtifact (fuel : nat) (revision schema : string) (kind : SchemaArtifactKind)
      (language : option Language) (options : CodegenOptions).

Definition drop_result {A} (m : query A) : query unit := _ ← m; mret tt.

Definition read_prog (op : read_op) : query unit :=
  match op with
  | ReadSchemas p r a => drop_result (list_schemas co p r a token)
  | ReadDeclarations s a => drop_result (list_declarations co s a token)
  | ReadDeclaration s a n => drop_result (get_declaration co s a n token)
  | ReadType s a n => drop_result (follow_type co s a n token)
  | ReadFieldType s a d f => drop_result (follow_field_type co s a d f token)
  | ReadDependencies s a t => drop_result (list_dependencies co s a t token)
  | ReadDependents t => drop_result (list_dependents co t token)
  | ReadSource s a => drop_result (get_schema_source co s a token)
  | ReadSearch p r a t => drop_result (search co p r a t token)
  | ReadSearchDetailed p r a t => drop_result (search_detailed co p r a t token)
  | ReadDescriptors n s a => drop_result (generate_descriptors_at co n s a token)
  | ReadCode n s a l o => drop_result (preview_codegen_at co n s a l o token)
  | ReadOpLog p r l => drop_result (op_log p r l token)
  | ReadLog p r a l => drop_result (log co p r a l token)
  | ReadCommits p r a s n m => drop_result (list_commits_resolved co p r a s n m token)
  | ReadDiff p r s f t => drop_result (diff_repository_resolved co p r s f t token)
  | ReadConflicts p r b => drop_result (list_conflicts p r b token)
  | ReadConflict s b d => drop_result (render_conflict co s b d token)
  | ReadRevision p r a f => drop_result (resolve_schema_revision co p r a f token)
  | ReadArtifact n r s k l o => drop_result (get_schema_artifact co n r s k l o token)
  end.

Lemma asked_then {A B} (m : query A) (f : A → B) : asked m → asked (x ← m; mret (f x)).
Proof. intros Hm. eapply hold_step; [exact Hm|]. intros ? _. by apply hold_ret. Qed.

Lemma asked_drop {A} (m : query A) : asked m → asked (drop_result m).
Proof. apply asked_then. Qed.

#[local] Hint Resolve asked_list_schemas asked_list_declarations asked_get_declaration asked_follow_type
  asked_source asked_search asked_search_detailed asked_follow_field asked_dependents asked_descriptors
  asked_preview asked_op_log asked_list_commits asked_diff asked_list_conflicts asked_render_conflict
  asked_revision asked_artifact : asked.

Lemma asked_read op : asked (read_prog op).
Proof.
  destruct op; cbn [read_prog]; apply asked_drop; try (by auto with asked);
    try (by apply asked_then; auto with asked).
  - apply asked_then, hold_dependencies, returns_anyway.
  - apply asked_then. eapply hold_mono; [|apply hold_log]. done.
Qed.

(** C12. What the read operations ask for. Whatever the collaborators answer and
    however refs move meanwhile, a read operation only reads the stores of the core
    and records of the artifact collection, and creates no record but artifacts. Of
    the jj layer it asks: to resolve refs, and to read schemas, declarations, commits
    and histories at immutable commits, of repositories that are not archived and in
    projects that the caller may read; the operation log and the conflicts of
    repositories in projects that the caller may read, archived or not, where
    conflicts are read at the bookmark itself, which may move; and the list of the
    keys of all repositories, which is not restricted. *)
Theorem reads_are_authorized (op : read_op) (d : Inner) :
  asks (query_serve c h) grow (admissible co c token) (read_prog op) (λ _ _, True) d.
Proof. eapply asks_mono; [|apply (asked_read op)]. done. Qed.

(** The traversal of forward dependencies terminates within its bound of
    schema snapshots, whatever the import graph looks like and whatever refs do
    meanwhile. *)
Theorem dependencies_terminate (schema : SchemaPath) (at_ref : RefSpec) (transitive : bool) (d : Inner) :
  identify token ≠ Stuck →
  (∀ name compiler, compiler_for (c_registry co) name = Ok compiler → compiler_returns compiler) →
  asks (query_serve c h) grow (admissible co c token)
    (list_dependencies_detailed co schema at_ref transitive token) (λ r _, r ≠ Stuck) d.
Proof.
  intros Hid Hcompilers. eapply asks_mono; [|apply (hold_dependencies False); by right].
  by intros [] d' H.
Qed.

End Reads.
