(* ===== verification/ServingProps.v ===== *)
(** * ServingProps: artifacts are immutable

    The record of a materialized artifact reads back as it was written, every
    artifact that is served is well formed, the first materialization of a
    request is what every server returns from then on, and the bytes that a
    closure digest hashes determine the closure. *)
From S2P Require Import Prelude RustStd SchemaTypes Prog ObjectDb RecordStore AccessStore Repository Idempotency CoreTypes Integrity Access AccessProps AccessEffects Flow FlowProps FlowRules Queries Dependencies History Serving QueryRules ClosureProps QueryProps.
From Stdlib Require Import Strings.Byte Ascii.

Open Scope Z_scope.

(** ** Big-endian lengths *)

Lemma length_to_be_bytes n : length (to_be_bytes n) = 8%nat.
Proof. done. Qed.

Lemma from_to_be_bytes n : in_u64 n → from_be_bytes (to_be_bytes n) = n.
Proof.
  intros Hn. unfold in_u64 in Hn. unfold from_be_bytes, to_be_bytes. cbn [fmap list_fmap foldl].
  rewrite !u8_of_Z_small by (apply Z.mod_pos_bound; lia). rewrite !Z.shiftr_div_pow2 by lia.
  change (2 ^ (8 * Z.of_nat 7)) with 72057594037927936. change (2 ^ (8 * Z.of_nat 6)) with 281474976710656.
  change (2 ^ (8 * Z.of_nat 5)) with 1099511627776. change (2 ^ (8 * Z.of_nat 4)) with 4294967296.
  change (2 ^ (8 * Z.of_nat 3)) with 16777216. change (2 ^ (8 * Z.of_nat 2)) with 65536.
  change (2 ^ (8 * Z.of_nat 1)) with 256. change (2 ^ (8 * Z.of_nat 0)) with 1.
  Z.to_euclidean_division_equations. lia.
Qed.

(** ** The record of an artifact *)

Section Records.
Context {SH : Sha256} {HX : Hex} {AJ : ArtifactJson}.

(** A short text without control characters. *)
Definition short_text (limit : Z) (s : string) : Prop :=
  s ≠ ""%string ∧ str_len s <= limit ∧ has_control s = false.

(** A SHA-256 digest in lowercase hexadecimal. *)
Definition is_sha256 (digest : string) : Prop :=
  ∃ hex, digest = ("sha256:" +:+ hex)%string ∧ str_len hex = 64 ∧ Forall (λ b, is_lower_hex b = true) (as_bytes hex).

(** A project or repository, and a schema, of a dependency. *)
Definition is_segment (s : string) : Prop :=
  s ≠ ""%string ∧ contains_char "/" s = false ∧ has_control s = false.

Definition is_schema_name (s : string) : Prop := trim s ≠ ""%string ∧ has_control s = false.

(** What validation establishes. *)
Record artifact_wf (request : ArtifactRequest) (stored : StoredArtifact) : Prop := {
  aw_revision : sa_revision (sta_artifact stored) = arr_revision (areq_record request);
  aw_schema : sa_schema_path (sta_artifact stored) = arr_schema_path (areq_record request);
  aw_kind : sa_kind (sta_artifact stored) = areq_kind request;
  aw_format : short_text 64 (sa_format_id (sta_artifact stored));
  aw_media : short_text 256 (sa_media_type (sta_artifact stored));
  aw_digest : sa_artifact_digest (sta_artifact stored) = sha256_digest (sa_content (sta_artifact stored));
  aw_closure : is_sha256 (sa_closure_digest (sta_artifact stored));
  aw_name : sa_name (sta_artifact stored) =
            artifact_resource_name request (sa_artifact_digest (sta_artifact stored));
  aw_sorted : StronglySorted path_le (sta_dependency_paths stored);
  aw_unique : NoDup (sta_dependency_paths stored);
  aw_paths path : path ∈ sta_dependency_paths stored →
    is_segment (sp_project path) ∧ is_segment (sp_repo path) ∧ is_schema_name (sp_schema_name path);
  aw_schemas : sa_dependency_schemas (sta_artifact stored) = fmt_schema_path <$> sta_dependency_paths stored;
}.

Lemma str_is_empty_false s : str_is_empty s = false → s ≠ ""%string.
Proof. by destruct s. Qed.

Lemma short_text_spec limit s :
  str_is_empty s || (limit <? str_len s) || has_control s = false → short_text limit s.
Proof.
  intros [[H1%str_is_empty_false H2%Z.ltb_ge]%orb_false_iff H3]%orb_false_iff. done.
Qed.

Lemma validate_sha256_Ok label digest x : validate_sha256_digest label digest = Ok x → is_sha256 digest.
Proof.
  unfold validate_sha256_digest. intros H. ok_inv H. ok_leaf H. apply strip_prefix_Some in Hok as ->.
  apply orb_false_iff in H as [H1%negb_false_iff H2%negb_false_iff]. eexists. split; [done|].
  split; [by apply Z.eqb_eq|].
  rewrite forallb_forall in H2. apply Forall_forall. intros b Hb. by apply H2, list_elem_of_In.
Qed.

Lemma vec_dedup_cons {A} `{EqDecision A} (a b : A) l :
  vec_dedup (a :: b :: l) = if bool_decide (a = b) then vec_dedup (b :: l) else a :: vec_dedup (b :: l).
Proof. done. Qed.

Lemma vec_dedup_subseteq {A} `{EqDecision A} (l : list A) x : x ∈ vec_dedup l → x ∈ l.
Proof.
  induction l as [|a [|b l] IH]; [done..|]. rewrite vec_dedup_cons. case_bool_decide; [intros H'; right; by apply IH|].
  intros [->|H']%elem_of_cons; [by left|right; by apply IH].
Qed.

(** A sorted list without equal neighbours has no duplicates. *)
Lemma vec_dedup_sorted (l : list SchemaPath) : StronglySorted path_le l → NoDup (vec_dedup l).
Proof.
  induction l as [|a [|b l] IH]; intros Hs; [constructor|apply NoDup_singleton|].
  apply StronglySorted_inv in Hs as [Hs Ha]. rewrite vec_dedup_cons. case_bool_decide as Hab; [by apply IH|].
  constructor; [|by apply IH]. intros Hin%vec_dedup_subseteq. apply Hab.
  apply StronglySorted_inv in Hs as [Hs Hb]. rewrite Forall_forall in Ha, Hb.
  apply elem_of_cons in Hin as [->|Hin]; [done|]. apply (anti_symm path_le); [apply Ha; by left|by apply Hb].
Qed.

Lemma canonical_paths (l : list SchemaPath) :
  vec_dedup (sort_paths l) = l → StronglySorted path_le l ∧ NoDup l.
Proof.
  intros Hl. assert (StronglySorted path_le (sort_paths l)) as Hs.
  { apply (StronglySorted_merge_sort path_le). }
  assert (NoDup l) as Hnd by (rewrite <- Hl; by apply vec_dedup_sorted).
  split; [|done]. assert (sort_paths l = l) as <-; [|done].
  rewrite <- Hl at 2. clear Hl. assert (NoDup (sort_paths l)) as Hnd' by (by unfold sort_paths; rewrite merge_sort_Permutation).
  clear Hs Hnd. induction (sort_paths l) as [|a [|b k] IH]; [done..|].
  apply NoDup_cons in Hnd' as [Ha Hk]. rewrite vec_dedup_cons, bool_decide_eq_false_2; [|intros ->; apply Ha; by left].
  f_equal. by apply IH.
Qed.

Lemma validate_paths_Ok paths x :
  validate_dependency_paths paths = Ok x → ∀ path, path ∈ paths →
  is_segment (sp_project path) ∧ is_segment (sp_repo path) ∧ is_schema_name (sp_schema_name path).
Proof.
  induction paths as [|p paths IH]; intros H path Hin; [by apply not_elem_of_nil in Hin|].
  cbn [validate_dependency_paths] in H. ok_inv H. apply elem_of_cons in Hin as [->|Hin]; [|by apply IH].
  unfold validate_dependency_path in Hok. apply map_err_Ok in Hok. ok_inv Hok.
  unfold serving_validate_segment, validate_schema_name in *. ok_leaf Hok. ok_leaf Hok0. ok_leaf Hok1.
  apply orb_false_iff in Hok as [H1%str_is_empty_false H2].
  apply orb_false_iff in Hok0 as [[H3%str_is_empty_false H4]%orb_false_iff H5].
  apply orb_false_iff in Hok1 as [[H6%str_is_empty_false H7]%orb_false_iff H8].
  unfold is_segment, is_schema_name. done.
Qed.

Lemma validate_stored_wf request stored x :
  validate_stored_artifact request stored = Ok x → artifact_wf request stored.
Proof.
  unfold validate_stored_artifact. cbv zeta. intros H. ok_inv H. ok_leaf H.
  repeat match goal with
  | H : (_ || _) = false |- _ => apply orb_false_iff in H as [? ?]
  | H : negb _ = false |- _ => apply negb_false_iff in H
  | H : bool_decide _ = true |- _ => apply bool_decide_eq_true in H
  end.
  match goal with H : vec_dedup _ = _ |- _ => apply canonical_paths in H as [? ?] end.
  split; try done.
  - apply short_text_spec. by repeat (apply orb_false_iff; split).
  - apply short_text_spec. by repeat (apply orb_false_iff; split).
  - by eapply validate_sha256_Ok.
  - eapply validate_paths_Ok; eassumption.
Qed.

(** The parts of a record. *)
Lemma record_parts (magic len8 metadata content : list byte) :
  length len8 = 8%nat →
  let encoded := magic ++ len8 ++ metadata ++ content in
  take (length magic) encoded = magic ∧ take 8 (drop (length magic) encoded) = len8 ∧
  take (length metadata) (drop (length magic + 8) encoded) = metadata ∧
  drop (length magic + 8 + length metadata) encoded = content ∧
  length encoded = (length magic + 8 + length metadata + length content)%nat.
Proof.
  intros H8. cbv zeta. split_and!.
  - by rewrite take_app_length.
  - by rewrite drop_app_length, <- H8, take_app_length.
  - rewrite <- drop_drop, drop_app_length, <- H8, drop_app_length, take_app_length. done.
  - rewrite <- !drop_drop, drop_app_length, <- H8, drop_app_length, drop_app_length. done.
  - rewrite !length_app, H8. lia.
Qed.

Lemma checked_add_usize_Some a b x : checked_add_usize a b = Some x → x = a + b ∧ a + b < 2 ^ 64.
Proof. unfold checked_add_usize. destruct (Z.ltb_spec (a + b) (2 ^ 64)); [|done]. by intros [= <-]. Qed.

Lemma record_capacity_bound metadata content x :
  record_capacity metadata content = Some x →
  Z.of_nat (length ARTIFACT_RECORD_MAGIC + 8 + length metadata + length content) < 2 ^ 64.
Proof.
  unfold record_capacity. generalize (length ARTIFACT_RECORD_MAGIC) as n. intros n H.
  apply bind_Some in H as (a & [-> _]%checked_add_usize_Some & H).
  apply bind_Some in H as (b & [-> _]%checked_add_usize_Some & H).
  apply checked_add_usize_Some in H as [_ H]. lia.
Qed.

(** A well-formed artifact is determined by its request, its metadata and its
    content. *)
Lemma stored_from_own_metadata request stored :
  artifact_wf request stored →
  stored_from_metadata request (record_metadata request stored) (sa_content (sta_artifact stored)) = stored.
Proof.
  intros [Hr Hs Hk _ _ Hd _ Hn _ _ _ Hds]. unfold stored_from_metadata, record_metadata. cbn.
  rewrite <- Hn, <- Hr, <- Hs, <- Hk, <- Hds. by destruct stored as [[] ?].
Qed.

#[local] Opaque ARTIFACT_RECORD_MAGIC to_be_bytes.

Lemma decode_encoded {AL : ArtifactJsonLaws AJ} (request : ArtifactRequest)
    (stored : StoredArtifact) (bytes : list byte) :
  encode_artifact_record request stored = Ok bytes → decode_artifact_record request bytes = Ok stored.
Proof.
  unfold encode_artifact_record. cbv zeta. intros H. ok_inv H. rename x0 into metadata.
  apply Z.ltb_ge in Hok1. apply record_capacity_bound in Hok3.
  destruct (metadata_json_roundtrip (record_metadata request stored)) as (bs & Hto & Hfrom).
  assert (bs = metadata) as -> by congruence.
  pose proof (record_parts ARTIFACT_RECORD_MAGIC (to_be_bytes (Z.of_nat (length metadata))) metadata
                (sa_content (sta_artifact stored)) (length_to_be_bytes _)) as Hparts.
  cbv zeta in Hparts. rewrite H in Hparts. clear H. set (n := length ARTIFACT_RECORD_MAGIC) in *.
  destruct Hparts as (Hmagic & Hlen & Hmeta & Hcontent & Hlength).
  unfold decode_artifact_record. cbv zeta. fold n. unfold bytes_start_with. fold n.
  rewrite bool_decide_eq_true_2 by done. replace (length bytes <? n + 8)%nat with false by (symmetry; apply Nat.ltb_ge; lia).
  cbn [negb orb fail_if mbind outcome_bind]. rewrite Hlen, from_to_be_bytes by (unfold in_u64; lia).
  replace (MAX_ARTIFACT_METADATA_BYTES <? Z.of_nat (length metadata)) with false by (symmetry; by apply Z.ltb_ge).
  cbn [fail_if mbind outcome_bind]. unfold checked_add_usize.
  replace (Z.of_nat (n + 8) + Z.of_nat (length metadata)) with (Z.of_nat (n + 8 + length metadata)) by lia.
  replace (Z.of_nat (n + 8 + length metadata) <? 2 ^ 64) with true by (symmetry; apply Z.ltb_lt; lia).
  cbn [mbind option_bind ok_or]. replace (_ <=? Z.of_nat (length bytes)) with true by (symmetry; apply Z.leb_le; lia).
  cbn [ok_or]. rewrite Nat2Z.id. cbn [mbind outcome_bind]. replace (n + 8 + length metadata - (n + 8))%nat with (length metadata) by lia.
  rewrite Hmeta, Hfrom. cbn [map_err mbind outcome_bind].
  change (arm_version (record_metadata request stored)) with ARTIFACT_RECORD_VERSION.
  change (arm_request (record_metadata request stored)) with (areq_record request).
  rewrite Z.eqb_refl, bool_decide_eq_true_2 by done. cbn [negb fail_if mbind outcome_bind]. rewrite Hcontent.
  rewrite stored_from_own_metadata by (by eapply validate_stored_wf). by rewrite Hok.
Qed.

(** The record under which an artifact is stored reads back as the artifact
    that was written, for the request it was written for. *)
Theorem artifact_record_roundtrip {AL : ArtifactJsonLaws AJ} (request : ArtifactRequest)
    (stored : StoredArtifact) (bytes : list byte) :
  encode_artifact_record request stored = Ok bytes → decode_artifact_record request bytes = Ok stored.
Proof. apply decode_encoded. Qed.

(** A record that reads back is well formed. *)
Lemma decode_wf request bytes stored :
  decode_artifact_record request bytes = Ok stored → artifact_wf request stored.
Proof.
  unfold decode_artifact_record. cbv zeta. intros H. ok_inv H. subst stored. by eapply validate_stored_wf.
Qed.

Lemma encode_wf request stored bytes :
  encode_artifact_record request stored = Ok bytes → artifact_wf request stored.
Proof. unfold encode_artifact_record. cbv zeta. intros H. ok_inv H. by eapply validate_stored_wf. Qed.

End Records.

(** ** First materializations *)

Section Immutable.
Context {AN : AuthnProvider} {J : AccessJson} {RJ : RepositoryJson} {HO : HashOrder} {RF : RustFmt}
  {SH : Sha256} {HX : Hex} {AJ : ArtifactJson}.
Context (c : core_state) (h : commits) (token : option string).
#[local] Existing Instance role_based_authz.

(** What is stored for a request. *)
Definition materialized (request : ArtifactRequest) (stored : StoredArtifact) (d : Inner) : Prop :=
  ∃ bytes, get_record ARTIFACT_COLLECTION (areq_storage_key request) d = Some bytes ∧
           decode_artifact_record request bytes = Ok stored.

Lemma materialized_fun request stored stored' d :
  materialized request stored d → materialized request stored' d → stored = stored'.
Proof. intros (b & Hb & Hs) (b' & Hb' & Hs'). congruence. Qed.

Lemma materialized_grow request stored d d' :
  grow d d' → materialized request stored d → materialized request stored d'.
Proof. intros Hg (b & Hb & Hs). exists b. split; [|done]. by apply Hg. Qed.

Lemma create_record_grow key value d : grow d (create_record ARTIFACT_COLLECTION key value d).2.
Proof.
  intros k v Hk. unfold create_record, get_record in *.
  destruct (records d !! (ARTIFACT_COLLECTION, key)) eqn:E; [done|]. cbn.
  rewrite lookup_insert_ne; [done|]. intros [= <-]. congruence.
Qed.

(** The requests of a query only add artifact records. *)
Lemma serve_grow co X (q : query_req X) d x d' :
  admissible co c token X q d → query_serve c h X q d x d' → grow d d'.
Proof.
  destruct q as [X q|X q|X q|X q]; cbn [admissible query_serve]; try (by intros _ [-> _]).
  destruct q as [collection key value|l|collection key|collection|collection key old new|collection key old];
    cbn [db_serve]; try done.
  - intros ->. destruct (create_record ARTIFACT_COLLECTION key value d) as [b d1] eqn:E.
    assert (grow d d1) as Hg by (replace d1 with (create_record ARTIFACT_COLLECTION key value d).2 by (by rewrite E); apply create_record_grow).
    intros [[_ ->]|[_ [->| ->]]]; done.
  - intros ->. intros [[_ ->]|[_ [->| ->]]]; done.
Qed.

(** A result that is stored stays stored. *)
Definition gives co {A} (m : query A) (P : A → Inner → Prop) (d : Inner) : Prop :=
  asks (query_serve c h) grow (admissible co c token) m (λ r d', ∀ a, r = Ok a → P a d') d.

Lemma gives_frame co {A} (m : query A) (P : A → Inner → Prop) (F : Inner → Prop) d :
  (∀ d1 d2, grow d1 d2 → F d1 → F d2) → F d → gives co m P d → gives co m (λ a d', P a d' ∧ F d') d.
Proof.
  intros HF Hd Hm. eapply asks_mono; [|apply (asks_frame _ _ _ F)]; [|exact HF| |exact Hd|exact Hm].
  - intros r d' [H Hf] a Ha. split; [by apply H|done].
  - intros X q d1 x d2 Hq Hx. apply HF. by eapply serve_grow.
Qed.

Lemma gives_step co {A B} (m : query A) (f : A → query B) (P : A → Inner → Prop) (P' : B → Inner → Prop) d :
  gives co m P d → (∀ a d', P a d' → gives co (f a) P' d') → gives co (m ≫= f) P' d.
Proof.
  intros Hm Hf. apply asks_bind. eapply asks_mono; [|exact Hm].
  intros [a|e| |] d' H; try done. by apply Hf, H.
Qed.

Lemma gives_asked co {A} (m : query A) d :
  meets co c h token m (on_ok True (λ _, True)) → gives co m (λ _ _, True) d.
Proof. intros Hm. eapply asks_mono; [|apply Hm]. done. Qed.

Lemma gives_mono co {A} (m : query A) (P P' : A → Inner → Prop) d :
  (∀ a d', P a d' → P' a d') → gives co m P d → gives co m P' d.
Proof. intros HP. apply asks_mono. eauto. Qed.

Lemma gives_load co request d :
  gives co (artifact_load request) (λ o d', ∀ stored, o = Some stored → materialized request stored d') d.
Proof.
  unfold artifact_load. intros d1 _. split; [done|]. intros x d2 [[-> ->]|[[e ->] _]]; [|done].
  cbn [map_err mbind action_bind prog_bind]. destruct (get_record _ _ _) as [bytes|] eqn:E.
  - cbn. destruct (decode_artifact_record request bytes) as [stored| | |] eqn:Hs; try done. cbn.
    intros o [= <-] s [= <-]. by exists bytes.
  - cbn. by intros o [= <-] s.
Qed.

Lemma gives_insert {AL : ArtifactJsonLaws AJ} co request candidate d :
  gives co (insert_first request candidate) (λ winner d', materialized request winner d') d.
Proof.
  unfold insert_first. destruct (encode_artifact_record request candidate) as [encoded| | |] eqn:He; try done.
  cbn [query_step pure_step mbind action_bind prog_bind]. intros d1 _. split; [done|].
  intros x d2 Hx. cbn [query_serve db_serve] in Hx.
  destruct (create_record ARTIFACT_COLLECTION (areq_storage_key request) encoded d1) as [b d3] eqn:Hc.
  destruct Hx as [[-> ->]|[[e ->] _]]; [|done]. cbn [map_err mbind action_bind prog_bind].
  destruct b.
  - intros a [= <-]. exists encoded. split; [|by apply decode_encoded].
    unfold create_record in Hc. unfold get_record. destruct (records d1 !! _) eqn:E; simplify_eq/=.
    by rewrite lookup_insert_eq.
  - eapply gives_step; [apply gives_load|]. intros o d4 Ho winner. destruct o as [stored|]; [|done].
    intros [= <-]. by apply Ho.
Qed.

Lemma gives_dependencies co paths F d :
  (∀ d1 d2, grow d1 d2 → F d1 → F d2) → F d →
  gives co (authorize_artifact_dependencies paths token) (λ _ d', F d') d.
Proof.
  intros HF Hd. eapply gives_mono; [|apply (gives_frame _ _ (λ _ _, True) F); [exact HF|exact Hd|]].
  - by intros a d' [_ H].
  - apply gives_asked, asked_authorize_dependencies.
Qed.

(** The result of a call is what is stored for its request. *)
Lemma gives_artifact {AL : ArtifactJsonLaws AJ} co fuel revision schema kind language options request d :
  artifact_request_new revision schema kind language options = Ok request →
  gives co (get_schema_artifact co fuel revision schema kind language options token)
    (λ a d', ∃ stored, materialized request stored d' ∧ sta_artifact stored = a) d.
Proof.
  intros Hrequest. unfold get_schema_artifact.
  destruct (parse_revision_name revision) as [[[project repo] commit]| | |]; try done.
  cbn [query_step pure_step mbind action_bind prog_bind].
  destruct (validate_schema_name "schema_path" schema) as [u| | |]; try done.
  cbn [query_step pure_step mbind action_bind prog_bind].
  apply (gives_step _ _ _ (λ _ d', may_see c token project) _ d).
  { intros. eapply asks_mono; [|apply (hold_authorize co c h token True); by left]. intros r d' H a ->. exact H. }
  intros who d1 Hsee. apply (gives_step _ _ _ (λ config d', config_in_force co c project repo config) _ d1).
  { eapply asks_mono; [|apply (hold_config co c h token True)]. intros r d' H a ->. exact H. }
  intros config d2 Hconfig.
  assert (may_read co c token project repo) as Hread by (split; [done|by exists config]).
  destruct (fail_if _ _); try done. cbn [query_step pure_step mbind action_bind prog_bind].
  apply (gives_step _ _ _ (λ _ _, True) _ d2).
  { intros d3 _. split; [done|]. by intros x d4 _. }
  intros v d3 _. rewrite Hrequest. cbn [query_step pure_step mbind action_bind prog_bind].
  eapply gives_step; [apply gives_load|]. intros found d4 Hfound.
  assert (∀ stored, materialized request stored d4 →
    gives co (_ ← authorize_artifact_dependencies (sta_dependency_paths stored) token; mret (sta_artifact stored))
      (λ a d', ∃ stored, materialized request stored d' ∧ sta_artifact stored = a) d4) as Hdone.
  { intros stored Hm. eapply gives_step.
    - apply gives_dependencies; [|exact Hm]. intros ? ?. apply materialized_grow.
    - intros x d5 Hm5 b [= <-]. by exists stored. }
  destruct found as [stored|]; [by apply Hdone, Hfound|]. clear Hdone Hfound. cbv zeta.
  unfold query_compiler. destruct (compiler_for (c_registry co) schema) as [compiler| | |]; try done.
  cbn [query_step pure_step mbind action_bind prog_bind].
  eapply gives_step; [apply gives_asked, asked_build|]. intros closure d5 _.
  destruct (artifact_content _ _ _ _) as [content| | |]; try done.
  cbn [query_step pure_step mbind action_bind prog_bind].
  eapply gives_step; [apply gives_insert|]. intros winner d6 Hm. eapply gives_step.
  - apply gives_dependencies; [|exact Hm]. intros ? ?. apply materialized_grow.
  - intros x d7 Hm7 b [= <-]. by exists winner.
Qed.

(** C14. The first materialization of an artifact wins for good: whichever server
    and compiler makes a call, and whatever other servers do meanwhile, the
    artifact it returns is the one that is stored for its request when it
    returns; and if one was stored when the call began, that one is returned. *)
Theorem first_materialization_wins {AL : ArtifactJsonLaws AJ} (co : Core) (fuel : nat)
    (revision schema : string) (kind : SchemaArtifactKind) (language : option Language)
    (options : CodegenOptions) (request : ArtifactRequest) (d : Inner) :
  artifact_request_new revision schema kind language options = Ok request →
  asks (query_serve c h) grow (admissible co c token)
    (get_schema_artifact co fuel revision schema kind language options token)
    (λ r d', ∀ a, r = Ok a →
       (∃ stored, materialized request stored d' ∧ sta_artifact stored = a) ∧
       ∀ first, materialized request first d → a = sta_artifact first) d.
Proof.
  intros Hrequest. pose proof (gives_artifact co fuel revision schema kind language options request d Hrequest) as H.
  apply (gives_frame _ _ _ (λ d', ∀ first, materialized request first d → materialized request first d')) in H;
    [| |done].
  - eapply asks_mono; [|exact H]. cbn. intros r d' H' a Ha. destruct (H' a Ha) as [(stored & Hm & <-) Hf].
    split; [by exists stored|]. intros first Hfirst%Hf. by rewrite (materialized_fun _ _ _ _ Hm Hfirst).
  - intros d1 d2 Hg Hd first Hfirst. eapply materialized_grow; [exact Hg|]. by apply Hd.
Qed.

(** C40. Every artifact that is served is well formed: its revision, schema path and
    kind are those of the request; format identifier and media type are short texts
    without control characters; its digest is the SHA-256 digest of its content and
    its name is the one of the request and that digest; its closure digest is a
    SHA-256 digest in lowercase hexadecimal; and its dependencies are listed in
    order, once each, with valid project, repository and schema names. *)
Theorem served_artifact_well_formed {AL : ArtifactJsonLaws AJ} (co : Core) (fuel : nat)
    (revision schema : string) (kind : SchemaArtifactKind) (language : option Language)
    (options : CodegenOptions) (request : ArtifactRequest) (d : Inner) :
  artifact_request_new revision schema kind language options = Ok request →
  asks (query_serve c h) grow (admissible co c token)
    (get_schema_artifact co fuel revision schema kind language options token)
    (λ r _, ∀ a, r = Ok a → ∃ paths, artifact_wf request (mkStoredArtifact a paths)) d.
Proof.
  intros Hrequest. eapply asks_mono; [|by apply gives_artifact]. cbn. intros r d' H a Ha.
  destruct (H a Ha) as ([a' paths] & (bytes & _ & Hdecode) & <-). exists paths. by eapply decode_wf.
Qed.

End Immutable.

(** ** The encoding behind a closure digest *)

Section Digest.
Context {HO : HashOrder}.

Definition len_fits {A} (l : list A) : Prop := Z.of_nat (length l) < 2 ^ 64.

Definition length_code (n : nat) : list byte := to_be_bytes (wrap_u64 (Z.of_nat n)).

Definition part_code (part : list byte) : list byte := length_code (length part) ++ part.

Lemma length_code_inj {A B} (l : list A) (l' : list B) (r r' : list byte) :
  len_fits l → len_fits l' → length_code (length l) ++ r = length_code (length l') ++ r' →
  length l = length l' ∧ r = r'.
Proof.
  unfold len_fits, length_code. intros Hl Hl' H. apply app_inj_1 in H as [H ->]; [|by rewrite !length_to_be_bytes].
  split; [|done]. apply (f_equal from_be_bytes) in H. unfold wrap_u64 in H. rewrite !Z.mod_small in H by lia.
  rewrite !from_to_be_bytes in H by (unfold in_u64; lia). lia.
Qed.

Lemma part_code_inj p p' r r' : len_fits p → len_fits p' → part_code p ++ r = part_code p' ++ r' → p = p' ∧ r = r'.
Proof.
  intros Hp Hp'. unfold part_code. rewrite <- !app_assoc. intros [Hlen H]%length_code_inj; [|done..].
  by apply app_inj_1 in H.
Qed.

Definition path_code (p : SchemaPath) : list byte :=
  part_code (as_bytes (sp_project p)) ++ part_code (as_bytes (sp_repo p)) ++
  part_code (as_bytes (sp_schema_name p)).

Definition path_fits (p : SchemaPath) : Prop :=
  len_fits (as_bytes (sp_project p)) ∧ len_fits (as_bytes (sp_repo p)) ∧ len_fits (as_bytes (sp_schema_name p)).

Lemma path_code_inj p p' r r' :
  path_fits p → path_fits p' → path_code p ++ r = path_code p' ++ r' → p = p' ∧ r = r'.
Proof.
  intros (H1 & H2 & H3) (H1' & H2' & H3'). unfold path_code. rewrite <- !app_assoc.
  intros [Hp H]%part_code_inj; [|done..]. apply part_code_inj in H as [Hr H]; [|done..].
  apply part_code_inj in H as [Hn H]; [|done..]. apply as_bytes_inj in Hp, Hr, Hn.
  split; [|done]. destruct p, p'. by simplify_eq/=.
Qed.

(** Lists of codes. *)
Section Lists.
Context {A : Type} (code : A → list byte) (ok : A → Prop).
Hypothesis code_inj : ∀ x x' r r', ok x → ok x' → code x ++ r = code x' ++ r' → x = x' ∧ r = r'.

Lemma codes_inj l l' r r' :
  Forall ok l → Forall ok l' → length l = length l' →
  mjoin (code <$> l) ++ r = mjoin (code <$> l') ++ r' → l = l' ∧ r = r'.
Proof.
  intros Hl. revert l'. induction Hl as [|x l Hx _ IH]; intros [|x' l'] Hl' Hlen; try done.
  apply Forall_cons in Hl' as [Hx' Hl']. cbn. rewrite <- !app_assoc. intros [-> H]%code_inj; [|done..].
  injection Hlen as Hlen. by destruct (IH l' Hl' Hlen H) as [-> ->].
Qed.

Lemma foldl_codes (push : list byte → A → list byte) l encoded :
  (∀ e x, push e x = e ++ code x) → foldl push encoded l = encoded ++ mjoin (code <$> l).
Proof.
  intros Hpush. revert encoded. induction l as [|x l IH]; intros encoded; cbn; [by rewrite app_nil_r|].
  rewrite IH, Hpush. by rewrite <- app_assoc.
Qed.

End Lists.

Definition decl_code (d : string * DeclBlob) : list byte := part_code (as_bytes d.1) ++ part_code d.2.

Definition decl_fits (d : string * DeclBlob) : Prop := len_fits (as_bytes d.1) ∧ len_fits d.2.

Lemma decl_code_inj d d' r r' :
  decl_fits d → decl_fits d' → decl_code d ++ r = decl_code d' ++ r' → d = d' ∧ r = r'.
Proof.
  intros [H1 H2] [H1' H2']. unfold decl_code. rewrite <- !app_assoc.
  intros [Hn H]%part_code_inj; [|done..]. apply part_code_inj in H as [Hb H]; [|done..].
  apply as_bytes_inj in Hn. split; [|done]. destruct d, d'. by simplify_eq/=.
Qed.

Definition entry_code (e : SchemaPath * SchemaObjects) : list byte :=
  path_code e.1 ++ part_code (so_meta e.2) ++ length_code (size (so_decls e.2)) ++
  mjoin (decl_code <$> btree_iter (so_decls e.2)).

Definition entry_fits (e : SchemaPath * SchemaObjects) : Prop :=
  path_fits e.1 ∧ len_fits (so_meta e.2) ∧ len_fits (btree_iter (so_decls e.2)) ∧
  Forall decl_fits (btree_iter (so_decls e.2)).

Lemma length_btree_iter {A} (m : gmap string A) : length (btree_iter m) = size m.
Proof.
  unfold btree_iter. rewrite (Permutation_length (merge_sort_Permutation _ _)). apply length_map_to_list.
Qed.

Lemma btree_iter_inj {A} (m m' : gmap string A) : btree_iter m = btree_iter m' → m = m'.
Proof.
  intros H. apply map_eq. intros k. apply option_eq. intros v. by rewrite <- !elem_of_btree_iter, H.
Qed.

Lemma entry_code_inj e e' r r' :
  entry_fits e → entry_fits e' → entry_code e ++ r = entry_code e' ++ r' → e = e' ∧ r = r'.
Proof.
  intros (H1 & H2 & H3 & H4) (H1' & H2' & H3' & H4'). unfold entry_code. rewrite <- !app_assoc.
  intros [Hp H]%path_code_inj; [|done..]. apply part_code_inj in H as [Hm H]; [|done..].
  rewrite <- !length_btree_iter in H. apply length_code_inj in H as [Hlen H]; [|done..].
  apply (codes_inj decl_code decl_fits decl_code_inj) in H as [Hd H]; [|done..].
  apply btree_iter_inj in Hd. split; [|done]. destruct e as [? []], e' as [? []]. by simplify_eq/=.
Qed.

Lemma closure_bytes_codes closure root :
  scl_root closure = Some root →
  closure_bytes closure =
  part_code (as_bytes "schemahub-closure-v1") ++ path_code root ++ length_code (length (sorted_entries closure)) ++
  mjoin (entry_code <$> sorted_entries closure).
Proof.
  intros Hroot. unfold closure_bytes. rewrite Hroot. cbv zeta. rewrite (foldl_codes entry_code).
  - unfold push_path, push_part, path_code, part_code, length_code. by rewrite <- !app_assoc.
  - intros e [path schema]. unfold push_entry. cbv zeta. rewrite (foldl_codes decl_code).
    + unfold entry_code, push_path, push_part, path_code, part_code, length_code. cbn [fst snd].
      by rewrite <- !app_assoc.
    + intros e' d. unfold push_part, decl_code, part_code, length_code. by rewrite <- !app_assoc.
Qed.

(** The sizes of a closure fit the lengths of the encoding. *)
Definition closure_fits (closure : SchemaClosure) : Prop :=
  len_fits (sorted_entries closure) ∧ Forall entry_fits (sorted_entries closure) ∧
  ∀ root, scl_root closure = Some root → path_fits root.

(** The bytes that a closure digest hashes determine the closure: two rooted
    closures with the same bytes have the same root, the same schemas, the same
    metadata and the same declarations. *)
Theorem closure_bytes_inj (closure closure' : SchemaClosure) :
  closure_fits closure → closure_fits closure' →
  is_Some (scl_root closure) → is_Some (scl_root closure') →
  closure_bytes closure = closure_bytes closure' → closure = closure'.
Proof.
  intros (Hn & He & Hr) (Hn' & He' & Hr') [root Hroot] [root' Hroot'].
  rewrite (closure_bytes_codes _ _ Hroot), (closure_bytes_codes _ _ Hroot'). intros H.
  apply app_inv_head in H. apply path_code_inj in H as [-> H]; [|by apply Hr|by apply Hr'].
  apply length_code_inj in H as [Hlen H]; [|done..].
  rewrite <- (app_nil_r (mjoin _)), <- (app_nil_r (mjoin (entry_code <$> sorted_entries closure'))) in H.
  apply (codes_inj entry_code entry_fits entry_code_inj) in H as [Hs _]; [|done..].
  destruct closure as [r e], closure' as [r' e']. cbn in *. subst r r'. f_equal.
  apply map_eq. intros k. apply option_eq. intros v.
  assert (∀ c, (k, v) ∈ sorted_entries c ↔ scl_entries c !! k = Some v) as Hin.
  { intros c. unfold sorted_entries. by rewrite merge_sort_Permutation, elem_of_hash_iter. }
  rewrite <- (Hin (mkSchemaClosure (Some root') e)), <- (Hin (mkSchemaClosure (Some root') e')). by rewrite Hs.
Qed.

End Digest.
