(* ===== verification/HistoryProps.v ===== *)
(** * HistoryProps: diffs between revisions and conflict resolution

    A diff reports exactly what differs between two immutable commits; the
    resolution of a conflict is published without the checks of other writes. *)
From S2P Require Import Prelude RustStd SchemaTypes Prog ObjectDb RecordStore AccessStore Repository Idempotency CoreTypes Integrity Access AccessProps AccessEffects Flow FlowProps FlowRules Queries Dependencies History Serving QueryRules.
From Stdlib Require Import Strings.Byte.

Open Scope Z_scope.

(** ** The reference definition *)

(** The declarations whose blobs differ, in the order of their names. *)
Definition differing (old new : gmap string DeclBlob) : list string :=
  filter (λ name, old !! name ≠ new !! name) (btree_set_iter (dom old ∪ dom new)).

(** What is reported of a declaration that differs. *)
Definition change_of (compiler : Compiler) (old new : gmap string DeclBlob) (name : string)
    (change : DeclChange) : Prop :=
  match old !! name, new !! name with
  | Some o, Some n => cp_diff_decl compiler o n = Ok change
  | None, Some _ => change = DeclarationAdded name
  | Some _, None => change = DeclarationRemoved name
  | None, None => False
  end.

Lemma differing_nil old new : differing old new = [] ↔ old = new.
Proof.
  unfold differing. split.
  - intros H. apply map_eq. intros k. apply dec_stable. intros Hk.
    assert (k ∈ filter (λ name, old !! name ≠ new !! name) (btree_set_iter (dom old ∪ dom new))) as Hin.
    { rewrite list_elem_of_filter, elem_of_btree_set_iter, elem_of_union, !elem_of_dom. split; [done|].
      destruct (old !! k), (new !! k); naive_solver. }
    rewrite H in Hin. by apply elem_of_nil in Hin.
  - intros ->. induction (btree_set_iter _) as [|x l IH]; [done|]. rewrite filter_cons_False; [done|]. by intros [].
Qed.

Lemma diff_declaration_spec compiler old new name changes :
  diff_declaration compiler old new name = Ok changes →
  if bool_decide (old !! name = new !! name) then changes = []
  else ∃ change, changes = [change] ∧ change_of compiler old new name change.
Proof.
  unfold diff_declaration, change_of. destruct (old !! name) as [o|] eqn:Ho, (new !! name) as [n|] eqn:Hn; try done.
  - rewrite (bool_decide_ext (Some o = Some n) (o = n)) by (split; [by intros [=]|by intros ->]).
    case_bool_decide; [by intros [=]|]. intros Hd. ok_inv Hd. subst changes. by eexists.
  - rewrite bool_decide_eq_false_2 by done. intros [= <-]. by eexists.
  - rewrite bool_decide_eq_false_2 by done. intros [= <-]. by eexists.
Qed.

Lemma diff_schema_spec compiler old new changes :
  diff_schema compiler old new = Ok changes →
  Forall2 (change_of compiler (decls_of old) (decls_of new)) (differing (decls_of old) (decls_of new)) changes.
Proof.
  unfold diff_schema, differing. intros H. ok_inv H. subst changes.
  match goal with H : mapM _ _ = Ok _ |- _ => apply mapM_Ok in H; induction H as [|name chs l ls Hx _ IH] end;
    [constructor|]. apply diff_declaration_spec in Hx. case_bool_decide as Heq.
  - subst chs. rewrite filter_cons_False; [exact IH|]. by intros [].
  - destruct Hx as (change & -> & Hc). rewrite filter_cons_True by done. by constructor.
Qed.

Section Diffs.
Context {AN : AuthnProvider} {J : AccessJson} {RJ : RepositoryJson} {HO : HashOrder} {RF : RustFmt}.
Context (co : Core) (c : core_state) (h : commits) (token : option string).
#[local] Existing Instance role_based_authz.

Abbreviation holds m P := (meets co c h token m (on_ok True P)).
Abbreviation decls_at project repo name commit := (decls_of (schema_at h (mkSchemaPath project repo name) commit)).

(** What the diff of one schema gives. *)
Definition schema_diff_of (project repo base head name : string) (out : list (string * list DeclChange)) : Prop :=
  if bool_decide (decls_at project repo name base = decls_at project repo name head) then out = []
  else ∃ compiler changes, out = [(name, changes)] ∧ compiler_for (c_registry co) name = Ok compiler ∧
    Forall2 (change_of compiler (decls_at project repo name base) (decls_at project repo name head))
      (differing (decls_at project repo name base) (decls_at project repo name head)) changes.

Lemma hold_diff_one project repo base head name :
  may_read co c token project repo →
  holds (diff_one co project repo (RefCommit base) (RefCommit head) name)
    (schema_diff_of project repo base head name).
Proof.
  intros Hread. unfold diff_one.
  eapply hold_step; [by apply hold_find|]. intros ? ->.
  eapply hold_step; [by apply hold_find|]. intros ? ->.
  eapply hold_step; [by apply hold_pure|]. intros ? _.
  eapply hold_step; [by apply hold_compiler|]. intros compiler Hc.
  eapply hold_step; [by apply hold_pure|]. intros changes Hd%diff_schema_spec. cbv beta in *.
  apply hold_ret. unfold schema_diff_of. case_bool_decide as Heq.
  - rewrite (proj2 (differing_nil _ _) Heq) in Hd. by inversion Hd.
  - exists compiler, changes. split_and!; [|done|done]. destruct changes; [|done].
    inversion Hd as [Hnil|]. destruct Heq. by apply differing_nil.
Qed.

Lemma diffs_of_each project repo base head names outs :
  Forall2 (schema_diff_of project repo base head) names outs →
  (mjoin outs).*1 = filter (λ name, decls_at project repo name base ≠ decls_at project repo name head) names ∧
  Forall (λ d, ∃ compiler, compiler_for (c_registry co) d.1 = Ok compiler ∧
    Forall2 (change_of compiler (decls_at project repo d.1 base) (decls_at project repo d.1 head))
      (differing (decls_at project repo d.1 base) (decls_at project repo d.1 head)) d.2) (mjoin outs).
Proof.
  induction 1 as [|name out names outs Hx _ [IH1 IH2]]; [by split|]. unfold schema_diff_of in Hx.
  case_bool_decide as Heq.
  - subst out. rewrite filter_cons_False by (by intros []). by split.
  - destruct Hx as (compiler & changes & -> & Hc & Hd). rewrite filter_cons_True by done.
    split; [by cbn; f_equal|]. constructor; [by exists compiler|done].
Qed.

(** The schemas that a diff looks at. *)
Definition compared (project repo : string) (requested : option string) (base head : string) : gset string :=
  match requested with
  | Some name => {[ name ]}
  | None => names_at h (mkSchemaPath project repo "") base ∪ names_at h (mkSchemaPath project repo "") head
  end.

Lemma hold_compared project repo requested base head :
  may_read co c token project repo →
  holds (match requested with
         | Some name => mret {[ name ]}
         | None =>
           left ← by_jj (JjListSchemas project repo (RefCommit base));
           right ← by_jj (JjListSchemas project repo (RefCommit head));
           mret (list_to_set (left ++ right) : gset string)
         end) (λ names, names = compared project repo requested base head).
Proof.
  intros Hread. destruct requested as [name|]; [by apply hold_ret|].
  assert (∀ commit, holds (by_jj (JjListSchemas project repo (RefCommit commit)))
            (λ l, names_at h (mkSchemaPath project repo "") commit = list_to_set l)) as Hlist.
  { intros commit. apply hold_jj; [by intros d|by intros Hs|]. intros l Hl.
    destruct (Hl l eq_refl) as (sn & Hsn & ->). unfold names_at. cbn. by rewrite Hsn. }
  eapply hold_step; [apply Hlist|]. intros left Hleft.
  eapply hold_step; [apply Hlist|]. intros right Hright. cbv beta in *.
  apply hold_ret. cbn. by rewrite Hleft, Hright, list_to_set_app_L.
Qed.

(** C34. A diff between two refs is exact for the two immutable commits that it
    reports: it lists the compared schemas whose declarations differ between the
    commits, in the order of their names and no others, and for each of them, in
    the order of their names, one change per declaration that differs: an
    addition, a removal, or what the registered compiler says of the two blobs.
    Schemas that exist on one side only are compared with no declarations. Refs
    may move while the diff runs. *)
Theorem diff_is_exact (project repo : string) (requested : option string) (from to : RefSpec) (d : Inner) :
  asks (query_serve c h) grow (admissible co c token)
    (diff_repository_resolved co project repo requested from to token)
    (λ r _, ∀ diff, r = Ok diff →
       let base := rd_base_commit diff in
       let head := rd_head_commit diff in
       (rd_schema_diffs diff).*1 =
         filter (λ name, decls_at project repo name base ≠ decls_at project repo name head)
           (btree_set_iter (compared project repo requested base head)) ∧
       ∀ name changes, (name, changes) ∈ rd_schema_diffs diff →
         ∃ compiler, compiler_for (c_registry co) name = Ok compiler ∧
           Forall2 (change_of compiler (decls_at project repo name base) (decls_at project repo name head))
             (differing (decls_at project repo name base) (decls_at project repo name head)) changes) d.
Proof.
  assert (holds (diff_repository_resolved co project repo requested from to token) (λ diff, ∃ outs,
    Forall2 (schema_diff_of project repo (rd_base_commit diff) (rd_head_commit diff))
      (btree_set_iter (compared project repo requested (rd_base_commit diff) (rd_head_commit diff))) outs ∧
    rd_schema_diffs diff = mjoin outs)) as H.
  { unfold diff_repository_resolved.
    eapply hold_step; [apply hold_resolve; by left|]. intros base (Hread & _).
    eapply hold_step; [apply hold_resolve; by left|]. intros head _.
    eapply hold_step; [by apply hold_compared|]. intros names ->.
    eapply hold_step; [by apply hold_collect; intros name _; apply hold_diff_one|]. intros outs Houts.
    apply hold_ret. by exists outs. }
  eapply asks_mono; [|apply H]. intros r d' Hr diff ->. destruct Hr as (outs & Houts & Hd).
  apply diffs_of_each in Houts as [Hnames Hall]. rewrite Hd. split; [exact Hnames|].
  intros name changes Hin. rewrite Forall_forall in Hall. apply (Hall (name, changes)). exact Hin.
Qed.

End Diffs.

(** ** Conflict resolution *)

Record resolution := mkResolution {
  rs_schema : SchemaPath;
  rs_bookmark : string;
  rs_decl : string;
  rs_blob : DeclBlob;
}.

Section Resolution.
Context {AN : AuthnProvider} {AZ : AuthzPolicy} {J : AccessJson} {RJ : RepositoryJson} {RF : RustFmt}.

(** The stores of the core, beside a jj repository that makes the resolutions it
    is asked for and logs them; it is asked for nothing else. *)
Definition resolving_serve (w : WriteResult) (X : Type) (q : query_req X)
    (s : core_state * list resolution) (x : X) (s' : core_state * list resolution) : Prop :=
  match q in query_req X return X → Prop with
  | QCore q => λ x, core_serve _ q s.1 x s'.1 ∧ s'.2 = s.2
  | QQuery q =>
    match q in jj_query X return X → Prop with
    | JjResolveConflict project repo bookmark schema decl blob _ _ => λ x,
      x = Ok w ∧ s' = (s.1, s.2 ++ [mkResolution (mkSchemaPath project repo schema) bookmark decl blob])
    | _ => λ _, False
    end
  | _ => λ _, False
  end x.

Lemma runs_by_core w {A} (m : core A) c r c' log :
  runs core_serve m c r c' → runs (resolving_serve w) (by_core m) (c, log) r (c', log).
Proof.
  revert c. induction m as [a|X q k IH]; intros c; cbn.
  - by intros [-> ->].
  - intros (x & c1 & Hx & H). exists x, (c1, log). split; [done|]. by apply IH.
Qed.

(** [resolve_conflict] publishes without the checks of other writes: with the
    permission to write, a registered compiler and a blob that decodes, jj is
    asked to put the blob on the bookmark and the call succeeds, whatever the
    repository is: archived, publishing through change records only, with a
    protected bookmark or without any conflict in the declaration. Nothing but
    the permission is read from the stores. *)
Theorem resolution_is_unguarded (co : Core) (c : core_state) (schema : SchemaPath) (bookmark decl : string) (blob : DeclBlob)
    (author message : string) (token : option string) (who : Identity) (compiler : Compiler) (w : WriteResult) :
  runs core_serve (authorize token Write_ (sp_project schema) (sp_repo schema)) c (Ok who) c →
  compiler_for (c_registry co) (sp_schema_name schema) = Ok compiler →
  cp_validate_resolution compiler blob = Ok tt →
  runs (resolving_serve w) (resolve_conflict co schema bookmark decl blob author message token) (c, [])
    (Ok (response_from_write w)) (c, [mkResolution schema bookmark decl blob]).
Proof.
  intros Hauth Hc Hv. unfold resolve_conflict. apply runs_bind. exists (Ok who), (c, []).
  split; [by apply runs_by_core|]. cbn. unfold query_compiler. rewrite Hc. cbn. rewrite Hv. cbn.
  destruct schema. by eexists _, _.
Qed.

End Resolution.
