(* ===== verification/WriteProps.v ===== *)
(** * WriteProps: what the write flows guarantee

    The plan of a transaction groups its operations by file. Every publication
    that a direct write asks for was authorized, allowed by the review policy and,
    on a protected bookmark without force, passed the compatibility gate. *)
From S2P Require Import Prelude RustStd SchemaTypes ChangeModel Prog ObjectDb RecordStore AccessStore Repository Idempotency CoreTypes Integrity Access AccessProps AccessEffects ChangeStore ChangeLedger LedgerProps Flow FlowProps Writes FlowRules.
From Stdlib Require Import Strings.Byte.

Open Scope Z_scope.

(** ** Plans *)

Definition op_file (m : Mutation) : string := sp_schema_name (mu_schema_path m).

(** The operations on a file, in their order. *)
Definition ops_on (name : string) (ops : list Mutation) : list Mutation :=
  List.filter (λ m, bool_decide (op_file m = name)) ops.

Lemma update_first_None {A} (p : A → bool) f l : update_first p f l = None → ∀ x, x ∈ l → p x = false.
Proof.
  induction l as [|y l IH]; [intros _ x Hx; by apply not_elem_of_nil in Hx|]. cbn [update_first].
  destruct (p y) eqn:Hp; [done|]. destruct (update_first p f l); [done|].
  intros _ x [->|Hx]%elem_of_cons; [done|]. by apply IH.
Qed.

Lemma existsb_false {A} (p : A → bool) l x : existsb p l = false → x ∈ l → p x = false.
Proof.
  induction l as [|y l IH]; intros H Hx; [by apply not_elem_of_nil in Hx|].
  cbn in H. apply orb_false_iff in H as [Hy H]. by apply elem_of_cons in Hx as [->|Hx]; [|apply IH].
Qed.

Definition grouped (ops : list Mutation) (by_file : list (string * list Mutation)) : Prop :=
  NoDup by_file.*1 ∧ ∀ name group, (name, group) ∈ by_file ↔ group = ops_on name ops ∧ group ≠ [].

Lemma ops_on_snoc name ops m :
  ops_on name (ops ++ [m]) = ops_on name ops ++ (if bool_decide (op_file m = name) then [m] else []).
Proof. unfold ops_on. rewrite List.filter_app. cbn. by case_bool_decide. Qed.

Lemma push_op_grouped ops by_file m : grouped ops by_file → grouped (ops ++ [m]) (push_op by_file m).
Proof.
  intros [Hd Hg]. unfold push_op. fold (op_file m). destruct (update_first _ _ by_file) as [l|] eqn:Hu.
  - assert (l.*1 = by_file.*1) as Hkeys by (by eapply update_first_fmap; [|exact Hu]).
    apply update_first_split in Hu as (l1 & [n g] & l2 & -> & Hn & ->). apply bool_decide_eq_true in Hn as Hn.
    cbn [fst snd] in Hn. subst n. split; [by rewrite Hkeys|]. intros name group. rewrite ops_on_snoc.
    rewrite fmap_app, fmap_cons in Hd. cbn in Hd. apply NoDup_app in Hd as (_ & Hx & [Hx2 _]%NoDup_cons).
    assert (∀ g', (op_file m, g') ∈ l1 ++ l2 → False) as Hother.
    { intros g' [H|H]%elem_of_app.
      - apply (Hx (op_file m)); [|by left]. apply list_elem_of_fmap. by exists (op_file m, g').
      - apply Hx2. apply list_elem_of_fmap. by exists (op_file m, g'). }
    specialize (Hg name).
    assert ((name, group) ∈ l1 ++ (op_file m, g ++ [m]) :: l2 ↔
            (name, group) = (op_file m, g ++ [m]) ∨ (name, group) ∈ l1 ++ l2) as -> by set_solver.
    assert (∀ g', (name, g') ∈ l1 ++ (op_file m, g) :: l2 ↔
            (name, g') = (op_file m, g) ∨ (name, g') ∈ l1 ++ l2) as Hold by set_solver.
    destruct (bool_decide_reflect (op_file m = name)) as [<-|Hne].
    + assert (g = ops_on (op_file m) ops) as ->.
      { apply Hg. apply Hold. by left. }
      split.
      * intros [[= ->]|H]; [|by apply Hother in H]. split; [done|]. by destruct (ops_on _ _).
      * intros [-> _]. by left.
    + rewrite app_nil_r, <- Hg, Hold. naive_solver.
  - pose proof (update_first_None _ _ _ Hu) as Hnone.
    assert (∀ g, (op_file m, g) ∉ by_file) as Hnew.
    { intros g H. specialize (Hnone _ H). cbn in Hnone. by apply bool_decide_eq_false in Hnone. }
    split.
    + rewrite fmap_app. apply NoDup_app. split_and!; [done| |apply NoDup_singleton].
      intros n ([n' g] & -> & H)%list_elem_of_fmap Hn. apply list_elem_of_singleton in Hn. cbn in Hn. subst n'.
      by apply Hnew in H.
    + intros name group. rewrite ops_on_snoc, elem_of_app, list_elem_of_singleton.
      destruct (bool_decide_reflect (op_file m = name)) as [<-|Hne].
      * assert (ops_on (op_file m) ops = []) as ->.
        { destruct (ops_on (op_file m) ops) as [|x l] eqn:E; [done|]. exfalso.
          apply (Hnew (x :: l)), Hg. by rewrite E. }
        split; [intros [H|[= ->]]; [by apply Hnew in H|done]|]. intros [-> _]. by right.
      * rewrite app_nil_r, <- Hg. naive_solver.
Qed.

Lemma foldl_grouped ops done_ by_file :
  grouped done_ by_file → grouped (done_ ++ ops) (foldl push_op by_file ops).
Proof.
  revert done_ by_file. induction ops as [|m ops IH]; intros done_ by_file H; [by rewrite app_nil_r|].
  cbn [foldl]. replace (done_ ++ m :: ops) with ((done_ ++ [m]) ++ ops) by (by rewrite <- app_assoc). apply IH. by apply push_op_grouped.
Qed.

(** A transaction that gets a plan: its operations share one project,
    repository and format and touch at most the permitted number of files;
    every file is listed once, with exactly the operations on it, in their
    order, and no operation is lost. *)
Theorem plan_build_spec (ops : list Mutation) (limits : TransactionLimits) (plan : TransactionPlan) :
  plan_build ops limits = Ok plan →
  Forall (λ m, mu_format_id m = tp_format_id plan ∧ sp_project (mu_schema_path m) = tp_project plan ∧
               sp_repo (mu_schema_path m) = tp_repo plan) ops ∧
  NoDup (tp_by_file plan).*1 ∧ (length (tp_by_file plan) <= max_schemas limits)%nat ∧
  (∀ name group, (name, group) ∈ tp_by_file plan ↔ group = ops_on name ops ∧ group ≠ []) ∧
  ∀ m, m ∈ ops → ∃ group, (op_file m, group) ∈ tp_by_file plan ∧ m ∈ group.
Proof.
  destruct ops as [|first ops]; [done|]. intros H. cbn [plan_build] in H. set (all := first :: ops) in *.
  ok_inv H. simplify_eq. cbn [tp_by_file tp_format_id tp_project tp_repo].
  assert (grouped all (foldl push_op [] all)) as [Hd Hg].
  { apply (foldl_grouped all [] []). split; [constructor|]. intros n g. split; [|by intros [-> ?]].
    intros Hin. by apply not_elem_of_nil in Hin. }
  split_and!.
  - apply Forall_forall. intros m Hm.
    pose proof (existsb_false _ _ m Hok Hm) as Hf. pose proof (existsb_false _ _ m Hok0 Hm) as Hp.
    apply negb_false_iff, bool_decide_eq_true in Hf.
    apply orb_false_iff in Hp as [H1%negb_false_iff%bool_decide_eq_true H2%negb_false_iff%bool_decide_eq_true].
    done.
  - done.
  - apply Nat.ltb_ge in Hok1. done.
  - done.
  - intros m Hm. assert (m ∈ ops_on (op_file m) all) as Hin.
    { unfold ops_on. apply elem_of_bool_filter. split; [done|]. by apply bool_decide_eq_true. }
    exists (ops_on (op_file m) all). split; [|done]. apply Hg. split; [done|].
    intros Hnil. rewrite Hnil in Hin. by apply not_elem_of_nil in Hin.
Qed.

(** Two files, the first with two operations. *)
Definition three_ops : list Mutation :=
  (λ f, mkMutation (mkSchemaPath "p" "r" f) "protobuf" [x00]) <$> ["a.proto"; "b.proto"; "a.proto"]%string.

Lemma plan_build_spec_witness :
  ∃ plan, plan_build three_ops transaction_limits_default = Ok plan ∧
    NoDup (tp_by_file plan).*1 ∧ ops_on "a.proto" three_ops ≠ [].
Proof.
  eexists. split; [reflexivity|]. split; [|done].
  apply (plan_build_spec three_ops transaction_limits_default _ eq_refl).
Defined.

(** ** Guards of direct writes *)

Section Guards.
Context {AN : AuthnProvider} {J : AccessJson} {RJ : RepositoryJson} {IJ : IdempotencyJson} {SH : Sha256}
  {HX : Hex} {RF : RustFmt} (co : Core) (tree : trees).
#[local] Existing Instance role_based_authz.

(** The direct writes. *)
Inductive write_op :=
  | OpMutation (req : MutationRequest)
  | OpTransaction (req : TransactionRequest) (limits : TransactionLimits) (deadline : bool)
  | OpCreateSchema (req : CreateSchemaRequest)
  | OpUpdateSchema (req : UpdateSchemaRequest)
  | OpDeleteSchema (req : DeleteSchemaRequest).

Definition write_prog (op : write_op) : flow MutationResponse :=
  match op with
  | OpMutation req => apply_mutation co req
  | OpTransaction req limits deadline => apply_mutations_with_limits_and_deadline co req limits deadline
  | OpCreateSchema req => create_schema co req
  | OpUpdateSchema req => update_schema co req
  | OpDeleteSchema req => delete_schema co req
  end.

Definition op_token (op : write_op) : option string :=
  match op with
  | OpMutation req => mq_token req
  | OpTransaction req _ _ => tq_token req
  | OpCreateSchema req => cs_token req
  | OpUpdateSchema req => us_token req
  | OpDeleteSchema req => dls_token req
  end.

Definition op_force (op : write_op) : bool :=
  match op with
  | OpMutation req => mq_force req
  | OpTransaction req _ _ => tq_force req
  | OpCreateSchema _ => false
  | OpUpdateSchema req => us_force req
  | OpDeleteSchema req => dls_force req
  end.

(** The compiler that a request selects. *)
Definition op_compiler (op : write_op) : outcome CoreError Compiler :=
  match op with
  | OpMutation req => registered co (mu_format_id (mq_mutation req))
  | OpTransaction req limits _ =>
    plan ← plan_build (tq_mutations req) limits; registered co (tp_format_id plan)
  | OpCreateSchema req => compiler_for_explicit_format co (sp_schema_name (cs_schema req)) (cs_format_id req)
  | OpUpdateSchema req => compiler_for (c_registry co) (sp_schema_name (us_schema req))
  | OpDeleteSchema req => compiler_for (c_registry co) (sp_schema_name (dls_schema req))
  end.

(** The stored schema, the empty one if there is none. *)
Definition base_of (project repo name : string) (base_ref : RefSpec) : SchemaObjects :=
  default schema_objects_default (tree project repo name base_ref).

Definition op_target (op : write_op) (project repo bookmark : string) : Prop :=
  match op with
  | OpMutation req =>
    let path := mu_schema_path (mq_mutation req) in
    project = sp_project path ∧ repo = sp_repo path ∧ bookmark = mq_bookmark req
  | OpTransaction req limits _ =>
    ∃ plan, plan_build (tq_mutations req) limits = Ok plan ∧ project = tp_project plan ∧
            repo = tp_repo plan ∧ bookmark = tq_bookmark req
  | OpCreateSchema req =>
    project = sp_project (cs_schema req) ∧ repo = sp_repo (cs_schema req) ∧ bookmark = cs_bookmark req
  | OpUpdateSchema req =>
    project = sp_project (us_schema req) ∧ repo = sp_repo (us_schema req) ∧ bookmark = us_bookmark req
  | OpDeleteSchema req =>
    project = sp_project (dls_schema req) ∧ repo = sp_repo (dls_schema req) ∧ bookmark = dls_bookmark req
  end.

(** The writes that a request stands for, computed from the tree of its base. *)
Definition requested (op : write_op) (compiler : Compiler) (project repo : string) (base_ref : RefSpec)
    (writes : list SchemaWrite) : Prop :=
  match op with
  | OpMutation req =>
    let name := op_file (mq_mutation req) in
    ∃ effect, cp_apply_mutation compiler (base_of project repo name base_ref) (mq_mutation req) = Ok effect ∧
              writes = [WritePatch name effect]
  | OpTransaction req limits _ =>
    ∃ plan, plan_build (tq_mutations req) limits = Ok plan ∧
      Forall2 (λ file w, ∃ effect,
        cp_apply_mutations compiler (base_of project repo file.1 base_ref) file.2 = Ok effect ∧
        w = WritePatch file.1 effect) (tp_by_file plan) writes
  | OpCreateSchema req =>
    let name := sp_schema_name (cs_schema req) in
    tree project repo name base_ref = None ∧
    ∃ effect, replacement_effect compiler (cs_source req) schema_objects_default = Ok effect ∧
              writes = [WritePatch name effect]
  | OpUpdateSchema req =>
    let name := sp_schema_name (us_schema req) in
    ∃ base effect, tree project repo name base_ref = Some base ∧
      replacement_effect compiler (us_source req) base = Ok effect ∧ writes = [WritePatch name effect]
  | OpDeleteSchema req =>
    let name := sp_schema_name (dls_schema req) in
    is_Some (tree project repo name base_ref) ∧ writes = [WriteDelete name]
  end.

(** A patch passes the gate against the stored schema; the deletion of a schema
    needs disabled checks. *)
Definition gated (compiler : Compiler) (rules : CompatibilityRules) (project repo : string)
    (base_ref : RefSpec) (w : SchemaWrite) : Prop :=
  match w with
  | WritePatch name effect => gate compiler rules (base_of project repo name base_ref) effect = Ok tt
  | WriteDelete _ => cr_disabled rules = true
  end.

(** What holds when a publication is asked for. *)
Definition may_commit (c : core_state) (op : write_op) (project repo bookmark : string) (base_ref : RefSpec)
    (writes : list SchemaWrite) : Prop :=
  (∃ who, identify (op_token op) = Ok who ∧ allowed (cs_access c) who (write_action (op_force op)) project) ∧
  op_target op project repo bookmark ∧ (∃ commit, base_ref = RefCommit commit) ∧
  ∃ compiler config, op_compiler op = Ok compiler ∧ requested op compiler project repo base_ref writes ∧
    config_in_force co c project repo config ∧ require_change_record (review_policy config) = false ∧
    (op_force op = false → is_protected bookmark (protected_bookmarks config) = true →
     Forall (gated compiler (compat_rules config) project repo base_ref) writes).

Definition guarded (op : write_op) (X : Type) (q : flow_req X) (s : shared) : Prop :=
  match q with
  | OnJj (JjCommitSchemaChanges project repo bookmark base_ref writes _ _ _ _) =>
    may_commit (sh_core s) op project repo bookmark base_ref writes
  | OnJj (JjMerge _ _ _ _ _ _ _ _) | OnJj (JjCreateBookmark _ _ _ _ _ _)
  | OnJj (JjMoveBookmark _ _ _ _ _ _) | OnJj (JjDeleteBookmark _ _ _ _)
  | OnJj (JjCreateTag _ _ _ _ _) | OnJj (JjDeleteTag _ _ _ _) | OnJj (JjGc _) | OnLedger _ => False
  | _ => True
  end.

Section Op.
Context (op : write_op).

Lemma harmless_guarded X (q : flow_req X) s : harmless X q → guarded op X q s.
Proof. destruct q as [X q|X q|X q|X q|]; try done. by destruct q. Qed.

Lemma core_guarded X (q : core_req X) s : guarded op X (OnCore q) s.
Proof. done. Qed.

Abbreviation asking_op := (asking tree (guarded op)).

Lemma ask_commit s scope key fingerprint project repo bookmark base_ref writes author message attributes
    deadline :
  may_commit (sh_core s) op project repo bookmark base_ref writes →
  asking_op s (commit_idempotent_schema_changes_with_attributes_and_deadline co scope key fingerprint project
                 repo bookmark base_ref writes author message attributes deadline) (λ _ _, True).
Proof.
  intros Hmay. unfold commit_idempotent_schema_changes_with_attributes_and_deadline.
  apply (ask_config _ _ core_guarded). intros config s1 [H1 _] _. cbv zeta.
  apply (ask_quiet_step _ _ harmless_guarded); [auto with quiet|].
  intros [response|attempt] s2 [H2 _]; [done|].
  apply (ask_quiet_step _ _ harmless_guarded); [by destruct deadline|]. intros [] s3 [H3 _].
  { apply (ask_quiet_step _ _ harmless_guarded); [auto with quiet|done]. }
  intros s4 [H4 _]. split.
  { cbn [guarded]. rewrite <- H1, <- H2, <- H3, <- H4 in Hmay. exact Hmay. }
  intros [w|[e|e]| |] s5 [-> _]; try done.
  - eapply asking_mono; [|by apply (ask_quiet _ _ harmless_guarded), quiet_complete]. done.
  - apply (ask_quiet_step _ _ harmless_guarded); [auto with quiet|done].
Qed.

Lemma gate_empty_base compiler rules effect :
  me_removes effect = [] → gate compiler rules schema_objects_default effect = Ok tt.
Proof.
  intros Hr. unfold gate. destruct (cr_disabled rules); [done|]. rewrite Hr.
  assert (∀ l, upsert_violations compiler rules schema_objects_default l = Ok []) as ->; [|done].
  induction l as [|[n b] l IH]; [done|]. cbn [upsert_violations schema_objects_default so_decls].
  rewrite lookup_empty. cbn. by rewrite IH.
Qed.

Lemma ask_plan plan compiler config base_ref protected deadline files s :
  asking_op s (plan_effects plan compiler config base_ref protected deadline files)
    (λ writes s', others s s' ∧
       Forall2 (λ file w, ∃ effect,
         cp_apply_mutations compiler (base_of (tp_project plan) (tp_repo plan) file.1 base_ref) file.2 = Ok effect ∧
         w = WritePatch file.1 effect) files writes ∧
       (protected = true →
        Forall (gated compiler (compat_rules config) (tp_project plan) (tp_repo plan) base_ref) writes)).
Proof.
  revert s. induction files as [|[name ops] files IH]; intros s; [by repeat constructor|]. cbn [plan_effects].
  apply (ask_quiet_step _ _ harmless_guarded); [auto with quiet|]. intros _ s1 H1.
  apply (ask_load_base _ _ harmless_guarded). intros s2 H2. apply ask_pure. intros effect Heff.
  apply (ask_quiet_step _ _ harmless_guarded); [auto with quiet|]. intros _ s3 H3.
  apply ask_pure. intros x Hgate. eapply ask_step; [apply IH|]. intros writes s4 (H4 & Hw & Hg).
  assert (others s s4) as Hs by (trans s1; [done|]; trans s2; [done|]; by trans s3).
  split; [done|]. split.
  - constructor; [|done]. exists effect. split; [|done]. unfold map_err in Heff.
    by destruct (cp_apply_mutations _ _ _); simplify_eq.
  - intros ->. constructor; [|by apply Hg]. by destruct x.
Qed.

(** The steps that the flows on whole schemas have in common. *)
Lemma ask_admitted s project repo scope key fingerprint bookmark revision (k : flow MutationResponse) :
  (∀ who config s', others s s' →
     identify (op_token op) = Ok who ∧
     allowed (cs_access (sh_core s)) who (write_action (op_force op)) project →
     config_in_force co (sh_core s) project repo config ∧
     require_change_record (review_policy config) = false →
     asking_op s' k (λ _ _, True)) →
  asking_op s (_ ← in_core (authorize (op_token op) (write_action (op_force op)) project repo);
          replay ← replay_idempotent_write co scope key fingerprint project repo bookmark;
          match replay : option MutationResponse with
          | Some response => mret response
          | None =>
            _ ← validate_base_revision project repo revision;
            _ ← in_core (ensure_direct_write_allowed (c_repo_configs co) project repo);
            k
          end) (λ _ _, True).
Proof.
  intros Hk. apply (ask_core _ _ core_guarded); [apply authorize_read_only|]. intros who s1 H1 Hwho%runs_authorize.
  apply (ask_quiet_step _ _ harmless_guarded); [auto with quiet|]. intros [response|] s2 H2; [done|].
  apply (ask_quiet_step _ _ harmless_guarded); [auto with quiet|]. intros _ s3 H3.
  apply (ask_core _ _ core_guarded); [apply direct_write_read_only|]. intros x s4 H4 (config & Hdw)%runs_direct_write.
  assert (others s s3) as H by (trans s1; [done|]; by trans s2). destruct H as [Hc ?]. rewrite Hc in Hdw.
  apply (Hk who config); [|done..]. trans s3; [|done]. by split.
Qed.

(** What the flows learn before they publish. *)
Lemma may_commit_intro c who project repo bookmark base_ref compiler config config' writes :
  identify (op_token op) = Ok who ∧ allowed (cs_access c) who (write_action (op_force op)) project →
  op_target op project repo bookmark → (∃ commit, base_ref = RefCommit commit) →
  op_compiler op = Ok compiler → requested op compiler project repo base_ref writes →
  config_in_force co c project repo config' ∧ require_change_record (review_policy config') = false →
  config_in_force co c project repo config →
  (op_force op = false → is_protected bookmark (protected_bookmarks config) = true →
   Forall (gated compiler (compat_rules config) project repo base_ref) writes) →
  may_commit c op project repo bookmark base_ref writes.
Proof.
  intros Hwho Ht Hb Hcomp Hreq [Hc' Hr] Hc Hg. rewrite (config_in_force_fun _ _ _ _ _ _ Hc' Hc) in Hr.
  split; [by exists who|]. do 2 (split; [done|]). by exists compiler, config.
Qed.

End Op.
(** Steps of a flow: those that ask for nothing dangerous, pure ones, the base
    and the configuration. *)
Tactic Notation "quiet_step" simple_intropattern(a) :=
  apply (ask_quiet_step _ _ (harmless_guarded _)); [auto with quiet|]; intros a ? ?.
Tactic Notation "pure_ok" simple_intropattern(a) simple_intropattern(Ha) := apply ask_pure; intros a Ha.
Tactic Notation "config_step" simple_intropattern(c) simple_intropattern(Hc) :=
  apply (ask_config _ _ (core_guarded _)); intros c ? ? Hc.
Tactic Notation "base_step" ident(commit) :=
  apply (ask_immutable_base _ _ (harmless_guarded _)); intros commit ? ?.
Tactic Notation "authorize_step" ident(who) simple_intropattern(Hwho) :=
  apply (ask_core _ _ (core_guarded _)); [apply authorize_read_only|]; intros who ? ? Hwho%runs_authorize.
Tactic Notation "direct_step" ident(config) simple_intropattern(Hdw) :=
  apply (ask_core _ _ (core_guarded _)); [apply direct_write_read_only|];
  intros _ ? ? (config & Hdw)%runs_direct_write.

Abbreviation well_guarded s op := (asking tree (guarded op) s (write_prog op) (λ _ _, True)).

Lemma mutation_guarded s req : well_guarded s (OpMutation req).
Proof.
  cbn [write_prog]. unfold apply_mutation. cbv zeta. authorize_step who Hwho.
  quiet_step [response|]; [done|]. quiet_step _. pure_ok compiler Hcomp. base_step commit.
  apply (ask_load_base _ _ (harmless_guarded _)). intros ? ?.
  pure_ok effect Heff%map_err_Ok. direct_step config' Hdw. config_step config Hc. pure_ok [] Hgate.
  apply ask_commit. settle_core.
  eapply may_commit_intro; [exact Hwho|done|by eexists|exact Hcomp|by exists effect|exact Hdw|done|].
  cbn [op_force]. intros Hf Hp. rewrite Hf, Hp in Hgate. by repeat constructor.
Qed.

Lemma transaction_guarded s req limits deadline : well_guarded s (OpTransaction req limits deadline).
Proof.
  cbn [write_prog]. unfold apply_mutations_with_limits_and_deadline.
  pure_ok _ _. pure_ok _ _. pure_ok plan Hplan. quiet_step _. cbv zeta. authorize_step who Hwho. quiet_step _.
  quiet_step [response|]; [done|]. quiet_step _. quiet_step _. pure_ok compiler Hcomp. base_step commit.
  direct_step config' Hdw. config_step config Hc. quiet_step _. eapply ask_step; [apply ask_plan|].
  intros writes ? (? & Hw & Hg). quiet_step _. apply ask_commit. settle_core.
  eapply may_commit_intro; [exact Hwho|by exists plan|by eexists| |by exists plan|exact Hdw|done|].
  - cbn [op_compiler]. rewrite Hplan. exact Hcomp.
  - cbn [op_force]. intros Hf Hp. apply Hg. by rewrite Hf, Hp.
Qed.

Lemma create_guarded s req : well_guarded s (OpCreateSchema req).
Proof.
  apply (ask_admitted (OpCreateSchema req)). intros who config' s' ? Hwho Hdw. pure_ok compiler Hcomp.
  base_step commit. apply (ask_load _ _ (harmless_guarded _)).
  { intros x _. destruct x as [|[]| |]; by eexists. }
  intros x [] ? ? Hx Hr. assert (tree (sp_project (cs_schema req)) (sp_repo (cs_schema req))
    (sp_schema_name (cs_schema req)) (RefCommit commit) = None) as Hnone by (by destruct x as [|[]| |]).
  pure_ok effect Heff. apply ask_commit. settle_core.
  eapply may_commit_intro; [exact Hwho|done|by eexists|exact Hcomp|by split; [|exists effect]|exact Hdw|apply Hdw|].
  intros _ _. repeat constructor. cbn [gated]. unfold base_of. rewrite Hnone. apply gate_empty_base.
  unfold replacement_effect in Heff. ok_inv Heff. by case_match; simplify_eq.
Qed.

Lemma update_guarded s req : well_guarded s (OpUpdateSchema req).
Proof.
  apply (ask_admitted (OpUpdateSchema req)). intros who config' s' ? Hwho Hdw. pure_ok compiler Hcomp.
  base_step commit. apply (ask_load_schema _ _ (harmless_guarded _)). intros base ? ? Hbase.
  pure_ok effect Heff. config_step config Hc. pure_ok [] Hgate. apply ask_commit. settle_core.
  eapply may_commit_intro; [exact Hwho|done|by eexists|exact Hcomp|by exists base, effect|exact Hdw|done|].
  cbn [op_force]. intros Hf Hp. rewrite Hf, Hp in Hgate. repeat constructor. cbn [gated]. unfold base_of.
  by rewrite Hbase.
Qed.

Lemma delete_guarded s req : well_guarded s (OpDeleteSchema req).
Proof.
  apply (ask_admitted (OpDeleteSchema req)). intros who config' s' ? Hwho Hdw. base_step commit.
  apply (ask_load_schema _ _ (harmless_guarded _)). intros base ? ? Hbase. pure_ok compiler Hcomp.
  quiet_step _. config_step config Hc. pure_ok [] Hgate%fail_if_Ok. apply ask_commit. settle_core.
  eapply may_commit_intro; [exact Hwho|done|by eexists|exact Hcomp|by split; [exists base|]|exact Hdw|done|].
  cbn [op_force]. intros Hf Hp. rewrite Hf, Hp in Hgate. repeat constructor. cbn [gated].
  by destruct (cr_disabled (compat_rules config)).
Qed.

(** C10. Guards of direct writes: whenever a mutation, a transaction or the
    creation, update or deletion of a schema asks jj to publish, whatever jj,
    the receipts and the clock answered, whatever other callers do to change
    records meanwhile and wherever stores failed: the token identifies a caller
    whom role-based authorization allows to write, or to force if the request
    forces; the target is the one the request names, the repository is not
    archived and its policy does not require a change record; the writes are
    those that the registered compiler computes for the request from the tree
    of one commit; and on a protected bookmark without force every patch passes
    the compatibility gate against that tree, and a deletion only goes through
    if checks are disabled. No direct write asks jj for any other change. *)
Theorem direct_writes_are_guarded (s : shared) (op : write_op) :
  asks (flow_answer tree) others (guarded op) (write_prog op) (λ _ _, True) s.
Proof.
  eapply (asks_mono _ _ _ _ (if_ok (λ _ _, True))); [done|].
  destruct op; [apply mutation_guarded|apply transaction_guarded|apply create_guarded|apply update_guarded|
    apply delete_guarded].
Qed.

End Guards.
