(* ===== verification/ValidationProps.v ===== *)
(** * ValidationProps: a plan does what the edits say

    A validation that finds no issue prepares writes that lead from the base
    exactly to the result of replaying the edits, schema by schema, and that pass
    the compatibility gate on a protected bookmark. *)
From S2P Require Import Prelude RustStd SchemaTypes ChangeModel Effects Prog ObjectDb RecordStore AccessStore Repository Idempotency CoreTypes Integrity Access AccessProps AccessEffects ChangeStore ChangeLedger LedgerProps Flow FlowProps Writes FlowRules WriteProps Validation Changes.

Open Scope Z_scope.

(** ** Replaying the edits of one schema *)

Section Replay.
Context {RF : RustFmt}.

Definition edits_on (name : string) (edits : list ChangeEdit) : list ChangeEdit :=
  List.filter (λ e, bool_decide (edit_schema_name e = name)) edits.

(** The edits of one schema, one after the other. *)
Fixpoint replay_schema (compiler : Compiler) (edits : list ChangeEdit) (current : option SchemaObjects) :
    outcome (string * string) (option SchemaObjects) :=
  match edits with
  | [] => Ok current
  | edit :: edits => next ← edit_result compiler current edit; replay_schema compiler edits next
  end.

(** What a list of writes makes of a tree of schemas. *)
Definition write_name (w : SchemaWrite) : string :=
  match w with WritePatch name _ | WriteDelete name => name end.

Definition after_writes (writes : list SchemaWrite) (stored : string → option SchemaObjects) (name : string) :
    option SchemaObjects :=
  match List.find (λ w, bool_decide (write_name w = name)) writes with
  | Some (WritePatch _ effect) => Some (apply_effect (default schema_objects_default (stored name)) effect)
  | Some (WriteDelete _) => None
  | None => stored name
  end.

(** One state advances by the edits of its schema. *)
Definition advanced (compiler : Compiler) (edits : list ChangeEdit) (st st' : SchemaState) : Prop :=
  ss_schema_name st' = ss_schema_name st ∧ ss_original st' = ss_original st ∧ ss_failed st' = false ∧
  replay_schema compiler (edits_on (ss_schema_name st) edits) (ss_current st) = Ok (ss_current st').

Definition none_failed (states : list SchemaState) : Prop := Forall (λ st, ss_failed st = false) states.

Lemma advanced_refl compiler edits st :
  ss_failed st = false → edits_on (ss_schema_name st) edits = [] → advanced compiler edits st st.
Proof. intros Hf He. unfold advanced. by rewrite He. Qed.

Lemma replay_schema_app compiler l1 l2 current mid :
  replay_schema compiler l1 current = Ok mid →
  replay_schema compiler (l1 ++ l2) current = replay_schema compiler l2 mid.
Proof.
  revert current. induction l1 as [|e l1 IH]; intros current; cbn; [by intros [= ->]|].
  destruct (edit_result compiler current e); cbn; [apply IH|done..].
Qed.

Lemma advanced_trans compiler e edits st st' st'' :
  advanced compiler [e] st st' → advanced compiler edits st' st'' → advanced compiler (e :: edits) st st''.
Proof.
  intros (N1 & O1 & F1 & R1) (N2 & O2 & F2 & R2). split_and!; [congruence|congruence|done|].
  rewrite N1 in R2. change (e :: edits) with ([e] ++ edits). unfold edits_on in *. rewrite List.filter_app.
  by rewrite (replay_schema_app _ _ _ _ _ R1).
Qed.

Lemma find_update_first {A} (p : A → bool) f l x :
  List.find p l = Some x → ∃ l', update_first p f l = Some l'.
Proof.
  induction l as [|y l IH]; cbn; [done|]. destruct (p y); [by eexists|]. intros [l' H]%IH. rewrite H. by eexists.
Qed.

Lemma find_split {A} (p : A → bool) l1 x l2 :
  p x = true → (∀ y, y ∈ l1 → p y = false) → List.find p (l1 ++ x :: l2) = Some x.
Proof.
  intros Hx. induction l1 as [|y l1 IH]; intros H; cbn; [by rewrite Hx|].
  rewrite (H y) by (by left). apply IH. intros z Hz. apply H. by right.
Qed.

Lemma names_distinct (l1 l2 : list SchemaState) x y :
  NoDup (ss_schema_name <$> l1 ++ x :: l2) → y ∈ l1 ++ l2 → ss_schema_name y ≠ ss_schema_name x.
Proof.
  rewrite fmap_app, fmap_cons. intros (_ & Hx & [Hx2 _]%NoDup_cons)%NoDup_app Hy E.
  apply elem_of_app in Hy as [Hy|Hy]; apply (list_elem_of_fmap_2 ss_schema_name) in Hy; rewrite E in Hy.
  - apply (Hx _ Hy). by left.
  - done.
Qed.

Lemma replay_edit_advances compiler e states states' :
  NoDup (ss_schema_name <$> states) → none_failed states →
  replay_edit compiler e states = Ok (states', []) → Forall2 (advanced compiler [e]) states states'.
Proof.
  intros Hd Hf. unfold replay_edit. cbv zeta.
  set (mine := λ st : SchemaState, bool_decide (ss_schema_name st = edit_schema_name e)).
  destruct (List.find mine states) as [st|] eqn:Hfind; [|done].
  pose proof (find_some _ _ Hfind) as [Hin%list_elem_of_In Hst].
  rewrite (proj1 (Forall_forall _ _) Hf st Hin).
  destruct (edit_result compiler (ss_current st) e) as [next|[code message]| |] eqn:Hres; try done.
  intros [= <-].
  destruct (find_update_first mine (λ _, mkSchemaState (ss_schema_name st) (ss_original st) next false) states st Hfind)
    as [l' Hl']. rewrite Hl'. cbn [default from_option id].
  apply update_first_split in Hl' as (l1 & x & l2 & -> & Hx & ->).
  unfold mine in Hx, Hst. apply bool_decide_eq_true in Hx, Hst.
  assert (x = st) as ->.
  { apply elem_of_app in Hin as [Hin|[->|Hin]%elem_of_cons]; [|done|];
      (exfalso; apply (names_distinct l1 l2 x st Hd); [set_solver|congruence]). }
  assert (∀ l, (∀ y, y ∈ l → y ∈ l1 ++ l2) → Forall2 (advanced compiler [e]) l l) as Hsame.
  { intros l Hl. apply Forall_Forall2_diag, Forall_forall. intros y Hy%Hl. apply advanced_refl.
    - apply (proj1 (Forall_forall _ _) Hf y). set_solver.
    - unfold edits_on. cbn. rewrite bool_decide_eq_false_2; [done|].
      rewrite <- Hst. apply not_eq_sym. by apply (names_distinct l1 l2). }
  apply Forall2_app; [apply Hsame; set_solver|]. constructor; [|apply Hsame; set_solver].
  split_and!; [done..|]. unfold edits_on. cbn. rewrite bool_decide_eq_true_2 by done. cbn. by rewrite Hres.
Qed.

Lemma Forall2_names compiler edits states states' :
  Forall2 (advanced compiler edits) states states' →
  ss_schema_name <$> states' = ss_schema_name <$> states ∧ none_failed states'.
Proof.
  induction 1 as [|st st' states states' (N & _ & F & _) _ [IH1 IH2]]; [by repeat constructor|].
  split; [|by constructor]. cbn. by rewrite N, IH1.
Qed.

Lemma replay_edits_advance compiler edits : ∀ states states',
  NoDup (ss_schema_name <$> states) → none_failed states →
  replay_edits compiler edits states = Ok (states', []) → Forall2 (advanced compiler edits) states states'.
Proof.
  induction edits as [|e edits IH]; intros states states' Hd Hf; cbn [replay_edits].
  - intros [= <-]. apply Forall_Forall2_diag. eapply Forall_impl; [exact Hf|]. intros st Hst. by apply advanced_refl.
  - destruct (replay_edit compiler e states) as [[mid here]| | |] eqn:He; try done. cbn.
    destruct (replay_edits compiler edits mid) as [[final rest]| | |] eqn:Hrest; try done. cbn.
    intros [= <- [-> ->]%app_eq_nil].
    pose proof (replay_edit_advances _ _ _ _ Hd Hf He) as H1.
    destruct (Forall2_names _ _ _ _ H1) as [Hnames Hf1].
    assert (Forall2 (advanced compiler edits) mid final) as H2 by (apply IH; [by rewrite Hnames|done|done]).
    eapply Forall2_trans; [apply advanced_trans|exact H1|exact H2].
Qed.

(** ** The touched schemas *)

Definition touch_step (names : list string) (edit : ChangeEdit) : list string :=
  let name := edit_schema_name edit in
  if existsb (λ existing, bool_decide (existing = name)) names then names else names ++ [name].

Lemma touch_step_spec names edit :
  NoDup names → NoDup (touch_step names edit) ∧
  ∀ n, n ∈ touch_step names edit ↔ n ∈ names ∨ n = edit_schema_name edit.
Proof.
  intros Hd. unfold touch_step. cbv zeta. destruct (existsb _ names) eqn:E.
  - split; [done|]. apply existsb_exists in E as (n & Hn%list_elem_of_In & ->%bool_decide_eq_true). naive_solver.
  - assert (edit_schema_name edit ∉ names) as Hn.
    { intros Hn. apply not_true_iff_false in E. apply E, existsb_exists. exists (edit_schema_name edit).
      split; [by apply list_elem_of_In|]. by apply bool_decide_eq_true. }
    split; [|set_solver]. apply NoDup_app. split_and!; [done|set_solver|apply NoDup_singleton].
Qed.

Lemma touched_names_spec edits :
  NoDup (touched_names edits) ∧ ∀ n, n ∈ touched_names edits ↔ n ∈ edit_schema_name <$> edits.
Proof.
  unfold touched_names. change (λ names edit, _) with touch_step.
  assert (∀ names, NoDup names → NoDup (foldl touch_step names edits) ∧
    ∀ n, n ∈ foldl touch_step names edits ↔ n ∈ names ∨ n ∈ edit_schema_name <$> edits) as H.
  { induction edits as [|e edits IH]; intros names Hd; cbn [foldl]; [set_solver|].
    destruct (touch_step_spec names e Hd) as [Hd1 H1]. destruct (IH _ Hd1) as [Hd2 H2]. split; [done|].
    intros n. rewrite H2, H1. set_solver. }
  destruct (H [] (NoDup_nil_2)) as [Hd Hn]. split; [done|]. intros n. rewrite Hn. set_solver.
Qed.

Lemma edits_on_untouched n edits : n ∉ touched_names edits → edits_on n edits = [].
Proof.
  rewrite (proj2 (touched_names_spec edits)). intros Hn. unfold edits_on.
  induction edits as [|e edits IH]; [done|]. cbn. rewrite bool_decide_eq_false_2 by set_solver. apply IH. set_solver.
Qed.

End Replay.

(** ** The planned writes *)

Section Plan.
Context {RF : RustFmt} (tree : trees) (compiler : Compiler) (rules : CompatibilityRules) (protected : bool).
Context (project repo : string) (base_ref : RefSpec).

Abbreviation stored := (λ n, tree project repo n base_ref).
Abbreviation passes := (gated tree compiler rules project repo base_ref).

Lemma upsert_violations_no_error old l e : upsert_violations compiler rules old l ≠ Err e.
Proof.
  induction l as [|[n b] l IH]; [done|]. cbn [upsert_violations].
  destruct (so_decls old !! n) as [o|]; [destruct (cp_check_compatibility compiler o b rules)|]; cbn; try done;
    by destruct (upsert_violations compiler rules old l); cbn.
Qed.

Lemma gate_Incompatible old effect violations :
  gate compiler rules old effect = Err (Incompatible violations) → violations ≠ [].
Proof.
  unfold gate. destruct (cr_disabled rules); [done|].
  destruct (upsert_violations compiler rules old (me_upserts effect)) as [l|e| |] eqn:Hu; cbn; try done.
  - destruct (l ++ _) eqn:E; [done|]. by intros [= <-].
  - by apply upsert_violations_no_error in Hu.
Qed.

Lemma collect_none original effect name :
  collect_compatibility_issues compiler rules original effect name = Ok [] →
  gate compiler rules original effect = Ok tt.
Proof.
  unfold collect_compatibility_issues. destruct (gate compiler rules original effect) as [[]|e| |] eqn:Hg; try done.
  destruct e; try done. apply gate_Incompatible in Hg. by destruct violations.
Qed.

(** What a state without issues contributes. *)
Lemma plan_write_spec st w :
  stored (ss_schema_name st) = ss_original st →
  plan_write compiler rules protected st = Ok (w, []) →
  (w = [] ∧ ss_current st = stored (ss_schema_name st)) ∨
  ∃ x, w = [x] ∧ write_name (schema_write x) = ss_schema_name st ∧
    (∀ ws, after_writes (schema_write x :: ws) stored (ss_schema_name st) = ss_current st) ∧
    (protected = true → passes (schema_write x)).
Proof.
  intros Hs. unfold plan_write. cbv zeta.
  assert (∀ effect current, apply_effect (default schema_objects_default (ss_original st)) effect = current →
    ∀ ws, after_writes (WritePatch (ss_schema_name st) effect :: ws) stored (ss_schema_name st) = Some current)
    as Hafter.
  { intros effect current He ws. unfold after_writes. cbn. rewrite bool_decide_eq_true_2 by done. by rewrite Hs, He. }
  destruct (ss_original st) as [o|] eqn:Ho, (ss_current st) as [c|] eqn:Hc.
  - destruct (effect_is_empty _); [done|]. intros H. ok_inv H. simplify_eq. right. eexists. split_and!; [done|done| |].
    + apply Hafter. apply apply_diff.
    + intros ->. cbn [schema_write gated]. unfold base_of. rewrite Hs. by eapply collect_none.
  - intros [= <- Hi]. right. eexists. split_and!; [done|done| |].
    + intros ws. unfold after_writes. cbn. by rewrite bool_decide_eq_true_2.
    + intros ->. cbn. by destruct (cr_disabled rules).
  - destruct (effect_is_empty _); [done|]. intros [= <-]. right. eexists. split_and!; [done|done| |].
    + apply Hafter. apply apply_diff.
    + intros _. cbn [schema_write gated]. unfold base_of. rewrite Hs. apply gate_empty_base.
      cbn. unfold btree_iter. done.
  - intros [= <-]. left. by rewrite Hs.
Qed.

Lemma after_writes_skip w ws n :
  (∀ x, x ∈ w → write_name x ≠ n) → after_writes (w ++ ws) stored n = after_writes ws stored n.
Proof.
  intros Hw. unfold after_writes. induction w as [|x w IH]; [done|]. cbn.
  rewrite bool_decide_eq_false_2 by (apply Hw; by left). apply IH. intros y Hy. apply Hw. by right.
Qed.

Lemma plan_writes_spec states writes :
  NoDup (ss_schema_name <$> states) → none_failed states →
  (∀ st, st ∈ states → stored (ss_schema_name st) = ss_original st) →
  plan_writes compiler rules protected states = Ok (writes, []) →
  (∀ st, st ∈ states → after_writes (schema_write <$> writes) stored (ss_schema_name st) = ss_current st) ∧
  (∀ w, w ∈ schema_write <$> writes → write_name w ∈ ss_schema_name <$> states) ∧
  (protected = true → Forall passes (schema_write <$> writes)).
Proof.
  revert writes. induction states as [|st states IH]; intros writes Hd Hf Hs; cbn [plan_writes].
  { intros [= <-]. split_and!; [set_solver|set_solver|constructor]. }
  inversion Hf as [|? ? Hst Hf']; subst. rewrite Hst. cbn in Hd. apply NoDup_cons in Hd as [Hnew Hd].
  destruct (plan_write compiler rules protected st) as [[w here]| | |] eqn:Hok; try done. cbn.
  destruct (plan_writes compiler rules protected states) as [[ws rest]| | |] eqn:Hok0; try done. cbn.
  intros [= <- [-> ->]%app_eq_nil].
  destruct (IH ws Hd Hf' ltac:(set_solver) eq_refl) as (IH1 & IH2 & IH3).
  rewrite fmap_app. destruct (plan_write_spec st w (Hs st ltac:(by left)) Hok) as [[-> Hc]|(x & -> & Hx & Ha & Hg)].
  - cbn. split_and!; [|set_solver|done]. intros st' [->|Hst']%elem_of_cons; [|by apply IH1].
    rewrite Hc, <- (app_nil_r (schema_write <$> ws)), after_writes_skip; [done|].
    intros y Hy%IH2 E. by rewrite E in Hy.
  - cbn. split_and!.
    + intros st' [->|Hst']%elem_of_cons; [apply Ha|].
      etrans; [apply (after_writes_skip [schema_write x])|by apply IH1]. intros y ->%list_elem_of_singleton. rewrite Hx.
      intros E. apply Hnew. rewrite E. by apply list_elem_of_fmap_2.
    + intros y [->|Hy]%elem_of_cons; [rewrite Hx; by left|]. right. by apply IH2.
    + intros Hp. constructor; [by apply Hg|by apply IH3].
Qed.

(** Putting replay and plan together. *)
Lemma plan_replays edits states states' writes :
  ss_schema_name <$> states = touched_names edits → none_failed states →
  (∀ st, st ∈ states → ss_original st = stored (ss_schema_name st) ∧ ss_current st = stored (ss_schema_name st)) →
  replay_edits compiler edits states = Ok (states', []) →
  plan_writes compiler rules protected states' = Ok (writes, []) →
  (∀ n, replay_schema compiler (edits_on n edits) (stored n) =
        Ok (after_writes (schema_write <$> writes) stored n)) ∧
  (protected = true → Forall passes (schema_write <$> writes)).
Proof.
  intros Hnames Hf Hload Hreplay Hplan. destruct (touched_names_spec edits) as [Hd _].
  pose proof (replay_edits_advance compiler edits states states' ltac:(by rewrite Hnames) Hf Hreplay) as Hadv.
  destruct (Forall2_names _ _ _ _ Hadv) as [Hnames' Hf'].
  assert (∀ st', st' ∈ states' → ∃ st, st ∈ states ∧ advanced compiler edits st st') as Hback.
  { intros st' [i Hi]%list_elem_of_lookup. destruct (Forall2_lookup_r _ _ _ _ _ Hadv Hi) as (st & Hst & Ha).
    exists st. split; [by eapply list_elem_of_lookup_2|done]. }
  destruct (plan_writes_spec states' writes) as (H1 & H2 & H3); [by rewrite Hnames', Hnames|done| |done|].
  { intros st' (st & Hst & N & O & _)%Hback. rewrite N, O. symmetry. by apply Hload. }
  split; [|done]. intros n. destruct (decide (n ∈ touched_names edits)) as [Hn|Hn].
  - rewrite <- Hnames, <- Hnames' in Hn. apply list_elem_of_fmap in Hn as (st' & -> & Hst').
    rewrite (H1 _ Hst'). destruct (Hback _ Hst') as (st & Hst & N & _ & _ & R).
    rewrite N, <- (proj2 (Hload st Hst)). exact R.
  - rewrite edits_on_untouched by done. cbn [replay_schema]. f_equal.
    rewrite <- (app_nil_r (schema_write <$> writes)), after_writes_skip; [done|].
    intros w Hw%H2 E. rewrite Hnames', Hnames in Hw. congruence.
Qed.

End Plan.
