(* ===== verification/ApplyProps.v ===== *)
(** * ApplyProps: what applying a change record publishes

    [apply_change_record] beside any number of other callers of the ledger: what
    it publishes is the plan of the validated record, and the record has the
    approvals that the policy requires. *)
From S2P Require Import Prelude RustStd SchemaTypes ChangeModel Effects Prog ObjectDb RecordStore AccessStore Repository Idempotency CoreTypes Integrity Access AccessProps AccessEffects ChangeStore ChangeLedger LedgerProps Flow FlowProps Writes FlowRules WriteProps Validation Changes ValidationProps.

Open Scope Z_scope.

(** ** Validation *)

Section Validation.
Context {J : AccessJson} {RJ : RepositoryJson} {SH : Sha256} {HX : Hex} {RF : RustFmt} {EJ : EditsJson}.
Context (co : Core) (tree : trees).
Context (ask : ∀ X, flow_req X → shared → Prop).
Hypothesis Hharmless : ∀ X (q : flow_req X) s, harmless X q → ask X q s.
Hypothesis Hcore : ∀ X (q : core_req X) s, ask X (OnCore q) s.

(** The writes lead from the tree of the base to what the edits say, and pass
    the gate if the bookmark is protected. *)
Definition plan_ok (c : core_state) (record : ChangeRecord) (commit : string) (writes : list SchemaWrite) : Prop :=
  let project := cr_project record in
  let repo := cr_repo record in
  ∃ format_id compiler config,
    edit_format (cr_edits record) = Some format_id ∧ c_registry co !! format_id = Some compiler ∧
    config_in_force co c project repo config ∧
    (∀ n, replay_schema compiler (edits_on n (cr_edits record)) (tree project repo n (RefCommit commit)) =
          Ok (after_writes writes (λ n, tree project repo n (RefCommit commit)) n)) ∧
    (is_protected (cr_target_bookmark record) (protected_bookmarks config) = true →
     Forall (gated tree compiler (compat_rules config) project repo (RefCommit commit)) writes).

Definition sound_outcome (c : core_state) (record : ChangeRecord) (o : ValidationOutcome) : Prop :=
  ∀ prepared, vo_prepared o = Some prepared →
    edit_digest (cr_edits record) = Ok (vr_edit_digest (vo_result o)) ∧
    pc_resolved_base_commit prepared = vr_resolved_base_commit (vo_result o) ∧
    plan_ok c record (pc_resolved_base_commit prepared) (schema_write <$> pc_writes prepared).

Abbreviation asking' := (asking tree ask).

Lemma load_states_sound project repo base conflicts names s :
  asking' s (load_states project repo base conflicts names)
    (λ loaded s', others s s' ∧ ss_schema_name <$> loaded.1 = names ∧
       (∀ st, st ∈ loaded.1 → ss_original st = tree project repo (ss_schema_name st) base ∧
                              ss_current st = tree project repo (ss_schema_name st) base) ∧
       (loaded.2 = [] → none_failed loaded.1)).
Proof.
  revert s. induction names as [|n names IH]; intros s; cbn [load_states].
  { split; [done|]. split; [done|]. split; [|by constructor]. intros st Hst. by apply not_elem_of_nil in Hst. }
  apply (ask_load _ _ Hharmless).
  { intros x _. destruct x as [o|[]| |]; by eexists. }
  intros x original s1 H1 Hx Ho.
  assert (original = tree project repo n base) as ->.
  { destruct x as [o|[]| |]; cbn in Hx; simplify_eq; done. }
  cbv zeta. eapply ask_step; [apply IH|]. intros [states issues] s2 (H2 & Hn & Hs & Hf). cbn [fst snd] in *.
  split; [by trans s1|]. cbn. split; [by rewrite Hn|]. split.
  - intros st [->|Hst]%elem_of_cons; [done|]. by apply Hs.
  - intros [Hi1 Hi2]%app_eq_nil. constructor; [|by apply Hf]. cbn. by destruct (omap _ _).
Qed.

Lemma quiet_deletions project repo base overrides states :
  quiet (deletion_issues co project repo base overrides states).
Proof.
  induction states as [|st states IH]; [done|]. cbn [deletion_issues].
  destruct (is_some _ && is_none _); [|done]. apply quiet_then.
  - apply quiet_bind; [auto with quiet|]. intros [deps|[]| |]; done.
  - intros here. by apply quiet_then.
Qed.

Lemma validate_at_sound record commit digest s :
  edit_digest (cr_edits record) = Ok digest →
  asking' s (validate_at co record commit digest) (λ o s', others s s' ∧ sound_outcome (sh_core s) record o).
Proof.
  intros Hdigest. unfold validate_at.
  apply ask_pure. intros format_id Hformat. apply ask_pure. intros compiler Hcomp. cbv zeta.
  apply (ask_quiet_step _ _ Hharmless); [done|]. intros conflicts s1 H1.
  eapply ask_step; [apply load_states_sound|]. intros [states load_issues] s2 (H2 & Hn & Hs & Hf). cbn [fst snd] in *.
  apply ask_pure. intros [states' edit_issues] Hreplay.
  apply (ask_quiet_step _ _ Hharmless).
  { destruct (forallb _ _); [apply quiet_deletions|done]. }
  intros dependency_issues s3 H3. apply (ask_config _ _ Hcore). intros config s4 H4 Hconfig.
  apply ask_pure. intros [writes write_issues] Hplan. cbn.
  assert (others s s4) as Hs4 by (trans s1; [done|]; trans s2; [done|]; by trans s3).
  split; [done|]. intros prepared. cbn [vo_prepared vo_result validation_outcome].
  destruct (load_issues ++ _) eqn:Hi; [|done]. intros [= <-]. cbn.
  apply app_eq_nil in Hi as [-> [-> [_ ->]%app_eq_nil]%app_eq_nil].
  split; [done|]. split; [done|]. exists format_id, compiler, config.
  split; [by destruct (edit_format _); simplify_eq|]. split; [by destruct (c_registry co !! _); simplify_eq|].
  assert (sh_core s3 = sh_core s) as Hc3.
  { assert (others s s3) as [? _]; [|done]. trans s1; [done|]. by trans s2. }
  rewrite Hc3 in Hconfig. split; [done|].
  by eapply plan_replays; [|apply Hf| | |exact Hplan].
Qed.

Lemma validate_sound record s :
  asking' s (validate co record) (λ o s', others s s' ∧ sound_outcome (sh_core s) record o).
Proof.
  unfold validate. apply ask_pure. intros digest Hdigest. cbv zeta.
  apply (ask_quiet_step _ _ Hharmless).
  { split; [done|]. intros [c|e| |]; [done| |done..]. by destruct (expected_ref_error e). }
  intros [commit issues] s1 H1. destruct (_ || _).
  - by split.
  - eapply asking_mono; [|by apply validate_at_sound]. intros o s2 [H2 Ho].
    split; [by trans s1|]. destruct H1 as [Hc _]. by rewrite Hc in Ho.
Qed.

End Validation.

(** ** Acquiring the lease *)

Section Acquire.
Context {RF : RustFmt}.

(** A ledger method beside other callers: what holds if it succeeds. *)
Definition yields {A} (s : store) (m : ledger A) (Q : A → store → Prop) : Prop :=
  asks serve (rtc guar) (λ _ _ _, True) m (if_ok Q) s.

Lemma yields_pure {A B} s (o : outcome ChangeLedgerError A) (f : A → ledger B) Q :
  (∀ a, o = Ok a → yields s (f a) Q) → yields s (pure_step o ≫= f) Q.
Proof. intros Hf. destruct o; [by apply Hf|done..]. Qed.

Lemma yields_now {B} s (f : Z → ledger B) Q :
  (∀ t s1, rtc guar s s1 → yields s1 (f t) Q) → yields s (now_unix_millis ≫= f) Q.
Proof. intros Hf s1 Hs1. split; [done|]. intros x s2 ->. destruct x; [by apply Hf|done..]. Qed.

Lemma yields_generate {B} s q (f : string → ledger B) Q :
  (∀ s1 x s2, serve _ q s1 x s2 → s2 = s1) →
  (∀ t s1, rtc guar s s1 → yields s1 (f t) Q) → yields s (generate q ≫= f) Q.
Proof. intros Hq Hf s1 Hs1. split; [done|]. intros x s2 ->%Hq. by apply Hf. Qed.

Lemma yields_get {B} s name (f : ChangeRecord → ledger B) Q :
  store_inv s →
  (∀ s1 r v, rtc guar s s1 → store_inv s1 → cr_name r = name → seen s1 r v →
     s1 !! name = Some r → yields s1 (f r) Q) →
  yields s (get name ≫= f) Q.
Proof.
  intros Hinv Hf. unfold get. destruct (validate_resource_name name); cbn; try done.
  intros s1 Hs1. split; [done|]. intros x s2 [(_ & y & Hx & [->|[m ->]])|[[m ->] ->]]; [|done..].
  injection Hx as <- <-. cbn. destruct (s1 !! name) as [r|] eqn:Hr; [|done]. cbn.
  pose proof (guar_rtc_inv _ _ Hinv Hs1) as [Hn Hi]. destruct (Hi _ _ Hr) as [_ [v Hv]].
  pose proof (Hn _ _ Hr) as Hname.
  apply (Hf s1 r v); [done|by split|done| |done]. apply seen_read; [by split|by rewrite Hname|done].
Qed.

Lemma yields_get_alone s name :
  store_inv s →
  yields s (get name) (λ r s', rtc guar s s' ∧ s' !! name = Some r ∧ ∃ v, seen s' r v).
Proof.
  intros Hinv. unfold get. apply yields_pure. intros _ _. intros s1 Hs1. split; [done|].
  intros x s2 [(_ & y & Hx & [->|[m ->]])|[[m ->] ->]]; [|done..]. injection Hx as <- <-. cbn.
  destruct (s1 !! name) as [r|] eqn:Hr; [|done]. cbn. split; [done|]. split; [done|].
  pose proof (guar_rtc_inv _ _ Hinv Hs1) as [Hn Hi]. destruct (Hi _ _ Hr) as [_ [v Hv]]. exists v.
  apply seen_read; [by split|by rewrite (Hn _ _ Hr)|done].
Qed.

(** A compare-and-set with the etag of the record that was read: on success the
    store still held that record. *)
Lemma yields_replace_or_continue {A} s r r1 v (finish : ChangeRecord → A) (continue : ledger A) Q :
  store_inv s → record_inv r → seen s r v → transition r r1 →
  (∀ s1 s2 e, rtc guar s s1 → s1 !! cr_name r = Some r → rtc guar s1 s2 →
     s2 !! cr_name r = Some (with_etag r1 e) → Q (finish (with_etag r1 e)) s2) →
  (∀ s1, rtc guar s s1 → yields s1 continue Q) →
  yields s (replace_or_continue (cr_etag r) r1 finish continue) Q.
Proof.
  intros Hinv Hrec Hseen Ht Hdone Hk s1 Hs1. split; [done|].
  intros x s2 [(Hfit & y & Hx & [->|[m ->]])|[[m ->] ->]]; [|done..].
  assert (has_version r v) as Hv by apply Hseen.
  pose proof (seen_rtc _ _ _ _ Hseen Hs1) as Hseen1.
  assert (rtc guar s1 s2) as Hg.
  { eapply memory_replace_guar; [by eapply guar_rtc_inv|done|done|exact Hseen1| |exact Ht|exact Hx].
    intros _. by apply own_etag_not_newer. }
  destruct y as [r'|e| |]; try done.
  2:{ destruct (is_etag_mismatch e); [|done]. apply Hk. by trans s1. }
  destruct Hseen1 as (_ & cur & v' & Hcur & Hv' & Hle & Heq). unfold memory_serve, memory_replace in Hx.
  destruct (transition_identity _ _ Ht) as [(Hname & _) _]. rewrite Hname, Hcur in Hx.
  destruct (bool_decide (cr_etag cur = cr_etag r)) eqn:He; cbn [negb] in Hx; [|done].
  apply bool_decide_eq_true in He.
  assert (v = v') as ->.
  { destruct Hv as [E1 ?], Hv' as [E2 ?]. apply version_etag_inj; [lia..|congruence]. }
  rewrite (Heq eq_refl) in *. destruct (etag_version (cr_etag r)); [|done]. injection Hx as <- <-.
  rewrite Hname in *. apply (Hdone s1); [done|done|done|]. by rewrite lookup_insert_eq.
Qed.

(** The parts of a record that applying leaves alone. *)
Definition same_content (r r' : ChangeRecord) : Prop :=
  cr_name r' = cr_name r ∧ cr_project r' = cr_project r ∧ cr_repo r' = cr_repo r ∧
  cr_target_bookmark r' = cr_target_bookmark r ∧ cr_base_revision r' = cr_base_revision r ∧
  cr_edits r' = cr_edits r ∧ cr_validation r' = cr_validation r ∧ cr_reviews r' = cr_reviews r.

Definition applying_for (r : ChangeRecord) (request : string) : Prop :=
  cr_status r = Applying ∧ ∃ a, cr_apply_attempt r = Some a ∧ at_request_id a = request.

(** The lease was taken on a record that was ready under the client's etag, or
    that was being applied for the same request. *)
Definition acquired_from (s : store) (name e request : string) (r : ChangeRecord) (s' : store) : Prop :=
  ∃ s1 r0, rtc guar s s1 ∧ s1 !! name = Some r0 ∧ rtc guar s1 s' ∧ s' !! name = Some r ∧
    same_content r0 r ∧ applying_for r request ∧
    ((cr_status r0 = Ready ∧ cr_etag r0 = e) ∨ applying_for r0 request).

Lemma acquired_earlier s0 s name e request r s' :
  rtc guar s0 s → acquired_from s name e request r s' → acquired_from s0 name e request r s'.
Proof. intros H (s1 & r0 & H1 & H2). exists s1, r0. split; [by trans s|done]. Qed.

Lemma acquire_loop_yields name e request actor lease rounds : ∀ s,
  0 < lease → store_inv s →
  yields s (acquire_loop rounds name e request actor lease)
    (λ a s', match a with Acquired r => acquired_from s name e request r s' | _ => True end).
Proof.
  intros s Hlease. revert s. induction rounds as [|rounds IH]; intros s Hinv; cbn [acquire_loop]; [done|].
  assert (∀ s5, rtc guar s s5 → yields s5 (acquire_loop rounds name e request actor lease)
    (λ a s', match a with Acquired r => acquired_from s name e request r s' | _ => True end)) as Hretry.
  { intros s5 Hs5. eapply asks_mono; [|apply IH; by eapply guar_rtc_inv].
    intros [[]| | |] s'; cbn; try done. by apply acquired_earlier. }
  apply yields_get; [done|]. intros s1 r v Hs1 Hinv1 Hname Hseen Hr.
  destruct (cr_status r) eqn:Hst; try done.
  - unfold acquire_ready. apply yields_pure. intros [] He%fail_if_Ok.
    apply negb_false_iff, bool_decide_eq_true in He. rewrite <- He in *.
    apply yields_pure. intros [] Hval%fail_if_Ok. apply yields_now. intros now s2 Hs2.
    apply yields_pure. intros expires ->%checked_add_ok.
    apply yields_generate; [done|]. intros attempt_id s3 Hs3.
    apply yields_generate; [done|]. intros owner s4 Hs4. cbv zeta.
    assert (rtc guar s1 s4) as Hs14 by (trans s2; [done|by trans s3]).
    eapply yields_replace_or_continue; [by eapply guar_rtc_inv|by eapply stored_inv|by eapply seen_rtc| | |].
    + apply T_acquire; [done| |cbn; lia]. destruct (cr_validation r) as [w|] eqn:Hw; [|done].
      exists w. by apply negb_false_iff in Hval.
    + intros s5 s6 e' H5 H6 H7 H8. rewrite Hname in *.
      exists s5, r. split_and!; [by trans s1; [|trans s4]|done..| |by left].
      split; [done|]. by eexists.
    + intros s5 Hs5. apply Hretry. trans s1; [done|]. by trans s4.
  - unfold acquire_applying. apply yields_now. intros now s2 Hs2.
    apply yields_pure. intros a Ha%ok_or_Ok. apply yields_pure. intros [] Hreq%fail_if_Ok.
    apply negb_false_iff, bool_decide_eq_true in Hreq.
    destruct (Z.ltb_spec now (at_lease_expires_at_unix_ms a)); [done|].
    apply yields_generate; [done|]. intros owner s3 Hs3.
    apply yields_pure. intros expires ->%checked_add_ok. cbv zeta.
    assert (rtc guar s1 s3) as Hs13 by (by trans s2).
    eapply yields_replace_or_continue; [by eapply guar_rtc_inv|by eapply stored_inv|by eapply seen_rtc| | |].
    + apply T_renew; [done|done|lia|lia].
    + intros s5 s6 e' H5 H6 H7 H8. rewrite Hname in *.
      exists s5, r. split_and!; [by trans s1; [|trans s3]|done..| |].
      * split; [done|]. by eexists.
      * right. split; [done|]. by exists a.
    + intros s5 Hs5. apply Hretry. trans s1; [done|]. by trans s3.
  - unfold acquire_applied. apply yields_pure. intros a _. by case_bool_decide.
Qed.

Lemma acquire_apply_yields s name e request actor lease :
  store_inv s →
  yields s (acquire_apply name e request actor lease)
    (λ a s', match a with Acquired r => acquired_from s name e request r s' | _ => True end).
Proof.
  intros Hinv. unfold acquire_apply. do 2 (apply yields_pure; intros _ _).
  apply yields_pure. intros [] Hl%fail_if_Ok. apply acquire_loop_yields; [lia|done].
Qed.

End Acquire.

(** ** Applying *)

Section Apply.
Context {AN : AuthnProvider} {J : AccessJson} {RJ : RepositoryJson} {SH : Sha256} {HX : Hex} {RF : RustFmt}
  {EJ : EditsJson} (co : Core) (tree : trees).
#[local] Existing Instance role_based_authz.

Section Request.
Context (s0 : shared) (name e request : string) (token : option string).

(** What holds when a publication is asked for in the state [s]. *)
Definition may_publish_reviewed (s : shared) (project repo bookmark : string) (base_ref : RefSpec)
    (writes : list SchemaWrite) (author : string) (attributes : gmap string string) : Prop :=
  (∃ who, identify token = Ok who ∧ allowed (cs_access (sh_core s0)) who Write_ project ∧
          author = default "anonymous"%string (identity_id who)) ∧
  ∃ config record attempt validation,
    config_in_force co (sh_core s0) project repo config ∧
    (* the shared store has held the record *)
    (∃ l, rtc guar (sh_changes s0) l ∧ l !! name = Some record ∧ rtc guar l (sh_changes s)) ∧
    cr_status record = Applying ∧ cr_apply_attempt record = Some attempt ∧ at_request_id attempt = request ∧
    project = cr_project record ∧ repo = cr_repo record ∧ bookmark = cr_target_bookmark record ∧
    attributes = apply_attributes name request (at_attempt_id attempt) ∧
    (* the plan is the validated one *)
    cr_validation record = Some validation ∧ vr_valid validation = true ∧
    edit_digest (cr_edits record) = Ok (vr_edit_digest validation) ∧
    base_ref = RefCommit (vr_resolved_base_commit validation) ∧
    plan_ok co tree (sh_core s0) record (vr_resolved_base_commit validation) writes ∧
    (* it was approved, or this request had it in apply before *)
    (required_approvals (review_policy config) <= Z.of_nat (size (approvals record)) ∨
     ∃ l r, rtc guar (sh_changes s0) l ∧ l !! name = Some r ∧ applying_for r request).

Definition reviewed (X : Type) (q : flow_req X) (s : shared) : Prop :=
  match q with
  | OnJj (JjCommitSchemaChanges project repo bookmark base_ref writes author _ attributes _) =>
    may_publish_reviewed s project repo bookmark base_ref writes author attributes
  | OnJj (JjMerge _ _ _ _ _ _ _ _) | OnJj (JjCreateBookmark _ _ _ _ _ _)
  | OnJj (JjMoveBookmark _ _ _ _ _ _) | OnJj (JjDeleteBookmark _ _ _ _)
  | OnJj (JjCreateTag _ _ _ _ _) | OnJj (JjDeleteTag _ _ _ _) | OnJj (JjGc _) => False
  | _ => True
  end.

Lemma harmless_reviewed X (q : flow_req X) s : harmless X q → reviewed X q s.
Proof. destruct q as [X q|X q|X q|X q|]; try done. by destruct q. Qed.

Lemma core_reviewed X (q : core_req X) s : reviewed X (OnCore q) s.
Proof. done. Qed.

Abbreviation asking_here := (asking tree reviewed).

(** Ledger methods inside a flow. *)
Lemma ask_ledger {A B} s (m : ledger A) (f : A → flow B) Q P' :
  yields (sh_changes s) m Q →
  (∀ a s', sh_core s' = sh_core s → Q a (sh_changes s') → asking_here s' (f a) P') →
  asking_here s (in_ledger m ≫= f) P'.
Proof.
  intros Hm Hf. apply (ask_step _ _ _ _ _ (λ a s', sh_core s' = sh_core s ∧ Q a (sh_changes s'))); [|naive_solver].
  clear Hf f P'. unfold in_ledger. revert s Hm. induction m as [r|X q k IH]; intros s Hm.
  { by destruct r. }
  intros s1 [Hc Hs1]. split; [done|]. intros x s2 (l & Hx & ->). destruct (Hm _ Hs1) as [_ Hk].
  eapply asking_mono; [|apply IH, (Hk _ _ Hx)]. cbn. intros a s2 [-> Ha]. by rewrite Hc.
Qed.

Lemma ask_ledger_last {A} s (m : ledger A) : asking_here s (in_ledger m) (λ _ _, True).
Proof.
  unfold in_ledger. revert s. induction m as [r|X q k IH]; intros s; [by destruct r|].
  intros s1 _. split; [done|]. intros x s2 _. apply IH.
Qed.

Lemma check_ready_yields config before s :
  asking_here s (check_ready co config before)
    (λ _ s', others s s' ∧
       (cr_status before = Ready → required_approvals (review_policy config) <= Z.of_nat (size (approvals before)))).
Proof.
  unfold check_ready. destruct (bool_decide (cr_status before = Ready)) eqn:Hst.
  - cbv zeta. apply ask_pure. intros [] Hn%fail_if_Ok. eapply ask_step.
    { apply validate_sound; [apply harmless_reviewed|apply core_reviewed]. }
    intros o s1 [H1 _]. apply ask_pure. intros _ _. split; [done|]. lia.
  - apply bool_decide_eq_false in Hst. by split.
Qed.

Lemma publish_reviewed identity config record attempt s :
  (∀ s', others s s' → ∀ validation prepared writes,
     cr_validation record = Some validation → vr_valid validation = true →
     edit_digest (cr_edits record) = Ok (vr_edit_digest validation) →
     plan_ok co tree (sh_core s) record (vr_resolved_base_commit validation) writes →
     writes = schema_write <$> pc_writes prepared →
     may_publish_reviewed s' (cr_project record) (cr_repo record) (cr_target_bookmark record)
       (RefCommit (vr_resolved_base_commit validation)) writes
       (default "anonymous"%string (identity_id identity)) (apply_attributes name request (at_attempt_id attempt))) →
  asking_here s (publish_plan co name request identity config record attempt) (λ _ _, True).
Proof.
  intros Hmay. unfold publish_plan. eapply ask_step.
  { apply validate_sound; [apply harmless_reviewed|apply core_reviewed]. }
  intros o s1 [H1 Ho]. apply ask_pure. intros prepared Hplan. cbv zeta.
  unfold require_current_plan in Hplan. ok_inv Hplan. simplify_eq.
  destruct (Ho _ Hok0) as (Hdigest & Hbase & Hp).
  apply orb_false_iff in Hok1 as [Hok1 _]. apply orb_false_iff in Hok1 as [Hok1 _].
  apply orb_false_iff in Hok1 as [Hok1 He%negb_false_iff%bool_decide_eq_true].
  apply orb_false_iff in Hok1 as [Hv%negb_false_iff Hb%negb_false_iff%bool_decide_eq_true].
  intros s2 H2. split.
  - cbn [reviewed]. rewrite Hbase, <- Hb in *. eapply Hmay; [by trans s1|exact Hok|done|congruence|exact Hp|done].
  - intros [w|[err|err]| |] s3 [-> _]; try done.
    + eapply asking_mono; [|apply ask_ledger_last]. done.
    + eapply ask_step; [apply ask_ledger_last|done].
Qed.

(** The lease was taken on the record that was checked, if it was ready. *)
Lemma acquired_approved before v s1 s2 r s3 required :
  store_inv (sh_changes s0) → issued (sh_changes s0) name e →
  rtc guar (sh_changes s0) s1 → s1 !! name = Some before → seen s1 before v → rtc guar s1 s2 →
  (cr_status before = Ready → required <= Z.of_nat (size (approvals before))) →
  acquired_from s2 name e request r s3 →
  required <= Z.of_nat (size (approvals r)) ∨
  ∃ l r0, rtc guar (sh_changes s0) l ∧ l !! name = Some r0 ∧ applying_for r0 request.
Proof.
  intros Hinv Hiss H1 Hbefore Hseen H12 Hchecked (s & r0 & H2 & Hr0 & H3 & Hr & Hsame & _ & Hcase).
  destruct Hcase as [[Hready He]|Happ].
  - left. pose proof (issued_read _ _ _ _ _ _ Hinv Hiss H1 Hbefore Hseen) as Hnew.
    pose proof (guar_rtc_inv _ _ Hinv H1) as [Hn _]. pose proof (Hn _ _ Hbefore) as Hname.
    destruct (seen_rtc _ s _ _ Hseen ltac:(by trans s2)) as (_ & cur & v' & Hcur & Hv' & Hle & Heq).
    rewrite Hname, Hr0 in Hcur. injection Hcur as <-.
    assert (v = v') as Hvv.
    { assert (v' <= v); [|lia]. apply Hnew; [apply Hv'|]. rewrite <- He. apply Hv'. }
    rewrite <- (Heq Hvv) in Hchecked. specialize (Hchecked Hready).
    destruct Hsame as (_ & _ & _ & _ & _ & _ & _ & Hrev). unfold approvals in *. by rewrite Hrev.
  - right. exists s, r0. split; [|done]. trans s1; [done|]. by trans s2.
Qed.

Lemma apply_reviewed :
  store_inv (sh_changes s0) → issued (sh_changes s0) name e →
  asking_here s0 (apply_change_record co name e request token) (λ _ _, True).
Proof.
  intros Hinv Hiss. unfold apply_change_record. apply ask_pure. intros [project repo] Hscope%map_err_Ok.
  apply (ask_core _ _ core_reviewed); [apply authorize_read_only|]. intros who s1 [C1 L1] Hwho%runs_authorize.
  apply (ask_config _ _ core_reviewed). intros config s2 [C2 L2] Hconfig.
  assert (rtc guar (sh_changes s0) (sh_changes s2)) as L02 by (by trans (sh_changes s1)).
  eapply ask_ledger; [apply yields_get_alone; by eapply guar_rtc_inv|].
  intros before s3 C3 (L3 & Hbefore & v & Hseen). eapply ask_step; [apply check_ready_yields|].
  intros _ s4 [[C4 L4] Hchecked].
  assert (rtc guar (sh_changes s0) (sh_changes s3)) as L03 by (by trans (sh_changes s2)).
  assert (rtc guar (sh_changes s0) (sh_changes s4)) as L04 by (by trans (sh_changes s3)).
  eapply ask_ledger; [apply acquire_apply_yields; by eapply guar_rtc_inv|].
  intros acquisition s5 C5 Hacq. destruct acquisition as [record|record|record]; [| |done].
  2:{ apply ask_pure. intros attempt _. apply (ask_quiet_step _ _ harmless_reviewed); [done|].
      intros [w|] s6 _; [apply ask_ledger_last|done]. }
  apply ask_pure. intros attempt Hattempt%ok_or_Ok. apply (ask_quiet_step _ _ harmless_reviewed); [done|].
  intros [w|] s6 [C6 L6]; [apply ask_ledger_last|].
  apply publish_reviewed. intros s7 [C7 L7] validation prepared writes Hval Hvalid Hdigest Hplan Hw.
  pose proof (acquired_approved _ _ _ _ _ _ _ Hinv Hiss L03 Hbefore Hseen L4 Hchecked Hacq) as Happroved.
  destruct Hacq as (l & r0 & L5 & Hr0 & L5' & Hrec & _ & (Hst & a & Ha & Hreq) & _).
  assert (rtc guar (sh_changes s0) (sh_changes s5)) as L05 by (trans (sh_changes s4); [done|]; by trans l).
  destruct (guar_rtc_inv _ _ Hinv L05) as [Hn Hi]. destruct (Hi _ _ Hrec) as [Hri _].
  pose proof (ri_scope _ Hri) as Hsc. rewrite (Hn _ _ Hrec), Hscope in Hsc. injection Hsc as -> ->.
  rewrite Hattempt in Ha. injection Ha as <-.
  rewrite C6, C5, C4, C3, C2, C1 in Hplan. rewrite C1 in Hconfig.
  split; [exists who; by destruct Hwho|]. exists config, record, attempt, validation.
  split; [done|]. split; [exists (sh_changes s5); split; [done|]; split; [done|]; by trans (sh_changes s6)|].
  by split_and!.
Qed.

End Request.

(** C11. Publication of change records. Provided that the store of change records
    satisfies its invariant, that it has issued the etag the client passes, and that
    the other callers of the ledger beside it, any number of them, pass issued etags
    as well: whenever apply_change_record asks jj to publish, whatever jj and
    the clock answer and wherever stores failed, the token identifies a caller
    who may write; the record is being applied for this request under a lease;
    its stored validation passes, fits the edits and names the base; the writes
    lead from the tree of that base exactly to the result of replaying the edits
    schema by schema, and pass the compatibility gate if the bookmark is
    protected; the operation carries the name of the record, the request and the
    attempt; and the record has the approvals that the policy requires, unless
    this request was applying it before. It asks jj for no other change. *)
Theorem apply_publishes_reviewed_plan (s : shared) (name etag request : string) (token : option string) :
  store_inv (sh_changes s) → issued (sh_changes s) name etag →
  asks (flow_answer tree) others (reviewed s name request token)
    (apply_change_record co name etag request token) (λ _ _, True) s.
Proof.
  intros Hinv Hiss. eapply (asks_mono _ _ _ _ (if_ok (λ _ _, True))); [done|]. by apply apply_reviewed.
Qed.

End Apply.
