(* ===== verification/AccessModel.v ===== *)
(** * AccessModel: concrete instances for the access stores, and witnesses

    Instances of [Hex], [AccessJson] and [RepositoryJson] that satisfy their
    laws, and the theorems on projects, members and repositories at concrete
    inputs. [model_hex] writes two lowercase digits per byte; the serializers are
    injective encodings with their inverses, not the JSON of [serde_json]. *)
From S2P Require Import Prelude RustStd SchemaTypes ChangeModel Prog ObjectDb RecordStore AccessStore Repository CoreTypes Access AccessProps AccessEffects ProtocModel ChangeJsonModel.
From Stdlib Require Import Strings.Byte Ascii.
From stdpp Require Import countable.

(** ** Hexadecimal digits *)

Definition hex_digit (n : N) : ascii :=
  ascii_of_N (if (n <? 10)%N then 48 + n else 87 + n)%N.

Definition hex_byte (b : byte) : string :=
  String (hex_digit (Byte.to_N b / 16)) (String (hex_digit (Byte.to_N b mod 16)) "").

#[export] Instance model_hex : Hex :=
  fix go bs := match bs with [] => ""%string | b :: bs => hex_byte b +:+ go bs end.

Definition unhex_digit (a : ascii) : N :=
  let n := N_of_ascii a in (if n <? 58 then n - 48 else n - 87)%N.

Fixpoint unhex (s : string) : list byte :=
  match s with
  | String h (String l s) =>
    default x00 (Byte.of_N (16 * unhex_digit h + unhex_digit l)) :: unhex s
  | _ => []
  end.

Lemma unhex_hex bs : unhex (model_hex bs) = bs.
Proof.
  induction bs as [|b bs IH]; [done|].
  change (default x00 (Byte.of_N (16 * unhex_digit (hex_digit (Byte.to_N b / 16)) +
                                  unhex_digit (hex_digit (Byte.to_N b mod 16)))) ::
          unhex (model_hex bs) = b :: bs).
  rewrite IH. f_equal. by destruct b.
Qed.

#[export] Instance model_hex_laws : HexLaws model_hex.
Proof.
  split.
  - intros bs bs' H. rewrite <- (unhex_hex bs), <- (unhex_hex bs'). by f_equal.
  - induction bs as [|b bs IH]; [done|].
    change (contains_char "/" (hex_byte b +:+ model_hex bs) = false).
    rewrite contains_char_app. unfold hex_encode in IH. rewrite IH. by destruct b.
Qed.

(** ** Serializers *)

(** The encoding of a countable type and its inverse. *)
Definition to_vec_model {A} `{Countable A} (a : A) : outcome string (list byte) :=
  Ok (positive_bytes (encode a)).
Definition from_slice_model {A} `{Countable A} (bs : list byte) : outcome string A :=
  match decode (bytes_positive bs) with
  | Some a => Ok a
  | None => Err "expected value at line 1 column 1"%string
  end.

Lemma model_roundtrip {A} `{Countable A} (a : A) :
  ∃ bs, to_vec_model a = Ok bs ∧ from_slice_model bs = Ok a.
Proof.
  eexists. split; [done|]. unfold from_slice_model. by rewrite bytes_positive_bytes, decode_encode.
Qed.

#[export] Instance Role_countable : Countable Role.
Proof.
  refine (inj_countable' (λ r, match r with RoleReader => 0 | Writer_ => 1 | Maintainer => 2 | Owner => 3 end)
            (λ n : nat, match n with 0 => RoleReader | 1 => Writer_ | 2 => Maintainer | _ => Owner end) _).
  by intros [].
Defined.

#[export] Instance RoleRecord_eq_dec : EqDecision RoleRecord.
Proof. solve_decision. Defined.
#[export] Instance RoleRecord_countable : Countable RoleRecord.
Proof.
  refine (inj_countable' (λ r, (rr_project r, rr_identity_id r, rr_role r, rr_active r))
            (λ '(a, b, c, d), mkRoleRecord a b c d) _). by intros [].
Defined.

#[export] Instance ProjectVisibility_countable : Countable ProjectVisibility.
Proof.
  refine (inj_countable' (λ v, match v with Private => false | Public => true end)
            (λ b : bool, if b then Public else Private) _). by intros [].
Defined.

#[export] Instance ProjectMeta_eq_dec : EqDecision ProjectMeta.
Proof. solve_decision. Defined.
#[export] Instance ProjectMeta_countable : Countable ProjectMeta.
Proof.
  refine (inj_countable'
            (λ m, (pm_name m, pm_visibility m, pm_creator m, pm_etag m, pm_create_time_unix_ms m,
                   pm_update_time_unix_ms m, pm_archived m, pm_archive_time_unix_ms m))
            (λ '(a, b, c, d, e, f, g, h), mkProjectMeta a b c d e f g h) _). by intros [].
Defined.

#[export] Instance model_access_json : AccessJson := {
  project_to_vec := to_vec_model;
  project_from_slice := from_slice_model;
  role_to_vec := to_vec_model;
  role_from_slice := from_slice_model;
}.

#[export] Instance model_access_json_laws : AccessJsonLaws model_access_json.
Proof. split; intros x; apply model_roundtrip. Qed.

#[export] Instance CompatibilityDirection_countable : Countable CompatibilityDirection.
Proof.
  refine (inj_countable' (λ d, match d with Backward => 0 | Forward => 1 | Full => 2 | Disabled => 3 end)
            (λ n : nat, match n with 0 => Backward | 1 => Forward | 2 => Full | _ => Disabled end) _).
  by intros [].
Defined.

#[export] Instance ReviewPolicy_eq_dec : EqDecision ReviewPolicy.
Proof. solve_decision. Defined.
#[export] Instance ReviewPolicy_countable : Countable ReviewPolicy.
Proof.
  refine (inj_countable' (λ p, (required_approvals p, require_change_record p))
            (λ '(a, b), mkReviewPolicy a b) _). by intros [].
Defined.

#[export] Instance ServingPolicy_eq_dec : EqDecision ServingPolicy.
Proof. solve_decision. Defined.
#[export] Instance ServingPolicy_countable : Countable ServingPolicy.
Proof.
  refine (inj_countable' (λ p, (serve_source p, serve_descriptors p, serve_generated_code p))
            (λ '(a, b, c), mkServingPolicy a b c) _). by intros [].
Defined.

#[export] Instance RepoConfig_eq_dec : EqDecision RepoConfig.
Proof. solve_decision. Defined.
#[export] Instance RepoConfig_countable : Countable RepoConfig.
Proof.
  refine (inj_countable'
            (λ c, (default_bookmark c, compatibility_direction c, protected_bookmarks c,
                   review_policy c, serving_policy c))
            (λ '(a, b, c, d, e), mkRepoConfig a b c d e) _). by intros [].
Defined.

#[export] Instance Repository_eq_dec : EqDecision Repository.
Proof. solve_decision. Defined.
#[export] Instance Repository_countable : Countable Repository.
Proof.
  refine (inj_countable'
            (λ r, (rp_resource_name r, rp_project_name r, rp_name r, rp_config r, rp_created_by r,
                   rp_etag r, rp_create_time_unix_ms r, rp_update_time_unix_ms r, rp_archived r,
                   rp_archive_time_unix_ms r))
            (λ '(a, b, c, d, e, f, g, h, i, j), mkRepository a b c d e f g h i j) _). by intros [].
Defined.

#[export] Instance model_repository_json : RepositoryJson := {
  repository_to_vec := to_vec_model;
  repository_from_slice := from_slice_model;
}.

#[export] Instance model_repository_json_laws : RepositoryJsonLaws model_repository_json.
Proof. intros r. apply model_roundtrip. Qed.

(** ** Witnesses *)

Lemma access_store_refines_witness :
  let '(x, d') := interp db_serve (durable_access _ (RoleSet "p" "alice" Owner)) inner_default in
  ∃ s', access_serve _ (RoleSet "p" "alice" Owner) (mkAccess ∅ ∅) = (x, s') ∧ represents_access d' s'.
Proof.
  apply (access_store_refines _ (RoleSet "p" "alice" Owner)). apply represents_access_empty.
Defined.

Definition sample_repository : Repository := repository_new "p" "r" repo_config_default "alice" 5.

Lemma repository_store_refines_witness :
  let '(x, d') := interp db_serve (durable_repo_serve _ (RepoCreate sample_repository)) inner_default in
  ∃ s', memory_repo_serve _ (RepoCreate sample_repository) ∅ = (x, s') ∧ db_represents d' s'.
Proof.
  apply (repository_store_refines _ (RepoCreate sample_repository)); [done|apply db_represents_empty].
Defined.

Lemma is_protected_spec_witness :
  is_protected "main" (protected_bookmarks repo_config_default) = true ↔
  ("main"%string ∈ protected_bookmarks repo_config_default ∧ contains_char "*" "main" = false) ∨
  ∃ dir rest, dir +:+ "/*" ∈ protected_bookmarks repo_config_default ∧ "main"%string = dir +:+ "/" +:+ rest.
Proof. apply (is_protected_spec repo_config_default "main"). by vm_compute. Defined.

#[local] Existing Instance two_tokens.

(** A call against stores that do not fail. *)
Definition called (op : core_op) (token : string) (s : core_state) : core_state :=
  (interp (core_handle 7) (op_prog op (Some token)) s).2.

Lemma called_call op token s : call s (called op token s).
Proof. exists op, (Some token). eexists. apply interp_runs, core_handle_serve. Qed.

Lemma core_wf_empty : core_wf core_empty.
Proof. apply core_invariant_empty. Qed.

Lemma operations_meet_spec_witness :
  let op := OpCreateProject "p" Private in
  let '(r, s') := interp (core_handle 7) (op_prog op (Some "a"%string)) core_empty in
  (is_ok r = false ∧ s' = core_empty) ∨
  ∃ x who, r = Ok x ∧ (x ≠ AnswerProject None → identify (Some "a"%string) = Ok who) ∧
    effect op who core_empty s' ∧ answers op who core_empty x.
Proof.
  pose proof (interp_runs core_serve (core_handle 7) (op_prog (OpCreateProject "p" Private) (Some "a"%string))
    core_empty (core_handle_serve 7)) as H.
  cbv zeta. destruct (interp _ _ _) as [r s'].
  exact (operations_meet_spec (OpCreateProject "p" Private) (Some "a"%string) core_empty r s' core_wf_empty H).
Defined.

Lemma reachable_invariant_witness :
  core_invariant (called (OpCreateProject "p" Private) "a" core_empty).
Proof.
  apply reachable_invariant, rtc_once. exists (OpCreateProject "p" Private), (Some "a"%string). eexists.
  split; [done|]. apply interp_runs, core_handle_serve.
Defined.

Definition archived_state : core_state :=
  called (OpArchiveProject "p" "v1" false) "a" (called (OpCreateProject "p" Private) "a" core_empty).

Lemma called_wf op token s : core_wf s → core_wf (called op token s).
Proof.
  intros Hwf. destruct (called_call op token s) as (op' & t & r & H).
  apply op_effect in H as [[_ ->]|(_ & who & _ & He)]; [done| |done]. by eapply effect_wf.
Qed.

Lemma archived_project_frozen_witness :
  frozen "p" archived_state (called (OpAddMember "p" "bob" Owner) "a" archived_state).
Proof.
  eapply archived_project_frozen.
  - do 2 apply called_wf. apply core_wf_empty.
  - by vm_compute.
  - by vm_compute.
  - apply rtc_once, called_call.
Defined.
