(* ===== verification/FlowModel.v ===== *)
(** * FlowModel: idempotent writes at concrete inputs

    Instances of the parameters of [Idempotency] (an injective encoding for
    [serde_json], the identity for SHA-256), a service that answers every request
    of a flow, the witnesses of [FlowProps], and the schedule on which two
    requests publish under one attempt. *)
From S2P Require Import Prelude RustStd SchemaTypes ProtoSchema Codec DescriptorCodec ProtocModel Blob Compat Effects ProtoRead ChangeModel Prog ObjectDb RecordStore Idempotency ChangeStore AccessStore Repository CoreTypes Integrity Access AccessProps AccessEffects ChangeJsonModel ChangeLedger LedgerProps Flow FlowProps Writes Validation Changes PruneProps FlowRules WriteProps ValidationProps ApplyProps AccessModel.
From Stdlib Require Import Strings.Byte Ascii.
From stdpp Require Import countable.

Open Scope Z_scope.

#[export] Instance MutationResponse_countable : Countable MutationResponse.
Proof.
  refine (inj_countable' (λ r, (mr_commit_id r, mr_change_id r, mr_conflicted_decls r))
            (λ '(a, b, c), mkMutationResponse a b c) _). by intros [].
Defined.

#[export] Instance IdempotencyRecord_eq_dec : EqDecision IdempotencyRecord.
Proof. solve_decision. Defined.
#[export] Instance IdempotencyRecord_countable : Countable IdempotencyRecord.
Proof.
  refine (inj_countable'
            (λ r, (ir_version r, ir_record_key r, ir_scope r, ir_fingerprint r, ir_attempt_id r,
                   ir_lease_expires_at_unix_ms r, ir_create_time_unix_ms r, ir_update_time_unix_ms r,
                   ir_completion_time_unix_ms r, ir_response r))
            (λ '(a, b, c, d, e, f, g, h, i, j), mkIdempotencyRecord a b c d e f g h i j) _). by intros [].
Defined.

#[export] Instance CapacityLock_eq_dec : EqDecision CapacityLock.
Proof. solve_decision. Defined.
#[export] Instance CapacityLock_countable : Countable CapacityLock.
Proof.
  refine (inj_countable' (λ l, (cl_owner l, cl_expires_at_unix_ms l))
            (λ '(a, b), mkCapacityLock a b) _). by intros [].
Defined.

#[export] Instance model_idempotency_json : IdempotencyJson := {
  receipt_to_vec := to_vec_model;
  receipt_from_slice := from_slice_model;
  lock_to_vec := to_vec_model;
  lock_from_slice := from_slice_model;
}.

#[export] Instance model_idempotency_json_laws : IdempotencyJsonLaws model_idempotency_json.
Proof. split; intros x; apply model_roundtrip. Qed.

(** ** A service that answers *)

(** The clock, which is a hundred seconds later for every id that was drawn. *)
Definition model_now (s : idem_state) : Z := 100000 * Z.of_nat (size (is_issued s)).

Fixpoint repeat_char (n : nat) (a : ascii) : string :=
  match n with O => ""%string | S n => String a (repeat_char n a) end.

(** An id longer than all those that were drawn. *)
Definition model_uuid (s : idem_state) : string :=
  repeat_char (S (max_list (String.length <$> elements (is_issued s)))) "x".

Definition model_snapshot : PublicationSnapshot :=
  mkPublicationSnapshot (Ok []) (Ok []) (λ m, Err (JjSchemaNotFound m)) ∅ false.

(** Every commit has an id of its own. *)
Definition model_write (s : flow_state) : WriteResult :=
  mkWriteResult (repeat_char (length (fs_log s)) "c") "change" "op" [].

Definition carries_bool (project repo : string) (required : gmap string string) (p : publication) : bool :=
  bool_decide (pub_project p = project ∧ pub_repo p = repo ∧ required ⊆ pub_attributes p).

Definition model_publish (project repo bookmark : string) (attributes : gmap string string)
    (validate : publication_policy) (s : flow_state) :
    outcome (PublicationError CoreError) WriteResult * flow_state :=
  match validate model_snapshot false with
  | Ok _ => (Ok (model_write s), publish s (mkPublication project repo bookmark attributes (model_write s)))
  | Err e => (Err (PubRejected e), s)
  | _ => (Err (PubJj (JjSchemaNotFound "")), s)
  end.

Definition idem_handle (X : Type) (q : idem_req X) (s : idem_state) : X * idem_state :=
  match q in idem_req X return X * idem_state with
  | IdemDb q => let '(x, d) := db_serve _ q (is_db s) in (x, with_db s d)
  | IdemNow => (Ok (model_now s), s)
  | IdemUuid => (model_uuid s, mkIdemState (is_db s) ({[ model_uuid s ]} ∪ is_issued s))
  end.

Definition jj_handle (X : Type) (q : jj_req X) (s : flow_state) : X * flow_state :=
  match q in jj_req X return X * flow_state with
  | JjFindCorrelatedWrite p r b required =>
    (Ok (pub_write <$> List.find (carries_bool p r required) (fs_log s)), s)
  | JjCommitSchemaChanges p r b _ _ _ _ attributes validate => model_publish p r b attributes validate s
  | JjMerge p r _ dst _ _ attributes validate => model_publish p r dst attributes validate s
  | JjResolveRefOrRoot _ _ _ => (Ok ""%string, s)
  | JjValidateRevision _ _ _ => (Ok tt, s)
  | JjLoadSchema _ _ m _ => (Err (JjSchemaNotFound m), s)
  | JjListSchemas _ _ _ => (Ok [], s)
  | JjListConflictedDeclarations _ _ _ => (Ok [], s)
  | JjCreateBookmark _ _ _ _ _ _ => (Ok ""%string, s)
  | JjMoveBookmark _ _ _ _ _ _ => (Ok ""%string, s)
  | JjDeleteBookmark _ _ _ _ => (Ok tt, s)
  | JjCreateTag _ _ _ _ _ => (Ok ""%string, s)
  | JjDeleteTag _ _ _ _ => (Ok tt, s)
  | JjGc _ => (Ok 0%nat, s)
  end.

(** The access stores and the change store of the flow are empty ones that forget
    every write. *)
Definition flow_handle (X : Type) (q : flow_req X) (s : flow_state) : X * flow_state :=
  match q in flow_req X return X * flow_state with
  | OnIdem q => let '(x, i) := idem_handle _ q (fs_idem s) in (x, with_idem s i)
  | OnJj q => jj_handle _ q s
  | OnCore q => ((core_handle 7 _ q core_empty).1, s)
  | OnLedger q => ((seq_serve 7 "id" _ q ∅).1, s)
  | DeadlineExceeded => (false, s)
  end.

Lemma length_repeat_char n a : String.length (repeat_char n a) = n.
Proof. induction n as [|n IH]; [done|]. cbn. by rewrite IH. Qed.

Lemma model_uuid_fresh s : model_uuid s ∉ is_issued s.
Proof.
  intros Hin. apply elem_of_elements in Hin.
  assert (String.length (model_uuid s) ≤ max_list (String.length <$> elements (is_issued s)))%nat as Hle.
  { apply max_list_elem_of_le. by apply list_elem_of_fmap_2. }
  unfold model_uuid in Hle at 1. rewrite length_repeat_char in Hle. lia.
Qed.

Lemma model_publish_allowed p r b attributes validate s :
  may_publish p r b attributes validate s (model_publish p r b attributes validate s).1
    (model_publish p r b attributes validate s).2.
Proof.
  unfold model_publish, may_publish. destruct (validate model_snapshot false) as [[]|e| |] eqn:E; cbn.
  - right. right. eauto 10.
  - left. eauto 10.
  - eauto.
  - eauto.
Qed.

Lemma model_find_allowed p r b required s :
  correlated p r b required s (Ok (pub_write <$> List.find (carries_bool p r required) (fs_log s))).
Proof.
  right. destruct (List.find _ _) as [q|] eqn:E.
  - right. apply List.find_some in E as [Hin Hc]. apply bool_decide_eq_true in Hc.
    exists (pub_write q), q. split_and!; [done|by apply list_elem_of_In|done|done].
  - left. split; [done|]. intros q Hin Hc. pose proof (List.find_none _ _ E q) as H.
    rewrite <- list_elem_of_In in H. apply H in Hin. apply bool_decide_eq_false in Hin. by apply Hin.
Qed.

Lemma idem_handle_serve X (q : idem_req X) s : idem_serve X q s (idem_handle X q s).1 (idem_handle X q s).2.
Proof.
  destruct q as [X q| |]; cbn [idem_handle]; [|done|by split; [apply model_uuid_fresh|]].
  destruct (db_serve X q (is_db s)) as [x d] eqn:E. cbn [idem_serve fst]. rewrite E. by left.
Qed.

Lemma flow_handle_serve X (q : flow_req X) s :
  flow_serve X q s (flow_handle X q s).1 (flow_handle X q s).2.
Proof.
  destruct q as [X q|X q|X q|X q|]; try done.
  - cbn [flow_handle flow_serve]. pose proof (idem_handle_serve X q (fs_idem s)) as H.
    destruct (idem_handle X q (fs_idem s)) as [x i]. by exists i.
  - destruct q; cbn [flow_handle flow_serve jj_handle]; try done.
    + split; [|done]. apply model_find_allowed.
    + apply model_publish_allowed.
    + apply model_publish_allowed.
Qed.

(** ** Witnesses *)

Definition sample_core : Core := mkCoreConfig ∅ ∅ idempotency_store_default.

Definition sample_fingerprint : string := "sha256:" +:+ repeat_char 64 "0".

Definition sample_call : write_call :=
  mkWriteCall "mutation/p/r" (Some "key"%string) sample_fingerprint "p" "r" "main" (RefBookmark "main") []
    "alice" "message" ∅ false.

Definition sample_target (fingerprint : string) : string * string * string := ("p", "r", "main")%string.

(** The first requests of a program. *)
Fixpoint run_requests {A} (n : nat) (c : flow_state * flow A) : flow_state * flow A :=
  match n, c.2 with
  | S n, Call q k => let '(x, s) := flow_handle _ q c.1 in run_requests n (s, k x)
  | _, _ => c
  end.

Lemma run_requests_steps {A} n (c : flow_state * flow A) :
  rtc (thread_step flow_serve) c (run_requests n c).
Proof.
  revert c. induction n as [|n IH]; intros [s m]; [done|]. destruct m as [a|X q k]; [done|].
  cbn [run_requests snd fst]. pose proof (flow_handle_serve X q s) as H.
  destruct (flow_handle X q s) as [x s1]. eapply rtc_l; [by constructor|]. apply IH.
Qed.

(** The state after a write that crashed as soon as it had published. *)
Definition crashed_state : flow_state :=
  (run_requests 15 (flow_empty, call_prog sample_core (WriteCall sample_call))).1.

Lemma crashed_stopped : stopped_call sample_target sample_core flow_empty crashed_state.
Proof.
  exists (WriteCall sample_call), (run_requests 15 (flow_empty, call_prog sample_core (WriteCall sample_call))).2.
  split; [by split|]. unfold crashed_state. rewrite <- surjective_pairing. apply run_requests_steps.
Qed.

Definition sample_response : MutationResponse := mkMutationResponse "" "change" [].

(** The retry answers with the operation that the crashed write had published. *)
Lemma retry_runs :
  ∃ s', runs flow_serve (run_write sample_core sample_call) crashed_state (Ok sample_response) s' ∧
        length (fs_log s') = 1%nat.
Proof.
  pose proof (interp_runs flow_serve flow_handle (run_write sample_core sample_call) crashed_state
    flow_handle_serve) as H.
  assert ((interp flow_handle (run_write sample_core sample_call) crashed_state).1 = Ok sample_response) as Hr
    by (by vm_compute).
  rewrite Hr in H. eexists. split; [exact H|]. by vm_compute.
Qed.

Lemma writes_published_once_witness :
  NoDup (omap attempt_attr (fs_log crashed_state)) ∧
  ∃ s' p, p ∈ fs_log s' ∧ response_from_write (pub_write p) = sample_response.
Proof.
  split.
  - eapply (writes_published_once sample_target sample_core crashed_state crashed_state sample_call sample_response).
    apply rtc_once, crashed_stopped.
  - destruct retry_runs as (s' & Hrun & _). exists s'.
    eapply (writes_published_once sample_target sample_core crashed_state s' sample_call sample_response);
      [apply rtc_once, crashed_stopped|by split|exact Hrun].
Defined.

(** The receipt of a completed write is evicted when there may be none. *)
Definition completed_state : idem_state :=
  fs_idem (interp flow_handle (run_write sample_core sample_call) flow_empty).2.

Definition no_receipts : IdempotencyStore := mkIdempotencyStore 0 DEFAULT_TTL_MS DEFAULT_LEASE_MS.

Lemma prune_bounds_witness :
  ∃ s', receipt_count completed_state = 1%nat ∧ receipt_count s' = 0%nat.
Proof.
  pose proof (interp_runs idem_serve idem_handle (prune_with_reserve no_receipts 0) completed_state
    idem_handle_serve) as H.
  assert ((interp idem_handle (prune_with_reserve no_receipts 0) completed_state).1 = Ok 1%nat) as Hr
    by (by vm_compute).
  rewrite Hr in H. destruct (prune_bounds no_receipts 0 _ _ _ H) as (H0 & H1 & _).
  eexists. split; [by vm_compute|]. apply Nat.le_0_r. exact H0.
Defined.

(** C36. Two requests with the same idempotency key that overlap: the first one
    claims the receipt and finds no earlier operation; its lease of thirty
    seconds runs out before it publishes; the second one takes over the receipt
    with the same attempt, finds no operation either, and publishes; then the
    first one publishes too. The log has two operations of one attempt. *)
Theorem expired_lease_publishes_twice :
  ∃ s' ts,
    rtc (pool_step flow_serve (λ _ _, False))
      (flow_empty, [run_write sample_core sample_call; run_write sample_core sample_call]) (s', ts) ∧
    length (fs_log s') = 2%nat ∧ ¬ NoDup (omap attempt_attr (fs_log s')).
Proof.
  set (c := (flow_empty, _)).
  set (c' := run_pool flow_handle (replicate 14 0 ++ replicate 6 1 ++ [0])%nat c).
  exists c'.1, c'.2. split.
  - rewrite <- surjective_pairing. apply run_pool_steps, flow_handle_serve.
  - assert (length (fs_log c'.1) = 2%nat ∧
            bool_decide (NoDup (omap attempt_attr (fs_log c'.1))) = false) as [Hl Hd] by (by vm_compute).
    split; [exact Hl|]. by apply bool_decide_eq_false in Hd.
Qed.

(** *** The policy and the gate *)

(** The Protobuf compiler keeps its side of the gate's contract. *)
Lemma protobuf_reports_violations `{ProtocSchema, !ProtocParser, !ProtocCodegen, RustFmt, HashOrder} :
  reports_violations protobuf_compiler.
Proof.
  intros old new rules. cbn [protobuf_compiler cp_check_compatibility]. unfold check.
  destruct (_ || _); [done|]. cbv zeta.
  destruct (decode_decl old) as [p| | |]; [|done..]. destruct (decode_decl new) as [p'| | |]; [|done..].
  cbn [map_err mbind outcome_bind]. by destruct (check_payloads p p' (cr_direction rules)).
Qed.

Definition old_objects : SchemaObjects :=
  mkSchemaObjects [] {[ "M"%string := encode_decl (PMessage (message "M" [scalar_field "x" 1 MtInt32])) ]}.

Definition retype_effect : MutationEffect :=
  mkMutationEffect None [("M"%string, encode_decl (PMessage (message "M" [scalar_field "x" 1 MtString])))] [].

Lemma gate_spec_witness :
  gate protobuf_compiler rules_full old_objects retype_effect = Ok tt ↔
  cr_disabled rules_full = true ∨
  (me_removes retype_effect = [] ∧
   ∀ name new_blob old_blob, (name, new_blob) ∈ me_upserts retype_effect →
     so_decls old_objects !! name = Some old_blob →
     is_ok (cp_check_compatibility protobuf_compiler old_blob new_blob rules_full) = true).
Proof. apply (gate_spec protobuf_compiler). apply protobuf_reports_violations. Defined.

(** A tree from which ["base.proto"] disappeared, and which has a schema that
    imports nothing. *)
Definition shrunk_snapshot : PublicationSnapshot :=
  mkPublicationSnapshot (Ok []) (Ok ["a.proto"%string]) (λ _, Ok schema_objects_default)
    {[ "a.proto"%string; "base.proto"%string ]} false.

Definition sample_registry : CompilerRegistry := register protobuf_compiler ∅.

Lemma accepted_publication_has_integrity_witness :
  validate_publication_snapshot sample_registry "p" "r" "main" true shrunk_snapshot = Ok tt ∧
  snap_bookmark_target_conflicted shrunk_snapshot = false.
Proof.
  assert (validate_publication_snapshot sample_registry "p" "r" "main" true shrunk_snapshot = Ok tt) as H
    by (by vm_compute).
  split; [exact H|].
  by apply (accepted_publication_has_integrity sample_registry "p" "r" "main" true shrunk_snapshot H).
Defined.

(** * Change records at concrete inputs

    A service that answers every request of a change-record flow, the witness of
    [ApplyProps], and the schedule on which a change is applied without the
    approval that the policy requires. *)

#[local] Existing Instance role_based_authz.
#[local] Existing Instance two_tokens.

(** The names of the edited schemas stand for the JSON of the edits. *)
#[local] Instance model_edits_json : EditsJson :=
  λ edits, Ok (concat ((λ e, as_bytes (edit_schema_name e)) <$> edits)).

(** ** A repository with one schema, whose policy asks for one approval *)

Definition review_config : RepoConfig :=
  mkRepoConfig "main" Full [] (mkReviewPolicy 1 true) serving_policy_default.

Definition review_core : core_state :=
  mkCore (cs_access (owned_by ["alice"%string]))
    {[ repo_resource_name "p" "r" := rp_with_etag (repository_new "p" "r" review_config "alice" 1) "v1" ]}.

Definition one_schema : trees := λ project repo name at_ref,
  if bool_decide (name = "s.proto"%string) then Some schema_objects_default else None.

Definition apply_core : Core := mkCoreConfig (register protobuf_compiler ∅) ∅ idempotency_store_default.

(** ** A service *)

Definition store_down (X : Type) (q : store_req X) : X :=
  match q in store_req X return X with
  | StoreCreate _ | StoreGet _ | StoreList _ _ | StoreReplace _ _ => Err (StoreBackend "down")
  end.

Definition ledger_handle (X : Type) (q : ledger_req X) (s : store) : X * store :=
  match q in ledger_req X return X * store with
  | OnStore q => if fits s then memory_serve _ q s else (store_down _ q, s)
  | q => seq_serve 100 "id" _ q s
  end.

Definition without_schema : PublicationSnapshot :=
  mkPublicationSnapshot (Ok []) (Ok []) (λ m, Err (JjSchemaNotFound m)) {[ "s.proto"%string ]} false.

Definition jj_reply (X : Type) (q : jj_req X) : X :=
  match q in jj_req X return X with
  | JjResolveRefOrRoot _ _ _ => Ok "c0"%string
  | JjValidateRevision _ _ _ => Ok tt
  | JjLoadSchema project repo name at_ref =>
    match one_schema project repo name at_ref with
    | Some schema => Ok schema
    | None => Err (JjSchemaNotFound name)
    end
  | JjListSchemas _ _ _ => Ok ["s.proto"%string]
  | JjListConflictedDeclarations _ _ _ => Ok []
  | JjFindCorrelatedWrite _ _ _ _ => Ok None
  | JjCommitSchemaChanges _ _ _ _ _ _ _ _ validate | JjMerge _ _ _ _ _ _ _ validate =>
    match validate without_schema false with
    | Ok _ => Ok (mkWriteResult "c1" "change" "op" [])
    | Err e => Err (PubRejected e)
    | _ => Err (PubJj JjObjectNotFound)
    end
  | JjCreateBookmark _ _ _ _ _ _ | JjMoveBookmark _ _ _ _ _ _ => Err (PubJj JjObjectNotFound)
  | JjDeleteBookmark _ _ _ _ | JjDeleteTag _ _ _ _ => Err JjObjectNotFound
  | JjCreateTag _ _ _ _ _ => Err JjObjectNotFound
  | JjGc _ => Ok 0%nat
  end.

Definition shared_handle (X : Type) (q : flow_req X) (s : shared) : X * shared :=
  match q in flow_req X return X * shared with
  | OnCore q => let '(x, c) := core_handle 7 _ q (sh_core s) in (x, mkShared c (sh_changes s))
  | OnLedger q => let '(x, l) := ledger_handle _ q (sh_changes s) in (x, mkShared (sh_core s) l)
  | OnJj q => (jj_reply _ q, s)
  | OnIdem q => ((idem_handle _ q (fs_idem flow_empty)).1, s)
  | DeadlineExceeded => (false, s)
  end.

Lemma ledger_handle_serve X (q : ledger_req X) s : serve X q s (ledger_handle X q s).1 (ledger_handle X q s).2.
Proof.
  destruct q as [X q| | | |]; try done. cbn [ledger_handle serve]. destruct (fits s) eqn:Hf.
  - left. split; [by apply fits_sound|]. exists (memory_serve X q s).1. split; [by destruct (memory_serve X q s)|by left].
  - right. split; [|done]. destruct q; by eexists.
Qed.

Lemma shared_handle_answers X (q : flow_req X) s :
  flow_answer one_schema X q s (shared_handle X q s).1 (shared_handle X q s).2.
Proof.
  destruct q as [X q|X q|X q|X q|]; cbn [shared_handle flow_answer]; try done.
  - pose proof (core_handle_serve 7 X q (sh_core s)) as H. destruct (core_handle 7 X q (sh_core s)) as [x c].
    by exists c.
  - pose proof (ledger_handle_serve X q (sh_changes s)) as H.
    destruct (ledger_handle X q (sh_changes s)) as [x l]. by exists l.
  - split; [done|]. destruct q; try done. cbn. by destruct (one_schema _ _ _ _).
Qed.

(** ** The race *)

Definition removal : CreateChange :=
  mkCreateChange "p" "r" (Some "c"%string) "main" None "remove s" "" []
    [DeleteSchema (mkSchemaPath "p" "r" "s.proto") "protobuf"].

Definition alice_token : option string := Some "a"%string.

(** Alice drafts, validates and marks ready a change of her own, and applies it
    with the etag that the record is going to have. *)
Definition alice_calls : list (flow ChangeRecord) :=
  [create_change_record apply_core removal alice_token;
   validate_change_record apply_core a_name "v1" alice_token;
   mark_change_ready apply_core a_name "v2" alice_token;
   apply_change_record apply_core a_name "v3" "req" alice_token].

(** The last call reads the draft before the third one marks it ready. *)
Definition race_schedule : list nat :=
  replicate 20 0%nat ++ replicate 20 1%nat ++ replicate 4 3%nat ++ replicate 20 2%nat ++ replicate 40 3%nat.

Definition race_start : shared * list (flow ChangeRecord) := (mkShared review_core ∅, alice_calls).
Definition race_end : shared * list (flow ChangeRecord) := run_pool shared_handle race_schedule race_start.

Definition applied_unreviewed (m : flow ChangeRecord) : bool :=
  match m with
  | Ret (Ok r) => bool_decide (cr_status r = Applied) && match cr_reviews r with [] => true | _ => false end
  | _ => false
  end.

Lemma applied_unreviewed_spec m :
  applied_unreviewed m = true → ∃ r, m = Ret (Ok r) ∧ cr_status r = Applied ∧ cr_reviews r = [].
Proof.
  destruct m as [[r| | |]|]; try done. cbn. intros [Hs%bool_decide_eq_true Hr]%andb_true_iff.
  exists r. by destruct (cr_reviews r).
Qed.

(** C37. The approvals that a policy requires can be skipped: [apply_change_record]
    counts approvals only if its first read finds the record ready. An author
    who starts it with the etag that the record is about to get, so that it
    reads the draft, and marks the record ready before the lease is taken, gets
    the change applied without a review, though the repository requires one; one
    after the other, the same calls fail. *)
Theorem racing_apply_skips_approval :
  rtc (pool_step (flow_answer one_schema) (λ _ _, False)) race_start race_end ∧
  (∃ m r, race_end.2 !! 3%nat = Some m ∧ m = Ret (Ok r) ∧ cr_status r = Applied ∧ cr_reviews r = []) ∧
  config_in_force apply_core review_core "p" "r" review_config ∧
  required_approvals (review_policy review_config) = 1 ∧
  match (run_pool shared_handle (concat (replicate 40 <$> [0; 1; 2; 3]%nat)) race_start).2 !! 3%nat with
  | Some (Ret (Err (CoreChangeLedger (FailedPrecondition _)))) => True
  | _ => False
  end.
Proof.
  split; [apply run_pool_steps, shared_handle_answers|]. split.
  - assert (match race_end.2 !! 3%nat with Some m => applied_unreviewed m | None => false end = true) as H
      by (by vm_compute).
    destruct (race_end.2 !! 3%nat) as [m|]; [|done]. apply applied_unreviewed_spec in H as (r & H).
    by exists m, r.
  - split; [by split|]. split; [done|]. by vm_compute.
Qed.

(** ** The witness of [ApplyProps] *)

Definition ready_state : shared := mkShared review_core {[ a_name := ready_record ]}.

Lemma ready_inv : store_inv (sh_changes ready_state).
Proof.
  split; intros n r H; cbn [ready_state sh_changes] in H; apply lookup_singleton_Some in H as [<- <-]; [done|]. split; [|by exists 3].
  split; cbn; try done.
  - intros _. split; [done|]. by eexists.
  - constructor.
  - by apply not_elem_of_nil.
  - split; [done|]. intros H. by inversion H.
Qed.

Lemma ready_issued : issued (sh_changes ready_state) a_name "v3".
Proof.
  intros w Hw Hv. exists ready_record, 3. split; [done|]. split; [done|].
  assert (w = 3); [|lia]. apply version_etag_inj; [lia|lia|]. by rewrite <- Hv.
Qed.

Lemma apply_publishes_reviewed_plan_witness :
  asks (flow_answer one_schema) others (reviewed apply_core one_schema ready_state a_name "req" alice_token)
    (apply_change_record apply_core a_name "v3" "req" alice_token) (λ _ _, True) ready_state.
Proof. apply apply_publishes_reviewed_plan; [exact ready_inv|exact ready_issued]. Defined.

(** ** An interrupted apply *)

Definition left_behind : ApplyAttempt := mkApplyAttempt "req" "id" (actor_of alice) "id" 300100 100 100.

Definition applying_record : ChangeRecord :=
  with_etag (with_update_time (with_apply_attempt (with_status ready_record Applying) (Some left_behind)) 100) "v4".

Lemma applying_inv : store_inv (<[a_name := applying_record]> (sh_changes ready_state)).
Proof.
  assert (record_inv ready_record) as Hrec by (apply (stored_inv (sh_changes ready_state) a_name); [exact ready_inv|done]).
  apply (guar_inv (guessing:=false) (sh_changes ready_state)); [exact ready_inv|].
  apply (G_replace false _ ready_record ready_record _ 3); [done|exact Hrec|done| |done|lia].
  apply T_acquire; [done|by eexists|]. cbn. lia.
Qed.

Lemma interrupted_apply_resumes_witness :
  ∃ r2, cr_status r2 = Applied ∧
        cr_apply_result r2 = Some (mkApplyResult "c1" "change" "op" [] None).
Proof.
  destruct (interrupted_apply_resumes 300100 "owner" _ a_name applying_record left_behind 4 "v3" bob
    APPLY_LEASE_DURATION_MS (mkApplyResult "c1" "change" "op" [] None) applying_inv (lookup_insert_eq _ _ _)
    ltac:(by split) ltac:(done) eq_refl eq_refl ltac:(cbn; lia) ltac:(done) ltac:(lia)
    ltac:(done) ltac:(done) eq_refl ltac:(by split_and!)) as (r1 & s1 & r2 & s2 & H).
  exists r2. split; apply H.
Defined.
