(* ===== verification/QueryModel.v ===== *)
(** * QueryModel: reads at concrete inputs

    A repository whose two schemas import each other, a service that answers
    every request of a query from it, and the witnesses of [ClosureProps],
    [QueryProps] and [ServingProps]. [serde_json] is an injective encoding here
    and SHA-256 is replaced by the first 32 bytes. *)
From S2P Require Import Prelude RustStd SchemaTypes ProtoSchema Codec DescriptorCodec ProtocModel Blob ProtoRead Prog ObjectDb RecordStore Idempotency AccessStore Repository CoreTypes Integrity Access AccessProps AccessEffects ChangeJsonModel Flow FlowProps Queries Dependencies History Serving FlowRules QueryRules ClosureProps QueryProps ServingProps HistoryProps AccessModel.
From Stdlib Require Import Strings.Byte Ascii.
From stdpp Require Import countable.

Open Scope Z_scope.

#[local] Existing Instance role_based_authz.
#[local] Existing Instance noop_authn.
#[local] Instance short_sha256 : Sha256 := λ bs, take 32 (bs ++ replicate 32 x00).

(** ** The Protobuf compiler returns *)

Lemma protobuf_returns (PS : ProtocSchema) (PL : ProtocSchemaLaws PS) (PP : ProtocParser) (PC : ProtocCodegen) (RF : RustFmt)
    (HO : HashOrder) : compiler_returns (@protobuf_compiler PS PP PC RF HO).
Proof.
  split_and!; cbn.
  - intros o. unfold imports. pose proof (decode_meta_returns (PS := PS) (so_meta o)). by destruct (decode_meta _).
  - intros b. unfold summarize, read_decl. pose proof (decode_decl_returns (PS := PS) b). by destruct (decode_decl b).
  - intros b. unfold detail, detail_text, read_decl. pose proof (decode_decl_returns (PS := PS) b).
    by destruct (decode_decl b).
  - intros b f. unfold field_type_ref, read_decl. pose proof (decode_decl_returns (PS := PS) b).
    destruct (decode_decl b) as [[m| |]| | |]; try done. cbn. by destruct (List.find _ _).
Qed.

Definition query_core : Core := mkCoreConfig (register protobuf_compiler ∅) ∅ idempotency_store_default.

Lemma query_core_returns name compiler :
  compiler_for (c_registry query_core) name = Ok compiler → compiler_returns compiler.
Proof.
  unfold compiler_for. cbn [query_core c_registry]. unfold register. intros H. ok_inv H. ok_leaf H.
  apply lookup_insert_Some in H as [[_ <-]|[_ H]]; [apply protobuf_returns, _|by rewrite lookup_empty in H].
Qed.

(** ** Metadata *)

#[export] Instance ArtifactRequestRecord_countable : Countable ArtifactRequestRecord.
Proof.
  refine (inj_countable'
            (λ r, (arr_version r, arr_revision r, arr_schema_path r, arr_kind r, arr_language r,
                   arr_rust_pluggable_buffer r))
            (λ '(a, b, c, d, e, f), mkArtifactRequestRecord a b c d e f) _). by intros [].
Defined.

#[export] Instance ArtifactRecordMetadata_eq_dec : EqDecision ArtifactRecordMetadata.
Proof. solve_decision. Defined.
#[export] Instance ArtifactRecordMetadata_countable : Countable ArtifactRecordMetadata.
Proof.
  refine (inj_countable'
            (λ m, (arm_version m, arm_request m, arm_format_id m, arm_media_type m, arm_artifact_digest m,
                   arm_closure_digest m, arm_dependency_paths m, arm_is_archive m))
            (λ '(a, b, c, d, e, f, g, h), mkArtifactRecordMetadata a b c d e f g h) _). by intros [].
Defined.

#[export] Instance model_artifact_json : ArtifactJson := {
  metadata_to_vec := to_vec_model;
  metadata_from_slice := from_slice_model;
}.

#[export] Instance model_artifact_json_laws : ArtifactJsonLaws model_artifact_json.
Proof. split. intros m. apply model_roundtrip. Qed.

(** ** The repository *)

Definition importing (path : string) : SchemaObjects :=
  mkSchemaObjects (encode_meta (mkMetaPayload None None [path] [] [] [] None (Some "proto3"%string) None None
                                  [] [] [] [] [])) ∅.

Definition cyclic_snapshot : snapshot :=
  mkSnapshot {[ "a.proto"%string := importing "b.proto"; "b.proto"%string := importing "a.proto" ]}
    ["a.proto"; "b.proto"]%string.

Definition cyclic : commits :=
  mkCommits (λ project repo commit,
    if bool_decide (project = "p"%string ∧ repo = "r"%string ∧ commit = "c1"%string)
    then Some cyclic_snapshot else None) (λ commit, commit).

Definition path_a : SchemaPath := mkSchemaPath "p" "r" "a.proto".
Definition path_b : SchemaPath := mkSchemaPath "p" "r" "b.proto".

Definition public_core : core_state :=
  mkCore (mkAccess {[ "p"%string := mkProjectMeta "p" Public "alice" "v1" 1 1 false None ]} ∅) ∅.

Lemma cyclic_universe path commit :
  is_Some (schema_at cyclic path commit) → path ∈ ({[ path_a; path_b ]} : gset SchemaPath).
Proof.
  destruct path as [p r n]. unfold schema_at. cbn [cyclic at_commit sp_project sp_repo sp_schema_name].
  case_bool_decide as H; [|by intros [? ?]]. destruct H as (-> & -> & ->). cbn. intros [o Ho].
  apply lookup_insert_Some in Ho as [[<- _]|[_ Ho]]; [set_solver|].
  apply lookup_singleton_Some in Ho as [<- _]. set_solver.
Qed.

(** ** A service *)

Definition snapshot_reply (project repo commit name : string) : outcome JjError SchemaObjects :=
  match schema_at cyclic (mkSchemaPath project repo name) commit with
  | Some objects => Ok objects
  | None => Err (JjSchemaNotFound name)
  end.

Definition commit_of (at_ref : RefSpec) : string :=
  match at_ref with RefCommit commit => commit | _ => "c1" end.

Definition cyclic_jj (X : Type) (q : jj_req X) : X :=
  match q in jj_req X return X with
  | JjLoadSchema p r n a => snapshot_reply p r (commit_of a) n
  | JjListSchemas p r a =>
    match at_commit cyclic p r (commit_of a) with
    | Some sn => Ok (sn_listed sn)
    | None => Err JjObjectNotFound
    end
  | JjValidateRevision _ _ _ => Ok tt
  | JjResolveRefOrRoot _ _ _ => Ok "c1"%string
  | JjListConflictedDeclarations _ _ _ => Ok []
  | JjFindCorrelatedWrite _ _ _ _ => Ok None
  | JjCommitSchemaChanges _ _ _ _ _ _ _ _ _ | JjMerge _ _ _ _ _ _ _ _ => Err (PubJj (JjOther "read only"))
  | JjCreateBookmark _ _ _ _ _ _ | JjMoveBookmark _ _ _ _ _ _ => Err (PubJj (JjOther "read only"))
  | JjDeleteBookmark _ _ _ _ | JjDeleteTag _ _ _ _ => Err (JjOther "read only")
  | JjCreateTag _ _ _ _ _ => Err (JjOther "read only")
  | JjGc _ => Err (JjOther "read only")
  end.

Definition cyclic_query (X : Type) (q : jj_query X) : X :=
  match q in jj_query X return X with
  | JjResolveRefId _ _ a => Ok (commit_of a)
  | JjListDeclarations _ _ _ _ => Ok []
  | JjGetDeclaration _ _ _ d _ => Err (JjDeclNotFound d)
  | JjReadConflict _ _ _ d _ => Err (JjNotConflicted d)
  | JjListOperations _ _ | JjListOperationsTail _ _ _ => Ok []
  | JjCommitLog _ _ _ _ => Ok []
  | JjCommitTouchesSchema _ _ _ _ => Ok false
  | JjListRepositoryKeys => Ok [("p"%string, "r"%string)]
  | JjResolveConflict _ _ _ _ _ _ _ _ => Err (JjOther "read only")
  | JjUndo _ _ _ _ => Err (PubJj JjNothingToUndo)
  end.

Definition query_handle (X : Type) (q : query_req X) (d : Inner) : X * Inner :=
  match q in query_req X return X * Inner with
  | QCore q => ((core_handle 0 _ q public_core).1, d)
  | QJj q => (cyclic_jj _ q, d)
  | QQuery q => (cyclic_query _ q, d)
  | QRecords q => db_serve _ q d
  end.

Lemma query_handle_serve X (q : query_req X) d :
  query_serve public_core cyclic X q d (query_handle X q d).1 (query_handle X q d).2.
Proof.
  destruct q as [X q|X q|X q|X q]; cbn [query_handle query_serve fst snd].
  - split; [done|]. eexists. apply core_handle_serve.
  - split; [done|]. split.
    { destruct q; cbn; try done; [unfold snapshot_reply; by destruct (schema_at _ _ _)|by destruct (bool_decide _)]. }
    destruct q as [| |p r n []|p r []| | | | | | | | | |]; try done; cbn [jj_at_commit cyclic_jj commit_of].
    + unfold snapshot_reply, loads_from. by destruct (schema_at _ _ _).
    + intros l. destruct (at_commit _ _ _ _) as [sn|] eqn:E; [|done]. intros [= <-]. by eexists.
  - split; [done|]. split; [by destruct q|]. destruct q as [p r []| | | | | | | | | |]; try done.
    by intros ? [= <-].
  - destruct (db_serve _ q d) as [x d']. by left.
Qed.

(** ** The cycle *)

(** The closure of a cycle has each schema once. *)
Example cyclic_closure :
  (interp query_handle (closure_build query_core 3 path_a "c1" None) inner_default).1 =
  Ok (mkSchemaClosure (Some path_a)
        {[ path_b := importing "a.proto"; path_a := importing "b.proto" ]}).
Proof. by vm_compute. Qed.

Lemma closure_terminates_witness :
  asks (query_serve public_core cyclic) grow (admissible query_core public_core None)
    (closure_build query_core 3 path_a "c1" None) (λ r _, r ≠ Stuck) inner_default.
Proof.
  apply (closure_terminates query_core public_core cyclic None {[ path_a; path_b ]}).
  - apply cyclic_universe.
  - by vm_compute.
  - done.
  - apply query_core_returns.
Defined.

Lemma dependencies_terminate_witness :
  asks (query_serve public_core cyclic) grow (admissible query_core public_core None)
    (list_dependencies_detailed query_core path_a (RefCommit "c1") true None) (λ r _, r ≠ Stuck) inner_default.
Proof.
  apply (dependencies_terminate query_core public_core cyclic None).
  - done.
  - apply query_core_returns.
Defined.

(** Both edges of the cycle are reported. *)
Example cyclic_dependencies :
  match (interp query_handle (list_dependencies query_core path_a (RefCommit "c1") true None) inner_default).1 with
  | Ok imports => im_path <$> imports = ["b.proto"; "a.proto"]%string
  | _ => False
  end.
Proof. by vm_compute. Qed.

(** ** Artifacts *)

Definition revision_c1 : string := "projects/p/repos/r/revisions/c1".

Definition source_request : ArtifactRequest :=
  let record := mkArtifactRequestRecord 1 revision_c1 "a.proto" "source" None false in
  mkArtifactRequest record (sha256_hex (request_bytes record)) ArtifactSource None codegen_options_default.

Lemma source_request_new :
  artifact_request_new revision_c1 "a.proto" ArtifactSource None codegen_options_default = Ok source_request.
Proof. reflexivity. Qed.

Definition get_source (co : Core) : query SchemaArtifact :=
  get_schema_artifact co 3 revision_c1 "a.proto" ArtifactSource None codegen_options_default None.

Definition after_first : Inner := (interp query_handle (get_source query_core) inner_default).2.

(** A server without compilers serves what a server with one stored. *)
Example served_again :
  match (interp query_handle (get_source query_core) inner_default).1,
        (interp query_handle (get_source (mkCoreConfig ∅ ∅ idempotency_store_default)) after_first).1 with
  | Ok a, Ok a' => bool_decide (sa_content a = sa_content a') && bool_decide (sa_name a = sa_name a')
  | _, _ => false
  end = true.
Proof. by vm_compute. Qed.

Lemma first_materialization_wins_witness :
  artifact_request_new revision_c1 "a.proto" ArtifactSource None codegen_options_default = Ok source_request ∧
  asks (query_serve public_core cyclic) grow (admissible query_core public_core None) (get_source query_core)
    (λ r d', ∀ a, r = Ok a →
       (∃ stored, materialized source_request stored d' ∧ sta_artifact stored = a) ∧
       ∀ first, materialized source_request first after_first → a = sta_artifact first) after_first.
Proof.
  split; [apply source_request_new|].
  exact (first_materialization_wins public_core cyclic None query_core 3 revision_c1 "a.proto" ArtifactSource None
           codegen_options_default source_request after_first source_request_new).
Defined.

Lemma served_artifact_well_formed_witness :
  asks (query_serve public_core cyclic) grow (admissible query_core public_core None) (get_source query_core)
    (λ r _, ∀ a, r = Ok a → ∃ paths, artifact_wf source_request (mkStoredArtifact a paths)) inner_default.
Proof.
  exact (served_artifact_well_formed public_core cyclic None query_core 3 revision_c1 "a.proto" ArtifactSource None
           codegen_options_default source_request inner_default source_request_new).
Defined.

Definition sample_stored : StoredArtifact :=
  let content := as_bytes "text" in
  mkStoredArtifact
    (mkSchemaArtifact (artifact_resource_name source_request (sha256_digest content)) revision_c1 "a.proto"
       ArtifactSource "protobuf" "text/plain" content (sha256_digest content) (sha256_digest [])
       ["p/r/b.proto"%string] false) [path_b].

Lemma artifact_record_roundtrip_witness :
  ∃ bytes, encode_artifact_record source_request sample_stored = Ok bytes ∧
           decode_artifact_record source_request bytes = Ok sample_stored.
Proof.
  assert (is_ok (encode_artifact_record source_request sample_stored) = true) as H by (by vm_compute).
  pose proof (is_ok_unwrap _ [] H) as E. eexists. split; [exact E|]. by apply artifact_record_roundtrip.
Defined.

(** The same closure, with its schemas inserted in two orders. *)
Definition closure_ab : SchemaClosure :=
  mkSchemaClosure (Some path_a) (<[path_a := importing "b.proto"]> {[ path_b := importing "a.proto" ]}).

Definition closure_ba : SchemaClosure :=
  mkSchemaClosure (Some path_a) (<[path_b := importing "a.proto"]> {[ path_a := importing "b.proto" ]}).

Lemma closure_fits_small closure :
  Z.of_nat (length (sorted_entries closure)) <? 2 ^ 64 = true →
  forallb (λ e, size (so_decls e.2) =? 0)%nat (sorted_entries closure) = true →
  forallb (λ e, Z.of_nat (length (so_meta e.2)) <? 2 ^ 64) (sorted_entries closure) = true →
  Forall path_fits (sorted_entries closure).*1 → (∀ root, scl_root closure = Some root → path_fits root) →
  closure_fits closure.
Proof.
  intros Hn Hd Hm Hp Hr. split_and!; [by apply Z.ltb_lt in Hn| |done].
  apply Forall_forall. intros [p o] Hin. rewrite forallb_forall in Hd, Hm.
  specialize (Hd (p, o) Hin). specialize (Hm (p, o) Hin).
  cbn in Hd, Hm. apply Nat.eqb_eq, map_size_empty_inv in Hd. apply Z.ltb_lt in Hm.
  rewrite Forall_forall in Hp. split_and!; cbn.
  - apply Hp. exact (in_map fst _ _ Hin).
  - exact Hm.
  - by rewrite Hd.
  - rewrite Hd. constructor.
Qed.

Lemma closure_bytes_inj_witness : closure_fits closure_ab ∧ closure_fits closure_ba ∧ closure_ab = closure_ba.
Proof.
  assert (closure_fits closure_ab) as Hab.
  { apply closure_fits_small; [by vm_compute..| |intros root [= <-]; split_and!; by vm_compute].
    change (sorted_entries closure_ab).*1 with [path_a; path_b]. repeat constructor; by vm_compute. }
  assert (closure_fits closure_ba) as Hba.
  { apply closure_fits_small; [by vm_compute..| |intros root [= <-]; split_and!; by vm_compute].
    change (sorted_entries closure_ba).*1 with [path_a; path_b]. repeat constructor; by vm_compute. }
  split_and!; [exact Hab|exact Hba|]. apply closure_bytes_inj; [exact Hab|exact Hba|by eexists|by eexists|].
  by vm_compute.
Defined.

(** * Conflict resolution at a concrete input

    An archived repository that publishes through change records only, and a
    writer who replaces a declaration of its protected bookmark. *)

#[local] Existing Instance role_based_authz.
#[local] Existing Instance two_tokens.

Definition locked_config : RepoConfig :=
  mkRepoConfig "main" Full ["main"%string] (mkReviewPolicy 1 true) serving_policy_default.

Definition locked_repository : Repository :=
  mkRepository (repo_resource_name "p" "r") "p" "r" locked_config "alice" "v2" 1 1 true (Some 1).

(** Bob is a writer. *)
Definition locked_core : core_state :=
  mkCore (mkAccess {[ "p"%string := pm_with_etag (project_meta_new "p" Private "alice" 1) "v1" ]}
            {[ ("p"%string, "alice"%string) := (Owner, true); ("p"%string, "bob"%string) := (Writer_, true) ]})
    {[ repo_resource_name "p" "r" := locked_repository ]}.

Definition locked_setup : Core := mkCoreConfig (register protobuf_compiler ∅) ∅ idempotency_store_default.

Definition replacement : DeclBlob := encode_decl (PEnum (mkEnumDescriptorProto (Some "E"%string) [] None [] [] None None)).

Definition direct_write_refused : bool :=
  match (interp (core_handle 7) (ensure_direct_write_allowed (c_repo_configs locked_setup) "p" "r") locked_core).1 with
  | Err (CoreRepository (RepoFailedPrecondition _)) => true
  | _ => false
  end.

Lemma bob_may_write :
  runs core_serve (authorize (Some "b"%string) Write_ "p" "r") locked_core (Ok (User "bob" None)) locked_core.
Proof.
  pose proof (interp_runs core_serve (core_handle 7) (authorize (Some "b"%string) Write_ "p" "r") locked_core
                (core_handle_serve 7)) as H.
  replace (interp (core_handle 7) (authorize (Some "b"%string) Write_ "p" "r") locked_core)
    with (Ok (E:=CoreError) (User "bob" None), locked_core) in H by reflexivity. exact H.
Qed.

Lemma resolution_is_unguarded_witness :
  direct_write_refused = true ∧
  runs (resolving_serve (mkWriteResult "c1" "change" "op" []))
    (resolve_conflict locked_setup (mkSchemaPath "p" "r" "s.proto") "main" "E" replacement "bob" "" (Some "b"%string))
    (locked_core, []) (Ok (mkMutationResponse "c1" "change" []))
    (locked_core, [mkResolution (mkSchemaPath "p" "r" "s.proto") "main" "E" replacement]).
Proof.
  split; [by vm_compute|].
  apply (resolution_is_unguarded locked_setup locked_core (mkSchemaPath "p" "r" "s.proto") "main" "E" replacement
           "bob" "" (Some "b"%string) (User "bob" None) protobuf_compiler (mkWriteResult "c1" "change" "op" [])).
  - exact bob_may_write.
  - reflexivity.
  - by vm_compute.
Defined.
