(* ===== verification/FbsModel.v ===== *)
(** * FbsModel: FlatBuffers schemas at concrete inputs

    An instance of the classes that stand for [flatc_rs_schema] and [serde_json],
    the witnesses of [FbsProps], and batches of operations that
    show what the checks at the end of a batch and of a publication miss. *)
From S2P Require Import Prelude RustStd SchemaTypes Effects FbsSchema FbsMutations FbsPrinter FbsCompiler FbsProps ProtocModel ChangeModel ChangeJsonModel AccessModel.
From Stdlib Require Import Strings.Byte Ascii.
From stdpp Require Import countable.

Open Scope Z_scope.

(** ** A serializer: values as trees, trees as bytes *)

Definition tree : Type := gen_tree (string + Z).

Class Treeable (A : Type) := {
  to_tree : A → tree;
  of_tree : tree → option A;
  of_to_tree a : of_tree (to_tree a) = Some a;
}.

#[export] Instance string_tree : Treeable string.
Proof. refine {| to_tree s := GenLeaf (inl s); of_tree t := match t with GenLeaf (inl s) => Some s | _ => None end |}. done. Defined.

#[export] Instance Z_tree : Treeable Z.
Proof. refine {| to_tree s := GenLeaf (inr s); of_tree t := match t with GenLeaf (inr s) => Some s | _ => None end |}. done. Defined.

#[export] Instance bool_tree : Treeable bool.
Proof.
  refine {| to_tree (b : bool) := GenNode (if b then 1 else 0) [];
            of_tree t := match t with GenNode 1 [] => Some true | GenNode 0 [] => Some false | _ => None end |}.
  by intros [].
Defined.

#[export] Instance unit_tree : Treeable unit.
Proof. refine {| to_tree _ := GenNode 0 []; of_tree t := Some tt |}. by intros []. Defined.

#[export] Instance option_tree {A} `{Treeable A} : Treeable (option A).
Proof.
  refine {| to_tree o := match o with Some a => GenNode 1 [to_tree a] | None => GenNode 0 [] end;
            of_tree t := match t with
                         | GenNode 1 [t] => Some <$> of_tree t
                         | GenNode 0 [] => Some None
                         | _ => None
                         end |}.
  intros [a|]; [|done]. by rewrite of_to_tree.
Defined.

#[export] Instance list_tree {A} `{Treeable A} : Treeable (list A).
Proof.
  refine {| to_tree l := GenNode 0 (to_tree <$> l);
            of_tree t := match t with GenNode _ ts => mapM of_tree ts | _ => None end |}.
  intros l. rewrite mapM_fmap_Some; [done|]. intros a. apply of_to_tree.
Defined.

#[export] Instance prod_tree {A B} `{Treeable A, Treeable B} : Treeable (A * B).
Proof.
  refine {| to_tree ab := GenNode 0 [to_tree ab.1; to_tree ab.2];
            of_tree t := match t with
                         | GenNode _ [t; t'] => a ← of_tree t; b ← of_tree t'; Some (a, b)
                         | _ => None
                         end |}.
  intros [a b]. by rewrite !of_to_tree.
Defined.

Definition inj_tree {A B} (f : A → B) (g : B → A) {T : Treeable B} (Hg : ∀ a, g (f a) = a) : Treeable A.
Proof.
  refine {| to_tree a := to_tree (f a); of_tree t := g <$> of_tree t |}. intros a. rewrite of_to_tree. cbn. by rewrite Hg.
Defined.

Definition tree_to_vec {A} `{Treeable A} (a : A) : list byte :=
  x7b :: positive_bytes (encode (to_tree a)).

Definition tail_of (bs : list byte) : option (list byte) :=
  match bs with x7b :: bs => Some bs | _ => None end.

Definition tree_from_slice {A} `{Treeable A} (bs : list byte) : outcome string A :=
  ok_or (bs ← tail_of bs; t ← decode (bytes_positive bs); of_tree t) "expected value at line 1 column 1"%string.

Lemma tree_roundtrip {A} `{Treeable A} (a : A) : tree_from_slice (tree_to_vec a) = Ok a.
Proof. unfold tree_from_slice, tree_to_vec. cbn [tail_of mbind option_bind]. rewrite bytes_positive_bytes, decode_encode. cbn. by rewrite of_to_tree. Qed.

(** ** The classes *)

(** Numbers are their texts; two of them are not finite. *)
#[export] Instance text_f64 : RustF64 := {
  f64 := string;
  parse_f64 s := if bool_decide (s ∈ ["inf"; "nan"; "1.5"]%string) then Some s else None;
  fmt_f64 s := s;
  f64_is_finite s := negb (bool_decide (s ∈ ["inf"; "nan"]%string));
}.

#[export] Instance plain_types : FlatcTypes := {
  TypeRest := unit; type_rest_default := tt;
  FieldRest := unit; field_rest_default := tt;
  ObjectRest := unit; object_rest_default := tt;
  EnumRest := unit; enum_rest_default := tt;
  EnumValRest := unit; enum_val_rest_default := tt;
  ServiceRest := unit;
  RpcCallRest := unit;
  AttributesRest := unit; attributes_rest_default := tt;
  SchemaRest := unit; schema_rest_default := tt;
}.

#[export] Instance BaseType_tree : Treeable BaseType.
Proof.
  refine (inj_tree
    (λ b, match b with
          | BtNone => 0 | BtUType => 1 | BtBool => 2 | BtByte => 3 | BtUByte => 4 | BtShort => 5 | BtUShort => 6
          | BtInt => 7 | BtUInt => 8 | BtLong => 9 | BtULong => 10 | BtFloat => 11 | BtDouble => 12
          | BtString => 13 | BtVector => 14 | BtTable => 15 | BtStruct => 16 | BtUnion => 17 | BtArray => 18
          | BtVector64 => 19
          end)
    (λ z, nth (Z.to_nat z)
       [BtNone; BtUType; BtBool; BtByte; BtUByte; BtShort; BtUShort; BtInt; BtUInt; BtLong; BtULong; BtFloat;
        BtDouble; BtString; BtVector; BtTable; BtStruct; BtUnion; BtArray; BtVector64] BtNone) _).
  by intros [].
Defined.

#[export] Instance Documentation_tree : Treeable Documentation.
Proof. refine (inj_tree doc_lines mkDocumentation _). by intros []. Defined.

#[export] Instance KeyValue_tree : Treeable KeyValue.
Proof. refine (inj_tree (λ k, (kv_key k, kv_value k)) (λ '(a, b), mkKeyValue a b) _). by intros []. Defined.

#[export] Instance Attributes_tree : Treeable Attributes.
Proof. refine (inj_tree at_entries (λ l, mkAttributes l tt) _). by intros [l []]. Defined.

#[export] Instance FbsType_tree : Treeable FbsType.
Proof.
  refine (inj_tree (λ t, (ty_base_type t, ty_base_size t, ty_element_type t, ty_element_size t, ty_index t,
                          ty_fixed_length t, ty_unresolved_name t))
            (λ '(a, b, c, d, e, f, g), mkFbsType a b c d e f g tt) _). by intros [? ? ? ? ? ? ? []].
Defined.

#[export] Instance FbsField_tree : Treeable FbsField.
Proof.
  refine (inj_tree (λ f, (fi_name f, fi_type f, fi_id f, fi_default_integer f, (fi_default_real f : option string),
                          fi_default_string f, fi_is_deprecated f, fi_attributes f, fi_documentation f))
            (λ '(a, b, c, d, e, f, g, h, i), mkFbsField a b c d e f g h i tt) _). by intros [? ? ? ? ? ? ? ? ? []].
Defined.

#[export] Instance FbsObject_tree : Treeable FbsObject.
Proof.
  refine (inj_tree (λ o, (ob_name o, ob_fields o, ob_is_struct o, ob_attributes o, ob_documentation o,
                          ob_namespace o, ob_span_line o))
            (λ '(a, b, c, d, e, f, g), mkFbsObject a b c d e f g tt) _). by intros [? ? ? ? ? ? ? []].
Defined.

#[export] Instance FbsEnumVal_tree : Treeable FbsEnumVal.
Proof.
  refine (inj_tree (λ v, (vl_name v, vl_value v, vl_union_type v, vl_documentation v))
            (λ '(a, b, c, d), mkFbsEnumVal a b c d tt) _). by intros [? ? ? ? []].
Defined.

#[export] Instance FbsEnum_tree : Treeable FbsEnum.
Proof.
  refine (inj_tree (λ e, (en_name e, en_values e, en_is_union e, en_underlying_type e, en_attributes e,
                          en_documentation e, en_namespace e, en_span_line e))
            (λ '(a, b, c, d, e, f, g, h), mkFbsEnum a b c d e f g h tt) _). by intros [? ? ? ? ? ? ? ? []].
Defined.

#[export] Instance RpcCall_tree : Treeable RpcCall.
Proof.
  refine (inj_tree (λ c, (rc_name c, rc_request c, rc_response c, rc_request_index c, rc_response_index c,
                          rc_attributes c, rc_documentation c))
            (λ '(a, b, c, d, e, f, g), mkRpcCall a b c d e f g tt) _). by intros [? ? ? ? ? ? ? []].
Defined.

#[export] Instance FbsService_tree : Treeable FbsService.
Proof.
  refine (inj_tree (λ s, (sv_name s, sv_calls s, sv_documentation s, sv_span_line s))
            (λ '(a, b, c, d), mkFbsService a b c d tt) _). by intros [? ? ? ? []].
Defined.

#[export] Instance DeclEnvelope_tree : Treeable DeclEnvelope.
Proof.
  refine (inj_tree (λ e, (de_blob_version e,
                          match de_kind e with TagObject => 0 | TagEnum => 1 | TagService => 2 end,
                          de_object e, de_enum e, de_service e))
            (λ '(a, b, c, d, e), mkDeclEnvelope a (nth (Z.to_nat b) [TagObject; TagEnum; TagService] TagObject) c d e) _).
  by intros [? [] ? ? ?].
Defined.

#[export] Instance FbsMeta_tree : Treeable FbsMeta.
Proof.
  refine (inj_tree (λ m, (fm_blob_version m, fm_namespace m, fm_includes m, fm_include_commits m, fm_root_type m,
                          fm_file_ident m, fm_file_ext m, fm_decl_order m, fm_declared_attributes m))
            (λ '(a, b, c, d, e, f, g, h, i), mkFbsMeta a b c d e f g h i) _). by intros [].
Defined.

(** ** [serde_json] at operations, envelopes and metadata *)

Definition op_parts (op : FbsOp) : Z * list string * list (option string) * Z :=
  match op with
  | FbsAddField t f ty dv doc => (0, [t; f; ty], [dv; doc], 0)
  | FbsDeprecateField t f => (1, [t; f], [], 0)
  | FbsRenameField t a b => (2, [t; a; b], [], 0)
  | FbsChangeFieldType t f ty => (3, [t; f; ty], [], 0)
  | FbsRemoveField t f => (4, [t; f], [], 0)
  | FbsCreateTable n doc => (5, [n], [doc], 0)
  | FbsRenameTable a b => (6, [a; b], [], 0)
  | FbsDeleteTable n => (7, [n], [], 0)
  | FbsCreateEnum n ty doc => (8, [n; ty], [doc], 0)
  | FbsRenameEnum a b => (9, [a; b], [], 0)
  | FbsDeleteEnum n => (10, [n], [], 0)
  | FbsAddEnumValue e v z => (11, [e; v], [], z)
  | FbsRemoveEnumValue e v => (12, [e; v], [], 0)
  | FbsRenameEnumValue e a b => (13, [e; a; b], [], 0)
  | FbsCreateUnion n doc => (14, [n], [doc], 0)
  | FbsCreateUnionWithMembers n ms doc => (15, n :: ms, [doc], 0)
  | FbsAddUnionMember u m => (16, [u; m], [], 0)
  | FbsRemoveUnionMember u m => (17, [u; m], [], 0)
  | FbsRenameUnion a b => (18, [a; b], [], 0)
  | FbsDeleteUnion n => (19, [n], [], 0)
  | FbsUpdateImport p c r => (20, [p; c], [], if r : bool then 1 else 0)
  end.

Definition op_of_parts (parts : Z * list string * list (option string) * Z) : FbsOp :=
  match parts with
  | (0, [t; f; ty], [dv; doc], _) => FbsAddField t f ty dv doc
  | (1, [t; f], _, _) => FbsDeprecateField t f
  | (2, [t; a; b], _, _) => FbsRenameField t a b
  | (3, [t; f; ty], _, _) => FbsChangeFieldType t f ty
  | (4, [t; f], _, _) => FbsRemoveField t f
  | (5, [n], [doc], _) => FbsCreateTable n doc
  | (6, [a; b], _, _) => FbsRenameTable a b
  | (7, [n], _, _) => FbsDeleteTable n
  | (8, [n; ty], [doc], _) => FbsCreateEnum n ty doc
  | (9, [a; b], _, _) => FbsRenameEnum a b
  | (10, [n], _, _) => FbsDeleteEnum n
  | (11, [e; v], _, z) => FbsAddEnumValue e v z
  | (12, [e; v], _, _) => FbsRemoveEnumValue e v
  | (13, [e; a; b], _, _) => FbsRenameEnumValue e a b
  | (14, [n], [doc], _) => FbsCreateUnion n doc
  | (15, n :: ms, [doc], _) => FbsCreateUnionWithMembers n ms doc
  | (16, [u; m], _, _) => FbsAddUnionMember u m
  | (17, [u; m], _, _) => FbsRemoveUnionMember u m
  | (18, [a; b], _, _) => FbsRenameUnion a b
  | (19, [n], _, _) => FbsDeleteUnion n
  | (_, [p; c], _, r) => FbsUpdateImport p c (bool_decide (r = 1))
  | _ => FbsDeleteUnion ""
  end.

#[export] Instance FbsOp_tree : Treeable FbsOp.
Proof. refine (inj_tree op_parts op_of_parts _). intros [| | | | | | | | | | | | | | |? ms ?| | | | |? ? b]; try done; [by destruct ms as [|? [|? []]]|by destruct b]. Defined.

#[export] Instance tree_ops : FbsOpJson := { op_to_vec := tree_to_vec; op_from_slice := tree_from_slice }.

Definition field_eq_by_tree (f g : FbsField) : bool := bool_decide (to_tree f = to_tree g).

#[export] Instance plain_methods : FlatcMethods := {
  byte_size b := match b with
                 | BtBool | BtByte | BtUByte | BtUType => Some 1
                 | BtShort | BtUShort => Some 2
                 | BtInt | BtUInt | BtFloat => Some 4
                 | BtLong | BtULong | BtDouble => Some 8
                 | _ => None
                 end;
  attributes_has attrs key := existsb (λ kv, bool_decide (kv_key kv = Some key)) (at_entries attrs);
  field_eq := field_eq_by_tree;
}.

(** A number that reads back as another one. *)
Definition imprecise (number : string) : string :=
  if bool_decide (number = "0.3") then "0.30000000000000004" else number.

(** Numbers that are not finite are lost in an envelope. *)
Definition reread_envelope (e : DeclEnvelope) : DeclEnvelope :=
  mkDeclEnvelope (de_blob_version e) (de_kind e) (reread_object imprecise <$> de_object e) (de_enum e)
    (reread_service imprecise <$> de_service e).

(** The value of an envelope keeps the version and, as a text, the bytes. *)
Definition envelope_value (e : DeclEnvelope) : json :=
  JObject [("blob_version", JNumber (PosInt (de_blob_version e)));
           ("envelope", JString (String.string_of_list_byte (tree_to_vec e)))]%string.

#[export] Instance tree_json : FbsJson := {
  json_from_slice bs := envelope_value <$> tree_from_slice bs;
  envelope_to_vec := tree_to_vec;
  envelope_from_value v := match json_get "envelope" v with
                           | Some (JString s) => reread_envelope <$> tree_from_slice (String.list_byte_of_string s)
                           | _ => Err "missing field `kind`"%string
                           end;
  meta_to_vec := tree_to_vec;
  meta_from_slice := tree_from_slice;
  json_f64 := imprecise;
}.

#[export] Instance tree_json_laws : FbsJsonLaws.
Proof.
  split.
  - intros p. exists (envelope_value (from_payload p)). cbn [json_from_slice tree_json envelope_to_vec].
    rewrite tree_roundtrip. split_and!; [done|by destruct p|].
    change (envelope_from_value _) with
      (reread_envelope <$> tree_from_slice (String.list_byte_of_string (String.string_of_list_byte (tree_to_vec (from_payload p))))).
    rewrite String.list_byte_of_string_of_list_byte, tree_roundtrip.
    by destruct p.
  - intros m. apply tree_roundtrip.
  - intros m. done.
Qed.

(** ** A schema: a table, an enum, a union and its members *)

Definition fbs_mutation (op : FbsOp) : Mutation := mkMutation (mkSchemaPath "acme" "game" "monster.fbs") "flatbuffers" (fbs_op_encode op).

Definition plain_field (name spec : string) (default : option string) : FbsField :=
  mkFbsField (Some name) (Some (parse_type_spec spec)) None None None default false None None tt.

Definition plain_table (name : string) (fields : list FbsField) : FbsObject :=
  mkFbsObject (Some name) fields false None None None None tt.

Definition plain_value (name : string) (number : Z) : FbsEnumVal :=
  mkFbsEnumVal (Some name) (Some number) None None tt.

Definition monster : FbsObject :=
  plain_table "Monster"
    [plain_field "hp" "int" None; plain_field "color" "Color" (Some "Red"); plain_field "item" "Weapon" None]%string.

Definition color : FbsEnum :=
  mkFbsEnum (Some "Color")%string [plain_value "Red" 0; plain_value "Blue" 1]%string false
    (Some (parse_type_spec "byte")) None None None None tt.

Definition weapon : FbsObject := plain_table "Weapon" [plain_field "damage" "int" None]%string.

Definition shield : FbsObject := plain_table "Shield" [plain_field "armor" "int" None]%string.

Definition equipment : FbsEnum :=
  mkFbsEnum (Some "Equipment")%string
    [none_member;
     mkFbsEnumVal (Some "Weapon")%string (Some 1) (Some (parse_type_spec "Weapon")) None tt]
    true (Some (parse_type_spec "ubyte")) None None None None tt.

Definition game_meta : FbsMeta :=
  mkFbsMeta 1 None [] [] (Some "Monster")%string None None
    ["Color"; "Monster"; "Weapon"; "Shield"; "Equipment"]%string [].

Definition game : SchemaObjects :=
  mkSchemaObjects (fbs_encode_meta game_meta)
    (list_to_map [("Monster", fbs_encode_decl (FbsPObject monster));
                  ("Color", fbs_encode_decl (FbsPEnum color));
                  ("Weapon", fbs_encode_decl (FbsPObject weapon));
                  ("Shield", fbs_encode_decl (FbsPObject shield));
                  ("Equipment", fbs_encode_decl (FbsPEnum equipment))]%string).

Definition effect_of (ops : list FbsOp) : MutationEffect :=
  match fbs_apply_mutations game (fbs_mutation <$> ops) with Ok e => e | _ => mkMutationEffect None [] [] end.

Definition decl_of (e : MutationEffect) (name : string) : DeclBlob :=
  default [] (so_decls (apply_effect game e) !! name).

Definition stored (name : string) : DeclBlob := default [] (so_decls game !! name).

Definition edit_ops : list FbsOp :=
  [FbsAddField "Monster" "mana" "short" (Some "150") None; FbsRenameField "Monster" "hp" "health";
   FbsDeprecateField "Monster" "color"]%string.

Definition rename_ops : list FbsOp :=
  [FbsRenameTable "Weapon" "Sword"; FbsDeleteTable "Shield"]%string.

Lemma edit_ops_run : fbs_apply_mutations game (fbs_mutation <$> edit_ops) = Ok (effect_of edit_ops).
Proof. vm_compute. reflexivity. Qed.

Lemma rename_ops_run : fbs_apply_mutations game (fbs_mutation <$> rename_ops) = Ok (effect_of rename_ops).
Proof. vm_compute. reflexivity. Qed.

(** The example's payloads, as they decode. *)
Lemma stored_monster : fbs_decode_decl (stored "Monster") = Ok (FbsPObject monster).
Proof. vm_compute. reflexivity. Qed.




Lemma edit_ops_keep_types : all_keep_types (fbs_mutation <$> edit_ops).
Proof.
  intros op parsed Hin. apply list_elem_of_fmap in Hin as (o & -> & Hin). unfold fbs_op_decode, fbs_mutation.
  cbn [mu_operation]. unfold fbs_op_encode. cbn [op_from_slice op_to_vec tree_ops]. rewrite tree_roundtrip.
  cbn. intros [= <-]. unfold edit_ops in Hin. set_unfold. by destruct Hin as [->|[->|[->|[]]]].
Qed.

Lemma monster_slots : slots_at_most (2 ^ 32 - 1 - Z.of_nat (length (fbs_mutation <$> edit_ops))) (ob_fields monster).
Proof. intros x Hx. cbn in Hx. set_unfold. destruct Hx as [->|[->|[->|[]]]]; split; vm_compute; discriminate. Qed.

Lemma safe_edits_are_compatible_witness :
  (("Monster"%string, decl_of (effect_of edit_ops) "Monster") ∈ me_upserts (effect_of edit_ops) →
   fbs_check_compatibility (stored "Monster") (decl_of (effect_of edit_ops) "Monster") rules_full = Ok tt) ∧
  "Monster"%string ∉ me_removes (effect_of edit_ops).
Proof.
  refine (safe_edits_are_compatible game (fbs_mutation <$> edit_ops) (effect_of edit_ops) "Monster" (stored "Monster")
           (decl_of (effect_of edit_ops) "Monster") monster rules_full edit_ops_run edit_ops_keep_types _
           stored_monster _ monster_slots _); [vm_compute; reflexivity|reflexivity|reflexivity].
Defined.

Lemma fbs_effect_complete_witness :
  ∃ s0 s, fbs_load game true = Ok s0 ∧ fbs_apply_all s0 (fbs_mutation <$> rename_ops) = Ok s ∧
    fbs_stores (apply_effect game (effect_of rename_ops)) s.
Proof. exact (fbs_effect_complete game (fbs_mutation <$> rename_ops) (effect_of rename_ops) rename_ops_run). Defined.

Lemma fbs_no_dangling_witness :
  (∀ k b p, so_decls (apply_effect game (effect_of rename_ops)) !! k = Some b → fbs_decode_decl b = Ok p →
     ∀ n, mentions p n → ¬ stands_for n "Weapon") ∧
  (∀ m n, fbs_decode_meta (so_meta (apply_effect game (effect_of rename_ops))) = Ok m → fm_root_type m = Some n →
     ¬ stands_for n "Weapon").
Proof.
  refine (fbs_no_dangling game (fbs_mutation <$> rename_ops) (effect_of rename_ops) "Weapon" rename_ops_run _ _).
  - eexists. vm_compute. reflexivity.
  - vm_compute. reflexivity.
Defined.

(** ** What the checks miss *)

(** The types of the members of a union by their numbers. *)
Definition member_types (blob : DeclBlob) : list (option Z * option string) :=
  match fbs_decode_decl blob with
  | Ok (FbsPEnum e) => (λ v, (vl_value v, type_ref_of (vl_union_type v))) <$> en_values e
  | _ => []
  end.

Definition swap_ops : list FbsOp :=
  [FbsRemoveUnionMember "Equipment" "Weapon"; FbsAddUnionMember "Equipment" "Shield"]%string.

(** Replacing a member of a union passes the strictest compatibility check:
    removing a union's last member and adding another gives the new member the
    removed one's number, and the check compares numbers only, so data written as
    [Weapon] is read as [Shield]. *)
Theorem union_member_swap_passes_full :
  fbs_apply_mutations game (fbs_mutation <$> swap_ops) = Ok (effect_of swap_ops) ∧
  member_types (stored "Equipment") = [(Some 0, None); (Some 1, Some "Weapon"%string)] ∧
  member_types (decl_of (effect_of swap_ops) "Equipment") = [(Some 0, None); (Some 1, Some "Shield"%string)] ∧
  fbs_check_compatibility (stored "Equipment") (decl_of (effect_of swap_ops) "Equipment") rules_full = Ok tt.
Proof. split_and!; vm_compute; reflexivity. Qed.

Definition pair_of (a b : string) : DeclBlob :=
  fbs_encode_decl (FbsPObject (plain_table "Pair" [plain_field a "int" None; plain_field b "int" None])).

(** Reordering fields of one type passes the strictest compatibility check: the
    types of the slots are the same, so data written as [x] is read as [y]. *)
Theorem same_type_reorder_passes_full :
  fbs_check_compatibility (pair_of "x" "y") (pair_of "y" "x") rules_full = Ok tt ∧ pair_of "x" "y" ≠ pair_of "y" "x".
Proof. split; [vm_compute; reflexivity|]. apply (bool_decide_unpack _). vm_compute. exact I. Qed.

Definition recreate_ops : list FbsOp :=
  [FbsDeleteTable "Weapon"; FbsCreateTable "Weapon" None; FbsAddField "Weapon" "range" "int" None None]%string.

(** The operations succeed, and the state before the check at the end of the
    batch declares the name. *)
Definition declared_after (ops : list FbsOp) (name : string) : bool :=
  match fbs_load game true ≫= λ s, fbs_apply_all s (fbs_mutation <$> ops) with
  | Ok s => is_some (fw_decls s !! name)
  | _ => false
  end.

(** A batch that deletes a table and creates it again is rejected as if the
    table were missing: the name stays among the removed ones, although the state
    that is checked declares it. *)
Theorem recreated_table_rejected :
  declared_after recreate_ops "Weapon" = true ∧
  fbs_apply_mutations game (fbs_mutation <$> recreate_ops) =
    Err (InvalidOperation "cannot remove declaration 'Weapon': referenced by Equipment, Monster").
Proof. split; vm_compute; reflexivity. Qed.

Definition renamed_value_ops : list FbsOp :=
  [FbsRemoveEnumValue "Color" "Red"; FbsRenameEnum "Color" "Shade"]%string.

(** The fields of a table that default to a value of an enum. *)
Definition defaulting (blob : DeclBlob) (enum_name value_name : string) : bool :=
  match fbs_decode_decl blob with Ok (FbsPObject o) => existsb (defaults_to enum_name value_name) (ob_fields o) | _ => false end.

Definition value_names (blob : DeclBlob) : list (option string) :=
  match fbs_decode_decl blob with Ok (FbsPEnum e) => vl_name <$> en_values e | _ => [] end.

(** Removing an enum value that a field defaults to is rejected, but not when
    the enum is renamed later in the batch: the removed value is remembered under
    the old name of the enum, and the field is left with a default that its enum
    does not have. *)
Theorem renamed_enum_hides_default :
  fbs_apply_mutations game (fbs_mutation <$> [FbsRemoveEnumValue "Color" "Red"]%string) =
    Err (InvalidOperation "cannot remove enum value 'Color.Red': referenced as a default by Monster") ∧
  fbs_apply_mutations game (fbs_mutation <$> renamed_value_ops) = Ok (effect_of renamed_value_ops) ∧
  value_names (decl_of (effect_of renamed_value_ops) "Shade") = [Some "Blue"%string] ∧
  defaulting (decl_of (effect_of renamed_value_ops) "Monster") "Shade" "Red" = true.
Proof. split_and!; vm_compute; reflexivity. Qed.
