(* ===== verification/OpenApiAst.v ===== *)
(** * OpenApiAst: the syntax tree of OpenAPI documents

    [crates/schemahub-compiler-openapi/src/ast.rs] and [blob.rs]: the tree, which
    the crate defines itself, and the versioned JSON blobs that declarations and
    document metadata are stored in. [serde_json] is the class [OpenApiJson].
    Schemas and references to schemas are mutually recursive: a schema is a record
    over the type of its subschemas. *)
From S2P Require Import Prelude RustStd SchemaTypes.
From Stdlib Require Import Strings.Byte Ascii.

Open Scope Z_scope.

(** ** Enumerations and their names *)

Record UnknownVariant := mkUnknownVariant { uv_kind : string; uv_value : string }.

Definition fmt_unknown_variant `{RustFmt} (e : UnknownVariant) : string :=
  "unknown " +:+ uv_kind e +:+ " variant: " +:+ debug_str (uv_value e).

Inductive HttpMethod := HttpGet | HttpPost | HttpPut | HttpDelete | HttpPatch | HttpHead | HttpOptions | HttpTrace.

#[export] Instance HttpMethod_eq_dec : EqDecision HttpMethod.
Proof. solve_decision. Defined.

Definition method_to_str (m : HttpMethod) : string :=
  match m with
  | HttpGet => "get" | HttpPost => "post" | HttpPut => "put" | HttpDelete => "delete"
  | HttpPatch => "patch" | HttpHead => "head" | HttpOptions => "options" | HttpTrace => "trace"
  end.

(** The first name in a table that is equal to the text. *)
Fixpoint variant_of {A} (table : list (string * A)) (s : string) : option A :=
  match table with
  | [] => None
  | (name, a) :: table => if bool_decide (s = name) then Some a else variant_of table s
  end.

(** No character outside ASCII has a lower case that occurs in one of these
    names, so [to_lowercase] is [to_ascii_lowercase] here. *)
Definition method_from_str (s : string) : outcome UnknownVariant HttpMethod :=
  ok_or (variant_of [("get", HttpGet); ("post", HttpPost); ("put", HttpPut); ("delete", HttpDelete);
                     ("patch", HttpPatch); ("head", HttpHead); ("options", HttpOptions);
                     ("trace", HttpTrace)]%string (to_ascii_lowercase s))
    (mkUnknownVariant "HttpMethod" s).

Inductive ParameterLocation := InQuery | InHeader | InPath | InCookie.

Definition location_to_str (l : ParameterLocation) : string :=
  match l with InQuery => "query" | InHeader => "header" | InPath => "path" | InCookie => "cookie" end.

Definition location_from_str (s : string) : outcome UnknownVariant ParameterLocation :=
  ok_or (variant_of [("query", InQuery); ("header", InHeader); ("path", InPath); ("cookie", InCookie)]%string s)
    (mkUnknownVariant "ParameterLocation" s).

Inductive JsonSchemaType := JsString | JsInteger | JsNumber | JsBoolean | JsArray | JsObject | JsNull.

Definition schema_type_to_str (t : JsonSchemaType) : string :=
  match t with
  | JsString => "string" | JsInteger => "integer" | JsNumber => "number" | JsBoolean => "boolean"
  | JsArray => "array" | JsObject => "object" | JsNull => "null"
  end.

Definition schema_type_from_str (s : string) : outcome UnknownVariant JsonSchemaType :=
  ok_or (variant_of [("string", JsString); ("integer", JsInteger); ("number", JsNumber);
                     ("boolean", JsBoolean); ("array", JsArray); ("object", JsObject);
                     ("null", JsNull)]%string s)
    (mkUnknownVariant "JsonSchemaType" s).

(** ** References and extensions *)

Record ExternalImport := mkExternalImport {
  ei_path : string;
  ei_resolved_commit : string;
  ei_decl_name : string;
}.

Record SchemaRef := mkSchemaRef {
  sr_local_name : string;
  sr_external_import : option ExternalImport;
}.

Record Extensions := mkExtensions { ex_json_bytes : list byte }.

(** ** Schemas *)

Record PropertyOf {S : Type} := mkProperty {
  pr_name : string;
  pr_schema : option S;
}.
Arguments PropertyOf S : clear implicits.
Arguments mkProperty {S}.

Section Schemas.
Context {F64 : RustF64}.

Record SchemaDefOf {S : Type} := mkSchemaDef {
  js_types : list JsonSchemaType;
  js_format : option string;
  js_min_length : option Z;
  js_max_length : option Z;
  js_pattern : option string;
  js_minimum : option f64;
  js_maximum : option f64;
  js_exclusive_minimum : option bool;
  js_exclusive_maximum : option bool;
  js_multiple_of : option f64;
  js_items : option S;
  js_min_items : option Z;
  js_max_items : option Z;
  js_unique_items : option bool;
  js_properties : list (PropertyOf S);
  js_required : list string;
  js_additional_properties_allowed : option bool;
  js_additional_properties_schema : option S;
  js_min_properties : option Z;
  js_max_properties : option Z;
  js_all_of : list S;
  js_any_of : list S;
  js_one_of : list S;
  js_not : option S;
  js_enum_values : list string;
  js_const_value : option string;
  js_title : option string;
  js_description : option string;
  js_default : option string;
  js_deprecated : option bool;
  js_read_only : option bool;
  js_write_only : option bool;
  js_extensions : option Extensions;
}.
Arguments SchemaDefOf S : clear implicits.
Arguments mkSchemaDef {S}.

Inductive SchemaOrRef :=
  | SchemaInline (def : SchemaDefOf SchemaOrRef)
  | SchemaByRef (r : SchemaRef).

Definition JsonSchemaDef : Type := SchemaDefOf SchemaOrRef.

Definition PropertyDef : Type := PropertyOf SchemaOrRef.

(** ** Parameters, bodies and responses *)

Record ParameterDef := mkParameterDef {
  pm_name : string;
  pm_location : ParameterLocation;
  pm_description : option string;
  pm_required : bool;
  pm_deprecated : option bool;
  pm_schema : option SchemaOrRef;
  pm_extensions : option Extensions;
}.

Inductive ParameterOrRef := ParamInline (p : ParameterDef) | ParamByRef (r : string).

Record MediaTypeEntry := mkMediaTypeEntry {
  mt_media_type : string;
  mt_schema : option SchemaOrRef;
  mt_extensions : option Extensions;
}.

Record RequestBodyDef := mkRequestBodyDef {
  rb_description : option string;
  rb_required : bool;
  rb_content : list MediaTypeEntry;
  rb_extensions : option Extensions;
}.

Inductive RequestBodyOrRef := BodyInline (b : RequestBodyDef) | BodyByRef (r : string).

Record HeaderDef := mkHeaderDef {
  hd_name : string;
  hd_description : option string;
  hd_required : option bool;
  hd_schema : option SchemaOrRef;
}.

Record ResponseDef := mkResponseDef {
  rs_description : string;
  rs_content : list MediaTypeEntry;
  rs_headers : list HeaderDef;
  rs_extensions : option Extensions;
}.

Inductive ResponseOrRef := ResponseInline (r : ResponseDef) | ResponseByRef (r : string).

Record ResponseEntry := mkResponseEntry {
  re_status_code : string;
  re_response : option ResponseOrRef;
}.

(** ** Operations and declarations *)

Record OperationDef := mkOperationDef {
  od_method : HttpMethod;
  od_operation_id : option string;
  od_summary : option string;
  od_description : option string;
  od_tags : list string;
  od_parameters : list ParameterOrRef;
  od_request_body : option RequestBodyOrRef;
  od_responses : list ResponseEntry;
  od_deprecated : option bool;
  od_extensions : option Extensions;
}.

Definition operation_empty (method : HttpMethod) : OperationDef :=
  mkOperationDef method None None None [] [] None [] None None.

Record InfoObject := mkInfoObject {
  io_title : string;
  io_description : option string;
  io_version : string;
  io_terms_of_service : option string;
}.

Record ServerObject := mkServerObject {
  so_url : string;
  so_description : option string;
}.

Record DocumentMetadataBlob := mkDocumentMetadata {
  dm_blob_version : Z;
  dm_openapi_version : string;
  dm_info : option InfoObject;
  dm_servers : list ServerObject;
  dm_extensions : option Extensions;
}.

Definition document_metadata_default : DocumentMetadataBlob := mkDocumentMetadata 0 "" None [] None.

Record PathItemBlob := mkPathItem {
  pi_path_pattern : string;
  pi_summary : option string;
  pi_description : option string;
  pi_parameters : list ParameterOrRef;
  pi_operations : list OperationDef;
  pi_extensions : option Extensions;
}.

Record ComponentSchemaBlob := mkComponentSchema {
  cs_name : string;
  cs_schema : option JsonSchemaDef;
  cs_extensions : option Extensions;
}.

Record ComponentParameterBlob := mkComponentParameter {
  cpm_name : string;
  cpm_parameter : option ParameterDef;
}.

Record ComponentResponseBlob := mkComponentResponse {
  crs_name : string;
  crs_response : option ResponseDef;
}.

Record ComponentRequestBodyBlob := mkComponentRequestBody {
  crb_name : string;
  crb_request_body : option RequestBodyDef;
}.

Inductive OpenApiPayload :=
  | OaPathItem (b : PathItemBlob)
  | OaComponentSchema (b : ComponentSchemaBlob)
  | OaComponentParameter (b : ComponentParameterBlob)
  | OaComponentResponse (b : ComponentResponseBlob)
  | OaComponentRequestBody (b : ComponentRequestBodyBlob).

Record OpenApiDecl := mkOpenApiDecl {
  od_blob_version : Z;
  od_kind : OpenApiPayload;
}.

Definition OA_BLOB_VERSION : Z := 1.

Definition openapi_decl_new (kind : OpenApiPayload) : OpenApiDecl := mkOpenApiDecl OA_BLOB_VERSION kind.

(** ** Blobs *)

(** [serde_json] at these types; writing one of them into a [Vec] does not fail. *)
Class OpenApiJson := {
  oa_decl_to_vec : OpenApiDecl → list byte;
  oa_decl_from_slice : list byte → outcome string OpenApiDecl;
  oa_meta_to_vec : DocumentMetadataBlob → list byte;
  oa_meta_from_slice : list byte → outcome string DocumentMetadataBlob;
  (** What a finite number reads back as once it was written. *)
  oa_json_f64 : f64 → f64;
}.

Context {OJ : OpenApiJson}.

(** [BlobError] is its text. *)
Definition oa_encode_decl (decl : OpenApiDecl) : DeclBlob := oa_decl_to_vec decl.

Definition oa_unsupported (what : string) (version : Z) : string :=
  "unsupported " +:+ what +:+ " blob_version " +:+ fmt_Z version +:+ " (max " +:+ fmt_Z OA_BLOB_VERSION +:+ ")".

Definition oa_decode_decl (blob : DeclBlob) : outcome string OpenApiDecl :=
  decl ← map_err (λ e, "OpenApiDecl: " +:+ e)%string (oa_decl_from_slice blob);
  _ ← fail_if (OA_BLOB_VERSION <? od_blob_version decl) (oa_unsupported "decl" (od_blob_version decl));
  Ok decl.

Definition oa_encode_meta (meta : DocumentMetadataBlob) : MetaBlob := oa_meta_to_vec meta.

Definition oa_decode_meta (meta : MetaBlob) : outcome string DocumentMetadataBlob :=
  match meta with
  | [] => Ok document_metadata_default
  | _ =>
    doc ← map_err (λ e, "DocumentMetadataBlob: " +:+ e)%string (oa_meta_from_slice meta);
    _ ← fail_if (OA_BLOB_VERSION <? dm_blob_version doc) (oa_unsupported "meta" (dm_blob_version doc));
    Ok doc
  end.

(** ** What [serde_json] promises

    JSON has no infinities and no NaN: they are written as [null], which reads
    back as an absent value. Without its feature [float_roundtrip] the number that
    a finite one reads back as may be another ([oa_json_f64]). Everything else reads
    back as it was written. *)

Section Reread.
Context (number : f64 → f64).

Definition reread_number (x : option f64) : option f64 :=
  x ← x; if f64_is_finite x then Some (number x) else None.

Definition reread_def_with {S} (reread : S → S) (d : SchemaDefOf S) : SchemaDefOf S :=
  {| js_types := js_types d; js_format := js_format d; js_min_length := js_min_length d;
     js_max_length := js_max_length d; js_pattern := js_pattern d;
     js_minimum := reread_number (js_minimum d); js_maximum := reread_number (js_maximum d);
     js_exclusive_minimum := js_exclusive_minimum d; js_exclusive_maximum := js_exclusive_maximum d;
     js_multiple_of := reread_number (js_multiple_of d); js_items := reread <$> js_items d;
     js_min_items := js_min_items d; js_max_items := js_max_items d; js_unique_items := js_unique_items d;
     js_properties := (λ p, mkProperty (pr_name p) (reread <$> pr_schema p)) <$> js_properties d;
     js_required := js_required d;
     js_additional_properties_allowed := js_additional_properties_allowed d;
     js_additional_properties_schema := reread <$> js_additional_properties_schema d;
     js_min_properties := js_min_properties d; js_max_properties := js_max_properties d;
     js_all_of := reread <$> js_all_of d; js_any_of := reread <$> js_any_of d;
     js_one_of := reread <$> js_one_of d; js_not := reread <$> js_not d;
     js_enum_values := js_enum_values d; js_const_value := js_const_value d; js_title := js_title d;
     js_description := js_description d; js_default := js_default d; js_deprecated := js_deprecated d;
     js_read_only := js_read_only d; js_write_only := js_write_only d; js_extensions := js_extensions d |}.

Fixpoint reread_schema (s : SchemaOrRef) : SchemaOrRef :=
  match s with
  | SchemaInline d => SchemaInline (reread_def_with reread_schema d)
  | SchemaByRef r => SchemaByRef r
  end.

End Reread.

(** A change of every schema in a declaration, on whatever path it is. *)
Section MapSchemas.
Context (f : SchemaOrRef → SchemaOrRef).

Definition map_param_def (p : ParameterDef) : ParameterDef :=
  mkParameterDef (pm_name p) (pm_location p) (pm_description p) (pm_required p) (pm_deprecated p)
    (f <$> pm_schema p) (pm_extensions p).

Definition map_param (p : ParameterOrRef) : ParameterOrRef :=
  match p with ParamInline p => ParamInline (map_param_def p) | ParamByRef r => ParamByRef r end.

Definition map_media (e : MediaTypeEntry) : MediaTypeEntry :=
  mkMediaTypeEntry (mt_media_type e) (f <$> mt_schema e) (mt_extensions e).

Definition map_body_def (b : RequestBodyDef) : RequestBodyDef :=
  mkRequestBodyDef (rb_description b) (rb_required b) (map_media <$> rb_content b) (rb_extensions b).

Definition map_body (b : RequestBodyOrRef) : RequestBodyOrRef :=
  match b with BodyInline b => BodyInline (map_body_def b) | BodyByRef r => BodyByRef r end.

Definition map_header (h : HeaderDef) : HeaderDef :=
  mkHeaderDef (hd_name h) (hd_description h) (hd_required h) (f <$> hd_schema h).

Definition map_response_def (r : ResponseDef) : ResponseDef :=
  mkResponseDef (rs_description r) (map_media <$> rs_content r) (map_header <$> rs_headers r) (rs_extensions r).

Definition map_response (r : ResponseOrRef) : ResponseOrRef :=
  match r with ResponseInline r => ResponseInline (map_response_def r) | ResponseByRef r => ResponseByRef r end.

Definition map_entry (e : ResponseEntry) : ResponseEntry :=
  mkResponseEntry (re_status_code e) (map_response <$> re_response e).

Definition map_operation (o : OperationDef) : OperationDef :=
  mkOperationDef (od_method o) (od_operation_id o) (od_summary o) (od_description o) (od_tags o)
    (map_param <$> od_parameters o) (map_body <$> od_request_body o) (map_entry <$> od_responses o)
    (od_deprecated o) (od_extensions o).

Definition map_payload (def : JsonSchemaDef → JsonSchemaDef) (p : OpenApiPayload) : OpenApiPayload :=
  match p with
  | OaPathItem b =>
    OaPathItem (mkPathItem (pi_path_pattern b) (pi_summary b) (pi_description b) (map_param <$> pi_parameters b)
                  (map_operation <$> pi_operations b) (pi_extensions b))
  | OaComponentSchema b => OaComponentSchema (mkComponentSchema (cs_name b) (def <$> cs_schema b) (cs_extensions b))
  | OaComponentParameter b => OaComponentParameter (mkComponentParameter (cpm_name b) (map_param_def <$> cpm_parameter b))
  | OaComponentResponse b => OaComponentResponse (mkComponentResponse (crs_name b) (map_response_def <$> crs_response b))
  | OaComponentRequestBody b =>
    OaComponentRequestBody (mkComponentRequestBody (crb_name b) (map_body_def <$> crb_request_body b))
  end.

End MapSchemas.

Definition reread_oa_payload (number : f64 → f64) (p : OpenApiPayload) : OpenApiPayload :=
  map_payload (reread_schema number) (reread_def_with number (reread_schema number)) p.

Class OpenApiJsonLaws : Prop := {
  oa_decl_reads_back d :
    oa_decl_from_slice (oa_decl_to_vec d) = Ok (mkOpenApiDecl (od_blob_version d) (reread_oa_payload oa_json_f64 (od_kind d)));
  oa_meta_reads_back m : oa_meta_from_slice (oa_meta_to_vec m) = Ok m;
  oa_meta_not_empty m : oa_meta_to_vec m ≠ [];
}.

Context {OL : OpenApiJsonLaws}.

Lemma oa_decode_encode p :
  oa_decode_decl (oa_encode_decl (openapi_decl_new p)) = Ok (openapi_decl_new (reread_oa_payload oa_json_f64 p)).
Proof. unfold oa_decode_decl, oa_encode_decl. by rewrite oa_decl_reads_back. Qed.

End Schemas.

Arguments OpenApiJsonLaws {F64 OJ}.
Arguments OpenApiJson {F64}.
Arguments SchemaDefOf {F64} S.
Arguments mkSchemaDef {F64 S}.
Arguments SchemaOrRef {F64}.

(** * component references

    [crates/schemahub-compiler-openapi/src/reference.rs]: parsing and rendering of
    [$ref] values; and the part of [lib.rs] that collects the references of a
    declaration. A collector takes [&mut Vec<TypeRef>] and only pushes, so here it
    returns what it pushes; the callers drop the vector when it fails. *)
Inductive ComponentReference :=
  | LocalRef (name : string)
  | ExternalRef (import : ExternalImport).

(** ** JSON Pointer segments *)

(** The loop over the characters; [~] and the digits are single bytes, so the
    other characters are copied byte by byte. *)
Fixpoint unescape (encoded : string) : outcome string string :=
  match encoded with
  | EmptyString => Ok ""%string
  | String c rest =>
    if bool_decide (c = "~"%char) then
      match rest with
      | EmptyString => Err "OpenAPI component reference ends with an incomplete JSON Pointer escape"%string
      | String d rest' =>
        if bool_decide (d = "0"%char) then decoded ← unescape rest'; Ok (String "~" decoded)
        else if bool_decide (d = "1"%char) then decoded ← unescape rest'; Ok (String "/" decoded)
        else Err ("OpenAPI component reference contains invalid JSON Pointer escape ~" +:+
                  String.string_of_list_byte (default [] (head (chars rest))))%string
      end
    else decoded ← unescape rest; Ok (String c decoded)
  end.

Definition decode_component_name (encoded : string) : outcome string string :=
  _ ← fail_if (str_is_empty encoded || contains_char "/" encoded || contains_char "#" encoded)
        "OpenAPI component reference must name exactly one component"%string;
  unescape encoded.

Definition encode_pointer_segment (name : string) : string :=
  replace_char "/" "~1" (replace_char "~" "~0" name).

(** ** References *)

Section Refs.
Context {RF : RustFmt}.

Definition validate_schemahub_path (path reference : string) : outcome string unit :=
  fail_if (str_is_empty path || starts_with "/" path || contains_char ":" path || contains_char "?" path ||
           contains_char BACKSLASH path || existsb (λ c, is_control c || is_whitespace c) (chars path) ||
           existsb str_is_empty (split_char "/" path))
    ("external OpenAPI $ref " +:+ debug_str reference +:+ " must use a relative schema path or " +:+
     "project/repository/schema logical path (URLs, absolute paths, queries, " +:+
     "whitespace, and backslashes are unsupported)")%string.

(** The reference after its [#]. *)
Definition parse_external_reference (reference component path fragment : string) :
    outcome string ComponentReference :=
  _ ← validate_schemahub_path path reference;
  let external_prefix := ("/components/" +:+ component +:+ "/")%string in
  encoded_name ← ok_or (strip_prefix external_prefix fragment)
    ("unsupported external OpenAPI $ref " +:+ debug_str reference +:+ ": expected fragment " +:+
     external_prefix +:+ "<name>")%string;
  decl_name ← decode_component_name encoded_name;
  Ok (ExternalRef (mkExternalImport path "" decl_name)).

Definition parse_source_component_reference (reference component : string) : outcome string ComponentReference :=
  let local_prefix := ("#/components/" +:+ component +:+ "/")%string in
  match strip_prefix local_prefix reference with
  | Some encoded_name => LocalRef <$> decode_component_name encoded_name
  | None =>
    _ ← fail_if (starts_with "#" reference)
          ("unsupported OpenAPI $ref " +:+ debug_str reference +:+ ": expected " +:+ local_prefix +:+ "<name>")%string;
    '(path, fragment) ← ok_or (split_once "#" reference)
      ("unsupported external OpenAPI $ref " +:+ debug_str reference +:+
       ": expected <schema-path>#/components/" +:+ component +:+ "/<name>")%string;
    parse_external_reference reference component path fragment
  end.

Definition parse_stored_component_reference (stored component : string) : outcome string ComponentReference :=
  if contains_char "#" stored then parse_source_component_reference stored component
  else if str_is_empty stored || has_control stored then
    Err "stored OpenAPI component reference is empty or contains control characters"%string
  else Ok (LocalRef stored).

Definition render_component_reference (reference : ComponentReference) (component : string) : string :=
  match reference with
  | LocalRef name => "#/components/" +:+ component +:+ "/" +:+ encode_pointer_segment name
  | ExternalRef import =>
    ei_path import +:+ "#/components/" +:+ component +:+ "/" +:+ encode_pointer_segment (ei_decl_name import)
  end.

Definition parse_stored_schema_reference (reference : SchemaRef) : outcome string ComponentReference :=
  match sr_external_import reference with
  | None => parse_stored_component_reference (sr_local_name reference) "schemas"
  | Some external =>
    let rendered := render_component_reference (ExternalRef external) "schemas" in
    parsed ← parse_source_component_reference rendered "schemas";
    match parsed with
    | ExternalRef validated =>
      Ok (ExternalRef (mkExternalImport (ei_path validated) (ei_resolved_commit external) (ei_decl_name validated)))
    | LocalRef _ => Err "stored external OpenAPI schema reference decoded as local"%string
    end
  end.

Definition render_stored_component_reference (stored component : string) : string :=
  match parse_stored_component_reference stored component with
  | Ok reference => render_component_reference reference component
  | _ => stored
  end.

(** ** The references of a declaration *)

Context {F64 : RustF64}.

Definition push_component_ref (reference : ComponentReference) (declaration_prefix : string) : TypeRef :=
  match reference with
  | LocalRef decl_name => type_ref_new (declaration_prefix +:+ ":" +:+ decl_name)
  | ExternalRef external =>
    let decl_name := (declaration_prefix +:+ ":" +:+ ei_decl_name external)%string in
    mkTypeRef decl_name (Some (mkImport (ei_path external) (ei_resolved_commit external) decl_name))
  end.

Definition collect_named_component_ref (stored component declaration_prefix : string) : outcome string (list TypeRef) :=
  reference ← parse_stored_component_reference stored component;
  Ok [push_component_ref reference declaration_prefix].

(** Collecting over a list and over an option. *)
Definition collect_all {A} (f : A → outcome string (list TypeRef)) : list A → outcome string (list TypeRef) :=
  fix go l :=
    match l with
    | [] => Ok []
    | a :: l => refs ← f a; rest ← go l; Ok (refs ++ rest)
    end.

Definition collect_opt {A} (f : A → outcome string (list TypeRef)) (o : option A) : outcome string (list TypeRef) :=
  match o with Some a => f a | None => Ok [] end.

Definition collect_schema_def_with {S} (collect : S → outcome string (list TypeRef)) (schema : SchemaDefOf S) :
    outcome string (list TypeRef) :=
  items ← collect_opt collect (js_items schema);
  properties ← collect_all (λ p, collect_opt collect (pr_schema p)) (js_properties schema);
  all_of ← collect_all collect (js_all_of schema);
  any_of ← collect_all collect (js_any_of schema);
  one_of ← collect_all collect (js_one_of schema);
  not ← collect_opt collect (js_not schema);
  additional ← collect_opt collect (js_additional_properties_schema schema);
  Ok (items ++ properties ++ all_of ++ any_of ++ one_of ++ not ++ additional).

Fixpoint collect_schema_refs (schema : SchemaOrRef) : outcome string (list TypeRef) :=
  match schema with
  | SchemaByRef reference =>
    reference ← parse_stored_schema_reference reference;
    Ok [push_component_ref reference "schema"]
  | SchemaInline def => collect_schema_def_with collect_schema_refs def
  end.

Definition collect_schema_def_refs (schema : JsonSchemaDef) : outcome string (list TypeRef) :=
  collect_schema_def_with collect_schema_refs schema.

Definition collect_media_type_refs (entry : MediaTypeEntry) : outcome string (list TypeRef) :=
  collect_opt collect_schema_refs (mt_schema entry).

Definition collect_parameter_def_refs (parameter : ParameterDef) : outcome string (list TypeRef) :=
  collect_opt collect_schema_refs (pm_schema parameter).

Definition collect_parameter_refs (parameter : ParameterOrRef) : outcome string (list TypeRef) :=
  match parameter with
  | ParamInline parameter => collect_parameter_def_refs parameter
  | ParamByRef reference => collect_named_component_ref reference "parameters" "param"
  end.

Definition collect_request_body_def_refs (body : RequestBodyDef) : outcome string (list TypeRef) :=
  collect_all collect_media_type_refs (rb_content body).

Definition collect_request_body_refs (body : RequestBodyOrRef) : outcome string (list TypeRef) :=
  match body with
  | BodyInline body => collect_request_body_def_refs body
  | BodyByRef reference => collect_named_component_ref reference "requestBodies" "requestBody"
  end.

Definition collect_response_def_refs (response : ResponseDef) : outcome string (list TypeRef) :=
  content ← collect_all collect_media_type_refs (rs_content response);
  headers ← collect_all (λ h, collect_opt collect_schema_refs (hd_schema h)) (rs_headers response);
  Ok (content ++ headers).

Definition collect_response_refs (response : ResponseOrRef) : outcome string (list TypeRef) :=
  match response with
  | ResponseInline response => collect_response_def_refs response
  | ResponseByRef reference => collect_named_component_ref reference "responses" "response"
  end.

(** The body of the loop over the operations of a path. *)
Definition collect_operation_refs (operation : OperationDef) : outcome string (list TypeRef) :=
  parameters ← collect_all collect_parameter_refs (od_parameters operation);
  body ← collect_opt collect_request_body_refs (od_request_body operation);
  responses ← collect_all (λ r, collect_opt collect_response_refs (re_response r)) (od_responses operation);
  Ok (parameters ++ body ++ responses).

Definition collect_type_refs (payload : OpenApiPayload) : outcome string (list TypeRef) :=
  match payload with
  | OaPathItem path =>
    parameters ← collect_all collect_parameter_refs (pi_parameters path);
    operations ← collect_all collect_operation_refs (pi_operations path);
    Ok (parameters ++ operations)
  | OaComponentSchema component => collect_opt collect_schema_def_refs (cs_schema component)
  | OaComponentParameter component => collect_opt collect_parameter_def_refs (cpm_parameter component)
  | OaComponentResponse component => collect_opt collect_response_def_refs (crs_response component)
  | OaComponentRequestBody component => collect_opt collect_request_body_def_refs (crb_request_body component)
  end.

(** ** Duplicates *)

Definition type_ref_identity (reference : TypeRef) : string * string * string * string :=
  match tr_import reference with
  | Some import => (tr_name reference, im_path import, im_resolved_commit import, im_decl_name import)
  | None => (tr_name reference, ""%string, ""%string, ""%string)
  end.

(** [retain(|r| seen.insert(identity(r)))]. *)
Fixpoint dedupe_from (seen : gset (string * string * string * string)) (refs : list TypeRef) : list TypeRef :=
  match refs with
  | [] => []
  | r :: refs =>
    if bool_decide (type_ref_identity r ∈ seen) then dedupe_from seen refs
    else r :: dedupe_from ({[ type_ref_identity r ]} ∪ seen) refs
  end.

Definition dedupe_type_refs (refs : list TypeRef) : list TypeRef := dedupe_from ∅ refs.

End Refs.
