(* ===== verification/OpenApiParser.v ===== *)
(** * OpenApiParser: from YAML values to declarations

    [crates/schemahub-compiler-openapi/src/parser.rs]. The crate [serde_yaml] is
    the class [Yaml]: a type of values with the methods that the sources call. A
    mapping is the list of its entries in order. Schemas nest, so their parser has
    fuel: the height of the value is enough. *)
From S2P Require Import Prelude RustStd SchemaTypes OpenApiAst.
From Stdlib Require Import Strings.Byte Ascii.

Open Scope Z_scope.

(** ** [serde_yaml] *)

Class Yaml {F64 : RustF64} := {
  yaml : Type;
  yaml_from_str : string → outcome string yaml;
  as_str : yaml → option string;
  as_bool : yaml → option bool;
  yaml_as_u64 : yaml → option Z;
  as_f64 : yaml → option f64;
  as_sequence : yaml → option (list yaml);
  as_mapping : yaml → option (list (yaml * yaml));
  (** [Mapping::get] with a [&str]. *)
  map_get : list (yaml * yaml) → string → option yaml;
  (** The patterns [Value::String(s)] and [Value::Number(n)], with [n.to_string()]. *)
  string_value : yaml → option string;
  number_value : yaml → option string;
  (** [serde_json::to_string] of a value and [to_vec] of a mapping. *)
  yaml_to_json : yaml → outcome string string;
  mapping_to_json : list (yaml * yaml) → outcome string (list byte);
  (** The number of nested sequences and mappings. *)
  yaml_height : yaml → nat;
}.
Arguments Yaml : clear implicits.

(** Values are finite trees: what a sequence or a mapping holds is smaller, and
    [get] gives one of the values. *)
Class YamlLaws {F64} (Y : Yaml F64) : Prop := {
  sequence_smaller v l x : as_sequence v = Some l → x ∈ l → (yaml_height x < yaml_height v)%nat;
  mapping_smaller v m kv : as_mapping v = Some m → kv ∈ m → (yaml_height kv.2 < yaml_height v)%nat;
  map_get_elem m key v : map_get m key = Some v → ∃ k, (k, v) ∈ m;
}.

(** ** Helpers *)

(** [Option::map(f).transpose()]. *)
Definition traverse_opt {E A B} (f : A → outcome E B) (o : option A) : outcome E (option B) :=
  match o with Some a => Some <$> f a | None => Ok None end.

(** [iter().enumerate().map(f).collect::<Result<Vec<_>, _>>()]. *)
Fixpoint collect_indexed {E A B} (f : nat → A → outcome E B) (i : nat) (l : list A) : outcome E (list B) :=
  match l with
  | [] => Ok []
  | a :: l => b ← f i a; bs ← collect_indexed f (S i) l; Ok (b :: bs)
  end.

Section Parser.
Context {F64 : RustF64} {Y : Yaml F64} {RF : RustFmt}.

(** A [serde_yaml::Mapping]. *)
Definition ymapping : Type := list (yaml * yaml).

Definition mapping (value : yaml) (context : string) : outcome ParseError ymapping :=
  ok_or (as_mapping value) (ParseOther (context +:+ " must be an object")).

Definition optional_mapping (map : ymapping) (field context : string) : outcome ParseError (option ymapping) :=
  traverse_opt (λ value, mapping value (context +:+ "." +:+ field)) (map_get map field).

Definition parse_optional_array (value : option yaml) (context : string) : outcome ParseError (list yaml) :=
  match value with
  | Some value => ok_or (as_sequence value) (ParseOther (context +:+ " must be an array"))
  | None => Ok []
  end.

Definition required_string (map : ymapping) (field context : string) : outcome ParseError string :=
  ok_or (map_get map field ≫= as_str) (ParseOther (context +:+ "." +:+ field +:+ " must be a string")).

Definition optional_string (map : ymapping) (field context : string) : outcome ParseError (option string) :=
  match map_get map field with
  | Some value => ok_or (Some <$> as_str value) (ParseOther (context +:+ "." +:+ field +:+ " must be a string"))
  | None => Ok None
  end.

Definition string_key (key : yaml) (context : string) : outcome ParseError string :=
  ok_or (as_str key) (ParseOther (context +:+ " key must be a string")).

Definition oa_get_ref (val : yaml) : outcome ParseError (option string) :=
  match as_mapping val with
  | None => Ok None
  | Some map =>
    match map_get map "$ref" with
    | None => Ok None
    | Some reference =>
      _ ← fail_if (negb (bool_decide (length map = 1%nat)))
            (ParseOther "'$ref' objects with sibling fields are outside the selected OpenAPI AST surface");
      reference ← ok_or (s ← as_str reference; if str_is_empty s then None else Some s)
                    (ParseOther "'$ref' must be a non-empty string");
      Ok (Some reference)
    end
  end.

Definition reject_standalone_reference (val : yaml) (context : string) : outcome ParseError unit :=
  r ← oa_get_ref val;
  match r with
  | Some reference =>
    Err (ParseOther (context +:+ " uses standalone $ref " +:+ debug_str reference +:+
                     ", which is outside the selected OpenAPI AST surface"))
  | None => Ok tt
  end.

Definition json_value_to_string (value : yaml) (context : string) : outcome ParseError string :=
  map_err (λ e, ParseOther (context +:+ " is not valid JSON: " +:+ e)) (yaml_to_json value).

Definition is_extension (kv : yaml * yaml) : bool :=
  match as_str kv.1 with Some s => starts_with "x-" s | None => false end.

Definition extract_extensions (map : ymapping) (context : string) : outcome ParseError (option Extensions) :=
  match List.filter is_extension map with
  | [] => Ok None
  | ext_map =>
    json_bytes ← map_err (λ e, ParseOther (context +:+ " extensions are not valid JSON: " +:+ e))
                   (mapping_to_json ext_map);
    Ok (Some (mkExtensions json_bytes))
  end.

Definition response_key_to_string (val : yaml) : outcome ParseError string :=
  match string_value val with
  | Some s => Ok s
  | None =>
    ok_or (number_value val) (ParseOther "response status key must be a string or number")
  end.

(** A field that is a text, a flag, a length or a number; anything else counts as
    absent. *)
Definition text_field (map : ymapping) (field : string) : option string := map_get map field ≫= as_str.
Definition flag_field (map : ymapping) (field : string) : option bool := map_get map field ≫= as_bool.
Definition u64_field (map : ymapping) (field : string) : option Z := map_get map field ≫= yaml_as_u64.
Definition f64_field (map : ymapping) (field : string) : option f64 := map_get map field ≫= as_f64.

(** Texts in an array. *)
Definition string_items (context : string) (l : list yaml) : outcome ParseError (list string) :=
  collect_indexed (λ index value,
    ok_or (as_str value) (ParseOther (context +:+ "[" +:+ fmt_Z (Z.of_nat index) +:+ "] must be a string"))) 0 l.

(** ** Schemas *)

Definition parse_schema_type (s : string) : outcome ParseError JsonSchemaType :=
  map_err (λ e, ParseOther (fmt_unknown_variant e)) (schema_type_from_str s).

Definition parse_types (type_val : option yaml) : outcome ParseError (list JsonSchemaType) :=
  match type_val with
  | None => Ok []
  | Some type_val =>
    match as_str type_val, as_sequence type_val with
    | Some s, _ => t ← parse_schema_type s; Ok [t]
    | None, Some seq =>
      collect_indexed (λ index value,
        schema_type ← ok_or (as_str value)
          (ParseOther ("JSON Schema type[" +:+ fmt_Z (Z.of_nat index) +:+ "] must be a string"));
        parse_schema_type schema_type) 0 seq
    | None, None => Err (ParseOther "JSON Schema 'type' must be a string or array of strings")
    end
  end.

Definition parse_properties {S} (parse : yaml → outcome ParseError S) (map : ymapping) :
    outcome ParseError (list (PropertyOf S)) :=
  pm ← optional_mapping map "properties" "JSON Schema";
  mapM (λ '(key, value),
    name ← string_key key "JSON Schema properties";
    schema ← parse value;
    Ok (mkProperty name (Some schema))) (default [] pm).

Definition parse_additional {S} (parse : yaml → outcome ParseError S) (value : option yaml) :
    outcome ParseError (option bool * option S) :=
  match value with
  | None => Ok (None, None)
  | Some ap =>
    match as_bool ap with
    | Some b => Ok (Some b, None)
    | None => schema ← parse ap; Ok (None, Some schema)
    end
  end.

Definition parse_array_with {S} (parse : yaml → outcome ParseError S) (value : option yaml) (context : string) :
    outcome ParseError (list S) :=
  l ← parse_optional_array value context;
  mapM parse l.

Definition parse_schema_def_with {S} (parse : yaml → outcome ParseError S) (val : yaml) :
    outcome ParseError (SchemaDefOf S) :=
  _ ← reject_standalone_reference val "component schema definition";
  map ← mapping val "JSON Schema";
  types ← parse_types (map_get map "type");
  items ← traverse_opt parse (map_get map "items");
  properties ← parse_properties parse map;
  required_items ← parse_optional_array (map_get map "required") "JSON Schema required";
  required ← string_items "JSON Schema required" required_items;
  '(allowed, additional) ← parse_additional parse (map_get map "additionalProperties");
  all_of ← parse_array_with parse (map_get map "allOf") "JSON Schema allOf";
  any_of ← parse_array_with parse (map_get map "anyOf") "JSON Schema anyOf";
  one_of ← parse_array_with parse (map_get map "oneOf") "JSON Schema oneOf";
  not ← traverse_opt parse (map_get map "not");
  enum_items ← parse_optional_array (map_get map "enum") "JSON Schema enum";
  enum_values ← mapM (λ value, json_value_to_string value "JSON Schema enum value") enum_items;
  const_value ← traverse_opt (λ value, json_value_to_string value "JSON Schema const") (map_get map "const");
  default_value ← traverse_opt (λ value, json_value_to_string value "JSON Schema default") (map_get map "default");
  extensions ← extract_extensions map "JSON Schema";
  Ok {|
    js_types := types;
    js_format := text_field map "format";
    js_min_length := u64_field map "minLength";
    js_max_length := u64_field map "maxLength";
    js_pattern := text_field map "pattern";
    js_minimum := f64_field map "minimum";
    js_maximum := f64_field map "maximum";
    js_exclusive_minimum := flag_field map "exclusiveMinimum";
    js_exclusive_maximum := flag_field map "exclusiveMaximum";
    js_multiple_of := f64_field map "multipleOf";
    js_items := items;
    js_min_items := u64_field map "minItems";
    js_max_items := u64_field map "maxItems";
    js_unique_items := flag_field map "uniqueItems";
    js_properties := properties;
    js_required := required;
    js_additional_properties_allowed := allowed;
    js_additional_properties_schema := additional;
    js_min_properties := u64_field map "minProperties";
    js_max_properties := u64_field map "maxProperties";
    js_all_of := all_of;
    js_any_of := any_of;
    js_one_of := one_of;
    js_not := not;
    js_enum_values := enum_values;
    js_const_value := const_value;
    js_title := text_field map "title";
    js_description := text_field map "description";
    js_default := default_value;
    js_deprecated := flag_field map "deprecated";
    js_read_only := flag_field map "readOnly";
    js_write_only := flag_field map "writeOnly";
    js_extensions := extensions;
  |}.

(** A parsed reference to a component, as a schema keeps it. *)
Definition schema_ref_of (reference : ComponentReference) : SchemaRef :=
  match reference with
  | LocalRef local_name => mkSchemaRef local_name None
  | ExternalRef import => mkSchemaRef "" (Some import)
  end.

Fixpoint parse_schema_or_ref_fuel (fuel : nat) (val : yaml) : outcome ParseError SchemaOrRef :=
  match fuel with
  | O => Stuck
  | S fuel =>
    r ← oa_get_ref val;
    match r with
    | Some ref_str =>
      reference ← map_err ParseOther (parse_source_component_reference ref_str "schemas");
      Ok (SchemaByRef (schema_ref_of reference))
    | None => SchemaInline <$> parse_schema_def_with (parse_schema_or_ref_fuel fuel) val
    end
  end.

Definition parse_schema_or_ref (val : yaml) : outcome ParseError SchemaOrRef :=
  parse_schema_or_ref_fuel (S (yaml_height val)) val.

Definition parse_schema_def (val : yaml) : outcome ParseError JsonSchemaDef :=
  parse_schema_def_with parse_schema_or_ref val.

(** ** Parameters, bodies and responses *)

(** A local reference is kept as the decoded name, an external one as it is. *)
Definition stored_ref (ref_str component : string) : outcome ParseError string :=
  reference ← map_err ParseOther (parse_source_component_reference ref_str component);
  Ok match reference with LocalRef name => name | ExternalRef _ => ref_str end.

Definition parse_parameter_def (val : yaml) : outcome ParseError ParameterDef :=
  _ ← reject_standalone_reference val "parameter";
  map ← mapping val "parameter";
  name ← required_string map "name" "parameter";
  location_str ← required_string map "in" "parameter";
  location ← map_err (λ e, ParseOther (fmt_unknown_variant e)) (location_from_str location_str);
  description ← optional_string map "description" "parameter";
  schema ← traverse_opt parse_schema_or_ref (map_get map "schema");
  extensions ← extract_extensions map "parameter";
  Ok (mkParameterDef name location description (default false (flag_field map "required"))
        (flag_field map "deprecated") schema extensions).

Definition parse_parameter_or_ref (val : yaml) : outcome ParseError ParameterOrRef :=
  r ← oa_get_ref val;
  match r with
  | Some ref_str => ParamByRef <$> stored_ref ref_str "parameters"
  | None => ParamInline <$> parse_parameter_def val
  end.

Definition parse_media_type (kv : yaml * yaml) : outcome ParseError MediaTypeEntry :=
  media_type ← string_key kv.1 "content";
  let context := ("media type " +:+ debug_str media_type)%string in
  media_map ← mapping kv.2 context;
  schema ← traverse_opt parse_schema_or_ref (map_get media_map "schema");
  extensions ← extract_extensions media_map context;
  Ok (mkMediaTypeEntry media_type schema extensions).

Definition parse_content (val : option yaml) : outcome ParseError (list MediaTypeEntry) :=
  match val with
  | None => Ok []
  | Some value =>
    content ← mapping value "content";
    mapM parse_media_type content
  end.

Definition parse_request_body_def (val : yaml) : outcome ParseError RequestBodyDef :=
  _ ← reject_standalone_reference val "request body";
  map ← mapping val "request body";
  description ← optional_string map "description" "request body";
  content ← parse_content (map_get map "content");
  extensions ← extract_extensions map "request body";
  Ok (mkRequestBodyDef description (default false (flag_field map "required")) content extensions).

Definition parse_request_body_or_ref (val : yaml) : outcome ParseError RequestBodyOrRef :=
  r ← oa_get_ref val;
  match r with
  | Some ref_str => BodyByRef <$> stored_ref ref_str "requestBodies"
  | None => BodyInline <$> parse_request_body_def val
  end.

Definition parse_header (kv : yaml * yaml) : outcome ParseError HeaderDef :=
  name ← string_key kv.1 "response.headers";
  r ← oa_get_ref kv.2;
  let context := ("response header " +:+ debug_str name)%string in
  _ ← fail_if (is_some r) (ParseOther (context +:+ " uses an unsupported reference"));
  hmap ← mapping kv.2 context;
  description ← optional_string hmap "description" context;
  schema ← traverse_opt parse_schema_or_ref (map_get hmap "schema");
  Ok (mkHeaderDef name description (flag_field hmap "required") schema).

Definition parse_response_def (val : yaml) : outcome ParseError ResponseDef :=
  _ ← reject_standalone_reference val "response";
  map ← mapping val "response";
  description ← required_string map "description" "response";
  content ← parse_content (map_get map "content");
  hm ← optional_mapping map "headers" "response";
  headers ← mapM parse_header (default [] hm);
  extensions ← extract_extensions map "response";
  Ok (mkResponseDef description content headers extensions).

Definition parse_response_or_ref (val : yaml) : outcome ParseError ResponseOrRef :=
  r ← oa_get_ref val;
  match r with
  | Some ref_str => ResponseByRef <$> stored_ref ref_str "responses"
  | None => ResponseInline <$> parse_response_def val
  end.

(** ** Paths *)

Definition parse_response_entry (kv : yaml * yaml) : outcome ParseError ResponseEntry :=
  status_code ← response_key_to_string kv.1;
  response ← parse_response_or_ref kv.2;
  Ok (mkResponseEntry status_code (Some response)).

Definition parse_parameters (map : ymapping) (context : string) : outcome ParseError (list ParameterOrRef) :=
  l ← parse_optional_array (map_get map "parameters") (context +:+ ".parameters");
  mapM parse_parameter_or_ref l.

Definition parse_operation_def (method : HttpMethod) (val : yaml) : outcome ParseError OperationDef :=
  let context := (method_to_str method +:+ " operation")%string in
  map ← mapping val context;
  tag_items ← parse_optional_array (map_get map "tags") (context +:+ ".tags");
  tags ← string_items (context +:+ ".tags") tag_items;
  parameters ← parse_parameters map context;
  request_body ← traverse_opt parse_request_body_or_ref (map_get map "requestBody");
  response_map ← optional_mapping map "responses" context;
  responses ← mapM parse_response_entry (default [] response_map);
  extensions ← extract_extensions map context;
  Ok (mkOperationDef method (text_field map "operationId") (text_field map "summary")
        (text_field map "description") tags parameters request_body responses
        (flag_field map "deprecated") extensions).

Definition http_methods : list string :=
  ["get"; "post"; "put"; "delete"; "patch"; "head"; "options"; "trace"]%string.

(** The loop over the methods. *)
Fixpoint parse_operations (map : ymapping) (methods : list string) : outcome ParseError (list OperationDef) :=
  match methods with
  | [] => Ok []
  | method_str :: methods =>
    match map_get map method_str with
    | None => parse_operations map methods
    | Some op_val =>
      match method_from_str method_str with
      | Ok method =>
        op ← parse_operation_def method op_val;
        ops ← parse_operations map methods;
        Ok (op :: ops)
      | _ => Panic
      end
    end
  end.

Definition parse_path_item (path : string) (val : yaml) : outcome ParseError PathItemBlob :=
  let context := ("path " +:+ debug_str path)%string in
  _ ← reject_standalone_reference val context;
  map ← mapping val context;
  parameters ← parse_parameters map context;
  extensions ← extract_extensions map context;
  operations ← parse_operations map http_methods;
  Ok (mkPathItem path (text_field map "summary") (text_field map "description") parameters operations extensions).

(** ** The document *)

Definition parse_info_object (info : option yaml) : outcome ParseError InfoObject :=
  info_map ← ok_or (info ≫= as_mapping) (ParseOther "missing 'info' object");
  title ← ok_or (text_field info_map "title") (ParseOther "missing 'info.title'");
  version ← ok_or (text_field info_map "version") (ParseOther "missing 'info.version'");
  Ok (mkInfoObject title (text_field info_map "description") version (text_field info_map "termsOfService")).

Definition parse_servers (servers : option yaml) : outcome ParseError (list ServerObject) :=
  match servers with
  | None => Ok []
  | Some value =>
    sequence ← ok_or (as_sequence value) (ParseOther "'servers' must be an array");
    collect_indexed (λ index server,
      let context := ("servers[" +:+ fmt_Z (Z.of_nat index) +:+ "]")%string in
      map ← mapping server context;
      url ← required_string map "url" context;
      description ← optional_string map "description" context;
      Ok (mkServerObject url description)) 0 sequence
  end.

Context {OJ : OpenApiJson}.

(** The declarations of one section of the document: a key for each entry, and
    the blob of its payload. *)
Definition parse_section (prefix context : string) (parse : string → yaml → outcome ParseError OpenApiPayload)
    (entries : ymapping) : outcome ParseError (list (string * DeclBlob)) :=
  mapM (λ '(key, value),
    name ← string_key key context;
    payload ← parse name value;
    Ok ((prefix +:+ name)%string, oa_encode_decl (openapi_decl_new payload))) entries.

Definition parse_component_schema (name : string) (val : yaml) : outcome ParseError OpenApiPayload :=
  def ← parse_schema_def val;
  Ok (OaComponentSchema (mkComponentSchema name (Some def) None)).

Definition parse_component_parameter (name : string) (val : yaml) : outcome ParseError OpenApiPayload :=
  parameter ← parse_parameter_def val;
  Ok (OaComponentParameter (mkComponentParameter name (Some parameter))).

Definition parse_component_response (name : string) (val : yaml) : outcome ParseError OpenApiPayload :=
  response ← parse_response_def val;
  Ok (OaComponentResponse (mkComponentResponse name (Some response))).

Definition parse_component_request_body (name : string) (val : yaml) : outcome ParseError OpenApiPayload :=
  body ← parse_request_body_def val;
  Ok (OaComponentRequestBody (mkComponentRequestBody name (Some body))).

Definition parse_components (components : ymapping) : outcome ParseError (list (string * DeclBlob)) :=
  schemas ← optional_mapping components "schemas" "components";
  schema_decls ← parse_section "schema:" "components.schemas" parse_component_schema (default [] schemas);
  params ← optional_mapping components "parameters" "components";
  param_decls ← parse_section "param:" "components.parameters" parse_component_parameter (default [] params);
  responses ← optional_mapping components "responses" "components";
  response_decls ← parse_section "response:" "components.responses" parse_component_response (default [] responses);
  bodies ← optional_mapping components "requestBodies" "components";
  body_decls ← parse_section "requestBody:" "components.requestBodies" parse_component_request_body (default [] bodies);
  Ok (schema_decls ++ param_decls ++ response_decls ++ body_decls).

Definition parse_document (root : yaml) : outcome ParseError ParsedSchema :=
  root_map ← ok_or (as_mapping root) (ParseOther "OpenAPI document must be a YAML/JSON mapping");
  openapi_version ← ok_or (text_field root_map "openapi") (ParseOther "missing 'openapi' field");
  _ ← fail_if (negb (starts_with "3." openapi_version)) (UnsupportedVersion openapi_version);
  info_obj ← parse_info_object (map_get root_map "info");
  servers ← parse_servers (map_get root_map "servers");
  extensions ← extract_extensions root_map "OpenAPI document";
  let metadata := mkDocumentMetadata OA_BLOB_VERSION openapi_version (Some info_obj) servers extensions in
  paths ← optional_mapping root_map "paths" "OpenAPI document";
  path_decls ← parse_section "path:" "paths" (λ path val, OaPathItem <$> parse_path_item path val) (default [] paths);
  components ← optional_mapping root_map "components" "OpenAPI document";
  component_decls ← match components with Some c => parse_components c | None => Ok [] end;
  Ok (mkParsedSchema (oa_encode_meta metadata) (path_decls ++ component_decls)).

Definition parse_openapi (source : string) : outcome ParseError ParsedSchema :=
  root ← map_err (SyntaxError 0) (yaml_from_str source);
  parse_document root.

End Parser.
