(* ===== verification/OpenApiPrinter.v ===== *)
(** * OpenApiPrinter: declarations as YAML

    [crates/schemahub-compiler-openapi/src/printer.rs]. *)
From S2P Require Import Prelude RustStd SchemaTypes OpenApiAst.
From Stdlib Require Import Strings.Byte Ascii.

Open Scope Z_scope.

Definition sp (n : nat) : string := str_repeat " " n.

Definition starts_with_digit (s : string) : bool :=
  match s with
  | EmptyString => false
  | String c _ => (N.leb 48 (N_of_ascii c)) && (N.leb (N_of_ascii c) 57)
  end.

(** Quote a YAML scalar that needs it. *)
Definition ys (s : string) : string :=
  if str_is_empty s || contains_str ": " s || starts_with "#" s || starts_with_digit s ||
     bool_decide (s = "true"%string) || bool_decide (s = "false"%string) || bool_decide (s = "null"%string)
  then quoted (replace_char DOUBLE_QUOTE (of_char BACKSLASH +:+ of_char DOUBLE_QUOTE)
                 (replace_char BACKSLASH (of_char BACKSLASH +:+ of_char BACKSLASH) s))
  else s.

Definition quote_reference (reference : string) : string := "'" +:+ replace_char "'" "''" reference +:+ "'".

(** A line [key: value] and a line [key:] at an indentation. *)
Definition kv_line (ip key value : string) : string := line (ip +:+ key +:+ ": " +:+ value).

Definition key_line (ip key : string) : string := line (ip +:+ key +:+ ":").

(** The text for an optional field, and for a list that is not empty. *)
Definition when_some {A} (o : option A) (f : A → string) : string :=
  match o with Some a => f a | None => ""%string end.

Definition section {A} (l : list A) (heading : string) (f : A → string) : string :=
  match l with [] => ""%string | _ => heading +:+ str_concat (f <$> l) end.

Definition deprecated_line (ip : string) (deprecated : option bool) : string :=
  if default false deprecated then kv_line ip "deprecated" "true" else "".

Section Printer.
Context {F64 : RustF64} {RF : RustFmt}.

(** ** Schemas *)

Definition print_types (ip : string) (types : list JsonSchemaType) : string :=
  match types with
  | [] => ""
  | [t] => kv_line ip "type" (schema_type_to_str t)
  | _ => key_line ip "type" +:+ str_concat ((λ t, line (ip +:+ "  - " +:+ schema_type_to_str t)) <$> types)
  end.

(** A list of schemas, each under a line with a dash. *)
Definition print_variants {S} (print : S → nat → string) (ip key : string) (indent : nat) (l : list S) : string :=
  section l (key_line ip key) (λ s, line (ip +:+ "  -") +:+ print s (indent + 4)%nat).

Definition print_schema_def_with {S} (print : S → nat → string) (schema : SchemaDefOf S) (indent : nat) : string :=
  let ip := sp indent in
  print_types ip (js_types schema) +:+
  when_some (js_title schema) (λ title, kv_line ip "title" (ys title)) +:+
  when_some (js_description schema) (λ desc, kv_line ip "description" (ys desc)) +:+
  when_some (js_format schema) (λ fmt, kv_line ip "format" (ys fmt)) +:+
  section (js_enum_values schema) (key_line ip "enum") (λ v, line (ip +:+ "  - " +:+ ys v)) +:+
  when_some (js_const_value schema) (λ cv, kv_line ip "const" (ys cv)) +:+
  section (js_properties schema) (key_line ip "properties")
    (λ prop, key_line (ip +:+ "  ") (pr_name prop) +:+
             when_some (pr_schema prop) (λ s, print s (indent + 4)%nat)) +:+
  section (js_required schema) (key_line ip "required") (λ r, line (ip +:+ "  - " +:+ ys r)) +:+
  when_some (js_items schema) (λ items, key_line ip "items" +:+ print items (indent + 2)%nat) +:+
  print_variants print ip "allOf" indent (js_all_of schema) +:+
  print_variants print ip "anyOf" indent (js_any_of schema) +:+
  print_variants print ip "oneOf" indent (js_one_of schema) +:+
  when_some (js_not schema) (λ not, key_line ip "not" +:+ print not (indent + 2)%nat) +:+
  deprecated_line ip (js_deprecated schema).

Definition schema_reference_text (r : SchemaRef) : string :=
  match sr_external_import r with
  | Some import => render_component_reference (ExternalRef import) "schemas"
  | None => render_stored_component_reference (sr_local_name r) "schemas"
  end.

Definition ref_line (indent : nat) (reference : string) : string :=
  kv_line (sp indent) "$ref" (quote_reference reference).

Fixpoint print_schema_or_ref (s : SchemaOrRef) (indent : nat) : string :=
  match s with
  | SchemaByRef r => ref_line indent (schema_reference_text r)
  | SchemaInline def => print_schema_def_with print_schema_or_ref def indent
  end.

Definition print_schema_def (schema : JsonSchemaDef) (indent : nat) : string :=
  print_schema_def_with print_schema_or_ref schema indent.

(** ** Parameters, bodies and responses *)

Definition print_param_def_cont (param : ParameterDef) (ip : string) (indent : nat) : string :=
  kv_line ip "in" (location_to_str (pm_location param)) +:+
  kv_line ip "required" (fmt_bool (pm_required param)) +:+
  when_some (pm_description param) (λ desc, kv_line ip "description" (ys desc)) +:+
  deprecated_line ip (pm_deprecated param) +:+
  when_some (pm_schema param) (λ schema, key_line ip "schema" +:+ print_schema_or_ref schema (indent + 2)%nat).

Definition print_param_def (param : ParameterDef) (indent : nat) : string :=
  let ip := sp indent in
  kv_line ip "name" (ys (pm_name param)) +:+ print_param_def_cont param ip indent.

Definition print_param_or_ref_item (p_or_r : ParameterOrRef) (list_base : nat) : string :=
  let item := sp (list_base + 2) in
  let cont := sp (list_base + 4) in
  match p_or_r with
  | ParamByRef r =>
    kv_line item "- $ref" (quote_reference (render_stored_component_reference r "parameters"))
  | ParamInline param =>
    kv_line item "- name" (ys (pm_name param)) +:+ print_param_def_cont param cont (list_base + 4)%nat
  end.

Definition print_media_type_entry (entry : MediaTypeEntry) (indent : nat) : string :=
  let ip := sp indent in
  key_line ip (ys (mt_media_type entry)) +:+
  when_some (mt_schema entry)
    (λ schema, key_line (ip +:+ "  ") "schema" +:+ print_schema_or_ref schema (indent + 4)%nat).

Definition print_request_body_def (rb : RequestBodyDef) (indent : nat) : string :=
  let ip := sp indent in
  when_some (rb_description rb) (λ desc, kv_line ip "description" (ys desc)) +:+
  kv_line ip "required" (fmt_bool (rb_required rb)) +:+
  section (rb_content rb) (key_line ip "content") (λ entry, print_media_type_entry entry (indent + 2)%nat).

Definition print_request_body_or_ref (rb : RequestBodyOrRef) (indent : nat) : string :=
  match rb with
  | BodyByRef r => ref_line indent (render_stored_component_reference r "requestBodies")
  | BodyInline b => print_request_body_def b indent
  end.

Definition print_header (ip : string) (indent : nat) (header : HeaderDef) : string :=
  key_line (ip +:+ "  ") (hd_name header) +:+
  when_some (hd_description header) (λ desc, kv_line (ip +:+ "    ") "description" (ys desc)) +:+
  when_some (hd_schema header)
    (λ schema, key_line (ip +:+ "    ") "schema" +:+ print_schema_or_ref schema (indent + 6)%nat).

Definition print_response_def (resp : ResponseDef) (indent : nat) : string :=
  let ip := sp indent in
  kv_line ip "description" (ys (rs_description resp)) +:+
  section (rs_headers resp) (key_line ip "headers") (print_header ip indent) +:+
  section (rs_content resp) (key_line ip "content") (λ entry, print_media_type_entry entry (indent + 2)%nat).

Definition print_response_or_ref (r : ResponseOrRef) (indent : nat) : string :=
  match r with
  | ResponseByRef r => ref_line indent (render_stored_component_reference r "responses")
  | ResponseInline resp => print_response_def resp indent
  end.

(** ** Operations and paths *)

Definition print_operation (op : OperationDef) (indent : nat) : string :=
  let ip := sp indent in
  let ip2 := sp (indent + 2) in
  let ip4 := sp (indent + 4) in
  key_line ip (method_to_str (od_method op)) +:+
  when_some (od_operation_id op) (λ id, kv_line ip2 "operationId" (ys id)) +:+
  when_some (od_summary op) (λ s, kv_line ip2 "summary" (ys s)) +:+
  when_some (od_description op) (λ d, kv_line ip2 "description" (ys d)) +:+
  deprecated_line ip2 (od_deprecated op) +:+
  section (od_tags op) (key_line ip2 "tags") (λ tag, line (ip4 +:+ "- " +:+ ys tag)) +:+
  section (od_parameters op) (key_line ip2 "parameters") (λ param, print_param_or_ref_item param (indent + 2)%nat) +:+
  when_some (od_request_body op)
    (λ rb, key_line ip2 "requestBody" +:+ print_request_body_or_ref rb (indent + 4)%nat) +:+
  section (od_responses op) (key_line ip2 "responses")
    (λ entry, key_line ip4 (quoted (re_status_code entry)) +:+
              when_some (re_response entry) (λ resp, print_response_or_ref resp (indent + 6)%nat)).

(** A path item with the key at an indentation. *)
Definition print_path_item (blob : PathItemBlob) (indent : nat) : string :=
  let ip2 := sp (indent + 2) in
  key_line (sp indent) (pi_path_pattern blob) +:+
  when_some (pi_summary blob) (λ s, kv_line ip2 "summary" (ys s)) +:+
  when_some (pi_description blob) (λ d, kv_line ip2 "description" (ys d)) +:+
  section (pi_parameters blob) (key_line ip2 "parameters")
    (λ param, print_param_or_ref_item param (indent + 2)%nat) +:+
  str_concat ((λ op, print_operation op (indent + 2)%nat) <$> pi_operations blob).

(** ** The document *)

Definition print_metadata_header (metadata : DocumentMetadataBlob) : string :=
  if str_is_empty (dm_openapi_version metadata) && is_none (dm_info metadata) then ""
  else
    kv_line "" "openapi" (quoted (dm_openapi_version metadata)) +:+
    when_some (dm_info metadata) (λ info,
      key_line "" "info" +:+
      kv_line "  " "title" (ys (io_title info)) +:+
      kv_line "  " "version" (quoted (io_version info)) +:+
      when_some (io_description info) (λ desc, kv_line "  " "description" (ys desc)) +:+
      when_some (io_terms_of_service info) (λ tos, kv_line "  " "termsOfService" (ys tos))) +:+
    section (dm_servers metadata) (key_line "" "servers") (λ server,
      kv_line "  " "- url" (ys (so_url server)) +:+
      when_some (so_description server) (λ desc, kv_line "    " "description" (ys desc))).

(** The payloads by kind, each in the order of the keys. *)
Definition path_items (l : list OpenApiPayload) : list PathItemBlob :=
  omap (λ p, match p with OaPathItem b => Some b | _ => None end) l.
Definition component_schemas (l : list OpenApiPayload) : list ComponentSchemaBlob :=
  omap (λ p, match p with OaComponentSchema b => Some b | _ => None end) l.
Definition component_parameters (l : list OpenApiPayload) : list ComponentParameterBlob :=
  omap (λ p, match p with OaComponentParameter b => Some b | _ => None end) l.
Definition component_responses (l : list OpenApiPayload) : list ComponentResponseBlob :=
  omap (λ p, match p with OaComponentResponse b => Some b | _ => None end) l.
Definition component_request_bodies (l : list OpenApiPayload) : list ComponentRequestBodyBlob :=
  omap (λ p, match p with OaComponentRequestBody b => Some b | _ => None end) l.

Definition print_document (metadata : DocumentMetadataBlob) (payloads : list OpenApiPayload) : string :=
  let schemas := section (component_schemas payloads) (key_line "  " "schemas") (λ blob,
    key_line "    " (cs_name blob) +:+ when_some (cs_schema blob) (λ schema, print_schema_def schema 6)) in
  let parameters := section (component_parameters payloads) (key_line "  " "parameters") (λ blob,
    key_line "    " (cpm_name blob) +:+ when_some (cpm_parameter blob) (λ param, print_param_def param 6)) in
  let responses := section (component_responses payloads) (key_line "  " "responses") (λ blob,
    key_line "    " (crs_name blob) +:+ when_some (crs_response blob) (λ resp, print_response_def resp 6)) in
  let request_bodies := section (component_request_bodies payloads) (key_line "  " "requestBodies") (λ blob,
    key_line "    " (crb_name blob) +:+ when_some (crb_request_body blob) (λ rb, print_request_body_def rb 6)) in
  let has_components :=
    negb (bool_decide (length (component_schemas payloads) = 0%nat)) ||
    negb (bool_decide (length (component_parameters payloads) = 0%nat)) ||
    negb (bool_decide (length (component_responses payloads) = 0%nat)) ||
    negb (bool_decide (length (component_request_bodies payloads) = 0%nat)) in
  print_metadata_header metadata +:+
  section (path_items payloads) (key_line "" "paths") (λ blob, print_path_item blob 2) +:+
  (if has_components then key_line "" "components" else "") +:+
  schemas +:+ parameters +:+ responses +:+ request_bodies.

Context {OJ : OpenApiJson}.

(** The loop that decodes the declarations. *)
Definition decode_payloads (blobs : list DeclBlob) : outcome string (list OpenApiPayload) :=
  mapM (λ blob, od_kind <$> oa_decode_decl blob) blobs.

Definition print_schema_objects (schema : SchemaObjects) : outcome PrintError string :=
  metadata ← map_err PrintMalformedBlob (oa_decode_meta (so_meta schema));
  payloads ← map_err PrintMalformedBlob (decode_payloads (btree_iter (so_decls schema)).*2);
  Ok (print_document metadata payloads).

(** One declaration alone. *)
Definition print_decl_detail (payload : OpenApiPayload) : string :=
  match payload with
  | OaPathItem blob => print_path_item blob 0
  | OaComponentSchema blob =>
    key_line "" (cs_name blob) +:+ when_some (cs_schema blob) (λ schema, print_schema_def schema 2)
  | OaComponentParameter blob =>
    key_line "" (cpm_name blob) +:+ when_some (cpm_parameter blob) (λ param, print_param_def param 2)
  | OaComponentResponse blob =>
    key_line "" (crs_name blob) +:+ when_some (crs_response blob) (λ resp, print_response_def resp 2)
  | OaComponentRequestBody blob =>
    key_line "" (crb_name blob) +:+ when_some (crb_request_body blob) (λ rb, print_request_body_def rb 2)
  end.

End Printer.
