(* ===== verification/OpenApiCompiler.v ===== *)
(** * OpenApiCompiler: checks, edits and the OpenAPI compiler

    [crates/schemahub-compiler-openapi/src]: [compat.rs], [diff.rs],
    [operations.rs] and the implementation of the trait [Compiler] in [lib.rs]. *)
From S2P Require Import Prelude RustStd SchemaTypes OpenApiAst OpenApiParser OpenApiPrinter.
From Stdlib Require Import Strings.Byte Ascii.

Open Scope Z_scope.

(** [Debug] of a vector of texts. *)
Definition debug_strs `{RustFmt} (l : list string) : string := "[" +:+ join ", " (debug_str <$> l) +:+ "]".

Section Compiler.
Context {F64 : RustF64} {Y : Yaml F64} {RF : RustFmt} {OJ : OpenApiJson}.

(** ** Names and diffs *)

Definition oa_decl_key (payload : OpenApiPayload) : string :=
  match payload with
  | OaPathItem b => "path:" +:+ pi_path_pattern b
  | OaComponentSchema b => "schema:" +:+ cs_name b
  | OaComponentParameter b => "param:" +:+ cpm_name b
  | OaComponentResponse b => "response:" +:+ crs_name b
  | OaComponentRequestBody b => "requestBody:" +:+ crb_name b
  end.

Definition property_count (b : ComponentSchemaBlob) : Z :=
  match cs_schema b with Some s => Z.of_nat (length (js_properties s)) | None => 0 end.

Definition describe_change (old new : OpenApiPayload) : list byte :=
  as_bytes
    match old, new with
    | OaPathItem o, OaPathItem n =>
      "path item modified; methods " +:+ debug_strs ((λ op, method_to_str (od_method op)) <$> pi_operations o) +:+
      " -> " +:+ debug_strs ((λ op, method_to_str (od_method op)) <$> pi_operations n)
    | OaComponentSchema o, OaComponentSchema n =>
      "schema modified; properties " +:+ fmt_Z (property_count o) +:+ " -> " +:+ fmt_Z (property_count n)
    | _, _ => "declaration content changed"
    end.

Definition oa_diff_decl (old new : DeclBlob) : outcome DiffError DeclChange :=
  old_decl ← map_err DiffMalformedBlob (oa_decode_decl old);
  new_decl ← map_err DiffMalformedBlob (oa_decode_decl new);
  let detail := if bool_decide (old = new) then as_bytes "no content change"
                else describe_change (od_kind old_decl) (od_kind new_decl) in
  Ok (DeclarationModified (oa_decl_key (od_kind new_decl)) detail).

(** ** Compatibility *)

Definition break_on (dir : CompatibilityDirection) (backward_breaks forward_breaks : bool) : bool :=
  match dir with
  | Backward => backward_breaks
  | Forward => forward_breaks
  | Full => backward_breaks || forward_breaks
  | Disabled => false
  end.

Definition breaks (dir : CompatibilityDirection) (what : string) : string :=
  what +:+ " breaks " +:+ debug_direction dir +:+ " compatibility".

(** One violation for every element that a test selects. *)
Definition violations_for {A} (test : A → bool) (violation : A → CompatibilityViolation) (l : list A) :
    list CompatibilityViolation :=
  violation <$> List.filter test l.

(** (name, required) of the inline parameters. *)
Definition inline_params (op : OperationDef) : list (string * bool) :=
  omap (λ p, match p with ParamInline param => Some (pm_name param, pm_required param) | ParamByRef _ => None end)
    (od_parameters op).

(** [iter().any(|(n, _)| n == name)]. *)
Definition any_named {A} (name : string) (l : list (string * A)) : bool :=
  existsb (λ nx, bool_decide (nx.1 = name)) l.

Definition check_operation (name : string) (old new : OperationDef) (dir : CompatibilityDirection) :
    list CompatibilityViolation :=
  let method := method_to_str (od_method new) in
  let old_params := inline_params old in
  let new_params := inline_params new in
  (if negb (bool_decide (od_operation_id old = od_operation_id new)) && is_some (od_operation_id old)
   then [mkCompatibilityViolation name (Some (method +:+ ".operationId")%string)
           ("operationId changed on '" +:+ method +:+ "'; breaks " +:+ debug_direction dir +:+ " compatibility")]
   else []) ++
  violations_for (λ p, negb (any_named p.1 old_params) && (p.2 && break_on dir false true))
    (λ p, mkCompatibilityViolation name (Some (method +:+ ".parameters." +:+ p.1)%string)
            (breaks dir ("adding required parameter '" +:+ p.1 +:+ "' on '" +:+ method +:+ "'"))) new_params ++
  violations_for (λ p, negb (any_named p.1 new_params) && break_on dir false true)
    (λ p, mkCompatibilityViolation name (Some (method +:+ ".parameters." +:+ p.1)%string)
            (breaks dir ("removing parameter '" +:+ p.1 +:+ "' on '" +:+ method +:+ "'"))) old_params.

Definition has_method (m : HttpMethod) (l : list HttpMethod) : bool := existsb (λ m', bool_decide (m' = m)) l.

Definition check_path_item (name : string) (old new : PathItemBlob) (dir : CompatibilityDirection) :
    list CompatibilityViolation :=
  let old_methods := od_method <$> pi_operations old in
  let new_methods := od_method <$> pi_operations new in
  violations_for (λ m, negb (has_method m old_methods) && break_on dir false true)
    (λ m, mkCompatibilityViolation name (Some (method_to_str m))
            (breaks dir ("adding operation '" +:+ method_to_str m +:+ "'"))) new_methods ++
  violations_for (λ m, negb (has_method m new_methods) && break_on dir true false)
    (λ m, mkCompatibilityViolation name (Some (method_to_str m))
            (breaks dir ("removing operation '" +:+ method_to_str m +:+ "'"))) old_methods ++
  concat ((λ new_op,
    match List.find (λ o, bool_decide (od_method o = od_method new_op)) (pi_operations old) with
    | Some old_op => check_operation name old_op new_op dir
    | None => []
    end) <$> pi_operations new).

Definition type_signature (s : SchemaOrRef) : string :=
  match s with
  | SchemaByRef r => "$ref:" +:+ sr_local_name r
  | SchemaInline def =>
    let types := debug_strs (schema_type_to_str <$> js_types def) in
    let fmt := default ""%string (js_format def) in
    if str_is_empty fmt then types else types +:+ "/" +:+ fmt
  end.

Definition prop_map (schema : JsonSchemaDef) : list (string * string) :=
  (λ p, (pr_name p, match pr_schema p with Some s => type_signature s | None => "unknown"%string end)) <$>
    js_properties schema.

(** What the check says of one property of the new schema. *)
Definition check_property (name : string) (required : list string) (old_props : list (string * string))
    (dir : CompatibilityDirection) (prop : string * string) : list CompatibilityViolation :=
  let '(pname, ptype) := prop in
  match List.find (λ p, bool_decide (p.1 = pname)) old_props with
  | None =>
    if existsb (λ r, bool_decide (r = pname)) required && break_on dir false true
    then [mkCompatibilityViolation name (Some pname) (breaks dir ("adding required property '" +:+ pname +:+ "'"))]
    else []
  | Some (_, old_type) =>
    if bool_decide (old_type = ptype) then []
    else [mkCompatibilityViolation name (Some pname)
            ("property '" +:+ pname +:+ "' type changed (" +:+ old_type +:+ " -> " +:+ ptype +:+ "); breaks " +:+
             debug_direction dir +:+ " compatibility")]
  end.

Definition check_component_schema (name : string) (old new : ComponentSchemaBlob) (dir : CompatibilityDirection) :
    list CompatibilityViolation :=
  match cs_schema old, cs_schema new with
  | Some o, Some n =>
    let old_props := prop_map o in
    let new_props := prop_map n in
    concat (check_property name (js_required n) old_props dir <$> new_props) ++
    violations_for (λ p, negb (any_named p.1 new_props) && break_on dir false true)
      (λ p, mkCompatibilityViolation name (Some p.1) (breaks dir ("removing property '" +:+ p.1 +:+ "'"))) old_props
  | _, _ => []
  end.

Definition oa_check_payloads (old new : DeclBlob) (old_kind new_kind : OpenApiPayload) (dir : CompatibilityDirection) :
    list CompatibilityViolation :=
  let name := oa_decl_key new_kind in
  match old_kind, new_kind with
  | OaPathItem o, OaPathItem n => check_path_item name o n dir
  | OaComponentSchema o, OaComponentSchema n => check_component_schema name o n dir
  | _, _ =>
    if bool_decide (old = new) then []
    else [mkCompatibilityViolation name None
            ("declaration '" +:+ name +:+ "' changed; field-level analysis for this kind is deferred to v2")]
  end.

Definition oa_check_compatibility (old new : DeclBlob) (rules : CompatibilityRules) :
    outcome (list CompatibilityViolation) unit :=
  if cr_disabled rules || bool_decide (cr_direction rules = Disabled) then Ok tt
  else
    old_decl ← map_err (λ e, [mkCompatibilityViolation "unknown" None ("malformed old blob: " +:+ e)])
                 (oa_decode_decl old);
    new_decl ← map_err (λ e, [mkCompatibilityViolation "unknown" None ("malformed new blob: " +:+ e)])
                 (oa_decode_decl new);
    match oa_check_payloads old new (od_kind old_decl) (od_kind new_decl) (cr_direction rules) with
    | [] => Ok tt
    | v => Err v
    end.

(** ** Operations *)

Inductive OpenApiOp :=
  | PushDocument (source : string)
  | AddPath (path_pattern summary description : string)
  | RemovePath (path_pattern : string)
  | AddOperation (path_pattern method operation_id summary description : string)
  | RemoveOperation (path_pattern method : string)
  | AddComponentSchema (schema_name schema_type description : string)
  | RemoveComponentSchema (schema_name : string).

(** [serde_json] at the type of operations. *)
Class OpenApiOpJson := {
  oa_op_to_vec : OpenApiOp → list byte;
  oa_op_from_slice : list byte → outcome string OpenApiOp;
}.

Context {PJ : OpenApiOpJson}.

Definition oa_op_encode (op : OpenApiOp) : list byte := oa_op_to_vec op.

Definition oa_op_decode (data : list byte) : outcome MutationError OpenApiOp :=
  op ← map_err InvalidOperationBytes (oa_op_from_slice data);
  _ ← match op with
      | PushDocument source =>
        fail_if (str_is_empty source) (InvalidOperation "PushDocument operation has empty source")
      | _ => Ok tt
      end;
  Ok op.

(** [opt]: an empty text is no text. *)
Definition opt_text (s : string) : option string := if str_is_empty s then None else Some s.

Definition oa_upsert (key : string) (payload : OpenApiPayload) : MutationEffect :=
  mkMutationEffect None [(key, oa_encode_decl (openapi_decl_new payload))] [].

Definition load_path_item (schema : SchemaObjects) (key : string) : outcome MutationError PathItemBlob :=
  blob ← ok_or (so_decls schema !! key) (DeclarationNotFound key);
  decl ← map_err MutMalformedBlob (oa_decode_decl blob);
  match od_kind decl with
  | OaPathItem b => Ok b
  | _ => Err (InvalidOperation ("'" +:+ key +:+ "' is not a path item"))
  end.

(** The references of one stored declaration. *)
Definition stored_refs (blob : DeclBlob) : outcome MutationError (list TypeRef) :=
  declaration ← map_err MutMalformedBlob (oa_decode_decl blob);
  map_err MutMalformedBlob (collect_type_refs (od_kind declaration)).

Fixpoint referencing_from (target : string) (l : list (string * DeclBlob)) : outcome MutationError (list string) :=
  match l with
  | [] => Ok []
  | (name, blob) :: l =>
    if bool_decide (name = target) then referencing_from target l
    else
      type_refs ← stored_refs blob;
      rest ← referencing_from target l;
      Ok (if existsb (λ r, is_none (tr_import r) && bool_decide (tr_name r = target)) type_refs
          then name :: rest else rest)
  end.

Definition declarations_referencing (schema : SchemaObjects) (target : string) : outcome MutationError (list string) :=
  referencing_from target (btree_iter (so_decls schema)).

Definition missing_refs (schema : SchemaObjects) (references : list TypeRef) : list string :=
  tr_name <$> List.filter (λ r, is_none (tr_import r) && negb (bool_decide (is_Some (so_decls schema !! tr_name r))))
                references.

Definition validate_schema_references (schema : SchemaObjects) : outcome MutationError unit :=
  for_each (λ '(name, blob),
    references ← stored_refs blob;
    let missing := missing_refs schema references in
    fail_if (negb (bool_decide (missing = [])))
      (InvalidOperation ("declaration '" +:+ name +:+ "' has missing local references: " +:+ join ", " missing)))
    (btree_iter (so_decls schema)).

Definition push_document (schema : SchemaObjects) (source : string) (defer_reference_integrity : bool) :
    outcome MutationError MutationEffect :=
  parsed ← map_err (λ e, InvalidOperation ("parse error: " +:+ fmt_parse_error e)) (parse_openapi source);
  let new_keys : gset string := list_to_set (ps_decls parsed).*1 in
  let removes := List.filter (λ k, negb (bool_decide (k ∈ new_keys))) (btree_iter (so_decls schema)).*1 in
  _ ← if defer_reference_integrity then Ok tt
      else validate_schema_references (mkSchemaObjects (ps_meta parsed) (collect_map (ps_decls parsed)));
  Ok (mkMutationEffect (Some (ps_meta parsed)) (ps_decls parsed) removes).

Definition add_path (schema : SchemaObjects) (path_pattern summary description : string) :
    outcome MutationError MutationEffect :=
  let key := ("path:" +:+ path_pattern)%string in
  _ ← fail_if (bool_decide (is_Some (so_decls schema !! key)))
        (InvalidOperation ("path '" +:+ path_pattern +:+ "' already exists"));
  Ok (oa_upsert key (OaPathItem (mkPathItem path_pattern (opt_text summary) (opt_text description) [] [] None))).

Definition remove_path (schema : SchemaObjects) (path_pattern : string) : outcome MutationError MutationEffect :=
  let key := ("path:" +:+ path_pattern)%string in
  _ ← fail_if (negb (bool_decide (is_Some (so_decls schema !! key)))) (DeclarationNotFound key);
  Ok (mkMutationEffect None [] [key]).

Definition parse_method (method : string) : outcome MutationError HttpMethod :=
  map_err (λ _, InvalidOperation ("unknown HTTP method: '" +:+ method +:+ "'")) (method_from_str method).

Definition pi_with_operations (b : PathItemBlob) (ops : list OperationDef) : PathItemBlob :=
  mkPathItem (pi_path_pattern b) (pi_summary b) (pi_description b) (pi_parameters b) ops (pi_extensions b).

Definition add_operation (schema : SchemaObjects) (path_pattern method operation_id summary description : string) :
    outcome MutationError MutationEffect :=
  let key := ("path:" +:+ path_pattern)%string in
  path_blob ← load_path_item schema key;
  method_enum ← parse_method method;
  _ ← fail_if (existsb (λ o, bool_decide (od_method o = method_enum)) (pi_operations path_blob))
        (InvalidOperation ("operation '" +:+ method +:+ "' already exists on path '" +:+ path_pattern +:+ "'"));
  let new_op := mkOperationDef method_enum (opt_text operation_id) (opt_text summary) (opt_text description)
                  [] [] None [] None None in
  Ok (oa_upsert key (OaPathItem (pi_with_operations path_blob (pi_operations path_blob ++ [new_op])))).

Definition remove_operation (schema : SchemaObjects) (path_pattern method : string) :
    outcome MutationError MutationEffect :=
  let key := ("path:" +:+ path_pattern)%string in
  path_blob ← load_path_item schema key;
  method_enum ← parse_method method;
  let operations := retain (λ o, negb (bool_decide (od_method o = method_enum))) (pi_operations path_blob) in
  _ ← fail_if (bool_decide (length operations = length (pi_operations path_blob)))
        (InvalidOperation ("operation '" +:+ method +:+ "' not found on path '" +:+ path_pattern +:+ "'"));
  Ok (oa_upsert key (OaPathItem (pi_with_operations path_blob operations))).

(** [JsonSchemaDef { types, description, ..Default::default() }]. *)
Definition bare_schema (types : list JsonSchemaType) (description : option string) : JsonSchemaDef :=
  mkSchemaDef types None None None None None None None None None None None None None [] [] None None None None
    [] [] [] None [] None None description None None None None None.

Definition add_component_schema (schema : SchemaObjects) (schema_name schema_type description : string) :
    outcome MutationError MutationEffect :=
  let key := ("schema:" +:+ schema_name)%string in
  _ ← fail_if (bool_decide (is_Some (so_decls schema !! key)))
        (InvalidOperation ("component schema '" +:+ schema_name +:+ "' already exists"));
  types ← if str_is_empty schema_type then Ok []
          else map_err (λ _, InvalidOperation ("unknown JSON schema type: '" +:+ schema_type +:+ "'"))
                 ((λ t, [t]) <$> schema_type_from_str schema_type);
  Ok (oa_upsert key (OaComponentSchema (mkComponentSchema schema_name
        (Some (bare_schema types (opt_text description))) None))).

Definition remove_component_schema (schema : SchemaObjects) (schema_name : string) (defer_reference_integrity : bool) :
    outcome MutationError MutationEffect :=
  let key := ("schema:" +:+ schema_name)%string in
  _ ← fail_if (negb (bool_decide (is_Some (so_decls schema !! key)))) (DeclarationNotFound key);
  references ← declarations_referencing schema key;
  _ ← fail_if (negb defer_reference_integrity && negb (bool_decide (references = [])))
        (InvalidOperation ("cannot remove component schema '" +:+ schema_name +:+ "': referenced by " +:+
                           join ", " references));
  Ok (mkMutationEffect None [] [key]).

Definition oa_apply_one (schema : SchemaObjects) (op : OpenApiOp) (defer_reference_integrity : bool) :
    outcome MutationError MutationEffect :=
  match op with
  | PushDocument source => push_document schema source defer_reference_integrity
  | AddPath path_pattern summary description => add_path schema path_pattern summary description
  | RemovePath path_pattern => remove_path schema path_pattern
  | AddOperation path_pattern method operation_id summary description =>
    add_operation schema path_pattern method operation_id summary description
  | RemoveOperation path_pattern method => remove_operation schema path_pattern method
  | AddComponentSchema schema_name schema_type description =>
    add_component_schema schema schema_name schema_type description
  | RemoveComponentSchema schema_name => remove_component_schema schema schema_name defer_reference_integrity
  end.

Definition oa_apply_mutation (schema : SchemaObjects) (op : Mutation) : outcome MutationError MutationEffect :=
  decoded ← oa_op_decode (mu_operation op);
  oa_apply_one schema decoded false.

(** ** Batches *)

(** The working copy and the net effect so far. *)
Record oa_batch := mkBatch {
  ba_working : SchemaObjects;
  ba_meta : option MetaBlob;
  ba_upserts : gmap string DeclBlob;
  ba_removes : list string;
}.

Definition batch_meta (b : oa_batch) (meta : option MetaBlob) : oa_batch :=
  match meta with
  | Some m => mkBatch (mkSchemaObjects m (so_decls (ba_working b))) (Some m) (ba_upserts b) (ba_removes b)
  | None => b
  end.

Definition batch_upsert (b : oa_batch) (kv : string * DeclBlob) : oa_batch :=
  let '(name, blob) := kv in
  mkBatch (mkSchemaObjects (so_meta (ba_working b)) (<[name := blob]> (so_decls (ba_working b)))) (ba_meta b)
    (<[name := blob]> (ba_upserts b)) (retain (λ r, negb (bool_decide (r = name))) (ba_removes b)).

Definition batch_remove (b : oa_batch) (name : string) : oa_batch :=
  mkBatch (mkSchemaObjects (so_meta (ba_working b)) (delete name (so_decls (ba_working b)))) (ba_meta b)
    (delete name (ba_upserts b))
    (if existsb (λ r, bool_decide (r = name)) (ba_removes b) then ba_removes b else ba_removes b ++ [name]).

Definition batch_step (b : oa_batch) (effect : MutationEffect) : oa_batch :=
  let b := batch_meta b (me_meta effect) in
  let b := foldl batch_upsert b (me_upserts effect) in
  foldl batch_remove b (me_removes effect).

Fixpoint batch_apply (b : oa_batch) (ops : list Mutation) : outcome MutationError oa_batch :=
  match ops with
  | [] => Ok b
  | op :: ops =>
    decoded ← oa_op_decode (mu_operation op);
    effect ← oa_apply_one (ba_working b) decoded true;
    batch_apply (batch_step b effect) ops
  end.

Definition oa_apply_mutations (schema : SchemaObjects) (ops : list Mutation) : outcome MutationError MutationEffect :=
  b ← batch_apply (mkBatch schema None ∅ []) ops;
  _ ← validate_schema_references (ba_working b);
  Ok (mkMutationEffect (ba_meta b) (btree_iter (ba_upserts b)) (ba_removes b)).

(** ** Conflicts and reading *)

Definition render_side (blob : DeclBlob) : outcome ConflictError string :=
  decl ← map_err ConflictMalformedBlob (oa_decode_decl blob);
  Ok (print_decl_detail (od_kind decl)).

Fixpoint oa_render_sides (i : Z) (sides : list DeclBlob) : outcome ConflictError string :=
  match sides with
  | [] => Ok ""%string
  | side :: sides =>
    text ← render_side side;
    rest ← oa_render_sides (i + 1) sides;
    Ok (line ("# ===== side " +:+ fmt_Z i +:+ " =====") +:+ text +:+ rest)
  end.

Definition oa_render_conflict (sides : ConflictSides) : outcome ConflictError string :=
  _ ← fail_if (bool_decide (cs_sides sides = [])) EmptyConflict;
  base ← match cs_base sides with
         | Some base => text ← render_side base; Ok (line "# ===== base =====" +:+ text)
         | None => Ok ""%string
         end;
  rest ← oa_render_sides 0 (cs_sides sides);
  Ok (base +:+ rest).

Definition oa_validate_resolution (resolved : DeclBlob) : outcome ConflictError unit :=
  map_err InvalidResolution ((λ _, tt) <$> oa_decode_decl resolved).

Definition oa_read_decl (blob : DeclBlob) : outcome ReadError OpenApiPayload :=
  map_err ReadMalformedBlob (od_kind <$> oa_decode_decl blob).

Definition oa_summarize_decl (blob : DeclBlob) : outcome ReadError DeclSummary :=
  payload ← oa_read_decl blob;
  Ok match payload with
     | OaPathItem b =>
       mkDeclSummary ("path:" +:+ pi_path_pattern b) KindPathItem (default ""%string (pi_summary b))
     | OaComponentSchema b =>
       mkDeclSummary ("schema:" +:+ cs_name b) KindComponentSchema
         (default ""%string (cs_schema b ≫= js_description))
     | OaComponentParameter b =>
       mkDeclSummary ("param:" +:+ cpm_name b) KindComponentParameter
         (default ""%string (cpm_parameter b ≫= pm_description))
     | OaComponentResponse b =>
       mkDeclSummary ("response:" +:+ crs_name b) KindComponentResponse
         (default ""%string (rs_description <$> crs_response b))
     | OaComponentRequestBody b =>
       mkDeclSummary ("requestBody:" +:+ crb_name b) KindComponentRequestBody
         (default ""%string (crb_request_body b ≫= rb_description))
     end.

Definition oa_decl_detail (blob : DeclBlob) : outcome ReadError DeclDetail :=
  payload ← oa_read_decl blob;
  Ok (as_bytes (print_decl_detail payload)).

(** The key of an import in the map of imports, which is the import. *)
Definition import_key (i : Import) : list string := [im_path i; im_resolved_commit i; im_decl_name i].

Definition import_le (i j : Import) : Prop := lex_leb (import_key i) (import_key j) = true.

#[export] Instance import_le_dec : RelDecision import_le.
Proof. intros i j. unfold import_le. apply _. Defined.

(** [imports.entry(key).or_insert(import)]. *)
Definition insert_import (imports : list Import) (i : Import) : list Import :=
  if existsb (λ j, bool_decide (import_key j = import_key i)) imports then imports else imports ++ [i].

Fixpoint imports_from (imports : list Import) (blobs : list DeclBlob) : outcome ReadError (list Import) :=
  match blobs with
  | [] => Ok imports
  | blob :: blobs =>
    payload ← oa_read_decl blob;
    references ← map_err ReadMalformedBlob (collect_type_refs payload);
    imports_from (foldl insert_import imports (omap tr_import references)) blobs
  end.

Definition oa_imports (schema : SchemaObjects) : outcome ReadError (list Import) :=
  _ ← map_err ReadMalformedBlob (oa_decode_meta (so_meta schema));
  imports ← imports_from [] (btree_iter (so_decls schema)).*2;
  Ok (stable_sort import_le imports).

Definition oa_type_refs (blob : DeclBlob) : outcome ReadError (list TypeRef) :=
  payload ← oa_read_decl blob;
  refs ← map_err ReadMalformedBlob (collect_type_refs payload);
  Ok (dedupe_type_refs refs).

Definition identity_le (r r' : TypeRef) : Prop :=
  let key r := let '(a, b, c, d) := type_ref_identity r in [a; b; c; d] in lex_leb (key r) (key r') = true.

#[export] Instance identity_le_dec : RelDecision identity_le.
Proof. intros r r'. unfold identity_le. apply _. Defined.

Definition oa_field_type_ref (blob : DeclBlob) (field_name : string) : outcome ReadError (option TypeRef) :=
  payload ← oa_read_decl blob;
  component ← match payload with OaComponentSchema c => Ok c | _ => Err (ReadFieldNotFound field_name) end;
  schema ← ok_or (cs_schema component) (ReadFieldNotFound field_name);
  property ← ok_or (List.find (λ p, bool_decide (pr_name p = field_name)) (js_properties schema))
               (ReadFieldNotFound field_name);
  match pr_schema property with
  | None => Ok None
  | Some property_schema =>
    refs ← map_err ReadMalformedBlob (collect_schema_refs property_schema);
    match stable_sort identity_le (dedupe_type_refs refs) with
    | [] => Ok None
    | [r] => Ok (Some r)
    | _ => Err (AmbiguousTypeReference field_name)
    end
  end.

(** ** Descriptors *)

Definition schema_name_le (x y : SchemaPath * SchemaObjects) : Prop :=
  String.le (sp_schema_name x.1) (sp_schema_name y.1).

#[export] Instance schema_name_le_dec : RelDecision schema_name_le.
Proof. intros x y. unfold schema_name_le. apply _. Defined.

(** The documents, separated; [out] is what was written before. *)
Fixpoint join_documents (out : string) (l : list (SchemaPath * SchemaObjects)) : outcome DescriptorError string :=
  match l with
  | [] => Ok out
  | (_, schema) :: l =>
    yaml ← map_err (λ e, DescriptorOther (fmt_print_error e)) (print_schema_objects schema);
    join_documents (out +:+ (if str_is_empty out then "" else line "---") +:+ yaml) l
  end.

Definition oa_generate_descriptors `{HashOrder} (closure : SchemaClosure) : outcome DescriptorError (list byte) :=
  out ← join_documents "" (stable_sort schema_name_le (hash_iter (scl_entries closure)));
  Ok (as_bytes out).

Definition oa_generate_code (closure : SchemaClosure) (lang : Language) (options : CodegenOptions) :
    outcome CodegenError string :=
  Err (UnsupportedLanguage lang).

(** ** The compiler *)

Definition openapi_compiler `{HashOrder} : Compiler := {|
  format_id := "openapi";
  cp_parse := parse_openapi;
  cp_print := print_schema_objects;
  cp_diff_decl := oa_diff_decl;
  cp_apply_mutation := oa_apply_mutation;
  cp_apply_mutations := oa_apply_mutations;
  cp_check_compatibility := oa_check_compatibility;
  cp_render_conflict := oa_render_conflict;
  cp_validate_resolution := oa_validate_resolution;
  cp_summarize_decl := oa_summarize_decl;
  cp_decl_detail := oa_decl_detail;
  cp_imports := oa_imports;
  cp_type_refs := oa_type_refs;
  cp_field_type_ref := oa_field_type_ref;
  cp_generate_descriptors := oa_generate_descriptors;
  cp_generate_code := oa_generate_code;
|}.

End Compiler.
