(* ===== verification/OpenApiProps.v ===== *)
(** * OpenApiProps: references, batches and what printing keeps

    Component references survive rendering and parsing; a batch of operations has
    the effect of its operations one after the other and leaves every local
    reference resolved; the printer drops most of a schema. *)
From S2P Require Import Prelude RustStd SchemaTypes Effects OpenApiAst OpenApiParser OpenApiPrinter OpenApiCompiler.
From Stdlib Require Import Strings.Byte Ascii.

Open Scope Z_scope.

(** ** References *)

Lemma contains_replace c d by_ s :
  contains_char c by_ = false → contains_char c (replace_char d by_ s) = contains_char c s && negb (bool_decide (c = d)).
Proof.
  intros Hby. induction s as [|a s IH]; [done|]. cbn [replace_char contains_char]. rewrite contains_char_app, IH.
  destruct (decide (a = d)) as [->|Had]; [rewrite bool_decide_eq_true_2 by done|rewrite bool_decide_eq_false_2 by done].
  - rewrite Hby. cbn. destruct (decide (d = c)) as [->|Hdc].
    + by rewrite (bool_decide_eq_true_2 (c = c)), !andb_false_r by done.
    + by rewrite (bool_decide_eq_false_2 (d = c)) by done.
  - cbn. rewrite orb_false_r. destruct (decide (a = c)) as [->|Hac].
    + by rewrite (bool_decide_eq_true_2 (c = c)), (bool_decide_eq_false_2 (c = d)) by done.
    + by rewrite (bool_decide_eq_false_2 (a = c)) by done.
Qed.

Lemma encode_cons a s :
  encode_pointer_segment (String a s) =
  if bool_decide (a = "~"%char) then String "~" (String "0" (encode_pointer_segment s))
  else if bool_decide (a = "/"%char) then String "~" (String "1" (encode_pointer_segment s))
  else String a (encode_pointer_segment s).
Proof.
  unfold encode_pointer_segment. cbn [replace_char].
  destruct (decide (a = "~"%char)) as [->|Ht]; [done|]. rewrite (bool_decide_eq_false_2 (a = "~"%char)) by done.
  change (of_char a +:+ ?t)%string with (String a t). cbn [replace_char]. by case_bool_decide.
Qed.

Lemma unescape_encode name : unescape (encode_pointer_segment name) = Ok name.
Proof.
  induction name as [|a s IH]; [done|]. rewrite encode_cons. repeat case_bool_decide; subst; cbn [unescape].
  - by rewrite bool_decide_eq_true_2, IH.
  - by rewrite bool_decide_eq_true_2, IH.
  - by rewrite bool_decide_eq_false_2, IH.
Qed.

Lemma decode_encode_name name :
  name ≠ ""%string → contains_char "#" name = false → decode_component_name (encode_pointer_segment name) = Ok name.
Proof.
  intros Hne Hhash. unfold decode_component_name. rewrite unescape_encode.
  assert (contains_char "/" (encode_pointer_segment name) = false) as ->.
  { unfold encode_pointer_segment. by rewrite contains_replace, andb_false_r. }
  assert (contains_char "#" (encode_pointer_segment name) = false) as ->.
  { unfold encode_pointer_segment. by rewrite !contains_replace, Hhash. }
  destruct name as [|a s]; [done|]. rewrite encode_cons. by repeat case_bool_decide.
Qed.

Lemma split_once_app c p r : contains_char c p = false → split_once c (p +:+ String c r) = Some (p, r).
Proof.
  induction p as [|a p IH]; intros Hp.
  - change ("" +:+ String c r)%string with (String c r). cbn. by rewrite bool_decide_eq_true_2.
  - change (String a p +:+ String c r)%string with (String a (p +:+ String c r)). cbn in Hp |- *.
    apply orb_false_iff in Hp as [-> Hp]. by rewrite IH.
Qed.

Lemma strip_prefix_app p s : strip_prefix p (p +:+ s) = Some s.
Proof. by apply strip_prefix_Some. Qed.

(** A name that a reference can mean. *)
Definition ref_name (name : string) : Prop := name ≠ ""%string ∧ contains_char "#" name = false.

Section References.
Context {RF : RustFmt}.

(** The references that can be written: to a named component of this document, or
    of a schema under a path that the registry understands, at no fixed commit. *)
Definition writable (r : ComponentReference) : Prop :=
  match r with
  | LocalRef name => ref_name name
  | ExternalRef import =>
    validate_schemahub_path (ei_path import) "" = Ok tt ∧ contains_char "#" (ei_path import) = false ∧
    ei_resolved_commit import = ""%string ∧ ref_name (ei_decl_name import)
  end.

Lemma validate_any_reference path reference reference' :
  validate_schemahub_path path reference = Ok tt → validate_schemahub_path path reference' = Ok tt.
Proof. unfold validate_schemahub_path, fail_if. by case_match. Qed.

(** C32. A component reference survives being written and read: whatever name a
    component has, with slashes and tildes in it too, and whatever valid path an
    external schema has, parsing the rendered [$ref] gives the reference back, for
    every kind of component. *)
Theorem component_reference_roundtrip (r : ComponentReference) (component : string) :
  writable r → parse_source_component_reference (render_component_reference r component) component = Ok r.
Proof.
  unfold parse_source_component_reference. destruct r as [name|[path commit name]]; cbn [writable render_component_reference].
  - intros [Hne Hhash].
    assert (strip_prefix ("#/components/" +:+ component +:+ "/")
              ("#/components/" +:+ component +:+ "/" +:+ encode_pointer_segment name) =
            Some (encode_pointer_segment name)) as ->.
    { apply strip_prefix_Some. by rewrite !str_app_assoc. }
    by rewrite decode_encode_name.
  - cbn [ei_path ei_resolved_commit ei_decl_name]. intros (Hpath & Hhash & -> & Hne & Hname).
    set (fragment := ("/components/" +:+ component +:+ "/" +:+ encode_pointer_segment name)%string).
    change ("#/components/" +:+ component +:+ "/" +:+ encode_pointer_segment name)%string with (String "#" fragment).
    assert (∃ a t, path = String a t ∧ a ≠ "#"%char) as (a & t & Epath & Ha).
    { destruct path as [|a t]; [done|]. exists a, t. split; [done|]. intros ->. by cbn in Hhash. }
    assert (∀ p, strip_prefix (String "#" p) (path +:+ String "#" fragment) = None) as Hstrip.
    { intros p. rewrite Epath. change (String a t +:+ ?u)%string with (String a (t +:+ u)). cbn.
      by rewrite bool_decide_eq_false_2 by congruence. }
    change ("#/components/" +:+ component +:+ "/")%string with (String "#" ("/components/" +:+ component +:+ "/")).
    unfold starts_with. rewrite !Hstrip, bool_decide_eq_false_2 by (by intros [? ?]).
    cbn [fail_if mbind outcome_bind]. rewrite split_once_app by done. cbn [ok_or mbind outcome_bind].
    unfold parse_external_reference. rewrite (validate_any_reference _ "") by done. cbn [mbind outcome_bind].
    assert (strip_prefix ("/components/" +:+ component +:+ "/") fragment = Some (encode_pointer_segment name)) as ->.
    { apply strip_prefix_Some. unfold fragment. by rewrite !str_app_assoc. }
    cbn [ok_or mbind outcome_bind]. by rewrite decode_encode_name.
Qed.

End References.

(** ** Batches *)

Section Batches.
Context {F64 : RustF64} {Y : Yaml F64} {RF : RustFmt} {OJ : OpenApiJson} {PJ : OpenApiOpJson}.

(** What a batch means: the effect of each operation is applied before the next
    operation sees the schema. *)
Fixpoint oa_run (schema : SchemaObjects) (ops : list Mutation) : outcome MutationError SchemaObjects :=
  match ops with
  | [] => Ok schema
  | op :: ops =>
    decoded ← oa_op_decode (mu_operation op);
    effect ← oa_apply_one schema decoded true;
    oa_run (apply_effect schema effect) ops
  end.

(** The net effect of a batch leads from the stored schema to the working copy. *)
Record net (schema : SchemaObjects) (b : oa_batch) : Prop := {
  net_decls k : so_decls (ba_working b) !! k =
    match ba_upserts b !! k with
    | Some blob => Some blob
    | None => if bool_decide (k ∈ ba_removes b) then None else so_decls schema !! k
    end;
  net_disjoint k : is_Some (ba_upserts b !! k) → k ∉ ba_removes b;
  net_meta : so_meta (ba_working b) = default (so_meta schema) (ba_meta b);
}.

Lemma elem_of_retain_ne (l : list string) k name :
  k ∈ retain (λ r, negb (bool_decide (r = name))) l ↔ k ≠ name ∧ k ∈ l.
Proof. unfold retain. rewrite elem_of_bool_filter, negb_true_iff, bool_decide_eq_false. tauto. Qed.

Lemma net_upsert schema b kv : net schema b → net schema (batch_upsert b kv).
Proof.
  destruct kv as [name blob]. intros [Hd Hdis Hm]. split; cbn [batch_upsert ba_working ba_upserts ba_removes so_decls so_meta ba_meta].
  - intros k. destruct (decide (k = name)) as [->|Hne]; [by rewrite !lookup_insert_eq|].
    rewrite !lookup_insert_ne, Hd by done. destruct (ba_upserts b !! k); [done|].
    by rewrite (bool_decide_ext (k ∈ retain _ _) (k ∈ ba_removes b)) by (rewrite elem_of_retain_ne; tauto).
  - intros k. rewrite elem_of_retain_ne. destruct (decide (k = name)) as [->|Hne]; [tauto|].
    rewrite lookup_insert_ne by done. intros ?%Hdis. tauto.
  - done.
Qed.

Lemma net_remove schema b name : net schema b → net schema (batch_remove b name).
Proof.
  intros [Hd Hdis Hm].
  assert (∀ k, k ∈ ba_removes (batch_remove b name) ↔ k = name ∨ k ∈ ba_removes b) as Hr.
  { intros k. cbn. destruct (existsb _ _) eqn:E; [|set_solver].
    apply existsb_elem in E as (x & Hx & ->%bool_decide_eq_true). set_solver. }
  split; cbn [batch_remove ba_working ba_upserts so_decls so_meta ba_meta]; fold (batch_remove b name).
  - intros k. rewrite (bool_decide_ext _ _ (Hr k)). destruct (decide (k = name)) as [->|Hne].
    + by rewrite !lookup_delete_eq, bool_decide_eq_true_2 by auto.
    + rewrite !lookup_delete_ne, Hd by done. destruct (ba_upserts b !! k); [done|].
      by rewrite (bool_decide_ext (k = name ∨ k ∈ ba_removes b) (k ∈ ba_removes b)) by tauto.
  - intros k Hk. rewrite Hr. destruct (decide (k = name)) as [->|Hne]; [by rewrite lookup_delete_eq in Hk; destruct Hk|].
    rewrite lookup_delete_ne in Hk by done. apply Hdis in Hk. tauto.
  - done.
Qed.

Lemma net_step schema b e : net schema b → net schema (batch_step b e).
Proof.
  intros Hn. unfold batch_step. assert (net schema (batch_meta b (me_meta e))) as Hn'.
  { destruct Hn as [Hd Hdis Hm]. by destruct (me_meta e). }
  revert Hn'. generalize (batch_meta b (me_meta e)). intros b' Hb'.
  assert (net schema (foldl batch_upsert b' (me_upserts e))) as Hu.
  { revert b' Hb'. induction (me_upserts e) as [|kv l IH]; intros b' Hb'; [done|]. cbn. by apply IH, net_upsert. }
  revert Hu. generalize (foldl batch_upsert b' (me_upserts e)). intros b2 Hb2. revert b2 Hb2.
  induction (me_removes e) as [|n l IH]; intros b2 Hb2; [done|]. cbn. by apply IH, net_remove.
Qed.

(** The working copy of a batch after an effect is the schema that the effect gives. *)
Lemma step_working b e : ba_working (batch_step b e) = apply_effect (ba_working b) e.
Proof.
  unfold batch_step, apply_effect.
  assert (ba_working (batch_meta b (me_meta e)) =
          mkSchemaObjects (match me_meta e with Some m => m | None => so_meta (ba_working b) end) (so_decls (ba_working b))) as Hm.
  { destruct (me_meta e); [done|]. by destruct b as [[]]. }
  revert Hm. generalize (match me_meta e with Some m => m | None => so_meta (ba_working b) end).
  generalize (so_decls (ba_working b)). generalize (batch_meta b (me_meta e)). clear b. intros b d m Hb.
  assert (ba_working (foldl batch_upsert b (me_upserts e)) =
          mkSchemaObjects m (foldl (λ d kv, <[kv.1 := kv.2]> d) d (me_upserts e))) as Hu.
  { revert b d Hb. induction (me_upserts e) as [|[k v] l IH]; intros b d Hb; [done|]. cbn. apply IH. cbn. by rewrite Hb. }
  revert Hu. generalize (foldl (λ d kv, <[kv.1 := kv.2]> d) d (me_upserts e)).
  generalize (foldl batch_upsert b (me_upserts e)). clear b d Hb.
  induction (me_removes e) as [|n l IH]; intros b d Hb; [done|]. cbn. apply IH. cbn. by rewrite Hb.
Qed.

Lemma batch_runs schema ops b b' :
  batch_apply b ops = Ok b' → net schema b → oa_run (ba_working b) ops = Ok (ba_working b') ∧ net schema b'.
Proof.
  revert b. induction ops as [|op ops IH]; intros b H Hn; cbn in H |- *; [by injection H as <-|].
  ok_inv H. rewrite Hok. cbn. rewrite Hok0. cbn. rewrite <- step_working. apply IH; [done|by apply net_step].
Qed.

Lemma net_start schema : net schema (mkBatch schema None ∅ []).
Proof.
  split; cbn; [|by intros k [? ?]|done]. intros k.
  by rewrite lookup_empty, bool_decide_eq_false_2 by apply not_elem_of_nil.
Qed.

Lemma net_effect schema b :
  net schema b → apply_effect schema (mkMutationEffect (ba_meta b) (btree_iter (ba_upserts b)) (ba_removes b)) = ba_working b.
Proof.
  intros [Hd Hdis Hm]. destruct (ba_working b) as [meta decls] eqn:Ew. cbn in *.
  set (e := mkMutationEffect (ba_meta b) (btree_iter (ba_upserts b)) (ba_removes b)).
  assert (so_decls (apply_effect schema e) = decls) as <-; [|unfold apply_effect; cbn; f_equal; rewrite Hm; by destruct (ba_meta b)].
  apply map_eq. intros k. rewrite Hd. destruct (ba_upserts b !! k) as [blob|] eqn:Eu.
  - apply lookup_apply_effect_upsert; [apply NoDup_btree_iter_fst|by apply Hdis|]. by apply elem_of_btree_iter.
  - case_bool_decide as Hr; [by apply lookup_apply_effect_removed|]. apply lookup_apply_effect_other; [done|].
    cbn. intros ([k' v] & -> & Hin%elem_of_btree_iter)%list_elem_of_fmap. cbn in *. congruence.
Qed.

(** C20. A batch of OpenAPI operations has the effect of its operations one after
    the other: when it succeeds, applying the net effect that is returned to the
    stored schema gives exactly the schema that applying each operation's effect
    in turn gives, whether declarations are written, removed and written again or
    the whole document is replaced in between. *)
Theorem openapi_batch_is_sequential (schema : SchemaObjects) (ops : list Mutation) (effect : MutationEffect) :
  oa_apply_mutations schema ops = Ok effect → oa_run schema ops = Ok (apply_effect schema effect).
Proof.
  unfold oa_apply_mutations. intros H. ok_inv H. subst effect.
  destruct (batch_runs schema _ _ _ Hok (net_start schema)) as [Hrun Hnet]. by rewrite net_effect.
Qed.

End Batches.

(** ** Every local reference resolves *)

Section Resolved.
Context {F64 : RustF64} {Y : Yaml F64} {RF : RustFmt} {OJ : OpenApiJson} {PJ : OpenApiOpJson}.

(** The schemas directly inside a schema. *)
Definition subschema (d : JsonSchemaDef) (s : SchemaOrRef) : Prop :=
  js_items d = Some s ∨ (∃ p, p ∈ js_properties d ∧ pr_schema p = Some s) ∨
  s ∈ js_all_of d ∨ s ∈ js_any_of d ∨ s ∈ js_one_of d ∨
  js_not d = Some s ∨ js_additional_properties_schema d = Some s.

(** A schema occurs in another at any depth. *)
Inductive within (t : SchemaOrRef) : SchemaOrRef → Prop :=
  | within_here : within t t
  | within_sub d s : subschema d s → within t s → within t (SchemaInline d).

(** The schemas that a declaration holds outside of other schemas. *)
Definition content_schemas (l : list MediaTypeEntry) : list SchemaOrRef := omap mt_schema l.

Definition response_schemas (r : ResponseDef) : list SchemaOrRef :=
  content_schemas (rs_content r) ++ omap hd_schema (rs_headers r).

Definition param_schemas (p : ParameterOrRef) : list SchemaOrRef :=
  match p with ParamInline p => option_list (pm_schema p) | ParamByRef _ => [] end.

Definition body_schemas (b : RequestBodyOrRef) : list SchemaOrRef :=
  match b with BodyInline b => content_schemas (rb_content b) | BodyByRef _ => [] end.

Definition response_or_ref_schemas (r : ResponseOrRef) : list SchemaOrRef :=
  match r with ResponseInline r => response_schemas r | ResponseByRef _ => [] end.

Definition operation_schemas (op : OperationDef) : list SchemaOrRef :=
  concat (param_schemas <$> od_parameters op) ++ concat (body_schemas <$> option_list (od_request_body op)) ++
  concat (response_or_ref_schemas <$> omap re_response (od_responses op)).

Definition payload_schemas (p : OpenApiPayload) : list SchemaOrRef :=
  match p with
  | OaPathItem b => concat (param_schemas <$> pi_parameters b) ++ concat (operation_schemas <$> pi_operations b)
  | OaComponentSchema b => SchemaInline <$> option_list (cs_schema b)
  | OaComponentParameter b => concat ((λ p, option_list (pm_schema p)) <$> option_list (cpm_parameter b))
  | OaComponentResponse b => concat (response_schemas <$> option_list (crs_response b))
  | OaComponentRequestBody b => concat ((λ b, content_schemas (rb_content b)) <$> option_list (crb_request_body b))
  end.

(** The references to components other than schemas: the stored text, the kind of
    component and the prefix of its keys. *)
Definition named_ref : Type := string * string * string.

Definition param_named (p : ParameterOrRef) : list named_ref :=
  match p with ParamInline _ => [] | ParamByRef r => [(r, "parameters", "param")]%string end.

Definition body_named (b : RequestBodyOrRef) : list named_ref :=
  match b with BodyInline _ => [] | BodyByRef r => [(r, "requestBodies", "requestBody")]%string end.

Definition response_named (r : ResponseOrRef) : list named_ref :=
  match r with ResponseInline _ => [] | ResponseByRef r => [(r, "responses", "response")]%string end.

Definition operation_named (op : OperationDef) : list named_ref :=
  concat (param_named <$> od_parameters op) ++ concat (body_named <$> option_list (od_request_body op)) ++
  concat (response_named <$> omap re_response (od_responses op)).

Definition payload_named (p : OpenApiPayload) : list named_ref :=
  match p with
  | OaPathItem b => concat (param_named <$> pi_parameters b) ++ concat (operation_named <$> pi_operations b)
  | _ => []
  end.

(** Collected references cover schemas and named references. *)
Definition covers (schemas : list SchemaOrRef) (named : list named_ref) (refs : list TypeRef) : Prop :=
  (∀ s, s ∈ schemas → ∃ r, collect_schema_refs s = Ok r ∧ r ⊆ refs) ∧
  (∀ stored component prefix, (stored, component, prefix) ∈ named →
     ∃ ref, parse_stored_component_reference stored component = Ok ref ∧ push_component_ref ref prefix ∈ refs).

Lemma covers_nil refs : covers [] [] refs.
Proof. split; set_solver. Qed.

Lemma covers_app s1 n1 s2 n2 r1 r2 : covers s1 n1 r1 → covers s2 n2 r2 → covers (s1 ++ s2) (n1 ++ n2) (r1 ++ r2).
Proof.
  intros [H1 N1] [H2 N2]. split.
  - intros s [Hs|Hs]%elem_of_app; [destruct (H1 s Hs) as (r & ? & ?)|destruct (H2 s Hs) as (r & ? & ?)];
      exists r; split; [done|set_solver|done|set_solver].
  - intros st c p [Hn|Hn]%elem_of_app; [destruct (N1 _ _ _ Hn) as (r & ? & ?)|destruct (N2 _ _ _ Hn) as (r & ? & ?)];
      exists r; split; [done|set_solver|done|set_solver].
Qed.

Lemma covers_all {A} (f : A → outcome string (list TypeRef)) (S : A → list SchemaOrRef) (N : A → list named_ref) l refs :
  (∀ x r, f x = Ok r → covers (S x) (N x) r) → collect_all f l = Ok refs →
  covers (concat (S <$> l)) (concat (N <$> l)) refs.
Proof.
  intros Hf. revert refs. induction l as [|x l IH]; intros refs H; cbn in H.
  - injection H as <-. apply covers_nil.
  - ok_inv H. subst refs. cbn. apply covers_app; [by apply Hf|by apply IH].
Qed.

Lemma covers_opt {A} (f : A → outcome string (list TypeRef)) (S : A → list SchemaOrRef) (N : A → list named_ref) o refs :
  (∀ x r, f x = Ok r → covers (S x) (N x) r) → collect_opt f o = Ok refs →
  covers (concat (S <$> option_list o)) (concat (N <$> option_list o)) refs.
Proof.
  intros Hf H. destruct o as [x|]; cbn in *; [rewrite !app_nil_r; by apply Hf|]. injection H as <-. apply covers_nil.
Qed.

Lemma collect_all_elem {A} (f : A → outcome string (list TypeRef)) l refs x :
  collect_all f l = Ok refs → x ∈ l → ∃ r, f x = Ok r ∧ r ⊆ refs.
Proof.
  revert refs. induction l as [|y l IH]; intros refs H Hx; [by apply elem_of_nil in Hx|]. cbn in H. ok_inv H. subst refs.
  apply elem_of_cons in Hx as [->|Hx]; [exists x0; split; [done|set_solver]|].
  destruct (IH _ Hok0 Hx) as (r & ? & ?). exists r. split; [done|set_solver].
Qed.

(** The collector reaches every schema inside a schema. *)
Lemma collect_sub d s refs :
  collect_schema_def_refs d = Ok refs → subschema d s → ∃ r, collect_schema_refs s = Ok r ∧ r ⊆ refs.
Proof.
  unfold collect_schema_def_refs, collect_schema_def_with. intros H Hsub. ok_inv H. subst refs.
  destruct Hsub as [Hs|[(p & Hp & Hs)|[Hs|[Hs|[Hs|[Hs|Hs]]]]]].
  - rewrite Hs in Hok. exists x. split; [done|set_solver].
  - destruct (collect_all_elem _ _ _ _ Hok0 Hp) as (r & Hr & ?). rewrite Hs in Hr. exists r. split; [done|set_solver].
  - destruct (collect_all_elem _ _ _ _ Hok1 Hs) as (r & Hr & ?). exists r. split; [done|set_solver].
  - destruct (collect_all_elem _ _ _ _ Hok2 Hs) as (r & Hr & ?). exists r. split; [done|set_solver].
  - destruct (collect_all_elem _ _ _ _ Hok3 Hs) as (r & Hr & ?). exists r. split; [done|set_solver].
  - rewrite Hs in Hok4. exists x4. split; [done|set_solver].
  - rewrite Hs in Hok5. exists x5. split; [done|set_solver].
Qed.

Lemma collect_within r s refs :
  collect_schema_refs s = Ok refs → within (SchemaByRef r) s →
  ∃ ref, parse_stored_schema_reference r = Ok ref ∧ push_component_ref ref "schema" ∈ refs.
Proof.
  intros H Hw. revert refs H. induction Hw as [|d s Hsub _ IH]; intros refs H.
  - cbn in H. ok_inv H. subst refs. exists x. split; [done|set_solver].
  - destruct (collect_sub d s refs H Hsub) as (r' & Hr' & Hincl). destruct (IH _ Hr') as (ref & Href & Hin).
    exists ref. split; [done|set_solver].
Qed.

Lemma covers_schema s r : collect_schema_refs s = Ok r → covers [s] [] r.
Proof. intros H. split; [|set_solver]. intros s' ->%list_elem_of_singleton. by exists r. Qed.

Lemma covers_schema_opt o r : collect_opt collect_schema_refs o = Ok r → covers (option_list o) [] r.
Proof. destruct o as [s|]; cbn; [apply covers_schema|]. intros [= <-]. apply covers_nil. Qed.

(** Collecting over optional schemas of a list. *)
Lemma covers_schemas {A} (f : A → option SchemaOrRef) l r :
  collect_all (λ x, collect_opt collect_schema_refs (f x)) l = Ok r → covers (omap f l) [] r.
Proof.
  revert r. induction l as [|x l IH]; intros r H; cbn in H; [injection H as <-; apply covers_nil|].
  ok_inv H. subst r. specialize (IH _ Hok0). cbn. destruct (f x) as [s|]; cbn in Hok.
  - apply (covers_app [s] [] (omap f l) []); [by apply covers_schema|done].
  - by injection Hok as <-.
Qed.

Lemma covers_named stored component prefix r :
  collect_named_component_ref stored component prefix = Ok r → covers [] [(stored, component, prefix)] r.
Proof.
  unfold collect_named_component_ref. intros H. ok_inv H. subst r. split; [set_solver|].
  intros st c p [= -> -> ->]%list_elem_of_singleton. exists x. split; [done|by left].
Qed.

Lemma covers_param p r : collect_parameter_refs p = Ok r → covers (param_schemas p) (param_named p) r.
Proof. destruct p; [apply covers_schema_opt|apply covers_named]. Qed.

Lemma covers_body b r : collect_request_body_refs b = Ok r → covers (body_schemas b) (body_named b) r.
Proof. destruct b; [apply covers_schemas|apply covers_named]. Qed.

Lemma covers_response_def d r : collect_response_def_refs d = Ok r → covers (response_schemas d) [] r.
Proof.
  unfold collect_response_def_refs. intros H. ok_inv H. subst r.
  apply (covers_app _ [] _ []); by apply covers_schemas.
Qed.

Lemma covers_response d r : collect_response_refs d = Ok r → covers (response_or_ref_schemas d) (response_named d) r.
Proof. destruct d; [apply covers_response_def|apply covers_named]. Qed.

Lemma concat_omap {A B C} (g : A → option B) (f : B → list C) l :
  concat ((λ x, concat (f <$> option_list (g x))) <$> l) = concat (f <$> omap g l).
Proof. induction l as [|x l IH]; [done|]. cbn. rewrite IH. destruct (g x); cbn; by rewrite ?app_nil_r. Qed.

Lemma covers_operation op r : collect_operation_refs op = Ok r → covers (operation_schemas op) (operation_named op) r.
Proof.
  unfold collect_operation_refs. intros H. ok_inv H. subst r. unfold operation_schemas, operation_named.
  apply covers_app; [by eapply covers_all, Hok; apply covers_param|].
  apply covers_app; [by eapply covers_opt, Hok0; apply covers_body|].
  rewrite <- !concat_omap. eapply covers_all, Hok1. intros entry r Hr. eapply covers_opt, Hr. apply covers_response.
Qed.

Lemma covers_payload p r : collect_type_refs p = Ok r → covers (payload_schemas p) (payload_named p) r.
Proof.
  destruct p as [b|b|b|b|b]; cbn [collect_type_refs payload_schemas payload_named]; intros H.
  - ok_inv H. subst r. apply covers_app; eapply covers_all; eauto using covers_param, covers_operation.
  - destruct (cs_schema b) as [d|]; cbn in *; [by apply covers_schema|injection H as <-; apply covers_nil].
  - destruct (cpm_parameter b) as [d|]; cbn in *; [rewrite app_nil_r; by apply covers_schema_opt|injection H as <-; apply covers_nil].
  - destruct (crs_response b) as [d|]; cbn in *; [rewrite app_nil_r; by apply covers_response_def|injection H as <-; apply covers_nil].
  - destruct (crb_request_body b) as [d|]; cbn in *; [rewrite app_nil_r; by apply covers_schemas|injection H as <-; apply covers_nil].
Qed.

(** A declaration whose local references resolve: schemas at any depth, and
    parameters, bodies and responses that are referred to by name. *)
Definition refs_resolve (decls : gmap string DeclBlob) (p : OpenApiPayload) : Prop :=
  (∀ s r n, s ∈ payload_schemas p → within (SchemaByRef r) s → parse_stored_schema_reference r = Ok (LocalRef n) →
     is_Some (decls !! ("schema:" +:+ n)%string)) ∧
  (∀ stored component prefix n, (stored, component, prefix) ∈ payload_named p →
     parse_stored_component_reference stored component = Ok (LocalRef n) →
     is_Some (decls !! (prefix +:+ ":" +:+ n)%string)).

Lemma no_missing schema refs n :
  missing_refs schema refs = [] → type_ref_new n ∈ refs → is_Some (so_decls schema !! n).
Proof.
  unfold missing_refs. intros H Hin. destruct (so_decls schema !! n) eqn:E; [by eexists|].
  exfalso. apply fmap_nil_inv in H. apply (not_elem_of_nil (A := TypeRef) (type_ref_new n)). rewrite <- H. apply elem_of_bool_filter.
  split; [done|]. cbn. by rewrite E.
Qed.

Lemma validated_resolve schema name blob :
  validate_schema_references schema = Ok tt → so_decls schema !! name = Some blob →
  ∃ decl, oa_decode_decl blob = Ok decl ∧ refs_resolve (so_decls schema) (od_kind decl).
Proof.
  unfold validate_schema_references. intros H Hb.
  eapply for_each_Ok in H; [|by apply elem_of_btree_iter]. cbv beta iota in H. ok_inv H.
  unfold stored_refs in Hok. ok_inv Hok. ok_leaf Hok. exists x0. split; [done|].
  apply fail_if_Ok, negb_false_iff, bool_decide_eq_true in H.
  destruct (covers_payload _ _ Hok) as [Hs Hn]. split.
  - intros s r n Hin Hw Hr. destruct (Hs s Hin) as (rs & Hrs & Hincl).
    destruct (collect_within r s rs Hrs Hw) as (ref & Href & Hpush). assert (ref = LocalRef n) as -> by congruence.
    apply (no_missing schema x); [done|]. by apply Hincl.
  - intros stored component prefix n Hin Hr. destruct (Hn _ _ _ Hin) as (ref & Href & Hpush).
    assert (ref = LocalRef n) as -> by congruence. by apply (no_missing schema x).
Qed.

(** C21. A batch of OpenAPI operations that succeeds leaves a schema in which every
    declaration can be read and every local reference resolves: a [$ref] to a
    schema at whatever depth (items, properties, alternatives, negations,
    additional properties, parameters, media types, headers), and every reference
    to a parameter, a request body or a response, names a stored declaration. *)
Theorem openapi_references_resolve (schema : SchemaObjects) (ops : list Mutation) (effect : MutationEffect)
    (name : string) (blob : DeclBlob) :
  oa_apply_mutations schema ops = Ok effect → so_decls (apply_effect schema effect) !! name = Some blob →
  ∃ decl, oa_decode_decl blob = Ok decl ∧ refs_resolve (so_decls (apply_effect schema effect)) (od_kind decl).
Proof.
  unfold oa_apply_mutations. intros H. ok_inv H. subst effect. destruct x0.
  destruct (batch_runs schema _ _ _ Hok (net_start schema)) as [_ Hnet]. rewrite net_effect by done.
  by apply validated_resolve.
Qed.

End Resolved.

(** * What printing keeps of a document

    The printer writes a part of each schema only. A document whose schemas lose
    their constraints, defaults, access flags, extensions and additional
    properties prints to the same text. *)

Lemma section_map {A B} (g : A → B) (l : list A) heading f f' :
  (∀ x, x ∈ l → f (g x) = f' x) → section (g <$> l) heading f = section l heading f'.
Proof.
  intros H. unfold section. destruct l as [|x l]; [done|]. cbn [fmap list_fmap].
  rewrite H by (by left). do 2 f_equal. cbn [str_concat]. f_equal. f_equal. rewrite <- list_fmap_compose.
  apply list_fmap_ext. intros i y Hy%list_elem_of_lookup_2. apply H. by right.
Qed.

Lemma when_map {A B} (g : A → B) (o : option A) f f' :
  (∀ x, o = Some x → f (g x) = f' x) → when_some (g <$> o) f = when_some o f'.
Proof. destruct o as [x|]; cbn; auto. Qed.

Lemma app_congr (a a' b b' : string) : a = a' → b = b' → a +:+ b = a' +:+ b'.
Proof. by intros -> ->. Qed.

(** Compare two texts piece by piece. *)
Ltac same_text :=
  repeat first [reflexivity | apply app_congr | apply section_map; intros ? ? | apply when_map; intros ? ?].

Section Forget.
Context {F64 : RustF64} {RF : RustFmt}.

(** ** Induction on schemas *)

Lemma schema_ind (P : SchemaOrRef → Prop) :
  (∀ r, P (SchemaByRef r)) → (∀ d, (∀ s, subschema d s → P s) → P (SchemaInline d)) → ∀ s, P s.
Proof.
  intros Href Hdef. fix F 1. intros [d|r]; [|apply Href]. apply Hdef.
  destruct d as [types fmt minl maxl pat mn mx emn emx mult items mini maxi uniq props req apa aps minp maxp
    allof anyof oneof negated enums const title desc dflt depr ro wo ext].
  assert (Forall P allof) as Hall by (clear -F; induction allof; constructor; [apply F|done]).
  assert (Forall P anyof) as Hany by (clear -F; induction anyof; constructor; [apply F|done]).
  assert (Forall P oneof) as Hone by (clear -F; induction oneof; constructor; [apply F|done]).
  assert (Forall (λ p, match pr_schema p with Some x => P x | None => True end) props) as Hprops.
  { clear -F. induction props as [|[n [x|]] props IH]; constructor; [apply F|done|done|done]. }
  assert (match items with Some x => P x | None => True end) as Hitems by (destruct items; [apply F|done]).
  assert (match negated with Some x => P x | None => True end) as Hneg by (destruct negated; [apply F|done]).
  assert (match aps with Some x => P x | None => True end) as Haps by (destruct aps; [apply F|done]).
  clear F. intros s. unfold subschema. cbn. rewrite Forall_forall in Hprops. rewrite Forall_forall in Hall, Hany, Hone.
  intros [H|[(p & Hp & H)|[H|[H|[H|[H|H]]]]]]; [by rewrite H in Hitems| |by auto|by auto|by auto|by rewrite H in Hneg|by rewrite H in Haps].
  specialize (Hprops p Hp). by rewrite H in Hprops.
Qed.

(** ** Forgetting *)

(** A schema without the keywords that the printer does not write. *)
Definition forget_def_with {S} (forget : S → S) (d : SchemaDefOf S) : SchemaDefOf S :=
  {| js_types := js_types d; js_format := js_format d; js_min_length := None; js_max_length := None;
     js_pattern := None; js_minimum := None; js_maximum := None; js_exclusive_minimum := None;
     js_exclusive_maximum := None; js_multiple_of := None; js_items := forget <$> js_items d;
     js_min_items := None; js_max_items := None; js_unique_items := None;
     js_properties := (λ p, mkProperty (pr_name p) (forget <$> pr_schema p)) <$> js_properties d;
     js_required := js_required d; js_additional_properties_allowed := None;
     js_additional_properties_schema := None; js_min_properties := None; js_max_properties := None;
     js_all_of := forget <$> js_all_of d; js_any_of := forget <$> js_any_of d;
     js_one_of := forget <$> js_one_of d; js_not := forget <$> js_not d;
     js_enum_values := js_enum_values d; js_const_value := js_const_value d; js_title := js_title d;
     js_description := js_description d; js_default := None; js_deprecated := js_deprecated d;
     js_read_only := None; js_write_only := None; js_extensions := None |}.

Fixpoint forget_schema (s : SchemaOrRef) : SchemaOrRef :=
  match s with
  | SchemaInline d => SchemaInline (forget_def_with forget_schema d)
  | SchemaByRef r => SchemaByRef r
  end.

Definition forget_payload : OpenApiPayload → OpenApiPayload :=
  map_payload forget_schema (forget_def_with forget_schema).

Lemma forget_def_prints d n :
  (∀ s, subschema d s → ∀ n, print_schema_or_ref (forget_schema s) n = print_schema_or_ref s n) →
  print_schema_def (forget_def_with forget_schema d) n = print_schema_def d n.
Proof.
  intros H. unfold print_schema_def, print_schema_def_with, print_variants.
  cbn [forget_def_with js_types js_title js_description js_format js_enum_values js_const_value js_properties
    js_required js_items js_all_of js_any_of js_one_of js_not js_deprecated].
  same_text; apply H; unfold subschema; eauto 8.
Qed.

Lemma forget_prints s : ∀ n, print_schema_or_ref (forget_schema s) n = print_schema_or_ref s n.
Proof. induction s as [r|d IH] using schema_ind; [done|]. intros n. cbn. by apply forget_def_prints. Qed.

Lemma forget_component_prints d n : print_schema_def (forget_def_with forget_schema d) n = print_schema_def d n.
Proof. apply forget_def_prints. intros s _. apply forget_prints. Qed.

Lemma forget_param_cont p ip n : print_param_def_cont (map_param_def forget_schema p) ip n = print_param_def_cont p ip n.
Proof.
  unfold print_param_def_cont. cbn. same_text. apply forget_prints.
Qed.

Lemma forget_param p n : print_param_or_ref_item (map_param forget_schema p) n = print_param_or_ref_item p n.
Proof. destruct p; [|done]. cbn. by rewrite forget_param_cont. Qed.

Lemma forget_body_def b n : print_request_body_def (map_body_def forget_schema b) n = print_request_body_def b n.
Proof. unfold print_request_body_def. cbn. same_text. apply forget_prints. Qed.

Lemma forget_response_def r n : print_response_def (map_response_def forget_schema r) n = print_response_def r n.
Proof.
  unfold print_response_def. cbn. same_text; apply forget_prints.
Qed.

Lemma forget_operation o n : print_operation (map_operation forget_schema o) n = print_operation o n.
Proof.
  unfold print_operation. cbn. same_text.
  - apply forget_param.
  - match goal with |- context [map_body _ ?b] => destruct b end; [apply forget_body_def|done].
  - match goal with |- context [map_response _ ?r] => destruct r end; [apply forget_response_def|done].
Qed.

Lemma forget_path b n :
  print_path_item (mkPathItem (pi_path_pattern b) (pi_summary b) (pi_description b)
    (map_param forget_schema <$> pi_parameters b) (map_operation forget_schema <$> pi_operations b) (pi_extensions b)) n =
  print_path_item b n.
Proof.
  unfold print_path_item. cbn. same_text; [apply forget_param|]. f_equal. rewrite <- list_fmap_compose.
  apply list_fmap_ext. intros. apply forget_operation.
Qed.

(** The payloads of one kind, after forgetting. *)
Lemma omap_forget {A} (g : A → A) (f : OpenApiPayload → option A) (l : list OpenApiPayload) :
  (∀ p, f (forget_payload p) = g <$> f p) → omap f (forget_payload <$> l) = g <$> omap f l.
Proof.
  intros H. induction l as [|p l IH]; [done|]. cbn. rewrite H. destruct (f p); cbn; by rewrite IH.
Qed.

(** Printing an OpenAPI document loses most of its schemas: if every schema,
    at any depth, loses its lengths, bounds, patterns, item and property limits,
    additional properties, default, access flags and extensions, the document
    prints to the same text, so none of them can be recovered from it. *)
Theorem printer_forgets_constraints (metadata : DocumentMetadataBlob) (payloads : list OpenApiPayload) :
  print_document metadata (forget_payload <$> payloads) = print_document metadata payloads.
Proof.
  unfold print_document, path_items, component_schemas, component_parameters, component_responses,
    component_request_bodies.
  rewrite (omap_forget (λ b, mkPathItem (pi_path_pattern b) (pi_summary b) (pi_description b)
    (map_param forget_schema <$> pi_parameters b) (map_operation forget_schema <$> pi_operations b) (pi_extensions b)))
    by (by intros []).
  rewrite (omap_forget (λ b, mkComponentSchema (cs_name b) (forget_def_with forget_schema <$> cs_schema b) (cs_extensions b)))
    by (by intros []).
  rewrite (omap_forget (λ b, mkComponentParameter (cpm_name b) (map_param_def forget_schema <$> cpm_parameter b)))
    by (by intros []).
  rewrite (omap_forget (λ b, mkComponentResponse (crs_name b) (map_response_def forget_schema <$> crs_response b)))
    by (by intros []).
  rewrite (omap_forget (λ b, mkComponentRequestBody (crb_name b) (map_body_def forget_schema <$> crb_request_body b)))
    by (by intros []).
  rewrite !length_fmap. f_equal. f_equal; [apply section_map; intros; apply forget_path|].
  f_equal. f_equal; [|f_equal; [|f_equal]]; apply section_map; intros b _; cbn; f_equal; apply when_map; intros x _.
  - apply forget_component_prints.
  - unfold print_param_def. cbn. by rewrite forget_param_cont.
  - apply forget_response_def.
  - apply forget_body_def.
Qed.

End Forget.

(** * The compatibility rules of OpenAPI

    The checker of [OpenApiCompiler] implements a declarative specification. *)

Section Compat.
Context {F64 : RustF64} {RF : RustFmt} {OJ : OpenApiJson}.

(** ** The specification *)













(** ** The rules without the table *)



Lemma guarded_stays (g P Q : Prop) : (P ↔ ¬ Q) → (g → P) ↔ (Q → ¬ g).
Proof. tauto. Qed.




(** ** The checker *)













End Compat.
