(* ===== verification/OpenApiParserProps.v ===== *)
(** * OpenApiParserProps: the parser returns, and what it stores

    Parsing ends with declarations or an error on every source, and every
    declaration is stored under the key that its content determines. *)
From S2P Require Import Prelude RustStd SchemaTypes OpenApiAst OpenApiParser OpenApiPrinter OpenApiCompiler.
From Stdlib Require Import Strings.Byte Ascii.

Open Scope Z_scope.

(** ** Outcomes that are a value or an error *)

Definition settles {E A} (o : outcome E A) : Prop :=
  match o with Ok _ | Err _ => True | Panic | Stuck => False end.

Create HintDb settles.

Lemma settles_bind {E A B} (m : outcome E A) (f : A → outcome E B) :
  settles m → (∀ a, m = Ok a → settles (f a)) → settles (m ≫= f).
Proof. destruct m; cbn; auto. Qed.

Lemma settles_fmap {E A B} (m : outcome E A) (f : A → B) : settles m → settles (f <$> m).
Proof. by destruct m. Qed.

Lemma settles_map_err {E E' A} (f : E → E') (m : outcome E A) : settles m → settles (map_err f m).
Proof. by destruct m. Qed.

Lemma settles_ok_or {E A} (o : option A) (e : E) : settles (ok_or o e).
Proof. by destruct o. Qed.

Lemma settles_fail_if {E} b (e : E) : settles (fail_if b e).
Proof. by destruct b. Qed.

Lemma settles_mapM {E A B} (f : A → outcome E B) l : (∀ x, x ∈ l → settles (f x)) → settles (mapM f l).
Proof.
  induction l as [|x l IH]; intros H; [done|]. cbn. apply settles_bind; [apply H; by left|]. intros b _.
  apply settles_bind; [apply IH; intros y Hy; apply H; by right|]. done.
Qed.

Lemma settles_traverse {E A B} (f : A → outcome E B) o : (∀ x, o = Some x → settles (f x)) → settles (traverse_opt f o).
Proof. destruct o as [x|]; cbn; [|done]. intros H. by apply settles_fmap, H. Qed.

Lemma settles_indexed {E A B} (f : nat → A → outcome E B) i l :
  (∀ i x, x ∈ l → settles (f i x)) → settles (collect_indexed f i l).
Proof.
  revert i. induction l as [|x l IH]; intros i H; [done|]. cbn. apply settles_bind; [apply H; by left|]. intros b _.
  apply settles_bind; [apply IH; intros j y Hy; apply H; by right|]. done.
Qed.

#[export] Hint Resolve settles_ok_or settles_fail_if settles_fmap settles_map_err : settles.

(** One step of a program, or its end. *)
Ltac settle :=
  repeat first
    [ progress auto with settles
    | apply settles_bind; [auto with settles|intros ? ?]
    | exact I ].

Section Parser.
Context {F64 : RustF64} {Y : Yaml F64} {RF : RustFmt}.

(** The crates return: reading YAML and writing JSON end with a value or an error. *)
Class YamlReturns : Prop := {
  from_str_settles s : settles (yaml_from_str s);
  to_json_settles v : settles (yaml_to_json v);
  mapping_json_settles m : settles (mapping_to_json m);
}.

Context {YL : YamlLaws Y} {YR : YamlReturns}.

#[local] Hint Resolve from_str_settles to_json_settles mapping_json_settles : settles.

Lemma mapping_settles v context : settles (mapping v context).
Proof. unfold mapping. settle. Qed.

Lemma array_settles o context : settles (parse_optional_array o context).
Proof. unfold parse_optional_array. destruct o; settle. Qed.

Lemma optional_mapping_settles m field context : settles (optional_mapping m field context).
Proof. apply settles_traverse. intros. apply mapping_settles. Qed.

Lemma get_ref_settles v : settles (oa_get_ref v).
Proof. unfold oa_get_ref. destruct (as_mapping v); [|done]. destruct (map_get _ _); [|done]. settle. Qed.

Lemma reject_settles v context : settles (reject_standalone_reference v context).
Proof. apply settles_bind; [apply get_ref_settles|]. by intros [r|] _. Qed.

Lemma extensions_settles m context : settles (extract_extensions m context).
Proof. unfold extract_extensions. destruct (List.filter _ _); [done|]. settle. Qed.

Lemma optional_string_settles m field context : settles (optional_string m field context).
Proof. unfold optional_string. destruct (map_get _ _); settle. Qed.

Lemma string_items_settles context l : settles (string_items context l).
Proof. apply settles_indexed. settle. Qed.

Lemma variant_settles {A} table s (e : UnknownVariant) : settles (ok_or (E := UnknownVariant) (variant_of (A := A) table s) e).
Proof. apply settles_ok_or. Qed.

Lemma types_settles o : settles (parse_types o).
Proof.
  assert (∀ s, settles (parse_schema_type s)) as Ht by (intros s; apply settles_map_err, variant_settles).
  unfold parse_types. destruct o as [v|]; [|done]. destruct (as_str v); [|destruct (as_sequence v); [|done]].
  - apply settles_bind; [apply Ht|]. done.
  - apply settles_indexed. intros i x _. apply settles_bind; [settle|]. auto.
Qed.

Lemma unescape_settles s : settles (unescape s).
Proof.
  induction s as [s IH] using (induction_ltof1 _ String.length). unfold ltof in IH. destruct s as [|c rest]; [done|]. cbn.
  case_bool_decide; [|apply settles_bind; [apply IH; cbn; lia|done]].
  destruct rest as [|d rest]; [done|]. repeat case_bool_decide; try done;
    (apply settles_bind; [apply IH; cbn; lia|done]).
Qed.

Lemma component_name_settles s : settles (decode_component_name s).
Proof. apply settles_bind; [settle|]. intros. apply unescape_settles. Qed.

Lemma source_reference_settles r component : settles (parse_source_component_reference r component).
Proof.
  unfold parse_source_component_reference. destruct (strip_prefix _ _); [apply settles_fmap, component_name_settles|].
  apply settles_bind; [settle|]. intros _ _. apply settles_bind; [settle|]. intros [path fragment] _.
  unfold parse_external_reference. apply settles_bind; [unfold validate_schemahub_path; settle|]. intros _ _.
  apply settles_bind; [settle|]. intros ? _. apply settles_bind; [apply component_name_settles|]. done.
Qed.

Lemma json_text_settles v context : settles (json_value_to_string v context).
Proof. unfold json_value_to_string. settle. Qed.

#[local] Hint Resolve mapping_settles array_settles optional_mapping_settles get_ref_settles reject_settles
  extensions_settles optional_string_settles string_items_settles types_settles source_reference_settles
  json_text_settles : settles.

(** ** Schemas *)

(** A value that an entry of a mapping holds is smaller than the mapping. *)
Lemma get_smaller v m key x : as_mapping v = Some m → map_get m key = Some x → (yaml_height x < yaml_height v)%nat.
Proof. intros Hm (k & Hk)%map_get_elem. apply (mapping_smaller v m (k, x) Hm Hk). Qed.

Lemma array_smaller v m key context l x :
  as_mapping v = Some m → parse_optional_array (map_get m key) context = Ok l → x ∈ l →
  (yaml_height x < yaml_height v)%nat.
Proof.
  intros Hm Hl Hx. unfold parse_optional_array in Hl. destruct (map_get m key) as [y|] eqn:Hy.
  - apply ok_or_Ok in Hl. pose proof (get_smaller v m key y Hm Hy). pose proof (sequence_smaller y l x Hl Hx). lia.
  - injection Hl as <-. by apply elem_of_nil in Hx.
Qed.

Lemma submapping_smaller v m key context pm kv :
  as_mapping v = Some m → optional_mapping m key context = Ok pm → kv ∈ default [] pm →
  (yaml_height kv.2 < yaml_height v)%nat.
Proof.
  intros Hm Hpm Hkv. unfold optional_mapping, traverse_opt in Hpm. destruct (map_get m key) as [y|] eqn:Hy.
  - apply fmap_Ok in Hpm as (pm' & Hpm' & <-). unfold mapping in Hpm'. apply ok_or_Ok in Hpm'.
    pose proof (get_smaller v m key y Hm Hy). pose proof (mapping_smaller y pm' kv Hpm' Hkv). lia.
  - injection Hpm as <-. by apply elem_of_nil in Hkv.
Qed.

Lemma schema_def_settles {S} (parse : yaml → outcome ParseError S) v :
  (∀ x, (yaml_height x < yaml_height v)%nat → settles (parse x)) → settles (parse_schema_def_with parse v).
Proof.
  intros Hp. unfold parse_schema_def_with.
  apply settles_bind; [settle|intros _ _]. apply settles_bind; [settle|]. intros m Hm.
  unfold mapping in Hm. apply ok_or_Ok in Hm.
  assert (∀ key, settles (traverse_opt parse (map_get m key))) as Hopt.
  { intros key. apply settles_traverse. intros x Hx. eapply Hp, get_smaller; eauto. }
  assert (∀ key context, settles (parse_array_with parse (map_get m key) context)) as Harr.
  { intros key context. apply settles_bind; [settle|]. intros l Hl. apply settles_mapM. intros x Hx.
    eapply Hp, array_smaller; eauto. }
  assert (settles (parse_properties parse m)) as Hprops.
  { apply settles_bind; [settle|]. intros pm Hpm. apply settles_mapM. intros [k x] Hx.
    apply settles_bind; [unfold string_key; settle|]. intros ? _. apply settles_bind; [|done].
    intros. eapply Hp. apply (submapping_smaller _ _ _ _ _ (k, x) Hm Hpm Hx). }
  assert (settles (parse_additional parse (map_get m "additionalProperties"))) as Hadd.
  { unfold parse_additional. destruct (map_get m _) as [x|] eqn:Hx; [|done]. destruct (as_bool x); [done|].
    apply settles_bind; [|done]. eapply Hp, get_smaller; eauto. }
  assert (∀ o context, settles (traverse_opt (λ x, json_value_to_string x context) o)) as Hjson.
  { intros o context. apply settles_traverse. settle. }
  assert (∀ l, settles (mapM (λ x, json_value_to_string x "JSON Schema enum value") l)) as Hmap.
  { intros l. apply settles_mapM. settle. }
  repeat first [ done | apply settles_bind; [solve [auto with settles]|intros ? _]
               | match goal with p : option bool * option S |- _ => destruct p end ].
Qed.

Lemma schema_or_ref_settles fuel v : (yaml_height v < fuel)%nat → settles (parse_schema_or_ref_fuel fuel v).
Proof.
  revert v. induction fuel as [|fuel IH]; intros v Hv; [lia|]. cbn. apply settles_bind; [settle|]. intros [r|] _.
  - apply settles_bind; [settle|done].
  - apply settles_fmap, schema_def_settles. intros x Hx. apply IH. lia.
Qed.

Lemma schema_settles v : settles (parse_schema_or_ref v).
Proof. apply schema_or_ref_settles. lia. Qed.

#[local] Hint Resolve schema_settles : settles.

Lemma component_schema_settles v : settles (parse_schema_def v).
Proof. apply schema_def_settles. intros. apply schema_settles. Qed.

(** ** The rest of a document *)

Lemma schema_field_settles m key : settles (traverse_opt parse_schema_or_ref (map_get m key)).
Proof. apply settles_traverse. settle. Qed.

Lemma stored_ref_settles r component : settles (stored_ref r component).
Proof. unfold stored_ref. settle. Qed.

#[local] Hint Resolve component_schema_settles schema_field_settles stored_ref_settles : settles.

Lemma parameter_def_settles v : settles (parse_parameter_def v).
Proof. unfold parse_parameter_def, required_string, location_from_str. settle. Qed.

Lemma content_settles o : settles (parse_content o).
Proof.
  unfold parse_content. destruct o as [v|]; [|done]. apply settles_bind; [settle|]. intros l _.
  apply settles_mapM. intros kv _. unfold parse_media_type, string_key. settle.
Qed.

#[local] Hint Resolve parameter_def_settles content_settles : settles.

Lemma body_def_settles v : settles (parse_request_body_def v).
Proof. unfold parse_request_body_def. settle. Qed.

Lemma response_def_settles v : settles (parse_response_def v).
Proof.
  assert (∀ l, settles (mapM parse_header l)) as Hh.
  { intros l. apply settles_mapM. intros kv _. unfold parse_header, string_key. settle. }
  unfold parse_response_def, required_string. settle.
Qed.

#[local] Hint Resolve body_def_settles response_def_settles : settles.

(** A value that is a reference or a definition. *)
Lemma or_ref_settles {A B} (v : yaml) (f : string → outcome ParseError B) (g : A → B) (m : outcome ParseError A) :
  (∀ r, settles (f r)) → settles m →
  settles (r ← oa_get_ref v; match r with Some ref_str => f ref_str | None => g <$> m end).
Proof. intros Hf Hm. apply settles_bind; [settle|]. intros [r|] _; [done|settle]. Qed.

Lemma parameter_settles v : settles (parse_parameter_or_ref v).
Proof. apply or_ref_settles; settle. Qed.

Lemma body_settles v : settles (parse_request_body_or_ref v).
Proof. apply or_ref_settles; settle. Qed.

Lemma response_settles v : settles (parse_response_or_ref v).
Proof. apply or_ref_settles; settle. Qed.

#[local] Hint Resolve parameter_settles body_settles response_settles : settles.

Lemma parameters_settles m context : settles (parse_parameters m context).
Proof. unfold parse_parameters. apply settles_bind; [settle|]. intros l _. apply settles_mapM. settle. Qed.

#[local] Hint Resolve parameters_settles : settles.

Lemma operation_settles method v : settles (parse_operation_def method v).
Proof.
  assert (∀ l, settles (mapM parse_response_entry l)) as Hr.
  { intros l. apply settles_mapM. intros kv _. unfold parse_response_entry, response_key_to_string.
    destruct (string_value kv.1); settle. }
  assert (∀ o, settles (traverse_opt parse_request_body_or_ref o)) as Hb.
  { intros o. apply settles_traverse. settle. }
  unfold parse_operation_def. settle.
Qed.

(** The names of the methods are methods, so the loop does not panic. *)
Lemma operations_settle m methods :
  (∀ s, s ∈ methods → s ∈ http_methods) → settles (parse_operations m methods).
Proof.
  induction methods as [|s methods IH]; intros Hin; [done|]. cbn.
  assert (settles (parse_operations m methods)) as Hrest by (apply IH; intros s' ?; apply Hin; by right).
  destruct (map_get m s) as [v|]; [|done].
  assert (∃ method, method_from_str s = Ok method) as [method ->].
  { specialize (Hin s ltac:(by left)). unfold http_methods in Hin. set_unfold in Hin.
    repeat destruct Hin as [->|Hin]; try (eexists; reflexivity). done. }
  apply settles_bind; [apply operation_settles|]. intros ? _. by apply settles_bind.
Qed.

Lemma path_item_settles path v : settles (parse_path_item path v).
Proof.
  assert (∀ m, settles (parse_operations m http_methods)) as Ho by (intros m; by apply operations_settle).
  unfold parse_path_item. settle.
Qed.

Context {OJ : OpenApiJson}.

Lemma section_settles prefix context parse entries :
  (∀ name v, settles (parse name v)) → settles (parse_section prefix context parse entries).
Proof.
  intros Hp. apply settles_mapM. intros [k v] _. apply settles_bind; [unfold string_key; settle|]. intros name _.
  by apply settles_bind.
Qed.

Lemma components_settle m : settles (parse_components m).
Proof.
  unfold parse_components.
  repeat (apply settles_bind; [first [by apply optional_mapping_settles|apply section_settles; intros name v;
    unfold parse_component_schema, parse_component_parameter, parse_component_response, parse_component_request_body;
    settle]|intros ? _]).
  done.
Qed.

Lemma document_settles root : settles (parse_document root).
Proof.
  assert (∀ o, settles (parse_servers o)) as Hs.
  { intros [v|]; [|done]. apply settles_bind; [settle|]. intros l _. apply settles_indexed. intros i x _.
    unfold required_string. settle. }
  assert (∀ o, settles (parse_info_object o)) as Hi by (intros o; unfold parse_info_object; settle).
  assert (∀ l, settles (parse_section "path:" "paths" (λ path v, OaPathItem <$> parse_path_item path v) l)) as Hp.
  { intros l. apply section_settles. intros. apply settles_fmap, path_item_settles. }
  assert (∀ o, settles (match o with Some c => parse_components c | None => Ok [] end)) as Hc.
  { intros [c|]; [apply components_settle|done]. }
  unfold parse_document. settle.
Qed.

(** C33. Parsing an OpenAPI document returns: whatever the source is, however deep
    its schemas nest, the parser ends with declarations or a parse error; it never
    runs out of fuel and never reaches the panic of the method table. *)
Theorem parse_openapi_returns (source : string) : settles (parse_openapi source).
Proof. apply settles_bind; [settle|]. intros root _. apply document_settles. Qed.


(** ** Keys *)

(** An entry is keyed by the payload that it stores. *)
Definition keyed (entry : string * DeclBlob) : Prop :=
  ∃ payload, entry.1 = oa_decl_key payload ∧ entry.2 = oa_encode_decl (openapi_decl_new payload).

Lemma section_keyed prefix context parse entries l :
  (∀ name v payload, parse name v = Ok payload → oa_decl_key payload = (prefix +:+ name)%string) →
  parse_section prefix context parse entries = Ok l → Forall keyed l.
Proof.
  intros Hp. apply mapM_Forall. intros [k v] entry _ H. ok_inv H. subst entry. exists x0. split; [|done].
  by rewrite (Hp _ _ _ Hok0).
Qed.

Lemma components_keyed m l : parse_components m = Ok l → Forall keyed l.
Proof.
  unfold parse_components. intros H. ok_inv H. subst l.
  repeat apply Forall_app_2; (eapply section_keyed; [|done]); intros name v payload Hp;
    unfold parse_component_schema, parse_component_parameter, parse_component_response, parse_component_request_body in Hp;
    ok_inv Hp; by subst payload.
Qed.

Lemma document_keyed root parsed : parse_document root = Ok parsed → Forall keyed (ps_decls parsed).
Proof.
  unfold parse_document. intros H. ok_inv H. subst parsed. apply Forall_app_2.
  - eapply section_keyed; [|done]. intros path v payload (b & Hb & <-)%fmap_Ok. cbn. unfold parse_path_item in Hb.
    ok_inv Hb. by subst b.
  - destruct x7; [by eapply components_keyed|]. by injection Hok8 as <-.
Qed.

Context {OL : OpenApiJsonLaws}.

(** Every declaration that parsing an OpenAPI document gives is stored under
    the key that its content determines, [path:], [schema:], [param:], [response:]
    or [requestBody:] and its name, and its blob decodes with the current version;
    so the operations that read a declaration without its key agree with the tree. *)
Theorem parse_openapi_keyed (source : string) (parsed : ParsedSchema) (key : string) (blob : DeclBlob) :
  parse_openapi source = Ok parsed → (key, blob) ∈ ps_decls parsed →
  ∃ payload, oa_decode_decl blob = Ok (openapi_decl_new payload) ∧ oa_decl_key payload = key.
Proof.
  unfold parse_openapi. intros H Hin. ok_inv H. apply document_keyed in H.
  rewrite Forall_forall in H. destruct (H _ Hin) as (payload & Hk & Hb). cbn in Hk, Hb. subst.
  exists (reread_oa_payload oa_json_f64 payload). split; [apply oa_decode_encode|]. by destruct payload.
Qed.

End Parser.
