(* ===== verification/OpenApiModel.v ===== *)
(** * OpenApiModel: OpenAPI documents at concrete inputs

    Instances of the classes that stand for [serde_yaml] and [serde_json], the
    witnesses of the theorems on the OpenAPI compiler, and documents that show
    what its checks and its descriptors do not promise. *)
From S2P Require Import Prelude RustStd SchemaTypes Effects OpenApiAst OpenApiParser OpenApiPrinter OpenApiCompiler OpenApiProps OpenApiParserProps ProtocModel ChangeModel ChangeJsonModel AccessModel FbsModel.
From Stdlib Require Import Strings.Byte Ascii.
From stdpp Require Import countable.

Open Scope Z_scope.

(** ** Schemas as trees *)

#[export] Instance tree_tree : Treeable tree.
Proof. refine {| to_tree t := t; of_tree t := Some t |}. done. Defined.

#[export] Instance byte_tree : Treeable byte.
Proof.
  refine {| to_tree b := GenLeaf (inr (u8 b));
            of_tree t := match t with GenLeaf (inr z) => Some (byte_of_Z z) | _ => None end |}.
  by intros [].
Defined.

#[export] Instance ExternalImport_tree : Treeable ExternalImport.
Proof.
  refine (inj_tree (λ e, (ei_path e, ei_resolved_commit e, ei_decl_name e)) (λ '(a, b, c), mkExternalImport a b c) _).
  by intros [].
Defined.

#[export] Instance SchemaRef_tree : Treeable SchemaRef.
Proof. refine (inj_tree (λ r, (sr_local_name r, sr_external_import r)) (λ '(a, b), mkSchemaRef a b) _). by intros []. Defined.

#[export] Instance Extensions_tree : Treeable Extensions.
Proof. refine (inj_tree ex_json_bytes mkExtensions _). by intros []. Defined.

#[export] Instance JsonSchemaType_tree : Treeable JsonSchemaType.
Proof.
  refine (inj_tree schema_type_to_str (λ s, match schema_type_from_str s with Ok t => t | _ => JsNull end) _).
  by intros [].
Defined.

Definition scalars : Type :=
  list JsonSchemaType * option string * option Z * option Z * option string * option string * option string *
  option bool * option bool * option string * option Z * option Z * option bool * list string * option bool *
  option Z * option Z * list string * option string * option string * option string * option string * option bool *
  option bool * option bool * option Extensions.

Definition kids (S : Type) : Type :=
  option S * list (string * option S) * option S * list S * list S * list S * option S.

Definition def_scalars {S} (d : SchemaDefOf S) : scalars :=
  (js_types d, js_format d, js_min_length d, js_max_length d, js_pattern d, js_minimum d, js_maximum d,
   js_exclusive_minimum d, js_exclusive_maximum d, js_multiple_of d, js_min_items d, js_max_items d,
   js_unique_items d, js_required d, js_additional_properties_allowed d, js_min_properties d, js_max_properties d,
   js_enum_values d, js_const_value d, js_title d, js_description d, js_default d, js_deprecated d, js_read_only d,
   js_write_only d, js_extensions d).

Definition def_kids {S T} (f : S → T) (d : SchemaDefOf S) : kids T :=
  (f <$> js_items d, (λ p, (pr_name p, f <$> pr_schema p)) <$> js_properties d,
   f <$> js_additional_properties_schema d, f <$> js_all_of d, f <$> js_any_of d, f <$> js_one_of d, f <$> js_not d).

Definition make_def {S} (sc : scalars) (k : kids S) : SchemaDefOf S :=
  let '(types, fmt, minl, maxl, pat, mn, mx, emn, emx, mult, mini, maxi, uniq, req, apa, minp, maxp, enums, const,
        title, desc, dflt, depr, ro, wo, ext) := sc in
  let '(items, props, aps, allof, anyof, oneof, negated) := k in
  mkSchemaDef types fmt minl maxl pat mn mx emn emx mult items mini maxi uniq
    ((λ '(n, s), mkProperty n s) <$> props) req apa aps minp maxp allof anyof oneof negated enums const title desc
    dflt depr ro wo ext.

Definition opt_traverse {A B} (f : A → option B) (o : option A) : option (option B) :=
  match o with Some a => Some <$> f a | None => Some None end.

Definition kids_traverse {S T} (f : S → option T) (k : kids S) : option (kids T) :=
  let '(items, props, aps, allof, anyof, oneof, negated) := k in
  items ← opt_traverse f items;
  props ← mapM (λ '(n, s), (pair n) <$> opt_traverse f s) props;
  aps ← opt_traverse f aps;
  allof ← mapM f allof;
  anyof ← mapM f anyof;
  oneof ← mapM f oneof;
  negated ← opt_traverse f negated;
  Some (items, props, aps, allof, anyof, oneof, negated).

#[export] Instance scalars_tree : Treeable scalars := _.
#[export] Instance kids_tree {S} `{Treeable S} : Treeable (kids S) := _.

Fixpoint schema_enc (s : SchemaOrRef) : tree :=
  match s with
  | SchemaByRef r => GenNode 0 [to_tree r]
  | SchemaInline d => GenNode 1 [to_tree (def_scalars d); to_tree (def_kids schema_enc d)]
  end.

Fixpoint schema_dec (fuel : nat) (t : tree) : option SchemaOrRef :=
  match fuel, t with
  | S fuel, GenNode 0 [t] => SchemaByRef <$> of_tree t
  | S fuel, GenNode 1 [t; t'] =>
    sc ← of_tree t;
    k ← of_tree t';
    k ← kids_traverse (schema_dec fuel) k;
    Some (SchemaInline (make_def sc k))
  | _, _ => None
  end.

(** The fuel that a schema needs. *)
Definition opt_sum {A} (f : A → nat) (o : option A) : nat := match o with Some a => f a | None => O end.

Definition def_depth {S} (depth : S → nat) (d : SchemaDefOf S) : nat :=
  (opt_sum depth (js_items d) + list_sum ((λ p, opt_sum depth (pr_schema p)) <$> js_properties d) +
   opt_sum depth (js_additional_properties_schema d) + list_sum (depth <$> js_all_of d) +
   list_sum (depth <$> js_any_of d) + list_sum (depth <$> js_one_of d) + opt_sum depth (js_not d))%nat.

Fixpoint schema_depth (s : SchemaOrRef) : nat :=
  match s with SchemaByRef _ => 1%nat | SchemaInline d => S (def_depth schema_depth d) end.

Lemma opt_traverse_Some {A B} (g : B → A) (f : A → option B) o :
  (∀ b, o = Some b → f (g b) = Some b) → opt_traverse f (g <$> o) = Some o.
Proof. destruct o as [b|]; cbn; [|done]. intros H. by rewrite H. Qed.

Lemma mapM_inverse {A B} (g : B → A) (f : A → option B) l : (∀ b, b ∈ l → f (g b) = Some b) → mapM f (g <$> l) = Some l.
Proof.
  induction l as [|b l IH]; intros H; [done|]. cbn. rewrite H by (by left). cbn. rewrite IH; [done|].
  intros b' Hb'. apply H. by right.
Qed.

Lemma list_sum_elem {A} (f : A → nat) l x : x ∈ l → (f x <= list_sum (f <$> l))%nat.
Proof.
  induction l as [|y l IH]; intros Hx; [by apply elem_of_nil in Hx|]. change (list_sum (f <$> y :: l)) with (f y + list_sum (f <$> l))%nat.
  apply elem_of_cons in Hx as [->|Hx]; [lia|]. specialize (IH Hx). lia.
Qed.

Lemma kids_inverse {S T} (g : S → T) (f : T → option S) (depth : S → nat) n d :
  (∀ s, (depth s <= n)%nat → f (g s) = Some s) → (def_depth depth d <= n)%nat →
  kids_traverse f (def_kids g d) = Some (def_kids id d).
Proof.
  intros H Hd. unfold def_depth in Hd. unfold kids_traverse, def_kids.
  rewrite opt_traverse_Some by (intros s Hs; apply H; rewrite Hs in Hd; unfold opt_sum in Hd; lia). cbn [mbind option_bind].
  assert (mapM (λ '(m, s), pair m <$> opt_traverse f s) ((λ p, (pr_name p, g <$> pr_schema p)) <$> js_properties d) =
          Some ((λ p, (pr_name p, pr_schema p)) <$> js_properties d)) as ->.
  { assert (∀ p, p ∈ js_properties d → (opt_sum depth (pr_schema p) <= n)%nat) as Hp.
    { intros p Hin. pose proof (list_sum_elem (λ p, opt_sum depth (pr_schema p)) _ _ Hin). lia. }
    clear Hd. induction (js_properties d) as [|p l IH]; [done|]. cbn. rewrite opt_traverse_Some.
    - cbn. rewrite IH; [done|]. intros q Hq. apply Hp. by right.
    - intros s Hs. apply H. specialize (Hp p ltac:(by left)). by rewrite Hs in Hp. }
  cbn [mbind option_bind].
  rewrite opt_traverse_Some by (intros s Hs; apply H; rewrite Hs in Hd; unfold opt_sum in Hd; lia). cbn [mbind option_bind].
  rewrite !mapM_inverse; cbn [mbind option_bind];
    try (intros s Hs; apply H; pose proof (list_sum_elem depth _ _ Hs); lia).
  rewrite opt_traverse_Some by (intros s Hs; apply H; rewrite Hs in Hd; unfold opt_sum in Hd; lia). cbn [mbind option_bind].
  rewrite !option_fmap_id, !list_fmap_id.
  assert ((λ p, (pr_name p, id <$> pr_schema p)) <$> js_properties d = (λ p, (pr_name p, pr_schema p)) <$> js_properties d)
    as -> by (apply list_fmap_ext; intros ???; by rewrite option_fmap_id).
  done.
Qed.

Lemma make_parts {S} (d : SchemaDefOf S) : make_def (def_scalars d) (def_kids id d) = d.
Proof.
  destruct d. cbn. f_equal; try apply option_fmap_id; try apply list_fmap_id.
  rewrite <- list_fmap_compose. induction js_properties as [|[n o] l IH]; [done|]. cbn. rewrite IH. by destruct o.
Qed.

Lemma schema_dec_enc s : ∀ n, (schema_depth s <= n)%nat → schema_dec n (schema_enc s) = Some s.
Proof.
  intros n. revert s. induction n as [|n IH]; intros s Hs; [destruct s; cbn in Hs; lia|].
  destruct s as [d|r]; cbn [schema_enc schema_dec].
  - rewrite !of_to_tree. cbn [mbind option_bind]. cbn in Hs.
    rewrite (kids_inverse schema_enc (schema_dec n) schema_depth n) by (auto || lia). cbn [mbind option_bind].
    by rewrite make_parts.
  - by rewrite of_to_tree.
Qed.

#[export] Instance SchemaOrRef_tree : Treeable SchemaOrRef.
Proof.
  refine {| to_tree s := GenNode (schema_depth s) [schema_enc s];
            of_tree t := match t with GenNode n [t] => schema_dec n t | _ => None end |}.
  intros s. apply schema_dec_enc. lia.
Defined.

#[export] Instance JsonSchemaDef_tree : Treeable JsonSchemaDef.
Proof.
  refine (inj_tree SchemaInline (λ s, match s with SchemaInline d => d | SchemaByRef _ => make_def ([], None, None, None, None, None, None, None, None, None, None, None, None, [], None, None, None, [], None, None, None, None, None, None, None, None) (None, [], None, [], [], [], None) end) _).
  done.
Defined.

(** ** The other records as trees *)

#[export] Instance HttpMethod_tree : Treeable HttpMethod.
Proof.
  refine (inj_tree method_to_str (λ s, match method_from_str s with Ok m => m | _ => HttpGet end) _). by intros [].
Defined.

#[export] Instance ParameterLocation_tree : Treeable ParameterLocation.
Proof.
  refine (inj_tree location_to_str (λ s, match location_from_str s with Ok m => m | _ => InQuery end) _). by intros [].
Defined.

#[export] Instance sum_tree {A B} `{Treeable A, Treeable B} : Treeable (A + B).
Proof.
  refine {| to_tree ab := match ab with inl a => GenNode 0 [to_tree a] | inr b => GenNode 1 [to_tree b] end;
            of_tree t := match t with
                         | GenNode 0 [t] => inl <$> of_tree t
                         | GenNode 1 [t] => inr <$> of_tree t
                         | _ => None
                         end |}.
  intros [a|b]; by rewrite of_to_tree.
Defined.

#[export] Instance ParameterDef_tree : Treeable ParameterDef.
Proof.
  refine (inj_tree (λ p, (pm_name p, pm_location p, pm_description p, pm_required p, pm_deprecated p, pm_schema p,
                          pm_extensions p)) (λ '(a, b, c, d, e, f, g), mkParameterDef a b c d e f g) _). by intros [].
Defined.

#[export] Instance ParameterOrRef_tree : Treeable ParameterOrRef.
Proof.
  refine (inj_tree (λ p, match p with ParamInline p => inl p | ParamByRef r => inr r end)
            (λ s, match s with inl p => ParamInline p | inr r => ParamByRef r end) _). by intros [].
Defined.

#[export] Instance MediaTypeEntry_tree : Treeable MediaTypeEntry.
Proof.
  refine (inj_tree (λ e, (mt_media_type e, mt_schema e, mt_extensions e)) (λ '(a, b, c), mkMediaTypeEntry a b c) _).
  by intros [].
Defined.

#[export] Instance RequestBodyDef_tree : Treeable RequestBodyDef.
Proof.
  refine (inj_tree (λ b, (rb_description b, rb_required b, rb_content b, rb_extensions b))
            (λ '(a, b, c, d), mkRequestBodyDef a b c d) _). by intros [].
Defined.

#[export] Instance RequestBodyOrRef_tree : Treeable RequestBodyOrRef.
Proof.
  refine (inj_tree (λ p, match p with BodyInline p => inl p | BodyByRef r => inr r end)
            (λ s, match s with inl p => BodyInline p | inr r => BodyByRef r end) _). by intros [].
Defined.

#[export] Instance HeaderDef_tree : Treeable HeaderDef.
Proof.
  refine (inj_tree (λ h, (hd_name h, hd_description h, hd_required h, hd_schema h)) (λ '(a, b, c, d), mkHeaderDef a b c d) _).
  by intros [].
Defined.

#[export] Instance ResponseDef_tree : Treeable ResponseDef.
Proof.
  refine (inj_tree (λ r, (rs_description r, rs_content r, rs_headers r, rs_extensions r))
            (λ '(a, b, c, d), mkResponseDef a b c d) _). by intros [].
Defined.

#[export] Instance ResponseOrRef_tree : Treeable ResponseOrRef.
Proof.
  refine (inj_tree (λ p, match p with ResponseInline p => inl p | ResponseByRef r => inr r end)
            (λ s, match s with inl p => ResponseInline p | inr r => ResponseByRef r end) _). by intros [].
Defined.

#[export] Instance ResponseEntry_tree : Treeable ResponseEntry.
Proof. refine (inj_tree (λ e, (re_status_code e, re_response e)) (λ '(a, b), mkResponseEntry a b) _). by intros []. Defined.

#[export] Instance OperationDef_tree : Treeable OperationDef.
Proof.
  refine (inj_tree (λ o, (od_method o, od_operation_id o, od_summary o, od_description o, od_tags o, od_parameters o,
                          od_request_body o, od_responses o, od_deprecated o, od_extensions o))
            (λ '(a, b, c, d, e, f, g, h, i, j), mkOperationDef a b c d e f g h i j) _). by intros [].
Defined.

#[export] Instance InfoObject_tree : Treeable InfoObject.
Proof.
  refine (inj_tree (λ i, (io_title i, io_description i, io_version i, io_terms_of_service i))
            (λ '(a, b, c, d), mkInfoObject a b c d) _). by intros [].
Defined.

#[export] Instance ServerObject_tree : Treeable ServerObject.
Proof. refine (inj_tree (λ s, (so_url s, so_description s)) (λ '(a, b), mkServerObject a b) _). by intros []. Defined.

#[export] Instance DocumentMetadata_tree : Treeable DocumentMetadataBlob.
Proof.
  refine (inj_tree (λ m, (dm_blob_version m, dm_openapi_version m, dm_info m, dm_servers m, dm_extensions m))
            (λ '(a, b, c, d, e), mkDocumentMetadata a b c d e) _). by intros [].
Defined.

#[export] Instance PathItem_tree : Treeable PathItemBlob.
Proof.
  refine (inj_tree (λ p, (pi_path_pattern p, pi_summary p, pi_description p, pi_parameters p, pi_operations p,
                          pi_extensions p)) (λ '(a, b, c, d, e, f), mkPathItem a b c d e f) _). by intros [].
Defined.

#[export] Instance OpenApiPayload_tree : Treeable OpenApiPayload.
Proof.
  refine (inj_tree
    (λ p, match p with
          | OaPathItem b => inl b
          | OaComponentSchema b => inr (inl (cs_name b, cs_schema b, cs_extensions b))
          | OaComponentParameter b => inr (inr (inl (cpm_name b, cpm_parameter b)))
          | OaComponentResponse b => inr (inr (inr (inl (crs_name b, crs_response b))))
          | OaComponentRequestBody b => inr (inr (inr (inr (crb_name b, crb_request_body b))))
          end)
    (λ s, match s with
          | inl b => OaPathItem b
          | inr (inl (a, b, c)) => OaComponentSchema (mkComponentSchema a b c)
          | inr (inr (inl (a, b))) => OaComponentParameter (mkComponentParameter a b)
          | inr (inr (inr (inl (a, b)))) => OaComponentResponse (mkComponentResponse a b)
          | inr (inr (inr (inr (a, b)))) => OaComponentRequestBody (mkComponentRequestBody a b)
          end) _).
  by intros [|[]|[]|[]|[]].
Defined.

#[export] Instance OpenApiDecl_tree : Treeable OpenApiDecl.
Proof. refine (inj_tree (λ d, (od_blob_version d, od_kind d)) (λ '(a, b), mkOpenApiDecl a b) _). by intros []. Defined.

Definition oa_op_parts (op : OpenApiOp) : Z * list string :=
  match op with
  | PushDocument s => (0, [s])
  | AddPath a b c => (1, [a; b; c])
  | RemovePath a => (2, [a])
  | AddOperation a b c d e => (3, [a; b; c; d; e])
  | RemoveOperation a b => (4, [a; b])
  | AddComponentSchema a b c => (5, [a; b; c])
  | RemoveComponentSchema a => (6, [a])
  end.

Definition oa_op_of_parts (parts : Z * list string) : OpenApiOp :=
  match parts with
  | (0, [s]) => PushDocument s
  | (1, [a; b; c]) => AddPath a b c
  | (2, [a]) => RemovePath a
  | (3, [a; b; c; d; e]) => AddOperation a b c d e
  | (4, [a; b]) => RemoveOperation a b
  | (5, [a; b; c]) => AddComponentSchema a b c
  | (_, l) => RemoveComponentSchema (default ""%string (head l))
  end.

#[export] Instance OpenApiOp_tree : Treeable OpenApiOp.
Proof. refine (inj_tree oa_op_parts oa_op_of_parts _). by intros []. Defined.

(** ** The classes *)

#[export] Instance tree_openapi_json : OpenApiJson := {
  oa_decl_to_vec := tree_to_vec;
  oa_decl_from_slice bs :=
    (λ d, mkOpenApiDecl (od_blob_version d) (reread_oa_payload imprecise (od_kind d))) <$> tree_from_slice bs;
  oa_meta_to_vec := tree_to_vec;
  oa_meta_from_slice := tree_from_slice;
  oa_json_f64 := imprecise;
}.

#[export] Instance tree_openapi_json_laws : OpenApiJsonLaws.
Proof.
  split.
  - intros d. cbn [oa_decl_from_slice oa_decl_to_vec tree_openapi_json]. by rewrite tree_roundtrip.
  - intros m. apply tree_roundtrip.
  - intros m. done.
Qed.

#[export] Instance tree_openapi_ops : OpenApiOpJson := { oa_op_to_vec := tree_to_vec; oa_op_from_slice := tree_from_slice }.

(** YAML values are trees: a leaf is a text or a number, node 0 a sequence, node 1
    a mapping with keys and values in turn, node 2 true and node 3 false. A source
    text holds the bytes of a tree. *)
Fixpoint tree_pairs (l : list tree) : list (tree * tree) :=
  match l with k :: v :: l => (k, v) :: tree_pairs l | _ => [] end.

Fixpoint tree_height (t : tree) : nat :=
  match t with GenLeaf _ => O | GenNode _ l => S (list_max (map tree_height l)) end.

Definition text_key (key : string) (kv : tree * tree) : bool :=
  match kv.1 with GenLeaf (inl k) => bool_decide (k = key) | _ => false end.

#[export] Instance tree_yaml : Yaml text_f64 := {
  yaml := tree;
  yaml_from_str s := tree_from_slice (String.list_byte_of_string s);
  as_str t := match t with GenLeaf (inl s) => Some s | _ => None end;
  as_bool t := match t with GenNode 2 [] => Some true | GenNode 3 [] => Some false | _ => None end;
  yaml_as_u64 t := match t with GenLeaf (inr z) => if 0 <=? z then Some z else None | _ => None end;
  as_f64 t := match t with GenLeaf (inr z) => Some (fmt_Z z) | _ => None end;
  as_sequence t := match t with GenNode 0 l => Some l | _ => None end;
  as_mapping t := match t with GenNode 1 l => Some (tree_pairs l) | _ => None end;
  map_get m key := snd <$> List.find (text_key key) m;
  string_value t := match t with GenLeaf (inl s) => Some s | _ => None end;
  number_value t := match t with GenLeaf (inr z) => Some (fmt_Z z) | _ => None end;
  yaml_to_json t := Ok (String.string_of_list_byte (tree_to_vec t));
  mapping_to_json m := Ok (tree_to_vec m);
  yaml_height := tree_height;
}.

Lemma tree_pairs_elem l k v : (k, v) ∈ tree_pairs l → v ∈ l.
Proof.
  revert l k v. fix tree_pairs_elem 1. intros [|a [|b l]] k v H; [by apply elem_of_nil in H..|].
  cbn in H. apply elem_of_cons in H as [[= -> ->]|H]; [right; left|].
  do 2 right. exact (tree_pairs_elem l k v H).
Qed.

Lemma height_smaller n l x : x ∈ l → (tree_height x < tree_height (GenNode n l))%nat.
Proof.
  intros H. cbn [tree_height]. apply list_elem_of_In in H. apply (in_map tree_height) in H.
  pose proof (proj1 (list_max_le (map tree_height l) _) (le_n _)) as Hall. rewrite List.Forall_forall in Hall.
  specialize (Hall _ H). lia.
Qed.

#[export] Instance tree_yaml_laws : YamlLaws tree_yaml.
Proof.
  split.
  - intros [|[] l] l' x H Hx; try done. injection H as <-. by apply height_smaller.
  - intros [|[|[]] l] m [k v] H Hkv; try done. injection H as <-. apply height_smaller. by eapply tree_pairs_elem.
  - intros m key v H. cbn in H. destruct (find (text_key key) m) as [[k w]|] eqn:E; [|done]. injection H as <-.
    exists k. apply list_elem_of_In. by eapply (find_some (text_key key)).
Qed.

#[export] Instance tree_yaml_returns : YamlReturns.
Proof. split; intros x; [|exact I|exact I]. apply settles_ok_or. Qed.

(** ** A document *)

Definition ytext (s : string) : tree := GenLeaf (inl s).
Definition yseq (l : list tree) : tree := GenNode 0 l.
Definition ymap (l : list (string * tree)) : tree := GenNode 1 (concat ((λ kv, [ytext kv.1; kv.2]) <$> l)).
Definition yref (r : string) : tree := ymap [("$ref", ytext r)]%string.
Definition ysource (t : tree) : string := String.string_of_list_byte (tree_to_vec t).

Definition pets_response : tree :=
  ymap [("description", ytext "pets");
        ("content", ymap [("application/json", ymap [("schema", yref "#/components/schemas/Pet")])])]%string.

Definition pets_path : tree :=
  ymap [("get", ymap [("operationId", ytext "listPets"); ("responses", ymap [("200", pets_response)])])]%string.

Definition pet_schema : tree :=
  ymap [("type", ytext "object"); ("required", yseq [ytext "name"]);
        ("properties", ymap [("name", ymap [("type", ytext "string")]);
                             ("owner", yref "#/components/schemas/Owner")])]%string.

Definition pets : tree :=
  ymap [("openapi", ytext "3.0.3"); ("info", ymap [("title", ytext "Pets"); ("version", ytext "1")]);
        ("paths", ymap [("/pets", pets_path)]);
        ("components", ymap [("schemas", ymap [("Pet", pet_schema); ("Owner", ymap [("type", ytext "object")])])])]%string.

Definition pets_source : string := ysource pets.

Definition pets_parsed : ParsedSchema :=
  match parse_openapi pets_source with Ok p => p | _ => mkParsedSchema [] [] end.

Lemma pets_parse : parse_openapi pets_source = Ok pets_parsed.
Proof. vm_compute. reflexivity. Qed.

Definition empty_schema : SchemaObjects := mkSchemaObjects [] ∅.

Definition oa_mutation (op : OpenApiOp) : Mutation :=
  mkMutation (mkSchemaPath "acme" "shop" "pets.yaml") "openapi" (oa_op_encode op).

Definition pets_ops : list OpenApiOp :=
  [PushDocument pets_source; AddPath "/owners" "" "owners"; AddOperation "/owners" "get" "listOwners" "" "";
   RemovePath "/pets"; AddPath "/pets" "again" ""; AddComponentSchema "Tag" "string" ""]%string.

Definition oa_effect (schema : SchemaObjects) (ops : list OpenApiOp) : MutationEffect :=
  match oa_apply_mutations schema (oa_mutation <$> ops) with Ok e => e | _ => mkMutationEffect None [] [] end.

Lemma pets_ops_run : oa_apply_mutations empty_schema (oa_mutation <$> pets_ops) = Ok (oa_effect empty_schema pets_ops).
Proof. vm_compute. reflexivity. Qed.

(** ** Witnesses *)

Lemma parse_openapi_returns_witness : settles (parse_openapi pets_source).
Proof. exact (parse_openapi_returns pets_source). Defined.

Lemma component_reference_roundtrip_witness :
  parse_source_component_reference
    (render_component_reference (LocalRef "a/b~c") "schemas") "schemas" = Ok (LocalRef "a/b~c").
Proof. refine (component_reference_roundtrip (LocalRef "a/b~c") "schemas" _). split; [discriminate|reflexivity]. Defined.

Lemma openapi_batch_is_sequential_witness :
  oa_run empty_schema (oa_mutation <$> pets_ops) = Ok (apply_effect empty_schema (oa_effect empty_schema pets_ops)).
Proof. exact (openapi_batch_is_sequential empty_schema (oa_mutation <$> pets_ops) (oa_effect empty_schema pets_ops) pets_ops_run). Defined.

Definition stored_pet : DeclBlob :=
  default [] (so_decls (apply_effect empty_schema (oa_effect empty_schema pets_ops)) !! "schema:Pet"%string).

Lemma stored_pet_found :
  so_decls (apply_effect empty_schema (oa_effect empty_schema pets_ops)) !! "schema:Pet"%string = Some stored_pet.
Proof. vm_compute. reflexivity. Qed.

Lemma openapi_references_resolve_witness :
  ∃ decl, oa_decode_decl stored_pet = Ok decl ∧
    refs_resolve (so_decls (apply_effect empty_schema (oa_effect empty_schema pets_ops))) (od_kind decl).
Proof.
  exact (openapi_references_resolve empty_schema (oa_mutation <$> pets_ops) (oa_effect empty_schema pets_ops)
           "schema:Pet" stored_pet pets_ops_run stored_pet_found).
Defined.

Lemma stored_pet_parsed : ("schema:Pet"%string, stored_pet) ∈ ps_decls pets_parsed.
Proof. apply (bool_decide_unpack _). vm_compute. exact I. Qed.

Lemma parse_openapi_keyed_witness :
  ∃ payload, oa_decode_decl stored_pet = Ok (openapi_decl_new payload) ∧ oa_decl_key payload = "schema:Pet"%string.
Proof. exact (parse_openapi_keyed pets_source pets_parsed "schema:Pet" stored_pet pets_parse stored_pet_parsed). Defined.

(** ** What the compatibility check accepts *)

Definition object_schema (required : list string) (properties : list PropertyDef) : JsonSchemaDef :=
  mkSchemaDef [JsObject] None None None None None None None None None None None None None properties required
    None None None None [] [] [] None [] None None None None None None None None.

Definition schema_blob (required : list string) (properties : list PropertyDef) : DeclBlob :=
  oa_encode_decl (openapi_decl_new (OaComponentSchema (mkComponentSchema "Pet" (Some (object_schema required properties)) None))).

Definition typed (name : string) (type : JsonSchemaType) : PropertyDef :=
  mkProperty name (Some (SchemaInline (bare_schema [type] None))).

Definition owner_at (path : string) : PropertyDef :=
  mkProperty "owner" (Some (SchemaByRef (schema_ref_of (ExternalRef (mkExternalImport path "" "Owner"))))).

Definition query_param (name : string) (required : bool) : ParameterOrRef :=
  ParamInline (mkParameterDef name InQuery None required None None None).

Definition path_blob (params : list ParameterOrRef) : DeclBlob :=
  oa_encode_decl (openapi_decl_new (OaPathItem (mkPathItem "/pets" None None []
    [mkOperationDef HttpGet (Some "listPets"%string) None None [] params None [] None None] None))).

Definition accepts (old new : DeclBlob) (direction : CompatibilityDirection) : bool :=
  match oa_check_compatibility old new (mkCompatibilityRules direction false) with Ok _ => true | _ => false end.

Definition name_only : DeclBlob := schema_blob [] [typed "name" JsString].
Definition name_and_age : DeclBlob := schema_blob [] [typed "name" JsString; typed "age" JsInteger].
Definition name_and_required_age : DeclBlob := schema_blob ["age"%string] [typed "name" JsString; typed "age" JsInteger].



(** The BACKWARD rules of OpenAPI are not those of the table in [compat.rs]:
    adding a required parameter, removing a property and adding a required
    property, which the table says break BACKWARD and keep FORWARD, are accepted
    under BACKWARD and rejected under FORWARD. *)
Theorem openapi_directions_swapped :
  (accepts (path_blob []) (path_blob [query_param "limit" true]) <$> [Backward; Forward; Full]) = [true; false; false] ∧
  (accepts name_and_age name_only <$> [Backward; Forward; Full]) = [true; false; false] ∧
  (accepts name_only name_and_required_age <$> [Backward; Forward; Full]) = [true; false; false].
Proof. split_and!; vm_compute; reflexivity. Qed.

(** A property that refers to another schema can be pointed at any other
    external schema under the strictest rules: an external reference has no local
    name, and the local name is all that the check compares. *)
Theorem openapi_external_retarget_accepted :
  schema_blob [] [owner_at "acme/shop/people.yaml"] ≠ schema_blob [] [owner_at "acme/bank/accounts.yaml"] ∧
  accepts (schema_blob [] [owner_at "acme/shop/people.yaml"]) (schema_blob [] [owner_at "acme/bank/accounts.yaml"]) Full = true.
Proof.
  split; [apply (bool_decide_unpack _); vm_compute; exact I|vm_compute; reflexivity].
Qed.

(** ** Descriptors *)

(** Another order of iteration. *)
Definition reverse_order : HashOrder :=
  {| hash_iter K V _ _ m := reverse (map_to_list m); hash_iter_perm K V _ _ m := reverse_Permutation (map_to_list m) |}.

Definition titled (title : string) : SchemaObjects :=
  mkSchemaObjects (oa_encode_meta (mkDocumentMetadata 1 "3.0.3" (Some (mkInfoObject title None "1" None)) [] None)) ∅.

Definition two_pets : SchemaClosure :=
  mkSchemaClosure None
    {[mkSchemaPath "acme" "shop" "pets.yaml" := titled "Shop"; mkSchemaPath "acme" "zoo" "pets.yaml" := titled "Zoo"]}.

(** Descriptors depend on the order in which a hash map is iterated: documents
    are sorted by schema name only, so those of two repositories that use the same
    schema name come out in either order, and the same closure has two different
    descriptors. *)
Theorem openapi_descriptors_depend_on_order :
  ∃ bs bs', @oa_generate_descriptors _ _ _ model_hash_order two_pets = Ok bs ∧
    @oa_generate_descriptors _ _ _ reverse_order two_pets = Ok bs' ∧ bs ≠ bs'.
Proof.
  do 2 eexists. split_and!; [vm_compute; reflexivity..|]. discriminate.
Qed.
