(* ===== verification/JwtAuth.v ===== *)
(** * JwtAuth: bearer tokens and rotating keys

    [crates/schemahub-server/src/jwt_auth.rs]: the validation policy, the cache of
    verification keys with its refresh loop, the check of a token and the identity it
    stands for, and the two readiness flags of [http.rs] that the loop drives. The
    crate [jsonwebtoken], HTTP, files and the clock are parameters: the answers of
    the outside are arguments of each step. Log records are left out, and the lock
    around the cache is never poisoned, because nothing panics while it is held. *)
From S2P Require Import Prelude RustStd SchemaTypes ProtocModel ChangeModel Prog ObjectDb RecordStore AccessStore Repository CoreTypes Access ServerConfig.
From Stdlib Require Import Strings.Byte Ascii.

Open Scope Z_scope.

(** [u64::saturating_sub] and [saturating_add]. *)
Definition saturating_sub_u64 (a b : Z) : Z := Z.max 0 (a - b).
Definition saturating_add_u64 (a b : Z) : Z := Z.min u64_max (a + b).

Inductive JwtAudience := AudienceOne (a : string) | AudienceMany (l : list string).

Record JwtClaims := mkJwtClaims {
  jt_iss : string;
  jt_sub : string;
  jt_aud : JwtAudience;
  jt_exp : Z;
  jt_nbf : option Z;
  jt_iat : option Z;
  jt_name : option string;
  jt_identity_kind : option IdentityKind;
  jt_delegated_by : option string;
}.

(** ** [jsonwebtoken] *)

(** What the sources set of a [Validation], made by [Validation::new base]. *)
Record Validation {JA : JwtAlgorithms} := mkValidation {
  va_base : Algorithm;
  va_algorithms : list Algorithm;
  va_audiences : list string;
  va_issuers : list string;
  va_required_spec_claims : list string;
  va_validate_exp : bool;
  va_validate_nbf : bool;
  va_leeway : Z;
}.

Class JwtLib {JA : JwtAlgorithms} := {
  PublicKeyUse : Type;
  use_eq_dec :: EqDecision PublicKeyUse;
  Signature : PublicKeyUse;
  KeyOperations : Type;
  operations_eq_dec :: EqDecision KeyOperations;
  Verify : KeyOperations;
  KeyAlgorithm : Type;
  key_algorithm_to_string : KeyAlgorithm → string;
  Jwk : Type;
  jwk_public_key_use : Jwk → option PublicKeyUse;
  jwk_key_operations : Jwk → option (list KeyOperations);
  jwk_key_algorithm : Jwk → option KeyAlgorithm;
  jwk_key_id : Jwk → option string;
  DecodingKey : Type;
  from_jwk : Jwk → outcome string DecodingKey;
  key_family : DecodingKey → AlgorithmFamily;
  Header : Type;
  hdr_typ : Header → option string;
  hdr_alg : Header → Algorithm;
  hdr_kid : Header → option string;
  hdr_crit : Header → option (list string);
  (** Whether [jku], [jwk], [x5u], [x5c], [cty], [enc] and [zip] are there. *)
  hdr_has_jku : Header → bool;
  hdr_has_jwk : Header → bool;
  hdr_has_x5u : Header → bool;
  hdr_has_x5c : Header → bool;
  hdr_has_cty : Header → bool;
  hdr_has_enc : Header → bool;
  hdr_has_zip : Header → bool;
  decode_header : string → outcome string Header;
  (** [decode::<JwtClaims>]. *)
  jwt_decode : string → DecodingKey → Validation → outcome string JwtClaims;
  (** [serde_json::from_slice] at [JwkSet]: its keys. *)
  jwks_from_slice : list byte → outcome string (list Jwk);
}.

Definition audiences_of (a : JwtAudience) : list string :=
  match a with AudienceOne a => [a] | AudienceMany l => l end.

(** What decoding promises: the token's signature is valid under the key for the
    algorithm that its header names, which is allowed; issuer and audience match.
    [verifies key alg token] says that the signature is valid. *)
Class JwtLibLaws {JA : JwtAlgorithms} {JL : JwtLib} (verifies : DecodingKey → Algorithm → string → Prop) : Prop := {
  decode_verifies token key v claims : jwt_decode token key v = Ok claims →
    ∃ header, decode_header token = Ok header ∧ hdr_alg header ∈ va_algorithms v ∧ verifies key (hdr_alg header) token;
  decode_issuer token key v claims : jwt_decode token key v = Ok claims → jt_iss claims ∈ va_issuers v;
  decode_audience token key v claims : jwt_decode token key v = Ok claims →
    ∃ a, a ∈ audiences_of (jt_aud claims) ∧ a ∈ va_audiences v;
}.

Section Jwt.
Context {RF : RustFmt} {UL : UrlLib} {JA : JwtAlgorithms} {JL : JwtLib}.

(** ** Policy and key cache *)

Record JwtValidationPolicy := mkJwtValidationPolicy {
  jp_issuer : string;
  jp_audiences : list string;
  jp_allowed_algorithms : list Algorithm;
  jp_allowed_algorithm_set : gset Algorithm;
  jp_token_type : string;
  jp_identity_id_prefix : string;
  jp_clock_skew_seconds : Z;
  jp_max_stale_seconds : Z;
  jp_max_token_bytes : Z;
}.

Definition policy_from_config (config : JwtAuthConfig) : outcome string JwtValidationPolicy :=
  allowed_algorithms ← parsed_algorithms config;
  Ok (mkJwtValidationPolicy (jc_issuer config) (jc_audiences config) allowed_algorithms
        (list_to_set allowed_algorithms) (jc_token_type config) (jc_identity_id_prefix config)
        (jc_clock_skew_seconds config) (jc_max_stale_seconds config) (jc_max_token_bytes config)).

Abbreviation JwtKeys := (gmap (string * Algorithm) DecodingKey).

Record JwtKeyState := mkJwtKeyState {
  ks_keys : JwtKeys;
  ks_refreshed_at_unix_seconds : Z;
}.

(** The state behind the lock is a field; the clock is an argument of each call. *)
Record JwtAuthn := mkJwtAuthn {
  ja_policy : JwtValidationPolicy;
  ja_state : JwtKeyState;
}.

(** The key id and the algorithm of a key that the loop does not skip. *)
Definition usable_key (allowed : gset Algorithm) (jwk : Jwk) : option (string * Algorithm) :=
  if negb (bool_decide (jwk_public_key_use jwk = None) || bool_decide (jwk_public_key_use jwk = Some Signature))
  then None
  else if match jwk_key_operations jwk with
          | Some operations => negb (existsb (λ o, bool_decide (o = Verify)) operations)
          | None => false
          end
  then None
  else
    configured_algorithm ← jwk_key_algorithm jwk;
    algorithm ← algorithm_from_str (key_algorithm_to_string configured_algorithm);
    if negb (bool_decide (algorithm ∈ allowed)) then None
    else
      kid ← jwk_key_id jwk;
      if str_is_empty kid then None else Some (kid, algorithm).

Fixpoint decoding_keys (allowed : gset Algorithm) (jwks : list Jwk) (keys : JwtKeys) (key_ids : gset string) :
    outcome string JwtKeys :=
  match jwks with
  | [] => Ok keys
  | jwk :: jwks =>
    match usable_key allowed jwk with
    | None => decoding_keys allowed jwks keys key_ids
    | Some (kid, algorithm) =>
      _ ← fail_if (bool_decide (kid ∈ key_ids)) ("JWKS contains duplicate signing key id " +:+ debug_str kid);
      key ← map_err (λ e, "building decoding key for JWKS kid " +:+ debug_str kid +:+ ": " +:+ e)%string (from_jwk jwk);
      _ ← fail_if (negb (bool_decide (key_family key = algorithm_family algorithm)))
            ("JWKS key " +:+ debug_str kid +:+ " has algorithm " +:+ debug_algorithm algorithm +:+
             " but incompatible key material");
      decoding_keys allowed jwks (<[(kid, algorithm) := key]> keys) ({[ kid ]} ∪ key_ids)
    end
  end.

Definition validated_decoding_keys (jwks : list Jwk) (allowed : gset Algorithm) : outcome string JwtKeys :=
  keys ← decoding_keys allowed jwks ∅ ∅;
  _ ← fail_if (bool_decide (keys = ∅)) "JWKS contains no usable key for the configured algorithms";
  Ok keys.

Definition jwt_authn_new (config : JwtAuthConfig) (jwks : list Jwk) (clock : outcome string Z) : outcome string JwtAuthn :=
  policy ← policy_from_config config;
  keys ← validated_decoding_keys jwks (jp_allowed_algorithm_set policy);
  refreshed_at_unix_seconds ← clock;
  Ok (mkJwtAuthn policy (mkJwtKeyState keys refreshed_at_unix_seconds)).

(** The cache after the call, and the number of keys. *)
Definition replace_jwks (authn : JwtAuthn) (jwks : list Jwk) (clock : outcome string Z) : outcome string (JwtAuthn * Z) :=
  keys ← validated_decoding_keys jwks (jp_allowed_algorithm_set (ja_policy authn));
  let count := Z.of_nat (size keys) in
  refreshed_at_unix_seconds ← clock;
  Ok (mkJwtAuthn (ja_policy authn) (mkJwtKeyState keys refreshed_at_unix_seconds), count).

Definition key_age (authn : JwtAuthn) (now : Z) : Z :=
  saturating_sub_u64 now (ks_refreshed_at_unix_seconds (ja_state authn)).

Definition is_fresh (authn : JwtAuthn) (clock : outcome string Z) : outcome string bool :=
  now ← clock;
  Ok (key_age authn now <=? jp_max_stale_seconds (ja_policy authn)).

Definition key_count (authn : JwtAuthn) : Z := Z.of_nat (size (ks_keys (ja_state authn))).

(** ** Tokens *)

Definition valid_claim_text (value : string) (max_bytes : Z) : bool :=
  negb (str_is_empty (trim value)) && (str_len value <=? max_bytes) && negb (has_control value).

Definition prefixed_subject (policy : JwtValidationPolicy) (subject : string) : outcome AuthnError string :=
  _ ← fail_if (negb (valid_claim_text subject 512)) InvalidToken;
  Ok (jp_identity_id_prefix policy +:+ subject)%string.

Definition validate_time (policy : JwtValidationPolicy) (claims : JwtClaims) (now : Z) : outcome AuthnError unit :=
  _ ← fail_if (jt_exp claims <=? saturating_sub_u64 now (jp_clock_skew_seconds policy)) InvalidToken;
  _ ← fail_if (match jt_nbf claims with
               | Some not_before => saturating_add_u64 now (jp_clock_skew_seconds policy) <? not_before
               | None => false
               end) InvalidToken;
  fail_if (match jt_iat claims with
           | Some issued_at => saturating_add_u64 now (jp_clock_skew_seconds policy) <? issued_at
           | None => false
           end) InvalidToken.

Definition identity_from_claims (policy : JwtValidationPolicy) (claims : JwtClaims) : outcome AuthnError Identity :=
  id ← prefixed_subject policy (jt_sub claims);
  display ← match jt_name claims with
            | Some display => if valid_claim_text display 512 then Ok (Some display) else Err InvalidToken
            | None => Ok None
            end;
  let kind := default KHuman (jt_identity_kind claims) in
  delegated_by ← match jt_delegated_by claims with
                 | Some subject => Some <$> prefixed_subject policy subject
                 | None => Ok None
                 end;
  match kind, delegated_by with
  | KHuman, None => Ok (User id display)
  | KAgent, _ => Ok (Agent id display delegated_by)
  | KService, None => Ok (Service id display)
  | KAnonymous, _ | KHuman, Some _ | KService, Some _ => Err InvalidToken
  end.

(** The header asks for nothing but a known algorithm and the expected type. *)
Definition header_accepted (policy : JwtValidationPolicy) (header : Header) : bool :=
  negb (negb (bool_decide (hdr_typ header = Some (jp_token_type policy))) ||
        negb (bool_decide (hdr_alg header ∈ jp_allowed_algorithm_set policy)) ||
        match hdr_crit header with Some critical => negb (bool_decide (critical = [])) | None => false end ||
        hdr_has_jku header || hdr_has_jwk header || hdr_has_x5u header || hdr_has_x5c header ||
        hdr_has_cty header || hdr_has_enc header || hdr_has_zip header).

Definition jwt_validation (policy : JwtValidationPolicy) (alg : Algorithm) : Validation :=
  mkValidation _ alg (jp_allowed_algorithms policy) (jp_audiences policy) [jp_issuer policy]
    ["exp"; "iss"; "aud"; "sub"]%string false false 0.

Definition identify_token (authn : JwtAuthn) (clock : outcome string Z) (token : string) : outcome AuthnError Identity :=
  let policy := ja_policy authn in
  _ ← fail_if (jp_max_token_bytes policy <? str_len token) InvalidToken;
  header ← map_err (λ _, InvalidToken) (decode_header token);
  _ ← fail_if (negb (header_accepted policy header)) InvalidToken;
  kid ← ok_or (kid ← hdr_kid header; if str_is_empty kid then None else Some kid) InvalidToken;
  now ← map_err (λ _, AuthnOther "authentication clock unavailable") clock;
  _ ← fail_if (jp_max_stale_seconds policy <? key_age authn now) (AuthnOther "authentication key set is stale");
  key ← ok_or (ks_keys (ja_state authn) !! (kid, hdr_alg header)) InvalidToken;
  claims ← map_err (λ _, InvalidToken) (jwt_decode token key (jwt_validation policy (hdr_alg header)));
  _ ← validate_time policy claims now;
  identity_from_claims policy claims.

(** [impl AuthnProvider for JwtAuthn]. *)
Definition jwt_authn (authn : JwtAuthn) (clock : outcome string Z) : AuthnProvider := λ token,
  match token with
  | Some token => if str_is_empty token then Ok Anonymous else identify_token authn clock token
  | None => Ok Anonymous
  end.

(** ** Loading keys *)

Inductive JwksLoader :=
  | LoadFile (path : string) (max_bytes : Z)
  | LoadHttps (u : url) (max_bytes : Z).

(** A response: the error that its status stands for, the announced length and the
    chunks of the body, each of which may fail to arrive. *)
Record HttpResponse := mkHttpResponse {
  hr_status_error : option string;
  hr_content_length : option Z;
  hr_chunks : list (outcome string (list byte));
}.

(** Files, HTTP and the construction of the client with its timeout. *)
Record LoadEnv := mkLoadEnv {
  le_metadata_len : string → outcome string Z;
  le_read : string → outcome string (list byte);
  le_build_client : Z → outcome string unit;
  le_get : url → outcome string HttpResponse;
}.

(** [anyhow::Context]. *)
Definition with_context {A} (context : string) (m : outcome string A) : outcome string A :=
  map_err (λ e, context +:+ ": " +:+ e)%string m.

Definition loader_from_config (config : JwtAuthConfig) (env : LoadEnv) : outcome string JwksLoader :=
  match jc_jwks_file config with
  | Some path => Ok (LoadFile path (jc_max_jwks_bytes config))
  | None =>
    u ← ok_or (jc_jwks_url config) "JWT configuration has no JWKS source"%string;
    u ← url_parse u;
    _ ← with_context "building JWKS HTTP client" (le_build_client env (jc_request_timeout_seconds config));
    Ok (LoadHttps u (jc_max_jwks_bytes config))
  end.

Fixpoint collect_chunks (max_bytes : Z) (bytes : list byte) (chunks : list (outcome string (list byte))) :
    outcome string (list byte) :=
  match chunks with
  | [] => Ok bytes
  | chunk :: chunks =>
    chunk ← with_context "streaming configured JWKS response" chunk;
    _ ← fail_if (max_bytes <? saturating_add_u64 (Z.of_nat (length bytes)) (Z.of_nat (length chunk)))
          "remote JWKS exceeds configured max_jwks_bytes"%string;
    collect_chunks max_bytes (bytes ++ chunk) chunks
  end.

Definition load_bytes (loader : JwksLoader) (env : LoadEnv) : outcome string (list byte) :=
  match loader with
  | LoadFile path max_bytes =>
    len ← with_context ("reading JWKS metadata from " +:+ path) (le_metadata_len env path);
    _ ← fail_if (max_bytes <? len) "JWKS file exceeds configured max_jwks_bytes"%string;
    bytes ← with_context ("reading JWKS file " +:+ path) (le_read env path);
    _ ← fail_if (max_bytes <? Z.of_nat (length bytes)) "JWKS file exceeds configured max_jwks_bytes"%string;
    Ok bytes
  | LoadHttps u max_bytes =>
    response ← with_context "fetching configured JWKS URL" (le_get env u);
    _ ← match hr_status_error response with
        | Some e => Err ("configured JWKS URL returned an error status: " +:+ e)%string
        | None => Ok tt
        end;
    _ ← fail_if (match hr_content_length response with Some length => max_bytes <? length | None => false end)
          "remote JWKS exceeds configured max_jwks_bytes"%string;
    collect_chunks max_bytes [] (hr_chunks response)
  end.

Definition jwks_load (loader : JwksLoader) (env : LoadEnv) : outcome string (list Jwk) :=
  bytes ← load_bytes loader env;
  with_context "decoding JWKS JSON" (jwks_from_slice bytes).

(** ** The runtime and its refresh loop *)

Record JwtAuthRuntime := mkJwtAuthRuntime {
  rt_authn : JwtAuthn;
  rt_loader : JwksLoader;
  rt_refresh_interval : Z;
}.

Definition initialize_with_clock (config : JwtAuthConfig) (env : LoadEnv) (clock : outcome string Z) :
    outcome string JwtAuthRuntime :=
  loader ← loader_from_config config env;
  jwks ← with_context "loading initial JWT verification keys" (jwks_load loader env);
  authn ← jwt_authn_new config jwks clock;
  Ok (mkJwtAuthRuntime authn loader (jc_refresh_interval_seconds config)).

(** [Readiness] of [http.rs]: two flags. *)
Record Readiness := mkReadiness {
  rd_accepting_traffic : bool;
  rd_auth_ready : bool;
}.

Definition readiness_new (accepting_traffic : bool) : Readiness := mkReadiness accepting_traffic true.
Definition readiness_mark_ready (r : Readiness) : Readiness := mkReadiness true (rd_auth_ready r).
Definition readiness_mark_draining (r : Readiness) : Readiness := mkReadiness false (rd_auth_ready r).
Definition mark_auth_ready (r : Readiness) : Readiness := mkReadiness (rd_accepting_traffic r) true.
Definition mark_auth_unready (r : Readiness) : Readiness := mkReadiness (rd_accepting_traffic r) false.
Definition is_accepting_traffic (r : Readiness) : bool := rd_accepting_traffic r.
Definition is_auth_ready (r : Readiness) : bool := rd_auth_ready r.

(** What a turn of [select!] waits for, with the answers of the outside. *)
Inductive refresh_event :=
  | ShutdownChanged (sender_gone value : bool)
  | RefreshTick (env : LoadEnv) (clock_replace clock_fresh : outcome string Z)
  | FreshnessPoll (clock : outcome string Z).

(** The state of the loop: the cache, the shared flags and [auth_ready]. *)
Record refresh_state := mkRefreshState {
  rf_authn : JwtAuthn;
  rf_readiness : Readiness;
  rf_auth_ready : bool;
  rf_finished : bool;
}.

Definition refresh_start (rt : JwtAuthRuntime) (readiness : Readiness) : refresh_state :=
  mkRefreshState (rt_authn rt) readiness true false.

Definition refresh_step (loader : JwksLoader) (st : refresh_state) (ev : refresh_event) : refresh_state :=
  if rf_finished st then st
  else
    match ev with
    | ShutdownChanged sender_gone value =>
      mkRefreshState (rf_authn st) (rf_readiness st) (rf_auth_ready st) (sender_gone || value)
    | RefreshTick env clock_replace clock_fresh =>
      match jwks_load loader env ≫= λ jwks, replace_jwks (rf_authn st) jwks clock_replace with
      | Ok (authn, _) => mkRefreshState authn (mark_auth_ready (rf_readiness st)) true false
      | _ =>
        let cache_fresh := unwrap_or (is_fresh (rf_authn st) clock_fresh) false in
        if negb cache_fresh && rf_auth_ready st
        then mkRefreshState (rf_authn st) (mark_auth_unready (rf_readiness st)) false false
        else st
      end
    | FreshnessPoll clock =>
      let cache_fresh := unwrap_or (is_fresh (rf_authn st) clock) false in
      if negb (bool_decide (cache_fresh = rf_auth_ready st))
      then mkRefreshState (rf_authn st)
             (if cache_fresh then mark_auth_ready (rf_readiness st) else mark_auth_unready (rf_readiness st))
             cache_fresh false
      else st
    end.

Definition refresh_run (loader : JwksLoader) (st : refresh_state) (events : list refresh_event) : refresh_state :=
  foldl (refresh_step loader) st events.

(** * Theorems *)

(** ** The keys of a set *)

(** A key of the set that may verify, under its id and algorithm. *)
Definition key_of (allowed : gset Algorithm) (jwk : Jwk) (kid : string) (alg : Algorithm) (key : DecodingKey) : Prop :=
  jwk_key_id jwk = Some kid ∧ kid ≠ ""%string ∧
  (jwk_public_key_use jwk = None ∨ jwk_public_key_use jwk = Some Signature) ∧
  (∀ operations, jwk_key_operations jwk = Some operations → Verify ∈ operations) ∧
  (∃ a, jwk_key_algorithm jwk = Some a ∧ algorithm_from_str (key_algorithm_to_string a) = Some alg) ∧
  alg ∈ allowed ∧ from_jwk jwk = Ok key ∧ key_family key = algorithm_family alg.

Lemma usable_key_Some allowed jwk kid alg :
  usable_key allowed jwk = Some (kid, alg) ↔
  jwk_key_id jwk = Some kid ∧ kid ≠ ""%string ∧
  (jwk_public_key_use jwk = None ∨ jwk_public_key_use jwk = Some Signature) ∧
  (∀ operations, jwk_key_operations jwk = Some operations → Verify ∈ operations) ∧
  (∃ a, jwk_key_algorithm jwk = Some a ∧ algorithm_from_str (key_algorithm_to_string a) = Some alg) ∧
  alg ∈ allowed.
Proof.
  unfold usable_key.
  destruct (negb (bool_decide (jwk_public_key_use jwk = None) || _)) eqn:Eu.
  { apply negb_true_iff, orb_false_iff in Eu as [H1%bool_decide_eq_false H2%bool_decide_eq_false].
    split; [done|]. by intros (_ & _ & [H|H] & _). }
  apply negb_false_iff, orb_true_iff in Eu. rewrite !bool_decide_eq_true in Eu.
  destruct (match jwk_key_operations jwk with Some l => _ | None => false end) eqn:Eo.
  { split; [done|]. intros (_ & _ & _ & H & _). destruct (jwk_key_operations jwk) as [l|]; [|done].
    apply negb_true_iff in Eo. apply not_true_iff_false in Eo. destruct Eo. apply existsb_elem.
    exists Verify. split; [by apply H|]. by apply bool_decide_eq_true. }
  assert (∀ operations, jwk_key_operations jwk = Some operations → Verify ∈ operations) as Ho.
  { intros l Hl. rewrite Hl in Eo. apply negb_false_iff, existsb_elem in Eo as (o & Hin & ->%bool_decide_eq_true). done. }
  clear Eo. destruct (jwk_key_algorithm jwk) as [a|]; cbn; [|naive_solver].
  destruct (algorithm_from_str _) as [alg'|] eqn:Ea; cbn; [|naive_solver].
  case_bool_decide as Hal; cbn; [|naive_solver].
  destruct (jwk_key_id jwk) as [kid'|]; cbn; [|naive_solver].
  destruct (str_is_empty kid') eqn:Ee; [|apply str_empty_false in Ee; naive_solver].
  destruct kid'; [|done]. naive_solver.
Qed.

Lemma decoding_keys_spec allowed jwks : ∀ keys ids keys',
  (∀ kid alg, is_Some (keys !! (kid, alg)) → kid ∈ ids) →
  decoding_keys allowed jwks keys ids = Ok keys' →
  ∀ kid alg key, keys' !! (kid, alg) = Some key ↔
    keys !! (kid, alg) = Some key ∨ ∃ jwk, jwk ∈ jwks ∧ key_of allowed jwk kid alg key.
Proof.
  induction jwks as [|jwk jwks IH]; intros keys ids keys' Hids H kid alg key; cbn [decoding_keys] in H.
  { injection H as <-. split; [by left|]. intros [H|(jwk & Hin & _)]; [done|]. by apply elem_of_nil in Hin. }
  destruct (usable_key allowed jwk) as [[kid' alg']|] eqn:Eu.
  - ok_inv H. apply bool_decide_eq_false in Hok. apply negb_false_iff, bool_decide_eq_true in Hok1.
    apply usable_key_Some in Eu as (Hk & Hne & Huse & Hop & Ha & Hal).
    assert (∀ k a, is_Some (<[(kid', alg') := x0]> keys !! (k, a)) → k ∈ {[kid']} ∪ ids) as Hids'.
    { intros k a Hs. destruct (decide ((k, a) = (kid', alg'))) as [[= -> ->]|Hd]; [set_solver|].
      rewrite lookup_insert_ne in Hs by done. specialize (Hids _ _ Hs). set_solver. }
    rewrite (IH _ _ _ Hids' H kid alg key).
    destruct (decide ((kid, alg) = (kid', alg'))) as [[= -> ->]|Hd].
    + rewrite lookup_insert_eq. split.
      * intros [[= <-]|(j & Hin & Hj)].
        -- right. exists jwk. split; [by left|]. by split_and!.
        -- right. exists j. split; [by right|done].
      * intros [Hkey|(j & [->|Hin]%elem_of_cons & Hj)].
        -- destruct Hok. apply (Hids kid' alg'). by eexists.
        -- left. destruct Hj as (_ & _ & _ & _ & _ & _ & Hj & _). congruence.
        -- right. by exists j.
    + rewrite lookup_insert_ne by done. apply or_iff_compat_l. split; [intros (j & Hin & Hj); exists j; split; [by right|done]|].
      intros (j & [->|Hin]%elem_of_cons & Hj); [|by exists j]. destruct Hd.
      destruct Hj as (Hk' & _ & _ & _ & (a & Ha1 & Ha2) & _). destruct Ha as (a' & Ha1' & Ha2'). congruence.
  - rewrite (IH _ _ _ Hids H kid alg key). apply or_iff_compat_l. split; [intros (j & Hin & Hj); exists j; split; [by right|done]|].
    intros (j & [->|Hin]%elem_of_cons & Hj); [|by exists j]. exfalso.
    destruct Hj as (H1 & H2 & H3 & H4 & H5 & H6 & _).
    assert (usable_key allowed jwk = Some (kid, alg)); [|congruence]. by apply usable_key_Some.
Qed.

Lemma validated_keys_spec jwks allowed keys :
  validated_decoding_keys jwks allowed = Ok keys →
  ∀ kid alg key, keys !! (kid, alg) = Some key ↔ ∃ jwk, jwk ∈ jwks ∧ key_of allowed jwk kid alg key.
Proof.
  intros H kid alg key. unfold validated_decoding_keys in H. ok_inv H. subst.
  assert (∀ k a, is_Some ((∅ : JwtKeys) !! (k, a)) → k ∈ (∅ : gset string)) as Hids by (by intros ?? [? ?]).
  rewrite (decoding_keys_spec _ _ _ _ _ Hids Hok kid alg key). split; [by intros [?|?]|]. by right.
Qed.

(** ** The keys in the cache *)

(** A load that gives usable keys, and when it did. *)
Definition good_load (loader : JwksLoader) (allowed : gset Algorithm) (env : LoadEnv) (clock : outcome string Z) :
    option (list Jwk * Z) :=
  match jwks_load loader env, clock with
  | Ok jwks, Ok t => if is_ok (validated_decoding_keys jwks allowed) then Some (jwks, t) else None
  | _, _ => None
  end.

(** The last good load before the loop is told to stop. *)
Fixpoint last_good (loader : JwksLoader) (allowed : gset Algorithm) (current : list Jwk * Z) (events : list refresh_event) :
    list Jwk * Z :=
  match events with
  | [] => current
  | ShutdownChanged sender_gone value :: events =>
    if sender_gone || value then current else last_good loader allowed current events
  | RefreshTick env clock _ :: events => last_good loader allowed (default current (good_load loader allowed env clock)) events
  | FreshnessPoll _ :: events => last_good loader allowed current events
  end.

(** The cache is made of the keys of one load. *)
Definition cache_of (policy : JwtValidationPolicy) (authn : JwtAuthn) (load : list Jwk * Z) : Prop :=
  ja_policy authn = policy ∧
  validated_decoding_keys load.1 (jp_allowed_algorithm_set policy) = Ok (ks_keys (ja_state authn)) ∧
  ks_refreshed_at_unix_seconds (ja_state authn) = load.2.

Lemma finished_stays loader st events : rf_finished st = true → refresh_run loader st events = st.
Proof.
  intros H. induction events as [|ev events IH]; [done|]. cbn. unfold refresh_step at 2. rewrite H. exact IH.
Qed.

Lemma refresh_good loader policy st env clock fresh load :
  rf_finished st = false → cache_of policy (rf_authn st) load →
  cache_of policy (rf_authn (refresh_step loader st (RefreshTick env clock fresh)))
    (default load (good_load loader (jp_allowed_algorithm_set policy) env clock)) ∧
  rf_finished (refresh_step loader st (RefreshTick env clock fresh)) = false.
Proof.
  intros Hf (Hp & Hk & Ht). unfold refresh_step, good_load. rewrite Hf.
  destruct (jwks_load loader env) as [jwks| | |]; cbn [mbind outcome_bind];
    try (destruct (negb _ && _); cbn; by rewrite ?Hf).
  unfold replace_jwks. rewrite Hp.
  destruct (validated_decoding_keys jwks _) as [keys| | |] eqn:Ek; cbn [mbind outcome_bind is_ok];
    destruct clock as [now| | |]; cbn [mbind outcome_bind default];
    try (destruct (negb _ && _); cbn; by rewrite ?Hf).
  by split_and!.
Qed.

Lemma other_event_keeps loader st ev :
  (match ev with RefreshTick _ _ _ => False | _ => True end) → rf_authn (refresh_step loader st ev) = rf_authn st.
Proof. unfold refresh_step. destruct (rf_finished st), ev; try done. intros _. by case_match. Qed.

Lemma poll_continues loader st clock :
  rf_finished (refresh_step loader st (FreshnessPoll clock)) = rf_finished st.
Proof. unfold refresh_step. destruct (rf_finished st) eqn:E; [done|]. by case_match. Qed.

Lemma cache_is_last_good loader policy events : ∀ st load,
  rf_finished st = false → cache_of policy (rf_authn st) load →
  cache_of policy (rf_authn (refresh_run loader st events)) (last_good loader (jp_allowed_algorithm_set policy) load events).
Proof.
  induction events as [|ev events IH]; intros st load Hf Hc; [done|].
  change (refresh_run loader st (ev :: events)) with (refresh_run loader (refresh_step loader st ev) events).
  destruct ev as [gone v|env clock fresh|clock]; cbn [last_good].
  - assert (refresh_step loader st (ShutdownChanged gone v) =
            mkRefreshState (rf_authn st) (rf_readiness st) (rf_auth_ready st) (gone || v)) as ->
      by (unfold refresh_step; by rewrite Hf).
    destruct (gone || v) eqn:E; [by rewrite (finished_stays loader)|]. by apply IH.
  - destruct (refresh_good loader policy st env clock fresh load Hf Hc) as [Hc' Hf']. by apply IH.
  - apply IH; [by rewrite poll_continues|]. by rewrite other_event_keeps.
Qed.

Lemma initialized_cache config env clock rt :
  initialize_with_clock config env clock = Ok rt →
  ∃ policy load, policy_from_config config = Ok policy ∧
    good_load (rt_loader rt) (jp_allowed_algorithm_set policy) env clock = Some load ∧ cache_of policy (rt_authn rt) load.
Proof.
  unfold initialize_with_clock. intros H. ok_inv H. subst rt. apply map_err_Ok in Hok0. cbn [rt_loader rt_authn].
  rename x into loader, x0 into jwks, x1 into authn. unfold jwt_authn_new in Hok1. ok_inv Hok1. subst authn.
  rename x into policy, x0 into keys, x1 into now. exists policy, (jwks, now). unfold good_load.
  rewrite Hok0, Hok3, Hok4. cbn. by split_and!.
Qed.

(** ** Accepted tokens *)

Context {verifies : DecodingKey → Algorithm → string → Prop}.
Context {LL : JwtLibLaws verifies}.

(** What an accepted token shows at a time, given a set of keys: its header names a
    key of the set and an algorithm that is configured and asymmetric, and the
    signature is valid under that key. *)
Definition signed_by (config : JwtAuthConfig) (jwks : list Jwk) (token : string) (claims : JwtClaims) : Prop :=
  ∃ header kid jwk key algorithms,
    decode_header token = Ok header ∧ hdr_typ header = Some (jc_token_type config) ∧ hdr_kid header = Some kid ∧
    algorithms_ok (jc_algorithms config) algorithms ∧ hdr_alg header ∈ algorithms ∧
    algorithm_family (hdr_alg header) ≠ Hmac ∧
    jwk ∈ jwks ∧ key_of (list_to_set algorithms) jwk kid (hdr_alg header) key ∧
    verifies key (hdr_alg header) token ∧
    ∃ v, jwt_decode token key v = Ok claims.

(** The claims are meant for this server and valid at the time. *)
Definition claims_valid (config : JwtAuthConfig) (claims : JwtClaims) (now : Z) : Prop :=
  jt_iss claims = jc_issuer config ∧ (∃ a, a ∈ audiences_of (jt_aud claims) ∧ a ∈ jc_audiences config) ∧
  now - jc_clock_skew_seconds config < jt_exp claims ∧
  (∀ t, jt_nbf claims = Some t → t <= now + jc_clock_skew_seconds config) ∧
  (∀ t, jt_iat claims = Some t → t <= now + jc_clock_skew_seconds config).

(** The identity is that of the claims: every id carries the configured prefix, and
    only agents act for somebody. *)
Definition identity_of (config : JwtAuthConfig) (claims : JwtClaims) (id : Identity) : Prop :=
  identity_id id = Some (jc_identity_id_prefix config +:+ jt_sub claims)%string ∧
  identity_display id = jt_name claims ∧
  identity_kind id = default KHuman (jt_identity_kind claims) ∧ identity_kind id ≠ KAnonymous ∧
  identity_delegated_by id = (λ s, jc_identity_id_prefix config +:+ s)%string <$> jt_delegated_by claims ∧
  (identity_delegated_by id ≠ None → identity_kind id = KAgent).

Lemma validate_time_Ok policy claims now : validate_time policy claims now = Ok tt →
  now - jp_clock_skew_seconds policy < jt_exp claims ∧
  (∀ t, jt_nbf claims = Some t → t <= now + jp_clock_skew_seconds policy) ∧
  (∀ t, jt_iat claims = Some t → t <= now + jp_clock_skew_seconds policy).
Proof.
  unfold validate_time, saturating_sub_u64, saturating_add_u64. rewrite !then_Ok, !fail_if_iff, Z.leb_gt.
  intros (He & Hn & Hi). split_and!; [lia|intros t Ht; rewrite Ht in Hn; lia|intros t Ht; rewrite Ht in Hi; lia].
Qed.

Lemma identity_from_claims_Ok policy claims id : identity_from_claims policy claims = Ok id →
  identity_id id = Some (jp_identity_id_prefix policy +:+ jt_sub claims)%string ∧
  identity_display id = jt_name claims ∧
  identity_kind id = default KHuman (jt_identity_kind claims) ∧ identity_kind id ≠ KAnonymous ∧
  identity_delegated_by id = (λ s, jp_identity_id_prefix policy +:+ s)%string <$> jt_delegated_by claims ∧
  (identity_delegated_by id ≠ None → identity_kind id = KAgent).
Proof.
  unfold identity_from_claims, prefixed_subject. intros H. ok_inv H.
  destruct (negb (valid_claim_text (jt_sub claims) 512)); [done|]. cbn in Hok. injection Hok as <-.
  assert (x0 = jt_name claims) as -> by (destruct (jt_name claims) as [d|]; [destruct (valid_claim_text d 512)|]; congruence).
  assert (x1 = (λ s, jp_identity_id_prefix policy +:+ s)%string <$> jt_delegated_by claims) as ->.
  { destruct (jt_delegated_by claims) as [s|]; [|cbn in *; congruence]. cbn in Hok1 |- *. destruct (negb _); cbn in Hok1; congruence. }
  destruct (default KHuman (jt_identity_kind claims)), (jt_delegated_by claims); cbn in H; simplify_eq; cbn; naive_solver.
Qed.

Lemma identify_token_Ok authn clock token id : identify_token authn clock token = Ok id →
  let policy := ja_policy authn in
  ∃ now header kid key claims,
    clock = Ok now ∧ str_len token <= jp_max_token_bytes policy ∧ key_age authn now <= jp_max_stale_seconds policy ∧
    decode_header token = Ok header ∧ hdr_typ header = Some (jp_token_type policy) ∧
    hdr_alg header ∈ jp_allowed_algorithm_set policy ∧ hdr_kid header = Some kid ∧
    ks_keys (ja_state authn) !! (kid, hdr_alg header) = Some key ∧
    jwt_decode token key (jwt_validation policy (hdr_alg header)) = Ok claims ∧
    validate_time policy claims now = Ok tt ∧ identity_from_claims policy claims = Ok id.
Proof.
  unfold identify_token. intros H. ok_inv H. destruct x7. apply negb_false_iff in Hok1. unfold header_accepted in Hok1.
  apply negb_true_iff in Hok1. rewrite !orb_false_iff, !negb_false_iff, !bool_decide_eq_true in Hok1.
  exists x3, x0, x2, x5, x6. destruct (hdr_kid x0) as [kid|]; [|done]. cbn in Hok2.
  destruct (str_is_empty kid); [done|]. injection Hok2 as ->. split_and!; try done; try lia; tauto.
Qed.

(** C4. A bearer token is accepted only for cause: whatever the refresh loop went
    through since the server started (failed loads, malformed key sets, rotations,
    polls, shutdown), the token is signed with a key that the configured source
    published in its last good key set, at most [max_stale_seconds] ago, marked for
    signatures, of the kind that its asymmetric and configured algorithm needs and
    under the key id that the token names; issuer, audience and times are right; and
    the identity is the token's subject under the configured prefix, never an
    anonymous one. *)
Theorem accepted_token_is_verified (config : JwtAuthConfig) (env : LoadEnv) (started clock : outcome string Z)
    (rt : JwtAuthRuntime) (readiness : Readiness) (events : list refresh_event) (token : string) (id : Identity) :
  initialize_with_clock config env started = Ok rt → token ≠ ""%string →
  jwt_authn (rf_authn (refresh_run (rt_loader rt) (refresh_start rt readiness) events)) clock (Some token) = Ok id →
  ∃ policy first now claims,
    policy_from_config config = Ok policy ∧
    good_load (rt_loader rt) (jp_allowed_algorithm_set policy) env started = Some first ∧
    let '(jwks, loaded_at) := last_good (rt_loader rt) (jp_allowed_algorithm_set policy) first events in
    clock = Ok now ∧ now - loaded_at <= jc_max_stale_seconds config ∧ str_len token <= jc_max_token_bytes config ∧
    signed_by config jwks token claims ∧ claims_valid config claims now ∧ identity_of config claims id.
Proof.
  intros Hinit Hne H. destruct (initialized_cache _ _ _ _ Hinit) as (policy & first & Hpol & Hfirst & Hcache).
  pose proof (cache_is_last_good (rt_loader rt) policy events (refresh_start rt readiness) first eq_refl Hcache) as Hc.
  set (authn := rf_authn _) in *. destruct (last_good _ _ _ _) as [jwks loaded_at] eqn:El.
  destruct Hc as (Hp & Hk & Ht). cbn [fst snd] in *. unfold jwt_authn in H. rewrite (proj2 (str_empty_false token) Hne) in H.
  apply identify_token_Ok in H as (now & header & kid & key & claims & Hnow & Hlen & Hage & Hh & Htyp & Halg & Hkid & Hkey & Hd & Hvt & Hid).
  rewrite Hp in *. clear Hp. exists policy, first, now, claims. rewrite El. split_and!; try done.
  all: pose proof Hpol as Hpol'; unfold policy_from_config in Hpol'; ok_inv Hpol'; subst policy; cbn in *.
  - unfold key_age, saturating_sub_u64 in Hage. lia.
  - done.
  - apply parsed_algorithms_spec in Hok. rename x into algorithms.
    apply (validated_keys_spec _ _ _ Hk) in Hkey as (jwk & Hin & Hjwk).
    destruct (decode_verifies _ _ _ _ Hd) as (header' & Hh' & _ & Hv). assert (header' = header) as -> by congruence.
    exists header, kid, jwk, key, algorithms. apply elem_of_list_to_set in Halg. split_and!; try done; [|by eexists].
    destruct Hok as (H2 & _ & _). apply list_elem_of_lookup in Halg as [i Hi].
    destruct (Forall2_lookup_r _ _ _ _ _ H2 Hi) as (? & _ & _ & Hf). done.
  - pose proof (decode_issuer _ _ _ _ Hd) as Hiss. apply list_elem_of_singleton in Hiss.
    pose proof (decode_audience _ _ _ _ Hd) as Haud. apply validate_time_Ok in Hvt as (He & Hn & Hi). by split_and!.
  - by apply identity_from_claims_Ok in Hid.
Qed.

(** ** Readiness *)

(** The loop's own flag is the shared one. *)
Definition flags_agree (st : refresh_state) : Prop := is_auth_ready (rf_readiness st) = rf_auth_ready st.

Lemma step_flags_agree loader st ev : flags_agree st → flags_agree (refresh_step loader st ev).
Proof.
  unfold flags_agree, refresh_step. destruct (rf_finished st), ev; try done; intros H.
  - destruct (_ ≫= _) as [[]| | |]; [done|..]; by destruct (negb _ && _).
  - destruct (negb _); [|done]. by destruct (unwrap_or _ _).
Qed.

Lemma run_flags_agree loader events : ∀ st, flags_agree st → flags_agree (refresh_run loader st events).
Proof. induction events as [|ev events IH]; intros st H; [done|]. by apply IH, step_flags_agree. Qed.

Lemma poll_freshness loader st t : flags_agree st → rf_finished st = false →
  is_auth_ready (rf_readiness (refresh_step loader st (FreshnessPoll (Ok t)))) =
  (key_age (rf_authn st) t <=? jp_max_stale_seconds (ja_policy (rf_authn st))).
Proof.
  unfold flags_agree, refresh_step. intros H ->. cbn [is_fresh mbind outcome_bind unwrap_or].
  case_bool_decide as E; cbn [negb]; [by rewrite H|]. by destruct (_ <=? _).
Qed.

Lemma stale_rejects authn t now token : 0 <= t → t <= now → token ≠ ""%string →
  jp_max_stale_seconds (ja_policy authn) < key_age authn t → is_ok (jwt_authn authn (Ok now) (Some token)) = false.
Proof.
  intros H0 Hle Hne Hage. destruct (jwt_authn _ _ _) as [id| | |] eqn:E; try done. exfalso. unfold jwt_authn in E.
  rewrite (proj2 (str_empty_false token) Hne) in E.
  apply identify_token_Ok in E as (now' & _ & _ & _ & _ & [= <-] & _ & Hage' & _). unfold key_age, saturating_sub_u64 in *. lia.
Qed.

(** The readings of the clock in a turn of the loop. *)
Definition readings (ev : refresh_event) : list (outcome string Z) :=
  match ev with
  | ShutdownChanged _ _ => []
  | RefreshTick _ clock_replace clock_fresh => [clock_replace; clock_fresh]
  | FreshnessPoll clock => [clock]
  end.

(** The clock worked, and did not show a time after [now]. *)
Definition clock_until (now : Z) (ev : refresh_event) : Prop :=
  Forall (λ clock, ∃ t, clock = Ok t ∧ 0 <= t <= now) (readings ev).

(** The loop withdraws readiness only for keys that were stale at some reading. *)
Definition withdrawn_stale (now : Z) (st : refresh_state) : Prop :=
  rf_auth_ready st = false →
  ∃ t, 0 <= t <= now ∧ jp_max_stale_seconds (ja_policy (rf_authn st)) < key_age (rf_authn st) t.

Lemma step_withdrawn loader now st ev :
  clock_until now ev → withdrawn_stale now st → withdrawn_stale now (refresh_step loader st ev).
Proof.
  unfold refresh_step. intros Hc Hst. destruct (rf_finished st); [done|].
  destruct ev as [gone value|env clock_replace clock_fresh|clock]; [done|..].
  - assert (∃ t, clock_fresh = Ok t ∧ 0 <= t <= now) as (t & -> & Ht).
    { unfold clock_until in Hc. cbn in Hc. by apply Forall_cons in Hc as [_ [? _]%Forall_cons]. }
    cbn [is_fresh mbind outcome_bind unwrap_or].
    destruct (Z.leb_spec (key_age (rf_authn st) t) (jp_max_stale_seconds (ja_policy (rf_authn st))));
      destruct (jwks_load loader env ≫= _) as [[]| | |]; cbn [negb andb]; try done;
      destruct (rf_auth_ready st); try done; intros _; by exists t.
  - apply Forall_cons in Hc as [(t & -> & Ht) _]. cbn [is_fresh mbind outcome_bind unwrap_or].
    destruct (negb _); [|done]. intros Hready. cbn [rf_authn rf_auth_ready] in *. exists t. by apply Z.leb_gt in Hready.
Qed.

Lemma run_withdrawn loader now events : Forall (clock_until now) events →
  ∀ st, withdrawn_stale now st → withdrawn_stale now (refresh_run loader st events).
Proof. induction 1 as [|ev events Hc _ IH]; intros st H; [done|]. by apply IH, step_withdrawn. Qed.

(** C26. The readiness probe tells the truth about the keys, and stale keys fail
    closed. Whatever the refresh loop went through, if the clock worked and showed
    no time after [now]: while the server is not ready for authentication, no
    bearer token is accepted at [now] or later with the keys it has then; and right
    after a poll of the running loop at a time [t], it is ready exactly if its keys
    are at most [max_stale_seconds] old. (Where reading the clock fails, readiness
    is withdrawn although the keys may be fresh.) *)
Theorem unready_means_closed (rt : JwtAuthRuntime) (accepting : bool) (events : list refresh_event) (now : Z) :
  let run := refresh_run (rt_loader rt) (refresh_start rt (readiness_new accepting)) in
  Forall (clock_until now) events →
  (is_auth_ready (rf_readiness (run events)) = false →
   ∀ later token, now <= later → token ≠ ""%string →
     is_ok (jwt_authn (rf_authn (run events)) (Ok later) (Some token)) = false) ∧
  (∀ earlier t, events = earlier ++ [FreshnessPoll (Ok t)] → rf_finished (run earlier) = false →
   is_auth_ready (rf_readiness (run events)) = true ↔
   saturating_sub_u64 t (ks_refreshed_at_unix_seconds (ja_state (rf_authn (run events)))) <=
   jp_max_stale_seconds (ja_policy (rf_authn (run events)))).
Proof.
  intros run Hc. assert (∀ evs, flags_agree (run evs)) as Hag by (intros evs; by apply run_flags_agree). split.
  - rewrite Hag. intros Hready later token Hle Hne.
    destruct (run_withdrawn (rt_loader rt) now events Hc (refresh_start rt (readiness_new accepting))) as (t & Ht & Hstale); [done..|].
    apply (stale_rejects _ t); [lia..|done|done].
  - intros earlier t -> Hf. unfold run, refresh_run. rewrite foldl_app. cbn [foldl]. fold (refresh_run (rt_loader rt)).
    change (foldl (refresh_step (rt_loader rt)) ?st earlier) with (run earlier).
    rewrite (poll_freshness (rt_loader rt) (run earlier) t (Hag earlier) Hf).
    rewrite (other_event_keeps (rt_loader rt) (run earlier) (FreshnessPoll (Ok t))) by done. apply Z.leb_le.
Qed.

(** ** Limits *)

Lemma collect_chunks_bound max bytes chunks bytes' : max < u64_max → Z.of_nat (length bytes) <= max →
  collect_chunks max bytes chunks = Ok bytes' → Z.of_nat (length bytes') <= max.
Proof.
  intros Hmax. revert bytes. induction chunks as [|chunk chunks IH]; intros bytes Hb H; cbn [collect_chunks] in H.
  { by injection H as <-. }
  ok_inv H. apply IH in H; [done|]. rewrite length_app. unfold saturating_add_u64 in Hok0. lia.
Qed.

Definition loader_max (loader : JwksLoader) : Z :=
  match loader with LoadFile _ max | LoadHttps _ max => max end.

Lemma loader_from_config_max config env loader :
  loader_from_config config env = Ok loader → loader_max loader = jc_max_jwks_bytes config.
Proof.
  unfold loader_from_config. intros H. destruct (jc_jwks_file config); [by injection H as <-|]. ok_inv H. by subst loader.
Qed.

Lemma load_bytes_bound loader env bytes : 0 <= loader_max loader < u64_max → load_bytes loader env = Ok bytes →
  Z.of_nat (length bytes) <= loader_max loader.
Proof.
  destruct loader as [path max|u max]; cbn [loader_max load_bytes]; intros Hmax H; ok_inv H; [subst; lia|].
  apply collect_chunks_bound in H; [done|lia|cbn; lia].
Qed.

(** Key sets are bounded before they are decoded: under a configuration that was
    accepted, whatever files and servers answer and however long a body streams, a
    set that is loaded was decoded from at most [max_jwks_bytes], which is at most
    four mebibytes. *)
Theorem loaded_keys_bounded (config : JwtAuthConfig) (env env' : LoadEnv) (loader : JwksLoader) (jwks : list Jwk) :
  jwt_validate config = Ok tt → loader_from_config config env = Ok loader → jwks_load loader env' = Ok jwks →
  ∃ bytes, jwks_from_slice bytes = Ok jwks ∧ Z.of_nat (length bytes) <= jc_max_jwks_bytes config <= 4194304.
Proof.
  intros (_ & _ & _ & _ & _ & _ & _ & _ & _ & _ & _ & _ & Hmax)%jwt_validate_spec Hl H.
  unfold jwks_load in H. ok_inv H. apply map_err_Ok in H. exists x. split; [done|]. split; [|lia].
  pose proof (loader_from_config_max _ _ _ Hl) as E. rewrite <- E in Hmax |- *. apply (load_bytes_bound loader env'); [|done]. unfold u64_max. lia.
Qed.

End Jwt.

(** * The server at concrete inputs

    Small instances of the crates that [ServerConfig] and [JwtAuth] take as
    parameters, and the witnesses of their theorems. A URL is [https://] and a host;
    a token is a key id, a dot and a subject, and is signed if its key has that id. *)
#[export] Instance model_url : UrlLib := {
  url := string;
  url_parse s := ok_or (strip_prefix "https://" s) "relative URL without a base"%string;
  url_scheme _ := "https"%string;
  url_host_str host := Some host;
  url_username _ := ""%string;
  url_password _ := None;
  url_path _ := "/"%string;
  url_query _ := None;
  url_fragment _ := None;
  url_origin host := ("https://" +:+ host)%string;
}.

#[export] Instance model_algorithms : JwtAlgorithms.
Proof.
  refine {| Algorithm := string; AlgorithmFamily := string; Hmac := "hmac"%string;
            algorithm_from_str s := if bool_decide (s ∈ ["RS256"; "ES256"; "HS256"]%string) then Some s else None;
            algorithm_family a := if bool_decide (a = "HS256"%string) then "hmac"%string
                                  else if bool_decide (a = "ES256"%string) then "ec"%string else "rsa"%string;
            debug_algorithm a := a |}; apply _.
Defined.

#[export] Instance model_unicode : RustUnicode.
Proof. refine {| to_lowercase := to_ascii_lowercase |}. done. Defined.

#[export] Instance no_features : BuildFeatures := false.

Definition model_issuer : string := "https://id.example".

(** The claims of the token's subject, valid for an hour from the time 1000. *)
Definition model_claims (subject : string) : JwtClaims :=
  mkJwtClaims model_issuer subject (AudienceMany ["schemahub"; "other"]%string) 4600 (Some 1000) (Some 1000)
    (Some "Alice"%string) None None.

Definition model_decode (token key : string) (v : Validation) : outcome string JwtClaims :=
  match split_once "." token with
  | Some (kid, subject) =>
    if bool_decide (kid = key) && bool_decide ("RS256"%string ∈ va_algorithms v) &&
       bool_decide (model_issuer ∈ va_issuers v) && bool_decide ("schemahub"%string ∈ va_audiences v)
    then Ok (model_claims subject) else Err "InvalidSignature"%string
  | None => Err "InvalidToken"%string
  end.

#[export] Instance model_jwt : JwtLib.
Proof.
  refine {| PublicKeyUse := bool; Signature := true; KeyOperations := bool; Verify := true;
            KeyAlgorithm := string; key_algorithm_to_string a := a;
            Jwk := string; jwk_public_key_use _ := Some true; jwk_key_operations _ := None;
            jwk_key_algorithm _ := Some "RS256"%string; jwk_key_id k := Some k;
            DecodingKey := string; from_jwk k := Ok k; key_family _ := "rsa"%string;
            Header := string; hdr_typ _ := Some "JWT"%string; hdr_alg _ := "RS256"%string; hdr_kid k := Some k;
            hdr_crit _ := None; hdr_has_jku _ := false; hdr_has_jwk _ := false; hdr_has_x5u _ := false;
            hdr_has_x5c _ := false; hdr_has_cty _ := false; hdr_has_enc _ := false; hdr_has_zip _ := false;
            decode_header token := fst <$> ok_or (split_once "." token) "InvalidToken"%string;
            jwt_decode := model_decode;
            jwks_from_slice bs := Ok [String.string_of_list_byte bs] |}.
Defined.

Definition model_verifies (key : DecodingKey) (alg : Algorithm) (token : string) : Prop :=
  ∃ subject, split_once "." token = Some (key, subject).

#[export] Instance model_jwt_laws : JwtLibLaws model_verifies.
Proof.
  split; intros token key v claims H; cbn [jwt_decode model_jwt] in H; unfold model_decode in H;
    destruct (split_once "." token) as [[kid subject]|] eqn:E; try done;
    destruct (_ && bool_decide ("schemahub"%string ∈ va_audiences v)) eqn:Ec; try done; injection H as <-;
    rewrite !andb_true_iff, !bool_decide_eq_true in Ec; destruct Ec as (((-> & Ha) & Hi) & Hu).
  - exists key. cbn [decode_header model_jwt]. rewrite E. split_and!; [done|exact Ha|by exists subject].
  - exact Hi.
  - exists "schemahub"%string. split; [by left|done].
Qed.

(** ** A deployment *)

Definition model_jwt_config : JwtAuthConfig :=
  mkJwtAuthConfig model_issuer ["schemahub"%string] ["RS256"; "ES256"]%string "JWT" "oidc:" None (Some "/keys.json"%string)
    60 300 900 5 8192 65536.

(** The file holds one key. *)
Definition key_file (kid : string) : LoadEnv :=
  mkLoadEnv (λ _, Ok (str_len kid)) (λ _, Ok (as_bytes kid)) (λ _, Ok tt) (λ _, Err "no network"%string).

Definition no_file : LoadEnv :=
  mkLoadEnv (λ _, Err "not found"%string) (λ _, Err "not found"%string) (λ _, Ok tt) (λ _, Err "no network"%string).

Definition started_server : outcome string JwtAuthRuntime := initialize_with_clock model_jwt_config (key_file "k1") (Ok 1000).

Definition model_runtime : JwtAuthRuntime :=
  unwrap_or started_server
    (mkJwtAuthRuntime (mkJwtAuthn (mkJwtValidationPolicy "" [] [] ∅ "" "" 0 0 0) (mkJwtKeyState ∅ 0)) (LoadFile "" 0) 0).

Lemma model_started : initialize_with_clock model_jwt_config (key_file "k1") (Ok 1000) = Ok model_runtime.
Proof. apply is_ok_unwrap. vm_compute. reflexivity. Qed.

(** A rotation, a refresh that fails and a poll. *)
Definition rotation : list refresh_event :=
  [RefreshTick (key_file "k2") (Ok 1300) (Ok 1300); RefreshTick no_file (Ok 1600) (Ok 1600); FreshnessPoll (Ok 1605)].

Lemma model_jwt_ok : jwt_validate model_jwt_config = Ok tt.
Proof. vm_compute. reflexivity. Qed.

(** The old key is gone, the new one is accepted. *)
Lemma rotated_key_rejected :
  jwt_authn (rf_authn (refresh_run (rt_loader model_runtime) (refresh_start model_runtime (readiness_new true)) rotation))
    (Ok 1700) (Some "k1.alice"%string) = Err InvalidToken.
Proof. vm_compute. reflexivity. Qed.

Lemma accepted_token_is_verified_witness :
  ∃ policy first now claims,
    policy_from_config model_jwt_config = Ok policy ∧
    good_load (rt_loader model_runtime) (jp_allowed_algorithm_set policy) (key_file "k1") (Ok 1000) = Some first ∧
    let '(jwks, loaded_at) := last_good (rt_loader model_runtime) (jp_allowed_algorithm_set policy) first rotation in
    (Ok 1700 : outcome string Z) = Ok now ∧ now - loaded_at <= jc_max_stale_seconds model_jwt_config ∧
    str_len "k2.alice" <= jc_max_token_bytes model_jwt_config ∧
    signed_by (verifies := model_verifies) model_jwt_config jwks "k2.alice" claims ∧ claims_valid model_jwt_config claims now ∧
    identity_of model_jwt_config claims (User "oidc:alice" (Some "Alice"%string)).
Proof.
  refine (accepted_token_is_verified (verifies := model_verifies) model_jwt_config (key_file "k1") (Ok 1000) (Ok 1700)
            model_runtime (readiness_new true) rotation "k2.alice" (User "oidc:alice" (Some "Alice"%string)) model_started _ _).
  - discriminate.
  - vm_compute. reflexivity.
Defined.

(** After an outage the keys of 1300 are too old at 2500. *)
Definition outage : list refresh_event := rotation ++ [RefreshTick no_file (Ok 2000) (Ok 2000)].

Lemma unready_means_closed_witness :
  let run := refresh_run (rt_loader model_runtime) (refresh_start model_runtime (readiness_new true)) in
  let events := outage ++ [FreshnessPoll (Ok 2500)] in
  is_auth_ready (rf_readiness (run events)) = false ∧
  (∀ later token, 2500 <= later → token ≠ ""%string →
     is_ok (jwt_authn (rf_authn (run events)) (Ok later) (Some token)) = false).
Proof.
  cbv zeta. split; [vm_compute; reflexivity|].
  refine (proj1 (unready_means_closed model_runtime true (outage ++ [FreshnessPoll (Ok 2500)]) 2500 _) _);
    [|vm_compute; reflexivity].
  repeat (constructor; [repeat (constructor; [eexists; split; [reflexivity|lia]|]); constructor|]). constructor.
Defined.

Lemma loaded_keys_bounded_witness :
  ∃ bytes, jwks_from_slice bytes = Ok ["k1"%string] ∧ Z.of_nat (length bytes) <= jc_max_jwks_bytes model_jwt_config <= 4194304.
Proof.
  refine (loaded_keys_bounded model_jwt_config (key_file "k1") (key_file "k1") (LoadFile "/keys.json" 65536) ["k1"%string]
            model_jwt_ok _ _); vm_compute; reflexivity.
Defined.

(** Two repositories; the second one turns checking off. *)
Definition plain_section (direction : string) : RepoSection := mkRepoSection None (Some direction) None None None.

Definition model_config : Config :=
  mkConfig storage_default listen_default http_default
    {[ "acme/pets"%string := plain_section "Backward"; "acme/shop"%string := plain_section "NONE" ]}
    (mkAuthConfig "" ∅ (Some model_jwt_config))
    {[ "acme"%string := mkProjectSection (Some "public"%string) ["oidc:alice"%string] {[ "oidc:bob"%string := "writer"%string ]} ]}.

Lemma repo_configs_exact_witness :
  repo_config_store model_config !! ("acme", "shop")%string =
    repo_config_from_section <$> cf_repos model_config !! ("acme" +:+ "/" +:+ "shop")%string ∧
  ∀ s d, cf_repos model_config !! ("acme" +:+ "/" +:+ "shop")%string = Some s → rse_compatibility s = Some d →
    parse_direction_strict d = Ok (compatibility_direction (repo_config_from_section s)).
Proof. refine (repo_configs_exact model_config "acme" "shop" _). vm_compute. reflexivity. Defined.
