(* ===== verification/JjStore.v ===== *)
(** * JjStore: the jj stores over the object database

    [crates/schemahub-jj/src/jj_backend.rs], [jj_op_store.rs] and
    [jj_op_heads.rs]: files, trees and commits as protobuf objects, operations and
    views as JSON, the heads of the operation log as a ref. An id of jj-lib is the
    list of its bytes, a [Merge] the list of its alternating terms. What jj-lib,
    blake2, prost, serde_json and hex compute is a parameter. *)
From S2P Require Import Prelude RustStd ObjectDb.
From Stdlib Require Import Strings.Byte Ascii.

Open Scope Z_scope.

(** ** Programs on the database

    A method reads and changes the database; what it has changed stays changed if
    it fails. *)
Definition dbm (E A : Type) : Type := Inner → outcome E A * Inner.

#[export] Instance dbm_ret {E} : MRet (dbm E) := λ A a d, (Ok a, d).
#[export] Instance dbm_bind {E} : MBind (dbm E) := λ A B f m d,
  match m d with
  | (Ok a, d') => f a d'
  | (Err e, d') => (Err e, d')
  | (Panic, d') => (Panic, d')
  | (Stuck, d') => (Stuck, d')
  end.

(** A read, a value that was computed, and a change. *)
Definition db_read {E A} (f : Inner → outcome E A) : dbm E A := λ d, (f d, d).
Definition db_lift {E A} (r : outcome E A) : dbm E A := λ d, (r, d).
Definition db_put {E} (f : Inner → Inner) : dbm E unit := λ d, (Ok tt, f d).
Definition db_map_err {E E' A} (f : E → E') (m : dbm E A) : dbm E' A := λ d, let '(r, d') := m d in (map_err f r, d').

Lemma dbm_bind_Ok {E A B} (m : dbm E A) (f : A → dbm E B) d b d' :
  (m ≫= f) d = (Ok b, d') → ∃ a d1, m d = (Ok a, d1) ∧ f a d1 = (Ok b, d').
Proof.
  unfold mbind, dbm_bind. destruct (m d) as [[a| | |] d1] eqn:Hm; intros H; try done.
  by exists a, d1.
Qed.

Lemma db_read_Ok {E A} (f : Inner → outcome E A) d a d' : db_read f d = (Ok a, d') → f d = Ok a ∧ d' = d.
Proof. by intros [= -> ->]. Qed.

Lemma db_lift_Ok {E A} (r : outcome E A) d a d' : db_lift r d = (Ok a, d') → r = Ok a ∧ d' = d.
Proof. by intros [= -> ->]. Qed.

Lemma db_map_err_Ok {E E' A} (f : E → E') (m : dbm E A) d a d' :
  db_map_err f m d = (Ok a, d') → m d = (Ok a, d').
Proof. unfold db_map_err. destruct (m d) as [[] d1]; by intros [= -> ->]. Qed.

(** ** Data of jj-lib *)

Record JjTimestamp := mkJjTimestamp { jt_millis : Z; jt_tz_offset : Z }.

Record JjSignature := mkJjSignature {
  js_name : string;
  js_email : string;
  js_timestamp : JjTimestamp;
}.

Record SecureSig := mkSecureSig { ss_data : list byte; ss_sig : list byte }.

Inductive TreeValue :=
  | TvFile (id : list byte) (executable : bool) (copy_id : list byte)
  | TvSymlink (id : list byte)
  | TvTree (id : list byte)
  | TvGitSubmodule (id : list byte).

#[export] Instance TreeValue_eq_dec : EqDecision TreeValue.
Proof. solve_decision. Defined.

(** The entries in the order of their names. *)
Definition JjTree : Type := list (string * TreeValue).

(** The terms of a [Merge]: added and removed ones take turns, and the first and
    the last are added. *)
Abbreviation merge_terms A := (list A).

(** [Merge::from_vec] asserts that the number of terms is odd. *)
Definition merge_from_vec {E A} (terms : list A) : outcome E (merge_terms A) :=
  if Nat.odd (length terms) then Ok terms else Panic.

Record JjCommit := mkJjCommit {
  jc_parents : list (list byte);
  jc_predecessors : list (list byte);
  jc_root_tree : merge_terms (list byte);
  jc_conflict_labels : merge_terms string;
  jc_change_id : list byte;
  jc_description : string;
  jc_author : JjSignature;
  jc_committer : JjSignature;
  jc_secure_sig : option SecureSig;
}.

(** [RefTarget]. *)
Abbreviation RefTarget := (merge_terms (option (list byte))).

Definition ref_absent : RefTarget := [None].

(** The type of jj-lib for the refs of a remote, which the code leaves empty. *)
Class JjRemotes := RemoteView : Type.

Record JjView `{JjRemotes} := mkJjView {
  jv_head_ids : gset (list byte);
  jv_local_bookmarks : gmap string RefTarget;
  jv_local_tags : gmap string RefTarget;
  jv_remote_views : gmap string RemoteView;
  jv_git_refs : gmap string RefTarget;
  jv_git_head : RefTarget;
  jv_wc_commit_ids : gmap string (list byte);
}.

Arguments mkJjView {_} _ _ _ _ _ _ _.

Record JjOpMetadata := mkJjOpMetadata {
  jm_start : JjTimestamp;
  jm_end : JjTimestamp;
  jm_description : string;
  jm_hostname : string;
  jm_username : string;
  jm_is_snapshot : bool;
  jm_workspace_name : option string;
  jm_attributes : gmap string string;
}.

Record JjOperation := mkJjOperation {
  jo_view_id : list byte;
  jo_parents : list (list byte);
  jo_metadata : JjOpMetadata;
  jo_commit_predecessors : option (gmap (list byte) (list (list byte)));
}.

(** ** Stored forms *)

(** [protos::tree_value::Value]. *)
Inductive PTreeValue :=
  | PvTreeId (id : list byte)
  | PvFile (id : list byte) (executable : bool) (copy_id : list byte)
  | PvSymlinkId (id : list byte).

(** [protos::Tree]: names with an optional [TreeValue], whose [oneof] is optional
    as well. *)
Definition PTree : Type := list (string * option (option PTreeValue)).

Record PSignature := mkPSignature {
  pg_name : string;
  pg_email : string;
  pg_timestamp : option JjTimestamp;
}.

Record PCommit := mkPCommit {
  pc_parents : list (list byte);
  pc_predecessors : list (list byte);
  pc_root_tree : list (list byte);
  pc_conflict_labels : list string;
  pc_change_id : list byte;
  pc_description : string;
  pc_author : option PSignature;
  pc_committer : option PSignature;
  pc_secure_sig : option (list byte);
}.

Definition StoredRefTarget : Type := list (option string).

Record StoredView := mkStoredView {
  sv_head_ids : list string;
  sv_local_bookmarks : list (string * StoredRefTarget);
  sv_local_tags : list (string * StoredRefTarget);
  sv_wc_commit_ids : list (string * string);
}.

Record StoredOperation := mkStoredOperation {
  sop_view_id : string;
  sop_parents : list string;
  sop_start_millis : Z;
  sop_start_tz : Z;
  sop_end_millis : Z;
  sop_end_tz : Z;
  sop_description : string;
  sop_hostname : string;
  sop_username : string;
  sop_is_snapshot : bool;
  sop_workspace_name : option string;
  sop_attributes : list (string * string);
}.

(** ** Parameters *)

(** What jj-lib computes of ids, hashes, names and labels. [jj_labels] is
    [ConflictLabels::from_vec] followed by [into_merge]. *)
Class JjLib `{JjRemotes} := {
  id_hex : list byte → string;
  id_try_from_hex : string → option (list byte);
  id_from_hex : string → list byte;
  id_reverse_hex : list byte → string;
  blake2b512 : list byte → list byte;
  hash_tree : JjTree → list byte;
  hash_commit : JjCommit → list byte;
  hash_view : JjView → list byte;
  hash_operation : JjOperation → list byte;
  component_new : string → outcome string string;
  make_root_commit : list byte → list byte → JjCommit;
  make_root_view : list byte → JjView;
  make_root_operation : list byte → JjOperation;
  jj_labels : ∀ {E}, list string → outcome E (merge_terms string);
}.

(** prost, serde_json and the hex decoder. *)
Class JjCodec := {
  tree_encode : PTree → list byte;
  tree_decode : list byte → outcome string PTree;
  commit_encode : PCommit → list byte;
  commit_decode : list byte → outcome string PCommit;
  view_to_json : StoredView → outcome string (list byte);
  view_from_json : list byte → outcome string StoredView;
  operation_to_json : StoredOperation → outcome string (list byte);
  operation_from_json : list byte → outcome string StoredOperation;
  hex_decode : string → outcome string (list byte);
  fmt_from_utf8_error : list byte → string;
}.

(** The blake2b hash of the empty tree. *)
Definition EMPTY_TREE_ID_HEX : string :=
  "482ae5a29fbe856c7272f2071b8b0f0359ee2d89ff392b8a900643fbd0836eccd067b8bf41909e206c90d45d6e7d8b6686b93ecaee5fe1a9060d87b672101310".

(** Documented: hexadecimal codes of jj-lib are those of the hex crate and read
    back, they contain no separators, path components have no slash, an unlabelled
    conflict has one empty label, strings and integers serialize, and messages and JSON read
    back. *)
Class JjLaws `{JjRemotes} (L : JjLib) (C : JjCodec) (H : Hex) : Prop := {
  id_hex_is_hex id : id_hex id = hex_encode id;
  id_try_from_hex_hex id : id_try_from_hex (id_hex id) = Some id;
  id_hex_decode id : hex_decode (id_hex id) = Ok id;
  id_hex_no_newline id : contains_char NEWLINE (id_hex id) = false;
  id_hex_ascii id : Forall (λ b, u8 b < 128) (as_bytes (id_hex id));
  id_hex_nonempty id : id ≠ [] → id_hex id ≠ ""%string;
  component_new_Ok name : name ≠ ""%string → contains_char "/" name = false → component_new name = Ok name;
  hash_tree_empty : hash_tree [] = id_from_hex EMPTY_TREE_ID_HEX;
  jj_labels_none {E} : jj_labels (E := E) [] = Ok [""%string];
  tree_decode_encode p : tree_decode (tree_encode p) = Ok p;
  commit_decode_encode p : commit_decode (commit_encode p) = Ok p;
  view_json_total v : ∃ bytes, view_to_json v = Ok bytes;
  operation_json_total o : ∃ bytes, operation_to_json o = Ok bytes;
  view_json v bytes : view_to_json v = Ok bytes → view_from_json bytes = Ok v;
  operation_json o bytes : operation_to_json o = Ok bytes → operation_from_json bytes = Ok o;
}.

(** ** Errors *)

(** The variants of [BackendError] that the backend uses; the message stands for
    the boxed source. *)
Inductive BackendError :=
  | BeObjectNotFound (object_type hash source : string)
  | BeUnsupported (m : string)
  | BeOther (m : string).

(** The variants of [OpStoreError]. *)
Inductive OpStoreError :=
  | OpsObjectNotFound (object_type hash source : string)
  | OpsReadObject (object_type hash source : string)
  | OpsWriteObject (object_type source : string)
  | OpsOther (m : string).

Inductive OpHeadsStoreError :=
  | OhRead (m : string)
  | OhWrite (new_op_id : list byte) (source : string).

(** [PrefixResolution]. *)
Inductive PrefixResolution :=
  | NoMatch
  | SingleMatch (id : list byte)
  | AmbiguousMatch.

Section Stores.
Context {RM : JjRemotes} {L : JjLib} {C : JjCodec} {HO : HashOrder} {FMT : RustFmt}.

(** ** [DbBackend] *)

Definition COMMIT_ID_LENGTH : nat := 64.
Definition CHANGE_ID_LENGTH : nat := 16.
Definition TREE_ID_LENGTH : nat := 64.
Definition FILE_ID_LENGTH : nat := 64.
Definition SYMLINK_ID_LENGTH : nat := 64.

Definition backend_read_error (object_type hash : string) (err : ObjectDbError) : BackendError :=
  match err with
  | DbNotFound => BeObjectNotFound object_type hash (fmt_db_error DbNotFound)
  | DbBackend _ => BeOther (fmt_db_error err)
  end.

Definition root_commit_id : list byte := replicate COMMIT_ID_LENGTH Byte.x00.
Definition root_change_id : list byte := replicate CHANGE_ID_LENGTH Byte.x00.
Definition empty_tree_id : list byte := id_from_hex EMPTY_TREE_ID_HEX.

(** [DbBackend::new] stores the empty tree. *)
Definition backend_new : Inner → Inner := put_object_at Tree empty_tree_id (tree_encode []).

Definition read_file (id : list byte) (d : Inner) : outcome BackendError (list byte) :=
  map_err (backend_read_error "file" (id_hex id)) (get_object File id d).

Definition backend_write_file (buf : list byte) : dbm BackendError (list byte) :=
  let id := blake2b512 buf in
  _ ← db_put (put_object_at File id buf);
  mret id.

Definition read_symlink (id : list byte) (d : Inner) : outcome BackendError string :=
  bytes ← map_err (backend_read_error "symlink" (id_hex id)) (get_object Symlink id d);
  ok_or (from_utf8 bytes) (BeOther (fmt_from_utf8_error bytes)).

Definition write_symlink (target : string) : dbm BackendError (list byte) :=
  let id := blake2b512 (as_bytes target) in
  _ ← db_put (put_object_at Symlink id (as_bytes target));
  mret id.

(** *** Conversions *)

Definition validate_id_length (object_type : string) (bytes : list byte) (expected : nat) : outcome BackendError unit :=
  fail_if (negb (Nat.eqb (length bytes) expected))
    (BeOther ("malformed " +:+ object_type +:+ " id: expected " +:+ fmt_N (N.of_nat expected) +:+ " bytes, got " +:+
              fmt_N (N.of_nat (length bytes)))).

(** An id of the stated length. *)
Definition valid_id (object_type : string) (expected : nat) (bytes : list byte) : outcome BackendError (list byte) :=
  _ ← validate_id_length object_type bytes expected;
  Ok bytes.

Definition tree_value_to_proto (value : TreeValue) : outcome BackendError (option PTreeValue) :=
  match value with
  | TvFile id executable copy_id => Ok (Some (PvFile id executable copy_id))
  | TvSymlink id => Ok (Some (PvSymlinkId id))
  | TvGitSubmodule _ => Err (BeUnsupported "schemahub backend does not support git submodules")
  | TvTree id => Ok (Some (PvTreeId id))
  end.

Definition tree_value_from_proto (proto : option PTreeValue) : outcome BackendError TreeValue :=
  value ← ok_or proto (BeOther "malformed tree value: missing oneof");
  match value with
  | PvTreeId id => TvTree <$> valid_id "tree" TREE_ID_LENGTH id
  | PvFile id executable copy_id => (λ id, TvFile id executable copy_id) <$> valid_id "file" FILE_ID_LENGTH id
  | PvSymlinkId id => TvSymlink <$> valid_id "symlink" SYMLINK_ID_LENGTH id
  end.

Definition tree_to_proto (tree : JjTree) : outcome BackendError PTree :=
  mapM (λ '(name, value), v ← tree_value_to_proto value; Ok (name, Some v)) tree.

Definition tree_entry_from_proto (entry : string * option (option PTreeValue)) : outcome BackendError (string * TreeValue) :=
  let '(entry_name, entry_value) := entry in
  raw_value ← ok_or entry_value
    (BeOther ("malformed tree entry " +:+ debug_str entry_name +:+ ": missing tree_value oneof"));
  value ← tree_value_from_proto raw_value;
  name ← map_err (λ e, BeOther ("malformed tree entry name " +:+ debug_str entry_name +:+ ": " +:+ e)) (component_new entry_name);
  Ok (name, value).

Definition tree_from_proto (proto : PTree) : outcome BackendError JjTree := mapM tree_entry_from_proto proto.

Definition signature_to_proto (s : JjSignature) : PSignature :=
  mkPSignature (js_name s) (js_email s) (Some (mkJjTimestamp (jt_millis (js_timestamp s)) (jt_tz_offset (js_timestamp s)))).

Definition signature_from_proto (proto : PSignature) : outcome BackendError JjSignature :=
  timestamp ← ok_or (pg_timestamp proto) (BeOther "malformed commit signature: missing timestamp");
  Ok (mkJjSignature (pg_name proto) (pg_email proto) (mkJjTimestamp (jt_millis timestamp) (jt_tz_offset timestamp))).

(** [Merge::is_resolved]. *)
Definition merge_is_resolved {A} (m : merge_terms A) : bool := Nat.eqb (length m) 1.

Definition commit_to_proto (commit : JjCommit) : PCommit :=
  mkPCommit (jc_parents commit) (jc_predecessors commit) (jc_root_tree commit)
    (if merge_is_resolved (jc_conflict_labels commit) then [] else jc_conflict_labels commit)
    (jc_change_id commit) (jc_description commit) (Some (signature_to_proto (jc_author commit)))
    (Some (signature_to_proto (jc_committer commit))) None.

Definition pc_with_sig (proto : PCommit) (sig : option (list byte)) : PCommit :=
  mkPCommit (pc_parents proto) (pc_predecessors proto) (pc_root_tree proto) (pc_conflict_labels proto)
    (pc_change_id proto) (pc_description proto) (pc_author proto) (pc_committer proto) sig.

Definition commit_from_proto (proto : PCommit) : outcome BackendError JjCommit :=
  let rest := pc_with_sig proto None in
  let secure_sig := (λ sig, mkSecureSig (commit_encode rest) sig) <$> pc_secure_sig proto in
  _ ← fail_if (bool_decide (pc_parents proto = [])) (BeOther "malformed commit: missing parent ids");
  _ ← fail_if (bool_decide (pc_root_tree proto = [])) (BeOther "malformed commit: missing root tree ids");
  parents ← mapM (valid_id "commit parent" COMMIT_ID_LENGTH) (pc_parents proto);
  predecessors ← mapM (valid_id "commit predecessor" COMMIT_ID_LENGTH) (pc_predecessors proto);
  root_tree_ids ← mapM (valid_id "root tree" TREE_ID_LENGTH) (pc_root_tree proto);
  root_tree ← merge_from_vec root_tree_ids;
  conflict_labels ← jj_labels (pc_conflict_labels proto);
  change_id ← valid_id "change" CHANGE_ID_LENGTH (pc_change_id proto);
  author ← ok_or (pc_author proto) (BeOther "malformed commit: missing author");
  committer ← ok_or (pc_committer proto) (BeOther "malformed commit: missing committer");
  author ← signature_from_proto author;
  committer ← signature_from_proto committer;
  Ok (mkJjCommit parents predecessors root_tree conflict_labels change_id (pc_description proto) author committer secure_sig).

(** *** Trees and commits *)

Definition read_tree (id : list byte) (d : Inner) : outcome BackendError JjTree :=
  bytes ← map_err (backend_read_error "tree" (id_hex id)) (get_object Tree id d);
  proto ← map_err BeOther (tree_decode bytes);
  tree_from_proto proto.

Definition write_tree (tree : JjTree) : dbm BackendError (list byte) :=
  proto ← db_lift (tree_to_proto tree);
  let id := hash_tree tree in
  _ ← db_put (put_object_at Tree id (tree_encode proto));
  mret id.

Definition read_commit (id : list byte) (d : Inner) : outcome BackendError JjCommit :=
  if bool_decide (id = root_commit_id) then Ok (make_root_commit root_change_id empty_tree_id) else
  bytes ← map_err (backend_read_error "commit" (id_hex id)) (get_object Commit id d);
  proto ← map_err BeOther (commit_decode bytes);
  commit_from_proto proto.

Definition jc_with_sig (c : JjCommit) (sig : option SecureSig) : JjCommit :=
  mkJjCommit (jc_parents c) (jc_predecessors c) (jc_root_tree c) (jc_conflict_labels c) (jc_change_id c)
    (jc_description c) (jc_author c) (jc_committer c) sig.

(** The signing step of [write_commit]: the message and the commit to store. *)
Definition sign_commit (commit : JjCommit) (sign_with : option (list byte → outcome string (list byte))) :
    outcome BackendError (PCommit * JjCommit) :=
  let proto := commit_to_proto commit in
  match sign_with with
  | None => Ok (proto, commit)
  | Some sign =>
    let data := commit_encode proto in
    sig ← map_err BeOther (sign data);
    Ok (pc_with_sig proto (Some sig), jc_with_sig commit (Some (mkSecureSig data sig)))
  end.

(** The assertion fails on a signed commit. *)
Definition write_commit (commit : JjCommit) (sign_with : option (list byte → outcome string (list byte))) :
    dbm BackendError (list byte * JjCommit) :=
  _ ← db_lift (if is_some (jc_secure_sig commit) then Panic else Ok tt);
  _ ← db_lift (fail_if (bool_decide (jc_parents commit = [])) (BeOther "Cannot write a commit with no parents"));
  pair ← db_lift (sign_commit commit sign_with);
  let '(proto, commit) := pair : PCommit * JjCommit in
  let id := hash_commit commit in
  _ ← db_put (put_object_at Commit id (commit_encode proto));
  mret (id, commit).

(** ** [DbOpStore] *)

Definition OPERATION_ID_LENGTH : nat := 64.
Definition VIEW_ID_LENGTH : nat := 64.

Definition op_read_error (object_type hash : string) (err : ObjectDbError) : OpStoreError :=
  match err with
  | DbNotFound => OpsObjectNotFound object_type hash (fmt_db_error DbNotFound)
  | DbBackend _ => OpsOther (fmt_db_error err)
  end.

Definition root_operation_id : list byte := replicate OPERATION_ID_LENGTH Byte.x00.
Definition root_view_id : list byte := replicate VIEW_ID_LENGTH Byte.x00.

Definition decode_hex_id (object_type encoded : string) (expected_len : nat) : outcome OpStoreError (list byte) :=
  bytes ← map_err (OpsReadObject object_type encoded) (hex_decode encoded);
  _ ← fail_if (negb (Nat.eqb (length bytes) expected_len))
        (OpsReadObject object_type encoded
           ("invalid " +:+ object_type +:+ " id length: expected " +:+ fmt_N (N.of_nat expected_len) +:+ " bytes, got " +:+
            fmt_N (N.of_nat (length bytes))));
  Ok bytes.

Definition ref_target_to_stored (target : RefTarget) : StoredRefTarget := fmap (M := option) id_hex <$> target.

Definition ref_term_from_stored (term : option string) : outcome OpStoreError (option (list byte)) :=
  match term with
  | Some encoded => Some <$> decode_hex_id "commit" encoded COMMIT_ID_LENGTH
  | None => Ok None
  end.

Definition ref_target_from_stored (stored : StoredRefTarget) : outcome OpStoreError RefTarget :=
  terms ← mapM ref_term_from_stored stored;
  merge_from_vec terms.

(** [HashSet::iter]. *)
Definition hash_set_iter (s : gset (list byte)) : list (list byte) := (hash_iter (gset_to_gmap tt s)).*1.

Definition from_view (view : JjView) : StoredView :=
  mkStoredView (id_hex <$> hash_set_iter (jv_head_ids view))
    (prod_map id ref_target_to_stored <$> btree_iter (jv_local_bookmarks view))
    (prod_map id ref_target_to_stored <$> btree_iter (jv_local_tags view))
    (prod_map id id_hex <$> btree_iter (jv_wc_commit_ids view)).

(** A pair whose second half is decoded. *)
Definition decode_snd {A B} (f : A → outcome OpStoreError B) (kv : string * A) : outcome OpStoreError (string * B) :=
  pair kv.1 <$> f kv.2.

Definition try_into_view (stored : StoredView) : outcome OpStoreError JjView :=
  head_ids ← mapM (λ encoded, decode_hex_id "commit" encoded COMMIT_ID_LENGTH) (sv_head_ids stored);
  local_bookmarks ← mapM (decode_snd ref_target_from_stored) (sv_local_bookmarks stored);
  local_tags ← mapM (decode_snd ref_target_from_stored) (sv_local_tags stored);
  wc_commit_ids ← mapM (decode_snd (λ encoded, decode_hex_id "commit" encoded COMMIT_ID_LENGTH)) (sv_wc_commit_ids stored);
  Ok (mkJjView (list_to_set head_ids) (collect_map local_bookmarks) (collect_map local_tags) ∅ ∅ ref_absent
        (collect_map wc_commit_ids)).

Definition from_operation (op : JjOperation) : StoredOperation :=
  let m := jo_metadata op in
  mkStoredOperation (id_hex (jo_view_id op)) (id_hex <$> jo_parents op) (jt_millis (jm_start m))
    (jt_tz_offset (jm_start m)) (jt_millis (jm_end m)) (jt_tz_offset (jm_end m)) (jm_description m) (jm_hostname m)
    (jm_username m) (jm_is_snapshot m) (jm_workspace_name m) (btree_iter (jm_attributes m)).

Definition try_into_operation (stored : StoredOperation) : outcome OpStoreError JjOperation :=
  view_id ← decode_hex_id "view" (sop_view_id stored) VIEW_ID_LENGTH;
  parents ← mapM (λ encoded, decode_hex_id "operation" encoded OPERATION_ID_LENGTH) (sop_parents stored);
  Ok (mkJjOperation view_id parents
        (mkJjOpMetadata (mkJjTimestamp (sop_start_millis stored) (sop_start_tz stored))
           (mkJjTimestamp (sop_end_millis stored) (sop_end_tz stored)) (sop_description stored) (sop_hostname stored)
           (sop_username stored) (sop_is_snapshot stored) (sop_workspace_name stored) (collect_map (sop_attributes stored)))
        None).

(** [root_data.root_commit_id] is the id of the backend. *)
Definition read_view (id : list byte) (d : Inner) : outcome OpStoreError JjView :=
  if bool_decide (id = root_view_id) then Ok (make_root_view root_commit_id) else
  bytes ← map_err (op_read_error "view" (id_hex id)) (get_object View id d);
  stored ← map_err (OpsReadObject "view" (id_hex id)) (view_from_json bytes);
  try_into_view stored.

Definition write_view (view : JjView) : dbm OpStoreError (list byte) :=
  bytes ← db_lift (map_err OpsOther (view_to_json (from_view view)));
  let id := hash_view view in
  _ ← db_put (put_object_at View id bytes);
  mret id.

Definition read_operation (repo_key : string) (id : list byte) (d : Inner) : outcome OpStoreError JjOperation :=
  if bool_decide (id = root_operation_id) then Ok (make_root_operation root_view_id) else
  bytes ← map_err (op_read_error "operation" (id_hex id)) (get_op repo_key id d);
  stored ← map_err (OpsReadObject "operation" (id_hex id)) (operation_from_json bytes);
  try_into_operation stored.

Definition write_operation (repo_key : string) (operation : JjOperation) : dbm OpStoreError (list byte) :=
  _ ← db_lift (if bool_decide (jo_parents operation = []) then Panic else Ok tt);
  bytes ← db_lift (map_err OpsOther (operation_to_json (from_operation operation)));
  let id := hash_operation operation in
  _ ← db_put (put_op_at repo_key id bytes);
  mret id.

(** The loop of [resolve_operation_id_prefix]; a [HexPrefix] is its digits. *)
Fixpoint resolve_prefix (prefix : string) (matched : option (list byte)) (op_ids : list (list byte)) : PrefixResolution :=
  match op_ids with
  | [] => match matched with Some id => SingleMatch id | None => NoMatch end
  | id :: op_ids =>
    if negb (starts_with prefix (id_hex id)) then resolve_prefix prefix matched op_ids
    else match matched with
         | Some _ => AmbiguousMatch
         | None => resolve_prefix prefix (Some id) op_ids
         end
  end.

Definition resolve_operation_id_prefix (repo_key prefix : string) (d : Inner) : outcome OpStoreError PrefixResolution :=
  Ok (resolve_prefix prefix (if starts_with prefix (id_hex root_operation_id) then Some root_operation_id else None)
        (list_ops repo_key d)).

(** ** [DbOpHeadsStore] *)

Definition OP_HEADS_REF : string := "op_heads".

Definition read_op_head (hex : string) : outcome OpHeadsStoreError (list byte) :=
  ok_or (id_try_from_hex hex) (OhRead ("op-heads ref contains malformed hex id: " +:+ debug_str hex)).

Definition read_op_heads (repo_key : string) (d : Inner) : outcome OpHeadsStoreError (list (list byte)) :=
  match get_ref repo_key OP_HEADS_REF d with
  | None => Ok []
  | Some bytes =>
    text ← ok_or (from_utf8 bytes) (OhRead (fmt_from_utf8_error bytes));
    mapM read_op_head (List.filter (λ s, negb (str_is_empty s)) (split_char NEWLINE text))
  end.

Definition write_op_heads (repo_key : string) (ids : list (list byte)) : dbm OpHeadsStoreError unit :=
  db_put (set_ref repo_key OP_HEADS_REF (as_bytes (join nl (id_hex <$> ids)))).

(** The heads after an update. *)
Definition updated_heads (old_ids : list (list byte)) (new_id : list byte) (heads : list (list byte)) : list (list byte) :=
  let heads := retain (λ id, negb (bool_decide (id ∈ old_ids))) heads in
  if bool_decide (new_id ∈ heads) then heads else heads ++ [new_id].

Definition update_op_heads (repo_key : string) (old_ids : list (list byte)) (new_id : list byte) :
    dbm OpHeadsStoreError unit :=
  heads ← db_read (read_op_heads repo_key);
  write_op_heads repo_key (updated_heads old_ids new_id heads).

End Stores.

(** ** Round trips *)

Section RoundTrips.
Context {RM : JjRemotes} {L : JjLib} {C : JjCodec} {HX : Hex} {LL : JjLaws L C HX} {HO : HashOrder} {FMT : RustFmt}.

#[local] Arguments merge_is_resolved : simpl never.
#[local] Arguments signature_from_proto : simpl never.
#[local] Arguments signature_to_proto : simpl never.
#[local] Arguments collect_map : simpl never.

Definition id_of_length (n : nat) (id : list byte) : Prop := length id = n.

(** What the stores can hold: ids of the right length, names that are path
    components, merges with an odd number of terms. *)
Definition value_ok (v : TreeValue) : Prop :=
  match v with
  | TvFile id _ _ | TvSymlink id | TvTree id => id_of_length 64 id
  | TvGitSubmodule _ => False
  end.

Definition tree_ok (t : JjTree) : Prop :=
  ∀ name v, (name, v) ∈ t → name ≠ ""%string ∧ contains_char "/" name = false ∧ value_ok v.

Definition commit_ok (c : JjCommit) : Prop :=
  jc_parents c ≠ [] ∧ Forall (id_of_length 64) (jc_parents c) ∧ Forall (id_of_length 64) (jc_predecessors c) ∧
  Nat.odd (length (jc_root_tree c)) = true ∧ Forall (id_of_length 64) (jc_root_tree c) ∧
  (if merge_is_resolved (jc_conflict_labels c) then jc_conflict_labels c = [""%string]
   else jj_labels (E := BackendError) (jc_conflict_labels c) = Ok (jc_conflict_labels c)) ∧
  id_of_length 16 (jc_change_id c) ∧
  (∀ s, jc_secure_sig c = Some s → ss_data s = commit_encode (commit_to_proto c)).

Definition target_ok (t : RefTarget) : Prop :=
  Nat.odd (length t) = true ∧ ∀ id, Some id ∈ t → id_of_length 64 id.

Definition view_ok (v : JjView) : Prop :=
  (∀ id, id ∈ jv_head_ids v → id_of_length 64 id) ∧
  (∀ name t, jv_local_bookmarks v !! name = Some t → target_ok t) ∧
  (∀ name t, jv_local_tags v !! name = Some t → target_ok t) ∧
  (∀ name id, jv_wc_commit_ids v !! name = Some id → id_of_length 64 id).

Definition operation_ok (o : JjOperation) : Prop :=
  jo_parents o ≠ [] ∧ id_of_length 64 (jo_view_id o) ∧ Forall (id_of_length 64) (jo_parents o).

(** What is left of a view and of an operation: remote and git refs and commit
    predecessors are dropped. *)
Definition stored_view (v : JjView) : JjView :=
  mkJjView (jv_head_ids v) (jv_local_bookmarks v) (jv_local_tags v) ∅ ∅ ref_absent (jv_wc_commit_ids v).

Definition stored_operation (o : JjOperation) : JjOperation :=
  mkJjOperation (jo_view_id o) (jo_parents o) (jo_metadata o) None.

(** *** Decoding what was encoded *)

Lemma valid_id_ok what n id : id_of_length n id → valid_id what n id = Ok id.
Proof. unfold valid_id, validate_id_length, id_of_length. intros ->. by rewrite Nat.eqb_refl. Qed.

Lemma valid_ids_ok what n ids : Forall (id_of_length n) ids → mapM (valid_id what n) ids = Ok ids.
Proof.
  intros Hids. rewrite <- (list_fmap_id ids) at 1. apply mapM_decodes. intros id Hid. apply valid_id_ok.
  by apply (proj1 (Forall_forall _ _) Hids).
Qed.

Lemma decode_hex_id_ok what id n : id_of_length n id → decode_hex_id what (id_hex id) n = Ok id.
Proof. unfold decode_hex_id, id_of_length. intros <-. by rewrite id_hex_decode; cbn; rewrite Nat.eqb_refl. Qed.

Lemma tree_proto_roundtrip t : tree_ok t → ∃ p, tree_to_proto t = Ok p ∧ tree_from_proto p = Ok t.
Proof.
  intros Ht. unfold tree_to_proto, tree_from_proto. induction t as [|[name v] t IH]; [by exists []|].
  destruct (Ht name v) as (Hn & Hs & Hv); [by left|].
  destruct IH as (p & Hp & Hp'); [intros n' v' H'; apply Ht; by right|].
  assert (∃ w, tree_value_to_proto v = Ok w ∧ tree_value_from_proto w = Ok v) as (w & Hw & Hw').
  { destruct v; try done; eexists; (split; [reflexivity|]); cbn; by rewrite valid_id_ok. }
  exists ((name, Some w) :: p). split; cbn; [by rewrite Hw; cbn; rewrite Hp|].
  rewrite Hw'. cbn. rewrite component_new_Ok by done. cbn. by rewrite Hp'.
Qed.

Definition commit_message (c : JjCommit) : PCommit := pc_with_sig (commit_to_proto c) (ss_sig <$> jc_secure_sig c).

Lemma signature_roundtrip s : signature_from_proto (signature_to_proto s) = Ok s.
Proof. by destruct s as [? ? []]. Qed.

Lemma commit_roundtrip c : commit_ok c → commit_from_proto (commit_message c) = Ok c.
Proof.
  intros (Hp & Hps & Hpr & Hodd & Hrt & Hl & Hch & Hsig). unfold commit_from_proto, commit_message.
  destruct c as [ps prs rt ls ch desc au co sig]. cbn in *.
  rewrite (bool_decide_eq_false_2 (ps = [])) by done.
  rewrite (bool_decide_eq_false_2 (rt = [])) by (by intros ->). cbn.
  rewrite !valid_ids_ok by done. cbn. unfold merge_from_vec. rewrite Hodd. cbn.
  assert (jj_labels (E := BackendError) (if merge_is_resolved ls then [] else ls) = Ok ls) as ->.
  { destruct (merge_is_resolved ls); [by rewrite jj_labels_none, Hl|done]. }
  cbn. rewrite valid_id_ok by done. cbn. rewrite !signature_roundtrip. cbn. do 2 f_equal.
  destruct sig as [[data s]|]; [|done]. cbn. do 2 f_equal. symmetry. exact (Hsig _ eq_refl).
Qed.

Lemma ref_target_roundtrip t : target_ok t → ref_target_from_stored (ref_target_to_stored t) = Ok t.
Proof.
  intros [Hodd Hids]. unfold ref_target_from_stored, ref_target_to_stored. rewrite (mapM_decodes _ _ t).
  - cbn. unfold merge_from_vec. by rewrite Hodd.
  - intros [id|] Hid; [|done]. cbn. rewrite decode_hex_id_ok by (by apply Hids). done.
Qed.

Lemma decode_entries {A B} (f : A → outcome OpStoreError B) (g : B → A) (m : gmap string B) :
  (∀ k b, m !! k = Some b → f (g b) = Ok b) →
  mapM (decode_snd f) (prod_map id g <$> btree_iter m) = Ok (btree_iter m).
Proof.
  intros Hf. apply mapM_decodes. intros [k b] Hkb%elem_of_btree_iter. unfold decode_snd. cbn.
  by rewrite (Hf k b).
Qed.

Lemma hash_set_iter_elem s id : id ∈ hash_set_iter s ↔ id ∈ s.
Proof.
  unfold hash_set_iter. rewrite list_elem_of_fmap. split.
  - intros ([i []] & -> & Hi%elem_of_hash_iter). by apply lookup_gset_to_gmap_Some in Hi as [? _].
  - intros Hid. exists (id, tt). split; [done|]. by apply elem_of_hash_iter, lookup_gset_to_gmap_Some.
Qed.

Lemma view_roundtrip v : view_ok v → try_into_view (from_view v) = Ok (stored_view v).
Proof.
  intros (Hh & Hb & Ht & Hw). unfold try_into_view, from_view. cbn.
  rewrite (mapM_decodes _ id_hex (hash_set_iter (jv_head_ids v))).
  2:{ intros id Hid%hash_set_iter_elem. by apply decode_hex_id_ok, Hh. }
  cbn. rewrite (decode_entries _ _ (jv_local_bookmarks v)).
  2:{ intros k t Hk. by eapply ref_target_roundtrip, Hb. }
  cbn. rewrite (decode_entries _ _ (jv_local_tags v)).
  2:{ intros k t Hk. by eapply ref_target_roundtrip, Ht. }
  cbn. rewrite (decode_entries _ _ (jv_wc_commit_ids v)).
  2:{ intros k t Hk. by eapply decode_hex_id_ok, Hw. }
  cbn. rewrite !collect_map_btree_iter. unfold stored_view. do 2 f_equal.
  apply set_eq. intros id. by rewrite elem_of_list_to_set, hash_set_iter_elem.
Qed.

Lemma operation_roundtrip o : operation_ok o → try_into_operation (from_operation o) = Ok (stored_operation o).
Proof.
  intros (_ & Hv & Hp). unfold try_into_operation, from_operation. cbn.
  rewrite decode_hex_id_ok by done. cbn. rewrite (mapM_decodes _ id_hex).
  2:{ intros id Hid. apply decode_hex_id_ok. by apply (proj1 (Forall_forall _ _) Hp). }
  cbn. rewrite collect_map_btree_iter. destruct o as [vid ps [[] [] ? ? ? ? ? ?] cp]. done.
Qed.

(** *** Content addressing *)

(** What the bytes under an id stand for. *)
Definition object_meaning (kind : ObjectKind) (id bytes : list byte) : Prop :=
  match kind with
  | File => blake2b512 bytes = id
  | Tree => ∃ t p, tree_ok t ∧ hash_tree t = id ∧ tree_to_proto t = Ok p ∧ bytes = tree_encode p
  | Commit => ∃ c, commit_ok c ∧ hash_commit c = id ∧ bytes = commit_encode (commit_message c)
  | View => ∃ v, view_ok v ∧ hash_view v = id ∧ view_to_json (from_view v) = Ok bytes
  | Symlink | Conflict => True
  end.

Definition operation_meaning (id bytes : list byte) : Prop :=
  ∃ o, operation_ok o ∧ hash_operation o = id ∧ operation_to_json (from_operation o) = Ok bytes.

Definition addressed (d : Inner) : Prop :=
  (∀ kind id bytes, objects d !! (kind_tag kind, id) = Some bytes → object_meaning kind id bytes) ∧
  (∀ repo_key id bytes, get_op repo_key id d = Ok bytes → operation_meaning id bytes).

(** Nothing that was stored is lost or replaced. *)
Definition extends (d d' : Inner) : Prop :=
  (∀ k bytes, objects d !! k = Some bytes → objects d' !! k = Some bytes) ∧
  (∀ repo_key id bytes, get_op repo_key id d = Ok bytes → get_op repo_key id d' = Ok bytes).

(** One write through the stores. *)
Inductive jj_write : Inner → Inner → Prop :=
  | JwNew d : jj_write d (backend_new d)
  | JwFile buf id d d' : backend_write_file buf d = (Ok id, d') → jj_write d d'
  | JwSymlink target id d d' : write_symlink target d = (Ok id, d') → jj_write d d'
  | JwTree t id d d' : tree_ok t → write_tree t d = (Ok id, d') → jj_write d d'
  | JwCommit c sign p d d' : commit_ok c → write_commit c sign d = (Ok p, d') → jj_write d d'
  | JwView v id d d' : view_ok v → write_view v d = (Ok id, d') → jj_write d d'
  | JwOperation repo_key o id d d' : operation_ok o → write_operation repo_key o d = (Ok id, d') → jj_write d d'
  | JwHeads repo_key old_ids new_id r d d' : update_op_heads repo_key old_ids new_id d = (r, d') → jj_write d d'.

Lemma extends_refl d : extends d d.
Proof. done. Qed.

Lemma extends_trans d1 d2 d3 : extends d1 d2 → extends d2 d3 → extends d1 d3.
Proof. intros [H1 H1'] [H2 H2']. split; eauto. Qed.

Lemma put_object_at_extends kind id bytes d : extends d (put_object_at kind id bytes d).
Proof.
  split; [|done]. intros k b Hk. cbn. rewrite lookup_or_insert. case_decide as E; [|done]. subst k. by rewrite Hk.
Qed.

Lemma put_object_at_addressed kind id bytes d :
  addressed d → object_meaning kind id bytes → addressed (put_object_at kind id bytes d).
Proof.
  intros [Ho Hp] Hm. split; [|done]. intros kind' id' b. cbn. rewrite lookup_or_insert.
  case_decide as E; [|apply Ho]. injection E as Ek ->. apply kind_tag_inj in Ek as ->.
  destruct (objects d !! (kind_tag kind, id)) as [b'|] eqn:Hb; cbn; intros [= <-]; [by apply Ho|done].
Qed.

Lemma get_op_put_op_at repo_key id bytes d repo_key' id' :
  get_op repo_key' id' (put_op_at repo_key id bytes d) =
    if decide (repo_key' = repo_key ∧ id' = id) then Ok (unwrap_or (get_op repo_key id d) bytes)
    else get_op repo_key' id' d.
Proof.
  unfold get_op, put_op_at, repo_ops. cbn. rewrite lookup_insert. case_decide as Hr.
  - subst repo_key'. cbn. rewrite lookup_or_insert. case_decide as Hi; subst.
    + rewrite decide_True by done. cbn. by destruct (ops d !! repo_key) as [m|]; cbn; [destruct (m !! id)|].
    + rewrite decide_False by naive_solver. by destruct (ops d !! repo_key).
  - by rewrite decide_False by naive_solver.
Qed.

Lemma put_op_at_extends repo_key id bytes d : extends d (put_op_at repo_key id bytes d).
Proof.
  split; [done|]. intros r i b Hb. rewrite get_op_put_op_at. case_decide as E; [|done].
  destruct E as [-> ->]. by rewrite Hb.
Qed.

Lemma put_op_at_addressed repo_key id bytes d :
  addressed d → operation_meaning id bytes → addressed (put_op_at repo_key id bytes d).
Proof.
  intros [Ho Hp] Hm. split; [done|]. intros r i b. rewrite get_op_put_op_at. case_decide as E; [|apply Hp].
  destruct E as [-> ->]. destruct (get_op repo_key id d) as [b'| | |] eqn:Hb; cbn; intros [= <-]; try done. by eapply Hp.
Qed.

(** *** What each write stores *)

Lemma write_tree_inv t id d d' :
  write_tree t d = (Ok id, d') →
  ∃ p, tree_to_proto t = Ok p ∧ id = hash_tree t ∧ d' = put_object_at Tree id (tree_encode p) d.
Proof.
  intros (p & d1 & [Hp ->]%db_lift_Ok & H)%dbm_bind_Ok. exists p. by injection H as <- <-.
Qed.

Lemma write_commit_inv c sign id c' d d' :
  commit_ok c → write_commit c sign d = (Ok (id, c'), d') →
  commit_ok c' ∧ id = hash_commit c' ∧ d' = put_object_at Commit id (commit_encode (commit_message c')) d.
Proof.
  intros Hc ([] & d1 & [Hs ->]%db_lift_Ok & H)%dbm_bind_Ok.
  apply dbm_bind_Ok in H as ([] & d1 & [Hp ->]%db_lift_Ok & H).
  apply dbm_bind_Ok in H as ([proto c1] & d1 & [Hsign ->]%db_lift_Ok & H). injection H as <- <- <-.
  destruct (jc_secure_sig c) as [s|] eqn:Hn; [done|]. unfold sign_commit in Hsign.
  destruct sign as [sign|].
  - apply bind_Ok in Hsign as (sig & _ & [= <- <-]). destruct Hc as (?&?&?&?&?&?&?&?). split_and!; [|done|].
    + split_and!; try done. intros s [= <-]. done.
    + unfold commit_message. by destruct c.
  - injection Hsign as <- <-. split_and!; [done..|]. unfold commit_message. rewrite Hn. by destruct c.
Qed.

Lemma write_view_inv v id d d' :
  write_view v d = (Ok id, d') →
  ∃ bytes, view_to_json (from_view v) = Ok bytes ∧ id = hash_view v ∧ d' = put_object_at View id bytes d.
Proof.
  intros (bytes & d1 & [Hb ->]%db_lift_Ok & H)%dbm_bind_Ok. exists bytes. apply map_err_Ok in Hb.
  by injection H as <- <-.
Qed.

Lemma write_operation_inv repo_key o id d d' :
  write_operation repo_key o d = (Ok id, d') →
  ∃ bytes, operation_to_json (from_operation o) = Ok bytes ∧ id = hash_operation o ∧ d' = put_op_at repo_key id bytes d.
Proof.
  intros ([] & d1 & [_ ->]%db_lift_Ok & H)%dbm_bind_Ok.
  apply dbm_bind_Ok in H as (bytes & d1 & [Hb%map_err_Ok ->]%db_lift_Ok & H). exists bytes. by injection H as <- <-.
Qed.

Lemma update_op_heads_tables repo_key old_ids new_id r d d' :
  update_op_heads repo_key old_ids new_id d = (r, d') → objects d' = objects d ∧ ops d' = ops d.
Proof.
  unfold update_op_heads, mbind, dbm_bind, db_read. by destruct (read_op_heads repo_key d); intros [= <- <-].
Qed.

Lemma jj_write_extends d d' : jj_write d d' → extends d d'.
Proof.
  destruct 1 as [d|buf id d d' H|t id d d' H|t id d d' _ H|c sign [id c'] d d' Hc H|v id d d' _ H|r o id d d' _ H|
                 r old new x d d' H].
  - apply put_object_at_extends.
  - injection H as <- <-. apply put_object_at_extends.
  - injection H as <- <-. apply put_object_at_extends.
  - apply write_tree_inv in H as (p & _ & _ & ->). apply put_object_at_extends.
  - apply write_commit_inv in H as (_ & _ & ->); [|done]. apply put_object_at_extends.
  - apply write_view_inv in H as (p & _ & _ & ->). apply put_object_at_extends.
  - apply write_operation_inv in H as (p & _ & _ & ->). apply put_op_at_extends.
  - apply update_op_heads_tables in H as [Ho Hp]. unfold extends, get_op. by rewrite Ho, Hp.
Qed.

Lemma jj_write_addressed d d' : jj_write d d' → addressed d → addressed d'.
Proof.
  destruct 1 as [d|buf id d d' H|t id d d' H|t id d d' Ht H|c sign [id c'] d d' Hc H|v id d d' Hv H|r o id d d' Hr H|
                 r old new x d d' H]; intros Ha.
  - apply put_object_at_addressed; [done|]. exists [], []. split_and!; try done; [by intros ? ? ?%not_elem_of_nil|].
    apply hash_tree_empty.
  - injection H as <- <-. by apply put_object_at_addressed.
  - injection H as <- <-. by apply put_object_at_addressed.
  - apply write_tree_inv in H as (p & Hp & -> & ->). apply put_object_at_addressed; [done|]. by exists t, p.
  - apply write_commit_inv in H as (Hc' & -> & ->); [|done]. apply put_object_at_addressed; [done|]. by exists c'.
  - apply write_view_inv in H as (p & Hp & -> & ->). apply put_object_at_addressed; [done|]. by exists v.
  - apply write_operation_inv in H as (p & Hp & -> & ->). apply put_op_at_addressed; [done|]. by exists o.
  - apply update_op_heads_tables in H as [Ho Hp]. unfold addressed, get_op in *. by rewrite Ho, Hp.
Qed.

Lemma jj_writes_extend d d' : rtc jj_write d d' → extends d d'.
Proof. induction 1 as [|? ? ? H _ IH]; [done|]. eapply extends_trans; [by apply jj_write_extends|done]. Qed.

Lemma jj_writes_addressed d d' : rtc jj_write d d' → addressed d → addressed d'.
Proof. induction 1 as [|? ? ? H _ IH]; [done|]. intros Ha. by eapply IH, jj_write_addressed. Qed.

Lemma inner_default_addressed : addressed inner_default.
Proof. split; [intros kind id bytes; cbn; by rewrite lookup_empty|]. intros r id bytes. unfold get_op, inner_default. cbn [ops]. by rewrite lookup_empty. Qed.

(** The bytes under the id of a stored object after a write under that id. *)
Lemma put_object_at_lookup kind id bytes d :
  objects (put_object_at kind id bytes d) !! (kind_tag kind, id) = Some (default bytes (objects d !! (kind_tag kind, id))).
Proof. cbn. by rewrite lookup_or_insert, decide_True. Qed.

(** Reading the bytes of a value. *)
Lemma read_tree_value id t p d :
  objects d !! (kind_tag Tree, id) = Some (tree_encode p) → tree_ok t → tree_to_proto t = Ok p → read_tree id d = Ok t.
Proof.
  intros Hb Ht Hp. unfold read_tree, get_object. rewrite Hb. cbn. rewrite tree_decode_encode. cbn.
  destruct (tree_proto_roundtrip t Ht) as (p' & Hp' & Hr). rewrite Hp in Hp'. by injection Hp' as <-.
Qed.

Lemma read_commit_value id c d :
  objects d !! (kind_tag Commit, id) = Some (commit_encode (commit_message c)) → commit_ok c → id ≠ root_commit_id →
  read_commit id d = Ok c.
Proof.
  intros Hb Hc Hne. unfold read_commit, get_object. rewrite bool_decide_eq_false_2 by done. rewrite Hb. cbn.
  rewrite commit_decode_encode. cbn. by apply commit_roundtrip.
Qed.

Lemma read_view_value id v bytes d :
  objects d !! (kind_tag View, id) = Some bytes → view_ok v → view_to_json (from_view v) = Ok bytes →
  id ≠ root_view_id → read_view id d = Ok (stored_view v).
Proof.
  intros Hb Hv Hj Hne. unfold read_view, get_object. rewrite bool_decide_eq_false_2 by done. rewrite Hb. cbn.
  rewrite (view_json _ _ Hj). cbn. by apply view_roundtrip.
Qed.

Lemma read_operation_value repo_key id o bytes d :
  get_op repo_key id d = Ok bytes → operation_ok o → operation_to_json (from_operation o) = Ok bytes →
  id ≠ root_operation_id → read_operation repo_key id d = Ok (stored_operation o).
Proof.
  intros Hb Ho Hj Hne. unfold read_operation. rewrite bool_decide_eq_false_2 by done. rewrite Hb. cbn.
  rewrite (operation_json _ _ Hj). cbn. by apply operation_roundtrip.
Qed.

(** *** The heads of the operation log *)

Lemma join_ascii l : Forall (λ s, Forall (λ b, u8 b < 128) (as_bytes s)) l → Forall (λ b, u8 b < 128) (as_bytes (join nl l)).
Proof.
  induction 1 as [|s l Hs Hl IH]; [constructor|]. destruct l as [|s' l]; [done|].
  change (Forall (λ b, u8 b < 128) (as_bytes (s +:+ nl +:+ join nl (s' :: l)))).
  rewrite !as_bytes_app, !Forall_app. split_and!; [done| |done]. by repeat constructor.
Qed.

Lemma split_join l :
  l ≠ [] → Forall (λ s, contains_char NEWLINE s = false) l → split_char NEWLINE (join nl l) = l.
Proof.
  intros Hne Hl. induction Hl as [|s l Hs Hl IH]; [done|]. destruct l as [|s' l]; [by apply split_char_nil|].
  change (split_char NEWLINE (s +:+ String NEWLINE (join nl (s' :: l))) = s :: s' :: l).
  by rewrite split_char_app, IH.
Qed.

Lemma read_written_heads repo_key ids d :
  Forall (λ id, id ≠ []) ids → read_op_heads repo_key (write_op_heads repo_key ids d).2 = Ok ids.
Proof.
  intros Hids. unfold read_op_heads, write_op_heads, get_ref. cbn. rewrite lookup_insert_eq.
  rewrite from_utf8_as_bytes.
  2:{ apply ascii_utf8_valid, join_ascii, Forall_fmap, Forall_true. intros id. apply id_hex_ascii. }
  cbn. destruct ids as [|i ids]; [done|]. rewrite split_join; [|done|].
  2:{ apply Forall_fmap, Forall_true. intros id. apply id_hex_no_newline. }
  rewrite filter_all.
  2:{ intros s (id & -> & Hid)%list_elem_of_fmap. apply negb_true_iff, str_empty_false, id_hex_nonempty.
      by apply (proj1 (Forall_forall _ _) Hids). }
  apply mapM_decodes. intros id _. unfold read_op_head. by rewrite id_try_from_hex_hex.
Qed.

(** *** Durability *)

(** A read that gives this value now and after any further writes. *)
Definition stays_readable {E A} (read : Inner → outcome E A) (a : A) (d : Inner) : Prop :=
  ∀ d', rtc jj_write d d' → read d' = Ok a.

(** The value that the id of [x] stands for: [x], or the one that was stored first
    under the same hash. *)
Definition first_stored {A} (ok : A → Prop) (h : A → list byte) (fresh : Prop) (x x' : A) : Prop :=
  ok x' ∧ h x' = h x ∧ (fresh → x' = x).

(** No object and no operation is stored under an id. *)
Definition object_free (kind : ObjectKind) (id : list byte) (d : Inner) : Prop :=
  objects d !! (kind_tag kind, id) = None.

Definition op_free (repo_key : string) (id : list byte) (d : Inner) : Prop := is_ok (get_op repo_key id d) = false.

(** Bytes that are stored under an id stay there. *)
Lemma stored_first kind {A} (ok : A → Prop) (h : A → list byte) (encodes : A → list byte → Prop) x bytes d :
  (∀ b, object_meaning kind (h x) b → ∃ y, ok y ∧ h y = h x ∧ encodes y b) → addressed d → ok x → encodes x bytes →
  ∃ x' b, first_stored ok h (object_free kind (h x) d) x x' ∧ encodes x' b ∧
    ∀ d', rtc jj_write (put_object_at kind (h x) bytes d) d' → objects d' !! (kind_tag kind, h x) = Some b.
Proof.
  intros Hm [Ha _] Hx He. assert (∀ b, objects (put_object_at kind (h x) bytes d) !! (kind_tag kind, h x) = Some b →
    ∀ d', rtc jj_write (put_object_at kind (h x) bytes d) d' → objects d' !! (kind_tag kind, h x) = Some b) as Hstay.
  { intros b Hb d' [Ho _]%jj_writes_extend. by apply Ho. }
  rewrite put_object_at_lookup in Hstay. unfold object_free.
  destruct (objects d !! (kind_tag kind, h x)) as [b|] eqn:Hb.
  - destruct (Hm b (Ha _ _ _ Hb)) as (y & Hy & Hh & Hyb). exists y, b. split_and!; [by split_and!|done|by apply Hstay].
  - exists x, bytes. split_and!; [by split_and!|done|by apply Hstay].
Qed.

Lemma write_file_first buf d : addressed d →
  ∃ buf' d1, first_stored (λ _, True) blake2b512 (object_free File (blake2b512 buf) d) buf buf' ∧
    backend_write_file buf d = (Ok (blake2b512 buf), d1) ∧ stays_readable (read_file (blake2b512 buf)) buf' d1.
Proof.
  intros Ha. destruct (stored_first File (λ _, True) blake2b512 eq buf buf d) as (y & b & Hy & <- & Hd); [|done..|].
  { intros b Hb. by exists b. }
  exists y. eexists. split_and!; [done|reflexivity|]. intros d' Hd'. unfold read_file, get_object. by rewrite (Hd d' Hd').
Qed.

Lemma write_tree_first t d : addressed d → tree_ok t →
  ∃ t' d1, first_stored tree_ok hash_tree (object_free Tree (hash_tree t) d) t t' ∧
    write_tree t d = (Ok (hash_tree t), d1) ∧ stays_readable (read_tree (hash_tree t)) t' d1.
Proof.
  intros Ha Ht. destruct (tree_proto_roundtrip t Ht) as (p & Hp & _).
  destruct (stored_first Tree tree_ok hash_tree (λ t b, ∃ p, tree_to_proto t = Ok p ∧ b = tree_encode p) t (tree_encode p) d)
    as (y & b & Hy & (p' & Hp' & ->) & Hd); [|done|done|by exists p|].
  { intros b (y & p' & Hy & Hh & Hp' & ->). exists y. split_and!; [done..|]. by exists p'. }
  exists y. eexists. split_and!; [done| |].
  { unfold write_tree, mbind, dbm_bind, db_lift. rewrite Hp. reflexivity. }
  intros d' Hd'. destruct Hy as (Hy & _). by eapply read_tree_value; [apply Hd|..].
Qed.

Lemma write_commit_first c sign id c' d d1 : addressed d → commit_ok c → write_commit c sign d = (Ok (id, c'), d1) →
  id ≠ root_commit_id →
  ∃ c'', first_stored commit_ok hash_commit (object_free Commit id d) c' c'' ∧ stays_readable (read_commit id) c'' d1.
Proof.
  intros Ha Hc Hw Hne. apply write_commit_inv in Hw as (Hc' & -> & ->); [|done].
  destruct (stored_first Commit commit_ok hash_commit (λ c b, b = commit_encode (commit_message c)) c'
              (commit_encode (commit_message c')) d) as (y & b & Hy & -> & Hd); [done..|].
  exists y. split; [done|]. intros d' Hd'. destruct Hy as (Hy & _). by apply read_commit_value; [apply Hd|..].
Qed.

Lemma write_commit_unsigned c d :
  commit_ok c → jc_secure_sig c = None → ∃ d1, write_commit c None d = (Ok (hash_commit c, c), d1).
Proof.
  intros (Hp & _) Hs. unfold write_commit, mbind, dbm_bind, db_lift. rewrite Hs. cbn.
  rewrite bool_decide_eq_false_2 by done. cbn. eauto.
Qed.

Lemma write_view_first v d : addressed d → view_ok v → hash_view v ≠ root_view_id →
  ∃ v' d1, first_stored view_ok hash_view (object_free View (hash_view v) d) v v' ∧
    write_view v d = (Ok (hash_view v), d1) ∧ stays_readable (read_view (hash_view v)) (stored_view v') d1.
Proof.
  intros Ha Hv Hne. destruct (view_json_total (from_view v)) as (bytes & Hb).
  destruct (stored_first View view_ok hash_view (λ v b, view_to_json (from_view v) = Ok b) v bytes d)
    as (y & b & Hy & Hyb & Hd); [done..|].
  exists y. eexists. split_and!; [done| |].
  { unfold write_view, mbind, dbm_bind, db_lift. rewrite Hb. reflexivity. }
  intros d' Hd'. destruct Hy as (Hy & _). by eapply read_view_value; [apply Hd|..].
Qed.

Lemma write_operation_first repo_key o d : addressed d → operation_ok o → hash_operation o ≠ root_operation_id →
  ∃ o' d1, first_stored operation_ok hash_operation (op_free repo_key (hash_operation o) d) o o' ∧
    write_operation repo_key o d = (Ok (hash_operation o), d1) ∧
    stays_readable (read_operation repo_key (hash_operation o)) (stored_operation o') d1.
Proof.
  intros [_ Ha] Ho Hne. destruct (operation_json_total (from_operation o)) as (bytes & Hb).
  assert (∃ o' b, first_stored operation_ok hash_operation (op_free repo_key (hash_operation o) d) o o' ∧
            operation_to_json (from_operation o') = Ok b ∧
            get_op repo_key (hash_operation o) (put_op_at repo_key (hash_operation o) bytes d) = Ok b)
    as (o' & b & Ho' & Hj & Hg).
  { rewrite get_op_put_op_at, decide_True by done. unfold op_free.
    destruct (get_op repo_key (hash_operation o) d) as [b| | |] eqn:E; cbn; [|by exists o, bytes..].
    destruct (Ha _ _ _ E) as (o' & Ho' & Hh & Hj). by exists o', b. }
  exists o'. eexists. split_and!; [done| |].
  { unfold write_operation, mbind, dbm_bind, db_lift. destruct Ho as (Hp & _).
    rewrite bool_decide_eq_false_2 by done. cbn. rewrite Hb. reflexivity. }
  intros d' [_ Hd]%jj_writes_extend. destruct Ho' as (Ho' & _). by eapply read_operation_value; [apply Hd|..].
Qed.

Lemma update_op_heads_read repo_key old_ids new_id heads d :
  read_op_heads repo_key d = Ok heads → Forall (λ id, id ≠ []) heads → new_id ≠ [] →
  ∃ d1, update_op_heads repo_key old_ids new_id d = (Ok tt, d1) ∧
        read_op_heads repo_key d1 = Ok (updated_heads old_ids new_id heads).
Proof.
  intros Hr Hh Hn. eexists. split.
  { unfold update_op_heads, mbind, dbm_bind, db_read. rewrite Hr. reflexivity. }
  apply read_written_heads. unfold updated_heads.
  assert (Forall (λ id, id ≠ []) (retain (λ id, negb (bool_decide (id ∈ old_ids))) heads)) as Hf.
  { apply Forall_forall. intros id [Hid _]%elem_of_bool_filter. by apply (proj1 (Forall_forall _ _) Hh). }
  case_bool_decide; [done|]. apply Forall_app. split; [done|]. by constructor.
Qed.

(** C24. In a database that was filled through the stores, storing a file, a tree, an
    unsigned commit, a view or an operation whose names and ids are valid succeeds,
    and the id it returns is readable from then on, whatever is stored later. It
    reads back as the value itself if nothing was stored under that id before, and
    otherwise as the value that was stored first under the same hash; the read
    drops the refs of remotes and of git from a view and the predecessors of commits
    from an operation. A signed commit that was stored reads back as well. (The
    ids of the root commit, view and operation, which are not stored, are excluded.)
    An update of the operation heads removes the old ids, keeps the others in order
    and adds the new one. *)
Theorem jj_objects_durable (d : Inner) :
  rtc jj_write inner_default d →
  (∀ buf, ∃ buf' d1, first_stored (λ _, True) blake2b512 (object_free File (blake2b512 buf) d) buf buf' ∧
     backend_write_file buf d = (Ok (blake2b512 buf), d1) ∧ stays_readable (read_file (blake2b512 buf)) buf' d1) ∧
  (∀ t, tree_ok t → ∃ t' d1, first_stored tree_ok hash_tree (object_free Tree (hash_tree t) d) t t' ∧
     write_tree t d = (Ok (hash_tree t), d1) ∧ stays_readable (read_tree (hash_tree t)) t' d1) ∧
  (∀ c, commit_ok c → jc_secure_sig c = None → hash_commit c ≠ root_commit_id →
     ∃ c' d1, first_stored commit_ok hash_commit (object_free Commit (hash_commit c) d) c c' ∧
       write_commit c None d = (Ok (hash_commit c, c), d1) ∧ stays_readable (read_commit (hash_commit c)) c' d1) ∧
  (∀ c sign id c' d1, commit_ok c → write_commit c sign d = (Ok (id, c'), d1) → id ≠ root_commit_id →
     ∃ c'', first_stored commit_ok hash_commit (object_free Commit id d) c' c'' ∧ stays_readable (read_commit id) c'' d1) ∧
  (∀ v, view_ok v → hash_view v ≠ root_view_id →
     ∃ v' d1, first_stored view_ok hash_view (object_free View (hash_view v) d) v v' ∧
       write_view v d = (Ok (hash_view v), d1) ∧ stays_readable (read_view (hash_view v)) (stored_view v') d1) ∧
  (∀ repo_key o, operation_ok o → hash_operation o ≠ root_operation_id →
     ∃ o' d1, first_stored operation_ok hash_operation (op_free repo_key (hash_operation o) d) o o' ∧
       write_operation repo_key o d = (Ok (hash_operation o), d1) ∧
       stays_readable (read_operation repo_key (hash_operation o)) (stored_operation o') d1) ∧
  (∀ repo_key old_ids new_id heads, read_op_heads repo_key d = Ok heads → Forall (λ id, id ≠ []) heads → new_id ≠ [] →
     ∃ d1, update_op_heads repo_key old_ids new_id d = (Ok tt, d1) ∧
           read_op_heads repo_key d1 = Ok (updated_heads old_ids new_id heads)).
Proof.
  intros Hd. assert (addressed d) as Ha by apply (jj_writes_addressed _ _ Hd), inner_default_addressed.
  split_and!.
  - intros buf. by apply write_file_first.
  - intros t. by apply write_tree_first.
  - intros c Hc Hs Hne. destruct (write_commit_unsigned c d Hc Hs) as (d1 & Hw).
    destruct (write_commit_first c None (hash_commit c) c d d1) as (c' & Hc' & Hr); [done..|]. by exists c', d1.
  - intros c sign id c' d1. by apply write_commit_first.
  - intros v. by apply write_view_first.
  - intros repo_key o. by apply write_operation_first.
  - intros repo_key old_ids new_id heads. apply update_op_heads_read.
Qed.
End RoundTrips.
