(* ===== verification/JjRepo.v ===== *)
(** * JjRepo: schema repositories on top of jj

    [crates/schemahub-jj/src/lib.rs] and [repo.rs]: resolving refs, reading and
    writing schemas as trees, bookmarks, tags, the operation log, undo, the commit
    log, merges and garbage collection, over the stores of [JjStore]. What jj-lib
    does with a loaded repository (loading the head, walking, editing and merging
    trees, writing a commit, committing a transaction) is a parameter. Lock guards
    carry no data: a method runs while it holds them. *)
From S2P Require Import Prelude RustStd SchemaTypes ObjectDb CoreTypes Queries JjStore.
From Stdlib Require Import Strings.Byte Ascii.

Open Scope Z_scope.

(** ** Walks over a graph

    A loop [while let Some(n) = queue.pop()] whose body may push nodes; the top of
    the queue is the head of the list. Fuel is used only if the body pushes. *)
Section Walk.
Context {E S N : Type}.

Inductive walk_step :=
  | WNext (s : S)
  | WPush (s : S) (children : list N)
  | WBreak (s : S).

Context (body : S → N → outcome E walk_step).

Fixpoint walk (fuel : nat) (s : S) (queue : list N) {struct fuel} : outcome E S :=
  (fix go (s : S) (queue : list N) : outcome E S :=
     match queue with
     | [] => Ok s
     | n :: queue =>
       step ← body s n;
       match step with
       | WNext s => go s queue
       | WBreak s => Ok s
       | WPush s children =>
         match fuel with
         | O => Stuck
         | Datatypes.S fuel => walk fuel s (reverse children ++ queue)
         end
       end
     end) s queue.
End Walk.
Arguments walk_step : clear implicits.

(** ** Parameters *)

(** The operation a repository was loaded at, and its view. *)
Record jj_repo `{JjRemotes} := mkJjRepo {
  jr_op_id : list byte;
  jr_op : JjOperation;
  jr_view : JjView;
}.
Arguments mkJjRepo {_} _ _ _.

(** [MergedTree]: the ids of its terms. [MergedTreeValue]: the terms of a value. *)
Abbreviation MergedTree := (merge_terms (list byte)).
Abbreviation MergedTreeValue := (merge_terms (option TreeValue)).

(** What jj-lib does. An [outcome string] carries the text of its error. The loader
    needs settings and a directory for its index ([loader_setup]); loading the head
    may merge divergent heads, and [index_at] rebuilds the index at an operation. *)
Class JjRuntime `{JjRemotes} := {
  fmt_backend_error : BackendError → string;
  fmt_op_store_error : OpStoreError → string;
  fmt_op_heads_error : OpHeadsStoreError → string;
  loader_setup : string → outcome JjError unit;
  load_at_head : string → dbm string jj_repo;
  index_at : string → list byte → Inner → outcome string unit;
  repo_path : string → outcome string string;
  copy_id_placeholder : list byte;
  tree_entries : MergedTree → Inner → list (string * outcome string MergedTreeValue);
  tree_conflicts : MergedTree → Inner → list (string * outcome string MergedTreeValue);
  tree_path_value : MergedTree → string → Inner → outcome string MergedTreeValue;
  builder_write_tree : MergedTree → gmap string MergedTreeValue → dbm string MergedTree;
  merge_merged_trees : merge_terms MergedTree → dbm string MergedTree;
  merge_commit_trees : jj_repo → list (list byte * JjCommit) → dbm string MergedTree;
  new_commit : JjView → list (list byte) → MergedTree → JjSignature → string → dbm string (list byte * JjCommit * JjView);
  add_head : JjView → list byte * JjCommit → Inner → outcome string JjView;
  commit_transaction : string → jj_repo → JjView → gmap string string → string → dbm string (list byte);
}.

(** *** Walks that return *)

Section WalkLemmas.
Context {E S N : Type} (body : S → N → outcome E (walk_step S N)).

Lemma walk_nil fuel s : walk body fuel s [] = Ok s.
Proof. by destruct fuel. Qed.

Lemma walk_cons fuel s n queue :
  walk body fuel s (n :: queue) =
    (step ← body s n;
     match step with
     | WNext s => walk body fuel s queue
     | WBreak s => Ok s
     | WPush s children =>
       match fuel with O => Stuck | Datatypes.S fuel => walk body fuel s (reverse children ++ queue) end
     end).
Proof. by destruct fuel. Qed.

(** What the walk keeps holds at its end. *)
Lemma walk_inv (I : S → list N → Prop) (Q : S → Prop) :
  (∀ s n queue step, I s (n :: queue) → body s n = Ok step →
     match step with
     | WNext s' => I s' queue
     | WPush s' children => I s' (reverse children ++ queue)
     | WBreak s' => Q s'
     end) →
  (∀ s, I s [] → Q s) →
  ∀ fuel s queue s', I s queue → walk body fuel s queue = Ok s' → Q s'.
Proof.
  intros Hstep Hend. induction fuel as [|fuel IH]; intros s queue; revert s;
    (induction queue as [|n queue IHq]; intros s s' HI H;
       [rewrite walk_nil in H; injection H as <-; by apply Hend|]); rewrite walk_cons in H;
    apply bind_Ok in H as (step & Hb & H); specialize (Hstep _ _ _ _ HI Hb); destruct step as [s1|s1 children|s1].
  - by apply (IHq s1).
  - done.
  - by injection H as <-.
  - by apply (IHq s1).
  - by apply (IH s1 (reverse children ++ queue)).
  - by injection H as <-.
Qed.

(** If every push lowers a measure, as much fuel as the measure is enough. *)
Lemma walk_returns (I : S → list N → Prop) (measure : S → list N → nat) :
  (∀ s n queue, I s (n :: queue) → body s n ≠ Stuck) →
  (∀ s n queue step, I s (n :: queue) → body s n = Ok step →
     match step with
     | WNext s' => I s' queue ∧ (measure s' queue ≤ measure s (n :: queue))%nat
     | WPush s' children => I s' (reverse children ++ queue) ∧ (measure s' (reverse children ++ queue) < measure s (n :: queue))%nat
     | WBreak s' => True
     end) →
  ∀ fuel s queue, I s queue → (measure s queue ≤ fuel)%nat → walk body fuel s queue ≠ Stuck.
Proof.
  intros Hret Hstep. induction fuel as [|fuel IH]; intros s queue; revert s;
    (induction queue as [|n queue IHq]; intros s HI Hm; [by rewrite walk_nil|]); rewrite walk_cons;
    pose proof (Hret _ _ _ HI) as Hr; destruct (body s n) as [step| | |] eqn:Hb; try done;
    specialize (Hstep _ _ _ _ HI Hb); cbn; destruct step as [s1|s1 children|s1]; try done; destruct Hstep as [HI' Hm'].
  - apply IHq; [done|lia].
  - lia.
  - apply IHq; [done|lia].
  - apply IH; [done|lia].
Qed.
End WalkLemmas.

Section Repo.
Context {RM : JjRemotes} {L : JjLib} {C : JjCodec} {HX : Hex} {RT : JjRuntime} {HO : HashOrder} {FMT : RustFmt}.

Abbreviation jjm := (dbm JjError).

(** [From<ObjectDbError> for JjError]. *)
Definition jj_of_db_error (e : ObjectDbError) : JjError :=
  match e with DbNotFound => JjObjectNotFound | DbBackend _ => JjObjectDb e end.

(** [map_jj] of an error with this text. *)
Definition map_jj {E A} (fmt : E → string) (r : outcome E A) : outcome JjError A := map_err (λ e, JjOther (fmt e)) r.
Definition by_backend {A} (r : Inner → outcome BackendError A) : jjm A := db_read (λ d, map_jj fmt_backend_error (r d)).
Definition by_op_store {A} (r : Inner → outcome OpStoreError A) : jjm A := db_read (λ d, map_jj fmt_op_store_error (r d)).
Definition by_jj_lib {A} (m : dbm string A) : jjm A := db_map_err JjOther m.
Definition by_text {A} (r : Inner → outcome string A) : jjm A := db_read (λ d, map_err JjOther (r d)).

Definition jj_read_file (id : list byte) : jjm (list byte) := by_backend (read_file id).
Definition jj_write_file (bytes : list byte) : jjm (list byte) := db_map_err (λ e, JjOther (fmt_backend_error e)) (backend_write_file bytes).

Definition repo_key (project repo : string) : string := project +:+ "/" +:+ repo.

(** ** Loading *)

Definition load_repo (key : string) : jjm jj_repo :=
  _ ← db_put backend_new;
  _ ← db_lift (loader_setup key);
  heads ← db_read (λ d, map_jj fmt_op_heads_error (read_op_heads key d));
  _ ← (if bool_decide (heads = [])
       then db_put (λ d, (create_ref key OP_HEADS_REF (as_bytes (id_hex root_operation_id)) d).2)
       else mret tt);
  by_jj_lib (load_at_head key).

Definition load_operation (key : string) (id : list byte) : jjm (list byte * JjOperation) :=
  op ← by_op_store (read_operation key id);
  mret (id, op).

Definition operation_view (op : list byte * JjOperation) : jjm JjView := by_op_store (read_view (jo_view_id op.2)).

Definition load_at (key : string) (op : list byte * JjOperation) : jjm JjView :=
  view ← operation_view op;
  _ ← by_text (index_at key op.1);
  mret view.

Definition get_commit (id : list byte) : jjm (list byte * JjCommit) :=
  c ← by_backend (read_commit id);
  mret (id, c).

(** [commit.tree()]. *)
Definition commit_tree (c : list byte * JjCommit) : MergedTree := jc_root_tree c.2.

(** [Store::empty_merged_tree]. *)
Definition empty_merged_tree : MergedTree := [empty_tree_id].

(** ** Ref targets *)

(** The added terms of a merge are those at even positions, the removed ones those
    at odd positions. *)
Fixpoint merge_adds {A} (terms : list A) : list A :=
  match terms with
  | [] => []
  | x :: [] => [x]
  | x :: _ :: terms => x :: merge_adds terms
  end.

Fixpoint merge_removes {A} (terms : list A) : list A :=
  match terms with
  | x :: y :: terms => y :: merge_removes terms
  | _ => []
  end.

Definition added_ids (target : RefTarget) : list (list byte) := omap id (merge_adds target).

Definition get_local_bookmark (v : JjView) (name : string) : RefTarget := default ref_absent (jv_local_bookmarks v !! name).
Definition get_local_tag (v : JjView) (name : string) : RefTarget := default ref_absent (jv_local_tags v !! name).

Definition ref_is_absent (target : RefTarget) : bool := bool_decide (target = ref_absent).

(** An absent target removes the ref. *)
Definition set_ref_target (refs : gmap string RefTarget) (name : string) (target : RefTarget) : gmap string RefTarget :=
  if ref_is_absent target then delete name refs else <[name := target]> refs.

Definition set_local_bookmark_target (v : JjView) (name : string) (target : RefTarget) : JjView :=
  mkJjView (jv_head_ids v) (set_ref_target (jv_local_bookmarks v) name target) (jv_local_tags v) (jv_remote_views v)
    (jv_git_refs v) (jv_git_head v) (jv_wc_commit_ids v).

Definition set_local_tag_target (v : JjView) (name : string) (target : RefTarget) : JjView :=
  mkJjView (jv_head_ids v) (jv_local_bookmarks v) (set_ref_target (jv_local_tags v) name target) (jv_remote_views v)
    (jv_git_refs v) (jv_git_head v) (jv_wc_commit_ids v).

(** ** Revisions *)

(** The body of the walk of [validate_revision_in_repo]: the ids seen, and whether
    the target was met. *)
Definition revision_step (target : list byte) (d : Inner) (s : gset (list byte) * bool) (commit_id : list byte) :
    outcome JjError (walk_step (gset (list byte) * bool) (list byte)) :=
  let '(seen, _) := s in
  if bool_decide (commit_id ∈ seen) then Ok (WNext (seen, false)) else
  let seen := {[ commit_id ]} ∪ seen in
  if bool_decide (commit_id = target) then Ok (WBreak (seen, true)) else
  match read_commit commit_id d with
  | Ok commit => Ok (WPush (seen, false) (jc_parents commit))
  | Err (BeObjectNotFound _ _ _) => Ok (WNext (seen, false))
  | Err e => Err (JjOther (fmt_backend_error e))
  | Panic => Panic
  | Stuck => Stuck
  end.

(** Every stored commit pushes its parents at most once, and so does the root. *)
Definition commit_fuel (d : Inner) : nat := Datatypes.S (length (list_objects Commit d)).

(** The heads of the views of the operations. *)
Fixpoint operation_heads (key : string) (op_ids : list (list byte)) : jjm (list (list byte)) :=
  match op_ids with
  | [] => mret []
  | op_id :: op_ids =>
    if bool_decide (op_id = root_operation_id) then operation_heads key op_ids else
    operation ← load_operation key op_id;
    view ← operation_view operation;
    rest ← operation_heads key op_ids;
    mret (hash_set_iter (jv_head_ids view) ++ rest)
  end.

Definition validate_revision_in_repo (key : string) (repo : jj_repo) (target : list byte) : jjm unit :=
  op_ids ← db_read (λ d, Ok (list_ops key d));
  heads ← operation_heads key op_ids;
  let queue := hash_set_iter (jv_head_ids (jr_view repo)) ++ heads ++ [root_commit_id] in
  s ← db_read (λ d, walk (revision_step target d) (commit_fuel d) (∅, false) (reverse queue));
  db_lift (if s.2 : bool then Ok tt
           else Err (JjBadRef ("commit " +:+ id_hex target +:+ " is not retained by repository " +:+ key))).

Definition validate_revision (project repo commit_hex : string) : jjm unit :=
  target ← db_lift (ok_or (id_try_from_hex commit_hex) (JjBadRef commit_hex));
  let key := repo_key project repo in
  jj_repo ← load_repo key;
  validate_revision_in_repo key jj_repo target.

Definition resolve_ref (key : string) (repo : jj_repo) (at_ref : RefSpec) : jjm (list byte) :=
  match at_ref with
  | RefBookmark name =>
    db_lift (ok_or (head (added_ids (get_local_bookmark (jr_view repo) name))) (JjBookmarkNotFound name))
  | RefTag name => db_lift (ok_or (head (added_ids (get_local_tag (jr_view repo) name))) (JjTagNotFound name))
  | RefCommit id_hex =>
    commit ← db_lift (ok_or (id_try_from_hex id_hex) (JjBadRef id_hex));
    _ ← validate_revision_in_repo key repo commit;
    mret commit
  end.

Definition try_resolve (key : string) (repo : jj_repo) (at_ref : RefSpec) : jjm (option (list byte)) := λ d,
  match resolve_ref key repo at_ref d with
  | (Ok id, d) => (Ok (Some id), d)
  | (Err (JjBookmarkNotFound _), d) | (Err (JjTagNotFound _), d) => (Ok None, d)
  | (Err e, d) => (Err e, d)
  | (Panic, d) => (Panic, d)
  | (Stuck, d) => (Stuck, d)
  end.

(** The commit must be stored. *)
Definition stored_commit_hex (commit_id : list byte) : jjm string := λ d,
  match read_commit commit_id d with
  | Ok _ => (Ok (id_hex commit_id), d)
  | Err (BeObjectNotFound _ _ _) => (Err JjObjectNotFound, d)
  | Err e => (Err (JjOther (fmt_backend_error e)), d)
  | Panic => (Panic, d)
  | Stuck => (Stuck, d)
  end.

Definition resolve_ref_or_root (project repo : string) (at_ref : RefSpec) : jjm string :=
  let key := repo_key project repo in
  jj_repo ← load_repo key;
  resolved ← try_resolve key jj_repo at_ref;
  stored_commit_hex (default root_commit_id resolved).

Definition resolve_ref_id (project repo : string) (at_ref : RefSpec) : jjm string :=
  let key := repo_key project repo in
  jj_repo ← load_repo key;
  commit_id ← resolve_ref key jj_repo at_ref;
  stored_commit_hex commit_id.

Definition parse_repository_key (key : string) : outcome JjError (string * string) :=
  let malformed := JjOther ("malformed repository key in object database: " +:+ debug_str key) in
  pair ← ok_or (split_once "/" key) malformed;
  let '(project, repo) := pair : string * string in
  _ ← fail_if (str_is_empty project || str_is_empty repo || contains_char "/" repo) malformed;
  Ok (project, repo).

Definition list_repository_keys : jjm (list (string * string)) :=
  keys ← db_read (λ d, Ok (list_repo_keys d));
  repositories ← db_lift (mapM parse_repository_key keys);
  mret (vec_dedup (merge_sort pair_le repositories)).


(** ** Paths of declarations *)

Definition META_NAME : string := "__meta__".
Definition AUTHOR_ATTRIBUTE : string := "schemahub.author".

Definition encode_decl_name (name : string) : string := replace_char "/" "%2F" (replace_char "%" "%25" name).

Definition decode_decl_name (component : string) : string := str_replace "%25" "%" (str_replace "%2F" "/" component).

Definition decl_path (schema name : string) : outcome JjError string :=
  let encoded := encode_decl_name name in
  map_err (λ e, JjCorrupt ("bad path " +:+ schema +:+ "/" +:+ encoded +:+ ": " +:+ e))
    (repo_path (schema +:+ "/" +:+ encoded)).

(** The encoded name of a direct entry of a schema. *)
Definition direct_child (schema_path internal : string) : option string :=
  match strip_prefix (schema_path +:+ "/") internal with
  | Some rest => if contains_char "/" rest then None else Some rest
  | None => None
  end.

Definition resolved_file (id : list byte) : MergedTreeValue := [Some (TvFile id false copy_id_placeholder)].

(** [Merge::absent]. *)
Definition absent_value : MergedTreeValue := [None].

(** ** Reading trees *)

(** The loop of [load_schema_from_tree]. *)
Fixpoint load_entries (schema_path : string) (found_schema : bool) (objs : SchemaObjects)
    (entries : list (string * outcome string MergedTreeValue)) : jjm (bool * SchemaObjects) :=
  match entries with
  | [] => mret (found_schema, objs)
  | (internal, value) :: entries =>
    value ← db_lift (map_err JjOther value);
    match direct_child schema_path internal with
    | None => load_entries schema_path found_schema objs entries
    | Some rest =>
      let name := decode_decl_name rest in
      match value with
      | [Some (TvFile id _ _)] =>
        bytes ← jj_read_file id;
        load_entries schema_path true
          (if bool_decide (name = META_NAME) then mkSchemaObjects bytes (so_decls objs)
           else mkSchemaObjects (so_meta objs) (<[name := bytes]> (so_decls objs))) entries
      | _ => load_entries schema_path true objs entries
      end
    end
  end.

Definition load_schema_from_tree (tree : MergedTree) (schema_path : string) : jjm SchemaObjects :=
  entries ← db_read (λ d, Ok (tree_entries tree d));
  loaded ← load_entries schema_path false schema_objects_default entries;
  db_lift (if loaded.1 : bool then Ok loaded.2 else Err (JjSchemaNotFound schema_path)).

Definition conflict_path (internal : string) : string :=
  match rsplit_once "/" internal with
  | Some (schema, component) => schema +:+ "/" +:+ decode_decl_name component
  | None => decode_decl_name internal
  end.

(** The paths of a list of entries, none of which is an error. *)
Definition entry_paths (entries : list (string * outcome string MergedTreeValue)) : outcome JjError (list string) :=
  mapM (λ '(path, value), _ ← map_err JjOther value; Ok path) entries.

Definition conflicted_declaration_paths (tree : MergedTree) (d : Inner) : outcome JjError (list string) :=
  paths ← entry_paths (tree_conflicts tree d);
  Ok (vec_dedup (sort_strings (conflict_path <$> paths))).

Definition list_schemas_in_tree (tree : MergedTree) (d : Inner) : outcome JjError (list string) :=
  paths ← entry_paths (tree_entries tree d);
  Ok (btree_set_iter (list_to_set (omap (strip_suffix ("/" +:+ META_NAME)) paths))).

Definition conflicted_decls (tree : MergedTree) (d : Inner) : outcome JjError (list string) :=
  paths ← entry_paths (tree_conflicts tree d);
  Ok (vec_dedup (sort_strings ((λ internal, decode_decl_name (rsplit_next "/" internal)) <$> paths))).

(** The commit that a ref names in a repository that is loaded first. *)
Definition commit_at (project repo : string) (at_ref : RefSpec) : jjm (list byte * JjCommit) :=
  let key := repo_key project repo in
  jj_repo ← load_repo key;
  commit_id ← resolve_ref key jj_repo at_ref;
  get_commit commit_id.

Definition jj_load_schema (project repo schema_path : string) (at_ref : RefSpec) : jjm SchemaObjects :=
  commit ← commit_at project repo at_ref;
  load_schema_from_tree (commit_tree commit) schema_path.

Definition list_conflicted_declarations (project repo : string) (at_ref : RefSpec) : jjm (list string) :=
  commit ← commit_at project repo at_ref;
  db_read (conflicted_declaration_paths (commit_tree commit)).

Definition jj_list_schemas (project repo : string) (at_ref : RefSpec) : jjm (list string) :=
  commit ← commit_at project repo at_ref;
  db_read (list_schemas_in_tree (commit_tree commit)).

Definition jj_list_declarations (project repo schema_path : string) (at_ref : RefSpec) : jjm (list string) :=
  objs ← jj_load_schema project repo schema_path at_ref;
  mret (btree_iter (so_decls objs)).*1.

Definition jj_get_declaration (project repo schema_path decl : string) (at_ref : RefSpec) : jjm DeclBlob :=
  commit ← commit_at project repo at_ref;
  path ← db_lift (decl_path schema_path decl);
  value ← by_text (tree_path_value (commit_tree commit) path);
  match value with
  | [Some (TvFile id _ _)] => jj_read_file id
  | [Some _] => db_lift (Err (JjCorrupt (schema_path +:+ "/" +:+ decl +:+ " is not a file")))
  | [None] => db_lift (Err (JjDeclNotFound decl))
  | _ => db_lift (Err (JjNotConflicted (decl +:+ " is conflicted; use read_conflict")))
  end.

Definition tree_value_blob (value : TreeValue) : jjm (option DeclBlob) :=
  match value with
  | TvFile id _ _ => blob ← jj_read_file id; mret (Some blob)
  | _ => mret None
  end.

Fixpoint side_blobs (values : list TreeValue) : jjm (list DeclBlob) :=
  match values with
  | [] => mret []
  | v :: values =>
    blob ← tree_value_blob v;
    rest ← side_blobs values;
    mret (match blob with Some b => b :: rest | None => rest end)
  end.

Definition jj_read_conflict (project repo schema_path decl : string) (at_ref : RefSpec) : jjm ConflictSides :=
  commit ← commit_at project repo at_ref;
  path ← db_lift (decl_path schema_path decl);
  value ← by_text (tree_path_value (commit_tree commit) path);
  _ ← db_lift (fail_if (merge_is_resolved value) (JjNotConflicted decl));
  base ← match head (omap id (merge_removes value)) with
         | Some v => tree_value_blob v
         | None => mret None
         end;
  sides ← side_blobs (omap id (merge_adds value));
  mret (mkConflictSides base sides).

Definition schema_tree_state (tree : MergedTree) (schema_path : string) (d : Inner) :
    outcome JjError (gmap string MergedTreeValue) :=
  let prefix := schema_path +:+ "/" in
  let below := List.filter (λ e, starts_with prefix e.1) (tree_entries tree d) in
  state ← mapM (λ '(internal, value), v ← map_err JjOther value; Ok (internal, v)) below;
  Ok (collect_map state).

Definition jj_commit_touches_schema (project repo commit_hex schema_path : string) : jjm bool :=
  commit ← commit_at project repo (RefCommit commit_hex);
  current ← db_read (schema_tree_state (commit_tree commit) schema_path);
  parent ← match jc_parents commit.2 with
           | parent_id :: _ =>
             if bool_decide (parent_id ≠ root_commit_id)
             then parent ← get_commit parent_id; db_read (schema_tree_state (commit_tree parent) schema_path)
             else mret ∅
           | [] => mret ∅
           end;
  mret (negb (bool_decide (current = parent))).


(** ** Transactions *)

Definition author_signature (now : JjTimestamp) (author : string) : JjSignature :=
  mkJjSignature author (author +:+ "@schemahub") now.

Definition record_author (author : string) (attributes : gmap string string) : gmap string string :=
  if str_is_empty author then attributes else <[AUTHOR_ATTRIBUTE := author]> attributes.

(** The attributes of the caller, except those without a key. *)
Definition set_attributes (extra attributes : gmap string string) : gmap string string :=
  foldl (λ m '(key, value), if str_is_empty key then m else <[key := value]> m) attributes (btree_iter extra).

Definition commit_tx (key : string) (repo : jj_repo) (view : JjView) (attributes : gmap string string)
    (description : string) : jjm string :=
  id ← by_jj_lib (commit_transaction key repo view attributes description);
  mret (id_hex id).

(** A step of a publication that runs a policy. *)
Definition pub {E A} (m : jjm A) : dbm (PublicationError E) A := db_map_err PubJj m.

(** A publication whose policy accepts everything. *)
Definition infallible {A} (m : dbm (PublicationError Empty_set) A) : jjm A :=
  db_map_err (λ e : PublicationError Empty_set,
    match e with PubJj e => e | PubRejected never => match never : Empty_set with end end) m.

Definition accept_all (_ : PublicationSnapshot) : outcome Empty_set unit := Ok tt.

(** The reads of a policy: the database does not change while it runs. *)
Definition snapshot_of (tree : MergedTree) (known_schema_names : gset string) (conflicted : bool) (d : Inner) :
    PublicationSnapshot :=
  mkPublicationSnapshot (conflicted_declaration_paths tree d) (list_schemas_in_tree tree d)
    (λ schema_path, (load_schema_from_tree tree schema_path d).1) known_schema_names conflicted.

Definition run_policy {E} (validate : PublicationSnapshot → outcome E unit) (tree : MergedTree)
    (known_schema_names : gset string) (conflicted : bool) : dbm (PublicationError E) unit :=
  db_read (λ d, map_err PubRejected (validate (snapshot_of tree known_schema_names conflicted d))).

Definition known_in_tree {E} (tree : MergedTree) : dbm (PublicationError E) (gset string) :=
  names ← pub (db_read (list_schemas_in_tree tree));
  mret (list_to_set names).

(** ** Writes *)

Fixpoint write_upserts (schema_path : string) (upserts : list (string * DeclBlob)) (overrides : gmap string MergedTreeValue) :
    jjm (gmap string MergedTreeValue) :=
  match upserts with
  | [] => mret overrides
  | (name, blob) :: upserts =>
    id ← jj_write_file blob;
    path ← db_lift (decl_path schema_path name);
    write_upserts schema_path upserts (<[path := resolved_file id]> overrides)
  end.

Fixpoint write_removes (schema_path : string) (removes : list string) (overrides : gmap string MergedTreeValue) :
    outcome JjError (gmap string MergedTreeValue) :=
  match removes with
  | [] => Ok overrides
  | name :: removes =>
    path ← decl_path schema_path name;
    write_removes schema_path removes (<[path := absent_value]> overrides)
  end.

(** [apply_effect]; the builder is the map of its overrides. *)
Definition jj_apply_effect (schema_path : string) (effect : MutationEffect) (overrides : gmap string MergedTreeValue) :
    jjm (gmap string MergedTreeValue) :=
  overrides ← match me_meta effect with
              | Some meta =>
                id ← jj_write_file meta;
                path ← db_lift (decl_path schema_path META_NAME);
                mret (<[path := resolved_file id]> overrides)
              | None => mret overrides
              end;
  overrides ← write_upserts schema_path (me_upserts effect) overrides;
  db_lift (write_removes schema_path (me_removes effect) overrides).

Definition delete_schema_from_tree (base_tree : MergedTree) (schema_path : string) (overrides : gmap string MergedTreeValue)
    (d : Inner) : outcome JjError (gmap string MergedTreeValue) :=
  paths ← entry_paths (tree_entries base_tree d);
  let children := List.filter (λ path, is_some (direct_child schema_path path)) paths in
  _ ← fail_if (bool_decide (children = [])) (JjSchemaNotFound schema_path);
  Ok (foldl (λ m path, <[path := absent_value]> m) overrides children).

Fixpoint apply_schema_writes (base_tree : MergedTree) (writes : list SchemaWrite) (overrides : gmap string MergedTreeValue) :
    jjm (gmap string MergedTreeValue) :=
  match writes with
  | [] => mret overrides
  | WritePatch schema_path effect :: writes =>
    overrides ← jj_apply_effect schema_path effect overrides;
    apply_schema_writes base_tree writes overrides
  | WriteDelete schema_path :: writes =>
    overrides ← db_read (delete_schema_from_tree base_tree schema_path overrides);
    apply_schema_writes base_tree writes overrides
  end.

Definition merge_trees (base : option (list byte * JjCommit)) (theirs ours : MergedTree) : jjm MergedTree :=
  let base_tree := match base with Some c => commit_tree c | None => empty_merged_tree end in
  by_jj_lib (merge_merged_trees [ours; base_tree; theirs]).

(** The tree and the parents of the new commit. *)
Definition final_tree_and_parents (base_id tip : option (list byte)) (base_commit : option (list byte * JjCommit))
    (writer_tree : MergedTree) : jjm (MergedTree * list (list byte)) :=
  match tip with
  | Some tip =>
    if bool_decide (Some tip = base_id) then mret (writer_tree, [tip]) else
    tip_commit ← get_commit tip;
    merged ← merge_trees base_commit (commit_tree tip_commit) writer_tree;
    mret (merged, [tip])
  | None => mret (writer_tree, match base_id with Some id => [id] | None => [root_commit_id] end)
  end.

(** Write the commit, move the bookmark to it and commit the transaction. *)
Definition publish_commit (key : string) (repo : jj_repo) (now : JjTimestamp) (bookmark author message description : string)
    (attributes : gmap string string) (parents : list (list byte)) (tree : MergedTree) (conflicted : list string) :
    jjm WriteResult :=
  written ← by_jj_lib (new_commit (jr_view repo) parents tree (author_signature now author) message);
  let '(commit, view) := written : list byte * JjCommit * JjView in
  let view := set_local_bookmark_target view bookmark [Some commit.1] in
  view ← by_text (add_head view commit);
  operation_id ← commit_tx key repo view attributes description;
  mret (mkWriteResult (id_hex commit.1) (id_reverse_hex (jc_change_id commit.2)) operation_id conflicted).

Definition commit_schema_changes_validated {E} (now : JjTimestamp) (project repo bookmark : string) (base_ref : RefSpec)
    (writes : list SchemaWrite) (author message : string) (operation_attributes : gmap string string)
    (validate : PublicationSnapshot → outcome E unit) : dbm (PublicationError E) WriteResult :=
  let key := repo_key project repo in
  jj_repo ← pub (load_repo key);
  base_id ← pub (try_resolve key jj_repo base_ref);
  current_tip ← pub (try_resolve key jj_repo (RefBookmark bookmark));
  base_commit ← pub (match base_id with Some id => c ← get_commit id; mret (Some c) | None => mret None end);
  let base_tree := match base_commit with Some c => commit_tree c | None => empty_merged_tree end in
  overrides ← pub (apply_schema_writes base_tree writes ∅);
  writer_tree ← pub (by_jj_lib (builder_write_tree base_tree overrides));
  let attributes := set_attributes operation_attributes (record_author author ∅) in
  final ← pub (final_tree_and_parents base_id current_tip base_commit writer_tree);
  let '(final_tree, parents) := final : MergedTree * list (list byte) in
  conflicted ← pub (db_read (conflicted_decls final_tree));
  known ← known_in_tree base_tree;
  known' ← known_in_tree final_tree;
  _ ← run_policy validate final_tree (known ∪ known') false;
  pub (publish_commit key jj_repo now bookmark author message ("commit_write " +:+ bookmark +:+ ": " +:+ message)
         attributes parents final_tree conflicted).

Definition commit_schema_changes (now : JjTimestamp) (project repo bookmark : string) (base_ref : RefSpec)
    (writes : list SchemaWrite) (author message : string) (operation_attributes : gmap string string) : jjm WriteResult :=
  infallible (commit_schema_changes_validated now project repo bookmark base_ref writes author message
                operation_attributes accept_all).

Definition commit_write_multi (now : JjTimestamp) (project repo bookmark : string) (base_ref : RefSpec)
    (effects : list (string * MutationEffect)) (author message : string) : jjm WriteResult :=
  commit_schema_changes now project repo bookmark base_ref ((λ '(schema_path, effect), WritePatch schema_path effect) <$> effects)
    author message ∅.

Definition commit_write (now : JjTimestamp) (project repo bookmark schema_path : string) (base_ref : RefSpec)
    (effect : MutationEffect) (author message : string) : jjm WriteResult :=
  commit_write_multi now project repo bookmark base_ref [(schema_path, effect)] author message.

Definition jj_resolve_conflict (now : JjTimestamp) (project repo bookmark schema_path decl : string) (resolved : DeclBlob)
    (author message : string) : jjm WriteResult :=
  let key := repo_key project repo in
  jj_repo ← load_repo key;
  tip ← db_map_err (λ _, JjBookmarkNotFound bookmark) (resolve_ref key jj_repo (RefBookmark bookmark));
  tip_commit ← get_commit tip;
  file_id ← jj_write_file resolved;
  path ← db_lift (decl_path schema_path decl);
  new_tree ← by_jj_lib (builder_write_tree (commit_tree tip_commit) {[ path := resolved_file file_id ]});
  publish_commit key jj_repo now bookmark author message ("resolve_conflict " +:+ schema_path +:+ "/" +:+ decl)
    (record_author author ∅) [tip] new_tree [].

Definition merge_with_attributes_validated {E} (now : JjTimestamp) (project repo src dst author message : string)
    (operation_attributes : gmap string string) (validate : PublicationSnapshot → outcome E unit) :
    dbm (PublicationError E) WriteResult :=
  let key := repo_key project repo in
  jj_repo ← pub (load_repo key);
  src_id ← pub (db_map_err (λ _, JjBookmarkNotFound src) (resolve_ref key jj_repo (RefBookmark src)));
  dst_id ← pub (db_map_err (λ _, JjBookmarkNotFound dst) (resolve_ref key jj_repo (RefBookmark dst)));
  dst_commit ← pub (get_commit dst_id);
  src_commit ← pub (get_commit src_id);
  merged_tree ← pub (by_jj_lib (merge_commit_trees jj_repo [dst_commit; src_commit]));
  conflicted ← pub (db_read (conflicted_decls merged_tree));
  known_dst ← known_in_tree (commit_tree dst_commit);
  known_src ← known_in_tree (commit_tree src_commit);
  known_merged ← known_in_tree merged_tree;
  _ ← run_policy validate merged_tree (known_dst ∪ known_src ∪ known_merged) false;
  let attributes := set_attributes operation_attributes (record_author author ∅) in
  pub (publish_commit key jj_repo now dst author message message attributes [dst_id; src_id] merged_tree conflicted).

Definition merge_with_attributes (now : JjTimestamp) (project repo src dst author message : string)
    (operation_attributes : gmap string string) : jjm WriteResult :=
  infallible (merge_with_attributes_validated now project repo src dst author message operation_attributes accept_all).

Definition jj_merge (now : JjTimestamp) (project repo src dst author : string) : jjm WriteResult :=
  merge_with_attributes now project repo src dst author ("merge " +:+ src +:+ " into " +:+ dst) ∅.

(** ** Bookmarks and tags *)

Definition create_bookmark_validated {E} (project repo name : string) (from : RefSpec) (author : string)
    (validate : PublicationSnapshot → outcome E unit) : dbm (PublicationError E) string :=
  let key := repo_key project repo in
  jj_repo ← pub (load_repo key);
  _ ← pub (db_lift (fail_if (negb (ref_is_absent (get_local_bookmark (jr_view jj_repo) name))) (JjBookmarkExists name)));
  commit ← pub (resolve_ref key jj_repo from);
  target ← pub (get_commit commit);
  known ← known_in_tree (commit_tree target);
  _ ← run_policy validate (commit_tree target) known false;
  let view := set_local_bookmark_target (jr_view jj_repo) name [Some commit] in
  _ ← pub (commit_tx key jj_repo view (record_author author ∅) ("create_bookmark " +:+ name));
  mret (id_hex commit).

Definition move_bookmark_validated {E} (project repo name : string) (to : RefSpec) (author : string)
    (validate : PublicationSnapshot → outcome E unit) : dbm (PublicationError E) string :=
  let key := repo_key project repo in
  jj_repo ← pub (load_repo key);
  _ ← pub (db_lift (fail_if (ref_is_absent (get_local_bookmark (jr_view jj_repo) name)) (JjBookmarkNotFound name)));
  current ← pub (resolve_ref key jj_repo (RefBookmark name));
  commit ← pub (resolve_ref key jj_repo to);
  current ← pub (get_commit current);
  target ← pub (get_commit commit);
  known ← known_in_tree (commit_tree current);
  known' ← known_in_tree (commit_tree target);
  _ ← run_policy validate (commit_tree target) (known ∪ known') false;
  let view := set_local_bookmark_target (jr_view jj_repo) name [Some commit] in
  _ ← pub (commit_tx key jj_repo view (record_author author ∅) ("move_bookmark " +:+ name));
  mret (id_hex commit).

Definition jj_create_bookmark (project repo name : string) (from : RefSpec) (author : string) : jjm string :=
  infallible (create_bookmark_validated project repo name from author accept_all).

Definition jj_move_bookmark (project repo name : string) (to : RefSpec) (author : string) : jjm string :=
  infallible (move_bookmark_validated project repo name to author accept_all).

Definition jj_delete_bookmark (project repo name author : string) : jjm unit :=
  let key := repo_key project repo in
  jj_repo ← load_repo key;
  _ ← db_lift (fail_if (ref_is_absent (get_local_bookmark (jr_view jj_repo) name)) (JjBookmarkNotFound name));
  let view := set_local_bookmark_target (jr_view jj_repo) name ref_absent in
  _ ← commit_tx key jj_repo view (record_author author ∅) ("delete_bookmark " +:+ name);
  mret tt.

Definition jj_list_bookmarks (project repo : string) : jjm (list (string * list string)) :=
  jj_repo ← load_repo (repo_key project repo);
  mret ((λ '(name, target), (name, id_hex <$> added_ids target)) <$> btree_iter (jv_local_bookmarks (jr_view jj_repo))).

Definition jj_create_tag (project repo name : string) (at_ref : RefSpec) (author : string) : jjm string :=
  let key := repo_key project repo in
  jj_repo ← load_repo key;
  _ ← db_lift (fail_if (negb (ref_is_absent (get_local_tag (jr_view jj_repo) name))) (JjTagExists name));
  commit ← resolve_ref key jj_repo at_ref;
  let view := set_local_tag_target (jr_view jj_repo) name [Some commit] in
  _ ← commit_tx key jj_repo view (record_author author ∅) ("create_tag " +:+ name);
  mret (id_hex commit).

Definition jj_delete_tag (project repo name author : string) : jjm unit :=
  let key := repo_key project repo in
  jj_repo ← load_repo key;
  _ ← db_lift (fail_if (ref_is_absent (get_local_tag (jr_view jj_repo) name)) (JjTagNotFound name));
  let view := set_local_tag_target (jr_view jj_repo) name ref_absent in
  _ ← commit_tx key jj_repo view (record_author author ∅) ("delete_tag " +:+ name);
  mret tt.

Definition jj_list_tags (project repo : string) : jjm (list (string * string)) :=
  jj_repo ← load_repo (repo_key project repo);
  mret (omap (λ '(name, target), (λ id, (name, id_hex id)) <$> head (added_ids target))
          (btree_iter (jv_local_tags (jr_view jj_repo)))).


(** ** The operation log *)

Definition operation_record (operation : list byte * JjOperation) : OpRecord :=
  let m := jo_metadata operation.2 in
  mkOpRecord (id_hex operation.1) (id_hex <$> jo_parents operation.2) (jm_description m)
    (default (jm_username m) (jm_attributes m !! AUTHOR_ATTRIBUTE)) (fmt_Z (jt_millis (jm_end m))) (jm_attributes m).

(** The parents that are loaded: all but the root. *)
Definition live_parents (op : JjOperation) : list (list byte) :=
  List.filter (λ p, negb (bool_decide (p = root_operation_id))) (jo_parents op).

Definition read_op_at (key : string) (d : Inner) (id : list byte) : outcome JjError (list byte * JjOperation) :=
  op ← map_jj fmt_op_store_error (read_operation key id d);
  Ok (id, op).

(** The body of the walk of [list_operations]: the ids seen and the records. *)
Definition operations_step (key : string) (d : Inner) (s : gset (list byte) * list OpRecord)
    (op : list byte * JjOperation) : outcome JjError (walk_step (gset (list byte) * list OpRecord) (list byte * JjOperation)) :=
  let '(seen, chain) := s in
  if bool_decide (op.1 = root_operation_id) || bool_decide (op.1 ∈ seen) then Ok (WNext (seen, chain)) else
  parents ← mapM (read_op_at key d) (live_parents op.2);
  Ok (WPush ({[ op.1 ]} ∪ seen, chain ++ [operation_record op]) parents).

(** Every stored operation, and the one loaded, pushes its parents at most once. *)
Definition operation_fuel (key : string) (d : Inner) : nat := Datatypes.S (length (list_ops key d)).

Definition timestamp_le (a b : OpRecord) : Prop := String.le (op_timestamp a) (op_timestamp b).

#[export] Instance timestamp_le_dec : RelDecision timestamp_le.
Proof. intros a b. unfold timestamp_le. apply _. Defined.

(** [list_operations] of a loaded repository. *)
Definition operations_of (key : string) (repo : jj_repo) (d : Inner) : outcome JjError (list OpRecord) :=
  s ← walk (operations_step key d) (operation_fuel key d) (∅, []) [(jr_op_id repo, jr_op repo)];
  Ok (stable_sort timestamp_le s.2).

Definition list_operations (project repo : string) : jjm (list OpRecord) :=
  let key := repo_key project repo in
  jj_repo ← load_repo key;
  db_read (operations_of key jj_repo).

(** The last [limit] elements. *)
Definition last_n {A} (limit : Z) (l : list A) : list A := drop (length l - Z.to_nat limit) l.

(** The result of the loop of [list_operations_tail]: the newest operations, or
    that a branch was met. *)
Inductive tail_walk :=
  | TailOf (newest_first : list OpRecord)
  | TailBranch.

Fixpoint walk_tail (key : string) (limit : Z) (d : Inner) (fuel : nat) (seen : gset (list byte))
    (newest_first : list OpRecord) (cursor : list byte * JjOperation) : outcome JjError tail_walk :=
  if bool_decide (cursor.1 = root_operation_id) || (limit <=? Z.of_nat (length newest_first))
  then Ok (TailOf newest_first) else
  if bool_decide (cursor.1 ∈ seen)
  then Err (JjCorrupt ("operation graph contains a cycle at " +:+ id_hex cursor.1)) else
  let newest_first := newest_first ++ [operation_record cursor] in
  if Z.of_nat (length newest_first) =? limit then Ok (TailOf newest_first) else
  match live_parents cursor.2 with
  | [] => Ok (TailOf newest_first)
  | [parent] =>
    match fuel with
    | O => Stuck
    | Datatypes.S fuel =>
      next ← read_op_at key d parent;
      walk_tail key limit d fuel ({[ cursor.1 ]} ∪ seen) newest_first next
    end
  | _ => Ok TailBranch
  end.

Definition list_operations_tail (project repo : string) (limit : Z) : jjm (list OpRecord) :=
  if limit =? 0 then mret [] else
  let key := repo_key project repo in
  jj_repo ← load_repo key;
  r ← db_read (λ d, walk_tail key limit d (operation_fuel key d) ∅ [] (jr_op_id jj_repo, jr_op jj_repo));
  match r with
  | TailOf newest_first => mret (reverse newest_first)
  | TailBranch => all ← list_operations project repo; mret (last_n limit all)
  end.

(** The newest record that has the required attributes. *)
Definition has_attributes (required : gmap string string) (operation : OpRecord) : bool :=
  forallb (λ '(key, value), bool_decide (op_attributes operation !! key = Some value)) (btree_iter required).

Definition find_operation_by_attributes (project repo : string) (required : gmap string string) : jjm (option OpRecord) :=
  operations ← list_operations project repo;
  mret (List.find (has_attributes required) (reverse operations)).

Definition find_correlated_write (project repo bookmark : string) (required : gmap string string) : jjm (option WriteResult) :=
  record ← find_operation_by_attributes project repo required;
  match record with
  | None => mret None
  | Some record =>
    operation_id ← db_lift (ok_or (id_try_from_hex (op_id record)) (JjCorrupt ("invalid operation id " +:+ op_id record)));
    let key := repo_key project repo in
    _ ← load_repo key;
    operation ← load_operation key operation_id;
    view ← load_at key operation;
    commit_id ← db_lift (ok_or (head (added_ids (get_local_bookmark view bookmark)))
                           (JjCorrupt ("correlated operation " +:+ op_id record +:+ " has no target for bookmark " +:+ bookmark)));
    commit ← get_commit commit_id;
    conflicted ← db_read (conflicted_decls (commit_tree commit));
    mret (Some (mkWriteResult (id_hex commit.1) (id_reverse_hex (jc_change_id commit.2)) (op_id record) conflicted))
  end.

(** ** Undo *)

Definition is_undo (op : JjOperation) : bool := starts_with "undo " (jm_description (jo_metadata op)).

(** The first parent that is not the root. *)
Definition next_parent (op : JjOperation) : option (list byte) := head (live_parents op).

(** The walk from the head towards the root: the content operations, newest first,
    and the number of undo operations before the first of them. *)
Fixpoint undo_walk (key : string) (d : Inner) (fuel : nat) (content_ops : list (list byte * JjOperation))
    (leading_undos : nat) (op : list byte * JjOperation) : outcome JjError (list (list byte * JjOperation) * nat) :=
  if bool_decide (op.1 = root_operation_id) then Ok (content_ops, leading_undos) else
  let '(content_ops, leading_undos) :=
    if is_undo op.2
    then (content_ops, if bool_decide (content_ops = []) then Datatypes.S leading_undos else leading_undos)
    else (content_ops ++ [op], leading_undos) in
  match next_parent op.2 with
  | None => Ok (content_ops, leading_undos)
  | Some parent_id =>
    match fuel with
    | O => Stuck
    | Datatypes.S fuel =>
      parent ← read_op_at key d parent_id;
      undo_walk key d fuel content_ops leading_undos parent
    end
  end.

(** The view before an operation. *)
Definition view_before (key : string) (op : JjOperation) : jjm JjView :=
  match next_parent op with
  | Some pid => parent_op ← load_operation key pid; load_at key parent_op
  | None => root_op ← load_operation key root_operation_id; load_at key root_op
  end.

(** The id of the operation that is undone and the view to restore. *)
Definition undo_target (key : string) (content_ops : list (list byte * JjOperation)) (leading_undos : nat) :
    jjm (list byte * JjView) :=
  let depth := Datatypes.S leading_undos in
  match content_ops !! leading_undos with
  | None => db_lift (Err JjNothingToUndo)
  | Some undone =>
    view ← match content_ops !! depth with
           | Some target_op => load_at key target_op
           | None => view_before key undone.2
           end;
    mret (undone.1, view)
  end.

Fixpoint known_of_commits {E} (ids : list (list byte)) : dbm (PublicationError E) (gset string) :=
  match ids with
  | [] => mret ∅
  | id :: ids =>
    commit ← pub (get_commit id);
    names ← known_in_tree (commit_tree commit);
    rest ← known_of_commits ids;
    mret (names ∪ rest)
  end.

(** The policy runs on the target of every bookmark of the view. *)
Fixpoint check_bookmarks {E} (validate : string → PublicationSnapshot → outcome E unit) (current : JjView)
    (bookmarks : list (string * RefTarget)) : dbm (PublicationError E) unit :=
  match bookmarks with
  | [] => mret tt
  | (name, target) :: bookmarks =>
    match added_ids target with
    | [] => check_bookmarks validate current bookmarks
    | target_id :: others =>
      target_commit ← pub (get_commit target_id);
      names ← known_in_tree (commit_tree target_commit);
      more ← (if bool_decide (others = []) then known_of_commits (added_ids (get_local_bookmark current name)) else mret ∅);
      _ ← run_policy (validate name) (commit_tree target_commit) (names ∪ more) (negb (bool_decide (others = [])));
      check_bookmarks validate current bookmarks
    end
  end.

Definition undo_validated {E} (project repo author : string) (validate : string → PublicationSnapshot → outcome E unit) :
    dbm (PublicationError E) string :=
  let key := repo_key project repo in
  jj_repo ← pub (load_repo key);
  chain ← pub (db_read (λ d, undo_walk key d (operation_fuel key d) [] 0 (jr_op_id jj_repo, jr_op jj_repo)));
  target ← pub (undo_target key chain.1 chain.2);
  let '(undone_op_id, target_view) := target : list byte * JjView in
  _ ← check_bookmarks validate (jr_view jj_repo) (btree_iter (jv_local_bookmarks target_view));
  _ ← pub (commit_tx key jj_repo target_view (record_author author ∅) ("undo " +:+ id_hex undone_op_id));
  mret (id_hex undone_op_id).

Definition jj_undo (project repo author : string) : jjm string :=
  infallible (undo_validated project repo author (λ _, accept_all)).

(** ** The commit log *)

Definition commit_record (commit : list byte * JjCommit) : LogEntry :=
  mkLogEntry (id_hex commit.1) (id_reverse_hex (jc_change_id commit.2)) (id_hex <$> jc_parents commit.2)
    (js_name (jc_author commit.2)) (jc_description commit.2) (fmt_Z (jt_millis (js_timestamp (jc_author commit.2)))).

Definition commit_log_step (limit : Z) (d : Inner) (s : gset (list byte) * list LogEntry) (id : list byte) :
    outcome JjError (walk_step (gset (list byte) * list LogEntry) (list byte)) :=
  let '(seen, out) := s in
  if bool_decide (id = root_commit_id) || bool_decide (id ∈ seen) then Ok (WNext (seen, out)) else
  let seen := {[ id ]} ∪ seen in
  if limit <=? Z.of_nat (length out) then Ok (WBreak (seen, out)) else
  commit ← map_jj fmt_backend_error (read_commit id d);
  Ok (WPush (seen, out ++ [commit_record (id, commit)])
        (List.filter (λ p, negb (bool_decide (p = root_commit_id))) (jc_parents commit))).

Definition newer_first (a b : LogEntry) : Prop := String.le (le_timestamp b) (le_timestamp a).

#[export] Instance newer_first_dec : RelDecision newer_first.
Proof. intros a b. unfold newer_first. apply _. Defined.

Definition jj_commit_log (project repo : string) (at_ref : RefSpec) (limit : Z) : jjm (list LogEntry) :=
  let key := repo_key project repo in
  jj_repo ← load_repo key;
  start ← resolve_ref key jj_repo at_ref;
  s ← db_read (λ d, walk (commit_log_step limit d) (commit_fuel d) (∅, []) [start]);
  mret (stable_sort newer_first s.2).

(** ** Garbage collection *)

(** The marks are sets of hexadecimal ids. *)
Record gc_marks := mkGcMarks {
  gm_commits : gset string;
  gm_trees : gset string;
  gm_files : gset string;
}.

(** The commits that a view pins. *)
Definition view_pins (view : JjView) : list (list byte) :=
  hash_set_iter (jv_head_ids view) ++
  (btree_iter (jv_local_bookmarks view) ≫= λ e, added_ids e.2) ++
  (btree_iter (jv_local_tags view) ≫= λ e, added_ids e.2).

(** The views of the operations of one repository and the commits they pin. *)
Fixpoint mark_operations (key : string) (op_ids : list (list byte)) (views commits : gset string) :
    jjm (gset string * gset string) :=
  match op_ids with
  | [] => mret (views, commits)
  | op_id :: op_ids =>
    if bool_decide (op_id = root_operation_id) then mark_operations key op_ids views commits else
    op ← load_operation key op_id;
    view ← operation_view op;
    mark_operations key op_ids ({[ id_hex (jo_view_id op.2) ]} ∪ views) (list_to_set (id_hex <$> view_pins view) ∪ commits)
  end.

Fixpoint mark_repos (keys : list string) (views commits : gset string) : jjm (gset string * gset string) :=
  match keys with
  | [] => mret (views, commits)
  | key :: keys =>
    _ ← load_repo key;
    op_ids ← db_read (λ d, Ok (list_ops key d));
    marked ← mark_operations key op_ids views commits;
    mark_repos keys marked.1 marked.2
  end.

(** [mark_tree]; fuel bounds the depth of the recursion. *)
Fixpoint mark_tree (d : Inner) (fuel : nat) (marks : gset string * gset string) (tree_id : list byte) :
    outcome JjError (gset string * gset string) :=
  let '(trees, files) := marks in
  if bool_decide (id_hex tree_id ∈ trees) then Ok (trees, files) else
  tree ← map_jj fmt_backend_error (read_tree tree_id d);
  match fuel with
  | O => Stuck
  | Datatypes.S fuel =>
    foldl (λ acc entry,
      marks ← acc;
      match entry.2 with
      | TvFile id _ _ => Ok (marks.1, {[ id_hex id ]} ∪ marks.2)
      | TvTree sub => mark_tree d fuel marks sub
      | _ => Ok marks
      end) (Ok ({[ id_hex tree_id ]} ∪ trees, files)) tree
  end.

Definition tree_fuel (d : Inner) : nat := Datatypes.S (length (list_objects Tree d)).

(** A parent that is not the root and was not marked before is marked and queued. *)
Definition push_parent (s : gset string * list string) (parent : list byte) : gset string * list string :=
  let '(commits, fresh) := s in
  if negb (bool_decide (parent = root_commit_id)) && negb (bool_decide (id_hex parent ∈ commits))
  then ({[ id_hex parent ]} ∪ commits, fresh ++ [id_hex parent]) else (commits, fresh).

(** The body of the walk over commits. *)
Definition mark_commit_step (d : Inner) (m : gc_marks) (c_hex : string) : outcome JjError (walk_step gc_marks string) :=
  cid ← ok_or (id_try_from_hex c_hex) (JjCorrupt ("malformed reachable commit hex: " +:+ c_hex));
  if bool_decide (cid = root_commit_id) then Ok (WNext m) else
  commit ← map_jj fmt_backend_error (read_commit cid d);
  marks ← foldl (λ acc tree_id, marks ← acc; mark_tree d (tree_fuel d) marks tree_id) (Ok (gm_trees m, gm_files m))
            (jc_root_tree commit);
  let '(commits, fresh) := foldl push_parent (gm_commits m, []) (jc_parents commit) in
  Ok (WPush (mkGcMarks commits marks.1 marks.2) fresh).

Definition sweep (kind : ObjectKind) (keep : gset string) : jjm nat := λ d,
  let swept := List.filter (λ id, negb (bool_decide (hex_encode id ∈ keep))) (list_objects kind d) in
  (Ok (length swept), foldl (λ d id, delete_object kind id d) d swept).

(** A set in the order of its iteration. *)
Definition hash_strings (s : gset string) : list string := (hash_iter (gset_to_gmap tt s)).*1.

Definition jj_gc (repos : list (string * string)) : jjm nat :=
  stored ← db_read (λ d, Ok (list_repo_keys d));
  let keys := btree_set_iter (list_to_set stored ∪ list_to_set ((λ '(project, repo), repo_key project repo) <$> repos)) in
  marked ← mark_repos keys ∅ ∅;
  let '(views, commits) := marked : gset string * gset string in
  if bool_decide (keys = []) then mret 0%nat else
  marks ← db_read (λ d, walk (mark_commit_step d) (commit_fuel d) (mkGcMarks commits ∅ ∅) (reverse (hash_strings commits)));
  n1 ← sweep Commit (gm_commits marks);
  n2 ← sweep Tree (gm_trees marks);
  n3 ← sweep File (gm_files marks);
  n4 ← sweep View views;
  mret (n1 + n2 + n3 + n4)%nat.

End Repo.
