(* ===== verification/JjGc.v ===== *)
(** * JjGc: garbage collection keeps exactly what the operation log reaches

    The mark-and-sweep of [Jj::gc] in [crates/schemahub-jj/src/lib.rs] against a
    declarative reachability: from the operations of every repository to their
    views, the commits these pin, the ancestors of the commits, their trees and
    files. *)
From S2P Require Import Prelude RustStd SchemaTypes ObjectDb CoreTypes Queries JjStore JjRepo.
From Stdlib Require Import Strings.Byte Ascii.

Open Scope Z_scope.

(** Documented: loading the head of a repository stores at most new objects, and
    operations of that repository. *)
Class JjHeadLaws `{JjRemotes} (RT : JjRuntime) : Prop := {
  load_at_head_extends key d r d' : load_at_head key d = (r, d') → extends d d';
  load_at_head_local key d r d' key' : load_at_head key d = (r, d') → key' ≠ key → ops d' !! key' = ops d !! key';
}.

#[export] Instance ObjectKind_eq_dec : EqDecision ObjectKind.
Proof. solve_decision. Defined.

Section Gc.
Context {RM : JjRemotes} {L : JjLib} {C : JjCodec} {HX : Hex} {LL : JjLaws L C HX} {RT : JjRuntime} {HL : JjHeadLaws RT}
  {HO : HashOrder} {FMT : RustFmt}.

(** ** Reachability *)

(** What a view pins: its heads and the targets of its bookmarks and tags. *)
Definition pins (view : JjView) (c : list byte) : Prop :=
  c ∈ jv_head_ids view ∨
  (∃ name target, jv_local_bookmarks view !! name = Some target ∧ c ∈ added_ids target) ∨
  (∃ name target, jv_local_tags view !! name = Some target ∧ c ∈ added_ids target).

Lemma targets_elem (refs : gmap string RefTarget) c :
  c ∈ (btree_iter refs ≫= λ e, added_ids e.2) ↔ ∃ name target, refs !! name = Some target ∧ c ∈ added_ids target.
Proof.
  rewrite list_elem_of_bind. split.
  - intros ([name target] & Hc & Hin%elem_of_btree_iter). by exists name, target.
  - intros (name & target & Hin & Hc). exists (name, target). split; [done|]. by apply elem_of_btree_iter.
Qed.

Lemma view_pins_spec view c : c ∈ view_pins view ↔ pins view c.
Proof. unfold view_pins, pins. by rewrite !elem_of_app, hash_set_iter_elem, !targets_elem. Qed.

Section Reach.
Context (d : Inner) (keys : list string).

Definition retained_op (key : string) (op_id : list byte) (op : JjOperation) : Prop :=
  key ∈ keys ∧ op_id ∈ list_ops key d ∧ op_id ≠ root_operation_id ∧ read_operation key op_id d = Ok op.

Definition reach_view (view_id : list byte) : Prop := ∃ key op_id op, retained_op key op_id op ∧ view_id = jo_view_id op.

Definition pinned (c : list byte) : Prop :=
  ∃ key op_id op view, retained_op key op_id op ∧ read_view (jo_view_id op) d = Ok view ∧ pins view c.

Inductive reach_commit : list byte → Prop :=
  | reach_pinned c : pinned c → reach_commit c
  | reach_parent c commit p : reach_commit c → c ≠ root_commit_id → read_commit c d = Ok commit →
      p ∈ jc_parents commit → p ≠ root_commit_id → reach_commit p.

Inductive reach_tree : list byte → Prop :=
  | reach_root_tree c commit t : reach_commit c → c ≠ root_commit_id → read_commit c d = Ok commit →
      t ∈ jc_root_tree commit → reach_tree t
  | reach_subtree t tree name sub : reach_tree t → read_tree t d = Ok tree → (name, TvTree sub) ∈ tree → reach_tree sub.

Definition reach_file (f : list byte) : Prop :=
  ∃ t tree name x copy, reach_tree t ∧ read_tree t d = Ok tree ∧ (name, TvFile f x copy) ∈ tree.

(** The objects that have to stay; symbolic links and conflicts are never swept. *)
Definition live (kind : ObjectKind) (id : list byte) : Prop :=
  match kind with
  | File => reach_file id
  | Tree => reach_tree id
  | Commit => reach_commit id
  | View => reach_view id
  | Symlink | Conflict => True
  end.
End Reach.

(** A loop whose body runs only after a success. *)
Lemma foldl_bind_Ok {E A B} (f : A → B → outcome E A) l : ∀ acc r,
  foldl (λ acc x, m ← acc; f m x) acc l = Ok r → ∃ m, acc = Ok m.
Proof.
  induction l as [|x l IH]; intros acc r H; cbn [foldl] in H; [by eauto|].
  apply IH in H as (m & H). apply bind_Ok in H as (m' & H & _). eauto.
Qed.

(** ** Ids as text *)

Lemma id_hex_inj a b : id_hex a = id_hex b → a = b.
Proof. intros H. apply (f_equal id_try_from_hex) in H. rewrite !id_try_from_hex_hex in H. by injection H. Qed.

(** ** Reads survive additions *)

Lemma get_object_extends kind id d d' bytes : extends d d' → get_object kind id d = Ok bytes → get_object kind id d' = Ok bytes.
Proof.
  intros [Ho _]. unfold get_object. destruct (objects d !! (kind_tag kind, id)) as [b|] eqn:E; [|done].
  by rewrite (Ho _ _ E).
Qed.

Lemma read_operation_extends key id d d' op :
  extends d d' → read_operation key id d = Ok op → read_operation key id d' = Ok op.
Proof.
  intros [_ Hop]. unfold read_operation. case_bool_decide as Hroot; [done|]. intros H.
  apply bind_Ok in H as (bytes & Hb%map_err_Ok & H). by rewrite (Hop _ _ _ Hb).
Qed.

Lemma read_view_extends id d d' v : extends d d' → read_view id d = Ok v → read_view id d' = Ok v.
Proof.
  intros Hd. unfold read_view. case_bool_decide as Hroot; [done|]. intros H.
  apply bind_Ok in H as (bytes & Hb%map_err_Ok & H). by rewrite (get_object_extends _ _ _ _ _ Hd Hb).
Qed.

(** ** Marking the operations *)

Lemma load_repo_inv key d r d' :
  load_repo key d = (r, d') → extends d d' ∧ ∀ key', key' ≠ key → list_ops key' d' = list_ops key' d.
Proof.
  unfold load_repo, mbind, dbm_bind, db_put, db_lift, db_read.
  assert (extends d (backend_new d) ∧ ops (backend_new d) = ops d) as [He Ho].
  { split; [apply put_object_at_extends|done]. }
  unfold list_ops. destruct (loader_setup key) as [[]| | |]; cbn; try (intros [= <- <-]; split; [done|by rewrite Ho]).
  destruct (map_jj fmt_op_heads_error _) as [heads| | |]; try (intros [= <- <-]; split; [done|by rewrite Ho]).
  set (d1 := if bool_decide (heads = []) then _ else _). destruct d1 as [o d2] eqn:Hd1.
  assert (objects d2 = objects (backend_new d) ∧ ops d2 = ops d ∧ o = Ok tt) as (Hobj & Hops & ->).
  { subst d1. case_bool_decide; injection Hd1 as <- <-; [|done]. unfold create_ref.
    by destruct (refs _ !! _). }
  assert (extends d d2) as He2.
  { destruct He as [He1 He2]. split; [by rewrite Hobj|]. unfold get_op. by rewrite Hops. }
  unfold by_jj_lib, db_map_err. destruct (load_at_head key d2) as [r3 d3] eqn:Hl. intros [= <- <-]. split.
  - eapply extends_trans; [done|]. by eapply load_at_head_extends.
  - intros key' Hne. rewrite (load_at_head_local _ _ _ _ _ Hl Hne). by rewrite Hops.
Qed.

Lemma load_operation_inv key id d op d' :
  load_operation key id d = (Ok op, d') → d' = d ∧ op.1 = id ∧ read_operation key id d = Ok op.2.
Proof. intros (o & d1 & [Hr%map_err_Ok ->]%db_read_Ok & [= <- <-])%dbm_bind_Ok. done. Qed.

Lemma operation_view_inv op d v d' : operation_view op d = (Ok v, d') → d' = d ∧ read_view (jo_view_id op.2) d = Ok v.
Proof. intros [Hr%map_err_Ok ->]%db_read_Ok. done. Qed.

(** Marking the operations of one repository reads all of them. *)
Lemma mark_operations_spec key op_ids : ∀ views commits d views' commits' d',
  mark_operations key op_ids views commits d = (Ok (views', commits'), d') →
  d' = d ∧
  (∀ op_id, op_id ∈ op_ids → op_id ≠ root_operation_id →
     ∃ op view, read_operation key op_id d = Ok op ∧ read_view (jo_view_id op) d = Ok view) ∧
  (∀ h, h ∈ views' ↔ h ∈ views ∨
     ∃ op_id op, op_id ∈ op_ids ∧ op_id ≠ root_operation_id ∧ read_operation key op_id d = Ok op ∧ h = id_hex (jo_view_id op)) ∧
  (∀ h, h ∈ commits' ↔ h ∈ commits ∨
     ∃ op_id op view c, op_id ∈ op_ids ∧ op_id ≠ root_operation_id ∧ read_operation key op_id d = Ok op ∧
       read_view (jo_view_id op) d = Ok view ∧ pins view c ∧ h = id_hex c).
Proof.
  induction op_ids as [|i op_ids IH]; intros views commits d views' commits' d' H; cbn [mark_operations] in H.
  { injection H as <- <- <-. split_and!; [done|by intros ? ?%not_elem_of_nil|..];
      intros h; (split; [by left|]); intros [?|H]; try done; destruct H as (? & ? & H);
      [|destruct H as (? & ? & H)]; destruct H as [?%not_elem_of_nil _]; done. }
  case_bool_decide as Hroot.
  { apply IH in H as (-> & Hr & Hv & Hc). split_and!; [done|..].
    - intros op_id [->|Hin]%elem_of_cons Hne; [done|by apply Hr].
    - intros h. rewrite Hv. split; (intros [?|(op_id & op & Hin & Hne & Hrest)]; [by left|right; exists op_id, op]);
        (split_and!; [|done|naive_solver..]); [by right|by apply elem_of_cons in Hin as [->|?]].
    - intros h. rewrite Hc. split; (intros [?|(op_id & op & v & c & Hin & Hne & Hrest)]; [by left|right; exists op_id, op, v, c]);
        (split_and!; [|done|naive_solver..]); [by right|by apply elem_of_cons in Hin as [->|?]]. }
  apply dbm_bind_Ok in H as ([i' op] & d1 & (-> & Hi & Hop)%load_operation_inv & H). cbn in Hi, Hop. subst i'.
  apply dbm_bind_Ok in H as (view & d1 & (-> & Hview)%operation_view_inv & H). cbn [snd] in *.
  apply IH in H as (-> & Hr & Hv & Hc). split_and!; [done|..].
  - intros op_id [->|Hin]%elem_of_cons Hne; [by exists op, view|by apply Hr].
  - intros h. rewrite Hv, elem_of_union, elem_of_singleton. split.
    + intros [[->|?]|(op_id & op' & Hin & Hrest)]; [right; exists i, op|by left|right; exists op_id, op'].
      * split_and!; try done. by left.
      * split; [by right|done].
    + intros [?|(op_id & op' & [->|Hin]%elem_of_cons & Hne & Hop' & ->)]; [by left; right|left; left; congruence|].
      right. by exists op_id, op'.
  - intros h. rewrite Hc, elem_of_union, elem_of_list_to_set, list_elem_of_fmap. split.
    + intros [[(c & -> & Hin)|?]|(op_id & op' & v & c & Hin & Hrest)]; [right; exists i, op, view, c|by left|right; exists op_id, op', v, c].
      * split_and!; try done; [by left|by apply view_pins_spec].
      * split; [by right|done].
    + intros [?|(op_id & op' & v & c & [->|Hin]%elem_of_cons & Hne & Hop' & Hv' & Hp & ->)]; [by left; right|left; left|].
      * exists c. split; [done|]. apply view_pins_spec. congruence.
      * right. by exists op_id, op', v, c.
Qed.

(** Marking the operations of every repository, in the database before the sweep. *)
Lemma mark_repos_spec keys : ∀ views commits d views' commits' d',
  NoDup keys → mark_repos keys views commits d = (Ok (views', commits'), d') →
  extends d d' ∧ (∀ key, key ∉ keys → list_ops key d' = list_ops key d) ∧
  (∀ h, h ∈ views' ↔ h ∈ views ∨ ∃ id, reach_view d' keys id ∧ h = id_hex id) ∧
  (∀ h, h ∈ commits' ↔ h ∈ commits ∨ ∃ c, pinned d' keys c ∧ h = id_hex c).
Proof.
  induction keys as [|key keys IH]; intros views commits d views' commits' d' Hnd H; cbn [mark_repos] in H.
  { injection H as <- <- <-. split_and!; [done|done|..]; intros h; (split; [by left|]);
      intros [?|(id & Hid & _)]; try done; destruct Hid as (k & i & o & Hid); [|destruct Hid as (v & Hid & _)];
      destruct Hid as [[Hk%not_elem_of_nil _] _] || destruct Hid as [Hk%not_elem_of_nil _]; done. }
  apply NoDup_cons in Hnd as [Hkey Hnd].
  apply dbm_bind_Ok in H as (repo & d0 & [He0 Hl0]%load_repo_inv & H).
  apply dbm_bind_Ok in H as (op_ids & d1 & [[= <-] ->]%db_read_Ok & H).
  apply dbm_bind_Ok in H as ([views1 commits1] & d1 & (-> & Hr & Hv & Hc)%mark_operations_spec & H). cbn [fst snd] in H.
  apply IH in H as (He & Hl & Hv' & Hc'); [|done]. pose proof (Hl key Hkey) as Hlk.
  assert (∀ op_id op, op_id ∈ list_ops key d0 → op_id ≠ root_operation_id → read_operation key op_id d' = Ok op →
            read_operation key op_id d0 = Ok op) as Hback.
  { intros op_id op Hin Hne Hop. destruct (Hr op_id Hin Hne) as (op0 & v0 & Hop0 & _).
    pose proof (read_operation_extends _ _ _ _ _ He Hop0). congruence. }
  split_and!; [by eapply extends_trans| |..].
  - intros k Hk. rewrite Hl by set_solver. apply Hl0. set_solver.
  - intros h. rewrite Hv', Hv. split.
    + intros [[?|(op_id & op & Hin & Hne & Hop & ->)]|(id & (k & i & o & (Hk & Hrest) & ->) & ->)]; [by left|right..].
      * exists (jo_view_id op). split; [|done]. exists key, op_id, op. split; [|done].
        split_and!; [by left|by rewrite Hlk|done|by eapply read_operation_extends].
      * exists (jo_view_id o). split; [|done]. exists k, i, o. split; [|done]. split; [by right|done].
    + intros [?|(id & (k & i & o & (Hk & Hin & Hne & Hop) & ->) & ->)]; [by left; left|].
      apply elem_of_cons in Hk as [->|Hk].
      * left; right. exists i, o. rewrite Hlk in Hin. split_and!; try done. by apply Hback.
      * right. exists (jo_view_id o). split; [|done]. by exists k, i, o.
  - intros h. rewrite Hc', Hc. split.
    + intros [[?|(op_id & op & v & c & Hin & Hne & Hop & Hview & Hp & ->)]|(c & (k & i & o & v & (Hk & Hrest) & Hp) & ->)]; [by left|right..].
      * exists c. split; [|done]. exists key, op_id, op, v. split_and!; [|by eapply read_view_extends|done].
        split_and!; [by left|by rewrite Hlk|done|by eapply read_operation_extends].
      * exists c. split; [|done]. exists k, i, o, v. split; [|done]. split; [by right|done].
    + intros [?|(c & (k & i & o & v & (Hk & Hin & Hne & Hop) & Hview & Hp) & ->)]; [by left; left|].
      apply elem_of_cons in Hk as [->|Hk].
      * left; right. rewrite Hlk in Hin. destruct (Hr i Hin Hne) as (o0 & v0 & Ho0 & Hv0).
        pose proof (Hback i o Hin Hne Hop). assert (o0 = o) as -> by congruence.
        pose proof (read_view_extends _ _ _ _ He Hv0). assert (v0 = v) as -> by congruence. by exists i, o, v, c.
      * right. exists c. split; [|done]. by exists k, i, o, v.
Qed.

(** ** Marking trees *)

Section MarkTree.
Context (d : Inner) (keys : list string).

Definition value_marked (marks : gset string * gset string) (v : TreeValue) : Prop :=
  match v with
  | TvFile f _ _ => id_hex f ∈ marks.2
  | TvTree sub => id_hex sub ∈ marks.1
  | _ => True
  end.

Definition children_marked (marks : gset string * gset string) (tree : JjTree) : Prop :=
  ∀ name v, (name, v) ∈ tree → value_marked marks v.

(** Marks are added, and a tree that was added has its children marked. *)
Definition grows (marks marks' : gset string * gset string) : Prop :=
  marks.1 ⊆ marks'.1 ∧ marks.2 ⊆ marks'.2 ∧
  ∀ h, h ∈ marks'.1 → h ∈ marks.1 ∨ ∃ t tree, h = id_hex t ∧ read_tree t d = Ok tree ∧ children_marked marks' tree.

Definition sound (marks : gset string * gset string) : Prop :=
  (∀ h, h ∈ marks.1 → ∃ t, h = id_hex t ∧ reach_tree d keys t) ∧
  (∀ h, h ∈ marks.2 → ∃ f, h = id_hex f ∧ reach_file d keys f).

Lemma children_marked_mono m m' tree :
  m.1 ⊆ m'.1 → m.2 ⊆ m'.2 → children_marked m tree → children_marked m' tree.
Proof. intros H1 H2 Hc name v Hin. specialize (Hc name v Hin). destruct v; cbn in *; try done; [by apply H2|by apply H1]. Qed.

Lemma grows_refl m : grows m m.
Proof. split_and!; [done|done|by left]. Qed.

Lemma grows_trans m1 m2 m3 : grows m1 m2 → grows m2 m3 → grows m1 m3.
Proof.
  intros (H1 & H2 & H3) (H1' & H2' & H3'). split_and!; [set_solver|set_solver|].
  intros h [Hh|Hh]%H3'; [|by right]. apply H3 in Hh as [?|(t & tree & -> & Hr & Hc)]; [by left|].
  right. exists t, tree. split_and!; [done|done|]. by eapply children_marked_mono.
Qed.

(** One entry of a tree. *)
Definition mark_entry (fuel : nat) (acc : outcome JjError (gset string * gset string)) (entry : string * TreeValue) :
    outcome JjError (gset string * gset string) :=
  marks ← acc;
  match entry.2 with
  | TvFile id _ _ => Ok (marks.1, {[ id_hex id ]} ∪ marks.2)
  | TvTree sub => mark_tree d fuel marks sub
  | _ => Ok marks
  end.

Definition marks_well (marks marks' : gset string * gset string) (reachable : Prop) : Prop :=
  grows marks marks' ∧ (reachable → sound marks → sound marks').

Lemma mark_entries_spec fuel :
  (∀ marks id marks', mark_tree d fuel marks id = Ok marks' →
     marks_well marks marks' (reach_tree d keys id) ∧ id_hex id ∈ marks'.1) →
  ∀ entries marks marks' t tree,
    (∀ e, e ∈ entries → e ∈ tree) → read_tree t d = Ok tree →
    foldl (mark_entry fuel) (Ok marks) entries = Ok marks' →
    marks_well marks marks' (reach_tree d keys t) ∧ children_marked marks' entries.
Proof.
  intros IH entries. induction entries as [|[name v] entries IHe]; intros marks marks' t tree Hsub Ht H; cbn in H.
  { injection H as <-. split; [split; [apply grows_refl|done]|]. by intros ? ? ?%not_elem_of_nil. }
  destruct (foldl_bind_Ok _ _ _ _ H) as (m1 & H1). rewrite H1 in H.
  assert (marks_well marks m1 (reach_tree d keys t) ∧ value_marked m1 v) as [[Hg1 Hs1] Hv1].
  { destruct v as [f x copy|id|sub|id]; cbn in H1; try (injection H1 as <-; split; [split; [apply grows_refl|done]|done]).
    - injection H1 as <-. split; [split|cbn; set_solver].
      + split_and!; cbn; [done|set_solver|by left].
      + intros Hrt [Hst Hsf]. split; [done|]. cbn. intros h [->%elem_of_singleton|?]%elem_of_union; [|by apply Hsf].
        exists f. split; [done|]. exists t, tree, name, x, copy. split_and!; [done..|]. apply Hsub. by left.
    - apply IH in H1 as [[Hg Hs] Hin]. split; [split; [done|]|done]. intros Hrt. apply Hs.
      eapply reach_subtree; [done..|]. apply Hsub. by left. }
  destruct (IHe m1 marks' t tree) as [[Hg2 Hs2] Hc]; [intros e He; apply Hsub; by right|done|done|].
  split; [split; [by eapply grows_trans|auto]|]. intros n w [E|Hin]%elem_of_cons; [|by eapply Hc].
  injection E as -> ->. destruct Hg2 as (Hm1 & Hm2 & _). destruct v; cbn in *; try done; [by apply Hm2|by apply Hm1].
Qed.

Lemma mark_tree_spec fuel : ∀ marks id marks',
  mark_tree d fuel marks id = Ok marks' →
  marks_well marks marks' (reach_tree d keys id) ∧ id_hex id ∈ marks'.1.
Proof.
  induction fuel as [|fuel IH]; intros [trees files] id marks' H; cbn [mark_tree] in H;
    (case_bool_decide as Hin; [injection H as <-; split; [split; [apply grows_refl|done]|done]|]);
    apply bind_Ok in H as (tree & Ht%map_err_Ok & H); [done|].
  change (foldl (mark_entry fuel) (Ok ({[ id_hex id ]} ∪ trees, files)) tree = Ok marks') in H.
  eapply (mark_entries_spec fuel IH) in H as [[(H1 & H2 & H3) Hs] Hc]; [|by intros e He|done]. cbn in H1, H2, H3.
  assert (id_hex id ∈ marks'.1) as Hid by set_solver. split; [split; [|]|done].
  - split_and!; [set_solver|set_solver|]. cbn. intros h Hh. apply H3 in Hh as [[->%elem_of_singleton|?]%elem_of_union|?].
    + right. by exists id, tree.
    + by left.
    + by right.
  - intros Hr [Hst Hsf]. apply Hs; [done|]. split; [|done]. cbn.
    intros h [->%elem_of_singleton|?]%elem_of_union; [by exists id|by apply Hst].
Qed.

(** The trees of one commit. *)
Lemma mark_roots_spec fuel ids : ∀ marks marks',
  foldl (λ acc tree_id, marks ← acc; mark_tree d fuel marks tree_id) (Ok marks) ids = Ok marks' →
  grows marks marks' ∧ (∀ id, id ∈ ids → id_hex id ∈ marks'.1) ∧
  ((∀ id, id ∈ ids → reach_tree d keys id) → sound marks → sound marks').
Proof.
  induction ids as [|id ids IH]; intros marks marks' H; cbn [foldl] in H.
  { injection H as <-. split_and!; [apply grows_refl|by intros ? ?%not_elem_of_nil|done]. }
  destruct (foldl_bind_Ok _ _ _ _ H) as (m1 & Hm). rewrite Hm in H. cbn in Hm.
  apply mark_tree_spec in Hm as [[Hg1 Hs1] Hin1].
  apply IH in H as (Hg2 & Hin2 & Hs2). split_and!; [by eapply grows_trans| |].
  - intros i [->|Hi]%elem_of_cons; [|by apply Hin2]. destruct Hg2 as (Hm1 & _). by apply Hm1.
  - intros Hr Hso. apply Hs2; [intros i Hi; apply Hr; by right|]. apply Hs1; [apply Hr; by left|done].
Qed.
End MarkTree.

(** ** Marking commits *)

Lemma push_parents_spec parents : ∀ commits fresh commits' fresh',
  foldl push_parent (commits, fresh) parents = (commits', fresh') →
  ∃ new, fresh' = fresh ++ new ∧ NoDup new ∧ commits' = list_to_set new ∪ commits ∧
    (∀ h, h ∈ new → h ∉ commits ∧ ∃ p, p ∈ parents ∧ p ≠ root_commit_id ∧ h = id_hex p) ∧
    (∀ p, p ∈ parents → p ≠ root_commit_id → id_hex p ∈ commits').
Proof.
  induction parents as [|p parents IH]; intros commits fresh commits' fresh' H; cbn [foldl] in H.
  { injection H as <- <-. exists []. rewrite app_nil_r.
    split_and!; [done|constructor|set_solver|by intros ? ?%not_elem_of_nil|by intros ? ?%not_elem_of_nil]. }
  unfold push_parent in H at 2.
  destruct (negb (bool_decide (p = root_commit_id)) && negb (bool_decide (id_hex p ∈ commits))) eqn:Hp; cbv zeta in H.
  - apply andb_true_iff in Hp as [Hr%negb_true_iff%bool_decide_eq_false Hn%negb_true_iff%bool_decide_eq_false].
    apply IH in H as (new & -> & Hnd & -> & Hnew & Hall). exists (id_hex p :: new).
    split_and!; [by rewrite <- app_assoc| | | |].
    + constructor; [|done]. intros Hin%Hnew. set_solver.
    + cbn. set_solver.
    + intros h [->|Hin]%elem_of_cons.
      * split; [done|]. exists p. split_and!; [by left|done|done].
      * apply Hnew in Hin as (Hc & q & Hq & Hrest). split; [set_solver|]. exists q. split; [by right|done].
    + intros q [->|Hq]%elem_of_cons Hne; [set_solver|by apply Hall].
  - apply IH in H as (new & -> & Hnd & -> & Hnew & Hall). exists new. split_and!; try done.
    + intros h Hin. apply Hnew in Hin as (Hc & q & Hq & Hrest). split; [done|]. exists q. split; [by right|done].
    + intros q [->|Hq]%elem_of_cons Hne; [|by apply Hall]. apply andb_false_iff in Hp as [Hp|Hp].
      * by apply negb_false_iff, bool_decide_eq_true in Hp.
      * apply negb_false_iff, bool_decide_eq_true in Hp. set_solver.
Qed.

Section MarkCommits.
Context (d : Inner) (keys : list string) (pins : gset string).

Definition commit_done (m : gc_marks) (h : string) : Prop :=
  ∃ c, h = id_hex c ∧
    (c = root_commit_id ∨ ∃ commit, read_commit c d = Ok commit ∧
       (∀ t, t ∈ jc_root_tree commit → id_hex t ∈ gm_trees m) ∧
       (∀ p, p ∈ jc_parents commit → p ≠ root_commit_id → id_hex p ∈ gm_commits m)).

Definition commits_inv (m : gc_marks) (queue : list string) : Prop :=
  NoDup queue ∧ (∀ h, h ∈ queue → h ∈ gm_commits m) ∧ pins ⊆ gm_commits m ∧
  (∀ h, h ∈ gm_commits m → ∃ c, h = id_hex c ∧ reach_commit d keys c) ∧
  (∀ h, h ∈ gm_commits m → h ∈ queue ∨ commit_done m h) ∧
  grows d (∅, ∅) (gm_trees m, gm_files m) ∧ sound d keys (gm_trees m, gm_files m).

Lemma commit_done_mono m m' h :
  gm_commits m ⊆ gm_commits m' → gm_trees m ⊆ gm_trees m' → commit_done m h → commit_done m' h.
Proof.
  intros Hc Ht (c & -> & [?|(commit & Hr & H1 & H2)]); exists c; (split; [done|]); [by left|right].
  exists commit. split_and!; [done|..]; [intros t Hin; by apply Ht, H1|intros p Hin Hne; by apply Hc, H2].
Qed.

(** What one commit marks. *)
Lemma mark_commit_push m cid m' children :
  mark_commit_step d m (id_hex cid) = Ok (WPush m' children) →
  ∃ commit, cid ≠ root_commit_id ∧ read_commit cid d = Ok commit ∧
    NoDup children ∧ gm_commits m' = list_to_set children ∪ gm_commits m ∧
    (∀ h, h ∈ children → h ∉ gm_commits m ∧ ∃ p, p ∈ jc_parents commit ∧ p ≠ root_commit_id ∧ h = id_hex p) ∧
    (∀ p, p ∈ jc_parents commit → p ≠ root_commit_id → id_hex p ∈ gm_commits m') ∧
    grows d (gm_trees m, gm_files m) (gm_trees m', gm_files m') ∧
    (∀ t, t ∈ jc_root_tree commit → id_hex t ∈ gm_trees m') ∧
    ((∀ t, t ∈ jc_root_tree commit → reach_tree d keys t) → sound d keys (gm_trees m, gm_files m) →
       sound d keys (gm_trees m', gm_files m')).
Proof.
  unfold mark_commit_step. rewrite id_try_from_hex_hex. cbn [ok_or mbind outcome_bind].
  case_bool_decide as Hroot; [done|]. intros H.
  apply bind_Ok in H as (commit & Hr%map_err_Ok & H). apply bind_Ok in H as ([trees files] & Hm & H).
  destruct (foldl push_parent _ _) as [commits fresh] eqn:Hp. injection H as <- <-.
  apply push_parents_spec in Hp as (new & Hf & Hnd & -> & Hnew & Hall). cbn in Hf. subst fresh.
  apply (mark_roots_spec d keys) in Hm as (Hg & Hin & Hs). exists commit. by split_and!.
Qed.

Lemma mark_commit_next m cid m' : mark_commit_step d m (id_hex cid) = Ok (WNext m') → m' = m ∧ cid = root_commit_id.
Proof.
  unfold mark_commit_step. rewrite id_try_from_hex_hex. cbn [ok_or mbind outcome_bind].
  case_bool_decide as Hroot; [by intros [= <-]|]. intros H.
  apply bind_Ok in H as (commit & _ & H). apply bind_Ok in H as ([trees files] & _ & H).
  by destruct (foldl push_parent _ _).
Qed.

Lemma mark_commit_break m h m' : mark_commit_step d m h ≠ Ok (WBreak m').
Proof.
  unfold mark_commit_step. intros H. apply bind_Ok in H as (cid & _ & H). case_bool_decide; [done|].
  apply bind_Ok in H as (commit & _ & H). apply bind_Ok in H as ([trees files] & _ & H).
  by destruct (foldl push_parent _ _).
Qed.

Lemma commits_inv_step m h queue step :
  commits_inv m (h :: queue) → mark_commit_step d m h = Ok step →
  match step with
  | WNext m' => commits_inv m' queue
  | WPush m' children => commits_inv m' (reverse children ++ queue)
  | WBreak _ => False
  end.
Proof.
  intros (Hnd & Hq & Hp & Hr & Hdone & Hg & Hs) Hstep. apply NoDup_cons in Hnd as [Hh Hnd].
  destruct (Hr h) as (cid & -> & Hrc); [apply Hq; by left|].
  destruct step as [m'|m' children|m']; [| |by eapply mark_commit_break].
  - apply mark_commit_next in Hstep as [-> ->]. split_and!; try done; [intros k Hk; apply Hq; by right|].
    intros k Hk. apply Hdone in Hk as [[->|?]%elem_of_cons|?]; [|by left|by right].
    right. exists root_commit_id. split; [done|by left].
  - apply mark_commit_push in Hstep as (commit & Hne & Hread & Hndc & Hc & Hch & Hpar & Hg' & Hrt & Hs').
    assert (∀ t, t ∈ jc_root_tree commit → reach_tree d keys t) as Hreach.
    { intros t Ht. by eapply reach_root_tree. }
    assert (gm_commits m ⊆ gm_commits m' ∧ gm_trees m ⊆ gm_trees m') as [Hc1 Ht1].
    { split; [set_solver|]. by destruct Hg' as (? & _). }
    split_and!; [| |set_solver| | |by eapply grows_trans|by apply Hs'].
    + apply NoDup_app. split_and!; [by rewrite reverse_Permutation| |done]. intros k Hk Hk'.
      rewrite elem_of_reverse in Hk. apply Hch in Hk as [Hk _]. apply Hk, Hq. by right.
    + intros k [Hk|Hk]%elem_of_app; [rewrite elem_of_reverse in Hk; set_solver|]. apply Hc1, Hq. by right.
    + intros k. rewrite Hc. intros [Hk%elem_of_list_to_set|Hk]%elem_of_union; [|by apply Hr].
      apply Hch in Hk as (_ & p & Hpin & Hpne & ->). exists p. split; [done|]. by eapply reach_parent.
    + intros k. rewrite Hc. intros [Hk%elem_of_list_to_set|Hk]%elem_of_union.
      { left. apply elem_of_app. left. by rewrite elem_of_reverse. }
      apply Hdone in Hk as [[->|Hk]%elem_of_cons|Hk].
      * right. exists cid. split; [done|]. right. by exists commit.
      * left. apply elem_of_app. by right.
      * right. by eapply commit_done_mono.
Qed.

(** The marks are exactly the ids that are reachable. *)
Definition marks_exact (m : gc_marks) : Prop :=
  (∀ c, id_hex c ∈ gm_commits m ↔ reach_commit d keys c) ∧
  (∀ t, id_hex t ∈ gm_trees m ↔ reach_tree d keys t) ∧
  (∀ f, id_hex f ∈ gm_files m ↔ reach_file d keys f).

Lemma commits_inv_exact m :
  (∀ c, pinned d keys c → id_hex c ∈ pins) → commits_inv m [] → marks_exact m.
Proof.
  intros Hpins (_ & _ & Hp & Hr & Hdone & (_ & _ & Hg) & [Hst Hsf]).
  assert (∀ c, c ≠ root_commit_id → id_hex c ∈ gm_commits m →
            ∃ commit, read_commit c d = Ok commit ∧ (∀ t, t ∈ jc_root_tree commit → id_hex t ∈ gm_trees m) ∧
              (∀ p, p ∈ jc_parents commit → p ≠ root_commit_id → id_hex p ∈ gm_commits m)) as Hcl.
  { intros c Hne Hc. apply Hdone in Hc as [Hc%not_elem_of_nil|(c' & E%id_hex_inj & [->|?])]; [done..|]. by subst c'. }
  assert (∀ t, id_hex t ∈ gm_trees m → ∃ tree, read_tree t d = Ok tree ∧ children_marked (gm_trees m, gm_files m) tree) as Hclt.
  { intros t Ht. apply Hg in Ht as [Ht%elem_of_empty|(t' & tree & E%id_hex_inj & ?)]; [done|]. subst t'. by exists tree. }
  assert (∀ c, reach_commit d keys c → id_hex c ∈ gm_commits m) as H1.
  { intros c Hc. induction Hc as [c Hc|c commit p _ IH Hne Hread Hpin Hpne]; [by apply Hp, Hpins|].
    destruct (Hcl c Hne IH) as (commit' & Hread' & _ & Hpar). apply Hpar; [|done]. congruence. }
  assert (∀ t, reach_tree d keys t → id_hex t ∈ gm_trees m) as H2.
  { intros t Ht. induction Ht as [c commit t Hc Hne Hread Hin|t tree name sub _ IH Hread Hin].
    - destruct (Hcl c Hne (H1 c Hc)) as (commit' & Hread' & Htrees & _). apply Htrees. congruence.
    - destruct (Hclt t IH) as (tree' & Hread' & Hch). apply (Hch name (TvTree sub)). congruence. }
  split_and!.
  - intros c. split; [|by apply H1]. intros (c' & ->%id_hex_inj & ?)%Hr. done.
  - intros t. split; [|by apply H2]. intros (t' & ->%id_hex_inj & ?)%Hst. done.
  - intros f. split; [intros (f' & ->%id_hex_inj & ?)%Hsf; done|].
    intros (t & tree & name & x & copy & Ht & Hread & Hin). destruct (Hclt t (H2 t Ht)) as (tree' & Hread' & Hch).
    apply (Hch name (TvFile f x copy)). congruence.
Qed.
End MarkCommits.

(** ** Sweeping *)

Lemma elem_of_list_objects kind id d : id ∈ list_objects kind d ↔ is_Some (objects d !! (kind_tag kind, id)).
Proof.
  unfold list_objects. rewrite list_elem_of_omap. split.
  - intros ([[tag i] b] & Hin%elem_of_hash_iter & H). destruct (tag =? kind_tag kind) eqn:E; [|done].
    apply Z.eqb_eq in E as ->. injection H as ->. eauto.
  - intros [b Hb]. exists ((kind_tag kind, id), b). split; [by apply elem_of_hash_iter|]. by rewrite Z.eqb_refl.
Qed.

Lemma NoDup_omap {A B} (f : A → option B) l :
  NoDup l → (∀ x y b, x ∈ l → y ∈ l → f x = Some b → f y = Some b → x = y) → NoDup (omap f l).
Proof.
  induction 1 as [|x l Hx Hl IH]; intros Hinj; [constructor|]. cbn.
  assert (NoDup (omap f l)) as Hn by (apply IH; intros y z b Hy Hz; apply Hinj; by right).
  destruct (f x) as [b|] eqn:Hf; [|done]. constructor; [|done].
  intros (y & Hy & Hfy)%list_elem_of_omap. apply Hx. rewrite (Hinj x y b); [done|by left|by right|done|done].
Qed.

Lemma NoDup_list_objects kind d : NoDup (list_objects kind d).
Proof.
  apply NoDup_omap; [rewrite hash_iter_perm; apply NoDup_map_to_list|].
  intros [[tag i] b] [[tag' i'] b'] id Hx%elem_of_hash_iter Hy%elem_of_hash_iter.
  destruct (tag =? kind_tag kind) eqn:E; [|done]. destruct (tag' =? kind_tag kind) eqn:E'; [|done].
  apply Z.eqb_eq in E as ->. apply Z.eqb_eq in E' as ->. intros [= ->] [= ->]. congruence.
Qed.

Lemma delete_objects_spec kind ids : ∀ d,
  NoDup ids → (∀ id, id ∈ ids → is_Some (objects d !! (kind_tag kind, id))) →
  let d' := foldl (λ d id, delete_object kind id d) d ids in
  (∀ k, objects d' !! k = if decide (k.1 = kind_tag kind ∧ k.2 ∈ ids) then None else objects d !! k) ∧
  size (objects d) = (size (objects d') + length ids)%nat ∧
  ops d' = ops d ∧ refs d' = refs d ∧ records d' = records d.
Proof.
  induction ids as [|id ids IH]; intros d Hnd Hin; cbn [foldl].
  { split_and!; [|cbn; lia|done..]. intros k. rewrite decide_False; [done|]. by intros [_ ?%not_elem_of_nil]. }
  apply NoDup_cons in Hnd as [Hid Hnd]. destruct (IH (delete_object kind id d)) as (H1 & H2 & H3).
  - done.
  - intros i Hi. cbn. rewrite lookup_delete_ne; [apply Hin; by right|]. intros [= ->]. done.
  - split_and!; [|cbn [length]|apply H3..].
    + intros [tag i]. rewrite H1. cbn [fst snd]. destruct (decide (tag = kind_tag kind ∧ i ∈ ids)) as [[-> Hi]|Hn].
      * rewrite decide_True; [done|]. split; [done|by right].
      * cbn [objects delete_object with_objects]. destruct (decide ((kind_tag kind, id) = (tag, i))) as [E|E].
        -- injection E as <- <-. rewrite lookup_delete_eq, decide_True; [done|]. split; [done|by left].
        -- rewrite lookup_delete_ne by done. rewrite decide_False; [done|].
           intros [-> [->|Hi]%elem_of_cons]; [done|]. by apply Hn.
    + destruct (Hin id) as [b Hb]; [by left|]. cbn in H2.
      rewrite map_size_delete_Some in H2 by eauto.
      assert (size (objects d) ≠ 0)%nat; [|lia]. apply map_size_non_empty_iff. intros E. by rewrite E, lookup_empty in Hb.
Qed.

Definition swept_to (kind : ObjectKind) (keep : gset string) (d : Inner) (n : nat) (d' : Inner) : Prop :=
  (∀ kind' id, objects d' !! (kind_tag kind', id) =
     if decide (kind' = kind ∧ id_hex id ∉ keep) then None else objects d !! (kind_tag kind', id)) ∧
  size (objects d) = (size (objects d') + n)%nat ∧ ops d' = ops d ∧ refs d' = refs d ∧ records d' = records d.

Lemma sweep_spec kind keep d n d' : sweep kind keep d = (Ok n, d') → swept_to kind keep d n d'.
Proof.
  intros [= <- <-].
  destruct (delete_objects_spec kind (List.filter (λ id, negb (bool_decide (hex_encode id ∈ keep))) (list_objects kind d)) d)
    as (H1 & H2 & H3).
  - apply NoDup_ListNoDup, List.NoDup_filter, NoDup_ListNoDup, NoDup_list_objects.
  - intros id [Hid _]%elem_of_bool_filter. by apply elem_of_list_objects.
  - split_and!; [|done|apply H3..]. intros kind' id. rewrite H1. cbn.
    destruct (decide (kind' = kind ∧ id_hex id ∉ keep)) as [[-> Hk]|Hn].
    + destruct (objects d !! (kind_tag kind, id)) as [b|] eqn:Hb; [|by case_decide].
      rewrite decide_True; [done|]. split; [done|]. apply elem_of_bool_filter. split.
      * apply elem_of_list_objects. eauto.
      * rewrite <- id_hex_is_hex. by apply negb_true_iff, bool_decide_eq_false_2.
    + rewrite decide_False; [done|]. intros [Hk%kind_tag_inj [_ Hin%negb_true_iff%bool_decide_eq_false]%elem_of_bool_filter].
      apply Hn. split; [done|]. by rewrite id_hex_is_hex.
Qed.

(** ** Collection *)

(** The repositories that are marked. *)
Definition gc_keys (repos : list (string * string)) (d : Inner) : list string :=
  btree_set_iter (list_to_set (list_repo_keys d) ∪ list_to_set ((λ '(project, repo), repo_key project repo) <$> repos)).

Lemma elem_of_hash_strings s h : h ∈ hash_strings s ↔ h ∈ s.
Proof.
  unfold hash_strings. rewrite list_elem_of_fmap. split.
  - intros ([i []] & -> & Hi%elem_of_hash_iter). by apply lookup_gset_to_gmap_Some in Hi as [? _].
  - intros Hid. exists (h, tt). split; [done|]. by apply elem_of_hash_iter, lookup_gset_to_gmap_Some.
Qed.

Lemma NoDup_hash_strings s : NoDup (hash_strings s).
Proof. unfold hash_strings. rewrite hash_iter_perm. apply NoDup_fst_map_to_list. Qed.

(** The marks of the walk that starts at the pinned commits. *)
Lemma mark_walk_exact d keys pins m :
  (∀ h, h ∈ pins ↔ ∃ c, pinned d keys c ∧ h = id_hex c) →
  walk (mark_commit_step d) (commit_fuel d) (mkGcMarks pins ∅ ∅) (reverse (hash_strings pins)) = Ok m →
  marks_exact d keys m.
Proof.
  intros Hpins. apply (walk_inv _ (commits_inv d keys pins)).
  - intros m1 h queue step HI Hstep. pose proof (commits_inv_step _ _ _ _ _ _ _ HI Hstep). by destruct step.
  - intros m1. apply commits_inv_exact. intros c Hc. apply Hpins. eauto.
  - split_and!; cbn.
    + rewrite reverse_Permutation. apply NoDup_hash_strings.
    + intros h. by rewrite elem_of_reverse, elem_of_hash_strings.
    + done.
    + intros h (c & Hc & ->)%Hpins. exists c. split; [done|by apply reach_pinned].
    + intros h Hh. left. by rewrite elem_of_reverse, elem_of_hash_strings.
    + apply grows_refl.
    + split; cbn; by intros h ?%elem_of_empty.
Qed.

(** What a sweep of one kind leaves, given marks that are exact. *)
Lemma swept_live kind keep d keys (n : nat) d' :
  (∀ id, id_hex id ∈ keep ↔ live d keys kind id) → ∀ d0, swept_to kind keep d0 n d' →
  (∀ id, live d keys kind id → objects d' !! (kind_tag kind, id) = objects d0 !! (kind_tag kind, id)) ∧
  (∀ id, ¬ live d keys kind id → objects d' !! (kind_tag kind, id) = None) ∧
  (∀ kind' id, kind' ≠ kind → objects d' !! (kind_tag kind', id) = objects d0 !! (kind_tag kind', id)).
Proof.
  intros Hk d0 (Ho & _). split_and!.
  - intros id Hl. rewrite Ho, decide_False; [done|]. intros [_ Hn]. by apply Hn, Hk.
  - intros id Hl. rewrite Ho, decide_True; [done|]. split; [done|]. by rewrite Hk.
  - intros kind' id Hne. rewrite Ho, decide_False; [done|]. by intros [? _].
Qed.

(** C5. Garbage collection marks a database [d1] that has everything of the one it
    started with, and removes exactly the files, trees, commits and views that no
    operation of any repository reaches: through its view, the heads, bookmarks and
    tags of the view, their ancestors, and the trees of those. Operations, refs and
    records stay, and the result is the number of objects removed. *)
Theorem gc_removes_exactly_garbage (repos : list (string * string)) (d : Inner) (n : nat) (d' : Inner) :
  jj_gc repos d = (Ok n, d') →
  (gc_keys repos d = [] ∧ n = 0%nat ∧ d' = d) ∨
  ∃ d1, extends d d1 ∧
    (∀ kind id, live d1 (gc_keys repos d) kind id → objects d' !! (kind_tag kind, id) = objects d1 !! (kind_tag kind, id)) ∧
    (∀ kind id, ¬ live d1 (gc_keys repos d) kind id → objects d' !! (kind_tag kind, id) = None) ∧
    size (objects d1) = (size (objects d') + n)%nat ∧
    ops d' = ops d1 ∧ refs d' = refs d1 ∧ records d' = records d1.
Proof.
  unfold jj_gc. intros H. apply dbm_bind_Ok in H as (stored & d0 & [[= <-] ->]%db_read_Ok & H).
  fold (gc_keys repos d) in H. set (keys := gc_keys repos d) in *. cbv zeta in H.
  apply dbm_bind_Ok in H as ([views pins] & d1 & Hm & H).
  case_bool_decide as Hkeys.
  { left. rewrite Hkeys in Hm. injection Hm as <- <- <-. by injection H as <- <-. }
  apply mark_repos_spec in Hm as (He & _ & Hv & Hc); [|apply NoDup_btree_set_iter]. right. exists d1.
  apply dbm_bind_Ok in H as (m & d2 & [Hw ->]%db_read_Ok & H).
  apply (mark_walk_exact d1 keys) in Hw as (Hcm & Htm & Hfm).
  2:{ intros h. rewrite Hc. split; [intros [?%elem_of_empty|(c & ? & ?)]; [done|]; eauto|]. intros (c & ? & ?). right. eauto. }
  assert (∀ id, id_hex id ∈ views ↔ live d1 keys View id) as Hvm.
  { intros id. rewrite Hv. split; [intros [?%elem_of_empty|(i & Hi & ->%id_hex_inj)]; done|]. intros Hi. right. by exists id. }
  apply dbm_bind_Ok in H as (n1 & d2 & H1%sweep_spec & H). apply dbm_bind_Ok in H as (n2 & d3 & H2%sweep_spec & H).
  apply dbm_bind_Ok in H as (n3 & d4 & H3%sweep_spec & H). apply dbm_bind_Ok in H as (n4 & d5 & H4%sweep_spec & H).
  injection H as <- <-.
  destruct (swept_live Commit _ d1 keys n1 d2 Hcm d1 H1) as (Ha1 & Hb1 & Hx1).
  destruct (swept_live Tree _ d1 keys n2 d3 Htm d2 H2) as (Ha2 & Hb2 & Hx2).
  destruct (swept_live File _ d1 keys n3 d4 Hfm d3 H3) as (Ha3 & Hb3 & Hx3).
  destruct (swept_live View _ d1 keys n4 d5 Hvm d4 H4) as (Ha4 & Hb4 & Hx4).
  destruct H1 as (_ & Hs1 & Ht1), H2 as (_ & Hs2 & Ht2), H3 as (_ & Hs3 & Ht3), H4 as (_ & Hs4 & Ht4).
  split_and!; [done|..].
  - intros [] id Hl; rewrite ?(Ha4 id Hl), ?Hx4 by done; rewrite ?(Ha3 id Hl), ?Hx3 by done;
      rewrite ?(Ha2 id Hl), ?Hx2 by done; rewrite ?(Ha1 id Hl), ?Hx1 by done; done.
  - intros [] id Hl; try done; rewrite ?(Hb4 id Hl), ?Hx4 by done; try done; rewrite ?(Hb3 id Hl), ?Hx3 by done; try done;
      rewrite ?(Hb2 id Hl), ?Hx2 by done; try done; by rewrite (Hb1 id Hl).
  - lia.
  - destruct Ht1, Ht2, Ht3, Ht4. congruence.
  - destruct Ht1 as (_ & ? & _), Ht2 as (_ & ? & _), Ht3 as (_ & ? & _), Ht4 as (_ & ? & _). congruence.
  - destruct Ht1 as (_ & _ & ?), Ht2 as (_ & _ & ?), Ht3 as (_ & _ & ?), Ht4 as (_ & _ & ?). congruence.
Qed.
End Gc.
