(* ===== verification/JjProps.v ===== *)
(** * JjProps: the operation log, undo and schemas stored as trees

    Theorems about [crates/schemahub-jj/src/lib.rs]: the walks over operations and
    commits return, the tail of the operation log is the end of the log, undo
    restores a view that is found by counting content operations, a schema that is
    written as tree entries is loaded with the effect applied, and what is
    published is what the policy accepted. *)
From S2P Require Import Prelude RustStd SchemaTypes Effects ObjectDb CoreTypes Queries ValidationProps JjStore JjRepo JjGc.
From Stdlib Require Import Strings.Byte Ascii.

Open Scope Z_scope.

(** ** Sorting *)

Lemma insert_before_last {A} (R : relation A) `{!RelDecision R} x l : (∀ y, y ∈ l → ¬ R x y) → insert_before R x l = l ++ [x].
Proof.
  induction l as [|y l IH]; intros H; [done|]. cbn. rewrite decide_False by (apply H; by left). f_equal. apply IH.
  intros z Hz. apply H. by right.
Qed.

(** Sorting a list whose every element comes after the later ones reverses it. *)
Lemma stable_sort_reverse {A} (R : relation A) `{!RelDecision R} l :
  StronglySorted (λ x y, ¬ R x y) l → stable_sort R l = reverse l.
Proof.
  induction 1 as [|x l Hl IH Hx]; [done|]. change (insert_before R x (stable_sort R l) = reverse (x :: l)).
  rewrite IH, reverse_cons. apply insert_before_last.
  intros y Hy. rewrite elem_of_reverse in Hy. by apply (proj1 (Forall_forall _ _) Hx).
Qed.

Section Log.
Context {RM : JjRemotes} {L : JjLib} {C : JjCodec} {HX : Hex} {RT : JjRuntime} {HO : HashOrder} {FMT : RustFmt}.

(** ** A linear operation log *)

(** The operations from the head to the oldest, each the only parent of the one
    before it. *)
Fixpoint linked (key : string) (d : Inner) (chain : list (list byte * JjOperation)) : Prop :=
  match chain with
  | [] => True
  | x :: chain =>
    x.1 ≠ root_operation_id ∧
    match chain with
    | [] => live_parents x.2 = []
    | y :: _ => live_parents x.2 = [y.1] ∧ read_operation key y.1 d = Ok y.2
    end ∧ linked key d chain
  end.

Definition linear_history (key : string) (d : Inner) (repo : jj_repo) (chain : list (list byte * JjOperation)) : Prop :=
  match chain with
  | [] => jr_op_id repo = root_operation_id
  | x :: _ => x = (jr_op_id repo, jr_op repo)
  end ∧ linked key d chain ∧ NoDup chain.*1 ∧ (length chain ≤ length (list_ops key d))%nat.

(** Every operation ended later, as text, than the ones before it. *)
Definition times_increase (chain : list (list byte * JjOperation)) : Prop :=
  StronglySorted (λ x y, ¬ timestamp_le x y) (operation_record <$> chain).

Lemma read_op_at_Ok key d id op : read_operation key id d = Ok op → read_op_at key d id = Ok (id, op).
Proof. unfold read_op_at. by intros ->. Qed.

(** *** [list_operations] *)

Lemma operations_step_visit key d seen out x parents :
  x.1 ≠ root_operation_id → x.1 ∉ seen → mapM (read_op_at key d) (live_parents x.2) = Ok parents →
  operations_step key d (seen, out) x = Ok (WPush ({[ x.1 ]} ∪ seen, out ++ [operation_record x]) parents).
Proof.
  intros Hr Hs Hp. unfold operations_step. rewrite bool_decide_eq_false_2 by done.
  rewrite (bool_decide_eq_false_2 (x.1 ∈ seen)) by done. cbn [orb]. by rewrite Hp.
Qed.

Lemma walk_operations_linear key d chain : ∀ fuel seen out x,
  linked key d (x :: chain) → NoDup (x :: chain).*1 → (∀ y, y ∈ (x :: chain).*1 → y ∉ seen) → (length chain < fuel)%nat →
  ∃ seen', walk (operations_step key d) fuel (seen, out) [x] = Ok (seen', out ++ (operation_record <$> x :: chain)).
Proof.
  induction chain as [|y chain IH]; intros fuel seen out x (Hr & Hp & Hl) Hnd Hs Hf; rewrite walk_cons.
  all: assert (x.1 ∉ seen) as Hx' by (apply Hs; by left); destruct fuel as [|fuel]; [cbn in Hf; lia|].
  - rewrite (operations_step_visit _ _ _ _ _ []); [|done|done|by rewrite Hp]. cbn. rewrite walk_nil. eauto.
  - destruct Hp as [Hp Hy]. destruct y as [yi yo]. cbn in Hp, Hy.
    rewrite (operations_step_visit _ _ _ _ _ [(yi, yo)]); [|done|done|by rewrite Hp; cbn; rewrite (read_op_at_Ok _ _ _ _ Hy)].
    apply NoDup_cons in Hnd as [Hx Hnd]. cbn [mbind outcome_bind].
    destruct (IH fuel ({[ x.1 ]} ∪ seen) (out ++ [operation_record x]) (yi, yo) Hl Hnd) as (seen' & Hw).
    + intros z Hz [->%elem_of_singleton|Hin]%elem_of_union; [done|]. eapply Hs; [|done]. by right.
    + cbn in Hf. lia.
    + exists seen'. change (reverse [(yi, yo)] ++ []) with [(yi, yo)]. rewrite Hw. cbn. by rewrite <- app_assoc.
Qed.

Lemma operations_of_linear key d repo chain :
  linear_history key d repo chain →
  operations_of key repo d = Ok (stable_sort timestamp_le (operation_record <$> chain)).
Proof.
  intros (Hhd & Hl & Hnd & Hlen). unfold operations_of. destruct chain as [|x chain].
  - rewrite walk_cons. assert (operations_step key d (∅, []) (jr_op_id repo, jr_op repo) = Ok (WNext (∅, []))) as ->.
    { unfold operations_step. cbn [fst]. by rewrite Hhd, bool_decide_eq_true_2. }
    cbn [mbind outcome_bind]. by rewrite walk_nil.
  - subst x. destruct (walk_operations_linear key d chain (operation_fuel key d) ∅ [] (jr_op_id repo, jr_op repo))
      as (seen' & ->); [done|done|set_solver| |done]. unfold operation_fuel. cbn in Hlen. lia.
Qed.

(** *** [list_operations_tail] *)

Lemma walk_tail_linear key limit d chain : ∀ fuel seen out x,
  linked key d (x :: chain) → NoDup (x :: chain).*1 → (∀ y, y ∈ (x :: chain).*1 → y ∉ seen) → (length chain ≤ fuel)%nat →
  Z.of_nat (length out) < limit →
  walk_tail key limit d fuel seen out x =
    Ok (TailOf (out ++ take (Z.to_nat limit - length out) (operation_record <$> x :: chain))).
Proof.
  induction chain as [|y chain IH]; intros fuel seen out x (Hr & Hp & Hl) Hnd Hs Hf Hlim.
  all: assert (∃ k, (Z.to_nat limit - length out)%nat = S k) as [k Hk] by (exists (Z.to_nat limit - length out - 1)%nat; lia).
  all: destruct fuel as [|fuel]; try (cbn in Hf; lia); cbn [walk_tail].
  all: rewrite bool_decide_eq_false_2 by done; rewrite (proj2 (Z.leb_gt _ _) Hlim); cbn [orb].
  all: rewrite (bool_decide_eq_false_2 (x.1 ∈ seen)) by (apply Hs; by left).
  1-2: rewrite Hp, Hk; cbn; rewrite take_nil; by destruct (_ =? limit).
  destruct Hp as [-> Hy]. destruct (Z.of_nat (length (out ++ [operation_record x])) =? limit) eqn:E.
  - apply Z.eqb_eq in E. rewrite length_app in E. cbn in E. rewrite Hk. assert (k = 0%nat) as -> by lia. done.
  - apply Z.eqb_neq in E. rewrite length_app in E. cbn [length] in E. rewrite (read_op_at_Ok _ _ _ _ Hy). cbn [mbind outcome_bind].
    apply NoDup_cons in Hnd as [Hx Hnd]. destruct y as [yi yo]. rewrite IH; [| done|done| |cbn in Hf; lia|rewrite length_app; cbn; lia].
    + rewrite <- app_assoc, Hk. cbn. rewrite length_app. cbn. do 5 f_equal. lia.
    + intros z Hz [->%elem_of_singleton|Hin]%elem_of_union; [done|]. eapply Hs; [|done]. by right.
Qed.

Lemma last_n_reverse {A} (limit : Z) (l : list A) : last_n limit (reverse l) = reverse (take (Z.to_nat limit) l).
Proof.
  unfold last_n. rewrite length_reverse. destruct (decide (Z.to_nat limit ≤ length l)%nat).
  - rewrite <- (take_drop (Z.to_nat limit) l) at 2. rewrite reverse_app.
    rewrite drop_app_length'; [done|]. rewrite length_reverse, length_drop. done.
  - rewrite take_ge by lia. replace (length l - Z.to_nat limit)%nat with 0%nat by lia. done.
Qed.

Lemma tail_walk_linear key limit d repo chain :
  0 < limit → linear_history key d repo chain →
  walk_tail key limit d (operation_fuel key d) ∅ [] (jr_op_id repo, jr_op repo) =
    Ok (TailOf (take (Z.to_nat limit) (operation_record <$> chain))).
Proof.
  intros Hlim (Hhd & Hl & Hnd & Hlen). destruct chain as [|x chain].
  - cbn. unfold operation_fuel. cbn. rewrite Hhd, bool_decide_eq_true_2 by done. cbn. by rewrite take_nil.
  - subst x. rewrite (walk_tail_linear key limit d chain); [|done|done|set_solver| |cbn; lia].
    + cbn [length app]. by rewrite Nat.sub_0_r.
    + unfold operation_fuel. cbn in Hlen. lia.
Qed.

(** C27. In a repository whose operations form a chain with increasing end times,
    [list_operations] is the chain from the oldest to the newest operation, and
    [list_operations_tail], which reads only the end of it, gives its last [limit]
    records. *)
Theorem tail_is_end_of_log (project repo : string) (limit : Z) (d d1 : Inner) (r : jj_repo)
    (chain : list (list byte * JjOperation)) :
  0 < limit → load_repo (repo_key project repo) d = (Ok r, d1) →
  linear_history (repo_key project repo) d1 r chain → times_increase chain →
  let records := reverse (operation_record <$> chain) in
  list_operations project repo d = (Ok records, d1) ∧
  list_operations_tail project repo limit d = (Ok (last_n limit records), d1).
Proof.
  intros Hlim Hload Hlin Htimes. cbv zeta. split.
  - unfold list_operations, mbind, dbm_bind. rewrite Hload. unfold db_read. rewrite (operations_of_linear _ _ _ _ Hlin).
    by rewrite stable_sort_reverse.
  - unfold list_operations_tail. rewrite (proj2 (Z.eqb_neq _ _)) by lia. unfold mbind, dbm_bind. rewrite Hload.
    unfold db_read. rewrite (tail_walk_linear _ _ _ _ _ Hlim Hlin). by rewrite last_n_reverse.
Qed.
End Log.

(** ** Names of declarations as path components *)

Lemma replace_char_cons c by_ a s :
  replace_char c by_ (String a s) = ((if bool_decide (a = c) then by_ else of_char a) +:+ replace_char c by_ s)%string.
Proof. done. Qed.

Lemma str_replace_skip pat by_ a s : starts_with pat (String a s) = false → str_replace pat by_ (String a s) = String a (str_replace pat by_ s).
Proof. unfold str_replace. cbn [replace_from]. by intros ->. Qed.

(** The name with only its percent signs escaped. *)
Definition escape_percent (name : string) : string := replace_char "%" "%25" name.

Lemma starts_with_other b t a s : a ≠ b → starts_with (String b t) (String a s) = false.
Proof.
  intros Hne. unfold starts_with. apply bool_decide_eq_false_2. intros [r Hr]. apply strip_prefix_Some in Hr.
  change (String a s = String b (t +:+ r)) in Hr. congruence.
Qed.

Lemma encode_decl_name_cons a s :
  encode_decl_name (String a s) =
    ((if bool_decide (a = "%"%char) then "%25" else if bool_decide (a = "/"%char) then "%2F" else of_char a) +:+
     encode_decl_name s)%string.
Proof.
  unfold encode_decl_name. rewrite replace_char_cons. case_bool_decide as Hp; [done|].
  change (replace_char "/" "%2F" (String a (replace_char "%" "%25" s)) =
    ((if bool_decide (a = "/"%char) then "%2F" else of_char a) +:+ replace_char "/" "%2F" (replace_char "%" "%25" s))%string).
  by rewrite replace_char_cons.
Qed.

Lemma encode_decl_name_no_slash name : contains_char "/" (encode_decl_name name) = false.
Proof.
  induction name as [|a s IH]; [done|]. rewrite encode_decl_name_cons, contains_char_app, IH, orb_false_r.
  repeat case_bool_decide; try done. cbn [contains_char of_char]. by rewrite bool_decide_eq_false_2.
Qed.

Lemma unescape_slashes name : str_replace "%2F" "/" (encode_decl_name name) = escape_percent name.
Proof.
  induction name as [|a s IH]; [done|]. rewrite encode_decl_name_cons. unfold escape_percent. rewrite replace_char_cons.
  fold (escape_percent s). case_bool_decide as Hp.
  - change (str_replace "%2F" "/" (String "%" (String "2" (String "5" (encode_decl_name s)))) =
            String "%" (String "2" (String "5" (escape_percent s)))).
    rewrite str_replace_skip by reflexivity. rewrite !str_replace_skip by (by apply starts_with_other). by rewrite IH.
  - case_bool_decide as Hs.
    + subst a. rewrite <- IH. reflexivity.
    + change (str_replace "%2F" "/" (String a (encode_decl_name s)) = String a (escape_percent s)).
      rewrite str_replace_skip by (by apply starts_with_other). by rewrite IH.
Qed.

Lemma unescape_percents name : str_replace "%25" "%" (escape_percent name) = name.
Proof.
  induction name as [|a s IH]; [done|]. unfold escape_percent. rewrite replace_char_cons. fold (escape_percent s).
  case_bool_decide as Hp.
  - subst a. rewrite <- IH at 2. reflexivity.
  - change (str_replace "%25" "%" (String a (escape_percent s)) = String a s).
    rewrite str_replace_skip by (by apply starts_with_other). by rewrite IH.
Qed.

Lemma decode_encode_decl_name name : decode_decl_name (encode_decl_name name) = name.
Proof. unfold decode_decl_name. by rewrite unescape_slashes, unescape_percents. Qed.

Lemma encode_decl_name_inj a b : encode_decl_name a = encode_decl_name b → a = b.
Proof. intros H. by rewrite <- (decode_encode_decl_name a), H, decode_encode_decl_name. Qed.

(** A path splits into schema and component in one way. *)
Lemma last_slash_unique s s' r r' :
  contains_char "/" r = false → contains_char "/" r' = false →
  (s +:+ String "/" r)%string = (s' +:+ String "/" r')%string → s = s' ∧ r = r'.
Proof.
  intros Hr Hr'. revert s'. induction s as [|a s IH]; intros [|a' s'] H.
  - change (String "/" r = String "/" r') in H. by injection H as ->.
  - change (String "/" r = String a' (s' +:+ String "/" r')) in H. injection H as <- ->. exfalso.
    by rewrite contains_char_app, orb_true_r in Hr.
  - change (String a (s +:+ String "/" r) = String "/" r') in H. injection H as -> <-. exfalso.
    by rewrite contains_char_app, orb_true_r in Hr'.
  - change (String a (s +:+ String "/" r) = String a' (s' +:+ String "/" r')) in H. injection H as -> H.
    by apply IH in H as [-> ->].
Qed.

(** The path of a declaration. *)
Definition entry_path (schema name : string) : string := (schema +:+ String "/" (encode_decl_name name))%string.

Lemma entry_path_inj s s' n n' : entry_path s n = entry_path s' n' → s = s' ∧ n = n'.
Proof.
  intros H. apply last_slash_unique in H as [-> H]; [|apply encode_decl_name_no_slash..].
  by apply encode_decl_name_inj in H as ->.
Qed.

Lemma str_app_inj (s t u : string) : (s +:+ t = s +:+ u)%string → t = u.
Proof.
  induction s as [|a s IH]; [done|]. intros H. change (String a (s +:+ t) = String a (s +:+ u)) in H.
  injection H as H. by apply IH.
Qed.

Lemma direct_child_Some schema p rest :
  direct_child schema p = Some rest ↔ p = (schema +:+ String "/" rest)%string ∧ contains_char "/" rest = false.
Proof.
  unfold direct_child. destruct (strip_prefix (schema +:+ "/") p) as [r|] eqn:E.
  - apply strip_prefix_Some in E. rewrite str_app_assoc in E. change ("/" +:+ r)%string with (String "/" r) in E.
    split.
    + destruct (contains_char "/" r) eqn:Hc; [done|]. by intros [= ->].
    + intros [-> Hc]. apply str_app_inj in E. injection E as <-. by rewrite Hc.
  - split; [done|]. intros [-> _]. exfalso.
    assert (strip_prefix (schema +:+ "/") (schema +:+ String "/" rest) = Some rest) as H; [|congruence].
    apply strip_prefix_Some. by rewrite str_app_assoc.
Qed.

Lemma direct_child_entry schema name : direct_child schema (entry_path schema name) = Some (encode_decl_name name).
Proof. apply direct_child_Some. split; [done|apply encode_decl_name_no_slash]. Qed.

Lemma direct_child_unique s s' p r r' : direct_child s p = Some r → direct_child s' p = Some r' → s = s' ∧ r = r'.
Proof. intros [-> Hr]%direct_child_Some [H Hr']%direct_child_Some. by apply last_slash_unique in H. Qed.

(** ** Schemas stored as trees *)

Section Entries.
Context {RM : JjRemotes} {RT : JjRuntime}.

(** The value a tree has at a path. *)
Definition entry_at (t : MergedTree) (d : Inner) (p : string) : option (outcome string MergedTreeValue) :=
  (list_to_map (tree_entries t d) : gmap string (outcome string MergedTreeValue)) !! p.

(** The values after a builder was written. *)
Definition overridden (ov : gmap string MergedTreeValue) (old : string → option (outcome string MergedTreeValue)) (p : string) :
    option (outcome string MergedTreeValue) :=
  match ov !! p with
  | Some v => if bool_decide (v = absent_value) then None else Some (Ok v)
  | None => old p
  end.

(** No path is both a file and a directory. *)
Definition no_clash (f : string → option (outcome string MergedTreeValue)) : Prop :=
  ∀ p q, is_Some (f p) → is_Some (f q) → strip_prefix (p +:+ "/") q = None.

Definition tree_reads (t : MergedTree) (d : Inner) : Prop := ∀ p r, entry_at t d p = Some r → ∃ v, r = Ok v.
End Entries.

(** Documented: a path is its internal string, a tree lists every path once and
    does not change, and writing a builder sets and removes the overridden paths and
    stores nothing but objects. *)
Class JjTreeLaws `{JjRemotes} (RT : JjRuntime) : Prop := {
  repo_path_Ok s p : repo_path s = Ok p → p = s;
  tree_entries_NoDup t d : NoDup (tree_entries t d).*1;
  builder_write_tree_entries base ov d t' d' :
    builder_write_tree base ov d = (Ok t', d') → tree_reads base d → no_clash (overridden ov (entry_at base d)) →
    ∀ p, entry_at t' d' p = overridden ov (entry_at base d) p;
  tree_entries_extends t d d' : extends d d' → tree_reads t d → tree_entries t d' = tree_entries t d;
  builder_write_tree_tables base ov d r d' :
    builder_write_tree base ov d = (r, d') → extends d d' ∧ ops d' = ops d ∧ refs d' = refs d;
}.

Section Trees.
Context {RM : JjRemotes} {L : JjLib} {C : JjCodec} {HX : Hex} {LL : JjLaws L C HX} {RT : JjRuntime} {TL : JjTreeLaws RT}
  {HO : HashOrder} {FMT : RustFmt}.

(** The bytes of a resolved file among entries. *)
Definition file_in (m : gmap string (outcome string MergedTreeValue)) (d : Inner) (p : string) : option (list byte) :=
  match m !! p with
  | Some (Ok [Some (TvFile id _ _)]) => match read_file id d with Ok b => Some b | _ => None end
  | _ => None
  end.

(** Entries that the jj layer wrote: readable values, encoded names, stored files. *)
Definition entries_ok (d : Inner) (es : list (string * outcome string MergedTreeValue)) : Prop :=
  ∀ p r, (p, r) ∈ es →
    (∃ v, r = Ok v ∧ ∀ id x c, v = [Some (TvFile id x c)] → ∃ b, read_file id d = Ok b) ∧
    (∀ schema rest, direct_child schema p = Some rest → ∃ name, rest = encode_decl_name name).

Definition tree_ok_in (t : MergedTree) (d : Inner) : Prop := entries_ok d (tree_entries t d).

(** The schema made of the files below a path. *)
Definition has_child (m : gmap string (outcome string MergedTreeValue)) (schema : string) : Prop :=
  ∃ p rest, is_Some (m !! p) ∧ direct_child schema p = Some rest.

Definition schema_of (m : gmap string (outcome string MergedTreeValue)) (d : Inner) (schema : string) (objs : SchemaObjects) : Prop :=
  so_meta objs = default [] (file_in m d (entry_path schema META_NAME)) ∧
  ∀ name, so_decls objs !! name = if bool_decide (name = META_NAME) then None else file_in m d (entry_path schema name).

Lemma schema_of_unique m d schema objs objs' : schema_of m d schema objs → schema_of m d schema objs' → objs = objs'.
Proof.
  intros [Hm Hd] [Hm' Hd']. destruct objs as [meta decls], objs' as [meta' decls']. cbn in *. f_equal; [congruence|].
  apply map_eq. intros name. by rewrite Hd, Hd'.
Qed.

(** What the loop has collected after the entries [es]. *)
Definition collected (schema : string) (m : gmap string (outcome string MergedTreeValue)) (d : Inner)
    (found found' : bool) (objs objs' : SchemaObjects) : Prop :=
  (found' = true ↔ found = true ∨ has_child m schema) ∧
  so_meta objs' = default (so_meta objs) (file_in m d (entry_path schema META_NAME)) ∧
  ∀ name, so_decls objs' !! name =
    if bool_decide (name = META_NAME) then so_decls objs !! name
    else match file_in m d (entry_path schema name) with Some b => Some b | None => so_decls objs !! name end.

Lemma has_child_insert m schema p r :
  has_child (<[p := r]> m) schema ↔ (∃ rest, direct_child schema p = Some rest) ∨ has_child m schema.
Proof.
  unfold has_child. split.
  - intros (q & rest & Hq & Hc). rewrite lookup_insert in Hq. case_decide as E; [subst; left; eauto|right; eauto].
  - intros [(rest & Hc)|(q & rest & Hq & Hc)]; [exists p, rest|exists q, rest]; (split; [|done]);
      rewrite lookup_insert; case_decide; first [done|by eexists].
Qed.

Lemma file_in_insert m d p r q :
  file_in (<[p := r]> m) d q = if decide (p = q) then file_in {[ p := r ]} d p else file_in m d q.
Proof.
  unfold file_in. rewrite lookup_insert. case_decide; [|done]. subst. by rewrite lookup_singleton_eq.
Qed.

Lemma load_entries_spec schema es : ∀ found objs d,
  NoDup es.*1 → entries_ok d es →
  ∃ found' objs', load_entries schema found objs es d = (Ok (found', objs'), d) ∧
    collected schema (list_to_map es) d found found' objs objs'.
Proof.
  induction es as [|[p r] es IH]; intros found objs d Hnd Hok.
  { exists found, objs. split; [done|]. split_and!.
    - split; [by left|]. intros [?|(q & rest & [? Hq] & _)]; [done|]. cbn in Hq. by rewrite lookup_empty in Hq.
    - unfold file_in. cbn. by rewrite lookup_empty.
    - intros name. unfold file_in. cbn. rewrite lookup_empty. by case_bool_decide. }
  apply NoDup_cons in Hnd as [Hp Hnd]. cbn [load_entries]. change (list_to_map ((p, r) :: es)) with (<[p := r]> (list_to_map es : gmap _ _)).
  destruct (Hok p r) as [(v & -> & Hfile) Henc]; [by left|].
  assert (entries_ok d es) as Hok' by (intros q w Hin; apply Hok; by right).
  assert ((list_to_map es : gmap string (outcome string MergedTreeValue)) !! p = None) as Hnone.
  { by apply not_elem_of_list_to_map_1. }
  assert (file_in (list_to_map es) d p = None) as Hfn by (unfold file_in; by rewrite Hnone).
  unfold mbind, dbm_bind, db_lift. cbn [map_err].
  destruct (direct_child schema p) as [rest|] eqn:Hc.
  - destruct (Henc schema rest Hc) as (name & ->). rewrite decode_encode_decl_name.
    assert (p = entry_path schema name) as Hpath by (by apply direct_child_Some in Hc as [-> _]).
    assert (∀ n, n ≠ name → entry_path schema n ≠ p) as Hother.
    { intros n Hn E. rewrite Hpath in E. apply entry_path_inj in E as [_ ?]. done. }
    set (objs1 := match v with
                  | [Some (TvFile id _ _)] =>
                    match read_file id d with
                    | Ok b => if bool_decide (name = META_NAME) then mkSchemaObjects b (so_decls objs)
                              else mkSchemaObjects (so_meta objs) (<[name := b]> (so_decls objs))
                    | _ => objs
                    end
                  | _ => objs end).
    destruct (IH true objs1 d Hnd Hok') as (found' & objs' & Hl & Hf & Hm & Hd).
    exists found', objs'. split.
    + destruct v as [|[[id x c| | |]|] [|]]; try exact Hl. destruct (Hfile id x c eq_refl) as (b & Hb).
      unfold jj_read_file, by_backend, db_read, map_jj. rewrite Hb. cbn. subst objs1. cbn in Hl. by rewrite Hb in Hl.
    + assert (file_in {[ p := Ok v ]} d p = match v with
                | [Some (TvFile id _ _)] => match read_file id d with Ok b => Some b | _ => None end | _ => None end) as Hv.
      { unfold file_in. by rewrite lookup_singleton_eq. }
      split_and!.
      * rewrite has_child_insert. rewrite Hf. split; [intros _; right; left; eauto|by left].
      * rewrite Hm, file_in_insert. destruct (decide (name = META_NAME)) as [->|Hn].
        -- rewrite <- Hpath, decide_True, Hfn, Hv by done. cbn. subst objs1.
           destruct v as [|[[id x c| | |]|] [|]]; try done. by destruct (read_file id d).
        -- rewrite decide_False; [|intros E; symmetry in E; revert E; by apply Hother]. f_equal. subst objs1.
           destruct v as [|[[id x c| | |]|] [|]]; try done. destruct (read_file id d); try done. by rewrite bool_decide_eq_false_2.
      * intros n. rewrite Hd, file_in_insert. destruct (decide (n = name)) as [->|Hn].
        -- rewrite <- Hpath, decide_True, Hfn, Hv by done. subst objs1.
           case_bool_decide as Hmeta; destruct v as [|[[id x c| | |]|] [|]]; try done; destruct (read_file id d); try done.
           cbn. by rewrite lookup_insert_eq.
        -- rewrite decide_False; [|intros E; symmetry in E; revert E; by apply Hother].
           subst objs1. destruct v as [|[[id x c| | |]|] [|]]; try done. destruct (read_file id d); try done.
           destruct (bool_decide (name = META_NAME)); [done|]. cbn [so_decls]. by rewrite lookup_insert_ne.
  - destruct (IH found objs d Hnd Hok') as (found' & objs' & Hl & Hf & Hm & Hd). exists found', objs'. split; [done|].
    assert (∀ n, entry_path schema n ≠ p) as Hother.
    { intros n <-. by rewrite direct_child_entry in Hc. }
    split_and!.
    + rewrite has_child_insert, Hf. split; [intros [?|?]; auto|]. intros [?|[(rest & Hr)|?]]; auto. congruence.
    + rewrite file_in_insert, decide_False by (by intros E; apply (Hother META_NAME)). done.
    + intros n. rewrite file_in_insert, decide_False by (by intros E; apply (Hother n)). by rewrite Hd.
Qed.

(** *** Loading *)

Abbreviation entry_map t d := (list_to_map (tree_entries t d) : gmap string (outcome string MergedTreeValue)).

Lemma load_schema_spec t d schema :
  tree_ok_in t d →
  ∃ objs (found : bool), schema_of (entry_map t d) d schema objs ∧ (found = true ↔ has_child (entry_map t d) schema) ∧
    load_schema_from_tree t schema d = (if found then Ok objs else Err (JjSchemaNotFound schema), d).
Proof.
  intros Hok. destruct (load_entries_spec schema (tree_entries t d) false schema_objects_default d)
    as (found & objs & Hl & Hf & Hm & Hd); [apply tree_entries_NoDup|done|].
  exists objs, found. split_and!.
  - split; [exact Hm|]. intros name. rewrite Hd. cbn [so_decls schema_objects_default]. rewrite lookup_empty.
    case_bool_decide; [done|]. by destruct (file_in (entry_map t d) d (entry_path schema name)).
  - rewrite Hf. split; [by intros [?|?]|by right].
  - unfold load_schema_from_tree, mbind, dbm_bind, db_read, db_lift. by rewrite Hl.
Qed.

(** The schema that a tree holds, if any. *)
Definition loads (t : MergedTree) (d : Inner) (schema : string) : option SchemaObjects :=
  match (load_schema_from_tree t schema d).1 with Ok objs => Some objs | _ => None end.

Lemma loads_Some t d schema objs :
  tree_ok_in t d → has_child (entry_map t d) schema → schema_of (entry_map t d) d schema objs → loads t d schema = Some objs.
Proof.
  intros Hok Hc Hs. destruct (load_schema_spec t d schema Hok) as (objs' & found & Hs' & Hf & H). unfold loads.
  rewrite H, (proj2 Hf Hc). cbn. f_equal. by eapply schema_of_unique.
Qed.

Lemma loads_None t d schema : tree_ok_in t d → ¬ has_child (entry_map t d) schema → loads t d schema = None.
Proof.
  intros Hok Hc. destruct (load_schema_spec t d schema Hok) as (objs & found & _ & Hf & H). unfold loads. rewrite H.
  destruct found; [|done]. by destruct Hc; apply Hf.
Qed.

(** *** The overrides of an effect *)

(** What an effect does to the entries of its schema. *)
Definition effect_entries (e : MutationEffect) : gmap string (option DeclBlob) :=
  foldl (λ m n, <[n := None]> m)
    (foldl (λ m kv, <[kv.1 := Some kv.2]> m)
       (match me_meta e with Some b => {[ META_NAME := Some b ]} | None => ∅ end) (me_upserts e)) (me_removes e).

Definition override_value (x : option DeclBlob) : MergedTreeValue :=
  match x with Some b => resolved_file (blake2b512 b) | None => absent_value end.

Definition patched (schema : string) (m : gmap string (option DeclBlob)) (ov ov' : gmap string MergedTreeValue) : Prop :=
  (∀ name, ov' !! entry_path schema name =
     match m !! name with Some x => Some (override_value x) | None => ov !! entry_path schema name end) ∧
  (∀ p, (∀ name, p ≠ entry_path schema name) → ov' !! p = ov !! p).

Lemma patched_empty schema ov : patched schema ∅ ov ov.
Proof. split; [|done]. intros name. by rewrite lookup_empty. Qed.

Lemma patched_insert schema m ov ov' n x :
  patched schema m ov ov' → patched schema (<[n := x]> m) ov (<[entry_path schema n := override_value x]> ov').
Proof.
  intros [H1 H2]. split.
  - intros name. destruct (decide (n = name)) as [->|Hne].
    + by rewrite !lookup_insert_eq.
    + rewrite !lookup_insert_ne; [apply H1|done|]. intros E. by apply entry_path_inj in E as [_ ?].
  - intros p Hp. rewrite lookup_insert_ne; [by apply H2|]. intros E. by apply (Hp n).
Qed.

Lemma decl_path_Ok schema name p : decl_path schema name = Ok p → p = entry_path schema name.
Proof. unfold decl_path. intros H%map_err_Ok. by apply repo_path_Ok in H. Qed.

(** The bytes that are stored as a file under an id. *)
Definition file_at (d : Inner) (id : list byte) : option (list byte) := objects d !! (kind_tag File, id).

(** Files are stored, and nothing else. *)
Definition stores_files (blobs : list (list byte)) (d d' : Inner) : Prop :=
  rtc jj_write d d' ∧ ops d' = ops d ∧ refs d' = refs d ∧
  (∀ b, b ∈ blobs → is_Some (file_at d' (blake2b512 b))) ∧
  (∀ id b, file_at d' id = Some b → file_at d id = Some b ∨ b ∈ blobs ∧ blake2b512 b = id).

Lemma stores_files_refl d : stores_files [] d d.
Proof. split_and!; [done..| |by left]. by intros b ?%not_elem_of_nil. Qed.

Lemma stores_files_app bs bs' d1 d2 d3 : stores_files bs d1 d2 → stores_files bs' d2 d3 → stores_files (bs ++ bs') d1 d3.
Proof.
  intros (Hw & Ho & Hr & Hp & Hs) (Hw' & Ho' & Hr' & Hp' & Hs'). split_and!; [by etrans|congruence|congruence|..].
  - intros b [Hb|Hb]%elem_of_app; [|by apply Hp']. destruct (Hp b Hb) as [x Hx]. exists x.
    by apply (proj1 (jj_writes_extend _ _ Hw')).
  - intros id b [[H|[H <-]]%Hs|[H <-]]%Hs'; [by left|right..]; (split; [|done]); apply elem_of_app; auto.
Qed.

Lemma jj_write_file_inv b d id d' : jj_write_file b d = (Ok id, d') → id = blake2b512 b ∧ stores_files [b] d d'.
Proof.
  intros H%db_map_err_Ok. assert (backend_write_file b d = (Ok id, d')) as Hw by done. injection H as <- <-. split; [done|].
  split_and!; [|done|done|..].
  - apply rtc_once. by eapply JwFile.
  - intros b' ->%list_elem_of_singleton. unfold file_at. rewrite put_object_at_lookup. eauto.
  - intros i b'. unfold file_at. cbn. rewrite lookup_or_insert. case_decide as Ei; [|by left]. injection Ei as ->.
    destruct (objects d !! _) as [y|] eqn:Hy; cbn; intros [= <-]; [by left|right]. split; [left|done].
Qed.

(** No two of these byte strings, and none of them and a stored file, have the
    same hash without being equal. *)
Definition no_collision (d : Inner) (blobs : list (list byte)) : Prop :=
  ∀ b, b ∈ blobs → (∀ y, file_at d (blake2b512 b) = Some y → y = b) ∧
                   (∀ y, y ∈ blobs → blake2b512 y = blake2b512 b → y = b).

Lemma stored_file_reads blobs d d' b :
  stores_files blobs d d' → no_collision d blobs → b ∈ blobs → read_file (blake2b512 b) d' = Ok b.
Proof.
  intros (_ & _ & _ & Hp & Hs) Hn Hb. destruct (Hp b Hb) as [y Hy]. destruct (Hn b Hb) as [Hold Hnew].
  assert (y = b) as -> by (apply Hs in Hy as [Hy|[Hy Hh]]; auto).
  unfold file_at in Hy. unfold read_file, get_object. by rewrite Hy.
Qed.

Lemma write_upserts_spec schema ups : ∀ m ov ov1 d ov' d',
  patched schema m ov ov1 → write_upserts schema ups ov1 d = (Ok ov', d') →
  patched schema (foldl (λ m kv, <[kv.1 := Some kv.2]> m) m ups) ov ov' ∧ stores_files ups.*2 d d'.
Proof.
  induction ups as [|[n b] ups IH]; intros m ov ov1 d ov' d' Hp H; cbn [write_upserts] in H.
  { injection H as <- <-. split; [done|apply stores_files_refl]. }
  apply dbm_bind_Ok in H as (id & d1 & [-> Hs]%jj_write_file_inv & H).
  apply dbm_bind_Ok in H as (path & d2 & [->%decl_path_Ok ->]%db_lift_Ok & H).
  apply (IH (<[n := Some b]> m) ov) in H as [Hp' Hs']; [|by apply (patched_insert schema m ov ov1 n (Some b))].
  split; [done|]. by eapply (stores_files_app [b]).
Qed.

Lemma write_removes_spec schema removes : ∀ m ov ov1 ov',
  patched schema m ov ov1 → write_removes schema removes ov1 = Ok ov' →
  patched schema (foldl (λ m n, <[n := None]> m) m removes) ov ov'.
Proof.
  induction removes as [|n removes IH]; intros m ov ov1 ov' Hp H; cbn [write_removes] in H; [by injection H as <-|].
  apply bind_Ok in H as (path & ->%decl_path_Ok & H).
  eapply (IH (<[n := None]> m) ov); [|exact H]. by apply (patched_insert schema m ov ov1 n None).
Qed.

Definition effect_blobs (e : MutationEffect) : list (list byte) :=
  match me_meta e with Some b => [b] | None => [] end ++ (me_upserts e).*2.

Lemma jj_apply_effect_spec schema e ov d ov' d' :
  jj_apply_effect schema e ov d = (Ok ov', d') → patched schema (effect_entries e) ov ov' ∧ stores_files (effect_blobs e) d d'.
Proof.
  unfold jj_apply_effect. intros H. apply dbm_bind_Ok in H as (ov1 & d1 & Hmeta & H).
  apply dbm_bind_Ok in H as (ov2 & d2 & Hups & H). apply db_lift_Ok in H as [Hrem ->].
  assert (patched schema (match me_meta e with Some b => {[ META_NAME := Some b ]} | None => ∅ end) ov ov1 ∧
          stores_files (match me_meta e with Some b => [b] | None => [] end) d d1) as [Hp Hs].
  { destruct (me_meta e) as [b|].
    - apply dbm_bind_Ok in Hmeta as (id & d3 & [-> Hs]%jj_write_file_inv & Hmeta).
      apply dbm_bind_Ok in Hmeta as (path & d4 & [->%decl_path_Ok ->]%db_lift_Ok & Hmeta). injection Hmeta as <- <-.
      split; [|done]. apply (patched_insert schema ∅ ov ov META_NAME (Some b)), patched_empty.
    - injection Hmeta as <- <-. split; [apply patched_empty|apply stores_files_refl]. }
  eapply write_upserts_spec in Hups as [Hp2 Hs2]; [|exact Hp]. eapply write_removes_spec in Hrem; [|exact Hp2].
  split; [exact Hrem|]. by eapply stores_files_app.
Qed.

(** *** Effects as entries *)

Lemma lookup_foldl_insert_ne {A B} (f : A → string) (g : A → B) l : ∀ (m : gmap string B) k,
  k ∉ f <$> l → foldl (λ m x, <[f x := g x]> m) m l !! k = m !! k.
Proof.
  induction l as [|x l IH]; intros m k Hk; [done|]. cbn. rewrite IH by set_solver. apply lookup_insert_ne. set_solver.
Qed.

(** A schema is the entries of an effect over an older one. *)
Definition entries_over (m : gmap string (option DeclBlob)) (old new : gmap string DeclBlob) : Prop :=
  ∀ name, name ≠ META_NAME → new !! name = match m !! name with Some x => x | None => old !! name end.

Lemma entries_over_upserts ups : ∀ m old new,
  entries_over m old new →
  entries_over (foldl (λ m kv, <[kv.1 := Some kv.2]> m) m ups) old (foldl (λ d kv, <[kv.1 := kv.2]> d) new ups).
Proof.
  induction ups as [|[n b] ups IH]; intros m old new H; [done|]. cbn [foldl]. apply IH. intros name Hne. cbn [fst snd].
  destruct (decide (n = name)) as [->|Hn]; [by rewrite !lookup_insert_eq|]. rewrite !lookup_insert_ne by done. by apply H.
Qed.

Lemma entries_over_removes removes : ∀ m old new,
  entries_over m old new →
  entries_over (foldl (λ m n, <[n := None]> m) m removes) old (foldl (λ d n, delete n d) new removes).
Proof.
  induction removes as [|n removes IH]; intros m old new H; [done|]. cbn [foldl]. apply IH. intros name Hne.
  destruct (decide (n = name)) as [->|Hn]; [by rewrite lookup_insert_eq, lookup_delete_eq|].
  rewrite lookup_insert_ne, lookup_delete_ne by done. by apply H.
Qed.

(** The names of an effect; the metadata entry is not among them. *)
Definition names_ok (e : MutationEffect) : Prop := META_NAME ∉ (me_upserts e).*1 ∧ META_NAME ∉ me_removes e.

Lemma effect_entries_meta e : names_ok e → effect_entries e !! META_NAME = Some <$> me_meta e.
Proof.
  intros [Hu Hr]. unfold effect_entries. rewrite (lookup_foldl_insert_ne id (λ _, None)) by (by rewrite list_fmap_id).
  rewrite (lookup_foldl_insert_ne fst (λ kv, Some kv.2)) by done. destruct (me_meta e); [|done]. by rewrite lookup_singleton_eq.
Qed.

Lemma apply_effect_over objs e : entries_over (effect_entries e) (so_decls objs) (so_decls (apply_effect objs e)).
Proof.
  apply entries_over_removes, entries_over_upserts. intros name Hne.
  destruct (me_meta e); [by rewrite lookup_singleton_ne|by rewrite lookup_empty].
Qed.

Lemma apply_effect_meta_entry objs e : names_ok e → so_decls objs !! META_NAME = None → so_decls (apply_effect objs e) !! META_NAME = None.
Proof.
  intros [Hu Hr] Hn. cbn. rewrite lookup_foldl_delete, bool_decide_eq_false_2 by done.
  by rewrite (lookup_foldl_insert_ne fst snd).
Qed.

(** *** The overrides of a list of writes *)

(** What one write does to the overrides below its schema. *)
Definition write_spec (base : gmap string (outcome string MergedTreeValue)) (w : SchemaWrite)
    (ov ov' : gmap string MergedTreeValue) : Prop :=
  match w with
  | WritePatch s e =>
    ∀ p rest, direct_child s p = Some rest →
      (∀ name, p = entry_path s name →
         ov' !! p = match effect_entries e !! name with Some x => Some (override_value x) | None => ov !! p end) ∧
      ((∀ name, p ≠ entry_path s name) → ov' !! p = ov !! p)
  | WriteDelete s =>
    ∀ p rest, direct_child s p = Some rest →
      ov' !! p = if bool_decide (is_Some (base !! p)) then Some absent_value else ov !! p
  end.

Definition write_blobs (w : SchemaWrite) : list (list byte) :=
  match w with WritePatch _ e => effect_blobs e | WriteDelete _ => [] end.

Lemma entry_paths_Ok es paths : entry_paths es = Ok paths → paths = es.*1.
Proof.
  unfold entry_paths. intros H%mapM_Ok. induction H as [|[p r] q es paths Hq _ IH]; [done|]. cbn.
  apply bind_Ok in Hq as (v & _ & [= ->]). by rewrite <- IH.
Qed.

Lemma lookup_foldl_absent paths : ∀ (ov : gmap string MergedTreeValue) p,
  foldl (λ m path, <[path := absent_value]> m) ov paths !! p =
    if bool_decide (p ∈ paths) then Some absent_value else ov !! p.
Proof.
  induction paths as [|q paths IH]; intros ov p; cbn [foldl].
  - by rewrite bool_decide_eq_false_2 by apply not_elem_of_nil.
  - rewrite IH. repeat case_bool_decide; try done; try set_solver.
    + assert (p = q) as -> by set_solver. by rewrite lookup_insert_eq.
    + rewrite lookup_insert_ne; [done|]. set_solver.
Qed.

Lemma delete_schema_spec base schema ov d ov' :
  delete_schema_from_tree base schema ov d = Ok ov' →
  (∀ p, direct_child schema p = None → ov' !! p = ov !! p) ∧ write_spec (entry_map base d) (WriteDelete schema) ov ov'.
Proof.
  unfold delete_schema_from_tree. intros H. apply bind_Ok in H as (paths & ->%entry_paths_Ok & H). cbv zeta in H.
  apply bind_Ok in H as (u & _ & [= <-]). split.
  - intros p Hp. rewrite lookup_foldl_absent, bool_decide_eq_false_2; [done|].
    intros [_ Hc]%elem_of_bool_filter. by rewrite Hp in Hc.
  - intros p rest Hc. rewrite lookup_foldl_absent. erewrite bool_decide_ext; [reflexivity|].
    rewrite elem_of_bool_filter, Hc. split.
    + intros [Hin _]. apply list_elem_of_fmap in Hin as ([q r] & -> & Hin). exists r.
      apply elem_of_list_to_map_1; [apply tree_entries_NoDup|done].
    + intros [r Hr]. split; [|done]. apply elem_of_list_to_map_2 in Hr. apply list_elem_of_fmap. by exists (p, r).
Qed.

Definition overrides_of (base : gmap string (outcome string MergedTreeValue)) (writes : list SchemaWrite)
    (ov ov' : gmap string MergedTreeValue) : Prop :=
  (∀ p, (∀ w, w ∈ writes → direct_child (write_name w) p = None) → ov' !! p = ov !! p) ∧
  (∀ w, w ∈ writes → write_spec base w ov ov').

Lemma write_spec_ext base w ov ov1 ov' ov2 :
  (∀ p rest, direct_child (write_name w) p = Some rest → ov1 !! p = ov !! p ∧ ov2 !! p = ov' !! p) →
  write_spec base w ov ov' → write_spec base w ov1 ov2.
Proof.
  intros Heq H. destruct w as [s e|s]; cbn in *; intros p rest Hc; destruct (Heq p rest Hc) as [-> ->]; by eapply H.
Qed.

Lemma patched_write_spec base s e ov ov' :
  patched s (effect_entries e) ov ov' →
  (∀ p, direct_child s p = None → ov' !! p = ov !! p) ∧ write_spec base (WritePatch s e) ov ov'.
Proof.
  intros [H1 H2]. split.
  - intros p Hp. apply H2. intros name ->. by rewrite direct_child_entry in Hp.
  - intros p rest Hc. split; [|by apply H2]. intros name ->. apply H1.
Qed.

Lemma apply_schema_writes_spec base writes : ∀ ov d ov' d',
  NoDup (write_name <$> writes) → tree_reads base d → apply_schema_writes base writes ov d = (Ok ov', d') →
  overrides_of (entry_map base d) writes ov ov' ∧ stores_files (writes ≫= write_blobs) d d'.
Proof.
  induction writes as [|w writes IH]; intros ov d ov' d' Hnd Hr H.
  { injection H as <- <-. split; [|apply stores_files_refl]. split; [done|]. by intros w ?%not_elem_of_nil. }
  apply NoDup_cons in Hnd as [Hw Hnd].
  assert (∃ ov1 d1, apply_schema_writes base writes ov1 d1 = (Ok ov', d') ∧ stores_files (write_blobs w) d d1 ∧
            (∀ p, direct_child (write_name w) p = None → ov1 !! p = ov !! p) ∧ write_spec (entry_map base d) w ov ov1)
    as (ov1 & d1 & H' & Hs & Hother & Hspec).
  { destruct w as [s e|s]; cbn [apply_schema_writes] in H.
    - apply dbm_bind_Ok in H as (ov1 & d1 & [Hp Hs]%jj_apply_effect_spec & H). exists ov1, d1.
      split_and!; [done|done|by apply (patched_write_spec (entry_map base d)) in Hp as [? _]|by apply patched_write_spec].
    - apply dbm_bind_Ok in H as (ov1 & d1 & [Hd%delete_schema_spec ->]%db_read_Ok & H). exists ov1, d.
      destruct Hd. split_and!; [done|apply stores_files_refl|done|done]. }
  assert (extends d d1) as He by (destruct Hs as (? & _); by apply jj_writes_extend).
  pose proof (tree_entries_extends base d d1 He Hr) as Heq.
  apply IH in H' as [[H1 H2] Hs']; [|done|unfold tree_reads, entry_at in *; by rewrite Heq]. rewrite Heq in H2.
  split; [|by eapply stores_files_app].
  assert (∀ w' p rest, w' ∈ writes → direct_child (write_name w') p = Some rest → direct_child (write_name w) p = None) as Hsep.
  { intros w' p rest Hin Hc. destruct (direct_child (write_name w) p) as [r|] eqn:E; [|done]. exfalso. apply Hw.
    destruct (direct_child_unique _ _ _ _ _ E Hc) as [-> _]. by apply list_elem_of_fmap_2. }
  split.
  - intros p Hp. rewrite H1 by (intros w' Hw'; apply Hp; by right). apply Hother, Hp. by left.
  - intros w' [->|Hin]%elem_of_cons.
    + eapply (write_spec_ext _ w ov ov ov1 ov'); [|done]. intros p rest Hc. split; [done|]. apply H1.
      intros w' Hin. destruct (direct_child (write_name w') p) as [r|] eqn:E; [|done].
      pose proof (Hsep _ _ _ Hin E). congruence.
    + eapply (write_spec_ext _ w' ov1 ov ov' ov'); [|by apply H2]. intros p rest Hc. split; [|done]. symmetry.
      apply Hother. by eapply Hsep.
Qed.

(** *** The tree that was written *)

(** A write that leaves entries: no declaration has the name of the metadata entry,
    and a patch leaves something. *)
Definition write_ok (base : MergedTree) (d : Inner) (w : SchemaWrite) : Prop :=
  match w with
  | WritePatch s e =>
    names_ok e ∧
    (me_meta e ≠ None ∨ ∃ name b, so_decls (apply_effect (default schema_objects_default (loads base d s)) e) !! name = Some b)
  | WriteDelete _ => True
  end.

Lemma read_file_extends id d d' b : extends d d' → read_file id d = Ok b → read_file id d' = Ok b.
Proof. intros He H%map_err_Ok. unfold read_file. by rewrite (get_object_extends _ _ _ _ _ He H). Qed.

Lemma entry_elem t d p r : entry_map t d !! p = Some r ↔ (p, r) ∈ tree_entries t d.
Proof.
  split; [apply elem_of_list_to_map_2|]. apply elem_of_list_to_map_1, tree_entries_NoDup.
Qed.

Lemma file_in_extends t d d' p : tree_ok_in t d → extends d d' → file_in (entry_map t d) d' p = file_in (entry_map t d) d p.
Proof.
  intros Hok He. unfold file_in. destruct (entry_map t d !! p) as [r|] eqn:Hp; [|done].
  apply entry_elem, Hok in Hp as [(v & -> & Hf) _]. destruct v as [|[[id x c| | |]|] [|]]; try done.
  destruct (Hf id x c eq_refl) as (b & Hb). by rewrite Hb, (read_file_extends _ _ _ _ He Hb).
Qed.

Lemma file_in_None m d p : m !! p = None → file_in m d p = None.
Proof. unfold file_in. by intros ->. Qed.

(** The schema a path had, or the empty one. *)
Lemma loads_default t d s : tree_ok_in t d → schema_of (entry_map t d) d s (default schema_objects_default (loads t d s)).
Proof.
  intros Hok. destruct (load_schema_spec t d s Hok) as (objs & found & Hs & Hf & Hl). unfold loads. rewrite Hl.
  destruct found; [done|]. cbn.
  assert (∀ name, file_in (entry_map t d) d (entry_path s name) = None) as Hnone.
  { intros name. apply file_in_None. destruct (entry_map t d !! entry_path s name) eqn:E; [|done].
    enough (false = true) by done. apply Hf. exists (entry_path s name), (encode_decl_name name).
    split; [by eexists|apply direct_child_entry]. }
  split; cbn; [by rewrite Hnone|]. intros name. rewrite Hnone, lookup_empty. by case_bool_decide.
Qed.

Section Written.
Context (base : MergedTree) (writes : list SchemaWrite) (d d1 : Inner) (ov : gmap string MergedTreeValue) (t : MergedTree) (d2 : Inner).
Context (Hok : tree_ok_in base d) (Hnd : NoDup (write_name <$> writes)) (Hw : Forall (write_ok base d) writes)
  (Hcol : no_collision d (writes ≫= write_blobs))
  (Happly : apply_schema_writes base writes ∅ d = (Ok ov, d1)) (Hbuild : builder_write_tree base ov d1 = (Ok t, d2))
  (Hclash : no_clash (overridden ov (entry_at base d))).

Lemma base_reads : tree_reads base d.
Proof. intros p r Hp. apply entry_elem, Hok in Hp as [(v & -> & _) _]. eauto. Qed.

Lemma written_overrides : overrides_of (entry_map base d) writes ∅ ov ∧ stores_files (writes ≫= write_blobs) d d1.
Proof. apply apply_schema_writes_spec; [done|apply base_reads|done]. Qed.

Lemma written_extends : extends d d1 ∧ extends d1 d2.
Proof.
  destruct written_overrides as [_ (Hr & _)]. split; [by apply jj_writes_extend|].
  by apply builder_write_tree_tables in Hbuild as (? & _).
Qed.

Lemma written_entries p : entry_map t d2 !! p = overridden ov (entry_at base d) p.
Proof.
  destruct written_extends as [He _]. pose proof (tree_entries_extends base d d1 He base_reads) as Heq.
  assert (entry_at base d1 = entry_at base d) as Hat by (unfold entry_at; by rewrite Heq).
  rewrite <- Hat. apply (builder_write_tree_entries base ov d1 t d2 Hbuild); [|by rewrite Hat].
  intros q r. rewrite Hat. apply base_reads.
Qed.

(** The bytes of the effects are stored. *)
Lemma written_blob s e b : WritePatch s e ∈ writes → b ∈ effect_blobs e → read_file (blake2b512 b) d2 = Ok b.
Proof.
  intros Hin Hb. destruct written_overrides as [_ Hs]. destruct written_extends as [_ He].
  eapply read_file_extends; [done|]. eapply stored_file_reads; [done|done|].
  apply list_elem_of_bind. exists (WritePatch s e). done.
Qed.

Lemma effect_entries_blob e name b : names_ok e → effect_entries e !! name = Some (Some b) → b ∈ effect_blobs e.
Proof.
  intros _. unfold effect_entries, effect_blobs. intros H.
  assert (∀ l (m : gmap string (option DeclBlob)), foldl (λ m n, <[n := None]> m) m l !! name = Some (Some b) → m !! name = Some (Some b)) as Hrem.
  { induction l as [|n l IH]; intros m Hm; [done|]. cbn in Hm. apply IH in Hm. rewrite lookup_insert in Hm. by case_decide. }
  assert (∀ l (m : gmap string (option DeclBlob)), foldl (λ m kv, <[kv.1 := Some kv.2]> m) m l !! name = Some (Some b) →
            m !! name = Some (Some b) ∨ b ∈ l.*2) as Hups.
  { induction l as [|[n x] l IH]; intros m Hm; [by left|]. cbn in Hm. apply IH in Hm as [Hm|?]; [|right; by right].
    rewrite lookup_insert in Hm. case_decide; [|by left]. injection Hm as <-. right. by left. }
  apply Hrem, Hups in H as [H|H]; apply elem_of_app; [left|by right].
  destruct (me_meta e) as [m|]; [|by rewrite lookup_empty in H].
  apply lookup_singleton_Some in H as [_ [= <-]]. by left.
Qed.

(** The file at an entry of a patched schema. *)
Lemma patched_file s e name :
  WritePatch s e ∈ writes →
  file_in (entry_map t d2) d2 (entry_path s name) =
    match effect_entries e !! name with Some x => x | None => file_in (entry_map base d) d (entry_path s name) end.
Proof.
  intros Hin. destruct written_overrides as [[_ Hspec] _]. destruct written_extends as [He He'].
  pose proof (proj1 (Forall_forall _ _) Hw _ Hin) as (Hn & _).
  destruct (Hspec _ Hin (entry_path s name) _ (direct_child_entry s name)) as [Hov _]. specialize (Hov name eq_refl).
  rewrite lookup_empty in Hov. destruct (effect_entries e !! name) as [[b|]|] eqn:Ee.
  - unfold file_in. rewrite written_entries. unfold overridden. rewrite Hov. unfold override_value, resolved_file.
    rewrite bool_decide_eq_false_2 by done. rewrite (written_blob s e b Hin); [done|]. by eapply effect_entries_blob.
  - apply file_in_None. rewrite written_entries. unfold overridden. rewrite Hov. done.
  - rewrite <- (file_in_extends base d d2); [|done|by eapply extends_trans]. unfold file_in. rewrite written_entries.
    unfold overridden. by rewrite Hov.
Qed.

(** Where no write applies, the entries are those of the base. *)
Lemma unwritten_entry s p rest :
  (∀ w, w ∈ writes → write_name w ≠ s) → direct_child s p = Some rest → entry_map t d2 !! p = entry_map base d !! p.
Proof.
  intros Hno Hc. destruct written_overrides as [[Hother _] _]. rewrite written_entries. unfold overridden.
  rewrite Hother, lookup_empty; [done|]. intros w Hin. destruct (direct_child (write_name w) p) as [r|] eqn:E; [|done].
  destruct (direct_child_unique _ _ _ _ _ E Hc) as [Hs _]. by destruct (Hno w Hin).
Qed.

Lemma written_tree_ok : tree_ok_in t d2.
Proof.
  destruct written_overrides as [[Hother Hspec] _]. destruct written_extends as [He He'].
  assert (extends d d2) as He2 by (by eapply extends_trans). intros p r Hp%entry_elem. rewrite written_entries in Hp.
  unfold overridden in Hp. destruct (ov !! p) as [v|] eqn:Hov.
  - case_bool_decide as Habs; [done|]. injection Hp as <-.
    destruct (List.find (λ w, is_some (direct_child (write_name w) p)) writes) as [w|] eqn:Hf.
    2:{ rewrite Hother, lookup_empty in Hov; [done|]. intros w Hin. pose proof (List.find_none _ _ Hf w) as Hn.
        apply list_elem_of_In in Hin. specialize (Hn Hin). cbv beta in Hn. destruct (direct_child (write_name w) p); done. }
    apply List.find_some in Hf as [Hin%list_elem_of_In Hc]. destruct (direct_child (write_name w) p) as [rest|] eqn:Ec; [|done].
    specialize (Hspec w Hin). destruct w as [s e|s]; cbn in Ec, Hspec; specialize (Hspec p rest Ec).
    2:{ rewrite Hov, lookup_empty in Hspec. case_bool_decide; congruence. }
    destruct Hspec as [Hentry Hno]. pose proof (proj1 (Forall_forall _ _) Hw _ Hin) as (Hn & _).
    destruct (direct_child_Some s p rest) as [[-> Hrest] _]; [done|].
    destruct (decide (rest = encode_decl_name (decode_decl_name rest))) as [E|E].
    + specialize (Hentry (decode_decl_name rest)). unfold entry_path in Hentry. rewrite <- E in Hentry. specialize (Hentry eq_refl).
      rewrite Hov, lookup_empty in Hentry. destruct (effect_entries e !! decode_decl_name rest) as [x|] eqn:Ee; [|done].
      injection Hentry as ->. destruct x as [b|]; [|done]. split.
      * eexists. split; [done|]. intros id x c [= <- <- <-]. exists b. apply (written_blob s e b Hin).
        by eapply effect_entries_blob.
      * intros s' r' Hc'. destruct (direct_child_unique _ _ _ _ _ Ec Hc') as [_ <-]. eauto.
    + rewrite Hno, lookup_empty in Hov; [done|]. intros name Hname. apply E.
      apply last_slash_unique in Hname as [_ ->]; [|done|apply encode_decl_name_no_slash]. by rewrite decode_encode_decl_name.
  - apply entry_elem, Hok in Hp as [(v & -> & Hf) Henc]. split; [|done]. exists v. split; [done|]. intros id x c Hv.
    destruct (Hf id x c Hv) as (b & Hb). exists b. by eapply read_file_extends.
Qed.

Lemma written_patch s e :
  WritePatch s e ∈ writes →
  loads t d2 s = Some (apply_effect (default schema_objects_default (loads base d s)) e).
Proof.
  intros Hin. pose proof (proj1 (Forall_forall _ _) Hw _ Hin) as (Hn & Hsome).
  destruct (loads_default base d s Hok) as [Hm0 Hd0]. set (objs := default schema_objects_default (loads base d s)) in *.
  pose proof (λ name, patched_file s e name Hin) as Hfile.
  pose proof (apply_effect_over objs e) as Hover.
  assert (so_decls objs !! META_NAME = None) as Hmeta0 by (rewrite Hd0; by rewrite bool_decide_eq_true_2).
  assert (schema_of (entry_map t d2) d2 s (apply_effect objs e)) as Hschema.
  { split.
    - rewrite Hfile, effect_entries_meta by done. cbn. by destruct (me_meta e).
    - intros name. rewrite Hfile. case_bool_decide as Hname.
      + subst name. by apply apply_effect_meta_entry.
      + rewrite Hover by done. destruct (effect_entries e !! name); [done|]. rewrite Hd0. by rewrite bool_decide_eq_false_2. }
  apply loads_Some; [apply written_tree_ok| |done].
  assert (∃ name, is_Some (file_in (entry_map t d2) d2 (entry_path s name))) as (name & [b Hb]).
  { destruct Hsome as [Hmeta|(name & b & Hb)].
    - exists META_NAME. rewrite Hfile, effect_entries_meta by done. destruct (me_meta e); [by eexists|done].
    - exists name. destruct Hschema as [_ Hd]. rewrite Hd in Hb. case_bool_decide; [done|]. by eexists. }
  exists (entry_path s name), (encode_decl_name name). split; [|apply direct_child_entry].
  destruct (entry_map t d2 !! entry_path s name) eqn:E; [by eexists|]. by rewrite file_in_None in Hb.
Qed.

Lemma written_delete s : WriteDelete s ∈ writes → loads t d2 s = None.
Proof.
  intros Hin. destruct written_overrides as [[_ Hspec] _]. apply loads_None; [apply written_tree_ok|].
  intros (p & rest & [r Hr] & Hc). specialize (Hspec _ Hin p rest Hc). rewrite written_entries in Hr. unfold overridden in Hr.
  rewrite Hspec, lookup_empty in Hr. case_bool_decide as Hb; [done|]. apply Hb. by exists r.
Qed.

Lemma written_other s : (∀ w, w ∈ writes → write_name w ≠ s) → loads t d2 s = loads base d s.
Proof.
  intros Hno. pose proof (unwritten_entry s) as Hsame. destruct written_extends as [He He'].
  destruct (load_schema_spec base d s Hok) as (objs & found & [Hm Hd] & Hf & Hl).
  assert (has_child (entry_map t d2) s ↔ has_child (entry_map base d) s) as Hiff.
  { split; intros (p & rest & Hp & Hc); exists p, rest; (split; [|done]); by rewrite ?(Hsame p rest) in *. }
  assert (∀ name, file_in (entry_map t d2) d2 (entry_path s name) = file_in (entry_map base d) d (entry_path s name)) as Hfile.
  { intros name. rewrite <- (file_in_extends base d d2); [|done|by eapply extends_trans]. unfold file_in.
    by rewrite (Hsame _ _ Hno (direct_child_entry s name)). }
  unfold loads at 2. rewrite Hl. destruct found; cbn.
  - apply loads_Some; [apply written_tree_ok|apply Hiff, Hf; done|]. split; [by rewrite Hfile|]. intros name. by rewrite Hd, Hfile.
  - apply loads_None; [apply written_tree_ok|]. rewrite Hiff, <- Hf. done.
Qed.
End Written.

(** C23. Writing schemas and loading them agree. Given a base tree that can be read,
    writes to distinct schemas, no declaration that is called like the metadata
    entry ([__meta__]), patches that leave something, blobs whose hashes collide
    neither with each other nor with stored files, and a result in which no path is
    both a file and a directory: the tree that the writes build loads, at every path,
    what the plan of writes makes of the schema the base tree holds there, that is
    the effect of a patch applied, nothing for a deletion, and the same schema
    elsewhere. The new tree is again one that can be read. *)
Theorem written_tree_loads_plan (base : MergedTree) (writes : list SchemaWrite) (d d1 : Inner)
    (ov : gmap string MergedTreeValue) (t : MergedTree) (d2 : Inner) :
  tree_ok_in base d → NoDup (write_name <$> writes) → Forall (write_ok base d) writes →
  no_collision d (writes ≫= write_blobs) →
  apply_schema_writes base writes ∅ d = (Ok ov, d1) → builder_write_tree base ov d1 = (Ok t, d2) →
  no_clash (overridden ov (entry_at base d)) →
  tree_ok_in t d2 ∧ ∀ schema, loads t d2 schema = after_writes writes (loads base d) schema.
Proof.
  intros Hok Hnd Hw Hcol Happly Hbuild Hclash. split; [by eapply written_tree_ok|]. intros s. unfold after_writes.
  destruct (List.find (λ w, bool_decide (write_name w = s)) writes) as [w|] eqn:Hf.
  - apply List.find_some in Hf as [Hin%list_elem_of_In Hs%bool_decide_eq_true]. destruct w as [s' e|s']; cbn in Hs; subst s'.
    + by eapply written_patch.
    + by eapply written_delete.
  - eapply written_other; try done. intros w Hin. pose proof (List.find_none _ _ Hf w) as Hn. apply list_elem_of_In in Hin.
    specialize (Hn Hin). by apply bool_decide_eq_false in Hn.
Qed.
End Trees.

(** ** Publications *)

(** Documented: merging trees and writing a commit store objects; a commit has what
    it was built from; a head is added to the heads only; committing a transaction
    adds one operation on top of the one the repository was loaded at, with the view
    and the attributes of the transaction, and makes it a head in place of that one. *)
Class JjTxLaws `{JjRemotes} {L : JjLib} {C : JjCodec} {FMT : RustFmt} (RT : JjRuntime) : Prop := {
  merge_merged_trees_tables m d r d' :
    merge_merged_trees m d = (r, d') → extends d d' ∧ ops d' = ops d ∧ refs d' = refs d;
  merge_commit_trees_tables repo cs d r d' :
    merge_commit_trees repo cs d = (r, d') → extends d d' ∧ ops d' = ops d ∧ refs d' = refs d;
  new_commit_spec view parents tree sig message d id c view' d' :
    new_commit view parents tree sig message d = (Ok (id, c, view'), d') →
    extends d d' ∧ refs d' = refs d ∧ read_commit id d' = Ok c ∧ jc_parents c = parents ∧ jc_root_tree c = tree ∧ jc_author c = sig ∧
    jc_description c = message ∧ jv_local_bookmarks view' = jv_local_bookmarks view ∧ jv_local_tags view' = jv_local_tags view;
  add_head_spec view c d view' :
    add_head view c d = Ok view' →
    jv_local_bookmarks view' = jv_local_bookmarks view ∧ jv_local_tags view' = jv_local_tags view ∧ c.1 ∈ jv_head_ids view';
  commit_transaction_spec key repo view attributes description d id d' :
    commit_transaction key repo view attributes description d = (Ok id, d') →
    extends d d' ∧ ∃ op, read_operation key id d' = Ok op ∧ jo_parents op = [jr_op_id repo] ∧
      jm_description (jo_metadata op) = description ∧ jm_attributes (jo_metadata op) = attributes ∧
      read_view (jo_view_id op) d' = Ok (stored_view view) ∧
      (∀ heads, read_op_heads key d = Ok heads → read_op_heads key d' = Ok (updated_heads [jr_op_id repo] id heads));
}.

Section Publications.
Context {RM : JjRemotes} {L : JjLib} {C : JjCodec} {HX : Hex} {RT : JjRuntime} {TL : JjTreeLaws RT} {FMT : RustFmt}
  {XL : JjTxLaws RT} {HO : HashOrder} {E : Type}.

(** *** Steps that publish nothing *)

Definition quiet {E A} (m : dbm E A) : Prop :=
  ∀ d r d', m d = (r, d') → extends d d' ∧ ops d' = ops d ∧ refs d' = refs d.

Lemma quiet_get {E' A} (f : Inner → outcome E' A) : quiet (db_read f).
Proof. intros d r d' [= <- <-]. done. Qed.

Lemma quiet_lift {E' A} (r : outcome E' A) : quiet (db_lift r).
Proof. intros d r' d' [= <- <-]. done. Qed.

Lemma quiet_ret {E' A} (a : A) : quiet (mret a : dbm E' A).
Proof. intros d r d' [= <- <-]. done. Qed.

Lemma quiet_map_err {E1 E2 A} (f : E1 → E2) (m : dbm E1 A) : quiet m → quiet (db_map_err f m).
Proof.
  intros Hm d r d'. unfold db_map_err. destruct (m d) as [r1 d1] eqn:H. intros [= <- <-]. by apply Hm in H.
Qed.

Lemma quiet_dbm_bind {E' A B} (m : dbm E' A) (f : A → dbm E' B) : quiet m → (∀ a, quiet (f a)) → quiet (m ≫= f).
Proof.
  intros Hm Hf d r d'. unfold mbind, dbm_bind. destruct (m d) as [[a|e| |] d1] eqn:H; apply Hm in H as (He & Ho & Hr).
  - intros (He' & Ho' & Hr')%Hf. split_and!; [by eapply extends_trans|congruence|congruence].
  - by intros [= <- <-].
  - by intros [= <- <-].
  - by intros [= <- <-].
Qed.

Lemma quiet_write_file b : quiet (jj_write_file b).
Proof. apply quiet_map_err. intros d r d' [= <- <-]. split; [apply put_object_at_extends|done]. Qed.

Lemma quiet_builder base ov : quiet (builder_write_tree base ov).
Proof. intros d r d' H. by eapply builder_write_tree_tables. Qed.

Lemma quiet_merge m : quiet (merge_merged_trees m).
Proof. intros d r d' H. by eapply merge_merged_trees_tables. Qed.

Lemma quiet_merge_commits repo cs : quiet (merge_commit_trees repo cs).
Proof. intros d r d' H. by eapply merge_commit_trees_tables. Qed.

Create HintDb quiet.
#[local] Hint Resolve quiet_get quiet_lift quiet_ret quiet_map_err quiet_write_file quiet_builder quiet_merge quiet_merge_commits : quiet.

#[local] Ltac quiet :=
  repeat first [progress auto with quiet | apply quiet_dbm_bind; [auto with quiet|intros ?] | apply quiet_map_err].

Lemma quiet_operation_heads key ids : quiet (operation_heads key ids).
Proof.
  induction ids as [|i ids IH]; cbn [operation_heads]; [quiet|]. destruct (bool_decide _); [done|].
  unfold load_operation, operation_view, by_op_store. quiet.
Qed.

Lemma quiet_load_at key op : quiet (load_at key op).
Proof. unfold load_at, operation_view, by_op_store, by_text. quiet. Qed.

Lemma quiet_load_operation key id : quiet (load_operation key id).
Proof. unfold load_operation, by_op_store. quiet. Qed.

Lemma quiet_undo_target key ops n : quiet (undo_target key ops n).
Proof.
  unfold undo_target. destruct (ops !! n) as [op|]; [|quiet]. apply quiet_dbm_bind; [|quiet].
  destruct (ops !! S n); [apply quiet_load_at|]. unfold view_before.
  destruct (next_parent op.2); (apply quiet_dbm_bind; [apply quiet_load_operation|intros ?; apply quiet_load_at]).
Qed.

Lemma quiet_validate_revision key repo target : quiet (validate_revision_in_repo key repo target).
Proof. unfold validate_revision_in_repo. apply quiet_dbm_bind; [quiet|intros ids]. apply quiet_dbm_bind; [apply quiet_operation_heads|intros ?]. quiet. Qed.

Lemma quiet_resolve_ref key repo at_ref : quiet (resolve_ref key repo at_ref).
Proof. destruct at_ref; cbn [resolve_ref]; [quiet|quiet|]. apply quiet_dbm_bind; [quiet|intros c]. apply quiet_dbm_bind; [apply quiet_validate_revision|quiet]. Qed.

Lemma quiet_try_resolve key repo at_ref : quiet (try_resolve key repo at_ref).
Proof.
  intros d r d'. unfold try_resolve. destruct (resolve_ref key repo at_ref d) as [o d1] eqn:H.
  apply quiet_resolve_ref in H. destruct o as [?|[]| |]; by intros [= <- <-].
Qed.

Lemma quiet_get_commit id : quiet (get_commit id).
Proof. unfold get_commit, by_backend. quiet. Qed.

Lemma quiet_upserts s ups : ∀ ov, quiet (write_upserts s ups ov).
Proof. induction ups as [|[n b] ups IH]; intros ov; cbn [write_upserts]; quiet. Qed.

Lemma quiet_writes base writes : ∀ ov, quiet (apply_schema_writes base writes ov).
Proof.
  induction writes as [|[s e|s] writes IH]; intros ov; cbn [apply_schema_writes]; [quiet| |quiet].
  apply quiet_dbm_bind; [|done]. unfold jj_apply_effect. apply quiet_dbm_bind; [destruct (me_meta e); quiet|intros ov1].
  apply quiet_dbm_bind; [apply quiet_upserts|quiet].
Qed.

Lemma quiet_final base_id tip base_commit tree : quiet (final_tree_and_parents base_id tip base_commit tree).
Proof.
  unfold final_tree_and_parents, merge_trees, by_jj_lib. destruct tip as [tip|]; [|apply quiet_ret].
  destruct (bool_decide _); [apply quiet_ret|]. apply quiet_dbm_bind; [apply quiet_get_commit|intros c].
  apply quiet_dbm_bind; [|intros t; apply quiet_ret]. apply quiet_map_err, quiet_merge.
Qed.

(** *** Publications and their policies *)

(** Every way to move a bookmark under a policy. *)
Inductive jj_publication :=
  | PubWrites (bookmark : string) (base : RefSpec) (writes : list SchemaWrite) (author message : string) (attributes : gmap string string)
  | PubMerge (src dst author message : string) (attributes : gmap string string)
  | PubCreate (name : string) (from : RefSpec) (author : string)
  | PubMove (name : string) (to : RefSpec) (author : string)
  | PubUndo (author : string).

Definition run_publication (now : JjTimestamp) (project repo : string) (p : jj_publication)
    (validate : string → PublicationSnapshot → outcome E unit) : dbm (PublicationError E) unit :=
  match p with
  | PubWrites bookmark base writes author message attributes =>
    _ ← commit_schema_changes_validated now project repo bookmark base writes author message attributes (validate bookmark);
    mret tt
  | PubMerge src dst author message attributes =>
    _ ← merge_with_attributes_validated now project repo src dst author message attributes (validate dst);
    mret tt
  | PubCreate name from author => _ ← create_bookmark_validated project repo name from author (validate name); mret tt
  | PubMove name to author => _ ← move_bookmark_validated project repo name to author (validate name); mret tt
  | PubUndo author => _ ← undo_validated project repo author validate; mret tt
  end.

Section Gate.
Context (key : string) (repo : jj_repo) (validate : string → PublicationSnapshot → outcome E unit).

(** The policy of a bookmark accepted the tree of this commit. *)
Definition accepted (name : string) (id : list byte) (d : Inner) : Prop :=
  ∃ commit known conflicted d2, read_commit id d = Ok commit ∧ extends d2 d ∧
    validate name (snapshot_of (jc_root_tree commit) known conflicted d2) = Ok tt.

(** The policy accepted what every changed bookmark of the view points to. *)
Definition gated (view : JjView) (d : Inner) : Prop :=
  ∀ name id others,
    get_local_bookmark view name ≠ get_local_bookmark (jr_view repo) name →
    added_ids (get_local_bookmark view name) = id :: others → accepted name id d.

(** The log has a new head on top of the operation that was loaded, and its view
    has passed the policy. *)
Definition jj_published (d d' : Inner) : Prop :=
  ∃ op_id op view, read_operation key op_id d' = Ok op ∧ jo_parents op = [jr_op_id repo] ∧
    read_view (jo_view_id op) d' = Ok view ∧ gated view d' ∧
    (∀ heads, read_op_heads key d = Ok heads → read_op_heads key d' = Ok (updated_heads [jr_op_id repo] op_id heads)).

(** Only objects were added: the log and its heads are the same. *)
Definition unpublished (d d' : Inner) : Prop := extends d d' ∧ ops d' = ops d ∧ refs d' = refs d.

Definition rejected (e : E) : Prop :=
  ∃ name tree known conflicted d, validate name (snapshot_of tree known conflicted d) = Err e.

(** What the rest of a publication does from a database on. *)
Definition guarded {A} (d : Inner) (m : dbm (PublicationError E) A) : Prop :=
  ∀ r d', m d = (r, d') →
  match r with
  | Ok _ => jj_published d d'
  | Err (PubRejected e) => rejected e ∧ unpublished d d'
  | _ => True
  end.

(** A step before the policy runs. *)
Definition silent {A} (m : dbm (PublicationError E) A) : Prop := quiet m ∧ ∀ d e d', m d ≠ (Err (PubRejected e), d').

Lemma unpublished_trans d1 d2 d3 : unpublished d1 d2 → unpublished d2 d3 → unpublished d1 d3.
Proof. intros (He & Ho & Hr) (He' & Ho' & Hr'). split_and!; [by eapply extends_trans|congruence|congruence]. Qed.

Lemma silent_pub {A} (m : dbm JjError A) : quiet m → silent (pub m).
Proof.
  intros Hm. split; [by apply quiet_map_err|]. intros d e d'. unfold pub, db_map_err. by destruct (m d) as [[] ?].
Qed.

Lemma silent_ret {A} (a : A) : silent (mret a).
Proof. split; [apply quiet_ret|done]. Qed.

Lemma silent_bind {A B} (m : dbm (PublicationError E) A) (f : A → dbm (PublicationError E) B) :
  silent m → (∀ a, silent (f a)) → silent (m ≫= f).
Proof.
  intros [Hq Hn] Hf. split; [apply quiet_dbm_bind; [done|]; intros a; apply Hf|]. intros d e d'. unfold mbind, dbm_bind.
  pose proof (Hn d) as Hn'. destruct (m d) as [[a|e'| |] d1]; [by apply Hf| |done..]. intros [= -> _]. by eapply Hn'.
Qed.

Lemma silent_known tree : silent (known_in_tree tree).
Proof. apply silent_bind; [by apply silent_pub, quiet_get|intros ?; apply silent_ret]. Qed.

Lemma silent_known_commits ids : silent (known_of_commits ids).
Proof.
  induction ids as [|i ids IH]; cbn [known_of_commits]; [apply silent_ret|].
  apply silent_bind; [apply silent_pub, quiet_get_commit|intros c]. apply silent_bind; [apply silent_known|intros n].
  apply silent_bind; [done|intros r; apply silent_ret].
Qed.

Lemma published_after d1 d2 d' : unpublished d1 d2 → jj_published d2 d' → jj_published d1 d'.
Proof.
  intros (_ & _ & Hr) (i & op & v & ? & ? & ? & ? & Hh). exists i, op, v. split_and!; try done.
  intros heads Hd. apply Hh. rewrite <- Hd. unfold read_op_heads, get_ref. by rewrite Hr.
Qed.

(** A silent step keeps what follows guarded. *)
Lemma guarded_bind {A B} (m : dbm (PublicationError E) A) (f : A → dbm (PublicationError E) B) d :
  silent m → (∀ a d1, unpublished d d1 → m d = (Ok a, d1) → guarded d1 (f a)) → guarded d (m ≫= f).
Proof.
  intros [Hq Hn] Hf r d'. unfold mbind, dbm_bind. destruct (m d) as [[a|e| |] d1] eqn:H.
  - pose proof (Hq _ _ _ H) as Hu. intros Hr. specialize (Hf a d1 Hu eq_refl r d' Hr).
    destruct r as [?|[|e]| |]; [by eapply published_after|done| |done..]. destruct Hf as [? ?]. split; [done|].
    by eapply unpublished_trans.
  - intros [= <- <-]. destruct e; [done|]. by apply Hn in H.
  - by intros [= <- <-].
  - by intros [= <- <-].
Qed.

(** What follows the policy may rely on its acceptance. *)
Lemma guarded_policy {A} name tree known conflicted d (f : unit → dbm (PublicationError E) A) :
  (validate name (snapshot_of tree known conflicted d) = Ok tt → guarded d (f tt)) →
  guarded d (run_policy (validate name) tree known conflicted ≫= f).
Proof.
  intros Hf r d'. unfold run_policy, mbind, dbm_bind, db_read.
  destruct (validate name (snapshot_of tree known conflicted d)) as [[]|e| |] eqn:Hv; cbn.
  - by apply Hf.
  - intros [= <- <-]. split; [|done]. by exists name, tree, known, conflicted, d.
  - by intros [= <- <-].
  - by intros [= <- <-].
Qed.

Lemma read_commit_extends id d d' c : extends d d' → read_commit id d = Ok c → read_commit id d' = Ok c.
Proof.
  intros He. unfold read_commit. case_bool_decide as Hroot; [done|]. intros H. apply bind_Ok in H as (b & Hb%map_err_Ok & H).
  by rewrite (get_object_extends _ _ _ _ _ He Hb).
Qed.

Lemma accepted_extends name id d d' : extends d d' → accepted name id d → accepted name id d'.
Proof.
  intros He (c & known & conflicted & d2 & Hc & He2 & Hv). exists c, known, conflicted, d2.
  split_and!; [by eapply read_commit_extends|by eapply extends_trans|done].
Qed.

(** A step that runs no policy rejects nothing. *)
Lemma guarded_pub {A} (m : dbm JjError A) d : (∀ a d', m d = (Ok a, d') → jj_published d d') → guarded d (pub m).
Proof.
  intros Hm r d'. unfold pub, db_map_err. destruct (m d) as [[a|e| |] d1]; cbn; intros [= <- <-]; [by eapply Hm|done..].
Qed.

(** Committing a view that has passed the policy. *)
Lemma commit_tx_publishes view attributes description d s d' :
  gated view d → commit_tx key repo view attributes description d = (Ok s, d') → jj_published d d'.
Proof.
  intros Hg (id & d1 & Htx%db_map_err_Ok & [= <- <-])%dbm_bind_Ok.
  apply commit_transaction_spec in Htx as (He & op & Hop & Hp & _ & _ & Hv & Hh). exists id, op, (stored_view view).
  split_and!; try done. intros name i others Hn Ha. eapply accepted_extends, Hg; done.
Qed.

Lemma guarded_commit {A} view attributes description d (f : string → A) :
  gated view d → guarded d (s ← pub (commit_tx key repo view attributes description); mret (f s)).
Proof.
  intros Hg. pose proof (guarded_pub (commit_tx key repo view attributes description) d
    (λ s d', commit_tx_publishes view attributes description d s d' Hg)) as Hp. intros r d'.
  unfold mbind, dbm_bind. specialize (Hp _ _ (surjective_pairing _)).
  destruct (pub (commit_tx key repo view attributes description) d) as [[s|e| |] d1]; by intros [= <- <-].
Qed.

Lemma gated_single view name id d :
  jv_local_bookmarks view = set_ref_target (jv_local_bookmarks (jr_view repo)) name [Some id] → accepted name id d → gated view d.
Proof.
  intros Hv Ha name' i others Hn Hi. unfold get_local_bookmark in *. rewrite Hv in Hn, Hi.
  unfold set_ref_target, ref_is_absent in Hn, Hi. rewrite bool_decide_eq_false_2 in Hn, Hi by done.
  destruct (decide (name' = name)) as [->|Hne].
  - rewrite lookup_insert_eq in Hi. cbn in Hi. by injection Hi as <- <-.
  - by rewrite lookup_insert_ne in Hn.
Qed.

Lemma guarded_publish now bookmark author message description attributes parents tree conflicted known c d :
  validate bookmark (snapshot_of tree known c d) = Ok tt →
  guarded d (pub (publish_commit key repo now bookmark author message description attributes parents tree conflicted)).
Proof.
  intros Hv. apply guarded_pub. intros w d' ([[id cm] view] & d1 & Hn%db_map_err_Ok & H)%dbm_bind_Ok.
  apply new_commit_spec in Hn as (He & Hrefs & Hc & _ & Ht & _ & _ & Hb & _). cbn [fst snd] in H.
  apply dbm_bind_Ok in H as (view' & d2 & [Ha%map_err_Ok ->]%db_read_Ok & H).
  apply add_head_spec in Ha as (Hb' & _). apply dbm_bind_Ok in H as (s & d2' & Htx & [= <- <-]).
  apply commit_tx_publishes in Htx as (i & op & v & ? & ? & ? & ? & Hh).
  - exists i, op, v. split_and!; try done. intros heads Hd. apply Hh. rewrite <- Hd. unfold read_op_heads, get_ref. by rewrite Hrefs.
  - eapply gated_single; [rewrite Hb'; cbn; by rewrite Hb|]. exists cm, known, c, d. split_and!; [done|done|]. by rewrite Ht.
Qed.

Lemma guarded_ext {A} (m m' : dbm (PublicationError E) A) d : m d = m' d → guarded d m → guarded d m'.
Proof. intros Hm Hg r d' H. apply Hg. by rewrite Hm. Qed.

Lemma dbm_bind_assoc {A B D} (m : dbm (PublicationError E) A) (f : A → dbm (PublicationError E) B)
    (g : B → dbm (PublicationError E) D) d : (m ≫= λ a, f a ≫= g) d = ((m ≫= f) ≫= g) d.
Proof. unfold mbind, dbm_bind. by destruct (m d) as [[] ?]. Qed.

(** Running the policies of a list of bookmarks. *)
Lemma guarded_check {A} current l (rest : unit → dbm (PublicationError E) A) : ∀ d,
  (∀ d1, unpublished d d1 →
     (∀ name target id others, (name, target) ∈ l → added_ids target = id :: others → accepted name id d1) → guarded d1 (rest tt)) →
  guarded d (check_bookmarks validate current l ≫= rest).
Proof.
  induction l as [|[name target] l IH]; intros d Hrest; cbn [check_bookmarks].
  { apply (guarded_ext (rest tt)); [done|]. apply Hrest; [done|]. by intros ? ? ? ? ?%not_elem_of_nil. }
  destruct (added_ids target) as [|id others] eqn:Hids.
  { apply IH. intros d1 Hu Hall. apply Hrest; [done|]. intros n t i o [[= -> ->]|Hin]%elem_of_cons Hi; [congruence|by eapply Hall]. }
  eapply guarded_ext; [apply dbm_bind_assoc|]. apply guarded_bind; [apply silent_pub, quiet_get_commit|].
  intros c d1 Hu1 (c' & d1' & [Hc%map_err_Ok ->]%db_read_Ok & [= <- <-])%db_map_err_Ok%dbm_bind_Ok.
  eapply guarded_ext; [apply dbm_bind_assoc|]. apply guarded_bind; [apply silent_known|]. intros names d2 Hu2 _.
  eapply guarded_ext; [apply dbm_bind_assoc|].
  apply guarded_bind; [destruct (bool_decide _); [apply silent_known_commits|apply silent_ret]|]. intros more d3 Hu3 _.
  eapply guarded_ext; [apply dbm_bind_assoc|]. apply guarded_policy. intros Hv. apply IH. intros d4 Hu4 Hall.
  apply Hrest; [eauto using unpublished_trans|]. intros n t i o [[= -> ->]|Hin]%elem_of_cons Hi; [|by eapply Hall].
  rewrite Hids in Hi. injection Hi as <- <-. exists c'. eexists _, _, d3. split_and!; [| |exact Hv].
  - eapply read_commit_extends; [|done]. eapply extends_trans; [apply Hu2|]. eapply extends_trans; [apply Hu3|apply Hu4].
  - apply Hu4.
Qed.
End Gate.

Lemma loaded_gate {A} key validate (body : jj_repo → dbm (PublicationError E) A) d r d' :
  (∀ jr d1, guarded key jr validate d1 (body jr)) →
  (_ ← (jr ← pub (load_repo key); body jr); mret tt) d = (r, d') →
  match r with
  | Ok _ => ∃ jr d1, load_repo key d = (Ok jr, d1) ∧ jj_published key jr validate d1 d'
  | Err (PubRejected e) => rejected validate e ∧ ∃ jr d1, load_repo key d = (Ok jr, d1) ∧ unpublished d1 d'
  | _ => True
  end.
Proof.
  intros Hbody. unfold mbind, dbm_bind, pub, db_map_err. destruct (load_repo key d) as [[jr|e| |] d1]; cbn; [|by intros [= <- <-]..].
  destruct (body jr d1) as [[a|e| |] d2] eqn:Hb; apply Hbody in Hb; cbn in Hb; intros [= <- <-]; [by eauto|..|done|done].
  destruct e; [done|]. destruct Hb. eauto.
Qed.

(** *** Every publication passes the gate *)

Section Gated.
Context (key : string) (validate : string → PublicationSnapshot → outcome E unit) (jr : jj_repo).

(** A bookmark that is set to a commit the policy has accepted. *)
Lemma guarded_set_bookmark {A} name id c known conflicted d0 d attributes description (f : string → A) :
  read_commit id d0 = Ok c → extends d0 d → validate name (snapshot_of (jc_root_tree c) known conflicted d) = Ok tt →
  guarded key jr validate d
    (s ← pub (commit_tx key jr (set_local_bookmark_target (jr_view jr) name [Some id]) attributes description); mret (f s)).
Proof.
  intros Hc He Hv. apply guarded_commit. eapply gated_single; [done|]. exists c, known, conflicted, d.
  split_and!; [by eapply read_commit_extends|done|done].
Qed.

Lemma get_commit_Ok id c d d' : pub (E := E) (get_commit id) d = (Ok c, d') → read_commit id d' = Ok c.2 ∧ c.1 = id.
Proof. by intros (c' & d1 & [Hc%map_err_Ok ->]%db_read_Ok & [= <- <-])%db_map_err_Ok%dbm_bind_Ok. Qed.
End Gated.

#[local] Hint Resolve quiet_try_resolve quiet_resolve_ref quiet_get_commit quiet_writes quiet_final quiet_undo_target : quiet.

#[local] Ltac silent :=
  first [apply silent_known | apply silent_pub; unfold by_jj_lib;
    first [by auto with quiet | case_match; [apply quiet_dbm_bind; [apply quiet_get_commit|intros ?; apply quiet_ret]|apply quiet_ret]]].

#[local] Ltac gate :=
  repeat first [match goal with |- guarded _ _ _ _ (let '(_, _) := ?x in _) => destruct x end |
                apply guarded_bind; [silent|intros ? ? [? _] ?]].

(** The target of a bookmark was read before the policy ran. *)
#[local] Ltac target_commit :=
  match goal with Hc : pub (get_commit ?id) _ = (Ok ?c, _), Hv : context [commit_tree ?c] |- context [[Some ?id]] =>
    apply get_commit_Ok in Hc as [Hc _]; eapply guarded_set_bookmark; [exact Hc|eauto using extends_trans, extends_refl|exact Hv] end.

Lemma undo_gated key jr validate (view : JjView) author undone (x : string) d :
  guarded key jr validate d
    (_ ← check_bookmarks validate (jr_view jr) (btree_iter (jv_local_bookmarks view));
     _ ← pub (commit_tx key jr view (record_author author ∅) undone);
     mret x).
Proof.
  apply guarded_check. intros d1 _ Hall. apply guarded_commit. intros name id others _ Hid. unfold get_local_bookmark in Hid.
  destruct (jv_local_bookmarks view !! name) as [t|] eqn:Ht; [|done]. eapply Hall; [by apply elem_of_btree_iter|done].
Qed.

(** C3. A write, a merge, a new or moved bookmark and an undo run their policy on
    what they publish: when one returns, the log has a new operation on top of the
    one that was loaded, it replaced that one among the heads, and every bookmark
    whose target differs points to a commit whose tree the policy of this bookmark
    accepted; when the policy rejects, at most objects were stored and the log and
    its heads are those after loading the repository. *)
Theorem jj_publications_are_gated now project repo p (validate : string → PublicationSnapshot → outcome E unit) d r d' :
  run_publication now project repo p validate d = (r, d') →
  match r with
  | Ok _ => ∃ jr d1, load_repo (repo_key project repo) d = (Ok jr, d1) ∧ jj_published (repo_key project repo) jr validate d1 d'
  | Err (PubRejected e) =>
    rejected validate e ∧ ∃ jr d1, load_repo (repo_key project repo) d = (Ok jr, d1) ∧ unpublished d1 d'
  | _ => True
  end.
Proof.
  destruct p as [bookmark base writes author message attributes|src dst author message attributes|name from author|name to author|author];
    unfold run_publication; apply loaded_gate; intros jr d1; cbn zeta; gate.
  - apply guarded_policy. by apply guarded_publish.
  - apply guarded_policy. by apply guarded_publish.
  - apply guarded_policy. intros Hv. target_commit.
  - apply guarded_policy. intros Hv. target_commit.
  - apply undo_gated.
Qed.
End Publications.

(** ** The walks return *)

(** Documented: decoding, labels and path components give a value, an error or a
    panic. *)
Class JjReturns `{JjRemotes} (L : JjLib) (C : JjCodec) : Prop := {
  tree_decode_returns bytes : tree_decode bytes ≠ Stuck;
  commit_decode_returns bytes : commit_decode bytes ≠ Stuck;
  operation_from_json_returns bytes : operation_from_json bytes ≠ Stuck;
  hex_decode_returns s : hex_decode s ≠ Stuck;
  component_new_returns s : component_new s ≠ Stuck;
  jj_labels_returns {E} labels : jj_labels (E := E) labels ≠ Stuck;
}.

(** The number of elements that are not seen yet. *)
Definition unseen {A} (seen : A → bool) (l : list A) : nat := length (List.filter (λ x, negb (seen x)) l).

Lemma unseen_le {A} (f g : A → bool) l : (∀ x, f x = true → g x = true) → (unseen g l ≤ unseen f l)%nat.
Proof.
  intros Hfg. unfold unseen. induction l as [|x l IH]; cbn; [lia|]. specialize (Hfg x).
  destruct (f x), (g x); cbn; first [lia|by specialize (Hfg eq_refl)].
Qed.

Lemma unseen_lt {A} (f g : A → bool) x l :
  (∀ y, f y = true → g y = true) → x ∈ l → f x = false → g x = true → (unseen g l < unseen f l)%nat.
Proof.
  intros Hfg Hin Hf Hg. induction Hin as [y l|y z l Hin IH]; unfold unseen in *; cbn.
  - rewrite Hf, Hg. cbn. pose proof (unseen_le f g l Hfg). unfold unseen in *. lia.
  - specialize (IH Hf Hg). pose proof (Hfg z) as Hz. destruct (f z), (g z); cbn; first [lia|by specialize (Hz eq_refl)].
Qed.

Lemma unseen_length {A} (f : A → bool) l : (unseen f l ≤ length l)%nat.
Proof. unfold unseen. induction l as [|x l IH]; cbn; [lia|]. destruct (f x); cbn; lia. Qed.

Section Returns.
Context {RM : JjRemotes} {L : JjLib} {C : JjCodec} {HX : Hex} {RT : JjRuntime} {FMT : RustFmt} {HO : HashOrder}
  {LL : JjLaws L C HX} {HL : JjHeadLaws RT} {JR : JjReturns L C}.

Lemma bind_not_stuck {E A B} (m : outcome E A) (f : A → outcome E B) :
  m ≠ Stuck → (∀ a, m = Ok a → f a ≠ Stuck) → (m ≫= f) ≠ Stuck.
Proof. intros Hm Hf. destruct m; cbn; [by apply Hf|done..]. Qed.

Lemma map_err_not_stuck {E E' A} (f : E → E') (m : outcome E A) : m ≠ Stuck → map_err f m ≠ Stuck.
Proof. by destruct m. Qed.

Lemma mapM_not_stuck {E A B} (f : A → outcome E B) l : (∀ a, f a ≠ Stuck) → mapM f l ≠ Stuck.
Proof.
  intros Hf. induction l as [|a l IH]; [done|]. cbn. apply bind_not_stuck; [done|]. intros b _.
  by apply bind_not_stuck.
Qed.

Lemma ok_or_not_stuck {E A} (o : option A) (e : E) : ok_or o e ≠ Stuck.
Proof. by destruct o. Qed.

Lemma fail_if_not_stuck {E} b (e : E) : fail_if b e ≠ Stuck.
Proof. by destruct b. Qed.

Lemma fmap_not_stuck {E A B} (f : A → B) (m : outcome E A) : m ≠ Stuck → f <$> m ≠ Stuck.
Proof. by destruct m. Qed.

Lemma valid_id_returns what n id : valid_id what n id ≠ Stuck.
Proof. unfold valid_id, validate_id_length. apply bind_not_stuck; [by destruct (negb _)|done]. Qed.

Lemma decode_hex_id_returns what s n : decode_hex_id what s n ≠ Stuck.
Proof.
  unfold decode_hex_id. apply bind_not_stuck; [apply map_err_not_stuck, hex_decode_returns|intros b _].
  by apply bind_not_stuck; [apply fail_if_not_stuck|].
Qed.

Lemma signature_returns p : signature_from_proto p ≠ Stuck.
Proof. unfold signature_from_proto. by apply bind_not_stuck; [apply ok_or_not_stuck|]. Qed.

Lemma merge_from_vec_returns {E A} (l : list A) : merge_from_vec (E := E) l ≠ Stuck.
Proof. unfold merge_from_vec. by destruct (Nat.odd _). Qed.

(** Returning, by the form of the term. *)
#[local] Ltac returns :=
  first
    [ done | apply ok_or_not_stuck | apply fail_if_not_stuck | apply valid_id_returns | apply decode_hex_id_returns
    | apply signature_returns | apply merge_from_vec_returns | apply tree_decode_returns | apply commit_decode_returns
    | apply operation_from_json_returns | apply component_new_returns | apply jj_labels_returns
    | apply map_err_not_stuck; returns | apply fmap_not_stuck; returns | apply mapM_not_stuck; intros ?; returns
    | apply bind_not_stuck; [returns|intros ? _; returns] | case_match; returns ].

Lemma read_commit_returns id d : read_commit id d ≠ Stuck.
Proof. unfold read_commit, get_object, commit_from_proto. cbv zeta. returns. Qed.

Lemma read_tree_returns id d : read_tree id d ≠ Stuck.
Proof. unfold read_tree, get_object, tree_from_proto, tree_entry_from_proto, tree_value_from_proto. returns. Qed.

Lemma read_operation_returns key id d : read_operation key id d ≠ Stuck.
Proof. unfold read_operation, get_op, try_into_operation. returns. Qed.

(** *** Stored ids *)

Lemma read_commit_stored id d c : read_commit id d = Ok c → id ∈ root_commit_id :: list_objects Commit d.
Proof.
  unfold read_commit. case_bool_decide as Hr; [subst; by left|]. intros H. apply bind_Ok in H as (b & Hb%map_err_Ok & _).
  right. apply elem_of_list_objects. unfold get_object in Hb. apply ok_or_Ok in Hb. by exists b.
Qed.

Lemma read_tree_stored id d t : read_tree id d = Ok t → id ∈ list_objects Tree d.
Proof.
  intros H. apply bind_Ok in H as (b & Hb%map_err_Ok & _). apply elem_of_list_objects. unfold get_object in Hb.
  apply ok_or_Ok in Hb. by exists b.
Qed.

Lemma read_operation_stored key id d op : read_operation key id d = Ok op → id = root_operation_id ∨ id ∈ list_ops key d.
Proof.
  unfold read_operation. case_bool_decide as Hr; [by left|]. intros H. right. apply bind_Ok in H as (b & Hb%map_err_Ok & _).
  unfold get_op in Hb. apply ok_or_Ok in Hb. unfold list_ops. destruct (ops d !! key) as [m|]; [|done]. cbn in Hb.
  apply list_elem_of_fmap. exists (id, b). split; [done|]. by apply elem_of_hash_iter.
Qed.

(** *** Walks over commits *)

Definition in_seen (seen : gset (list byte)) (id : list byte) : bool := bool_decide (id ∈ seen).

Lemma in_seen_add seen x : ∀ y, in_seen seen y = true → in_seen ({[ x ]} ∪ seen) y = true.
Proof. unfold in_seen. intros y Hy%bool_decide_eq_true. apply bool_decide_eq_true. set_solver. Qed.

Lemma unseen_step seen x l : x ∈ l → x ∉ seen → (unseen (in_seen ({[ x ]} ∪ seen)) l < unseen (in_seen seen) l)%nat.
Proof.
  intros Hin Hx. eapply unseen_lt; [apply in_seen_add|done|by apply bool_decide_eq_false|]. apply bool_decide_eq_true. set_solver.
Qed.

Lemma revision_walk_returns target d queue : walk (revision_step target d) (commit_fuel d) (∅, false) queue ≠ Stuck.
Proof.
  set (l := root_commit_id :: list_objects Commit d).
  apply (walk_returns _ (λ _ _, True) (λ s _, unseen (in_seen s.1) l)); [..|done|].
  - intros [seen b] id q _. unfold revision_step. pose proof (read_commit_returns id d).
    destruct (bool_decide _); [done|]. destruct (bool_decide _); [done|]. by destruct (read_commit id d) as [|[]| |].
  - intros [seen b] id q step _ H. unfold revision_step in H. case_bool_decide as Hs; [by injection H as <-|].
    case_bool_decide as Ht; [by injection H as <-|].
    destruct (read_commit id d) as [c|[]| |] eqn:Hc; try done; injection H as <-; (split; [done|]); cbn [fst].
    + apply unseen_step; [by eapply read_commit_stored|done].
    + apply unseen_le, in_seen_add.
  - cbn [fst]. pose proof (unseen_length (in_seen ∅) l). subst l. unfold commit_fuel. cbn in *. lia.
Qed.

Lemma commit_log_walk_returns limit d queue : walk (commit_log_step limit d) (commit_fuel d) (∅, []) queue ≠ Stuck.
Proof.
  set (l := root_commit_id :: list_objects Commit d).
  apply (walk_returns _ (λ _ _, True) (λ s _, unseen (in_seen s.1) l)); [..|done|].
  - intros [seen out] id q _. unfold commit_log_step. case_match; [done|]. case_match; [done|].
    apply bind_not_stuck; [apply map_err_not_stuck, read_commit_returns|done].
  - intros [seen out] id q step _ H. unfold commit_log_step in H. destruct (_ || _) eqn:Hor in H; [by injection H as <-|].
    case_match; [by injection H as <-|]. apply bind_Ok in H as (c & Hc%map_err_Ok & [= <-]). split; [done|]. cbn [fst].
    apply orb_false_iff in Hor as [_ Hs%bool_decide_eq_false]. apply unseen_step; [by eapply read_commit_stored|done].
  - cbn [fst]. pose proof (unseen_length (in_seen ∅) l). subst l. unfold commit_fuel. cbn in *. lia.
Qed.

(** *** Walks over operations *)

Lemma read_op_at_inv key d id x : read_op_at key d id = Ok x → x.1 = id ∧ read_operation key id d = Ok x.2.
Proof. unfold read_op_at. intros H. apply bind_Ok in H as (op & Hop%map_err_Ok & [= <-]). done. Qed.

Lemma read_op_at_returns key d id : read_op_at key d id ≠ Stuck.
Proof. unfold read_op_at. apply bind_not_stuck; [apply map_err_not_stuck, read_operation_returns|done]. Qed.

Section Operations.
Context (key : string) (d : Inner) (start : list byte * JjOperation).

(** The ids a walk can meet, besides the root. *)
Let met := start.1 :: list_ops key d.

Lemma operations_walk_returns : walk (operations_step key d) (operation_fuel key d) (∅, []) [start] ≠ Stuck.
Proof.
  apply (walk_returns _ (λ _ q, ∀ x, x ∈ q → x.1 = root_operation_id ∨ x.1 ∈ met) (λ s _, unseen (in_seen s.1) met)).
  - intros [seen chain] x q _. unfold operations_step. case_match; [done|].
    apply bind_not_stuck; [apply mapM_not_stuck; intros id; apply read_op_at_returns|done].
  - intros [seen chain] x q step HI H. unfold operations_step in H. destruct (_ || _) eqn:Hor in H.
    { injection H as <-. split; [|done]. intros y Hy. apply HI. by right. }
    apply bind_Ok in H as (parents & Hp & [= <-]). apply orb_false_iff in Hor as [Hr%bool_decide_eq_false Hs%bool_decide_eq_false].
    split; cbn [fst].
    + intros y [Hy|Hy]%elem_of_app; [|apply HI; by right]. rewrite elem_of_reverse in Hy.
      assert (Forall (λ y, y.1 = root_operation_id ∨ y.1 ∈ met) parents) as Hall; [|by apply (proj1 (Forall_forall _ _) Hall)].
      eapply mapM_Forall; [|exact Hp]. intros id z _ [Hz Hrd]%read_op_at_inv. rewrite Hz.
      destruct (read_operation_stored _ _ _ _ Hrd); [by left|by right; right].
    + destruct (HI x) as [?|Hin]; [by left|done|]. by apply unseen_step.
  - intros x ->%list_elem_of_singleton. right. by left.
  - cbn [fst]. pose proof (unseen_length (in_seen ∅) met). unfold met in *. unfold operation_fuel. cbn in *. lia.
Qed.

Lemma walk_tail_fueled limit : ∀ fuel seen newest x,
  x.1 = root_operation_id ∨ x.1 ∈ met → (unseen (in_seen seen) met ≤ fuel)%nat →
  walk_tail key limit d fuel seen newest x ≠ Stuck.
Proof.
  induction fuel as [|fuel IH]; intros seen newest x Hx Hf; cbn [walk_tail]; (destruct (_ || _) eqn:Hor; [done|]);
    apply orb_false_iff in Hor as [Hr%bool_decide_eq_false _];
    (case_bool_decide as Hs; [done|]); (case_match; [done|]); destruct (live_parents x.2) as [|p [|]]; try done;
    destruct Hx as [?|Hin]; try done;
    pose proof (unseen_step seen x.1 met Hin Hs); [lia|].
  apply bind_not_stuck; [apply read_op_at_returns|]. intros y [Hy Hrd]%read_op_at_inv. apply IH; [|lia].
  rewrite Hy. destruct (read_operation_stored _ _ _ _ Hrd); [by left|by right; right].
Qed.

Lemma tail_walk_returns limit : walk_tail key limit d (operation_fuel key d) ∅ [] start ≠ Stuck.
Proof.
  apply walk_tail_fueled; [right; by left|]. pose proof (unseen_length (in_seen ∅) met). unfold met in *. unfold operation_fuel.
  cbn in *. lia.
Qed.
End Operations.

(** *** Marking *)

(** A loop that returns as long as a property holds of its state. *)
Lemma foldl_returns {E A B} (f : A → B → outcome E A) (P : A → Prop) l :
  (∀ a x, P a → f a x ≠ Stuck) → (∀ a x a', P a → f a x = Ok a' → P a') →
  ∀ a, P a → foldl (λ acc x, a ← acc; f a x) (Ok a) l ≠ Stuck.
Proof.
  intros Hret Hkeep. assert (∀ l (r : outcome E A), (∀ a, r ≠ Ok a) → r ≠ Stuck →
    foldl (λ acc x, a ← acc; f a x) r l ≠ Stuck) as Hother.
  { clear. induction l as [|x l IH]; intros r Hr Hs; [done|]. cbn [foldl]. apply IH; destruct r; cbn; try done; by edestruct Hr. }
  induction l as [|x l IH]; intros a Ha; [done|]. cbn [foldl mbind outcome_bind].
  pose proof (Hret a x Ha). destruct (f a x) as [a'|e| |] eqn:Hf; [by eapply IH, Hkeep|by apply Hother..|done].
Qed.

Section Marking.
Context (d : Inner).

Definition tree_marked (trees : gset string) (id : list byte) : bool := bool_decide (id_hex id ∈ trees).

Lemma tree_marked_mono (trees trees' : gset string) : trees ⊆ trees' → ∀ y, tree_marked trees y = true → tree_marked trees' y = true.
Proof. unfold tree_marked. intros Hs y Hy%bool_decide_eq_true. apply bool_decide_eq_true. set_solver. Qed.

Lemma mark_entries_returns fuel :
  (∀ marks id, (unseen (tree_marked marks.1) (list_objects Tree d) ≤ fuel)%nat → mark_tree d fuel marks id ≠ Stuck) →
  ∀ entries marks, (unseen (tree_marked marks.1) (list_objects Tree d) ≤ fuel)%nat →
    foldl (mark_entry d fuel) (Ok marks) entries ≠ Stuck.
Proof.
  intros IH entries marks Hf.
  apply (foldl_returns (λ marks entry, mark_entry d fuel (Ok marks) entry)
           (λ marks, (unseen (tree_marked marks.1) (list_objects Tree d) ≤ fuel)%nat)); [| |done].
  - intros m [name v] Hm. destruct v; cbn; try done. by apply IH.
  - intros m [name v] m' Hm H. assert (m.1 ⊆ m'.1) as Hsub.
    { destruct v; cbn in H; try (by injection H as <-). by apply (mark_tree_spec d []) in H as [[(? & _) _] _]. }
    pose proof (unseen_le _ _ (list_objects Tree d) (tree_marked_mono _ _ Hsub)). lia.
Qed.

Lemma mark_tree_returns fuel : ∀ marks id,
  (unseen (tree_marked marks.1) (list_objects Tree d) ≤ fuel)%nat → mark_tree d fuel marks id ≠ Stuck.
Proof.
  induction fuel as [|fuel IH]; intros [trees files] id Hf; cbn [mark_tree]; (case_bool_decide as Hin; [done|]);
    (apply bind_not_stuck; [apply map_err_not_stuck, read_tree_returns|]); intros tree Ht%map_err_Ok;
    pose proof (read_tree_stored _ _ _ Ht) as Hst;
    assert (unseen (tree_marked ({[ id_hex id ]} ∪ trees)) (list_objects Tree d) < unseen (tree_marked trees) (list_objects Tree d))%nat
      as Hlt by (eapply unseen_lt; [apply tree_marked_mono; set_solver|done|by apply bool_decide_eq_false|
        apply bool_decide_eq_true; set_solver]); cbn [fst] in Hf; [lia|].
  change (foldl (mark_entry d fuel) (Ok ({[ id_hex id ]} ∪ trees, files)) tree ≠ Stuck).
  apply mark_entries_returns; [done|]. cbn [fst]. lia.
Qed.

Lemma mark_roots_returns ids marks :
  foldl (λ acc tree_id, marks ← acc; mark_tree d (tree_fuel d) marks tree_id) (Ok marks) ids ≠ Stuck.
Proof.
  apply (foldl_returns (mark_tree d (tree_fuel d)) (λ _, True)); [|done|done]. intros m id _. apply mark_tree_returns.
  pose proof (unseen_length (tree_marked m.1) (list_objects Tree d)). unfold tree_fuel. lia.
Qed.

(** A commit is done when it is marked and not queued. *)
Definition commit_marked (m : gc_marks) (queue : list string) (id : list byte) : bool :=
  bool_decide (id_hex id ∈ gm_commits m ∧ id_hex id ∉ queue).

Definition queue_ok (m : gc_marks) (queue : list string) : Prop :=
  NoDup queue ∧ ∀ h, h ∈ queue → h ∈ gm_commits m ∧ ∃ c, h = id_hex c.

Lemma mark_step_returns m h : mark_commit_step d m h ≠ Stuck.
Proof.
  unfold mark_commit_step. apply bind_not_stuck; [apply ok_or_not_stuck|intros cid _]. case_match; [done|].
  apply bind_not_stuck; [apply map_err_not_stuck, read_commit_returns|intros c _].
  apply bind_not_stuck; [apply mark_roots_returns|intros marks _]. by case_match.
Qed.

Lemma queue_NoDup (children q : list string) : NoDup children → NoDup q → (∀ x, x ∈ children → x ∉ q) → NoDup (reverse children ++ q).
Proof.
  intros Hc Hq Hd. apply NoDup_app. split_and!; [by rewrite reverse_Permutation| |done]. intros x Hx.
  rewrite elem_of_reverse in Hx. by apply Hd.
Qed.

Lemma mark_walk_returns m queue : queue_ok m queue → walk (mark_commit_step d) (commit_fuel d) m queue ≠ Stuck.
Proof.
  intros Hq. apply (walk_returns _ queue_ok (λ m queue, unseen (commit_marked m queue) (list_objects Commit d))); [..|done|].
  - intros m' h q _. apply mark_step_returns.
  - clear Hq m queue. intros m h q step [Hnd Hq] H. apply NoDup_cons in Hnd as [Hh Hnd]. destruct (Hq h) as [Hm [cid ->]]; [by left|].
    destruct step as [m'|m' children|m']; [| |done].
    + apply mark_commit_next in H as [-> _]. split; [split; [done|intros x Hx; apply Hq; by right]|].
      apply unseen_le. intros y [Hy Hn]%bool_decide_eq_true. apply bool_decide_eq_true. set_solver.
    + apply (mark_commit_push d []) in H as (commit & Hne & Hr & Hndc & Hc & Hnew & _).
      assert (∀ x, x ∈ children → x ∉ gm_commits m) as Hfresh by (intros x Hx; by apply Hnew). split.
      * split; [apply queue_NoDup; [done|done|]; intros x Hx Hx'; destruct (Hq x) as [? _]; [by right|by apply (Hfresh x)]|].
        intros x [Hx|Hx]%elem_of_app; [rewrite elem_of_reverse in Hx|].
        -- destruct (Hnew x Hx) as (_ & p & _ & _ & ->). split; [set_solver|by exists p].
        -- destruct (Hq x) as [? ?]; [by right|]. split; [set_solver|done].
      * apply (unseen_lt _ _ cid); [|by destruct (proj1 (elem_of_cons _ _ _) (read_commit_stored _ _ _ Hr))| |].
        -- intros y [Hy Hn]%bool_decide_eq_true. apply bool_decide_eq_true. rewrite elem_of_app, elem_of_reverse.
           set_solver.
        -- apply bool_decide_eq_false. set_solver.
        -- apply bool_decide_eq_true. rewrite elem_of_app, elem_of_reverse. set_solver.
  - pose proof (unseen_length (commit_marked m queue) (list_objects Commit d)). unfold commit_fuel. lia.
Qed.
End Marking.

(** *** Undo *)

Lemma undo_walk_linear key d chain : ∀ fuel content undos x,
  linked key d (x :: chain) → (length chain ≤ fuel)%nat → undo_walk key d fuel content undos x ≠ Stuck.
Proof.
  induction chain as [|y chain IH]; intros fuel content undos x (Hne & Hp & Hl) Hf; destruct fuel as [|fuel];
    cbn [undo_walk]; rewrite bool_decide_eq_false_2 by done; (case_match; [|cbn in Hf; lia]) || case_match;
    unfold next_parent; try (cbn in Hf; lia); try (by rewrite Hp); destruct Hp as [-> Hy]; cbn [head].
  rewrite (read_op_at_Ok _ _ _ _ Hy). cbn [mbind outcome_bind]. destruct y as [i o]. apply IH; [done|]. cbn in Hf. lia.
Qed.

Lemma undo_walk_returns key d repo chain :
  linear_history key d repo chain → undo_walk key d (operation_fuel key d) [] 0 (jr_op_id repo, jr_op repo) ≠ Stuck.
Proof.
  intros (Hhd & Hl & _ & Hlen). destruct chain as [|x chain].
  - unfold operation_fuel. cbn [undo_walk fst]. by rewrite Hhd, bool_decide_eq_true_2.
  - subst x. apply (undo_walk_linear key d chain); [done|]. unfold operation_fuel. cbn in Hlen. lia.
Qed.

(** C28. The walks over commits and operations return a value, an error or a panic
    on every database: as many rounds as there are stored commits, operations and
    trees are enough, because each one pushes its children once. This covers the
    search for a commit in the history of a repository, the commit log, the operation
    log and its tail, and the marking of garbage collection; the walk of undo, which
    has no set of visited operations, returns on every linear history. *)
Theorem jj_walks_return (key : string) (d : Inner) (repo : jj_repo) :
  (∀ target queue, walk (revision_step target d) (commit_fuel d) (∅, false) queue ≠ Stuck) ∧
  (∀ limit queue, walk (commit_log_step limit d) (commit_fuel d) (∅, []) queue ≠ Stuck) ∧
  operations_of key repo d ≠ Stuck ∧
  (∀ limit, walk_tail key limit d (operation_fuel key d) ∅ [] (jr_op_id repo, jr_op repo) ≠ Stuck) ∧
  (∀ commits : list (list byte), let hexes : gset string := list_to_set (id_hex <$> commits) in
     walk (mark_commit_step d) (commit_fuel d) (mkGcMarks hexes ∅ ∅) (reverse (hash_strings hexes)) ≠ Stuck) ∧
  (∀ chain, linear_history key d repo chain →
     undo_walk key d (operation_fuel key d) [] 0 (jr_op_id repo, jr_op repo) ≠ Stuck).
Proof.
  split_and!.
  - intros target queue. apply revision_walk_returns.
  - intros limit queue. apply commit_log_walk_returns.
  - apply bind_not_stuck; [apply operations_walk_returns|done].
  - intros limit. apply tail_walk_returns.
  - intros commits hexes. apply mark_walk_returns. split.
    + rewrite reverse_Permutation. apply NoDup_hash_strings.
    + intros h Hh. rewrite elem_of_reverse, elem_of_hash_strings in Hh. split; [done|].
      apply elem_of_list_to_set, list_elem_of_fmap in Hh as (c & -> & _). by exists c.
  - intros chain. apply undo_walk_returns.
Qed.
End Returns.

(** * What undo restores *)

Section Undo.
Context {RM : JjRemotes} {L : JjLib} {C : JjCodec} {HX : Hex} {RT : JjRuntime} {TL : JjTreeLaws RT} {FMT : RustFmt}
  {XL : JjTxLaws RT} {HO : HashOrder} {E : Type}.

(** The operations of a chain that are not undos, newest first. *)
Definition content_of (chain : list (list byte * JjOperation)) : list (list byte * JjOperation) :=
  List.filter (λ x, negb (is_undo x.2)) chain.

(** The undos at the head of a chain. *)
Fixpoint undos_at_head (chain : list (list byte * JjOperation)) : nat :=
  match chain with
  | [] => 0
  | x :: chain => if is_undo x.2 then Datatypes.S (undos_at_head chain) else 0
  end.

(** The view of an operation, read at a database. *)
Definition view_of (op : JjOperation) (d : Inner) (view : JjView) : Prop := read_view (jo_view_id op) d = Ok view.

(** The view that the number of writes says: of the write before the one that is
    undone, or the view before the oldest one. *)
Definition view_by_count (key : string) (d : Inner) (chain : list (list byte * JjOperation))
    (undone : list byte * JjOperation) (view : JjView) : Prop :=
  match content_of chain !! Datatypes.S (undos_at_head chain) with
  | Some target => view_of target.2 d view
  | None => ∃ op, read_operation key (default root_operation_id (next_parent undone.2)) d = Ok op ∧ view_of op d view
  end.

Lemma undo_walk_exact key d chain : ∀ fuel content undos x,
  linked key d (x :: chain) → (length chain ≤ fuel)%nat →
  undo_walk key d fuel content undos x =
  Ok (content ++ content_of (x :: chain), if bool_decide (content = []) then (undos + undos_at_head (x :: chain))%nat else undos).
Proof.
  induction chain as [|y chain IH]; intros fuel content undos x (Hne & Hp & Hl) Hf.
  - assert (next_parent x.2 = None) as Hn by (unfold next_parent; by rewrite Hp).
    destruct fuel; cbn [undo_walk]; rewrite bool_decide_eq_false_2 by done; cbn [content_of List.filter undos_at_head];
      destruct (is_undo x.2); cbn [negb]; rewrite Hn, ?app_nil_r; do 2 f_equal; case_bool_decide; lia.
  - destruct Hp as [Hp Hy]. destruct fuel as [|fuel]; [cbn in Hf; lia|]. destruct y as [i o]. cbn in Hf.
    assert (next_parent x.2 = Some i) as Hn by (unfold next_parent; by rewrite Hp).
    cbn [undo_walk]. rewrite bool_decide_eq_false_2 by done. change (content_of (x :: (i, o) :: chain)) with
      (if negb (is_undo x.2) then x :: content_of ((i, o) :: chain) else content_of ((i, o) :: chain)).
    change (undos_at_head (x :: (i, o) :: chain)) with
      (if is_undo x.2 then Datatypes.S (undos_at_head ((i, o) :: chain)) else 0%nat).
    destruct (is_undo x.2) eqn:Hu; cbn [negb]; rewrite Hn, (read_op_at_Ok _ _ _ _ Hy); cbn [mbind outcome_bind];
      rewrite IH by (done || lia); cbn [fst snd]; do 2 f_equal.
    + repeat case_bool_decide; lia.
    + by rewrite <- app_assoc.
    + rewrite (bool_decide_eq_false_2 (content ++ [x] = [])) by (by destruct content).
      case_bool_decide; lia.
Qed.

Lemma undo_walk_chain key d repo chain :
  linear_history key d repo chain →
  undo_walk key d (operation_fuel key d) [] 0 (jr_op_id repo, jr_op repo) = Ok (content_of chain, undos_at_head chain).
Proof.
  intros (Hhd & Hl & _ & Hlen). destruct chain as [|x chain].
  - unfold operation_fuel. cbn [undo_walk fst]. by rewrite Hhd, bool_decide_eq_true_2.
  - subst x. rewrite (undo_walk_exact key d chain); [done|done|]. unfold operation_fuel. cbn in Hlen. lia.
Qed.

Lemma load_at_Ok key op d view d' : load_at key op d = (Ok view, d') → view_of op.2 d view ∧ d' = d.
Proof.
  intros (v & d1 & [Hv%map_err_Ok ->]%db_read_Ok & H)%dbm_bind_Ok.
  apply dbm_bind_Ok in H as ([] & d1 & [_ ->]%db_read_Ok & [= <- <-]). done.
Qed.

Lemma load_operation_Ok key id op d d' : load_operation key id d = (Ok op, d') → read_operation key id d = Ok op.2 ∧ d' = d.
Proof. intros (o & d1 & [Ho%map_err_Ok ->]%db_read_Ok & [= <- <-])%dbm_bind_Ok. done. Qed.

Lemma undo_target_Ok key d chain x d' :
  undo_target key (content_of chain) (undos_at_head chain) d = (Ok x, d') →
  d' = d ∧ ∃ undone, content_of chain !! undos_at_head chain = Some undone ∧ x.1 = undone.1 ∧
    view_by_count key d chain undone x.2.
Proof.
  unfold undo_target, view_by_count. destruct (content_of chain !! undos_at_head chain) as [undone|]; [|done].
  intros (view & d1 & H & [= <- <-])%dbm_bind_Ok.
  destruct (content_of chain !! Datatypes.S (undos_at_head chain)) as [target|].
  - apply load_at_Ok in H as [Hv ->]. split; [done|]. by exists undone.
  - unfold view_before in H. assert (∃ op, read_operation key (default root_operation_id (next_parent undone.2)) d = Ok op ∧
      view_of op d view ∧ d1 = d) as (op & Ho & Hv & ->).
    { destruct (next_parent undone.2); apply dbm_bind_Ok in H as (op & d2 & [Ho ->]%load_operation_Ok & [Hv ->]%load_at_Ok);
        by exists op.2. }
    split; [done|]. exists undone. split_and!; [done..|]. by exists op.
Qed.

(** C29. What undo restores is found by counting. On a linear log, let the content
    operations be those that are not undos and u the number of undos at the head. If
    undo succeeds it undoes content operation number u (from 0, newest first):
    it returns its id and publishes, on top of the operation it loaded, an
    operation "undo <id>" with the view of the next older content operation, or with
    the view before the oldest one; if there are no more than u content operations
    there is nothing to undo. Undos below the head do not count: after
    a change, its undo and another change, undo publishes the view of the change
    that had been undone, and not the one before the last change. *)
Theorem undo_restores_by_count (project repo author : string)
    (validate : string → PublicationSnapshot → outcome E unit) (d d1 : Inner) (jr : jj_repo)
    (chain : list (list byte * JjOperation)) :
  let key := repo_key project repo in
  load_repo key d = (Ok jr, d1) → linear_history key d1 jr chain →
  (content_of chain !! undos_at_head chain = None →
   undo_validated project repo author validate d = (Err (PubJj JjNothingToUndo), d1)) ∧
  (∀ id d', undo_validated project repo author validate d = (Ok id, d') →
   ∃ undone view op_id op,
     content_of chain !! undos_at_head chain = Some undone ∧ id = id_hex undone.1 ∧ view_by_count key d1 chain undone view ∧
     read_operation key op_id d' = Ok op ∧ jo_parents op = [jr_op_id jr] ∧
     jm_description (jo_metadata op) = ("undo " +:+ id)%string ∧ view_of op d' (stored_view view) ∧
     (∀ last between before rest, chain = last :: between :: before :: rest →
        is_undo last.2 = false → is_undo between.2 = true → is_undo before.2 = false → view_of before.2 d1 view)).
Proof.
  intros key Hload Hlin. pose proof (undo_walk_chain key d1 jr chain Hlin) as Hwalk. split.
  - intros Hnone. unfold undo_validated, pub, db_map_err, mbind, dbm_bind, db_read. fold key. rewrite Hload. cbn [map_err].
    rewrite Hwalk. cbn [map_err fst snd]. unfold undo_target. by rewrite Hnone.
  - intros id d' (jr' & d2 & Hl%db_map_err_Ok & H)%dbm_bind_Ok. fold key in Hl. rewrite Hload in Hl. injection Hl as <- <-.
    apply dbm_bind_Ok in H as (c & d2 & [Hc ->]%db_map_err_Ok%db_read_Ok & H). fold key in Hc. rewrite Hwalk in Hc.
    injection Hc as <-. apply dbm_bind_Ok in H as ([i view] & d2 & Ht%db_map_err_Ok & H). fold key in Ht.
    apply undo_target_Ok in Ht as (-> & undone & Hu & Hi & Hv). cbn [fst snd] in *. subst i.
    apply dbm_bind_Ok in H as ([] & d2 & Hb & H). apply dbm_bind_Ok in H as (s & d3 & Htx%db_map_err_Ok & [= <- <-]).
    apply dbm_bind_Ok in Htx as (op_id & d4 & Htx%db_map_err_Ok & [= <- <-]).
    apply commit_transaction_spec in Htx as (_ & op & Hop & Hp & Hdesc & _ & Hview & _).
    exists undone, view, op_id, op. split_and!; try done.
    intros last between before rest -> H1 H2 H3. unfold view_by_count in Hv. cbn [content_of List.filter undos_at_head] in Hv.
    rewrite H1, H2, H3 in Hv. exact Hv.
Qed.
End Undo.
