(* ===== verification/JjModel.v ===== *)
(** * JjModel: concrete instances for the jj layer, and witnesses

    A small jj-lib: ids in lowercase hexadecimal, objects as byte codes that read
    back, one flat tree per commit, a single operation head. It satisfies the laws
    assumed of jj-lib, of its codecs and of its transactions, and the theorems on the
    stores, the trees, the operation log, publications and garbage collection are
    applied to what it computes. *)
From S2P Require Import Prelude RustStd SchemaTypes Effects ObjectDb CoreTypes Queries ValidationProps AccessModel ProtocModel JjStore JjRepo JjGc JjProps.
From Stdlib Require Import Strings.Byte Ascii.

Open Scope Z_scope.

(** ** Byte codes *)

Class Ser (A : Type) := { ser : A → list byte; de : list byte → option (A * list byte) }.
Class SerLaws (A : Type) {S : Ser A} : Prop := de_ser (a : A) rest : de (ser a ++ rest) = Some (a, rest).

#[export] Instance byte_ser : Ser byte :=
  { ser b := [b]; de bs := match bs with [] => None | b :: r => Some (b, r) end }.

#[export] Instance byte_ser_laws : SerLaws byte.
Proof. by intros b r. Qed.

#[export] Instance bool_ser : Ser bool :=
  { ser b := [if b then x01 else x00];
    de bs := match bs with x01 :: r => Some (true, r) | _ :: r => Some (false, r) | [] => None end }.

#[export] Instance bool_ser_laws : SerLaws bool.
Proof. by intros [] r. Qed.

#[export] Instance prod_ser {A B} `{Ser A} `{Ser B} : Ser (A * B) :=
  { ser p := ser p.1 ++ ser p.2;
    de bs := '(a, r) ← de bs; '(b, r) ← de r; Some ((a, b), r) }.

#[export] Instance prod_ser_laws {A B} `{SerLaws A} `{SerLaws B} : SerLaws (A * B).
Proof. intros [a b] r. cbn. rewrite <- app_assoc, de_ser. cbn. by rewrite de_ser. Qed.

#[export] Instance option_ser {A} `{Ser A} : Ser (option A) :=
  { ser o := match o with Some a => x01 :: ser a | None => [x00] end;
    de bs := match bs with
             | x01 :: r => '(a, r) ← de r; Some (Some a, r)
             | _ :: r => Some (None, r)
             | [] => None
             end }.

#[export] Instance option_ser_laws {A} `{SerLaws A} : SerLaws (option A).
Proof. intros [a|] r; [|done]. cbn. by rewrite de_ser. Qed.

#[export] Instance sum_ser {A B} `{Ser A} `{Ser B} : Ser (A + B) :=
  { ser s := match s with inl a => x00 :: ser a | inr b => x01 :: ser b end;
    de bs := match bs with
             | x01 :: r => '(b, r) ← de r; Some (inr b, r)
             | _ :: r => '(a, r) ← de r; Some (inl a, r)
             | [] => None
             end }.

#[export] Instance sum_ser_laws {A B} `{SerLaws A} `{SerLaws B} : SerLaws (A + B).
Proof. intros [a|b] r; cbn; by rewrite de_ser. Qed.

Fixpoint ser_list {A} `{Ser A} (l : list A) : list byte :=
  match l with [] => [x00] | a :: l => x01 :: ser a ++ ser_list l end.

Fixpoint de_list {A} `{Ser A} (fuel : nat) (bs : list byte) : option (list A * list byte) :=
  match fuel, bs with
  | S fuel, x01 :: r => '(a, r) ← de r; '(l, r) ← de_list fuel r; Some (a :: l, r)
  | _, _ :: r => Some ([], r)
  | _, [] => None
  end.

#[export] Instance list_ser {A} `{Ser A} : Ser (list A) := { ser := ser_list; de bs := de_list (length bs) bs }.

Lemma de_ser_list {A} `{SerLaws A} (l : list A) : ∀ fuel rest, (length l < fuel)%nat → de_list fuel (ser_list l ++ rest) = Some (l, rest).
Proof.
  induction l as [|a l IH]; intros [|fuel] rest Hf; [cbn in Hf; lia|done|cbn in Hf; lia|]. cbn in Hf |- *.
  rewrite <- app_assoc, de_ser. cbn. by rewrite IH by lia.
Qed.

#[export] Instance list_ser_laws {A} `{SerLaws A} : SerLaws (list A).
Proof.
  intros l rest. cbn. apply de_ser_list. rewrite length_app. enough (length l < length (ser_list l))%nat by lia.
  induction l as [|a l IH]; cbn; [lia|]. rewrite length_app. lia.
Qed.

Fixpoint ser_pos (p : positive) : list byte :=
  match p with xH => [x00] | xO p => x01 :: ser_pos p | xI p => x02 :: ser_pos p end.

Fixpoint de_pos (bs : list byte) : option (positive * list byte) :=
  match bs with
  | x01 :: r => '(p, r) ← de_pos r; Some (xO p, r)
  | x02 :: r => '(p, r) ← de_pos r; Some (xI p, r)
  | _ :: r => Some (xH, r)
  | [] => None
  end.

#[export] Instance positive_ser : Ser positive := { ser := ser_pos; de := de_pos }.

#[export] Instance positive_ser_laws : SerLaws positive.
Proof. intros p rest. cbn. induction p as [p IH|p IH|]; cbn; [by rewrite IH..|done]. Qed.

(** A code by way of another type. *)
Definition via {A B} `{Ser B} (f : A → B) (g : B → A) : Ser A :=
  {| ser a := ser (f a); de bs := '(b, r) ← de bs; Some (g b, r) |}.

Lemma via_laws {A B} `{SerLaws B} (f : A → B) (g : B → A) : (∀ a, g (f a) = a) → SerLaws A (S := via f g).
Proof. intros Hgf a rest. cbn. rewrite de_ser. cbn. by rewrite Hgf. Qed.

#[export] Instance string_ser : Ser string := via as_bytes String.string_of_list_byte.

#[export] Instance string_ser_laws : SerLaws string.
Proof. apply via_laws. intros s. apply String.string_of_list_byte_of_string. Qed.

#[export] Instance Z_ser : Ser Z :=
  via (λ z, match z with Z0 => None | Zpos p => Some (true, p) | Zneg p => Some (false, p) end)
      (λ o, match o with None => Z0 | Some (true, p) => Zpos p | Some (false, p) => Zneg p end).

#[export] Instance Z_ser_laws : SerLaws Z.
Proof. apply via_laws. by intros []. Qed.

#[export] Instance JjTimestamp_ser : Ser JjTimestamp := via (λ t, (jt_millis t, jt_tz_offset t)) (λ p, mkJjTimestamp p.1 p.2).

#[export] Instance JjTimestamp_ser_laws : SerLaws JjTimestamp.
Proof. apply via_laws. by intros []. Qed.

#[export] Instance PTreeValue_ser : Ser PTreeValue :=
  via (λ v, match v with
            | PvTreeId id => inl id
            | PvFile id x c => inr (inl (id, x, c))
            | PvSymlinkId id => inr (inr id)
            end)
      (λ s : list byte + (list byte * bool * list byte + list byte), match s with
            | inl id => PvTreeId id
            | inr (inl (id, x, c)) => PvFile id x c
            | inr (inr id) => PvSymlinkId id
            end).

#[export] Instance PTreeValue_ser_laws : SerLaws PTreeValue.
Proof. apply via_laws. by intros []. Qed.

#[export] Instance PTree_ser : Ser PTree := list_ser.

#[export] Instance PTree_ser_laws : SerLaws PTree.
Proof. unfold PTree. apply list_ser_laws. Qed.

#[export] Instance PSignature_ser : Ser PSignature :=
  via (λ s, (pg_name s, pg_email s, pg_timestamp s)) (λ '(n, e, t), mkPSignature n e t).

#[export] Instance PSignature_ser_laws : SerLaws PSignature.
Proof. apply via_laws. by intros []. Qed.

#[export] Instance PCommit_ser : Ser PCommit :=
  via (λ c, (pc_parents c, pc_predecessors c, pc_root_tree c, pc_conflict_labels c, pc_change_id c, pc_description c,
             pc_author c, pc_committer c, pc_secure_sig c))
      (λ '(a1, a2, a3, a4, a5, a6, a7, a8, a9), mkPCommit a1 a2 a3 a4 a5 a6 a7 a8 a9).

#[export] Instance PCommit_ser_laws : SerLaws PCommit.
Proof. apply via_laws. by intros []. Qed.

#[export] Instance StoredView_ser : Ser StoredView :=
  via (λ v, (sv_head_ids v, sv_local_bookmarks v : list (string * list (option string)),
             sv_local_tags v : list (string * list (option string)), sv_wc_commit_ids v))
      (λ '(a1, a2, a3, a4), mkStoredView a1 a2 a3 a4).

#[export] Instance StoredView_ser_laws : SerLaws StoredView.
Proof. apply via_laws. by intros []. Qed.

#[export] Instance StoredOperation_ser : Ser StoredOperation :=
  via (λ o, (sop_view_id o, sop_parents o, sop_start_millis o, sop_start_tz o, sop_end_millis o, sop_end_tz o,
             sop_description o, sop_hostname o, sop_username o, sop_is_snapshot o, sop_workspace_name o, sop_attributes o))
      (λ '(a1, a2, a3, a4, a5, a6, a7, a8, a9, b1, b2, b3), mkStoredOperation a1 a2 a3 a4 a5 a6 a7 a8 a9 b1 b2 b3).

#[export] Instance StoredOperation_ser_laws : SerLaws StoredOperation.
Proof. apply via_laws. by intros []. Qed.

(** ** Hashes

    The code of at most 62 bytes is their number, the bytes and zeros; longer ones
    are folded behind a first byte that no short one has. *)

Definition byte_of_N (n : N) : byte := default x00 (Byte.of_N n).

Fixpoint le_bytes (n : nat) (z : N) : list byte :=
  match n with O => [] | S n => byte_of_N (N.land z 255) :: le_bytes n (N.shiftr z 8) end.

Definition fold_bytes (bs : list byte) : N :=
  foldl (λ h b, N.land (h * 65599 + Byte.to_N b + 1) 4294967295)%N 0%N bs.

Definition digest (bs : list byte) : list byte :=
  if (length bs <=? 62)%nat
  then byte_of_N (N.of_nat (length bs)) :: bs ++ replicate (63 - length bs) x00
  else xff :: le_bytes 4 (fold_bytes bs) ++ replicate 59 x00.

Lemma byte_of_N_to_N n : (n < 256)%N → Byte.to_N (byte_of_N n) = n.
Proof.
  intros Hn. unfold byte_of_N. destruct (Byte.of_N n) as [b|] eqn:Hb; [by apply Byte.to_of_N_iff in Hb|].
  apply Byte.of_N_None_iff in Hb. lia.
Qed.

Lemma digest_short bs bs' : (length bs ≤ 62)%nat → digest bs' = digest bs → bs' = bs.
Proof.
  intros Hl. unfold digest. rewrite (proj2 (Nat.leb_le (length bs) 62) Hl).
  destruct (Nat.leb_spec (length bs') 62) as [Hl'|Hl']; intros H.
  - injection H as Hn H. apply (f_equal Byte.to_N) in Hn. rewrite !byte_of_N_to_N in Hn by lia.
    apply Nat2N.inj in Hn. apply (f_equal (take (length bs))) in H. rewrite take_app_length in H.
    by rewrite <- Hn, take_app_length in H.
  - injection H as Hn _. apply (f_equal Byte.to_N) in Hn. rewrite byte_of_N_to_N in Hn by lia. cbn in Hn. lia.
Qed.

(** ** jj-lib and its codecs *)

#[export] Instance model_remotes : JjRemotes := Empty_set.

#[export] Instance model_codec : JjCodec := {
  tree_encode := ser;
  tree_decode bs := match de bs with Some (p, _) => Ok p | None => Err "failed to decode Protobuf message"%string end;
  commit_encode := ser;
  commit_decode bs := match de bs with Some (p, _) => Ok p | None => Err "failed to decode Protobuf message"%string end;
  view_to_json v := Ok (ser v);
  view_from_json bs := match de bs with Some (p, _) => Ok p | None => Err "expected value at line 1 column 1"%string end;
  operation_to_json o := Ok (ser o);
  operation_from_json bs := match de bs with Some (p, _) => Ok p | None => Err "expected value at line 1 column 1"%string end;
  hex_decode s := Ok (unhex s);
  fmt_from_utf8_error _ := "invalid utf-8 sequence of 1 bytes from index 0";
}.

Definition epoch : JjTimestamp := mkJjTimestamp 0 0.
Definition nobody : JjSignature := mkJjSignature "" "" epoch.

Definition tree_message (t : JjTree) : PTree :=
  (λ '(name, v), (name, Some (match v with
     | TvFile id x c => Some (PvFile id x c)
     | TvSymlink id => Some (PvSymlinkId id)
     | TvTree id => Some (PvTreeId id)
     | TvGitSubmodule _ => None
     end))) <$> t.

Definition model_sig (s : JjSignature) : PSignature := mkPSignature (js_name s) (js_email s) (Some (js_timestamp s)).

Definition model_commit_message (c : JjCommit) : PCommit :=
  mkPCommit (jc_parents c) (jc_predecessors c) (jc_root_tree c) (jc_conflict_labels c) (jc_change_id c) (jc_description c)
    (Some (model_sig (jc_author c))) (Some (model_sig (jc_committer c))) (ss_sig <$> jc_secure_sig c).

Definition hex_target (t : RefTarget) : list (option string) := List.map (option_map model_hex) t.

Definition model_view_message (v : JjView) : StoredView :=
  mkStoredView (model_hex <$> elements (jv_head_ids v)) (prod_map id hex_target <$> map_to_list (jv_local_bookmarks v))
    (prod_map id hex_target <$> map_to_list (jv_local_tags v)) (prod_map id model_hex <$> map_to_list (jv_wc_commit_ids v)).

Definition model_operation_message (o : JjOperation) : StoredOperation :=
  let m := jo_metadata o in
  mkStoredOperation (model_hex (jo_view_id o)) (model_hex <$> jo_parents o) (jt_millis (jm_start m)) (jt_tz_offset (jm_start m))
    (jt_millis (jm_end m)) (jt_tz_offset (jm_end m)) (jm_description m) (jm_hostname m) (jm_username m) (jm_is_snapshot m)
    (jm_workspace_name m) (map_to_list (jm_attributes m)).

#[export] Instance model_jj : JjLib := {
  id_hex := model_hex;
  id_try_from_hex s := Some (unhex s);
  id_from_hex := unhex;
  id_reverse_hex := model_hex;
  blake2b512 := digest;
  hash_tree t := if bool_decide (t = []) then unhex EMPTY_TREE_ID_HEX else digest (ser (tree_message t));
  hash_commit c := digest (ser (model_commit_message c));
  hash_view v := digest (ser (model_view_message v));
  hash_operation o := digest (ser (model_operation_message o));
  component_new s := Ok s;
  make_root_commit change tree := mkJjCommit [] [] [tree] [""%string] change "" nobody nobody None;
  make_root_view id := mkJjView {[ id ]} ∅ ∅ ∅ ∅ ref_absent ∅;
  make_root_operation view := mkJjOperation view [] (mkJjOpMetadata epoch epoch "" "" "" false None ∅) None;
  jj_labels E l := Ok (if bool_decide (l = []) then [""%string] else l);
}.

Lemma hex_has_no_newline bs : contains_char NEWLINE (model_hex bs) = false.
Proof.
  induction bs as [|b bs IH]; [done|]. change (contains_char NEWLINE (hex_byte b +:+ model_hex bs) = false).
  rewrite contains_char_app, IH. by destruct b.
Qed.

Lemma hex_is_ascii bs : Forall (λ b, u8 b < 128) (as_bytes (model_hex bs)).
Proof.
  induction bs as [|b bs IH]; [constructor|]. change (Forall (λ b, u8 b < 128) (as_bytes (hex_byte b +:+ model_hex bs))).
  rewrite as_bytes_app. apply Forall_app. split; [|done]. destruct b; repeat constructor.
Qed.

Lemma de_all {A} `{SerLaws A} (a : A) (e : string) : match de (ser a) with Some (p, _) => Ok p | None => Err e end = Ok a.
Proof. rewrite <- (app_nil_r (ser a)). by rewrite de_ser. Qed.

Lemma Ok_inj {E A} (a b : A) : (Ok a : outcome E A) = Ok b → a = b.
Proof. by intros [=]. Qed.

#[export] Instance model_jj_laws : JjLaws model_jj model_codec model_hex.
Proof.
  constructor.
  - done.
  - intros id. apply (f_equal Some), unhex_hex.
  - intros id. apply (f_equal Ok), unhex_hex.
  - apply hex_has_no_newline.
  - apply hex_is_ascii.
  - by intros [].
  - done.
  - done.
  - done.
  - intros p. apply de_all.
  - intros p. apply de_all.
  - intros v. by eexists.
  - intros o. by eexists.
  - intros v bytes Hb. apply Ok_inj in Hb as <-. exact (de_all v _).
  - intros o bytes Hb. apply Ok_inj in Hb as <-. exact (de_all o _).
Qed.

#[export] Instance model_jj_returns : JjReturns model_jj model_codec.
Proof.
  constructor; [| | |done|done|done]; intros bytes; cbn [tree_decode commit_decode operation_from_json model_codec];
    by destruct (de bytes) as [[]|].
Qed.

(** ** Transactions *)

#[export] Instance JjTimestamp_eq_dec : EqDecision JjTimestamp.
Proof. solve_decision. Defined.
#[export] Instance JjSignature_eq_dec : EqDecision JjSignature.
Proof. solve_decision. Defined.
#[export] Instance SecureSig_eq_dec : EqDecision SecureSig.
Proof. solve_decision. Defined.
#[export] Instance JjCommit_eq_dec : EqDecision JjCommit.
Proof. solve_decision. Defined.
#[export] Instance JjOpMetadata_eq_dec : EqDecision JjOpMetadata.
Proof. solve_decision. Defined.
#[export] Instance JjOperation_eq_dec : EqDecision JjOperation.
Proof. solve_decision. Defined.
#[export] Instance RemoteView_eq_dec : EqDecision RemoteView.
Proof. intros []. Defined.
#[export] Instance JjView_eq_dec : EqDecision JjView.
Proof. solve_decision. Defined.

Definition reads_as {E A} `{EqDecision A} (r : outcome E A) (a : A) : bool :=
  match r with Ok b => bool_decide (b = a) | _ => false end.

Lemma reads_as_Ok {E A} `{EqDecision A} (r : outcome E A) (a : A) : reads_as r a = true → r = Ok a.
Proof. destruct r; cbn; [|done..]. intros ->%bool_decide_eq_true. done. Qed.

Definition tree_map (t : JjTree) : gmap string TreeValue := list_to_map t.

Definition model_entries (t : MergedTree) (d : Inner) : gmap string (outcome string MergedTreeValue) :=
  match t with
  | [id] => match read_tree id d with
            | Ok t => (λ v, Ok [Some v]) <$> tree_map t
            | _ => {[ ""%string := Err "object not found"%string ]}
            end
  | _ => {[ ""%string := Err "unresolved tree"%string ]}
  end.

(** A value the flat trees can hold. *)
Definition plain_value (v : MergedTreeValue) : bool := match v with [_] => true | _ => false end.

Definition override_value (o : option MergedTreeValue) (old : option TreeValue) : option TreeValue :=
  match o with Some [v] => v | Some _ => None | None => old end.

Definition model_builder (base : MergedTree) (ov : gmap string MergedTreeValue) : dbm string MergedTree :=
  t ← db_read (λ d, match base with [id] => map_err (λ _, "object not found"%string) (read_tree id d) | _ => Err "unresolved tree"%string end);
  _ ← db_lift (if forallb (λ kv, plain_value kv.2) (map_to_list ov) then Ok tt else Err "conflicted value"%string);
  let t' := map_to_list (merge override_value ov (tree_map t)) in
  id ← db_map_err (λ _, "write"%string) (write_tree t');
  _ ← db_read (λ d, if reads_as (read_tree id d) t' then Ok tt else Err "hash collision"%string);
  mret [id].

Definition model_new_commit (view : JjView) (parents : list (list byte)) (tree : MergedTree) (sig : JjSignature) (message : string) :
    dbm string (list byte * JjCommit * JjView) :=
  let c := mkJjCommit parents [] tree [""%string] (replicate 16 x07) message sig sig None in
  let id := hash_commit c in
  _ ← db_put (put_object_at Commit id (commit_encode (commit_message c)));
  _ ← db_read (λ d, if reads_as (read_commit id d) c then Ok tt else Err "hash collision"%string);
  mret (id, c, mkJjView ({[ id ]} ∪ jv_head_ids view) (jv_local_bookmarks view) (jv_local_tags view) (jv_remote_views view)
                 (jv_git_refs view) (jv_git_head view) (jv_wc_commit_ids view)).

Definition model_add_head (view : JjView) (c : list byte * JjCommit) (d : Inner) : outcome string JjView :=
  Ok (mkJjView ({[ c.1 ]} ∪ jv_head_ids view) (jv_local_bookmarks view) (jv_local_tags view) (jv_remote_views view)
        (jv_git_refs view) (jv_git_head view) (jv_wc_commit_ids view)).

Definition nonempty_ids (ids : list (list byte)) : bool := forallb (λ id, negb (bool_decide (id = []))) ids.

(** The operations are numbered by their end times. *)
Definition model_commit_transaction (key : string) (repo : jj_repo) (view : JjView) (attributes : gmap string string)
    (description : string) : dbm string (list byte) :=
  view_id ← db_map_err (λ _, "view"%string) (write_view view);
  n ← db_read (λ d, Ok (Z.of_nat (length (list_ops key d))));
  let time := mkJjTimestamp n 0 in
  let op := mkJjOperation view_id [jr_op_id repo] (mkJjOpMetadata time time description "host" "user" false None attributes) None in
  id ← db_map_err (λ _, "operation"%string) (write_operation key op);
  heads ← db_read (λ d, map_err (λ _, "heads"%string) (read_op_heads key d));
  _ ← db_lift (if nonempty_ids (id :: heads) then Ok tt else Err "empty id"%string);
  _ ← db_map_err (λ _, "heads"%string) (update_op_heads key [jr_op_id repo] id);
  _ ← db_read (λ d, if reads_as (read_operation key id d) op && reads_as (read_view view_id d) (stored_view view)
                   then Ok tt else Err "hash collision"%string);
  mret id.

Definition model_load_at_head (key : string) (d : Inner) : outcome string jj_repo * Inner :=
  (match read_op_heads key d with
   | Ok [id] =>
     op ← map_err (λ _, "operation"%string) (read_operation key id d);
     view ← map_err (λ _, "view"%string) (read_view (jo_view_id op) d);
     Ok (mkJjRepo id op view)
   | _ => Err "heads"%string
   end, d).

Definition model_merge (m : merge_terms MergedTree) : outcome string MergedTree :=
  match m with
  | [ours; base; theirs] =>
    if bool_decide (theirs = base) then Ok ours else if bool_decide (ours = base) then Ok theirs else Err "conflict"%string
  | _ => Err "conflict"%string
  end.

#[export] Instance model_runtime : JjRuntime := {
  fmt_backend_error e := match e with BeObjectNotFound t h _ => "Object " +:+ h +:+ " of type " +:+ t +:+ " not found" | BeUnsupported m | BeOther m => m end;
  fmt_op_store_error e := match e with OpsObjectNotFound t h _ => "Object " +:+ h +:+ " of type " +:+ t +:+ " not found" | _ => "Error" end;
  fmt_op_heads_error e := "Failed to read operation heads";
  loader_setup _ := Ok tt;
  load_at_head := model_load_at_head;
  index_at _ _ _ := Ok tt;
  repo_path s := Ok s;
  copy_id_placeholder := [];
  tree_entries t d := map_to_list (model_entries t d);
  tree_conflicts _ _ := [];
  tree_path_value t p d := default (Ok absent_value) (model_entries t d !! p);
  builder_write_tree := model_builder;
  merge_merged_trees m := db_lift (model_merge m);
  merge_commit_trees _ cs := db_lift (match cs with [_; src] => Ok (commit_tree src) | _ => Err "conflict"%string end);
  new_commit := model_new_commit;
  add_head := model_add_head;
  commit_transaction := model_commit_transaction;
}.

#[export] Instance model_head_laws : JjHeadLaws model_runtime.
Proof. split; [by intros key d r d' [= <- <-]|by intros key d r d' key' [= <- <-]]. Qed.

(** *** Trees *)

Lemma read_tree_extends id d d' t : extends d d' → read_tree id d = Ok t → read_tree id d' = Ok t.
Proof.
  intros He H. unfold read_tree in *. apply bind_Ok in H as (b & Hb%map_err_Ok & H).
  by rewrite (get_object_extends _ _ _ _ _ He Hb).
Qed.

Lemma model_entry_at t d p : entry_at t d p = model_entries t d !! p.
Proof. unfold entry_at. cbn [tree_entries model_runtime]. by rewrite list_to_map_to_list. Qed.

Lemma model_tree_reads t d : tree_reads t d → ∃ id tree, t = [id] ∧ read_tree id d = Ok tree.
Proof.
  intros Hr. assert (∀ e, model_entries t d ≠ {[ ""%string := Err e ]}) as Hn.
  { intros e He. destruct (Hr ""%string (Err e)) as (v & ?); [|done]. by rewrite model_entry_at, He, lookup_singleton_eq. }
  unfold model_entries in Hn. destruct t as [|id [|]]; [by edestruct Hn| |by edestruct Hn].
  destruct (read_tree id d) as [tree|?| |] eqn:Ht; [by exists id, tree|by edestruct Hn..].
Qed.

Lemma write_tree_tables t d r d' : write_tree t d = (r, d') → extends d d' ∧ ops d' = ops d ∧ refs d' = refs d.
Proof.
  unfold write_tree, mbind, dbm_bind, db_lift. destruct (tree_to_proto t) as [p|?| |]; intros [= <- <-]; try done.
  split; [apply put_object_at_extends|done].
Qed.

Lemma quiet_builder_model base ov : quiet (model_builder base ov).
Proof.
  unfold model_builder. apply quiet_dbm_bind; [apply quiet_get|intros t]. apply quiet_dbm_bind; [apply quiet_lift|intros _].
  apply quiet_dbm_bind; [|intros id; apply quiet_dbm_bind; [apply quiet_get|intros _; apply quiet_ret]].
  apply quiet_map_err. intros d r d'. apply write_tree_tables.
Qed.

Lemma tree_map_elements (m : gmap string TreeValue) : tree_map (map_to_list m) = m.
Proof. unfold tree_map. apply list_to_map_to_list. Qed.

#[export] Instance model_tree_laws : JjTreeLaws model_runtime.
Proof.
  split.
  - by intros s p [= <-].
  - intros t d. apply NoDup_fst_map_to_list.
  - intros base ov d t' d' Hb Hr _ p. destruct (model_tree_reads _ _ Hr) as (id & tree & -> & Ht).
    apply dbm_bind_Ok in Hb as (t0 & d0 & [Ht0%map_err_Ok ->]%db_read_Ok & Hb). rewrite Ht in Ht0. apply Ok_inj in Ht0 as <-.
    apply dbm_bind_Ok in Hb as ([] & d0 & [Hp ->]%db_lift_Ok & Hb).
    apply dbm_bind_Ok in Hb as (id' & d1 & Hw%db_map_err_Ok & Hb). apply dbm_bind_Ok in Hb as ([] & d2 & [Hc ->]%db_read_Ok & Hb).
    injection Hb as <- <-. unfold overridden. rewrite !model_entry_at. unfold model_entries. rewrite Ht.
    destruct (reads_as _ _) eqn:Has in Hc; [|done]. apply reads_as_Ok in Has as ->.
    destruct (forallb _ _) eqn:Hall in Hp; [|done].
    rewrite lookup_fmap, tree_map_elements, lookup_merge, lookup_fmap. destruct (ov !! p) as [v|] eqn:Hv; cbn.
    + assert (plain_value v = true) as Hpl.
      { apply (proj1 (forallb_forall _ _) Hall (p, v)), list_elem_of_In, elem_of_map_to_list. done. }
      destruct v as [|[v|] []]; [done| |done| |done]; unfold diag_None; cbn; by destruct (tree_map tree !! p).
    + unfold diag_None. by destruct (tree_map tree !! p).
  - intros t d d' He Hr. destruct (model_tree_reads _ _ Hr) as (id & tree & -> & Ht). cbn [tree_entries model_runtime].
    unfold model_entries. by rewrite Ht, (read_tree_extends _ _ _ _ He Ht).
  - intros base ov. apply quiet_builder_model.
Qed.

(** *** Transactions *)

Lemma nonempty_ids_Forall ids : nonempty_ids ids = true → Forall (λ id, id ≠ []) ids.
Proof.
  intros Hall. apply Forall_forall. intros id Hid%list_elem_of_In.
  by apply (proj1 (forallb_forall _ _) Hall id), negb_true_iff, bool_decide_eq_false in Hid.
Qed.

Lemma read_op_heads_refs key d d' : refs d' = refs d → read_op_heads key d' = read_op_heads key d.
Proof. unfold read_op_heads, get_ref. by intros ->. Qed.

Lemma model_commit_transaction_spec key repo view attributes description d id d' :
  model_commit_transaction key repo view attributes description d = (Ok id, d') →
  extends d d' ∧ ∃ op, read_operation key id d' = Ok op ∧ jo_parents op = [jr_op_id repo] ∧
    jm_description (jo_metadata op) = description ∧ jm_attributes (jo_metadata op) = attributes ∧
    read_view (jo_view_id op) d' = Ok (stored_view view) ∧
    (∀ heads, read_op_heads key d = Ok heads → read_op_heads key d' = Ok (updated_heads [jr_op_id repo] id heads)).
Proof.
  intros (vid & d1 & Hv%db_map_err_Ok & H)%dbm_bind_Ok. apply write_view_inv in Hv as (vb & _ & _ & ->).
  apply dbm_bind_Ok in H as (n & d2 & [_ ->]%db_read_Ok & H).
  apply dbm_bind_Ok in H as (oid & d2 & Ho%db_map_err_Ok & H). apply write_operation_inv in Ho as (ob & _ & _ & ->).
  apply dbm_bind_Ok in H as (heads & d3 & [Hh%map_err_Ok ->]%db_read_Ok & H).
  apply dbm_bind_Ok in H as ([] & d3 & [Hn ->]%db_lift_Ok & H).
  apply dbm_bind_Ok in H as ([] & d3 & Hu%db_map_err_Ok & H).
  apply dbm_bind_Ok in H as ([] & d4 & [Hc ->]%db_read_Ok & [= <- <-]).
  destruct (nonempty_ids _) eqn:Hne in Hn; [|done]. apply nonempty_ids_Forall in Hne. apply Forall_cons_1 in Hne as [Hid Hheads].
  destruct (update_op_heads_read key [jr_op_id repo] oid heads _ Hh Hheads Hid) as (d5 & Hu' & Hnew).
  rewrite Hu in Hu'. injection Hu' as <-. apply update_op_heads_tables in Hu as [Hob Hops].
  match type of Hc with (if ?b && _ then _ else _) = _ => destruct b eqn:Hop; [|done] end.
  match type of Hc with (if _ && ?b then _ else _) = _ => destruct b eqn:Hview; [|done] end.
  apply reads_as_Ok in Hop, Hview. split.
  - eapply extends_trans; [apply put_object_at_extends|]. eapply extends_trans; [apply put_op_at_extends|].
    unfold extends, get_op. by rewrite Hob, Hops.
  - eexists. split_and!; [exact Hop|done|done|done|exact Hview|]. intros heads' Hr.
    rewrite (read_op_heads_refs key d) in Hh by done. rewrite Hr in Hh. by apply Ok_inj in Hh as ->.
Qed.

#[export] Instance model_tx_laws : JjTxLaws model_runtime.
Proof.
  split.
  - by intros m d r d' [= <- <-].
  - by intros repo cs d r d' [= <- <-].
  - intros view parents tree sig message d id c view' d' H. cbn [new_commit model_runtime] in H.
    apply dbm_bind_Ok in H as ([] & d1 & [= <-] & H). apply dbm_bind_Ok in H as ([] & d2 & [Hc ->]%db_read_Ok & H).
    destruct (reads_as _ _) eqn:Has in Hc; [|done]. apply reads_as_Ok in Has. injection H as <- <- <- <-.
    split_and!; [apply put_object_at_extends|done|exact Has|done..].
  - intros view c d view' [= <-]. split_and!; [done|done|set_solver].
  - intros key repo view attributes description d id d'. apply model_commit_transaction_spec.
Qed.

(** ** Witnesses *)

Definition accept (_ : string) (_ : PublicationSnapshot) : outcome string unit := Ok tt.

Definition blob_a : DeclBlob := as_bytes "message A {}".
Definition effect_a : MutationEffect := mkMutationEffect (Some (as_bytes "proto3")) [("A"%string, blob_a)] [].
Definition effect_b : MutationEffect := mkMutationEffect None [("B"%string, blob_a)] ["A"%string].

Definition write_of (e : MutationEffect) : jj_publication :=
  PubWrites "main" (RefBookmark "main") [WritePatch "a.proto" e] "ann" "edit" ∅.

Definition run (p : jj_publication) (d : Inner) : outcome (PublicationError string) unit * Inner :=
  run_publication epoch "acme" "api" p accept d.

Definition db1 : Inner := (run (write_of effect_a) inner_default).2.
Definition db2 : Inner := (run (write_of effect_b) db1).2.

(** The database of a backend that was just opened. *)
Definition db0 : Inner := backend_new inner_default.

Lemma db0_written : rtc jj_write inner_default db0.
Proof. apply rtc_once, JwNew. Qed.

(** A value of every kind. *)
Definition sample_tree : JjTree := [("a"%string, TvFile (digest blob_a) false [])].
Definition sample_commit : JjCommit :=
  mkJjCommit [root_commit_id] [] [hash_tree sample_tree] [""%string] (replicate 16 x01) "first" nobody nobody None.
Definition sample_view : JjView :=
  mkJjView {[ hash_commit sample_commit ]} {[ "main"%string := [Some (hash_commit sample_commit)] ]} ∅ ∅ ∅ ref_absent ∅.
Definition sample_operation : JjOperation :=
  mkJjOperation (hash_view sample_view) [root_operation_id] (mkJjOpMetadata epoch epoch "import" "" "" false None ∅) None.

Lemma sample_tree_ok : tree_ok sample_tree.
Proof. intros name v [= -> ->]%list_elem_of_singleton. split_and!; [done|done|]. vm_compute. reflexivity. Qed.

Lemma sample_commit_id : id_of_length 64 (hash_commit sample_commit).
Proof. vm_compute. reflexivity. Qed.

Lemma sample_commit_ok : commit_ok sample_commit.
Proof. split_and!; try done; try (vm_compute; reflexivity); repeat constructor; vm_compute; reflexivity. Qed.

Lemma sample_view_ok : view_ok sample_view.
Proof.
  split_and!; cbn [sample_view jv_head_ids jv_local_bookmarks jv_local_tags jv_wc_commit_ids].
  - intros id ->%elem_of_singleton. apply sample_commit_id.
  - intros name t [_ <-]%lookup_singleton_Some. split; [done|]. intros id [= ->]%list_elem_of_singleton. apply sample_commit_id.
  - intros name t. by rewrite lookup_empty.
  - intros name t. by rewrite lookup_empty.
Qed.

Lemma sample_operation_ok : operation_ok sample_operation.
Proof. split_and!; [done|vm_compute; reflexivity|]. repeat constructor. Qed.

Lemma other_id (a b : list byte) : bool_decide (a = b) = false → a ≠ b.
Proof. apply bool_decide_eq_false_1. Qed.

Lemma jj_objects_durable_witness :
  (∃ d1, backend_write_file blob_a db0 = (Ok (blake2b512 blob_a), d1) ∧ stays_readable (read_file (blake2b512 blob_a)) blob_a d1) ∧
  (∃ d1, write_tree sample_tree db0 = (Ok (hash_tree sample_tree), d1) ∧
     stays_readable (read_tree (hash_tree sample_tree)) sample_tree d1) ∧
  (∃ d1, write_commit sample_commit None db0 = (Ok (hash_commit sample_commit, sample_commit), d1) ∧
     stays_readable (read_commit (hash_commit sample_commit)) sample_commit d1) ∧
  (∃ d1, write_view sample_view db0 = (Ok (hash_view sample_view), d1) ∧
     stays_readable (read_view (hash_view sample_view)) (stored_view sample_view) d1) ∧
  (∃ d1, write_operation "acme/api" sample_operation db0 = (Ok (hash_operation sample_operation), d1) ∧
     stays_readable (read_operation "acme/api" (hash_operation sample_operation)) (stored_operation sample_operation) d1) ∧
  (∃ d1, update_op_heads "acme/api" [] [x01] db0 = (Ok tt, d1) ∧ read_op_heads "acme/api" d1 = Ok [[x01]]).
Proof.
  destruct (jj_objects_durable db0 db0_written) as (Hf & Ht & Hc & _ & Hv & Ho & Hh). split_and!.
  - destruct (Hf blob_a) as (x & d1 & (_ & _ & E) & Hw & Hr). rewrite E in Hr by (vm_compute; reflexivity). exists d1. split; [exact Hw|exact Hr].
  - destruct (Ht sample_tree sample_tree_ok) as (x & d1 & (_ & _ & E) & Hw & Hr).
    rewrite E in Hr by (vm_compute; reflexivity). exists d1. split; [exact Hw|exact Hr].
  - destruct (Hc sample_commit sample_commit_ok eq_refl) as (x & d1 & (_ & _ & E) & Hw & Hr).
    { apply other_id. vm_compute. reflexivity. }
    rewrite E in Hr by (vm_compute; reflexivity). exists d1. split; [exact Hw|exact Hr].
  - destruct (Hv sample_view sample_view_ok) as (x & d1 & (_ & _ & E) & Hw & Hr).
    { apply other_id. vm_compute. reflexivity. }
    rewrite E in Hr by (vm_compute; reflexivity). exists d1. split; [exact Hw|exact Hr].
  - destruct (Ho "acme/api"%string sample_operation sample_operation_ok) as (x & d1 & (_ & _ & E) & Hw & Hr).
    { apply other_id. vm_compute. reflexivity. }
    rewrite E in Hr by (vm_compute; reflexivity). exists d1. split; [exact Hw|exact Hr].
  - destruct (Hh "acme/api"%string [] [x01] []) as (d1 & Hw & Hr); [vm_compute; reflexivity|constructor|done|]. exists d1. split; [exact Hw|exact Hr].
Defined.

Lemma jj_publications_are_gated_witness :
  ∃ jr d1, load_repo (repo_key "acme" "api") inner_default = (Ok jr, d1) ∧
    jj_published (repo_key "acme" "api") jr accept d1 db1.
Proof.
  refine (jj_publications_are_gated epoch "acme" "api" (write_of effect_a) accept inner_default (Ok tt) db1 _).
  assert ((run (write_of effect_a) inner_default).1 = Ok tt) as Hr by (vm_compute; reflexivity).
  unfold db1, run in *. rewrite <- Hr. apply surjective_pairing.
Defined.

Definition api : list (string * string) := [("acme", "api")]%string.

(** The empty tree of the opened backend is the only garbage. *)
Lemma gc_removes_exactly_garbage_witness :
  (gc_keys api db2 = [] ∧ 1%nat = 0%nat ∧ (jj_gc api db2).2 = db2) ∨
  ∃ d1, extends db2 d1 ∧
    (∀ kind id, live d1 (gc_keys api db2) kind id → objects (jj_gc api db2).2 !! (kind_tag kind, id) = objects d1 !! (kind_tag kind, id)) ∧
    (∀ kind id, ¬ live d1 (gc_keys api db2) kind id → objects (jj_gc api db2).2 !! (kind_tag kind, id) = None) ∧
    size (objects d1) = (size (objects (jj_gc api db2).2) + 1)%nat ∧
    ops (jj_gc api db2).2 = ops d1 ∧ refs (jj_gc api db2).2 = refs d1 ∧ records (jj_gc api db2).2 = records d1.
Proof.
  refine (gc_removes_exactly_garbage api db2 1%nat (jj_gc api db2).2 _).
  assert ((jj_gc api db2).1 = Ok 1%nat) as Hr by (vm_compute; reflexivity). rewrite <- Hr. apply surjective_pairing.
Defined.

(** The repository after two writes, and its chain of operations. *)
Definition no_op : JjOperation := make_root_operation [].
Definition loaded : outcome JjError jj_repo * Inner := load_repo (repo_key "acme" "api") db2.
Definition head_repo : jj_repo := unwrap_or loaded.1 (mkJjRepo [] no_op (make_root_view [])).
Definition first_id : list byte := default [] (head (live_parents (jr_op head_repo))).
Definition first_op : JjOperation := unwrap_or (read_operation (repo_key "acme" "api") first_id loaded.2) no_op.
Definition two_ops : list (list byte * JjOperation) := [(jr_op_id head_repo, jr_op head_repo); (first_id, first_op)].

Lemma two_ops_linear : linear_history (repo_key "acme" "api") loaded.2 head_repo two_ops.
Proof.
  split; [done|]. split; [|split].
  - split; [apply (bool_decide_eq_true _); vm_compute; reflexivity|]. split.
    + split; [apply (bool_decide_eq_true _); vm_compute; reflexivity|]. apply is_ok_unwrap. vm_compute. reflexivity.
    + split; [apply (bool_decide_eq_true _); vm_compute; reflexivity|]. split; [|done].
      apply (bool_decide_eq_true _). vm_compute. reflexivity.
  - apply (bool_decide_eq_true _). vm_compute. reflexivity.
  - apply (bool_decide_eq_true _). vm_compute. reflexivity.
Qed.

Lemma times_of_two x y : bool_decide (timestamp_le (operation_record x) (operation_record y)) = false → times_increase [x; y].
Proof.
  intros Hle%bool_decide_eq_false. constructor; [repeat constructor|]. constructor; [done|constructor].
Qed.

Lemma two_ops_times : times_increase two_ops.
Proof. apply times_of_two. vm_compute. reflexivity. Qed.

Lemma tail_is_end_of_log_witness :
  let records := reverse (operation_record <$> two_ops) in
  list_operations "acme" "api" db2 = (Ok records, loaded.2) ∧
  list_operations_tail "acme" "api" 1 db2 = (Ok (last_n 1 records), loaded.2).
Proof.
  refine (tail_is_end_of_log "acme" "api" 1 db2 loaded.2 head_repo two_ops eq_refl _ two_ops_linear two_ops_times).
  assert (loaded.1 = Ok head_repo) as Hr by (apply is_ok_unwrap; vm_compute; reflexivity).
  rewrite <- Hr. apply surjective_pairing.
Defined.

Lemma jj_walks_return_witness :
  operations_of (repo_key "acme" "api") head_repo loaded.2 ≠ Stuck ∧
  undo_walk (repo_key "acme" "api") loaded.2 (operation_fuel (repo_key "acme" "api") loaded.2) [] 0
    (jr_op_id head_repo, jr_op head_repo) ≠ Stuck.
Proof.
  destruct (jj_walks_return (repo_key "acme" "api") loaded.2 head_repo) as (_ & _ & Hops & _ & _ & Hundo).
  split; [exact Hops|exact (Hundo two_ops two_ops_linear)].
Defined.

(** Two schemas are written into the empty tree. *)
Definition two_writes : list SchemaWrite := [WritePatch "a.proto" effect_a; WritePatch "b.proto" effect_b].
Definition overrides_of : outcome JjError (gmap string MergedTreeValue) * Inner := apply_schema_writes empty_merged_tree two_writes ∅ db0.
Definition overrides : gmap string MergedTreeValue := unwrap_or overrides_of.1 ∅.
Definition built : outcome string MergedTree * Inner := builder_write_tree empty_merged_tree overrides overrides_of.2.
Definition new_tree : MergedTree := unwrap_or built.1 [].

Lemma empty_tree_entries : tree_entries empty_merged_tree db0 = [].
Proof. apply nil_length_inv. vm_compute. reflexivity. Qed.

Lemma empty_tree_ok : tree_ok_in empty_merged_tree db0.
Proof. unfold tree_ok_in. rewrite empty_tree_entries. by intros p r ?%not_elem_of_nil. Qed.

Lemma two_writes_ok : Forall (write_ok empty_merged_tree db0) two_writes.
Proof.
  constructor; [|constructor; [|constructor]].
  - split; [split; apply (bool_decide_eq_true _); vm_compute; reflexivity|]. by left.
  - split; [split; apply (bool_decide_eq_true _); vm_compute; reflexivity|].
    right. exists "B"%string, blob_a. vm_compute. reflexivity.
Qed.

Lemma two_writes_no_collision : no_collision db0 (two_writes ≫= write_blobs).
Proof.
  assert (Forall (λ b, (length b ≤ 62)%nat ∧ file_at db0 (digest b) = None) (two_writes ≫= write_blobs)) as Hall.
  { repeat (constructor; [split; [vm_compute; lia|vm_compute; reflexivity]|]). constructor. }
  intros b Hb. destruct (proj1 (Forall_forall _ _) Hall b Hb) as [Hl Hf]. split.
  - intros y Hy. change (blake2b512 b) with (digest b) in Hy. congruence.
  - intros y _. by apply digest_short.
Qed.

Lemma overrides_do_not_clash : no_clash (overridden overrides (entry_at empty_merged_tree db0)).
Proof.
  assert (∀ p, is_Some (overridden overrides (entry_at empty_merged_tree db0) p) → p ∈ (map_to_list overrides).*1) as Hin.
  { intros p. unfold overridden, entry_at. rewrite empty_tree_entries. destruct (overrides !! p) as [v|] eqn:Hv; [|by intros []].
    intros _. apply list_elem_of_fmap. exists (p, v). split; [done|]. by apply elem_of_map_to_list. }
  assert (forallb (λ p, forallb (λ q, negb (bool_decide (is_Some (strip_prefix (p +:+ "/") q)))) (map_to_list overrides).*1)
            (map_to_list overrides).*1 = true) as Hall by (vm_compute; reflexivity).
  intros p q Hp%Hin%list_elem_of_In Hq%Hin%list_elem_of_In.
  apply (proj1 (forallb_forall _ _) Hall p) in Hp. apply (proj1 (forallb_forall _ _) Hp q) in Hq.
  apply negb_true_iff, bool_decide_eq_false in Hq. by apply eq_None_not_Some.
Qed.

Lemma written_tree_loads_plan_witness :
  tree_ok_in new_tree built.2 ∧
  ∀ schema, loads new_tree built.2 schema = after_writes two_writes (loads empty_merged_tree db0) schema.
Proof.
  refine (written_tree_loads_plan empty_merged_tree two_writes db0 overrides_of.2 overrides new_tree built.2
    empty_tree_ok _ two_writes_ok two_writes_no_collision _ _ overrides_do_not_clash).
  - apply (bool_decide_eq_true _). vm_compute. reflexivity.
  - assert (overrides_of.1 = Ok overrides) as Hr by (apply is_ok_unwrap; vm_compute; reflexivity).
    rewrite <- Hr. apply surjective_pairing.
  - assert (built.1 = Ok new_tree) as Hr by (apply is_ok_unwrap; vm_compute; reflexivity).
    rewrite <- Hr. apply surjective_pairing.
Defined.

(** ** Undo after an undo and a write *)

Definition effect_c : MutationEffect := mkMutationEffect None [("C"%string, blob_a)] [].

Definition db3 : Inner := (jj_undo "acme" "api" "ann" db2).2.
Definition db4 : Inner := (run (write_of effect_c) db3).2.
Definition db5 : Inner := (jj_undo "acme" "api" "ann" db4).2.

Definition declarations (d : Inner) : outcome JjError (list string) :=
  (jj_list_declarations "acme" "api" "a.proto" (RefBookmark "main") d).1.

(** The operations of the log, newest first. *)
Fixpoint chain_from (key : string) (d : Inner) (fuel : nat) (x : list byte * JjOperation) : list (list byte * JjOperation) :=
  match fuel, next_parent x.2 with
  | Datatypes.S fuel, Some id => x :: chain_from key d fuel (id, unwrap_or (read_operation key id d) no_op)
  | _, _ => [x]
  end.

Fixpoint linked_test (key : string) (d : Inner) (chain : list (list byte * JjOperation)) : bool :=
  match chain with
  | [] => true
  | x :: chain =>
    negb (bool_decide (x.1 = root_operation_id)) &&
    match chain with
    | [] => bool_decide (live_parents x.2 = [])
    | y :: _ => bool_decide (live_parents x.2 = [y.1]) && reads_as (read_operation key y.1 d) y.2
    end && linked_test key d chain
  end.

Lemma linked_test_sound key d chain : linked_test key d chain = true → linked key d chain.
Proof.
  induction chain as [|x chain IH]; [done|]. cbn [linked_test linked]. intros [[Hx Hc]%andb_true_iff Hl]%andb_true_iff.
  apply negb_true_iff, bool_decide_eq_false in Hx. split; [done|]. split; [|by apply IH].
  destruct chain as [|y chain]; [by apply bool_decide_eq_true in Hc|].
  apply andb_true_iff in Hc as [Hp%bool_decide_eq_true Hr%reads_as_Ok]. done.
Qed.

Lemma linear_test key d repo x chain :
  x = (jr_op_id repo, jr_op repo) → linked_test key d (x :: chain) = true → bool_decide (NoDup (x :: chain).*1) = true →
  (length (x :: chain) <=? length (list_ops key d))%nat = true → linear_history key d repo (x :: chain).
Proof.
  intros -> Hl%linked_test_sound Hn%bool_decide_eq_true_1 Hlen%Nat.leb_le. by split.
Qed.

Definition loaded4 : outcome JjError jj_repo * Inner := load_repo (repo_key "acme" "api") db4.
Definition head4 : jj_repo := unwrap_or loaded4.1 (mkJjRepo [] no_op (make_root_view [])).
Definition undo4 : outcome (PublicationError string) string * Inner := undo_validated "acme" "api" "ann" accept db4.

(** The last write, the undo, the write that was undone, and the ones before it. *)
Definition last4 : list byte * JjOperation := (jr_op_id head4, jr_op head4).
Definition older (n : nat) : list (list byte * JjOperation) := drop n (chain_from (repo_key "acme" "api") loaded4.2 9 last4).
Definition nth_op (n : nat) : list byte * JjOperation := default last4 (head (older n)).

Lemma chain4_linear :
  linear_history (repo_key "acme" "api") loaded4.2 head4 (last4 :: nth_op 1 :: nth_op 2 :: older 3).
Proof.
  apply linear_test; [reflexivity|vm_compute; reflexivity|vm_compute; reflexivity|vm_compute; reflexivity].
Qed.

Lemma undo_restores_by_count_witness :
  ∃ view op_id op, read_operation (repo_key "acme" "api") op_id undo4.2 = Ok op ∧ view_of op undo4.2 (stored_view view) ∧
    view_of (nth_op 2).2 loaded4.2 view.
Proof.
  assert (loaded4.1 = Ok head4) as Hl by (apply is_ok_unwrap; vm_compute; reflexivity).
  assert (undo4.1 = Ok (unwrap_or undo4.1 ""%string)) as Hu by (apply is_ok_unwrap; vm_compute; reflexivity).
  destruct (undo_restores_by_count "acme" "api" "ann" accept db4 loaded4.2 head4
              (last4 :: nth_op 1 :: nth_op 2 :: older 3)) as [_ Hr].
  - rewrite <- Hl. apply surjective_pairing.
  - exact chain4_linear.
  - destruct (Hr (unwrap_or undo4.1 ""%string) undo4.2) as (undone & view & op_id & op & _ & _ & _ & Hop & _ & _ & Hv & Hb).
    { rewrite <- Hu. apply surjective_pairing. }
    exists view, op_id, op. split; [exact Hop|]. split; [exact Hv|].
    apply (Hb last4 (nth_op 1) (nth_op 2) (older 3) eq_refl); vm_compute; reflexivity.
Defined.

(** Undo does not always go back to the state before the last change. The
    schema has [A], a write replaces it by [B], an undo brings [A] back, and a write
    adds [C]. Undoing that write gives [B], the change that had been undone, and not
    [A], which was there before: the walk counts the writes and skips the undo
    between them. *)
Theorem undo_restores_undone_change :
  declarations db1 = Ok ["A"%string] ∧ declarations db2 = Ok ["B"%string] ∧
  declarations db3 = Ok ["A"%string] ∧ declarations db4 = Ok ["A"%string; "C"%string] ∧
  is_ok (jj_undo "acme" "api" "ann" db4).1 = true ∧ declarations db5 = Ok ["B"%string].
Proof. vm_compute. repeat split. Qed.
